(* ===== verification/_CoqProject ===== *)
-Q . S2P
Prelude.v
Float64.v
RustStr.v
RustChar.v
Json.v
WorkflowExpr.v
WorkflowExprFacts.v
Database.v
Outbox.v
OutboxFacts.v
WriteHooks.v
WorkflowSpec.v
WorkflowStore.v
WorkflowEngine.v
WorkflowModel.v
WorkflowSim.v
WorkflowRefine.v
WorkflowExample.v
WorkflowProps.v
ModuleRegistry.v
ModuleRegistryFacts.v
StateMachine.v
RateLimit.v
NetAddr.v
NetAddrFacts.v
TrustedProxies.v
TrustedProxiesFacts.v
Grants.v
Permission.v
GrantsFacts.v
Filter.v
FilterParser.v
FilterFacts.v
FilterParserFacts.v
Cursor.v
Keyset.v
ListQuery.v
ListFacts.v
RepositoryErrors.v
CrudWrite.v
CrudService.v
MemoryRepository.v
CrudServiceFacts.v
CrudPatchFacts.v
MemoryRepositoryFacts.v
CrudExample.v
RowRule.v
RowRuleFacts.v
JobTypes.v
Cron.v
CronFacts.v
Job.v
QueueMessage.v
Queue.v
JobScheduler.v
JobSchedulerFacts.v
Fifo.v
FifoFacts.v
Deduplication.v
DeduplicationFacts.v
Authorization.v
AuthorizationFacts.v
Tenant.v
TenantFacts.v
RequestScope.v
RequestScopeFacts.v
OrgScopeFacts.v
Session.v
SessionFacts.v
Idempotency.v
Maintenance.v
Policy.v
IntegrationBus.v
MemoryCache.v
Http.v
Extractors.v
HttpHandlers.v
HttpFacts.v
PgRepository.v
PgRepositoryFacts.v
