(* ===== verification/Prelude.v ===== *)
(** * Verification of the backbone framework

    The backbone framework is a set of Rust crates for business applications over
    Postgres: generated modules with CRUD services, workflows that run across events and
    waits, a transactional outbox, tenants fenced by row-level security, and the services
    around them. This development models the parts that carry state from one request to the
    next or decide what a request may do, as functions one can run, and proves what makes
    them correct.

    ** The parts and how they meet

    A request runs as a task that may carry a company, a connection and a write transaction
    ([backbone-orm/src/org_scope.rs], [company_scope.rs], [write_tx.rs]). The workflow engine
    ([backbone-core/src/workflow/]) does all its work inside such transactions: an event
    delivered from the outbox starts instances and resumes waits, a background sweep picks up
    what is due, each step logs itself and moves the instance's row, and events, actions
    and compensations go through [WriteCtx] ([write_hooks.rs]) into the outbox
    ([backbone-outbox/src/]) of the same transaction. A relay drains the outbox to a
    transport, and consumers claim each event once through the inbox. The generic CRUD service
    ([backbone-core/src/service.rs]) does each write in one transaction too: it asks the guard
    ([write_guard.rs]), the lifecycle and the hooks, checks the row's references, writes through
    its repository ([persistence/traits.rs], [persistence/memory.rs]) and publishes its events
    ([backbone-messaging/src/crud_event.rs]) after the commit. A list is read through the ORM
    ([backbone-orm/src/filter/], [repository.rs]): the request's parameters become a WHERE and an
    ORDER BY clause, a cursor becomes a predicate. Both are served by the generic handlers
    ([http.rs], [extractors.rs]): they read the body and the query, refuse what the caller may not
    name, call the service, and cut the rows it answers down to what the caller may see. The module registry
    ([module_registry.rs]) orders modules for migration, boot and shutdown; state machines
    ([state_machine.rs]) guard entity transitions; the rate limiter
    ([backbone-rate-limit/src/]) stands before the application; behind it, the resolver's layer
    ([backbone-auth/src/resolver.rs]) gives a request the permissions its user holds
    ([grants.rs]) and each route's own layer ([backbone-core/src/permission.rs]) checks them.
    Jobs ([backbone-jobs/src/]) are kept with the next time of their cron expression; a background
    task runs those that are due, which puts a message on a queue ([backbone-queue/src/]); over any
    queue there are a wrapper that refuses duplicates and keeps groups in order ([fifo.rs]) and a
    service that lets a message be processed by one at a time ([deduplication.rs]).

    A served request passes through layers before its handler. In a deployment with a database for each
    tenant, the router of backbone-tenant ([axum_router.rs], [resolve.rs], [lib.rs]) finds the tenant in
    the host, builds its runtime once and gives the request the tenant's pool. A session guard of
    backbone-auth ([company.rs], [org.rs], [audience.rs]) checks the token, puts the company or the acting
    unit beside the request and opens its scope, whose connection carries the session variables that
    row-level security reads ([company_scope.rs], [org_scope.rs] again). The layer of
    [backbone-auth/src/idempotency.rs] answers a repeated key with the stored answer. What a user's roles
    allow is answered by the service of [backbone-authorization/src/], behind its cache. The outermost
    layer is the gate of [backbone-maintenance/src/lib.rs], which turns everything away while it is on.
    Beside the request stand what modules share: policies and specifications over entities
    ([backbone-core/src/policy.rs], [specification.rs], [backbone-auth/src/resource_policy.rs]), events between
    modules ([backbone-messaging/src/integration_bus.rs]), and a cache ([backbone-cache/src/memory.rs]).

    ** The files

    - [Prelude]: results with panics, the state monad [sm], its rules ([wp], [keeps], [wpo],
      [agree], [sm_bind_ext]), machine integers, shared lemmas and tactics.
    - [Float64], [RustStr], [RustChar], [NetAddr]: [f64], [str], [char] and [IpAddr] as the sources
      use them; [NetAddrFacts] reads an address back from its text.
    - [Json]: [serde_json] values; text forms of numbers, uuids and times are the parameters
      [Libs]. Module [Concrete] instantiates them.
    - [WorkflowExpr] (expr.rs), [WorkflowExprFacts]: expressions, templates, durations, wait keys.
    - [Database]: the tables beside a [World] (clock, random ids, a failure at any round
      trip), tasks and their scopes, [in_write_tx] with its savepoints and rollback.
    - [Outbox] (error.rs, record.rs, outbox.rs, inbox.rs, relay.rs, runner.rs), [OutboxFacts].
    - [WriteHooks]: the write context, violations and the service's errors.
    - [WorkflowSpec] (spec.rs), [WorkflowStore] (schema.rs and every SQL statement of the engine, each
      a function on the tables seen through the company fence), [WorkflowEngine] (engine.rs, every
      operation).
    - [WorkflowModel]: the abstract machine, its steps, its invariant and the order in which
      tables evolve. [WorkflowSim]: each transaction body is steps of it. [WorkflowRefine]: so is each
      operation, under any failure. [WorkflowExample]: a workflow that runs. [WorkflowProps]: the
      engine's theorems.
    - [ModuleRegistry], [ModuleRegistryFacts]; [StateMachine].
    - [RateLimit] (types.rs, storage.rs, limiter.rs) and [TrustedProxies] (proxy.rs, middleware.rs);
      [TrustedProxiesFacts] holds the facts of both.
    - [Grants] (backbone-auth's grants.rs, middleware.rs, resolver.rs), [Permission] (permission.rs,
      with its facts), and [GrantsFacts] for both together.
    - [Filter] (types.rs, condition.rs, query.rs), [FilterParser] (parser.rs, validation.rs, error.rs),
      [FilterFacts], [FilterParserFacts]: a request's parameters and the clauses they become.
    - [Cursor] (cursor.rs, with its facts); [Keyset]: what a cursor's predicate means on rows.
      [ListQuery] (repository.rs, the paged list), [ListFacts] with a list that is walked.
    - [RepositoryErrors] (traits.rs, violation.rs: what a database refusal is answered with; filter/error.rs: the
      parameter behind it), with its facts.
    - [CrudWrite] (traits.rs, write_guard.rs, write_hooks.rs, crud_event.rs: entities, repositories,
      guards, changes, hooks, lifecycle, events), [CrudService] (service.rs, every write and read),
      [MemoryRepository] (memory.rs).
    - [CrudServiceFacts]: transactions and events; reading the whole trash.
      [CrudPatchFacts]: patches and protected fields. [MemoryRepositoryFacts]: the
      repository in memory and the service over it. [CrudExample]: a document store that runs.
    - [Http] (http.rs: answers, list queries, fields; secret_registry.rs, field_permission_registry.rs),
      [Extractors] (extractors.rs), [HttpHandlers] (http.rs: the interface [CrudServiceApi] and every handler
      over it, with the generic service as an instance), [HttpFacts] with accounts that are served.
    - [RowRule] (row_rule.rs: the values of a compiled row rule and its operators), [RowRuleFacts]:
      their laws, and rules as expressions over them.
    - [JobTypes] (error.rs, types.rs of backbone-jobs), [Cron] (cron.rs), [CronFacts], [Job] (job.rs,
      job_storage/), [JobScheduler] (scheduler.rs, job_executor/), [JobSchedulerFacts] over the laws of
      a store, which the one in memory keeps.
    - [QueueMessage] (types.rs, lib.rs of backbone-queue), [Queue] (traits.rs, and the queue in memory of
      job_executor/mod.rs), [Fifo] (fifo.rs), [FifoFacts] over the laws of a queue;
      [Deduplication] (deduplication.rs), [DeduplicationFacts] over the laws of a storage.
    - [Authorization] (types.rs, service.rs, cache.rs, middleware.rs of backbone-authorization),
      [AuthorizationFacts].
    - [Tenant] (lib.rs, resolve.rs, provision.rs of backbone-tenant), [TenantFacts], over a registry used
      by many requests at once.
    - [RequestScope] (org_scope.rs, company_scope.rs, audit_context.rs: pools, connections, scopes and the
      statements under them), [RequestScopeFacts]; [OrgScopeFacts]: the units a session sees.
    - [Session] (org.rs, company.rs, audience.rs of backbone-auth and axum_router.rs of
      backbone-tenant), [SessionFacts]; [Idempotency] (idempotency.rs, with its facts).
    - Each with its facts and an example that runs: [Maintenance] (backbone-maintenance's lib.rs), [Policy]
      (policy.rs, resource_policy.rs, specification.rs), [IntegrationBus] (integration.rs,
      integration_bus.rs), [MemoryCache] (memory.rs and traits.rs of backbone-cache, its operations as
      programs of lock steps).
    - [PgRepository] (generic_repository.rs, the writes and aggregates of repository.rs, and the repository that
      [impl_crud_repository] of backbone-core's macros.rs makes of them, an instance of the service's and the lists'
      interfaces): a statement is the function on the tables that its text means, under the fence of the session that
      runs it. [PgRepositoryFacts], with a repository of notes that runs.

    ** What is shown

    Each property is named by its theorem.
    - The engine refines the abstract machine ([engine_refines]), keeps its invariant ([engine_inv]),
      never rewrites what is there ([engine_evolves]) and keeps tenants apart ([engine_isolation]), over
      any sequence of requests and with the database, the definitions' own code and the clock free to
      fail or answer anything at each call. Transactions are all or nothing ([in_write_tx_atomic]).
      Starting and resuming are idempotent per event (lemmas [start_idempotent] and
      [resume_idempotent]), lemma [cancel_spec] says what cancelling does on every branch,
      driving leaves nothing stuck ([drive_settles]), retries follow the policy.
    - Nothing staged in the outbox is lost ([outbox_never_loses]), lemmas [drain_once_accounts]
      and [once_claims]: a relay pass does to each row what the transport answered, claims are exact.
    - A write of the CRUD service is one transaction and then its events ([service_writes_atomic]); no
      update reaches the repository with a protected field changed ([protected_fields_kept]); a patch
      does what it should in any order of its fields ([merge_patch_spec]); the whole trash is read in
      bounded time and whole ([whole_trash_ends], and lemma [whole_trash_complete]); the in-memory repository
      keeps its invariant, pages its rows without loss, and the service over it moves rows all or
      nothing and back (lemmas [mem_repository_inv], [memory_bulk_soft_delete], [trash_round_trip] and
      [mem_pages_partition]). A broken constraint answers its rule on its field
      (lemma [broken_rule_named]).
    - The generic repository over Postgres touches and answers only rows its session's fence shows
      ([repository_fenced]); its batches are done whole or not at all ([batches_all_or_nothing]); an update writes
      the changed columns of one live row ([changed_columns_alone]); an aggregate's statement holds no name of its caller's
      ([aggregate_answers]). A refusal of the database names the parameter that caused it (lemma
      [refusals_name_parameters]), and quoted names read back (lemma [column_list_reads]).
    - An answer shows of each field what its caller may be shown ([answers_show_what_may_be_seen],
      lemma [writes_answer_without_secrets]); a body or a query that names what the caller may not set or ask
      about goes no further ([gated_writes_stop], [refused_queries_stop]), but for the sorts of Example
      [secret_sorts_pass]; errors say no more than their kind ([failures_say_no_more]); the dry run of a
      bulk patch sorts its rows (lemma [preview_sorts_rows]).
    - A walk by cursors hands out every row once ([list_paging]); a cursor reads back
      ([cursor_round_trip]) and its predicate is true of the rows after it
      (lemma [keyset_predicate_meaning]); a WHERE clause is closed groups with numbered parameters
      ([request_where_clause]), and a request writes no SQL of its own into it ([parse_filters_safe]).
    - Row rules are SQL's three-valued expressions ([rules_follow_sql]): what they refuse of a row with
      gaps they refuse however these are filled (lemma [refusal_stays]), and over a full row they decide
      (lemma [typed_rule_decides]).
    - A cron expression reads back from its text and its next times are complete (lemmas
      [cron_round_trip] and [next_n_after_spec]); background rounds lose no job and run none more often than its attempts
      ([background_rounds]); scheduling and the end of a run do what they say (lemmas
      [schedule_job_spec] and [finish_job_spec]).
    - A deduplication id is refused for its window ([fifo_exactly_once]), a batch keeps the order of its
      groups (lemma [fifo_batch_order]); a key is processed by one at a time ([processing_exclusive]), the
      cache in memory keeps its bound (lemma [memory_cache_bounded]), and the check for a duplicate takes its lock twice
      (lemma [duplicate_check_waits]).
    - Lemma [parse_duration_show]: durations of expressions read back.
    - The registry's order exists exactly when it can, is never stale, and is the order of boots
      ([topological_sort_spec], and lemmas [modules_ordered_fresh], [boot_all_order]). State machines follow their
      table (lemma [sm_serve_spec]).
    - The limiter serves at most twice the limit in any window's length ([requests_bound]), is not
      affected by dropping counters, holds its lockouts, and counts the right client
      (lemma [client_ip_unspoofable]).
    - A permission check answers what is covered and nothing else (lemmas [check_held_spec]
      and [spellings_cover]); a guarded handler runs only for a caller who holds what the route needs
      ([guarded_route_spec]).
    - The authorization service answers from what the roles were at some moment within the cache's time
      ([authorization_recent]), and a route it protects runs only for those it allows
      (lemma [protected_request]).
    - Two tenants never share a runtime, however their requests interleave ([registry_isolates]), the
      registry keeps its bound, and two tenants' databases have two names
      (lemmas [registry_bound], [database_names_distinct]).
    - A statement under a scope runs with that scope's variables and no others ([statements_fenced]), and a
      connection goes back to its pool without any ([request_scopes_clean]); a session sees the subtrees
      it is entitled to and the root (lemma [resolve_org_scope_spec]).
    - A request behind the router and a guard runs in its own tenant's database and in the scope of a
      token minted for that tenant ([session_isolated]); a token reads back as it was issued
      ([issued_token_verifies]); a write that is retried is answered again and not run again
      ([retried_write]).
    - The maintenance gate is what the last accepted toggle made it, lets the allowed paths through and
      no others while it is on ([maintenance_gate]); where they leave out its own route it stays on
      (lemma [locked_out]).
    - Policies put together mean the formula over their parts, and so do specifications
      (lemmas [policies_mean] and [specifications_mean]).
    - An integration event reaches one handler of each name that wants it, and the ones that fail leave
      a dead letter ([publish_delivers]).
    - The cache answers what was last set until its time is over ([cache_answers_last_set]); each of its
      operations keeps to its locks, and one that runs alone is the function that the theorem is about (lemmas
      [set_well_locked] and its like, [alone_run]); two that run together may wait for each other for ever
      (lemma [locks_cross]).

    ** How it is modelled

    A call's result is [Ok], [Err] or [Panic], and its state is kept whatever the result;
    [in_write_tx] is where a failure rolls back. Integers are [Z] with their width written out;
    an overflow is a panic, as under Rust's overflow checks, or a parameter says which. Code outside
    the repository is a parameter: Postgres's interval arithmetic beside the modelled tables, its
    types, defaults, constraints, collation and policies, of which [PostgresLaws] says that a row written is one its writer is
    shown, the statements' answers of a list and the rows of an aggregate, the libraries' text formats, the character tables beyond ASCII, the
    HTTP header map, the decoders of bodies and query strings, a transport, the source of grants, an entity's own code and its JSON form, the
    guards, hooks and lifecycles of an application, the modules' and the definitions' own code, clocks, time zones and chrono's durations, random numbers,
    the hashes of the standard library's hasher and the order in which a hash map is walked, what a
    tenant's runtime is and how it is built, the custom domains of a control plane, the signature of a
    token, the database's functions over the organization's tree, an application's policies, what an event's
    handlers do and what passes while the bus pauses.
    Each has a concrete instance, with which the definitions are evaluated and the theorems
    instantiated.

    Recursion that is not structural has fuel: a drive makes [max_steps] rounds, as the code
    bounds it; the registry's visit has one unit per registered module and one more, and
    [topological_sort_spec] shows it never runs out; reading the trash has eleven rounds, and
    [whole_trash_ends] shows that more change nothing; trimming a string has its length; the
    search for a cron expression's next time tries the 100000 minutes the code tries, and reading one
    group of a queue makes the code's 50 attempts. Walking up the organization to a company has one unit
    for each row and one more, which a tree never uses up; making room in the registry of tenants
    has one for each entry; reading a list of quoted names has the length of its text, of which each name takes some.

    A transaction runs alone: row locks and the interleaving of two open transactions are not
    modelled. Pools and the variables of their connections are those of [RequestScope]; a transaction of
    [Database] names its scope and no connection. Tracing and DDL texts are left out.

    ** Not modelled

    The query builder, raw queries and the adapter of persistence/postgres.rs pass on SQL that their callers write,
    and migrations, seeding and the commands that create tenants' databases are Postgres's. A statement that
    fails inside a transaction is modelled to change nothing; that Postgres refuses the transaction's later ones is
    not. An aggregate's reads of the catalog, of enum types and of its rows run as one body in the
    model, where the code makes a statement of each. The
    compensation's outcome and the sweep's choice of due rows are part of the engine's model, with no
    theorem of their own beside the engine's. A connection handed out of its scope by cloning its handle
    ([current_org_conn]) is not followed once the scope has ended. The Redis counters and caches are a
    server's. Left aside too: clients of external services (mail, search, object storage, brokers),
    passwords and the algorithms of tokens, metrics, configuration records, the routers
    that mount the handlers, and the gRPC and GraphQL glue. *)
From stdpp Require Export base gmap sets strings option relations list sorting.

(** ** Results

    Rust's [Result<A, E>], with the third way a call can end: a panic, which
    unwinds through every caller. *)
Inductive res (E A : Type) : Type :=
  | Ok (a : A)
  | Err (e : E)
  | Panic.
Arguments Ok {_ _} _.
Arguments Err {_ _} _.
Arguments Panic {_ _}.

#[export] Instance res_ret {E} : MRet (res E) := λ A a, Ok a.
#[export] Instance res_bind {E} : MBind (res E) := λ A B f r,
  match r with Ok a => f a | Err e => Err e | Panic => Panic end.
(** A result that does not panic, and a value that may be missing where the code would. *)
Definition res_of_sum {E A} (r : E + A) : res E A := match r with inl e => Err e | inr a => Ok a end.
Definition or_panic {E A} (o : option A) : res E A := match o with Some a => Ok a | None => Panic end.

Definition res_map_err {E F A} (f : E → F) (r : res E A) : res F A :=
  match r with Ok a => Ok a | Err e => Err (f e) | Panic => Panic end.

(** ** Computations over a state

    A computation keeps its state when it fails: what a failed transaction does
    to the database is then said where the transaction is ended, and what it
    consumed outside the database (clock readings, random ids) stays consumed. *)
Definition sm (S E A : Type) : Type := S → res E A * S.

#[export] Instance sm_ret {S E} : MRet (sm S E) := λ A a s, (Ok a, s).
#[export] Instance sm_bind {S E} : MBind (sm S E) := λ A B f m s,
  match m s with
  | (Ok a, s') => f a s'
  | (Err e, s') => (Err e, s')
  | (Panic, s') => (Panic, s')
  end.

Definition sm_of {S E A} (f : S → res E A * S) : sm S E A := f.
Definition sm_err {S E A} (e : E) : sm S E A := λ s, (Err e, s).
Definition sm_panic {S E A} : sm S E A := λ s, (Panic, s).
Definition sm_get {S E} : sm S E S := λ s, (Ok s, s).
Definition sm_put {S E} (s' : S) : sm S E unit := λ _, (Ok tt, s').
Definition sm_lift {S E A} (r : res E A) : sm S E A := λ s, (r, s).

(** [map_err(f)] *)
Definition map_err {S E F A} (f : E → F) (m : sm S E A) : sm S F A := λ s,
  (res_map_err f (m s).1, (m s).2).

(** The computation's own result as a value, as [match m.await { .. }] sees it.
    A panic is not caught. *)
Definition attempt {S E F A} (m : sm S E A) : sm S F (E + A) := λ s,
  match m s with
  | (Ok a, s') => (Ok (inr a), s')
  | (Err e, s') => (Ok (inl e), s')
  | (Panic, s') => (Panic, s')
  end.

(** [for x in l { body(x)? }] *)
Fixpoint sm_iter {S E A} (body : A → sm S E unit) (l : list A) : sm S E unit :=
  match l with
  | [] => mret tt
  | x :: l' => body x ≫= λ _, sm_iter body l'
  end.

(** [for x in l { acc = body(acc, x)? }] *)
Fixpoint sm_fold {S E A B} (body : B → A → sm S E B) (acc : B) (l : list A) : sm S E B :=
  match l with
  | [] => mret acc
  | x :: l' => body acc x ≫= λ acc', sm_fold body acc' l'
  end.

(** A computation over a part of the state, run on the whole. *)
Definition sm_zoom {S T E A} (get : S → T) (set : T → S → S) (m : sm T E A) : sm S E A := λ s,
  let '(r, t) := m (get s) in (r, set t s).

(** ** Weakest preconditions

    [wp m Φ s]: running [m] from [s] ends in a result and a state that [Φ]
    accepts. Every result counts, errors and panics included. *)
Definition wp {S E A} (m : sm S E A) (Φ : res E A → S → Prop) (s : S) : Prop :=
  Φ (m s).1 (m s).2.

Section wp_rules.
Context {S E A B : Type}.
Implicit Types (s : S).

Lemma wp_mono (m : sm S E A) (Φ Ψ : res E A → S → Prop) s :
  wp m Φ s → (∀ r s', Φ r s' → Ψ r s') → wp m Ψ s.
Proof. unfold wp. auto. Qed.

Lemma wp_ret (a : A) (Φ : res E A → S → Prop) s : Φ (Ok a) s → wp (mret a) Φ s.
Proof. done. Qed.

Lemma wp_err (e : E) (Φ : res E A → S → Prop) s : Φ (Err e) s → wp (sm_err e) Φ s.
Proof. done. Qed.

Lemma wp_panic (Φ : res E A → S → Prop) s : Φ Panic s → wp sm_panic Φ s.
Proof. done. Qed.

Lemma wp_lift (r : res E A) (Φ : res E A → S → Prop) s : Φ r s → wp (sm_lift r) Φ s.
Proof. done. Qed.

Lemma wp_get (Φ : res E S → S → Prop) s : Φ (Ok s) s → wp sm_get Φ s.
Proof. done. Qed.

Lemma wp_put t (Φ : res E unit → S → Prop) s : Φ (Ok tt) t → wp (sm_put t) Φ s.
Proof. done. Qed.

Lemma wp_bind (m : sm S E A) (f : A → sm S E B) (Φ : res E B → S → Prop) s :
  wp m (λ r s', match r with
                | Ok a => wp (f a) Φ s'
                | Err e => Φ (Err e) s'
                | Panic => Φ Panic s'
                end) s →
  wp (m ≫= f) Φ s.
Proof. unfold wp, mbind, sm_bind. destruct (m s) as [[a|e|] s']; done. Qed.

Lemma wp_map_err {F} (g : E → F) (m : sm S E A) (Φ : res F A → S → Prop) s :
  wp m (λ r s', Φ (res_map_err g r) s') s → wp (map_err g m) Φ s.
Proof. done. Qed.

Lemma wp_attempt {F} (m : sm S E A) (Φ : res F (E + A) → S → Prop) s :
  wp m (λ r s', match r with
                | Ok a => Φ (Ok (inr a)) s'
                | Err e => Φ (Ok (inl e)) s'
                | Panic => Φ Panic s'
                end) s →
  wp (attempt m) Φ s.
Proof. unfold wp, attempt. destruct (m s) as [[a|e|] s']; done. Qed.
End wp_rules.

(** A loop keeps what every round of it keeps. *)
Lemma wp_iter {S E A} (body : A → sm S E unit) (l : list A) (I : S → Prop)
    (X : res E unit → S → Prop) s :
  I s →
  (∀ x s', x ∈ l → I s' → wp (body x) (λ r s'', match r with Ok _ => I s'' | r => X r s'' end) s') →
  (∀ s', I s' → X (Ok tt) s') →
  wp (sm_iter body l) X s.
Proof.
  intros HI Hbody HX. revert s HI. induction l as [|x l IH]; intros s HI; simpl.
  - apply wp_ret. auto.
  - apply wp_bind. eapply wp_mono; [apply Hbody; [left|done]|].
    intros [[]|e|] s' H; [|done|done]. apply IH; [|done].
    intros y t Hy. apply Hbody. by right.
Qed.

(** A loop of checks that leave the state alone: it passes where each of them does. *)
Lemma wp_iter_check {S E A} (body : A → sm S E unit) (l : list A) (P : A → Prop) (Q : E → Prop) s :
  (∀ x, x ∈ l → wp (body x) (λ r s', s' = s ∧
     match r with Ok _ => P x | Err e => Q e | Panic => False end) s) →
  wp (sm_iter body l) (λ r s', s' = s ∧
     match r with Ok _ => Forall P l | Err e => Q e | Panic => False end) s.
Proof.
  induction l as [|x l IH]; intros Hbody; simpl; [by apply wp_ret|].
  apply wp_bind. eapply wp_mono; [apply Hbody; left|].
  intros [[]|e|] s' [-> Hx]; [|done..]. eapply wp_mono; [apply IH; intros y Hy; apply Hbody; by right|].
  intros [[]|e|] s' [-> Hl]; [|done..]. split; [done|]. by constructor.
Qed.

(** The same for a loop with an accumulator. *)
Lemma wp_fold {S E A B} (body : B → A → sm S E B) (l : list A) (I : B → S → Prop)
    (X : res E B → S → Prop) b s :
  I b s →
  (∀ x b' s', x ∈ l → I b' s' →
     wp (body b' x) (λ r s'', match r with Ok b'' => I b'' s'' | r => X r s'' end) s') →
  (∀ b' s', I b' s' → X (Ok b') s') →
  wp (sm_fold body b l) X s.
Proof.
  intros HI Hbody HX. revert b s HI. induction l as [|x l IH]; intros b s HI; simpl.
  - apply wp_ret. auto.
  - apply wp_bind. eapply wp_mono; [apply Hbody; [left|done]|].
    intros [b'|e|] s' H; [|done|done]. apply IH; [|done].
    intros y b'' t Hy. apply Hbody. by right.
Qed.

(** ** What a computation leaves alone

    [keeps R m]: whatever the result, the state [m] ends in is [R]-related to the
    one it started from. [R] is a preorder: equality of a part of the state, or
    reachability. *)
Definition keeps {S E A} (R : relation S) (m : sm S E A) : Prop := ∀ s, R s (m s).2.

Create HintDb keeps.

Section keeps_rules.
Context {S E : Type} (R : relation S) `{!PreOrder R}.

Lemma keeps_ret {A} (a : A) : keeps (E:=E) R (mret a).
Proof. intros s. simpl. reflexivity. Qed.

Lemma keeps_err {A} (e : E) : keeps (A:=A) R (sm_err e).
Proof. intros s. simpl. reflexivity. Qed.

Lemma keeps_lift {A} (r : res E A) : keeps R (sm_lift r).
Proof. intros s. simpl. reflexivity. Qed.

Lemma keeps_bind {A B} (m : sm S E A) (f : A → sm S E B) :
  keeps R m → (∀ a, keeps R (f a)) → keeps R (m ≫= f).
Proof.
  intros Hm Hf s. specialize (Hm s). unfold mbind, sm_bind.
  destruct (m s) as [[a|e|] s']; simpl in *; [|done|done].
  etrans; [exact Hm|apply Hf].
Qed.

Lemma keeps_map_err {F A} (g : E → F) (m : sm S E A) : keeps R m → keeps R (map_err g m).
Proof. intros Hm s. apply Hm. Qed.

Lemma keeps_attempt {F A} (m : sm S E A) : keeps R m → keeps R (attempt (F:=F) m).
Proof.
  intros Hm s. specialize (Hm s). unfold attempt. by destruct (m s) as [[a|e|] s'].
Qed.

Lemma keeps_mapM {A B} (f : A → sm S E B) (l : list A) :
  Forall (λ x, keeps R (f x)) l → keeps R (mapM f l).
Proof.
  induction 1 as [|x l Hx _ IH]; simpl; [apply keeps_ret|].
  apply keeps_bind; [done|]. intros y. apply keeps_bind; [done|].
  intros ys. apply keeps_ret.
Qed.

Lemma keeps_iter {A} (body : A → sm S E unit) (l : list A) :
  (∀ x, keeps R (body x)) → keeps R (sm_iter body l).
Proof.
  intros Hb. induction l as [|x l IH]; simpl; [apply keeps_ret|].
  by apply keeps_bind.
Qed.

Lemma keeps_fold {A B} (body : B → A → sm S E B) b (l : list A) :
  (∀ b x, keeps R (body b x)) → keeps R (sm_fold body b l).
Proof.
  intros Hb. revert b. induction l as [|x l IH]; intros b; simpl; [apply keeps_ret|].
  by apply keeps_bind.
Qed.

(** A computation that keeps [R] can be stepped over. *)
Lemma wp_keeps {A} (m : sm S E A) (Φ : res E A → S → Prop) s :
  keeps R m → (∀ r s', R s s' → Φ r s') → wp m Φ s.
Proof. intros Hm HΦ. apply HΦ, Hm. Qed.
End keeps_rules.
#[export] Hint Resolve keeps_ret keeps_err keeps_lift keeps_bind keeps_map_err
  keeps_attempt keeps_iter keeps_fold : keeps.

(** A computation over a part of the state keeps what ignores that part. *)
Lemma keeps_zoom {S T E A} (R : relation S) (get : S → T) (set : T → S → S) (m : sm T E A) :
  (∀ s t, R s (set t s)) → keeps R (sm_zoom get set m).
Proof. intros H s. unfold sm_zoom. destruct (m (get s)) as [r t]. apply H. Qed.

(** ** What holds of a success

    [wpo m Ψ s]: if [m] succeeds from [s], its answer and final state satisfy [Ψ].
    For the body of a transaction: what fails is rolled back. *)
Definition wpo {S E A} (m : sm S E A) (Ψ : A → S → Prop) (s : S) : Prop :=
  ∀ a s', m s = (Ok a, s') → Ψ a s'.

Section wpo_rules.
Context {S E A B : Type}.
Implicit Types (s : S).

Lemma wpo_mono (m : sm S E A) (Φ Ψ : A → S → Prop) s :
  wpo m Φ s → (∀ a s', Φ a s' → Ψ a s') → wpo m Ψ s.
Proof. unfold wpo. eauto. Qed.
Lemma wpo_ret (a : A) (Ψ : A → S → Prop) s : Ψ a s → wpo (E:=E) (mret a) Ψ s.
Proof. intros H a' s' [= <- <-]. done. Qed.
Lemma wpo_err (e : E) (Ψ : A → S → Prop) s : wpo (sm_err e) Ψ s.
Proof. intros a s' [=]. Qed.
Lemma wpo_panic (Ψ : A → S → Prop) s : wpo (E:=E) sm_panic Ψ s.
Proof. intros a s' [=]. Qed.
Lemma wpo_bind (m : sm S E A) (f : A → sm S E B) (Ψ : B → S → Prop) s :
  wpo m (λ a, wpo (f a) Ψ) s → wpo (m ≫= f) Ψ s.
Proof.
  unfold wpo, mbind, sm_bind. intros H b s' Hb.
  destruct (m s) as [[a|e|] s1] eqn:Hm; [|done..]. eauto.
Qed.
Lemma wpo_map_err {F} (g : E → F) (m : sm S E A) (Ψ : A → S → Prop) s :
  wpo m Ψ s → wpo (map_err g m) Ψ s.
Proof.
  unfold wpo, map_err. intros H a s'. destruct (m s) as [[a'|e|] s1] eqn:Hm; simpl; [|done..].
  intros [= <- <-]. eauto.
Qed.
Lemma wpo_keeps R (m : sm S E A) (Ψ : A → S → Prop) s :
  keeps R m → (∀ a s', R s s' → Ψ a s') → wpo m Ψ s.
Proof. intros Hm HΨ a s' Heq. apply HΨ. specialize (Hm s). by rewrite Heq in Hm. Qed.
Lemma wpo_of_wp (m : sm S E A) (Ψ : A → S → Prop) s :
  wp m (λ r s', match r with Ok a => Ψ a s' | _ => True end) s → wpo m Ψ s.
Proof. unfold wp, wpo. intros H a s' Heq. by rewrite Heq in H. Qed.
Lemma wp_of_wpo (m : sm S E A) (Ψ : A → S → Prop) s :
  wpo m Ψ s → wp m (λ r s', match r with Ok a => Ψ a s' | _ => True end) s.
Proof. unfold wp, wpo. intros H. destruct (m s) as [[a|e|] s'] eqn:Hm; simpl; [by apply H|done..]. Qed.
End wpo_rules.

(** Whatever the first step did. *)
Lemma wpo_any {S E A B} (m : sm S E A) (f : A → sm S E B) (Ψ : B → S → Prop) s :
  (∀ a s', wpo (f a) Ψ s') → wpo (m ≫= f) Ψ s.
Proof. intros H. apply wpo_bind. intros a s' _. apply H. Qed.
Lemma wpo_mapM {S E A B} (f : A → sm S E B) (R : A → B → Prop) (l : list A) s :
  (∀ x s', wpo (f x) (λ y _, R x y) s') → wpo (mapM f l) (λ ys _, Forall2 R l ys) s.
Proof.
  intros Hf. revert s. induction l as [|x l IH]; intros s; simpl; [by apply wpo_ret|].
  apply wpo_bind. eapply wpo_mono; [apply Hf|]. intros y s' Hy.
  apply wpo_bind. eapply wpo_mono; [apply IH|]. intros ys s'' Hys. apply wpo_ret. by constructor.
Qed.

(** Two computations that do the same from a state. *)
Lemma sm_bind_ext {S E A B} (m m' : sm S E A) (f f' : A → sm S E B) (Ψ : A → S → Prop) s :
  m s = m' s → wpo m Ψ s → (∀ a s', Ψ a s' → f a s' = f' a s') → (m ≫= f) s = (m' ≫= f') s.
Proof.
  unfold mbind, sm_bind, wpo. intros <- Hm Hf. destruct (m s) as [[a|e|] s']; [|done..]. by apply Hf, Hm.
Qed.
Lemma wpo_true {S E A} (m : sm S E A) s : wpo m (λ _ _, True) s.
Proof. by intros a s' _. Qed.

(** Two computations that neither read nor change the state, and answer alike. *)
Definition agree {S E A} (m m' : sm S E A) : Prop := ∃ r, ∀ s, m s = (r, s) ∧ m' s = (r, s).

Section agree_rules.
Context {S E : Type}.

Lemma agree_ret {A} (a : A) : agree (S:=S) (E:=E) (mret a) (mret a).
Proof. by exists (Ok a). Qed.
Lemma agree_err {A} (e : E) : agree (S:=S) (A:=A) (sm_err e) (sm_err e).
Proof. by exists (Err e). Qed.
Lemma agree_lift {A} (r : res E A) : agree (S:=S) (sm_lift r) (sm_lift r).
Proof. by exists r. Qed.
Lemma agree_bind {A B} (m m' : sm S E A) (f f' : A → sm S E B) :
  agree m m' → (∀ a, agree (f a) (f' a)) → agree (m ≫= f) (m' ≫= f').
Proof.
  intros [r Hm] Hf. unfold agree, mbind, sm_bind. destruct r as [a|e|].
  - destruct (Hf a) as [r Hr]. exists r. intros s. destruct (Hm s) as [-> ->]. apply Hr.
  - exists (Err e). intros s. by destruct (Hm s) as [-> ->].
  - exists Panic. intros s. by destruct (Hm s) as [-> ->].
Qed.
Lemma agree_mapM {A B} (f f' : A → sm S E B) (l : list A) :
  Forall (λ x, agree (f x) (f' x)) l → agree (mapM f l) (mapM f' l).
Proof.
  induction 1 as [|x l Hx _ IH]; simpl; [apply agree_ret|].
  apply agree_bind; [done|]. intros y. apply agree_bind; [done|].
  intros ys. apply agree_ret.
Qed.
End agree_rules.
#[export] Hint Resolve agree_ret agree_err agree_lift agree_bind : keeps.

(** ** Association lists read as ordered maps

    The first entry of a key counts. *)
Fixpoint assoc {K V} `{EqDecision K} (k : K) (l : list (K * V)) : option V :=
  match l with
  | [] => None
  | (k', v) :: l' => if decide (k = k') then Some v else assoc k l'
  end.

(** ** Walking a [HashMap]: every entry once, in an order that is not specified. *)
Class HashIter := {
  hash_iter {V} : gmap string V → list (string * V);
  hash_iter_perm {V} (m : gmap string V) : hash_iter m ≡ₚ map_to_list m;
}.

(** [min_by_key] over a walk that has a first element: the first of the least. *)
Fixpoint min_by {A} (key : A → Z) (best : A) (l : list A) : A :=
  match l with
  | [] => best
  | x :: l => min_by key (if (key x <? key best)%Z then x else best) l
  end.
Lemma min_by_spec {A} (key : A → Z) best l :
  min_by key best l ∈ best :: l ∧ ∀ x, x ∈ best :: l → (key (min_by key best l) ≤ key x)%Z.
Proof.
  revert best. induction l as [|x l IH]; intros best; simpl.
  - split; [by left|]. by intros y ->%list_elem_of_singleton.
  - destruct (IH (if (key x <? key best)%Z then x else best)) as [Hin Hle]. revert Hin Hle.
    destruct (Z.ltb_spec (key x) (key best)) as [Hlt|Hge]; intros Hin Hle.
    + split; [by right|]. intros y [->|Hy]%elem_of_cons; [|by apply Hle]. specialize (Hle x (list_elem_of_here _ _)). lia.
    + split; [set_solver|]. intros y [->|[->|Hy]%elem_of_cons]%elem_of_cons.
      * apply Hle. by left.
      * specialize (Hle best (list_elem_of_here _ _)). lia.
      * apply Hle. by right.
Qed.

(** ** Machine integers *)
Definition i32_min : Z := (-2147483648)%Z.
Definition i32_max : Z := 2147483647%Z.
Definition i64_min : Z := (-9223372036854775808)%Z.
Definition i64_max : Z := 9223372036854775807%Z.
Definition u64_max : Z := 18446744073709551615%Z.

(** [n += 1] of an unsigned integer up to [max]: a panic ([None]) or a wrap, as the build says. *)
Definition checked_incr (overflow_checks : bool) (max n : Z) : option Z :=
  (if (n + 1 <=? max)%Z then Some (n + 1) else if overflow_checks then None else Some 0)%Z.

(** [x as i32] of an integer: the low 32 bits, read as a signed number. *)
Definition as_i32 (x : Z) : Z :=
  let r := (x mod 4294967296)%Z in
  if (r <=? i32_max)%Z then r else (r - 4294967296)%Z.

(** [i32] addition; [None] where the sum does not fit (a panic under overflow
    checks). *)
Definition i32_checked_add (a b : Z) : option Z :=
  let r := (a + b)%Z in
  if ((i32_min <=? r) && (r <=? i32_max))%Z then Some r else None.

(** [i64::checked_mul] *)
Definition i64_checked_mul (a b : Z) : option Z :=
  let r := (a * b)%Z in
  if ((i64_min <=? r) && (r <=? i64_max))%Z then Some r else None.

(** [u64] addition, which panics where the sum does not fit when overflow
    checks are on and wraps when they are off; [None] is the overflow. *)
Definition u64_checked_add (a b : Z) : option Z :=
  let r := (a + b)%Z in if (r <=? u64_max)%Z then Some r else None.

(** [u64::saturating_add] and [u64::saturating_sub] *)
Definition u64_saturating_add (a b : Z) : Z := Z.min u64_max (a + b).
Definition u64_saturating_sub (a b : Z) : Z := Z.max 0 (a - b).

Lemma as_i32_id x : (0 ≤ x ≤ i32_max)%Z → as_i32 x = x.
Proof.
  unfold as_i32, i32_max. intros ?. rewrite Z.mod_small by lia.
  destruct (Z.leb_spec x 2147483647); lia.
Qed.

Lemma as_i32_range x : (i32_min ≤ as_i32 x ≤ i32_max)%Z.
Proof.
  unfold as_i32, i32_min, i32_max.
  pose proof (Z.mod_pos_bound x 4294967296 ltac:(lia)).
  destruct (Z.leb_spec (x mod 4294967296) 2147483647); lia.
Qed.

(** ** Lists *)

(** The [n]-th and later calls of a loop bounded by a count: [0..n]. *)
Lemma NoDup_snoc {A} (l : list A) x : NoDup l → x ∉ l → NoDup (l ++ [x]).
Proof.
  intros Hl Hx. apply NoDup_app. split; [done|]. split.
  - intros y Hy ->%list_elem_of_singleton. done.
  - apply NoDup_singleton.
Qed.

(** Two filters that agree on the list's elements. *)
Lemma list_filter_ext {A} (P Q : A → Prop) `{HP : !∀ x, Decision (P x), HQ : !∀ x, Decision (Q x)} (l : list A) :
  (∀ x, x ∈ l → P x ↔ Q x) → filter P l = filter Q l.
Proof.
  induction l as [|x l IH]; intros Hl; [done|].
  rewrite !filter_cons, IH by (intros; apply Hl; by right).
  assert (P x ↔ Q x) as Hx by (apply Hl; left).
  by destruct (decide (P x)), (decide (Q x)); naive_solver.
Qed.

Lemma find_Some_elem {A} (P : A → bool) l x : List.find P l = Some x → x ∈ l ∧ P x = true.
Proof. intros [? ?]%List.find_some. split; [by apply list_elem_of_In|done]. Qed.

(** ** A stable sort

    [slice::sort_by]: equal elements stay in their order. *)
Section stable_sort.
Context {A} (R : relation A) `{!RelDecision R}.

Fixpoint sorted_insert (x : A) (l : list A) : list A :=
  match l with
  | [] => [x]
  | y :: l' => if decide (R x y) then x :: l else y :: sorted_insert x l'
  end.
Definition stable_sort (l : list A) : list A := foldr sorted_insert [] l.

Lemma sorted_insert_Permutation x l : sorted_insert x l ≡ₚ x :: l.
Proof. induction l as [|y l IH]; simpl; [done|]. case_decide; [done|]. rewrite IH. apply Permutation_swap. Qed.
Lemma stable_sort_Permutation l : stable_sort l ≡ₚ l.
Proof. induction l as [|x l IH]; simpl; [done|]. by rewrite sorted_insert_Permutation, IH. Qed.

Context `{!Transitive R, !Total R}.
Lemma sorted_insert_sorted x l : StronglySorted R l → StronglySorted R (sorted_insert x l).
Proof.
  induction 1 as [|y l Hl IH Hy]; simpl; [by repeat constructor|]. case_decide as Hxy.
  - constructor; [by constructor|]. constructor; [done|]. eapply Forall_impl; [exact Hy|]. intros z Hz. by trans y.
  - constructor; [done|]. apply Forall_forall. intros z. rewrite sorted_insert_Permutation, elem_of_cons.
    intros [->|Hz]; [by destruct (total R y x)|]. rewrite Forall_forall in Hy. by apply Hy.
Qed.
Lemma stable_sort_sorted l : StronglySorted R (stable_sort l).
Proof. induction l as [|x l IH]; simpl; [constructor|]. by apply sorted_insert_sorted. Qed.

(** Any elements that are not told apart keep their order. *)
Lemma stable_sort_stable (P : A → Prop) `{∀ x, Decision (P x)} l :
  (∀ x y, P x → P y → R x y) → filter P (stable_sort l) = filter P l.
Proof.
  intros HP. induction l as [|x l IH]; simpl; [done|].
  assert (∀ l', filter P (sorted_insert x l') = filter P (x :: l')) as ->.
  { induction l' as [|y l' IH']; simpl; [done|]. case_decide as Hxy; [done|].
    rewrite (filter_cons _ y), IH', !filter_cons. repeat case_decide; naive_solver. }
  rewrite !filter_cons. by rewrite IH.
Qed.
End stable_sort.

(** ** Tactics *)

(** Split the pairs and results a computation's equation is made of. *)
Ltac inv_pair :=
  repeat match goal with
  | H : (_, _) = (_, _) |- _ => injection H as H; subst
  | H : Ok _ = Ok _ |- _ => injection H as H; subst
  | H : Err _ = Err _ |- _ => injection H as H; subst
  | H : Ok _ = Err _ |- _ => discriminate H
  | H : Err _ = Ok _ |- _ => discriminate H
  | H : Panic = _ |- _ => discriminate H
  | H : _ = Panic |- _ => discriminate H
  end.

(** A decidable goal, and a decidable hypothesis that does not hold, by evaluation. *)
Ltac by_dec := apply (bool_decide_unpack _); vm_compute; exact I.
Ltac absurd_dec H :=
  exfalso; revert H; apply (proj1 (bool_decide_eq_false _)); vm_compute; reflexivity.

(** Both sides evaluated, their types left alone. *)
Ltac by_vm := lazymatch goal with |- ?a = ?b => vm_cast_no_check (@eq_refl _ b) end.

(** One step of a [wp] goal. *)
Ltac wp_step :=
  lazymatch goal with
  | |- wp (mbind _ _) _ _ => apply wp_bind
  | |- wp (mret _) _ _ => apply wp_ret
  | |- wp (sm_err _) _ _ => apply wp_err
  | |- wp sm_panic _ _ => apply wp_panic
  | |- wp (sm_lift _) _ _ => apply wp_lift
  | |- wp (map_err _ _) _ _ => apply wp_map_err
  | |- wp (attempt _) _ _ => apply wp_attempt
  | |- wp sm_get _ _ => apply wp_get
  | |- wp (sm_put _) _ _ => apply wp_put
  end.
