(* ===== verification/Float64.v ===== *)
(** * Rust's [f64]

    IEEE 754 binary64 as the Standard Library's executable [spec_float] (no
    primitive floats, no axioms): the operations the sources use on [f64], with
    Rust's casts, truncation and remainder written out. *)
From Stdlib Require Import ZArith Lia.
From Stdlib Require Export SpecFloat.
From S2P Require Import Prelude.

Abbreviation f64 := spec_float.

Local Open Scope Z_scope.

Definition f64_prec : Z := 53.
Definition f64_emax : Z := 1024.

Definition f64_add : f64 → f64 → f64 := SFadd f64_prec f64_emax.
Definition f64_sub : f64 → f64 → f64 := SFsub f64_prec f64_emax.
Definition f64_mul : f64 → f64 → f64 := SFmul f64_prec f64_emax.
Definition f64_div : f64 → f64 → f64 := SFdiv f64_prec f64_emax.
Definition f64_neg : f64 → f64 := SFopp.
Definition f64_abs : f64 → f64 := SFabs.
Definition f64_eqb : f64 → f64 → bool := SFeqb.
Definition f64_ltb : f64 → f64 → bool := SFltb.
Definition f64_partial_cmp : f64 → f64 → option comparison := SFcompare.

(** [z as f64]: the nearest double, ties to even. *)
Definition f64_of_Z (z : Z) : f64 := binary_normalize f64_prec f64_emax z 0 false.

(** [z * 2^e] of a signed mantissa; [s] is the sign of a zero. *)
Definition f64_normalize (z e : Z) (s : bool) : f64 :=
  binary_normalize f64_prec f64_emax z e s.

(** The integer part of [m * 2^e], toward zero. *)
Definition mant_trunc (m : positive) (e : Z) : Z :=
  if 0 <=? e then Z.shiftl (Zpos m) e else Z.shiftr (Zpos m) (- e).

(** [f64::trunc] *)
Definition f64_trunc (x : f64) : f64 :=
  match x with
  | S754_finite s m e =>
      if 0 <=? e then x
      else f64_normalize (cond_Zopp s (mant_trunc m e)) 0 s
  | _ => x
  end.

(** [f64::fract]: [self - self.trunc()]. *)
Definition f64_fract (x : f64) : f64 := f64_sub x (f64_trunc x).

(** [f64::ceil] *)
Definition f64_ceil (x : f64) : f64 :=
  match x with
  | S754_finite s m e =>
      if 0 <=? e then x
      else
        let t := mant_trunc m e in
        let whole := Z.shiftl t (- e) =? Zpos m in
        f64_normalize (if s then - t else if whole then t else t + 1) 0 s
  | _ => x
  end.

(** [x as u32]: truncation toward zero, saturating; NaN is 0. *)
Definition f64_to_u32 (x : f64) : Z :=
  match x with
  | S754_nan | S754_zero _ => 0
  | S754_infinity s => if s then 0 else 4294967295
  | S754_finite s m e => Z.max 0 (Z.min 4294967295 (cond_Zopp s (mant_trunc m e)))
  end.

(** [x as i64]: truncation toward zero, saturating; NaN is 0. *)
Definition f64_to_i64 (x : f64) : Z :=
  match x with
  | S754_nan | S754_zero _ => 0
  | S754_infinity s => if s then i64_min else i64_max
  | S754_finite s m e => Z.max i64_min (Z.min i64_max (cond_Zopp s (mant_trunc m e)))
  end.

(** [x % y]: the exact remainder of the truncated division, with the sign of
    [x]. Both mantissas are aligned on the smaller exponent. *)
Definition f64_rem (x y : f64) : f64 :=
  match x, y with
  | S754_nan, _ | _, S754_nan => S754_nan
  | S754_infinity _, _ => S754_nan
  | _, S754_zero _ => S754_nan
  | S754_zero _, _ => x
  | S754_finite _ _ _, S754_infinity _ => x
  | S754_finite sx mx ex, S754_finite _ my ey =>
      let e := Z.min ex ey in
      let r := Z.shiftl (Zpos mx) (ex - e) mod Z.shiftl (Zpos my) (ey - e) in
      f64_normalize (cond_Zopp sx r) e sx
  end.

(** [f64::round]: halves away from zero. *)
Definition f64_round (x : f64) : f64 :=
  match x with
  | S754_finite s m e =>
      if 0 <=? e then x
      else
        let t := mant_trunc m e in
        let rest := Zpos m - Z.shiftl t (- e) in
        let up := Z.shiftl 1 (- e) <=? 2 * rest in
        f64_normalize (cond_Zopp s (if up then t + 1 else t)) 0 s
  | _ => x
  end.

(** [f64::min]: a NaN argument loses. *)
Definition f64_min (x y : f64) : f64 :=
  match f64_partial_cmp x y with
  | Some Gt => y
  | Some _ => x
  | None => match x with S754_nan => y | _ => x end
  end.

(** [2f64.powi(n)]: a power of two is exact until it overflows to infinity or
    underflows. *)
Definition f64_powi2 (n : Z) : f64 := f64_normalize 1 n false.

Definition f64_zero : f64 := S754_zero false.

(** ** Facts *)

(** The remainder of two whole numbers is the remainder of the integers. *)
Example f64_rem_ex : f64_rem (f64_of_Z (-7)) (f64_of_Z 3) = f64_of_Z (-1).
Proof. reflexivity. Qed.

Example f64_trunc_ex :
  f64_trunc (f64_div (f64_of_Z (-7)) (f64_of_Z 2)) = f64_of_Z (-3).
Proof. reflexivity. Qed.

Example f64_fract_ex :
  f64_fract (f64_div (f64_of_Z 7) (f64_of_Z 2)) = f64_div (f64_of_Z 1) (f64_of_Z 2).
Proof. reflexivity. Qed.

Lemma f64_to_i64_range x : i64_min ≤ f64_to_i64 x ≤ i64_max.
Proof.
  unfold f64_to_i64. destruct x as [s|s| |s m e]; unfold i64_min, i64_max;
    [lia|destruct s; lia|lia|lia].
Qed.

Lemma f64_eqb_finite_refl s m e : f64_eqb (S754_finite s m e) (S754_finite s m e) = true.
Proof.
  unfold f64_eqb, SFeqb, SFcompare. rewrite Z.compare_refl, Pos.compare_refl.
  by destruct s.
Qed.

Lemma SFcompare_antisym x y : SFcompare y x = option_map CompOpp (SFcompare x y).
Proof.
  destruct x as [[]|[]| |[] mx ex], y as [[]|[]| |[] my ey]; simpl; try done;
    rewrite Z.compare_antisym; destruct (ex ?= ey)%Z; simpl; try done;
    change (Pos.compare_cont Eq my mx) with (my ?= mx)%positive;
    change (Pos.compare_cont Eq mx my) with (mx ?= my)%positive;
    rewrite Pos.compare_antisym; by destruct (mx ?= my)%positive.
Qed.

(** The smaller of two numbers is not above the second. *)
Lemma f64_min_le x y : f64_ltb y (f64_min x y) = false.
Proof.
  unfold f64_ltb, f64_min, f64_partial_cmp, SFltb.
  assert (∀ z, SFcompare z z = Some Eq ∨ SFcompare z z = None) as Hrefl.
  { intros z. pose proof (SFcompare_antisym z z) as H.
    destruct (SFcompare z z) as [[]|]; simpl in H; [by left|done|done|by right]. }
  destruct (SFcompare x y) as [[]|] eqn:E.
  - by rewrite SFcompare_antisym, E.
  - by rewrite SFcompare_antisym, E.
  - by destruct (Hrefl y) as [-> | ->].
  - destruct x; try (by rewrite SFcompare_antisym, E). by destruct (Hrefl y) as [-> | ->].
Qed.
