(* ===== verification/RustStr.v ===== *)
(** * Rust's [str]

    A string is its UTF-8 bytes (stdpp's [string]); the string operations of the
    language's standard library the sources call. *)
From Stdlib Require Import ZArith Lia Ascii NArith.
From stdpp Require Import pretty.
From S2P Require Import Prelude.

Local Open Scope Z_scope.

Definition byte_of (c : ascii) : Z := Z.of_N (N_of_ascii c).

(** [char::is_ascii_digit], [is_ascii_lowercase] *)
Definition is_ascii_digit (c : ascii) : bool := (48 <=? byte_of c) && (byte_of c <=? 57).
Definition is_ascii_lowercase (c : ascii) : bool := (97 <=? byte_of c) && (byte_of c <=? 122).

Fixpoint str_forallb (p : ascii → bool) (s : string) : bool :=
  match s with
  | EmptyString => true
  | String c s' => p c && str_forallb p s'
  end.

(** The longest prefix whose bytes satisfy [p], and the rest. *)
Fixpoint str_span (p : ascii → bool) (s : string) : string * string :=
  match s with
  | EmptyString => (EmptyString, EmptyString)
  | String c s' =>
      if p c then let '(a, b) := str_span p s' in (String c a, b)
      else (EmptyString, s)
  end.

Fixpoint str_len (s : string) : Z :=
  match s with EmptyString => 0 | String _ s' => 1 + str_len s' end.

(** [s.chars().count()]: the bytes that do not continue a character. *)
Fixpoint chars_count (s : string) : Z :=
  match s with
  | EmptyString => 0
  | String c s' =>
      (if (128 <=? byte_of c) && (byte_of c <=? 191) then 0 else 1) + chars_count s'
  end.

(** [s.starts_with(p)], [s.ends_with(p)], [s.contains(p)] *)
Definition starts_with (s p : string) : bool := String.prefix p s.

Fixpoint ends_with (s p : string) : bool :=
  bool_decide (s = p) ||
  match s with EmptyString => false | String _ s' => ends_with s' p end.

Fixpoint str_contains (s p : string) : bool :=
  String.prefix p s ||
  match s with EmptyString => false | String _ s' => str_contains s' p end.

(** ** [str::trim]

    The characters with the Unicode property [White_Space], as UTF-8 bytes. *)
Definition bytes_str (l : list Z) : string :=
  fold_right (λ b s, String (ascii_of_N (Z.to_N b)) s) EmptyString l.

Definition whitespace : list string :=
  map bytes_str
    [[9]; [10]; [11]; [12]; [13]; [32]; [194; 133]; [194; 160]; [225; 154; 128];
     [226; 128; 128]; [226; 128; 129]; [226; 128; 130]; [226; 128; 131];
     [226; 128; 132]; [226; 128; 133]; [226; 128; 134]; [226; 128; 135];
     [226; 128; 136]; [226; 128; 137]; [226; 128; 138]; [226; 128; 168];
     [226; 128; 169]; [226; 128; 175]; [226; 129; 159]; [227; 128; 128]].

Fixpoint str_drop (n : nat) (s : string) : string :=
  match n, s with
  | O, _ => s
  | S n', String _ s' => str_drop n' s'
  | S _, EmptyString => EmptyString
  end.

Fixpoint str_rev_app (s acc : string) : string :=
  match s with EmptyString => acc | String c s' => str_rev_app s' (String c acc) end.
Definition str_rev (s : string) : string := str_rev_app s EmptyString.

(** Drop the leading [ws] encodings, as long as there are some; [fuel] is the
    length of the string, and each round drops at least a byte. *)
Fixpoint trim_start_with (ws : list string) (fuel : nat) (s : string) : string :=
  match fuel with
  | O => s
  | S fuel' =>
      match List.find (λ w, String.prefix w s) ws with
      | Some w => trim_start_with ws fuel' (str_drop (String.length w) s)
      | None => s
      end
  end.

Definition trim_start (s : string) : string :=
  trim_start_with whitespace (String.length s) s.

(** The end of a string is the start of its reversal; an encoding is read
    backwards there. *)
Definition trim_end (s : string) : string :=
  str_rev (trim_start_with (map str_rev whitespace) (String.length s) (str_rev s)).

Definition trim (s : string) : string := trim_end (trim_start s).

(** ** Splitting *)

(** [s.split(c)] *)
Fixpoint str_split (c : ascii) (s : string) : list string :=
  match s with
  | EmptyString => [""]
  | String c' s' =>
      if Ascii.eqb c c' then "" :: str_split c s'
      else match str_split c s' with
           | p :: ps => String c' p :: ps
           | [] => [String c' ""]
           end
  end.

(** [s.split_once(c)] *)
Fixpoint split_once (c : ascii) (s : string) : option (string * string) :=
  match s with
  | EmptyString => None
  | String c' s' =>
      if Ascii.eqb c c' then Some ("", s')
      else '(a, b) ← split_once c s'; Some (String c' a, b)
  end.

(** ** Numbers *)

Definition digit_val (c : ascii) : Z := byte_of c - 48.

Fixpoint digits_val (acc : Z) (s : string) : Z :=
  match s with
  | EmptyString => acc
  | String c s' => digits_val (acc * 10 + digit_val c) s'
  end.

(** [s.parse::<i64>()]: an optional sign, digits (at least one), and the value
    in range. *)
Definition parse_i64 (s : string) : option Z :=
  let '(neg, d) :=
    match s with
    | String "+" d => (false, d)
    | String "-" d => (true, d)
    | _ => (false, s)
    end in
  match d with
  | EmptyString => None
  | _ =>
      if str_forallb is_ascii_digit d then
        let v := if neg then - digits_val 0 d else digits_val 0 d in
        if (i64_min <=? v) && (v <=? i64_max) then Some v else None
      else None
  end.

(** [format!("{}", z)] of an integer. *)
Definition show_Z (z : Z) : string := pretty z.

(** The hexadecimal digits of a byte below 256, shortest. *)
Definition hex_digit (n : Z) : ascii :=
  ascii_of_N (Z.to_N (if n <? 10 then 48 + n else 87 + n)).
Definition hex_byte (n : Z) : string :=
  if n <? 16 then String (hex_digit n) "" else String (hex_digit (n / 16)) (String (hex_digit (n mod 16)) "").

(** One character of [{:?}] of a string: what is not printable ASCII is escaped;
    a byte above ASCII is kept. *)
Definition debug_char (c : ascii) : string :=
  let n := byte_of c in
  let bs := ascii_of_N 92 in
  if n =? 34 then String bs (String c "")
  else if n =? 92 then String bs (String c "")
  else if n =? 9 then String bs "t"
  else if n =? 10 then String bs "n"
  else if n =? 13 then String bs "r"
  else if n =? 0 then String bs "0"
  else if (n <? 32) || (n =? 127) then String bs ("u{" +:+ hex_byte n +:+ "}")
  else String c "".
Fixpoint debug_body (s : string) : string :=
  match s with EmptyString => "" | String c s' => debug_char c +:+ debug_body s' end.
Definition str_debug (s : string) : string :=
  let q := String (ascii_of_N 34) "" in q +:+ debug_body s +:+ q.

(** ** Facts *)

Lemma str_app_cons c a b : String c a +:+ b = String c (a +:+ b).
Proof. done. Qed.
Lemma str_app_inj a b c : a +:+ b = a +:+ c → b = c.
Proof. induction a as [|x a IH]; [done|]. rewrite !str_app_cons. intros [= ?]. auto. Qed.
Lemma str_len_append a b : str_len (a +:+ b) = str_len a + str_len b.
Proof. induction a as [|c a IH]; simpl; [done|]. rewrite IH. lia. Qed.

Lemma str_span_app p s : (str_span p s).1 +:+ (str_span p s).2 = s.
Proof.
  induction s as [|c s IH]; [done|]. simpl. destruct (p c); [|done].
  destruct (str_span p s) as [a b]; simpl in *. by rewrite str_app_cons, IH.
Qed.

Lemma str_span_all p s : str_forallb p (str_span p s).1 = true.
Proof.
  induction s as [|c s IH]; [done|]. simpl. destruct (p c) eqn:E; [|done].
  destruct (str_span p s) as [a b]; simpl in *. by rewrite E, IH.
Qed.

(** A run of bytes that satisfy [p], followed by one that does not, is split
    exactly there. *)
Lemma str_span_exact p a c b :
  str_forallb p a = true → p c = false → str_span p (a +:+ String c b) = (a, String c b).
Proof.
  intros Ha Hc. induction a as [|x a IH]; [simpl; by rewrite Hc|].
  rewrite str_app_cons. simpl in *.
  apply andb_true_iff in Ha as [-> Ha]. by rewrite IH.
Qed.

Lemma digits_val_app a b acc : digits_val acc (a +:+ b) = digits_val (digits_val acc a) b.
Proof. revert acc. induction a as [|c a IH]; intros acc; [done|]. apply IH. Qed.

Lemma digits_val_nonneg s acc :
  0 ≤ acc → str_forallb is_ascii_digit s = true → acc ≤ digits_val acc s.
Proof.
  revert acc. induction s as [|c s IH]; intros acc Hacc H; simpl in *; [lia|].
  apply andb_true_iff in H as [Hc Hs]. unfold is_ascii_digit in Hc.
  assert (0 ≤ digit_val c) by (unfold digit_val; lia).
  specialize (IH (acc * 10 + digit_val c) ltac:(lia) Hs). lia.
Qed.

(** What [parse_i64] answers is a value of the type. *)
Lemma parse_i64_range s v : parse_i64 s = Some v → i64_min ≤ v ≤ i64_max.
Proof.
  unfold parse_i64. intros H. repeat case_match; simplify_eq; lia.
Qed.

(** On a string of digits the value is the number they write. *)
Lemma parse_i64_digits s :
  s ≠ EmptyString → str_forallb is_ascii_digit s = true →
  parse_i64 s = if digits_val 0 s <=? i64_max then Some (digits_val 0 s) else None.
Proof.
  intros Hne Hd. pose proof (digits_val_nonneg s 0 ltac:(lia) Hd) as Hv.
  assert (parse_i64 s =
    if (i64_min <=? digits_val 0 s) && (digits_val 0 s <=? i64_max)
    then Some (digits_val 0 s) else None) as ->.
  { unfold parse_i64. destruct s as [|c s']; [done|].
    destruct c as [[] [] [] [] [] [] [] []]; simpl in Hd |- *; try done;
      rewrite ?Hd; done. }
  replace (i64_min <=? digits_val 0 s) with true by (unfold i64_min; lia). done.
Qed.

(** *** Reversal *)

Lemma str_forallb_app p a b : str_forallb p (a +:+ b) = str_forallb p a && str_forallb p b.
Proof. induction a as [|c a IH]; [done|]. rewrite str_app_cons. simpl. by rewrite IH, andb_assoc. Qed.

Lemma str_forallb_impl (p q : ascii → bool) s :
  (∀ c, p c = true → q c = true) → str_forallb p s = true → str_forallb q s = true.
Proof. intros H. induction s as [|c s IH]; [done|]. simpl. intros [? ?]%andb_true_iff. by rewrite H, IH. Qed.
Lemma str_app_assoc a b c : (a +:+ b) +:+ c = a +:+ (b +:+ c).
Proof. induction a as [|x a IH]; [done|]. by rewrite !str_app_cons, IH. Qed.

Lemma str_app_nil_r a : a +:+ "" = a.
Proof. induction a as [|x a IH]; [done|]. by rewrite str_app_cons, IH. Qed.

Lemma str_rev_app_spec s acc : str_rev_app s acc = str_rev s +:+ acc.
Proof.
  unfold str_rev. revert acc. induction s as [|c s IH]; intros acc; [done|].
  simpl. rewrite IH, (IH (String c "")), str_app_assoc. done.
Qed.

Lemma str_rev_cons c s : str_rev (String c s) = str_rev s +:+ String c "".
Proof. unfold str_rev at 1. simpl. apply str_rev_app_spec. Qed.

Lemma str_rev_snoc s c : str_rev (s +:+ String c "") = String c (str_rev s).
Proof.
  induction s as [|x s IH]; [done|].
  rewrite str_app_cons, !str_rev_cons, IH. by rewrite str_app_cons.
Qed.

Lemma str_rev_involutive s : str_rev (str_rev s) = s.
Proof.
  induction s as [|c s IH]; [done|]. rewrite str_rev_cons, str_rev_snoc. by rewrite IH.
Qed.

(** *** Trimming leaves a text alone that begins and ends with a visible character *)

Definition is_ascii_graphic (c : ascii) : bool := (33 <=? byte_of c) && (byte_of c <=? 126).

Definition is_ascii_alnum (c : ascii) : bool := is_ascii_digit c || is_ascii_lowercase c.

Definition begins_none (ws : list string) (c : ascii) : bool :=
  forallb (λ w, match w with EmptyString => false | String w0 _ => negb (Ascii.eqb w0 c) end) ws.

Lemma alnum_graphic c : is_ascii_alnum c = true → is_ascii_graphic c = true.
Proof.
  unfold is_ascii_alnum, is_ascii_digit, is_ascii_lowercase, is_ascii_graphic. intros H.
  apply orb_true_iff in H as [H|H]; apply andb_true_iff in H as [?%Z.leb_le ?%Z.leb_le];
    apply andb_true_iff; split; apply Z.leb_le; lia.
Qed.

Lemma whitespace_not_graphic c :
  is_ascii_graphic c = true →
  begins_none whitespace c = true ∧ begins_none (map str_rev whitespace) c = true.
Proof.
  destruct c as [b0 b1 b2 b3 b4 b5 b6 b7].
  destruct b7; [by destruct b0, b1, b2, b3, b4, b5, b6|].
  destruct b6, b5, b4, b3, b2, b1, b0; intros H; try discriminate H; split; reflexivity.
Qed.

Lemma find_prefix_none ws c s :
  begins_none ws c = true → List.find (λ w, String.prefix w (String c s)) ws = None.
Proof.
  induction ws as [|w ws IH]; intros H; [done|].
  simpl in H. apply andb_true_iff in H as [Hw H].
  destruct w as [|w0 w]; [done|]. simpl.
  destruct (ascii_dec w0 c) as [->|]; [|by apply IH].
  by rewrite Ascii.eqb_refl in Hw.
Qed.

Lemma trim_start_with_id ws n c s :
  begins_none ws c = true → trim_start_with ws n (String c s) = String c s.
Proof. intros H. destruct n; [done|]. cbn [trim_start_with]. by rewrite find_prefix_none. Qed.

Lemma trim_id c s d r :
  is_ascii_graphic c = true → is_ascii_graphic d = true →
  str_rev (String c s) = String d r → trim (String c s) = String c s.
Proof.
  intros [Hc _]%whitespace_not_graphic [_ Hd]%whitespace_not_graphic Hr.
  unfold trim, trim_start. rewrite trim_start_with_id by done.
  unfold trim_end. rewrite Hr, trim_start_with_id by done.
  by rewrite <- Hr, str_rev_involutive.
Qed.

(** *** What an integer prints is what its digits say *)

Lemma pretty_N_char_digit x : is_ascii_digit (pretty_N_char x) = true.
Proof. unfold pretty_N_char. by repeat case_match. Qed.

Lemma pretty_N_char_val x : (x < 10)%N → digit_val (pretty_N_char x) = Z.of_N x.
Proof.
  intros H. assert (x = 0 ∨ x = 1 ∨ x = 2 ∨ x = 3 ∨ x = 4 ∨ x = 5 ∨ x = 6 ∨ x = 7 ∨
    x = 8 ∨ x = 9)%N as Hx by lia.
  by repeat destruct Hx as [->|Hx]; [..|subst x].
Qed.

Lemma pretty_N_go_digits x s :
  str_forallb is_ascii_digit s = true → str_forallb is_ascii_digit (pretty_N_go x s) = true.
Proof.
  revert s. induction (N.lt_wf_0 x) as [x _ IH]; intros s Hs.
  assert (x = 0 ∨ 0 < x)%N as [->|?] by lia; [by rewrite pretty_N_go_0|].
  rewrite pretty_N_go_step by done. apply IH; [by apply N.div_lt|].
  simpl. by rewrite pretty_N_char_digit.
Qed.

Lemma pretty_N_go_val x s : digits_val 0 (pretty_N_go x s) = digits_val (Z.of_N x) s.
Proof.
  revert s. induction (N.lt_wf_0 x) as [x _ IH]; intros s.
  assert (x = 0 ∨ 0 < x)%N as [->|?] by lia; [by rewrite pretty_N_go_0|].
  rewrite pretty_N_go_step, IH by first [done|by apply N.div_lt].
  simpl. rewrite pretty_N_char_val by (apply N.mod_lt; done).
  f_equal. rewrite N2Z.inj_div, N2Z.inj_mod. 
  pose proof (Z.div_mod (Z.of_N x) 10). lia.
Qed.

Lemma pretty_N_go_ne x s : s ≠ "" → pretty_N_go x s ≠ "".
Proof.
  revert s. induction (N.lt_wf_0 x) as [x _ IH]; intros s Hs.
  assert (x = 0 ∨ 0 < x)%N as [->|?] by lia; [by rewrite pretty_N_go_0|].
  rewrite pretty_N_go_step by done. apply IH; [by apply N.div_lt|done].
Qed.

Lemma show_Z_spec n :
  0 ≤ n →
  str_forallb is_ascii_digit (show_Z n) = true ∧ digits_val 0 (show_Z n) = n ∧
  ∃ c s, show_Z n = String c s.
Proof.
  intros Hn. destruct n as [|p|p]; [|clear Hn|lia].
  - repeat split. by eexists _, _.
  - change (show_Z (Zpos p)) with (pretty (Npos p)).
    assert (pretty (Npos p) = pretty_N_go (Npos p) "") as -> by done.
    split; [by apply pretty_N_go_digits|]. split; [apply (pretty_N_go_val (Npos p) "")|].
    rewrite pretty_N_go_step by done.
    destruct (pretty_N_go _ _) as [|c s] eqn:E; [|by eexists _, _].
    by apply pretty_N_go_ne in E.
Qed.

(** ** The order of texts

    [Ord for str]: bytewise, as [Vec::sort] and [BTreeMap] use it. *)
Definition str_le (a b : string) : Prop := String.leb a b = true.
#[export] Instance str_le_dec : RelDecision str_le := λ a b, decide (String.leb a b = true).

Lemma str_compare_cons c d (s t : string) :
  String.compare (String c s) (String d t) =
  match (Ascii.N_of_ascii c ?= Ascii.N_of_ascii d)%N with Eq => String.compare s t | o => o end.
Proof. done. Qed.
Lemma str_compare_lt_trans (a b c : string) :
  String.compare a b = Lt → String.compare b c = Lt → String.compare a c = Lt.
Proof.
  revert b c. induction a as [|x a IH]; intros [|y b] [|z c]; try done. rewrite !str_compare_cons.
  repeat match goal with |- context [(?u ?= ?v)%N] => destruct (N.compare_spec u v) end;
    intros Hab Hbc; subst; try done; try lia; eauto.
Qed.
Lemma str_compare_eq (a : string) : String.compare a a = Eq.
Proof. induction a as [|x a IH]; [done|]. by rewrite str_compare_cons, N.compare_refl. Qed.
Lemma str_le_spec a b : str_le a b ↔ a = b ∨ String.compare a b = Lt.
Proof.
  unfold str_le, String.leb. destruct (String.compare a b) eqn:H.
  - apply String.compare_eq_iff in H as ->. naive_solver.
  - naive_solver.
  - split; [done|]. intros [->|?]; [by rewrite str_compare_eq in H|done].
Qed.
Lemma str_lt_spec a b : strict str_le a b ↔ String.compare a b = Lt.
Proof.
  unfold strict. rewrite !str_le_spec, (String.compare_antisym b a).
  destruct (String.compare a b) eqn:Hab; simpl.
  - apply String.compare_eq_iff in Hab as ->. split; [|done]. intros [_ []]. by left.
  - split; [done|]. intros _. split; [by right|]. intros [->|?]; [by rewrite str_compare_eq in Hab|done].
  - split; [|done]. intros [[->|?] _]; [by rewrite str_compare_eq in Hab|done].
Qed.
#[export] Instance str_le_order : TotalOrder str_le.
Proof.
  split; [split; [split|]|].
  - intros a. apply str_le_spec. by left.
  - intros a b c [->|Hab]%str_le_spec [->|Hbc]%str_le_spec; apply str_le_spec; eauto using str_compare_lt_trans.
  - intros a b. apply String.leb_antisym.
  - intros a b. rewrite !str_lt_spec, (String.compare_antisym b a).
    destruct (String.compare a b) eqn:Hab; [|by auto..]. apply String.compare_eq_iff in Hab. auto.
Qed.
