(* ===== verification/RustChar.v ===== *)
(** * Characters of a Rust [str]

    A string split at its characters, each the string of its UTF-8 bytes; case and class of
    characters, written out for ASCII. What the Unicode tables of the standard library
    answer of other characters is the parameter [Unicode]. *)
From Stdlib Require Import ZArith Lia Ascii.
From S2P Require Import Prelude RustStr.

Local Open Scope Z_scope.

(** A byte that continues a character. *)
Definition is_continuation (c : ascii) : bool := (128 <=? byte_of c) && (byte_of c <=? 191).
Definition is_ascii (c : ascii) : bool := byte_of c <=? 127.

(** [s.chars()] of a valid string. *)
Fixpoint chars (s : string) : list string :=
  match s with
  | EmptyString => []
  | String c s' =>
      match s' with
      | String d _ =>
          if is_continuation d
          then match chars s' with p :: ps => String c p :: ps | [] => [String c ""] end
          else String c "" :: chars s'
      | EmptyString => [String c ""]
      end
  end.

Definition str_concat (l : list string) : string := fold_right (λ a b, a +:+ b) "" l.
(** [parts.join(sep)] *)
Fixpoint str_join (sep : string) (l : list string) : string :=
  match l with
  | [] => ""
  | [x] => x
  | x :: l => x +:+ sep +:+ str_join sep l
  end.

(** ** ASCII *)
Definition is_ascii_uppercase (c : ascii) : bool := (65 <=? byte_of c) && (byte_of c <=? 90).
Definition ascii_lower (c : ascii) : ascii :=
  if is_ascii_uppercase c then ascii_of_N (N_of_ascii c + 32) else c.
Definition is_ascii_alphabetic (c : ascii) : bool := is_ascii_uppercase c || is_ascii_lowercase c.
Definition is_ascii_alphanumeric (c : ascii) : bool := is_ascii_alphabetic c || is_ascii_digit c.

Fixpoint str_map (f : ascii → ascii) (s : string) : string :=
  match s with EmptyString => EmptyString | String c s' => String (f c) (str_map f s') end.
(** [s.to_ascii_lowercase()], [a.eq_ignore_ascii_case(b)] *)
Definition to_ascii_lowercase (s : string) : string := str_map ascii_lower s.
Definition eq_ignore_ascii_case (a b : string) : bool :=
  bool_decide (to_ascii_lowercase a = to_ascii_lowercase b).

(** ** Unicode *)
Class Unicode := {
  u_alphanumeric : string → bool;
  u_uppercase : string → bool;
  u_lower_first : string → string;  (* [c.to_lowercase().next()] *)
  u_to_lowercase : string → string; (* [str::to_lowercase] of a text with such characters *)
  u_debug : string → string;        (* [format!("{c:?}")], without the quotes *)
}.

Section unicode.
Context {U : Unicode}.

(** [char::is_alphanumeric], [char::is_uppercase], [c.to_lowercase().next().unwrap_or(c)],
    [str::to_lowercase] *)
Definition char_is_alphanumeric (ch : string) : bool :=
  match ch with
  | String c "" => if is_ascii c then is_ascii_alphanumeric c else u_alphanumeric ch
  | _ => u_alphanumeric ch
  end.
Definition char_is_uppercase (ch : string) : bool :=
  match ch with
  | String c "" => if is_ascii c then is_ascii_uppercase c else u_uppercase ch
  | _ => u_uppercase ch
  end.
Definition char_lower (ch : string) : string :=
  match ch with
  | String c "" => if is_ascii c then String (ascii_lower c) "" else u_lower_first ch
  | _ => u_lower_first ch
  end.
(** [format!("{ch:?}")] *)
Definition char_debug (ch : string) : string :=
  "'" +:+ match ch with
  | String c "" =>
      if Ascii.eqb c (ascii_of_N 34) then ch
      else if Ascii.eqb c (ascii_of_N 39) then String (ascii_of_N 92) ch
      else if is_ascii c then debug_char c else u_debug ch
  | _ => u_debug ch
  end +:+ "'".
Definition to_lowercase (s : string) : string :=
  if str_forallb is_ascii s then to_ascii_lowercase s else u_to_lowercase s.
End unicode.

(** ** Searching and parsing *)

(** [s.find(c)], as what stands before the first [c] and what stands after it. *)
Definition find_char (c : ascii) (s : string) : option (string * string) := split_once c s.

(** The text without its last character [c], if it ends with it. *)
Definition strip_last (c : ascii) (s : string) : option string :=
  match str_rev s with
  | String d r => if Ascii.eqb c d then Some (str_rev r) else None
  | EmptyString => None
  end.
(** [s.strip_prefix(c)], [s.trim_start_matches(c)] *)
Definition strip_first (c : ascii) (s : string) : option string :=
  match s with
  | String d r => if Ascii.eqb c d then Some r else None
  | EmptyString => None
  end.
Fixpoint trim_start_char (c : ascii) (s : string) : string :=
  match s with
  | String d r => if Ascii.eqb c d then trim_start_char c r else s
  | EmptyString => s
  end.

(** [s.strip_prefix(p)] *)
Fixpoint strip_prefix_str (p s : string) : option string :=
  match p, s with
  | EmptyString, _ => Some s
  | String c p, String d s => if Ascii.eqb c d then strip_prefix_str p s else None
  | String _ _, EmptyString => None
  end.
(** [s.rsplit_once(c)] *)
Definition rsplit_once (c : ascii) (s : string) : option (string * string) :=
  match split_once c (str_rev s) with
  | Some (a, b) => Some (str_rev b, str_rev a)
  | None => None
  end.
Definition trim_end_char (c : ascii) (s : string) : string := str_rev (trim_start_char c (str_rev s)).
(** [s.trim_matches(c)] *)
Definition trim_matches (c : ascii) (s : string) : string := trim_end_char c (trim_start_char c s).

(** [s.strip_suffix(p)] *)
Definition strip_suffix_str (p s : string) : option string :=
  option_map str_rev (strip_prefix_str (str_rev p) (str_rev s)).
(** [s.split_once(p)] and [s.find(p)], as what stands before the first [p] and what stands after it. *)
Fixpoint split_once_str (p s : string) : option (string * string) :=
  match strip_prefix_str p s with
  | Some r => Some ("", r)
  | None =>
      match s with
      | EmptyString => None
      | String c s => '(a, b) ← split_once_str p s; Some (String c a, b)
      end
  end.

Definition u32_max : Z := 4294967295.
(** [s.parse::<u32>()] *)
Definition parse_u32 (s : string) : option Z :=
  let d := match s with String "+" d => d | _ => s end in
  match d with
  | EmptyString => None
  | _ =>
      if str_forallb is_ascii_digit d then
        let v := digits_val 0 d in if v <=? u32_max then Some v else None
      else None
  end.

(** A Unicode that is ASCII. *)
Definition ascii_unicode : Unicode := {|
  u_alphanumeric _ := false; u_uppercase _ := false; u_lower_first c := c; u_to_lowercase s := s; u_debug c := c |}.

Example chars_ex : chars (bytes_str [97; 195; 169; 98]) = ["a"; bytes_str [195; 169]; "b"].
Proof. vm_compute. reflexivity. Qed.

(** ** Facts *)
Lemma str_concat_app l l' : str_concat (l ++ l') = str_concat l +:+ str_concat l'.
Proof. induction l as [|x l IH]; [done|]. simpl. by rewrite IH, str_app_assoc. Qed.

Lemma chars_concat s : str_concat (chars s) = s.
Proof.
  induction s as [|c s IH]; [done|]. cbn [chars]. destruct s as [|d s]; [done|].
  destruct (is_continuation d).
  - destruct (chars (String d s)) as [|p ps] eqn:E; [by rewrite <- IH|]. by rewrite <- IH.
  - simpl in *. by rewrite IH.
Qed.

Lemma strip_last_app c s r : strip_last c s = Some r → s = r +:+ String c "".
Proof.
  unfold strip_last. intros H. destruct (str_rev s) as [|d x] eqn:E; [done|].
  destruct (Ascii.eqb_spec c d) as [<-|]; [|done]. injection H as <-.
  by rewrite <- (str_rev_involutive s), E, str_rev_cons.
Qed.

(** *** Characters of an ASCII text *)
Lemma ascii_not_continuation c : is_ascii c = true → is_continuation c = false.
Proof. unfold is_ascii, is_continuation. lia. Qed.
Lemma chars_ascii_cons c s :
  str_forallb is_ascii s = true → chars (String c s) = String c "" :: chars s.
Proof.
  intros H. cbn [chars]. destruct s as [|d s]; [done|].
  simpl in H. apply andb_true_iff in H as [Hd _]. by rewrite (ascii_not_continuation d Hd).
Qed.

(** *** Splitting *)
Definition lacks (c : ascii) (s : string) : bool := str_forallb (λ d, negb (Ascii.eqb c d)) s.

Lemma str_split_lacks c s : lacks c s = true → str_split c s = [s].
Proof.
  induction s as [|d s IH]; [done|]. unfold lacks. simpl. intros [Hd Hs]%andb_true_iff.
  apply negb_true_iff in Hd. by rewrite Hd, IH.
Qed.
Lemma str_split_app c a b : lacks c a = true → str_split c (a +:+ String c b) = a :: str_split c b.
Proof.
  induction a as [|d a IH]; intros Ha.
  - change ("" +:+ String c b) with (String c b). simpl. by rewrite Ascii.eqb_refl.
  - unfold lacks in Ha. simpl in Ha. apply andb_true_iff in Ha as [Hd Ha]. apply negb_true_iff in Hd.
    rewrite str_app_cons. simpl. by rewrite Hd, IH.
Qed.
Lemma split_once_app c a b : lacks c a = true → split_once c (a +:+ String c b) = Some (a, b).
Proof.
  induction a as [|d a IH]; intros Ha.
  - change ("" +:+ String c b) with (String c b). simpl. by rewrite Ascii.eqb_refl.
  - unfold lacks in Ha. simpl in Ha. apply andb_true_iff in Ha as [Hd Ha]. apply negb_true_iff in Hd.
    rewrite str_app_cons. simpl. by rewrite Hd, IH.
Qed.
Lemma prefix_char c d s : String.prefix (String c "") (String d s) = Ascii.eqb c d.
Proof.
  simpl. destruct (ascii_dec c d) as [->|Hne]; [by destruct s; rewrite Ascii.eqb_refl|].
  symmetry. by apply Ascii.eqb_neq.
Qed.
Lemma str_contains_lacks c s : str_contains s (String c "") = negb (lacks c s).
Proof.
  induction s as [|d s IH]; [done|]. cbn [str_contains]. rewrite prefix_char, IH.
  unfold lacks. cbn [str_forallb]. by destruct (Ascii.eqb c d).
Qed.
Lemma lacks_app c a b : lacks c (a +:+ b) = lacks c a && lacks c b.
Proof. apply str_forallb_app. Qed.
Lemma split_once_some c s : lacks c s = false → ∃ r a, split_once c s = Some (r, a).
Proof.
  induction s as [|d s IH]; [done|]. unfold lacks. simpl. destruct (Ascii.eqb c d); [by eexists _, _|].
  simpl. intros H. destruct (IH H) as (r & a & ->). by eexists _, _.
Qed.

(** A list that came of splitting a text is never empty. *)
Lemma str_split_cons c s : ∃ p ps, str_split c s = p :: ps.
Proof.
  induction s as [|d s (p & ps & IH)]; simpl; [by eexists _, _|].
  case_match; [by eexists _, _|]. rewrite IH. by eexists _, _.
Qed.
