(* ===== verification/Json.v ===== *)
(** * The libraries under the workflow engine: JSON values, times, ids

    [serde_json::Value] with the constructors the sources match on; its numbers
    and its text are a library's and stay parameters ([SerdeNumber],
    [SerdeText]), as do [chrono]'s RFC 3339 reader and writer ([Chrono]) and the
    text of a [uuid]. [Concrete] instantiates all of it, so the definitions run. *)
From Stdlib Require Import ZArith Lia Ascii.
From S2P Require Import Prelude Float64 RustStr.

Local Open Scope Z_scope.
Set Warnings "-register-all".

(** An instant, in nanoseconds since the epoch. *)
Abbreviation instant := Z.
(** A [Uuid], as its 128-bit number. *)
Abbreviation uuid := N.

(** [serde_json::Number] *)
Class SerdeNumber := {
  Number : Type;
  (** its [PartialEq] *)
  number_eqb : Number → Number → bool;
  as_f64 : Number → option f64;
  as_i64 : Number → option Z;
  (** [Number::from(i64)] *)
  from_i64 : Z → Number;
  (** [Number::from_f64]: [None] for what is not finite *)
  from_f64 : f64 → option Number;
  (** its [Display] *)
  number_to_string : Number → string;
}.

Section value.
Context {SN : SerdeNumber}.

Inductive Value : Type :=
  | VNull
  | VBool (b : bool)
  | VNumber (n : Number)
  | VString (s : string)
  | VArray (l : list Value)
  | VObject (m : list (string * Value)).

(** [Value::is_null], [as_str] *)
Definition is_null (v : Value) : bool := match v with VNull => true | _ => false end.
Definition as_str (v : Value) : option string :=
  match v with VString s => Some s | _ => None end.

(** [Value::from(i64)] *)
Definition value_of_i64 (z : Z) : Value := VNumber (from_i64 z).

(** [PartialEq for Value] *)
Fixpoint value_eqb (a b : Value) {struct a} : bool :=
  match a, b with
  | VNull, VNull => true
  | VBool x, VBool y => Bool.eqb x y
  | VNumber x, VNumber y => number_eqb x y
  | VString x, VString y => String.eqb x y
  | VArray x, VArray y =>
      (fix go (x y : list Value) {struct x} : bool :=
         match x, y with
         | [], [] => true
         | u :: x', v :: y' => value_eqb u v && go x' y'
         | _, _ => false
         end) x y
  | VObject x, VObject y =>
      (fix go (x y : list (string * Value)) {struct x} : bool :=
         match x, y with
         | [], [] => true
         | (j, u) :: x', (k, v) :: y' => String.eqb j k && value_eqb u v && go x' y'
         | _, _ => false
         end) x y
  | _, _ => false
  end.

(** [serde_json::Map] is a [BTreeMap<String, Value>]: the entries in the order
    of their keys, one per key. *)
Fixpoint map_insert (k : string) (v : Value) (m : list (string * Value)) :
    list (string * Value) :=
  match m with
  | [] => [(k, v)]
  | (k', v') :: m' =>
      match String.compare k k' with
      | Lt => (k, v) :: m
      | Eq => (k, v) :: m'
      | Gt => (k', v') :: map_insert k v m'
      end
  end.

(** [Map::get] *)
Definition map_get (k : string) (m : list (string * Value)) : option Value := assoc k m.

(** [map.entry(k).or_insert_with(v)] *)
Definition map_or_insert (k : string) (v : Value) (m : list (string * Value)) :
    list (string * Value) :=
  match map_get k m with Some _ => m | None => map_insert k v m end.

(** [Value::get(key)]: the entry of an object, nothing of any other value. *)
Definition value_get (k : string) (v : Value) : option Value :=
  match v with VObject m => map_get k m | _ => None end.

Definition value_get_or_null (k : string) (v : Value) : Value :=
  default VNull (value_get k v).

(** A map as [serde_json] builds it. *)
Fixpoint keys_above (k : string) (m : list (string * Value)) : Prop :=
  match m with
  | [] => True
  | (k', _) :: m' => String.compare k k' = Lt ∧ keys_above k' m'
  end.
Definition map_ok (m : list (string * Value)) : Prop :=
  match m with [] => True | (k, _) :: m' => keys_above k m' end.
End value.

(** The [Display] of a value, and [serde_json::to_string] of a list of strings. *)
Class SerdeText {SN : SerdeNumber} := {
  value_to_string : Value → string;
  strings_to_json : list string → string;
}.

(** [chrono] *)
Class Chrono := {
  (** [t.to_rfc3339_opts(SecondsFormat::Micros, true)] *)
  to_rfc3339_micros : instant → string;
  (** [DateTime::parse_from_rfc3339(s).ok()], as an instant *)
  parse_from_rfc3339 : string → option instant;
  (** [t + Duration::seconds(s)]; [None] where [chrono] panics *)
  add_seconds : instant → Z → option instant;
}.

(** The text of a [Uuid], and [Uuid::parse_str(s).ok()]. *)
Class UuidText := { uuid_to_string : uuid → string; parse_uuid : string → option uuid }.

(** All of them. *)
Class Libs := {
  libs_number :: SerdeNumber;
  libs_text :: SerdeText;
  libs_chrono :: Chrono;
  libs_uuid :: UuidText;
}.

Section map_facts.
Context {SN : SerdeNumber}.
Implicit Types (m : list (string * Value)) (k : string).

Lemma compare_refl k : String.compare k k = Eq.
Proof.
  induction k as [|c k IH]; [done|]. simpl. unfold Ascii.compare.
  by rewrite N.compare_refl.
Qed.

Lemma compare_ne k k' : String.compare k k' ≠ Eq → k ≠ k'.
Proof. intros H ->. by rewrite compare_refl in H. Qed.

Lemma map_get_insert k v m : map_get k (map_insert k v m) = Some v.
Proof.
  unfold map_get. induction m as [|[k' v'] m IH]; simpl.
  - by rewrite decide_True.
  - destruct (String.compare k k') eqn:E; simpl; [by rewrite decide_True..|].
    rewrite decide_False; [done|]. apply compare_ne. by rewrite E.
Qed.

Lemma map_get_insert_ne k k' v m : k ≠ k' → map_get k' (map_insert k v m) = map_get k' m.
Proof.
  unfold map_get. intros Hne. induction m as [|[j u] m IH]; simpl.
  - by rewrite decide_False.
  - destruct (String.compare k j) eqn:E; simpl.
    + apply String.compare_eq_iff in E as <-. by rewrite !(decide_False (P:=k' = k)).
    + by rewrite (decide_False (P:=k' = k)).
    + by rewrite IH.
Qed.

Lemma keys_above_insert j k v m :
  String.compare j k = Lt → keys_above j m → keys_above j (map_insert k v m).
Proof.
  revert j. induction m as [|[k' v'] m IH]; intros j Hj Hm; simpl in *; [done|].
  destruct Hm as [Hjk' Hm]. destruct (String.compare k k') eqn:E; simpl.
  - apply String.compare_eq_iff in E as <-. done.
  - done.
  - split; [done|]. apply IH; [|done].
    by rewrite String.compare_antisym, E.
Qed.

(** Inserting keeps a map's keys in order, one of each. *)
Lemma map_insert_ok k v m : map_ok m → map_ok (map_insert k v m).
Proof.
  destruct m as [|[k' v'] m]; simpl; [done|]. intros Hm.
  destruct (String.compare k k') eqn:E; simpl.
  - apply String.compare_eq_iff in E as <-. done.
  - done.
  - apply keys_above_insert; [|done]. by rewrite String.compare_antisym, E.
Qed.

Lemma value_get_object k m : value_get k (VObject m) = map_get k m.
Proof. done. Qed.
End map_facts.

(** ** A concrete instance

    Integers and doubles as numbers, and a length-prefixed text. *)
Module Concrete.
Inductive num := NInt (z : Z) | NFloat (f : f64).

Definition num_as_f64 (n : num) : option f64 :=
  match n with NInt z => Some (f64_of_Z z) | NFloat f => Some f end.
Definition num_eqb (a b : num) : bool :=
  match a, b with
  | NInt x, NInt y => x =? y
  | NFloat x, NFloat y => f64_eqb x y || match x, y with S754_nan, S754_nan => true | _, _ => false end
  | _, _ => false
  end.
Definition num_to_string (n : num) : string :=
  match n with NInt z => show_Z z | NFloat f => show_Z (f64_to_i64 f) +:+ ".?" end.

#[export] Instance number : SerdeNumber := {|
  Number := num;
  number_eqb := num_eqb;
  as_f64 := num_as_f64;
  as_i64 n := match n with NInt z => Some z | NFloat _ => None end;
  from_i64 := NInt;
  from_f64 f := match f with
                | S754_nan | S754_infinity _ => None
                | _ => Some (NFloat f)
                end;
  number_to_string := num_to_string;
|}.

Fixpoint to_text (v : Value) : string :=
  match v with
  | VNull => "null"
  | VBool b => if b then "true" else "false"
  | VNumber n => num_to_string n
  | VString s => "'" +:+ s +:+ "'"
  | VArray l => "[" +:+ fold_right (λ v s, to_text v +:+ "," +:+ s) "]" l
  | VObject m =>
      "{" +:+ fold_right (λ kv s, kv.1 +:+ ":" +:+ to_text kv.2 +:+ "," +:+ s) "}" m
  end.

(** Every string behind a mark: one ["1"] per byte before it, then a ["0"]. *)
Fixpoint escape (s : string) : string :=
  match s with
  | EmptyString => "0"
  | String c s' => String "1"%char (String c (escape s'))
  end.
Definition list_text (l : list string) : string :=
  fold_right (λ s acc, "1" +:+ escape s +:+ acc) "0" l.

#[export] Instance text : @SerdeText number := {|
  value_to_string := to_text; strings_to_json := list_text |}.

(** Whole seconds in decimal. *)
#[export] Instance chrono : Chrono := {|
  to_rfc3339_micros t := show_Z (t / 1000);
  parse_from_rfc3339 s := option_map (λ z, z * 1000) (parse_i64 s);
  add_seconds t s := Some (t + s * 1000000000);
|}.

#[export] Instance uuid_text : UuidText := {|
  uuid_to_string u := show_Z (Z.of_N u); parse_uuid s := option_map Z.to_N (parse_i64 s) |}.

#[export] Instance libs : Libs := {|
  libs_number := number; libs_text := text; libs_chrono := chrono; libs_uuid := uuid_text |}.
End Concrete.
