(* ===== verification/WorkflowExpr.v ===== *)
(** * The closed expression set of a workflow

    [backbone-core/src/workflow/expr.rs]: the compiled expressions, templates and
    durations of a workflow, their evaluation over a scope, and the wait keys.
    An evaluation may call the functions a workflow declares, which are hand code
    over some state [S]: [eval] is a computation over [S] that can fail with a
    message or panic. *)
From Stdlib Require Import ZArith Lia Ascii.
From S2P Require Import Prelude Float64 RustStr Json.

Local Open Scope Z_scope.
Set Warnings "-register-all".

(** Where a path starts. *)
Inductive Root := RContext | REvent | RResult | RError | RConfig | RSteps.
#[export] Instance Root_eq_dec : EqDecision Root.
Proof. solve_decision. Defined.

(** One step of a path: [.name] or [[n]]. *)
Inductive Seg := SKey (k : string) | SIndex (n : nat).

(** A binary operator. *)
Inductive BinOp :=
  | OEq | ONe | OLt | OLe | OGt | OGe | OAnd | OOr | OAdd | OSub | OMul | ODiv | OMod.
#[export] Instance BinOp_eq_dec : EqDecision BinOp.
Proof. solve_decision. Defined.

Section syntax.
Context {SN : SerdeNumber}.

(** A compiled expression. *)
Inductive Expr : Type :=
  | ELit (v : Value)
  | EDur (secs : Z)
  | ENow
  | EPath (root : Root) (path : list Seg)
  | ENot (e : Expr)
  | ENeg (e : Expr)
  | EBin (op : BinOp) (l r : Expr)
  | ECoalesce (l r : Expr)
  | EIf (c t e : Expr)
  | EArray (items : list Expr)
  | EIn (l r : Expr) (negate : bool)
  | EMethod (obj : Expr) (name : string) (args : list Expr)
  | ECall (name : string) (args : list Expr).

(** A piece of a template. *)
Inductive Part := PText (s : string) | PExpr (e : Expr).

(** A string with holes. *)
Definition Template : Type := list Part.

(** A value of a step's parameters. *)
Inductive Tpl : Type :=
  | TLit (v : Value)
  | TTemplate (t : Template)
  | TMap (entries : list (string * Tpl))
  | TList (items : list Tpl).

(** A duration: fixed, or evaluated when it is needed. *)
Inductive Dur := DSecs (s : Z) | DTpl (t : Template).

(** What an expression reads. *)
Record Scope := {
  sc_context : Value;
  sc_event : Value;
  sc_result : Value;
  sc_error : Value;
  sc_config : Value;
  sc_completed : gset string;
  sc_now : instant;
}.
End syntax.

(** The functions a workflow declares under [functions:]. *)
Record Funcs {SN : SerdeNumber} (S : Type) := {
  fn_call : string → list Value → sm S string Value;
}.
Arguments fn_call {_ _} _ _ _.

(** A [Funcs] that declares nothing. *)
Definition NoFuncs {SN : SerdeNumber} {S : Type} : Funcs S := {|
  fn_call name _ := sm_err ("function `" +:+ name +:+ "` is not declared") |}.

(** [Uuid::new_v4]: an id drawn from the state. *)
Class UuidGen (S : Type) := { new_v4 : S → uuid * S }.

Definition fresh_uuid {S E} {UG : UuidGen S} : sm S E uuid := λ s,
  let '(u, s') := new_v4 s in (Ok u, s').

Section values.
Context {L : Libs}.

(** Whether a value counts as true. *)
Definition truthy (v : Value) : bool :=
  match v with
  | VNull => false
  | VBool b => b
  | VNumber n => match as_f64 n with Some f => negb (f64_eqb f f64_zero) | None => true end
  | VString s => negb (String.eqb s EmptyString)
  | VArray _ | VObject _ => true
  end.

Definition number (v : Value) : option f64 :=
  match v with VNumber n => as_f64 n | _ => None end.

(** [f.fract() == 0.0 && f.abs() < 9e15] *)
Definition is_whole (f : f64) : bool :=
  f64_eqb (f64_fract f) f64_zero && f64_ltb (f64_abs f) (f64_of_Z 9000000000000000).

Definition num_value (f : f64) : Value :=
  if is_whole f then value_of_i64 (f64_to_i64 f)
  else match from_f64 f with Some n => VNumber n | None => VNull end.

Definition opt_f64_eqb (a b : option f64) : bool :=
  match a, b with
  | Some x, Some y => f64_eqb x y
  | None, None => true
  | _, _ => false
  end.

Definition json_eq (a b : Value) : bool :=
  match a, b with
  | VNumber x, VNumber y => opt_f64_eqb (as_f64 x) (as_f64 y)
  | _, _ => value_eqb a b
  end.

Definition contains (hay needle : Value) : bool :=
  match hay with
  | VArray items => existsb (λ i, json_eq i needle) items
  | VString s => match as_str needle with Some n => str_contains s n | None => false end
  | _ => false
  end.

Definition time_text (t : instant) : string := to_rfc3339_micros t.
Definition parse_time (v : Value) : option instant := as_str v ≫= parse_from_rfc3339.

(** The value a path's root names; [RSteps] names none. *)
Definition root_value (root : Root) (sc : Scope) : option Value :=
  match root with
  | RContext => Some (sc_context sc)
  | REvent => Some (sc_event sc)
  | RResult => Some (sc_result sc)
  | RError => Some (sc_error sc)
  | RConfig => Some (sc_config sc)
  | RSteps => None
  end.

(** Walk a path down a value; a step that does not apply reads [null]. *)
Fixpoint walk (path : list Seg) (cur : Value) : Value :=
  match path with
  | [] => cur
  | SKey k :: path' =>
      match cur with
      | VObject m => match map_get k m with Some v => walk path' v | None => VNull end
      | _ => VNull
      end
  | SIndex i :: path' =>
      match cur with
      | VArray a => match a !! i with Some v => walk path' v | None => VNull end
      | _ => VNull
      end
  end.

Definition read_path (root : Root) (path : list Seg) (sc : Scope) : Value :=
  match root_value root sc with
  | None =>
      match path with
      | [SKey name; SKey field] =>
          if bool_decide (field = "completed")
          then VBool (bool_decide (name ∈ sc_completed sc)) else VNull
      | _ => VNull
      end
  | Some v => walk path v
  end.

(** The text of a value inside a larger template. *)
Definition text_of (v : Value) : string :=
  match v with
  | VNull => ""
  | VString s => s
  | other => value_to_string other
  end.

(** [obj.name(args)] *)
Definition method (recv : Value) (name : string) (args : list Value) : res string Value :=
  if bool_decide (name = "length") || bool_decide (name = "len") then
    Ok (match recv with
        | VString s => value_of_i64 (chars_count s)
        | VArray a => value_of_i64 (Z.of_nat (length a))
        | VObject m => value_of_i64 (Z.of_nat (length m))
        | _ => value_of_i64 0
        end)
  else if bool_decide (name = "contains") || bool_decide (name = "includes") then
    Ok (VBool (contains recv (default VNull (head args))))
  else if bool_decide (name = "starts_with") then
    Ok (VBool (match as_str recv, head args ≫= as_str with
               | Some s, Some p => starts_with s p
               | _, _ => false
               end))
  else if bool_decide (name = "ends_with") then
    Ok (VBool (match as_str recv, head args ≫= as_str with
               | Some s, Some p => ends_with s p
               | _, _ => false
               end))
  else Err ("method `." +:+ name +:+ "` is not part of the workflow expression set").

(** How two values compare: as numbers, else as times, else as texts. *)
Definition compare_values (l r : Value) : option comparison :=
  match number l, number r with
  | Some x, Some y => f64_partial_cmp x y
  | _, _ =>
      match parse_time l, parse_time r with
      | Some x, Some y => Some (x ?= y)
      | _, _ =>
          match as_str l, as_str r with
          | Some x, Some y => Some (String.compare x y)
          | _, _ => None
          end
      end
  end.

(** [Ordering::is_lt] and friends, by the operator. *)
Definition ord_holds (op : BinOp) (o : comparison) : bool :=
  match op, o with
  | OLt, Lt => true
  | OLt, _ => false
  | OLe, Gt => false
  | OLe, _ => true
  | OGt, Gt => true
  | OGt, _ => false
  | _, Lt => false
  | _, _ => true
  end.

(** [-x] of an [i64]: [i64::MIN] has no negation. *)
Definition i64_neg (x : Z) : option Z := if x =? i64_min then None else Some (- x).

(** A time moved by a duration literal; panics where [chrono] does. *)
Definition move_time (op : BinOp) (t : instant) (secs : Z) : res string Value :=
  match (if bool_decide (op = OAdd) then Some secs else i64_neg secs) with
  | Some d => match add_seconds t d with Some t' => Ok (VString (time_text t')) | None => Panic end
  | None => Panic
  end.

Definition add_sub (op : BinOp) (l r : Value) : res string Value :=
  match number l, number r with
  | Some x, Some y =>
      Ok (num_value (if bool_decide (op = OAdd) then f64_add x y else f64_sub x y))
  | _, _ => Err ("`" +:+ (if bool_decide (op = OAdd) then "+" else "-") +:+ "` needs two numbers")
  end.

Definition mul_div (op : BinOp) (l r : Value) : res string Value :=
  match number l, number r with
  | Some x, Some y =>
      if negb (bool_decide (op = OMul)) && f64_eqb y f64_zero then Err "division by zero"
      else Ok (num_value (match op with
                          | OMul => f64_mul x y
                          | ODiv => f64_div x y
                          | _ => f64_rem x y
                          end))
  | _, _ => Err "arithmetic needs two numbers"
  end.

(** [l op r] of two values; [right_expr] tells a duration literal apart. *)
Definition binary (op : BinOp) (l r : Value) (right_expr : Expr) : res string Value :=
  match op with
  | OEq => Ok (VBool (json_eq l r))
  | ONe => Ok (VBool (negb (json_eq l r)))
  | OLt | OLe | OGt | OGe =>
      Ok (VBool (match compare_values l r with
                 | None => false
                 | Some o => ord_holds op o
                 end))
  | OAdd | OSub =>
      match parse_time l, right_expr with
      | Some t, EDur secs => move_time op t secs
      | _, _ =>
          match op, l, r with
          | OAdd, VString a, VString b => Ok (VString (a +:+ b))
          | _, _, _ => add_sub op l r
          end
      end
  | OMul | ODiv | OMod => mul_div op l r
  | OAnd | OOr => Panic
  end.
End values.

Section eval.
Context {L : Libs} {S : Type} {UG : UuidGen S} (fs : Funcs S) (sc : Scope).

(** Evaluate an expression. *)
Fixpoint eval (e : Expr) : sm S string Value :=
  match e with
  | ELit v => mret v
  | EDur s => mret (value_of_i64 s)
  | ENow => mret (VString (time_text (sc_now sc)))
  | EPath root path => mret (read_path root path sc)
  | ENot e => v ← eval e; mret (VBool (negb (truthy v)))
  | ENeg e =>
      v ← eval e;
      match number v with
      | Some n => mret (num_value (f64_neg n))
      | None => sm_err "`-` needs a number"
      end
  | EBin OAnd l r =>
      left ← eval l;
      if negb (truthy left) then mret (VBool false)
      else right ← eval r; mret (VBool (truthy right))
  | EBin OOr l r =>
      left ← eval l;
      if truthy left then mret (VBool true)
      else right ← eval r; mret (VBool (truthy right))
  | EBin op l r =>
      left ← eval l;
      right ← eval r;
      sm_lift (binary op left right r)
  | ECoalesce l r =>
      left ← eval l;
      if is_null left then eval r else mret left
  | EIf c t e =>
      v ← eval c;
      if truthy v then eval t else eval e
  | EArray items => out ← mapM eval items; mret (VArray out)
  | EIn l r negate =>
      needle ← eval l;
      hay ← eval r;
      mret (VBool (xorb (contains hay needle) negate))
  | EMethod obj name args =>
      recv ← eval obj;
      vals ← mapM eval args;
      sm_lift (method recv name vals)
  | ECall name args =>
      vals ← mapM eval args;
      if bool_decide (name = "new_uuid") then
        u ← fresh_uuid; mret (VString (uuid_to_string u))
      else if bool_decide (name = "coalesce") then
        mret (default VNull (List.find (λ v, negb (is_null v)) vals))
      else if bool_decide (name = "len") then
        sm_lift (method (default VNull (head vals)) "length" [])
      else fn_call fs name vals
  end.

(** Evaluate and read the answer as a condition. *)
Definition holds (e : Expr) : sm S string bool := v ← eval e; mret (truthy v).

(** The text a template's part contributes. *)
Definition part_text (p : Part) : sm S string string :=
  match p with
  | PText s => mret s
  | PExpr e => v ← eval e; mret (text_of v)
  end.

(** Render a template: one hole is that expression's value, else text. *)
Definition render_template (t : Template) : sm S string Value :=
  match t with
  | [PExpr e] => eval e
  | _ =>
      out ← sm_fold (λ out p, x ← part_text p; mret (out +:+ x)) "" t;
      mret (VString out)
  end.

(** Render a parameter value. *)
Fixpoint render (tpl : Tpl) : sm S string Value :=
  match tpl with
  | TLit v => mret v
  | TTemplate t => render_template t
  | TMap entries =>
      (fix go (es : list (string * Tpl)) (m : list (string * Value)) : sm S string Value :=
         match es with
         | [] => mret (VObject m)
         | (k, v) :: es' => x ← render v; go es' (map_insert k x m)
         end) entries []
  | TList items => out ← mapM render items; mret (VArray out)
  end.
End eval.

Section durations.
Context {L : Libs}.

Definition unit_secs (unit : string) : option Z :=
  if bool_decide (unit = "s") then Some 1
  else if bool_decide (unit = "m") then Some 60
  else if bool_decide (unit = "h") then Some 3600
  else if bool_decide (unit = "d") then Some 86400
  else if bool_decide (unit = "w") then Some 604800
  else None.

(** Read [30s], [15m], [24h], [7d], [2w], or a bare number, as seconds. *)
Definition parse_duration (text : string) : option Z :=
  let t := trim text in
  if negb (bool_decide (t = "")) && str_forallb is_ascii_digit t then parse_i64 t
  else
    match str_span is_ascii_digit t with
    | (_, EmptyString) => None
    | (digits, unit) =>
        n ← parse_i64 digits;
        secs ← unit_secs unit;
        i64_checked_mul n secs
    end.

(** The canonical text of a value as a wait key. *)
Definition canonical (v : Value) : string :=
  match v with
  | VString s => s
  | VNumber n =>
      match as_f64 n with
      | Some f => if is_whole f then show_Z (f64_to_i64 f) else number_to_string n
      | None => number_to_string n
      end
  | other => value_to_string other
  end.

(** The key a wait is matched on. *)
Definition wait_key (values : list Value) : string := strings_to_json (map canonical values).

(** Render a duration: seconds, or a template read with [parse_duration]. *)
Definition render_duration {S} {UG : UuidGen S} (fs : Funcs S) (sc : Scope) (d : Dur) :
    sm S string Z :=
  match d with
  | DSecs s => mret s
  | DTpl t =>
      v ← render_template fs sc t;
      match v with
      | VNumber n =>
          match as_i64 n with
          | Some z => mret z
          | None => sm_err ("`" +:+ number_to_string n +:+ "` is not a whole number of seconds")
          end
      | VString s =>
          match parse_duration s with
          | Some z => mret z
          | None => sm_err ("`" +:+ s +:+ "` is not a duration (use 30s, 15m, 24h, 7d)")
          end
      | other => sm_err ("`" +:+ value_to_string other +:+ "` is not a duration")
      end
  end.
End durations.
