(* ===== verification/WorkflowExprFacts.v ===== *)
(** * Properties of the workflow expressions

    Durations read back what they print and never leave [i64]; wait keys are
    equal exactly when the canonical texts are; a path reads in steps; an
    expression without calls neither changes nor reads the state it runs over. *)
From Stdlib Require Import ZArith Lia.
From S2P Require Import Prelude Float64 RustStr Json WorkflowExpr.

Local Open Scope Z_scope.

(** ** Durations *)

Lemma unit_secs_spec u k :
  unit_secs u = Some k →
  1 ≤ k ≤ 604800 ∧ ∃ d, u = String d "" ∧ is_ascii_alnum d = true ∧ is_ascii_digit d = false.
Proof.
  unfold unit_secs. intros H.
  repeat case_bool_decide; simplify_eq; (split; [lia|by eexists]).
Qed.

Lemma digit_alnum c : is_ascii_digit c = true → is_ascii_alnum c = true.
Proof. unfold is_ascii_alnum. by intros ->. Qed.

Lemma parse_i64_show n : 0 ≤ n ≤ i64_max → parse_i64 (show_Z n) = Some n.
Proof.
  intros Hn. destruct (show_Z_spec n) as (Hd & Hv & c & s & Hs); [lia|].
  rewrite parse_i64_digits, Hv by (done || by rewrite Hs).
  destruct (Z.leb_spec n i64_max); [done|lia].
Qed.

(** A text of digits ends with a digit. *)
Lemma str_rev_digits s :
  str_forallb is_ascii_digit s = true → s ≠ "" →
  ∃ d r, str_rev s = String d r ∧ is_ascii_digit d = true.
Proof.
  intros Hs Hne. destruct s as [|c s]; [done|clear Hne].
  revert c Hs. induction s as [|c' s IH]; intros c Hs; simpl in Hs.
  - apply andb_true_iff in Hs as [Hc _]. by exists c, "".
  - apply andb_true_iff in Hs as [_ Hs]. destruct (IH c' Hs) as (d & r & Hr & Hd).
    exists d, (r +:+ String c ""). by rewrite str_rev_cons, Hr.
Qed.

Lemma trim_number n : 0 ≤ n → trim (show_Z n) = show_Z n.
Proof.
  intros Hn. destruct (show_Z_spec n) as (Hd & _ & c & s & Hs); [lia|].
  destruct (str_rev_digits (show_Z n)) as (d & r & Hr & Hd'); [done|by rewrite Hs|].
  rewrite Hs in *. simpl in Hd. apply andb_true_iff in Hd as [Hc _].
  eapply trim_id; [by apply alnum_graphic, digit_alnum..|exact Hr].
Qed.

Lemma trim_number_unit n d :
  0 ≤ n → is_ascii_alnum d = true →
  trim (show_Z n +:+ String d "") = show_Z n +:+ String d "".
Proof.
  intros Hn Hd. destruct (show_Z_spec n) as (Hdig & _ & c & s & Hs); [lia|].
  rewrite Hs in *. simpl in Hdig. apply andb_true_iff in Hdig as [Hc _].
  rewrite str_app_cons. eapply trim_id; [by apply alnum_graphic, digit_alnum|by apply alnum_graphic|].
  rewrite <- str_app_cons. apply str_rev_snoc.
Qed.

(** a duration reads back what its number and unit say: a bare number of
    seconds as itself, and [<n><unit>] as the product when it fits [i64]; when it
    does not fit the duration is refused rather than wrapped. *)
Theorem parse_duration_show (n : Z) (u : string) (k : Z) :
  0 ≤ n ≤ i64_max → unit_secs u = Some k →
  parse_duration (show_Z n) = Some n ∧
  parse_duration (show_Z n +:+ u) = (if n * k <=? i64_max then Some (n * k) else None).
Proof.
  intros Hn Hu. destruct (show_Z_spec n) as (Hd & _ & c & s & Hs); [lia|].
  pose proof Hu as (Hk & d & -> & Hda & Hdd)%unit_secs_spec.
  split; unfold parse_duration.
  - rewrite trim_number, bool_decide_false, Hd by (done || lia || by rewrite Hs).
    by apply parse_i64_show.
  - rewrite trim_number_unit by (done || lia).
    rewrite str_forallb_app, andb_comm. simpl. rewrite Hdd, andb_false_r. simpl.
    rewrite str_span_exact by done. rewrite parse_i64_show by done. simpl.
    rewrite Hu. simpl. unfold i64_checked_mul.
    replace (i64_min <=? n * k) with true by (unfold i64_min; nia). done.
Qed.

Lemma parse_duration_show_witness :
  parse_duration (show_Z 15) = Some 15 ∧ parse_duration (show_Z 15 +:+ "m") = Some 900.
Proof.
  apply (parse_duration_show 15 "m" 60); [unfold i64_max; lia|reflexivity].
Defined.

Lemma parse_i64_digits_nonneg s v :
  str_forallb is_ascii_digit s = true → parse_i64 s = Some v → 0 ≤ v ≤ i64_max.
Proof.
  intros Hd Hv. destruct (decide (s = "")) as [->|Hne]; [done|].
  rewrite parse_i64_digits in Hv by done.
  pose proof (digits_val_nonneg s 0 ltac:(lia) Hd).
  destruct (Z.leb_spec (digits_val 0 s) i64_max); simplify_eq; lia.
Qed.

(** whatever text it is given, [parse_duration] answers a number of
    seconds that is not negative and fits [i64], or nothing. *)
Theorem parse_duration_bounds (text : string) :
  match parse_duration text with Some v => 0 ≤ v ≤ i64_max | None => True end.
Proof.
  unfold parse_duration.
  destruct (negb _ && str_forallb _ (trim text)) eqn:E.
  - apply andb_true_iff in E as [_ E]. destruct (parse_i64 (trim text)) eqn:Hp; [|done].
    by eapply parse_i64_digits_nonneg.
  - pose proof (str_span_all is_ascii_digit (trim text)) as Ha.
    destruct (str_span is_ascii_digit (trim text)) as [a [|d b]]; [done|]. simpl in Ha.
    destruct (parse_i64 a) as [n|] eqn:Hp; [|done]. simpl.
    destruct (unit_secs (String d b)) as [k|] eqn:Hu; [|done]. simpl.
    apply parse_i64_digits_nonneg in Hp; [|done].
    apply unit_secs_spec in Hu as [Hk _].
    unfold i64_checked_mul. cbv zeta.
    destruct ((i64_min <=? n * k) && (n * k <=? i64_max)) eqn:Hr; [|done]. nia.
Qed.

(** ** Paths *)

Section paths.
Context {L : Libs}.

Lemma walk_null p : walk p VNull = VNull.
Proof. by destruct p as [|[]]. Qed.

(** a path reads in steps: reading [p] and then [q] under what was found
    is reading the joined path, whatever is missing on the way. *)
Theorem walk_app (p q : list Seg) (v : Value) : walk (p ++ q) v = walk q (walk p v).
Proof.
  revert v. induction p as [|[k|i] p IH]; intros v; [done|simpl..].
  - destruct v; rewrite ?walk_null; try done. destruct (map_get k m); [apply IH|].
    by rewrite walk_null.
  - destruct v; rewrite ?walk_null; try done. destruct (l !! i); [apply IH|].
    by rewrite walk_null.
Qed.
End paths.

(** ** Wait keys *)

Lemma f64_eqb_eq (x y : f64) :
  f64_eqb x y = true →
  x = y ∨ ∃ s s', x = S754_zero s ∧ y = S754_zero s'.
Proof.
  unfold f64_eqb, SFeqb, SFcompare.
  destruct x as [sx|sx| |sx mx ex], y as [sy|sy| |sy my ey]; simpl; intros H;
    try (destruct sx; discriminate H); try (destruct sy; discriminate H); try discriminate H;
    idtac.
  - right. by eexists _, _.
  - left. by destruct sx, sy.
  - left. destruct sx, sy; try discriminate H;
      destruct (Z.compare_spec ex ey) as [->| |]; try discriminate H;
      change (Pos.compare_cont Eq mx my) with (mx ?= my)%positive in H;
      destruct (Pos.compare_spec mx my) as [->| |]; done.
Qed.

Section wait_keys.
Context {L : Libs}.

Lemma whole_zero s : is_whole (S754_zero s) = true ∧ f64_to_i64 (S754_zero s) = 0.
Proof. by destruct s. Qed.

(** Two whole numbers that are equal as numbers have one canonical text: [1]
    and [1.0] match. *)
Lemma canonical_number_eq (m n : Number) x y :
  as_f64 m = Some x → as_f64 n = Some y → is_whole x = true →
  json_eq (VNumber m) (VNumber n) = true →
  canonical (VNumber m) = canonical (VNumber n).
Proof.
  simpl. intros Hx Hy Hw. rewrite Hx, Hy. simpl.
  intros [->|(s & s' & -> & ->)]%f64_eqb_eq; [by rewrite Hw|].
  destruct (whole_zero s) as [-> ->], (whole_zero s') as [-> ->]. done.
Qed.

(** What a wait is keyed on as a rule: [null], a boolean, a text, or a whole number
    below 9e15. *)
Definition key_scalar (v : Value) : bool :=
  match v with
  | VNull | VBool _ | VString _ => true
  | VNumber n => match as_f64 n with Some f => is_whole f | None => false end
  | VArray _ | VObject _ => false
  end.

Lemma canonical_scalar_eq (v w : Value) :
  key_scalar v = true → json_eq v w = true → canonical v = canonical w.
Proof.
  destruct v as [|b|n|t|l|m], w as [|b'|n'|t'|l'|m']; try done; intros Hk He.
  - simpl in He. apply Bool.eqb_prop in He. by subst.
  - simpl in Hk. destruct (as_f64 n) as [x|] eqn:Hx; [|done].
    pose proof He as He'. simpl in He'. rewrite Hx in He'.
    destruct (as_f64 n') as [y|] eqn:Hy; [|done]. by eapply canonical_number_eq.
  - simpl in He. apply String.eqb_eq in He. by subst.
Qed.

(** equal values make equal keys. Where a wait is keyed on [null], booleans,
    texts or whole numbers, an event whose fields are equal to the instance's values, as
    expressions compare them ([1] and [1.0] are equal), builds the same key. *)
Theorem wait_key_equal_values (vs ws : list Value) :
  Forall2 (λ v w, key_scalar v = true ∧ json_eq v w = true) vs ws → wait_key vs = wait_key ws.
Proof.
  intros H. unfold wait_key. f_equal. induction H as [|v w vs ws [Hk He] _ IH]; [done|].
  simpl. f_equal; [by apply canonical_scalar_eq|done].
Qed.
End wait_keys.

Section key_witness.
Import Concrete.
(** The integer and the double. *)
Definition vint (z : Z) : @Value (@libs_number libs) := @VNumber (@libs_number libs) (NInt z).
Definition vfloat (z : Z) : @Value (@libs_number libs) := @VNumber (@libs_number libs) (NFloat (f64_of_Z z)).
Lemma wait_key_equal_values_witness :
  wait_key [vint 3; VString "a@b"] = wait_key [vfloat 3; VString "a@b"].
Proof.
  apply (wait_key_equal_values [vint 3; VString "a@b"]
           [vfloat 3; VString "a@b"]).
  repeat constructor.
Defined.
End key_witness.

(** ** Evaluation *)

Section eval_facts.
Context {L : Libs}.

(** Induction over expressions, with the hypothesis for every argument. *)
Lemma Expr_ind' (P : Expr → Prop) :
  (∀ v, P (ELit v)) → (∀ s, P (EDur s)) → P ENow → (∀ r p, P (EPath r p)) →
  (∀ e, P e → P (ENot e)) → (∀ e, P e → P (ENeg e)) →
  (∀ op l r, P l → P r → P (EBin op l r)) →
  (∀ l r, P l → P r → P (ECoalesce l r)) →
  (∀ c t e, P c → P t → P e → P (EIf c t e)) →
  (∀ items, Forall P items → P (EArray items)) →
  (∀ l r n, P l → P r → P (EIn l r n)) →
  (∀ obj name args, P obj → Forall P args → P (EMethod obj name args)) →
  (∀ name args, Forall P args → P (ECall name args)) →
  ∀ e, P e.
Proof.
  intros Hlit Hdur Hnow Hpath Hnot Hneg Hbin Hco Hif Harr Hin Hmeth Hcall.
  fix IH 1. intros [v|s| |r p|e|e|op l r|l r|c t e|items|l r n|obj name args|name args].
  - apply Hlit.
  - apply Hdur.
  - apply Hnow.
  - apply Hpath.
  - apply Hnot, IH.
  - apply Hneg, IH.
  - apply Hbin; apply IH.
  - apply Hco; apply IH.
  - apply Hif; apply IH.
  - apply Harr. induction items; constructor; [apply IH|assumption].
  - apply Hin; apply IH.
  - apply Hmeth; [apply IH|]. induction args; constructor; [apply IH|assumption].
  - apply Hcall. induction args; constructor; [apply IH|assumption].
Qed.

(** No call anywhere: nothing of hand code, and no fresh id. *)
Fixpoint call_free (e : Expr) : bool :=
  match e with
  | ELit _ | EDur _ | ENow | EPath _ _ => true
  | ENot e | ENeg e => call_free e
  | EBin _ l r | ECoalesce l r | EIn l r _ => call_free l && call_free r
  | EIf c t e => call_free c && call_free t && call_free e
  | EArray items => forallb call_free items
  | EMethod obj _ args => call_free obj && forallb call_free args
  | ECall _ _ => false
  end.

Context {S : Type} {UG : UuidGen S}.

Lemma call_free_Forall (P : Expr → Prop) l :
  forallb call_free l = true → Forall (λ e, call_free e = true → P e) l → Forall P l.
Proof.
  intros H. induction 1 as [|e l He _ IH]; [constructor|].
  simpl in H. apply andb_true_iff in H as [? ?]. constructor; auto.
Qed.

(** an expression without calls is a function of its scope alone: it gives
    the same answer from every state, changes none, and asks nothing of the
    workflow's functions. *)
Theorem eval_call_free (fs fs' : Funcs S) (sc : Scope) (e : Expr) :
  call_free e = true →
  ∃ r, ∀ s, eval fs sc e s = (r, s) ∧ eval fs' sc e s = (r, s).
Proof.
  change (call_free e = true → agree (eval fs sc e) (eval fs' sc e)).
  induction e as [| | | |e IH|e IH|op l r IHl IHr|l r IHl IHr|c t e IHc IHt IHe|items IH
    |l r n IHl IHr|obj name args IHo IH|name args IH] using Expr_ind'; simpl; intros He;
    rewrite ?andb_true_iff in He; destruct_and?; try discriminate.
  all: repeat match goal with IH : ?b = true → agree _ _, H : ?b = true |- _ =>
         specialize (IH H) end.
  all: try (by eauto with keeps).
  - apply agree_bind; [done|intros v]. destruct (number v); eauto with keeps.
  - destruct op; (apply agree_bind; [done|intros v]); try case_match; eauto with keeps.
  - apply agree_bind; [done|intros v]. case_match; eauto with keeps.
  - apply agree_bind; [done|intros v]. case_match; eauto with keeps.
  - apply agree_bind; [|intros; apply agree_ret].
    apply agree_mapM. by apply call_free_Forall.
  - apply agree_bind; [done|intros v]. apply agree_bind; [|intros; apply agree_lift].
    apply agree_mapM. by apply call_free_Forall.
Qed.

Lemma keeps_eval (R : relation S) `{!PreOrder R} (fs : Funcs S) (sc : Scope) (e : Expr) :
  (∀ name vals, keeps R (fn_call fs name vals)) → (∀ s, R s (new_v4 s).2) →
  keeps R (eval fs sc e).
Proof.
  intros Hfs Hid.
  induction e as [| | | |e IH|e IH|op l r IHl IHr|l r IHl IHr|c t e IHc IHt IHe|items IH
    |l r n IHl IHr|obj name args IHo IH|name args IH] using Expr_ind'; simpl.
  all: try (by eauto with keeps).
  - apply keeps_bind; [done..|intros v]. destruct (number v); eauto with keeps.
  - destruct op; (apply keeps_bind; [done..|intros v]); try case_match; eauto with keeps.
  - apply keeps_bind; [done..|intros v]. case_match; eauto with keeps.
  - apply keeps_bind; [done..|intros v]. case_match; eauto with keeps.
  - apply keeps_bind; [done|by apply keeps_mapM|eauto with keeps].
  - apply keeps_bind; [done..|intros v].
    apply keeps_bind; [done|by apply keeps_mapM|eauto with keeps].
  - apply keeps_bind; [done|by apply keeps_mapM|intros vals].
    repeat case_match; eauto with keeps. apply keeps_bind; [done| |eauto with keeps].
    intros s. unfold fresh_uuid. specialize (Hid s). by destruct (new_v4 s).
Qed.

Lemma keeps_holds (R : relation S) `{!PreOrder R} (fs : Funcs S) (sc : Scope) (e : Expr) :
  (∀ name vals, keeps R (fn_call fs name vals)) → (∀ s, R s (new_v4 s).2) →
  keeps R (holds fs sc e).
Proof. intros. unfold holds. eauto using keeps_eval with keeps. Qed.

Lemma keeps_render_template (R : relation S) `{!PreOrder R} (fs : Funcs S) (sc : Scope) t :
  (∀ name vals, keeps R (fn_call fs name vals)) → (∀ s, R s (new_v4 s).2) →
  keeps R (render_template fs sc t).
Proof.
  intros Hf Hid.
  assert (keeps R (out ← sm_fold (λ out p, x ← part_text fs sc p; mret (out +:+ x)) "" t;
                   mret (VString out))) as H.
  { apply keeps_bind; [done| |eauto with keeps]. apply keeps_fold; [done|].
    intros out p. apply keeps_bind; [done| |eauto with keeps].
    destruct p as [s|e]; [by apply keeps_ret|].
    apply keeps_bind; [done|by apply keeps_eval|eauto with keeps]. }
  destruct t as [|[s|e] [|]]; try done. by apply keeps_eval.
Qed.

(** Induction over parameter values. *)
Lemma Tpl_ind' (P : Tpl → Prop) :
  (∀ v, P (TLit v)) → (∀ t, P (TTemplate t)) →
  (∀ es, Forall (λ kv, P kv.2) es → P (TMap es)) →
  (∀ l, Forall P l → P (TList l)) → ∀ t, P t.
Proof.
  intros Hlit Ht Hm Hl. fix IH 1. intros [v|t|es|l].
  - apply Hlit.
  - apply Ht.
  - apply Hm. induction es as [|[k t] es]; constructor; [apply IH|assumption].
  - apply Hl. induction l; constructor; [apply IH|assumption].
Qed.

Lemma keeps_render (R : relation S) `{!PreOrder R} (fs : Funcs S) (sc : Scope) t :
  (∀ name vals, keeps R (fn_call fs name vals)) → (∀ s, R s (new_v4 s).2) →
  keeps R (render fs sc t).
Proof.
  intros Hf Hid. induction t as [v|t|es IH|l IH] using Tpl_ind'; simpl.
  - by apply keeps_ret.
  - by apply keeps_render_template.
  - generalize (@nil (string * Value)). induction IH as [|[k t] es Ht _ IH']; intros m.
    + by apply keeps_ret.
    + apply keeps_bind; [done|exact Ht|]. intros x. apply IH'.
  - apply keeps_bind; [done|by apply keeps_mapM|]. intros out. by apply keeps_ret.
Qed.

Lemma keeps_render_duration (R : relation S) `{!PreOrder R} (fs : Funcs S) (sc : Scope) d :
  (∀ name vals, keeps R (fn_call fs name vals)) → (∀ s, R s (new_v4 s).2) →
  keeps R (render_duration fs sc d).
Proof.
  intros Hf Hid. destruct d as [s|t]; simpl; [by apply keeps_ret|].
  apply keeps_bind; [done|by apply keeps_render_template|].
  intros [| |n|s| |]; repeat case_match; eauto with keeps.
Qed.
End eval_facts.

Section eval_witness.
Import Concrete.
#[local] Instance counter_uuid : UuidGen N := {| new_v4 n := (n, (n + 1)%N) |}.
Definition empty_scope : @Scope (@libs_number libs) := {|
  sc_context := VObject [("n", vint 2)]; sc_event := VNull; sc_result := VNull;
  sc_error := VNull; sc_config := VNull; sc_completed := ∅; sc_now := 0 |}.
Definition n_plus_one : @Expr (@libs_number libs) := EBin OAdd (EPath RContext [SKey "n"]) (ELit (vint 1)).

Lemma eval_call_free_witness :
  ∃ r, ∀ s, eval NoFuncs empty_scope n_plus_one s = (r, s) ∧
            eval NoFuncs empty_scope n_plus_one s = (r, s).
Proof. apply (eval_call_free NoFuncs NoFuncs empty_scope n_plus_one). reflexivity. Defined.
End eval_witness.
