(* ===== verification/Database.v ===== *)
(** * The database under the framework, and write transactions

    [backbone-orm/src/write_tx.rs]: [in_write_tx] and the unit it runs. Tables
    are a pure value; everything outside the program is an environment the
    program draws from: whether the next database round trip fails, what the
    clocks read, the next random id, whether a row another session holds is
    skipped. A rolled back transaction gives the tables back as they were, and
    keeps what it drew. *)
From Stdlib Require Import ZArith Lia.
From S2P Require Import Prelude Json WorkflowExpr.

(** What the program draws from outside it. *)
Class World (W : Type) := {
  (** does the next database round trip fail, and with which [sqlx::Error] *)
  w_fault : W → option string * W;
  (** [now()] of a transaction (or of a statement outside one) *)
  w_pg_now : W → instant * W;
  (** [Utc::now()] *)
  w_utc_now : W → instant * W;
  (** [Uuid::new_v4()] *)
  w_uuid : W → uuid * W;
  (** is the row locked by another session ([FOR UPDATE SKIP LOCKED]) *)
  w_locked : W → bool * W;
}.

(** An [sqlx::Error], as its message. *)
Definition DbError : Type := string.

(** The tables and the world. *)
Record St (T W : Type) := mkSt { tables : T; world : W }.
Arguments mkSt {_ _} _ _.
Arguments tables {_ _} _.
Arguments world {_ _} _.

#[export] Instance st_uuid {T W} {HW : World W} : UuidGen (St T W) := {|
  new_v4 s := let '(u, w) := w_uuid (world s) in (u, mkSt (tables s) w) |}.

(** A transaction open on a connection: what its session variables say
    ([app.company_id], [app.acting_unit_id]) and its [now()]. *)
Record Tx := {
  tx_company : option uuid;
  tx_unit : option uuid;
  tx_now : instant;
}.

(** What a connection's session variables fence: the company and the acting unit. *)
Definition Fence : Type := option uuid * option uuid.

(** The task-local values a call runs under: the bound company, the connection a
    request scope is bound to (as the fence its session variables hold), the
    correlation id, and the ambient write transaction. *)
Record Task := {
  task_company : option uuid;
  task_conn : option Fence;
  task_correlation : option string;
  task_tx : option Tx;
}.

Definition task0 : Task :=
  {| task_company := None; task_conn := None; task_correlation := None; task_tx := None |}.

Definition with_tx (tk : Task) (tx : Tx) : Task :=
  {| task_company := task_company tk; task_conn := task_conn tk;
     task_correlation := task_correlation tk; task_tx := Some tx |}.

(** [with_company_scope]: the company alone; a connection already bound stays. *)
Definition with_company_scope (tk : Task) (company : option uuid) : Task :=
  {| task_company := company; task_conn := task_conn tk;
     task_correlation := task_correlation tk; task_tx := task_tx tk |}.
(** Inside [with_org_request_scope], for a unit of a company. *)
Definition with_org_scope (tk : Task) (company unit : uuid) : Task :=
  {| task_company := Some company; task_conn := Some (Some company, Some unit);
     task_correlation := task_correlation tk; task_tx := task_tx tk |}.
(** [with_correlation_id] *)
Definition with_correlation_id (tk : Task) (id : string) : Task :=
  {| task_company := task_company tk; task_conn := task_conn tk;
     task_correlation := Some id; task_tx := task_tx tk |}.

(** The fence a transaction opened in the task runs under: the request
    connection's, else what [bind_task_scope] binds. *)
Definition task_fence (tk : Task) : Fence :=
  match task_conn tk with Some f => f | None => (task_company tk, None) end.
Definition tx_at (f : Fence) (now : instant) : Tx :=
  {| tx_company := f.1; tx_unit := f.2; tx_now := now |}.

Section database.
Context {T W : Type} {HW : World W}.

(** One round trip to the database. *)
Definition sqlx_point : sm (St T W) DbError unit := λ s,
  match w_fault (world s) with
  | (Some e, w) => (Err e, mkSt (tables s) w)
  | (None, w) => (Ok tt, mkSt (tables s) w)
  end.

(** A statement: what it answers and the tables after it; [None] is a
    constraint it breaks. *)
Definition sql {A} (f : T → option (A * T)) : sm (St T W) DbError A :=
  _ ← sqlx_point;
  sm_of (λ s, match f (tables s) with
              | Some (a, t) => (Ok a, mkSt t (world s))
              | None => (Err "constraint violation", s)
              end).

(** A query. *)
Definition query {A} (f : T → A) : sm (St T W) DbError A := sql (λ t, Some (f t, t)).
(** An [UPDATE], or an [INSERT] that cannot break a constraint. *)
Definition exec (f : T → T) : sm (St T W) DbError unit := sql (λ t, Some (tt, f t)).

Definition utc_now {E} : sm (St T W) E instant := λ s,
  let '(t, w) := w_utc_now (world s) in (Ok t, mkSt (tables s) w).
Definition pg_now {E} : sm (St T W) E instant := λ s,
  let '(t, w) := w_pg_now (world s) in (Ok t, mkSt (tables s) w).
Definition row_locked {E} : sm (St T W) E bool := λ s,
  let '(b, w) := w_locked (world s) in (Ok b, mkSt (tables s) w).

(** The tables as they were when the unit began; what was drawn stays drawn. *)
Definition rollback_to (saved : T) (s : St T W) : St T W := mkSt saved (world s).

(** [TxUnit::finish]: commit a success, roll back anything else. The outermost
    unit probes the connection before the commit. *)
Definition finish {E A} (from : DbError → E) (outermost : bool) (saved : T) (r : res E A) :
    sm (St T W) E A := λ s,
  match r with
  | Ok v =>
      match (if outermost then (_ ← sqlx_point; sqlx_point) else sqlx_point) s with
      | (Ok _, s') => (Ok v, s')
      | (Err e, s') => (Err (from e), rollback_to saved s')
      | (Panic, s') => (Panic, rollback_to saved s')
      end
  | Err e => (Err e, rollback_to saved s)
  | Panic => (Panic, rollback_to saved s)
  end.

(** The unit: begin, run, finish. *)
Definition run_unit {E A} (from : DbError → E) (outermost : bool) (f : sm (St T W) E A) :
    sm (St T W) E A :=
  _ ← map_err from sqlx_point;
  sm_of (λ s, let '(r, s') := f s in finish from outermost (tables s) r s').

(** Run [f] in the ambient write transaction, as a savepoint of it, or in a
    transaction of its own on a connection the task's scope is bound to. *)
Definition in_write_tx {E A} (from : DbError → E) (tk : Task)
    (f : Task → sm (St T W) E A) : sm (St T W) E A :=
  match task_tx tk with
  | Some _ => run_unit from false (f tk)
  | None =>
      match task_conn tk with
      | Some fence =>
          run_unit from true (now ← pg_now; f (with_tx tk (tx_at fence now)))
      | None =>
          _ ← map_err from sqlx_point;
          run_unit from true (
            now ← pg_now;
            _ ← map_err from sqlx_point;
            f (with_tx tk (tx_at (task_company tk, None) now)))
      end
  end.

(** [with_org_request_scope]: the ambient scope is reused when it is the same one;
    otherwise a connection is taken and bound. *)
Definition with_org_request_scope {E A} (from : DbError → E) (tk : Task)
    (company unit : uuid) (work : Task → sm (St T W) E A) : sm (St T W) E A :=
  _ ← (if bool_decide (task_conn tk = Some (Some company, Some unit)) then mret tt
       else map_err from sqlx_point);
  work (with_org_scope tk company unit).

(** ** Facts *)

Definition same_tables : relation (St T W) := λ s s', tables s = tables s'.
#[export] Instance same_tables_preorder : PreOrder same_tables.
Proof. split; [done|]. intros ??? H1 H2. unfold same_tables in *. congruence. Qed.

Lemma keeps_point : keeps same_tables sqlx_point.
Proof. intros s. unfold sqlx_point. by destruct (w_fault (world s)) as [[e|] w]. Qed.
Lemma keeps_utc_now {E} : keeps same_tables (utc_now (E:=E)).
Proof. intros s. unfold utc_now. by destruct (w_utc_now (world s)). Qed.
Lemma keeps_pg_now {E} : keeps same_tables (pg_now (E:=E)).
Proof. intros s. unfold pg_now. by destruct (w_pg_now (world s)). Qed.
Lemma keeps_row_locked {E} : keeps same_tables (row_locked (E:=E)).
Proof. intros s. unfold row_locked. by destruct (w_locked (world s)). Qed.
Lemma keeps_query {A} (f : T → A) : keeps same_tables (query f).
Proof.
  intros s. pose proof (keeps_point s) as H. unfold query, sql, mbind, sm_bind.
  by destruct (sqlx_point s) as [[[]|e|] s'].
Qed.
Lemma keeps_new_v4 s : same_tables s (new_v4 s).2.
Proof. simpl. by destruct (w_uuid (world s)). Qed.
Lemma keeps_fresh_uuid {E} : keeps same_tables (fresh_uuid (E:=E)).
Proof.
  intros s. pose proof (keeps_new_v4 s) as H. unfold fresh_uuid.
  by destruct (new_v4 s).
Qed.

(** A statement either failed and changed nothing, or did what it says. *)
Lemma wp_sql {A} (f : T → option (A * T)) (Φ : res DbError A → St T W → Prop) s :
  (∀ e w, Φ (Err e) (mkSt (tables s) w)) →
  (∀ w a t, f (tables s) = Some (a, t) → Φ (Ok a) (mkSt t w)) →
  wp (sql f) Φ s.
Proof.
  intros He Ho. unfold wp, sql, mbind, sm_bind, sqlx_point.
  destruct (w_fault (world s)) as [[e|] w]; unfold sm_of; simpl; [apply He|].
  destruct (f (tables s)) as [[a t]|] eqn:Hf; simpl; [by apply Ho|apply He].
Qed.

Lemma wp_query {A} (f : T → A) (Φ : res DbError A → St T W → Prop) s :
  (∀ e w, Φ (Err e) (mkSt (tables s) w)) →
  (∀ w, Φ (Ok (f (tables s))) (mkSt (tables s) w)) →
  wp (query f) Φ s.
Proof. intros He Ho. apply wp_sql; [done|]. intros w a t [= <- <-]. apply Ho. Qed.

Lemma wp_exec (f : T → T) (Φ : res DbError unit → St T W → Prop) s :
  (∀ e w, Φ (Err e) (mkSt (tables s) w)) →
  (∀ w, Φ (Ok tt) (mkSt (f (tables s)) w)) →
  wp (exec f) Φ s.
Proof. intros He Ho. apply wp_sql; [done|]. intros w [] t [= <-]. apply Ho. Qed.

(** A unit that succeeds is its body; one that does not leaves the tables as
    they were. *)
Lemma wp_run_unit {E A} (from : DbError → E) o (f : sm (St T W) E A)
    (Φ : res E A → St T W → Prop) s :
  (∀ e w, Φ (Err (from e)) (mkSt (tables s) w)) →
  (∀ w, wp f (λ r s', match r with
                      | Ok a => ∀ w', Φ (Ok a) (mkSt (tables s') w')
                      | r => ∀ w', Φ r (mkSt (tables s) w')
                      end) (mkSt (tables s) w)) →
  wp (run_unit from o f) Φ s.
Proof.
  intros Hbad Hf. unfold run_unit. apply wp_bind, wp_map_err.
  unfold wp at 1, sqlx_point. destruct (w_fault (world s)) as [[e|] w]; simpl.
  { by apply Hbad. }
  unfold sm_of.
  specialize (Hf w). unfold wp in *. destruct (f (mkSt (tables s) w)) as [[a|e|] s'];
    simpl in *; [|by apply Hf..].
  unfold finish. destruct o; unfold mbind, sm_bind, sqlx_point; simpl.
  - destruct (w_fault (world s')) as [[e|] w1]; simpl; [by apply Hbad|].
    destruct (w_fault w1) as [[e|] w2]; simpl; [by apply Hbad|apply Hf].
  - destruct (w_fault (world s')) as [[e|] w1]; simpl; [by apply Hbad|apply Hf].
Qed.

(** The same for a write transaction. *)
Lemma wp_in_write_tx {E A} (from : DbError → E) tk (f : Task → sm (St T W) E A)
    (Φ : res E A → St T W → Prop) s :
  (∀ e w, Φ (Err (from e)) (mkSt (tables s) w)) →
  (∀ tx w, task_tx tk = Some tx ∨ task_tx tk = None ∧ (∃ now, tx = tx_at (task_fence tk) now) →
     wp (f (with_tx tk tx)) (λ r s', match r with
                         | Ok a => ∀ w', Φ (Ok a) (mkSt (tables s') w')
                         | r => ∀ w', Φ r (mkSt (tables s) w')
                         end) (mkSt (tables s) w)) →
  wp (in_write_tx from tk f) Φ s.
Proof.
  intros Hbad Hf. unfold in_write_tx. destruct (task_tx tk) as [tx|] eqn:Htx.
  { apply wp_run_unit; [done|]. intros w. specialize (Hf tx w (or_introl eq_refl)).
    destruct tk; simpl in *; by subst. }
  assert (Hf' : ∀ now w, wp (f (with_tx tk (tx_at (task_fence tk) now))) (λ r s', match r with
      | Ok a => ∀ w', Φ (Ok a) (mkSt (tables s') w')
      | r => ∀ w', Φ r (mkSt (tables s) w') end) (mkSt (tables s) w)) by eauto 6.
  unfold task_fence in Hf'. destruct (task_conn tk) as [fence|].
  - apply wp_run_unit; [done|]. intros w. apply wp_bind.
    unfold wp at 1, pg_now. simpl. destruct (w_pg_now w) as [now w1]. simpl. apply Hf'.
  - apply wp_bind, wp_map_err. unfold wp at 1, sqlx_point.
    destruct (w_fault (world s)) as [[e|] w0]; simpl; [by apply Hbad|].
    apply wp_run_unit; [done|]. intros w. simpl. apply wp_bind.
    unfold wp at 1, pg_now. simpl. destruct (w_pg_now w) as [now w1]. simpl.
    apply wp_bind, wp_map_err. unfold wp at 1, sqlx_point. simpl.
    destruct (w_fault w1) as [[e|] w2]; simpl; [intros w'; by apply Hbad|apply Hf'].
Qed.
(** A unit does what its body does. *)
Lemma in_write_tx_ext {E A} (from : DbError → E) tk (f g : Task → sm (St T W) E A) s :
  (∀ tx s', f (with_tx tk tx) s' = g (with_tx tk tx) s') → in_write_tx from tk f s = in_write_tx from tk g s.
Proof.
  intros Hfg. assert (∀ o h h' s', (∀ s'', h s'' = h' s'') →
    run_unit (A:=A) from o h s' = run_unit from o h' s') as Hunit.
  { intros o h h' s' Hh. unfold run_unit, mbind, sm_bind, sm_of. destruct (map_err from sqlx_point s') as [[]]; [|done..].
    by rewrite Hh. }
  unfold in_write_tx. destruct (task_tx tk) as [tx|] eqn:Htx.
  { apply Hunit. intros s''. specialize (Hfg tx s''). destruct tk. simpl in *. by subst. }
  destruct (task_conn tk) as [fence|].
  - apply Hunit. intros s''. eapply sm_bind_ext; [done|apply wpo_true|]. intros; apply Hfg.
  - eapply sm_bind_ext; [done|apply wpo_true|]. intros _ s1 _. apply Hunit. intros s''.
    eapply sm_bind_ext; [done|apply wpo_true|]. intros now s2 _.
    eapply sm_bind_ext; [done|apply wpo_true|]. intros; apply Hfg.
Qed.
End database.
#[export] Hint Resolve keeps_point keeps_utc_now keeps_pg_now keeps_row_locked keeps_query
  keeps_new_v4 keeps_fresh_uuid : keeps.

(** C9: a write transaction is all or nothing. When it answers a success, the
    tables are what its body left; when it fails, at the start, in its body, at the
    probe or at the commit, or when its body panics, the tables are what they
    were. The same holds of one nested in another as a savepoint. *)
Theorem in_write_tx_atomic {T W E A} {HW : World W} (from : DbError → E) (tk : Task)
    (f : Task → sm (St T W) E A) (s : St T W) :
  let '(r, s') := in_write_tx from tk f s in
  match r with
  | Ok a => ∃ tk' s0 s1, tables s0 = tables s ∧ f tk' s0 = (Ok a, s1) ∧ tables s' = tables s1
  | Err _ | Panic => tables s' = tables s
  end.
Proof.
  enough (wp (in_write_tx from tk f) (λ r s', match r with
    | Ok a => ∃ tk' s0 s1, tables s0 = tables s ∧ f tk' s0 = (Ok a, s1) ∧ tables s' = tables s1
    | Err _ | Panic => tables s' = tables s end) s) as H.
  { unfold wp in H. by destruct (in_write_tx from tk f s). }
  apply wp_in_write_tx.
  - done.
  - intros tx w _. unfold wp.
    destruct (f (with_tx tk tx) (mkSt (tables s) w)) as [[a|e|] s1] eqn:Hf; simpl; [|done..].
    intros w'. exists (with_tx tk tx), (mkSt (tables s) w), s1. done.
Qed.

(** What the next reading of the clock is. *)
Definition clk {T W} {HW : World W} (s : St T W) : instant := (w_utc_now (world s)).1.
(** A clock that is not set back. *)
Class ClockForward (W : Type) {HW : World W} : Prop :=
  clock_forward : ∀ w, ((w_utc_now w).1 ≤ (w_utc_now (w_utc_now w).2).1)%Z.

(** ** A concrete world *)
Module ConcreteWorld.
Local Open Scope Z_scope.
(** A world that fails where it is told to; its clocks tick. *)
Record DW := mkDW { dw_faults : list (option string); dw_clock : Z; dw_next : N }.
#[export] Instance demo_world : World DW := {|
  w_fault w := match dw_faults w with
               | [] => (None, w)
               | f :: fs => (f, mkDW fs (dw_clock w) (dw_next w))
               end;
  w_pg_now w := (dw_clock w, mkDW (dw_faults w) (dw_clock w + 1) (dw_next w));
  w_utc_now w := (dw_clock w, mkDW (dw_faults w) (dw_clock w + 1) (dw_next w));
  w_uuid w := (dw_next w, mkDW (dw_faults w) (dw_clock w) (dw_next w + 1)%N);
  w_locked w := (false, w);
|}.
End ConcreteWorld.
