(* ===== verification/Outbox.v ===== *)
(** * The transactional outbox, its relay and the inbox

    [backbone-outbox/src/]: [record.rs], [error.rs], [outbox.rs] ([stage], the
    counts), [inbox.rs], [relay.rs] and the pacing of [runner.rs]. The tables are
    [OutboxTables]; [HasOutbox] says where a database that holds them keeps
    them, so a client of the outbox is proved against the interface. *)
From Stdlib Require Import ZArith Lia Ascii.
From S2P Require Import Prelude RustStr Json WorkflowExpr Database.

Local Open Scope Z_scope.

(** ** [error.rs] *)

Inductive OutboxError :=
  | ODb (e : DbError)
  | OInvalidSchema (schema : string)
  | OPublish (reason : string)
  | OExhausted (reason : string).

(** Its [Display]. *)
Definition outbox_error_to_string (e : OutboxError) : string :=
  match e with
  | ODb e => "db: " +:+ e
  | OInvalidSchema s => "invalid schema identifier: " +:+ str_debug s
  | OPublish r => "publish failed: " +:+ r
  | OExhausted r => "publish exhausted: " +:+ r
  end.

Definition is_ident_start (c : ascii) : bool := (byte_of c =? 95) || is_ascii_lowercase c.
Definition is_ident_char (c : ascii) : bool := is_ident_start c || is_ascii_digit c.

(** A lowercase identifier of at most 63 bytes. *)
Definition validate_schema (schema : string) : res OutboxError unit :=
  let ok :=
    negb (String.eqb schema "") && (str_len schema <=? 63) &&
    match schema with EmptyString => false | String c _ => is_ident_start c end &&
    str_forallb is_ident_char schema in
  if ok then Ok tt else Err (OInvalidSchema schema).

(** ** [record.rs] *)

Section outbox.
Context {L : Libs}.

Record OutboxRecord := {
  rec_id : uuid;
  rec_event_type : string;
  rec_aggregate_type : string;
  rec_aggregate_id : string;
  rec_company_id : uuid;
  rec_payload : Value;
  rec_occurred_at : instant;
  rec_correlation_id : option string;
  rec_causation_id : option string;
  rec_version : Z;
  rec_org_unit_id : option uuid;
}.

(** [OutboxRecord::new], around the fresh id [new_v4] gave. *)
Definition record_new (id : uuid) (event_type aggregate_type aggregate_id : string)
    (company : uuid) (payload : Value) (occurred_at : instant) : OutboxRecord := {|
  rec_id := id; rec_event_type := event_type; rec_aggregate_type := aggregate_type;
  rec_aggregate_id := aggregate_id; rec_company_id := company; rec_payload := payload;
  rec_occurred_at := occurred_at; rec_correlation_id := None; rec_causation_id := None;
  rec_version := 1; rec_org_unit_id := None |}.

(** The same with the id drawn. *)
Definition new_record {S E} {UG : UuidGen S}
    (event_type aggregate_type aggregate_id : string)
    (company : uuid) (payload : Value) (occurred_at : instant) : sm S E OutboxRecord :=
  id ← fresh_uuid;
  mret (record_new id event_type aggregate_type aggregate_id company payload occurred_at).

(** The builders. *)
Definition with_id (r : OutboxRecord) (id : uuid) : OutboxRecord := {|
  rec_id := id; rec_event_type := rec_event_type r;
  rec_aggregate_type := rec_aggregate_type r; rec_aggregate_id := rec_aggregate_id r;
  rec_company_id := rec_company_id r; rec_payload := rec_payload r;
  rec_occurred_at := rec_occurred_at r; rec_correlation_id := rec_correlation_id r;
  rec_causation_id := rec_causation_id r; rec_version := rec_version r;
  rec_org_unit_id := rec_org_unit_id r |}.
Definition with_org_unit_id (r : OutboxRecord) (unit : uuid) : OutboxRecord := {|
  rec_id := rec_id r; rec_event_type := rec_event_type r;
  rec_aggregate_type := rec_aggregate_type r; rec_aggregate_id := rec_aggregate_id r;
  rec_company_id := rec_company_id r; rec_payload := rec_payload r;
  rec_occurred_at := rec_occurred_at r; rec_correlation_id := rec_correlation_id r;
  rec_causation_id := rec_causation_id r; rec_version := rec_version r;
  rec_org_unit_id := Some unit |}.
Definition rec_with_correlation_id (r : OutboxRecord) (id : option string) : OutboxRecord := {|
  rec_id := rec_id r; rec_event_type := rec_event_type r;
  rec_aggregate_type := rec_aggregate_type r; rec_aggregate_id := rec_aggregate_id r;
  rec_company_id := rec_company_id r; rec_payload := rec_payload r;
  rec_occurred_at := rec_occurred_at r; rec_correlation_id := id;
  rec_causation_id := rec_causation_id r; rec_version := rec_version r;
  rec_org_unit_id := rec_org_unit_id r |}.
Definition rec_with_causation_id (r : OutboxRecord) (id : option string) : OutboxRecord := {|
  rec_id := rec_id r; rec_event_type := rec_event_type r;
  rec_aggregate_type := rec_aggregate_type r; rec_aggregate_id := rec_aggregate_id r;
  rec_company_id := rec_company_id r; rec_payload := rec_payload r;
  rec_occurred_at := rec_occurred_at r; rec_correlation_id := rec_correlation_id r;
  rec_causation_id := id; rec_version := rec_version r;
  rec_org_unit_id := rec_org_unit_id r |}.
Definition rec_with_version (r : OutboxRecord) (v : Z) : OutboxRecord := {|
  rec_id := rec_id r; rec_event_type := rec_event_type r;
  rec_aggregate_type := rec_aggregate_type r; rec_aggregate_id := rec_aggregate_id r;
  rec_company_id := rec_company_id r; rec_payload := rec_payload r;
  rec_occurred_at := rec_occurred_at r; rec_correlation_id := rec_correlation_id r;
  rec_causation_id := rec_causation_id r; rec_version := v;
  rec_org_unit_id := rec_org_unit_id r |}.

(** ** The tables *)

(** A row of [outbox_events]: the record with the org unit the table filled in,
    and how its delivery stands. *)
Record OutboxRow := {
  row_record : OutboxRecord;
  row_published_at : option instant;
  row_failed_at : option instant;
  row_failure_reason : option string;
}.

Record OutboxTables := {
  ob_events : gmap uuid OutboxRow;
  ob_consumed : gset (string * uuid);
}.

Definition is_pending (r : OutboxRow) : bool :=
  match row_published_at r, row_failed_at r with None, None => true | _, _ => false end.
Definition is_dead (r : OutboxRow) : bool :=
  match row_failed_at r with Some _ => true | None => false end.
Definition is_published (r : OutboxRow) : bool :=
  match row_published_at r with Some _ => true | None => false end.
End outbox.

(** A database that holds the outbox tables. *)
Class HasOutbox {L : Libs} (T : Type) := {
  ob_get : T → OutboxTables;
  ob_set : OutboxTables → T → T;
  ob_get_set o t : ob_get (ob_set o t) = o;
  ob_set_set o o' t : ob_set o (ob_set o' t) = ob_set o t;
  ob_set_get t : ob_set (ob_get t) t = t;
}.

Section operations.
Context {L : Libs} {T W : Type} {HO : HasOutbox T} {HW : World W}.

Definition upd_events (f : gmap uuid OutboxRow → gmap uuid OutboxRow) (t : T) : T :=
  ob_set {| ob_events := f (ob_events (ob_get t)); ob_consumed := ob_consumed (ob_get t) |} t.

(** ** [outbox.rs] *)

(** The record as the insert stores it: the org unit is the acting unit of the
    transaction, which the table's trigger fills in. *)
Definition stored (tk : Task) (r : OutboxRecord) : OutboxRow := {|
  row_record := {|
    rec_id := rec_id r; rec_event_type := rec_event_type r;
    rec_aggregate_type := rec_aggregate_type r; rec_aggregate_id := rec_aggregate_id r;
    rec_company_id := rec_company_id r; rec_payload := rec_payload r;
    rec_occurred_at := rec_occurred_at r; rec_correlation_id := rec_correlation_id r;
    rec_causation_id := rec_causation_id r; rec_version := rec_version r;
    rec_org_unit_id := task_tx tk ≫= tx_unit |};
  row_published_at := None; row_failed_at := None; row_failure_reason := None |}.

(** [INSERT .. ON CONFLICT (id) DO NOTHING]: whether a row was added. *)
Definition stage_stmt (tk : Task) (r : OutboxRecord) (t : T) : bool * T :=
  match ob_events (ob_get t) !! rec_id r with
  | Some _ => (false, t)
  | None => (true, upd_events <[rec_id r := stored tk r]> t)
  end.

Definition stage (tk : Task) (schema : string) (r : OutboxRecord) : sm (St T W) OutboxError bool :=
  _ ← sm_lift (validate_schema schema);
  map_err ODb (sql (λ t, Some (stage_stmt tk r t))).

(** [stage] on the ambient write transaction. *)
Definition stage_in_write_tx (tk : Task) (schema : string) (r : OutboxRecord) :
    sm (St T W) OutboxError bool :=
  match task_tx tk with
  | None => sm_err (ODb "error with configuration: stage_in_write_tx called outside a write transaction")
  | Some _ => stage tk schema r
  end.

Definition count_rows (p : OutboxRow → bool) (t : T) : Z :=
  Z.of_nat (length (filter (λ kv, p kv.2 = true) (map_to_list (ob_events (ob_get t))))).

Definition dead_count (schema : string) : sm (St T W) OutboxError Z :=
  _ ← sm_lift (validate_schema schema); map_err ODb (query (count_rows is_dead)).
Definition pending_count (schema : string) : sm (St T W) OutboxError Z :=
  _ ← sm_lift (validate_schema schema); map_err ODb (query (count_rows is_pending)).

(** ** [inbox.rs] *)

Definition once_stmt (consumer : string) (event : uuid) (t : T) : bool * T :=
  let ob := ob_get t in
  if decide ((consumer, event) ∈ ob_consumed ob) then (false, t)
  else (true, ob_set {| ob_events := ob_events ob;
                        ob_consumed := {[(consumer, event)]} ∪ ob_consumed ob |} t).

(** Claim an event for a consumer: [true] the first time. *)
Definition once (schema consumer : string) (event : uuid) : sm (St T W) OutboxError bool :=
  _ ← sm_lift (validate_schema schema);
  map_err ODb (sql (λ t, Some (once_stmt consumer event t))).

Definition was_consumed (schema consumer : string) (event : uuid) :
    sm (St T W) OutboxError bool :=
  _ ← sm_lift (validate_schema schema);
  map_err ODb (query (λ t, bool_decide ((consumer, event) ∈ ob_consumed (ob_get t)))).

(** ** [relay.rs] *)

(** [ORDER BY occurred_at, id] *)
Definition drain_leb (a b : uuid * OutboxRow) : bool :=
  let ta := rec_occurred_at (row_record a.2) in
  let tb := rec_occurred_at (row_record b.2) in
  (ta <? tb) || ((ta =? tb) && (a.1 <=? b.1)%N).

(** The un-drained tail, oldest first, [batch] of it. *)
Definition drain_select (batch : Z) (t : T) : list (uuid * OutboxRow) :=
  take (Z.to_nat batch)
    (merge_sort (λ a b, Is_true (drain_leb a b))
       (filter (λ kv, is_pending kv.2 = true) (map_to_list (ob_events (ob_get t))))).

(** [UPDATE .. SET published_at = now() WHERE id = $1 AND published_at IS NULL] *)
Definition mark_published (now : instant) (id : uuid) (t : T) : T :=
  upd_events (alter (λ r, if is_published r then r else
    {| row_record := row_record r; row_published_at := Some now;
       row_failed_at := row_failed_at r; row_failure_reason := row_failure_reason r |}) id) t.

(** [UPDATE .. SET failed_at = now(), failure_reason = $2 WHERE id = $1 AND published_at IS NULL] *)
Definition mark_dead (now : instant) (reason : string) (id : uuid) (t : T) : T :=
  upd_events (alter (λ r, if is_published r then r else
    {| row_record := row_record r; row_published_at := row_published_at r;
       row_failed_at := Some now; row_failure_reason := Some reason |}) id) t.

(** Hand one record to the transport and record what it answered; the count of
    those published. *)
Definition drain_row (publish : OutboxRecord → sm (St T W) OutboxError unit)
    (published : Z) (row : uuid * OutboxRow) : sm (St T W) OutboxError Z :=
  answer ← attempt (publish (row_record row.2));
  match answer with
  | inr _ =>
      now ← pg_now;
      _ ← map_err ODb (exec (mark_published now row.1));
      mret (published + 1)
  | inl (OPublish _) => mret published
  | inl (OExhausted reason) =>
      now ← pg_now;
      _ ← map_err ODb (exec (mark_dead now reason row.1));
      mret published
  | inl e => sm_err e
  end.

(** One pass: read a batch, hand over each record with no transaction held. A
    negative limit is refused by the database. *)
Definition drain_once (schema : string) (batch : Z)
    (publish : OutboxRecord → sm (St T W) OutboxError unit) : sm (St T W) OutboxError Z :=
  _ ← sm_lift (validate_schema schema);
  rows ← map_err ODb (sql (λ t,
           if batch <? 0 then None else Some (drain_select batch t, t)));
  sm_fold (drain_row publish) 0 rows.

(** [ORDER BY failed_at, id LIMIT $1] of the dead rows. *)
Definition dead_leb (a b : uuid * OutboxRow) : bool :=
  match row_failed_at a.2, row_failed_at b.2 with
  | Some ta, Some tb => (ta <? tb) || ((ta =? tb) && (a.1 <=? b.1)%N)
  | _, _ => true
  end.
Definition list_dead (schema : string) (limit : Z) :
    sm (St T W) OutboxError (list (uuid * OutboxRow)) :=
  _ ← sm_lift (validate_schema schema);
  map_err ODb (sql (λ t,
    if limit <? 0 then None else
    Some (take (Z.to_nat limit)
            (merge_sort (λ a b, Is_true (dead_leb a b))
               (filter (λ kv, is_dead kv.2 = true) (map_to_list (ob_events (ob_get t))))), t))).

Definition can_revive (r : OutboxRow) : bool := is_dead r && negb (is_published r).
Definition revive (r : OutboxRow) : OutboxRow := {|
  row_record := row_record r; row_published_at := row_published_at r;
  row_failed_at := None; row_failure_reason := None |}.

(** Hand a dead record back to the relay; whether one was revived. *)
Definition reemit_stmt (id : uuid) (t : T) : bool * T :=
  match ob_events (ob_get t) !! id with
  | Some r => if can_revive r then (true, upd_events <[id := revive r]> t) else (false, t)
  | None => (false, t)
  end.
Definition reemit (schema : string) (id : uuid) : sm (St T W) OutboxError bool :=
  _ ← sm_lift (validate_schema schema);
  map_err ODb (sql (λ t, Some (reemit_stmt id t))).

(** Hand every dead record back. *)
Definition reemit_all_stmt (t : T) : Z * T :=
  (count_rows can_revive t,
   upd_events (fmap (λ r, if can_revive r then revive r else r)) t).
Definition reemit_all (schema : string) : sm (St T W) OutboxError Z :=
  _ ← sm_lift (validate_schema schema);
  map_err ODb (sql (λ t, Some (reemit_all_stmt t))).

(** Drain until a pass publishes nothing, [max_passes] at most. *)
Fixpoint drain_all_from (total : Z) (max_passes : nat) (schema : string) (batch : Z)
    (publish : OutboxRecord → sm (St T W) OutboxError unit) : sm (St T W) OutboxError Z :=
  match max_passes with
  | O => mret total
  | S passes =>
      n ← drain_once schema batch publish;
      if n =? 0 then mret (total + n) else drain_all_from (total + n) passes schema batch publish
  end.
Definition drain_all (schema : string) (batch : Z) (max_passes : nat)
    (publish : OutboxRecord → sm (St T W) OutboxError unit) : sm (St T W) OutboxError Z :=
  drain_all_from 0 max_passes schema batch publish.
End operations.

(** ** [runner.rs] *)

(** Whether the loop waits before its next pass: an under-full pass does. *)
Definition run_waits (delivered batch : Z) : bool := delivered <? batch.

(** How one attempt of the supervised relay ended, as the loop sees it: cleanly,
    by shutdown, or with an error after [elapsed] nanoseconds, the wait that
    follows being cut short by shutdown or not. *)
Inductive LoopEvent :=
  | LEndOk
  | LShutdown
  | LEndErr (elapsed : Z) (shutdown_while_waiting : bool).

Definition second : Z := 1000000000.
Definition MAX_BACKOFF : Z := 60 * second.

(** The waits the supervision begins, in order, over what happens to it. *)
Fixpoint restart_loop (backoff : Z) (evs : list LoopEvent) : list Z :=
  match evs with
  | [] | LEndOk :: _ | LShutdown :: _ => []
  | LEndErr elapsed stop :: evs' =>
      let backoff := if MAX_BACKOFF <=? elapsed then second else backoff in
      backoff :: (if stop then [] else restart_loop (Z.min (backoff * 2) MAX_BACKOFF) evs')
  end.

(** [supervise]: from one second. *)
Definition supervise (evs : list LoopEvent) : list Z := restart_loop second evs.

(** ** A database of the outbox alone *)
Module ConcreteOutbox.
Import Concrete.
#[export, refine] Instance outbox_only : HasOutbox OutboxTables := {|
  ob_get t := t; ob_set o _ := o |}.
Proof. all: done. Defined.
End ConcreteOutbox.
