(* ===== verification/OutboxFacts.v ===== *)
(** * What the outbox and the inbox promise

    Nothing staged is lost, nothing delivered is offered again, an event is claimed once
    per consumer, and a failing relay is restarted at a bounded pace. *)
From Stdlib Require Import ZArith Lia.
From S2P Require Import Prelude RustStr Json WorkflowExpr Database Outbox.

Local Open Scope Z_scope.

Section facts.
Context {L : Libs} {T W : Type} {HO : HasOutbox T} {HW : World W}.
Abbreviation D := (St T W).
Implicit Types (s : D) (t : T) (r : OutboxRow).

(** ** What may happen to the tables *)

(** A row keeps its record, and once published keeps its row. *)
Definition row_evolves r r' : Prop :=
  row_record r' = row_record r ∧ (is_published r = true → r' = r).

Record ob_evolves (o o' : OutboxTables) : Prop := {
  oe_row id r : ob_events o !! id = Some r → ∃ r', ob_events o' !! id = Some r' ∧ row_evolves r r';
  oe_consumed : ob_consumed o ⊆ ob_consumed o';
}.
Definition ob_keeps : relation D := λ s s', ob_evolves (ob_get (tables s)) (ob_get (tables s')).

#[export] Instance row_evolves_preorder : PreOrder row_evolves.
Proof.
  split; [by intros r|]. intros r1 r2 r3 [E1 P1] [E2 P2]. split; [congruence|].
  intros Hp. rewrite (P1 Hp) in *. by apply P2.
Qed.
#[export] Instance ob_evolves_preorder : PreOrder ob_evolves.
Proof.
  split.
  - intros o. split; [|done]. intros id r Hr. by exists r.
  - intros o1 o2 o3 [R1 C1] [R2 C2]. split; [|by etrans].
    intros id r Hr. destruct (R1 id r Hr) as (r' & Hr' & H1).
    destruct (R2 id r' Hr') as (r'' & Hr'' & H2). exists r''. split; [done|by etrans].
Qed.
#[export] Instance ob_keeps_preorder : PreOrder ob_keeps.
Proof. split; [by intros s; unfold ob_keeps|]. intros s1 s2 s3. unfold ob_keeps. apply ob_evolves_preorder. Qed.

Lemma ob_keeps_tables {E A} (m : sm D E A) : keeps same_tables m → keeps ob_keeps m.
Proof. intros H s. specialize (H s). unfold same_tables, ob_keeps in *. by rewrite H. Qed.

Lemma ob_keeps_sql {A} (f : T → option (A * T)) :
  (∀ t a t', f t = Some (a, t') → ob_evolves (ob_get t) (ob_get t')) →
  keeps ob_keeps (sql f).
Proof.
  intros Hf s. change (wp (sql f) (λ _ s', ob_keeps s s') s). apply wp_sql.
  - intros e w. unfold ob_keeps. done.
  - intros w a t Ht. by apply (Hf _ _ _ Ht).
Qed.

Lemma upd_events_evolves (f : gmap uuid OutboxRow → gmap uuid OutboxRow) t :
  (∀ id r, ob_events (ob_get t) !! id = Some r →
     ∃ r', f (ob_events (ob_get t)) !! id = Some r' ∧ row_evolves r r') →
  ob_evolves (ob_get t) (ob_get (upd_events f t)).
Proof. intros H. unfold upd_events. rewrite ob_get_set. by split. Qed.

Lemma alter_evolves (g : OutboxRow → OutboxRow) id t :
  (∀ r, row_evolves r (g r)) →
  ob_evolves (ob_get t) (ob_get (upd_events (alter g id) t)).
Proof.
  intros Hg. apply upd_events_evolves. intros id' r Hr. destruct (decide (id = id')) as [<-|].
  - exists (g r). rewrite lookup_alter, decide_True, Hr by done. done.
  - exists r. by rewrite lookup_alter_ne.
Qed.

Lemma mark_published_evolves now id t : ob_evolves (ob_get t) (ob_get (mark_published now id t)).
Proof. apply alter_evolves. intros r. by split; destruct (is_published r). Qed.
Lemma mark_dead_evolves now reason id t : ob_evolves (ob_get t) (ob_get (mark_dead now reason id t)).
Proof. apply alter_evolves. intros r. by split; destruct (is_published r). Qed.

Lemma keeps_validate schema : keeps ob_keeps (sm_lift (validate_schema schema)).
Proof. apply keeps_lift, _. Qed.

Lemma keeps_drain_row publish n row :
  (∀ rec, keeps ob_keeps (publish rec)) → keeps ob_keeps (drain_row publish n row).
Proof.
  intros Hp. apply keeps_bind; [apply _|by apply keeps_attempt|].
  intros [[e|sch|reason|reason]|u]; try first [apply keeps_err, _|apply keeps_ret, _];
    (apply keeps_bind; [apply _|apply ob_keeps_tables, keeps_pg_now|]; intros now);
    (apply keeps_bind; [apply _| |intros; apply keeps_ret, _]);
    apply keeps_map_err, ob_keeps_sql; intros t [] t' [= <-];
    [apply mark_dead_evolves|apply mark_published_evolves].
Qed.

Lemma keeps_drain_once schema batch publish :
  (∀ rec, keeps ob_keeps (publish rec)) → keeps ob_keeps (drain_once schema batch publish).
Proof.
  intros Hp. apply keeps_bind; [apply _|apply keeps_validate|]. intros ?.
  apply keeps_bind; [apply _| |].
  - apply keeps_map_err, ob_keeps_sql. intros t a' t'. by case_match; intros [= <- <-].
  - intros rows. apply keeps_fold; [apply _|]. intros. by apply keeps_drain_row.
Qed.

Lemma keeps_drain_all schema batch n publish :
  (∀ rec, keeps ob_keeps (publish rec)) → keeps ob_keeps (drain_all schema batch n publish).
Proof.
  intros Hp. unfold drain_all. generalize 0. induction n as [|n IH]; intros total; simpl;
    [apply keeps_ret, _|].
  apply keeps_bind; [apply _|by apply keeps_drain_once|]. intros k.
  case_match; [apply keeps_ret, _|apply IH].
Qed.

Lemma revive_evolves r : row_evolves r (if can_revive r then revive r else r).
Proof.
  unfold can_revive. split; [by case_match|]. intros Hp. rewrite Hp, andb_false_r. done.
Qed.
Lemma keeps_reemit schema id : keeps ob_keeps (reemit schema id).
Proof.
  apply keeps_bind; [apply _|apply keeps_validate|]. intros ?.
  apply keeps_map_err, ob_keeps_sql. intros t b t'. unfold reemit_stmt.
  destruct (ob_events (ob_get t) !! id) as [r|] eqn:Hr; [|by intros [= <- <-]].
  destruct (can_revive r) eqn:Hc; intros [= <- <-]; [|done].
  apply upd_events_evolves. intros id' r' Hr'. destruct (decide (id = id')) as [<-|].
  - exists (revive r). rewrite lookup_insert, decide_True by done. split; [done|].
    rewrite Hr in Hr'. injection Hr' as <-. pose proof (revive_evolves r) as H. by rewrite Hc in H.
  - exists r'. by rewrite lookup_insert_ne.
Qed.
Lemma keeps_reemit_all schema : keeps ob_keeps (reemit_all schema).
Proof.
  apply keeps_bind; [apply _|apply keeps_validate|]. intros ?.
  apply keeps_map_err, ob_keeps_sql. intros t b t' [= <- <-].
  apply upd_events_evolves. intros id r Hr. rewrite lookup_fmap, Hr. simpl.
  eexists. split; [done|]. apply revive_evolves.
Qed.
Lemma keeps_stage tk schema rec : keeps ob_keeps (stage tk schema rec).
Proof.
  apply keeps_bind; [apply _|apply keeps_validate|]. intros ?.
  apply keeps_map_err, ob_keeps_sql. intros t b t'. unfold stage_stmt.
  destruct (ob_events (ob_get t) !! rec_id rec) eqn:Hr; intros [= <- <-]; [done|].
  apply upd_events_evolves. intros id r Hid. exists r.
  rewrite lookup_insert_ne by congruence. done.
Qed.
Lemma keeps_once schema consumer event : keeps ob_keeps (once schema consumer event).
Proof.
  apply keeps_bind; [apply _|apply keeps_validate|]. intros ?.
  apply keeps_map_err, ob_keeps_sql. intros t b t'. unfold once_stmt.
  case_decide; intros [= <- <-]; [done|]. rewrite ob_get_set.
  split; simpl; [intros id r Hr; by exists r|set_solver].
Qed.
End facts.

(** ** A pass of the relay *)
Section drain.
Context {L : Libs} {T W : Type} {HO : HasOutbox T} {HW : World W}.
Abbreviation D := (St T W).
Abbreviation events s := (ob_events (ob_get (tables s))).

(** The transport was handed the record and gave this answer. *)
Definition answered (publish : OutboxRecord → sm D OutboxError unit) (rec : OutboxRecord)
    (a : res OutboxError unit) : Prop := ∃ s1 s2, publish rec s1 = (a, s2).

(** What a pass makes of a row it was given, by what the transport answered: as it was
    when refused for now, delivered when taken, given up on when refused for good. *)
Definition drained (publish : OutboxRecord → sm D OutboxError unit) (r r' : OutboxRow) : Prop :=
  (∃ why, answered publish (row_record r) (Err (OPublish why)) ∧ r' = r) ∨
  (∃ now, answered publish (row_record r) (Ok tt) ∧
     r' = {| row_record := row_record r; row_published_at := Some now;
             row_failed_at := row_failed_at r; row_failure_reason := row_failure_reason r |}) ∨
  (∃ now reason, answered publish (row_record r) (Err (OExhausted reason)) ∧
     r' = {| row_record := row_record r; row_published_at := row_published_at r;
             row_failed_at := Some now; row_failure_reason := Some reason |}).

(** How many of the rows a batch read are published by now. *)
Definition delivered (ids : list uuid) (m : gmap uuid OutboxRow) : Z :=
  Z.of_nat (length (filter (λ id, from_option is_published false (m !! id) = true) ids)).

Lemma lookup_mark_published now id t id' :
  ob_events (ob_get (mark_published now id t)) !! id' =
  if decide (id = id') then
    (λ r, if is_published r then r else
       {| row_record := row_record r; row_published_at := Some now;
          row_failed_at := row_failed_at r; row_failure_reason := row_failure_reason r |})
    <$> ob_events (ob_get t) !! id'
  else ob_events (ob_get t) !! id'.
Proof.
  unfold mark_published, upd_events. rewrite ob_get_set. simpl. rewrite lookup_alter.
  by destruct (decide (id = id')) as [<-|].
Qed.
Lemma lookup_mark_dead now reason id t id' :
  ob_events (ob_get (mark_dead now reason id t)) !! id' =
  if decide (id = id') then
    (λ r, if is_published r then r else
       {| row_record := row_record r; row_published_at := row_published_at r;
          row_failed_at := Some now; row_failure_reason := Some reason |})
    <$> ob_events (ob_get t) !! id'
  else ob_events (ob_get t) !! id'.
Proof.
  unfold mark_dead, upd_events. rewrite ob_get_set. simpl. rewrite lookup_alter.
  by destruct (decide (id = id')) as [<-|].
Qed.

Context (publish : OutboxRecord → sm D OutboxError unit).
Hypothesis Hpub : ∀ rec, keeps same_tables (publish rec).

(** One row: only it changes, as [drained] says, and the count moves with it. *)
Lemma wpo_drain_row n row (s : D) :
  events s !! row.1 = Some row.2 → is_pending row.2 = true →
  wpo (drain_row publish n row) (λ n' s',
    (∀ id, id ≠ row.1 → events s' !! id = events s !! id) ∧
    ∃ r', events s' !! row.1 = Some r' ∧ drained publish row.2 r' ∧
      n' = n + (if is_published r' then 1 else 0)) s.
Proof.
  intros Hr Hp. assert (is_published row.2 = false) as Hnp.
  { unfold is_pending, is_published in *. by destruct (row_published_at row.2). }
  unfold drain_row. apply wpo_bind. intros answer s1 Hrun.
  assert (tables s1 = tables s ∧ answered publish (row_record row.2)
    (match answer with inl e => Err e | inr u => Ok u end)) as [Hs1 Hans].
  { unfold attempt in Hrun. specialize (Hpub (row_record row.2) s). unfold same_tables in Hpub.
    destruct (publish (row_record row.2) s) as [[u|e|] s2] eqn:Ha; simpl in Hpub;
      inversion Hrun; subst; (split; [done|by exists s, s1]). }
  clear Hrun. destruct answer as [[e|sch|reason|reason]|[]]; try apply wpo_err.
  - apply wpo_ret. rewrite Hs1. split; [done|]. exists row.2. rewrite Hnp.
    split; [done|]. split; [left; eauto|lia].
  - apply wpo_bind, (wpo_keeps same_tables); [apply keeps_pg_now|]. intros now s2 Hs2.
    apply wpo_bind, wpo_map_err, wpo_of_wp, wp_exec; [done|]. intros w. apply wpo_ret. simpl.
    unfold same_tables in Hs2. rewrite <- Hs2, Hs1. split.
    + intros id Hid. by rewrite lookup_mark_dead, decide_False by done.
    + eexists. rewrite lookup_mark_dead, decide_True, Hr by done. simpl. rewrite Hnp.
      split; [done|]. split; [by right; right; eauto|]. unfold is_published in *. simpl.
      destruct (row_published_at row.2); [done|lia].
  - apply wpo_bind, (wpo_keeps same_tables); [apply keeps_pg_now|]. intros now s2 Hs2.
    apply wpo_bind, wpo_map_err, wpo_of_wp, wp_exec; [done|]. intros w. apply wpo_ret. simpl.
    unfold same_tables in Hs2. rewrite <- Hs2, Hs1. split.
    + intros id Hid. by rewrite lookup_mark_published, decide_False by done.
    + eexists. rewrite lookup_mark_published, decide_True, Hr by done. simpl. rewrite Hnp.
      split; [done|]. split; [by right; left; eauto|done].
Qed.

Lemma delivered_ext ids (m m' : gmap uuid OutboxRow) :
  (∀ id, id ∈ ids → m !! id = m' !! id) → delivered ids m = delivered ids m'.
Proof.
  intros H. unfold delivered. do 2 f_equal. apply list_filter_ext. intros id Hid. by rewrite H.
Qed.

Lemma wpo_drain_rows n rows (s : D) :
  NoDup rows.*1 → (∀ row, row ∈ rows → events s !! row.1 = Some row.2 ∧ is_pending row.2 = true) →
  wpo (sm_fold (drain_row publish) n rows) (λ n' s',
    (∀ id, id ∉ rows.*1 → events s' !! id = events s !! id) ∧
    (∀ row, row ∈ rows → ∃ r', events s' !! row.1 = Some r' ∧ drained publish row.2 r') ∧
    n' = n + delivered rows.*1 (events s')) s.
Proof.
  revert n s. induction rows as [|row rows IH]; intros n s Hnd Hrows; cbn [sm_fold].
  { apply wpo_ret. repeat split; [by intros row H; apply not_elem_of_nil in H|]. unfold delivered. simpl. lia. }
  rewrite fmap_cons in Hnd. apply NoDup_cons in Hnd as [Hni Hnd].
  destruct (Hrows row) as [Hr Hp]; [left|].
  apply wpo_bind. eapply wpo_mono; [by apply wpo_drain_row|].
  intros n1 s1 [Hother (r1 & Hr1 & Hd1 & ->)].
  eapply wpo_mono; [apply IH; [done|]|].
  { intros row' Hrow'. rewrite Hother; [apply Hrows; by right|].
    intros E. apply Hni. rewrite <- E. by apply list_elem_of_fmap_2. }
  intros n2 s2 (Ho & Hrs & ->). rewrite fmap_cons. repeat split.
  - intros id [Hne Hid]%not_elem_of_cons. rewrite Ho by done. by apply Hother.
  - intros row' [->|Hrow']%elem_of_cons; [|by apply Hrs].
    exists r1. split; [|done]. by rewrite Ho.
  - unfold delivered. rewrite filter_cons. rewrite (Ho row.1 Hni), Hr1. cbn [from_option].
    destruct (is_published r1); [rewrite decide_True by done; rewrite length_cons; lia|rewrite decide_False by done; lia].
Qed.
End drain.

(** ** The theorems *)
Section properties.
Context {L : Libs} {T W : Type} {HO : HasOutbox T} {HW : World W}.
Abbreviation D := (St T W).
Abbreviation events s := (ob_events (ob_get (tables s))).
Abbreviation consumed s := (ob_consumed (ob_get (tables s))).

(** What is asked of the outbox. *)
Inductive ObOp :=
  | OpStage (tk : Task) (rec : OutboxRecord)
  | OpOnce (consumer : string) (event : uuid)
  | OpDrain (batch : Z) (passes : nat) (publish : OutboxRecord → sm D OutboxError unit)
  | OpReemit (id : uuid)
  | OpReemitAll.
Definition ob_serve (schema : string) (op : ObOp) (s : D) : D :=
  match op with
  | OpStage tk rec => (stage tk schema rec s).2
  | OpOnce c e => (once schema c e s).2
  | OpDrain batch passes publish => (drain_all schema batch passes publish s).2
  | OpReemit id => (reemit schema id s).2
  | OpReemitAll => (reemit_all schema s).2
  end.
Definition ob_serve_all (schema : string) (ops : list ObOp) (s : D) : D :=
  foldl (λ s op, ob_serve schema op s) s ops.

(** A transport that keeps the outbox's own promise. *)
Definition op_ok (op : ObOp) : Prop :=
  match op with OpDrain _ _ publish => ∀ rec, keeps ob_keeps (publish rec) | _ => True end.

(** C17: nothing staged is lost, and what was delivered stays as it is. After any
    sequence of stagings, claims, relay passes over any transport that keeps this
    itself, and re-emissions, whatever failed on the way: every staged event is still
    there with its record unchanged, one that was published has not changed at all, and no
    claim of a consumer has been taken back. *)
Theorem outbox_never_loses (schema : string) (ops : list ObOp) (s : D) :
  Forall op_ok ops → ob_evolves (ob_get (tables s)) (ob_get (tables (ob_serve_all schema ops s))).
Proof.
  intros Hops. revert s. induction Hops as [|op ops Hop _ IH]; intros s; simpl; [done|].
  etrans; [|apply IH]. destruct op; simpl in *.
  - apply (keeps_stage tk schema rec s).
  - apply (keeps_once schema consumer event s).
  - by apply (keeps_drain_all schema batch passes publish).
  - apply (keeps_reemit schema id s).
  - apply (keeps_reemit_all schema s).
Qed.

(** what one pass of the relay did. With a transport that leaves the database
    alone, a pass that answers [n] touched only the rows it had read, at most [batch] of them
    and all pending; each of those was handed to the transport and is published if it was
    taken, marked dead with the transport's reason if it was refused for good, and as it
    was if it was refused for now; and [n] is how many are now published. *)
Theorem drain_once_accounts (schema : string) (batch : Z)
    (publish : OutboxRecord → sm D OutboxError unit) (s s' : D) (n : Z) :
  (∀ rec, keeps same_tables (publish rec)) →
  drain_once schema batch publish s = (Ok n, s') →
  let ids := (drain_select batch (tables s)).*1 in
  Z.of_nat (length ids) ≤ batch ∧
  (∀ id, id ∉ ids → events s' !! id = events s !! id) ∧
  (∀ id, id ∈ ids → ∃ r r', events s !! id = Some r ∧ is_pending r = true ∧
     events s' !! id = Some r' ∧ drained publish r r') ∧
  n = delivered ids (events s').
Proof.
  intros Hpub Hrun ids.
  assert (∀ row, row ∈ drain_select batch (tables s) →
    events s !! row.1 = Some row.2 ∧ is_pending row.2 = true) as Hsel.
  { intros row Hrow. unfold drain_select in Hrow. apply elem_of_take in Hrow as (i & Hi & _).
    apply list_elem_of_lookup_2 in Hi. rewrite merge_sort_Permutation in Hi.
    apply list_elem_of_filter in Hi as [Hp Hin]. destruct row as [id r].
    by apply elem_of_map_to_list in Hin. }
  assert (NoDup ids) as Hnd.
  { unfold ids, drain_select. rewrite fmap_take. eapply sublist_NoDup; [|apply sublist_take].
    rewrite merge_sort_Permutation.
    eapply sublist_NoDup; [apply (NoDup_fst_map_to_list (events s))|].
    apply fmap_sublist, sublist_filter. }
  assert (wpo (drain_once schema batch publish) (λ n s', Z.of_nat (length ids) ≤ batch ∧
    (∀ id, id ∉ ids → events s' !! id = events s !! id) ∧
    (∀ row, row ∈ drain_select batch (tables s) → ∃ r', events s' !! row.1 = Some r' ∧ drained publish row.2 r') ∧
    n = 0 + delivered ids (events s')) s) as Hwp.
  { unfold drain_once. apply wpo_bind, (wpo_keeps eq); [done|]. intros ? s0 <-.
    apply wpo_bind, wpo_map_err, wpo_of_wp, wp_sql; [done|].
    intros w rows t. destruct (Z.ltb_spec batch 0); [done|]. intros [= <- <-].
    eapply wpo_mono; [apply wpo_drain_rows; [done|exact Hnd|exact Hsel]|].
    intros n1 s1 H1. split; [|exact H1]. unfold ids, drain_select.
    rewrite length_fmap, length_take. lia. }
  destruct (Hwp n s' Hrun) as (Hlen & Ho & Hrows & ->). split; [done|]. split; [done|].
  split; [|done]. intros id Hid. unfold ids in Hid.
  apply list_elem_of_fmap in Hid as ([id' r] & -> & Hin).
  destruct (Hrows _ Hin) as (r' & Hr' & Hd). destruct (Hsel _ Hin). exists r, r'. done.
Qed.

(** a consumer claims an event once. A claim that answers [b] answered whether the
    event was new to the consumer, has recorded it, and changed nothing else; so of two
    claims that answer, the second answers [false]. *)
Theorem once_claims (schema consumer : string) (event : uuid) (s : D) :
  let '(answer, s') := once schema consumer event s in
  match answer with
  | Ok b =>
      b = negb (bool_decide ((consumer, event) ∈ consumed s)) ∧
      consumed s' = {[(consumer, event)]} ∪ consumed s ∧ events s' = events s
  | Err _ | Panic => tables s' = tables s
  end.
Proof.
  enough (wp (once schema consumer event) (λ answer s', match answer with
    | Ok b => b = negb (bool_decide ((consumer, event) ∈ consumed s)) ∧
        consumed s' = {[(consumer, event)]} ∪ consumed s ∧ events s' = events s
    | Err _ | Panic => tables s' = tables s end) s) as H.
  { unfold wp in H. by destruct (once schema consumer event s). }
  unfold once. apply wp_bind, wp_lift. destruct (validate_schema schema); [|done..].
  apply wp_map_err, wp_sql; [done|]. intros w b t [= Hb]. unfold once_stmt in Hb.
  case_decide as Hin; injection Hb as <- <-; simpl.
  - rewrite bool_decide_true by done. split; [done|]. split; [set_solver|done].
  - rewrite bool_decide_false, ob_get_set by done. done.
Qed.

(** staging is idempotent on the event's id. A staging that answers [true] found
    no row of that id and added the record, pending; one that answers [false] found one and
    changed nothing; a failure changed nothing. *)
Theorem stage_spec (tk : Task) (schema : string) (rec : OutboxRecord) (s : D) :
  let '(answer, s') := stage tk schema rec s in
  match answer with
  | Ok true => events s !! rec_id rec = None ∧ consumed s' = consumed s ∧
      events s' = <[rec_id rec := stored tk rec]> (events s) ∧ is_pending (stored tk rec) = true
  | Ok false => is_Some (events s !! rec_id rec) ∧ tables s' = tables s
  | Err _ | Panic => tables s' = tables s
  end.
Proof.
  enough (wp (stage tk schema rec) (λ answer s', match answer with
    | Ok true => events s !! rec_id rec = None ∧ consumed s' = consumed s ∧
        events s' = <[rec_id rec := stored tk rec]> (events s) ∧ is_pending (stored tk rec) = true
    | Ok false => is_Some (events s !! rec_id rec) ∧ tables s' = tables s
    | Err _ | Panic => tables s' = tables s end) s) as H.
  { unfold wp in H. by destruct (stage tk schema rec s). }
  unfold stage. apply wp_bind, wp_lift. destruct (validate_schema schema); [|done..].
  apply wp_map_err, wp_sql; [done|]. intros w b t [= Hb]. unfold stage_stmt in Hb.
  destruct (events s !! rec_id rec) eqn:Hr; injection Hb as <- <-; simpl; [done|].
  unfold upd_events. rewrite ob_get_set. done.
Qed.
End properties.

(** ** The supervised relay *)

Lemma restart_loop_bounds backoff evs :
  second ≤ backoff ≤ MAX_BACKOFF → Forall (λ w, second ≤ w ≤ MAX_BACKOFF) (restart_loop backoff evs).
Proof.
  unfold MAX_BACKOFF, second. revert backoff. induction evs as [|[| |e stop] evs IH]; intros b Hb; simpl;
    [constructor..|].
  set (b' := if _ <=? e then _ else b).
  assert (1000000000 ≤ b' ≤ 60 * 1000000000) as Hb' by (unfold b', MAX_BACKOFF, second; case_match; lia).
  constructor; [done|]. destruct stop; [constructor|]. apply IH. unfold MAX_BACKOFF, second. lia.
Qed.

Lemma restart_loop_doubles k i :
  restart_loop (Z.min (2 ^ Z.of_nat i * second) MAX_BACKOFF) (replicate k (LEndErr 0 false)) =
  map (λ j, Z.min (2 ^ Z.of_nat j * second) MAX_BACKOFF) (seq i k).
Proof.
  revert i. induction k as [|k IH]; intros i; [done|]. cbn [replicate restart_loop seq map].
  change (MAX_BACKOFF <=? 0) with false. cbn beta iota. f_equal.
  rewrite <- IH. f_equal. rewrite Nat2Z.inj_succ, Z.pow_succ_r by lia.
  unfold MAX_BACKOFF, second. pose proof (Z.pow_pos_nonneg 2 (Z.of_nat i)). lia.
Qed.

(** a failing relay is restarted at a bounded pace. Whatever ends its attempts,
    every wait is at least a second and at most a minute; attempts that fail at once
    are waited for 1, 2, 4, ... seconds, up to a minute. *)
Theorem supervise_waits (evs : list LoopEvent) (k : nat) :
  Forall (λ w, second ≤ w ≤ MAX_BACKOFF) (supervise evs) ∧
  supervise (replicate k (LEndErr 0 false)) =
    map (λ i, Z.min (2 ^ Z.of_nat i * second) MAX_BACKOFF) (seq 0 k).
Proof.
  split; [|apply (restart_loop_doubles k 0)].
  apply restart_loop_bounds. unfold MAX_BACKOFF, second. lia.
Qed.

(** ** Instances of the theorems *)
Section witnesses.
Import Concrete ConcreteWorld ConcreteOutbox.

Definition sample (id : uuid) (at_ : instant) : OutboxRecord :=
  record_new id "Paid" "Payment" "1" 7%N VNull at_.
(** A transport that takes what is due before instant 5 and gives up on the rest. *)
Definition transport (rec : OutboxRecord) : sm (St OutboxTables DW) OutboxError unit :=
  if rec_occurred_at rec <? 5 then mret tt else sm_err (OExhausted "too late").
Definition three : St OutboxTables DW :=
  ob_serve_all "pay" [OpStage task0 (sample 1%N 3); OpStage task0 (sample 2%N 9); OpStage task0 (sample 3%N 1)]
    (mkSt {| ob_events := ∅; ob_consumed := ∅ |} (mkDW [] 0 1%N)).
Definition three_ops : list ObOp := [OpDrain 2 5 transport; OpReemitAll; OpOnce "mailer" 1%N].

Lemma outbox_never_loses_witness :
  ob_evolves (ob_get (tables three)) (ob_get (tables (ob_serve_all "pay" three_ops three))).
Proof.
  apply (outbox_never_loses "pay" three_ops three).
  apply Forall_cons_2; [|by repeat constructor]. intros rec s. unfold transport. case_match; reflexivity.
Defined.

Definition drained_three : St OutboxTables DW := (drain_once "pay" 2 transport three).2.
Lemma drain_once_accounts_witness :
  2 = delivered (drain_select 2 (tables three)).*1 (ob_events (tables drained_three)).
Proof.
  refine (proj2 (proj2 (proj2 (drain_once_accounts "pay" 2 transport three drained_three 2 _ _)))).
  - intros rec s. unfold transport. case_match; reflexivity.
  - assert (match (drain_once "pay" 2 transport three).1 with Ok n => n =? 2 | _ => false end = true)
      as H by (vm_compute; reflexivity).
    unfold drained_three. destruct (drain_once "pay" 2 transport three) as [[n|e|] s'];
      [apply Z.eqb_eq in H as ->; reflexivity|discriminate H|discriminate H].
Defined.
End witnesses.
