(* ===== verification/WriteHooks.v ===== *)
(** * What a write is refused with, and the context its events are staged from

    [backbone-core/src/]: [service.rs] ([ServiceError]), [violation.rs]
    ([Violation], [batch_item_path]), [persistence/traits.rs] ([RepositoryError]),
    [write_hooks.rs] ([WriteCtx], [NotificationRequested]). *)
From Stdlib Require Import ZArith Lia Ascii.
From S2P Require Import Prelude RustStr Json WorkflowExpr Database Outbox.

Local Open Scope Z_scope.

(** ** Errors *)

Section errors.
Context {L : Libs}.

Record Violation := mkViolation {
  v_path : string;
  v_code : string;
  v_params : list (string * Value);
  v_message : string;
}.

Definition violation_new (path code message : string) : Violation :=
  mkViolation path code [] message.
Definition with_param (v : Violation) (name : string) (value : Value) : Violation :=
  mkViolation (v_path v) (v_code v) (map_insert name value (v_params v)) (v_message v).
Definition INVALID_QUERY : string := "invalid_query".
Definition invalid_query (parameter reason message : string) : Violation :=
  with_param (with_param (violation_new parameter INVALID_QUERY message)
                "parameter" (VString parameter)) "reason" (VString reason).

(** The path of a violation on item [index] of a batch. *)
Definition batch_item_path (index : nat) (path : string) : string :=
  if bool_decide (path = "") then show_Z (Z.of_nat index)
  else show_Z (Z.of_nat index) +:+ "/" +:+ path.

Inductive RepositoryError :=
  | RNotFound
  | RAlreadyExists (s : string)
  | RValidationError (s : string)
  | RDatabaseError (s : string)
  | RSerializationError (s : string)
  | RConflict (s : string)
  | RInternalError (s : string)
  | RViolations (vs : list Violation).

Inductive ServiceError :=
  | SNotFound
  | SAlreadyExists (s : string)
  | SValidation (s : string)
  | SViolations (vs : list Violation)
  | SRepository (e : RepositoryError)
  | SInternal (s : string).

(** Their [Display]. *)
Definition violations_text (vs : list Violation) : string :=
  "validation failed: " +:+ String.concat "; " (map v_message vs).
Definition repository_error_to_string (e : RepositoryError) : string :=
  match e with
  | RNotFound => "Entity not found"
  | RAlreadyExists s => "Entity already exists: " +:+ s
  | RValidationError s => "Validation error: " +:+ s
  | RDatabaseError s => "Database error: " +:+ s
  | RSerializationError s => "Serialization error: " +:+ s
  | RConflict s => "Conflict: " +:+ s
  | RInternalError s => "Internal error: " +:+ s
  | RViolations vs => violations_text vs
  end.
Definition service_error_to_string (e : ServiceError) : string :=
  match e with
  | SNotFound => "not found"
  | SAlreadyExists s => "already exists: " +:+ s
  | SValidation s => "validation failed: " +:+ s
  | SViolations vs => violations_text vs
  | SRepository e => "repository error: " +:+ repository_error_to_string e
  | SInternal s => "internal error: " +:+ s
  end.
End errors.

(** ** The context of a write *)

Record WriteCtx := mkWriteCtx {
  wc_correlation_id : string;
  wc_causation_id : option string;
  wc_actor : option string;
  wc_company_id : option uuid;
  wc_outbox_schema : option string;
}.

Definition nil_uuid : uuid := 0%N.

Definition company_or_nil (ctx : WriteCtx) : uuid := default nil_uuid (wc_company_id ctx).

Section write_ctx.
Context {L : Libs}.

(** The company an event of [row] is staged under. *)
Definition company_of (ctx : WriteCtx) (row : Value) : uuid :=
  let own : option uuid := id ← value_get "company_id" row; t ← as_str id; parse_uuid t in
  match own with
  | Some c => c
  | None => company_or_nil ctx
  end.

(** The ids [stage] fills in where the record carries none. *)
Definition stamped (ctx : WriteCtx) (r : OutboxRecord) : OutboxRecord :=
  let r := match rec_correlation_id r with
           | None => rec_with_correlation_id r (Some (wc_correlation_id ctx))
           | Some _ => r
           end in
  match rec_causation_id r with
  | None => rec_with_causation_id r (wc_causation_id ctx)
  | Some _ => r
  end.

Context {T W : Type} {HO : HasOutbox T} {HW : World W}.

(** [WriteCtx::stage] *)
Definition ctx_stage (tk : Task) (ctx : WriteCtx) (r : OutboxRecord) :
    sm (St T W) ServiceError unit :=
  match wc_outbox_schema ctx with
  | None => sm_err (SInternal "an event was staged by hooks that name no outbox schema")
  | Some schema =>
      _ ← map_err (λ e, SInternal ("staging " +:+ rec_event_type r +:+ " failed: " +:+
                                   outbox_error_to_string e))
            (stage_in_write_tx tk schema (stamped ctx r));
      mret tt
  end.

(** ** [NotificationRequested] *)

Record NotificationRequested := {
  nr_channel : string;
  nr_template : option string;
  nr_body : option string;
  nr_to : Value;
  nr_data : Value;
  nr_trigger : string;
}.

Definition opt_string (o : option string) : Value :=
  match o with Some s => VString s | None => VNull end.

(** The struct as JSON. *)
Definition notification_value (n : NotificationRequested) : Value :=
  VObject (map_insert "trigger" (VString (nr_trigger n))
          (map_insert "data" (nr_data n)
          (map_insert "to" (nr_to n)
          (map_insert "body" (opt_string (nr_body n))
          (map_insert "template" (opt_string (nr_template n))
          (map_insert "channel" (VString (nr_channel n)) [])))))).

(** The outbox row of a request. *)
Definition notification_record {E} (n : NotificationRequested) (aggregate aggregate_id : string)
    (company : uuid) (ctx : WriteCtx) : sm (St T W) E OutboxRecord :=
  now ← utc_now;
  r ← new_record "NotificationRequested" aggregate aggregate_id company
        (notification_value n) now;
  let r := rec_with_correlation_id (rec_with_version r 1) (Some (wc_correlation_id ctx)) in
  mret (match wc_causation_id ctx with
        | Some cause => rec_with_causation_id r (Some cause)
        | None => r
        end).

(** ** Facts *)

Lemma stamped_id ctx r : rec_id (stamped ctx r) = rec_id r.
Proof.
  unfold stamped. destruct (rec_correlation_id r); simpl; by destruct (rec_causation_id r).
Qed.
Lemma stamped_company ctx r : rec_company_id (stamped ctx r) = rec_company_id r.
Proof.
  unfold stamped. destruct (rec_correlation_id r); simpl; by destruct (rec_causation_id r).
Qed.
End write_ctx.
