(* ===== verification/WorkflowSpec.v ===== *)
(** * Workflows as data, and what typed code performs for them

    [backbone-core/src/workflow/spec.rs]: the compiled workflow and the
    [WorkflowDefinition] trait. A definition's [perform] and [function] are code
    of the service, not of the framework: they are fields of a record, computations
    over the part of the database that is not the workflow tables. *)
From Stdlib Require Import ZArith Lia.
From S2P Require Import Prelude RustStr Float64 Json WorkflowExpr Database WriteHooks.

Local Open Scope Z_scope.

Section spec.
Context {L : Libs}.

Inductive Backoff := Exponential | Fixed (secs : Z).

Record RetrySpec := { max_attempts : Z; backoff : Backoff }.

Record Outcome := mkOutcome { oc_set : list (string * Tpl); oc_next : option string }.
(** [Outcome::default()] *)
Definition outcome_default : Outcome := mkOutcome [] None.

Record FailureSpec := {
  fs_next : option string;
  fs_set : list (string * Tpl);
  fs_retry : option RetrySpec;
  fs_on_exhausted : option Outcome;
}.
Definition failure_default : FailureSpec :=
  {| fs_next := None; fs_set := []; fs_retry := None; fs_on_exhausted := None |}.

Record Branch := { br_when : option Expr; br_set : list (string * Tpl); br_next : string }.

Record WaitKey := { wk_event_field : string; wk_context : Expr }.

Inductive Terminal := TCompleted | TFailed | TExpired | TCancelled.
#[export] Instance terminal_eq_dec : EqDecision Terminal.
Proof. solve_decision. Defined.

Record EmitSpec := { em_event : string; em_data : Tpl }.

Inductive StepKind :=
  | KAction (action : string) (entity : option string) (id : option Tpl)
      (params : list (string * Tpl)) (on_success : Outcome) (on_timeout : option Outcome)
  | KTransition (entity : string) (id : Tpl) (verb : string)
      (params : list (string * Tpl)) (on_success : Outcome)
  | KCondition (branches : list Branch)
  | KWait (event : option string) (key : list WaitKey) (timeout : option Dur)
      (on_event on_timeout : option Outcome)
  | KTerminal (status : Terminal) (reason : option Tpl) (emit : option EmitSpec)
      (compensate : bool) (result : option Tpl).

Record StepSpec := {
  st_name : string;
  st_guard : option Expr;
  st_kind : StepKind;
  st_on_failure : option FailureSpec;
  st_call_timeout : option Z;
}.

Record CompStep := {
  cs_name : string;
  cs_when : option Expr;
  cs_action : string;
  cs_entity : option string;
  cs_id : option Tpl;
  cs_params : list (string * Tpl);
  cs_verb : option string;
}.

Record WorkflowSpec := {
  ws_name : string;
  ws_version : Z;
  ws_trigger_event : string;
  ws_extract : list (string * Expr);
  ws_context : list (string * Value);
  ws_persistence : bool;
  ws_timeout : option Dur;
  ws_retry : option RetrySpec;
  ws_steps : list StepSpec;
  ws_compensation : list CompStep;
}.

(** [WorkflowSpec::step] *)
Definition spec_step (spec : WorkflowSpec) (name : string) : option StepSpec :=
  List.find (λ s, bool_decide (st_name s = name)) (ws_steps spec).

(** [if !out.contains(e) { out.push(e) }] *)
Definition push_new (out : list string) (e : string) : list string :=
  if bool_decide (e ∈ out) then out else out ++ [e].

Definition waited_event (s : StepSpec) : option string :=
  match st_kind s with KWait (Some e) _ _ _ _ => Some e | _ => None end.

(** [WorkflowSpec::events] *)
Definition events (spec : WorkflowSpec) : list string :=
  foldl (λ out s, match waited_event s with Some e => push_new out e | None => out end)
    [ws_trigger_event spec] (ws_steps spec).

(** What a definition is asked to perform. *)
Record Call := {
  call_step : string;
  call_action : string;
  call_entity : option string;
  call_id : option string;
  call_verb : option string;
  call_params : Value;
  call_context : Value;
}.

(** A workflow the engine can run. [R] is the database without the workflow
    tables. *)
Record WorkflowDefinition {R W : Type} := {
  wd_spec : WorkflowSpec;
  wd_perform : Task → WriteCtx → Call → sm (St R W) ServiceError Value;
  wd_function : Task → WriteCtx → string → list Value → sm (St R W) ServiceError Value;
}.

(** The trait's own [function]. *)
Definition default_function {R W} (_ : Task) (_ : WriteCtx) (name : string)
    (_ : list Value) : sm (St R W) ServiceError Value :=
  sm_err (SInternal ("function `" +:+ name +:+ "` is not implemented")).
End spec.
Arguments WorkflowDefinition {_} _ _.

(** ** Facts *)
Section facts.
Context {L : Libs}.

Lemma spec_step_name spec name s : spec_step spec name = Some s → st_name s = name.
Proof. intros [_ H%bool_decide_eq_true]%find_Some_elem. done. Qed.

Lemma elem_push_new out e x : x ∈ push_new out e ↔ x ∈ out ∨ x = e.
Proof.
  unfold push_new. case_bool_decide as He.
  - split; [by left|]. by intros [?| ->].
  - by rewrite elem_of_app, list_elem_of_singleton.
Qed.

Lemma NoDup_push_new out e : NoDup out → NoDup (push_new out e).
Proof. unfold push_new. case_bool_decide; [done|]. intros. by apply NoDup_snoc. Qed.

Lemma elem_events_from out steps e :
  e ∈ foldl (λ out s, match waited_event s with Some e => push_new out e | None => out end)
        out steps ↔
  e ∈ out ∨ ∃ s, s ∈ steps ∧ waited_event s = Some e.
Proof.
  revert out. induction steps as [|s steps IH]; intros out; simpl.
  { split; [by left|]. intros [?|(? & Hin & _)]; [done|]. by apply not_elem_of_nil in Hin. }
  rewrite IH. assert ((∃ s', s' ∈ s :: steps ∧ waited_event s' = Some e) ↔
    waited_event s = Some e ∨ ∃ s', s' ∈ steps ∧ waited_event s' = Some e) as ->.
  { setoid_rewrite elem_of_cons. naive_solver. }
  destruct (waited_event s) as [e'|]; [rewrite elem_push_new|]; naive_solver.
Qed.

Lemma NoDup_events spec : NoDup (events spec).
Proof.
  unfold events. generalize (NoDup_singleton (ws_trigger_event spec)).
  generalize [ws_trigger_event spec]. induction (ws_steps spec) as [|s l IH]; [done|].
  intros out Hout. simpl. apply IH. destruct (waited_event s); [by apply NoDup_push_new|done].
Qed.
End facts.
