(* ===== verification/WorkflowStore.v ===== *)
(** * The workflow tables and the engine's statements over them

    [backbone-core/src/workflow/schema.rs] (the statuses, the keys, the fence by
    company) and the SQL texts of [engine.rs], each as a function on the tables. A
    statement sees the rows whose company is the transaction's
    ([bb_workflow_instances_company_isolation] and its twin on the steps); only
    the sweep's read sees every row. [None] is a statement the database refuses: a
    broken key, a check, an interval out of range. Row locks are not
    modelled: a transaction runs alone. *)
From Stdlib Require Import ZArith Lia Ascii.
From S2P Require Import Prelude RustStr Float64 Json WorkflowExpr Database Outbox WriteHooks WorkflowSpec.

Local Open Scope Z_scope.

(** ** [schema.rs] *)

Definition STATUSES : list string :=
  ["running"; "waiting"; "completed"; "failed"; "expired"; "compensating"; "compensated";
   "cancelled"].

(** A plain lowercase identifier of at most 48 bytes. *)
Definition valid_schema (schema : string) : bool :=
  match schema with
  | EmptyString => false
  | String c s =>
      (is_ascii_lowercase c || (byte_of c =? 95)) &&
      str_forallb (λ c, is_ascii_lowercase c || is_ascii_digit c || (byte_of c =? 95)) s &&
      (str_len schema <=? 48)
  end.

(** Postgres' interval arithmetic on [timestamptz]: [t + make_interval(secs => s)]
    and [t - make_interval(secs => s)]; [None] where the database refuses. *)
Class Postgres := {
  pg_after : instant → f64 → option instant;
  pg_before : instant → f64 → option instant;
}.

Section store.
Context {L : Libs}.

(** A row of [bb_workflow_instances]. *)
Record InstanceRow := {
  i_id : uuid;
  i_workflow : string;
  i_version : Z;
  i_company_id : uuid;
  i_org_unit_id : option uuid;
  i_status : string;
  i_current_step : option string;
  i_context : Value;
  i_trigger_event_id : uuid;
  i_correlation_id : option string;
  i_deadline_at : option instant;
  i_wait_event : option string;
  i_wait_key : option string;
  i_wait_due_at : option instant;
  i_attempts : Z;
  i_last_error : option string;
  i_created_at : instant;
  i_updated_at : instant;
}.

(** The statuses an instance ends in. *)
Definition FINAL : list string := ["completed"; "failed"; "expired"; "compensated"; "cancelled"].
(** [InstanceRow::is_final] *)
Definition is_final (r : InstanceRow) : bool := bool_decide (i_status r ∈ FINAL).

(** A row of [bb_workflow_steps]. *)
Record StepRow := mkStepRow {
  s_instance : uuid;
  s_company : uuid;
  s_unit : option uuid;
  s_seq : Z;
  s_step : string;
  s_outcome : string;
  s_error : option string;
}.

Record WfTables := mkWf {
  wf_instances : gmap uuid InstanceRow;
  wf_steps : list StepRow;
}.

(** The columns an [UPDATE] of the engine writes, over a row's own others. *)
Definition with_columns (r : InstanceRow) (status : string) (step : option string)
    (context : Value) (wait_event wait_key : option string) (wait_due : option instant)
    (attempts : Z) (last_error : option string) (now : instant) : InstanceRow := {|
  i_id := i_id r; i_workflow := i_workflow r; i_version := i_version r;
  i_company_id := i_company_id r; i_org_unit_id := i_org_unit_id r;
  i_status := status; i_current_step := step; i_context := context;
  i_trigger_event_id := i_trigger_event_id r; i_correlation_id := i_correlation_id r;
  i_deadline_at := i_deadline_at r;
  i_wait_event := wait_event; i_wait_key := wait_key; i_wait_due_at := wait_due;
  i_attempts := attempts; i_last_error := last_error;
  i_created_at := i_created_at r; i_updated_at := now |}.

(** ** The statements *)
Section statements.
Context (tx : Tx).

(** The fence. *)
Definition visible (company : uuid) : bool := bool_decide (tx_company tx = Some company).

(** [SELECT .. WHERE id = $1], with or without [FOR UPDATE] *)
Definition sel_instance (id : uuid) (t : WfTables) : option InstanceRow :=
  match wf_instances t !! id with
  | Some r => if visible (i_company_id r) then Some r else None
  | None => None
  end.

(** The visible log of an instance, in the order it was written. *)
Definition log_of (id : uuid) (t : WfTables) : list StepRow :=
  filter (λ s, s_instance s = id ∧ visible (s_company s) = true) (wf_steps t).

(** [COALESCE(MAX(seq), 0) + 1], an [int]. *)
Definition sel_next_seq (id : uuid) (t : WfTables) : option Z :=
  let seqs := map s_seq (log_of id t) in
  let top := match seqs with [] => 0 | x :: l => foldr Z.max x l end in
  if top + 1 <=? i32_max then Some (top + 1) else None.

Definition COMPLETED_OUTCOMES : list string := ["ok"; "resumed"; "timed_out"].

(** [SELECT DISTINCT step .. WHERE outcome IN ('ok', 'resumed', 'timed_out')] *)
Definition sel_completed (id : uuid) (t : WfTables) : gset string :=
  list_to_set (map s_step (filter (λ s, s_outcome s ∈ COMPLETED_OUTCOMES) (log_of id t))).

(** [SELECT count( * ) .. WHERE step = $2 AND outcome = 'compensated'] *)
Definition sel_compensated (id : uuid) (label : string) (t : WfTables) : Z :=
  Z.of_nat (length (filter (λ s, s_step s = label ∧ s_outcome s = "compensated") (log_of id t))).

(** The compensation steps that failed and were not undone since, each once. *)
Definition sel_pending_compensation (id : uuid) (t : WfTables) : list string :=
  let log := log_of id t in
  let done := map s_step (filter (λ s, s_outcome s = "compensated") log) in
  remove_dups (map s_step (filter (λ s, s_outcome s = "compensation_failed" ∧ s_step s ∉ done) log)).

(** [INSERT INTO bb_workflow_steps]: the fence's check, the reference to the
    instance and the primary key [(instance_id, seq)]. *)
Definition ins_step (row : StepRow) (t : WfTables) : option (unit * WfTables) :=
  if visible (s_company row) && bool_decide (is_Some (wf_instances t !! s_instance row)) &&
     negb (existsb (λ s, bool_decide (s_instance s = s_instance row) && (s_seq s =? s_seq row))
             (wf_steps t))
  then Some (tt, mkWf (wf_instances t) (wf_steps t ++ [row]))
  else None.

(** [UPDATE bb_workflow_instances SET .. WHERE id = $1]: a row that is not seen
    is not touched; the status check. *)
Definition upd_instance (id : uuid) (f : InstanceRow → option InstanceRow) (t : WfTables) :
    option (unit * WfTables) :=
  match sel_instance id t with
  | None => Some (tt, t)
  | Some r =>
      match f r with
      | None => None
      | Some r' =>
          if bool_decide (i_status r' ∈ STATUSES)
          then Some (tt, mkWf (<[id := r']> (wf_instances t)) (wf_steps t))
          else None
      end
  end.

(** [INSERT INTO bb_workflow_instances .. ON CONFLICT (workflow, trigger_event_id)
    DO NOTHING RETURNING id]: the conflict counts rows the fence hides. *)
Definition same_trigger (workflow : string) (event : uuid) (r : InstanceRow) : bool :=
  bool_decide (i_workflow r = workflow) && bool_decide (i_trigger_event_id r = event).
Definition ins_instance (row : InstanceRow) (t : WfTables) : option (option uuid * WfTables) :=
  if negb (visible (i_company_id row)) || negb (bool_decide (i_status row ∈ STATUSES)) then None
  else if existsb (λ kv, same_trigger (i_workflow row) (i_trigger_event_id row) kv.2)
            (map_to_list (wf_instances t)) then Some (None, t)
  else match wf_instances t !! i_id row with
       | Some _ => None
       | None => Some (Some (i_id row), mkWf (<[i_id row := row]> (wf_instances t)) (wf_steps t))
       end.

(** [ORDER BY created_at, id] *)
Definition created_leb (a b : InstanceRow) : bool :=
  (i_created_at a <? i_created_at b) ||
  ((i_created_at a =? i_created_at b) && (i_id a <=? i_id b)%N).

Definition waits_for (workflow event : string) (keys : list string) (r : InstanceRow) : bool :=
  visible (i_company_id r) && bool_decide (i_workflow r = workflow) &&
  bool_decide (i_status r = "waiting") && bool_decide (i_wait_event r = Some event) &&
  match i_wait_key r with Some k => bool_decide (k ∈ keys) | None => false end.

(** The visible instances of a workflow waiting for an event under one of the keys. *)
Definition sel_waiting (workflow event : string) (keys : list string) (t : WfTables) :
    list InstanceRow :=
  merge_sort (λ a b, Is_true (created_leb a b))
    (filter (λ r, waits_for workflow event keys r = true)
       (map snd (map_to_list (wf_instances t)))).

(** [ORDER BY seq] *)
Definition sel_log (id : uuid) (t : WfTables) : list StepRow :=
  merge_sort (λ a b, Is_true (s_seq a <=? s_seq b)) (log_of id t).
End statements.

(** [due_predicate]: [stalled] is [now() - make_interval(secs => $1)]. *)
Definition passed (now : instant) (t : option instant) : bool :=
  match t with Some t => t <=? now | None => false end.
Definition due_predicate (now stalled : instant) (r : InstanceRow) : bool :=
  (bool_decide (i_status r = "waiting") &&
     (passed now (i_wait_due_at r) || passed now (i_deadline_at r))) ||
  (bool_decide (i_status r = "running") &&
     (passed now (i_wait_due_at r) ||
      (bool_decide (i_wait_due_at r = None) && (i_updated_at r <=? stalled)))) ||
  (bool_decide (i_status r = "compensating") && (i_updated_at r <=? stalled)).

(** [COALESCE(wait_due_at, deadline_at, updated_at)] *)
Definition due_order (r : InstanceRow) : instant :=
  match i_wait_due_at r, i_deadline_at r with
  | Some t, _ => t
  | None, Some t => t
  | None, None => i_updated_at r
  end.

Context {PG : Postgres}.

(** The sweep's read, across companies: the due instances, oldest first, [batch] of
    them. A negative limit is refused. *)
Definition sel_due (now : instant) (stall : f64) (batch : Z) (t : WfTables) :
    option (list (uuid * uuid * option uuid)) :=
  match pg_before now stall with
  | None => None
  | Some stalled =>
      if batch <? 0 then None else
      Some (map (λ r, (i_id r, i_company_id r, i_org_unit_id r))
              (take (Z.to_nat batch)
                 (merge_sort (λ a b, Is_true (due_order a <=? due_order b))
                    (filter (λ r, due_predicate now stalled r = true)
                       (map snd (map_to_list (wf_instances t)))))))
  end.

(** The claim's read: the instance when it is still due. *)
Definition sel_claim (tx : Tx) (stall : f64) (id : uuid) (t : WfTables) :
    option (option InstanceRow) :=
  match pg_before (tx_now tx) stall with
  | None => None
  | Some stalled =>
      Some (match sel_instance tx id t with
            | Some r => if due_predicate (tx_now tx) stalled r then Some r else None
            | None => None
            end)
  end.
End store.

(** ** The database: the workflow tables, and everything else *)

Record Db {L : Libs} (R : Type) := mkDb { db_wf : WfTables; db_rest : R }.
Arguments mkDb {_ _} _ _.
Arguments db_wf {_ _} _.
Arguments db_rest {_ _} _.

#[export, refine] Instance db_outbox {L : Libs} {R} `{HO : !HasOutbox R} : HasOutbox (Db R) := {|
  ob_get d := ob_get (db_rest d);
  ob_set o d := mkDb (db_wf d) (ob_set o (db_rest d)); |}.
Proof.
  - intros o d. apply ob_get_set.
  - intros o o' d. simpl. by rewrite ob_set_set.
  - intros [w r]. simpl. by rewrite ob_set_get.
Defined.

Section database.
Context {L : Libs} {R W : Type} {HW : World W}.

Definition set_wf (t : WfTables) (d : Db R) : Db R := mkDb t (db_rest d).

(** A statement over the workflow tables. *)
Definition wf_sql {A} (f : WfTables → option (A * WfTables)) : sm (St (Db R) W) DbError A :=
  sql (λ d, match f (db_wf d) with
            | Some (a, t) => Some (a, set_wf t d)
            | None => None
            end).
Definition wf_query {A} (f : WfTables → A) : sm (St (Db R) W) DbError A :=
  wf_sql (λ t, Some (f t, t)).
Definition wf_query_opt {A} (f : WfTables → option A) : sm (St (Db R) W) DbError A :=
  wf_sql (λ t, match f t with Some a => Some (a, t) | None => None end).

(** Code that works on the rest of the database. *)
Definition get_rest (s : St (Db R) W) : St R W := mkSt (db_rest (tables s)) (world s).
Definition set_rest (t : St R W) (s : St (Db R) W) : St (Db R) W :=
  mkSt (mkDb (db_wf (tables s)) (tables t)) (world t).
Definition on_rest {E A} (m : sm (St R W) E A) : sm (St (Db R) W) E A :=
  sm_zoom get_rest set_rest m.
End database.
