(* ===== verification/WorkflowEngine.v ===== *)
(** * The workflow engine

    [backbone-core/src/workflow/engine.rs]: [WorkflowEngine] and
    [BackgroundTasks]. Every function takes the task ([Task]) it runs under;
    a transaction's body takes the task [in_write_tx] hands it. *)
From Stdlib Require Import ZArith Lia.
From S2P Require Import Prelude RustStr Float64 Json WorkflowExpr Database Outbox WriteHooks WorkflowSpec WorkflowStore.

Local Open Scope Z_scope.

(** [tokio::time::timeout]: [None] when the seconds ran out first. *)
Class Tokio (W : Type) := {
  tokio_timeout : ∀ T E A : Type, Z → sm (St T W) E A → sm (St T W) E (option A);
}.
Arguments tokio_timeout {_ _ _ _ _} _ _.

(** A [Duration], in nanoseconds, and its [as_secs_f64]. *)
Definition duration : Type := Z.
Definition as_secs_f64 (d : duration) : f64 :=
  f64_add (f64_of_Z (d / 1000000000))
    (f64_div (f64_of_Z (d mod 1000000000)) (f64_of_Z 1000000000)).

Record EngineConfig := {
  default_attempts : Z;
  backoff_base : duration;
  backoff_max : duration;
  stall_after : duration;
  sweep_batch : Z;
  max_steps : Z;
}.
Definition engine_config_default : EngineConfig := {|
  default_attempts := 3;
  backoff_base := 2 * 1000000000;
  backoff_max := 300 * 1000000000;
  stall_after := 60 * 1000000000;
  sweep_batch := 50;
  max_steps := 5000;
|}.

Record Tenant := mkTenant { tn_company : uuid; tn_unit : option uuid }.
Definition tenant_company (c : uuid) : Tenant := mkTenant c None.
Definition tenant_unit (c u : uuid) : Tenant := mkTenant c (Some u).

Inductive FailKind := Business | Transient | TimedOut.
#[export] Instance failkind_eq_dec : EqDecision FailKind.
Proof. solve_decision. Defined.

Record StepFailure := mkFailure { sf_step : string; sf_kind : FailKind; sf_message : string }.

Inductive StepEnd := Advanced | Paused | Finished | Compensate | Gone.

Inductive Claim := ClTimedOut | ClExpired | ClRetry | ClRecover | ClCompensate.

Section types.
Context {L : Libs}.

Definition tenant_of (r : OutboxRecord) : Tenant :=
  mkTenant (rec_company_id r) (rec_org_unit_id r).

Inductive WorkflowError :=
  | WDb (e : DbError)
  | WService (e : ServiceError)
  | WConfig (s : string).
Definition workflow_error_to_string (e : WorkflowError) : string :=
  match e with
  | WDb e => "workflow database error: " +:+ e
  | WService e => "workflow service error: " +:+ service_error_to_string e
  | WConfig s => "workflow configuration error: " +:+ s
  end.

Record EventReport := mkEventReport {
  er_started : list uuid;
  er_duplicates : nat;
  er_resumed : list uuid;
}.

Record SweepReport := mkSweepReport {
  sr_timed_out : list uuid;
  sr_expired : list uuid;
  sr_retried : list uuid;
  sr_recovered : list uuid;
  sr_compensated : list uuid;
}.
Definition sweep_report_default : SweepReport := mkSweepReport [] [] [] [] [].
(** [SweepReport::total] *)
Definition total (r : SweepReport) : nat :=
  length (sr_timed_out r) + length (sr_expired r) + length (sr_retried r) +
  length (sr_recovered r) + length (sr_compensated r).

Inductive RunError := RFailure (f : StepFailure) | RWf (e : WorkflowError).
(** The [From<sqlx::Error>]s. *)
Definition run_of_db (e : DbError) : RunError := RWf (WDb e).

(** [fail] *)
Definition failed (step : string) (kind : FailKind) (message : string) : RunError :=
  RFailure (mkFailure step kind message).

Definition classify (e : ServiceError) : FailKind :=
  match e with
  | SNotFound | SAlreadyExists _ | SValidation _ | SViolations _ => Business
  | _ => Transient
  end.

(** The error a transaction's failure becomes. *)
Definition settle (text : StepFailure → string) (e : RunError) : WorkflowError :=
  match e with RWf e => e | RFailure f => WConfig (text f) end.

Record WorkflowEngine {R W : Type} := mkEngine {
  eng_schema : string;
  eng_defs : list (WorkflowDefinition R W);
  eng_cfg : EngineConfig;
}.
End types.
Arguments WorkflowEngine {_} _ _.

Section engine.
Context {L : Libs} {PG : Postgres} {R W : Type} {HO : HasOutbox R} {HW : World W} {TO : Tokio W}.
Context (eng : WorkflowEngine R W).

Abbreviation D := (St (Db R) W).
Abbreviation Def := (WorkflowDefinition R W).

(** [WorkflowEngine::new] panics on a schema that is not a plain name. *)
Definition engine_new (schema : string) (defs : list Def) : res WorkflowError (WorkflowEngine R W) :=
  if valid_schema schema then
    Ok {| eng_schema := schema; eng_defs := defs; eng_cfg := engine_config_default |}
  else Panic.

Definition subscribed_events : list string :=
  foldl (λ out d, foldl push_new out (events (wd_spec d))) [] (eng_defs eng).

Definition def_named (name : string) : option Def :=
  List.find (λ d, bool_decide (ws_name (wd_spec d) = name)) (eng_defs eng).

Definition rdb {A} (m : sm D DbError A) : sm D RunError A := map_err run_of_db m.

(** [write_tx()] *)
Definition write_tx (tk : Task) : sm D RunError Tx :=
  match task_tx tk with
  | Some tx => mret tx
  | None => sm_err (RWf (WConfig "the engine ran outside a write transaction"))
  end.

(** Run [work] under the tenant's scope. *)
Definition scoped {E A} (from : DbError → E) (tk : Task) (tn : Tenant)
    (work : Task → sm D E A) : sm D E A :=
  match tn_unit tn with
  | None => work (with_company_scope tk (Some (tn_company tn)))
  | Some u => with_org_request_scope from tk (tn_company tn) u work
  end.

(** [self.scoped(tenant, in_write_tx(&self.pool, work))] *)
Definition scoped_tx {A} (tk : Task) (tn : Tenant) (work : Task → sm D RunError A) :
    sm D RunError A :=
  scoped run_of_db tk tn (λ tk, in_write_tx run_of_db tk work).

Definition in_tx {A} (tk : Task) (tn : Tenant) (work : Task → sm D RunError A) :
    sm D WorkflowError A :=
  map_err (settle sf_message) (scoped_tx tk tn work).

Definition ctx_for (company : uuid) (correlation : string) (cause : uuid) : WriteCtx :=
  mkWriteCtx correlation (Some (uuid_to_string cause)) None (Some company)
    (Some (eng_schema eng)).

Definition def_for_instance (tk : Task) (tn : Tenant) (id : uuid) :
    sm D WorkflowError (option Def) :=
  name ← in_tx tk tn (λ tk,
    tx ← write_tx tk;
    rdb (wf_query (λ t, i_workflow <$> sel_instance tx id t)));
  mret (name ≫= def_named).

Definition correlation_of (tk : Task) (tn : Tenant) (id : uuid) : sm D WorkflowError string :=
  found ← in_tx tk tn (λ tk,
    tx ← write_tx tk;
    rdb (wf_query (λ t, i_correlation_id <$> sel_instance tx id t)));
  mret (default (uuid_to_string id) (mjoin found)).

(** An instance's own correlation id. *)
Definition correlation (inst : InstanceRow) : string :=
  default (uuid_to_string (i_id inst)) (i_correlation_id inst).

Definition lock (tx : Tx) (id : uuid) : sm D RunError (option InstanceRow) :=
  rdb (wf_query (sel_instance tx id)).

Definition completed (tx : Tx) (id : uuid) : sm D RunError (gset string) :=
  rdb (wf_query (sel_completed tx id)).

Definition next_seq (tx : Tx) (id : uuid) : sm D RunError Z :=
  rdb (wf_query_opt (sel_next_seq tx id)).

Definition log_step (tx : Tx) (inst : InstanceRow) (seq : Z) (step outcome : string)
    (error : option string) : sm D RunError unit :=
  rdb (wf_sql (ins_step tx
    (mkStepRow (i_id inst) (i_company_id inst) (i_org_unit_id inst) seq step outcome error))).

(** [UPDATE bb_workflow_instances SET .. WHERE id = $1] *)
Definition update (tx : Tx) (id : uuid) (f : InstanceRow → option InstanceRow) :
    sm D RunError unit :=
  rdb (wf_sql (upd_instance tx id f)).

(** [DefFuncs] *)
Definition def_funcs (tk : Task) (def : Def) (ctx : WriteCtx) : Funcs D := {|
  fn_call name args := map_err service_error_to_string (on_rest (wd_function def tk ctx name args));
|}.

(** The scope a step's expressions read, over an instance's context. *)
Definition scope_of (inst : InstanceRow) (event result error : Value) (done : gset string)
    (now : instant) : Scope := {|
  sc_context := i_context inst; sc_event := event; sc_result := result; sc_error := error;
  sc_config := VNull; sc_completed := done; sc_now := now |}.

Definition ctx_get (key : string) (inst : InstanceRow) : Value :=
  value_get_or_null key (i_context inst).

(** [map.insert(key, v)] where the context is an object. *)
Definition ctx_set (key : string) (v context : Value) : Value :=
  match context with VObject m => VObject (map_insert key v m) | other => other end.

(** The entries of an object; of anything else, none. *)
Definition as_object (v : Value) : list (string * Value) :=
  match v with VObject m => m | _ => [] end.

Definition bfail {A} (step message : string) : sm D RunError A :=
  sm_err (failed step Business message).
(** [.map_err(|m| fail(step, Business, format!("{what}: {m}")))] *)
Definition or_fail {A} (step what : string) (m : sm D string A) : sm D RunError A :=
  map_err (λ e, failed step Business (what +:+ ": " +:+ e)) m.

Definition quoted (s : string) : string := "`" +:+ s +:+ "`".

(** Apply an outcome: its keys into a copy of the context, and the next step. *)
Definition apply_outcome (spec : WorkflowSpec) (step : string) (inst : InstanceRow)
    (outcome : Outcome) (sc : Scope) (fs : Funcs D) (result : option Value) :
    sm D RunError (Value * string) :=
  let map0 := as_object (i_context inst) in
  let map1 := match result with Some r => map_insert "result" r map0 | None => map0 end in
  sets ← mapM (λ kt, v ← or_fail step ("set " +:+ quoted kt.1) (render fs sc kt.2); mret (kt.1, v))
           (oc_set outcome);
  let map2 := foldl (λ m kv, map_insert kv.1 kv.2 m) map1 sets in
  match oc_next outcome with
  | None => bfail step "the step names no next step"
  | Some next =>
      match spec_step spec next with
      | None => bfail step ("the next step " +:+ quoted next +:+ " does not exist")
      | Some _ => mret (VObject map2, next)
      end
  end.

(** The same with [result] the step's own. *)
Definition apply_outcome_with_result (spec : WorkflowSpec) (step : string) (inst : InstanceRow)
    (outcome : Outcome) (sc : Scope) (fs : Funcs D) (result : Value) :
    sm D RunError (Value * string) :=
  let inner := {| sc_context := sc_context sc; sc_event := sc_event sc; sc_result := result;
                  sc_error := sc_error sc; sc_config := sc_config sc;
                  sc_completed := sc_completed sc; sc_now := sc_now sc |} in
  apply_outcome spec step inst outcome inner fs (Some result).

(** On to the next step. *)
Definition advanced (now : instant) (next : string) (context : Value) (r : InstanceRow) :
    InstanceRow :=
  with_columns r (i_status r) (Some next) context None None None 0 None now.
Definition advance (tx : Tx) (inst : InstanceRow) (next : string) (context : Value) :
    sm D RunError unit :=
  update tx (i_id inst) (λ r, Some (advanced (tx_now tx) next context r)).

Definition render_params (step : string) (params : list (string * Tpl)) (sc : Scope)
    (fs : Funcs D) : sm D RunError Value :=
  m ← sm_fold (λ m kt, v ← or_fail step ("param " +:+ quoted kt.1) (render fs sc kt.2);
                       mret (map_insert kt.1 v m)) [] params;
  mret (VObject m).

(** ** Actions *)

Definition stage_event (tk : Task) (ctx : WriteCtx) (workflow : string) (instance : uuid)
    (event : string) (data : Value) : sm D ServiceError unit :=
  now ← utc_now;
  r ← new_record event workflow (uuid_to_string instance) (company_or_nil ctx) data now;
  ctx_stage tk ctx r.

(** A staging failure as the step's. *)
Definition staged {A} (step what : string) (m : sm D ServiceError A) : sm D RunError A :=
  map_err (λ e, failed step (classify e) (what +:+ ": " +:+ service_error_to_string e)) m.

Definition NOT_DATA : list string := ["data"; "template"; "to"; "recipients"; "channel"; "body"].

(** The template variables: [data], and every other parameter that is not one of
    the request's own and not named in [data]. *)
Definition notification_data (params : Value) : Value :=
  let data := default (VObject []) (value_get "data" params) in
  match data, params with
  | VObject map, VObject all =>
      VObject (foldl (λ m kv, if bool_decide (kv.1 ∈ NOT_DATA) then m
                              else map_or_insert kv.1 kv.2 m) map all)
  | _, _ => data
  end.

Definition get_str (key : string) (v : Value) : option string := value_get key v ≫= as_str.

Definition notification_request (workflow step action : string) (params : Value) :
    NotificationRequested := {|
  nr_channel :=
    if bool_decide (action = "send_email") then "email"
    else if bool_decide (action = "send_sms") then "sms"
    else if bool_decide (action = "send_notification") then "notify"
    else default "notify" (get_str "channel" params);
  nr_template := get_str "template" params;
  nr_body := get_str "body" params;
  nr_to := default VNull (match value_get "to" params with
                          | Some v => Some v
                          | None => value_get "recipients" params
                          end);
  nr_data := notification_data params;
  nr_trigger := workflow +:+ "." +:+ step |}.

(** Call the definition, bounded by the step's [call_timeout]. *)
Definition call_def (tk : Task) (def : Def) (ctx : WriteCtx) (step : StepSpec) (call : Call) :
    sm D RunError Value :=
  let run := wd_perform def tk ctx call in
  let as_failure e := failed (st_name step) (classify e) (service_error_to_string e) in
  match st_call_timeout step with
  | Some secs =>
      answer ← map_err as_failure (on_rest (tokio_timeout (Z.max secs 0) run));
      match answer with
      | Some v => mret v
      | None =>
          sm_err (failed (st_name step) TimedOut
            (quoted (call_action call) +:+ " took longer than " +:+ show_Z secs +:+ "s"))
      end
  | None => map_err as_failure (on_rest run)
  end.

Definition perform_emit_event (tk : Task) (def : Def) (ctx : WriteCtx) (step : StepSpec)
    (params : Value) (inst : InstanceRow) : sm D RunError Value :=
  match get_str "event" params with
  | None => bfail (st_name step) "`emit_event` needs an `event` parameter"
  | Some event =>
      let data := default VNull (value_get "data" params) in
      _ ← staged (st_name step) "emit_event"
            (stage_event tk ctx (ws_name (wd_spec def)) (i_id inst) event data);
      mret (VObject (map_insert "event" (VString event) []))
  end.

Definition perform_notify (tk : Task) (def : Def) (ctx : WriteCtx) (step : StepSpec)
    (action : string) (params : Value) (inst : InstanceRow) : sm D RunError Value :=
  let workflow := ws_name (wd_spec def) in
  let request := notification_request workflow (st_name step) action params in
  r ← notification_record request workflow (uuid_to_string (i_id inst)) (i_company_id inst) ctx;
  _ ← staged (st_name step) action (ctx_stage tk ctx r);
  mret VNull.

Definition NOTIFY_ACTIONS : list string := ["send_email"; "notify"; "send_notification"; "send_sms"].

(** An engine action here, anything else through the definition. [audit_log] writes
    to the process' log only. *)
Definition perform_action (tk : Task) (def : Def) (ctx : WriteCtx) (step : StepSpec)
    (action : string) (entity record_id verb : option string) (params : Value)
    (inst : InstanceRow) : sm D RunError Value :=
  if bool_decide (action = "audit_log") then mret VNull
  else if bool_decide (action = "emit_event") then perform_emit_event tk def ctx step params inst
  else if bool_decide (action ∈ NOTIFY_ACTIONS) then
    perform_notify tk def ctx step action params inst
  else call_def tk def ctx step
         {| call_step := st_name step; call_action := action; call_entity := entity;
            call_id := record_id; call_verb := verb; call_params := params;
            call_context := i_context inst |}.

(** ** One step *)

(** What [run_one] reads before it looks at the step's kind. *)
Record Frame := mkFrame {
  fr_tk : Task;
  fr_def : Def;
  fr_tx : Tx;
  fr_inst : InstanceRow;
  fr_step : StepSpec;
  fr_name : string;
  fr_ctx : WriteCtx;
  fr_seq : Z;
  fr_scope : Scope;
}.
Definition fr_spec (fr : Frame) : WorkflowSpec := wd_spec (fr_def fr).
Definition fr_funcs (fr : Frame) : Funcs D := def_funcs (fr_tk fr) (fr_def fr) (fr_ctx fr).
Definition fr_log (fr : Frame) (outcome : string) (error : option string) : sm D RunError unit :=
  log_step (fr_tx fr) (fr_inst fr) (fr_seq fr) (fr_name fr) outcome error.
Definition fr_advance (fr : Frame) (cn : Value * string) : sm D RunError StepEnd :=
  _ ← advance (fr_tx fr) (fr_inst fr) cn.2 cn.1;
  mret Advanced.

(** A guard that does not hold. *)
Definition run_skip (fr : Frame) : sm D RunError StepEnd :=
  let success := match st_kind (fr_step fr) with
                 | KAction _ _ _ _ on_success _ | KTransition _ _ _ _ on_success => Some on_success
                 | _ => None
                 end in
  match success with
  | None => bfail (fr_name fr) "only an action or a transition has a guard"
  | Some outcome =>
      cn ← apply_outcome (fr_spec fr) (fr_name fr) (fr_inst fr) (mkOutcome [] (oc_next outcome))
             (fr_scope fr) (fr_funcs fr) None;
      _ ← fr_log fr "skipped" None;
      fr_advance fr cn
  end.

(** [.filter(|v| !v.is_null()).map(|v| text_of(&v))] *)
Definition record_id_of (v : option Value) : option string :=
  match v with Some v => if is_null v then None else Some (text_of v) | None => None end.

(** The record an action is about: its [id], else the [id] of its parameters. *)
Definition action_record (name : string) (id : option Tpl) (params : Value) (sc : Scope)
    (fs : Funcs D) : sm D RunError (option string) :=
  v ← match id with
      | Some t => v ← or_fail name "id" (render fs sc t); mret (Some v)
      | None => mret (value_get "id" params)
      end;
  mret (record_id_of v).

(** What a step that answered [result] does next. *)
Definition run_success (fr : Frame) (on_success : Outcome) (result : Value) :
    sm D RunError StepEnd :=
  cn ← apply_outcome_with_result (fr_spec fr) (fr_name fr) (fr_inst fr) on_success
         (fr_scope fr) (fr_funcs fr) result;
  _ ← fr_log fr "ok" None;
  fr_advance fr cn.

Definition run_action (fr : Frame) (action : string) (entity : option string)
    (id : option Tpl) (params : list (string * Tpl)) (on_success : Outcome) :
    sm D RunError StepEnd :=
  rendered ← render_params (fr_name fr) params (fr_scope fr) (fr_funcs fr);
  record_id ← action_record (fr_name fr) id rendered (fr_scope fr) (fr_funcs fr);
  result ← perform_action (fr_tk fr) (fr_def fr) (fr_ctx fr) (fr_step fr) action entity
             record_id None rendered (fr_inst fr);
  run_success fr on_success result.

Definition run_transition (fr : Frame) (entity : string) (id : Tpl) (verb : string)
    (params : list (string * Tpl)) (on_success : Outcome) : sm D RunError StepEnd :=
  rendered ← render_params (fr_name fr) params (fr_scope fr) (fr_funcs fr);
  record_id ← or_fail (fr_name fr) "id" (render (fr_funcs fr) (fr_scope fr) id);
  if is_null record_id then bfail (fr_name fr) "the transition's id is empty"
  else
    result ← call_def (fr_tk fr) (fr_def fr) (fr_ctx fr) (fr_step fr)
               {| call_step := fr_name fr; call_action := "transition";
                  call_entity := Some entity; call_id := Some (text_of record_id);
                  call_verb := Some verb; call_params := rendered;
                  call_context := i_context (fr_inst fr) |};
    run_success fr on_success result.

(** The first branch that holds. *)
Fixpoint run_condition (fr : Frame) (branches : list Branch) : sm D RunError StepEnd :=
  match branches with
  | [] => bfail (fr_name fr) "no branch of the condition holds and it has no else"
  | b :: rest =>
      taken ← match br_when b with
              | Some w => or_fail (fr_name fr) "condition" (holds (fr_funcs fr) (fr_scope fr) w)
              | None => mret true
              end;
      if (taken : bool) then
        cn ← apply_outcome (fr_spec fr) (fr_name fr) (fr_inst fr)
               (mkOutcome (br_set b) (Some (br_next b))) (fr_scope fr) (fr_funcs fr) None;
        _ ← fr_log fr "ok" None;
        fr_advance fr cn
      else run_condition fr rest
  end.

(** [CASE WHEN $n IS NULL THEN NULL ELSE now() + make_interval(secs => $n) END]: the
    outer [None] is an interval the database refuses. *)
Definition due_at (now : instant) (secs : option Z) : option (option instant) :=
  match secs with
  | None => Some None
  | Some s => match pg_after now (f64_of_Z s) with Some t => Some (Some t) | None => None end
  end.

Definition opt_duration (step : string) (d : option Dur) (sc : Scope) (fs : Funcs D) :
    sm D RunError (option Z) :=
  match d with
  | Some d => z ← or_fail step "timeout" (render_duration fs sc d); mret (Some z)
  | None => mret None
  end.

(** Into a wait. *)
Definition waiting (now : instant) (event key : option string) (due : option instant)
    (r : InstanceRow) : InstanceRow :=
  with_columns r "waiting" (i_current_step r) (i_context r) event key due 0 None now.

Definition run_wait (fr : Frame) (event : option string) (key : list WaitKey)
    (timeout : option Dur) : sm D RunError StepEnd :=
  if negb (ws_persistence (fr_spec fr)) then
    bfail (fr_name fr) "a workflow without persistence cannot wait"
  else
    wkey ← match event with
           | Some _ =>
               values ← mapM (λ k, or_fail (fr_name fr) "wait key"
                                     (eval (fr_funcs fr) (fr_scope fr) (wk_context k))) key;
               mret (Some (wait_key values))
           | None => mret None
           end;
    due ← opt_duration (fr_name fr) timeout (fr_scope fr) (fr_funcs fr);
    match event, due with
    | None, None => bfail (fr_name fr) "a wait names neither an event nor a timeout"
    | _, _ =>
        _ ← fr_log fr "waiting" None;
        _ ← update (fr_tx fr) (i_id (fr_inst fr)) (λ r,
              at_ ← due_at (tx_now (fr_tx fr)) due;
              Some (waiting (tx_now (fr_tx fr)) event wkey at_ r));
        mret Paused
    end.

Definition terminal_status (status : Terminal) : string :=
  match status with
  | TCompleted => "completed"
  | TFailed => "failed"
  | TExpired => "expired"
  | TCancelled => "cancelled"
  end.

(** [COALESCE($n, column)] *)
Definition coalesce {A} (a b : option A) : option A := match a with Some _ => a | None => b end.

(** To the end. *)
Definition ended (now : instant) (status step : string) (error : option string)
    (context : Value) (r : InstanceRow) : InstanceRow :=
  with_columns r status (Some step) context None None None (i_attempts r)
    (coalesce error (i_last_error r)) now.

Definition run_terminal (fr : Frame) (status : Terminal) (reason : option Tpl)
    (emit : option EmitSpec) (compensate : bool) (result : option Tpl) :
    sm D RunError StepEnd :=
  context ← match result with
            | Some tpl =>
                v ← or_fail (fr_name fr) "result" (render (fr_funcs fr) (fr_scope fr) tpl);
                mret (ctx_set "result" v (i_context (fr_inst fr)))
            | None => mret (i_context (fr_inst fr))
            end;
  _ ← match emit with
      | Some e =>
          data ← or_fail (fr_name fr) "emit" (render (fr_funcs fr) (fr_scope fr) (em_data e));
          staged (fr_name fr) "emit"
            (stage_event (fr_tk fr) (fr_ctx fr) (ws_name (fr_spec fr)) (i_id (fr_inst fr))
               (em_event e) data)
      | None => mret tt
      end;
  text ← match reason with
         | Some t =>
             v ← or_fail (fr_name fr) "reason" (render (fr_funcs fr) (fr_scope fr) t);
             mret (Some (text_of v))
         | None => mret None
         end;
  let compensating := compensate && bool_decide (status = TFailed) &&
                      negb (bool_decide (ws_compensation (fr_spec fr) = [])) in
  let final_status := if compensating then "compensating" else terminal_status status in
  _ ← fr_log fr "terminal" (if bool_decide (status = TCompleted) then None else text);
  _ ← update (fr_tx fr) (i_id (fr_inst fr)) (λ r,
        Some (ended (tx_now (fr_tx fr)) final_status (fr_name fr)
                (if bool_decide (status = TFailed) then text else None) context r));
  mret (if compensating then Compensate else Finished).

(** The step, by its kind, once its guard has let it run. *)
Definition run_kind (fr : Frame) : sm D RunError StepEnd :=
  match st_kind (fr_step fr) with
  | KAction action entity id params on_success _ => run_action fr action entity id params on_success
  | KTransition entity id verb params on_success => run_transition fr entity id verb params on_success
  | KCondition branches => run_condition fr branches
  | KWait event key timeout _ _ => run_wait fr event key timeout
  | KTerminal status reason emit compensate result =>
      run_terminal fr status reason emit compensate result
  end.

(** Run the instance's current step inside the ambient write transaction. *)
Definition run_one (tk : Task) (def : Def) (id : uuid) : sm D RunError StepEnd :=
  tx ← write_tx tk;
  inst ← lock tx id;
  match inst with
  | None => mret Gone
  | Some inst =>
      if negb (bool_decide (i_status inst = "running")) then mret Paused
      else
        match i_current_step inst with
        | None => bfail "(none)" "the instance has no current step"
        | Some name =>
            match spec_step (wd_spec def) name with
            | None => bfail name "the workflow has no such step"
            | Some step =>
                let ctx := ctx_for (i_company_id inst) (correlation inst) (i_trigger_event_id inst) in
                done ← completed tx id;
                seq ← next_seq tx id;
                now ← utc_now;
                let fr := mkFrame tk def tx inst step name ctx seq
                            (scope_of inst (ctx_get "_event" inst) (ctx_get "result" inst)
                               (ctx_get "error" inst) done now) in
                runs ← match st_guard step with
                       | Some g => or_fail name "guard" (holds (fr_funcs fr) (fr_scope fr) g)
                       | None => mret true
                       end;
                if (runs : bool) then run_kind fr else run_skip fr
            end
        end
  end.

(** ** Out of a wait *)

Definition resumed (now : instant) (next : string) (context : Value) (r : InstanceRow) :
    InstanceRow :=
  with_columns r "running" (Some next) context None None None 0 None now.

Definition leave_wait (tk : Task) (def : Def) (tx : Tx) (inst : InstanceRow)
    (step_name : string) (outcome : Outcome) (label : string) (event : option Value)
    (ctx : WriteCtx) : sm D RunError unit :=
  done ← completed tx (i_id inst);
  now ← utc_now;
  let sc := scope_of inst (default VNull event) (ctx_get "result" inst) (ctx_get "error" inst)
              done now in
  cn ← apply_outcome (wd_spec def) step_name inst outcome sc (def_funcs tk def ctx) None;
  let context := match event with Some p => ctx_set "_event" p cn.1 | None => cn.1 end in
  seq ← next_seq tx (i_id inst);
  _ ← log_step tx inst seq step_name label None;
  update tx (i_id inst) (λ r, Some (resumed (tx_now tx) cn.2 context r)).

(** ** Failure *)

(** The policy a failure is judged by, and [Duration] arithmetic of the backoff. *)
Definition retry_of (policy : FailureSpec) (spec : WorkflowSpec) : RetrySpec :=
  match coalesce (fs_retry policy) (ws_retry spec) with
  | Some r => r
  | None => {| max_attempts := default_attempts (eng_cfg eng); backoff := Exponential |}
  end.
Definition retry_delay (b : Backoff) (attempts : Z) : f64 :=
  match b with
  | Fixed s => f64_of_Z (Z.max s 0)
  | Exponential =>
      f64_min (f64_mul (as_secs_f64 (backoff_base (eng_cfg eng))) (f64_powi2 (attempts - 1)))
        (as_secs_f64 (backoff_max (eng_cfg eng)))
  end.

(** Where a failure leads: another attempt after a delay, or an outcome to route
    to, or nowhere. *)
Inductive FailureRoute := FrRetry (delay : f64) | FrRoute (o : Outcome) | FrNowhere.

Definition route_next (policy : FailureSpec) : option Outcome :=
  match fs_next policy with Some n => Some (mkOutcome (fs_set policy) (Some n)) | None => None end.
Definition route_of (o : option Outcome) : FailureRoute :=
  match o with Some o => FrRoute o | None => FrNowhere end.

Definition failure_route (kind : FailKind) (policy : FailureSpec) (on_timeout : option Outcome)
    (retry : RetrySpec) (attempts : Z) : FailureRoute :=
  match kind, on_timeout with
  | TimedOut, Some o => FrRoute o
  | Business, _ => route_of (route_next policy)
  | _, _ =>
      if attempts <? as_i32 (max_attempts retry) then FrRetry (retry_delay (backoff retry) attempts)
      else route_of (coalesce (fs_on_exhausted policy) (route_next policy))
  end.

(** To another attempt, and to the end of a failed one. *)
Definition retrying (now : instant) (attempts : Z) (message : string) (due : instant)
    (r : InstanceRow) : InstanceRow :=
  with_columns r (i_status r) (i_current_step r) (i_context r) (i_wait_event r) (i_wait_key r)
    (Some due) attempts (Some message) now.
Definition failing (now : instant) (status : string) (attempts : Z) (message : string)
    (r : InstanceRow) : InstanceRow :=
  with_columns r status (i_current_step r) (i_context r) None None None attempts (Some message) now.

(** [InstanceRow { context, ..inst.clone() }] *)
Definition with_context (inst : InstanceRow) (context : Value) : InstanceRow :=
  with_columns inst (i_status inst) (i_current_step inst) context (i_wait_event inst)
    (i_wait_key inst) (i_wait_due_at inst) (i_attempts inst) (i_last_error inst)
    (i_updated_at inst).

(** Route a failed step to another. *)
Definition route_failure (tk : Task) (def : Def) (tx : Tx) (inst : InstanceRow)
    (failure : StepFailure) (outcome : Outcome) : sm D RunError StepEnd :=
  let ctx := ctx_for (i_company_id inst) (correlation inst) (i_trigger_event_id inst) in
  done ← completed tx (i_id inst);
  now ← utc_now;
  let carrier := with_context inst (ctx_set "error" (VString (sf_message failure)) (i_context inst)) in
  let sc := scope_of carrier (ctx_get "_event" inst) (ctx_get "result" carrier)
              (VString (sf_message failure)) done now in
  cn ← apply_outcome (wd_spec def) (sf_step failure) carrier outcome sc (def_funcs tk def ctx) None;
  _ ← advance tx carrier cn.2 cn.1;
  mret Advanced.

(** Record a failure and decide, in the transaction after the failed one. *)
Definition judge_failure (tk : Task) (def : Def) (id : uuid) (failure : StepFailure) :
    sm D RunError StepEnd :=
  let spec := wd_spec def in
  tx ← write_tx tk;
  inst ← lock tx id;
  match inst with
  | None => mret Gone
  | Some inst =>
      if negb (bool_decide (i_status inst = "running")) then mret Paused
      else
        let step := spec_step spec (sf_step failure) in
        let policy := default failure_default (step ≫= st_on_failure) in
        let on_timeout := s ← step; match st_kind s with KAction _ _ _ _ _ o => o | _ => None end in
        seq ← next_seq tx id;
        _ ← log_step tx inst seq (sf_step failure) "failed" (Some (sf_message failure));
        attempts ← match i32_checked_add (i_attempts inst) 1 with
                   | Some a => mret a
                   | None => sm_panic
                   end;
        match failure_route (sf_kind failure) policy on_timeout (retry_of policy spec) attempts with
        | FrRetry delay =>
            _ ← update tx id (λ r,
                  due ← pg_after (tx_now tx) delay;
                  Some (retrying (tx_now tx) attempts (sf_message failure) due r));
            mret Paused
        | FrRoute outcome => route_failure tk def tx inst failure outcome
        | FrNowhere =>
            let comp := negb (bool_decide (ws_compensation spec = [])) in
            _ ← update tx id (λ r,
                  Some (failing (tx_now tx) (if comp then "compensating" else "failed") attempts
                          (sf_message failure) r));
            mret (if comp then Compensate else Finished)
        end
  end.

Definition after_failure (tk : Task) (def : Def) (tn : Tenant) (id : uuid)
    (failure : StepFailure) : sm D WorkflowError StepEnd :=
  map_err (settle (λ f, "the failure of step " +:+ quoted (sf_step failure) +:+
                        " could not be routed: " +:+ sf_message f))
    (scoped_tx tk tn (λ tk, judge_failure tk def id failure)).

(** One step, in one transaction; a failure is handled in another. *)
Definition step_once (tk : Task) (def : Def) (tn : Tenant) (id : uuid) :
    sm D WorkflowError StepEnd :=
  corr ← correlation_of tk tn id;
  ran ← attempt (scoped run_of_db tk tn (λ tk,
          in_write_tx run_of_db (with_correlation_id tk corr) (λ tk, run_one tk def id)));
  match ran with
  | inr end_ => mret end_
  | inl (RWf e) => sm_err e
  | inl (RFailure f) => after_failure tk def tn id f
  end.

(** ** Compensation *)

Definition COMPENSABLE : list string := ["compensating"; "failed"; "compensated"].

(** The step a compensation runs as. *)
Definition comp_step (label : string) (comp : CompStep) : StepSpec := {|
  st_name := label; st_guard := None;
  st_kind := KAction (cs_action comp) (cs_entity comp) None [] outcome_default None;
  st_on_failure := None; st_call_timeout := None |}.

(** What a compensation step does once it is found due. *)
Definition compensate_do (tk : Task) (def : Def) (tx : Tx) (inst : InstanceRow)
    (comp : CompStep) (label : string) : sm D RunError (option unit) :=
  done ← completed tx (i_id inst);
  now ← utc_now;
  let ctx := ctx_for (i_company_id inst) (correlation inst) (i_trigger_event_id inst) in
  let fs := def_funcs tk def ctx in
  let sc := scope_of inst (ctx_get "_event" inst) (ctx_get "result" inst) (ctx_get "error" inst)
              done now in
  runs ← match cs_when comp with
         | Some w => or_fail label "condition" (holds fs sc w)
         | None => mret true
         end;
  if negb (runs : bool) then mret None
  else
    params ← render_params label (cs_params comp) sc fs;
    record_id ← action_record label (cs_id comp) params sc fs;
    _ ← perform_action tk def ctx (comp_step label comp) (cs_action comp) (cs_entity comp)
          record_id (cs_verb comp) params inst;
    seq ← next_seq tx (i_id inst);
    _ ← log_step tx inst seq label "compensated" None;
    mret (Some tt).

Definition compensate_one (tk : Task) (def : Def) (id : uuid) (comp : CompStep)
    (label : string) : sm D RunError (option unit) :=
  tx ← write_tx tk;
  inst ← lock tx id;
  match inst with
  | None => mret None
  | Some inst =>
      if negb (bool_decide (i_status inst ∈ COMPENSABLE)) then mret None
      else
        already ← rdb (wf_query (sel_compensated tx id label));
        if 0 <? already then mret None else compensate_do tk def tx inst comp label
  end.

(** Record that a compensation step failed. *)
Definition log_compensation_failure (tk : Task) (id : uuid) (label message : string) :
    sm D RunError unit :=
  tx ← write_tx tk;
  inst ← lock tx id;
  match inst with
  | None => mret tt
  | Some inst =>
      seq ← next_seq tx id;
      log_step tx inst seq label "compensation_failed" (Some message)
  end.

(** One compensation step in a transaction of its own; [failures] collects. *)
Definition compensate_next (tk : Task) (def : Def) (tn : Tenant) (id : uuid)
    (failures : list string) (comp : CompStep) : sm D WorkflowError (list string) :=
  let label := "compensate:" +:+ cs_name comp in
  ran ← attempt (scoped_tx tk tn (λ tk, compensate_one tk def id comp label));
  match ran with
  | inr _ => mret failures
  | inl (RWf e) => sm_err e
  | inl (RFailure f) =>
      _ ← attempt (scoped_tx tk tn (λ tk, log_compensation_failure tk id label (sf_message f)));
      mret (failures ++ [cs_name comp +:+ ": " +:+ sf_message f])
  end.

Definition compensation_result (failures pending : list string) : string * option string :=
  match failures, pending with
  | [], [] => ("compensated", None)
  | _ :: _, _ => ("failed", Some ("compensation incomplete: " +:+ String.concat "; " failures))
  | [], _ => ("failed", Some ("compensation incomplete: " +:+ String.concat ", " pending))
  end.

Definition settled (now : instant) (status : string) (error : option string) (r : InstanceRow) :
    InstanceRow :=
  with_columns r status (i_current_step r) (i_context r) (i_wait_event r) (i_wait_key r)
    (i_wait_due_at r) (i_attempts r) (coalesce error (i_last_error r)) now.

(** The end of a compensation: what could not be undone stays visible. *)
Definition settle_compensation (tk : Task) (id : uuid) (failures : list string) :
    sm D RunError unit :=
  tx ← write_tx tk;
  inst ← lock tx id;
  match inst with
  | None => mret tt
  | Some inst =>
      if negb (bool_decide (i_status inst ∈ ["compensating"; "failed"])) then mret tt
      else
        pending ← rdb (wf_query (sel_pending_compensation tx id));
        let '(status, error) := compensation_result failures pending in
        update tx id (λ r, Some (settled (tx_now tx) status error r))
  end.

Definition compensate_company (tk : Task) (def : Def) (tn : Tenant) (id : uuid) :
    sm D WorkflowError unit :=
  failures ← sm_fold (compensate_next tk def tn id) [] (rev (ws_compensation (wd_spec def)));
  in_tx tk tn (λ tk, settle_compensation tk id failures).

(** [WorkflowEngine::compensate] *)
Definition compensate (tk : Task) (tn : Tenant) (id : uuid) : sm D WorkflowError unit :=
  def ← def_for_instance tk tn id;
  match def with
  | Some def => compensate_company tk def tn id
  | None => mret tt
  end.

(** ** Driving *)

Definition fail_runaway (tk : Task) (def : Def) (tn : Tenant) (id : uuid) :
    sm D WorkflowError unit :=
  end_ ← after_failure tk def tn id
           (mkFailure "(runaway)" Business
              ("more than " +:+ show_Z (max_steps (eng_cfg eng)) +:+
               " steps ran without the instance pausing or ending"));
  match end_ with
  | Compensate => compensate_company tk def tn id
  | _ => mret tt
  end.

(** The rounds of a loop [for _ in 0..max_steps.max(1)]. *)
Definition rounds : nat := Z.to_nat (Z.max (max_steps (eng_cfg eng)) 1).

Fixpoint drive_loop (n : nat) (tk : Task) (def : Def) (tn : Tenant) (id : uuid) :
    sm D WorkflowError unit :=
  match n with
  | O => fail_runaway tk def tn id
  | S n =>
      end_ ← step_once tk def tn id;
      match end_ with
      | Advanced => drive_loop n tk def tn id
      | Compensate => compensate_company tk def tn id
      | Paused | Finished | Gone => mret tt
      end
  end.

Definition drive (tk : Task) (def : Def) (tn : Tenant) (id : uuid) : sm D WorkflowError unit :=
  if negb (ws_persistence (wd_spec def)) then mret tt
  else drive_loop rounds tk def tn id.

(** [WorkflowEngine::run] *)
Definition run (tk : Task) (tn : Tenant) (id : uuid) : sm D WorkflowError unit :=
  def ← def_for_instance tk tn id;
  match def with
  | Some def => drive tk def tn id
  | None => mret tt
  end.

(** ** Events *)

(** A failed step of a flow without persistence goes where its policy says. *)
Definition inline_route (def : Def) (f : StepFailure) : option string :=
  let routed : option string :=
    s ← spec_step (wd_spec def) (sf_step f); p ← st_on_failure s; fs_next p in
  match routed with
  | Some next => if bool_decide (sf_kind f = Business) then Some next else None
  | None => None
  end.

Definition inline_failure (tk : Task) (id : uuid) (f : StepFailure) (next : string) :
    sm D RunError unit :=
  tx ← write_tx tk;
  inst ← lock tx id;
  match inst with
  | None => mret tt
  | Some inst =>
      seq ← next_seq tx id;
      _ ← log_step tx inst seq (sf_step f) "failed" (Some (sf_message f));
      advance tx inst next (ctx_set "error" (VString (sf_message f)) (i_context inst))
  end.

Fixpoint inline_loop (n : nat) (tk : Task) (def : Def) (id : uuid) : sm D RunError unit :=
  match n with
  | O => bfail "(runaway)" "the flow did not end"
  | S n =>
      ran ← attempt (in_write_tx run_of_db tk (λ tk, run_one tk def id));
      match ran with
      | inr Advanced => inline_loop n tk def id
      | inr _ => mret tt
      | inl (RWf e) => sm_err (RWf e)
      | inl (RFailure f) =>
          match inline_route def f with
          | None => sm_err (RFailure f)
          | Some next => _ ← inline_failure tk id f next; inline_loop n tk def id
          end
      end
  end.

(** The body of a flow without persistence, in the transaction that created it. *)
Definition run_inline (tk : Task) (def : Def) (id : uuid) : sm D RunError unit :=
  inline_loop rounds tk def id.

(** The correlation id of what an event causes. *)
Definition event_correlation (record : OutboxRecord) : string :=
  default (uuid_to_string (rec_id record)) (rec_correlation_id record).

(** The context an instance starts with. *)
Definition start_context (spec : WorkflowSpec) (record : OutboxRecord) (sc : Scope)
    (fs : Funcs D) (map0 : list (string * Value)) : sm D RunError Value :=
  m ← sm_fold (λ m ke,
        v ← or_fail "start" ("extract " +:+ quoted ke.1) (eval fs sc ke.2);
        mret (map_insert ke.1 v m)) map0 (ws_extract spec);
  mret (VObject (map_insert "_event" (rec_payload record) m)).

(** The row a start inserts. *)
Definition new_instance (id : uuid) (spec : WorkflowSpec) (record : OutboxRecord)
    (first : string) (context : Value) (deadline : option instant) (now : instant) :
    InstanceRow := {|
  i_id := id; i_workflow := ws_name spec; i_version := ws_version spec;
  i_company_id := rec_company_id record; i_org_unit_id := rec_org_unit_id record;
  i_status := "running"; i_current_step := Some first; i_context := context;
  i_trigger_event_id := rec_id record; i_correlation_id := Some (event_correlation record);
  i_deadline_at := deadline; i_wait_event := None; i_wait_key := None; i_wait_due_at := None;
  i_attempts := 0; i_last_error := None; i_created_at := now; i_updated_at := now |}.

(** The transaction of a start. *)
Definition start_tx (tk : Task) (def : Def) (record : OutboxRecord) (id : uuid)
    (first : string) : sm D RunError (option uuid) :=
  let spec := wd_spec def in
  let ctx := ctx_for (rec_company_id record) (event_correlation record) (rec_id record) in
  let fs := def_funcs tk def ctx in
  let map0 := foldl (λ m kv, map_insert kv.1 kv.2 m) [] (ws_context spec) in
  now ← utc_now;
  let sc := {| sc_context := VObject map0; sc_event := rec_payload record; sc_result := VNull;
               sc_error := VNull; sc_config := VNull; sc_completed := ∅; sc_now := now |} in
  context ← start_context spec record sc fs map0;
  deadline ← opt_duration "start" (ws_timeout spec) sc fs;
  tx ← write_tx tk;
  row ← rdb (wf_sql (λ t,
          at_ ← due_at (tx_now tx) deadline;
          ins_instance tx (new_instance id spec record first context at_ (tx_now tx)) t));
  _ ← (if bool_decide (is_Some row) && negb (ws_persistence spec)
       then run_inline (with_correlation_id tk (event_correlation record)) def id
       else mret tt);
  mret row.

(** [WorkflowEngine::start] *)
Definition start (tk : Task) (def : Def) (record : OutboxRecord) :
    sm D WorkflowError (option uuid) :=
  let spec := wd_spec def in
  match ws_steps spec with
  | [] => sm_err (WConfig ("workflow " +:+ quoted (ws_name spec) +:+ " has no steps"))
  | first :: _ =>
      id ← fresh_uuid;
      map_err (settle (λ f, "workflow " +:+ quoted (ws_name spec) +:+ " could not start: " +:+
                            sf_message f))
        (scoped_tx tk (tenant_of record) (λ tk, start_tx tk def record id (st_name first)))
  end.

(** The event's side of a wait's key. *)
Definition event_key (record : OutboxRecord) (key : list WaitKey) : string :=
  wait_key (map (λ k, value_get_or_null (wk_event_field k) (rec_payload record)) key).

(** The keys the waits of [spec] match this event under. *)
Definition event_keys (spec : WorkflowSpec) (record : OutboxRecord) : list string :=
  foldl (λ keys s, match st_kind s with
                   | KWait (Some e) key _ _ _ =>
                       if bool_decide (e = rec_event_type record)
                       then push_new keys (event_key record key) else keys
                   | _ => keys
                   end) [] (ws_steps spec).

(** One of the instances found waiting: resumed when its own wait matches. *)
Definition resume_row (tk : Task) (def : Def) (tx : Tx) (record : OutboxRecord)
    (out : list uuid) (inst : InstanceRow) : sm D RunError (list uuid) :=
  match i_current_step inst ≫= spec_step (wd_spec def) with
  | None => mret out
  | Some step =>
      match st_kind step with
      | KWait _ key _ on_event _ =>
          if bool_decide (i_wait_key inst = Some (event_key record key)) then
            _ ← leave_wait tk def tx inst (st_name step) (default outcome_default on_event)
                  "resumed" (Some (rec_payload record))
                  (ctx_for (i_company_id inst) (event_correlation record) (i_trigger_event_id inst));
            mret (out ++ [i_id inst])
          else mret out
      | _ => mret out
      end
  end.

Definition resume_tx (tk : Task) (def : Def) (record : OutboxRecord) : sm D RunError (list uuid) :=
  let spec := wd_spec def in
  tx ← write_tx tk;
  claimed ← map_err (λ e, RWf (WConfig ("inbox: " +:+ outbox_error_to_string e)))
              (once (eng_schema eng) ("workflow:" +:+ ws_name spec) (rec_id record));
  if negb (claimed : bool) then mret []
  else
    rows ← rdb (wf_query (sel_waiting tx (ws_name spec) (rec_event_type record)
                            (event_keys spec record)));
    sm_fold (resume_row tk def tx record) [] rows.

(** [WorkflowEngine::resume] *)
Definition resume (tk : Task) (def : Def) (record : OutboxRecord) :
    sm D WorkflowError (list uuid) :=
  map_err (settle (λ f, "workflow " +:+ quoted (ws_name (wd_spec def)) +:+
                        " could not resume on " +:+ quoted (rec_event_type record) +:+ ": " +:+
                        sf_message f))
    (scoped_tx tk (tenant_of record) (λ tk, resume_tx tk def record)).

Definition waits_on (def : Def) (event : string) : bool :=
  existsb (λ s, bool_decide (waited_event s = Some event)) (ws_steps (wd_spec def)).

Definition handle_start (tk : Task) (record : OutboxRecord) (report : EventReport) (def : Def) :
    sm D WorkflowError EventReport :=
  if bool_decide (ws_trigger_event (wd_spec def) = rec_event_type record) then
    started ← start tk def record;
    mret (match started with
          | Some id => mkEventReport (er_started report ++ [id]) (er_duplicates report) (er_resumed report)
          | None => mkEventReport (er_started report) (S (er_duplicates report)) (er_resumed report)
          end)
  else mret report.

Definition handle_resume (tk : Task) (record : OutboxRecord) (report : EventReport) (def : Def) :
    sm D WorkflowError EventReport :=
  if waits_on def (rec_event_type record) then
    ids ← resume tk def record;
    mret (mkEventReport (er_started report) (er_duplicates report) (er_resumed report ++ ids))
  else mret report.

Definition find_def (tk : Task) (record : OutboxRecord) (acc : list (Def * uuid)) (id : uuid) :
    sm D WorkflowError (list (Def * uuid)) :=
  def ← def_for_instance tk (tenant_of record) id;
  mret (match def with Some d => acc ++ [(d, id)] | None => acc end).

(** [WorkflowEngine::on_event]: start, resume, then drive what was. *)
Definition handle_event (tk : Task) (record : OutboxRecord) : sm D WorkflowError EventReport :=
  report ← sm_fold (handle_start tk record) (mkEventReport [] 0 []) (eng_defs eng);
  report ← sm_fold (handle_resume tk record) report (eng_defs eng);
  to_drive ← sm_fold (find_def tk record) [] (er_started report ++ er_resumed report);
  _ ← sm_iter (λ di, drive tk di.1 (tenant_of record) di.2) to_drive;
  mret report.
Definition on_event : Task → OutboxRecord → sm D WorkflowError EventReport := handle_event.

(** ** Timers *)

Definition expired_text : string := "the instance passed its deadline".
Definition expired (now : instant) (r : InstanceRow) : InstanceRow :=
  with_columns r "expired" (i_current_step r) (i_context r) None None None (i_attempts r)
    (Some expired_text) now.
Definition touched (now : instant) (due : option instant) (r : InstanceRow) : InstanceRow :=
  with_columns r (i_status r) (i_current_step r) (i_context r) (i_wait_event r) (i_wait_key r)
    due (i_attempts r) (i_last_error r) now.

(** A wait whose timeout passed. *)
Definition claim_timed_out (tk : Task) (def : Def) (tx : Tx) (inst : InstanceRow) :
    sm D RunError (option Claim) :=
  match i_current_step inst ≫= spec_step (wd_spec def) with
  | None => bfail "(sweep)" "a waiting instance's step is gone"
  | Some step =>
      match st_kind step with
      | KWait _ _ _ _ on_timeout =>
          _ ← leave_wait tk def tx inst (st_name step) (default outcome_default on_timeout)
                "timed_out" None
                (ctx_for (i_company_id inst) (correlation inst) (i_trigger_event_id inst));
          mret (Some ClTimedOut)
      | _ => bfail (st_name step) "a waiting instance is not on a wait step"
      end
  end.

(** A waiting instance past its deadline. *)
Definition claim_expired (tx : Tx) (inst : InstanceRow) : sm D RunError (option Claim) :=
  seq ← next_seq tx (i_id inst);
  _ ← log_step tx inst seq (default "(deadline)" (i_current_step inst)) "expired" (Some expired_text);
  _ ← update tx (i_id inst) (λ r, Some (expired (tx_now tx) r));
  mret (Some ClExpired).

Definition claim_due (tk : Task) (def : Def) (id : uuid) : sm D RunError (option Claim) :=
  tx ← write_tx tk;
  inst ← rdb (wf_query_opt (sel_claim tx (as_secs_f64 (stall_after (eng_cfg eng))) id));
  held ← row_locked;
  match (if (held : bool) then None else inst) with
  | None => mret None
  | Some inst =>
      now ← utc_now;
      let wait_due := passed now (i_wait_due_at inst) in
      if bool_decide (i_status inst = "waiting") then
        if wait_due then claim_timed_out tk def tx inst else claim_expired tx inst
      else if bool_decide (i_status inst = "running") then
        _ ← update tx (i_id inst) (λ r, Some (touched (tx_now tx) None r));
        mret (Some (match i_wait_due_at inst with Some _ => ClRetry | None => ClRecover end))
      else if bool_decide (i_status inst = "compensating") then
        _ ← update tx (i_id inst) (λ r, Some (touched (tx_now tx) (i_wait_due_at r) r));
        mret (Some ClCompensate)
      else mret None
  end.

(** Move one due instance on. *)
Definition sweep_act (tk : Task) (def : Def) (tn : Tenant) (id : uuid) (report : SweepReport)
    (claim : option Claim) : sm D WorkflowError SweepReport :=
  let '(mkSweepReport timed_out exp retried recovered comp) := report in
  match claim with
  | None => mret report
  | Some ClTimedOut =>
      _ ← drive tk def tn id;
      mret (mkSweepReport (timed_out ++ [id]) exp retried recovered comp)
  | Some ClExpired => mret (mkSweepReport timed_out (exp ++ [id]) retried recovered comp)
  | Some ClRetry =>
      _ ← drive tk def tn id;
      mret (mkSweepReport timed_out exp (retried ++ [id]) recovered comp)
  | Some ClRecover =>
      _ ← drive tk def tn id;
      mret (mkSweepReport timed_out exp retried (recovered ++ [id]) comp)
  | Some ClCompensate =>
      _ ← compensate_company tk def tn id;
      mret (mkSweepReport timed_out exp retried recovered (comp ++ [id]))
  end.

Definition sweep_one (tk : Task) (report : SweepReport) (c : uuid * uuid * option uuid) :
    sm D WorkflowError SweepReport :=
  let '(id, company, unit) := c in
  let tn := mkTenant company unit in
  def ← def_for_instance tk tn id;
  match def with
  | None => mret report
  | Some def =>
      claimed ← attempt (scoped_tx tk tn (λ tk, claim_due tk def id));
      match claimed with
      | inl (RWf e) => sm_err e
      | inl (RFailure _) => mret report
      | inr claim => sweep_act tk def tn id report claim
      end
  end.

(** The read across companies, in a transaction of its own on the pool. *)
Definition sweep_candidates : sm D WorkflowError (list (uuid * uuid * option uuid)) :=
  _ ← map_err WDb sqlx_point;
  now ← pg_now;
  _ ← map_err WDb sqlx_point;
  rows ← map_err WDb (wf_query_opt (sel_due now (as_secs_f64 (stall_after (eng_cfg eng)))
                                      (sweep_batch (eng_cfg eng))));
  _ ← map_err WDb sqlx_point;
  mret rows.

(** [WorkflowEngine::sweep] *)
Definition sweep (tk : Task) : sm D WorkflowError SweepReport :=
  candidates ← sweep_candidates;
  sm_fold (sweep_one tk) sweep_report_default candidates.

(** ** Operating *)

Definition cancelled (now : instant) (r : InstanceRow) : InstanceRow :=
  with_columns r "cancelled" (i_current_step r) (i_context r) None None None (i_attempts r)
    (i_last_error r) now.

Definition cancel_tx (tk : Task) (id : uuid) : sm D RunError bool :=
  tx ← write_tx tk;
  inst ← lock tx id;
  match inst with
  | None => mret false
  | Some inst =>
      if is_final inst then mret false
      else
        seq ← next_seq tx id;
        _ ← log_step tx inst seq (default "(cancel)" (i_current_step inst)) "cancelled" None;
        _ ← update tx id (λ r, Some (cancelled (tx_now tx) r));
        mret true
  end.

Definition cancel (tk : Task) (tn : Tenant) (id : uuid) : sm D WorkflowError bool :=
  in_tx tk tn (λ tk, cancel_tx tk id).

Definition describe (tk : Task) (tn : Tenant) (id : uuid) :
    sm D WorkflowError (option (InstanceRow * list StepRow)) :=
  in_tx tk tn (λ tk,
    tx ← write_tx tk;
    inst ← rdb (wf_query (sel_instance tx id));
    match inst with
    | None => mret None
    | Some inst =>
        steps ← rdb (wf_query (sel_log tx id));
        mret (Some (inst, steps))
    end).

(** ** [BackgroundTasks] *)

(** The relay's sink. *)
Definition deliver (tk : Task) (record : OutboxRecord) : sm D OutboxError unit :=
  if negb (bool_decide (rec_event_type record ∈ subscribed_events)) then mret tt
  else
    _ ← map_err (λ e, OPublish (workflow_error_to_string e)) (on_event tk record);
    mret tt.

Definition timer_sweep (tk : Task) : sm D WorkflowError SweepReport := sweep tk.
End engine.
