(* ===== verification/WorkflowModel.v ===== *)
(** * What the workflow tables may do: an abstract specification

    A state machine over the workflow tables, with no engine in it: an instance is
    added, a line is added to an instance's log, an instance's row moves along an
    edge of the status graph. [inv] is what holds of tables reached from
    empty ones. [WorkflowSim.v] shows that all the engine does is steps of this machine. *)
From Stdlib Require Import ZArith Lia.
From S2P Require Import Prelude RustStr Float64 Json WorkflowExpr Database Outbox WriteHooks WorkflowSpec WorkflowStore.

Local Open Scope Z_scope.

(** ** The status graph *)

Definition edges : list (string * list string) :=
  [("running", ["running"; "waiting"; "completed"; "failed"; "expired"; "cancelled"; "compensating"]);
   ("waiting", ["running"; "expired"; "cancelled"]);
   ("compensating", ["compensating"; "compensated"; "failed"; "cancelled"]);
   ("failed", ["failed"; "compensated"])].
Definition edge (a b : string) : Prop := b ∈ default [] (assoc a edges).
#[export] Instance edge_dec a b : Decision (edge a b).
Proof. unfold edge. apply _. Defined.

(** The statuses nothing leaves. *)
Definition ENDED : list string := ["completed"; "expired"; "cancelled"; "compensated"].

(** The outcomes a line of the log records. *)
Definition OUTCOMES : list string :=
  ["ok"; "skipped"; "waiting"; "resumed"; "timed_out"; "terminal"; "failed"; "expired"; "cancelled";
   "compensated"; "compensation_failed"].

Section model.
Context {L : Libs}.

(** ** A row *)

Definition quiet (r : InstanceRow) : Prop :=
  i_wait_event r = None ∧ i_wait_key r = None ∧ i_wait_due_at r = None.

(** A running instance is on a step and waits for no event, and its failed attempts
    leave room for one more; a waiting one is on a step, waits for an event under a
    key, or for a time, or for both; any other waits for nothing. *)
Record row_ok (r : InstanceRow) : Prop := {
  ok_status : i_status r ∈ STATUSES;
  ok_attempts : 0 ≤ i_attempts r ≤ i32_max;
  ok_running : i_status r = "running" →
    i_wait_event r = None ∧ i_wait_key r = None ∧ is_Some (i_current_step r) ∧
    i_attempts r < i32_max;
  ok_waiting : i_status r = "waiting" →
    is_Some (i_current_step r) ∧ i_attempts r = 0 ∧
    (is_Some (i_wait_event r) ↔ is_Some (i_wait_key r)) ∧
    (is_Some (i_wait_event r) ∨ is_Some (i_wait_due_at r));
  ok_quiet : i_status r ≠ "running" → i_status r ≠ "waiting" → quiet r;
}.

(** The columns no update writes. *)
Record same_identity (r r' : InstanceRow) : Prop := {
  same_id : i_id r' = i_id r;
  same_workflow : i_workflow r' = i_workflow r;
  same_version : i_version r' = i_version r;
  same_company : i_company_id r' = i_company_id r;
  same_unit : i_org_unit_id r' = i_org_unit_id r;
  same_trigger_event : i_trigger_event_id r' = i_trigger_event_id r;
  same_correlation : i_correlation_id r' = i_correlation_id r;
  same_deadline : i_deadline_at r' = i_deadline_at r;
  same_created : i_created_at r' = i_created_at r;
}.

Definition move (r r' : InstanceRow) : Prop :=
  same_identity r r' ∧ edge (i_status r) (i_status r') ∧ (row_ok r → row_ok r').

(** ** The machine *)

(** The log of an instance, whoever may see it. *)
Definition log (id : uuid) (t : WfTables) : list StepRow :=
  filter (λ s, s_instance s = id) (wf_steps t).

(** A label is undone once. *)
Definition undone (label : string) (l : list StepRow) : Prop :=
  ∃ s, s ∈ l ∧ s_step s = label ∧ s_outcome s = "compensated".

(** [C] says whose rows a step may touch. *)
Inductive wf_step (C : uuid → Prop) : relation WfTables :=
  | wf_start t r :
      C (i_company_id r) →
      wf_instances t !! i_id r = None →
      (∀ id' r', wf_instances t !! id' = Some r' →
         ¬ (i_workflow r' = i_workflow r ∧ i_trigger_event_id r' = i_trigger_event_id r)) →
      i_status r = "running" → row_ok r →
      wf_step C t (mkWf (<[i_id r := r]> (wf_instances t)) (wf_steps t))
  | wf_log t r s :
      C (i_company_id r) →
      wf_instances t !! s_instance s = Some r →
      s_company s = i_company_id r →
      s_seq s = Z.of_nat (length (log (s_instance s) t)) + 1 →
      s_outcome s ∈ OUTCOMES →
      (s_outcome s = "compensated" → ¬ undone (s_step s) (log (s_instance s) t)) →
      wf_step C t (mkWf (wf_instances t) (wf_steps t ++ [s]))
  | wf_move t id r r' :
      C (i_company_id r) →
      wf_instances t !! id = Some r → move r r' →
      wf_step C t (mkWf (<[id := r']> (wf_instances t)) (wf_steps t)).

Lemma wf_step_mono (C C' : uuid → Prop) t t' :
  (∀ c, C c → C' c) → wf_step C t t' → wf_step C' t t'.
Proof. intros H. destruct 1; econstructor; eauto. Qed.

(** ** What holds of the tables *)
Record inv (t : WfTables) : Prop := {
  inv_row id r : wf_instances t !! id = Some r → i_id r = id ∧ row_ok r;
  inv_trigger id id' r r' :
    wf_instances t !! id = Some r → wf_instances t !! id' = Some r' →
    i_workflow r = i_workflow r' → i_trigger_event_id r = i_trigger_event_id r' → id = id';
  inv_log s : s ∈ wf_steps t →
    s_outcome s ∈ OUTCOMES ∧
    ∃ r, wf_instances t !! s_instance s = Some r ∧ s_company s = i_company_id r;
  inv_seq id : map s_seq (log id t) = seqZ 1 (Z.of_nat (length (log id t)));
  inv_once id s s' : s ∈ log id t → s' ∈ log id t → s_step s = s_step s' →
    s_outcome s = "compensated" → s_outcome s' = "compensated" → s_seq s = s_seq s';
}.

Definition wf_empty : WfTables := mkWf ∅ [].

Lemma inv_empty : inv wf_empty.
Proof.
  split; unfold log; simpl; try done.
  - intros s H. by apply not_elem_of_nil in H.
  - intros id s s' H. by apply not_elem_of_nil in H.
Qed.

Lemma move_refl_identity r : same_identity r r.
Proof. by split. Qed.
#[export] Instance same_identity_preorder : PreOrder same_identity.
Proof.
  split.
  - intros r. by split.
  - intros r1 r2 r3 [] []. split; congruence.
Qed.

Lemma log_snoc id t i s :
  log id (mkWf i (wf_steps t ++ [s])) = log id t ++ (if decide (s_instance s = id) then [s] else []).
Proof.
  unfold log. simpl. by rewrite filter_app.
Qed.

Lemma log_instances id t i : log id (mkWf i (wf_steps t)) = log id t.
Proof. done. Qed.

Lemma inv_step C t t' : inv t → wf_step C t t' → inv t'.
Proof.
  intros [Hrow Htrig Hlog Hseq Honce]. destruct 1 as
    [t r HC Hfresh Hnew Hst Hok|t r s HC Hr Hc Hs Ho Hu|t id r r' HC Hr [Hid [He Hok]]].
  - split; simpl; [| | |done|done].
    + intros id r' [[<- <-]|[? ?]]%lookup_insert_Some; eauto.
    + intros id id' r1 r2 [[<- <-]|[? ?]]%lookup_insert_Some [[<- <-]|[? ?]]%lookup_insert_Some ??;
        [done| | |eauto]; exfalso; eapply Hnew; eauto.
    + intros s Hs. destruct (Hlog s Hs) as [? (r' & Hr' & ?)]. split; [done|].
      exists r'. split; [|done]. rewrite lookup_insert_ne; [done|]. congruence.
  - split; simpl; [done|done| | |].
    + intros s' [?| ->%list_elem_of_singleton]%elem_of_app; [eauto|]. split; eauto.
    + intros id. rewrite log_snoc, map_app, length_app, Hseq.
      destruct (decide _) as [<-|]; simpl; [|by rewrite app_nil_r, Nat.add_0_r].
      rewrite Hs, Nat2Z.inj_add, seqZ_app by lia. f_equal.
      rewrite seqZ_cons by done. rewrite seqZ_nil by done. f_equal. lia.
    + intros id s1 s2. rewrite log_snoc. destruct (decide _) as [<-|].
      2: { rewrite app_nil_r. eauto. }
      intros [H1| ->%list_elem_of_singleton]%elem_of_app
        [H2| ->%list_elem_of_singleton]%elem_of_app Heq Ho1 Ho2; [eauto| | |done].
      * destruct (Hu Ho2). exists s1. done.
      * destruct (Hu Ho1). exists s2. done.
  - destruct (Hrow id r Hr) as [<- Hrok]. split; simpl; [| | |done|done].
    + intros id' r0 [[<- <-]|[? ?]]%lookup_insert_Some; [|eauto].
      split; [by rewrite (same_id _ _ Hid)|auto].
    + intros id1 id2 r1 r2 [[<- <-]|[? ?]]%lookup_insert_Some [[<- <-]|[? ?]]%lookup_insert_Some;
        [done| | |eauto]; rewrite ?(same_workflow _ _ Hid), ?(same_trigger_event _ _ Hid); eauto.
    + intros s Hs. destruct (Hlog s Hs) as [? (r0 & Hr0 & ?)]. split; [done|].
      destruct (decide (s_instance s = i_id r)) as [E|].
      * exists r'. rewrite E, lookup_insert, (same_company _ _ Hid) in *.
        rewrite decide_True by done. split; [done|]. congruence.
      * exists r0. by rewrite lookup_insert_ne.
Qed.

Lemma inv_steps C t t' : inv t → rtc (wf_step C) t t' → inv t'.
Proof. intros H. induction 1; eauto using inv_step. Qed.

(** ** What holds of two tables, one reached from the other *)

(** Along an edge, or not at all. *)
Lemma ended_no_edge a b : a ∈ ENDED → ¬ edge a b.
Proof.
  intros Ha. unfold edge.
  repeat (apply elem_of_cons in Ha as [->|Ha]; [simpl; apply not_elem_of_nil|]).
  by apply not_elem_of_nil in Ha.
Qed.

(** Rows stay, keep their identity, move along edges and are frozen at an end; rows
    and logs of companies outside [C] are not touched; the log only grows. *)
Record evolves (C : uuid → Prop) (t t' : WfTables) : Prop := {
  ev_row id r : wf_instances t !! id = Some r →
    ∃ r', wf_instances t' !! id = Some r' ∧ same_identity r r' ∧
          rtc edge (i_status r) (i_status r') ∧ (i_status r ∈ ENDED → r' = r) ∧
          (¬ C (i_company_id r) → r' = r ∧ log id t' = log id t);
  ev_new id r : wf_instances t !! id = None → wf_instances t' !! id = Some r →
    C (i_company_id r);
  ev_log : wf_steps t `prefix_of` wf_steps t';
}.

#[export] Instance evolves_preorder C : PreOrder (evolves C).
Proof.
  split.
  - intros t. split; [|congruence|done]. intros id r ?. exists r. repeat split; done.
  - intros t1 t2 t3 [H1 N1 L1] [H2 N2 L2]. split; [| |by etrans].
    + intros id r Hr. destruct (H1 id r Hr) as (r' & Hr' & Hs & He & Hf & Hc).
      destruct (H2 id r' Hr') as (r'' & Hr'' & Hs' & He' & Hf' & Hc'). exists r''.
      split; [done|]. split; [by etrans|]. split; [by etrans|]. split.
      * intros Hin. rewrite (Hf Hin) in *. by apply Hf'.
      * intros Hn. destruct (Hc Hn) as [-> E]. destruct (Hc' Hn) as [-> E'].
        split; [done|]. congruence.
    + intros id r Hn Hr. destruct (wf_instances t2 !! id) as [r2|] eqn:E2; [|by eapply N2].
      destruct (H2 id r2 E2) as (r' & Hr' & Hs & _). rewrite Hr in Hr'. injection Hr' as <-.
      rewrite (same_company _ _ Hs). by eapply N1.
Qed.

Lemma evolves_step C t t' : inv t → wf_step C t t' → evolves C t t'.
Proof.
  intros Hinv. destruct 1 as
    [t r HC Hfresh Hnew Hst Hok|t r s HC Hr Hc Hs Ho Hu|t id r r' HC Hr [Hid [He Hok]]].
  - split; [| |done].
    + intros id r' Hr'. exists r'. simpl.
      rewrite lookup_insert_ne by congruence. repeat split; done.
    + simpl. intros id r' Hn [[<- <-]|[? ?]]%lookup_insert_Some; [done|congruence].
  - split; [|simpl; congruence|by apply prefix_app_r].
    intros id r' Hr'. exists r'. do 4 (split; [done|]).
    intros Hn. split; [done|]. rewrite log_snoc, decide_False; [by rewrite app_nil_r|].
    intros <-. by simplify_eq.
  - split; [| |done].
    + intros id' r0 Hr0. simpl. destruct (decide (id = id')) as [<-|].
      * rewrite Hr in Hr0. injection Hr0 as <-. exists r'.
        rewrite lookup_insert, decide_True by done. split; [done|]. split; [done|].
        split; [by apply rtc_once|]. split; [|done].
        intros Hin. by destruct (ended_no_edge _ (i_status r') Hin).
      * exists r0. rewrite lookup_insert_ne by done. repeat split; done.
    + simpl. intros id' r0 Hn [[<- <-]|[? ?]]%lookup_insert_Some; congruence.
Qed.

Lemma evolves_steps C t t' : inv t → rtc (wf_step C) t t' → evolves C t t'.
Proof.
  intros H. induction 1 as [|t1 t2 t3 H12 _ IH]; [done|].
  etrans; [by apply evolves_step|]. apply IH. by eapply inv_step.
Qed.
End model.
