(* ===== verification/WorkflowSim.v ===== *)
(** * The engine implements the specification: the simulation

    Every transaction body of [WorkflowEngine.v], when it succeeds, has moved the
    workflow tables by steps of [WorkflowModel.wf_step] over the rows its fence shows;
    what it does besides (expressions, the definition's own code, staging) leaves
    them alone. *)
From Stdlib Require Import ZArith Lia.
From S2P Require Import Prelude RustStr Float64 Json WorkflowExpr WorkflowExprFacts Database Outbox WriteHooks WorkflowSpec WorkflowStore WorkflowEngine WorkflowModel.

Local Open Scope Z_scope.

Section sim.
Context {L : Libs} {PG : Postgres} {R W : Type} {HO : HasOutbox R} {HW : World W} {TO : Tokio W}.
Context (eng : WorkflowEngine R W).
Abbreviation D := (St (Db R) W).
Abbreviation wf s := (db_wf (tables s)).

Implicit Types (s : D) (t : WfTables) (tx : Tx) (tk : Task).

(** ** What leaves the workflow tables alone *)

Definition same_wf : relation D := λ s s', wf s = wf s'.
#[export] Instance same_wf_preorder : PreOrder same_wf.
Proof. split; [done|]. intros ??? H1 H2. unfold same_wf in *. congruence. Qed.

Lemma keeps_wf_tables {E A} (m : sm D E A) : keeps same_tables m → keeps same_wf m.
Proof. intros H s. specialize (H s). unfold same_wf, same_tables in *. by rewrite H. Qed.
Lemma keeps_wf_point : keeps same_wf (sqlx_point (T:=Db R)).
Proof. apply keeps_wf_tables, keeps_point. Qed.
Lemma keeps_wf_utc_now {E} : keeps same_wf (utc_now (E:=E)).
Proof. apply keeps_wf_tables, keeps_utc_now. Qed.
Lemma keeps_wf_row_locked {E} : keeps same_wf (row_locked (E:=E)).
Proof. apply keeps_wf_tables, keeps_row_locked. Qed.
Lemma keeps_wf_pg_now {E} : keeps same_wf (pg_now (E:=E)).
Proof. apply keeps_wf_tables, keeps_pg_now. Qed.
Lemma keeps_wf_fresh_uuid {E} : keeps same_wf (fresh_uuid (E:=E)).
Proof. apply keeps_wf_tables, keeps_fresh_uuid. Qed.
Lemma keeps_wf_new_v4 s : same_wf s (new_v4 s).2.
Proof. pose proof (keeps_new_v4 s) as H. unfold same_wf, same_tables in *. by rewrite H. Qed.

Lemma keeps_wf_sql {A} (f : Db R → option (A * Db R)) :
  (∀ d a d', f d = Some (a, d') → db_wf d' = db_wf d) → keeps same_wf (sql f).
Proof.
  intros Hf s. change (wp (sql f) (λ _ s', same_wf s s') s). apply wp_sql; [done|].
  intros w a d' Hd. symmetry. by apply (Hf _ _ _ Hd).
Qed.
Lemma keeps_wf_wf_query {A} (f : WfTables → A) : keeps same_wf (wf_query (R:=R) f).
Proof. apply keeps_wf_sql. intros d a d' [= <- <-]. done. Qed.
Lemma keeps_wf_wf_query_opt {A} (f : WfTables → option A) :
  keeps same_wf (wf_query_opt (R:=R) f).
Proof. apply keeps_wf_sql. intros [t r] a d'. simpl. destruct (f t); intros H; [by injection H as <- <-|done]. Qed.
Lemma keeps_wf_on_rest {E A} (m : sm (St R W) E A) : keeps same_wf (on_rest m).
Proof. by apply keeps_zoom. Qed.
Lemma keeps_wf_ctx_stage tk ctx r : keeps same_wf (ctx_stage (T:=Db R) tk ctx r).
Proof.
  unfold ctx_stage, stage_in_write_tx, stage.
  destruct (wc_outbox_schema ctx); [|apply keeps_err, _].
  apply keeps_bind; [apply _| |intros; apply keeps_ret, _]. apply keeps_map_err.
  destruct (task_tx tk); [|apply keeps_err, _].
  apply keeps_bind; [apply _|apply keeps_lift, _|].
  intros ?. apply keeps_map_err, keeps_wf_sql.
  intros d b d'. unfold stage_stmt. by case_match; intros [= <- <-].
Qed.

Lemma keeps_wf_fn tk def ctx name args :
  keeps same_wf (fn_call (def_funcs tk def ctx) name args).
Proof. simpl. apply keeps_map_err, keeps_wf_on_rest. Qed.
End sim.
Create HintDb keepswf.
#[export] Hint Resolve keeps_ret keeps_err keeps_lift keeps_bind keeps_map_err
  keeps_attempt keeps_iter keeps_fold same_wf_preorder keeps_wf_point keeps_wf_utc_now
  keeps_wf_row_locked keeps_wf_pg_now keeps_wf_fresh_uuid keeps_wf_new_v4 keeps_wf_wf_query
  keeps_wf_wf_query_opt keeps_wf_on_rest keeps_wf_ctx_stage keeps_wf_fn keeps_eval keeps_holds
  keeps_render keeps_render_duration : keepswf.

(** Show that a computation leaves the workflow tables alone, by its syntax. *)
Ltac keeps_wf :=
  repeat first
    [ done
    | progress intros
    | apply same_wf_preorder
    | apply keeps_ret | apply keeps_err | apply keeps_lift
    | apply keeps_map_err | apply keeps_attempt
    | apply keeps_wf_point | apply keeps_wf_utc_now | apply keeps_wf_row_locked
    | apply keeps_wf_pg_now | apply keeps_wf_fresh_uuid | apply keeps_wf_new_v4
    | apply keeps_wf_wf_query | apply keeps_wf_wf_query_opt | apply keeps_wf_on_rest
    | apply keeps_wf_ctx_stage | apply keeps_wf_fn
    | apply keeps_eval | apply keeps_holds | apply keeps_render | apply keeps_render_duration
    | apply keeps_fold | apply keeps_iter
    | apply keeps_mapM; [..|apply Forall_forall]
    | apply keeps_bind
    | case_match ].

(** ** The engine's updates are moves *)
Section moves.
Context {L : Libs}.
Implicit Types (r : InstanceRow).

Lemma move_advanced now next context r :
  i_status r = "running" → move r (advanced now next context r).
Proof.
  intros Hs. split; [by split|]. split; [simpl; rewrite Hs; by_dec|].
  intros []. split; simpl; [done|done| | |].
  - intros _. by repeat split.
  - intros. congruence.
  - intros. congruence.
Qed.

Lemma move_waiting now event key due r :
  i_status r = "running" → (is_Some event ↔ is_Some key) → is_Some event ∨ is_Some due →
  move r (waiting now event key due r).
Proof.
  intros Hs Hk Hd. split; [by split|]. split; [simpl; rewrite Hs; by_dec|].
  intros [? ? Hr ? ?]. destruct (Hr Hs) as (_ & _ & ? & _).
  split; simpl; try done. by_dec.
Qed.

Lemma move_ended now status step error context r :
  i_status r = "running" →
  status ∈ ["completed"; "failed"; "expired"; "cancelled"; "compensating"] →
  move r (ended now status step error context r).
Proof.
  intros Hs Hin. split; [by split|]. split.
  - simpl. rewrite Hs. revert status Hin. apply (Forall_forall _ _); by_dec.
  - intros []. split; simpl; [|done| | |by repeat split].
    + revert status Hin. apply (Forall_forall _ _); by_dec.
    + intros ->. absurd_dec Hin.
    + intros ->. absurd_dec Hin.
Qed.

Lemma move_resumed now next context r :
  i_status r = "waiting" → move r (resumed now next context r).
Proof.
  intros Hs. split; [by split|]. split; [simpl; rewrite Hs; by_dec|].
  intros []. split; simpl; try done; by_dec.
Qed.

Lemma move_retrying now attempts message due r :
  i_status r = "running" → 0 ≤ attempts < i32_max →
  move r (retrying now attempts message due r).
Proof.
  intros Hs Ha. split; [by split|]. split; [simpl; rewrite Hs; by_dec|].
  intros [? ? Hr ? ?]. destruct (Hr Hs) as (? & ? & ? & _).
  split; simpl; [done|lia|by repeat split; try lia|congruence|congruence].
Qed.

Lemma move_failing now status attempts message r :
  i_status r = "running" → status ∈ ["failed"; "compensating"] → 0 ≤ attempts ≤ i32_max →
  move r (failing now status attempts message r).
Proof.
  intros Hs Hin Ha. split; [by split|]. split.
  - simpl. rewrite Hs. revert status Hin. apply (Forall_forall _ _); by_dec.
  - intros []. split; simpl; [|done| | |by repeat split].
    + revert status Hin. apply (Forall_forall _ _); by_dec.
    + intros ->. absurd_dec Hin.
    + intros ->. absurd_dec Hin.
Qed.

Lemma move_settled now status error r :
  i_status r ∈ ["compensating"; "failed"] → status ∈ ["compensated"; "failed"] →
  move r (settled now status error r).
Proof.
  intros Hs Hin. split; [by split|]. split.
  - simpl. revert status Hin. apply (Forall_forall _ _). revert Hs.
    generalize (i_status r). apply (Forall_forall _ _). by_dec.
  - intros [? ? ? ? Hq]. split; simpl; [|done|..].
    + revert status Hin. apply (Forall_forall _ _); by_dec.
    + intros ->. absurd_dec Hin.
    + intros ->. absurd_dec Hin.
    + intros _ _. apply Hq; intros E; rewrite E in Hs; absurd_dec Hs.
Qed.

Lemma move_expired now r : i_status r = "waiting" → move r (expired now r).
Proof.
  intros Hs. split; [by split|]. split; [simpl; rewrite Hs; by_dec|].
  intros []. split; simpl; try done; by_dec.
Qed.

Lemma move_touched_running now r : i_status r = "running" → move r (touched now None r).
Proof.
  intros Hs. split; [by split|]. split; [simpl; rewrite Hs; by_dec|].
  intros [? ? Hr ? ?]. split; simpl; try done; congruence.
Qed.

Lemma move_touched_compensating now r :
  i_status r = "compensating" → move r (touched now (i_wait_due_at r) r).
Proof.
  intros Hs. split; [by split|]. split; [simpl; rewrite Hs; by_dec|].
  intros []. split; simpl; done.
Qed.

Lemma move_cancelled now r : row_ok r → is_final r = false → move r (cancelled now r).
Proof.
  intros Hok Hf. apply bool_decide_eq_false in Hf. split; [by split|]. split.
  - simpl. pose proof (ok_status _ Hok) as Hs. revert Hs Hf. generalize (i_status r).
    apply (proj1 (Forall_forall (λ s, s ∉ FINAL → edge s "cancelled") STATUSES)). by_dec.
  - intros []. split; simpl; try done; by_dec.
Qed.
End moves.

Section bodies.
Context {L : Libs} {PG : Postgres} {R W : Type} {HO : HasOutbox R} {HW : World W} {TO : Tokio W}.
Context (eng : WorkflowEngine R W).
Abbreviation D := (St (Db R) W).
Abbreviation wf s := (db_wf (tables s)).

Implicit Types (s : D) (t : WfTables) (tx : Tx) (tk : Task).

Lemma keeps_wf_apply_outcome spec step inst o sc tk def ctx res :
  keeps same_wf (apply_outcome (R:=R) (W:=W) spec step inst o sc (def_funcs tk def ctx) res).
Proof. unfold apply_outcome, or_fail, bfail. keeps_wf. Qed.
Lemma keeps_wf_render_params step ps sc tk def ctx :
  keeps same_wf (render_params (R:=R) (W:=W) step ps sc (def_funcs tk def ctx)).
Proof. unfold render_params, or_fail. keeps_wf. Qed.
Lemma keeps_wf_action_record name id ps sc tk def ctx :
  keeps same_wf (action_record (R:=R) (W:=W) name id ps sc (def_funcs tk def ctx)).
Proof. unfold action_record, or_fail. keeps_wf. Qed.
Lemma keeps_wf_stage_event tk ctx w i e d :
  keeps same_wf (stage_event (R:=R) (W:=W) tk ctx w i e d).
Proof. unfold stage_event, new_record. keeps_wf. Qed.
Lemma keeps_wf_call_def tk def ctx step call :
  keeps same_wf (call_def (R:=R) (W:=W) tk def ctx step call).
Proof. unfold call_def. keeps_wf. Qed.
Lemma keeps_wf_perform_action tk def ctx step a e r v p inst :
  keeps same_wf (perform_action (R:=R) (W:=W) tk def ctx step a e r v p inst).
Proof.
  unfold perform_action, perform_emit_event, perform_notify, notification_record, new_record,
    staged, bfail.
  repeat case_match; keeps_wf; first [apply keeps_wf_stage_event|apply keeps_wf_call_def].
Qed.
Lemma keeps_wf_opt_duration step d sc tk def ctx :
  keeps same_wf (opt_duration (R:=R) (W:=W) step d sc (def_funcs tk def ctx)).
Proof. unfold opt_duration, or_fail. keeps_wf. Qed.

(** ** Statements over the workflow tables *)

Lemma wpo_rdb {A} (m : sm D DbError A) Ψ s : wpo m Ψ s → wpo (rdb m) Ψ s.
Proof. apply wpo_map_err. Qed.

Lemma wpo_wf_sql {A} (f : WfTables → option (A * WfTables)) (Ψ : A → D → Prop) s :
  (∀ a t s', f (wf s) = Some (a, t) → wf s' = t → Ψ a s') → wpo (wf_sql f) Ψ s.
Proof.
  intros H. apply wpo_of_wp. apply wp_sql; [done|].
  intros w a d. destruct (f (wf s)) as [[a' t]|] eqn:Hf; intros Heq; [|done].
  injection Heq as <- <-. by eapply H.
Qed.

Lemma wpo_wf_query {A} (f : WfTables → A) (Ψ : A → D → Prop) s :
  (∀ s', wf s' = wf s → Ψ (f (wf s)) s') → wpo (rdb (wf_query f)) Ψ s.
Proof. intros H. apply wpo_rdb, wpo_wf_sql. intros a t s' [= <- <-]. apply H. Qed.

Lemma wpo_wf_query_opt {A} (f : WfTables → option A) (Ψ : A → D → Prop) s :
  (∀ a s', f (wf s) = Some a → wf s' = wf s → Ψ a s') → wpo (rdb (wf_query_opt f)) Ψ s.
Proof.
  intros H. apply wpo_rdb, wpo_wf_sql. intros a t s'.
  destruct (f (wf s)) eqn:Hf; intros [=]; subst. by eapply H.
Qed.

Lemma wpo_write_tx tk tx (Ψ : Tx → D → Prop) s :
  task_tx tk = Some tx → Ψ tx s → wpo (write_tx tk) Ψ s.
Proof. intros H HΨ. unfold write_tx. rewrite H. by apply wpo_ret. Qed.

(** What a computation that leaves the tables alone is stepped over with. *)
Lemma wpo_skip {E A} (m : sm D E A) (Ψ : A → D → Prop) s :
  keeps same_wf m → (∀ a s', wf s' = wf s → Ψ a s') → wpo m Ψ s.
Proof. intros Hm H. apply (wpo_keeps same_wf); [done|]. intros a s' Hs. by apply H. Qed.

(** ** Reading a row, its log and its next number *)

Lemma sel_instance_Some tx id t r :
  sel_instance tx id t = Some r ↔
  wf_instances t !! id = Some r ∧ tx_company tx = Some (i_company_id r).
Proof.
  unfold sel_instance, visible. destruct (wf_instances t !! id) as [r'|]; [|naive_solver].
  case_bool_decide; naive_solver.
Qed.

Lemma log_of_log tx id t r :
  inv t → sel_instance tx id t = Some r → log_of tx id t = log id t.
Proof.
  intros Hinv [Hr Hc]%sel_instance_Some. unfold log_of, log, visible.
  apply list_filter_ext. intros s Hs. split; [by intros [? ?]|].
  intros <-. split; [done|]. rewrite bool_decide_eq_true.
  destruct (inv_log _ Hinv s Hs) as [_ (r' & Hr' & ->)]. congruence.
Qed.

Lemma foldr_max_seqZ x n : 0 ≤ x → foldr Z.max x (seqZ (x + 1) n) = x + Z.max 0 n.
Proof.
  intros Hx. destruct (Z.le_gt_cases n 0) as [Hn|Hn]; [rewrite seqZ_nil by done; simpl; lia|].
  assert (∀ (k : nat) a, x ≤ a →
    foldr Z.max x (seqZ a (Z.of_nat k)) = if decide (k = 0%nat) then x else a + Z.of_nat k - 1) as H.
  { induction k as [|k IH]; intros a Ha; [done|].
    rewrite seqZ_cons by lia. simpl.
    replace (Z.pred (Z.of_nat (S k))) with (Z.of_nat k) by lia.
    rewrite IH by lia. destruct (decide (k = 0%nat)); lia. }
  specialize (H (Z.to_nat n) (x + 1)). rewrite Z2Nat.id in H by lia. rewrite H by lia.
  rewrite decide_False; lia.
Qed.

Lemma next_seq_log tx id t r seq :
  inv t → sel_instance tx id t = Some r → sel_next_seq tx id t = Some seq →
  seq = Z.of_nat (length (log id t)) + 1.
Proof.
  intros Hinv Hr. unfold sel_next_seq. rewrite (log_of_log _ _ _ _ Hinv Hr), (inv_seq _ Hinv).
  set (n := length (log id t)). destruct n as [|n].
  { simpl. by intros [= <-]. }
  rewrite seqZ_cons by lia. replace (Z.pred (Z.of_nat (S n))) with (Z.of_nat n) by lia.
  change (Z.succ 1) with (1 + 1). rewrite foldr_max_seqZ by lia.
  case_match; intros [= <-]. lia.
Qed.

(** The rows a transaction may touch. *)
Definition mine tx : uuid → Prop := λ c, tx_company tx = Some c.

Lemma ins_step_step tx t t' row r u :
  sel_instance tx (s_instance row) t = Some r →
  s_company row = i_company_id r →
  s_seq row = Z.of_nat (length (log (s_instance row) t)) + 1 →
  s_outcome row ∈ OUTCOMES →
  (s_outcome row = "compensated" → ¬ undone (s_step row) (log (s_instance row) t)) →
  ins_step tx row t = Some (u, t') →
  t' = mkWf (wf_instances t) (wf_steps t ++ [row]) ∧ wf_step (mine tx) t t'.
Proof.
  intros [Hr Hc]%sel_instance_Some Hco Hseq Ho Hu. unfold ins_step.
  case_match; intros [= <- <-]. split; [done|]. by eapply wf_log.
Qed.

Lemma upd_instance_step tx id t t' r f u :
  sel_instance tx id t = Some r → (∀ r', f r = Some r' → move r r') →
  upd_instance tx id f t = Some (u, t') →
  ∃ r', f r = Some r' ∧ t' = mkWf (<[id := r']> (wf_instances t)) (wf_steps t) ∧
        wf_step (mine tx) t t'.
Proof.
  intros Hr Hf. unfold upd_instance. rewrite Hr. apply sel_instance_Some in Hr as [Hr Hc].
  destruct (f r) as [r'|] eqn:Hfr; [|done]. case_bool_decide; intros [= <- <-].
  exists r'. split; [done|]. split; [done|]. eapply wf_move; eauto.
Qed.

(** ** Committing: a line of the log, then the row *)

Definition to C t : ∀ {A}, A → D → Prop := λ _ _ s', rtc (wf_step C) t (wf s').
Arguments to C t {A} _ _ /.

Section commit.
Context (tx : Tx) (inst : InstanceRow) (t : WfTables).
Hypothesis Hinv : inv t.
Hypothesis Hinst : sel_instance tx (i_id inst) t = Some inst.

Lemma wpo_update f s :
  wf s = t → (∀ r', f inst = Some r' → move inst r') →
  wpo (update (R:=R) tx (i_id inst) f) (to (mine tx) t) s.
Proof.
  intros Hs Hf. apply wpo_rdb, wpo_wf_sql. rewrite Hs. intros [] t' s' Ht' Hs'. simpl.
  destruct (upd_instance_step _ _ _ _ _ _ _ Hinst Hf Ht') as (r' & _ & _ & Hst).
  rewrite Hs'. by apply rtc_once.
Qed.

Lemma wpo_update_gen f (Ψ : unit → D → Prop) s :
  wf s = t → (∀ r', f inst = Some r' → move inst r') →
  (∀ r' s', wf s' = mkWf (<[i_id inst := r']> (wf_instances t)) (wf_steps t) →
     f inst = Some r' → wf_step (mine tx) t (wf s') → Ψ tt s') →
  wpo (update (R:=R) tx (i_id inst) f) Ψ s.
Proof.
  intros Hs Hf HΨ. apply wpo_rdb, wpo_wf_sql. rewrite Hs. intros [] t' s' Ht' Hs'.
  destruct (upd_instance_step _ _ _ _ _ _ _ Hinst Hf Ht') as (r' & Hfr & Heq & Hst).
  apply (HΨ r'); [congruence|done|by rewrite Hs'].
Qed.

Lemma wpo_log_step seq step outcome error (Ψ : unit → D → Prop) s :
  wf s = t → sel_next_seq tx (i_id inst) t = Some seq → outcome ∈ OUTCOMES →
  (outcome = "compensated" → ¬ undone step (log (i_id inst) t)) →
  (∀ t' s', wf_instances t' = wf_instances t → wf_step (mine tx) t t' → wf s' = t' → Ψ tt s') →
  wpo (log_step (R:=R) tx inst seq step outcome error) Ψ s.
Proof.
  intros Hs Hseq Ho Hu HΨ. apply wpo_rdb, wpo_wf_sql. rewrite Hs. intros [] t' s' Ht' Hs'.
  destruct (ins_step_step tx t t' (mkStepRow (i_id inst) (i_company_id inst)
    (i_org_unit_id inst) seq step outcome error) inst tt Hinst eq_refl
    (next_seq_log _ _ _ _ _ Hinv Hinst Hseq) Ho Hu Ht') as [Heq Hst].
  apply (HΨ t' s'); [by rewrite Heq|exact Hst|exact Hs'].
Qed.

(** The row is there after the line. *)
Lemma wpo_log_update {A} seq step outcome error f (a : A) s :
  wf s = t → sel_next_seq tx (i_id inst) t = Some seq → outcome ∈ OUTCOMES →
  outcome ≠ "compensated" → (∀ r', f inst = Some r' → move inst r') →
  wpo (_ ← log_step (R:=R) tx inst seq step outcome error;
       _ ← update tx (i_id inst) f; mret a) (to (mine tx) t) s.
Proof.
  intros Hs Hseq Ho Hc Hf. apply wpo_bind.
  eapply wpo_log_step; [exact Hs|exact Hseq|exact Ho|intros ?; by destruct Hc|]. intros t' s' Hi Hst Hs'.
  apply wpo_bind, wpo_rdb, wpo_wf_sql. rewrite Hs'. intros [] t'' s'' Ht'' Hs''.
  apply wpo_ret. simpl.
  assert (sel_instance tx (i_id inst) t' = Some inst) as Hinst'.
  { apply sel_instance_Some. rewrite Hi. by apply sel_instance_Some. }
  destruct (upd_instance_step _ _ _ _ _ _ _ Hinst' Hf Ht'') as (r' & _ & _ & Hst').
  rewrite Hs''. eapply rtc_l; [done|]. by apply rtc_once.
Qed.

(** Whatever follows the line runs on tables that have it. *)
Lemma wpo_log_then {A} seq step outcome error (m : sm D RunError A) s :
  wf s = t → sel_next_seq tx (i_id inst) t = Some seq → outcome ∈ OUTCOMES →
  outcome ≠ "compensated" →
  (∀ t' s', inv t' → sel_instance tx (i_id inst) t' = Some inst → wf s' = t' →
     wpo m (to (mine tx) t') s') →
  wpo (_ ← log_step (R:=R) tx inst seq step outcome error; m) (to (mine tx) t) s.
Proof.
  intros Hs Hseq Ho Hc Hm. apply wpo_bind.
  eapply wpo_log_step; [exact Hs|exact Hseq|exact Ho|intros ?; by destruct Hc|].
  intros t' s' Hi Hst Hs'. eapply wpo_mono; [apply (Hm t'); [by eapply inv_step| |done]|].
  - apply sel_instance_Some. rewrite Hi. by apply sel_instance_Some.
  - simpl. intros _ s'' H. by eapply rtc_l.
Qed.
End commit.

(** ** One step *)

Record frame_ok (fr : Frame (R:=R) (W:=W)) t : Prop := {
  fo_inv : inv t;
  fo_inst : sel_instance (fr_tx fr) (i_id (fr_inst fr)) t = Some (fr_inst fr);
  fo_running : i_status (fr_inst fr) = "running";
  fo_seq : sel_next_seq (fr_tx fr) (i_id (fr_inst fr)) t = Some (fr_seq fr);
}.

Section frame.
Context (fr : Frame (R:=R) (W:=W)) (t : WfTables).
Hypothesis Hfr : frame_ok fr t.
Abbreviation reached := (to (mine (fr_tx fr)) t).

Lemma wpo_fr_advance outcome cn s :
  wf s = t → outcome ∈ OUTCOMES → outcome ≠ "compensated" →
  wpo (_ ← fr_log fr outcome None; fr_advance fr cn) reached s.
Proof.
  destruct Hfr. intros Hs Ho Hc. unfold fr_log, fr_advance, advance.
  apply wpo_log_update; [done..|]. intros r' [= <-]. by apply move_advanced.
Qed.

Lemma wpo_run_skip s : wf s = t → wpo (run_skip fr) reached s.
Proof.
  intros Hs. unfold run_skip. destruct (match st_kind _ with KAction _ _ _ _ _ _ => _ | _ => _ end);
    [|apply wpo_err].
  apply wpo_bind, wpo_skip; [apply keeps_wf_apply_outcome|]. intros cn s1 Hs1.
  apply wpo_fr_advance; [congruence|by_dec|done].
Qed.

Lemma wpo_run_success o v s : wf s = t → wpo (run_success fr o v) reached s.
Proof.
  intros Hs. unfold run_success.
  apply wpo_bind, wpo_skip; [apply keeps_wf_apply_outcome|]. intros cn s1 Hs1.
  apply wpo_fr_advance; [congruence|by_dec|done].
Qed.

Lemma wpo_run_action a e i ps o s : wf s = t → wpo (run_action fr a e i ps o) reached s.
Proof.
  intros Hs. unfold run_action.
  apply wpo_bind, wpo_skip; [apply keeps_wf_render_params|]. intros v s1 Hs1.
  apply wpo_bind, wpo_skip; [apply keeps_wf_action_record|]. intros rid s2 Hs2.
  apply wpo_bind, wpo_skip; [apply keeps_wf_perform_action|]. intros res s3 Hs3.
  apply wpo_run_success. congruence.
Qed.

Lemma wpo_run_transition e i vb ps o s : wf s = t → wpo (run_transition fr e i vb ps o) reached s.
Proof.
  intros Hs. unfold run_transition.
  apply wpo_bind, wpo_skip; [apply keeps_wf_render_params|]. intros v s1 Hs1.
  apply wpo_bind, wpo_skip; [unfold or_fail; keeps_wf|]. intros rid s2 Hs2.
  destruct (is_null rid); [apply wpo_err|].
  apply wpo_bind, wpo_skip; [apply keeps_wf_call_def|]. intros res s3 Hs3.
  apply wpo_run_success. congruence.
Qed.

Lemma wpo_run_condition bs s : wf s = t → wpo (run_condition fr bs) reached s.
Proof.
  revert s. induction bs as [|b bs IH]; intros s Hs; simpl; [apply wpo_err|].
  apply wpo_bind, wpo_skip; [unfold or_fail; keeps_wf|]. intros [] s1 Hs1.
  - apply wpo_bind, wpo_skip; [apply keeps_wf_apply_outcome|]. intros cn s2 Hs2.
    apply wpo_fr_advance; [congruence|by_dec|done].
  - apply IH. congruence.
Qed.

Lemma wpo_run_wait ev ks d s : wf s = t → wpo (run_wait fr ev ks d) reached s.
Proof.
  intros Hs. unfold run_wait. destruct (negb _); [apply wpo_err|].
  apply wpo_bind. eapply (wpo_mono _ (λ (k : option string) s', wf s' = t ∧ (is_Some ev ↔ is_Some k))).
  { destruct ev as [ev|]; [|apply wpo_ret; split; [done|by rewrite !is_Some_alt]].
    apply wpo_bind, wpo_skip; [unfold or_fail; keeps_wf|]. intros vs s1 Hs1.
    apply wpo_ret. split; [congruence|]. by split; intros _; eexists. }
  intros k s1 [Hs1 Hk]. apply wpo_bind, wpo_skip; [apply keeps_wf_opt_duration|].
  intros due s2 Hs2.
  enough (is_Some ev ∨ is_Some due →
    wpo (_ ← fr_log fr "waiting" None;
         _ ← update (fr_tx fr) (i_id (fr_inst fr)) (λ r,
            at_ ← due_at (tx_now (fr_tx fr)) due;
            Some (waiting (tx_now (fr_tx fr)) ev k at_ r));
         mret Paused) reached s2) as Hgo.
  { destruct ev, due; [by apply Hgo; eauto..|apply wpo_err]. }
  intros Hd. destruct Hfr. unfold fr_log. apply wpo_log_update; [done|done|congruence|done|by_dec|done|].
  intros r'. destruct (due_at _ due) as [at_|] eqn:Hat; simpl; [|done]. intros [= <-].
  apply move_waiting; [done|done|]. destruct Hd as [?|[secs ->]]; [by left|right].
  simpl in Hat. destruct (pg_after _ _); [|done]. injection Hat as <-. done.
Qed.

Lemma wpo_run_terminal st re em c rs s : wf s = t → wpo (run_terminal fr st re em c rs) reached s.
Proof.
  intros Hs. unfold run_terminal.
  apply wpo_bind, wpo_skip; [unfold or_fail; keeps_wf|]. intros ctx s1 Hs1.
  apply wpo_bind, wpo_skip; [unfold or_fail, staged; keeps_wf; apply keeps_wf_stage_event|].
  intros [] s2 Hs2.
  apply wpo_bind, wpo_skip; [unfold or_fail; keeps_wf|]. intros txt s3 Hs3. simpl.
  destruct Hfr. unfold fr_log. apply wpo_log_update; [done|done|congruence|done|by_dec|done|].
  intros r' [= <-]. apply move_ended; [done|].
  destruct (c && _ && _); [by_dec|]. destruct st; by_dec.
Qed.

Lemma wpo_run_kind s : wf s = t → wpo (run_kind fr) reached s.
Proof.
  intros Hs. unfold run_kind. destruct (st_kind _);
    [by apply wpo_run_action|by apply wpo_run_transition|by apply wpo_run_condition
    |by apply wpo_run_wait|by apply wpo_run_terminal].
Qed.
End frame.

(** ** The transactions' bodies *)

Section tx_bodies.
Context (tk : Task) (tx : Tx).
Hypothesis Htx : task_tx tk = Some tx.
Abbreviation ok m := (∀ s, inv (wf s) → wpo m (to (mine tx) (wf s)) s).

(** A body that begins by locking an instance. *)
Lemma wpo_lock {A} id (f : Tx → option InstanceRow → sm D RunError A) s :
  inv (wf s) →
  (∀ s', wf s' = wf s → wpo (f tx None) (to (mine tx) (wf s)) s') →
  (∀ inst s', wf s' = wf s → i_id inst = id → sel_instance tx (i_id inst) (wf s) = Some inst →
     row_ok inst → wpo (f tx (Some inst)) (to (mine tx) (wf s)) s') →
  wpo (tx ← write_tx tk; inst ← lock tx id; f tx inst) (to (mine tx) (wf s)) s.
Proof.
  intros Hinv Hn Hf. apply wpo_bind, (wpo_write_tx _ tx); [done|].
  apply wpo_bind, wpo_wf_query. intros s' Hs'.
  destruct (sel_instance tx id (wf s)) as [inst|] eqn:E; [|by apply Hn].
  pose proof E as [Hr _]%sel_instance_Some. apply (inv_row _ Hinv) in Hr as [<- Hok].
  by apply Hf.
Qed.

Lemma wpo_run_one def id : ok (run_one eng tk def id).
Proof.
  intros s Hinv. unfold run_one.
  apply wpo_lock; [done|intros s' Hs'; apply wpo_ret; simpl; by rewrite Hs'|].
  intros inst s0 Hs0 <- Hsel Hok.
  case_bool_decide as Hst; simpl; [|apply wpo_ret; simpl; by rewrite Hs0].
  destruct (i_current_step inst) as [name|]; [|apply wpo_err].
  destruct (spec_step _ name) as [step|]; [|apply wpo_err].
  apply wpo_bind, wpo_wf_query. intros s1 Hs1.
  apply wpo_bind, wpo_wf_query_opt. intros seq s2 Hseq Hs2.
  apply wpo_bind, wpo_skip; [keeps_wf|]. intros now s3 Hs3. simpl.
  apply wpo_bind, wpo_skip; [unfold or_fail; keeps_wf|]. intros runs s4 Hs4.
  destruct runs; [apply wpo_run_kind|apply wpo_run_skip]; try congruence;
    split; simpl; congruence.
Qed.

Lemma wpo_leave_wait def inst step o label ev ctx s :
  inv (wf s) → sel_instance tx (i_id inst) (wf s) = Some inst → i_status inst = "waiting" →
  label ∈ OUTCOMES → label ≠ "compensated" →
  wpo (leave_wait tk def tx inst step o label ev ctx) (λ _ s',
    rtc (wf_step (mine tx)) (wf s) (wf s') ∧
    ∀ id, id ≠ i_id inst → wf_instances (wf s') !! id = wf_instances (wf s) !! id) s.
Proof.
  intros Hinv Hsel Hst Ho Hc. unfold leave_wait.
  apply wpo_bind, wpo_wf_query. intros s1 Hs1.
  apply wpo_bind, wpo_skip; [keeps_wf|]. intros now s2 Hs2.
  apply wpo_bind, wpo_skip; [apply keeps_wf_apply_outcome|]. intros cn s3 Hs3.
  apply wpo_bind, wpo_wf_query_opt. intros seq s4 Hseq Hs4.
  apply wpo_bind. eapply (wpo_log_step tx inst (wf s));
    [done|done|congruence|rewrite <- Hseq; congruence|done|done|].
  intros t' s' Hi Hst' Hs'. apply (wpo_update_gen tx inst t'); [|done| |].
  - apply sel_instance_Some. rewrite Hi. by apply sel_instance_Some.
  - intros r' [= <-]. by apply move_resumed.
  - intros r' s'' Hs'' _ Hst''. split; [eapply rtc_l; [done|]; by apply rtc_once|].
    intros id Hid. rewrite Hs''. simpl. rewrite lookup_insert_ne by done. by rewrite Hi.
Qed.

Lemma wpo_route_failure def inst f o t s :
  inv t → sel_instance tx (i_id inst) t = Some inst → i_status inst = "running" → wf s = t →
  wpo (route_failure eng tk def tx inst f o) (to (mine tx) t) s.
Proof.
  intros Hinv Hsel Hst Hs. unfold route_failure.
  apply wpo_bind, wpo_wf_query. intros s1 Hs1.
  apply wpo_bind, wpo_skip; [keeps_wf|]. intros now s2 Hs2.
  apply wpo_bind, wpo_skip; [apply keeps_wf_apply_outcome|]. intros cn s3 Hs3.
  apply wpo_bind. eapply wpo_mono;
    [eapply (wpo_update tx inst); [exact Hsel|congruence|]|intros ? s' H; by apply wpo_ret].
  intros r' [= <-]. by apply move_advanced.
Qed.

Lemma wpo_judge_failure def id f : ok (judge_failure eng tk def id f).
Proof.
  intros s Hinv. unfold judge_failure. apply wpo_lock; [done|intros s' Hs'; apply wpo_ret; simpl; by rewrite Hs'|].
  intros inst s0 Hs0 <- Hsel Hok.
  case_bool_decide as Hst; simpl; [|apply wpo_ret; simpl; by rewrite Hs0].
  apply wpo_bind, wpo_wf_query_opt. intros seq s1 Hseq Hs1.
  apply wpo_log_then; [done|done|congruence|congruence|by_dec|done|].
  intros t' s2 Hinv' Hsel' Hs2.
  destruct (ok_running _ Hok Hst) as (_ & _ & _ & Ha). pose proof (ok_attempts _ Hok) as Ha'.
  assert (i32_checked_add (i_attempts inst) 1 = Some (i_attempts inst + 1)) as ->.
  { unfold i32_checked_add, i32_min, i32_max in *. case_match; [done|]. lia. }
  apply wpo_bind, wpo_ret.
  destruct (failure_route _ _ _ _ _) as [d|o|] eqn:Hroute.
  - apply wpo_bind. eapply wpo_mono;
      [eapply (wpo_update tx inst); [exact Hsel'|done|]|intros ? s' H; by apply wpo_ret].
    intros r' Hr'. destruct (pg_after _ d) as [due|]; [|done]. injection Hr' as <-.
    apply move_retrying; [done|]. split; [lia|].
    assert (i_attempts inst + 1 < as_i32 (max_attempts (retry_of eng
      (default failure_default (spec_step (wd_spec def) (sf_step f) ≫= st_on_failure)) (wd_spec def)))).
    { revert Hroute. unfold failure_route, route_of.
      repeat case_match; try done; intros _; by apply Z.ltb_lt. }
    pose proof (as_i32_range (max_attempts (retry_of eng
      (default failure_default (spec_step (wd_spec def) (sf_step f) ≫= st_on_failure)) (wd_spec def)))).
    lia.
  - by apply wpo_route_failure.
  - apply wpo_bind. eapply wpo_mono;
      [eapply (wpo_update tx inst); [exact Hsel'|done|]|intros ? s' H; by apply wpo_ret].
    intros r' [= <-]. apply move_failing; [done|case_match; by_dec|lia].
Qed.

(** ** Compensation *)

Lemma sel_compensated_none inst label t :
  inv t → sel_instance tx (i_id inst) t = Some inst →
  sel_compensated tx (i_id inst) label t <= 0 → ¬ undone label (log (i_id inst) t).
Proof.
  intros Hinv Hsel Hz (x & Hx & Hl & Ho). unfold sel_compensated in Hz.
  rewrite (log_of_log _ _ _ _ Hinv Hsel) in Hz.
  assert (x ∈ filter (λ l : StepRow, s_step l = label ∧ s_outcome l = "compensated") (log (i_id inst) t))
    as Hin by by apply list_elem_of_filter.
  destruct (filter _ _); [by apply not_elem_of_nil in Hin|simpl in Hz; lia].
Qed.

Lemma wpo_compensate_one def id comp label : ok (compensate_one eng tk def id comp label).
Proof.
  intros s Hinv. unfold compensate_one.
  apply wpo_lock; [done|intros s' Hs'; apply wpo_ret; simpl; by rewrite Hs'|].
  intros inst s0 Hs0 <- Hsel Hok.
  destruct (negb _); [apply wpo_ret; simpl; by rewrite Hs0|].
  apply wpo_bind, wpo_wf_query. intros s1 Hs1.
  destruct (0 <? _) eqn:Hz; [apply wpo_ret; simpl; by rewrite Hs1, Hs0|].
  apply Z.ltb_ge in Hz. rewrite Hs0 in Hz. unfold compensate_do.
  apply wpo_bind, wpo_wf_query. intros s2 Hs2.
  apply wpo_bind, wpo_skip; [keeps_wf|]. intros now s3 Hs3. simpl.
  apply wpo_bind, wpo_skip; [unfold or_fail; keeps_wf|]. intros runs s4 Hs4.
  destruct runs; simpl; [|apply wpo_ret; simpl; by rewrite Hs4, Hs3, Hs2, Hs1, Hs0].
  apply wpo_bind, wpo_skip; [apply keeps_wf_render_params|]. intros v s5 Hs5.
  apply wpo_bind, wpo_skip; [apply keeps_wf_action_record|]. intros rid s6 Hs6.
  apply wpo_bind, wpo_skip; [apply keeps_wf_perform_action|]. intros res s7 Hs7.
  apply wpo_bind, wpo_wf_query_opt. intros seq s8 Hseq Hs8.
  apply wpo_bind. eapply (wpo_log_step tx inst (wf s));
    [done|done|congruence|rewrite <- Hseq; congruence|by_dec| |].
  - intros _. by apply sel_compensated_none.
  - intros t' s' _ Hst Hs'. apply wpo_ret. simpl. rewrite Hs'. by apply rtc_once.
Qed.

Lemma wpo_log_compensation_failure id label message :
  ok (log_compensation_failure tk id label message).
Proof.
  intros s Hinv. unfold log_compensation_failure.
  apply wpo_lock; [done|intros s' Hs'; apply wpo_ret; simpl; by rewrite Hs'|].
  intros inst s0 Hs0 <- Hsel Hok.
  apply wpo_bind, wpo_wf_query_opt. intros seq s1 Hseq Hs1.
  eapply (wpo_log_step tx inst (wf s)); [done|done|congruence|rewrite <- Hseq; congruence|by_dec|done|].
  intros t' s' _ Hst Hs'. simpl. rewrite Hs'. by apply rtc_once.
Qed.

Lemma compensation_result_status failures pending :
  (compensation_result failures pending).1 ∈ ["compensated"; "failed"].
Proof. destruct failures, pending; by_dec. Qed.

Lemma wpo_settle_compensation id failures : ok (settle_compensation tk id failures).
Proof.
  intros s Hinv. unfold settle_compensation.
  apply wpo_lock; [done|intros s' Hs'; apply wpo_ret; simpl; by rewrite Hs'|].
  intros inst s0 Hs0 <- Hsel Hok.
  case_bool_decide as Hst; simpl; [|apply wpo_ret; simpl; by rewrite Hs0].
  apply wpo_bind, wpo_wf_query. intros s1 Hs1.
  pose proof (compensation_result_status failures (sel_pending_compensation tx (i_id inst) (wf s0))) as Hr.
  destruct (compensation_result _ _) as [status error].
  eapply (wpo_update tx inst); [done|congruence|].
  intros r' [= <-]. by apply move_settled.
Qed.

(** ** Cancelling and claiming *)

Lemma wpo_cancel_tx id : ok (cancel_tx tk id).
Proof.
  intros s Hinv. unfold cancel_tx.
  apply wpo_lock; [done|intros s' Hs'; apply wpo_ret; simpl; by rewrite Hs'|].
  intros inst s0 Hs0 <- Hsel Hok.
  destruct (is_final inst) eqn:Hf; [apply wpo_ret; simpl; by rewrite Hs0|].
  apply wpo_bind, wpo_wf_query_opt. intros seq s1 Hseq Hs1.
  apply wpo_log_update; [done|done|congruence|rewrite <- Hseq; congruence|by_dec|done|].
  intros r' [= <-]. by apply move_cancelled.
Qed.

Lemma wpo_claim_due def id : ok (claim_due eng tk def id).
Proof.
  intros s Hinv. unfold claim_due.
  apply wpo_bind, (wpo_write_tx _ tx); [done|].
  apply wpo_bind, wpo_wf_query_opt. intros found s0 Hfound Hs0.
  apply wpo_bind, wpo_skip; [keeps_wf|]. intros held s1 Hs1.
  destruct (if held then None else found) as [inst|] eqn:Hin;
    [|apply wpo_ret; simpl; by rewrite Hs1, Hs0].
  destruct held; [done|]. subst found.
  assert (sel_instance tx (i_id inst) (wf s) = Some inst ∧ row_ok inst) as [Hsel Hok].
  { unfold sel_claim in Hfound. destruct (pg_before _ _); [|done].
    destruct (sel_instance tx id (wf s)) as [r|] eqn:E; [|done].
    destruct (due_predicate _ _ r); [|done]. injection Hfound as <-.
    pose proof E as [Hr _]%sel_instance_Some. apply (inv_row _ Hinv) in Hr as [<- Hok]. done. }
  apply wpo_bind, wpo_skip; [keeps_wf|]. intros now s2 Hs2. simpl.
  assert (wf s2 = wf s) as Hs by congruence.
  case_bool_decide as Hw.
  { destruct (passed _ _).
    - unfold claim_timed_out. destruct (i_current_step inst ≫= _) as [step|]; [|apply wpo_err].
      destruct (st_kind step); try apply wpo_err.
      apply wpo_bind. eapply wpo_mono;
        [apply wpo_leave_wait; rewrite ?Hs; [done..|by_dec|done]|].
      intros [] s3 [H _]. apply wpo_ret. simpl. by rewrite <- Hs.
    - unfold claim_expired. apply wpo_bind, wpo_wf_query_opt. intros seq s3 Hseq Hs3.
      apply wpo_log_update; [done|done|congruence|rewrite <- Hseq; congruence|by_dec|done|].
      intros r' [= <-]. by apply move_expired. }
  case_bool_decide as Hr.
  { apply wpo_bind. eapply wpo_mono;
      [eapply (wpo_update tx inst); [exact Hsel|done|]|intros ? s' H; by apply wpo_ret].
    intros r' [= <-]. by apply move_touched_running. }
  case_bool_decide as Hc; [|apply wpo_ret; simpl; by rewrite Hs].
  apply wpo_bind. eapply wpo_mono;
    [eapply (wpo_update tx inst); [exact Hsel|done|]|intros ? s' H; by apply wpo_ret].
  intros r' [= <-]. by apply move_touched_compensating.
Qed.
End tx_bodies.

(** ** Transactions *)

(** What a computation does to the workflow tables is steps over rows of [C]. *)
Definition reach (C : uuid → Prop) : relation D := λ s s',
  inv (wf s) → rtc (wf_step C) (wf s) (wf s').
#[export] Instance reach_preorder C : PreOrder (reach C).
Proof.
  split; [by intros s _|]. intros s1 s2 s3 H12 H23 Hinv. etrans; [by apply H12|].
  apply H23. eapply inv_steps; [done|]. by apply H12.
Qed.

Lemma reach_same C s s' : same_wf s s' → reach C s s'.
Proof. intros H _. rewrite H. done. Qed.
Lemma keeps_reach C {E A} (m : sm D E A) : keeps same_wf m → keeps (reach C) m.
Proof. intros H s. apply reach_same, H. Qed.
Lemma rtc_wf_step_mono (C C' : uuid → Prop) t t' :
  (∀ c, C c → C' c) → rtc (wf_step C) t t' → rtc (wf_step C') t t'.
Proof. intros H. apply rtc_subrel. intros ??. by apply wf_step_mono. Qed.

(** Whose rows a transaction of the task sees. *)
Definition tx_of tk tx : Prop :=
  task_tx tk = Some tx ∨ task_tx tk = None ∧ ∃ now, tx = tx_at (task_fence tk) now.

Lemma keeps_in_write_tx C {A} tk (f : Task → sm D RunError A) :
  (∀ tx, tx_of tk tx → (∀ c, mine tx c → C c) ∧
     ∀ s, inv (wf s) → wpo (f (with_tx tk tx)) (to (mine tx) (wf s)) s) →
  keeps (reach C) (in_write_tx run_of_db tk f).
Proof.
  intros Hf s Hinv.
  change (wp (in_write_tx run_of_db tk f) (λ _ s', rtc (wf_step C) (wf s) (wf s')) s).
  apply wp_in_write_tx; [done|]. intros tx w Htx. destruct (Hf tx Htx) as [HC Hbody].
  eapply wp_mono; [apply wp_of_wpo, Hbody; done|].
  intros [a|e|] s'; simpl; [|done..]. intros H _. by eapply rtc_wf_step_mono.
Qed.

(** The company a tenant's transactions act for: the tenant's own, unless the task is
    already inside a transaction or on a request's connection. *)
Definition acting tk (tn : Tenant) : option uuid :=
  match task_tx tk with
  | Some tx => tx_company tx
  | None =>
      match tn_unit tn, task_conn tk with
      | None, Some fence => fence.1
      | _, _ => Some (tn_company tn)
      end
  end.

Lemma keeps_scoped C {E A} (from : DbError → E) tk tn (work : Task → sm D E A) :
  (∀ tk', task_tx tk' = task_tx tk →
     (∀ tx c, tx_of tk' tx → mine tx c → acting tk tn = Some c) → keeps (reach C) (work tk')) →
  keeps (reach C) (scoped from tk tn work).
Proof.
  intros Hw. unfold scoped. destruct (tn_unit tn) as [u|] eqn:Hu.
  - apply keeps_bind; [apply _| |].
    { case_match; [apply keeps_ret, _|]. apply keeps_map_err, keeps_reach, keeps_wf_point. }
    intros ?. apply Hw; [done|]. intros tx c Htx Hc. unfold acting. rewrite Hu.
    destruct Htx as [Htx|[Htx [now ->]]]; simpl in Htx; rewrite Htx; done.
  - apply Hw; [done|]. intros tx c Htx Hc. unfold acting. rewrite Hu.
    destruct Htx as [Htx|[Htx [now ->]]]; simpl in Htx; rewrite Htx; [done|].
    unfold mine, tx_at, task_fence in Hc. simpl in Hc. by destruct (task_conn tk).
Qed.

Lemma keeps_scoped_tx (C : uuid → Prop) {A} tk tn (work : Task → sm D RunError A) :
  (∀ c, acting tk tn = Some c → C c) →
  (∀ tk' tx, task_tx tk' = Some tx → ∀ s, inv (wf s) → wpo (work tk') (to (mine tx) (wf s)) s) →
  keeps (reach C) (scoped_tx tk tn work).
Proof.
  intros HC Hw. apply keeps_scoped. intros tk' _ Htk. apply keeps_in_write_tx.
  intros tx Htx. split; [|by apply Hw]. intros c Hc. apply HC. by eapply Htk.
Qed.

Lemma wpo_from {A E} C (m : sm D E A) t t' s :
  rtc (wf_step C) t t' → wpo m (to C t') s → wpo m (to C t) s.
Proof. intros H Hm. eapply wpo_mono; [exact Hm|]. simpl. intros _ s' ?. by etrans. Qed.

(** ** A flow without persistence *)
Section inline.
Context (tk : Task) (tx : Tx).
Hypothesis Htx : task_tx tk = Some tx.

Lemma wpo_inline_failure id f next s :
  inv (wf s) →
  (∀ r, sel_instance tx id (wf s) = Some r → i_status r = "running") →
  wpo (inline_failure tk id f next) (to (mine tx) (wf s)) s.
Proof.
  intros Hinv Hrun. unfold inline_failure.
  apply (wpo_lock tk tx); [done..|intros s' Hs'; apply wpo_ret; simpl; by rewrite Hs'|].
  intros inst s0 Hs0 <- Hsel Hok.
  apply wpo_bind, wpo_wf_query_opt. intros seq s1 Hseq Hs1.
  apply wpo_log_then; [done|done|congruence|rewrite <- Hseq; congruence|by_dec|done|].
  intros t' s' _ Hsel' Hs'. eapply (wpo_update tx inst); [done|done|].
  intros r' [= <-]. by apply move_advanced, Hrun.
Qed.

(** A step fails of its own only where the instance runs. *)
Lemma wp_run_one_failure def id s :
  wp (run_one eng tk def id) (λ r _, match r with
    | Err (RFailure _) => ∃ inst, sel_instance tx id (wf s) = Some inst ∧ i_status inst = "running"
    | _ => True end) s.
Proof.
  unfold run_one, write_tx. rewrite Htx. apply wp_bind, wp_ret, wp_bind, wp_map_err.
  apply wp_sql; [done|]. intros w a d [= <- <-]. simpl.
  destruct (sel_instance tx id (wf s)) as [inst|] eqn:E; [|done].
  case_bool_decide as Hst; simpl; [|done].
  match goal with |- wp ?m _ ?s0 => destruct (m s0) as [[?|[?|?]|] ?] eqn:Hm end;
    unfold wp; rewrite Hm; simpl; eauto.
Qed.

Lemma wpo_attempt_run_one def id s (Ψ : RunError + StepEnd → D → Prop) :
  inv (wf s) →
  (∀ a s', rtc (wf_step (mine tx)) (wf s) (wf s') → Ψ (inr a) s') →
  (∀ e s', Ψ (inl (RWf e)) s') →
  (∀ f s', wf s' = wf s → (∀ r, sel_instance tx id (wf s) = Some r → i_status r = "running") →
     Ψ (inl (RFailure f)) s') →
  wpo (E:=RunError) (attempt (in_write_tx run_of_db tk (λ tk, run_one eng tk def id))) Ψ s.
Proof.
  intros Hinv Hok Hwf Hf. apply wpo_of_wp, wp_attempt.
  apply wp_in_write_tx; [intros e w; apply Hwf|]. intros tx' w Htx'.
  assert (tx' = tx) as -> by (destruct Htx' as [?|[? _]]; congruence).
  pose proof (wp_run_one_failure def id (mkSt (tables s) w)) as Hfail.
  pose proof (wpo_run_one (with_tx tk tx) tx eq_refl def id (mkSt (tables s) w) Hinv) as Hrun.
  replace (with_tx tk tx) with tk in * by (destruct tk; simpl in *; by subst).
  unfold wp, wpo in *. destruct (run_one _ _ _ _ _) as [[a|[f|e]|] s'] eqn:Hm; simpl in *;
    intros w'; [|apply Hf; [done|]|done|done].
  - apply Hok. simpl. by apply (Hrun a s').
  - destruct Hfail as (inst & Hi & ?). intros r. rewrite Hi. by intros [= <-].
Qed.

Lemma wpo_inline_loop n def id s :
  inv (wf s) → wpo (inline_loop eng n tk def id) (to (mine tx) (wf s)) s.
Proof.
  revert s. induction n as [|n IH]; intros s Hinv; simpl; [apply wpo_err|].
  apply wpo_bind, wpo_attempt_run_one; [done|..].
  - intros a s' Hs'. assert (inv (wf s')) by by eapply inv_steps.
    destruct a; try (apply wpo_ret; exact Hs'). eapply wpo_from; [exact Hs'|]. by apply IH.
  - intros e s'. apply wpo_err.
  - intros f s' Hs' Hr. destruct (inline_route def f) as [next|]; [|apply wpo_err].
    apply wpo_bind. eapply wpo_mono; [apply wpo_inline_failure; rewrite Hs'; done|].
    intros [] s'' Hs''. simpl in Hs''. rewrite Hs' in Hs''. eapply wpo_from; [exact Hs''|].
    apply IH. by eapply inv_steps.
Qed.
End inline.

(** ** Events *)

Lemma ins_instance_Some tx row t o t' :
  ins_instance tx row t = Some (o, t') →
  (o = None ∧ t' = t ∧ ∃ id r, wf_instances t !! id = Some r ∧
     i_workflow r = i_workflow row ∧ i_trigger_event_id r = i_trigger_event_id row) ∨
  (o = Some (i_id row) ∧ t' = mkWf (<[i_id row := row]> (wf_instances t)) (wf_steps t) ∧
   mine tx (i_company_id row) ∧ wf_instances t !! i_id row = None ∧
   ∀ id r, wf_instances t !! id = Some r →
     ¬ (i_workflow r = i_workflow row ∧ i_trigger_event_id r = i_trigger_event_id row)).
Proof.
  unfold ins_instance, visible. destruct (negb _ || _) eqn:Hc; [done|].
  apply orb_false_iff in Hc as [Hc _]. apply negb_false_iff, bool_decide_eq_true in Hc.
  destruct (existsb _ _) eqn:Hex.
  - intros [= <- <-]. left. apply existsb_exists in Hex as ([id r] & Hin & Hsame).
    apply list_elem_of_In, elem_of_map_to_list in Hin.
    apply andb_true_iff in Hsame as [?%bool_decide_eq_true ?%bool_decide_eq_true]. eauto 8.
  - destruct (wf_instances t !! i_id row) eqn:Hid; [done|]. intros [= <- <-]. right.
    do 4 (split; [done|]). intros id r Hr [Hw He].
    assert (existsb (λ kv, same_trigger (i_workflow row) (i_trigger_event_id row) kv.2)
              (map_to_list (wf_instances t)) = true) as Htrue; [|congruence].
    apply existsb_exists. exists (id, r). split; [by apply list_elem_of_In, elem_of_map_to_list|].
    unfold same_trigger. simpl. by rewrite Hw, He, !bool_decide_true.
Qed.

Lemma new_instance_ok id spec record first context deadline now :
  row_ok (new_instance id spec record first context deadline now).
Proof. split; simpl; try done; by_dec. Qed.

Section events.
Context (tk : Task) (tx : Tx).
Hypothesis Htx : task_tx tk = Some tx.

Lemma keeps_wf_start_context spec record sc ctx def map0 :
  keeps same_wf (start_context (R:=R) (W:=W) spec record sc (def_funcs tk def ctx) map0).
Proof. unfold start_context, or_fail. keeps_wf. Qed.

Lemma wpo_start_tx def record id first s :
  inv (wf s) → wpo (start_tx eng tk def record id first) (to (mine tx) (wf s)) s.
Proof.
  intros Hinv. unfold start_tx.
  apply wpo_bind, wpo_skip; [keeps_wf|]. intros now s1 Hs1. simpl.
  apply wpo_bind, wpo_skip; [apply keeps_wf_start_context|]. intros context s2 Hs2.
  apply wpo_bind, wpo_skip; [apply keeps_wf_opt_duration|]. intros deadline s3 Hs3.
  apply wpo_bind, (wpo_write_tx _ tx); [done|].
  apply wpo_bind, wpo_rdb, wpo_wf_sql. intros row t s4 Hins Hs4.
  destruct (due_at _ deadline) as [at_|]; simpl in Hins; [|done].
  assert (wf s3 = wf s) as Hs by congruence. rewrite Hs in Hins.
  apply ins_instance_Some in Hins as [(-> & -> & _)|(-> & Ht & Hm & Hfresh & Hnew)].
  { simpl. apply wpo_bind, wpo_ret, wpo_ret. simpl. by rewrite Hs4. }
  assert (wf_step (mine tx) (wf s) t) as Hstep.
  { rewrite Ht. apply wf_start; [exact Hm|exact Hfresh|exact Hnew|done|apply new_instance_ok]. }
  assert (inv t) by by eapply inv_step.
  apply wpo_bind. eapply (wpo_mono _ (to (mine tx) (wf s4))).
  - destruct (_ && _); [|apply wpo_ret, rtc_refl].
    apply wpo_inline_loop; [done|by rewrite Hs4].
  - intros [] s5 Hs5. apply wpo_ret. simpl in *. eapply rtc_l; [done|]. by rewrite <- Hs4.
Qed.

Lemma keeps_wf_once schema consumer event : keeps same_wf (once (T:=Db R) schema consumer event).
Proof.
  unfold once. apply keeps_bind; [apply _|apply keeps_lift, _|]. intros ?.
  apply keeps_map_err, keeps_wf_sql. intros d b d'. unfold once_stmt.
  by case_decide; intros [= <- <-].
Qed.

Lemma elem_sel_waiting w ev keys t r :
  inv t → r ∈ sel_waiting tx w ev keys t →
  sel_instance tx (i_id r) t = Some r ∧ i_status r = "waiting".
Proof.
  intros Hinv Hr. unfold sel_waiting in Hr. rewrite merge_sort_Permutation in Hr.
  apply list_elem_of_filter in Hr as [Hw Hr]. apply list_elem_of_fmap in Hr as ([id r'] & -> & Hr).
  apply elem_of_map_to_list in Hr. simpl in *. destruct (inv_row _ Hinv _ _ Hr) as [<- _].
  unfold waits_for, visible in Hw. repeat (apply andb_true_iff in Hw as [Hw ?]).
  split; [|by eapply bool_decide_eq_true]. apply sel_instance_Some. split; [done|].
  by eapply bool_decide_eq_true.
Qed.

Lemma NoDup_sel_waiting w ev keys t : inv t → NoDup (map i_id (sel_waiting tx w ev keys t)).
Proof.
  intros Hinv. unfold sel_waiting. change (map i_id) with (fmap (M:=list) i_id).
  rewrite merge_sort_Permutation.
  eapply sublist_NoDup; [apply (NoDup_fst_map_to_list (wf_instances t))|].
  assert ((map_to_list (wf_instances t)).*1 = i_id <$> map snd (map_to_list (wf_instances t))) as ->.
  { change (map snd) with (fmap (M:=list) (@snd uuid InstanceRow)).
    rewrite <- list_fmap_compose. apply list_fmap_ext.
    intros i [id r] Hi%list_elem_of_lookup_2%elem_of_map_to_list.
    simpl. by destruct (inv_row _ Hinv _ _ Hi). }
  apply fmap_sublist, sublist_filter.
Qed.

(** The rows still to be looked at are as they were read. *)
Lemma wpo_resume_rows def record rows out t s :
  inv t → wf s = t → NoDup (map i_id rows) →
  (∀ r, r ∈ rows → sel_instance tx (i_id r) t = Some r ∧ i_status r = "waiting") →
  wpo (sm_fold (resume_row eng tk def tx record) out rows) (to (mine tx) t) s.
Proof.
  revert out t s. induction rows as [|r rows IH]; intros out t s Hinv Hs Hnd Hrows; simpl.
  { apply wpo_ret. simpl. by rewrite Hs. }
  apply NoDup_cons in Hnd as [Hni Hnd]. destruct (Hrows r) as [Hsel Hst]; [left|].
  assert (∀ r', r' ∈ rows → sel_instance tx (i_id r') t = Some r' ∧ i_status r' = "waiting")
    as Hrest by (intros; apply Hrows; by right).
  apply wpo_bind. unfold resume_row.
  destruct (i_current_step r ≫= _) as [step|]; [|apply wpo_ret; by apply IH].
  destruct (st_kind step); try (apply wpo_ret; by apply IH).
  case_bool_decide; [|apply wpo_ret; by apply IH].
  apply wpo_bind. eapply wpo_mono; [apply wpo_leave_wait; rewrite ?Hs; [done..|by_dec|done]|].
  intros [] s' [Hto Hother]. apply wpo_ret. rewrite Hs in Hto, Hother.
  eapply wpo_from; [exact Hto|]. apply IH; [by eapply inv_steps|done|done|].
  intros r' Hr'. destruct (Hrest r' Hr') as [Hsel' ?]. split; [|done].
  apply sel_instance_Some. rewrite Hother; [by apply sel_instance_Some|].
  intros E. apply Hni. rewrite <- E. by apply list_elem_of_fmap_2.
Qed.

Lemma wpo_resume_tx def record s :
  inv (wf s) → wpo (resume_tx eng tk def record) (to (mine tx) (wf s)) s.
Proof.
  intros Hinv. unfold resume_tx.
  apply wpo_bind, (wpo_write_tx _ tx); [done|].
  apply wpo_bind, wpo_skip; [apply keeps_map_err, keeps_wf_once|]. intros [] s1 Hs1; simpl.
  - apply wpo_bind, wpo_wf_query. intros s2 Hs2. rewrite Hs1 in *.
    apply wpo_resume_rows; [done|done|by apply NoDup_sel_waiting|].
    intros r Hr. by eapply elem_sel_waiting.
  - apply wpo_ret. simpl. by rewrite Hs1.
Qed.
End events.
End bodies.
