(* ===== verification/WorkflowRefine.v ===== *)
(** * The engine implements the specification: whole operations

    From the simulation of the transactions ([WorkflowSim.v]) to the operations of
    [WorkflowEngine] and to any sequence of them: the engine's tables are always
    reachable in the abstract machine of [WorkflowModel.v]. *)
From Stdlib Require Import ZArith Lia.
From S2P Require Import Prelude RustStr Float64 Json WorkflowExpr WorkflowExprFacts Database Outbox WriteHooks WorkflowSpec WorkflowStore WorkflowEngine WorkflowModel WorkflowSim.

Local Open Scope Z_scope.

Section operations.
Context {L : Libs} {PG : Postgres} {R W : Type} {HO : HasOutbox R} {HW : World W} {TO : Tokio W}.
Context (eng : WorkflowEngine R W).
Abbreviation D := (St (Db R) W).
Abbreviation Def := (WorkflowDefinition R W).
Abbreviation wf s := (db_wf (tables s)).
Implicit Types (s : D) (tk : Task) (tn : Tenant).

Section tenant.
Context (C : uuid → Prop) (tk : Task) (tn : Tenant).
Hypothesis HC : ∀ c, acting tk tn = Some c → C c.

Lemma keeps_in_tx {A} (work : Task → sm D RunError A) :
  (∀ tk' tx, task_tx tk' = Some tx → ∀ s, inv (wf s) → wpo (work tk') (to (mine tx) (wf s)) s) →
  keeps (reach C) (in_tx tk tn work).
Proof. intros H. apply keeps_map_err. by apply keeps_scoped_tx. Qed.

(** A body that leaves the tables alone. *)
Lemma wpo_same {A} tk' tx (m : sm D RunError A) s :
  task_tx tk' = Some tx → keeps same_wf m → wpo m (to (mine tx) (wf s)) s.
Proof. intros _ Hm. apply wpo_skip; [done|]. intros a s' Hs. unfold to. by rewrite Hs. Qed.

Lemma keeps_def_for_instance id : keeps (reach C) (def_for_instance eng tk tn id).
Proof.
  apply keeps_bind; [apply _| |intros; apply keeps_ret, _]. apply keeps_in_tx.
  intros tk' tx Htx s _. eapply wpo_same; [done|]. unfold write_tx, rdb. keeps_wf.
Qed.

Lemma keeps_correlation_of id : keeps (reach C) (correlation_of (R:=R) (W:=W) tk tn id).
Proof.
  apply keeps_bind; [apply _| |intros; apply keeps_ret, _]. apply keeps_in_tx.
  intros tk' tx Htx s _. eapply wpo_same; [done|]. unfold write_tx, rdb. keeps_wf.
Qed.

Lemma keeps_describe id : keeps (reach C) (describe (R:=R) (W:=W) tk tn id).
Proof.
  apply keeps_in_tx. intros tk' tx Htx s _. eapply wpo_same; [done|].
  unfold write_tx, rdb. keeps_wf.
Qed.

Lemma keeps_cancel id : keeps (reach C) (cancel (R:=R) (W:=W) tk tn id).
Proof. apply keeps_in_tx. intros tk' tx Htx s Hinv. by apply wpo_cancel_tx. Qed.

Lemma keeps_after_failure def id f : keeps (reach C) (after_failure eng tk def tn id f).
Proof.
  apply keeps_map_err, keeps_scoped_tx; [done|].
  intros tk' tx Htx s Hinv. by apply wpo_judge_failure.
Qed.

Lemma keeps_step_once def id : keeps (reach C) (step_once eng tk def tn id).
Proof.
  apply keeps_bind; [apply _|apply keeps_correlation_of|]. intros corr.
  apply keeps_bind; [apply _| |].
  - apply keeps_attempt, keeps_scoped. intros tk' _ Hact. apply keeps_in_write_tx.
    intros tx Htx. split; [|intros s Hinv; by apply wpo_run_one].
    intros c Hc. by eapply HC, Hact.
  - intros [[f|e]|end_]; [apply keeps_after_failure|apply keeps_err, _|apply keeps_ret, _].
Qed.

Lemma keeps_compensate_next def id failures comp :
  keeps (reach C) (compensate_next eng tk def tn id failures comp).
Proof.
  apply keeps_bind; [apply _| |].
  - apply keeps_attempt, keeps_scoped_tx; [done|].
    intros tk' tx Htx s Hinv. by apply wpo_compensate_one.
  - intros [[f|e]|?]; [|apply keeps_err, _|apply keeps_ret, _].
    apply keeps_bind; [apply _| |intros; apply keeps_ret, _].
    apply keeps_attempt, keeps_scoped_tx; [done|].
    intros tk' tx Htx s Hinv. by apply wpo_log_compensation_failure.
Qed.

Lemma keeps_compensate_company def id : keeps (reach C) (compensate_company eng tk def tn id).
Proof.
  apply keeps_bind; [apply _| |].
  - apply keeps_fold; [apply _|]. intros. apply keeps_compensate_next.
  - intros failures. apply keeps_in_tx. intros tk' tx Htx s Hinv. by apply wpo_settle_compensation.
Qed.

Lemma keeps_compensate id : keeps (reach C) (compensate eng tk tn id).
Proof.
  apply keeps_bind; [apply _|apply keeps_def_for_instance|].
  intros [def|]; [apply keeps_compensate_company|apply keeps_ret, _].
Qed.

Lemma keeps_drive_loop n def id : keeps (reach C) (drive_loop eng n tk def tn id).
Proof.
  induction n as [|n IH]; simpl.
  - apply keeps_bind; [apply _|apply keeps_after_failure|].
    intros []; try apply keeps_ret, _. apply keeps_compensate_company.
  - apply keeps_bind; [apply _|apply keeps_step_once|].
    intros []; try apply keeps_ret, _; [done|apply keeps_compensate_company].
Qed.

Lemma keeps_drive def id : keeps (reach C) (drive eng tk def tn id).
Proof. unfold drive. case_match; [apply keeps_ret, _|apply keeps_drive_loop]. Qed.

Lemma keeps_run id : keeps (reach C) (run eng tk tn id).
Proof.
  apply keeps_bind; [apply _|apply keeps_def_for_instance|].
  intros [def|]; [apply keeps_drive|apply keeps_ret, _].
Qed.
End tenant.

Section event.
Context (C : uuid → Prop) (tk : Task) (record : OutboxRecord).
Hypothesis HC : ∀ c, acting tk (tenant_of record) = Some c → C c.

Lemma keeps_start def : keeps (reach C) (start eng tk def record).
Proof.
  unfold start. destruct (ws_steps _) as [|first rest]; [apply keeps_err, _|].
  apply keeps_bind; [apply _|apply keeps_reach, keeps_wf_fresh_uuid|]. intros id.
  apply keeps_map_err, keeps_scoped_tx; [done|].
  intros tk' tx Htx s Hinv. by apply wpo_start_tx.
Qed.

Lemma keeps_resume def : keeps (reach C) (resume eng tk def record).
Proof.
  apply keeps_map_err, keeps_scoped_tx; [done|].
  intros tk' tx Htx s Hinv. by apply wpo_resume_tx.
Qed.

Lemma keeps_handle_event : keeps (reach C) (handle_event eng tk record).
Proof.
  unfold handle_event.
  apply keeps_bind; [apply _|apply keeps_fold; [apply _|]|].
  { intros report def. unfold handle_start. case_match; [|apply keeps_ret, _].
    apply keeps_bind; [apply _|apply keeps_start|intros; apply keeps_ret, _]. }
  intros report. apply keeps_bind; [apply _|apply keeps_fold; [apply _|]|].
  { intros report' def. unfold handle_resume. case_match; [|apply keeps_ret, _].
    apply keeps_bind; [apply _|apply keeps_resume|intros; apply keeps_ret, _]. }
  intros report'. apply keeps_bind; [apply _|apply keeps_fold; [apply _|]|].
  { intros acc id. apply keeps_bind; [apply _|by apply keeps_def_for_instance|].
    intros; apply keeps_ret, _. }
  intros todo. apply keeps_bind; [apply _|apply keeps_iter; [apply _|]|intros; apply keeps_ret, _].
  intros [def id]. by apply keeps_drive.
Qed.

Lemma keeps_deliver : keeps (reach C) (deliver eng tk record).
Proof.
  unfold deliver. case_match; [apply keeps_ret, _|].
  apply keeps_bind; [apply _| |intros; apply keeps_ret, _].
  apply keeps_map_err, keeps_handle_event.
Qed.
End event.

Lemma keeps_sweep tk : keeps (reach (λ _, True)) (sweep eng tk).
Proof.
  apply keeps_bind; [apply _| |].
  { apply keeps_reach. unfold sweep_candidates. keeps_wf. }
  intros cands. apply keeps_fold; [apply _|]. intros report [[id company] unit]. unfold sweep_one.
  apply keeps_bind; [apply _|by apply keeps_def_for_instance|].
  intros [def|]; [|apply keeps_ret, _].
  apply keeps_bind; [apply _| |].
  { apply keeps_attempt, keeps_scoped_tx; [done|].
    intros tk' tx Htx s Hinv. by apply wpo_claim_due. }
  intros [[f|e]|claim]; [apply keeps_ret, _|apply keeps_err, _|].
  unfold sweep_act. destruct report, claim as [[]|]; try apply keeps_ret, _;
    (apply keeps_bind; [apply _| |intros; apply keeps_ret, _]);
    first [by apply keeps_drive|by apply keeps_compensate_company].
Qed.

(** ** Requests *)

(** What the composing service asks of the engine. *)
Inductive Request :=
  | QDeliver (record : OutboxRecord)
  | QSweep
  | QRun (tn : Tenant) (id : uuid)
  | QCompensate (tn : Tenant) (id : uuid)
  | QCancel (tn : Tenant) (id : uuid)
  | QDescribe (tn : Tenant) (id : uuid).

(** The state after a request, whatever it answered. *)
Definition serve (tk : Task) (q : Request) (s : D) : D :=
  match q with
  | QDeliver r => (deliver eng tk r s).2
  | QSweep => (timer_sweep eng tk s).2
  | QRun tn id => (run eng tk tn id s).2
  | QCompensate tn id => (compensate eng tk tn id s).2
  | QCancel tn id => (cancel tk tn id s).2
  | QDescribe tn id => (describe tk tn id s).2
  end.
Definition serve_all (qs : list (Task * Request)) (s : D) : D :=
  foldl (λ s tq, serve tq.1 tq.2 s) s qs.

(** A database whose workflow tables are new. *)
Definition fresh_db (rest : R) (w : W) : D := mkSt (mkDb wf_empty rest) w.

(** Whose rows a request may touch. *)
Definition request_tenant (q : Request) : option Tenant :=
  match q with
  | QDeliver r => Some (tenant_of r)
  | QSweep => None
  | QRun tn _ | QCompensate tn _ | QCancel tn _ | QDescribe tn _ => Some tn
  end.

Lemma serve_reach (C : uuid → Prop) tk q s :
  match request_tenant q with
  | Some tn => ∀ c, acting tk tn = Some c → C c
  | None => ∀ c, C c
  end → reach C s (serve tk q s).
Proof.
  destruct q; simpl; intros HC.
  - by apply (keeps_deliver C).
  - intros Hinv. eapply rtc_wf_step_mono; [|by apply (keeps_sweep tk s)]. auto.
  - by apply (keeps_run C).
  - by apply (keeps_compensate C).
  - by apply (keeps_cancel C).
  - by apply (keeps_describe C).
Qed.

Lemma serve_all_reach qs s : reach (λ _, True) s (serve_all qs s).
Proof.
  revert s. induction qs as [|[tk q] qs IH]; intros s; simpl; [done|].
  etrans; [|apply IH]. apply serve_reach. by destruct (request_tenant q).
Qed.

Lemma serve_all_app qs qs' s : serve_all (qs ++ qs') s = serve_all qs' (serve_all qs s).
Proof. apply foldl_app. Qed.

Lemma serve_all_inv qs rest w : inv (wf (serve_all qs (fresh_db rest w))).
Proof. eapply inv_steps; [apply inv_empty|]. apply (serve_all_reach qs (fresh_db rest w)), inv_empty. Qed.
End operations.
