(* ===== verification/WorkflowExample.v ===== *)
(** * A workflow, run

    Concrete instances of everything the engine is parametric in, a small workflow
    (ask for a confirmation by mail, wait for it or time out), and its life evaluated. The
    theorems' witnesses use them. *)
From Stdlib Require Import ZArith Lia.
From S2P Require Import Prelude RustStr Float64 Json WorkflowExpr Database Outbox WriteHooks WorkflowSpec WorkflowStore WorkflowEngine WorkflowModel WorkflowSim WorkflowRefine.

Local Open Scope Z_scope.

Module Demo.
Import Concrete ConcreteWorld ConcreteOutbox.
#[export] Instance postgres : Postgres := {|
  pg_after t f := Some (t + f64_to_i64 f * 1000000000);
  pg_before t f := Some (t - f64_to_i64 f * 1000000000);
|}.
#[export] Instance tokio : Tokio DW := {|
  tokio_timeout T E A secs m := v ← m; mret (Some v) |}.

Definition text_tpl (e : Expr) : Tpl := TTemplate [PExpr e].
Definition field (r : Root) (k : string) : Expr := EPath r [SKey k].

Definition step (name : string) (kind : StepKind) : StepSpec := {|
  st_name := name; st_guard := None; st_kind := kind; st_on_failure := None;
  st_call_timeout := None |}.

Definition spec : WorkflowSpec := {|
  ws_name := "Confirm"; ws_version := 1; ws_trigger_event := "Asked";
  ws_extract := [("email", field REvent "email")];
  ws_context := []; ws_persistence := true; ws_timeout := None; ws_retry := None;
  ws_steps := [
    step "mail" (KAction "send_email" None None [("to", text_tpl (field RContext "email"))]
                   (mkOutcome [] (Some "await")) None);
    step "await" (KWait (Some "Answered") [{| wk_event_field := "email"; wk_context := field RContext "email" |}]
                    (Some (DSecs 900)) (Some (mkOutcome [("answer", text_tpl (field REvent "answer"))] (Some "charge")))
                    (Some (mkOutcome [] (Some "late"))));
    step "charge" (KAction "charge" None None [] (mkOutcome [] (Some "done")) None);
    step "done" (KTerminal TCompleted None None false None);
    step "late" (KTerminal TExpired None None false None)];
  ws_compensation := [] |}.

(** [charge] fails while the outbox holds fewer than two rows, of a reason that may pass. *)
Definition perform (_ : Task) (_ : WriteCtx) (_ : Call) : sm (St OutboxTables DW) ServiceError Value :=
  λ s, if bool_decide (size (ob_events (tables s)) < 2)%nat then (Err (SInternal "not yet"), s) else (Ok VNull, s).
Definition def : WorkflowDefinition OutboxTables DW := {|
  wd_spec := spec; wd_perform := perform; wd_function := default_function |}.
Definition eng : WorkflowEngine OutboxTables DW := {|
  eng_schema := "hr"; eng_defs := [def]; eng_cfg := engine_config_default |}.

Definition company : uuid := 7%N.
Definition payload (l : list (string * string)) : Value :=
  VObject (foldl (λ m kv, map_insert kv.1 (VString kv.2) m) [] l).
Definition asked : OutboxRecord :=
  record_new 100%N "Asked" "User" "1" company (payload [("email", "a@b")]) 0.
Definition answered : OutboxRecord :=
  record_new 101%N "Answered" "User" "1" company (payload [("email", "a@b"); ("answer", "yes")]) 0.

Definition rest : OutboxTables := {| ob_events := ∅; ob_consumed := ∅ |}.
Definition w0 : DW := mkDW [] 1000 1%N.
Definition s0 := fresh_db rest w0.
Definition s1 := serve eng task0 (QDeliver asked) s0.
Definition s2 := serve eng task0 (QDeliver answered) s1.

(** The instance's status, its step, its attempts, and its log. *)
Definition life (s : St (Db OutboxTables) DW) : option (string * option string * Z * list string) :=
  r ← wf_instances (db_wf (tables s)) !! 1%N;
  Some (i_status r, i_current_step r, i_attempts r, map s_outcome (log 1%N (db_wf (tables s)))).

Example demo_waits : life s1 = Some ("waiting", Some "await", 0, ["ok"; "waiting"]).
Proof. vm_compute. reflexivity. Qed.
(** Answered: resumed, and the charge is to be tried again. *)
Example demo_resumes :
  life s2 = Some ("running", Some "charge", 1, ["ok"; "waiting"; "resumed"; "failed"]).
Proof. vm_compute. reflexivity. Qed.
(** The same event again does nothing. *)
Example demo_replay : life (serve eng task0 (QDeliver answered) s2) = life s2.
Proof. vm_compute. reflexivity. Qed.
Example demo_cancel :
  life (serve eng task0 (QCancel (tenant_company company) 1%N) s1) =
  Some ("cancelled", Some "await", 0, ["ok"; "waiting"; "cancelled"]).
Proof. vm_compute. reflexivity. Qed.
(** Another company sees nothing to cancel. *)
Example demo_other : life (serve eng task0 (QCancel (tenant_company 8%N) 1%N) s1) = life s1.
Proof. vm_compute. reflexivity. Qed.

(** The instance as [s1] has it. *)
Definition row1 : InstanceRow :=
  default (new_instance 0%N spec asked "" VNull None 0) (wf_instances (db_wf (tables s1)) !! 1%N).
Lemma row1_spec : wf_instances (db_wf (tables s1)) !! 1%N = Some row1.
Proof.
  unfold row1.
  assert (match wf_instances (db_wf (tables s1)) !! 1%N with Some _ => true | None => false end = true)
    as H by (vm_compute; reflexivity).
  destruct (wf_instances (db_wf (tables s1)) !! 1%N); [reflexivity|discriminate H].
Qed.
End Demo.
