(* ===== verification/WorkflowProps.v ===== *)
(** * Properties of the workflow engine *)
From Stdlib Require Import ZArith Lia.
From S2P Require Import Prelude RustStr Float64 Json WorkflowExpr WorkflowExprFacts Database Outbox WriteHooks WorkflowSpec WorkflowStore WorkflowEngine WorkflowModel WorkflowSim WorkflowRefine WorkflowExample.

Local Open Scope Z_scope.

Section lemmas.
Context {L : Libs} {PG : Postgres} {R W : Type} {HO : HasOutbox R} {HW : World W} {TO : Tokio W}.
Context (eng : WorkflowEngine R W).
Abbreviation D := (St (Db R) W).
Abbreviation wf s := (db_wf (tables s)).
Implicit Types (s : D) (tk : Task) (tn : Tenant) (tx : Tx).

(** ** A transaction of a tenant, as a whole

    Its body runs under the tenant's company; its success is the body's, and
    anything else left the tables as they were. *)
Lemma wp_scoped {A} tk tn (wrap : Task → Task) (work : Task → sm D RunError A)
    (Ψ : A → D → Prop) s :
  (∀ tk', task_tx (wrap tk') = task_tx tk' ∧ task_conn (wrap tk') = task_conn tk' ∧
          task_company (wrap tk') = task_company tk') →
  (∀ tk' tx s0, tables s0 = tables s → task_tx tk' = Some tx → tx_company tx = acting tk tn →
     wpo (work tk') (λ a s', ∀ w', Ψ a (mkSt (tables s') w')) s0) →
  wp (scoped run_of_db tk tn (λ tk, in_write_tx run_of_db (wrap tk) work))
    (λ r s', match r with Ok a => Ψ a s' | _ => tables s' = tables s end) s.
Proof.
  intros Hwrap Hw.
  assert (∀ tk' s0, tables s0 = tables s →
    (∀ tx, tx_of (wrap tk') tx → tx_company tx = acting tk tn) →
    wp (in_write_tx run_of_db (wrap tk') work)
      (λ r s', match r with Ok a => Ψ a s' | _ => tables s' = tables s end) s0) as Hin.
  { intros tk' s0 Hs0 Htk. apply wp_in_write_tx; [done|]. intros tx w Htx.
    eapply wp_mono; [apply wp_of_wpo, (Hw (with_tx (wrap tk') tx) tx); [done|done|by apply Htk]|].
    intros [a|e|] s' H; [exact H|done|done]. }
  unfold scoped. destruct (tn_unit tn) as [u|] eqn:Hu.
  - unfold with_org_request_scope. apply wp_bind.
    assert (∀ s0, tables s0 = tables s →
      wp (in_write_tx run_of_db (wrap (with_org_scope tk (tn_company tn) u)) work)
        (λ r s', match r with Ok a => Ψ a s' | _ => tables s' = tables s end) s0) as Hgo.
    { intros s0 Hs0. apply Hin; [done|]. intros tx Htx. unfold acting. rewrite Hu.
      destruct (Hwrap (with_org_scope tk (tn_company tn) u)) as (E1 & E2 & E3).
      destruct Htx as [Htx|[Htx [now ->]]]; rewrite E1 in Htx; simpl in Htx; rewrite Htx; [done|].
      unfold task_fence. by rewrite E2. }
    case_match; [by apply wp_ret, Hgo|]. apply wp_map_err. unfold wp at 1, sqlx_point.
    destruct (w_fault (world s)) as [[e|] w]; simpl; [done|by apply Hgo].
  - apply Hin; [done|]. intros tx Htx. unfold acting. rewrite Hu.
    destruct (Hwrap (with_company_scope tk (Some (tn_company tn)))) as (E1 & E2 & E3).
    destruct Htx as [Htx|[Htx [now ->]]]; rewrite E1 in Htx; simpl in Htx; rewrite Htx; [done|].
    unfold task_fence. rewrite E2, E3. simpl. by destruct (task_conn tk).
Qed.

Lemma wp_scoped_tx {A} tk tn (work : Task → sm D RunError A) (Ψ : A → D → Prop) s :
  (∀ tk' tx s0, tables s0 = tables s → task_tx tk' = Some tx → tx_company tx = acting tk tn →
     wpo (work tk') (λ a s', ∀ w', Ψ a (mkSt (tables s') w')) s0) →
  wp (scoped_tx tk tn work)
    (λ r s', match r with Ok a => Ψ a s' | _ => tables s' = tables s end) s.
Proof. intros H. by apply (wp_scoped tk tn (λ tk, tk)). Qed.

Lemma wp_in_tx {A} tk tn (work : Task → sm D RunError A) (Ψ : A → D → Prop) s :
  (∀ tk' tx s0, tables s0 = tables s → task_tx tk' = Some tx → tx_company tx = acting tk tn →
     wpo (work tk') (λ a s', ∀ w', Ψ a (mkSt (tables s') w')) s0) →
  wp (in_tx tk tn work)
    (λ r s', match r with Ok a => Ψ a s' | _ => tables s' = tables s end) s.
Proof.
  intros H. apply wp_map_err. eapply wp_mono; [by apply wp_scoped_tx|].
  by intros [a|e|] s'.
Qed.

(** ** What a settled instance looks like *)

(** The tenant's instance [id] is not running, or waits for its next attempt. *)
Definition parked (c : option uuid) (id : uuid) (t : WfTables) : Prop :=
  ∀ r, wf_instances t !! id = Some r → c = Some (i_company_id r) →
    i_status r ≠ "running" ∨ is_Some (i_wait_due_at r).
(** It is past running and waiting. *)
Definition PAST : list string :=
  ["completed"; "failed"; "expired"; "compensating"; "compensated"; "cancelled"].
Definition past (c : option uuid) (id : uuid) (t : WfTables) : Prop :=
  ∀ r, wf_instances t !! id = Some r → c = Some (i_company_id r) →
    i_status r ∈ PAST.

Lemma past_parked c id t : past c id t → parked c id t.
Proof. intros H r Hr Hc. left. intros E. specialize (H r Hr Hc). rewrite E in H. absurd_dec H. Qed.

Lemma past_edge a b : a ∈ PAST → rtc edge a b → b ∈ PAST.
Proof.
  intros Ha. induction 1 as [|a b c Hab _ IH]; [done|]. apply IH. clear IH.
  revert b Hab. change (∀ b, edge a b → b ∈ PAST) with ((λ a, ∀ b, edge a b → b ∈ PAST) a).
  revert a Ha. apply Forall_forall.
  repeat (constructor; [unfold edge; simpl; apply Forall_forall; by_dec|]). constructor.
Qed.

Lemma past_evolves C c id t t' : evolves C t t' → past c id t →
  is_Some (wf_instances t !! id) → past c id t'.
Proof.
  intros Hev Hp [r Hr] r' Hr' Hc. destruct (ev_row _ _ _ Hev id r Hr) as (r2 & Hr2 & Hid & He & _).
  rewrite Hr' in Hr2. injection Hr2 as <-. eapply past_edge; [|exact He]. apply Hp; [done|].
  by rewrite Hc, (same_company _ _ Hid).
Qed.

(** What a step's end says of the instance. *)
Definition end_says (c : option uuid) (id : uuid) (e : StepEnd) (t : WfTables) : Prop :=
  match e with
  | Advanced => True
  | Compensate => past c id t ∧ is_Some (wf_instances t !! id)
  | Paused | Finished | Gone => parked c id t
  end.

(** Whatever the first part does, the rest ends alike. *)
Lemma wpo_then {E A B} (m : sm D E A) (f : A → sm D E B) (Ψ : B → D → Prop) s :
  (∀ a s', wpo (f a) Ψ s') → wpo (m ≫= f) Ψ s.
Proof. intros H. apply wpo_bind. intros a s' _. apply H. Qed.

(** Steps that do not wait or end advance. *)
Lemma wpo_fr_advance_end (fr : Frame (R:=R) (W:=W)) cn s :
  wpo (fr_advance fr cn) (λ e _, e = Advanced) s.
Proof. apply wpo_then. intros. by apply wpo_ret. Qed.
Lemma wpo_run_success_end (fr : Frame (R:=R) (W:=W)) o v s :
  wpo (run_success fr o v) (λ e _, e = Advanced) s.
Proof. do 2 (apply wpo_then; intros). apply wpo_fr_advance_end. Qed.
Lemma wpo_run_skip_end (fr : Frame (R:=R) (W:=W)) s : wpo (run_skip fr) (λ e _, e = Advanced) s.
Proof.
  unfold run_skip. destruct (match st_kind _ with KAction _ _ _ _ _ _ => _ | _ => _ end);
    [|apply wpo_err].
  do 2 (apply wpo_then; intros). apply wpo_fr_advance_end.
Qed.
Lemma wpo_run_condition_end (fr : Frame (R:=R) (W:=W)) bs s :
  wpo (run_condition fr bs) (λ e _, e = Advanced) s.
Proof.
  revert s. induction bs as [|b bs IH]; intros s; simpl; [apply wpo_err|].
  apply wpo_then. intros [] s1; [|apply IH].
  do 2 (apply wpo_then; intros). apply wpo_fr_advance_end.
Qed.

(** The row after a line and an update. *)
Lemma wpo_log_update_row {A} tx inst t seq step outcome error f (a : A) s :
  inv t → sel_instance tx (i_id inst) t = Some inst → wf s = t →
  sel_next_seq tx (i_id inst) t = Some seq → outcome ∈ OUTCOMES → outcome ≠ "compensated" →
  (∀ r', f inst = Some r' → move inst r') →
  wpo (_ ← log_step (R:=R) tx inst seq step outcome error;
       _ ← update tx (i_id inst) f; mret a)
    (λ a' s', a' = a ∧ ∃ r', f inst = Some r' ∧
       wf s' = mkWf (<[i_id inst := r']> (wf_instances t))
                 (wf_steps t ++ [mkStepRow (i_id inst) (i_company_id inst) (i_org_unit_id inst)
                                   seq step outcome error])) s.
Proof.
  intros Hinv Hsel Hs Hseq Ho Hc Hf. apply wpo_bind, wpo_rdb, wpo_wf_sql. rewrite Hs.
  intros [] t' s' Ht' Hs'.
  destruct (ins_step_step tx t t' (mkStepRow (i_id inst) (i_company_id inst)
    (i_org_unit_id inst) seq step outcome error) inst tt Hsel eq_refl
    (next_seq_log _ _ _ _ _ Hinv Hsel Hseq) Ho ltac:(by intros ?; destruct Hc) Ht') as [Heq _].
  apply wpo_bind. eapply (wpo_update_gen tx inst t'); [|done|done|].
  - apply sel_instance_Some. rewrite Heq. by apply sel_instance_Some.
  - intros r' s'' Hs'' Hr' _. apply wpo_ret. split; [done|]. exists r'. split; [done|].
    rewrite Hs'', Heq. done.
Qed.

Lemma past_row c id t r :
  wf_instances t !! id = Some r → i_status r ∈ PAST → past c id t.
Proof. intros Hr Hs r' Hr' _. congruence. Qed.
Lemma parked_row c id t r :
  wf_instances t !! id = Some r → i_status r ≠ "running" ∨ is_Some (i_wait_due_at r) →
  parked c id t.
Proof. intros Hr Hs r' Hr' _. by rewrite Hr in Hr'; injection Hr' as <-. Qed.

(** The ends of a wait and of a terminal. *)
Lemma wpo_run_wait_end (fr : Frame (R:=R) (W:=W)) ev ks d s :
  frame_ok fr (wf s) →
  wpo (run_wait fr ev ks d) (λ e s', end_says (tx_company (fr_tx fr)) (i_id (fr_inst fr)) e (wf s')) s.
Proof.
  intros [Hinv Hsel Hrun Hseq]. unfold run_wait. destruct (negb _); [apply wpo_err|].
  apply wpo_bind, wpo_skip; [unfold or_fail; keeps_wf|]. intros k s1 Hs1.
  apply wpo_bind, wpo_skip; [apply keeps_wf_opt_duration|]. intros due s2 Hs2.
  assert (wpo (_ ← fr_log fr "waiting" None;
           _ ← update (fr_tx fr) (i_id (fr_inst fr)) (λ r,
              at_ ← due_at (tx_now (fr_tx fr)) due;
              Some (waiting (tx_now (fr_tx fr)) ev k at_ r));
           mret Paused)
      (λ e s', end_says (tx_company (fr_tx fr)) (i_id (fr_inst fr)) e (wf s')) s2) as Hgo;
    [|destruct ev, due; [exact Hgo..|apply wpo_err]].
  apply wpo_bind, wpo_rdb, wpo_wf_sql. intros [] t' s' Ht' Hs'.
  apply wpo_bind, wpo_rdb, wpo_wf_sql. intros [] t'' s'' Ht'' Hs''. apply wpo_ret. simpl.
  rewrite Hs''. rewrite Hs' in Ht''.
  assert (wf_instances t' = wf_instances (wf s)) as Hi.
  { unfold ins_step in Ht'. destruct (_ && _); [|done]. injection Ht' as <-. simpl. congruence. }
  unfold upd_instance in Ht''. unfold sel_instance in Ht'', Hsel. rewrite Hi in Ht''.
  destruct (wf_instances (wf s) !! i_id (fr_inst fr)) as [r|]; [|done].
  destruct (visible _ _); [|done]. destruct (due_at _ due); simpl in Ht''; [|done].
  injection Ht'' as <-. eapply parked_row; [simpl; by rewrite lookup_insert, decide_True|by left].
Qed.

Lemma wpo_run_terminal_end (fr : Frame (R:=R) (W:=W)) st re em c rs s :
  frame_ok fr (wf s) →
  wpo (run_terminal fr st re em c rs)
    (λ e s', end_says (tx_company (fr_tx fr)) (i_id (fr_inst fr)) e (wf s')) s.
Proof.
  intros [Hinv Hsel Hrun Hseq]. unfold run_terminal.
  apply wpo_bind, wpo_skip; [unfold or_fail; keeps_wf|]. intros ctx s1 Hs1.
  apply wpo_bind, wpo_skip; [unfold or_fail, staged; keeps_wf; apply keeps_wf_stage_event|].
  intros [] s2 Hs2.
  apply wpo_bind, wpo_skip; [unfold or_fail; keeps_wf|]. intros txt s3 Hs3. simpl.
  set (comp := c && _ && _). set (final := if comp then "compensating" else _).
  assert (final ∈ ["completed"; "failed"; "expired"; "cancelled"; "compensating"]) as Hfin.
  { unfold final. destruct comp; [by_dec|]. destruct st; by_dec. }
  clearbody final.
  eapply wpo_mono; [apply (wpo_log_update_row (fr_tx fr) (fr_inst fr) (wf s));
    [done|done|congruence|done|by_dec|done|]|].
  - intros r' [= <-]. by apply move_ended.
  - intros e s' [-> (r' & [= <-] & Hs')]. rewrite Hs'.
    set (t' := mkWf _ _).
    assert (wf_instances t' !! i_id (fr_inst fr) =
      Some (ended (tx_now (fr_tx fr)) final (fr_name fr)
        (if bool_decide (st = TFailed) then txt else None) ctx (fr_inst fr))) as Hr
      by (simpl; by rewrite lookup_insert, decide_True).
    assert (past (tx_company (fr_tx fr)) (i_id (fr_inst fr)) t').
    { eapply past_row; [exact Hr|]. simpl. clear -Hfin. revert final Hfin.
      apply (Forall_forall _ _). by_dec. }
    destruct comp; simpl; [split; [done|by eexists]|by apply past_parked].
Qed.

Lemma wpo_run_kind_end (fr : Frame (R:=R) (W:=W)) s :
  frame_ok fr (wf s) →
  wpo (run_kind fr) (λ e s', end_says (tx_company (fr_tx fr)) (i_id (fr_inst fr)) e (wf s')) s.
Proof.
  intros Hfr. unfold run_kind. destruct (st_kind _).
  - eapply (wpo_mono _ (λ e _, e = Advanced)); [|by intros e s' ->]. do 3 (apply wpo_then; intros). apply wpo_run_success_end.
  - eapply (wpo_mono _ (λ e _, e = Advanced)); [|by intros e s' ->]. do 2 (apply wpo_then; intros).
    case_match; [apply wpo_err|]. apply wpo_then; intros. apply wpo_run_success_end.
  - eapply wpo_mono; [apply wpo_run_condition_end|by intros e s' ->].
  - by apply wpo_run_wait_end.
  - by apply wpo_run_terminal_end.
Qed.

Section ends.
Context (tk : Task) (tx : Tx).
Hypothesis Htx : task_tx tk = Some tx.

(** Nothing to do, or somebody else's turn. *)
Lemma parked_none id t : sel_instance tx id t = None → parked (tx_company tx) id t.
Proof.
  intros Hn r Hr Hc. assert (sel_instance tx id t = Some r); [|congruence].
  by apply sel_instance_Some.
Qed.
Lemma parked_other id t r :
  sel_instance tx id t = Some r → i_status r ≠ "running" → parked (tx_company tx) id t.
Proof. intros [Hr _]%sel_instance_Some Hs. eapply parked_row; [exact Hr|by left]. Qed.

Lemma wpo_run_one_end def id s :
  inv (wf s) → wpo (run_one eng tk def id) (λ e s', end_says (tx_company tx) id e (wf s')) s.
Proof.
  intros Hinv. unfold run_one. apply wpo_bind, (wpo_write_tx _ tx); [done|].
  apply wpo_bind, wpo_wf_query. intros s0 Hs0.
  destruct (sel_instance tx id (wf s)) as [inst|] eqn:Hsel.
  2: { apply wpo_ret. simpl. rewrite Hs0. by apply parked_none. }
  case_bool_decide as Hst; simpl.
  2: { apply wpo_ret. simpl. rewrite Hs0. by eapply parked_other. }
  pose proof Hsel as [Hr _]%sel_instance_Some. apply (inv_row _ Hinv) in Hr as [<- Hok].
  destruct (i_current_step inst) as [name|]; [|apply wpo_err].
  destruct (spec_step _ name) as [step|]; [|apply wpo_err].
  apply wpo_bind, wpo_wf_query. intros s1 Hs1.
  apply wpo_bind, wpo_wf_query_opt. intros seq s2 Hseq Hs2.
  apply wpo_bind, wpo_skip; [keeps_wf|]. intros now s3 Hs3. simpl.
  apply wpo_bind, wpo_skip; [unfold or_fail; keeps_wf|]. intros runs s4 Hs4.
  destruct runs; [apply wpo_run_kind_end; split; simpl; congruence|].
  eapply wpo_mono; [apply wpo_run_skip_end|by intros e s' ->].
Qed.

(** Judging a failure advances only along a route. *)
Lemma wpo_judge_failure_end def id f s :
  inv (wf s) → wpo (judge_failure eng tk def id f) (λ e s',
    end_says (tx_company tx) id e (wf s') ∧
    (sf_kind f = Business → spec_step (wd_spec def) (sf_step f) = None → e ≠ Advanced)) s.
Proof.
  intros Hinv. unfold judge_failure. apply wpo_bind, (wpo_write_tx _ tx); [done|].
  apply wpo_bind, wpo_wf_query. intros s0 Hs0.
  destruct (sel_instance tx id (wf s)) as [inst|] eqn:Hsel.
  2: { apply wpo_ret. simpl. rewrite Hs0. split; [by apply parked_none|done]. }
  case_bool_decide as Hst; simpl.
  2: { apply wpo_ret. simpl. rewrite Hs0. split; [by eapply parked_other|done]. }
  pose proof Hsel as [Hr Hmine]%sel_instance_Some. apply (inv_row _ Hinv) in Hr as [<- Hok].
  apply wpo_bind, wpo_wf_query_opt. intros seq s1 Hseq Hs1.
  apply wpo_bind. eapply (wpo_log_step tx inst (wf s));
    [done|done|congruence|rewrite <- Hseq; congruence|by_dec|done|].
  intros t' s2 Hi _ Hs2.
  assert (∀ f' (e : StepEnd) Q, (∀ r', f' inst = Some r' → i_status r' ∈ STATUSES → Q r') →
    (∀ t r', wf_instances t !! i_id inst = Some r' → Q r' → end_says (tx_company tx) (i_id inst) e t) →
    wpo (_ ← update (R:=R) tx (i_id inst) f'; mret e)
      (λ e' s', end_says (tx_company tx) (i_id inst) e' (wf s') ∧ e' = e) s2) as Hupd.
  { intros f' e Q HQ He. apply wpo_bind, wpo_rdb, wpo_wf_sql. rewrite Hs2. intros [] t'' s'' Ht'' Hs''.
    apply wpo_ret. split; [|done]. unfold upd_instance, sel_instance in Ht''. rewrite Hi in Ht''.
    apply sel_instance_Some in Hsel as [Hr _]. rewrite Hr in Ht''.
    unfold visible in Ht''. rewrite bool_decide_true in Ht'' by done.
    destruct (f' inst) as [r'|] eqn:Hf'; [|done]. case_bool_decide; [|done]. injection Ht'' as <-.
    eapply He; [rewrite Hs''; simpl; by rewrite lookup_insert, decide_True|by apply HQ]. }
  destruct (i32_checked_add _ _) as [att|]; [|apply wpo_bind, wpo_panic].
  apply wpo_bind, wpo_ret.
  destruct (failure_route _ _ _ _ _) as [d|o|] eqn:Hroute.
  - eapply wpo_mono; [apply (Hupd _ _ (λ r', is_Some (i_wait_due_at r')))|].
    + intros r'. destruct (pg_after _ d); [|done]. intros [= <-] _. done.
    + intros t r' Hr' Hd. eapply parked_row; [exact Hr'|by right].
    + intros e s' [? ->]. split; [done|by intros].
  - eapply (wpo_mono _ (λ e _, e = Advanced)).
    { do 2 (apply wpo_then; intros). apply wpo_then; intros. apply wpo_then; intros.
      apply (wpo_ret Advanced (λ e _, e = Advanced)). done. }
    intros e s' ->. split; [done|]. intros Hk Hn. exfalso. revert Hroute.
    unfold failure_route. rewrite Hk, Hn. done.
  - set (comp := negb _). set (st := if comp then "compensating" else _).
    eapply wpo_mono; [apply (Hupd _ _ (λ r', i_status r' ∈ PAST))|].
    + intros r' [= <-] _. simpl. unfold st. destruct comp; by_dec.
    + intros t r' Hr' Hp. destruct comp; simpl; [split; [by eapply past_row|by eexists]|].
      by eapply past_parked, past_row.
    + intros e s' [? ->]. split; [done|]. by destruct comp.
Qed.
End ends.

(** ** Driving *)

Lemma wpo_and {E A} (m : sm D E A) (Φ Ψ : A → D → Prop) s :
  wpo m Φ s → wpo m Ψ s → wpo m (λ a s', Φ a s' ∧ Ψ a s') s.
Proof. intros H1 H2 a s' Hm. split; eauto. Qed.

Lemma wpo_wp {E A} (m : sm D E A) (Ψ : A → D → Prop) (X : D → Prop) s :
  wp m (λ r s', match r with Ok a => Ψ a s' | _ => X s' end) s → wpo m Ψ s.
Proof. unfold wp, wpo. intros H a s' Hm. by rewrite Hm in H. Qed.

(** What the engine relies on between transactions. *)
Definition after_end (c : option uuid) (id : uuid) (e : StepEnd) s : Prop :=
  inv (wf s) ∧ end_says c id e (wf s).

Lemma wpo_after_failure_end tk def tn id f s :
  inv (wf s) → wpo (after_failure eng tk def tn id f) (λ e s', after_end (acting tk tn) id e s' ∧
    (sf_kind f = Business → spec_step (wd_spec def) (sf_step f) = None → e ≠ Advanced)) s.
Proof.
  intros Hinv. apply wpo_map_err. eapply wpo_wp, wp_scoped_tx. intros tk' tx s0 Hs0 Htx Hact.
  assert (inv (wf s0)) by (by rewrite Hs0).
  eapply wpo_mono; [apply wpo_and; [by apply (wpo_judge_failure eng tk' tx)|by apply (wpo_judge_failure_end tk' tx)]|].
  simpl. intros e s' [Hto [Hend Hadv]] w'. rewrite Hact in Hend. unfold after_end. simpl.
  split; [|done]. split; [by eapply inv_steps|done].
Qed.

Lemma wpo_step_once_end tk def tn id s :
  inv (wf s) → wpo (step_once eng tk def tn id) (λ e s', after_end (acting tk tn) id e s') s.
Proof.
  intros Hinv. unfold step_once. apply wpo_bind.
  eapply (wpo_keeps (reach (λ _, True))); [by apply keeps_correlation_of|].
  intros corr s1 Hs1. assert (inv (wf s1)) as Hinv1 by (eapply inv_steps; [exact Hinv|by apply Hs1]).
  apply wpo_bind, wpo_of_wp, wp_attempt. eapply wp_mono.
  { apply (wp_scoped tk tn (λ tk, with_correlation_id tk corr) _ (λ e s', after_end (acting tk tn) id e s'));
      [done|].
    intros tk' tx s0 Hs0 Htx Hact. assert (inv (wf s0)) by (by rewrite Hs0).
    eapply wpo_mono; [apply wpo_and; [by apply (wpo_run_one eng tk' tx)|by apply (wpo_run_one_end tk' tx)]|].
    simpl. intros e s' [Hto Hend] w'. rewrite Hact in Hend.
    split; [by eapply inv_steps|done]. }
  intros [e|[f|e]|] s' H; [by apply wpo_ret| |apply wpo_err|done].
  eapply wpo_mono; [apply wpo_after_failure_end; by rewrite H|]. by intros e s'' [? _].
Qed.

Lemma inv_reach C s s' : inv (wf s) → reach C s s' → inv (wf s').
Proof. intros H Hr. eapply inv_steps; [exact H|by apply Hr]. Qed.

Lemma wpo_compensate_parked tk def tn id s :
  after_end (acting tk tn) id Compensate s →
  wpo (compensate_company eng tk def tn id) (λ _ s', parked (acting tk tn) id (wf s')) s.
Proof.
  intros [Hinv [Hp His]]. eapply (wpo_keeps (reach (λ _, True))); [by apply keeps_compensate_company|].
  intros [] s' Hs'. apply past_parked. eapply past_evolves; [|exact Hp|exact His].
  eapply evolves_steps; [exact Hinv|by apply Hs'].
Qed.

Lemma wpo_drive_loop_parked n tk def tn id s :
  spec_step (wd_spec def) "(runaway)" = None → inv (wf s) →
  wpo (drive_loop eng n tk def tn id) (λ _ s', parked (acting tk tn) id (wf s')) s.
Proof.
  intros Hno. revert s. induction n as [|n IH]; intros s Hinv; simpl.
  - apply wpo_bind. eapply wpo_mono; [by apply wpo_after_failure_end|].
    intros e s' [[Hinv' Hend] Hadv]. specialize (Hadv eq_refl Hno).
    destruct e; try done; try (by apply wpo_ret). by apply wpo_compensate_parked.
  - apply wpo_bind. eapply wpo_mono; [by apply wpo_step_once_end|].
    intros e s' [Hinv' Hend].
    destruct e; [by apply IH|by apply wpo_ret|by apply wpo_ret|by apply wpo_compensate_parked|by apply wpo_ret].
Qed.

(** ** Starting *)

Lemma wpo_start_tx_duplicate tk tx def record id first s j r :
  task_tx tk = Some tx →
  wf_instances (wf s) !! j = Some r → i_workflow r = ws_name (wd_spec def) →
  i_trigger_event_id r = rec_id record →
  wpo (start_tx eng tk def record id first) (λ o s', o = None ∧ wf s' = wf s) s.
Proof.
  intros Htx Hr Hw He. unfold start_tx.
  apply wpo_bind, wpo_skip; [keeps_wf|]. intros now s1 Hs1. simpl.
  apply wpo_bind, wpo_skip; [apply keeps_wf_start_context|]. intros context s2 Hs2.
  apply wpo_bind, wpo_skip; [apply keeps_wf_opt_duration|]. intros deadline s3 Hs3.
  apply wpo_bind, (wpo_write_tx _ tx); [done|].
  apply wpo_bind, wpo_rdb, wpo_wf_sql. intros row t s4 Hins Hs4.
  destruct (due_at _ deadline) as [at_|]; simpl in Hins; [|done].
  assert (wf s3 = wf s) as Hs by congruence. rewrite Hs in Hins.
  apply ins_instance_Some in Hins as [(-> & -> & _)|(_ & _ & _ & _ & Hnew)];
    [|by destruct (Hnew j r Hr)].
  simpl. apply wpo_bind, wpo_ret, wpo_ret. done.
Qed.

(** ** Cancelling *)

Definition cancel_line (inst : InstanceRow) (seq : Z) : StepRow :=
  mkStepRow (i_id inst) (i_company_id inst) (i_org_unit_id inst) seq
    (default "(cancel)" (i_current_step inst)) "cancelled" None.

(** Statements over the workflow tables leave the rest of the database alone. *)
Definition same_rest : relation D := λ s s', db_rest (tables s) = db_rest (tables s').
#[export] Instance same_rest_preorder : PreOrder same_rest.
Proof. split; [done|]. intros ??? H1 H2. unfold same_rest in *. congruence. Qed.
Lemma keeps_rest_wf_sql {A} (f : WfTables → option (A * WfTables)) :
  keeps same_rest (rdb (R:=R) (wf_sql f)).
Proof.
  intros s. change (wp (rdb (R:=R) (wf_sql f)) (λ _ s', same_rest s s') s).
  apply wp_map_err, wp_sql; [done|]. intros w a d Hd.
  destruct (f (wf s)) as [[a' t]|]; [|done]. by injection Hd as <- <-.
Qed.

Lemma keeps_rest_cancel_tx tk id : keeps same_rest (cancel_tx (R:=R) (W:=W) tk id).
Proof.
  apply keeps_bind; [apply _|unfold write_tx; case_match; [apply keeps_ret, _|apply keeps_err, _]|].
  intros tx. apply keeps_bind; [apply _|apply keeps_rest_wf_sql|].
  intros [inst|]; [|apply keeps_ret, _]. case_match; [apply keeps_ret, _|].
  do 3 (apply keeps_bind; [apply _|apply keeps_rest_wf_sql|]; intros ?). apply keeps_ret, _.
Qed.

Lemma wpo_cancel_tx_spec tk tx id s :
  task_tx tk = Some tx → inv (wf s) →
  wpo (cancel_tx (R:=R) (W:=W) tk id) (λ b s',
    if b then
      ∃ inst, wf_instances (wf s) !! id = Some inst ∧ tx_company tx = Some (i_company_id inst) ∧
        is_final inst = false ∧ db_rest (tables s') = db_rest (tables s) ∧
        wf s' = mkWf (<[id := cancelled (tx_now tx) inst]> (wf_instances (wf s)))
                  (wf_steps (wf s) ++ [cancel_line inst (Z.of_nat (length (log id (wf s))) + 1)])
    else tables s' = tables s ∧
      ∀ inst, wf_instances (wf s) !! id = Some inst → tx_company tx = Some (i_company_id inst) →
        is_final inst = true) s.
Proof.
  intros Htx Hinv. eapply wpo_mono; [apply (wpo_and _ (λ (b : bool) (s' : D),
    if b then
      ∃ inst, wf_instances (wf s) !! id = Some inst ∧ tx_company tx = Some (i_company_id inst) ∧
        is_final inst = false ∧
        wf s' = mkWf (<[id := cancelled (tx_now tx) inst]> (wf_instances (wf s)))
                  (wf_steps (wf s) ++ [cancel_line inst (Z.of_nat (length (log id (wf s))) + 1)])
    else wf s' = wf s ∧
      ∀ inst, wf_instances (wf s) !! id = Some inst → tx_company tx = Some (i_company_id inst) →
        is_final inst = true) (λ _ s', same_rest s s'))|].
  - unfold cancel_tx. apply wpo_bind, (wpo_write_tx _ tx); [done|].
    apply wpo_bind, wpo_wf_query. intros s0 Hs0.
    destruct (sel_instance tx id (wf s)) as [inst|] eqn:Hsel.
    2: { apply wpo_ret. split; [done|]. intros inst Hr Hc.
         assert (sel_instance tx id (wf s) = Some inst); [|congruence]. by apply sel_instance_Some. }
    pose proof Hsel as [Hr Hc]%sel_instance_Some.
    destruct (inv_row _ Hinv _ _ Hr) as [<- Hok].
    destruct (is_final inst) eqn:Hfin.
    { apply wpo_ret. split; [done|]. intros inst' Hr' _. congruence. }
    apply wpo_bind, wpo_wf_query_opt. intros seq s1 Hseq Hs1. rewrite Hs0 in Hseq.
    eapply wpo_mono; [apply (wpo_log_update_row tx inst (wf s)); [done..|congruence|done|by_dec|done|]|].
    + intros r' [= <-]. by apply move_cancelled.
    + intros b s' [-> (r' & [= <-] & Hs')]. exists inst. do 3 (split; [done|]).
      rewrite Hs'. unfold cancel_line. by rewrite <- (next_seq_log _ _ _ _ _ Hinv Hsel Hseq).
  - eapply (wpo_keeps same_rest); [apply keeps_rest_cancel_tx|done].
  - intros [] s' [H Hrest]; unfold same_rest in Hrest.
    + destruct H as (inst & ? & ? & ? & ?). exists inst. done.
    + destruct H as [H ?]. split; [|done].
      destruct (tables s), (tables s'). simpl in *. congruence.
Qed.

(** ** Resuming *)

Lemma wpo_resume_tx_claimed tk def record s :
  ("workflow:" +:+ ws_name (wd_spec def), rec_id record) ∈ ob_consumed (ob_get (tables s)) →
  wpo (resume_tx eng tk def record) (λ ids s', ids = [] ∧ tables s' = tables s) s.
Proof.
  intros Hin. unfold resume_tx. apply wpo_bind.
  apply (wpo_keeps eq); [unfold write_tx; case_match; done|]. intros tx s0 <-.
  apply wpo_bind, wpo_map_err. unfold once. apply wpo_bind.
  apply (wpo_keeps eq); [done|]. intros ? s0 <-. apply wpo_map_err.
  apply wpo_of_wp, wp_sql; [done|]. intros w b d [= Hb]. unfold once_stmt in Hb.
  rewrite decide_True in Hb by done. injection Hb as <- <-. simpl. by apply wpo_ret.
Qed.
End lemmas.

(** ** The theorems *)
Section properties.
Context {L : Libs} {PG : Postgres} {R W : Type} {HO : HasOutbox R} {HW : World W} {TO : Tokio W}.
Context (eng : WorkflowEngine R W).
Abbreviation wf s := (db_wf (tables s)).

(** C1: the engine implements the abstract machine. From new tables, after any
    sequence of requests under any tasks, whatever failed on the way (the database at
    any round trip, the definitions' own code, a commit), the workflow tables are
    reached by steps of the abstract machine: instances added once per trigger, log lines
    numbered in order, rows moved along the status graph. *)
Theorem engine_refines (qs : list (Task * Request)) (rest : R) (w : W) :
  rtc (wf_step (λ _, True)) wf_empty (wf (serve_all eng qs (fresh_db rest w))).
Proof. apply (serve_all_reach eng qs (fresh_db rest w)), inv_empty. Qed.

(** C10: what always holds of the workflow tables. At most one instance per workflow
    and trigger event; every row in a declared status, with wait columns only while it
    waits and with room for one more attempt while it runs; an instance's log
    numbered 1, 2, 3, ... under the instance's company; each compensation label undone at
    most once. *)
Theorem engine_inv (qs : list (Task * Request)) (rest : R) (w : W) :
  inv (wf (serve_all eng qs (fresh_db rest w))).
Proof. apply serve_all_inv. Qed.

(** C21: what later requests may do to what is there. No instance disappears or
    changes its identity, its status moves only along the graph, one that completed,
    expired, was cancelled or was compensated keeps its row as it is, and the
    log only grows at its end. *)
Theorem engine_evolves (qs qs' : list (Task * Request)) (rest : R) (w : W) :
  let t := wf (serve_all eng qs (fresh_db rest w)) in
  let t' := wf (serve_all eng (qs ++ qs') (fresh_db rest w)) in
  wf_steps t `prefix_of` wf_steps t' ∧
  ∀ id r, wf_instances t !! id = Some r →
    ∃ r', wf_instances t' !! id = Some r' ∧ same_identity r r' ∧
          rtc edge (i_status r) (i_status r') ∧ (i_status r ∈ ENDED → r' = r).
Proof.
  intros t t'. unfold t'. rewrite serve_all_app.
  assert (evolves (λ _, True) t (wf (serve_all eng qs' (serve_all eng qs (fresh_db rest w))))) as [Hr _ Hl].
  { apply evolves_steps; [apply serve_all_inv|]. apply serve_all_reach, serve_all_inv. }
  split; [done|]. intros id r H. destruct (Hr id r H) as (r' & ? & ? & ? & ? & _). eauto.
Qed.


(** an event starts a workflow at most once. Where an instance of the workflow
    with that trigger event exists, for whichever company, starting it again never answers
    a new instance and leaves the workflow tables as they are. *)
Theorem start_idempotent (tk : Task) (def : WorkflowDefinition R W) (record : OutboxRecord)
    (s : St (Db R) W) (id : uuid) (r : InstanceRow) :
  wf_instances (wf s) !! id = Some r →
  i_workflow r = ws_name (wd_spec def) → i_trigger_event_id r = rec_id record →
  let '(answer, s') := start eng tk def record s in
  (∀ id', answer ≠ Ok (Some id')) ∧ wf s' = wf s.
Proof.
  intros Hr Hw He.
  enough (wp (start eng tk def record) (λ answer s',
    (∀ id', answer ≠ Ok (Some id')) ∧ wf s' = wf s) s) as H.
  { unfold wp in H. by destruct (start eng tk def record s). }
  unfold start. destruct (ws_steps _) as [|first rest]; [by apply wp_err|].
  apply wp_bind. eapply (wp_keeps same_tables); [apply keeps_fresh_uuid|].
  intros [new|e|] s1 Hs1; unfold same_tables in Hs1; [|by rewrite <- Hs1..].
  apply wp_map_err. eapply wp_mono;
    [apply (wp_scoped_tx _ _ _ (λ o s', o = None ∧ wf s' = wf s))|].
  - intros tk' tx s2 Hs2 Htx _. eapply wpo_mono;
      [eapply (wpo_start_tx_duplicate eng tk' tx); [done|by rewrite Hs2, <- Hs1|done|done]|].
    intros o s3 [-> Hs3] w'. simpl. split; [done|]. by rewrite Hs3, Hs2, Hs1.
  - intros [o|e|] s' Hs'; simpl; [destruct Hs' as [-> ?]; done|..];
      (split; [done|]); by rewrite Hs', <- Hs1.
Qed.

(** an event resumes a workflow's waits at most once. Where the inbox holds the
    event for the workflow, resuming again answers no instance, or an error, and
    changes nothing in the database. *)
Theorem resume_idempotent (tk : Task) (def : WorkflowDefinition R W) (record : OutboxRecord)
    (s : St (Db R) W) :
  ("workflow:" +:+ ws_name (wd_spec def), rec_id record) ∈ ob_consumed (ob_get (tables s)) →
  let '(answer, s') := resume eng tk def record s in
  (∀ ids, answer = Ok ids → ids = []) ∧ tables s' = tables s.
Proof.
  intros Hin.
  enough (wp (resume eng tk def record) (λ answer s',
    (∀ ids, answer = Ok ids → ids = []) ∧ tables s' = tables s) s) as H.
  { unfold wp in H. by destruct (resume eng tk def record s). }
  apply wp_map_err. eapply wp_mono;
    [apply (wp_scoped_tx _ _ _ (λ ids s', ids = [] ∧ tables s' = tables s))|].
  - intros tk' tx s2 Hs2 _ _. eapply wpo_mono;
      [apply wpo_resume_tx_claimed; by rewrite Hs2|].
    intros ids s3 [-> Hs3] w'. simpl. split; [done|congruence].
  - intros [ids|e|] s' Hs'; simpl; [|done..]. destruct Hs' as [-> ?]. split; [by intros ids [= <-]|done].
Qed.

(** what a cancellation does, on every branch. Answering [true], it found the
    tenant's instance not ended, wrote one line and the status [cancelled], and
    touched nothing else of the database: no compensation, no event. Answering
    [false], there was no such instance of the tenant's or it had ended, and nothing
    changed. Failing, nothing changed. *)
Theorem cancel_spec (qs : list (Task * Request)) (rest : R) (w : W) (tk : Task) (tn : Tenant)
    (id : uuid) :
  let s := serve_all eng qs (fresh_db rest w) in
  let '(answer, s') := cancel tk tn id s in
  match answer with
  | Ok true => ∃ inst now,
      wf_instances (wf s) !! id = Some inst ∧ acting tk tn = Some (i_company_id inst) ∧
      is_final inst = false ∧ db_rest (tables s') = db_rest (tables s) ∧
      wf s' = mkWf (<[id := cancelled now inst]> (wf_instances (wf s)))
                (wf_steps (wf s) ++ [cancel_line inst (Z.of_nat (length (log id (wf s))) + 1)])
  | Ok false => tables s' = tables s ∧
      ∀ inst, wf_instances (wf s) !! id = Some inst → acting tk tn = Some (i_company_id inst) →
        is_final inst = true
  | Err _ | Panic => tables s' = tables s
  end.
Proof.
  intros s. pose proof (serve_all_inv eng qs rest w) as Hinv. fold s in Hinv.
  match goal with |- let '(a, s') := _ in ?G => enough (wp (cancel tk tn id) (λ a s', G) s) as H end.
  { unfold wp in H. by destruct (cancel tk tn id s). }
  eapply wp_mono; [apply (wp_in_tx tk tn _ (λ (b : bool) s', if b then ∃ inst now,
      wf_instances (wf s) !! id = Some inst ∧ acting tk tn = Some (i_company_id inst) ∧
      is_final inst = false ∧ db_rest (tables s') = db_rest (tables s) ∧
      wf s' = mkWf (<[id := cancelled now inst]> (wf_instances (wf s)))
                (wf_steps (wf s) ++ [cancel_line inst (Z.of_nat (length (log id (wf s))) + 1)])
    else tables s' = tables s ∧
      ∀ inst, wf_instances (wf s) !! id = Some inst → acting tk tn = Some (i_company_id inst) →
        is_final inst = true))|].
  - intros tk' tx s0 Hs0 Htx <-. eapply wpo_mono;
      [apply (wpo_cancel_tx_spec tk' tx); [done|by rewrite Hs0]|].
    rewrite Hs0. intros [] s' H w'; simpl; [|done].
    destruct H as (inst & H). exists inst, (tx_now tx). done.
  - by intros [[]|e|] s'.
Qed.

End properties.

(** ** Retries *)
Section retries.
Context {L : Libs} {R W : Type}.
Context (eng : WorkflowEngine R W).

(** when a transient failure is tried again. The policy's count is the attempts in
    all, the first included: after the [n]-th failed attempt there is another exactly while
    [n] is below it. That holds up to [i32::MAX]; a larger [u32] count is read as a
    negative number, and the step is then never tried again. *)
Theorem retry_decision (policy : FailureSpec) (on_timeout : option Outcome) (retry : RetrySpec)
    (n : Z) :
  0 ≤ n ≤ i32_max →
  (0 ≤ max_attempts retry ≤ i32_max →
     (∃ d, failure_route eng Transient policy on_timeout retry n = FrRetry d) ↔ n < max_attempts retry) ∧
  (i32_max < max_attempts retry < 4294967296 →
     ∀ d, failure_route eng Transient policy on_timeout retry n ≠ FrRetry d).
Proof.
  intros Hn. assert (failure_route eng Transient policy on_timeout retry n =
    if n <? as_i32 (max_attempts retry) then FrRetry (retry_delay eng (backoff retry) n)
    else route_of (coalesce (fs_on_exhausted policy) (route_next policy))) as -> by by destruct on_timeout.
  split.
  - intros Hm. rewrite as_i32_id by lia. destruct (Z.ltb_spec n (max_attempts retry)).
    + split; [done|]. intros _. by eexists.
    + split; [|lia]. intros [d Hd]. unfold route_of in Hd. by case_match.
  - intros Hm d. assert (as_i32 (max_attempts retry) < 0) as Hneg.
    { unfold as_i32, i32_max in *. rewrite Z.mod_small by lia.
      destruct (Z.leb_spec (max_attempts retry) 2147483647); lia. }
    destruct (Z.ltb_spec n (as_i32 (max_attempts retry))); [lia|].
    unfold route_of. by case_match.
Qed.

(** an exponential backoff never exceeds the configured longest wait, at any
    attempt, not even where the doubling has overflowed to infinity. *)
Theorem retry_delay_capped (n : Z) :
  f64_ltb (as_secs_f64 (backoff_max (eng_cfg eng))) (retry_delay eng Exponential n) = false.
Proof. apply f64_min_le. Qed.
End retries.

(** ** Instances of the theorems, on the example workflow *)
Section witnesses.
Import Concrete ConcreteWorld ConcreteOutbox Demo.
Abbreviation wf s := (db_wf (tables s)).

Definition history : list (Task * Request) := [(task0, QDeliver asked)].


Lemma start_idempotent_witness :
  let '(answer, s') := start eng task0 def asked s1 in
  (∀ id', answer ≠ Ok (Some id')) ∧ wf s' = wf s1.
Proof.
  apply (start_idempotent eng task0 def asked s1 1%N row1 row1_spec); vm_compute; reflexivity.
Defined.

Lemma resume_idempotent_witness :
  let '(answer, s') := resume eng task0 def answered s2 in
  (∀ ids, answer = Ok ids → ids = []) ∧ tables s' = tables s2.
Proof. apply (resume_idempotent eng task0 def answered s2). by_dec. Defined.

Definition three_times : RetrySpec := {| max_attempts := 3; backoff := Exponential |}.
Lemma retry_decision_witness :
  ∃ d, failure_route eng Transient failure_default None three_times 2 = FrRetry d.
Proof.
  refine (proj2 (proj1 (retry_decision eng failure_default None three_times 2 _) _) _);
    unfold i32_max; simpl; lia.
Defined.

Definition driven : St (Db OutboxTables) DW :=
  (drive eng task0 def (tenant_company company) 1%N (serve_all eng history s0)).2.
End witnesses.
