(* ===== verification/ModuleRegistry.v ===== *)
(** * The module registry

    [backbone-core/src/module.rs] and [backbone-core/src/module_registry.rs]: modules
    declare what they depend on, the registry sorts them by it (a depth-first visit with
    a set of modules in progress), and boots and shuts them down in that order. A module's
    own code ([on_boot], [on_shutdown], [health_check]) is a computation over a state [W] of
    its own choosing. The order in which a [HashMap] is walked is a parameter
    ([HashIter]); the trait's [migration_info] and [seed_info] are its default methods.
    [print_summary] only prints. *)
From Stdlib Require Import Lia.
From S2P Require Import Prelude.

(** ** [module.rs] *)
Record MigrationInfo := { mi_module : string; mi_path : string; mi_count : option Z }.
Record SeedInfo := { si_module : string; si_path : string }.

Record BackboneModule (W : Type) := mkModule {
  name : string;
  version : string;
  dependencies : list string;
  migrations_path : option string;
  seeds_path : option string;
  on_boot : sm W string unit;
  on_shutdown : sm W string unit;
  health_check : sm W Empty_set bool;
}.
Arguments mkModule {_}.
Arguments name {_} _.
Arguments version {_} _.
Arguments dependencies {_} _.
Arguments migrations_path {_} _.
Arguments seeds_path {_} _.
Arguments on_boot {_} _.
Arguments on_shutdown {_} _.
Arguments health_check {_} _.

Definition migration_info {W} (m : BackboneModule W) : option MigrationInfo :=
  (λ path, {| mi_module := name m; mi_path := path; mi_count := None |}) <$> migrations_path m.
Definition seed_info {W} (m : BackboneModule W) : option SeedInfo :=
  (λ path, {| si_module := name m; si_path := path |}) <$> seeds_path m.

(** ** [module_registry.rs] *)
Inductive ModuleRegistryError :=
  | CircularDependency (module : string)
  | UnknownDependency (module dependency : string)
  | DuplicateModule (module : string).

Record ModuleRegistry (W : Type) := mkRegistry {
  modules : gmap string (BackboneModule W);
  order : option (list string);
}.
Arguments mkRegistry {_}.
Arguments modules {_} _.
Arguments order {_} _.

(** The three variables [topological_sort] threads through [visit]. *)
Record VisitState := mkVisit {
  visited : gset string;
  in_progress : gset string;
  result : list string;
}.

(** What [boot_all] and [shutdown_all] answer with: the registry's error or a module's. *)
Inductive BootError := BeRegistry (e : ModuleRegistryError) | BeModule (message : string).

Section registry.
Context {HI : HashIter} {W : Type}.
Abbreviation Registry := (ModuleRegistry W).

Definition new : Registry := mkRegistry ∅ None.

Definition register (m : BackboneModule W) : sm Registry ModuleRegistryError unit :=
  r ← sm_get;
  if decide (is_Some (modules r !! name m)) then sm_err (DuplicateModule (name m))
  else sm_put (mkRegistry (<[name m := m]> (modules r)) None).

(** The same body over a module that is shared already. *)
Definition register_arc (m : BackboneModule W) : sm Registry ModuleRegistryError unit :=
  r ← sm_get;
  if decide (is_Some (modules r !! name m)) then sm_err (DuplicateModule (name m))
  else sm_put (mkRegistry (<[name m := m]> (modules r)) None).

Definition len (r : Registry) : nat := size (modules r).
Definition is_empty (r : Registry) : bool := bool_decide (modules r = ∅).
Definition get (r : Registry) (n : string) : option (BackboneModule W) := modules r !! n.
Definition module_names (r : Registry) : list string := (hash_iter (modules r)).*1.

(** The depth-first visit. Each level of the recursion puts a name in progress, so
    it is never deeper than there are modules; the fuel bounds that depth. *)
Fixpoint visit (fuel : nat) (ms : gmap string (BackboneModule W)) (n : string) :
    sm VisitState ModuleRegistryError unit :=
  match fuel with
  | O => sm_panic
  | S fuel =>
      st ← sm_get;
      if decide (n ∈ visited st) then mret tt
      else if decide (n ∈ in_progress st) then sm_err (CircularDependency n)
      else
        _ ← sm_put (mkVisit (visited st) ({[n]} ∪ in_progress st) (result st));
        _ ← match ms !! n with
            | Some m => sm_iter (visit fuel ms) (dependencies m)
            | None => mret tt
            end;
        st ← sm_get;
        sm_put (mkVisit ({[n]} ∪ visited st) (in_progress st ∖ {[n]}) (result st ++ [n]))
  end.

(** Every dependency is the name of a registered module. *)
Definition validate_dependencies (ms : gmap string (BackboneModule W)) :
    sm VisitState ModuleRegistryError unit :=
  sm_iter (λ m, sm_iter (λ dep,
      if decide (is_Some (ms !! dep)) then mret tt
      else sm_err (UnknownDependency (name m) dep)) (dependencies m))
    (hash_iter ms).*2.

Definition topological_sort (ms : gmap string (BackboneModule W)) :
    res ModuleRegistryError (list string) :=
  (( _ ← validate_dependencies ms;
     _ ← sm_iter (visit (S (size ms)) ms) (hash_iter ms).*1;
     st ← sm_get; mret (result st)) (mkVisit ∅ ∅ [])).1.

Definition modules_ordered : sm Registry ModuleRegistryError (list (BackboneModule W)) :=
  r ← sm_get;
  names ← match order r with
          | Some o => mret o
          | None =>
              o ← sm_lift (topological_sort (modules r));
              _ ← sm_put (mkRegistry (modules r) (Some o));
              mret o
          end;
  mret (omap (λ n, modules r !! n) names).

Definition all_migration_paths : sm Registry ModuleRegistryError (list MigrationInfo) :=
  ms ← modules_ordered; mret (omap migration_info ms).
Definition all_seed_paths : sm Registry ModuleRegistryError (list SeedInfo) :=
  ms ← modules_ordered; mret (omap seed_info ms).

(** The registry beside what the modules act on. *)
Abbreviation App := (Registry * W)%type.
Definition on_registry {E A} (m : sm Registry E A) : sm App E A :=
  sm_zoom fst (λ r s, (r, s.2)) m.
Definition on_module {E A} (m : sm W E A) : sm App E A := sm_zoom snd (λ w s, (s.1, w)) m.

Definition boot_all : sm App BootError unit :=
  ms ← map_err BeRegistry (on_registry modules_ordered);
  sm_iter (λ m, map_err BeModule (on_module (on_boot m))) ms.

(** In reverse; a module that fails to stop is only warned about. *)
Definition shutdown_all : sm App BootError unit :=
  ms ← map_err BeRegistry (on_registry modules_ordered);
  sm_iter (λ m, _ ← attempt (on_module (on_shutdown m)); mret tt) (reverse ms).

Definition health_check_all : sm App Empty_set (gmap string bool) :=
  s ← sm_get;
  sm_fold (λ results kv, healthy ← on_module (health_check kv.2); mret (<[kv.1 := healthy]> results))
    ∅ (hash_iter (modules s.1)).
End registry.

(** ** Instances, to evaluate the definitions *)
Module ConcreteModules.
#[export] Instance by_key : HashIter := { hash_iter V := map_to_list; hash_iter_perm V m := reflexivity _ }.

(** A module whose [on_boot] writes its name down, and whose [on_shutdown] fails. *)
Definition noting (n : string) (deps : list string) : BackboneModule (list string) :=
  mkModule n "1.0.0" deps (Some ("libs/modules/" +:+ n +:+ "/migrations")) None
    (λ w, (Ok tt, w ++ [n])) (λ w, (Err "busy", w ++ ["~" +:+ n])) (λ w, (Ok true, w)).
Definition of_modules (l : list (BackboneModule (list string))) : ModuleRegistry (list string) :=
  foldl (λ r m, (register m r).2) new l.
Definition abc := of_modules
  [noting "module_c" ["module_a"; "module_b"]; noting "module_b" ["module_a"]; noting "module_a" []].

Example abc_boots : (boot_all (abc, [])).2.2 = ["module_a"; "module_b"; "module_c"].
Proof. vm_compute. reflexivity. Qed.
Example abc_stops : (shutdown_all (abc, [])).2.2 = ["~module_c"; "~module_b"; "~module_a"].
Proof. vm_compute. reflexivity. Qed.
Example abc_migrates :
  match (all_migration_paths abc).1 with Ok l => map mi_module l | _ => [] end =
  ["module_a"; "module_b"; "module_c"].
Proof. vm_compute. reflexivity. Qed.
Example circular :
  topological_sort (modules (of_modules [noting "circular_a" ["circular_b"]; noting "circular_b" ["circular_a"]])) =
  Err (CircularDependency "circular_a").
Proof. vm_compute. reflexivity. Qed.
Example unknown :
  topological_sort (modules (of_modules [noting "module_b" ["module_a"]])) =
  Err (UnknownDependency "module_b" "module_a").
Proof. vm_compute. reflexivity. Qed.
Example duplicate : (register (noting "module_a" ["x"]) abc).1 = Err (DuplicateModule "module_a").
Proof. vm_compute. reflexivity. Qed.
End ConcreteModules.
