(* ===== verification/ModuleRegistryFacts.v ===== *)
(** * The module registry: its order

    What [topological_sort] answers on every branch, when it answers an order, that the
    cached order is never stale, and in which order modules are booted and shut down. *)
From Stdlib Require Import Lia.
From S2P Require Import Prelude ModuleRegistry.

(** ** Dependencies as a relation *)
Section depends.
Context {HI : HashIter} {W : Type}.
Implicit Types (ms : gmap string (BackboneModule W)).

Definition depends ms (a b : string) : Prop :=
  ∃ m, ms !! a = Some m ∧ b ∈ dependencies m.
Definition known ms : Prop := ∀ a b, depends ms a b → is_Some (ms !! b).
Definition acyclic ms : Prop := ∀ a, ¬ tc (depends ms) a a.

(** Every name is preceded by what it depends on. *)
Definition dep_ordered ms (l : list string) : Prop :=
  ∀ pre n post, l = pre ++ n :: post → ∀ d, depends ms n d → d ∈ pre.

Lemma dep_ordered_nil ms : dep_ordered ms [].
Proof. intros [] n post; discriminate. Qed.

Lemma dep_ordered_snoc ms l n :
  dep_ordered ms l → (∀ d, depends ms n d → d ∈ l) → dep_ordered ms (l ++ [n]).
Proof.
  intros Hl Hn pre n' post Heq d Hd.
  destruct post as [|x post _] using rev_ind.
  - apply app_inj_tail in Heq as [-> ->]. by apply Hn.
  - rewrite app_comm_cons, app_assoc in Heq. apply app_inj_tail in Heq as [-> ->].
    by eapply Hl.
Qed.

(** In such an order, what a name depends on over several steps precedes it too. *)
Lemma dep_ordered_tc ms l a b : tc (depends ms) a b →
  ∀ pre post, dep_ordered ms l → l = pre ++ a :: post → b ∈ pre.
Proof.
  induction 1 as [a b Hab|a b c Hab _ IH]; intros pre post Hl ->; [by eapply Hl|].
  assert (b ∈ pre) as (p1 & p2 & ->)%list_elem_of_split by by eapply Hl.
  apply elem_of_app. left. eapply (IH p1 (p2 ++ a :: post)); [done|].
  by rewrite <- app_assoc.
Qed.

Lemma depends_dom ms a b : tc (depends ms) a b → is_Some (ms !! a).
Proof. destruct 1 as [a b (m & Hm & _)|a b c (m & Hm & _)]; by exists m. Qed.

Lemma dep_ordered_acyclic ms l :
  NoDup l → (∀ a, is_Some (ms !! a) → a ∈ l) → dep_ordered ms l → acyclic ms.
Proof.
  intros Hnd Hall Hl a Ha. pose proof (depends_dom _ _ _ Ha) as Hin.
  apply Hall in Hin as (pre & post & ->)%list_elem_of_split.
  eapply dep_ordered_tc in Ha; [|exact Hl|done].
  apply NoDup_app in Hnd as (_ & Hdis & _). apply (Hdis a Ha). left.
Qed.
End depends.

(** ** The visit *)
Section visit.
Context {HI : HashIter} {W : Type} (ms : gmap string (BackboneModule W)).
Record visit_inv (st : VisitState) : Prop := {
  vi_visited x : x ∈ visited st ↔ x ∈ result st;
  vi_nodup : NoDup (result st);
  vi_ordered : dep_ordered ms (result st);
  vi_dom x : x ∈ result st → is_Some (ms !! x);
  vi_progress : in_progress st ⊆ dom ms;
  vi_disjoint : visited st ## in_progress st;
}.

(** What a visit of [n] ends in, with the same names in progress as it started with. *)
Definition visit_post (st : VisitState) (ns : list string) (r : res ModuleRegistryError unit)
    (st' : VisitState) : Prop :=
  match r with
  | Ok _ => visit_inv st' ∧ in_progress st' = in_progress st ∧
      (∀ n, n ∈ ns → n ∈ visited st') ∧ visited st ⊆ visited st'
  | Err (CircularDependency c) => tc (depends ms) c c
  | _ => False
  end.

(** A loop of visits, given that each visit does what it should. *)
Lemma wp_visit_all (v : string → sm VisitState ModuleRegistryError unit) P ns st :
  (∀ n st', n ∈ ns → visit_inv st' → in_progress st' = P → wp (v n) (visit_post st' [n]) st') →
  visit_inv st → in_progress st = P →
  wp (sm_iter v ns) (visit_post st ns) st.
Proof.
  revert st. induction ns as [|n ns IH]; intros st Hv Hst HP; cbn [sm_iter].
  { apply wp_ret. split; [done|]. split; [done|]. split; [|done]. by intros n ?%not_elem_of_nil. }
  apply wp_bind. eapply wp_mono; [apply Hv; [left|done|done]|].
  intros [[]|e|] st1 H1; [|done|done]. destruct H1 as (Hst1 & HP1 & Hn1 & Hsub1).
  eapply wp_mono; [apply IH; [|done|congruence]|].
  { intros n' st' Hn'. apply Hv. by right. }
  intros [[]|e|] st2 H2; [|done|done]. destruct H2 as (Hst2 & HP2 & Hn2 & Hsub2).
  split; [done|]. split; [congruence|]. split; [|set_solver].
  intros n' [->|Hn']%elem_of_cons; [|by apply Hn2]. apply Hsub2, Hn1. left.
Qed.

(** The step that ends a visit. *)
Lemma visit_inv_finish P n st :
  visit_inv st → in_progress st = {[n]} ∪ P → n ∉ P → is_Some (ms !! n) →
  (∀ d, depends ms n d → d ∈ visited st) →
  let st' := mkVisit ({[n]} ∪ visited st) (in_progress st ∖ {[n]}) (result st ++ [n]) in
  visit_inv st' ∧ in_progress st' = P.
Proof.
  intros [Hv Hnd Ho Hd Hp Hdis] HP Hn Hms Hdeps st'.
  assert (n ∉ result st) as Hnr.
  { intros Hin. apply (Hdis n); [by apply Hv|]. rewrite HP. set_solver. }
  split; [split; simpl|simpl; rewrite HP; set_solver].
  - intros x. rewrite elem_of_app, list_elem_of_singleton, elem_of_union, elem_of_singleton, Hv. tauto.
  - by apply NoDup_snoc.
  - apply dep_ordered_snoc; [done|]. intros d Hdd. by apply Hv, Hdeps.
  - intros x [Hx|Hx]%elem_of_app; [by apply Hd|]. by apply list_elem_of_singleton in Hx as ->.
  - set_solver.
  - rewrite HP in Hdis |- *. set_solver.
Qed.

Hypothesis Hknown : known ms.

(** A visit whose fuel exceeds the names not yet in progress never runs out of it; it
    ends with its name visited, or on a name that depends on itself. *)
Lemma wp_visit fuel n st :
  size (dom ms ∖ in_progress st) < fuel →
  is_Some (ms !! n) → (∀ p, p ∈ in_progress st → tc (depends ms) p n) →
  visit_inv st → wp (visit fuel ms n) (visit_post st [n]) st.
Proof.
  revert n st. induction fuel as [|fuel IH]; intros n st Hfuel Hn Hpath Hst; [lia|].
  cbn [visit]. apply wp_bind, wp_get. case_decide as Hvis.
  { apply wp_ret. split; [done|]. split; [done|]. split; [|done].
    by intros x ->%list_elem_of_singleton. }
  case_decide as Hprog; [by apply wp_err, Hpath|].
  set (P := in_progress st) in *.
  set (st1 := mkVisit (visited st) ({[n]} ∪ P) (result st)).
  assert (visit_inv st1) as Hst1.
  { destruct Hst as [Hv Hnd Ho Hd Hp Hdis]. split; simpl; [done..| |set_solver].
    apply union_subseteq. split; [|done]. by apply singleton_subseteq_l, elem_of_dom. }
  assert (size (dom ms ∖ in_progress st1) < fuel) as Hfuel1.
  { assert (dom ms ∖ in_progress st1 ⊂ dom ms ∖ P) as Hlt%subset_size; [|lia].
    apply elem_of_dom in Hn. simpl. set_solver. }
  apply wp_bind, wp_put, wp_bind. destruct Hn as [m Hm]. rewrite Hm.
  eapply wp_mono; [apply (wp_visit_all _ ({[n]} ∪ P)); [|exact Hst1|done]|].
  { intros d st' Hd Hst' HP'. assert (depends ms n d) as Hdep by by exists m.
    apply IH; [by rewrite HP'|by apply (Hknown n)| |done].
    intros p. rewrite HP'. intros [Hp|Hp]%elem_of_union; [apply elem_of_singleton in Hp as ->; by apply tc_once|].
    eapply tc_transitive; [by apply Hpath|by apply tc_once]. }
  intros [[]|e|] st2 H2; [|done|done]. destruct H2 as (Hst2 & HP2 & Hall & Hsub).
  apply wp_bind, wp_get, wp_put.
  destruct (visit_inv_finish P n st2) as [Hinv HP]; [done|done|done|by exists m| |].
  { intros d (m' & Hm' & Hd). rewrite Hm in Hm'. injection Hm' as <-. by apply Hall. }
  split; [done|]. split; [done|]. split; [|simpl in *; set_solver].
  intros x ->%list_elem_of_singleton. simpl. set_solver.
Qed.
End visit.

(** ** The sort *)
Section sort.
Context {HI : HashIter} {W : Type}.
Implicit Types (ms : gmap string (BackboneModule W)).

Lemma elem_of_hash_iter {V} (m : gmap string V) k v : (k, v) ∈ hash_iter m ↔ m !! k = Some v.
Proof. by rewrite hash_iter_perm, elem_of_map_to_list. Qed.

Lemma elem_of_hash_keys ms k : k ∈ (hash_iter ms).*1 ↔ is_Some (ms !! k).
Proof.
  rewrite list_elem_of_fmap. split.
  - intros ([k' m] & -> & Hin). apply elem_of_hash_iter in Hin. by exists m.
  - intros [m Hm]. exists (k, m). split; [done|]. by apply elem_of_hash_iter.
Qed.

(** A dependency that names no module. *)
Definition unknown_dep ms (n d : string) : Prop :=
  ∃ k m, ms !! k = Some m ∧ name m = n ∧ d ∈ dependencies m ∧ ms !! d = None.

Lemma wp_validate ms st :
  wp (validate_dependencies ms) (λ r st', st' = st ∧
    match r with
    | Ok _ => known ms
    | Err e => ∃ n d, e = UnknownDependency n d ∧ unknown_dep ms n d
    | Panic => False
    end) st.
Proof.
  eapply wp_mono; [apply (wp_iter_check _ _ (λ m, Forall (λ d, is_Some (ms !! d)) (dependencies m))
    (λ e, ∃ n d, e = UnknownDependency n d ∧ unknown_dep ms n d))|].
  - intros m ([k m'] & -> & Hin%elem_of_hash_iter)%list_elem_of_fmap.
    apply wp_iter_check. intros d Hd. case_decide as Hms; [by apply wp_ret|]. apply wp_err.
    split; [done|]. exists (name m'), d. split; [done|]. exists k, m'.
    by apply eq_None_not_Some in Hms.
  - intros [[]|e|] st' [-> H]; (split; [done|]); [|done..].
    intros a b (m & Hm & Hb). rewrite Forall_forall in H. specialize (H m).
    rewrite Forall_forall in H. apply H; [|done].
    apply list_elem_of_fmap. exists (a, m). split; [done|]. by apply elem_of_hash_iter.
Qed.

Lemma visit_inv_empty ms : visit_inv ms (mkVisit ∅ ∅ []).
Proof. split; simpl; [set_solver|constructor|apply dep_ordered_nil|set_solver..]. Qed.

(** What the sort answers, on every branch. *)
Lemma topological_sort_cases ms :
  match topological_sort ms with
  | Ok l => known ms ∧ NoDup l ∧ (∀ n, n ∈ l ↔ is_Some (ms !! n)) ∧ dep_ordered ms l
  | Err (UnknownDependency n d) => unknown_dep ms n d
  | Err (CircularDependency c) => known ms ∧ tc (depends ms) c c
  | Err (DuplicateModule _) | Panic => False
  end.
Proof.
  unfold topological_sort. match goal with |- match (?m ?s).1 with _ => _ end =>
    enough (wp m (λ r _, match r with
      | Ok l => known ms ∧ NoDup l ∧ (∀ n, n ∈ l ↔ is_Some (ms !! n)) ∧ dep_ordered ms l
      | Err (UnknownDependency n d) => unknown_dep ms n d
      | Err (CircularDependency c) => known ms ∧ tc (depends ms) c c
      | Err (DuplicateModule _) | Panic => False end) s) as H by exact H end.
  apply wp_bind. eapply wp_mono; [apply wp_validate|].
  intros [[]|e|] st [-> Hr]; [|by destruct Hr as (n & d & -> & ?)|done].
  apply wp_bind. eapply wp_mono; [apply (wp_visit_all ms (visit (S (size ms)) ms) (∅ : gset string))|].
  - intros n st Hn Hst HP. apply wp_visit; [done| |by apply elem_of_hash_keys| |done].
    + rewrite HP, difference_empty_L, size_dom. lia.
    + rewrite HP. set_solver.
  - apply visit_inv_empty.
  - done.
  - intros [[]|[]|] st H; [|done..]. destruct H as (Hst & _ & Hall & _).
    apply wp_bind, wp_get, wp_ret. destruct Hst as [Hv Hnd Ho Hd _ _].
    split; [done|]. split; [done|]. split; [|done]. intros n. split; [apply Hd|].
    intros Hn. by apply Hv, Hall, elem_of_hash_keys.
Qed.

Lemma topological_sort_perm ms l :
  topological_sort ms = Ok l → l ≡ₚ (map_to_list ms).*1.
Proof.
  intros H. pose proof (topological_sort_cases ms) as Hc. rewrite H in Hc.
  destruct Hc as (_ & Hnd & Hin & _). apply NoDup_Permutation; [done|apply NoDup_fst_map_to_list|].
  intros n. rewrite Hin, <- elem_of_hash_keys. by rewrite hash_iter_perm.
Qed.

Lemma topological_sort_acyclic ms : (∃ l, topological_sort ms = Ok l) ↔ known ms ∧ acyclic ms.
Proof.
  pose proof (topological_sort_cases ms) as Hc. split.
  - intros [l Hl]. rewrite Hl in Hc. destruct Hc as (Hk & Hnd & Hin & Ho).
    split; [done|]. eapply dep_ordered_acyclic; [done| |done]. intros a. apply Hin.
  - intros [Hk Ha]. destruct (topological_sort ms) as [l|[c|n d|n]|]; [by eauto| |..]; [| |done..].
    + destruct Hc as [_ Hc]. by apply Ha in Hc.
    + destruct Hc as (k & m & Hm & _ & Hd & Hnone). destruct (Hk k d) as [x Hx]; [by exists m|].
      by rewrite Hx in Hnone.
Qed.
End sort.

(** ** The registry in use *)
Section use.
Context {HI : HashIter} {W : Type}.
Abbreviation Registry := (ModuleRegistry W).
Abbreviation App := (Registry * W)%type.

(** What the framework may ask of the registry. *)
Inductive RegOp :=
  | RRegister (m : BackboneModule W)
  | RRegisterArc (m : BackboneModule W)
  | ROrdered | RMigrations | RSeeds | RBoot | RShutdown | RHealth.
Definition reg_serve (op : RegOp) (s : App) : App :=
  match op with
  | RRegister m => (on_registry (register m) s).2
  | RRegisterArc m => (on_registry (register_arc m) s).2
  | ROrdered => (on_registry modules_ordered s).2
  | RMigrations => (on_registry all_migration_paths s).2
  | RSeeds => (on_registry all_seed_paths s).2
  | RBoot => (boot_all s).2
  | RShutdown => (shutdown_all s).2
  | RHealth => (health_check_all s).2
  end.
Definition reg_serve_all (ops : list RegOp) (s : App) : App := foldl (λ s op, reg_serve op s) s ops.

(** A cached order is the one the sort would find now; a module is kept under its name. *)
Record reg_ok (r : Registry) : Prop := {
  ro_order o : order r = Some o → topological_sort (modules r) = Ok o;
  ro_name k m : modules r !! k = Some m → name m = k;
}.
Definition reg_keeps : relation App := λ s s', reg_ok s.1 → reg_ok s'.1.

#[export] Instance reg_keeps_preorder : PreOrder reg_keeps.
Proof. unfold reg_keeps. split; [by intros s H|]. intros s1 s2 s3 H1 H2 H. auto. Qed.

Lemma reg_ok_register m (r : Registry) : reg_ok r → reg_ok (register m r).2.
Proof.
  intros Hr. unfold register, mbind, sm_bind, sm_get.
  destruct (decide (is_Some (modules r !! name m))); [done|]. simpl.
  split; simpl; [done|]. intros k m'.
  intros [[<- <-]|[_ H']]%lookup_insert_Some; [done|by apply (ro_name r Hr)].
Qed.

Lemma wp_modules_ordered (r : Registry) : reg_ok r →
  wp modules_ordered (λ a r', reg_ok r' ∧ modules r' = modules r ∧
    a = match topological_sort (modules r) with
        | Ok o => Ok (omap (λ n, modules r !! n) o)
        | Err e => Err e
        | Panic => Panic
        end) r.
Proof.
  intros Hr. unfold modules_ordered. apply wp_bind, wp_get, wp_bind.
  destruct (order r) as [o|] eqn:Ho.
  - apply wp_ret, wp_ret. by rewrite (ro_order r Hr o Ho).
  - apply wp_bind, wp_lift. destruct (topological_sort (modules r)) as [o|e|] eqn:Ht; [|done..].
    apply wp_bind, wp_put, wp_ret, wp_ret. split; [|done].
    split; simpl; [by intros o' [= <-]|apply Hr].
Qed.

Lemma on_registry_keeps {E A} (m : sm Registry E A) :
  (∀ r, reg_ok r → reg_ok (m r).2) → keeps reg_keeps (on_registry m).
Proof. intros H s Hs. unfold on_registry, sm_zoom. specialize (H s.1 Hs). by destruct (m s.1). Qed.
Lemma on_module_keeps {E A} (m : sm W E A) : keeps reg_keeps (on_module m).
Proof. intros s Hs. unfold on_module, sm_zoom. by destruct (m s.2). Qed.
Lemma modules_ordered_keeps : keeps reg_keeps (on_registry modules_ordered).
Proof. apply on_registry_keeps. intros r Hr. by apply (wp_modules_ordered r Hr). Qed.

Lemma reg_serve_ok op s : reg_ok s.1 → reg_ok (reg_serve op s).1.
Proof.
  assert (∀ A (f : list (BackboneModule W) → A), keeps reg_keeps
    (on_registry (E:=ModuleRegistryError) (ms ← modules_ordered; mret (f ms)))) as Hmap.
  { intros A f. apply on_registry_keeps. intros r Hr. unfold mbind, sm_bind.
    pose proof (wp_modules_ordered r Hr) as (H & _). by destruct (modules_ordered r) as [[?|?|] ?]. }
  intros Hs. destruct op; simpl.
  - revert s Hs. apply on_registry_keeps. apply reg_ok_register.
  - revert s Hs. apply on_registry_keeps. apply reg_ok_register.
  - by apply (modules_ordered_keeps s).
  - by apply (Hmap _ (omap migration_info) s).
  - by apply (Hmap _ (omap seed_info) s).
  - revert s Hs. change (keeps reg_keeps boot_all).
    apply keeps_bind; [tc_solve|apply keeps_map_err, modules_ordered_keeps|].
    intros ms. apply keeps_iter; [tc_solve|]. intros m. apply keeps_map_err, on_module_keeps.
  - revert s Hs. change (keeps reg_keeps shutdown_all).
    apply keeps_bind; [tc_solve|apply keeps_map_err, modules_ordered_keeps|].
    intros ms. apply keeps_iter; [tc_solve|]. intros m. apply keeps_bind; [tc_solve| |].
    + apply keeps_attempt, on_module_keeps.
    + intros a. apply keeps_ret, _.
  - revert s Hs. change (keeps reg_keeps health_check_all).
    apply keeps_bind; [tc_solve|by intros s H|]. intros s.
    apply keeps_fold; [tc_solve|]. intros b kv.
    apply keeps_bind; [tc_solve|apply on_module_keeps|]. intros a. apply keeps_ret, _.
Qed.

Lemma reg_ok_new : reg_ok (new : Registry).
Proof. split; simpl; [done|]. intros k m. by rewrite lookup_empty. Qed.
Lemma reg_serve_all_ok ops s : reg_ok s.1 → reg_ok (reg_serve_all ops s).1.
Proof. revert s. induction ops as [|op ops IH]; intros s Hs; [done|]. by apply IH, reg_serve_ok. Qed.

(** ** What the modules' own code was made to do *)

(** The modules' code was run one after the other, each answering as it should. *)
Inductive ran (code : BackboneModule W → sm W string unit) (fine : res string unit → Prop) :
    list (BackboneModule W) → W → W → Prop :=
  | ran_nil w : ran code fine [] w w
  | ran_cons m ms w w1 w2 : fine (code m w).1 → (code m w).2 = w1 → ran code fine ms w1 w2 →
      ran code fine (m :: ms) w w2.

(** The loop of [boot_all] over its modules. *)
Lemma boot_loop ms r w :
  wp (sm_iter (λ m, map_err BeModule (on_module (on_boot m))) ms) (λ a s', s'.1 = r ∧
    match a with
    | Ok _ => ran on_boot (λ a, a = Ok tt) ms w s'.2
    | Err e => ∃ pre m post w1 msg, ms = pre ++ m :: post ∧ ran on_boot (λ a, a = Ok tt) pre w w1 ∧
        e = BeModule msg ∧ on_boot m w1 = (Err msg, s'.2)
    | Panic => ∃ pre m post w1, ms = pre ++ m :: post ∧ ran on_boot (λ a, a = Ok tt) pre w w1 ∧
        on_boot m w1 = (Panic, s'.2)
    end) (r, w).
Proof.
  revert w. induction ms as [|m ms IH]; intros w; cbn [sm_iter].
  { apply wp_ret. split; [done|constructor]. }
  apply wp_bind, wp_map_err. unfold wp at 1, on_module, sm_zoom. simpl.
  destruct (on_boot m w) as [[[]|e|] w1] eqn:Hm; simpl.
  - eapply wp_mono; [apply IH|]. intros [[]|e|] [r' w'] [Hr H]; simpl in *; (split; [done|]).
    + by apply (ran_cons _ _ m ms w w1); rewrite ?Hm.
    + destruct H as (pre & m' & post & w2 & msg & -> & Hpre & -> & Hm').
      exists (m :: pre), m', post, w2, msg. split; [done|]. split; [|done].
      by apply (ran_cons _ _ m pre w w1); rewrite ?Hm.
    + destruct H as (pre & m' & post & w2 & -> & Hpre & Hm').
      exists (m :: pre), m', post, w2. split; [done|]. split; [|done].
      by apply (ran_cons _ _ m pre w w1); rewrite ?Hm.
  - split; [done|]. exists [], m, ms, w, e. split; [done|]. split; [constructor|done].
  - split; [done|]. exists [], m, ms, w. split; [done|]. split; [constructor|done].
Qed.

(** The loop of [shutdown_all]: no module's failure stops it. *)
Lemma shutdown_loop ms r w :
  wp (sm_iter (E:=BootError) (λ m, _ ← attempt (on_module (on_shutdown m)); mret tt) ms) (λ a s', s'.1 = r ∧
    match a with
    | Ok _ => ran on_shutdown (λ a, a ≠ Panic) ms w s'.2
    | Err _ => False
    | Panic => ∃ pre m post w1, ms = pre ++ m :: post ∧ ran on_shutdown (λ a, a ≠ Panic) pre w w1 ∧
        on_shutdown m w1 = (Panic, s'.2)
    end) (r, w).
Proof.
  revert w. induction ms as [|m ms IH]; intros w; cbn [sm_iter].
  { apply wp_ret. split; [done|constructor]. }
  apply wp_bind, wp_bind, wp_attempt. unfold wp at 1, on_module, sm_zoom. simpl.
  assert ((on_shutdown m w).1 ≠ Panic → wp (mret (M:=sm App BootError) tt ≫= λ _, sm_iter (E:=BootError)
    (λ m, _ ← attempt (on_module (on_shutdown m)); mret tt) ms) (λ a s', s'.1 = r ∧
    match a with
    | Ok _ => ran on_shutdown (λ a, a ≠ Panic) (m :: ms) w s'.2
    | Err _ => False
    | Panic => ∃ pre m' post w1, m :: ms = pre ++ m' :: post ∧
        ran on_shutdown (λ a, a ≠ Panic) pre w w1 ∧ on_shutdown m' w1 = (Panic, s'.2)
    end) (r, (on_shutdown m w).2)) as Hnext.
  { intros Hnp. apply wp_bind, wp_ret. eapply wp_mono; [apply IH|].
    intros [[]|e|] [r' w'] [Hr H]; simpl in *; (split; [done|]); [|done|].
    - by eapply ran_cons.
    - destruct H as (pre & m' & post & w2 & -> & Hpre & Hm').
      exists (m :: pre), m', post, w2. split; [done|]. split; [|done]. by eapply ran_cons. }
  destruct (on_shutdown m w) as [[[]|e|] w1] eqn:Hm; simpl in *; [by apply Hnext..|].
  split; [done|]. exists [], m, ms, w. split; [done|]. split; [constructor|done].
Qed.
End use.

(** ** The theorems *)
Section properties.
Context {HI : HashIter} {W : Type}.
Implicit Types (ms : gmap string (BackboneModule W)).

(** All the registered modules, each after what it depends on. *)
Definition in_order ms (l : list (BackboneModule W)) : Prop :=
  l ≡ₚ (map_to_list ms).*2 ∧ dep_ordered ms (name <$> l).

Lemma omap_lookup_names ms (o : list string) :
  (∀ k m, ms !! k = Some m → name m = k) → (∀ n, n ∈ o → is_Some (ms !! n)) →
  name <$> omap (λ n, ms !! n) o = o.
Proof.
  intros Hname. induction o as [|n o IH]; intros Ho; [done|]. simpl.
  destruct (Ho n) as [m Hm]; [left|]. rewrite Hm. simpl. f_equal; [by apply Hname|].
  apply IH. intros n' Hn'. apply Ho. by right.
Qed.

Lemma sorted_in_order ms o :
  (∀ k m, ms !! k = Some m → name m = k) → topological_sort ms = Ok o →
  in_order ms (omap (λ n, ms !! n) o).
Proof.
  intros Hname Ho. pose proof (topological_sort_cases ms) as Hc. rewrite Ho in Hc.
  destruct Hc as (_ & _ & Hin & Hord). split.
  - rewrite (topological_sort_perm ms o Ho).
    assert (∀ l : list (string * BackboneModule W), (∀ k m, (k, m) ∈ l → ms !! k = Some m) →
      omap (λ n, ms !! n) l.*1 = l.*2) as H.
    { induction l as [|[k m] l IH]; intros Hl; [done|]. simpl. rewrite (Hl k m) by left.
      f_equal. apply IH. intros k' m' H'. apply Hl. by right. }
    rewrite H; [done|]. intros k m. apply elem_of_map_to_list.
  - by rewrite omap_lookup_names; [|done|intros n Hn; by apply Hin].
Qed.

(** C16: what sorting the modules answers. An order has every registered module
    once, each after all it depends on; an unknown dependency is one that is declared and
    not registered; a circular one is a module that depends on itself, over however many
    steps. There is no other answer: the visit always ends. And an order is answered
    exactly when every dependency is registered and none is circular, whatever order the
    hash map is walked in. *)
Theorem topological_sort_spec ms :
  match topological_sort ms with
  | Ok l => l ≡ₚ (map_to_list ms).*1 ∧ dep_ordered ms l
  | Err (UnknownDependency n d) => unknown_dep ms n d
  | Err (CircularDependency c) => tc (depends ms) c c
  | Err (DuplicateModule _) | Panic => False
  end ∧
  ((∃ l, topological_sort ms = Ok l) ↔ known ms ∧ acyclic ms).
Proof.
  split; [|apply topological_sort_acyclic].
  pose proof (topological_sort_cases ms) as Hc. pose proof (topological_sort_perm ms) as Hp.
  destruct (topological_sort ms) as [l|[c|n d|n]|]; [|by destruct Hc|done..].
  split; [by apply Hp|]. by destruct Hc as (_ & _ & _ & ?).
Qed.

(** the cached order is never stale. After any sequence of registrations, queries,
    boots, shutdowns and health checks, [modules_ordered] answers what sorting the modules
    registered by then answers, leaves them as they are, and its order has every one of
    them after what it depends on. *)
Theorem modules_ordered_fresh (ops : list (RegOp (W:=W))) (w : W) :
  let r := (reg_serve_all ops (new, w)).1 in
  let '(answer, r') := modules_ordered r in
  modules r' = modules r ∧
  match answer, topological_sort (modules r) with
  | Ok l, Ok o => l = omap (λ n, modules r !! n) o ∧ in_order (modules r) l
  | Err e, Err e' => e = e'
  | _, _ => False
  end.
Proof.
  intros r. pose proof (reg_serve_all_ok ops (new, w) reg_ok_new) as Hr. fold r in Hr.
  pose proof (wp_modules_ordered r Hr) as H. unfold wp in H.
  destruct (modules_ordered r) as [answer r']. destruct H as (_ & Hms & Ha). simpl in Ha, Hms.
  split; [done|]. rewrite Ha. pose proof (topological_sort_cases (modules r)) as Hc.
  destruct (topological_sort (modules r)) as [o|e|] eqn:Ho; [|done..].
  split; [done|]. apply sorted_in_order; [apply (ro_name r Hr)|done].
Qed.

(** modules are booted after what they depend on. Booting runs [on_boot] of every
    registered module, each after those of all its dependencies have succeeded; where one
    fails or panics, exactly those before it have been booted and none after it. Where
    the modules cannot be ordered, none is booted. *)
Theorem boot_all_order (ops : list (RegOp (W:=W))) (w0 w : W) :
  let r := (reg_serve_all ops (new, w0)).1 in
  let '(answer, (r', w')) := boot_all (r, w) in
  modules r' = modules r ∧
  match answer with
  | Ok _ => ∃ l, in_order (modules r) l ∧ ran on_boot (λ a, a = Ok tt) l w w'
  | Err (BeModule e) => ∃ pre m post w1, in_order (modules r) (pre ++ m :: post) ∧
      ran on_boot (λ a, a = Ok tt) pre w w1 ∧ on_boot m w1 = (Err e, w')
  | Err (BeRegistry e) => topological_sort (modules r) = Err e ∧ w' = w
  | Panic => ∃ pre m post w1, in_order (modules r) (pre ++ m :: post) ∧
      ran on_boot (λ a, a = Ok tt) pre w w1 ∧ on_boot m w1 = (Panic, w')
  end.
Proof.
  intros r. pose proof (reg_serve_all_ok ops (new, w0) reg_ok_new) as Hr. fold r in Hr.
  pose proof (wp_modules_ordered r Hr) as H. unfold wp in H.
  unfold boot_all, map_err at 1, on_registry, sm_zoom, mbind, sm_bind. simpl.
  destruct (modules_ordered r) as [answer r']. simpl in H. destruct H as (_ & Hms & ->). simpl.
  pose proof (topological_sort_cases (modules r)) as Hc.
  destruct (topological_sort (modules r)) as [o|e|] eqn:Ho; [|by destruct e|done]. simpl.
  pose proof (sorted_in_order (modules r) o (ro_name r Hr) Ho) as Hord.
  pose proof (boot_loop (omap (λ n, modules r !! n) o) r' w) as Hb. unfold wp in Hb.
  match goal with |- let '(_, _) := ?x in _ => change x with
    (sm_iter (λ m, map_err BeModule (on_module (on_boot m))) (omap (λ n, modules r !! n) o) (r', w)) end.
  destruct (sm_iter _ _ _) as [[[]|e|] [r'' w'']]; destruct Hb as [Hr' Hb]; simpl in *; subst r'';
    (split; [done|]).
  - by eexists.
  - destruct Hb as (pre & m & post & w1 & msg & Heq & Hpre & -> & Hm).
    exists pre, m, post, w1. by rewrite <- Heq.
  - destruct Hb as (pre & m & post & w1 & Heq & Hpre & Hm). exists pre, m, post, w1. by rewrite <- Heq.
Qed.

(** modules are shut down before what they depend on. Shutting down runs
    [on_shutdown] of every registered module in the reverse of such an order, whatever the
    modules answer; no module's error is the answer. Only a panic stops it. *)
Theorem shutdown_all_order (ops : list (RegOp (W:=W))) (w0 w : W) :
  let r := (reg_serve_all ops (new, w0)).1 in
  let '(answer, (r', w')) := shutdown_all (r, w) in
  modules r' = modules r ∧
  match answer with
  | Ok _ => ∃ l, in_order (modules r) l ∧ ran on_shutdown (λ a, a ≠ Panic) (reverse l) w w'
  | Err (BeModule _) => False
  | Err (BeRegistry e) => topological_sort (modules r) = Err e ∧ w' = w
  | Panic => ∃ l pre m post w1, in_order (modules r) l ∧ reverse l = pre ++ m :: post ∧
      ran on_shutdown (λ a, a ≠ Panic) pre w w1 ∧ on_shutdown m w1 = (Panic, w')
  end.
Proof.
  intros r. pose proof (reg_serve_all_ok ops (new, w0) reg_ok_new) as Hr. fold r in Hr.
  pose proof (wp_modules_ordered r Hr) as H. unfold wp in H.
  unfold shutdown_all, map_err at 1, on_registry, sm_zoom. unfold mbind at 1, sm_bind at 1. simpl.
  destruct (modules_ordered r) as [answer r']. simpl in H. destruct H as (_ & Hms & ->). simpl.
  pose proof (topological_sort_cases (modules r)) as Hc.
  destruct (topological_sort (modules r)) as [o|e|] eqn:Ho; [|by destruct e|done]. simpl.
  pose proof (sorted_in_order (modules r) o (ro_name r Hr) Ho) as Hord.
  pose proof (shutdown_loop (reverse (omap (λ n, modules r !! n) o)) r' w) as Hb. unfold wp in Hb.
  destruct (sm_iter _ _ _) as [[[]|e|] [r'' w'']]; destruct Hb as [Hr' Hb]; simpl in *; subst r'';
    (split; [done|]); [by eexists|done|].
  destruct Hb as (pre & m & post & w1 & Heq & Hpre & Hm). eexists _, pre, m, post, w1. done.
Qed.
End properties.

(** ** An instance *)
Section witnesses.
Import ConcreteModules.
Lemma topological_sort_spec_witness : known (modules abc) ∧ acyclic (modules abc).
Proof.
  apply (proj1 (proj2 (topological_sort_spec (modules abc)))).
  exists ["module_a"; "module_b"; "module_c"]. vm_compute. reflexivity.
Defined.
End witnesses.
