(* ===== verification/StateMachine.v ===== *)
(** * Domain state machines

    [backbone-core/src/state_machine.rs]: a machine brings its current state and its
    transition table ([StateMachineBehavior]'s required methods), its transitions their
    targets and roles ([TransitionMeta]); the trait's default methods do the rest. The
    traits are type classes, the default methods definitions over them. *)
From S2P Require Import Prelude.

Inductive StateMachineError :=
  | InvalidState (state : string)
  | InvalidTransition (transition : string)
  | TransitionNotAllowed (transition from : string)
  | RoleNotAuthorized (role transition : string)
  | GuardFailed (transition : string)
  | FinalStateReached (state : string).

(** [TransitionMeta<S>: Copy + Display] *)
Class TransitionMeta (S T : Type) := {
  target_state : T → S;
  all : list T;
  allowed_roles : T → list string;
  transition_to_string : T → string;
}.

(** [StateMachineBehavior]'s associated types and required methods; reading back the
    state that was set is what the two accessors are for. *)
Class StateMachineBehavior (M S T : Type) `{TransitionMeta S T} := {
  state_eq_dec :: EqDecision S;
  state_to_string : S → string;
  default_machine : M;
  current_state : M → S;
  set_current_state : S → M → M;
  can_transition : M → T → bool;
  current_set s m : current_state (set_current_state s m) = s;
}.

Section machine.
Context {M S T : Type} `{HT : TransitionMeta S T} {HB : StateMachineBehavior M S T}.

Definition from_state (s : S) : M := set_current_state s default_machine.

Definition can_transition_with_role (m : M) (t : T) (role : string) : bool :=
  if negb (can_transition m t) then false
  else
    let allowed := allowed_roles t in
    bool_decide (allowed = []) || existsb (λ r, bool_decide (r = role) || bool_decide (r = "*")) allowed.

Definition transition (t : T) : sm M StateMachineError S :=
  m ← sm_get;
  if negb (can_transition m t) then
    sm_err (TransitionNotAllowed (transition_to_string t) (state_to_string (current_state m)))
  else
    let next := target_state t in
    _ ← sm_put (set_current_state next m);
    mret next.

Definition transition_with_role (t : T) (role : string) : sm M StateMachineError S :=
  m ← sm_get;
  if negb (can_transition m t) then
    sm_err (TransitionNotAllowed (transition_to_string t) (state_to_string (current_state m)))
  else if negb (can_transition_with_role m t role) then
    sm_err (RoleNotAuthorized role (transition_to_string t))
  else
    let next := target_state t in
    _ ← sm_put (set_current_state next m);
    mret next.

Definition available_transitions (m : M) : list T :=
  filter (λ t, can_transition m t = true) all.
Definition available_transitions_for_role (m : M) (role : string) : list T :=
  filter (λ t, can_transition_with_role m t role = true) all.

Definition transition_to_state (target : S) : sm M StateMachineError S :=
  m ← sm_get;
  let valid := List.find (λ t, bool_decide (target_state t = target))
                 (filter (λ t, can_transition m t = true) all) in
  match valid with
  | Some t => transition t
  | None => sm_err (TransitionNotAllowed (state_to_string target) (state_to_string (current_state m)))
  end.

(** ** What may be asked of a machine *)
Inductive SmRequest := Fire (t : T) | FireAs (t : T) (role : string) | Goto (target : S).
Definition sm_serve (q : SmRequest) : sm M StateMachineError S :=
  match q with
  | Fire t => transition t
  | FireAs t role => transition_with_role t role
  | Goto target => transition_to_state target
  end.

(** The roles a transition admits: any where none is named. *)
Definition admits (t : T) (role : string) : Prop :=
  allowed_roles t = [] ∨ role ∈ allowed_roles t ∨ "*" ∈ allowed_roles t.

(** The transitions a request can be served by. *)
Definition serves (q : SmRequest) (t : T) : Prop :=
  match q with
  | Fire t' => t = t'
  | FireAs t' role => t = t' ∧ admits t role
  | Goto target => t ∈ all ∧ target_state t = target
  end.

Lemma can_transition_with_role_spec m t role :
  can_transition_with_role m t role = true ↔ can_transition m t = true ∧ admits t role.
Proof.
  unfold can_transition_with_role, admits. destruct (can_transition m t); simpl; [|naive_solver].
  rewrite orb_true_iff, bool_decide_eq_true, existsb_exists. split.
  - intros [?|(r & Hr%list_elem_of_In & Hx)]; [by auto|]. split; [done|]. right.
    apply orb_true_iff in Hx as [Hx|Hx]; apply bool_decide_eq_true in Hx as ->; auto.
  - intros [_ [?|[H|H]]]; [by left|..]; right; eexists; (split; [by apply list_elem_of_In|]);
      apply orb_true_iff; [left|right]; by apply bool_decide_eq_true.
Qed.

Lemma wp_transition m t :
  wp (transition t) (λ a m', if can_transition m t
    then a = Ok (target_state t) ∧ m' = set_current_state (target_state t) m
    else (∃ e, a = Err e) ∧ m' = m) m.
Proof.
  unfold transition. apply wp_bind, wp_get. destruct (can_transition m t); simpl; [done|].
  apply wp_err. split; [by eexists|done].
Qed.

(** a machine moves along its table only, and wherever the table lets it. A request
    (a transition, a transition by a role, a target state) that answers a state took a
    transition that serves the request and is allowed from where the machine was, and the
    machine is in that state, the transition's target; one that fails left the machine as it
    was, and then no transition that serves the request is allowed. It never panics. *)
Theorem sm_serve_spec (q : SmRequest) (m : M) :
  let '(answer, m') := sm_serve q m in
  match answer with
  | Ok s => s = current_state m' ∧ ∃ t, serves q t ∧ can_transition m t = true ∧
      s = target_state t ∧ m' = set_current_state s m
  | Err _ => m' = m ∧ ∀ t, serves q t → can_transition m t = false
  | Panic => False
  end.
Proof.
  destruct q as [t|t role|target]; simpl.
  - pose proof (wp_transition m t) as H. unfold wp in H. destruct (transition t m) as [a m']. simpl in H.
    destruct (can_transition m t) eqn:Hc; [destruct H as [-> ->]|destruct H as [[e ->] ->]].
    + rewrite current_set. split; [done|]. by exists t.
    + split; [done|]. by intros t' ->.
  - unfold transition_with_role, mbind, sm_bind, sm_get. simpl.
    destruct (can_transition m t) eqn:Hc; simpl; [|split; [done|]; by intros t' [-> _]].
    pose proof (can_transition_with_role_spec m t role) as Hr.
    destruct (can_transition_with_role m t role); simpl.
    + rewrite current_set. split; [done|]. exists t. destruct Hr as [Hr _]. destruct (Hr eq_refl). done.
    + split; [done|]. intros t' [-> Ha]. destruct Hr as [_ Hr]. by discriminate Hr.
  - unfold transition_to_state. unfold mbind, sm_bind, sm_get.
    destruct (List.find _ _) as [t|] eqn:Hf.
    + apply find_Some_elem in Hf as [[Hc Hin]%list_elem_of_filter Htgt].
      apply bool_decide_eq_true in Htgt as <-.
      pose proof (wp_transition m t) as H. unfold wp in H. destruct (transition t m) as [a m'].
      simpl in H. rewrite Hc in H. destruct H as [-> ->]. rewrite current_set. split; [done|]. by exists t.
    + simpl. split; [done|]. intros t [Hin Htgt]. apply not_true_is_false. intros Hc.
      assert (bool_decide (target_state t = target) = false) as Hn.
      { apply (List.find_none _ _ Hf). by apply list_elem_of_In, list_elem_of_filter. }
      by apply bool_decide_eq_false in Hn.
Qed.
End machine.

(** ** An instance: the machine of the module's documentation *)
Module Agent.
Inductive AgentState := PendingVerification | Active | Terminated.
Inductive AgentTransition := Approve | Terminate.
#[export] Instance agent_state_eq : EqDecision AgentState.
Proof. solve_decision. Defined.
#[export] Instance agent_meta : TransitionMeta AgentState AgentTransition := {
  target_state t := match t with Approve => Active | Terminate => Terminated end;
  all := [Approve; Terminate];
  allowed_roles t := match t with Approve => ["admin"] | Terminate => [] end;
  transition_to_string t := match t with Approve => "approve" | Terminate => "terminate" end;
}.
#[export] Instance agent : StateMachineBehavior AgentState AgentState AgentTransition := {
  state_to_string s := match s with PendingVerification => "pending" | Active => "active" | Terminated => "terminated" end;
  default_machine := PendingVerification;
  current_state m := m;
  set_current_state s _ := s;
  can_transition m t := match m, t with
    | PendingVerification, _ => true | Active, Terminate => true | _, _ => false end;
  current_set s m := eq_refl;
}.
Example approve_admin :
  sm_serve (FireAs Approve "admin") PendingVerification = (Ok Active, Active).
Proof. reflexivity. Qed.
Example approve_clerk :
  sm_serve (FireAs Approve "clerk") PendingVerification =
  (Err (RoleNotAuthorized "clerk" "approve"), PendingVerification).
Proof. reflexivity. Qed.
Example terminated_stays :
  sm_serve (Goto Active) Terminated = (Err (TransitionNotAllowed "active" "terminated"), Terminated).
Proof. reflexivity. Qed.

Lemma sm_serve_spec_witness : can_transition (M:=AgentState) Terminated Approve = false.
Proof. exact (proj2 (sm_serve_spec (Goto Active) Terminated) Approve (conj (list_elem_of_here _ _) eq_refl)). Defined.
End Agent.
