(* ===== verification/RateLimit.v ===== *)
(** * Rate limiting: the counters and the limiter

    [backbone-rate-limit/src/types.rs], [storage.rs] (the in-memory backend) and
    [limiter.rs]. Times are unix seconds, counts and times are [u64]. The system clock
    is a parameter: each reading may answer anything, and gives the seconds since the
    epoch or none when it stands before it. [increment] holds the map's write
    lock from its clock reading to its end, so calls take effect one after the other. *)
From Stdlib Require Import ZArith Lia.
From S2P Require Import Prelude.

Local Open Scope Z_scope.

(** ** [types.rs] *)
Record RateLimitConfig := mkConfig {
  key : string;
  max_requests : Z;
  window_seconds : Z;
  enabled : bool;
  lockout_seconds : option Z;
}.
Definition config_new (key : string) (max window : Z) (enabled : bool) : RateLimitConfig :=
  mkConfig key max window enabled None.
Definition with_lockout (c : RateLimitConfig) (seconds : Z) : RateLimitConfig :=
  mkConfig (key c) (max_requests c) (window_seconds c) (enabled c) (Some seconds).

Record IncrementOutcome := mkOutcome {
  count : Z;
  locked_until : option Z;
}.

Record RateLimitResponse := mkResponse {
  allowed : bool;
  remaining : Z;
  reset_at : option Z;
  message : option string;
  current_count : Z;
  exceeded : bool;
  r_locked_until : option Z;
}.

Inductive RateLimitError :=
  | Exceeded | IncrementError | GetError | ResetError
  | RedisConnection (e : string) | RedisOperation (e : string).

(** ** The clock *)
Class Clock (W : Type) := { system_time : W → option Z * W }.

(** [SystemTime::now().duration_since(UNIX_EPOCH).map(as_secs).unwrap_or(0)], run on a
    state that holds the world beside something else. *)
Definition now_unix {D W E} `{Clock W} : sm (D * W) E Z := λ s,
  let '(t, w) := system_time s.2 in (Ok (default 0 t), (s.1, w)).

(** ** [storage.rs] *)
Record CounterState := mkCounter {
  c_count : Z;
  c_window_start : Z;
  c_locked_until : option Z;
}.
Abbreviation Counters := (gmap string CounterState).

Definition SWEEP_THRESHOLD : nat := Z.to_nat 10000.

(** The trait: a backend counts over a state [D] of its own. *)
Class StorageBackend (D W : Type) := {
  increment : string → RateLimitConfig → sm (D * W) RateLimitError IncrementOutcome;
  get_count : string → RateLimitConfig → sm (D * W) RateLimitError Z;
  reset : string → RateLimitConfig → sm (D * W) RateLimitError unit;
}.

Section in_memory.
Context {W : Type} `{Clock W}.

(** Worth keeping: locked, or with its window still open. *)
Definition retained (now : Z) (config : RateLimitConfig) (s : CounterState) : bool :=
  match c_locked_until s with Some until => now <? until | None => false end ||
  (u64_saturating_sub now (c_window_start s) <=? window_seconds config).

Definition sweep_counters (now : Z) (k : string) (config : RateLimitConfig) (data : Counters) : Counters :=
  if (SWEEP_THRESHOLD <=? size data)%nat && negb (bool_decide (is_Some (data !! k)))
  then filter (λ kv, retained now config kv.2 = true) data else data.

(** Counting in the window, or in a new one where it is over. *)
Definition count_in_window (now : Z) (config : RateLimitConfig) (s : CounterState) : CounterState :=
  if window_seconds config <? u64_saturating_sub now (c_window_start s)
  then mkCounter 1 now (c_locked_until s)
  else mkCounter (u64_saturating_add (c_count s) 1) (c_window_start s) (c_locked_until s).

(** Counting, and locking the key where the count exceeds the limit: the answer (none
    where [now + lockout] overflows, a panic) and the entry as it is left. *)
Definition count_unlocked (now : Z) (config : RateLimitConfig) (state : CounterState) :
    option IncrementOutcome * CounterState :=
  let state := count_in_window now config state in
  if max_requests config <? c_count state then
    match lockout_seconds config with
    | Some lockout =>
        match u64_checked_add now lockout with
        | Some until =>
            (Some (mkOutcome (c_count state) (Some until)),
             mkCounter (c_count state) (c_window_start state) (Some until))
        | None => (None, state)
        end
    | None => (Some (mkOutcome (c_count state) (c_locked_until state)), state)
    end
  else (Some (mkOutcome (c_count state) (c_locked_until state)), state).

(** The entry's own part of an increment: while locked nothing is counted; a lock that
    is over starts a fresh window. *)
Definition count_request (now : Z) (config : RateLimitConfig) (state : CounterState) :
    option IncrementOutcome * CounterState :=
  match c_locked_until state with
  | Some until =>
      if now <? until then (Some (mkOutcome (c_count state) (Some until)), state)
      else count_unlocked now config (mkCounter 0 now None)
  | None => count_unlocked now config state
  end.

Definition mem_increment (k : string) (config : RateLimitConfig) :
    sm (Counters * W) RateLimitError IncrementOutcome :=
  now ← now_unix;
  s ← sm_get;
  let data := sweep_counters now k config s.1 in
  let state := default (mkCounter 0 now None) (data !! k) in
  let '(outcome, state) := count_request now config state in
  _ ← sm_put (<[k := state]> data, s.2);
  match outcome with Some o => mret o | None => sm_panic end.

Definition mem_get_count (k : string) (config : RateLimitConfig) : sm (Counters * W) RateLimitError Z :=
  s ← sm_get; mret (default 0 (c_count <$> s.1 !! k)).

Definition mem_reset (k : string) (config : RateLimitConfig) : sm (Counters * W) RateLimitError unit :=
  s ← sm_get; sm_put (delete k s.1, s.2).

#[export] Instance InMemoryStorage : StorageBackend Counters W := {
  increment := mem_increment;
  get_count := mem_get_count;
  reset := mem_reset;
}.
End in_memory.

(** ** [limiter.rs] *)
Section limiter.
Context {D W : Type} `{Clock W} {SB : StorageBackend D W}.

(** What a count is answered with, once no lock applies. *)
Definition window_response (now : Z) (config : RateLimitConfig) (outcome : IncrementOutcome) :
    option RateLimitResponse :=
  let remaining := if max_requests config <=? count outcome then 0
                   else u64_saturating_sub (max_requests config) (count outcome) in
  let exceeded := max_requests config <? count outcome in
  reset ← u64_checked_add now (window_seconds config);
  Some (mkResponse (negb exceeded) remaining (Some reset)
          (if exceeded then Some "Rate limit exceeded" else None) (count outcome) exceeded None).

(** What an outcome is answered with: an active lock first, whatever the window. None
    where [now + window_seconds] overflows, a panic. *)
Definition respond (now : Z) (config : RateLimitConfig) (outcome : IncrementOutcome) :
    option RateLimitResponse :=
  match (until ← locked_until outcome; if now <? until then Some until else None) with
  | Some until =>
      Some (mkResponse false 0 (Some until) (Some "Rate limit exceeded — locked out")
              (count outcome) true (Some until))
  | None => window_response now config outcome
  end.

Definition check (config : RateLimitConfig) (k : string) :
    sm (D * W) RateLimitError RateLimitResponse :=
  if negb (enabled config) then
    mret (mkResponse true (max_requests config) None None 0 false None)
  else
    outcome ← increment k config;
    now ← now_unix;
    match respond now config outcome with
    | Some r => mret r
    | None => sm_panic
    end.

Definition limiter_reset (config : RateLimitConfig) (k : string) : sm (D * W) RateLimitError unit :=
  reset k config.
End limiter.
