(* ===== verification/NetAddr.v ===== *)
(** * IP addresses

    [std::net::IpAddr] as the sources use it: its text ([FromStr], [Display]) and the
    IPv4 address an IPv6 one may carry. An address is its bits, 32 or 128 of them, in
    network order. The parser is the standard library's: greedy, without going back over an
    IPv4 address that was read. *)
From Stdlib Require Import ZArith Lia Ascii.
From S2P Require Import Prelude RustStr.

Local Open Scope Z_scope.

Inductive IpAddr := V4 (bits : Z) | V6 (bits : Z).
#[export] Instance IpAddr_eq_dec : EqDecision IpAddr.
Proof. solve_decision. Defined.

Definition ip_in_range (ip : IpAddr) : Prop :=
  match ip with V4 b => 0 ≤ b < 2 ^ 32 | V6 b => 0 ≤ b < 2 ^ 128 end.

(** ** Reading *)

(** [char::to_digit(radix)] of a byte. *)
Definition to_digit (radix : Z) (c : ascii) : option Z :=
  let b := byte_of c in
  let d := if is_ascii_digit c then Some (b - 48)
           else if (97 <=? b) && (b <=? 122) then Some (b - 87)
           else if (65 <=? b) && (b <=? 90) then Some (b - 55)
           else None in
  v ← d; if v <? radix then Some v else None.

Fixpoint radix_val (radix acc : Z) (s : string) : Z :=
  match s with
  | EmptyString => acc
  | String c s' => radix_val radix (acc * radix + default 0 (to_digit radix c)) s'
  end.

(** [read_number]: all the digits there are, at most [max_digits] of them, without a
    needless leading zero unless [allow_zero_prefix], and a value up to [top]. *)
Definition read_number (radix max_digits : Z) (allow_zero_prefix : bool) (top : Z) (s : string) :
    option (Z * string) :=
  let '(ds, rest) := str_span (λ c, bool_decide (is_Some (to_digit radix c))) s in
  let n := str_len ds in
  let v := radix_val radix 0 ds in
  if (max_digits <? n) || (n =? 0) || (negb allow_zero_prefix && starts_with ds "0" && (1 <? n)) ||
     (top <? v)
  then None else Some (v, rest).

Definition read_given_char (c : ascii) (s : string) : option string :=
  match s with
  | String c' s' => if Ascii.eqb c c' then Some s' else None
  | EmptyString => None
  end.

(** [read_separator]: the separator first, but for the first item. *)
Definition read_separator {A} (sep : ascii) (first : bool) (inner : string → option (A * string))
    (s : string) : option (A * string) :=
  if first then inner s else s' ← read_given_char sep s; inner s'.

Definition read_octet (first : bool) : string → option (Z * string) :=
  read_separator "." first (read_number 10 3 false 255).

Definition read_ipv4_addr (s : string) : option (Z * string) :=
  '(a, s) ← read_octet true s;
  '(b, s) ← read_octet false s;
  '(c, s) ← read_octet false s;
  '(d, s) ← read_octet false s;
  Some (((a * 256 + b) * 256 + c) * 256 + d, s).

(** [read_groups]: up to [n] groups of 16 bits, the last two of which may be written as
    an IPv4 address; whether they were. *)
Fixpoint read_groups (n : nat) (first : bool) (s : string) : list Z * bool * string :=
  match n with
  | O => ([], false, s)
  | S n' =>
      match (if (1 <=? n')%nat then read_separator ":" first read_ipv4_addr s else None) with
      | Some (v4, rest) => ([Z.shiftr v4 16; Z.land v4 65535], true, rest)
      | None =>
          match read_separator ":" first (read_number 16 4 true 65535) s with
          | Some (g, rest) =>
              let '(gs, v4, rest) := read_groups n' false rest in (g :: gs, v4, rest)
          | None => ([], false, s)
          end
      end
  end.

Definition bits_of_groups (gs : list Z) : Z := fold_left (λ acc g, acc * 65536 + g) gs 0.

(** [read_ipv6_addr]: eight groups, or fewer around one [::]. *)
Definition read_ipv6_addr (s : string) : option (Z * string) :=
  let '(head, head_ipv4, s) := read_groups 8 true s in
  if (length head =? 8)%nat then Some (bits_of_groups head, s)
  else if head_ipv4 then None
  else
    s ← read_given_char ":" s;
    s ← read_given_char ":" s;
    let '(tail, _, s) := read_groups (8 - (length head + 1)) true s in
    Some (bits_of_groups (head ++ replicate (8 - length head - length tail) 0 ++ tail), s).

(** [s.parse::<IpAddr>()] *)
Definition parse_ip (s : string) : option IpAddr :=
  match read_ipv4_addr s with
  | Some (b, rest) => if bool_decide (rest = "") then Some (V4 b) else None
  | None =>
      match read_ipv6_addr s with
      | Some (b, rest) => if bool_decide (rest = "") then Some (V6 b) else None
      | None => None
      end
  end.

(** ** Writing *)

Definition show_v4 (b : Z) : string :=
  show_Z (Z.land (Z.shiftr b 24) 255) +:+ "." +:+ show_Z (Z.land (Z.shiftr b 16) 255) +:+ "." +:+
  show_Z (Z.land (Z.shiftr b 8) 255) +:+ "." +:+ show_Z (Z.land b 255).

Definition segments (b : Z) : list Z :=
  map (λ i, Z.land (Z.shiftr b (16 * i)) 65535) [7; 6; 5; 4; 3; 2; 1; 0].

(** [Ipv6Addr::to_ipv4_mapped]: [::ffff:a.b.c.d]. *)
Definition to_ipv4_mapped (b : Z) : option Z :=
  if Z.shiftr b 32 =? 65535 then Some (Z.land b 4294967295) else None.

(** [{:x}] of a group. *)
Definition show_hex (g : Z) : string :=
  let d k := String (hex_digit (Z.land (Z.shiftr g (4 * k)) 15)) "" in
  if g <? 16 then d 0
  else if g <? 256 then d 1 +:+ d 0
  else if g <? 4096 then d 2 +:+ d 1 +:+ d 0
  else d 3 +:+ d 2 +:+ d 1 +:+ d 0.

Fixpoint show_groups (gs : list Z) : string :=
  match gs with
  | [] => ""
  | [g] => show_hex g
  | g :: gs => show_hex g +:+ ":" +:+ show_groups gs
  end.

(** The first of the longest runs of zero groups: its start and its length. *)
Fixpoint zero_run (i : nat) (current longest : nat * nat) (gs : list Z) : nat * nat :=
  match gs with
  | [] => longest
  | g :: gs =>
      if g =? 0 then
        let current := (if (current.2 =? 0)%nat then i else current.1, S current.2) in
        zero_run (S i) current (if (longest.2 <? current.2)%nat then current else longest) gs
      else zero_run (S i) (O, O) longest gs
  end.

Definition show_v6 (b : Z) : string :=
  match to_ipv4_mapped b with
  | Some v4 => "::ffff:" +:+ show_v4 v4
  | None =>
      let gs := segments b in
      let '(start, n) := zero_run 0 (O, O) (O, O) gs in
      if (1 <? n)%nat
      then show_groups (take start gs) +:+ "::" +:+ show_groups (drop (start + n) gs)
      else show_groups gs
  end.

(** [format!("{}", ip)] *)
Definition ip_to_string (ip : IpAddr) : string :=
  match ip with V4 b => show_v4 b | V6 b => show_v6 b end.

(** ** Examples *)
Example parse_v4 : parse_ip "172.18.0.5" = Some (V4 2886860805).
Proof. vm_compute. reflexivity. Qed.
Example parse_v4_octal : parse_ip "010.0.0.1" = None.
Proof. vm_compute. reflexivity. Qed.
Example parse_v6 : parse_ip "fd12::1" = Some (V6 (64786 * 2 ^ 112 + 1)).
Proof. vm_compute. reflexivity. Qed.
Example parse_v6_mapped : parse_ip "::ffff:172.18.0.5" = Some (V6 (65535 * 2 ^ 32 + 2886860805)).
Proof. vm_compute. reflexivity. Qed.
Example parse_v6_two_gaps : parse_ip "1::2::3" = None.
Proof. vm_compute. reflexivity. Qed.
Example parse_v6_full : parse_ip "1:2:3:4:5:6:7:8:9" = None.
Proof. vm_compute. reflexivity. Qed.
Example show_parsed :
  map (λ s, ip_to_string <$> parse_ip s)
    ["1:0:0:2:0:0:0:3"; "1:0:0:2:0:0:3:4"; "0:0:0:0:0:0:0:0"; "2001:DB8:0:1:2:3:4:5";
     "::FFFF:1.2.3.4"; "255.255.255.255"; "::"; "1::"; "::1.2.3.4"] =
  [Some "1:0:0:2::3"; Some "1::2:0:0:3:4"; Some "::"; Some "2001:db8:0:1:2:3:4:5";
   Some "::ffff:1.2.3.4"; Some "255.255.255.255"; Some "::"; Some "1::"; Some "::102:304"].
Proof. vm_compute. reflexivity. Qed.

(** ** What is read is an address *)

Lemma to_digit_range radix c v : to_digit radix c = Some v → 0 ≤ v < radix.
Proof.
  unfold to_digit, is_ascii_digit. intros (d & Hd & Hv)%bind_Some.
  destruct (Z.ltb_spec d radix); [|done]. injection Hv as <-. split; [|done].
  repeat case_match; simplify_eq; repeat match goal with
    | H : (_ && _) = true |- _ => apply andb_true_iff in H as [?%Z.leb_le ?%Z.leb_le] end; lia.
Qed.

Lemma radix_val_nonneg radix acc s : 0 ≤ radix → 0 ≤ acc → 0 ≤ radix_val radix acc s.
Proof.
  intros Hr. revert acc. induction s as [|c s IH]; intros acc Ha; [done|]. simpl. apply IH.
  destruct (to_digit radix c) as [v|] eqn:Hd; simpl; [apply to_digit_range in Hd; nia|nia].
Qed.

Lemma read_number_range radix n z top s v rest :
  0 ≤ radix → read_number radix n z top s = Some (v, rest) → 0 ≤ v ≤ top.
Proof.
  intros Hr. unfold read_number. destruct (str_span _ _) as [ds rest']. case_match eqn:Hc; [done|].
  intros [= <- <-]. apply orb_false_iff in Hc as [_ Hc%Z.ltb_ge].
  split; [by apply radix_val_nonneg|done].
Qed.

Lemma read_separator_Some {A} sep first (inner : string → option (A * string)) s x rest :
  read_separator sep first inner s = Some (x, rest) → ∃ s', inner s' = Some (x, rest).
Proof. unfold read_separator. destruct first; [by eauto|]. intros (s' & _ & H)%bind_Some. eauto. Qed.

Lemma read_octet_range first s v rest : read_octet first s = Some (v, rest) → 0 ≤ v ≤ 255.
Proof. intros (s' & H)%read_separator_Some. by eapply read_number_range in H. Qed.

Lemma read_ipv4_range s b rest : read_ipv4_addr s = Some (b, rest) → 0 ≤ b < 2 ^ 32.
Proof.
  unfold read_ipv4_addr. intros H.
  apply bind_Some in H as ([x1 s1] & H1 & H). apply bind_Some in H as ([x2 s2] & H2 & H).
  apply bind_Some in H as ([x3 s3] & H3 & H). apply bind_Some in H as ([x4 s4] & H4 & H).
  injection H as <- <-.
  apply read_octet_range in H1, H2, H3, H4. lia.
Qed.

Definition group_ok (g : Z) : Prop := 0 ≤ g < 65536.

Lemma read_groups_range n first s gs v4 rest :
  read_groups n first s = (gs, v4, rest) → Forall group_ok gs ∧ (length gs ≤ n)%nat.
Proof.
  revert first s gs v4 rest. induction n as [|n IH]; intros first s gs v4 rest; simpl.
  { intros ?; simplify_eq. split; [constructor|done]. }
  destruct (if _ : bool then _ else None) as [[b r]|] eqn:Hv4.
  - destruct n as [|n]; [done|]. simpl in Hv4. apply read_separator_Some in Hv4 as (s' & Hv4).
    apply read_ipv4_range in Hv4. intros ?; simplify_eq. split; [|simpl; lia].
    rewrite Z.shiftr_div_pow2 by lia. change 65535 with (Z.ones 16). rewrite Z.land_ones by lia.
    unfold group_ok. repeat constructor;
      first [apply Z.div_pos|apply Z.div_lt_upper_bound|apply Z.mod_pos_bound]; lia.
  - destruct (read_separator ":" first (read_number 16 4 true 65535) s) as [[g r]|] eqn:Hg;
      [|intros ?; simplify_eq; split; [constructor|simpl; lia]].
    destruct (read_groups n false r) as [[gs' v4'] rest'] eqn:Hr. intros ?; simplify_eq.
    apply IH in Hr as [Hok Hlen]. split; [|simpl; lia]. constructor; [|done].
    apply read_separator_Some in Hg as (s' & Hg). apply read_number_range in Hg; [|lia].
    unfold group_ok. lia.
Qed.

Lemma bits_of_groups_acc gs acc :
  Forall group_ok gs → 0 ≤ acc →
  0 ≤ fold_left (λ acc g, acc * 65536 + g) gs acc < (acc + 1) * 65536 ^ Z.of_nat (length gs).
Proof.
  intros Hgs. revert acc. induction Hgs as [|g gs Hg _ IH]; intros acc Ha; simpl; [lia|].
  unfold group_ok in Hg. specialize (IH (acc * 65536 + g) ltac:(lia)).
  replace (Z.of_nat (S (length gs))) with (Z.of_nat (length gs) + 1) by lia.
  rewrite Z.pow_add_r by lia. pose proof (Z.pow_pos_nonneg 65536 (Z.of_nat (length gs))). nia.
Qed.

Lemma bits_of_groups_range gs :
  Forall group_ok gs → length gs = 8%nat → 0 ≤ bits_of_groups gs < 2 ^ 128.
Proof. intros Hgs Hlen. pose proof (bits_of_groups_acc gs 0 Hgs). rewrite Hlen in H. apply H. lia. Qed.

Lemma read_ipv6_range s b rest : read_ipv6_addr s = Some (b, rest) → 0 ≤ b < 2 ^ 128.
Proof.
  unfold read_ipv6_addr. destruct (read_groups 8 true s) as [[head v4] s1] eqn:Hh.
  apply read_groups_range in Hh as [Hok Hlen]. destruct (Nat.eqb_spec (length head) 8) as [He|He].
  { intros [= <- <-]. by apply bits_of_groups_range. }
  destruct v4; [done|]. intros (s2 & _ & (s3 & _ & H)%bind_Some)%bind_Some.
  destruct (read_groups _ true s3) as [[tail v4] s4] eqn:Ht.
  apply read_groups_range in Ht as [Hok' Hlen']. injection H as <- <-. apply bits_of_groups_range.
  - apply Forall_app. split; [done|]. apply Forall_app. split; [|done].
    apply Forall_replicate. unfold group_ok. lia.
  - rewrite !length_app, length_replicate. lia.
Qed.

Lemma parse_ip_range s ip : parse_ip s = Some ip → ip_in_range ip.
Proof.
  unfold parse_ip. destruct (read_ipv4_addr s) as [[b rest]|] eqn:H4.
  - case_match; [|done]. intros [= <-]. by eapply read_ipv4_range.
  - destruct (read_ipv6_addr s) as [[b rest]|] eqn:H6; [|done]. case_match; [|done].
    intros [= <-]. by eapply read_ipv6_range.
Qed.
