(* ===== verification/NetAddrFacts.v ===== *)
(** * IP addresses: reading back what is written

    [parse_ip (ip_to_string ip) = Some ip]: an address's text names it, so that keys made
    from addresses tell clients apart. *)
From Stdlib Require Import ZArith Lia Ascii.
From S2P Require Import Prelude RustStr NetAddr.

Local Open Scope Z_scope.

(** ** Spans *)

(** Nothing of [p] at the start of [s]. *)
Definition stops (p : ascii → bool) (s : string) : Prop :=
  match s with EmptyString => True | String c _ => p c = false end.

Lemma str_span_stops p a rest :
  str_forallb p a = true → stops p rest → str_span p (a +:+ rest) = (a, rest).
Proof.
  intros Ha Hr. induction a as [|c a IH].
  - change ("" +:+ rest) with rest. destruct rest as [|c rest]; [done|]. simpl in *. by rewrite Hr.
  - apply andb_true_iff in Ha as [Hc Ha]. rewrite str_app_cons. simpl. by rewrite Hc, IH.
Qed.

Abbreviation is_digit radix := (λ c, bool_decide (is_Some (to_digit radix c))).

(** A number followed by something else is read as it is read alone. *)
Lemma read_number_app radix n z top a rest v :
  str_forallb (is_digit radix) a = true → stops (is_digit radix) rest →
  read_number radix n z top a = Some (v, "") →
  read_number radix n z top (a +:+ rest) = Some (v, rest).
Proof.
  intros Ha Hr. unfold read_number. rewrite (str_span_stops _ a rest Ha Hr).
  rewrite <- (str_app_nil_r a) at 1. rewrite (str_span_stops _ a "" Ha I).
  case_match; [done|]. by intros [= ->].
Qed.

(** ** Numbers *)
Lemma octet_text :
  forallb (λ n, str_forallb (is_digit 10) (show_Z n) &&
    bool_decide (read_number 10 3 false 255 (show_Z n) = Some (n, ""))) (seqZ 0 256) = true.
Proof. vm_compute. reflexivity. Qed.

Lemma forallb_seqZ (P : Z → bool) n v : forallb P (seqZ 0 n) = true → 0 ≤ v < n → P v = true.
Proof.
  intros H Hv. rewrite forallb_forall in H. apply H, list_elem_of_In, elem_of_seqZ. lia.
Qed.

Lemma read_octet_text v rest :
  0 ≤ v < 256 → stops (is_digit 10) rest →
  read_number 10 3 false 255 (show_Z v +:+ rest) = Some (v, rest).
Proof.
  intros Hv Hr. pose proof (forallb_seqZ _ _ _ octet_text Hv) as H.
  apply andb_true_iff in H as [Hd Hn%bool_decide_eq_true]. by apply read_number_app.
Qed.

(** The text of some hexadecimal digits. *)
Definition hex_text (ds : list Z) : string := foldr (λ d s, String (hex_digit d) s) "" ds.
Definition nibble (d : Z) : Prop := 0 ≤ d < 16.

Lemma to_digit_hex d : nibble d → to_digit 16 (hex_digit d) = Some d.
Proof.
  intros Hd. assert (forallb (λ d, bool_decide (to_digit 16 (hex_digit d) = Some d)) (seqZ 0 16) = true)
    as H by (vm_compute; reflexivity).
  by apply (forallb_seqZ _ _ _ H) in Hd as ?%bool_decide_eq_true.
Qed.

Lemma hex_text_digits ds : Forall nibble ds → str_forallb (is_digit 16) (hex_text ds) = true.
Proof.
  induction 1 as [|d ds Hd _ IH]; [done|]. simpl. rewrite IH, (to_digit_hex d Hd).
  by rewrite bool_decide_true.
Qed.
Lemma hex_text_len ds : str_len (hex_text ds) = Z.of_nat (length ds).
Proof. induction ds as [|d ds IH]; [done|]. cbn [hex_text foldr str_len length]. fold (hex_text ds). lia. Qed.
Lemma hex_text_val ds acc :
  Forall nibble ds → radix_val 16 acc (hex_text ds) = fold_left (λ acc d, acc * 16 + d) ds acc.
Proof.
  intros H. revert acc. induction H as [|d ds Hd _ IH]; intros acc; [done|].
  cbn [hex_text foldr radix_val fold_left]. fold (hex_text ds). by rewrite (to_digit_hex d Hd), IH.
Qed.

Lemma read_hex_text ds v :
  Forall nibble ds → (1 ≤ length ds ≤ 4)%nat → fold_left (λ acc d, acc * 16 + d) ds 0 = v →
  v ≤ 65535 → read_number 16 4 true 65535 (hex_text ds) = Some (v, "").
Proof.
  intros Hds Hlen Hv Hmax. unfold read_number. rewrite <- (str_app_nil_r (hex_text ds)).
  rewrite str_span_stops by (done || by apply hex_text_digits).
  rewrite hex_text_len, hex_text_val, Hv by done.
  destruct (Z.ltb_spec 4 (Z.of_nat (length ds))); [lia|].
  destruct (Z.eqb_spec (Z.of_nat (length ds)) 0); [lia|].
  by destruct (Z.ltb_spec 65535 v); [lia|].
Qed.

Lemma nibble_land x : nibble (Z.land x 15).
Proof. unfold nibble. change 15 with (Z.ones 4). rewrite Z.land_ones by lia. by apply Z.mod_pos_bound. Qed.

(** A group is written with as many digits as it needs. *)
Lemma show_hex_text g :
  group_ok g → ∃ ds, show_hex g = hex_text ds ∧ Forall nibble ds ∧ (1 ≤ length ds ≤ 4)%nat ∧
    fold_left (λ acc d, acc * 16 + d) ds 0 = g.
Proof.
  unfold group_ok, show_hex. intros Hg. set (d k := Z.land (Z.shiftr g (4 * k)) 15).
  assert (∀ k, 0 ≤ k → d k = (g / 16 ^ k) mod 16) as Hd.
  { intros k Hk. unfold d. change 15 with (Z.ones 4). rewrite Z.land_ones, Z.shiftr_div_pow2 by lia.
    by rewrite Z.pow_mul_r by lia. }
  pose proof (Hd 0 ltac:(lia)) as H0. pose proof (Hd 1 ltac:(lia)) as H1.
  pose proof (Hd 2 ltac:(lia)) as H2. pose proof (Hd 3 ltac:(lia)) as H3.
  change (16 ^ 0) with 1 in H0. change (16 ^ 1) with 16 in H1. change (16 ^ 2) with 256 in H2.
  change (16 ^ 3) with 4096 in H3. assert (∀ k, nibble (d k)) as Hn by (intros; apply nibble_land).
  destruct (Z.ltb_spec g 16) as [Hb|Hb]; [exists [d 0]|destruct (Z.ltb_spec g 256) as [Hb'|Hb']; [exists [d 1; d 0]|
    destruct (Z.ltb_spec g 4096) as [Hc|Hc]; [exists [d 2; d 1; d 0]|exists [d 3; d 2; d 1; d 0]]]];
    (split; [done|]; split; [repeat (apply Forall_cons; split; [apply Hn|]); by apply Forall_nil|];
     split; [simpl; lia|]); cbn [fold_left]; rewrite ?H0, ?H1, ?H2, ?H3;
    clear H0 H1 H2 H3 Hd Hn d; Z.to_euclidean_division_equations; lia.
Qed.

Lemma read_group_text g rest :
  group_ok g → stops (is_digit 16) rest →
  read_number 16 4 true 65535 (show_hex g +:+ rest) = Some (g, rest).
Proof.
  intros Hg Hr. destruct (show_hex_text g Hg) as (ds & -> & Hds & Hlen & Hv).
  apply read_number_app; [by apply hex_text_digits|done|]. apply read_hex_text; [done..|].
  unfold group_ok in Hg. lia.
Qed.

(** ** IPv4 *)
Lemma dot_stops rest : stops (is_digit 10) ("." +:+ rest).
Proof. vm_compute. reflexivity. Qed.

Lemma octet_of_bits b k : 0 ≤ k → 0 ≤ Z.land (Z.shiftr b k) 255 < 256.
Proof. intros Hk. change 255 with (Z.ones 8). rewrite Z.land_ones by lia. by apply Z.mod_pos_bound. Qed.

Lemma read_octet_dot v rest :
  0 ≤ v < 256 → stops (is_digit 10) rest →
  read_octet false ("." +:+ show_Z v +:+ rest) = Some (v, rest).
Proof. intros Hv Hr. unfold read_octet, read_separator. simpl. by apply read_octet_text. Qed.

Lemma read_ipv4_text b rest :
  0 ≤ b < 2 ^ 32 → stops (is_digit 10) rest → read_ipv4_addr (show_v4 b +:+ rest) = Some (b, rest).
Proof.
  intros Hb Hr. unfold show_v4, read_ipv4_addr. rewrite !str_app_assoc.
  pose proof (octet_of_bits b 24 ltac:(lia)) as H1. pose proof (octet_of_bits b 16 ltac:(lia)) as H2.
  pose proof (octet_of_bits b 8 ltac:(lia)) as H3. pose proof (octet_of_bits b 0 ltac:(lia)) as H4.
  change (Z.shiftr b 0) with b in H4.
  change (read_octet true) with (read_number 10 3 false 255).
  rewrite read_octet_text by first [done|apply dot_stops]. cbn [mbind option_bind].
  rewrite read_octet_dot by first [done|apply dot_stops]. cbn [mbind option_bind].
  rewrite read_octet_dot by first [done|apply dot_stops]. cbn [mbind option_bind].
  rewrite read_octet_dot by done. cbn [mbind option_bind]. do 2 f_equal.
  clear H1 H2 H3 H4. change 255 with (Z.ones 8). rewrite !Z.land_ones, !Z.shiftr_div_pow2 by lia.
  change (2 ^ 24) with 16777216. change (2 ^ 16) with 65536. change (2 ^ 8) with 256.
  change (2 ^ 32) with 4294967296 in Hb. Z.to_euclidean_division_equations. lia.
Qed.

(** ** Groups *)
Definition no_dot (s : string) : bool := str_forallb (λ c, negb (Ascii.eqb "." c)) s.

Lemma str_forallb_span p q s : str_forallb p s = true → str_forallb p (str_span q s).2 = true.
Proof.
  rewrite <- (str_span_app q s) at 1. rewrite str_forallb_app. by intros [_ ?]%andb_true_iff.
Qed.

(** Without a dot there is no IPv4 address to read. *)
Lemma read_ipv4_no_dot s : no_dot s = true → read_ipv4_addr s = None.
Proof.
  intros Hs. unfold read_ipv4_addr. change (read_octet true) with (read_number 10 3 false 255).
  destruct (read_number 10 3 false 255 s) as [[a s1]|] eqn:H1; [|done]. cbn [mbind option_bind].
  assert (no_dot s1 = true) as Hs1.
  { unfold read_number in H1. destruct (str_span _ s) as [ds r] eqn:Hsp. case_match; [done|].
    injection H1 as _ <-. pose proof (str_forallb_span _ (is_digit 10) s Hs) as Hr. by rewrite Hsp in Hr. }
  unfold read_octet, read_separator, read_given_char. destruct s1 as [|c s1]; [done|].
  simpl in Hs1. apply andb_true_iff in Hs1 as [Hc _]. cbn [mbind option_bind].
  destruct (Ascii.eqb "." c); [done|]. done.
Qed.

(** The groups after the first. *)
Definition tail_text (gs : list Z) : string := foldr (λ g s, ":" +:+ show_hex g +:+ s) "" gs.
Lemma show_groups_cons g gs : show_groups (g :: gs) = show_hex g +:+ tail_text gs.
Proof.
  revert g. induction gs as [|g' gs IH]; intros g; [by rewrite str_app_nil_r|].
  change (show_groups (g :: g' :: gs)) with (show_hex g +:+ ":" +:+ show_groups (g' :: gs)).
  by rewrite IH.
Qed.

Lemma hex_text_no_dot ds : Forall nibble ds → no_dot (hex_text ds) = true.
Proof.
  induction 1 as [|d ds Hd _ IH]; [done|]. unfold no_dot in *. cbn [hex_text foldr str_forallb].
  fold (hex_text ds). rewrite IH, andb_true_r.
  assert (forallb (λ d, negb (Ascii.eqb "." (hex_digit d))) (seqZ 0 16) = true) as H
    by (vm_compute; reflexivity). by apply (forallb_seqZ _ _ _ H).
Qed.
Lemma show_hex_no_dot g : group_ok g → no_dot (show_hex g) = true.
Proof. intros Hg. destruct (show_hex_text g Hg) as (ds & -> & ? & _). by apply hex_text_no_dot. Qed.
Lemma tail_text_no_dot gs : Forall group_ok gs → no_dot (tail_text gs) = true.
Proof.
  induction 1 as [|g gs Hg _ IH]; [done|]. unfold no_dot. cbn [tail_text foldr]. fold (tail_text gs).
  rewrite !str_forallb_app. fold (no_dot (show_hex g)) (no_dot (tail_text gs)).
  by rewrite show_hex_no_dot, IH.
Qed.

(** What may follow the groups: nothing, or the gap. *)
Definition ends (s : string) : Prop := s = "" ∨ ∃ r, s = "::" +:+ r.

Lemma ends_stops rest : ends rest → stops (is_digit 16) rest.
Proof. intros [->|[r ->]]; [done|]. vm_compute. reflexivity. Qed.
Lemma tail_stops gs rest : ends rest → stops (is_digit 16) (tail_text gs +:+ rest).
Proof. intros Hr. destruct gs as [|g gs]; [by apply ends_stops|]. vm_compute. reflexivity. Qed.

(** No group is read where there is none. *)
Lemma read_groups_ends n first rest :
  ends rest → no_dot rest = true → read_groups n first rest = ([], false, rest).
Proof.
  intros Hr Hd. destruct n as [|n]; [done|]. cbn [read_groups].
  assert (read_separator ":" first read_ipv4_addr rest = None) as Hv4.
  { unfold read_separator. destruct first; [by apply read_ipv4_no_dot|].
    destruct Hr as [->|[r ->]]; [done|]. cbn. apply read_ipv4_no_dot. unfold no_dot in Hd.
    by rewrite str_app_cons in Hd. }
  replace (if (1 <=? n)%nat then read_separator ":" first read_ipv4_addr rest else None) with
    (@None (Z * string)) by (rewrite Hv4; by destruct (1 <=? n)%nat).
  destruct Hr as [->|[r ->]]; [by destruct first|]. by destruct first.
Qed.

Lemma read_groups_step n first s :
  no_dot s = true →
  read_groups (S n) first s =
  match read_separator ":" first (read_number 16 4 true 65535) s with
  | Some (g, rest) => let '(gs, v4, rest) := read_groups n false rest in (g :: gs, v4, rest)
  | None => ([], false, s)
  end.
Proof.
  intros Hs. cbn [read_groups].
  assert (read_separator ":" first read_ipv4_addr s = None) as Hv4.
  { unfold read_separator. destruct first; [by apply read_ipv4_no_dot|].
    destruct s as [|c s]; [done|]. cbn. case_match; [|done]. cbn. apply read_ipv4_no_dot.
    unfold no_dot in *. simpl in Hs. by apply andb_true_iff in Hs as [_ ?]. }
  rewrite Hv4. by destruct (1 <=? n)%nat.
Qed.

Lemma read_groups_tail n gs rest :
  Forall group_ok gs → (length gs ≤ n)%nat → ends rest → no_dot rest = true →
  read_groups n false (tail_text gs +:+ rest) = (gs, false, rest).
Proof.
  intros Hgs. revert n. induction Hgs as [|g gs Hg Hgs IH]; intros n Hn Hr Hd.
  { by apply read_groups_ends. }
  destruct n as [|n]; [simpl in Hn; lia|]. rewrite read_groups_step.
  - cbn [tail_text foldr]. fold (tail_text gs). rewrite !str_app_assoc.
    change (read_separator ":" false ?f (":" +:+ ?s)) with (f s).
    rewrite read_group_text by first [done|by apply tail_stops].
    rewrite IH; [done| |done..]. simpl in Hn. lia.
  - unfold no_dot. rewrite str_forallb_app. fold (no_dot rest) (no_dot (tail_text (g :: gs))).
    rewrite tail_text_no_dot, Hd by by constructor. done.
Qed.

Lemma read_groups_text n gs rest :
  Forall group_ok gs → (length gs ≤ n)%nat → ends rest → no_dot rest = true →
  read_groups n true (show_groups gs +:+ rest) = (gs, false, rest).
Proof.
  intros Hgs Hn Hr Hd. destruct Hgs as [|g gs Hg Hgs]; [by apply read_groups_ends|].
  destruct n as [|n]; [simpl in Hn; lia|]. rewrite show_groups_cons, str_app_assoc, read_groups_step.
  - change (read_separator ":" true ?f) with f. rewrite read_group_text by first [done|by apply tail_stops].
    rewrite read_groups_tail; [done..| |done|done]. simpl in Hn. lia.
  - unfold no_dot. rewrite !str_forallb_app.
    fold (no_dot (show_hex g)) (no_dot (tail_text gs)) (no_dot rest).
    by rewrite show_hex_no_dot, tail_text_no_dot, Hd.
Qed.

(** ** The gap *)
Definition zeros (gs : list Z) (run : nat * nat) : Prop :=
  ∀ j, (run.1 ≤ j < run.1 + run.2)%nat → gs !! j = Some 0.

Lemma zero_run_spec all done rest current longest :
  all = done ++ rest → (current.2 = 0 ∨ current.1 + current.2 = length done)%nat →
  zeros all current → zeros all longest →
  zeros all (zero_run (length done) current longest rest).
Proof.
  revert done current longest. induction rest as [|g rest IH]; intros dn current longest Hall Hcur Hc Hl; [done|].
  cbn [zero_run]. replace (S (length dn)) with (length (dn ++ [g])) by (rewrite length_app; simpl; lia).
  assert (all = (dn ++ [g]) ++ rest) as Hall' by by rewrite <- app_assoc.
  destruct (Z.eqb_spec g 0) as [->|_].
  - set (cur := (if (current.2 =? 0)%nat then length dn else current.1, S current.2)).
    assert (cur.1 + cur.2 = S (length dn))%nat as Hend.
    { unfold cur. destruct (Nat.eqb_spec (current.2) 0); simpl; lia. }
    assert (zeros all cur) as Hcz.
    { intros j Hj. destruct (decide (j = length dn)) as [->|].
      - rewrite Hall, lookup_app_r, Nat.sub_diag by lia. done.
      - apply Hc. unfold cur in *. destruct (Nat.eqb_spec (current.2) 0); simpl in *; lia. }
    apply IH; [done|right; rewrite length_app; simpl in *; lia|done|]. by case_match.
  - apply IH; [done|by left| |done]. intros j. simpl. lia.
Qed.

Lemma zeros_split gs start n :
  zeros gs (start, n) → (start + n ≤ length gs)%nat →
  gs = take start gs ++ replicate n 0 ++ drop (start + n) gs.
Proof.
  intros Hz Hlen. rewrite <- (take_drop start gs) at 1. f_equal.
  rewrite <- (take_drop n (drop start gs)) at 1. rewrite drop_drop. f_equal.
  apply list_eq. intros j. destruct (decide (j < n)%nat).
  - rewrite lookup_replicate_2 by done. rewrite lookup_take, decide_True, lookup_drop by done.
    apply Hz. simpl. lia.
  - rewrite !lookup_ge_None_2; [done|rewrite length_replicate; lia|].
    rewrite length_take. lia.
Qed.

Lemma zeros_bound gs start n : zeros gs (start, n) → (0 < n)%nat → (start + n ≤ length gs)%nat.
Proof.
  intros Hz Hn. specialize (Hz (start + n - 1)%nat). simpl in Hz.
  apply lookup_lt_Some with (x:=0) (i:=(start + n - 1)%nat) in Hz; lia.
Qed.

(** ** IPv6 *)
Lemma segments_ok b : Forall group_ok (segments b).
Proof.
  apply Forall_forall. intros g (i & -> & _)%list_elem_of_fmap. unfold group_ok.
  change 65535 with (Z.ones 16). rewrite Z.land_ones by done. by apply Z.mod_pos_bound.
Qed.

Lemma bits_of_segments b : 0 ≤ b < 2 ^ 128 → bits_of_groups (segments b) = b.
Proof.
  intros Hb. unfold segments, bits_of_groups. cbn [map fold_left].
  change 65535 with (Z.ones 16). rewrite !Z.land_ones by done.
  set (q i := Z.shiftr b (16 * i)).
  assert (∀ i, 0 ≤ i → q i = 65536 * q (i + 1) + (q i) mod 2 ^ 16) as Hq.
  { intros i Hi. unfold q. replace (16 * (i + 1)) with (16 * i + 16) by lia.
    rewrite <- Z.shiftr_shiftr by lia. rewrite (Z.shiftr_div_pow2 _ 16) by lia.
    apply (Z.div_mod (Z.shiftr b (16 * i)) (2 ^ 16)). done. }
  assert (q 8 = 0) as H8.
  { unfold q. rewrite Z.shiftr_div_pow2 by done. by apply Z.div_small. }
  assert (q 0 = b) as H0 by done.
  pose proof (Hq 0 ltac:(done)) as E0. pose proof (Hq 1 ltac:(done)) as E1.
  pose proof (Hq 2 ltac:(done)) as E2. pose proof (Hq 3 ltac:(done)) as E3.
  pose proof (Hq 4 ltac:(done)) as E4. pose proof (Hq 5 ltac:(done)) as E5.
  pose proof (Hq 6 ltac:(done)) as E6. pose proof (Hq 7 ltac:(done)) as E7.
  change (0 + 1) with 1 in E0. change (1 + 1) with 2 in E1. change (2 + 1) with 3 in E2.
  change (3 + 1) with 4 in E3. change (4 + 1) with 5 in E4. change (5 + 1) with 6 in E5.
  change (6 + 1) with 7 in E6. change (7 + 1) with 8 in E7.
  fold (q 7) (q 6) (q 5) (q 4) (q 3) (q 2) (q 1) (q 0).
  clear Hq. clearbody q. clear Hb. lia.
Qed.

Lemma no_dot_show gs : Forall group_ok gs → no_dot (show_groups gs) = true.
Proof.
  intros Hgs. destruct Hgs as [|g gs Hg Hgs]; [done|]. rewrite show_groups_cons. unfold no_dot.
  rewrite str_forallb_app. fold (no_dot (show_hex g)) (no_dot (tail_text gs)).
  by rewrite show_hex_no_dot, tail_text_no_dot.
Qed.

(** An address carried from IPv4 is written with its dots. *)
Lemma read_mapped v4 :
  0 ≤ v4 < 2 ^ 32 →
  read_ipv6_addr ("::ffff:" +:+ show_v4 v4) = Some (65535 * 2 ^ 32 + v4, "").
Proof.
  intros Hv. unfold read_ipv6_addr.
  assert (read_groups 8 true ("::ffff:" +:+ show_v4 v4) = ([], false, "::ffff:" +:+ show_v4 v4)) as ->.
  { reflexivity. }
  cbn [length Nat.eqb]. change (read_given_char ":" ("::ffff:" +:+ ?x)) with (Some (":ffff:" +:+ x)).
  cbn [mbind option_bind]. change (read_given_char ":" (":ffff:" +:+ ?x)) with (Some ("ffff:" +:+ x)).
  cbn [mbind option_bind]. change (8 - (0 + 1))%nat with 7%nat.
  assert (read_groups 7 true ("ffff:" +:+ show_v4 v4) =
    ([65535; Z.shiftr v4 16; Z.land v4 65535], true, "")) as ->.
  { change (read_groups 7 true ("ffff:" +:+ show_v4 v4)) with
      (let '(gs, v, rest) := read_groups 6 false (":" +:+ show_v4 v4) in (65535 :: gs, v, rest)).
    cbn [read_groups]. change (1 <=? 5)%nat with true. cbn beta iota.
    change (read_separator ":" false read_ipv4_addr (":" +:+ show_v4 v4)) with (read_ipv4_addr (show_v4 v4)).
    rewrite <- (str_app_nil_r (show_v4 v4)). by rewrite read_ipv4_text. }
  do 2 f_equal. unfold bits_of_groups. cbn [length replicate app fold_left Nat.sub].
  change 65535 with (Z.ones 16) at 2. rewrite Z.land_ones, Z.shiftr_div_pow2 by done.
  change (2 ^ 16) with 65536. change (2 ^ 32) with 4294967296.
  clear Hv. Z.to_euclidean_division_equations. lia.
Qed.

Lemma read_v6_text b :
  0 ≤ b < 2 ^ 128 → read_ipv4_addr (show_v6 b) = None ∧ read_ipv6_addr (show_v6 b) = Some (b, "").
Proof.
  intros Hb. unfold show_v6. destruct (to_ipv4_mapped b) as [v4|] eqn:Hmap.
  { unfold to_ipv4_mapped in Hmap. destruct (Z.eqb_spec (Z.shiftr b 32) 65535) as [Hs|]; [|discriminate].
    injection Hmap as <-. change 4294967295 with (Z.ones 32). rewrite Z.land_ones by done.
    split; [reflexivity|]. rewrite read_mapped by by apply Z.mod_pos_bound. do 2 f_equal.
    rewrite <- Hs, Z.shiftr_div_pow2 by done. pose proof (Z.div_mod b (2 ^ 32)). lia. }
  pose proof (segments_ok b) as Hok. pose proof (bits_of_segments b Hb) as Hbits.
  assert (length (segments b) = 8%nat) as Hlen by done.
  pose proof (zero_run_spec (segments b) [] (segments b) (O, O) (O, O) eq_refl (or_introl eq_refl)) as Hz.
  cbn [length] in Hz. destruct (zero_run 0 (O, O) (O, O) (segments b)) as [start n].
  assert (zeros (segments b) (start, n)) as Hzero by (apply Hz; intros j; simpl; lia). clear Hz.
  generalize dependent (segments b). intros gs Hok Hbits Hlen Hzero.
  destruct (Nat.ltb_spec 1 n) as [Hn|Hn].
  - assert (start + n ≤ 8)%nat as Hle by (rewrite <- Hlen; apply zeros_bound; [done|lia]).
    pose proof (zeros_split gs start n Hzero ltac:(lia)) as Hsplit.
    set (head := take start gs) in *. set (tail := drop (start + n) gs) in *.
    assert (Forall group_ok head ∧ Forall group_ok tail) as [Hh Ht]
      by (split; [by apply Forall_take|by apply Forall_drop]).
    assert (length head = start ∧ length tail = 8 - (start + n))%nat as [Lh Lt]
      by (split; [apply length_take_le; lia|unfold tail; rewrite length_drop; lia]).
    assert (no_dot ("::" +:+ show_groups tail) = true) as Hd by apply (no_dot_show tail Ht).
    split.
    + apply read_ipv4_no_dot. unfold no_dot. rewrite str_forallb_app.
      fold (no_dot (show_groups head)) (no_dot ("::" +:+ show_groups tail)). by rewrite no_dot_show, Hd.
    + unfold read_ipv6_addr. rewrite read_groups_text; [|done|lia|right; by eexists|done].
      destruct (Nat.eqb_spec (length head) 8); [lia|].
      change (read_given_char ":" ("::" +:+ ?x)) with (Some (":" +:+ x)). cbn [mbind option_bind].
      change (read_given_char ":" (":" +:+ ?x)) with (Some x). cbn [mbind option_bind].
      rewrite <- (str_app_nil_r (show_groups tail)), read_groups_text; [|done|lia|by left|done].
      replace (8 - length head - length tail)%nat with n by lia. by rewrite <- Hsplit, Hbits.
  - split; [by apply read_ipv4_no_dot, no_dot_show|]. unfold read_ipv6_addr.
    rewrite <- (str_app_nil_r (show_groups gs)), read_groups_text; [|done|lia|by left|done].
    rewrite Hlen. simpl. by rewrite Hbits.
Qed.

(** An address is read back from its text. *)
Lemma parse_ip_to_string ip : ip_in_range ip → parse_ip (ip_to_string ip) = Some ip.
Proof.
  destruct ip as [b|b]; unfold ip_in_range, ip_to_string, parse_ip; intros Hb.
  - rewrite <- (str_app_nil_r (show_v4 b)). by rewrite read_ipv4_text.
  - destruct (read_v6_text b Hb) as [-> ->]. done.
Qed.
