(* ===== verification/TrustedProxies.v ===== *)
(** * Rate limiting: whom a request is counted against

    [backbone-rate-limit/src/proxy.rs] and [middleware.rs]. A request is counted against
    the address it came from; the forwarding headers are read only when that address is a
    trusted proxy's. The header map is the [http] crate's, a parameter ([Headers]): all
    the values of a name, the first of them, and a value's text when it is visible ASCII.
    The application behind the middleware is a parameter too. *)
From Stdlib Require Import ZArith Lia Ascii.
From S2P Require Import Prelude RustStr NetAddr RateLimit.

Local Open Scope Z_scope.

(** [s.parse::<u8>()]: an optional plus sign and at least one digit. *)
Definition parse_u8 (s : string) : option Z :=
  let d := match s with String "+" d => d | _ => s end in
  if negb (bool_decide (d = "")) && str_forallb is_ascii_digit d && (digits_val 0 d <=? 255)
  then Some (digits_val 0 d) else None.

(** ** [proxy.rs] *)
Inductive InvalidProxy := Invalid (entry : string).

Record Block := mkBlock { addr : IpAddr; prefix : Z }.

Definition width (ip : IpAddr) : Z := match ip with V4 _ => 32 | V6 _ => 128 end.

(** The top [prefix] bits of a [width]-bit address. *)
Definition masked (bits prefix width : Z) : Z :=
  if prefix =? 0 then 0 else let shift := width - prefix in Z.shiftl (Z.shiftr bits shift) shift.

Definition canonical_ip (ip : IpAddr) : IpAddr :=
  match ip with
  | V6 b => match to_ipv4_mapped b with Some v4 => V4 v4 | None => ip end
  | V4 _ => ip
  end.

Definition block_parse (raw : string) : res InvalidProxy Block :=
  let '(a, p) := match split_once "/" raw with
                 | Some (a, p) => (a, Some p)
                 | None => (raw, None)
                 end in
  match parse_ip (trim a) with
  | None => Err (Invalid raw)
  | Some ip =>
      match (match p with Some p => parse_u8 (trim p) | None => Some (width ip) end) with
      | None => Err (Invalid raw)
      | Some p => if width ip <? p then Err (Invalid raw) else Ok (mkBlock ip p)
      end
  end.

Definition block_contains (b : Block) (ip : IpAddr) : bool :=
  match addr b, canonical_ip ip with
  | V4 net, V4 i => masked net (prefix b) 32 =? masked i (prefix b) 32
  | V6 net, V6 i => masked net (prefix b) 128 =? masked i (prefix b) 128
  | _, _ => false
  end.

Definition TrustedProxies := list Block.

(** [.collect::<Result<Vec<_>, _>>()]: the first error is the answer. *)
Fixpoint collect {E A B} (f : A → res E B) (l : list A) : res E (list B) :=
  match l with
  | [] => Ok []
  | x :: l =>
      match f x with
      | Ok y => match collect f l with Ok ys => Ok (y :: ys) | Err e => Err e | Panic => Panic end
      | Err e => Err e
      | Panic => Panic
      end
  end.

Definition proxies_parse (list : string) : res InvalidProxy TrustedProxies :=
  collect block_parse (filter (λ e, e ≠ "") (map trim (str_split "," list))).
Definition proxies_is_empty (ps : TrustedProxies) : bool := bool_decide (length ps = O).
Definition proxies_contains (ps : TrustedProxies) (ip : IpAddr) : bool :=
  existsb (λ b, block_contains b ip) ps.

(** The [http] crate's header map. *)
Class Headers := {
  HeaderMap : Type;
  HeaderValue : Type;
  get_all : HeaderMap → string → list HeaderValue;
  get_first : HeaderMap → string → option HeaderValue;
  to_str : HeaderValue → option string;
}.

Section proxies.
Context {HH : Headers}.

(** The entries of every [X-Forwarded-For] header, in order. *)
Definition forwarded_entries (headers : HeaderMap) : list string :=
  map trim (concat (map (str_split ",") (omap to_str (get_all headers "x-forwarded-for")))).

(** The walk from the right: past trusted proxies, up to the first other address; an entry
    that cannot be read stops it. *)
Fixpoint rightmost_untrusted (ps : TrustedProxies) (peer : IpAddr) (entries : list string) : IpAddr :=
  match entries with
  | [] => peer
  | entry :: entries =>
      match parse_ip entry with
      | Some ip => if proxies_contains ps ip then rightmost_untrusted ps peer entries else canonical_ip ip
      | None => peer
      end
  end.

Definition client_ip (ps : TrustedProxies) (peer : IpAddr) (headers : HeaderMap) : IpAddr :=
  let peer := canonical_ip peer in
  if negb (proxies_contains ps peer) then peer
  else
    let forwarded := forwarded_entries headers in
    if bool_decide (forwarded ≠ []) then rightmost_untrusted ps peer (reverse forwarded)
    else
      default peer
        (v ← get_first headers "x-real-ip"; t ← to_str v; ip ← parse_ip (trim t); Some (canonical_ip ip)).
End proxies.

(** ** [middleware.rs] *)
Inductive FailMode := Closed | Open.

(** A request: the connection's peer, when the server knows it, its headers, and the rest,
    which a key extractor may read. *)
Record Request {HH : Headers} (X : Type) := mkRequest {
  rq_peer : option IpAddr;
  rq_headers : HeaderMap;
  rq_rest : X;
}.
Arguments mkRequest {_ _}.
Arguments rq_peer {_ _} _.
Arguments rq_headers {_ _} _.
Arguments rq_rest {_ _} _.

(** What the middleware answers: what the application answered, or one of its own two
    refusals (429 with the limiter's response as its body; 503 with [Retry-After: 5]). *)
Inductive MwResponse (A : Type) :=
  | FromNext (a : A)
  | TooManyRequests (body : RateLimitResponse)
  | ServiceUnavailable (retry_after : string).
Arguments FromNext {_} _.
Arguments TooManyRequests {_} _.
Arguments ServiceUnavailable {_} _.

Section middleware.
Context {HH : Headers} {X D W A : Type} `{Clock W} {SB : StorageBackend D W}.

Record RateLimitMiddleware := mkMiddleware {
  mw_config : RateLimitConfig;
  trusted_proxies : TrustedProxies;
  key_extractor : option (Request X → option string);
  fail_mode : FailMode;
}.

Definition with_backend (config : RateLimitConfig) : RateLimitMiddleware :=
  mkMiddleware config [] None Closed.
Definition with_trusted_proxies (m : RateLimitMiddleware) (ps : TrustedProxies) : RateLimitMiddleware :=
  mkMiddleware (mw_config m) ps (key_extractor m) (fail_mode m).
Definition with_key_extractor (m : RateLimitMiddleware) (f : Request X → option string) :
    RateLimitMiddleware := mkMiddleware (mw_config m) (trusted_proxies m) (Some f) (fail_mode m).
Definition with_fail_mode (m : RateLimitMiddleware) (mode : FailMode) : RateLimitMiddleware :=
  mkMiddleware (mw_config m) (trusted_proxies m) (key_extractor m) mode.

Definition UNKNOWN_PEER_KEY : string := "peer:unknown".

Definition client_key (m : RateLimitMiddleware) (req : Request X) : string :=
  match (f ← key_extractor m; f req) with
  | Some k => "key:" +:+ k
  | None =>
      match rq_peer req with
      | Some peer => "ip:" +:+ ip_to_string (client_ip (trusted_proxies m) peer (rq_headers req))
      | None => UNKNOWN_PEER_KEY
      end
  end.

(** The application does not see the limiter's counters. *)
Definition run_next {E} (next : Request X → sm W E A) (req : Request X) : sm (D * W) E (MwResponse A) :=
  a ← sm_zoom snd (λ w s, (s.1, w)) (next req); mret (FromNext a).

(** Check, then the application or a refusal. Rust's two arms of [Result<Response,
    Response>] are both answers to the client. *)
Definition rate_limit_middleware (m : RateLimitMiddleware) (next : Request X → sm W Empty_set A)
    (req : Request X) : sm (D * W) Empty_set (MwResponse A) :=
  answer ← attempt (check (mw_config m) (client_key m req));
  match answer with
  | inr response =>
      if allowed response then run_next next req else mret (TooManyRequests response)
  | inl _ =>
      match fail_mode m with
      | Open => run_next next req
      | Closed => mret (ServiceUnavailable "5")
      end
  end.
End middleware.
