(* ===== verification/TrustedProxiesFacts.v ===== *)
(** * Rate limiting: how many requests pass, and whom a request is counted against

    That dropping finished entries never changes an answer, and how many requests of a key are let through in any
    stretch of time as long as the window. Then what the forwarding headers can and cannot change, which addresses a list
    of trusted proxies covers, and the bound on requests that reach the application. *)
From Stdlib Require Import ZArith Lia Ascii.
From S2P Require Import Prelude RustStr NetAddr NetAddrFacts RateLimit TrustedProxies.

Local Open Scope Z_scope.

(** A clock that does not go back. *)
Class MonotoneClock (W : Type) `{Clock W} := {
  clock_at : W → Z;
  clock_nonneg w : 0 ≤ clock_at w;
  clock_reads w t w' : system_time w = (t, w') → clock_at w ≤ default 0 t ≤ clock_at w';
}.

(** ** A run of checks *)
Section runs.
Context {W : Type} {HC : Clock W}.

Record Event := mkEvent { ev_key : string; ev_time : Z; ev_answer : res RateLimitError RateLimitResponse }.
Definition ev_allowed (e : Event) : bool :=
  match ev_answer e with Ok r => allowed r | _ => false end.

(** A check of a key, and what becomes of the world between its answer and the next check. *)
Record Ask := mkAsk { ask_key : string; ask_then : res RateLimitError RateLimitResponse → W → W }.

(** The checks of one limiter, in the order they take effect; a check's time is the reading
    its increment makes. A check that fails does not stop the others. *)
Fixpoint run_checks {SB : StorageBackend Counters W} (config : RateLimitConfig) (asks : list Ask)
    (s : Counters * W) : list Event :=
  match asks with
  | [] => []
  | q :: asks =>
      let '(answer, (m, w)) := check config (ask_key q) s in
      mkEvent (ask_key q) (default 0 (system_time s.2).1) answer ::
      run_checks config asks (m, ask_then q answer w)
  end.

(** The same counters, without the sweep: every key keeps its entry. *)
Definition plain_increment (k : string) (config : RateLimitConfig) :
    sm (Counters * W) RateLimitError IncrementOutcome :=
  now ← now_unix;
  s ← sm_get;
  let '(outcome, state) := count_request now config (default (mkCounter 0 now None) (s.1 !! k)) in
  _ ← sm_put (<[k := state]> s.1, s.2);
  match outcome with Some o => mret o | None => sm_panic end.
Definition PlainStorage : StorageBackend Counters W :=
  {| increment := plain_increment; get_count := mem_get_count; reset := mem_reset |}.
End runs.

(** Time passes between checks. *)
Definition asks_ok {W} `{MonotoneClock W} (asks : list (Ask (W:=W))) : Prop :=
  Forall (λ q, ∀ a w, clock_at w ≤ clock_at (ask_then q a w)) asks.

(** ** The sweep *)
Section sweep.
Context {W : Type} {HC : Clock W} {HM : MonotoneClock W} (config : RateLimitConfig).
Hypothesis Hwindow : 0 ≤ window_seconds config.

(** An entry that is not worth keeping counts like none at all. *)
Lemma count_finished now st :
  retained now config st = false →
  count_request now config st = count_request now config (mkCounter 0 now None).
Proof using Hwindow.
  unfold retained, count_request, count_unlocked. intros [Hl Hw]%orb_false_iff. cbn [c_locked_until].
  destruct (c_locked_until st) as [until|] eqn:Hlock; [by rewrite Hl|].
  assert (count_in_window now config st = count_in_window now config (mkCounter 0 now None)) as ->;
    [|done].
  unfold count_in_window. rewrite Hlock. simpl. apply Z.leb_gt in Hw.
  rewrite (proj2 (Z.ltb_lt _ _)) by done.
  rewrite (proj2 (Z.ltb_ge _ _)) by (unfold u64_saturating_sub; lia). done.
Qed.

(** The swept map has what the plain one has, but for finished entries. *)
Definition swept (now : Z) (m m' : Counters) : Prop :=
  ∀ k, m !! k = m' !! k ∨
       (m !! k = None ∧ ∃ st, m' !! k = Some st ∧ retained now config st = false).

Lemma retained_later now now' st :
  now ≤ now' → retained now config st = false → retained now' config st = false.
Proof.
  unfold retained. intros Hle [Hl Hw]%orb_false_iff. apply orb_false_iff. split.
  - destruct (c_locked_until st); [|done]. apply Z.ltb_ge in Hl. apply Z.ltb_ge. lia.
  - apply Z.leb_gt in Hw. apply Z.leb_gt. unfold u64_saturating_sub in *. lia.
Qed.
Lemma swept_later now now' m m' : now ≤ now' → swept now m m' → swept now' m m'.
Proof.
  intros Hle H k. destruct (H k) as [?|(? & st & ? & ?)]; [by left|right].
  split; [done|]. exists st. split; [done|]. by eapply retained_later.
Qed.
Lemma swept_sweep now k m m' : swept now m m' → swept now (sweep_counters now k config m) m'.
Proof.
  intros H. unfold sweep_counters. case_match; [|done]. intros k'. rewrite map_lookup_filter.
  destruct (H k') as [Heq|(Heq & st & Hst & Hr)]; rewrite Heq; simpl; [|right; by eauto].
  destruct (m' !! k') as [st|] eqn:Hst; simpl; [|by left].
  destruct (retained now config st) eqn:Hr; [left|right].
  - by rewrite option_guard_True.
  - rewrite option_guard_False by (simpl; congruence). eauto.
Qed.
Lemma swept_insert now k st m m' : swept now m m' → swept now (<[k := st]> m) (<[k := st]> m').
Proof.
  intros H k'. destruct (decide (k = k')) as [->|].
  - left. by rewrite !lookup_insert_eq.
  - rewrite !lookup_insert_ne by done. apply H.
Qed.
Lemma swept_count now k m m' :
  swept now m m' →
  count_request now config (default (mkCounter 0 now None) (m !! k)) =
  count_request now config (default (mkCounter 0 now None) (m' !! k)).
Proof using Hwindow.
  intros H. destruct (H k) as [->|(-> & st & -> & Hr)]; [done|]. simpl. by rewrite (count_finished _ st).
Qed.

(** One check on the swept and on the plain counters. *)
Lemma check_swept k m m' w :
  swept (clock_at w) m m' →
  let '(a, (m1, w1)) := check (SB:=InMemoryStorage) config k (m, w) in
  let '(a', (m1', w1')) := check (SB:=PlainStorage) config k (m', w) in
  a = a' ∧ w1 = w1' ∧ swept (clock_at w1) m1 m1'.
Proof using Hwindow.
  intros Hs. unfold check. destruct (enabled config); [|done].
  unfold mbind, sm_bind, increment, InMemoryStorage, PlainStorage, mem_increment, plain_increment,
    mbind, sm_bind, now_unix. cbn [snd fst negb].
  destruct (system_time w) as [t w1] eqn:Ht. apply clock_reads in Ht as Hclk. set (now := default 0 t) in *.
  unfold sm_get. cbn [fst snd].
  assert (swept now m m') as Hn by (eapply swept_later; [|exact Hs]; lia).
  pose proof (swept_sweep now k m m' Hn) as Hsw.
  rewrite (swept_count now k _ m' Hsw).
  destruct (count_request now config (default (mkCounter 0 now None) (m' !! k))) as [o st].
  apply (swept_insert now k st) in Hsw. apply (swept_later now (clock_at w1)) in Hsw; [|lia].
  unfold sm_put. destruct o as [o|]; [|done]. unfold mret, sm_ret. cbn beta iota. cbn [fst snd].
  destruct (system_time w1) as [t2 w2] eqn:Ht2. apply clock_reads in Ht2 as Hclk2. cbn [fst snd].
  apply (swept_later _ (clock_at w2)) in Hsw; [|lia].
  by destruct (respond _ _ _).
Qed.

Lemma run_checks_swept asks m m' w :
  asks_ok asks → swept (clock_at w) m m' →
  run_checks (SB:=InMemoryStorage) config asks (m, w) = run_checks (SB:=PlainStorage) config asks (m', w).
Proof using Hwindow.
  intros Hasks. revert m m' w. induction Hasks as [|q asks Hq _ IH]; intros m m' w Hs; [done|].
  cbn [run_checks]. pose proof (check_swept (ask_key q) m m' w Hs) as H.
  destruct (check (SB:=InMemoryStorage) config (ask_key q) (m, w)) as [a [m1 w1]].
  destruct (check (SB:=PlainStorage) config (ask_key q) (m', w)) as [a' [m1' w1']].
  destruct H as (-> & -> & Hs1). f_equal. apply IH. eapply swept_later; [apply Hq|done].
Qed.
End sweep.

(** ** Counting times *)
Definition within (a b : Z) (A : list Z) : Z := Z.of_nat (length (filter (λ t, a ≤ t < b) A)).
Definition since (a : Z) (A : list Z) : Z := Z.of_nat (length (filter (λ t, a ≤ t) A)).

Lemma within_app a b A B : within a b (A ++ B) = within a b A + within a b B.
Proof. unfold within. rewrite filter_app, length_app. lia. Qed.
Lemma since_app a A B : since a (A ++ B) = since a A + since a B.
Proof. unfold since. rewrite filter_app, length_app. lia. Qed.
Lemma within_one a b t : within a b [t] = if decide (a ≤ t < b) then 1 else 0.
Proof. unfold within. rewrite filter_cons. by case_decide. Qed.
Lemma within_since a b A : within a b A ≤ since a A.
Proof.
  induction A as [|t A IH]; [done|]. unfold within, since in *. rewrite !filter_cons.
  destruct (decide (a ≤ t < b)), (decide (a ≤ t)); simpl; lia.
Qed.
Lemma since_length a A : since a A ≤ Z.of_nat (length A).
Proof. unfold since. pose proof (length_filter (λ t, a ≤ t) A). lia. Qed.
Lemma since_before a A : Forall (λ t, t < a) A → since a A = 0.
Proof.
  unfold since. induction 1 as [|t A Ht _ IH]; [done|]. rewrite filter_cons, decide_False by lia. done.
Qed.

(** ** The bound *)
Section bound.
Context {W : Type} {HC : Clock W} {HM : MonotoneClock W} (config : RateLimitConfig).
Abbreviation window := (window_seconds config).
Abbreviation limit := (max_requests config).
Hypothesis Henabled : enabled config = true.
Hypothesis Hwindow : 0 ≤ window.
Hypothesis Hlimit : 0 ≤ limit < u64_max.
Hypothesis Hlockout : ∀ L, lockout_seconds config = Some L → window ≤ L.

Definition bounded (A : list Z) : Prop := ∀ a, within a (a + window) A ≤ 2 * limit.

(** The times [A] a key was let through, when a window may start at [now]. *)
Record fresh_ok (now : Z) (A : list Z) : Prop := {
  fo_bounded : bounded A;
  fo_past : Forall (λ t, t ≤ now) A;
  fo_recent a : now - window < a → since a A ≤ limit;
}.

(** The same beside the key's entry: the times before its window and those in it. *)
Record entry_ok (now : Z) (st : CounterState) (old cur : list Z) : Prop := {
  eo_bounded : bounded (old ++ cur);
  eo_start : c_window_start st ≤ now;
  eo_old : Forall (λ t, t ≤ c_window_start st) old;
  eo_cur : Forall (λ t, c_window_start st ≤ t ≤ now) cur;
  eo_count : Z.of_nat (length cur) ≤ c_count st ≤ u64_max;
  eo_limit : Z.of_nat (length cur) ≤ limit;
  eo_recent a : c_window_start st - window < a → since a old ≤ limit;
  eo_locked u : c_locked_until st = Some u → c_window_start st + window ≤ u ∧ limit < c_count st;
}.
Definition key_ok (now : Z) (o : option CounterState) (A : list Z) : Prop :=
  match o with
  | None => A = []
  | Some st => ∃ old cur, A = old ++ cur ∧ entry_ok now st old cur
  end.

Lemma entry_later now now' st old cur :
  now ≤ now' → entry_ok now st old cur → entry_ok now' st old cur.
Proof.
  intros Hle [Hb Hs Ho Hc Hn Hl Hr Hk]. split; [done|lia|done| |done..].
  eapply Forall_impl; [exact Hc|]. simpl. lia.
Qed.

(** An entry whose window is over is as good as none. *)
Lemma entry_over now now' st old cur :
  entry_ok now st old cur → now ≤ now' → c_window_start st + window ≤ now' →
  fresh_ok now' (old ++ cur).
Proof using Hwindow.
  intros [Hb Hs Ho Hc Hn Hl Hr Hk] Hle Hover. split; [done| |].
  - apply Forall_app. split; eapply Forall_impl; [exact Ho| |exact Hc|]; simpl; lia.
  - intros a Ha. rewrite since_app, (since_before a old).
    + pose proof (since_length a cur). lia.
    + eapply Forall_impl; [exact Ho|]. simpl. lia.
Qed.
Lemma fresh_entry now A n :
  fresh_ok now A → 0 ≤ n ≤ u64_max → entry_ok now (mkCounter n now None) A [].
Proof using Hlimit.
  intros [Hb Hp Hr] Hn. split; simpl; try done; try lia. by rewrite app_nil_r.
Qed.

(** One more request let through. *)
Lemma entry_add now st old cur :
  entry_ok now st old cur → Z.of_nat (length cur) < c_count st → c_count st ≤ limit →
  entry_ok now st old (cur ++ [now]).
Proof using Hwindow.
  intros [Hb Hs Ho Hc Hn Hl Hr Hk] Hcnt Hlim. split; try done.
  - intros a. rewrite app_assoc, within_app, within_one. case_decide as Hin; [|specialize (Hb a); lia].
    rewrite within_app. specialize (Hr a ltac:(lia)).
    pose proof (within_since a (a + window) old). pose proof (within_since a (a + window) cur).
    pose proof (since_length a cur). lia.
  - apply Forall_app. split; [done|]. constructor; [lia|constructor].
  - rewrite length_app. simpl. lia.
  - rewrite length_app. simpl. lia.
Qed.

(** Counting in the window keeps what is known of the entry, and leaves room for the
    request where the count is within the limit. *)
Lemma count_in_window_ok now st old cur :
  entry_ok now st old cur → c_locked_until st = None →
  let st' := count_in_window now config st in
  ∃ old' cur', old ++ cur = old' ++ cur' ∧ entry_ok now st' old' cur' ∧
    c_locked_until st' = None ∧ (c_count st' ≤ limit → Z.of_nat (length cur') < c_count st').
Proof using Hwindow Hlimit.
  intros He Hnone. unfold count_in_window. rewrite Hnone. destruct (Z.ltb_spec window (u64_saturating_sub now (c_window_start st))) as [Hw|Hw].
  - exists (old ++ cur), []. rewrite app_nil_r. split; [done|]. split; [|simpl; split; [done|lia]].
    apply fresh_entry; [|unfold u64_max; lia]. apply (entry_over now now st); [done|lia|].
    unfold u64_saturating_sub in Hw. lia.
  - exists old, cur. split; [done|]. destruct He as [Hb Hs Ho Hc Hn Hl Hr Hk].
    unfold u64_saturating_add in *. split; [|simpl; split; [done|lia]].
    split; simpl; try done. lia.
Qed.

Lemma count_unlocked_ok now st old cur :
  entry_ok now st old cur → c_locked_until st = None →
  let '(o, st') := count_unlocked now config st in
  key_ok now (Some st') (old ++ cur) ∧
  ∀ oc, o = Some oc → count oc ≤ limit → key_ok now (Some st') ((old ++ cur) ++ [now]).
Proof using Hwindow Hlimit Hlockout.
  intros He Hnone. destruct (count_in_window_ok now st old cur He Hnone)
    as (old' & cur' & -> & He' & Hnone' & Hroom).
  unfold count_unlocked. set (st' := count_in_window now config st) in *.
  assert (key_ok now (Some st') (old' ++ cur')) as Hk by by exists old', cur'.
  destruct (Z.ltb_spec limit (c_count st')) as [Hover|Hin].
  - destruct (lockout_seconds config) as [L|] eqn:HL; [|split; [done|intros oc [= <-]; simpl; lia]].
    destruct (u64_checked_add now L) as [u|] eqn:Hu; [|done].
    split; [|intros oc [= <-]; simpl; lia]. exists old', cur'. split; [done|].
    destruct He'. split; simpl; try done. intros u' [= <-]. split; [|done].
    unfold u64_checked_add in Hu. case_match; [|done]. injection Hu as <-.
    specialize (Hlockout L eq_refl). lia.
  - split; [done|]. intros _ _ _. exists old', (cur' ++ [now]). rewrite app_assoc. split; [done|].
    apply entry_add; [done|by apply Hroom|done].
Qed.

Lemma count_request_ok now st old cur :
  entry_ok now st old cur →
  let '(o, st') := count_request now config st in
  key_ok now (Some st') (old ++ cur) ∧
  ∀ oc, o = Some oc → count oc ≤ limit → key_ok now (Some st') ((old ++ cur) ++ [now]).
Proof using Hwindow Hlimit Hlockout.
  intros He. unfold count_request. destruct (c_locked_until st) as [u|] eqn:Hlock;
    [|by apply count_unlocked_ok].
  destruct (eo_locked _ _ _ _ He u Hlock) as [Hu Hc]. destruct (Z.ltb_spec now u).
  - split; [by exists old, cur|]. intros oc [= <-]. simpl. lia.
  - pose proof (count_unlocked_ok now (mkCounter 0 now None) (old ++ cur) []) as H0.
    rewrite app_nil_r in H0. apply H0; [|done]. apply fresh_entry; [|unfold u64_max; lia].
    apply (entry_over now now st); [done|lia..].
Qed.

Lemma key_request_ok now o A :
  key_ok now o A → 0 ≤ now →
  let '(oc, st') := count_request now config (default (mkCounter 0 now None) o) in
  key_ok now (Some st') A ∧
  ∀ c, oc = Some c → count c ≤ limit → key_ok now (Some st') (A ++ [now]).
Proof using Hwindow Hlimit Hlockout.
  intros Hk Hnow. destruct o as [st|]; simpl in *.
  - destruct Hk as (old & cur & -> & He). by apply count_request_ok.
  - subst A. pose proof (count_request_ok now (mkCounter 0 now None) [] []) as H0.
    apply H0, fresh_entry; [|unfold u64_max; lia].
    split; [|constructor|]; intros a; unfold within, since; simpl; lia.
Qed.

Lemma key_later now now' o A : now ≤ now' → key_ok now o A → key_ok now' o A.
Proof.
  intros Hle. destruct o as [st|]; [|done]. intros (old & cur & -> & He). exists old, cur.
  split; [done|]. by eapply entry_later.
Qed.
Lemma key_bounded now o A : key_ok now o A → bounded A.
Proof using Hlimit.
  destruct o as [st|]; simpl; [by intros (old & cur & -> & [])|]. intros -> a. unfold within. simpl. lia.
Qed.

Lemma respond_allowed now o r : respond now config o = Some r → allowed r = true → count o ≤ limit.
Proof.
  unfold respond, window_response. intros Hr Ha.
  destruct (_ ≫= _) as [u|]; [injection Hr as <-; done|].
  destruct (u64_checked_add _ _); simpl in Hr; [|done]. injection Hr as <-. simpl in Ha.
  apply negb_true_iff, Z.ltb_ge in Ha. done.
Qed.

(** The times a key was let through. *)
Definition let_through (k : string) (evs : list Event) : list Z :=
  ev_time <$> filter (λ e, ev_key e = k ∧ ev_allowed e = true) evs.

(** One check on the plain counters. *)
Lemma plain_check k (m : Counters) w :
  let now := default 0 (system_time w).1 in
  let '(a, (m', w')) := check (SB:=PlainStorage) config k (m, w) in
  let '(oc, st') := count_request now config (default (mkCounter 0 now None) (m !! k)) in
  clock_at w ≤ now ≤ clock_at w' ∧ m' = <[k := st']> m ∧
  (ev_allowed (mkEvent k now a) = true → ∃ c, oc = Some c ∧ count c ≤ limit).
Proof using Henabled HM.
  unfold check, increment, PlainStorage, plain_increment, now_unix, mbind, sm_bind.
  rewrite Henabled. cbn [negb fst snd].
  destruct (system_time w) as [t w1] eqn:Ht. apply clock_reads in Ht as Hclk.
  cbn [fst]. set (now := default 0 t) in *. unfold sm_get. cbn [fst snd].
  destruct (count_request now config _) as [oc st']. unfold sm_put, mret, sm_ret.
  destruct oc as [oc|]; [|done]. cbn beta iota. cbn [fst snd].
  destruct (system_time w1) as [t2 w2] eqn:Ht2. apply clock_reads in Ht2. cbn [fst snd].
  destruct (respond (default 0 t2) config oc) as [r|] eqn:Hr; simpl.
  - split; [lia|]. split; [done|]. intros Ha. exists oc. split; [done|]. by eapply respond_allowed.
  - split; [lia|done].
Qed.

Definition passed (e : Event) (k : string) : list Z :=
  if decide (ev_key e = k ∧ ev_allowed e = true) then [ev_time e] else [].
Lemma let_through_cons k e evs : let_through k (e :: evs) = passed e k ++ let_through k evs.
Proof. unfold let_through, passed. rewrite filter_cons. by case_decide. Qed.

Lemma run_checks_bounded asks (m : Counters) w (A : string → list Z) :
  asks_ok asks → (∀ k, key_ok (clock_at w) (m !! k) (A k)) →
  ∀ k, bounded (A k ++ let_through k (run_checks (SB:=PlainStorage) config asks (m, w))).
Proof using Hwindow Hlimit Hlockout Henabled.
  intros Hasks. revert m w A. induction Hasks as [|q asks Hq _ IH]; intros m w A HA k.
  { cbn. rewrite app_nil_r. by eapply key_bounded. }
  cbn [run_checks snd]. set (k0 := ask_key q) in *. pose proof (plain_check k0 m w) as Hc. cbn beta zeta in Hc.
  set (now := default 0 (system_time w).1) in *.
  destruct (check config k0 (m, w)) as [a [m' w']].
  pose proof (key_request_ok now (m !! k0) (A k0)) as Hreq.
  destruct (count_request now config _) as [oc st']. destruct Hc as (Hclk & -> & Hal).
  pose proof (clock_nonneg w). destruct Hreq as [Hsame Hadd]; [|lia|].
  { eapply key_later; [|apply HA]. lia. }
  set (e := mkEvent k0 now a) in *. rewrite let_through_cons, app_assoc.
  apply (IH _ _ (λ k, A k ++ passed e k)). specialize (Hq a w').
  intros k1. unfold passed. destruct (decide (k0 = k1)) as [<-|Hne].
  - rewrite lookup_insert_eq. apply (key_later now); [lia|]. case_decide as Hd.
    + destruct Hd as [_ Hd]. destruct (Hal Hd) as (c & -> & Hc). by apply (Hadd c).
    + by rewrite app_nil_r.
  - rewrite lookup_insert_ne by done. rewrite decide_False by (simpl; tauto). rewrite app_nil_r.
    apply (key_later (clock_at w)); [lia|apply HA].
Qed.
End bound.

(** ** Lockouts *)
Section lockout.
Context {W : Type} {HC : Clock W} {HM : MonotoneClock W} (config : RateLimitConfig).
Hypothesis Henabled : enabled config = true.

Definition locked_at (m : Counters) (k : string) (u : Z) : Prop :=
  ∃ st, m !! k = Some st ∧ c_locked_until st = Some u ∧ max_requests config < c_count st.

(** An entry's lock is only set beyond the limit. *)
Definition locks_ok (m : Counters) : Prop :=
  ∀ k st u, m !! k = Some st → c_locked_until st = Some u → max_requests config < c_count st.

Lemma count_request_lock now st :
  (∀ u, c_locked_until st = Some u → max_requests config < c_count st) →
  let '(oc, st') := count_request now config st in
  (∀ u, c_locked_until st' = Some u → max_requests config < c_count st') ∧
  (∀ c, oc = Some c → locked_until c = c_locked_until st' ∧ count c = c_count st').
Proof.
  intros Hst. unfold count_request.
  assert (∀ st1, c_locked_until st1 = None →
    let '(oc, st') := count_unlocked now config st1 in
    (∀ u, c_locked_until st' = Some u → max_requests config < c_count st') ∧
    (∀ c, oc = Some c → locked_until c = c_locked_until st' ∧ count c = c_count st')) as Hun.
  { intros st1 H1. unfold count_unlocked.
    assert (c_locked_until (count_in_window now config st1) = None) as H2
      by (unfold count_in_window; case_match; done).
    set (st2 := count_in_window now config st1) in *.
    destruct (Z.ltb_spec (max_requests config) (c_count st2)); [|split; [congruence|by intros c [= <-]]].
    destruct (lockout_seconds config) as [L|]; [|split; [congruence|by intros c [= <-]]].
    destruct (u64_checked_add now L); [|split; [congruence|done]].
    split; [by simpl|by intros c [= <-]]. }
  destruct (c_locked_until st) as [u|] eqn:Hl; [|by apply Hun].
  destruct (Z.ltb_spec now u); [|by apply Hun].
  split; [rewrite Hl; naive_solver|]. by intros c [= <-].
Qed.

(** While a lock holds, counting changes nothing. *)
Lemma count_request_locked now st u :
  c_locked_until st = Some u → now < u →
  count_request now config st = (Some (mkOutcome (c_count st) (Some u)), st).
Proof. intros Hl Hu. unfold count_request. rewrite Hl. by destruct (Z.ltb_spec now u); [|lia]. Qed.

(** One check: the locks stay set beyond the limit only, and an answer that names a lock
    leaves it set. *)
Lemma plain_check_locks k (m : Counters) w :
  locks_ok m →
  let '(a, (m', w')) := check (SB:=PlainStorage) config k (m, w) in
  locks_ok m' ∧ ∀ r u, a = Ok r → r_locked_until r = Some u → locked_at m' k u.
Proof using Henabled HM.
  intros Hm. unfold check, increment, PlainStorage, plain_increment, now_unix, mbind, sm_bind.
  rewrite Henabled. cbn [negb fst snd]. destruct (system_time w) as [t w1]. cbn [fst].
  set (now := default 0 t) in *. unfold sm_get. cbn [fst snd].
  pose proof (count_request_lock now (default (mkCounter 0 now None) (m !! k))) as Hreq.
  destruct (count_request now config _) as [oc st']. destruct Hreq as [Hst Hoc].
  { destruct (m !! k) as [st|] eqn:Hk; simpl; [intros u; by apply (Hm k)|done]. }
  assert (locks_ok (<[k := st']> m)) as Hm'.
  { intros k' st u. intros [[<- <-]|[_ H']]%lookup_insert_Some; [apply Hst|by apply (Hm k')]. }
  unfold sm_put, mret, sm_ret. destruct oc as [oc|]; [|done]. cbn beta iota. cbn [fst snd].
  destruct (system_time w1) as [t2 w2]. cbn [fst snd].
  destruct (respond (default 0 t2) config oc) as [r|] eqn:Hr; simpl; [|done].
  split; [done|]. intros r' u [= <-] Hu. destruct (Hoc oc eq_refl) as [Hlk _].
  assert (locked_until oc = Some u) as Hou.
  { unfold respond, window_response in Hr. destruct (locked_until oc) as [u'|]; simpl in Hr.
    - destruct (_ <? _); simpl in Hr; [injection Hr as <-; by injection Hu as <-|].
      destruct (u64_checked_add _ _); [|done]. by injection Hr as <-.
    - destruct (u64_checked_add _ _); [|done]. by injection Hr as <-. }
  exists st'. rewrite lookup_insert_eq. split; [done|]. rewrite <- Hlk. split; [done|].
  apply (Hst u). congruence.
Qed.

Lemma run_checks_times asks (m : Counters) w :
  asks_ok asks →
  Forall (λ e, clock_at w ≤ ev_time e) (run_checks (SB:=PlainStorage) config asks (m, w)).
Proof using Henabled HM.
  intros Hasks. revert m w. induction Hasks as [|q asks Hq _ IH]; intros m w; [constructor|].
  cbn [run_checks snd]. pose proof (plain_check config Henabled (ask_key q) m w) as Hc.
  cbn beta zeta in Hc. destruct (check config (ask_key q) (m, w)) as [a [m' w']].
  destruct (count_request _ _ _) as [oc st'].
  destruct Hc as (Hclk & _ & _). constructor; [simpl; lia|]. specialize (Hq a w').
  eapply Forall_impl; [apply IH|]. simpl. lia.
Qed.

(** A lock refuses its key until it is over, and other keys' checks leave it. *)
Lemma run_checks_locked asks (m : Counters) w k u :
  asks_ok asks → locked_at m k u →
  Forall (λ e, ev_key e = k → ev_time e < u → ev_allowed e = false)
    (run_checks (SB:=PlainStorage) config asks (m, w)).
Proof using Henabled HM.
  intros Hasks. revert m w.
  induction Hasks as [|q asks Hq Hasks IH]; intros m w (st & Hst & Hl & Hlim); [constructor|].
  cbn [run_checks snd]. set (k0 := ask_key q) in *. pose proof (plain_check config Henabled k0 m w) as Hc. cbn beta zeta in Hc.
  set (now := default 0 (system_time w).1) in *.
  destruct (check config k0 (m, w)) as [a [m' w']].
  specialize (Hq a w'). destruct (decide (k0 = k)) as [Heq|Hne].
  - rewrite Heq, Hst in Hc. cbn [default from_option id] in Hc. destruct (Z.lt_ge_cases now u) as [Hu|Hu].
    + rewrite (count_request_locked now st u Hl Hu) in Hc. destruct Hc as (Hclk & -> & Hal).
      constructor.
      * intros _ _. apply not_true_is_false. intros (c & [= <-] & Hcnt)%Hal. simpl in Hcnt. lia.
      * apply IH. exists st. by rewrite lookup_insert_eq.
    + destruct (count_request _ _ _) as [oc st']. destruct Hc as (Hclk & _ & _).
      constructor; [simpl; lia|]. eapply Forall_impl; [by apply run_checks_times|]. simpl. lia.
  - destruct (count_request _ _ _) as [oc st']. destruct Hc as (_ & -> & _).
    constructor; [done|]. apply IH. exists st. by rewrite lookup_insert_ne.
Qed.

(** A run from counters whose locks are in order. *)
Lemma run_checks_lockout asks (m : Counters) w pre e post r u :
  asks_ok asks → locks_ok m → run_checks (SB:=PlainStorage) config asks (m, w) = pre ++ e :: post →
  ev_answer e = Ok r → r_locked_until r = Some u →
  Forall (λ e', ev_key e' = ev_key e → ev_time e' < u → ev_allowed e' = false) post.
Proof using Henabled HM.
  intros Hasks. revert m w pre.
  induction Hasks as [|q asks Hq Hasks IH]; intros m w pre Hm Hrun Ha Hu; [by destruct pre|].
  cbn [run_checks snd] in Hrun. pose proof (plain_check_locks (ask_key q) m w Hm) as Hc.
  destruct (check config (ask_key q) (m, w)) as [a [m' w']]. destruct Hc as [Hm' Hlk].
  destruct pre as [|e0 pre]; injection Hrun as <- Hrun.
  - simpl in Ha |- *. rewrite <- Hrun. by eapply run_checks_locked, Hlk.
  - by eapply IH.
Qed.
End lockout.

(** ** The limiter over the in-memory counters *)
Section in_memory.
Context {W : Type} {HC : Clock W} {HM : MonotoneClock W} (config : RateLimitConfig).

Lemma swept_refl now (m : Counters) : swept config now m m.
Proof. by left. Qed.

Lemma limiter_bounded asks w k a :
  asks_ok asks → enabled config = true → 0 ≤ window_seconds config →
  0 ≤ max_requests config < u64_max →
  (∀ L, lockout_seconds config = Some L → window_seconds config ≤ L) →
  within a (a + window_seconds config)
    (let_through k (run_checks (SB:=InMemoryStorage) config asks (∅, w))) ≤ 2 * max_requests config.
Proof.
  intros Hasks He Hw Hm HL. rewrite (run_checks_swept config Hw asks ∅ ∅ w Hasks (swept_refl _ _)).
  apply (run_checks_bounded config He Hw Hm HL asks ∅ w (λ _, [])); [done|].
  intros k'. by rewrite lookup_empty.
Qed.

(** dropping finished entries is not seen. With a clock that does not go back, the
    checks of a limiter answer exactly as they would if the map kept every entry for
    ever: the same responses, the same counts, the same locks, in any order of keys. *)
Theorem sweep_unseen (asks : list Ask) (w : W) :
  asks_ok asks → 0 ≤ window_seconds config →
  run_checks (SB:=InMemoryStorage) config asks (∅, w) = run_checks (SB:=PlainStorage) config asks (∅, w).
Proof. intros Ha Hw. apply run_checks_swept; [done|done|apply swept_refl]. Qed.

(** a lockout holds. Once a check has answered that its key is locked until [u], no
    later check of that key made before [u] is allowed, whatever happens in between. *)
Theorem lockout_holds (asks : list Ask) (w : W) (pre post : list Event) (e : Event)
    (r : RateLimitResponse) (u : Z) :
  asks_ok asks → enabled config = true → 0 ≤ window_seconds config →
  run_checks (SB:=InMemoryStorage) config asks (∅, w) = pre ++ e :: post →
  ev_answer e = Ok r → r_locked_until r = Some u →
  Forall (λ e', ev_key e' = ev_key e → ev_time e' < u → ev_allowed e' = false) post.
Proof.
  intros Hasks He Hw Hrun. rewrite (run_checks_swept config Hw asks ∅ ∅ w Hasks (swept_refl _ _)) in Hrun.
  revert Hrun. apply run_checks_lockout; [done|done|]. intros k st u'. by rewrite lookup_empty.
Qed.
End in_memory.

(** ** Instances of the theorems *)

(** A clock that moves a second at every reading. *)
Module Ticking.
#[export] Instance ticking : Clock N := { system_time w := (Some (Z.of_N w), (w + 1)%N) }.
Lemma ticking_reads w t w' :
  system_time w = (t, w') → Z.of_N w ≤ default 0 t ≤ Z.of_N w'.
Proof. intros [= <- <-]. simpl. lia. Qed.
#[export] Instance ticking_monotone : MonotoneClock N :=
  { clock_at := Z.of_N; clock_nonneg := N2Z.is_nonneg; clock_reads := ticking_reads }.
End Ticking.

Section witnesses.
Import Ticking.
Definition at_once (k : string) : Ask (W:=N) := mkAsk k (λ _ w, w).
Lemma at_once_ok ks : asks_ok (map at_once ks).
Proof. induction ks; constructor; [done|done]. Qed.

Definition twice_in_ten : RateLimitConfig := config_new "api" 2 10 true.
Definition asks : list Ask := map at_once ["a"; "a"; "b"; "a"; "a"; "a"; "a"; "a"; "b"].
(** Two windows of "a": seconds 100 and 102, then 112 and 114. *)
Example asks_let_through :
  let_through "a" (run_checks twice_in_ten asks (∅, 100%N)) = [100; 102; 112; 114].
Proof. vm_compute. reflexivity. Qed.

Lemma sweep_unseen_witness :
  run_checks (SB:=InMemoryStorage) twice_in_ten asks (∅, 100%N) =
  run_checks (SB:=PlainStorage) twice_in_ten asks (∅, 100%N).
Proof. apply (sweep_unseen twice_in_ten asks 100%N); [apply at_once_ok|simpl; lia]. Defined.

Definition locking : RateLimitConfig := with_lockout (config_new "login" 0 10 true) 30.
Definition locked_asks : list Ask := map at_once ["a"; "b"; "a"; "a"].
Definition locked_run : list Event := run_checks locking locked_asks (∅, 100%N).
Definition first_event : Event := hd (mkEvent "" 0 Panic) locked_run.
Definition first_response : RateLimitResponse :=
  match ev_answer first_event with Ok r => r | _ => mkResponse true 0 None None 0 false None end.
Lemma lockout_holds_witness :
  Forall (λ e', ev_key e' = "a" → ev_time e' < 130 → ev_allowed e' = false) (tl locked_run).
Proof.
  apply (lockout_holds locking locked_asks 100%N [] (tl locked_run) first_event first_response 130);
    [apply at_once_ok|reflexivity|simpl; lia|vm_compute; reflexivity..].
Defined.

(** A lockout shorter than the window ends the window early: with none at all, one of
    two requests passes at a limit of one per minute. *)
Example short_lockout :
  let_through "a" (run_checks (with_lockout (config_new "api" 1 60 true) 0)
    (map at_once ["a"; "a"; "a"; "a"; "a"; "a"]) (∅, 100%N)) = [100; 104; 108].
Proof. vm_compute. reflexivity. Qed.
End witnesses.

(** ** The client's address *)
Section client.
Context {HH : Headers}.

(** The entry is the address of a trusted proxy. *)
Definition trusted_entry (ps : TrustedProxies) (entry : string) : Prop :=
  ∃ ip, parse_ip entry = Some ip ∧ proxies_contains ps ip = true.

Lemma rightmost_skip ps peer l1 l2 :
  Forall (trusted_entry ps) l1 → rightmost_untrusted ps peer (l1 ++ l2) = rightmost_untrusted ps peer l2.
Proof. induction 1 as [|e l1 (ip & Hp & Hc) _ IH]; [done|]. simpl. by rewrite Hp, Hc. Qed.

(** a client cannot choose whom it is counted as. From a peer that is not a trusted
    proxy the client is the peer, whatever the headers say. From a trusted one it is named
    by the rightmost [X-Forwarded-For] entry that is not a trusted proxy's, whatever stands to
    the left of it; where that entry is no address, and where every entry is a trusted
    proxy's, it is the peer. *)
Theorem client_ip_unspoofable (ps : TrustedProxies) (peer : IpAddr) (h : HeaderMap) :
  (proxies_contains ps (canonical_ip peer) = false → client_ip ps peer h = canonical_ip peer) ∧
  (proxies_contains ps (canonical_ip peer) = true →
     (∀ pre e post, forwarded_entries h = pre ++ e :: post → Forall (trusted_entry ps) post →
        ¬ trusted_entry ps e →
        client_ip ps peer h = from_option canonical_ip (canonical_ip peer) (parse_ip e)) ∧
     (forwarded_entries h ≠ [] → Forall (trusted_entry ps) (forwarded_entries h) →
        client_ip ps peer h = canonical_ip peer)).
Proof.
  unfold client_ip. split; [by intros ->|]. intros ->. simpl. split.
  - intros pre e post Hf Hpost He. rewrite bool_decide_true by (rewrite Hf; by destruct pre).
    rewrite Hf, reverse_app, reverse_cons, <- app_assoc. simpl.
    rewrite rightmost_skip by by apply Forall_reverse. simpl.
    destruct (parse_ip e) as [ip|] eqn:Hp; [|done]. simpl.
    destruct (proxies_contains ps ip) eqn:Hc; [|done]. destruct He. by exists ip.
  - intros Hne Hall. rewrite bool_decide_true by done.
    rewrite <- (app_nil_r (reverse _)), rightmost_skip by by apply Forall_reverse. done.
Qed.
End client.

(** ** Requests through the middleware *)
Section middleware.
Context {HH : Headers} {X A W : Type} {HC : Clock W} {HM : MonotoneClock W}.
Context (m : RateLimitMiddleware (X:=X)) (next : Request X → sm W Empty_set A).

(** A request, and what happens to the world until the next one. *)
Record Arrival := mkArrival { ar_request : Request X; ar_idle : W → W }.

(** Requests one after the other: each one's key, the time it was counted at, and whether
    it was the application that answered it. *)
Record Served := mkServed { sv_key : string; sv_time : Z; sv_answered : bool }.
Fixpoint serve_requests (arrivals : list Arrival) (s : Counters * W) : list Served :=
  match arrivals with
  | [] => []
  | q :: arrivals =>
      let '(answer, (d, w)) := rate_limit_middleware m next (ar_request q) s in
      mkServed (client_key m (ar_request q)) (default 0 (system_time s.2).1)
        (match answer with Ok (FromNext _) => true | _ => false end) ::
      serve_requests arrivals (d, ar_idle q w)
  end.
Definition answered_times (k : string) (l : list Served) : list Z :=
  sv_time <$> filter (λ e, sv_key e = k ∧ sv_answered e = true) l.

(** Neither the application nor the time between requests turns the clock back. *)
Definition arrivals_ok (arrivals : list Arrival) : Prop :=
  (∀ req w, clock_at w ≤ clock_at (next req w).2) ∧
  Forall (λ q, ∀ w, clock_at w ≤ clock_at (ar_idle q w)) arrivals.

(** The checks the requests make. *)
Definition ask_of (q : Arrival) : Ask :=
  mkAsk (client_key m (ar_request q)) (λ a w, ar_idle q
    (match a with Ok r => if allowed r then (next (ar_request q) w).2 else w | _ => w end)).

Lemma asks_of_ok arrivals : arrivals_ok arrivals → asks_ok (map ask_of arrivals).
Proof.
  intros [Hnext Hidle]. induction Hidle as [|q l Hq _ IH]; constructor; [|done].
  intros [r|e|] w; simpl; [|apply Hq..]. destruct (allowed r); [|apply Hq].
  etrans; [apply (Hnext (ar_request q))|apply Hq].
Qed.

(** The in-memory counters never fail, short of a panic. *)
Lemma check_no_error k s e : (check (SB:=InMemoryStorage) (mw_config m) k s).1 ≠ Err e.
Proof.
  unfold check, mbind, sm_bind, increment, InMemoryStorage, mem_increment, mbind, sm_bind, now_unix.
  destruct (enabled _); [|done]. cbn [negb]. destruct s as [d w]. simpl. destruct (system_time w) as [t w1].
  simpl. destruct (count_request _ _ _) as [[o|] st']; simpl; [|done].
  destruct (system_time w1) as [t2 w2]. by destruct (respond _ _ _).
Qed.

(** One request: the application answers only where the check allowed it. *)
Lemma middleware_step req s :
  let '(a, (d, w)) := check (SB:=InMemoryStorage) (mw_config m) (client_key m req) s in
  let '(answer, (d', w')) := rate_limit_middleware m next req s in
  d' = d ∧ w' = match a with Ok r => if allowed r then (next req w).2 else w | _ => w end ∧
  (∀ x, answer = Ok (FromNext x) → ∃ r, a = Ok r ∧ allowed r = true).
Proof.
  pose proof (check_no_error (client_key m req) s) as Herr.
  unfold rate_limit_middleware, mbind, sm_bind, attempt.
  destruct (check (SB:=InMemoryStorage) (mw_config m) (client_key m req) s) as [[r|e|] [d w]];
    [|by destruct (Herr e)|done].
  destruct (allowed r) eqn:Hr; [|by split; [|split]].
  unfold run_next, mbind, sm_bind, sm_zoom. simpl.
  destruct (next req w) as [[a|e|] w'] eqn:Hn; simpl; rewrite ?Hn; (split; [done|]; split; [done|]);
    [|done..]. intros x _. by exists r.
Qed.

Lemma served_sublist arrivals k s :
  answered_times k (serve_requests arrivals s) `sublist_of`
  let_through k (run_checks (SB:=InMemoryStorage) (mw_config m) (map ask_of arrivals) s).
Proof.
  revert s. induction arrivals as [|q l IH]; intros s; [done|]. cbn [serve_requests run_checks map ask_of].
  cbn [ask_key]. pose proof (middleware_step (ar_request q) s) as Hstep.
  destruct (check _ _ s) as [a [d w]].
  destruct (rate_limit_middleware m next (ar_request q) s) as [answer [d' w']].
  destruct Hstep as (-> & -> & Hal). rewrite let_through_cons. unfold answered_times.
  rewrite filter_cons. unfold passed. simpl. specialize (IH (d, ar_idle q
    (match a with Ok r => if allowed r then (next (ar_request q) w).2 else w | _ => w end))).
  destruct answer as [[x|?|?]|?|]; simpl.
  - destruct (Hal x eq_refl) as (r & -> & Hr). unfold ev_allowed. simpl. rewrite Hr. simpl in *.
    rewrite Hr in IH. destruct (decide (client_key m (ar_request q) = k)) as [Hk|Hk].
    + rewrite !decide_True by done. simpl. by apply sublist_skip.
    + rewrite !decide_False by tauto. done.
  - rewrite decide_False by naive_solver. by apply sublist_inserts_l.
  - rewrite decide_False by naive_solver. by apply sublist_inserts_l.
  - rewrite decide_False by naive_solver. by apply sublist_inserts_l.
  - rewrite decide_False by naive_solver. by apply sublist_inserts_l.
Qed.

Lemma within_sublist a b (l l' : list Z) : l `sublist_of` l' → within a b l ≤ within a b l'.
Proof.
  intros H. unfold within. assert (filter (λ t, a ≤ t < b) l `sublist_of` filter (λ t, a ≤ t < b) l')
    as Hs; [|apply sublist_length in Hs; lia].
  induction H as [|x l l' H IH|x l l' H IH]; [done|..]; rewrite ?filter_cons; case_decide;
    [by apply sublist_skip|done|by apply sublist_cons|done].
Qed.

End middleware.

(** ** The trusted addresses *)

(** The addresses of a block, by their leading bits. *)
Definition covers (b : Block) (ip : IpAddr) : Prop :=
  match addr b, canonical_ip ip with
  | V4 net, V4 i => ∀ j, 32 - prefix b ≤ j < 32 → Z.testbit net j = Z.testbit i j
  | V6 net, V6 i => ∀ j, 128 - prefix b ≤ j < 128 → Z.testbit net j = Z.testbit i j
  | _, _ => False
  end.
Definition block_ok (b : Block) : Prop := ip_in_range (addr b) ∧ 0 ≤ prefix b ≤ width (addr b).

Lemma testbit_above w x j : 0 ≤ x < 2 ^ w → 0 ≤ w ≤ j → Z.testbit x j = false.
Proof.
  intros Hx Hj. destruct (Z.eq_dec x 0) as [->|Hne]; [apply Z.bits_0|].
  apply Z.bits_above_log2; [lia|]. apply (Z.lt_le_trans _ w); [|lia]. apply Z.log2_lt_pow2; lia.
Qed.

(** Masking compares the leading bits. *)
Lemma masked_eq w p x y :
  0 ≤ p ≤ w → 0 ≤ x < 2 ^ w → 0 ≤ y < 2 ^ w →
  masked x p w = masked y p w ↔ ∀ j, w - p ≤ j < w → Z.testbit x j = Z.testbit y j.
Proof.
  intros Hp Hx Hy. unfold masked. destruct (Z.eqb_spec p 0) as [->|Hne]; [split; [intros _ j Hj; exfalso; clear Hx Hy; lia|done]|].
  split.
  - intros Heq j Hj. assert (Z.testbit (Z.shiftl (Z.shiftr x (w - p)) (w - p)) j =
      Z.testbit (Z.shiftl (Z.shiftr y (w - p)) (w - p)) j) as Hb by by rewrite Heq.
    rewrite !Z.shiftl_spec, !Z.shiftr_spec in Hb by lia. by replace (j - (w - p) + (w - p)) with j in Hb by lia.
  - intros Hb. f_equal. apply Z.bits_inj'. intros j Hj. rewrite !Z.shiftr_spec by lia.
    destruct (Z.lt_ge_cases (j + (w - p)) w); [apply Hb; lia|].
    by rewrite (testbit_above w x), (testbit_above w y) by lia.
Qed.

Lemma canonical_ip_range ip : ip_in_range ip → ip_in_range (canonical_ip ip).
Proof.
  destruct ip as [b|b]; [done|]. unfold canonical_ip.
  destruct (to_ipv4_mapped b) as [v|] eqn:Hm; [|done]. intros _. unfold to_ipv4_mapped in Hm.
  case_match; [|done]. injection Hm as <-. unfold ip_in_range.
  change 4294967295 with (Z.ones 32). rewrite Z.land_ones by done. by apply Z.mod_pos_bound.
Qed.

Lemma block_contains_covers b ip :
  block_ok b → ip_in_range ip → block_contains b ip = true ↔ covers b ip.
Proof.
  intros [Hb Hp] Hip%canonical_ip_range. unfold block_contains, covers.
  destruct (addr b) as [n|n], (canonical_ip ip) as [i|i]; cbn [ip_in_range width] in *; [|done..|];
    rewrite Z.eqb_eq; by apply masked_eq.
Qed.

Lemma digits_val_bound s acc : 0 ≤ acc → str_forallb is_ascii_digit s = true → 0 ≤ digits_val acc s.
Proof. intros Ha Hs. pose proof (digits_val_nonneg s acc Ha Hs). lia. Qed.

Lemma block_parse_ok e b : block_parse e = Ok b → block_ok b.
Proof.
  unfold block_parse. destruct (match split_once "/" e with Some _ => _ | None => _ end) as [a p].
  destruct (parse_ip (trim a)) as [ip|] eqn:Hip; [|done].
  destruct (match p with Some p => parse_u8 (trim p) | None => Some (width ip) end) as [q|] eqn:Hq; [|done].
  destruct (Z.ltb_spec (width ip) q); [done|]. intros [= <-]. split; [by eapply parse_ip_range|].
  cbn [addr prefix]. split; [|done]. destruct p as [p|]; [|injection Hq as <-; destruct ip; simpl; lia].
  unfold parse_u8 in Hq. case_match eqn:Hc; [|done]. injection Hq as <-.
  apply andb_true_iff in Hc as [[_ Hd]%andb_true_iff _]. by apply digits_val_bound.
Qed.

(** What gathering the results of a partial function answers. *)
Lemma collect_spec {E A B} (f : A → res E B) l :
  match collect f l with
  | Ok ys => Forall2 (λ x y, f x = Ok y) l ys
  | Err e => ∃ pre x post, l = pre ++ x :: post ∧ Forall (λ x, ∃ y, f x = Ok y) pre ∧ f x = Err e
  | Panic => ∃ x, x ∈ l ∧ f x = Panic
  end.
Proof.
  induction l as [|x l IH]; simpl; [constructor|]. destruct (f x) as [y|e|] eqn:Hx.
  - destruct (collect f l) as [ys|e|].
    + by constructor.
    + destruct IH as (pre & x' & post & -> & Hpre & He). exists (x :: pre), x', post.
      split; [done|]. split; [|done]. constructor; [by exists y|done].
    + destruct IH as (x' & Hin & Hp). exists x'. split; [by right|done].
  - exists [], x, l. split; [done|]. split; [constructor|done].
  - exists x. split; [left|done].
Qed.

Lemma block_parse_err e :
  match block_parse e with Ok _ => True | Err (Invalid e') => e' = e | Panic => False end.
Proof. unfold block_parse. repeat case_match; simplify_eq; done. Qed.

(** The entries of a list of proxies. *)
Definition proxy_entries (text : string) : list string :=
  filter (λ e, e ≠ "") (map trim (str_split "," text)).

(** whom a list of trusted proxies trusts. A list is accepted when each of its
    entries is an address or a block of at most the address's width, and then an address is
    trusted exactly when it agrees with one of the blocks, written in the same family, on the
    block's leading bits (an IPv4 address carried in IPv6 counts as IPv4). Otherwise
    the answer names the first entry that is not accepted. *)
Theorem proxies_parse_spec (text : string) :
  match proxies_parse text with
  | Ok ps => Forall2 (λ e b, block_parse e = Ok b) (proxy_entries text) ps ∧ Forall block_ok ps ∧
      ∀ ip, ip_in_range ip → (proxies_contains ps ip = true ↔ ∃ b, b ∈ ps ∧ covers b ip)
  | Err (Invalid e) => ∃ pre post, proxy_entries text = pre ++ e :: post ∧
      Forall (λ e', ∃ b, block_parse e' = Ok b) pre ∧ block_parse e = Err (Invalid e)
  | Panic => False
  end.
Proof.
  pose proof (collect_spec block_parse (proxy_entries text)) as Hc. unfold proxies_parse.
  fold (proxy_entries text). destruct (collect block_parse (proxy_entries text)) as [ps|e|].
  - split; [done|]. assert (Forall block_ok ps) as Hok.
    { induction Hc as [|e b l ps He _ IH]; constructor; [by eapply block_parse_ok|done]. }
    split; [done|]. intros ip Hip. unfold proxies_contains. rewrite existsb_exists.
    rewrite Forall_forall in Hok. split; intros (b & Hb & Hcov); exists b.
    + apply list_elem_of_In in Hb. split; [done|]. by apply block_contains_covers, Hcov; [apply Hok|].
    + split; [by apply list_elem_of_In|]. by apply block_contains_covers; [apply Hok|..].
  - destruct Hc as (pre & x & post & Heq & Hpre & Hx). pose proof (block_parse_err x) as Hp.
    rewrite Hx in Hp. destruct e as [e]. subst e. by exists pre, post.
  - destruct Hc as (x & _ & Hx). pose proof (block_parse_err x) as Hp. by rewrite Hx in Hp.
Qed.

(** ** Keys *)
Section keys.
Context {HH : Headers} {X : Type}.

(** Whom a request is counted against, before it is made a text. *)
Inductive Client := ByKey (k : string) | ByAddress (ip : IpAddr) | UnknownPeer.
Definition client_of (m : RateLimitMiddleware (X:=X)) (req : Request X) : Client :=
  match (f ← key_extractor m; f req) with
  | Some k => ByKey k
  | None =>
      match rq_peer req with
      | Some peer => ByAddress (client_ip (trusted_proxies m) peer (rq_headers req))
      | None => UnknownPeer
      end
  end.

Lemma rightmost_range ps peer l :
  ip_in_range peer → ip_in_range (rightmost_untrusted ps peer l).
Proof.
  intros Hp. induction l as [|e l IH]; [done|]. cbn [rightmost_untrusted].
  destruct (parse_ip e) as [ip|] eqn:He; [|done]. case_match; [done|].
  by eapply canonical_ip_range, parse_ip_range.
Qed.
Lemma client_ip_range ps peer h : ip_in_range peer → ip_in_range (client_ip ps peer h).
Proof.
  intros Hp%canonical_ip_range. unfold client_ip. case_match; [done|]. case_match; [by apply rightmost_range|].
  destruct (_ ≫= _) as [ip|] eqn:Hip; [|done]. apply bind_Some in Hip as (v & _ & Hip).
  apply bind_Some in Hip as (t & _ & Hip). apply bind_Some in Hip as (ip' & Hpar & [= <-]).
  by eapply canonical_ip_range, parse_ip_range.
Qed.
Lemma ip_to_string_inj ip ip' :
  ip_in_range ip → ip_in_range ip' → ip_to_string ip = ip_to_string ip' → ip = ip'.
Proof.
  intros H H' Heq. apply parse_ip_to_string in H, H'. rewrite Heq in H. congruence.
Qed.

(** a budget is one client's. Two requests are counted under the same key exactly when
    they are from the same client: the same principal where an extractor names one, else
    the same address. No address's text is another's, and no principal's key is an
    address's. *)
Theorem client_key_identifies (m : RateLimitMiddleware (X:=X)) (req req' : Request X) :
  from_option ip_in_range True (rq_peer req) → from_option ip_in_range True (rq_peer req') →
  client_key m req = client_key m req' ↔ client_of m req = client_of m req'.
Proof.
  intros Hr Hr'. unfold client_key, client_of, UNKNOWN_PEER_KEY.
  destruct (f ← key_extractor m; f req) as [k|], (f ← key_extractor m; f req') as [k'|];
    [split; [by intros ->%str_app_inj|by intros [= ->]]|..];
    (destruct (rq_peer req) as [ip|]; destruct (rq_peer req') as [ip'|]; try done).
  split; [|by intros [= ->]]. intros Heq%str_app_inj.
  f_equal. apply ip_to_string_inj; [by apply client_ip_range..|done].
Qed.
End keys.

(** An entry written as an IPv4 block carried in IPv6 (say [::ffff:10.0.0.0/104]) is
    accepted and trusts nobody: the addresses it should cover compare as IPv4, and the
    block does not. *)
Lemma mapped_block_matches_nothing b n v4 ip :
  block_ok b → addr b = V6 n → to_ipv4_mapped n = Some v4 → 96 ≤ prefix b → ip_in_range ip →
  block_contains b ip = false.
Proof.
  intros Hok Hn Hmap Hp Hip. apply not_true_is_false. intros Hc.
  apply block_contains_covers in Hc; [|done..]. unfold covers in Hc. rewrite Hn in Hc.
  assert (∀ i, canonical_ip ip = V6 i → to_ipv4_mapped i = None ∧ 0 ≤ i < 2 ^ 128) as Hcan.
  { intros i. destruct ip as [j|j]; [discriminate|]. unfold canonical_ip.
    destruct (to_ipv4_mapped j) eqn:Hj; [discriminate|]. intros E. injection E as ->. split; assumption. }
  destruct (canonical_ip ip) as [i|i]; [contradiction|]. destruct (Hcan i eq_refl) as [Hnone Hi].
  unfold to_ipv4_mapped in Hmap, Hnone. destruct Hok as [Hrange _]. rewrite Hn in Hrange.
  assert (Z.shiftr i 32 = Z.shiftr n 32) as Heq.
  { apply Z.bits_inj'. intros j Hj. rewrite !Z.shiftr_spec by lia.
    destruct (Z.lt_ge_cases (j + 32) 128); [symmetry; apply Hc; lia|].
    rewrite (testbit_above 128 i), (testbit_above 128 n); [reflexivity|assumption|lia|assumption|lia]. }
  rewrite Heq in Hnone. destruct (Z.shiftr n 32 =? 65535); discriminate.
Qed.

(** ** Instances of the theorems *)
Module ConcreteHeaders.
#[export] Instance plain_headers : Headers := {
  HeaderMap := list (string * string);
  HeaderValue := string;
  get_all h n := snd <$> filter (λ kv, kv.1 = n) h;
  get_first h n := head (snd <$> filter (λ kv, kv.1 = n) h);
  to_str v := Some v;
}.
End ConcreteHeaders.

Section witnesses.
Import Ticking ConcreteHeaders.
Definition proxies : TrustedProxies :=
  match proxies_parse "10.0.0.0/8, 172.16.0.0/12, fd00::/8, 127.0.0.1" with Ok ps => ps | _ => [] end.
Definition ip_of (s : string) : IpAddr := default (V4 0) (parse_ip s).
Definition xff (v : string) : HeaderMap := [("x-forwarded-for", v)].

Example proxies_tested :
  map (λ s, proxies_contains proxies (ip_of s))
    ["172.18.0.5"; "172.32.0.1"; "fd12::1"; "127.0.0.1"; "::ffff:172.18.0.5"; "127.0.0.2"] =
  [true; false; true; true; true; false].
Proof. vm_compute. reflexivity. Qed.
Example proxies_refused : proxies_parse "10.0.0.0/33" = Err (Invalid "10.0.0.0/33").
Proof. vm_compute. reflexivity. Qed.
Example mapped_dead :
  match proxies_parse "::ffff:10.0.0.0/104" with
  | Ok ps => proxies_contains ps (ip_of "10.0.0.1") || proxies_contains ps (ip_of "::ffff:10.0.0.1")
  | _ => true
  end = false.
Proof. vm_compute. reflexivity. Qed.

Lemma client_ip_unspoofable_witness :
  client_ip proxies (ip_of "172.18.0.5") (xff "9.9.9.9, 198.51.100.1, 10.0.0.7") = ip_of "198.51.100.1".
Proof.
  refine (proj1 (proj2 (client_ip_unspoofable proxies (ip_of "172.18.0.5")
    (xff "9.9.9.9, 198.51.100.1, 10.0.0.7")) _) ["9.9.9.9"] "198.51.100.1" ["10.0.0.7"] _ _ _).
  - vm_compute. reflexivity.
  - vm_compute. reflexivity.
  - constructor; [|constructor]. exists (ip_of "10.0.0.7"). vm_compute. split; reflexivity.
  - intros (ip & Hp & Hc). vm_compute in Hp. injection Hp as <-. vm_compute in Hc. discriminate.
Defined.

Definition mw : RateLimitMiddleware (X:=unit) :=
  with_trusted_proxies (with_backend twice_in_ten) proxies.
Definition app (req : Request unit) : sm N Empty_set string := λ w, (Ok "ok", (w + 1)%N).
Definition from_client (c : string) : Arrival (X:=unit) (W:=N) :=
  mkArrival (mkRequest (Some (ip_of "172.18.0.5")) (xff (c +:+ ", 198.51.100.1")) tt) (λ w, w).
(** A client that writes another address into its header each time. *)
Definition arrivals : list (Arrival (X:=unit) (W:=N)) := map from_client ["1.1.1.1"; "2.2.2.2"; "3.3.3.3"; "4.4.4.4"].

Example arrivals_served :
  map sv_answered (serve_requests mw app arrivals (∅, 100%N)) = [true; true; false; false].
Proof. vm_compute. reflexivity. Qed.

Definition req1 : Request unit := mkRequest (Some (ip_of "172.18.0.5")) (xff "198.51.100.1") tt.
Definition req2 : Request unit := mkRequest (Some (ip_of "10.1.1.1")) (xff "7.7.7.7, ::ffff:198.51.100.1") tt.
Lemma client_key_identifies_witness : client_key mw req1 = client_key mw req2.
Proof. apply (client_key_identifies mw req1 req2); vm_compute; try split; congruence || reflexivity. Defined.

End witnesses.
