(* ===== verification/Grants.v ===== *)
(** * Permissions as data

    [backbone-auth/src/grants.rs] (the names, the matching rules, the grants a person holds),
    [middleware.rs] ([AuthContext]) and [resolver.rs] ([resolve_grants], the layer that fills a
    request's context from the installed source). The process's record of legacy spellings
    is explicit state; the source of grants, the layers below and the text of a uuid are
    parameters. The query of [IdentityGrantSource] is SQL over another module's tables
    and is not modelled: it is one such source. *)
From Stdlib Require Import ZArith Lia Ascii.
From stdpp Require Import sorting.
From S2P Require Import Prelude RustStr Json.

Local Open Scope Z_scope.

(** A [BTreeSet<String>] walked in the order of its bytes. *)
Definition btree_iter (s : gset string) : list string :=
  merge_sort (λ a b, Is_true (String.leb a b)) (elements s).

(** ** [grants.rs]: names *)
Definition GOD_PERMISSION : string := "*:*".
Definition AUTHORITY_ROLES : list string := ["SUPERUSER"; "ADMIN"].
Definition PERMISSION_REQUIRED : string := "permission_required".
Definition GENERIC_ACTIONS : list string := ["read"; "create"; "update"; "delete"; "restore"; "purge"].

Record PermissionRequired := mkRequired { required_permission : string }.
Definition permission_required_to_string (p : PermissionRequired) : string :=
  "the permission `" +:+ required_permission p +:+ "` is required".

Inductive LegacySpelling := Dotted | ActionFirst | Transition | Plural | ModuleGrain | WriteAction.
Definition legacy_as_str (s : LegacySpelling) : string :=
  match s with
  | Dotted => "resource.action"
  | ActionFirst => "action:module"
  | Transition => "model:transition:verb"
  | Plural => "plural resource"
  | ModuleGrain => "module-wide grant"
  | WriteAction => "resource:write"
  end.

Record Held := mkHeld {
  resource : string;
  action : string;
  verbs_only : bool;
  legacy : option LegacySpelling;
}.

(** [Held::canonical] *)
Definition held_canonical (h : Held) : string :=
  if verbs_only h && bool_decide (action h = "*") then resource h +:+ ":<each verb>"
  else resource h +:+ ":" +:+ action h.

Definition is_name_byte (c : ascii) : bool :=
  is_ascii_lowercase c || is_ascii_digit c || Ascii.eqb c "_".
Definition is_name (s : string) : bool := negb (bool_decide (s = "")) && str_forallb is_name_byte s.
Definition is_half (s : string) : bool := bool_decide (s = "*") || is_name s.

Definition read_held (raw : string) : option Held :=
  let raw := trim raw in
  if bool_decide (raw = "*") then Some (mkHeld "*" "*" false None)
  else if negb (str_contains raw ":") then
    '(resource, action) ← split_once "." raw;
    if is_half resource && is_half action then Some (mkHeld resource action false (Some Dotted)) else None
  else
    match str_split ":" raw with
    | [resource; middle; verb] =>
        if bool_decide (middle = "transition") && is_half resource && is_half verb
        then Some (mkHeld resource verb true (Some Transition)) else None
    | [first; second] =>
        if bool_decide (first = "admin") && bool_decide (second = "*")
        then Some (mkHeld "*" "*" false (Some ActionFirst))
        else if bool_decide (first = "admin") && is_name second &&
                negb (bool_decide (second ∈ GENERIC_ACTIONS)) && negb (bool_decide (second = "write"))
        then Some (mkHeld second "*" false (Some ActionFirst))
        else if bool_decide (first ∈ ["read"; "write"; "delete"]) && is_name second
        then Some (mkHeld second first false (Some ActionFirst))
        else if is_half first && is_half second then Some (mkHeld first second false None)
        else None
    | _ => None
    end.

Definition normalise (raw : string) : option string := held_canonical <$> read_held raw.

(** [s.strip_suffix(c)] of an ASCII character. *)
Definition strip_suffix (c : ascii) (s : string) : option string :=
  match str_rev s with
  | String c' r => if Ascii.eqb c c' then Some (str_rev r) else None
  | EmptyString => None
  end.
Definition vowel (c : ascii) : bool := existsb (Ascii.eqb c) ["a"; "e"; "i"; "o"; "u"]%char.

(** The last byte of a stem tells whether its last character is one of five ASCII letters. *)
Definition plural_of (singular : string) : string :=
  let rest := if ends_with singular "s" || ends_with singular "x" || ends_with singular "ch" ||
                 ends_with singular "sh"
              then singular +:+ "es" else singular +:+ "s" in
  match strip_suffix "y" singular with
  | Some stem =>
      match str_rev stem with
      | String c _ => if negb (vowel c) then stem +:+ "ies" else rest
      | EmptyString => rest
      end
  | None => rest
  end.

(** ** [grants.rs]: matching *)

(** Whether, and through which spelling if not the canonical one. *)
Definition match_held (held : Held) (required : string) : option (option LegacySpelling) :=
  '(rr, ra) ← split_once ":" required;
  if verbs_only held && bool_decide (ra ∈ GENERIC_ACTIONS) then None
  else
    let write_alias := bool_decide (action held = "write") && negb (bool_decide (ra = "write")) &&
                       negb (bool_decide (ra ∈ ["read"; "delete"; "purge"])) in
    if negb (bool_decide (action held = "*") || bool_decide (action held = ra) || write_alias) then None
    else
      let or_else (o : option LegacySpelling) s := match o with Some x => Some x | None => Some s end in
      let leg := if write_alias then or_else (legacy held) WriteAction else legacy held in
      if bool_decide (resource held = "*") || bool_decide (resource held = rr) then Some leg
      else if bool_decide (resource held = plural_of rr) then Some (or_else leg Plural)
      else None.

Definition permission_matches (held required : string) : bool :=
  match read_held held with
  | Some h => bool_decide (is_Some (match_held h required))
  | None => false
  end.

(** ** [grants.rs]: the record of legacy spellings *)
Abbreviation Seen := (gmap string string).
Definition SEEN_CAP : nat := Z.to_nat 4096.

Definition note_legacy (held canonical : string) (spelling : LegacySpelling) (seen : Seen) : Seen :=
  if (SEEN_CAP <=? size seen)%nat || bool_decide (is_Some (seen !! held)) then seen
  else <[held := canonical]> seen.

Definition legacy_spellings_seen (seen : Seen) : list (string * string) :=
  omap (λ k, (λ v, (k, v)) <$> seen !! k) (btree_iter (dom seen)).

(** ** [grants.rs]: checking *)
Abbreviation LegacyHit := (string * string * LegacySpelling)%type.
Definition get_or_insert (hit : option LegacyHit) (new : LegacyHit) : option LegacyHit :=
  match hit with Some h => Some h | None => Some new end.

(** The first loop: a canonical match ends it; else the first legacy one is kept. *)
Fixpoint scan_held (held : list string) (required : string) (hit : option LegacyHit) :
    bool * option LegacyHit :=
  match held with
  | [] => (false, hit)
  | raw :: held =>
      match read_held raw with
      | None => scan_held held required hit
      | Some h =>
          match match_held h required with
          | None => scan_held held required hit
          | Some None => (true, hit)
          | Some (Some spelling) =>
              scan_held held required (get_or_insert hit (raw, held_canonical h, spelling))
          end
      end
  end.

(** The loops over the alternates, themselves legacy. *)
Definition scan_alternate (held : list string) (alt : string) (hit : option LegacyHit) : option LegacyHit :=
  foldl (λ hit raw,
    match read_held raw with
    | None => hit
    | Some h =>
        match match_held h alt with
        | None => hit
        | Some _ => get_or_insert hit (raw, held_canonical h, default ModuleGrain (legacy h))
        end
    end) hit held.

Definition check_held (held : list string) (required : string) (alternates : list string)
    (seen : Seen) : bool * Seen :=
  match scan_held held required None with
  | (true, _) => (true, seen)
  | (false, hit) =>
      let hit := match hit with
                 | Some h => Some h
                 | None => foldl (λ hit alt, scan_alternate held alt hit) None alternates
                 end in
      match hit with
      | Some (raw, canonical, spelling) => (true, note_legacy raw canonical spelling seen)
      | None => (false, seen)
      end
  end.

(** ** [grants.rs]: grants *)
Record Grants := mkGrants { roles : gset string; permissions : gset string }.
Definition grants_new (roles permissions : list string) : Grants :=
  mkGrants (list_to_set roles) (list_to_set permissions).
Definition grants_default : Grants := mkGrants ∅ ∅.

Definition is_authority (g : Grants) : bool :=
  existsb (λ r, bool_decide (r ∈ roles g)) AUTHORITY_ROLES ||
  bool_decide (GOD_PERMISSION ∈ permissions g).

Definition effective (g : Grants) : list string :=
  btree_iter (if is_authority g then {[GOD_PERMISSION]} ∪ permissions g else permissions g).

Definition allows (g : Grants) (required : string) (seen : Seen) : bool * Seen :=
  if is_authority g then (true, seen) else check_held (btree_iter (permissions g)) required [] seen.

Record GrantError := mkGrantError { grant_error : string }.

(** ** [middleware.rs] *)
Record AuthContext := mkAuth {
  user_id : string;
  auth_roles : list string;
  auth_permissions : list string;
}.
Definition auth_new (user : string) : AuthContext := mkAuth user [] [].
Definition has_permission (ctx : AuthContext) (permission : string) (seen : Seen) : bool * Seen :=
  check_held (auth_permissions ctx) permission [] seen.
Definition require_with (ctx : AuthContext) (permission : string) (alternates : list string) (seen : Seen) :
    (PermissionRequired + unit) * Seen :=
  let '(ok, seen) := check_held (auth_permissions ctx) permission alternates seen in
  (if ok then inr tt else inl (mkRequired permission), seen).
Definition require (ctx : AuthContext) (permission : string) : Seen → (PermissionRequired + unit) * Seen :=
  require_with ctx permission [].

(** ** [resolver.rs] *)
Record OrgContext := mkOrg {
  acting_unit_id : uuid;
  entitled_units : list uuid;
  legacy_company_id : option uuid;
  org_user_id : string;
}.
Record CompanyContext := mkCompany {
  company_id : uuid;
  branch_id : option uuid;
  company_user_id : string;
}.

(** What a request carries in its extensions for this part of the program. *)
Record Extensions := mkExt {
  ex_waiver : bool;
  ex_auth : option AuthContext;
  ex_grants : option Grants;
  ex_org : option OrgContext;
  ex_company : option CompanyContext;
}.
Definition with_auth (x : Extensions) (ctx : AuthContext) (g : Grants) : Extensions :=
  mkExt (ex_waiver x) (Some ctx) (Some g) (ex_org x) (ex_company x).

Section resolver.
Context {UT : UuidText} {W A : Type}.

(** The source, with a state of its own ([load_for_request], which [load] is the default of). *)
Abbreviation GrantSource := (uuid → option uuid → Extensions → sm W GrantError Grants).

(** What the layer answers itself: the service is unavailable. *)
Inductive Resolved := Passed (a : A) | GrantsUnavailable (message : string).

Definition session_of (x : Extensions) : option (string * option uuid) :=
  match ex_org x, ex_company x, ex_auth x with
  | Some org, _, _ => Some (org_user_id org, Some (acting_unit_id org))
  | None, Some company, _ => Some (company_user_id company, Some (company_id company))
  | None, None, Some ctx => Some (user_id ctx, None)
  | None, None, None => None
  end.

Definition merge_roles (existing : list string) (new : gset string) : list string :=
  foldl (λ roles r, if bool_decide (r ∈ roles) then roles else roles ++ [r]) existing (btree_iter new).

Definition resolve_grants (source : GrantSource) (x : Extensions)
    (next : Extensions → sm W Empty_set A) : sm W Empty_set Resolved :=
  let run x := a ← next x; mret (Passed a) in
  match ex_grants x with
  | Some _ => run x
  | None =>
      match session_of x with
      | None => run x
      | Some (user, unit) =>
          let existing := from_option auth_roles [] (ex_auth x) in
          match parse_uuid user with
          | None => run (with_auth x (mkAuth user existing []) grants_default)
          | Some id =>
              answer ← attempt (source id unit x);
              match answer with
              | inr g => run (with_auth x (mkAuth user (merge_roles existing (roles g)) (effective g)) g)
              | inl _ => mret (GrantsUnavailable "your permissions could not be verified")
              end
          end
      end
  end.
End resolver.
Arguments Passed {_} _.
Arguments GrantsUnavailable {_} _.

(** ** Examples, the crate's own *)
Definition held_allows (held : list string) (required : string) : bool :=
  (check_held held required [] ∅).1.
Example exact_examples :
  map (λ hr, held_allows hr.1 hr.2)
    [(["ticket:read"], "ticket:read"); (["ticket:read"], "ticket:update"); (["ticket:read"], "project:read");
     ([], "ticket:read"); (["ticket"], "ticket:read"); (["*:*"], "anything:at_all"); (["*"], "ticket:read");
     (["*:transition:*"], "ticket:resolve"); (["*:transition:*"], "ticket:read");
     (["categories:read"], "category:read"); (["addresses:read"], "address:read"); (["ticketss:read"], "ticket:read");
     (["ticket:write"], "ticket:restore"); (["ticket:write"], "ticket:delete"); (["tickets:write"], "ticket:update")] =
  [true; false; false; false; false; true; true; true; false; true; true; false; true; false; true].
Proof. vm_compute. reflexivity. Qed.
Example normalise_examples :
  map normalise ["buckets.read"; "write:payroll"; "admin:*"; "admin:payroll"; "admin:read";
                 "ticket:transition:resolve"; "*:transition:*"; ""; ":"; "a:b:c"; "A:B"; "ticket:"; "a b:c"] =
  [Some "buckets:read"; Some "payroll:write"; Some "*:*"; Some "payroll:*"; Some "admin:read";
   Some "ticket:resolve"; Some "*:<each verb>"; None; None; None; None; None; None].
Proof. vm_compute. reflexivity. Qed.
Example plural_examples :
  map plural_of ["ticket"; "category"; "day"; "address"; "box"; "y"] =
  ["tickets"; "categories"; "days"; "addresses"; "boxes"; "ys"].
Proof. vm_compute. reflexivity. Qed.
Example module_grain :
  (check_held ["write:payroll"] "salary_slip:update" ["payroll:write"] ∅) =
  (true, {[ "write:payroll" := "payroll:write" ]}).
Proof. vm_compute. reflexivity. Qed.
