(* ===== verification/Permission.v ===== *)
(** * Permission checks on routes

    [backbone-core/src/permission.rs]: the layer every guarded route runs behind
    ([enforce]), and the permissions of an entity's generic routes ([CrudPermissions]). An
    answer is the handler's, or a refusal: its status, its sentence and its violations. *)
From Stdlib Require Import ZArith Lia Ascii.
From S2P Require Import Prelude RustStr Json WriteHooks Grants.

Local Open Scope Z_scope.

Record Needs := mkNeeds { need_permission : string; alternates : list string }.

Section layer.
Context {L : Libs}.

(** The layers' own answers. *)
Record Refusal := mkRefusal { status : Z; error : string; violations : list Violation }.

Definition permission_refusal (refused : PermissionRequired) : Refusal :=
  let message := permission_required_to_string refused in
  mkRefusal 403 message
    [with_param (violation_new "" PERMISSION_REQUIRED message) "permission" (VString (required_permission refused))].
Definition unauthenticated_refusal : Refusal :=
  let message := "Authentication required" in
  mkRefusal 401 message [violation_new "" "authentication_required" message].

(** The needs in order; the first one missing is the refusal. *)
Fixpoint first_missing (ctx : AuthContext) (needs : list Needs) (seen : Seen) : option Refusal * Seen :=
  match needs with
  | [] => (None, seen)
  | need :: needs =>
      match require_with ctx (need_permission need) (alternates need) seen with
      | (inr _, seen) => first_missing ctx needs seen
      | (inl refused, seen) => (Some (permission_refusal refused), seen)
      end
  end.

Definition refusal (x : Extensions) (needs : list Needs) (seen : Seen) : option Refusal * Seen :=
  if ex_waiver x then (None, seen)
  else match ex_auth x with
       | None => (Some unauthenticated_refusal, seen)
       | Some ctx => first_missing ctx needs seen
       end.

Inductive Answer (A : Type) := Handled (a : A) | Refused (r : Refusal).

Definition enforce {W A} (needs : list Needs) (x : Extensions) (next : Extensions → sm W Empty_set A) :
    sm (Seen * W) Empty_set (Answer A) := λ s,
  match refusal x needs s.1 with
  | (Some r, seen) => (Ok (Refused _ r), (seen, s.2))
  | (None, seen) =>
      (a ← sm_zoom snd (λ w s, (s.1, w)) (next x); mret (Handled _ a)) (seen, s.2)
  end.
End layer.
Arguments Handled {_ _} _.
Arguments Refused {_ _} _.

(** What [guarded] and [guarded_all] wrap a route with. *)
Definition guarded (permission : string) : list Needs := [mkNeeds permission []].
Definition guarded_all (permissions : list string) : list Needs := map (λ p, mkNeeds p []) permissions.

(** ** [CrudPermissions] *)
Inductive Gate := Read | Create | Update | Delete | Restore | Purge | CreateUpdate.
#[export] Instance Gate_eq_dec : EqDecision Gate.
Proof. solve_decision. Defined.

Definition gate_action (g : Gate) : string :=
  match g with
  | Read => "read" | Create => "create" | Update => "update" | Delete => "delete"
  | Restore => "restore" | Purge => "purge" | CreateUpdate => "create"
  end.

Record CrudPermissions := mkCrud {
  entity : string;
  cp_module : option string;
  overrides : list (Gate * string);
  public_gates : list Gate;
}.
Definition crud_new (entity : string) : CrudPermissions := mkCrud entity None [] [].
Definition in_module (c : CrudPermissions) (m : string) : CrudPermissions :=
  mkCrud (entity c) (Some m) (overrides c) (public_gates c).
Definition requiring (c : CrudPermissions) (g : Gate) (permission : string) : CrudPermissions :=
  mkCrud (entity c) (cp_module c) (filter (λ gp, gp.1 ≠ g) (overrides c) ++ [(g, permission)]) (public_gates c).

(** An upsert's permission is the create's. *)
Definition base_gate (g : Gate) : Gate := if decide (g = CreateUpdate) then Create else g.
Definition public (c : CrudPermissions) (g : Gate) : CrudPermissions :=
  let g := base_gate g in
  if decide (g ∈ public_gates c) then c
  else mkCrud (entity c) (cp_module c) (overrides c) (public_gates c ++ [g]).
Definition is_public (c : CrudPermissions) (g : Gate) : bool :=
  match g with
  | CreateUpdate => bool_decide (Create ∈ public_gates c) && bool_decide (Update ∈ public_gates c)
  | g => bool_decide (g ∈ public_gates c)
  end.
Definition permission (c : CrudPermissions) (g : Gate) : string :=
  let g := base_gate g in
  match List.find (λ gp, bool_decide (gp.1 = g)) (overrides c) with
  | Some (_, p) => p
  | None => entity c +:+ ":" +:+ gate_action g
  end.
Definition one (c : CrudPermissions) (g : Gate) : Needs :=
  let overridden := existsb (λ gp, bool_decide (gp.1 = g)) (overrides c) in
  mkNeeds (permission c g)
    (match cp_module c, overridden with
     | Some m, false => [m +:+ ":" +:+ gate_action g]
     | _, _ => []
     end).
Definition needs (c : CrudPermissions) (g : Gate) : list Needs :=
  match g with
  | CreateUpdate => map (one c) (filter (λ g, g ∉ public_gates c) [Create; Update])
  | g => if decide (g ∈ public_gates c) then [] else [one c g]
  end.

Example upsert_needs :
  map need_permission (needs (requiring (crud_new "ticket") Update "ticket:edit") CreateUpdate) =
  ["ticket:create"; "ticket:edit"].
Proof. reflexivity. Qed.
Example upsert_half_public :
  map need_permission (needs (public (crud_new "ticket") CreateUpdate) CreateUpdate) = ["ticket:update"].
Proof. reflexivity. Qed.

(** ** What routes need after any sequence of declarations *)

(** The builder's calls, as data. *)
Inductive Decl := InModule (m : string) | Requiring (g : Gate) (p : string) | Public (g : Gate).
Definition declare (c : CrudPermissions) (d : Decl) : CrudPermissions :=
  match d with
  | InModule m => in_module c m
  | Requiring g p => requiring c g p
  | Public g => public c g
  end.
Definition declared (entity : string) (ds : list Decl) : CrudPermissions := foldl declare (crud_new entity) ds.

(** What the declarations say, the last one winning. *)
Definition module_declared (ds : list Decl) : option string :=
  last (omap (λ d, match d with InModule m => Some m | _ => None end) ds).
Definition permission_declared (ds : list Decl) (g : Gate) : option string :=
  last (omap (λ d, match d with Requiring g' p => if decide (g' = g) then Some p else None | _ => None end) ds).
Definition public_declared (ds : list Decl) (g : Gate) : bool :=
  existsb (λ d, match d with Public g' => bool_decide (base_gate g' = g) | _ => false end) ds.

Definition needs_declared (entity : string) (ds : list Decl) (g : Gate) : list Needs :=
  if public_declared ds g then []
  else match permission_declared ds g with
       | Some p => [mkNeeds p []]
       | None => [mkNeeds (entity +:+ ":" +:+ gate_action g)
                    (from_option (λ m, [m +:+ ":" +:+ gate_action g]) [] (module_declared ds))]
       end.

Lemma find_requiring (o : list (Gate * string)) g g' p :
  List.find (λ gp, bool_decide (gp.1 = g)) (filter (λ gp, gp.1 ≠ g') o ++ [(g', p)]) =
  if decide (g' = g) then Some (g', p) else List.find (λ gp, bool_decide (gp.1 = g)) o.
Proof.
  induction o as [|[k q] o IH]; simpl.
  - by destruct (decide (g' = g)); [rewrite bool_decide_true|rewrite bool_decide_false].
  - rewrite filter_cons. cbn [fst]. destruct (decide (k ≠ g')) as [Hk|Hk]; simpl; rewrite IH.
    + case_bool_decide as Hg; [|done]. subst. by rewrite decide_False by done.
    + apply dec_stable in Hk as ->. destruct (decide (g' = g)); [done|]. by rewrite bool_decide_false.
Qed.

Lemma existsb_find {A} (f : A → bool) l : existsb f l = bool_decide (is_Some (List.find f l)).
Proof.
  induction l as [|x l IH]; simpl; [done|]. by destruct (f x).
Qed.

Lemma declared_spec entity0 ds :
  let c := declared entity0 ds in
  entity c = entity0 ∧ cp_module c = module_declared ds ∧
  (∀ g, snd <$> List.find (λ gp, bool_decide (gp.1 = g)) (overrides c) = permission_declared ds g) ∧
  (∀ g, g ∈ public_gates c ↔ public_declared ds g = true).
Proof.
  induction ds as [|d ds (He & Hm & Ho & Hp)] using rev_ind;
    [split; [done|]; split; [done|]; split; [done|]; intros g; simpl; set_solver|].
  unfold declared, module_declared, permission_declared, public_declared in *. rewrite foldl_snoc.
  set (c := foldl declare _ ds) in *. setoid_rewrite existsb_app.
  setoid_rewrite omap_app. destruct d as [m|g' p|g']; simpl.
  - rewrite last_snoc. setoid_rewrite app_nil_r. setoid_rewrite orb_false_r. done.
  - rewrite app_nil_r. setoid_rewrite orb_false_r. split; [done|]. split; [done|]. split; [|done].
    intros g. rewrite find_requiring. destruct (decide (g' = g)); [by rewrite last_snoc|].
    rewrite app_nil_r. apply Ho.
  - setoid_rewrite app_nil_r. unfold public. case_decide as Hin; simpl.
    all: split; [done|]; split; [done|]; split; [done|]; intros g;
      rewrite ?elem_of_app, ?list_elem_of_singleton, orb_false_r, orb_true_iff, bool_decide_eq_true, <- Hp.
    + split; [tauto|]. by intros [?|<-].
    + split; (intros [?|?]; [by left|by right]).
Qed.

(** what the routes of an entity need, after whatever was declared of it in whatever order.
    A gate declared public needs nothing; else the permission last declared for it, and no other
    spelling of it; else [<entity>:<action>], the module-wide grant of the last module
    declared being accepted too. An upsert needs what a create needs and what an update
    needs, and a gate is called public exactly when it needs nothing. *)
Theorem needs_as_declared (entity0 : string) (ds : list Decl) :
  let c := declared entity0 ds in
  (∀ g, g ≠ CreateUpdate → needs c g = needs_declared entity0 ds g) ∧
  needs c CreateUpdate = needs_declared entity0 ds Create ++ needs_declared entity0 ds Update ∧
  (∀ g, is_public c g = true ↔ needs c g = []).
Proof.
  intros c. destruct (declared_spec entity0 ds) as (He & Hm & Ho & Hp).
  fold c in He, Hm, Ho, Hp.
  assert (∀ g, g ≠ CreateUpdate →
    (if decide (g ∈ public_gates c) then [] else [one c g]) = needs_declared entity0 ds g) as Hg.
  { intros g Hne. unfold needs_declared. specialize (Hp g). case_decide as Hin.
    - by rewrite (proj1 Hp Hin).
    - destruct (public_declared ds g); [tauto|]. unfold one, permission.
      assert (base_gate g = g) as -> by by destruct g.
      rewrite existsb_find, <- Ho, <- He, <- Hm.
      destruct (List.find _ (overrides c)) as [[]|]; simpl; [|done].
      by destruct (cp_module c). }
  split; [|split].
  - intros g Hne. rewrite <- Hg by done. by destruct g.
  - rewrite <- !Hg by done. unfold needs. rewrite !filter_cons, filter_nil.
    do 2 case_decide; do 2 case_decide; try done; exfalso; tauto.
  - intros g. destruct (decide (g = CreateUpdate)) as [->|Hne].
    + unfold needs, is_public. rewrite andb_true_iff, !bool_decide_eq_true, !filter_cons, filter_nil.
      destruct (decide (Create ∉ public_gates c)), (decide (Update ∉ public_gates c)); simpl;
        (split; [try tauto|try done]); intros _; split; by apply dec_stable.
    + replace (is_public c g) with (bool_decide (g ∈ public_gates c)) by by destruct g.
      replace (needs c g) with (if decide (g ∈ public_gates c) then [] else [one c g]) by by destruct g.
      rewrite bool_decide_eq_true. by case_decide.
Qed.

(** A permission declared for an upsert is never asked for. *)
Lemma upsert_permission_ignored c p g : needs (requiring c CreateUpdate p) g = needs c g.
Proof.
  assert (∀ g, g ≠ CreateUpdate → one (requiring c CreateUpdate p) g = one c g) as Hone.
  { intros g0 Hg0. unfold one, permission. rewrite !existsb_find. simpl. rewrite !find_requiring.
    assert (base_gate g0 = g0) as -> by by destruct g0. by rewrite decide_False by congruence. }
  unfold needs. destruct g; try (by rewrite Hone by done). simpl.
  apply map_ext_in. intros g Hg%list_elem_of_In%list_elem_of_filter. apply Hone. set_solver.
Qed.
