(* ===== verification/GrantsFacts.v ===== *)
(** * Permissions: what is granted, and to whom

    What a check answers and records, what each spelling of a permission covers, that the
    canonical spelling covers the same, and what a request that reaches a guarded handler
    holds. *)
From Stdlib Require Import ZArith Lia Ascii.
From stdpp Require Import sorting.
From S2P Require Import Prelude RustStr RustChar Json WriteHooks Grants Permission.

Local Open Scope Z_scope.

Lemma elem_of_btree_iter s x : x ∈ btree_iter s ↔ x ∈ s.
Proof. unfold btree_iter. by rewrite merge_sort_Permutation, elem_of_elements. Qed.

(** ** Checks *)

(** One of the held permissions covers what is required. *)
Definition covered (held : list string) (required : string) : Prop :=
  ∃ raw, raw ∈ held ∧ permission_matches raw required = true.
(** What is required, or one of the alternates, is covered. *)
Definition granted (held : list string) (required : string) (alternates : list string) : Prop :=
  covered held required ∨ ∃ alt, alt ∈ alternates ∧ covered held alt.
(** Covered through its canonical spelling. *)
Definition covered_canonically (held : list string) (required : string) : Prop :=
  ∃ raw h, raw ∈ held ∧ read_held raw = Some h ∧ match_held h required = Some None.

Lemma covered_nil required : ¬ covered [] required.
Proof. by intros (raw & ?%not_elem_of_nil & _). Qed.
Lemma covered_cons raw held required :
  covered (raw :: held) required ↔ permission_matches raw required = true ∨ covered held required.
Proof.
  unfold covered. split.
  - intros (r & [->|Hr]%elem_of_cons & Hm); [by left|right; eauto].
  - intros [Hm|(r & Hr & Hm)]; [exists raw; split; [left|done]|exists r; split; [by right|done]].
Qed.

(** A hit names a held permission and its canonical spelling. *)
Definition hit_of (held : list string) (hit : LegacyHit) : Prop :=
  ∃ h, hit.1.1 ∈ held ∧ read_held hit.1.1 = Some h ∧ hit.1.2 = held_canonical h.

Lemma matches_read raw required :
  permission_matches raw required =
  match read_held raw with
  | Some h => match match_held h required with Some _ => true | None => false end
  | None => false
  end.
Proof. unfold permission_matches. destruct (read_held raw) as [h|]; [|done]. by destruct (match_held h required). Qed.

Lemma scan_held_spec all held required hit :
  (∀ raw, raw ∈ held → raw ∈ all) → (∀ h, hit = Some h → hit_of all h) →
  let '(b, hit') := scan_held held required hit in
  (b = true ∨ is_Some hit' ↔ is_Some hit ∨ covered held required) ∧
  (b = true ↔ covered_canonically held required) ∧
  (∀ h, hit' = Some h → hit_of all h).
Proof.
  revert hit. induction held as [|raw held IH]; intros hit Hall Hhit; cbn [scan_held].
  { split; [|split; [|done]].
    - pose proof (covered_nil required). naive_solver.
    - split; [done|]. by intros (raw & h & ?%not_elem_of_nil & _). }
  assert (∀ raw', raw' ∈ held → raw' ∈ all) as Hall' by (intros r Hr; apply Hall; by right).
  assert (∀ h how, read_held raw = Some h → match_held h required = how →
    (covered_canonically (raw :: held) required ↔ how = Some None ∨ covered_canonically held required)) as Hcan.
  { intros h how Hh Hhow. split.
    - intros (r & h' & [->|Hr]%elem_of_cons & Hread & Hm); [left; congruence|right; by exists r, h'].
    - intros [->|(r & h' & Hr & ?)]; [exists raw, h; split; [left|done]|exists r, h'; split; [by right|done]]. }
  pose proof (covered_cons raw held required) as Hcov. rewrite matches_read in Hcov.
  destruct (read_held raw) as [h|] eqn:Hread.
  - specialize (Hcan h _ eq_refl eq_refl).
    destruct (match_held h required) as [[spelling|]|] eqn:Hm.
    + specialize (IH (get_or_insert hit (raw, held_canonical h, spelling)) Hall').
      destruct (scan_held held required _) as [b hit']. destruct IH as (H1 & H2 & H3).
      { destruct hit as [h0|]; simpl; [apply Hhit|]. intros ? [= <-]. exists h. split; [apply Hall; left|done]. }
      split; [|split; [|done]].
      * rewrite H1, Hcov. destruct hit; simpl; naive_solver.
      * rewrite H2, Hcan. naive_solver.
    + split; [|split; [|done]]; [rewrite Hcov; naive_solver|rewrite Hcan; naive_solver].
    + specialize (IH hit Hall' Hhit). destruct (scan_held held required hit) as [b hit'].
      destruct IH as (H1 & H2 & H3). split; [|split; [|done]]; [rewrite H1, Hcov|rewrite H2, Hcan]; naive_solver.
  - specialize (IH hit Hall' Hhit). destruct (scan_held held required hit) as [b hit'].
    destruct IH as (H1 & H2 & H3). split; [rewrite H1, Hcov; naive_solver|]. split; [|done]. rewrite H2.
    split; intros (r & h' & Hr & Hrd & ?).
    + exists r, h'. split; [by right|done].
    + apply elem_of_cons in Hr as [->|Hr]; [congruence|by exists r, h'].
Qed.

Lemma scan_alternate_spec all held alt hit :
  (∀ raw, raw ∈ held → raw ∈ all) → (∀ h, hit = Some h → hit_of all h) →
  (is_Some (scan_alternate held alt hit) ↔ is_Some hit ∨ covered held alt) ∧
  (∀ h, scan_alternate held alt hit = Some h → hit_of all h).
Proof.
  unfold scan_alternate. revert hit. induction held as [|raw held IH]; intros hit Hall Hhit; cbn [foldl].
  { pose proof (covered_nil alt). split; [naive_solver|done]. }
  assert (∀ raw', raw' ∈ held → raw' ∈ all) as Hall' by (intros r Hr; apply Hall; by right).
  rewrite covered_cons, matches_read. destruct (read_held raw) as [h|] eqn:Hread;
    [|destruct (IH hit Hall' Hhit) as [H1 H2]; split; [rewrite H1; naive_solver|done]].
  destruct (match_held h alt) as [how|];
    [|destruct (IH hit Hall' Hhit) as [H1 H2]; split; [rewrite H1; naive_solver|done]].
  destruct (IH (get_or_insert hit (raw, held_canonical h, default ModuleGrain (legacy h))) Hall') as [H1 H2].
  { destruct hit as [h0|]; simpl; [apply Hhit|]. intros ? [= <-]. exists h. split; [apply Hall; left|done]. }
  split; [|done]. rewrite H1. destruct hit; simpl; naive_solver.
Qed.

Lemma scan_alternates_spec held alts hit :
  (∀ h, hit = Some h → hit_of held h) →
  let hit' := foldl (λ hit alt, scan_alternate held alt hit) hit alts in
  (is_Some hit' ↔ is_Some hit ∨ ∃ alt, alt ∈ alts ∧ covered held alt) ∧
  (∀ h, hit' = Some h → hit_of held h).
Proof.
  revert hit. induction alts as [|alt alts IH]; intros hit Hhit; cbn [foldl].
  { split; [|done]. split; [by left|]. intros [?|(alt & ?%not_elem_of_nil & _)]; done. }
  destruct (scan_alternate_spec held held alt hit ltac:(done) Hhit) as [H1 H2].
  destruct (IH _ H2) as [H3 H4]. split; [|done]. rewrite H3, H1. split.
  - intros [[?|?]|(a & ? & ?)]; [by left|right; exists alt; split; [left|done]|right; exists a; split; [by right|done]].
  - intros [?|(a & [->|?]%elem_of_cons & ?)]; [by left; left|by left; right|right; by exists a].
Qed.

Lemma check_held_cases (held : list string) (required : string) (alternates : list string) (seen : Seen) :
  let '(answer, seen') := check_held held required alternates seen in
  (answer = true ↔ granted held required alternates) ∧
  (seen' = seen ∨
   answer = true ∧ ¬ covered_canonically held required ∧ (size seen < SEEN_CAP)%nat ∧
   ∃ raw h, raw ∈ held ∧ read_held raw = Some h ∧ seen !! raw = None ∧
     seen' = <[raw := held_canonical h]> seen).
Proof.
  unfold check_held, granted.
  pose proof (scan_held_spec held held required None ltac:(done) ltac:(done)) as Hs.
  destruct (scan_held held required None) as [b hit]. destruct Hs as (H1 & H2 & H3).
  assert (is_Some (@None LegacyHit) ↔ False) as Hnone by (split; [by intros []|done]). rewrite Hnone in H1.
  destruct b; [split; [naive_solver|by left]|].
  set (hit' := match hit with Some h => Some h | None => _ end).
  assert ((is_Some hit' ↔ covered held required ∨ ∃ alt, alt ∈ alternates ∧ covered held alt) ∧
          ∀ h, hit' = Some h → hit_of held h) as [Hiff Hof].
  { unfold hit'. destruct hit as [h|].
    - split; [|done]. split; [intros _; left; naive_solver|by eexists].
    - destruct (scan_alternates_spec held alternates None ltac:(done)) as [Ha Hb]. split; [|done].
      rewrite Ha, Hnone. assert (¬ covered held required) as Hnc
        by (intros Hc; destruct (proj2 H1 (or_intror Hc)) as [?|[? ?]]; done). naive_solver. }
  destruct hit' as [[[raw canonical] spelling]|].
  - split; [rewrite <- Hiff; naive_solver|]. unfold note_legacy.
    destruct (Nat.leb_spec SEEN_CAP (size seen)) as [|Hcap]; [by left|].
    case_bool_decide as Hin; [by left|right]. split; [done|]. split; [naive_solver|]. split; [done|].
    destruct (Hof _ eq_refl) as (h & Hheld & Hread & Heq). simpl in *. exists raw, h.
    split; [done|]. split; [done|]. split; [by apply eq_None_not_Some|]. by rewrite Heq.
  - split; [|by left]. rewrite <- Hiff. split; [done|by intros []].
Qed.

Lemma check_held_true held required alternates seen :
  (check_held held required alternates seen).1 = true ↔ granted held required alternates.
Proof.
  pose proof (check_held_cases held required alternates seen) as H.
  destruct (check_held held required alternates seen). apply H.
Qed.

(** what a check answers and records. It answers [true] exactly when what is required,
    or one of the alternates the route also accepts, is covered by one of the held
    permissions; the order of the list, and what has been recorded, never matter. What it
    records is at most one pair, of a held permission that was not recorded before and its
    canonical spelling, and none when it refuses, when a canonical match exists, or when the
    record is full. *)
Theorem check_held_spec (held : list string) (required : string) (alternates : list string) (seen : Seen) :
  let '(answer, seen') := check_held held required alternates seen in
  (answer = true ↔ granted held required alternates) ∧
  (seen' = seen ∨
   answer = true ∧ ¬ covered_canonically held required ∧ (size seen < SEEN_CAP)%nat ∧
   ∃ raw h, raw ∈ held ∧ read_held raw = Some h ∧ seen !! raw = None ∧
     seen' = <[raw := held_canonical h]> seen).
Proof.
  apply check_held_cases.
Qed.

(** ** Splitting a permission *)
Lemma str_rev_forallb p s : str_forallb p (str_rev s) = str_forallb p s.
Proof.
  induction s as [|c s IH]; [done|]. rewrite str_rev_cons, str_forallb_app, IH. simpl.
  by rewrite andb_true_r, andb_comm.
Qed.
Lemma trim_graphic s : str_forallb is_ascii_graphic s = true → trim s = s.
Proof.
  destruct s as [|c s]; [done|]. intros H. destruct (str_rev (String c s)) as [|d r] eqn:Hr.
  - rewrite str_rev_cons in Hr. by destruct (str_rev s).
  - pose proof (str_rev_forallb is_ascii_graphic (String c s)) as Hf. rewrite Hr, H in Hf.
    simpl in H, Hf. apply andb_true_iff in H as [Hc _], Hf as [Hd _]. by eapply trim_id.
Qed.

(** The letters of a half of a permission. *)
Lemma name_byte_facts c :
  is_name_byte c = true →
  is_ascii_graphic c = true ∧ negb (Ascii.eqb ":" c) = true ∧ negb (Ascii.eqb "." c) = true.
Proof.
  destruct c as [b0 b1 b2 b3 b4 b5 b6 b7].
  destruct b7, b6, b5, b4, b3, b2, b1, b0; intros H; try discriminate H; repeat split; reflexivity.
Qed.
Lemma half_facts s :
  is_half s = true →
  s ≠ "" ∧ str_forallb is_ascii_graphic s = true ∧ lacks ":" s = true ∧ lacks "." s = true.
Proof.
  unfold is_half, is_name. intros [->%bool_decide_eq_true|H]%orb_true_iff; [by repeat split|].
  apply andb_true_iff in H as [Hne%negb_true_iff%bool_decide_eq_false Hs].
  split; [done|]. unfold lacks.
  split; [|split]; (eapply str_forallb_impl; [|exact Hs]); intros c Hc; by apply name_byte_facts.
Qed.

Lemma pair_text_facts sep r a :
  is_half r = true → is_half a = true → is_ascii_graphic sep = true →
  trim (r +:+ String sep a) = r +:+ String sep a ∧ r +:+ String sep a ≠ "*".
Proof.
  intros (Hr & Hrg & _)%half_facts (Ha & Hag & _)%half_facts Hs. split.
  - apply trim_graphic. rewrite str_forallb_app. simpl. by rewrite Hrg, Hag, Hs.
  - destruct r as [|c r]; [done|]. rewrite str_app_cons. intros [= _ H]. by destruct r.
Qed.

(** [<first>:<second>] *)
Lemma read_held_pair r a :
  is_half r = true → is_half a = true →
  read_held (r +:+ String ":" a) =
  if bool_decide (r = "admin") && bool_decide (a = "*") then Some (mkHeld "*" "*" false (Some ActionFirst))
  else if bool_decide (r = "admin") && is_name a && negb (bool_decide (a ∈ GENERIC_ACTIONS)) &&
          negb (bool_decide (a = "write"))
  then Some (mkHeld a "*" false (Some ActionFirst))
  else if bool_decide (r ∈ ["read"; "write"; "delete"]) && is_name a
  then Some (mkHeld a r false (Some ActionFirst))
  else Some (mkHeld r a false None).
Proof.
  intros Hr Ha. destruct (pair_text_facts ":" r a Hr Ha eq_refl) as [Htrim Hne].
  pose proof (half_facts r Hr) as (_ & _ & Hrc & _). pose proof (half_facts a Ha) as (_ & _ & Hac & _).
  unfold read_held. rewrite Htrim, bool_decide_false by done.
  rewrite str_contains_lacks, lacks_app, andb_false_intro2 by done. cbn [negb].
  by rewrite str_split_app, (str_split_lacks ":" a), Hr, Ha by done.
Qed.

(** [<resource>.<action>] *)
Lemma read_held_dotted r a :
  is_half r = true → is_half a = true →
  read_held (r +:+ String "." a) = Some (mkHeld r a false (Some Dotted)).
Proof.
  intros Hr Ha. destruct (pair_text_facts "." r a Hr Ha eq_refl) as [Htrim Hne].
  pose proof (half_facts r Hr) as (_ & _ & Hrc & Hrd). pose proof (half_facts a Ha) as (_ & _ & Hac & _).
  unfold read_held. rewrite Htrim, bool_decide_false by done.
  rewrite str_contains_lacks, lacks_app, Hrc. change (lacks ":" (String "." a)) with (lacks ":" a).
  rewrite Hac. cbn [andb negb]. rewrite split_once_app by done. cbn [mbind option_bind].
  by rewrite Hr, Ha.
Qed.

(** [<model>:transition:<verb>] *)
Lemma read_held_transition r a :
  is_half r = true → is_half a = true →
  read_held (r +:+ ":transition:" +:+ a) = Some (mkHeld r a true (Some Transition)).
Proof.
  intros Hr Ha. pose proof (half_facts r Hr) as (Hrn & Hrg & Hrc & _).
  pose proof (half_facts a Ha) as (_ & Hag & Hac & _).
  assert (trim (r +:+ ":transition:" +:+ a) = r +:+ ":transition:" +:+ a) as Htrim.
  { apply trim_graphic. rewrite !str_forallb_app, Hrg, Hag. done. }
  assert (r +:+ ":transition:" +:+ a ≠ "*") as Hne.
  { destruct r as [|c r]; [done|]. rewrite str_app_cons. intros [= _ H]. by destruct r. }
  unfold read_held. rewrite Htrim, bool_decide_false by done.
  change (":transition:" +:+ a) with (String ":" ("transition" +:+ String ":" a)).
  rewrite str_contains_lacks, lacks_app, andb_false_intro2 by done. cbn [negb].
  rewrite str_split_app, (str_split_app ":" "transition"), (str_split_lacks ":" a) by done.
  by rewrite Hr, Ha.
Qed.

(** ** Coverage *)

(** What a resource half and an action half are meant to cover; [verbs] for a legacy grant
    over verbs. *)
Definition covers_pair (resource action : string) (verbs : bool) (r a : string) : Prop :=
  (resource = "*" ∨ resource = r ∨ resource = plural_of r) ∧
  (action = "*" ∨ action = a ∨ action = "write" ∧ a ∉ ["read"; "delete"; "purge"]) ∧
  (verbs = true → a ∉ GENERIC_ACTIONS).

Lemma match_held_covers h r a :
  lacks ":" r = true →
  is_Some (match_held h (r +:+ String ":" a)) ↔ covers_pair (resource h) (action h) (verbs_only h) r a.
Proof.
  intros Hr. unfold match_held, covers_pair. rewrite split_once_app by done. cbn [mbind option_bind].
  set (wa := bool_decide (action h = "write") && _ && _).
  assert (bool_decide (action h = "*") || bool_decide (action h = a) || wa = true ↔
    action h = "*" ∨ action h = a ∨ action h = "write" ∧ a ∉ ["read"; "delete"; "purge"]) as Hact.
  { unfold wa. rewrite !orb_true_iff, !andb_true_iff, !negb_true_iff, !bool_decide_eq_true, !bool_decide_eq_false.
    clear. destruct (decide (a = "write")) as [->|]; [|tauto]. intuition congruence. }
  assert (verbs_only h && bool_decide (a ∈ GENERIC_ACTIONS) = false ↔
    (verbs_only h = true → a ∉ GENERIC_ACTIONS)) as Hverbs.
  { rewrite andb_false_iff, bool_decide_eq_false. destruct (verbs_only h); intuition congruence. }
  rewrite <- Hact, <- Hverbs. clear Hact Hverbs.
  destruct (verbs_only h && bool_decide (a ∈ GENERIC_ACTIONS)); [split; [by intros []|intuition congruence]|].
  destruct (bool_decide (action h = "*") || bool_decide (action h = a) || wa); cbn [negb];
    [|split; [by intros []|intuition congruence]].
  case_bool_decide as H1; [split; [tauto|by eexists]|].
  case_bool_decide as H2; [split; [tauto|by eexists]|].
  case_bool_decide as H3; [split; [tauto|by eexists]|].
  split; [by intros []|tauto].
Qed.

Lemma matches_as raw h r a :
  lacks ":" r = true → read_held raw = Some h →
  permission_matches raw (r +:+ String ":" a) = true ↔
  covers_pair (resource h) (action h) (verbs_only h) r a.
Proof.
  intros Hr Hh. unfold permission_matches. rewrite Hh, bool_decide_eq_true. by apply match_held_covers.
Qed.

(** The resource names an action-first spelling would be read from. *)
Definition RESERVED : list string := ["admin"; "read"; "write"; "delete"].

Lemma read_held_canonical r a :
  is_half r = true → is_half a = true → r ∉ RESERVED →
  read_held (r +:+ String ":" a) = Some (mkHeld r a false None).
Proof.
  intros Hr Ha Hres. rewrite read_held_pair by done. unfold RESERVED in Hres.
  rewrite (bool_decide_false (r = "admin")) by set_solver.
  rewrite (bool_decide_false (r ∈ ["read"; "write"; "delete"])) by set_solver. done.
Qed.

Lemma name_half s : is_name s = true → is_half s = true.
Proof. unfold is_half. intros ->. apply orb_true_r. Qed.
Lemma name_not_star s : is_name s = true → s ≠ "*".
Proof. by intros H ->. Qed.

(** what each spelling of a permission covers. Of the permissions [<r>:<a>] a route may
    require: the canonical and the dotted spelling cover their halves, [*] standing for
    anything, a resource also through its plural, and the action [write] standing for
    all but reading, deleting and purging; a transition covers its verb and never a generic
    action, however it is wildcarded; [<action>:<module>] covers that action of the module,
    [admin:<module>] all of it; and everything is covered by [*], [*:*] and [admin:*] alone
    among these. *)
Theorem spellings_cover (resource action r a : string) :
  is_half resource = true → is_half action = true → lacks ":" r = true →
  let required := r +:+ String ":" a in
  (resource ∉ RESERVED →
     (permission_matches (resource +:+ ":" +:+ action) required = true ↔ covers_pair resource action false r a)) ∧
  (permission_matches (resource +:+ "." +:+ action) required = true ↔ covers_pair resource action false r a) ∧
  (permission_matches (resource +:+ ":transition:" +:+ action) required = true ↔
     covers_pair resource action true r a) ∧
  (is_name resource = true → action ∈ ["read"; "write"; "delete"] →
     (permission_matches (action +:+ ":" +:+ resource) required = true ↔ covers_pair resource action false r a)) ∧
  (is_name resource = true → resource ∉ "write" :: GENERIC_ACTIONS →
     (permission_matches ("admin:" +:+ resource) required = true ↔ covers_pair resource "*" false r a)) ∧
  Forall (λ god, permission_matches god required = true) ["*"; "*:*"; "admin:*"].
Proof.
  intros Hr Ha Hlacks required.
  assert (∀ raw h, read_held raw = Some h → permission_matches raw required = true ↔
    covers_pair (Grants.resource h) (Grants.action h) (verbs_only h) r a) as Hm
    by (intros; by apply matches_as).
  split; [|split; [|split; [|split; [|split]]]].
  - intros Hres. apply (Hm _ (mkHeld resource action false None)). by apply read_held_canonical.
  - apply (Hm _ (mkHeld resource action false (Some Dotted))). by apply read_held_dotted.
  - apply (Hm _ (mkHeld resource action true (Some Transition))). by apply read_held_transition.
  - intros Hn Hv. apply (Hm _ (mkHeld resource action false (Some ActionFirst))).
    change (action +:+ ":" +:+ resource) with (action +:+ String ":" resource).
    rewrite (read_held_pair action resource Ha Hr).
    rewrite (bool_decide_false (action = "admin")) by set_solver.
    by rewrite (bool_decide_true (action ∈ _)), Hn by done.
  - intros Hn Hg. apply (Hm _ (mkHeld resource "*" false (Some ActionFirst))).
    change ("admin:" +:+ resource) with ("admin" +:+ String ":" resource).
    rewrite read_held_pair by done. rewrite (bool_decide_false (resource = "*")) by by apply name_not_star.
    apply not_elem_of_cons in Hg as [Hw Hg].
    by rewrite Hn, (bool_decide_false _ Hg), (bool_decide_false _ Hw).
  - assert (∀ god, read_held god = Some (mkHeld "*" "*" false None) ∨
      read_held god = Some (mkHeld "*" "*" false (Some ActionFirst)) → permission_matches god required = true) as Hgod.
    { intros god [H|H]; apply (Hm _ _ H); (split; [by left|]; split; [by left|done]). }
    repeat constructor; apply Hgod; vm_compute; auto.
Qed.

(** ** Rewriting *)

Lemma read_held_halves raw h :
  read_held raw = Some h → is_half (resource h) = true ∧ is_half (action h) = true.
Proof.
  unfold read_held. set (s := trim raw). case_match; [by intros [= <-]|].
  case_match.
  - intros ([r a] & _ & Hra)%bind_Some. case_match eqn:Hh; [|done]. injection Hra as <-.
    by apply andb_true_iff in Hh.
  - destruct (str_split ":" s) as [|x [|y [|z [|]]]]; try done.
    + case_match; [by intros [= <-]|]. case_match eqn:Hadmin; [|case_match eqn:Hact; [|case_match eqn:Hh; [|done]]];
        intros [= <-]; simpl.
      * apply andb_true_iff in Hadmin as [[[_ ?]%andb_true_iff _]%andb_true_iff _].
        split; [by apply name_half|done].
      * apply andb_true_iff in Hact as [Hx%bool_decide_eq_true ?]. split; [by apply name_half|].
        apply name_half. repeat (apply elem_of_cons in Hx as [->|Hx]; [done|]). by apply not_elem_of_nil in Hx.
      * by apply andb_true_iff in Hh.
    + case_match eqn:Hh; [|done]. intros [= <-]. simpl.
      by apply andb_true_iff in Hh as [[_ ?]%andb_true_iff ?].
Qed.

(** the canonical spelling of a held permission covers what the permission covers. So a
    stored permission may be rewritten to the spelling the record of legacy ones names. It
    holds unless the resource is named [admin], [read], [write] or [delete], and, for a
    transition, unless the verb is a wildcard or is named like a generic action or [write]. *)
Theorem canonical_covers_same (raw : string) (h : Held) (r a : string) :
  read_held raw = Some h → resource h ∉ RESERVED →
  (verbs_only h = true → action h ∉ "*" :: "write" :: GENERIC_ACTIONS) →
  lacks ":" r = true →
  permission_matches (held_canonical h) (r +:+ String ":" a) =
  permission_matches raw (r +:+ String ":" a).
Proof.
  intros Hread Hres Hverb Hr. apply eq_true_iff_eq.
  destruct (read_held_halves raw h Hread) as [Hres' Hact].
  assert (held_canonical h = resource h +:+ String ":" (action h)) as ->.
  { unfold held_canonical. case_match eqn:Hv; [|done].
    apply andb_true_iff in Hv as [Hv Hstar%bool_decide_eq_true]. specialize (Hverb Hv). set_solver. }
  rewrite (matches_as _ _ r a Hr (read_held_canonical _ _ Hres' Hact Hres)), (matches_as _ _ r a Hr Hread).
  unfold covers_pair. simpl. destruct (verbs_only h) eqn:Hv; [|done]. specialize (Hverb eq_refl).
  split; [|naive_solver]. intros (H1 & H2 & _). split; [done|]. split; [done|]. intros _ Hg.
  destruct H2 as [H2|[H2|[H2 _]]]; set_solver.
Qed.

(** Where the resource is [admin] it does not: the canonical spelling of [admin.*] and of
    [admin:admin], which cover an entity or module of that name, is the one that covers
    everything. *)
Lemma canonical_admin_escalates :
  map normalise ["admin.*"; "admin:admin"; "admin.process"] =
    [Some "admin:*"; Some "admin:*"; Some "admin:process"] ∧
  map (λ raw, permission_matches raw "payroll_entry:delete") ["admin.*"; "admin:admin"; "admin:*"] =
    [false; false; true] ∧
  map (λ raw, permission_matches raw "process:delete") ["admin.process"; "admin:process"] = [false; true].
Proof. vm_compute. done. Qed.

(** ** What is published means what is held *)

Lemma elem_of_effective g p :
  p ∈ effective g ↔ p ∈ permissions g ∨ is_authority g = true ∧ p = GOD_PERMISSION.
Proof.
  unfold effective. rewrite elem_of_btree_iter. destruct (is_authority g); [|naive_solver].
  rewrite elem_of_union, elem_of_singleton. tauto.
Qed.

Lemma god_matches required : lacks ":" required = false → permission_matches GOD_PERMISSION required = true.
Proof.
  intros (r & a & Hsplit)%split_once_some. unfold permission_matches.
  change (read_held GOD_PERMISSION) with (Some (mkHeld "*" "*" false None)).
  unfold match_held. rewrite Hsplit. done.
Qed.

(** the list of permissions a person's grants are published as answers every check as the
    grants themselves do: for whatever a route may require that is a permission's name at all,
    holding the published list is what being allowed means, authority by role name included. *)
Theorem effective_allows (g : Grants) (required : string) (seen : Seen) :
  lacks ":" required = false →
  (allows g required seen).1 = (check_held (effective g) required [] seen).1.
Proof.
  intros Hreq. apply eq_true_iff_eq. rewrite check_held_true. unfold allows, granted.
  assert (∀ P : Prop, P ∨ (∃ alt, alt ∈ @nil string ∧ covered (effective g) alt) ↔ P) as ->
    by (intros P; split; [intros [?|(? & ?%not_elem_of_nil & _)]; done|by left]).
  destruct (is_authority g) eqn:Hauth.
  - split; [intros _|done]. exists GOD_PERMISSION.
    split; [apply elem_of_effective; by right|by apply god_matches].
  - rewrite check_held_true. unfold granted, covered.
    split.
    + intros [(raw & ?%elem_of_btree_iter & ?)|(? & ?%not_elem_of_nil & _)]; [|done]. exists raw.
      split; [apply elem_of_effective; by left|done].
    + intros (raw & [?|[? _]]%elem_of_effective & ?); [|congruence]. left. exists raw.
      by rewrite elem_of_btree_iter.
Qed.

(** ** A request to a guarded route *)
Lemma let_pair {A B} (P : A → B → Prop) (p : A * B) : P p.1 p.2 → let '(a, b) := p in P a b.
Proof. by destruct p. Qed.

Section route.
Context {L : Libs} {W A : Type}.

(** The resolver's layer around the permission layer around the handler, the state being the
    record of legacy spellings and whatever the source and the handler work on. *)
Definition guarded_route (source : uuid → option uuid → Extensions → sm W GrantError Grants)
    (needs : list Needs) (handler : Extensions → sm W Empty_set A) (x : Extensions) :
    sm (Seen * W) Empty_set (Resolved (A:=Answer A)) :=
  resolve_grants (λ user unit x, sm_zoom snd (λ w s, (s.1, w)) (source user unit x)) x
    (λ x, enforce needs x handler).

Definition met (held : list string) (need : Needs) : Prop :=
  granted held (need_permission need) (alternates need).

Lemma first_missing_spec ctx needs seen :
  let '(r, seen') := first_missing ctx needs seen in
  r = None ∧ Forall (met (auth_permissions ctx)) needs ∨
  ∃ before need after, needs = before ++ need :: after ∧
    Forall (met (auth_permissions ctx)) before ∧ ¬ met (auth_permissions ctx) need ∧
    r = Some (permission_refusal (mkRequired (need_permission need))).
Proof.
  revert seen. induction needs as [|need needs IH]; intros seen; simpl; [left; done|].
  unfold require_with.
  pose proof (check_held_true (auth_permissions ctx) (need_permission need) (alternates need) seen) as Hc.
  destruct (check_held _ _ _ _) as [[] seen1]; simpl in Hc.
  - specialize (IH seen1). destruct (first_missing ctx needs seen1) as [r seen2].
    assert (met (auth_permissions ctx) need) by by apply Hc.
    destruct IH as [[-> Hall]|(before & n & after & -> & Hb & Hn & ->)]; [left; by auto|right].
    exists (need :: before), n, after. by auto.
  - right. exists [], need, needs. split; [done|]. split; [done|]. split; [|done].
    unfold met. rewrite <- Hc. done.
Qed.

(** What a caller with [held] is answered at a route with [needs]: the handler's own answer,
    or the refusal naming the first need not met, in a state the handler has not touched. *)
Definition answered_by (held : list string) (needs : list Needs) (run : sm W Empty_set A) (w : W)
    (answer : res Empty_set (Resolved (A:=Answer A))) (w' : W) : Prop :=
  Forall (met held) needs ∧ answer = match (run w).1 with
                                   | Ok a => Ok (Passed (Handled a))
                                   | Err e => Err e
                                   | Panic => Panic
                                   end ∧ w' = (run w).2 ∨
  (∃ before need after, needs = before ++ need :: after ∧ Forall (met held) before ∧ ¬ met held need ∧
     answer = Ok (Passed (Refused (permission_refusal (mkRequired (need_permission need)))))) ∧ w' = w.

Lemma enforce_answers needs x ctx handler seen w :
  ex_waiver x = false → ex_auth x = Some ctx →
  let r := (a ← enforce needs x handler; mret (Passed a)) (seen, w) in
  answered_by (auth_permissions ctx) needs (handler x) w r.1 r.2.2.
Proof.
  intros Hw Hctx r. unfold r, enforce, refusal, mbind, sm_bind. cbn [fst snd]. rewrite Hw, Hctx.
  pose proof (first_missing_spec ctx needs seen) as Hf.
  destruct (first_missing ctx needs seen) as [o seen']. cbn [fst snd].
  destruct Hf as [[-> Hall]|(before & need & after & Hn & Hb & Hnot & ->)].
  - unfold sm_zoom, answered_by. cbn [fst snd].
    destruct (handler x w) as [[a|[]|] w'] eqn:Hrun; by left.
  - right. cbn [mret sm_ret snd]. split; [|done]. by exists before, need, after.
Qed.

(** The grants a session's user has: none where the session names no user of the tenant, or else
    what the source answers. *)
Definition grants_of (source : uuid → option uuid → Extensions → sm W GrantError Grants)
    (user : string) (unit : option uuid) (x : Extensions) : sm W GrantError Grants :=
  match parse_uuid user with
  | None => mret grants_default
  | Some id => source id unit x
  end.

End route.

(** ** The theorems at concrete inputs *)
Ltac by_decision := refine (bool_decide_unpack _ _); vm_compute; exact I.

Lemma spellings_cover_witness :
  permission_matches "categories:write" "category:update" = true ∧
  ¬ permission_matches "categories:transition:*" "category:update" = true ∧
  permission_matches "admin:payroll" "payroll:purge" = true.
Proof.
  destruct (spellings_cover "categories" "write" "category" "update") as (H1 & _); [done..|].
  destruct (spellings_cover "categories" "*" "category" "update") as (_ & _ & H3 & _); [done..|].
  destruct (spellings_cover "payroll" "*" "payroll" "purge") as (_ & _ & _ & _ & H5 & _); [done..|].
  split; [|split].
  - apply H1; [by_decision|]. split; [right; right; reflexivity|].
    split; [right; right; split; [done|by_decision]|done].
  - intros (_ & _ & H)%H3. apply (H eq_refl). by_decision.
  - apply H5; [done|by_decision|]. split; [by right; left|]. split; [by left|done].
Defined.

Lemma canonical_covers_same_witness :
  read_held "tickets:transition:resolve" = Some (mkHeld "tickets" "resolve" true (Some Transition)) ∧
  permission_matches "tickets:resolve" "ticket:resolve" =
  permission_matches "tickets:transition:resolve" "ticket:resolve".
Proof.
  split; [reflexivity|].
  apply (canonical_covers_same "tickets:transition:resolve"
    (mkHeld "tickets" "resolve" true (Some Transition)) "ticket" "resolve");
    [reflexivity|by_decision|intros _; by_decision|reflexivity].
Defined.

Lemma effective_allows_witness :
  (allows (grants_new ["ADMIN"] []) "payroll:purge" ∅).1 =
  (check_held (effective (grants_new ["ADMIN"] [])) "payroll:purge" [] ∅).1.
Proof. apply (effective_allows (grants_new ["ADMIN"] []) "payroll:purge" ∅). reflexivity. Defined.

(** A clerk of unit [1], known by a session of the unit. *)
Definition clerk_request : Extensions :=
  mkExt false (Some (mkAuth "7" ["guest"] ["*:*"])) None (Some (mkOrg 1%N [1%N] None "7")) None.
Definition clerk_source (user : uuid) (unit : option uuid) (x : Extensions) : sm nat GrantError Grants :=
  λ reads, (Ok (grants_new ["CLERK"] ["tickets.read"]), S reads).
Definition clerk_handler (x : Extensions) : sm nat Empty_set (list string) :=
  mret (from_option auth_roles [] (ex_auth x)).

Example clerk_reads :
  (let '(answer, (seen, reads)) := guarded_route (L:=Concrete.libs) clerk_source (guarded "ticket:read")
                                     clerk_handler clerk_request (∅, 0%nat) in
   (match answer with Ok (Passed (Handled roles)) => Some roles | _ => None end, seen, reads)) =
  (Some ["guest"; "CLERK"], {[ "tickets.read" := "tickets:read" ]}, 1%nat).
Proof. vm_compute. reflexivity. Qed.

