(* ===== verification/Filter.v ===== *)
(** * Query filters

    [backbone-orm/src/filter/types.rs], [condition.rs] and [query.rs]: operators and values of
    a list request, the SQL of one condition, and the WHERE and ORDER BY clauses of a
    whole filter with the parameters they bind. *)
From Stdlib Require Import ZArith Lia Ascii.
From stdpp Require Import pretty.
From S2P Require Import Prelude RustStr RustChar.

(** ** [types.rs] *)
Inductive FilterOperator :=
  | Equal | NotEqual | GreaterThan | GreaterThanOrEqual | LessThan | LessThanOrEqual
  | Like | ILike | NotLike | Contains | NotContains | StartsWith | EndsWith
  | In | NotIn | Between | NotBetween | IsNull | IsNotNull | Or.
#[export] Instance FilterOperator_eq_dec : EqDecision FilterOperator.
Proof. solve_decision. Defined.

Definition OPERATORS : list (string * FilterOperator) :=
  [("eq", Equal); ("where", Equal); ("noteq", NotEqual); ("ne", NotEqual); ("gt", GreaterThan);
   ("gte", GreaterThanOrEqual); ("gteq", GreaterThanOrEqual); ("lt", LessThan);
   ("lte", LessThanOrEqual); ("lteq", LessThanOrEqual); ("like", Like); ("ilike", ILike);
   ("notlike", NotLike); ("contain", Contains); ("notcontain", NotContains);
   ("startwith", StartsWith); ("startswith", StartsWith); ("endwith", EndsWith);
   ("endswith", EndsWith); ("in", In); ("notin", NotIn); ("between", Between);
   ("notbetween", NotBetween); ("isnull", IsNull); ("isnotnull", IsNotNull); ("or", Or); ("orwhere", Or)].
Definition operator_from_str (s : string) : option FilterOperator := assoc (to_ascii_lowercase s) OPERATORS.

Definition as_sql (op : FilterOperator) : string :=
  match op with
  | Equal => "=" | NotEqual => "!=" | GreaterThan => ">" | GreaterThanOrEqual => ">="
  | LessThan => "<" | LessThanOrEqual => "<=" | Like => "LIKE" | ILike => "ILIKE"
  | NotLike => "NOT LIKE" | Contains => "LIKE" | NotContains => "NOT LIKE" | StartsWith => "LIKE"
  | EndsWith => "LIKE" | In => "IN" | NotIn => "NOT IN" | Between => "BETWEEN"
  | NotBetween => "NOT BETWEEN" | IsNull => "IS NULL" | IsNotNull => "IS NOT NULL" | Or => "OR"
  end.

Inductive FilterValue := Single (s : string) | Multiple (l : list string) | Null.
Definition value_from_string (s : string) (is_array : bool) : FilterValue :=
  if is_array then Multiple (map trim (str_split "," s)) else Single s.
Definition as_single (v : FilterValue) : option string := match v with Single s => Some s | _ => None end.
Definition as_multiple (v : FilterValue) : option (list string) := match v with Multiple l => Some l | _ => None end.
Definition value_is_null (v : FilterValue) : bool := match v with Null => true | _ => false end.

Inductive FilterLogical := And | OrElse.
Inductive SortDirection := Asc | Desc.
#[export] Instance FilterLogical_eq_dec : EqDecision FilterLogical.
Proof. solve_decision. Defined.
#[export] Instance SortDirection_eq_dec : EqDecision SortDirection.
Proof. solve_decision. Defined.
Definition direction_from_str (s : string) : SortDirection :=
  if bool_decide (to_ascii_lowercase s ∈ ["desc"; "-1"]) then Desc else Asc.

Record SortSpec := mkSort { sort_field : string; sort_direction : SortDirection }.

(** ** [condition.rs] *)
Record FilterCondition := mkCondition {
  field : string;
  operator : FilterOperator;
  value : FilterValue;
  logical : FilterLogical;
  column_type : option string;
}.
Definition condition_new (f : string) (op : FilterOperator) (v : FilterValue) : FilterCondition :=
  mkCondition f op v And None.
Definition with_logical (c : FilterCondition) (l : FilterLogical) : FilterCondition :=
  mkCondition (field c) (operator c) (value c) l (column_type c).
Definition with_column_type (c : FilterCondition) (t : string) : FilterCondition :=
  mkCondition (field c) (operator c) (value c) (logical c) (Some t).

Definition needs_value_cast (c : FilterCondition) : bool :=
  bool_decide (column_type c = None) &&
  bool_decide (operator c ∈ [Equal; NotEqual; GreaterThan; GreaterThanOrEqual; LessThan; LessThanOrEqual;
                             In; NotIn; Between; NotBetween]).

Definition BUILTIN_TYPES : list string :=
  ["uuid"; "boolean"; "bool"; "smallint"; "int2"; "integer"; "int"; "int4"; "bigint"; "int8"; "numeric";
   "decimal"; "real"; "float4"; "double precision"; "float8"; "date"; "interval"; "inet"; "cidr";
   "macaddr"; "time"; "timetz"; "timestamp"; "timestamptz"; "text"; "varchar"; "character varying";
   "char"; "character"; "json"; "jsonb"; "bytea"].
Definition is_builtin_type (type_name : string) : bool :=
  bool_decide (to_ascii_lowercase (trim type_name) ∈ BUILTIN_TYPES).
Definition needs_type_qualification (c : FilterCondition) : bool :=
  match column_type c with
  | Some t => negb (str_contains t ".") && negb (is_builtin_type t)
  | None => false
  end.

(** [format!("${idx}")] *)
Definition placeholder (idx : nat) : string := "$" +:+ pretty idx.
Definition cast_suffix_of (t : option string) : string :=
  match t with Some t => "::" +:+ t | None => "" end.
Definition cast_placeholders (ps : list string) (t : option string) : string :=
  match t with
  | Some t => str_join ", " (map (λ p, p +:+ "::" +:+ t) ps)
  | None => str_join ", " ps
  end.

(** The text of a condition, and the next parameter's number. *)
Definition build_sql_without_prefix (c : FilterCondition) (idx : nat) : string * nat :=
  match operator c with
  | IsNull => (field c +:+ " IS NULL", idx)
  | IsNotNull => (field c +:+ " IS NOT NULL", idx)
  | In | NotIn =>
      let n := match value c with Multiple values => length values | _ => 1%nat end in
      let ps := map placeholder (seq idx n) in
      (field c +:+ " " +:+ as_sql (operator c) +:+ " (" +:+ cast_placeholders ps (column_type c) +:+ ")",
       (idx + n)%nat)
  | Between | NotBetween =>
      let cast := cast_suffix_of (column_type c) in
      (field c +:+ " " +:+ as_sql (operator c) +:+ " " +:+ placeholder idx +:+ cast +:+ " AND " +:+
         placeholder (S idx) +:+ cast, S (S idx))
  | Contains => (field c +:+ " ILIKE " +:+ placeholder idx, S idx)
  | NotContains => (field c +:+ " NOT ILIKE " +:+ placeholder idx, S idx)
  | StartsWith => (field c +:+ " ILIKE " +:+ placeholder idx, S idx)
  | EndsWith => (field c +:+ " ILIKE " +:+ placeholder idx, S idx)
  | _ =>
      (field c +:+ " " +:+ as_sql (operator c) +:+ " " +:+ placeholder idx +:+ cast_suffix_of (column_type c),
       S idx)
  end.

Definition logical_sql (l : FilterLogical) : string := match l with And => " AND " | OrElse => " OR " end.
Definition build_sql (c : FilterCondition) (idx : nat) : string * nat :=
  let '(sql, idx) := build_sql_without_prefix c idx in (logical_sql (logical c) +:+ sql, idx).

(** [get_params] *)
Definition get_params (c : FilterCondition) : list string :=
  let wrapped (wrap : string → string) :=
    match value c with Single v => [wrap v] | Multiple v => map wrap v | Null => [wrap ""] end in
  match operator c with
  | IsNull | IsNotNull => []
  | In | NotIn => match value c with Multiple values => values | Single v => [v] | Null => [] end
  | Between | NotBetween => match value c with Multiple (a :: b :: _) => [a; b] | _ => [] end
  | Contains | NotContains => wrapped (λ v, "%" +:+ v +:+ "%")
  | StartsWith => wrapped (λ v, v +:+ "%")
  | EndsWith => wrapped (λ v, "%" +:+ v)
  | _ => match value c with Single v => [v] | Multiple v => [default "" (head v)] | Null => [] end
  end.

(** ** [query.rs] *)
Record QueryFilter := mkFilter {
  conditions : list FilterCondition;
  sorts : list SortSpec;
  search : option string;
  search_fields : list string;
  limit : option Z;
  offset : option Z;
  page : option Z;
  cursor_after : option string;
  cursor_before : option string;
  estimate_total : bool;
  base_conditions : list string;
}.
Definition filter_new : QueryFilter := mkFilter [] [] None [] None None None None None false [].
Definition add_condition (q : QueryFilter) (c : FilterCondition) : QueryFilter :=
  mkFilter (conditions q ++ [c]) (sorts q) (search q) (search_fields q) (limit q) (offset q) (page q)
    (cursor_after q) (cursor_before q) (estimate_total q) (base_conditions q).
Definition add_sort (q : QueryFilter) (s : SortSpec) : QueryFilter :=
  mkFilter (conditions q) (sorts q ++ [s]) (search q) (search_fields q) (limit q) (offset q) (page q)
    (cursor_after q) (cursor_before q) (estimate_total q) (base_conditions q).
Definition set_search (q : QueryFilter) (s : option string) : QueryFilter :=
  mkFilter (conditions q) (sorts q) s (search_fields q) (limit q) (offset q) (page q)
    (cursor_after q) (cursor_before q) (estimate_total q) (base_conditions q).
Definition set_search_fields (q : QueryFilter) (fs : list string) : QueryFilter :=
  mkFilter (conditions q) (sorts q) (search q) fs (limit q) (offset q) (page q)
    (cursor_after q) (cursor_before q) (estimate_total q) (base_conditions q).
Definition with_search (q : QueryFilter) (s : string) (fs : list string) : QueryFilter :=
  set_search_fields (set_search q (Some s)) fs.
Definition set_paging (q : QueryFilter) (l o p : option Z) : QueryFilter :=
  mkFilter (conditions q) (sorts q) (search q) (search_fields q) l o p
    (cursor_after q) (cursor_before q) (estimate_total q) (base_conditions q).
Definition with_pagination (q : QueryFilter) (page limit : Z) : QueryFilter :=
  set_paging q (Some limit) (offset q) (Some page).
Definition set_cursors (q : QueryFilter) (a b : option string) (e : bool) : QueryFilter :=
  mkFilter (conditions q) (sorts q) (search q) (search_fields q) (limit q) (offset q) (page q)
    a b e (base_conditions q).
Definition add_base_condition (q : QueryFilter) (c : string) : QueryFilter :=
  mkFilter (conditions q) (sorts q) (search q) (search_fields q) (limit q) (offset q) (page q)
    (cursor_after q) (cursor_before q) (estimate_total q) (base_conditions q ++ [c]).

(** The caller's conditions, chained: text, parameters, next number. *)
Fixpoint user_conditions (cs : list FilterCondition) (user : string) (params : list string) (idx : nat) :
    string * list string * nat :=
  match cs with
  | [] => (user, params, idx)
  | c :: cs =>
      let '(sql, idx) := build_sql_without_prefix c idx in
      let user := if bool_decide (user = "") then sql else user +:+ logical_sql (logical c) +:+ sql in
      user_conditions cs user (params ++ get_params c) idx
  end.

(** The search over its fields, where there is one. *)
Definition search_group (q : QueryFilter) : option (string * list string) :=
  match search q with
  | Some term =>
      if bool_decide (search_fields q = []) || bool_decide (term = "") then None
      else Some (str_join " OR " (imap (λ i f, f +:+ " ILIKE " +:+ placeholder (S i)) (search_fields q)),
                 map (λ _, "%" +:+ term +:+ "%") (search_fields q))
  | None => None
  end.

Definition where_text (groups : list string) : string :=
  match groups with
  | [] => ""
  | [g] => " WHERE " +:+ g
  | gs => " WHERE " +:+ str_join " AND " (map (λ g, "(" +:+ g +:+ ")") gs)
  end.

Definition base_groups (q : QueryFilter) : list string :=
  filter (λ b, b ≠ "") (map trim (base_conditions q)).

Definition build_where_clause (q : QueryFilter) : string * list string :=
  let s := search_group q in
  let '(search_groups, params, idx) :=
    match s with Some (g, ps) => ([g], ps, S (length (search_fields q))) | None => ([], [], 1%nat) end in
  let '(user, params, _) := user_conditions (conditions q) "" params idx in
  (where_text (base_groups q ++ search_groups ++ (if bool_decide (user = "") then [] else [user])), params).

Definition direction_sql (d : SortDirection) : string := match d with Desc => "DESC" | Asc => "ASC" end.
Definition build_order_by_clause (q : QueryFilter) : string :=
  match sorts q with
  | [] => ""
  | ss => " ORDER BY " +:+ str_join ", " (map (λ s, sort_field s +:+ " " +:+ direction_sql (sort_direction s)) ss)
  end.

Definition has_uncast_value_conditions (q : QueryFilter) : bool := existsb needs_value_cast (conditions q).
Definition needs_catalog_types (q : QueryFilter) : bool :=
  existsb (λ c, needs_value_cast c || needs_type_qualification c) (conditions q).
Definition has_conditions (q : QueryFilter) : bool :=
  negb (bool_decide (conditions q = [])) || bool_decide (is_Some (search q)).

Example between_ex :
  build_sql_without_prefix (with_column_type (condition_new "employee_id" Between (Multiple ["a"; "b"])) "timestamptz") 3 =
  ("employee_id BETWEEN $3::timestamptz AND $4::timestamptz", 5%nat).
Proof. vm_compute. reflexivity. Qed.
Example where_ex :
  build_where_clause (add_base_condition (set_search_fields (set_search
    (add_condition (add_condition filter_new (condition_new "a" In (Multiple ["1"; "2"])))
       (with_logical (condition_new "b" Equal (Single "3")) OrElse)) (Some "x")) ["t"; "u"]) " deleted IS NULL ") =
  (" WHERE (deleted IS NULL) AND (t ILIKE $1 OR u ILIKE $2) AND (a IN ($3, $4) OR b = $5)",
   ["%x%"; "%x%"; "1"; "2"; "3"]).
Proof. vm_compute. reflexivity. Qed.
