(* ===== verification/FilterParser.v ===== *)
(** * From query parameters to a filter

    [backbone-orm/src/filter/parser.rs], [validation.rs] and the refusals of [error.rs]. The
    parameters come as a list, in the order in which the hash map that holds them happens to be
    walked; the entity's column types and the fields it allows are maps of their own. *)
From Stdlib Require Import ZArith Lia Ascii.
From S2P Require Import Prelude RustStr RustChar Filter.

Local Open Scope Z_scope.

(** ** [error.rs] *)
Inductive QueryParamReason :=
  | UnknownColumn | UnknownOperator | InvalidFieldName | InvalidValue | NotANumber | InvalidCursor
  | TooDeep | UnknownRelation | NotNumeric | UnsupportedOperator | FieldPermission.
Definition reason_as_str (r : QueryParamReason) : string :=
  match r with
  | UnknownColumn => "unknown_column" | UnknownOperator => "unknown_operator"
  | InvalidFieldName => "invalid_field_name" | InvalidValue => "invalid_value"
  | NotANumber => "not_a_number" | InvalidCursor => "invalid_cursor" | TooDeep => "too_deep"
  | UnknownRelation => "unknown_relation" | NotNumeric => "not_numeric"
  | UnsupportedOperator => "unsupported_operator" | FieldPermission => "field_permission"
  end.
Record QueryParamError := mkParamError { parameter : string; reason : QueryParamReason; message : string }.

Definition clip (value : string) : string :=
  if chars_count value <=? 40 then value
  else str_concat (take 40 (chars value)) +:+ bytes_str [226; 128; 166].
Definition not_a_number (parameter value : string) : QueryParamError :=
  mkParamError parameter NotANumber
    ("`" +:+ parameter +:+ "` must be a whole number of zero or more, not `" +:+ clip value +:+ "`").
Definition unknown_column (parameter column : string) : QueryParamError :=
  mkParamError parameter UnknownColumn
    ("`" +:+ parameter +:+ "`: `" +:+ column +:+ "` is not a field of this resource").

Section parser.
Context {U : Unicode}.

(** ** Names *)

(** [to_snake_case]: an underscore before each upper-case character but the first. *)
Definition to_snake_case (s : string) : string :=
  str_concat (imap (λ i ch,
    (if char_is_uppercase ch && negb (Nat.eqb i 0) then "_" else "") +:+ char_lower ch) (chars s)).

Definition DANGEROUS : list string :=
  ["--"; "/*"; ";"; "drop "; "delete "; "truncate "; "update "; "insert "; "exec "; "execute "; "script>"].

Definition is_field_char (ch : string) : bool := char_is_alphanumeric ch || bool_decide (ch = "_").
(** [sanitize_field_name]; [None] for each of its refusals. *)
Definition sanitize_field_name (f : string) : option string :=
  if bool_decide (f = "") then None
  else if starts_with f "__" then None
  else if negb (forallb is_field_char (chars f)) then None
  else if existsb (str_contains (to_lowercase f)) DANGEROUS then None
  else Some (to_snake_case f).

Definition is_valid_field (f : string) (allowed : gset string) : bool := bool_decide (f ∈ allowed).
(** [if let Some(allowed) = allowed_fields { is_valid_field(..) }] *)
Definition is_allowed (allowed : option (gset string)) (f : string) : bool :=
  match allowed with Some a => is_valid_field f a | None => true end.

Definition field_of (name parameter : string) : QueryParamError + string :=
  match sanitize_field_name name with
  | Some f => inr f
  | None => inl (mkParamError parameter InvalidFieldName
      ("`" +:+ parameter +:+ "` does not name a field: field names are letters, digits and underscores"))
  end.
Definition count_of (parameter value : string) : QueryParamError + Z :=
  match parse_u32 (trim value) with
  | Some n => inr n
  | None => inl (not_a_number parameter value)
  end.

(** ** Values *)
Definition BUILTIN_PG_TYPES : list string :=
  ["uuid"; "numeric"; "decimal"; "integer"; "int"; "int4"; "int8"; "bigint"; "smallint"; "int2"; "real";
   "float"; "float4"; "float8"; "double precision"; "boolean"; "bool"; "text"; "varchar"; "char";
   "timestamp"; "timestamptz"; "date"; "time"; "timetz"; "interval"; "jsonb"; "json"; "bytea"; "inet";
   "cidr"; "macaddr"].
Definition is_custom_enum_type (col_type : string) : bool :=
  negb (bool_decide (to_lowercase col_type ∈ BUILTIN_PG_TYPES)).

Definition AUDIT_METADATA_FIELDS : list string := ["created_at"; "updated_at"; "deleted_at"].
Definition audit_metadata_sql_expr (f : string) : option string :=
  if bool_decide (f ∈ AUDIT_METADATA_FIELDS) then Some ("(metadata->>'" +:+ f +:+ "')::timestamptz") else None.
(** [audit_metadata_sql_expr(f).unwrap_or_else(|| f.clone())] *)
Definition column_sql (f : string) : string := default f (audit_metadata_sql_expr f).

Definition normalize_enum_value (v : string) : string :=
  if str_contains v "," then str_join "," (map (λ p, to_snake_case (trim p)) (str_split "," v))
  else to_snake_case v.
Definition filter_value (column_types : gmap string string) (f v : string) : string :=
  match column_types !! f with
  | Some t => if is_custom_enum_type t then normalize_enum_value v else v
  | None => v
  end.
(** The cast of a comparison with column [f]. *)
Definition with_cast (column_types : gmap string string) (f : string) (c : FilterCondition) : FilterCondition :=
  match audit_metadata_sql_expr f with
  | Some _ => with_column_type c "timestamptz"
  | None => match column_types !! f with Some t => with_column_type c t | None => c end
  end.

Definition is_internal_key (key : string) : bool := starts_with (trim_start key) "__".

Definition OPERATOR_KEYWORDS : string :=
  "eq, ne, gt, gte, lt, lte, like, ilike, notlike, contain, notcontain, startwith, endwith, in, notin, between, notbetween, isnull, isnotnull, or".

(** ** [parse_filters] *)

(** The filter so far, and the OR conditions kept for the end. *)
Definition Parsed : Type := QueryFilter * list FilterCondition.

(** [orderby[column]=direction] *)
Definition bracket_sort (allowed : option (gset string)) (key column v : string) (st : Parsed) :
    QueryParamError + Parsed :=
  match field_of column key with
  | inl e => inl e
  | inr sort_field =>
      if negb (is_allowed allowed sort_field) then inr st
      else
        let v := trim v in
        let dir := if starts_with v "-" then Desc else if eq_ignore_ascii_case v "desc" then Desc else Asc in
        inr (add_sort st.1 (mkSort sort_field dir), st.2)
  end.

(** [field[or]=value] *)
Definition or_condition (column_types : gmap string string) (f v : string) : FilterCondition :=
  let c := with_logical (condition_new f Equal (value_from_string (filter_value column_types f v) false)) OrElse in
  match column_types !! f with Some t => with_column_type c t | None => c end.

Definition is_list_operator (op : FilterOperator) : bool :=
  bool_decide (op ∈ [In; NotIn; Between; NotBetween]).

(** [field[operator]=value] *)
Definition bracket_condition (column_types : gmap string string) (op : FilterOperator) (f v : string) :
    FilterCondition :=
  with_cast column_types f
    (condition_new (column_sql f) op (value_from_string (filter_value column_types f v) (is_list_operator op))).

Definition parse_bracket (column_types : gmap string string) (allowed : option (gset string))
    (key fld op v : string) (st : Parsed) : QueryParamError + Parsed :=
  match field_of fld key with
  | inl e => inl e
  | inr f =>
      if negb (is_allowed allowed f) then inr st
      else if eq_ignore_ascii_case fld "orderby" || eq_ignore_ascii_case fld "sort" then
        bracket_sort allowed key op v st
      else
        let lower := to_ascii_lowercase op in
        if bool_decide (lower = "orderby") then
          inr (add_sort st.1 (mkSort (column_sql f) (direction_from_str v)), st.2)
        else if bool_decide (lower ∈ ["or"; "orwhere"]) then
          inr (st.1, st.2 ++ [or_condition column_types f v])
        else
          match operator_from_str op with
          | Some op => inr (add_condition st.1 (bracket_condition column_types op f v), st.2)
          | None => inl (mkParamError key UnknownOperator
              ("`" +:+ key +:+ "`: `" +:+ op +:+ "` is not a filter operator (use one of " +:+ OPERATOR_KEYWORDS +:+ ")"))
          end
  end.

(** [orderby=name,-age] *)
Fixpoint sort_list (allowed : option (gset string)) (key : string) (parts : list string) (q : QueryFilter) :
    QueryParamError + QueryFilter :=
  match parts with
  | [] => inr q
  | part :: parts =>
      let part := trim part in
      if bool_decide (part = "") then sort_list allowed key parts q
      else
        let dir := if starts_with part "-" then Desc else Asc in
        match field_of (trim_start_char "-" part) key with
        | inl e => inl e
        | inr f =>
            sort_list allowed key parts
              (if is_allowed allowed f then add_sort q (mkSort (column_sql f) dir) else q)
        end
  end.

(** [orderby=-field], [orderby=field:desc] *)
Definition sort_one (allowed : option (gset string)) (key v : string) (q : QueryFilter) :
    QueryParamError + QueryFilter :=
  let '(bare, suffix) :=
    match split_once ":" v with
    | Some (f, d) => (f, Some (if eq_ignore_ascii_case (trim d) "desc" then Desc else Asc))
    | None => (v, None)
    end in
  let dir := if starts_with bare "-" then Desc else default Asc suffix in
  let fld := trim_start_char "-" bare in
  if bool_decide (trim fld = "") then inr q
  else match field_of fld key with
       | inl e => inl e
       | inr f => inr (if is_allowed allowed f then add_sort q (mkSort (column_sql f) dir) else q)
       end.

Fixpoint search_columns (allowed : option (gset string)) (key : string) (parts : list string) :
    QueryParamError + list string :=
  match parts with
  | [] => inr []
  | s :: parts =>
      let s := trim s in
      if bool_decide (s = "") then search_columns allowed key parts
      else match field_of s key with
           | inl e => inl e
           | inr f =>
               match search_columns allowed key parts with
               | inl e => inl e
               | inr fs => inr (if is_allowed allowed f then f :: fs else fs)
               end
           end
  end.

(** [field=value] *)
Definition equality_condition (column_types : gmap string string) (f v : string) : FilterCondition :=
  with_cast column_types f
    (condition_new (column_sql f) Equal (value_from_string (filter_value column_types f v) (str_contains v ","))).

Definition LIMIT_KEYS : list string := ["pagesize"; "perpage"; "per_page"].
Definition parse_paging (lower key v : string) (q : QueryFilter) : QueryParamError + QueryFilter :=
  if bool_decide (trim v = "") then inr q
  else match count_of key v with
       | inl e => inl e
       | inr n =>
           inr (if bool_decide (lower = "offset") then set_paging q (limit q) (Some n) (page q)
                else if bool_decide (lower = "page") then set_paging q (limit q) (offset q) (Some n)
                else set_paging q (Some n) (offset q) (page q))
       end.

(** A key without a bracket. *)
Definition parse_plain (column_types : gmap string string) (allowed : option (gset string))
    (key v : string) (q : QueryFilter) : QueryParamError + QueryFilter :=
  let lower := to_ascii_lowercase key in
  if bool_decide (lower ∈ ["orderby"; "sort"]) then
    if str_contains v "," then sort_list allowed key (str_split "," v) q else sort_one allowed key v q
  else if bool_decide (lower = "search") then inr (set_search q (Some v))
  else if bool_decide (lower = "searchfields") then
    match search_columns allowed key (str_split "," v) with
    | inl e => inl e
    | inr fs => inr (set_search_fields q fs)
    end
  else if bool_decide (lower ∈ "limit" :: "offset" :: "page" :: LIMIT_KEYS) then parse_paging lower key v q
  else if bool_decide (lower = "after") then inr (set_cursors q (Some v) (cursor_before q) (estimate_total q))
  else if bool_decide (lower = "before") then inr (set_cursors q (cursor_after q) (Some v) (estimate_total q))
  else if bool_decide (lower ∈ ["estimate"; "estimate_total"]) then
    inr (set_cursors q (cursor_after q) (cursor_before q) (bool_decide (v ∈ ["1"; "true"; "yes"])))
  else if bool_decide (key ∈ ["fields"; "include"; "with"]) then inr q
  else match field_of key key with
       | inl e => inl e
       | inr f =>
           inr (if is_allowed allowed f then add_condition q (equality_condition column_types f v) else q)
       end.

Definition parse_param (column_types : gmap string string) (allowed : option (gset string))
    (kv : string * string) (st : Parsed) : QueryParamError + Parsed :=
  let '(key, v) := kv in
  if is_internal_key key then inr st
  else match find_char "[" key with
       | Some (fld, rest) =>
           match strip_last "]" key with
           | Some _ => parse_bracket column_types allowed key fld (default "" (strip_last "]" rest)) v st
           | None => inl (mkParamError key InvalidFieldName
               ("`" +:+ key +:+ "` opens an operator bracket it never closes"))
           end
       | None =>
           match parse_plain column_types allowed key v st.1 with
           | inl e => inl e
           | inr q => inr (q, st.2)
           end
       end.

Fixpoint parse_params (column_types : gmap string string) (allowed : option (gset string))
    (params : list (string * string)) (st : Parsed) : QueryParamError + Parsed :=
  match params with
  | [] => inr st
  | kv :: params =>
      match parse_param column_types allowed kv st with
      | inl e => inl e
      | inr st => parse_params column_types allowed params st
      end
  end.

Definition parse_filters (params : list (string * string)) (column_types : gmap string string)
    (allowed : option (gset string)) : QueryParamError + QueryFilter :=
  match parse_params column_types allowed params (filter_new, []) with
  | inl e => inl e
  | inr (q, ors) => inr (foldl add_condition q ors)
  end.
End parser.

(** ** Examples *)
Definition parsed_where (params : list (string * string)) : option (string * list string) :=
  match parse_filters (U:=ascii_unicode) params {[ "status" := "task_status" ]} None with
  | inr q => Some (build_where_clause q)
  | inl _ => None
  end.
Example parse_ex1 :
  parsed_where [("userName[contain]", "jo"); ("age[between]", "1, 9"); ("status", "InProgress"); ("__base", "1=1");
                ("created_at[gte]", "2026"); ("kind[or]", "x")] =
  Some (" WHERE user_name ILIKE $1 AND age BETWEEN $2 AND $3 AND status = $4::task_status AND (metadata->>'created_at')::timestamptz >= $5::timestamptz OR kind = $6",
        ["%jo%"; "1"; "9"; "in_progress"; "2026"; "x"]).
Proof. vm_compute. reflexivity. Qed.
Example parse_ex2 : parsed_where [("a b", "1")] = None.
Proof. vm_compute. reflexivity. Qed.
Example parse_sorts :
  match parse_filters (U:=ascii_unicode) [("orderby[employeeNumber]", "desc"); ("sort", "-a,b")] ∅ None with
  | inr q => build_order_by_clause q
  | inl _ => ""
  end = " ORDER BY employee_number DESC, a DESC, b ASC".
Proof. vm_compute. reflexivity. Qed.
