(* ===== verification/FilterFacts.v ===== *)
(** * Query filters: facts

    What a request can put into the text of a query, that the parameters bound are the
    placeholders written, and that the caller's conditions stay in their own group. *)
From Stdlib Require Import ZArith Lia Ascii.
From stdpp Require Import pretty.
From S2P Require Import Prelude RustStr RustChar Filter FilterParser.

(** ** Text with placeholders *)
Inductive tok := Txt (s : string) | Par (n : nat).
Definition render_tok (t : tok) : string := match t with Txt s => s | Par n => placeholder n end.
Definition render (ts : list tok) : string := str_concat (map render_tok ts).
Definition pars (ts : list tok) : list nat := omap (λ t, match t with Par n => Some n | Txt _ => None end) ts.
Definition no_dollar (s : string) : bool := str_forallb (λ c, negb (Ascii.eqb c "$")) s.
Definition plain_tok (t : tok) : bool := match t with Txt s => no_dollar s | Par _ => true end.

(** [s] is a text whose only placeholders are those numbered [ns], in order. *)
Definition has_placeholders (s : string) (ns : list nat) : Prop :=
  ∃ ts, s = render ts ∧ pars ts = ns ∧ forallb plain_tok ts = true.

Lemma has_placeholders_txt s : no_dollar s = true → has_placeholders s [].
Proof.
  intros H. exists [Txt s]. split; [by unfold render; simpl; rewrite str_app_nil_r|].
  split; [done|]. simpl. by rewrite H.
Qed.
Lemma has_placeholders_par n : has_placeholders (placeholder n) [n].
Proof. exists [Par n]. split; [by unfold render; simpl; rewrite str_app_nil_r|done]. Qed.
Lemma has_placeholders_app s t ns ms :
  has_placeholders s ns → has_placeholders t ms → has_placeholders (s +:+ t) (ns ++ ms).
Proof.
  intros (ts & -> & <- & H1) (us & -> & <- & H2). exists (ts ++ us).
  split; [by unfold render; rewrite map_app, str_concat_app|].
  split; [unfold pars; by rewrite omap_app|]. by rewrite forallb_app, H1, H2.
Qed.
Lemma has_placeholders_txt_l s t ns :
  no_dollar s = true → has_placeholders t ns → has_placeholders (s +:+ t) ns.
Proof. intros H1%has_placeholders_txt H2. exact (has_placeholders_app _ _ _ _ H1 H2). Qed.
Lemma has_placeholders_txt_r s t ns :
  has_placeholders s ns → no_dollar t = true → has_placeholders (s +:+ t) ns.
Proof.
  intros H1 H2%has_placeholders_txt. rewrite <- (app_nil_r ns).
  by apply has_placeholders_app.
Qed.

Lemma has_placeholders_join sep l ns :
  no_dollar sep = true → Forall2 has_placeholders l ns →
  has_placeholders (str_join sep l) (concat ns).
Proof.
  intros Hsep H. induction H as [|x n l ns Hx Hl IH]; [by apply has_placeholders_txt|].
  cbn [concat]. destruct l as [|y l].
  - inversion Hl; subst. simpl. by rewrite app_nil_r.
  - change (str_join sep (x :: y :: l)) with (x +:+ sep +:+ str_join sep (y :: l)).
    apply has_placeholders_app; [done|]. by apply has_placeholders_txt_l.
Qed.
Lemma has_placeholders_seq (f : string → string) sep idx n :
  no_dollar sep = true → (∀ i, has_placeholders (f (placeholder i)) [i]) →
  has_placeholders (str_join sep (map f (map placeholder (seq idx n)))) (seq idx n).
Proof.
  intros Hsep Hf.
  assert (seq idx n = concat (map (λ i, [i]) (seq idx n))) as Heq
    by (generalize (seq idx n); intros l; induction l as [|x l IH]; [done|simpl; by rewrite <- IH]).
  rewrite Heq at 2. apply has_placeholders_join; [done|].
  rewrite map_map. generalize (seq idx n). clear Heq. intros l. induction l; simpl; by constructor.
Qed.

(** ** Conditions *)

(** Nothing of the condition but its parameters comes with a dollar sign. *)
Definition plain_condition (c : FilterCondition) : bool :=
  no_dollar (field c) && match column_type c with Some t => no_dollar t | None => true end.

(** As many parameters as the text has placeholders. *)
Definition placeholders_of (c : FilterCondition) : nat :=
  match operator c with
  | IsNull | IsNotNull => 0
  | In | NotIn => match value c with Multiple values => length values | _ => 1 end
  | Between | NotBetween => 2
  | _ => 1
  end.
Definition arity_ok (c : FilterCondition) : bool := Nat.eqb (length (get_params c)) (placeholders_of c).

Lemma str_app_ne a b : b ≠ "" → a +:+ b ≠ "".
Proof. by destruct a. Qed.

Lemma build_sql_ne c idx : (build_sql_without_prefix c idx).1 ≠ "".
Proof. unfold build_sql_without_prefix. destruct (operator c); cbn [fst]; by apply str_app_ne. Qed.

Lemma build_sql_placeholders c idx :
  plain_condition c = true →
  let '(sql, idx') := build_sql_without_prefix c idx in
  has_placeholders sql (seq idx (placeholders_of c)) ∧ idx' = (idx + placeholders_of c)%nat.
Proof.
  unfold plain_condition, build_sql_without_prefix, placeholders_of. intros [Hf Ht]%andb_true_iff.
  assert (no_dollar (cast_suffix_of (column_type c)) = true) as Hcast by (destruct (column_type c); exact Ht).
  assert (∀ s t ns, no_dollar s = true → has_placeholders t ns →
    has_placeholders (field c +:+ s +:+ t) ns) as Hpre
    by (intros; apply has_placeholders_txt_l; [done|]; by apply has_placeholders_txt_l).
  assert (∀ i, has_placeholders (placeholder i +:+ cast_suffix_of (column_type c)) [i]) as Hpar
    by (intros; apply has_placeholders_txt_r; [apply has_placeholders_par|done]).
  assert (∀ n, has_placeholders (cast_placeholders (map placeholder (seq idx n)) (column_type c)) (seq idx n)) as Hlist.
  { intros n. unfold cast_placeholders, cast_suffix_of in *. destruct (column_type c) as [t|].
    - apply (has_placeholders_seq (λ p, p +:+ "::" +:+ t)); [done|apply Hpar].
    - rewrite <- (map_id (map placeholder _)).
      apply (has_placeholders_seq (λ p, p)); [done|]. intros. apply has_placeholders_par. }
  assert (∀ op, no_dollar (as_sql op) = true) as Hop by (by intros []).
  destruct (operator c); (split; [|lia]);
    repeat first
      [ apply has_placeholders_txt_l; [done|]
      | apply has_placeholders_txt; done
      | exact (Hpar idx) | apply has_placeholders_par
      | apply has_placeholders_txt_r; [by apply Hlist|done] ].
  all: rewrite <- str_app_assoc; apply (has_placeholders_app _ _ [idx] [S idx]);
    [apply Hpar|apply has_placeholders_txt_l; [done|apply Hpar]].
Qed.

(** ** The clause *)
Definition sum_placeholders (cs : list FilterCondition) : nat := sum_list_with placeholders_of cs.

Lemma user_conditions_placeholders cs user ns params idx :
  forallb plain_condition cs = true → has_placeholders user ns →
  let '(user', params', idx') := user_conditions cs user params idx in
  has_placeholders user' (ns ++ seq idx (sum_placeholders cs)) ∧
  idx' = (idx + sum_placeholders cs)%nat ∧ params' = params ++ concat (map get_params cs).
Proof.
  revert user ns params idx. induction cs as [|c cs IH]; intros user ns params idx Hcs Hu.
  { simpl. rewrite !app_nil_r. repeat split; [done|lia]. }
  simpl in Hcs. apply andb_true_iff in Hcs as [Hc Hcs]. simpl.
  pose proof (build_sql_placeholders c idx Hc) as Hb.
  destruct (build_sql_without_prefix c idx) as [sql idx1]. destruct Hb as [Hsql ->].
  set (user1 := if bool_decide (user = "") then sql else _).
  assert (has_placeholders user1 (ns ++ seq idx (placeholders_of c))) as Hu1.
  { unfold user1. case_bool_decide as He.
    - subst user. destruct Hu as (ts & He & <- & Hp).
      assert (pars ts = []) as ->.
      { clear -He. induction ts as [|t ts IH]; [done|]. unfold render in *. simpl in He.
        destruct t as [s|n]; simpl in *; [destruct s; [by apply IH|done]|done]. }
      done.
    - apply has_placeholders_app; [done|]. apply has_placeholders_txt_l; [by destruct (logical c)|done]. }
  specialize (IH user1 _ (params ++ get_params c) (idx + placeholders_of c)%nat Hcs Hu1).
  destruct (user_conditions cs user1 _ _) as [[user' params'] idx'].
  destruct IH as (H1 & -> & ->). split; [|split].
  - rewrite <- app_assoc, <- seq_app in H1. done.
  - lia.
  - by rewrite <- app_assoc.
Qed.

Lemma user_conditions_empty cs user params idx :
  (user_conditions cs user params idx).1.1 = "" → user = "" ∧ cs = [].
Proof.
  revert user params idx. induction cs as [|c cs IH]; intros user params idx; simpl; [done|].
  pose proof (build_sql_ne c idx) as Hne. destruct (build_sql_without_prefix c idx) as [sql idx1].
  intros [He _]%IH. exfalso. case_bool_decide; [done|].
  revert He. apply str_app_ne, str_app_ne. exact Hne.
Qed.

Definition plain_filter (q : QueryFilter) : bool :=
  forallb plain_condition (conditions q) && forallb no_dollar (search_fields q) &&
  forallb no_dollar (base_groups q).

Lemma where_text_placeholders gs nss :
  Forall2 has_placeholders gs nss → has_placeholders (where_text gs) (concat nss).
Proof.
  intros H. destruct H as [|g ns gs nss Hg Hgs]; [by apply has_placeholders_txt|].
  destruct Hgs as [|g' ns' gs nss Hg' Hgs].
  - simpl. rewrite app_nil_r. by apply has_placeholders_txt_l.
  - cbn [where_text]. apply has_placeholders_txt_l; [done|]. apply has_placeholders_join; [done|].
    assert (∀ g ns, has_placeholders g ns → has_placeholders ("(" +:+ g +:+ ")") ns) as Hw
      by (intros; apply has_placeholders_txt_l; [done|]; by apply has_placeholders_txt_r).
    constructor; [by apply Hw|]. constructor; [by apply Hw|].
    clear -Hgs Hw. induction Hgs; constructor; auto.
Qed.

Lemma search_group_placeholders q :
  forallb no_dollar (search_fields q) = true →
  match search_group q with
  | Some (g, ps) => has_placeholders g (seq 1 (length (search_fields q))) ∧ length ps = length (search_fields q)
  | None => True
  end.
Proof.
  intros Hf. unfold search_group. destruct (search q) as [term|]; [|done].
  destruct (_ || _); [done|]. split; [|by rewrite length_map].
  assert (∀ i, has_placeholders
    (str_join " OR " (imap (λ j f, f +:+ " ILIKE " +:+ placeholder (S (i + j))) (search_fields q)))
    (seq (S i) (length (search_fields q)))) as Hall; [|apply (Hall 0%nat)].
  clear -Hf. intros i.
  assert (∀ (l : list string) k, seq k (length l) = concat (map (λ j, [j]) (seq k (length l)))) as ->
    by (intros l k; generalize (length l); intros n; revert k; induction n; intros; [done|simpl; by rewrite <- IHn]).
  apply has_placeholders_join; [done|]. revert i Hf.
  induction (search_fields q) as [|f fs IH]; intros i Hf; [constructor|]. simpl in *.
  apply andb_true_iff in Hf as [Hf Hfs]. constructor.
  - apply has_placeholders_txt_l; [done|]. apply has_placeholders_txt_l; [done|].
    rewrite Nat.add_0_r. apply has_placeholders_par.
  - rewrite (imap_ext _ (λ j f, f +:+ " ILIKE " +:+ placeholder (S (S i + j))))
      by (intros; simpl; by rewrite Nat.add_succ_r).
    by apply IH.
Qed.

Lemma concat_get_params_length cs :
  forallb arity_ok cs = true → length (concat (map get_params cs)) = sum_placeholders cs.
Proof.
  unfold sum_placeholders. induction cs as [|c cs IH]; [done|]. simpl.
  intros [Hc%Nat.eqb_eq Hcs]%andb_true_iff. by rewrite length_app, Hc, IH.
Qed.

Lemma build_where_clause_placeholders q :
  plain_filter q = true → forallb arity_ok (conditions q) = true →
  let '(text, params) := build_where_clause q in has_placeholders text (seq 1 (length params)).
Proof.
  unfold plain_filter. intros [[Hc Hs]%andb_true_iff Hb]%andb_true_iff Ha.
  unfold build_where_clause. pose proof (search_group_placeholders q Hs) as Hg.
  set (n := match search_group q with Some _ => length (search_fields q) | None => 0 end).
  set (gs := match search_group q with Some (g, _) => [g] | None => [] end).
  set (ps := match search_group q with Some (_, ps) => ps | None => [] end).
  assert (match search_group q with Some (g, ps) => ([g], ps, S (length (search_fields q))) | None => ([], [], 1) end
    = (gs, ps, S n)) as -> by (unfold gs, ps, n; by destruct (search_group q) as [[]|]).
  pose proof (user_conditions_placeholders (conditions q) "" [] ps (S n) Hc ltac:(by apply has_placeholders_txt)) as Hu.
  pose proof (user_conditions_empty (conditions q) "" ps (S n)) as Hempty.
  destruct (user_conditions (conditions q) "" ps (S n)) as [[user params] idx]. cbn [fst] in Hempty.
  destruct Hu as (Hu & _ & ->). rewrite length_app, (concat_get_params_length _ Ha).
  assert (length ps = n) as -> by (unfold ps, n; destruct (search_group q) as [[]|]; [apply Hg|done]).
  rewrite seq_app.
  set (us := if bool_decide (user = "") then [] else [user]).
  assert (∃ nss, Forall2 has_placeholders us nss ∧ concat nss = seq (S n) (sum_placeholders (conditions q))) as (nu & Hus & Hnu).
  { unfold us. case_bool_decide as He.
    - destruct (Hempty He) as [_ ->]. by exists [].
    - exists [seq (S n) (sum_placeholders (conditions q))]. split; [by repeat constructor|]. simpl. by rewrite app_nil_r. }
  assert (∃ nss, Forall2 has_placeholders gs nss ∧ concat nss = seq 1 n) as (ng & Hgs & Hng).
  { unfold gs, n. destruct (search_group q) as [[g ps']|]; [|by exists []].
    exists [seq 1 (length (search_fields q))]. split; [constructor; [apply Hg|constructor]|]. simpl. by rewrite app_nil_r. }
  replace (1 + n) with (S n) by done. rewrite <- Hng, <- Hnu, <- concat_app.
  set (nb := map (λ _, []) (base_groups q) : list (list nat)).
  assert (concat (nb ++ ng ++ nu) = concat (ng ++ nu)) as <-.
  { unfold nb. clear. induction (base_groups q); [done|]. done. }
  apply where_text_placeholders, Forall2_app; [|by apply Forall2_app].
  unfold nb. clear -Hb. induction (base_groups q) as [|b bs IH]; simpl in *; [constructor|].
  apply andb_true_iff in Hb as [Hb Hbs]. constructor; [by apply has_placeholders_txt|by apply IH].
Qed.

(** ** Parentheses *)

(** The depth of open parentheses after [s], from [d]; [None] where one is closed too many. *)
Fixpoint depth (d : nat) (s : string) : option nat :=
  match s with
  | EmptyString => Some d
  | String c s =>
      if Ascii.eqb c "(" then depth (S d) s
      else if Ascii.eqb c ")" then match d with O => None | S d => depth d s end
      else depth d s
  end.
Definition balanced (s : string) : Prop := ∀ d, depth d s = Some d.

Lemma depth_app d s t : depth d (s +:+ t) = depth d s ≫= λ d, depth d t.
Proof.
  revert d. induction s as [|c s IH]; intros d; [done|]. rewrite str_app_cons. simpl.
  repeat case_match; try done; apply IH.
Qed.
Lemma balanced_app s t : balanced s → balanced t → balanced (s +:+ t).
Proof. intros Hs Ht d. rewrite depth_app, Hs. apply Ht. Qed.
Lemma balanced_wrap s : balanced s → balanced ("(" +:+ s +:+ ")").
Proof.
  intros Hs d. change ("(" +:+ s +:+ ")") with (String "(" (s +:+ ")")). simpl.
  by rewrite depth_app, Hs.
Qed.
Definition no_parens (s : string) : bool := str_forallb (λ c, negb (Ascii.eqb c "(") && negb (Ascii.eqb c ")")) s.
Lemma no_parens_balanced s : no_parens s = true → balanced s.
Proof.
  intros H d. induction s as [|c s IH]; [done|]. unfold no_parens in H. simpl in *.
  apply andb_true_iff in H as [[H1%negb_true_iff H2%negb_true_iff]%andb_true_iff H]. rewrite H1, H2. by apply IH.
Qed.
Lemma balanced_join sep l : balanced sep → Forall balanced l → balanced (str_join sep l).
Proof.
  intros Hsep H. induction H as [|x l Hx Hl IH]; [by intros d|]. destruct l as [|y l]; [done|].
  change (str_join sep (x :: y :: l)) with (x +:+ sep +:+ str_join sep (y :: l)).
  by repeat apply balanced_app.
Qed.

Lemma digits_no_parens s : str_forallb is_ascii_digit s = true → no_parens s = true.
Proof.
  intros H. induction s as [|c s IH]; [done|]. unfold no_parens in *. simpl in *.
  apply andb_true_iff in H as [Hc Hs]. rewrite IH by done.
  by destruct c as [[] [] [] [] [] [] [] []].
Qed.
Lemma placeholder_balanced n : balanced (placeholder n).
Proof.
  apply no_parens_balanced. unfold placeholder. change (no_parens (pretty n) = true).
  apply digits_no_parens. destruct (show_Z_spec (Z.of_nat n) ltac:(lia)) as [H _].
  replace (pretty n) with (show_Z (Z.of_nat n)); [done|]. by destruct n.
Qed.

(** ** The caller's groups *)

Definition bracketed_condition (c : FilterCondition) : Prop :=
  balanced (field c) ∧ match column_type c with Some t => balanced t | None => True end.

Lemma build_sql_balanced c idx : bracketed_condition c → balanced (build_sql_without_prefix c idx).1.
Proof.
  intros [Hf Ht]. assert (balanced (cast_suffix_of (column_type c))) as Hcast.
  { unfold cast_suffix_of. destruct (column_type c); [|by intros d].
    apply balanced_app; [by apply no_parens_balanced|done]. }
  assert (∀ n, balanced (placeholder n +:+ cast_suffix_of (column_type c))) as Hp
    by (intros; apply balanced_app; [apply placeholder_balanced|done]).
  assert (∀ op, balanced (as_sql op)) as Hop by (intros op; apply no_parens_balanced; by destruct op).
  assert (∀ n, balanced (cast_placeholders (map placeholder (seq idx n)) (column_type c))) as Hlist.
  { intros n. unfold cast_placeholders, cast_suffix_of in *.
    destruct (column_type c); (apply balanced_join; [by apply no_parens_balanced|]);
      rewrite ?map_map; apply List.Forall_map, Forall_forall; intros; [apply Hp|apply placeholder_balanced]. }
  assert (∀ n, balanced (" (" +:+ cast_placeholders (map placeholder (seq idx n)) (column_type c) +:+ ")")) as Hin.
  { intros n. apply (balanced_app " "); [by intros d|]. by apply balanced_wrap. }
  unfold build_sql_without_prefix.
  destruct (operator c); cbn [fst];
    repeat match goal with
    | |- balanced (field _) => exact Hf
    | |- balanced (as_sql _) => apply Hop
    | |- balanced (cast_suffix_of _) => exact Hcast
    | |- balanced (placeholder _) => apply placeholder_balanced
    | |- balanced (" (" +:+ _ +:+ _) => apply Hin
    | |- balanced (_ +:+ _) => apply balanced_app
    | |- balanced (String _ _) => apply no_parens_balanced; reflexivity
    end.
Qed.

Lemma user_conditions_balanced cs user params idx :
  Forall bracketed_condition cs → balanced user → balanced (user_conditions cs user params idx).1.1.
Proof.
  intros H. revert user params idx. induction H as [|c cs Hc _ IH]; intros user params idx Hu; [done|]. simpl.
  pose proof (build_sql_balanced c idx Hc) as Hb.
  destruct (build_sql_without_prefix c idx) as [sql idx1]. apply IH.
  case_bool_decide; [done|]. apply balanced_app; [done|]. apply balanced_app; [|done].
  apply no_parens_balanced. by destruct (logical c).
Qed.

(** What a value leaves visible in the text: how many there are of a list. *)
Definition value_shape (v : FilterValue) : option nat :=
  match v with Multiple l => Some (length l) | _ => None end.
Definition same_condition (c c' : FilterCondition) : Prop :=
  field c = field c' ∧ operator c = operator c' ∧ logical c = logical c' ∧
  column_type c = column_type c' ∧ value_shape (value c) = value_shape (value c').
Definition has_search (q : QueryFilter) : bool :=
  match search q with Some s => negb (bool_decide (s = "")) | None => false end.
(** Two filters that differ in their values only. *)
Definition same_shape (q q' : QueryFilter) : Prop :=
  Forall2 same_condition (conditions q) (conditions q') ∧
  search_fields q = search_fields q' ∧ has_search q = has_search q' ∧
  base_conditions q = base_conditions q'.

Lemma build_sql_same c c' idx :
  same_condition c c' → build_sql_without_prefix c idx = build_sql_without_prefix c' idx.
Proof.
  intros (Hf & Ho & _ & Ht & Hv). unfold build_sql_without_prefix. rewrite Hf, Ho, Ht.
  assert (match value c with Multiple l => length l | _ => 1 end =
          match value c' with Multiple l => length l | _ => 1 end) as ->; [|done].
  by destruct (value c), (value c'); simplify_eq/=.
Qed.
Lemma user_conditions_same cs cs' user params params' idx :
  Forall2 same_condition cs cs' →
  (user_conditions cs user params idx).1.1 = (user_conditions cs' user params' idx).1.1.
Proof.
  intros H. revert user params params' idx.
  induction H as [|c c' cs cs' Hc _ IH]; intros user params params' idx; [done|]. simpl.
  rewrite (build_sql_same c c' idx Hc). destruct (build_sql_without_prefix c' idx) as [sql idx1].
  assert (logical c = logical c') as -> by apply Hc. apply IH.
Qed.

(** The groups of a filter's clause, as text. *)
Definition search_text (q : QueryFilter) : list string :=
  match search_group q with Some (g, _) => [g] | None => [] end.
Definition user_text (q : QueryFilter) : list string :=
  let idx := match search_group q with Some _ => S (length (search_fields q)) | None => 1 end in
  let user := (user_conditions (conditions q) "" [] idx).1.1 in
  if bool_decide (user = "") then [] else [user].

Lemma same_condition_refl cs : Forall2 same_condition cs cs.
Proof. induction cs; constructor; [|done]. by repeat split. Qed.

Lemma build_where_clause_text q :
  (build_where_clause q).1 = where_text (base_groups q ++ search_text q ++ user_text q).
Proof.
  unfold build_where_clause, search_text, user_text. destruct (search_group q) as [[g ps]|].
  - pose proof (user_conditions_same (conditions q) (conditions q) "" ps [] (S (length (search_fields q)))
      (same_condition_refl _)) as H.
    destruct (user_conditions (conditions q) "" ps _) as [[user ?] ?].
    destruct (user_conditions (conditions q) "" [] _) as [[user' ?] ?]. simpl in *. by subst.
  - by destruct (user_conditions (conditions q) "" [] 1) as [[user ?] ?].
Qed.

Lemma search_text_same q q' :
  search_fields q = search_fields q' → has_search q = has_search q' → search_text q = search_text q'.
Proof.
  unfold search_text, search_group, has_search. intros <-.
  destruct (search q) as [s|], (search q') as [s'|]; simpl;
    repeat case_bool_decide; simpl; naive_solver.
Qed.

(** Both groups are parenthesised in themselves. *)
Lemma groups_balanced q :
  Forall bracketed_condition (conditions q) → Forall balanced (search_fields q) →
  Forall balanced (search_text q ++ user_text q).
Proof.
  intros Hc Hs. apply Forall_app. split.
  - unfold search_text, search_group. destruct (search q) as [term|]; [|constructor].
    destruct (_ || _); repeat constructor. apply balanced_join; [by apply no_parens_balanced|].
    apply Forall_lookup. intros i x. rewrite list_lookup_imap. intros (f & Hf & ->)%fmap_Some.
    apply balanced_app; [by eapply Forall_lookup_1 in Hs|].
    apply balanced_app; [by apply no_parens_balanced|apply placeholder_balanced].
  - unfold user_text. case_bool_decide; repeat constructor.
    apply user_conditions_balanced; [done|]. by intros d.
Qed.
