(* ===== verification/FilterParserFacts.v ===== *)
(** * Parsing query parameters: facts

    Whatever a client sends, a filter that is parsed names columns by safe names only. *)
From Stdlib Require Import ZArith Lia Ascii.
From S2P Require Import Prelude RustStr RustChar Filter FilterParser FilterFacts.

Create HintDb filters.

(** The bytes a column name may hold: lower-case letters, digits, underscores, and those of
    characters beyond ASCII. *)
Definition safe_byte (c : ascii) : bool :=
  is_ascii_lowercase c || is_ascii_digit c || Ascii.eqb c "_" || negb (is_ascii c).
Definition safe_ident (s : string) : Prop := s ≠ "" ∧ str_forallb safe_byte s = true.

(** What the Unicode tables say of the first character of an alphanumeric character's
    lower case: that it is one, and a letter or digit of ASCII if it is in ASCII. *)
Class UnicodeLaws (U : Unicode) : Prop := {
  lower_first_safe : ∀ ch, u_alphanumeric ch = true → safe_ident (u_lower_first ch);
}.
#[export] Instance ascii_unicode_laws : UnicodeLaws ascii_unicode.
Proof. split. done. Qed.

Lemma safe_forallb (p : ascii → bool) s :
  (∀ c, safe_byte c = true → p c = true) → str_forallb safe_byte s = true → str_forallb p s = true.
Proof.
  intros Hp. induction s as [|c s IH]; [done|]. simpl. intros [Hc Hs]%andb_true_iff.
  by rewrite (Hp _ Hc), IH.
Qed.
Lemma safe_no_dollar s : safe_ident s → no_dollar s = true.
Proof. intros [_ H]. eapply safe_forallb; [|exact H]. by intros [[] [] [] [] [] [] [] []]. Qed.
Lemma safe_no_parens s : safe_ident s → no_parens s = true.
Proof. intros [_ H]. eapply safe_forallb; [|exact H]. by intros [[] [] [] [] [] [] [] []]. Qed.

Section facts.
Context {U : Unicode} {UL : UnicodeLaws U}.

Lemma char_lower_safe ch : is_field_char ch = true → safe_ident (char_lower ch).
Proof.
  unfold is_field_char. intros [H|H%bool_decide_eq_true]%orb_true_iff; [|by subst ch].
  unfold char_is_alphanumeric, char_lower in *. destruct ch as [|c [|d r]]; try (by apply lower_first_safe).
  destruct (is_ascii c) eqn:E; [|by apply lower_first_safe].
  split; [done|]. by destruct c as [[] [] [] [] [] [] [] []].
Qed.

Lemma to_snake_case_safe s :
  s ≠ "" → forallb is_field_char (chars s) = true → safe_ident (to_snake_case s).
Proof.
  intros Hs H. unfold to_snake_case. set (f := λ _ ch, _ +:+ char_lower ch).
  assert (∀ l i, forallb is_field_char l = true →
    (l ≠ [] → str_concat (imap (λ j, f (i + j)) l) ≠ "") ∧
    str_forallb safe_byte (str_concat (imap (λ j, f (i + j)) l)) = true) as Hall.
  { clear -UL. induction l as [|ch l IH]; intros i Hl; [done|]. simpl in Hl.
    apply andb_true_iff in Hl as [Hch Hl]. simpl. rewrite (imap_ext _ (λ j, f (S i + j)))
      by (intros; simpl; by rewrite Nat.add_succ_r).
    destruct (IH (S i) Hl) as [_ IH2].
    assert (∀ k, f k ch ≠ "" ∧ str_forallb safe_byte (f k ch) = true) as Hf.
    { intros k. unfold f. destruct (char_lower_safe ch Hch) as [Hne Hsafe].
      rewrite str_forallb_app, Hsafe. by destruct (_ && _), (char_lower ch). }
    destruct (Hf (i + 0)%nat) as [Hne Hsafe]. rewrite str_forallb_app, Hsafe, IH2. split; [|done].
    intros _. by destruct (f (i + 0)%nat ch). }
  destruct (Hall (chars s) 0%nat H) as [H1 H2]. split; [|exact H2]. apply H1.
  intros Hc. apply Hs. by rewrite <- (chars_concat s), Hc.
Qed.

Lemma sanitize_safe s f : sanitize_field_name s = Some f → safe_ident f.
Proof.
  unfold sanitize_field_name. case_bool_decide; [done|]. destruct (starts_with s "__"); [done|].
  destruct (forallb is_field_char (chars s)) eqn:E; [|done]. simpl. case_match; [done|].
  intros [= <-]. by apply to_snake_case_safe.
Qed.
Lemma field_of_safe s k f : field_of s k = inr f → safe_ident f.
Proof.
  unfold field_of. destruct (sanitize_field_name s) eqn:E; [|done]. intros [= <-]. by eapply sanitize_safe.
Qed.

(** ** Parsed filters *)
Context (column_types : gmap string string) (allowed : option (gset string)).

(** The text of a column a request may name: a safe name the list of allowed fields holds, where
    there is one, or the audit timestamp of that name. *)
Definition column_ok (f : string) : Prop :=
  ∃ name, safe_ident name ∧ is_allowed allowed name = true ∧ (f = name ∨ f = column_sql name).
Definition cast_ok (t : option string) : Prop :=
  t = None ∨ t = Some "timestamptz" ∨ ∃ f, t = column_types !! f.
(** A range given with one end only. *)
Definition one_sided (c : FilterCondition) : Prop :=
  operator c ∈ [Between; NotBetween] ∧ ∃ v, value c = Multiple [v].
Definition parsed_condition (c : FilterCondition) : Prop :=
  column_ok (field c) ∧ cast_ok (column_type c) ∧ (arity_ok c = true ∨ one_sided c).
Definition parsed_filter (q : QueryFilter) : Prop :=
  Forall parsed_condition (conditions q) ∧ Forall (λ s, column_ok (sort_field s)) (sorts q) ∧
  Forall column_ok (search_fields q) ∧ base_conditions q = [].
Definition parsed_state (st : Parsed) : Prop := parsed_filter st.1 ∧ Forall parsed_condition st.2.

Lemma column_ok_name f : safe_ident f → is_allowed allowed f = true → column_ok f.
Proof. intros ??. exists f. auto. Qed.
Lemma column_ok_sql f : safe_ident f → is_allowed allowed f = true → column_ok (column_sql f).
Proof. intros ??. exists f. auto. Qed.

Lemma arity_with_cast f c : arity_ok (with_cast column_types f c) = arity_ok c.
Proof. unfold with_cast. destruct (audit_metadata_sql_expr f), (column_types !! f); done. Qed.
Lemma with_cast_eqs f c :
  field (with_cast column_types f c) = field c ∧ operator (with_cast column_types f c) = operator c ∧
  value (with_cast column_types f c) = value c ∧
  (column_type c = None → cast_ok (column_type (with_cast column_types f c))).
Proof.
  unfold with_cast, cast_ok. destruct (audit_metadata_sql_expr f), (column_types !! f) eqn:E; simpl; eauto 10.
Qed.

Lemma add_condition_parsed q c : parsed_filter q → parsed_condition c → parsed_filter (add_condition q c).
Proof.
  intros (H1 & H2 & H3 & H4) Hc. repeat split; try done. simpl. apply Forall_app. by rewrite Forall_singleton.
Qed.
Lemma add_sort_parsed q f d : parsed_filter q → column_ok f → parsed_filter (add_sort q (mkSort f d)).
Proof.
  intros (H1 & H2 & H3 & H4) Hc. repeat split; try done. simpl. apply Forall_app. by rewrite Forall_singleton.
Qed.
Lemma set_search_fields_parsed q fs : parsed_filter q → Forall column_ok fs → parsed_filter (set_search_fields q fs).
Proof. by intros (H1 & H2 & H3 & H4) Hc. Qed.

Lemma bracket_condition_parsed op f v :
  safe_ident f → is_allowed allowed f = true → parsed_condition (bracket_condition column_types op f v).
Proof.
  intros Hf Ha. unfold bracket_condition.
  set (c := condition_new _ _ _). destruct (with_cast_eqs f c) as (H1 & H2 & H3 & H4).
  unfold parsed_condition, one_sided. rewrite arity_with_cast, H1, H2, H3.
  split; [by apply column_ok_sql|]. split; [by apply H4|].
  unfold c, value_from_string, arity_ok, get_params, placeholders_of. simpl.
  destruct (str_split_cons "," (filter_value column_types f v)) as (p & ps & Hsplit).
  destruct op; unfold is_list_operator; try (by left); simpl.
  - left. apply Nat.eqb_refl.
  - left. apply Nat.eqb_refl.
  - rewrite Hsplit. destruct ps as [|p' ps]; [right|by left]. split; [set_solver|by eexists].
  - rewrite Hsplit. destruct ps as [|p' ps]; [right|by left]. split; [set_solver|by eexists].
Qed.

Lemma equality_condition_parsed f v :
  safe_ident f → is_allowed allowed f = true → parsed_condition (equality_condition column_types f v).
Proof.
  intros Hf Ha. unfold equality_condition.
  set (c := condition_new _ _ _). destruct (with_cast_eqs f c) as (H1 & _ & _ & H4).
  unfold parsed_condition. rewrite arity_with_cast, H1.
  split; [by apply column_ok_sql|]. split; [by apply H4|]. left.
  unfold c, value_from_string, arity_ok, get_params, placeholders_of. by destruct (str_contains v ",").
Qed.

Lemma or_condition_parsed f v :
  safe_ident f → is_allowed allowed f = true → parsed_condition (or_condition column_types f v).
Proof.
  intros Hf Ha. unfold or_condition, parsed_condition, cast_ok, arity_ok.
  destruct (column_types !! f) as [t|] eqn:E; simpl.
  all: split; [by apply column_ok_name|]; split; [|by left].
  - right. right. exists f. done.
  - by left.
Qed.
End facts.
#[export] Hint Resolve column_ok_name column_ok_sql add_condition_parsed add_sort_parsed
  set_search_fields_parsed bracket_condition_parsed equality_condition_parsed or_condition_parsed
  field_of_safe : filters.

Section parsing.
Context {U : Unicode} {UL : UnicodeLaws U} (column_types : gmap string string) (allowed : option (gset string)).
Abbreviation ok := (parsed_filter column_types allowed).

Lemma set_search_parsed q s : ok q → ok (set_search q s).
Proof. done. Qed.
Lemma set_paging_parsed q l o p : ok q → ok (set_paging q l o p).
Proof. done. Qed.
Lemma set_cursors_parsed q a b e : ok q → ok (set_cursors q a b e).
Proof. done. Qed.

Lemma sort_list_parsed key parts q q' : ok q → sort_list allowed key parts q = inr q' → ok q'.
Proof.
  revert q. induction parts as [|part parts IH]; intros q Hq; simpl; [by intros [= <-]|].
  case_bool_decide; [by apply IH|]. destruct (field_of _ key) as [e|f] eqn:Hf; [done|].
  apply IH. destruct (is_allowed allowed f) eqn:Ha; eauto with filters.
Qed.
Lemma sort_one_parsed key v q q' : ok q → sort_one allowed key v q = inr q' → ok q'.
Proof.
  intros Hq. unfold sort_one. destruct (match split_once ":" v with Some _ => _ | None => _ end) as [bare suffix].
  case_bool_decide; [by intros [= <-]|]. destruct (field_of _ key) as [e|f] eqn:Hf; [done|].
  intros [= <-]. destruct (is_allowed allowed f) eqn:Ha; eauto with filters.
Qed.
Lemma search_columns_ok key parts fs : search_columns allowed key parts = inr fs → Forall (column_ok allowed) fs.
Proof.
  revert fs. induction parts as [|s parts IH]; intros fs; simpl; [intros [= <-]; constructor|].
  case_bool_decide; [apply IH|]. destruct (field_of _ key) as [e|f] eqn:Hf; [done|].
  destruct (search_columns allowed key parts) as [e|fs'] eqn:Hs; [done|]. intros [= <-].
  destruct (is_allowed allowed f) eqn:Ha; [constructor|]; eauto with filters.
Qed.
Lemma parse_paging_parsed lower key v q q' : ok q → parse_paging lower key v q = inr q' → ok q'.
Proof.
  intros Hq. unfold parse_paging. case_bool_decide; [by intros [= <-]|].
  destruct (count_of key v); [done|]. intros [= <-]. by repeat case_bool_decide.
Qed.

Lemma parse_plain_parsed key v q q' : ok q → parse_plain column_types allowed key v q = inr q' → ok q'.
Proof.
  intros Hq. unfold parse_plain. set (lower := to_ascii_lowercase key).
  case_bool_decide; [destruct (str_contains v ","); [by apply sort_list_parsed|by apply sort_one_parsed]|].
  case_bool_decide; [by intros [= <-]|].
  case_bool_decide.
  { destruct (search_columns _ _ _) as [e|fs] eqn:Hs; [done|]. intros [= <-].
    apply set_search_fields_parsed; [done|by eapply search_columns_ok]. }
  case_bool_decide; [by apply parse_paging_parsed|].
  do 4 (case_bool_decide; [by intros [= <-]|]).
  destruct (field_of key key) as [e|f] eqn:Hf; [done|]. intros [= <-].
  destruct (is_allowed allowed f) eqn:Ha; eauto with filters.
Qed.

Lemma parse_bracket_parsed key fld op v st st' :
  parsed_state column_types allowed st → parse_bracket column_types allowed key fld op v st = inr st' →
  parsed_state column_types allowed st'.
Proof.
  intros [Hq Hors]. unfold parse_bracket. destruct (field_of fld key) as [e|f] eqn:Hf; [done|].
  apply field_of_safe in Hf. destruct (is_allowed allowed f) eqn:Ha; simpl; [|by intros [= <-]].
  case_match.
  { unfold bracket_sort. destruct (field_of op key) as [e|g] eqn:Hg; [done|].
    destruct (is_allowed allowed g) eqn:Hga; simpl; [|by intros [= <-]].
    intros [= <-]. split; simpl; eauto with filters. }
  case_bool_decide; [intros [= <-]; split; simpl; eauto with filters|].
  case_bool_decide.
  { intros [= <-]. split; [done|]. simpl. apply Forall_app. rewrite Forall_singleton. eauto with filters. }
  destruct (operator_from_str op); [|done]. intros [= <-]. split; simpl; eauto with filters.
Qed.

Lemma parse_param_parsed kv st st' :
  parsed_state column_types allowed st → parse_param column_types allowed kv st = inr st' →
  parsed_state column_types allowed st'.
Proof.
  intros Hst. unfold parse_param. destruct kv as [key v].
  destruct (is_internal_key key); [by intros [= <-]|].
  destruct (find_char "[" key) as [[fld rest]|].
  - destruct (strip_last "]" key); [|done]. by apply parse_bracket_parsed.
  - destruct (parse_plain _ _ _ _ _) as [e|q] eqn:E; [done|]. intros [= <-].
    destruct Hst as [Hq Ho]. split; [by eapply parse_plain_parsed|done].
Qed.

Lemma parse_params_parsed params st st' :
  parsed_state column_types allowed st → parse_params column_types allowed params st = inr st' →
  parsed_state column_types allowed st'.
Proof.
  revert st. induction params as [|kv params IH]; intros st Hst; simpl; [by intros [= <-]|].
  destruct (parse_param _ _ kv st) as [e|st1] eqn:E; [done|]. apply IH. by eapply parse_param_parsed.
Qed.

Lemma parse_params_external params st :
  parse_params column_types allowed params st =
  parse_params column_types allowed (filter (λ kv, is_internal_key kv.1 = false) params) st.
Proof.
  revert st. induction params as [|[key v] params IH]; intros st; [done|]. rewrite filter_cons. cbn [fst].
  destruct (decide (is_internal_key key = false)) as [Hi|Hi].
  - cbn [parse_params]. destruct (parse_param _ _ (key, v) st); [done|]. apply IH.
  - apply not_false_iff_true in Hi. cbn [parse_params]. unfold parse_param at 1. rewrite Hi. apply IH.
Qed.

Lemma parse_filters_parsed params q :
  parse_filters params column_types allowed = inr q → ok q.
Proof.
  unfold parse_filters. destruct (parse_params _ _ _ _) as [e|[q0 ors]] eqn:E; [done|]. intros [= <-].
  apply parse_params_parsed in E as [Hq Hors]; [|repeat split; constructor]. simpl in *. clear params.
  revert q0 Hq. induction Hors as [|c ors Hc _ IH]; intros q0 Hq; [done|]. simpl. apply IH. eauto with filters.
Qed.

(** C19: whatever the parameters of a request, a filter parsed from them names nothing but columns:
    each field of a condition, a sort or a search is a name of lower-case letters, digits and
    underscores (or of characters beyond ASCII) that the list of allowed fields holds, where
    there is one, or the fixed expression reading the audit timestamp of such a name; a cast is
    one the caller of the parser gave; no raw condition comes from a request; and
    parameters of the reserved [__] names change nothing, neither the filter nor a refusal. *)
Theorem parse_filters_safe (params : list (string * string)) :
  parse_filters params column_types allowed =
    parse_filters (filter (λ kv, is_internal_key kv.1 = false) params) column_types allowed ∧
  ∀ q, parse_filters params column_types allowed = inr q →
    Forall (λ c, column_ok allowed (field c) ∧ cast_ok column_types (column_type c)) (conditions q) ∧
    Forall (λ s, column_ok allowed (sort_field s)) (sorts q) ∧
    Forall (column_ok allowed) (search_fields q) ∧ base_conditions q = [].
Proof.
  split.
  - unfold parse_filters. by rewrite parse_params_external.
  - intros q (H1 & H2 & H3 & H4)%parse_filters_parsed. split; [|done].
    eapply Forall_impl; [exact H1|]. by intros c (? & ? & _).
Qed.
End parsing.

(** ** The text a request turns into *)
Section clause.
Context {U : Unicode} {UL : UnicodeLaws U}.

Lemma column_sql_plain name :
  safe_ident name → no_dollar (column_sql name) = true ∧ balanced (column_sql name).
Proof.
  intros Hs. unfold column_sql, audit_metadata_sql_expr. case_bool_decide as H; simpl.
  - unfold AUDIT_METADATA_FIELDS in H.
    repeat (apply elem_of_cons in H as [->|H]; [split; [done|intros d; reflexivity]|]).
    by apply not_elem_of_nil in H.
  - split; [by apply safe_no_dollar|by apply no_parens_balanced, safe_no_parens].
Qed.
Lemma column_ok_plain allowed f : column_ok allowed f → no_dollar f = true ∧ balanced f.
Proof.
  intros (name & Hs & _ & [->| ->]); [|by apply column_sql_plain].
  split; [by apply safe_no_dollar|by apply no_parens_balanced, safe_no_parens].
Qed.

(** Casts as the entity and the catalog declare them: type names. *)
Definition casts_plain (column_types : gmap string string) : Prop :=
  map_Forall (λ _ t, no_dollar t = true ∧ balanced t) column_types.
Lemma cast_ok_plain column_types t :
  casts_plain column_types → cast_ok column_types t →
  match t with Some t => no_dollar t = true ∧ balanced t | None => True end.
Proof.
  intros Hct [->|[->|(f & ->)]]; [done|split; [done|by apply no_parens_balanced]|].
  destruct (column_types !! f) as [t|] eqn:E; [by apply (Hct f)|done].
Qed.
End clause.

(** ** What the parser makes of some requests *)

(** A range with one end keeps both placeholders and binds nothing to them. *)
Lemma one_sided_binds_nothing c :
  one_sided c → length (get_params c) = 0 ∧ placeholders_of c = 2.
Proof.
  intros [Hop [v Hv]]. unfold get_params, placeholders_of. rewrite Hv.
  repeat (apply elem_of_cons in Hop as [->|Hop]; [done|]). by apply not_elem_of_nil in Hop.
Qed.
Lemma one_sided_is_parsed :
  option_map fst (parsed_where [("age[between]", "18")]) = Some " WHERE age BETWEEN $1 AND $2" ∧
  option_map snd (parsed_where [("age[between]", "18")]) = Some [].
Proof. vm_compute. done. Qed.

(** A list for a plain equality is compared with its first element only. *)
Lemma equality_takes_the_first : parsed_where [("kind", "a,b")] = Some (" WHERE kind = $1", ["a"]).
Proof. vm_compute. done. Qed.

(** With a list of allowed fields the bracketed sort is dropped, unless the list holds [orderby]. *)
Lemma bracket_sort_dropped :
  map (λ allowed, match parse_filters (U:=ascii_unicode) [("orderby[name]", "desc")] ∅ (Some allowed) with
                  | inr q => build_order_by_clause q | inl _ => "refused" end)
    [{["name"]}; {["name"; "orderby"]}] = [""; " ORDER BY name DESC"].
Proof. vm_compute. done. Qed.
(** It names the audit timestamps as columns of their own, as an OR does. *)
Lemma bracket_sort_audit :
  map (λ kv, match parse_filters (U:=ascii_unicode) [kv] ∅ None with
             | inr q => ((build_where_clause q).1 +:+ build_order_by_clause q)%string | inl _ => "refused" end)
    [("orderby[created_at]", "desc"); ("orderby", "-created_at"); ("created_at[or]", "2026")] =
  [" ORDER BY created_at DESC"; " ORDER BY (metadata->>'created_at')::timestamptz DESC"; " WHERE created_at = $1"].
Proof. vm_compute. done. Qed.
