(* ===== verification/Cursor.v ===== *)
(** * Cursors

    [backbone-orm/src/filter/cursor.rs]: the opaque text of a position in a sorted list, and the
    predicate that continues a list from it. The JSON form of a cursor's payload is
    [serde_json]'s and a parameter; base64url is the code's own. *)
From Stdlib Require Import ZArith Lia Ascii.
From stdpp Require Import pretty.
From S2P Require Import Prelude RustStr RustChar Json Filter FilterFacts.

Local Open Scope Z_scope.

Definition CURSOR_VERSION : Z := 1.

Record CursorPayload := mkPayload {
  cp_v : Z;               (* u8 *)
  cp_f : list string;
  cp_d : list Z;          (* u8: 0 ascending, 1 descending *)
  cp_k : list string;
  cp_id : string;
}.

Inductive CursorError :=
  | Malformed (why : string)
  | Version (v : Z)
  | SortMismatch (expected : string)
  | Inconsistent (why : string).

(** [serde_json::to_vec] and [from_slice] of a payload, with the text of their errors. *)
Class CursorJson := {
  to_vec : CursorPayload → string + string;
  from_slice : string → string + CursorPayload;
}.

(** ** base64url *)
Definition B64_ALPHABET : string := "ABCDEFGHIJKLMNOPQRSTUVWXYZabcdefghijklmnopqrstuvwxyz0123456789-_".

(** [B64_ALPHABET[i & 63]] *)
Definition b64_char (i : Z) : ascii := default "A"%char (String.get (Z.to_nat (Z.land i 63)) B64_ALPHABET).
(** A chunk of one to three bytes, the missing ones 0. *)
Definition b64_word (b0 b1 b2 : Z) : Z := Z.lor (Z.lor (Z.shiftl b0 16) (Z.shiftl b1 8)) b2.

Fixpoint base64url_encode (bytes : string) : string :=
  match bytes with
  | EmptyString => ""
  | String a EmptyString =>
      let n := b64_word (byte_of a) 0 0 in
      String (b64_char (Z.shiftr n 18)) (String (b64_char (Z.shiftr n 12)) "")
  | String a (String b EmptyString) =>
      let n := b64_word (byte_of a) (byte_of b) 0 in
      String (b64_char (Z.shiftr n 18)) (String (b64_char (Z.shiftr n 12)) (String (b64_char (Z.shiftr n 6)) ""))
  | String a (String b (String c rest)) =>
      let n := b64_word (byte_of a) (byte_of b) (byte_of c) in
      String (b64_char (Z.shiftr n 18)) (String (b64_char (Z.shiftr n 12))
        (String (b64_char (Z.shiftr n 6)) (String (b64_char n) (base64url_encode rest))))
  end.

(** [B64_ALPHABET.iter().position(|&a| a as char == c)] *)
Fixpoint position_in (alphabet : string) (ch : string) (i : Z) : option Z :=
  match alphabet with
  | EmptyString => None
  | String a alphabet => if bool_decide (String a "" = ch) then Some i else position_in alphabet ch (i + 1)
  end.

Section codec.
Context {U : Unicode} {L : Libs} {CJ : CursorJson}.

(** The loop over the characters: [acc] is a [u32], the shift dropping its high bits. *)
Fixpoint b64_loop (cs : list string) (acc bits : Z) : string + string :=
  match cs with
  | [] => inr ""
  | ch :: cs =>
      match position_in B64_ALPHABET ch 0 with
      | None => inl ("character " +:+ char_debug ch +:+ " is not base64url")
      | Some v =>
          let acc := Z.lor (Z.land (Z.shiftl acc 6) 4294967295) v in
          let bits := bits + 6 in
          if 8 <=? bits then
            let bits := bits - 8 in
            match b64_loop cs acc bits with
            | inl e => inl e
            | inr out => inr (String (ascii_of_N (Z.to_N (Z.land (Z.shiftr acc bits) 255))) out)
            end
          else b64_loop cs acc bits
      end
  end.
Definition base64url_decode (text : string) : string + string := b64_loop (chars text) 0 0.

(** ** The codec *)
Abbreviation Sorts := (list (string * SortDirection)).

(** [value_as_text] *)
Definition value_as_text (v : Value) : string :=
  match v with VString s => s | other => value_to_string other end.
Definition direction_code (d : SortDirection) : Z := if bool_decide (d = Desc) then 1 else 0.

Definition encode_cursor (sorts : Sorts) (values : list Value) (id : string) : CursorError + string :=
  if negb (Nat.eqb (length sorts) (length values)) then
    inl (Inconsistent (pretty (length sorts) +:+ " sort columns but " +:+ pretty (length values) +:+ " boundary values"))
  else
    match to_vec (mkPayload CURSOR_VERSION (map fst sorts) (map (λ s, direction_code s.2) sorts)
                    (map value_as_text values) id) with
    | inl e => inl (Malformed ("cannot serialize: " +:+ e))
    | inr json => inr (base64url_encode json)
    end.

Definition decode_cursor (opaque : string) (sorts : Sorts) : CursorError + CursorPayload :=
  match base64url_decode opaque with
  | inl e => inl (Malformed ("cannot decode: " +:+ e))
  | inr bytes =>
      match from_slice bytes with
      | inl e => inl (Malformed ("cannot parse: " +:+ e))
      | inr p =>
          if negb (cp_v p =? CURSOR_VERSION) then inl (Version (cp_v p))
          else if negb (Nat.eqb (length (cp_f p)) (length (cp_d p))) ||
                  negb (Nat.eqb (length (cp_f p)) (length (cp_k p))) then
            inl (Inconsistent "field, direction and value arrays disagree in length")
          else if negb (bool_decide (cp_f p = map fst sorts)) then
            inl (SortMismatch (str_join ", " (map fst sorts)))
          else if negb (bool_decide (cp_d p = map (λ s, direction_code s.2) sorts)) then
            inl (SortMismatch (str_join ", " (map fst sorts)))
          else inr p
      end
  end.
End codec.

(** ** The keyset predicate *)
Section keyset.
Variables (p : CursorPayload) (casts : list (option string)) (backwards : bool).

Definition keyset_cast (i : nat) : string := cast_suffix_of (mjoin (casts !! i)).

(** [f = $n], for the [j]-th column, and the parameter; [None] where an index is out of range
    (a panic). *)
Definition eq_part (j idx : nat) : option (string * string) :=
  f ← cp_f p !! j; k ← cp_k p !! j;
  Some (f +:+ " = " +:+ placeholder idx +:+ keyset_cast j, k).
(** The comparison of the [i]-th column. *)
Definition strict_part (i idx : nat) : option (string * string) :=
  d ← cp_d p !! i; f ← cp_f p !! i; k ← cp_k p !! i;
  let strict := if negb (Bool.eqb (d =? 0) backwards) then ">" else "<" in
  Some (f +:+ " " +:+ strict +:+ " " +:+ placeholder idx +:+ keyset_cast i, k).
Definition tie_part (idx : nat) : string * string :=
  ("id " +:+ (if backwards then "<" else ">") +:+ " " +:+ placeholder idx +:+ "::uuid", cp_id p).

Definition eq_parts (n idx : nat) : option (list (string * string)) :=
  mapM (λ j, eq_part j (idx + j)) (seq 0 n).
Definition term_of (parts : list (string * string)) : string := "(" +:+ str_join " AND " (map fst parts) +:+ ")".

(** The term of column [i] (all before it equal) starts at parameter [idx]. *)
Fixpoint keyset_terms (cols : list nat) (idx : nat) : option (list (list (string * string)) * nat) :=
  match cols with
  | [] => Some ([], idx)
  | i :: cols =>
      eqs ← eq_parts i idx; last ← strict_part i (idx + i);
      '(terms, idx') ← keyset_terms cols (idx + i + 1);
      Some ((eqs ++ [last]) :: terms, idx')
  end.

(** [payload.f.last().map(|f| f != "id").unwrap_or(true)] *)
Definition needs_tie : bool := match last (cp_f p) with Some f => negb (bool_decide (f = "id")) | None => true end.

(** The terms with the parts of each, and the next parameter's number. *)
Definition keyset_parts (idx : nat) : option (list (list (string * string)) * nat) :=
  let n := length (cp_f p) in
  '(terms, idx) ← keyset_terms (seq 0 n) idx;
  if needs_tie then
    eqs ← eq_parts n idx;
    Some (terms ++ [eqs ++ [tie_part (idx + n)]], (idx + n + 1)%nat)
  else Some (terms, idx).

Definition build_keyset_predicate (idx : nat) : option (string * list string * nat) :=
  '(terms, idx) ← keyset_parts idx;
  Some (str_join " OR " (map term_of terms), map snd (concat terms), idx).
End keyset.

(** ** Examples, the crate's own *)
Example b64_ex : base64url_encode "hello" = "aGVsbG8".
Proof. vm_compute. reflexivity. Qed.
Example b64_dec_ex : base64url_decode (U:=ascii_unicode) "aGVsbG8" = inr "hello".
Proof. vm_compute. reflexivity. Qed.
Example b64_bad : base64url_decode (U:=ascii_unicode) "!!" = inl "character '!' is not base64url".
Proof. vm_compute. reflexivity. Qed.
Example keyset_ex :
  build_keyset_predicate (mkPayload 1 ["created_at"; "id"] [1; 0] ["2026-09-19T00:00:00Z"; "abc"] "d0d0")
    [Some "timestamptz"; None] false 3 =
  Some ("(created_at < $3::timestamptz) OR (created_at = $4::timestamptz AND id > $5)",
        ["2026-09-19T00:00:00Z"; "2026-09-19T00:00:00Z"; "abc"], 6%nat).
Proof. vm_compute. reflexivity. Qed.
Example keyset_back :
  (λ r, r.1.1) <$> build_keyset_predicate (mkPayload 1 ["seq"] [0] ["41"] "x") [Some "integer"] true 1 =
  Some "(seq < $1::integer) OR (seq = $2::integer AND id < $3::uuid)".
Proof. vm_compute. reflexivity. Qed.

(** A codec to run the definitions with: any injective coding of payloads does. *)
Module ConcreteJson.
Fixpoint pos_text (q : positive) : string :=
  match q with xH => "" | xO q => String "0" (pos_text q) | xI q => String "1" (pos_text q) end.
Fixpoint text_pos (s : string) : positive :=
  match s with
  | EmptyString => xH
  | String c s => if Ascii.eqb c "0" then xO (text_pos s) else xI (text_pos s)
  end.
Definition payload_tuple (p : CursorPayload) : Z * list string * list Z * list string * string :=
  (cp_v p, cp_f p, cp_d p, cp_k p, cp_id p).
Definition tuple_payload (t : Z * list string * list Z * list string * string) : CursorPayload :=
  let '(v, f, d, k, id) := t in mkPayload v f d k id.
#[export] Instance cursor_json : CursorJson := {|
  to_vec p := inr (pos_text (encode (payload_tuple p)));
  from_slice s := match decode (text_pos s) with Some t => inr (tuple_payload t) | None => inl "not a payload" end;
|}.
End ConcreteJson.

(** ** Facts

    A cursor is read back as it was written, for the sort it was written for and no other; the
    predicate it becomes selects what follows its position. *)

(** ** base64url *)
Lemma byte_of_range c : 0 ≤ byte_of c < 256.
Proof.
  unfold byte_of. pose proof (N_ascii_bounded c). lia.
Qed.
Lemma ascii_of_byte c : ascii_of_N (Z.to_N (byte_of c)) = c.
Proof. unfold byte_of. by rewrite N2Z.id, ascii_N_embedding. Qed.

Definition b64_index_ok (v : Z) : bool :=
  bool_decide (position_in B64_ALPHABET (String (b64_char v) "") 0 = Some v) && is_ascii (b64_char v).
Lemma b64_index v : 0 ≤ v < 64 → b64_index_ok v = true.
Proof.
  intros Hv. assert (forallb b64_index_ok (map Z.of_nat (seq 0 64)) = true) as H by (vm_compute; done).
  rewrite forallb_forall in H. apply H. apply in_map_iff. exists (Z.to_nat v).
  split; [lia|]. apply in_seq. lia.
Qed.
Lemma land63_range v : 0 ≤ Z.land v 63 < 64.
Proof. change 63 with (Z.ones 6). rewrite Z.land_ones by lia. apply Z.mod_pos_bound. lia. Qed.
Lemma b64_char_land v : b64_char v = b64_char (Z.land v 63).
Proof. unfold b64_char. by rewrite <- Z.land_assoc. Qed.
Lemma b64_char_spec v :
  position_in B64_ALPHABET (String (b64_char v) "") 0 = Some (Z.land v 63) ∧ is_ascii (b64_char v) = true.
Proof.
  rewrite b64_char_land. pose proof (b64_index _ (land63_range v)) as H.
  unfold b64_index_ok in H. by apply andb_true_iff in H as [H1%bool_decide_eq_true H2].
Qed.

Lemma encode_ascii s : str_forallb is_ascii (base64url_encode s) = true.
Proof.
  assert (∀ n s, (String.length s ≤ n)%nat → str_forallb is_ascii (base64url_encode s) = true) as H; [|by eapply H].
  clear s. induction n as [|n IH]; intros s Hn; [by destruct s; [|simpl in Hn; lia]|].
  destruct s as [|a [|b [|c s]]]; [done|..]; cbn [base64url_encode str_forallb];
    rewrite ?(proj2 (b64_char_spec _)); try done. cbn [andb]. apply IH. simpl in Hn. lia.
Qed.

(** Bits of a byte and of a chunk. *)
Lemma byte_testbit c i : 8 ≤ i → Z.testbit (byte_of c) i = false.
Proof.
  intros Hi. pose proof (byte_of_range c). destruct (decide (byte_of c = 0)) as [->|]; [apply Z.testbit_0_l|].
  apply Z.bits_above_log2; [lia|]. apply Z.log2_lt_pow2; [lia|].
  assert (2 ^ 8 ≤ 2 ^ i) by (apply Z.pow_le_mono_r; lia). change (2 ^ 8) with 256 in *. lia.
Qed.

(** One bit of a word put together with shifts, at a position that is a numeral. *)
Ltac bit_step :=
  match goal with
  | |- context [Z.testbit (Z.land _ _) _] => rewrite Z.land_spec
  | |- context [Z.testbit (Z.lor _ _) _] => rewrite Z.lor_spec
  | |- context [Z.testbit (Z.shiftr ?a ?m) ?j] =>
      rewrite (Z.shiftr_spec a m j) by lia; let k := eval vm_compute in (j + m) in change (j + m) with k
  | |- context [Z.testbit (Z.shiftl ?a ?m) ?j] =>
      rewrite (Z.shiftl_spec a m j) by lia; let k := eval vm_compute in (j - m) in change (j - m) with k
  | |- context [Z.testbit 0 ?j] => rewrite (Z.testbit_0_l j)
  | |- context [Z.testbit (Zpos ?p) ?j] => let b := eval vm_compute in (Z.testbit (Zpos p) j) in
      change (Z.testbit (Zpos p) j) with b
  | |- context [Z.testbit ?x (Zneg ?p)] => rewrite (Z.testbit_neg_r x (Zneg p)) by lia
  end.
Ltac bits_of_byte high :=
  let i := fresh "i" in let Hi := fresh "Hi" in
  apply Z.bits_inj'; intros i Hi;
  destruct (Z.lt_ge_cases i 8) as [Hlt|Hge];
  [ let H := fresh in
    assert (i = 0 ∨ i = 1 ∨ i = 2 ∨ i = 3 ∨ i = 4 ∨ i = 5 ∨ i = 6 ∨ i = 7) as H by lia;
    destruct H as [->|[->|[->|[->|[->|[->|[->| ->]]]]]]];
    repeat bit_step; 
    repeat match goal with
    | |- context [Z.testbit ?x (Zpos ?p)] => rewrite (high x (Zpos p)) by first [solve [auto]|lia]
    end;
    rewrite ?andb_false_r, ?andb_true_r, ?andb_false_l, ?orb_false_r, ?orb_false_l; try reflexivity
  | rewrite Z.land_spec; change 255 with (Z.ones 8);
    rewrite (Z.ones_spec_high 8 i), andb_false_r by lia; symmetry; apply high; [auto|lia] ].

Definition b64_push (acc v : Z) : Z := Z.lor (Z.land (Z.shiftl acc 6) 4294967295) (Z.land v 63).

Section chunk.
Variables (acc a b c : Z).
Hypothesis high : ∀ x j, (x = a ∨ x = b ∨ x = c) → 8 ≤ j → Z.testbit x j = false.
Let n := b64_word a b c.
Let acc1 := b64_push acc (Z.shiftr n 18).
Let acc2 := b64_push acc1 (Z.shiftr n 12).
Let acc3 := b64_push acc2 (Z.shiftr n 6).

Lemma push_first : Z.land (Z.shiftr acc2 4) 255 = a.
Proof.
  unfold acc2, acc1, n, b64_push, b64_word. bits_of_byte high.
Qed.
Lemma push_second : Z.land (Z.shiftr acc3 2) 255 = b.
Proof.
  unfold acc3, acc2, acc1, n, b64_push, b64_word. bits_of_byte high.
Qed.
Lemma push_third : Z.land (Z.shiftr (b64_push acc3 n) 0) 255 = c.
Proof.
  unfold acc3, acc2, acc1, n, b64_push, b64_word. bits_of_byte high.
Qed.
End chunk.

Lemma b64_loop_push ch cs acc bits `{!Unicode} v :
  position_in B64_ALPHABET ch 0 = Some (Z.land v 63) →
  b64_loop (ch :: cs) acc bits =
  if 8 <=? bits + 6 then
    match b64_loop cs (b64_push acc v) (bits - 2) with
    | inl e => inl e
    | inr out => inr (String (ascii_of_N (Z.to_N (Z.land (Z.shiftr (b64_push acc v) (bits - 2)) 255))) out)
    end
  else b64_loop cs (b64_push acc v) (bits + 6).
Proof. intros Hv. cbn [b64_loop]. rewrite Hv. by replace (bits + 6 - 8) with (bits - 2) by lia. Qed.

Lemma b64_loop_first `{!Unicode} v cs acc :
  b64_loop (String (b64_char v) "" :: cs) acc 0 = b64_loop cs (b64_push acc v) 6.
Proof. rewrite (b64_loop_push _ _ _ _ v (proj1 (b64_char_spec v))). done. Qed.
Lemma b64_loop_later `{!Unicode} v cs acc bits :
  bits = 6 ∨ bits = 4 ∨ bits = 2 →
  b64_loop (String (b64_char v) "" :: cs) acc bits =
  match b64_loop cs (b64_push acc v) (bits - 2) with
  | inl e => inl e
  | inr out => inr (String (ascii_of_N (Z.to_N (Z.land (Z.shiftr (b64_push acc v) (bits - 2)) 255))) out)
  end.
Proof.
  intros Hb. rewrite (b64_loop_push _ _ _ _ v (proj1 (b64_char_spec v))).
  by destruct Hb as [->|[->| ->]].
Qed.
Lemma chars_b64 v s :
  str_forallb is_ascii s = true → chars (String (b64_char v) s) = String (b64_char v) "" :: chars s.
Proof. apply chars_ascii_cons. Qed.

Lemma b64_loop_round_trip `{!Unicode} n s acc :
  (String.length s ≤ n)%nat → b64_loop (chars (base64url_encode s)) acc 0 = inr s.
Proof.
  revert s acc. induction n as [|n IH]; intros s acc Hn; [by destruct s; [|simpl in Hn; lia]|].
  assert (∀ x j, 8 ≤ j → Z.testbit (byte_of x) j = false) as Hb by (intros; by apply byte_testbit).
  assert (∀ j, 8 ≤ j → Z.testbit 0 j = false) as H0 by (intros; apply Z.testbit_0_l).
  destruct s as [|a [|b [|c s]]]; [done|..]; cbn [base64url_encode];
    rewrite !chars_b64
      by (cbn [str_forallb]; rewrite ?(proj2 (b64_char_spec _)), ?encode_ascii; done);
    rewrite b64_loop_first, b64_loop_later by auto; rewrite ?b64_loop_later by auto;
    cbn [b64_loop chars]; change (6 - 2 - 2 - 2) with 0; change (6 - 2 - 2) with 2; change (6 - 2) with 4.
  all: try (rewrite IH by (simpl in Hn; lia)).
  all: rewrite push_first by (intros x j [->|[->| ->]]; auto).
  all: rewrite ?push_second by (intros x j [->|[->| ->]]; auto).
  all: rewrite ?push_third by (intros x j [->|[->| ->]]; auto).
  all: by rewrite !ascii_of_byte.
Qed.
Lemma base64url_round_trip `{!Unicode} s : base64url_decode (base64url_encode s) = inr s.
Proof. by eapply b64_loop_round_trip. Qed.

(** ** The codec *)
Class CursorJsonLaws (CJ : CursorJson) : Prop := {
  to_vec_total : ∀ p, ∃ json, to_vec p = inr json;
  from_slice_to_vec : ∀ p json, to_vec p = inr json → from_slice json = inr p;
}.

Lemma text_pos_pos_text q : ConcreteJson.text_pos (ConcreteJson.pos_text q) = q.
Proof. induction q as [q IH|q IH|]; simpl; by rewrite ?IH. Qed.
#[export] Instance concrete_json_laws : CursorJsonLaws ConcreteJson.cursor_json.
Proof.
  split.
  - intros p. by eexists.
  - intros p json [= <-]. simpl. rewrite text_pos_pos_text, decode_encode. by destruct p.
Qed.

Lemma direction_code_inj d d' : direction_code d = direction_code d' → d = d'.
Proof. by destruct d, d'. Qed.
Lemma sorts_eq (s s' : list (string * SortDirection)) :
  map fst s = map fst s' → map (λ x, direction_code x.2) s = map (λ x, direction_code x.2) s' → s = s'.
Proof.
  revert s'. induction s as [|[f d] s IH]; intros [|[f' d'] s']; simpl; try done.
  intros [= -> H1] [= H2%direction_code_inj H3]. subst. f_equal. by apply IH.
Qed.

Section codec.
Context {U : Unicode} {L : Libs} {CJ : CursorJson} {CL : CursorJsonLaws CJ}.

Definition payload_of (sorts : list (string * SortDirection)) (values : list Value) (id : string) : CursorPayload :=
  mkPayload CURSOR_VERSION (map fst sorts) (map (λ s, direction_code s.2) sorts) (map value_as_text values) id.

Lemma encode_cursor_decodes sorts values id :
  length sorts = length values →
  ∃ t, encode_cursor sorts values id = inr t ∧ str_forallb is_ascii t = true ∧
    ∀ sorts', decode_cursor t sorts' =
      if decide (sorts' = sorts) then inr (payload_of sorts values id)
      else inl (SortMismatch (str_join ", " (map fst sorts'))).
Proof.
  intros Hlen. unfold encode_cursor. rewrite (proj2 (Nat.eqb_eq _ _) Hlen). simpl negb. cbn iota.
  fold (payload_of sorts values id). destruct (to_vec_total (payload_of sorts values id)) as [json Hj].
  rewrite Hj. eexists. split; [done|]. split; [apply encode_ascii|]. intros sorts'.
  unfold decode_cursor. rewrite base64url_round_trip, (from_slice_to_vec _ _ Hj).
  cbn [cp_v cp_f cp_d cp_k payload_of]. change (CURSOR_VERSION =? CURSOR_VERSION) with true. cbn [negb].
  rewrite !length_map, Hlen, !Nat.eqb_refl. cbn [negb orb].
  destruct (decide (sorts' = sorts)) as [->|Hne]; [by rewrite !bool_decide_true|].
  case_bool_decide as H1; cbn [negb]; [|done]. case_bool_decide as H2; cbn [negb]; [|done].
  exfalso. apply Hne. symmetry. by apply sorts_eq.
Qed.
Lemma encode_cursor_inconsistent sorts values id :
  length sorts ≠ length values → ∃ why, encode_cursor sorts values id = inl (Inconsistent why).
Proof.
  intros Hlen%Nat.eqb_neq. unfold encode_cursor. rewrite Hlen. by eexists.
Qed.
End codec.
