(* ===== verification/Keyset.v ===== *)
(** * What a keyset predicate selects

    The meaning of the comparisons a list query is made of, over rows whose columns hold
    values or nothing, and the text of the predicate of [cursor.rs] as the text of such
    comparisons. The order of values and the reading of a text under a cast are the database's. *)
From Stdlib Require Import ZArith Lia Ascii.
From stdpp Require Import pretty.
From S2P Require Import Prelude RustStr RustChar Json Filter Cursor.

(** ** Comparisons *)
Inductive cmp_op := CEq | CLt | CGt.
(** A comparison of a column with a text, bound as a parameter and cast. *)
Record atom := mkAtom { a_col : string; a_op : cmp_op; a_cast : option string; a_text : string }.
(** A disjunction of conjunctions. *)
Abbreviation dnf := (list (list atom)).

Definition op_sql (op : cmp_op) : string := match op with CEq => "=" | CLt => "<" | CGt => ">" end.
Definition atom_sql (a : atom) (idx : nat) : string :=
  a_col a +:+ " " +:+ op_sql (a_op a) +:+ " " +:+ placeholder idx +:+ cast_suffix_of (a_cast a).
Definition term_sql (t : list atom) (idx : nat) : string :=
  "(" +:+ str_join " AND " (imap (λ j a, atom_sql a (idx + j)) t) +:+ ")".
Fixpoint terms_sql (d : dnf) (idx : nat) : list string :=
  match d with [] => [] | t :: d => term_sql t idx :: terms_sql d (idx + length t) end.
(** The text, the parameters numbered from [idx], in order. *)
Definition dnf_sql (d : dnf) (idx : nat) : string := str_join " OR " (terms_sql d idx).
Definition dnf_params (d : dnf) : list string := map a_text (concat d).

(** A database's values: their order, and the reading of a text bound to a column's comparison. *)
Class Values (Row Val : Type) := {
  cell : Row → string → option Val;                         (* [None] is NULL *)
  val_cmp : Val → Val → comparison;
  read_as : string → option string → string → option Val;   (* column, cast, text *)
}.
Class ValuesLaws {Row Val} (V : Values Row Val) : Prop := {
  val_cmp_eq : ∀ x y, val_cmp x y = Eq ↔ x = y;
  val_cmp_antisym : ∀ x y, val_cmp y x = CompOpp (val_cmp x y);
  val_cmp_trans : ∀ x y z, val_cmp x y = Lt → val_cmp y z = Lt → val_cmp x z = Lt;
}.

Section meaning.
Context {Row Val : Type} {V : Values Row Val}.

Definition op_holds (op : cmp_op) (c : comparison) : bool :=
  match op, c with CEq, Eq | CLt, Lt | CGt, Gt => true | _, _ => false end.
(** Whether the comparison is true of the row; with a NULL it is unknown, which is not true. *)
Definition eval_atom (row : Row) (a : atom) : bool :=
  match cell row (a_col a), read_as (a_col a) (a_cast a) (a_text a) with
  | Some x, Some y => op_holds (a_op a) (val_cmp x y)
  | _, _ => false
  end.
Definition eval_dnf (row : Row) (d : dnf) : bool := existsb (forallb (eval_atom row)) d.
End meaning.

(** ** The predicate of a payload *)
Section payload.
Variables (p : CursorPayload) (casts : list (option string)) (backwards : bool).

Definition col_of (i : nat) : string := default "" (cp_f p !! i).
Definition text_of (i : nat) : string := default "" (cp_k p !! i).
Definition cast_of (i : nat) : option string := mjoin (casts !! i).
(** Whether what follows in column [i] is what is greater. *)
Definition ascending (i : nat) : bool := negb (Bool.eqb (default 0 (cp_d p !! i) =? 0)%Z backwards).
Definition eq_atom (i : nat) : atom := mkAtom (col_of i) CEq (cast_of i) (text_of i).
Definition strict_atom (i : nat) : atom :=
  mkAtom (col_of i) (if ascending i then CGt else CLt) (cast_of i) (text_of i).
Definition tie_atom : atom := mkAtom "id" (if backwards then CLt else CGt) (Some "uuid") (cp_id p).

Definition keyset_dnf : dnf :=
  let n := length (cp_f p) in
  map (λ i, map eq_atom (seq 0 i) ++ [strict_atom i]) (seq 0 n) ++
  (if needs_tie p then [map eq_atom (seq 0 n) ++ [tie_atom]] else []).

(** The parts the code writes are these atoms, numbered. *)
Hypothesis lengths : length (cp_f p) = length (cp_d p) ∧ length (cp_f p) = length (cp_k p).

Lemma lookup_default {A} (l : list A) (d : A) i : (i < length l)%nat → l !! i = Some (default d (l !! i)).
Proof. intros [x Hx]%lookup_lt_is_Some. by rewrite Hx. Qed.

Definition part_of (a : atom) (idx : nat) : string * string := (atom_sql a idx, a_text a).
Lemma eq_part_spec j idx : (j < length (cp_f p))%nat → eq_part p casts j idx = Some (part_of (eq_atom j) idx).
Proof.
  intros Hj. unfold eq_part. rewrite (lookup_default (cp_f p) "" j) by lia.
  rewrite (lookup_default (cp_k p) "" j) by lia. simpl. done.
Qed.
Lemma strict_part_spec i idx :
  (i < length (cp_f p))%nat → strict_part p casts backwards i idx = Some (part_of (strict_atom i) idx).
Proof.
  intros Hi. unfold strict_part, part_of, atom_sql, strict_atom, ascending.
  rewrite (lookup_default (cp_f p) "" i), (lookup_default (cp_k p) "" i), (lookup_default (cp_d p) 0%Z i) by lia.
  simpl. by destruct (negb _).
Qed.

Definition numbered (t : list atom) (idx : nat) : list (string * string) := imap (λ j a, part_of a (idx + j)) t.
Lemma eq_parts_spec n idx :
  (n ≤ length (cp_f p))%nat → eq_parts p casts n idx = Some (numbered (map eq_atom (seq 0 n)) idx).
Proof.
  intros Hn. unfold eq_parts, numbered.
  assert (∀ k i, (i + k ≤ length (cp_f p))%nat →
    mapM (λ j, eq_part p casts j (idx + j)) (seq i k) =
    Some (imap (λ j a, part_of a (idx + (i + j))) (map eq_atom (seq i k)))) as H; [|apply (H n 0%nat); lia].
  induction k as [|k IH]; intros i Hi; [done|]. cbn [seq mapM map imap].
  rewrite eq_part_spec by lia. simpl. rewrite IH by lia. simpl. rewrite Nat.add_0_r. do 2 f_equal.
  apply imap_ext. intros j a _. unfold compose. f_equal. lia.
Qed.
Lemma numbered_snoc t a idx : numbered (t ++ [a]) idx = numbered t idx ++ [part_of a (idx + length t)].
Proof. unfold numbered. rewrite imap_app. simpl. by rewrite Nat.add_0_r. Qed.

Fixpoint number (d : dnf) (idx : nat) : list (list (string * string)) :=
  match d with [] => [] | t :: d => numbered t idx :: number d (idx + length t) end.
Lemma number_app d d' idx : number (d ++ d') idx = number d idx ++ number d' (idx + length (concat d)).
Proof.
  revert idx. induction d as [|t d IH]; intros idx; simpl; [by rewrite Nat.add_0_r|].
  by rewrite IH, length_app, Nat.add_assoc.
Qed.

Lemma keyset_terms_spec k i idx :
  (i + k ≤ length (cp_f p))%nat →
  let d := map (λ i, map eq_atom (seq 0 i) ++ [strict_atom i]) (seq i k) in
  keyset_terms p casts backwards (seq i k) idx = Some (number d idx, (idx + length (concat d))%nat).
Proof.
  revert i idx. induction k as [|k IH]; intros i idx Hi; [simpl; by rewrite Nat.add_0_r|].
  cbn [seq keyset_terms map]. rewrite eq_parts_spec, strict_part_spec by lia. cbn [mbind option_bind].
  rewrite IH by lia. cbn [mbind option_bind number concat].
  rewrite numbered_snoc, !length_app, !length_map, length_seq. simpl.
  replace (idx + (i + 1))%nat with (idx + i + 1)%nat by lia. f_equal. f_equal. lia.
Qed.

Lemma keyset_parts_spec idx :
  keyset_parts p casts backwards idx = Some (number keyset_dnf idx, (idx + length (concat keyset_dnf))%nat).
Proof.
  unfold keyset_parts, keyset_dnf. rewrite keyset_terms_spec by lia. cbn [mbind option_bind].
  set (d := map _ (seq 0 (length (cp_f p)))).
  destruct (needs_tie p); [|by rewrite app_nil_r].
  rewrite eq_parts_spec by lia. cbn [mbind option_bind].
  rewrite number_app, concat_app, !length_app. cbn [number concat].
  rewrite numbered_snoc, app_nil_r, length_app, length_map, length_seq. simpl.
  assert (part_of tie_atom (idx + length (concat d) + length (cp_f p)) =
    tie_part p backwards (idx + length (concat d) + length (cp_f p))) as ->
    by (unfold part_of, atom_sql, tie_part; simpl; by destruct backwards).
  do 2 f_equal. lia.
Qed.

Lemma term_of_numbered t idx : term_of (numbered t idx) = term_sql t idx.
Proof.
  unfold term_of, term_sql, numbered. do 3 f_equal.
  change (map fst (imap ?f t)) with (fst <$> imap f t). rewrite fmap_imap. done.
Qed.
Lemma number_texts d idx : map term_of (number d idx) = terms_sql d idx.
Proof. revert idx. induction d as [|t d IH]; intros idx; simpl; [done|]. by rewrite term_of_numbered, IH. Qed.
Lemma number_params d idx : map snd (concat (number d idx)) = dnf_params d.
Proof.
  unfold dnf_params. revert idx. induction d as [|t d IH]; intros idx; simpl; [done|].
  rewrite !map_app, IH. f_equal. unfold numbered.
  change (map snd (imap ?f t)) with (snd <$> imap f t). rewrite fmap_imap. simpl.
  clear. induction t as [|a t IH]; [done|]. simpl. by f_equal.
Qed.

Lemma build_keyset_predicate_spec idx :
  build_keyset_predicate p casts backwards idx =
  Some (dnf_sql keyset_dnf idx, dnf_params keyset_dnf, (idx + length (dnf_params keyset_dnf))%nat).
Proof.
  unfold build_keyset_predicate. rewrite keyset_parts_spec. cbn [mbind option_bind].
  rewrite number_texts, number_params. unfold dnf_params at 3. by rewrite length_map.
Qed.

(** ** What follows a position *)
Section rows.
Context {Row Val : Type} {V : Values Row Val}.

(** Column by column: the first that differs decides, [tie] where none does; a NULL, or a text that
    is no value of the column, decides that the row does not follow. *)
Fixpoint beyond (l : list (bool * option Val * option Val)) (tie : bool) : bool :=
  match l with
  | [] => tie
  | (asc, Some x, Some y) :: l =>
      match val_cmp x y with Gt => asc | Lt => negb asc | Eq => beyond l tie end
  | _ :: _ => false
  end.
Definition entry (row : Row) (i : nat) : bool * option Val * option Val :=
  (ascending i, cell row (col_of i), read_as (col_of i) (cast_of i) (text_of i)).
Definition follows (row : Row) : bool :=
  beyond (map (entry row) (seq 0 (length (cp_f p)))) (needs_tie p && eval_atom row tie_atom).

Lemma eval_strict_eq row i l tie :
  beyond (entry row i :: l) tie =
  eval_atom row (strict_atom i) || (eval_atom row (eq_atom i) && beyond l tie).
Proof.
  unfold entry, eval_atom, strict_atom, eq_atom. simpl.
  destruct (cell row (col_of i)) as [x|], (read_as (col_of i) (cast_of i) (text_of i)) as [y|]; try done.
  by destruct (val_cmp x y), (ascending i).
Qed.

Definition eqs_hold (row : Row) (i : nat) : bool := forallb (eval_atom row) (map eq_atom (seq 0 i)).
Lemma eqs_hold_S row i : eqs_hold row (S i) = eqs_hold row i && eval_atom row (eq_atom i).
Proof. unfold eqs_hold. rewrite seq_S, map_app, forallb_app. simpl. by rewrite andb_true_r. Qed.

Lemma eval_terms row tie k i :
  existsb (forallb (eval_atom row)) (map (λ i, map eq_atom (seq 0 i) ++ [strict_atom i]) (seq i k)) ||
    (eqs_hold row (i + k) && tie) =
  eqs_hold row i && beyond (map (entry row) (seq i k)) tie.
Proof.
  revert i. induction k as [|k IH]; intros i; [simpl; by rewrite Nat.add_0_r|].
  cbn [seq map existsb]. rewrite eval_strict_eq, forallb_app. cbn [forallb]. fold (eqs_hold row i).
  replace (i + S k)%nat with (S i + k)%nat by lia. rewrite <- orb_assoc, IH, eqs_hold_S, andb_true_r.
  by destruct (eqs_hold row i), (eval_atom row (strict_atom i)), (eval_atom row (eq_atom i)).
Qed.

(** The predicate is true of exactly the rows that follow the position. *)
Lemma eval_keyset_dnf row : eval_dnf row keyset_dnf = follows row.
Proof.
  unfold eval_dnf, keyset_dnf, follows. rewrite existsb_app.
  pose proof (eval_terms row (needs_tie p && eval_atom row tie_atom) (length (cp_f p)) 0) as H.
  simpl in H. rewrite <- H. f_equal. destruct (needs_tie p); simpl; [|by rewrite andb_false_r].
  rewrite forallb_app, orb_false_r. simpl. by rewrite andb_true_r.
Qed.
End rows.
End payload.
