(* ===== verification/ListQuery.v ===== *)
(** * Listing a table

    The list path of [backbone-orm/src/repository.rs]: pages and their order, the casts of a
    filter's columns, the statement of one page in page mode and on a cursor's walk, and
    the cursors a page hands out. The database behind it, the reading of a row's columns and the
    entity's decoding are the parameter [ListDb]; it answers from one snapshot. *)
From Stdlib Require Import ZArith Lia Ascii.
From stdpp Require Import pretty.
From S2P Require Import Prelude Float64 RustStr RustChar Json Filter FilterParser Cursor.

Local Open Scope Z_scope.

(** ** Pages *)
Record PaginationParams := mkPage { pg_page : Z; pg_per_page : Z }. (* u32, u32 *)
Definition MAX_PER_PAGE : Z := 100.
Definition pagination_new (page per_page : Z) : PaginationParams :=
  mkPage (Z.max page 1) (Z.min (Z.max per_page 1) MAX_PER_PAGE).
Definition u32_saturating_mul (a b : Z) : Z := Z.min u32_max (a * b).
Definition pagination_offset (p : PaginationParams) : Z := u32_saturating_mul (Z.max 0 (pg_page p - 1)) (pg_per_page p).
Definition pagination_limit (p : PaginationParams) : Z := pg_per_page p.

Record PaginationInfo := mkInfo {
  pi_page : Z; pi_per_page : Z;
  total : Z;               (* u64 *)
  total_pages : Z;         (* u32 *)
  next_cursor : option string;
  prev_cursor : option string;
  has_more : option bool;
  count_mode : string;
}.
Definition pagination_info_new (page per_page total : Z) : PaginationInfo :=
  mkInfo page per_page total (f64_to_u32 (f64_ceil (f64_div (f64_of_Z total) (f64_of_Z per_page))))
    None None None "exact".
Record PaginatedResult (T : Type) := mkResult { data : list T; pagination : PaginationInfo }.
Arguments mkResult {_} _ _.
Arguments data {_} _.
Arguments pagination {_} _.
Definition EXACT_COUNT_BELOW : Z := 10000.

(** ** The order *)
Definition KEY_COLUMN : string := "id".
Definition total_order (sorts : list (string * SortDirection)) : list (string * SortDirection) :=
  if existsb (λ s, bool_decide (s.1 = KEY_COLUMN)) sorts then sorts else sorts ++ [(KEY_COLUMN, Asc)].
Definition order_by_sql (sorts : list (string * SortDirection)) (backwards : bool) : string :=
  " ORDER BY " +:+ str_join ", "
    (map (λ s, s.1 +:+ " " +:+ if negb (Bool.eqb (bool_decide (s.2 = Desc)) backwards) then "DESC" else "ASC") sorts).

Definition and_keyset_predicate (where_clause keyset_sql : string) : string :=
  match strip_prefix_str "WHERE " (trim_start where_clause) with
  | None => " WHERE " +:+ keyset_sql
  | Some existing => " WHERE (" +:+ existing +:+ ") AND (" +:+ keyset_sql +:+ ")"
  end.

(** ** Casts *)
Definition cast_suffix (data_type udt_name udt_schema : string) : option string :=
  if bool_decide (data_type ∈ ["uuid"; "numeric"; "integer"; "smallint"; "bigint"; "boolean"; "date"])
  then Some data_type
  else if bool_decide (data_type = "timestamp with time zone") then Some "timestamptz"
  else if bool_decide (data_type = "timestamp without time zone") then Some "timestamp"
  else if bool_decide (data_type = "USER-DEFINED") && negb (bool_decide (udt_name = "")) then
    Some (if bool_decide (udt_schema ∈ [""; "public"; "pg_catalog"]) then udt_name
          else udt_schema +:+ "." +:+ udt_name)
  else None.

Definition filter_cast_for (type_name typtype : string) : option string :=
  if bool_decide (typtype = "e") then Some type_name
  else if bool_decide (typtype = "b") then
    if bool_decide (type_name ∈ ["uuid"; "boolean"; "smallint"; "integer"; "bigint"; "numeric"; "real";
                                 "double precision"; "date"; "interval"; "inet"; "cidr"; "macaddr"])
    then Some type_name
    else assoc type_name [("time without time zone", "time"); ("time with time zone", "timetz");
                          ("timestamp with time zone", "timestamptz"); ("timestamp without time zone", "timestamp")]
  else None.

Definition qualified_same_type (catalog : gmap string string) (column cast : string) : bool :=
  match catalog !! column ≫= rsplit_once "." with
  | Some (_, name) => bool_decide (trim_matches (ascii_of_N 34) name = cast)
  | None => false
  end.
(** Each hint decides its own column, whatever order the hints come in. *)
Definition merge_filter_casts (hints catalog : gmap string string) : gmap string string :=
  foldl (λ catalog hint,
      if qualified_same_type catalog hint.1 hint.2 then catalog else <[hint.1 := hint.2]> catalog)
    catalog (map_to_list hints).

(** ** The database *)
Inductive ListError := Refused (e : QueryParamError) | DbFailed (message : string) | DecodeFailed (message : string).
Abbreviation M := (res ListError).

Class ListDb (Row T : Type) {L : Libs} := {
  db_columns : string → string → string → M (option (string * string * string)); (* schema, table, column *)
  db_catalog : string → M (list (string * string * string));
  db_count : string → list string → M Z;
  db_explain : string → list string → M Value;
  db_fetch : string → list string → M (list Row);
  row_id : Row → option uuid;                           (* [row.try_get("id").ok()] *)
  col_text : Row → string → string → option (option string);
    (* a column decoded as a type and written as text; [None] where the decode fails *)
  from_row : Row → string + T;
}.

Section repository.
Context {U : Unicode} {L : Libs} {CJ : CursorJson} {Row T : Type} {DB : ListDb Row T}.
Variable table_name : string.

Definition schema_and_table : string * string :=
  match rsplit_once "." table_name with Some st => st | None => ("public", table_name) end.

Definition sort_column_casts (sorts : list (string * SortDirection)) : M (list (option string)) :=
  mapM (λ s, row ← db_columns schema_and_table.1 schema_and_table.2 s.1;
             mret (match row with Some (dt, udt, sch) => cast_suffix dt udt sch | None => None end)) sorts.

Definition catalog_filter_casts : M (gmap string string) :=
  rows ← db_catalog table_name;
  mret (foldl (λ m r, let '(column, type_name, typtype) := r in
                      match filter_cast_for type_name typtype with Some c => <[column := c]> m | None => m end)
          ∅ rows).

Definition parse_typed_filters (filters : list (string * string)) (column_types : gmap string string)
    (allowed : option (gset string)) : M QueryFilter :=
  let parse types := res_of_sum (match parse_filters filters types allowed with
                                 | inl e => inl (Refused e) | inr q => inr q end) in
  q ← parse column_types;
  if negb (needs_catalog_types q) then mret q
  else
    catalog ← catalog_filter_casts;
    parse (merge_filter_casts column_types catalog).

(** [row_cursor]: [None] where a value is NULL or cannot be read. *)
Definition cursor_type (casts : list (option string)) (i : nat) (f : string) : string :=
  let dt := default "" (mjoin (casts !! i)) in
  if bool_decide (f = "id") && bool_decide (dt = "") then "uuid" else dt.
Definition row_cursor (row : Row) (sorts : list (string * SortDirection)) (casts : list (option string)) :
    option string :=
  id ← row_id row;
  texts ← mapM (λ x, mjoin (col_text row x.2 (cursor_type casts x.1 x.2))) (imap (λ i s, (i, s.1)) sorts);
  match encode_cursor sorts (map VString texts) (uuid_to_string id) with inr c => Some c | inl _ => None end.

Definition count_filtered_rows (where_clause : string) (params : list string) : M Z :=
  db_count ("SELECT COUNT(*) FROM " +:+ table_name +:+ where_clause) params.
Definition estimate_filtered_rows (where_clause : string) (params : list string) : M Z :=
  plan ← db_explain ("EXPLAIN (FORMAT JSON) SELECT 1 FROM " +:+ table_name +:+ where_clause) params;
  let rows :=
    top ← match plan with VArray l => head l | _ => None end;
    p ← value_get "Plan" top; r ← value_get "Plan Rows" p;
    match r with VNumber n => as_i64 n | _ => None end in
  mret (Z.max (default 0 rows) 0).

(** ** [execute_list] *)

(** The refusal of a cursor. *)
Definition cursor_refusal (backwards : bool) (e : CursorError) : ListError :=
  let parameter := if backwards then "before" else "after" in
  let why := match e with
             | SortMismatch _ => "it was issued for a different sort order"
             | Version _ => "it was issued by an older version"
             | _ => "it is not a position this list issued"
             end in
  Refused (mkParamError parameter InvalidCursor ("`" +:+ parameter +:+ "` cannot continue this list: " +:+ why)).

Definition is_backwards (q : QueryFilter) : bool :=
  bool_decide (is_Some (cursor_before q)) && negb (bool_decide (is_Some (cursor_after q))).
Definition is_cursor_walk (q : QueryFilter) : bool := bool_decide (is_Some (cursor_after q)) || is_backwards q.
Definition list_sorts (q : QueryFilter) : list (string * SortDirection) :=
  total_order (map (λ s, (sort_field s, sort_direction s)) (sorts q)).

(** The WHERE clause of a page, its parameters and its ORDER BY. *)
Definition page_clauses (q : QueryFilter) (casts : list (option string)) : M (string * list string * string) :=
  let '(where_clause, params) := build_where_clause q in
  let sorts := list_sorts q in
  let backwards := is_backwards q in
  if is_cursor_walk q then
    opaque ← or_panic (if backwards then cursor_before q else cursor_after q);
    payload ← res_map_err (cursor_refusal backwards) (res_of_sum (decode_cursor opaque sorts));
    '(keyset_sql, keyset_params, _) ← or_panic (build_keyset_predicate payload casts backwards (length params + 1));
    mret (and_keyset_predicate where_clause keyset_sql, params ++ keyset_params, order_by_sql sorts backwards)
  else mret (where_clause, params, order_by_sql sorts false).

Definition list_total (q : QueryFilter) (where_clause : string) (params : list string) : M (Z * string) :=
  if estimate_total q then
    estimate ← estimate_filtered_rows where_clause params;
    if estimate <=? EXACT_COUNT_BELOW then
      n ← count_filtered_rows where_clause params; mret (n, "exact")
    else mret (estimate, "estimate")
  else if is_cursor_walk q then mret (0, "none")
  else n ← count_filtered_rows where_clause params; mret (n, "exact").

Definition page_statement (q : QueryFilter) (pg : PaginationParams) (where_clause order_clause : string) : string :=
  let fetch := pretty (pagination_limit pg + 1) in
  "SELECT * FROM " +:+ table_name +:+ where_clause +:+ order_clause +:+ " LIMIT " +:+ fetch +:+
  (if is_cursor_walk q then "" else " OFFSET " +:+ pretty (pagination_offset pg)).

Definition decode_page (page : list Row) : M (list T) :=
  mapM (λ row, match from_row row with inr t => Ok t | inl e => Err (DecodeFailed ("decode row: " +:+ e)) end) page.

Definition execute_list (pg : PaginationParams) (q : QueryFilter) : M (PaginatedResult T) :=
  let sorts := list_sorts q in
  let backwards := is_backwards q in
  casts ← (if is_cursor_walk q || existsb (λ s, negb (bool_decide (s.1 = "id"))) sorts
           then sort_column_casts sorts else mret []);
  '(where_clause, params, order_clause) ← page_clauses q casts;
  '(total, mode) ← list_total q where_clause params;
  rows ← db_fetch (page_statement q pg where_clause order_clause) params;
  let more := pagination_limit pg <? Z.of_nat (length rows) in
  let page := take (Z.to_nat (pagination_limit pg)) rows in
  let page := if backwards then reverse page else page in
  items ← decode_page page;
  let cursor_of (r : option Row) := r ≫= λ r, row_cursor r sorts casts in
  let next := if more || backwards then cursor_of (last page) else None in
  let prev := cursor_of (head page) in
  let info := pagination_info_new (pg_page pg) (pg_per_page pg) total in
  mret (mkResult items
    (mkInfo (pi_page info) (pi_per_page info) total (total_pages info) next prev (Some more) mode)).

(** The part of [list_with_filters_and_base] before a refusal is matched to a parameter. *)
Definition list_filter (base : option string) (search_fields : list string) (q : QueryFilter) : QueryFilter :=
  let q := match base with Some b => add_base_condition q b | None => q end in
  match search_fields with [] => q | fs => set_search_fields q fs end.
Definition list_with_filters_and_base (pg : PaginationParams) (base : option string)
    (filters : list (string * string)) (column_types : gmap string string) (search_fields : list string) :
    M (PaginatedResult T) :=
  q ← parse_typed_filters filters column_types None;
  execute_list pg (list_filter base search_fields q).
Definition list_with_filters_whitelisted (pg : PaginationParams) (filters : list (string * string))
    (column_types : gmap string string) (search_fields : list string) (allowed : option (gset string)) :
    M (PaginatedResult T) :=
  q ← parse_typed_filters filters column_types allowed;
  execute_list pg (list_filter None search_fields q).
End repository.

Example pages_ex : total_pages (pagination_info_new 1 20 101) = 6.
Proof. vm_compute. reflexivity. Qed.
Example page_zero : pagination_offset (mkPage 0 20) = 0 ∧ pagination_offset (pagination_new 3 500) = 200.
Proof. vm_compute. done. Qed.
