(* ===== verification/ListFacts.v ===== *)
(** * Listing a table: facts

    The text of a request's query; cursors; and that a client who follows the cursors of a list is
    handed every row once, in order. *)
From Stdlib Require Import ZArith Lia Ascii.
From stdpp Require Import pretty.
From S2P Require Import Prelude Float64 RustStr RustChar Json Filter FilterParser FilterFacts FilterParserFacts Cursor Keyset ListQuery.

Local Open Scope Z_scope.

(** ** The WHERE clause of a request *)
Section clause.
Context {U : Unicode} {UL : UnicodeLaws U}.

(** Text the application writes: without placeholders, its parentheses matched. *)
Definition code_text (s : string) : Prop := no_dollar s = true ∧ balanced s.

(** The groups of a clause, each closed off from the others where there are several. *)
Definition conjunction (groups : list string) : string :=
  match groups with
  | [] => ""
  | [g] => " WHERE " +:+ g
  | gs => " WHERE (" +:+ str_join ") AND (" gs +:+ ")"
  end.
Lemma str_join_parens l :
  l ≠ [] → str_join " AND " (map (λ g, "(" +:+ g +:+ ")") l) = "(" +:+ str_join ") AND (" l +:+ ")".
Proof.
  induction l as [|a [|b l] IH]; [done|done|]. intros _. specialize (IH ltac:(done)). simpl in *.
  rewrite IH. rewrite ?str_app_assoc. simpl. done.
Qed.
Lemma where_text_conjunction groups : where_text groups = conjunction groups.
Proof.
  destruct groups as [|a [|b l]]; [done|done|]. unfold where_text, conjunction.
  rewrite str_join_parens by done. done.
Qed.

Lemma list_filter_parts base search_fields q :
  conditions (list_filter base search_fields q) = conditions q ∧
  base_conditions (list_filter base search_fields q) =
    base_conditions q ++ match base with Some b => [b] | None => [] end ∧
  (∀ P, Forall P search_fields → Forall P (Filter.search_fields q) →
     Forall P (Filter.search_fields (list_filter base search_fields q))).
Proof.
  unfold list_filter. destruct base as [b|], search_fields as [|f fs]; simpl;
    rewrite ?app_nil_r; repeat split; done.
Qed.

End clause.

(** ** Positions in an order *)
Section order.
Context {Row Val : Type} {V : Values Row Val} {VL : ValuesLaws V}.

(** [r] stands strictly before [r'] under the sorts. *)
Definition step_entry (s : string * SortDirection) (r' r : Row) : bool * option Val * option Val :=
  (bool_decide (s.2 = Asc), cell r' s.1, cell r s.1).
Definition row_before (sorts : list (string * SortDirection)) (r r' : Row) : Prop :=
  beyond (map (λ s, step_entry s r' r) sorts) false = true.

Lemma val_cmp_refl x : val_cmp x x = Eq.
Proof. by apply val_cmp_eq. Qed.

Lemma row_before_irrefl sorts r : ¬ row_before sorts r r.
Proof.
  unfold row_before. induction sorts as [|s sorts IH]; simpl; [done|].
  destruct (cell r s.1); [|done]. by rewrite val_cmp_refl.
Qed.
Lemma row_before_asym sorts r r' : row_before sorts r r' → ¬ row_before sorts r' r.
Proof.
  unfold row_before. induction sorts as [|s sorts IH]; simpl; [done|].
  destruct (cell r s.1) as [x|], (cell r' s.1) as [y|]; try done.
  rewrite (val_cmp_antisym y x). destruct (val_cmp y x); simpl; [exact IH|..]; by case_bool_decide.
Qed.

(** Inverting every direction turns the order around. *)
Lemma beyond_negb (l : list (bool * option Val * option Val)) :
  beyond (map (λ e, (negb e.1.1, e.1.2, e.2)) l) false = beyond (map (λ e, (e.1.1, e.2, e.1.2)) l) false.
Proof.
  induction l as [|[[a x] y] l IH]; [done|]. simpl. destruct x as [x|], y as [y|]; try done.
  rewrite (val_cmp_antisym y x). by destruct (val_cmp y x), a.
Qed.

(** Where some column tells the rows apart, nothing is left to a tie. *)
Lemma beyond_tie (l : list (bool * option Val * option Val)) a x y b b' :
  (a, x, y) ∈ l → (∀ u v, x = Some u → y = Some v → val_cmp u v ≠ Eq) → beyond l b = beyond l b'.
Proof.
  intros Hin Hne. induction l as [|[[a0 x0] y0] l IH]; [by apply not_elem_of_nil in Hin|]. simpl.
  destruct x0 as [u|]; [|done]. destruct y0 as [v|]; [|done].
  apply elem_of_cons in Hin as [[= -> -> ->]|Hin].
  - specialize (Hne u v eq_refl eq_refl). by destruct (val_cmp u v).
  - destruct (val_cmp u v); [by apply IH|done|done].
Qed.

Lemma filter_sorted (P : Row → Prop) `{∀ r, Decision (P r)} sorts l1 r l2 :
  StronglySorted (row_before sorts) (l1 ++ r :: l2) →
  (∀ r', r' ∈ l1 ++ r :: l2 → P r' ↔ row_before sorts r r') →
  filter P (l1 ++ r :: l2) = l2.
Proof.
  intros Hs HP. apply StronglySorted_app in Hs as (H12 & _ & [Hr _]%StronglySorted_cons).
  rewrite filter_app, filter_cons.
  rewrite (list_filter_ext P (λ _, False) l1).
  2:{ intros x Hx. rewrite HP by set_solver. split; [|done]. intros Hb.
      eapply row_before_asym; [exact Hb|]. apply H12; [done|left]. }
  assert (filter (λ _ : Row, False) l1 = []) as -> by (clear; by induction l1).
  rewrite decide_False.
  2:{ rewrite HP by set_solver. apply row_before_irrefl. }
  simpl. rewrite (list_filter_ext P (λ _, True) l2).
  - clear. induction l2 as [|x l IH]; [done|]. rewrite filter_cons_True by done. by rewrite IH.
  - intros x Hx. rewrite HP by set_solver. split; [done|]. intros _. rewrite Forall_forall in Hr. by apply Hr.
Qed.
Lemma filter_sorted_back (P : Row → Prop) `{∀ r, Decision (P r)} sorts l1 r l2 :
  StronglySorted (row_before sorts) (l1 ++ r :: l2) →
  (∀ r', r' ∈ l1 ++ r :: l2 → P r' ↔ row_before sorts r' r) →
  filter P (l1 ++ r :: l2) = l1.
Proof.
  intros Hs HP. apply StronglySorted_app in Hs as (H12 & _ & [Hr _]%StronglySorted_cons).
  rewrite filter_app, filter_cons.
  rewrite (list_filter_ext P (λ _, True) l1).
  2:{ intros x Hx. rewrite HP by set_solver. split; [done|]. intros _. apply H12; [done|left]. }
  assert (filter (λ _ : Row, True) l1 = l1) as ->
    by (clear; induction l1 as [|x l IH]; [done|]; rewrite filter_cons_True by done; by rewrite IH).
  rewrite decide_False by (rewrite HP by set_solver; apply row_before_irrefl).
  rewrite (list_filter_ext P (λ _, False) l2).
  - assert (filter (λ _ : Row, False) l2 = []) as -> by (clear; by induction l2). by rewrite app_nil_r.
  - intros x Hx. rewrite HP by set_solver. split; [|done]. intros Hb.
    rewrite Forall_forall in Hr. eapply row_before_asym; [exact Hb|]. by apply Hr.
Qed.
End order.

(** ** Pages of a list *)
Section pages.
Context {U : Unicode} {L : Libs} {CJ : CursorJson} {CL : CursorJsonLaws CJ}.
Context {Row T : Type} {DB : ListDb Row T} {Val : Type} {V : Values Row Val} {VL : ValuesLaws V}.
Variables (table_name : string) (q : QueryFilter) (pg : PaginationParams).
(** The casts of the sort columns, the rows the filter selects, in order, and their decoding. *)
Variables (casts : list (option string)) (rows : list Row) (dec : Row → T).

Definition page_rows : nat := Z.to_nat (pagination_limit pg).
Definition bound_params : list string := (build_where_clause q).2.
Definition at_cursor (back : bool) (c : string) : QueryFilter :=
  set_cursors q (if back then None else Some c) (if back then Some c else None) (estimate_total q).
Definition row_texts (cs : list (option string)) (r : Row) : option (list string) :=
  mapM (λ x, mjoin (col_text r x.2 (cursor_type cs x.1 x.2))) (imap (λ i s, (i, s.1)) (list_sorts q)).
Definition position (cs : list (option string)) (r : Row) : option CursorPayload :=
  id ← row_id r; texts ← row_texts cs r;
  Some (payload_of (list_sorts q) (map VString texts) (uuid_to_string id)).
Definition walk_statement (back : bool) (c : string) (d : dnf) : string :=
  page_statement table_name (at_cursor back c) pg
    (and_keyset_predicate (build_where_clause q).1 (dnf_sql d (length bound_params + 1)))
    (order_by_sql (list_sorts q) back).

(** What is asked of the database: the sort columns have values that are read back from the text a
    cursor carries, and a statement answers with the rows its predicate is true of, in its
    order, up to its limit. *)
Record answers : Prop := {
  an_limit : 1 ≤ pagination_limit pg;
  an_page : pg_page pg ≤ 1;
  an_casts : sort_column_casts table_name (list_sorts q) = Ok casts;
  an_sorted : StronglySorted (row_before (list_sorts q)) rows;
  an_decode : ∀ r, r ∈ rows → from_row r = inr (dec r);
  an_id : ∀ r, r ∈ rows → ∃ u v, row_id r = Some u ∧ cell r "id" = Some v ∧
    read_as "id" (Some "uuid") (uuid_to_string u) = Some v;
  an_text : ∀ r cs i f d, r ∈ rows → cs = casts ∨ cs = [] → list_sorts q !! i = Some (f, d) →
    ∃ v text, cell r f = Some v ∧ col_text r f (cursor_type cs i f) = Some (Some text) ∧
      read_as f (mjoin (casts !! i)) text = Some v;
  an_count : db_count ("SELECT COUNT(*) FROM " +:+ table_name +:+ (build_where_clause q).1) bound_params =
    Ok (Z.of_nat (length rows));
  an_first : db_fetch (page_statement table_name q pg (build_where_clause q).1
      (order_by_sql (list_sorts q) false)) bound_params = Ok (take (S page_rows) rows);
  an_walk : ∀ r cs p c back, r ∈ rows → cs = casts ∨ cs = [] → position cs r = Some p →
    let d := keyset_dnf p casts back in
    db_fetch (walk_statement back c d) (bound_params ++ dnf_params d) =
    Ok (take (S page_rows) (filter (λ r', eval_dnf r' d = true) (if back then reverse rows else rows)));
}.
Hypothesis HA : answers.
Hypothesis Hno_cursor : cursor_after q = None ∧ cursor_before q = None.
Hypothesis Hexact : estimate_total q = false.

Lemma mapM_texts cs r (ss : list (string * SortDirection)) k :
  r ∈ rows → cs = casts ∨ cs = [] → (∀ i s, ss !! i = Some s → list_sorts q !! (k + i)%nat = Some s) →
  ∃ texts, mapM (λ x, mjoin (col_text r x.2 (cursor_type cs x.1 x.2))) (imap (λ i s, ((k + i)%nat, s.1)) ss) = Some texts ∧
    length texts = length ss ∧
    ∀ i s, ss !! i = Some s → ∃ v text, texts !! i = Some text ∧ cell r s.1 = Some v ∧
      read_as s.1 (mjoin (casts !! (k + i)%nat)) text = Some v.
Proof.
  intros Hr Hcs. revert k. induction ss as [|[f d] ss IH]; intros k Hk; [by exists []|].
  destruct (an_text HA r cs k f d Hr Hcs) as (v & text & Hcell & Htext & Hread).
  { rewrite <- (Nat.add_0_r k). by apply (Hk 0%nat). }
  destruct (IH (S k)) as (texts & Hm & Hlen & Ht).
  { intros i s Hi. specialize (Hk (S i) s Hi). by rewrite Nat.add_succ_r in Hk. }
  exists (text :: texts). cbn [imap mapM]. rewrite Nat.add_0_r. cbn [fst snd]. rewrite Htext. simpl.
  rewrite (imap_ext _ (λ i s, ((S k + i)%nat, s.1))) by (intros; simpl; by rewrite Nat.add_succ_r).
  rewrite Hm. split; [done|]. split; [simpl; by rewrite Hlen|].
  intros [|i] s Hi; simpl in Hi.
  - injection Hi as <-. exists v, text. rewrite Nat.add_0_r. done.
  - destruct (Ht i s Hi) as (v' & t' & ? & ? & Hr'). exists v', t'. rewrite Nat.add_succ_r. done.
Qed.

(** Every row has a position, whose texts read back as its columns. *)
Lemma position_spec cs r :
  r ∈ rows → cs = casts ∨ cs = [] →
  ∃ u texts, row_id r = Some u ∧
    position cs r = Some (payload_of (list_sorts q) (map VString texts) (uuid_to_string u)) ∧
    row_texts cs r = Some texts ∧ length texts = length (list_sorts q) ∧
    ∀ i s, list_sorts q !! i = Some s → ∃ v text, texts !! i = Some text ∧ cell r s.1 = Some v ∧
      read_as s.1 (mjoin (casts !! i)) text = Some v.
Proof.
  intros Hr Hcs. destruct (an_id HA r Hr) as (u & _ & Hu & _).
  destruct (mapM_texts cs r (list_sorts q) 0 Hr Hcs) as (texts & Hm & Hlen & Ht); [done|].
  exists u, texts. unfold position, row_texts. rewrite Hu. cbn [mbind option_bind].
  change (imap (λ i s, ((0 + i)%nat, s.1)) (list_sorts q)) with (imap (λ i s, (i, s.1)) (list_sorts q)) in Hm.
  by rewrite Hm.
Qed.

Lemma total_order_id sorts : "id" ∈ map fst (total_order sorts).
Proof.
  unfold total_order. destruct (existsb _ sorts) eqn:E.
  - apply existsb_exists in E as (s & Hs & Hid%bool_decide_eq_true).
    change "id" with KEY_COLUMN. rewrite <- Hid. apply list_elem_of_In. by apply (in_map fst).
  - rewrite map_app. set_solver.
Qed.

(** The predicate of a row's cursor selects exactly the rows after it, or before it. *)
Lemma keyset_selects cs r p back r' :
  r ∈ rows → r' ∈ rows → cs = casts ∨ cs = [] → position cs r = Some p →
  eval_dnf r' (keyset_dnf p casts back) = true ↔
  if back then row_before (list_sorts q) r' r else row_before (list_sorts q) r r'.
Proof.
  intros Hr Hr' Hcs Hp. destruct (position_spec cs r Hr Hcs) as (u & texts & Hu & Hp' & _ & Hlen & Ht).
  rewrite Hp in Hp'. injection Hp' as ->. set (p := payload_of _ _ _).
  rewrite eval_keyset_dnf by (unfold p; simpl; rewrite !length_map; lia). unfold follows.
  assert (map (entry p casts back r') (seq 0 (length (cp_f p))) =
    map (λ s, (negb (Bool.eqb (bool_decide (s.2 = Asc)) back), cell r' s.1, cell r s.1)) (list_sorts q)) as ->.
  { apply list_eq. intros i. change (map ?f ?l) with (f <$> l). rewrite !list_lookup_fmap.
    assert (length (cp_f p) = length (list_sorts q)) as Hn by (unfold p; simpl; by rewrite length_map).
    rewrite Hn. destruct (list_sorts q !! i) as [[f d]|] eqn:Hi.
    - rewrite lookup_seq_lt by (by eapply lookup_lt_Some). simpl. f_equal.
      destruct (Ht i _ Hi) as (v & text & Htext & Hcell & Hread).
      unfold entry, ascending, col_of, text_of, cast_of, p, payload_of. cbn [cp_f cp_d cp_k].
      change (map ?f ?l) with (f <$> l). rewrite !list_lookup_fmap, Hi, Htext. simpl.
      simpl in Hcell, Hread. rewrite Hcell, <- Hread. by destruct d.
    - rewrite lookup_seq_ge by (by apply lookup_ge_None in Hi). done. }
  set (tie := needs_tie p && eval_atom r' (tie_atom p back)).
  assert (beyond (map (λ s, (negb (Bool.eqb (bool_decide (s.2 = Asc)) back), cell r' s.1, cell r s.1)) (list_sorts q)) tie =
          beyond (map (λ s, (negb (Bool.eqb (bool_decide (s.2 = Asc)) back), cell r' s.1, cell r s.1)) (list_sorts q)) false) as ->.
  { destruct tie eqn:Htie; [|done]. unfold tie in Htie. apply andb_true_iff in Htie as [_ Htie].
    destruct (an_id HA r Hr) as (u' & v & Hu' & Hcell & Hread). rewrite Hu in Hu'. injection Hu' as <-.
    pose proof (total_order_id (map (λ s, (sort_field s, sort_direction s)) (sorts q))) as Hid.
    apply list_elem_of_fmap in Hid as ([f d] & Hf & Hin). simpl in Hf. subst f.
    eapply (beyond_tie _ _ (cell r' "id") (cell r "id")).
    - apply list_elem_of_fmap. exists ("id", d). split; [done|exact Hin].
    - intros x y Hx Hy Heq. unfold eval_atom, tie_atom, p, payload_of in Htie. cbn in Htie.
      rewrite Hx, Hread in Htie. rewrite Hcell in Hy. injection Hy as <-. rewrite Heq in Htie. by destruct back. }
  unfold row_before, step_entry. destruct back.
  - pose proof (beyond_negb (map (λ s, (bool_decide (s.2 = Asc), cell r' s.1, cell r s.1)) (list_sorts q))) as H.
    rewrite !map_map in H. simpl in H.
    rewrite (map_ext _ (λ s, (negb (bool_decide (s.2 = Asc)), cell r' s.1, cell r s.1)))
      by (intros [? []]; done).
    rewrite H. done.
  - rewrite (map_ext _ (λ s, (bool_decide (s.2 = Asc), cell r' s.1, cell r s.1))) by (intros [? []]; done). done.
Qed.

Lemma decode_page_spec page : (∀ r, r ∈ page → r ∈ rows) → decode_page page = Ok (map dec page).
Proof.
  unfold decode_page. intros Hp. induction page as [|r page IH]; [done|]. cbn [mapM map].
  rewrite (an_decode HA) by (apply Hp; left). cbn [mbind res_bind]. rewrite IH by (intros; apply Hp; by right).
  done.
Qed.

Lemma row_cursor_spec cs r :
  r ∈ rows → cs = casts ∨ cs = [] →
  ∃ p c, position cs r = Some p ∧ row_cursor r (list_sorts q) cs = Some c ∧
    decode_cursor c (list_sorts q) = inr p.
Proof.
  intros Hr Hcs. destruct (position_spec cs r Hr Hcs) as (u & texts & Hu & Hp & Htexts & Hlen & _).
  destruct (encode_cursor_decodes (list_sorts q) (map VString texts) (uuid_to_string u)) as (c & Hc & _ & Hdec);
    [by rewrite length_map|].
  eexists _, c. split; [exact Hp|]. split.
  - unfold row_cursor. rewrite Hu. cbn [mbind option_bind]. unfold row_texts in Htexts.
    rewrite Htexts. cbn [mbind option_bind]. by rewrite Hc.
  - rewrite Hdec. by rewrite decide_True.
Qed.

(** Walking from a row's cursor. *)
Lemma is_walk back c : is_cursor_walk (at_cursor back c) = true.
Proof. by destruct back. Qed.
Lemma is_back back c : is_backwards (at_cursor back c) = back.
Proof. by destruct back. Qed.

(** The page at a cursor: the first rows after it, or the last before it, read forward. *)
Definition page_at (back : bool) (before after : list Row) : list Row :=
  if back then reverse (take page_rows (reverse before)) else take page_rows after.
Definition more_at (back : bool) (before after : list Row) : bool :=
  Nat.ltb page_rows (length (if back then before else after)).

Lemma page_more (l : list Row) : (pagination_limit pg <? Z.of_nat (length (take (S page_rows) l))) = Nat.ltb page_rows (length l).
Proof.
  pose proof (an_limit HA). unfold page_rows. rewrite length_take.
  apply eq_true_iff_eq. rewrite Z.ltb_lt, Nat.ltb_lt. lia.
Qed.

Lemma execute_walk before r after cs c back :
  rows = before ++ r :: after → cs = casts ∨ cs = [] → row_cursor r (list_sorts q) cs = Some c →
  let page := page_at back before after in
  ∃ info, execute_list table_name pg (at_cursor back c) = Ok (mkResult (map dec page) info) ∧
    has_more info = Some (more_at back before after) ∧
    next_cursor info = (if more_at back before after || back then r ← last page; row_cursor r (list_sorts q) casts else None) ∧
    prev_cursor info = (r ← head page; row_cursor r (list_sorts q) casts).
Proof.
  intros Hrows Hcs Hc page.
  assert (r ∈ rows) as Hr by (rewrite Hrows; set_solver).
  destruct (row_cursor_spec cs r Hr Hcs) as (p & c' & Hp & Hc' & Hdec). rewrite Hc in Hc'. injection Hc' as <-.
  pose proof (an_walk HA r cs p c back Hr Hcs Hp) as Hfetch. cbn zeta in Hfetch.
  assert (filter (λ r', eval_dnf r' (keyset_dnf p casts back) = true) (if back then reverse rows else rows) =
    if back then reverse before else after) as Hsel.
  { destruct back.
    - rewrite filter_reverse. f_equal. rewrite Hrows.
      apply (filter_sorted_back _ (list_sorts q) before r after); [rewrite <- Hrows; apply (an_sorted HA)|].
      intros r' Hr'. rewrite <- Hrows in Hr'. by apply (keyset_selects cs r p true r').
    - rewrite Hrows. apply (filter_sorted _ (list_sorts q) before r after); [rewrite <- Hrows; apply (an_sorted HA)|].
      intros r' Hr'. rewrite <- Hrows in Hr'. by apply (keyset_selects cs r p false r'). }
  rewrite Hsel in Hfetch.
  assert (list_sorts (at_cursor back c) = list_sorts q) as Hs by done.
  unfold execute_list. rewrite is_walk, Hs, (an_casts HA). cbn [orb mbind res_bind].
  assert (page_clauses (at_cursor back c) casts =
    Ok (and_keyset_predicate (build_where_clause q).1 (dnf_sql (keyset_dnf p casts back) (length bound_params + 1)),
        bound_params ++ dnf_params (keyset_dnf p casts back), order_by_sql (list_sorts q) back)) as ->.
  { unfold page_clauses. change (build_where_clause (at_cursor back c)) with (build_where_clause q).
    unfold bound_params. destruct (build_where_clause q) as [text params]. rewrite is_walk, is_back, Hs.
    replace (if back then cursor_before (at_cursor back c) else cursor_after (at_cursor back c)) with (Some c) by by destruct back.
    cbn [or_panic mbind res_bind]. rewrite Hdec. cbn [res_of_sum res_map_err mbind res_bind].
    rewrite build_keyset_predicate_spec; [done|].
    destruct (position_spec cs r Hr Hcs) as (u & texts & _ & Hp' & _ & Hlen & _). rewrite Hp in Hp'. injection Hp' as ->.
    simpl. rewrite !length_map. lia. }
  cbn [mbind res_bind]. unfold list_total.
  change (estimate_total (at_cursor back c)) with (estimate_total q). rewrite Hexact, is_walk. cbn [mret res_ret mbind res_bind].
  unfold walk_statement in Hfetch. rewrite Hfetch. cbn [mbind res_bind]. rewrite is_back.
  set (sel := if back then reverse before else after) in *.
  rewrite take_take, page_more. replace (Nat.min (Z.to_nat (pagination_limit pg)) (S page_rows)) with page_rows by (unfold page_rows; lia).
  assert ((if back then reverse (take page_rows sel) else take page_rows sel) = page) as -> by (unfold page, page_at, sel; by destruct back).
  rewrite decode_page_spec.
  2:{ intros x Hx. rewrite Hrows. unfold page, page_at in Hx. destruct back.
      - rewrite elem_of_reverse in Hx. apply elem_of_take in Hx as (i & Hi & _). apply list_elem_of_lookup_2 in Hi.
        rewrite elem_of_reverse in Hi. set_solver.
      - apply elem_of_take in Hx as (i & Hi & _). apply list_elem_of_lookup_2 in Hi. set_solver. }
  cbn [mbind res_bind mret res_ret]. eexists. split; [done|]. cbn [has_more next_cursor prev_cursor].
  assert (Nat.ltb page_rows (length sel) = more_at back before after) as ->
    by (unfold more_at, sel; destruct back; by rewrite ?length_reverse).
  done.
Qed.
(** The first page, in page mode. *)
Definition page_casts : list (option string) :=
  if existsb (λ s, negb (bool_decide (s.1 = "id"))) (list_sorts q) then casts else [].
Lemma page_casts_ok : page_casts = casts ∨ page_casts = [].
Proof. unfold page_casts. destruct (existsb _ _); auto. Qed.

Lemma no_walk : is_cursor_walk q = false ∧ is_backwards q = false.
Proof. destruct Hno_cursor as [Ha Hb]. unfold is_cursor_walk, is_backwards. by rewrite Ha, Hb. Qed.

Lemma execute_first :
  let page := take page_rows rows in
  ∃ info, execute_list table_name pg q = Ok (mkResult (map dec page) info) ∧
    has_more info = Some (Nat.ltb page_rows (length rows)) ∧ total info = Z.of_nat (length rows) ∧
    next_cursor info = (if Nat.ltb page_rows (length rows)
                        then r ← last page; row_cursor r (list_sorts q) page_casts else None).
Proof.
  intros page. destruct no_walk as [Hw Hb]. unfold execute_list. rewrite Hw, Hb. cbn [orb].
  assert ((if existsb (λ s, negb (bool_decide (s.1 = "id"))) (list_sorts q)
           then sort_column_casts table_name (list_sorts q) else mret []) = Ok page_casts) as ->
    by (unfold page_casts; destruct (existsb _ _); [apply (an_casts HA)|done]).
  cbn [mbind res_bind]. unfold page_clauses. rewrite Hw.
  pose proof (an_first HA) as Hfirst. pose proof (an_count HA) as Hcount. unfold bound_params in *.
  destruct (build_where_clause q) as [text params]. cbn [fst snd] in *. cbn [mret res_ret mbind res_bind].
  unfold list_total, count_filtered_rows. rewrite Hexact, Hw, Hcount. cbn [mret res_ret mbind res_bind].
  rewrite Hfirst. cbn [mbind res_bind]. rewrite take_take, page_more.
  replace (Nat.min (Z.to_nat (pagination_limit pg)) (S page_rows)) with page_rows by (unfold page_rows; lia).
  fold page. rewrite decode_page_spec
    by (intros x Hx; unfold page in Hx; apply elem_of_take in Hx as (i & Hi & _); by apply list_elem_of_lookup_2 in Hi).
  cbn [mbind res_bind mret res_ret]. eexists. split; [done|]. cbn [has_more next_cursor total].
  by rewrite orb_false_r.
Qed.

(** A client that follows the next cursor for as long as there are more rows. *)
Fixpoint walk (fuel : nat) (at_q : QueryFilter) : M (list (list T)) :=
  match fuel with
  | O => Ok []
  | S fuel =>
      page ← execute_list table_name pg at_q;
      match has_more (pagination page), next_cursor (pagination page) with
      | Some true, Some c => rest ← walk fuel (at_cursor false c); mret (data page :: rest)
      | _, _ => mret [data page]
      end
  end.

Definition pages_of (l : list Row) (pages : list (list T)) : Prop :=
  concat pages = map dec l ∧ Forall (λ p, length p ≤ page_rows)%nat pages ∧
  Forall (λ p, length p = page_rows) (removelast pages).

Lemma pages_of_cons (l : list Row) pages :
  (page_rows < length l)%nat → pages_of (drop page_rows l) pages →
  pages_of l (map dec (take page_rows l) :: pages).
Proof.
  intros Hl (H1 & H2 & H3). assert (length (map dec (take page_rows l)) = page_rows) as Hn
    by (rewrite length_map, length_take; lia).
  split; [|split].
  - simpl. rewrite H1, <- map_app, take_drop. done.
  - constructor; [lia|done].
  - destruct pages as [|p ps]; [constructor|]. by constructor.
Qed.
Lemma pages_of_one (l : list Row) : (length l ≤ page_rows)%nat → pages_of l [map dec (take page_rows l)].
Proof.
  intros Hl. rewrite take_ge by lia. split; [simpl; by rewrite app_nil_r|].
  split; [|constructor]. constructor; [by rewrite length_map|constructor].
Qed.
Lemma page_rows_pos : (0 < page_rows)%nat.
Proof. pose proof (an_limit HA). unfold page_rows. lia. Qed.

(** The last row of a full page splits the list where the next page begins. *)
Lemma split_at_page (l : list Row) :
  (page_rows < length l)%nat →
  ∃ r, last (take page_rows l) = Some r ∧ l = take (page_rows - 1) l ++ r :: drop page_rows l.
Proof.
  intros Hl. pose proof page_rows_pos as Hpos.
  destruct (lookup_lt_is_Some_2 l (page_rows - 1)) as [r Hr]; [lia|]. exists r. split.
  - rewrite last_lookup, length_take, lookup_take_lt by lia.
    by replace (pred (Nat.min page_rows (length l))) with (page_rows - 1)%nat by lia.
  - rewrite <- (take_drop (page_rows - 1) l) at 1. f_equal.
    replace page_rows with (S (page_rows - 1)) at 2 by lia. by apply drop_S.
Qed.

Lemma walk_from fuel before r after cs c :
  rows = before ++ r :: after → cs = casts ∨ cs = [] → row_cursor r (list_sorts q) cs = Some c →
  (length after < fuel)%nat →
  ∃ pages, walk fuel (at_cursor false c) = Ok pages ∧ pages_of after pages.
Proof.
  revert before r after cs c. induction fuel as [|fuel IH]; intros before r after cs c Hrows Hcs Hc Hf; [lia|].
  destruct (execute_walk before r after cs c false Hrows Hcs Hc) as (info & He & Hm & Hn & _).
  cbn [walk]. rewrite He. cbn [mbind res_bind pagination data]. rewrite Hm, Hn, orb_false_r.
  unfold more_at, page_at. cbn iota. pose proof page_rows_pos as Hpos.
  destruct (Nat.ltb_spec page_rows (length after)) as [Hlt|Hge].
  - destruct (split_at_page after Hlt) as (r' & Hlast & Hsplit). rewrite Hlast. cbn [mbind option_bind].
    assert (rows = (before ++ r :: take (page_rows - 1) after) ++ r' :: drop page_rows after) as Hrows'
      by (rewrite Hrows at 1; rewrite Hsplit at 1; by rewrite <- app_assoc).
    assert (r' ∈ rows) as Hr' by (rewrite Hrows'; set_solver).
    destruct (row_cursor_spec casts r' Hr' ltac:(auto)) as (p' & c' & _ & Hc' & _). rewrite Hc'.
    destruct (IH _ r' (drop page_rows after) casts c' Hrows' ltac:(auto) Hc') as (pages & Hw & Hp);
      [rewrite length_drop; lia|].
    rewrite Hw. cbn [mbind res_bind mret res_ret]. eexists. split; [done|]. by apply pages_of_cons.
  - eexists. split; [done|]. by apply pages_of_one.
Qed.

Lemma walk_all fuel : (length rows < fuel)%nat → ∃ pages, walk fuel q = Ok pages ∧ pages_of rows pages.
Proof.
  intros Hf. destruct fuel as [|fuel]; [lia|]. cbn [walk].
  destruct execute_first as (info & He & Hm & _ & Hn). rewrite He. cbn [mbind res_bind pagination data].
  rewrite Hm, Hn. pose proof page_rows_pos as Hpos.
  destruct (Nat.ltb_spec page_rows (length rows)) as [Hlt|Hge].
  - destruct (split_at_page rows Hlt) as (r & Hlast & Hsplit). rewrite Hlast. cbn [mbind option_bind].
    assert (r ∈ rows) as Hr by (rewrite Hsplit; set_solver).
    destruct (row_cursor_spec page_casts r Hr page_casts_ok) as (p & c & _ & Hc & _). rewrite Hc.
    destruct (walk_from fuel _ r (drop page_rows rows) page_casts c Hsplit page_casts_ok Hc) as (pages & Hw & Hp);
      [rewrite length_drop; lia|].
    rewrite Hw. cbn [mbind res_bind mret res_ret]. eexists. split; [done|]. by apply pages_of_cons.
  - eexists. split; [done|]. by apply pages_of_one.
Qed.

(** Both directions together. *)
Lemma paging_lemma :
  (∀ fuel, (length rows < fuel)%nat → ∃ pages, walk fuel q = Ok pages ∧ pages_of rows pages) ∧
  (∀ before r after, rows = before ++ r :: after →
    ∃ c info, row_cursor r (list_sorts q) casts = Some c ∧
      execute_list table_name pg (at_cursor true c) =
        Ok (mkResult (map dec (drop (length before - page_rows) before)) info) ∧
      has_more info = Some (Nat.ltb page_rows (length before))).
Proof.
  split; [apply walk_all|]. intros before r after Hrows.
  assert (r ∈ rows) as Hr by (rewrite Hrows; set_solver).
  destruct (row_cursor_spec casts r Hr ltac:(auto)) as (p & c & _ & Hc & _). exists c.
  destruct (execute_walk before r after casts c true Hrows ltac:(auto) Hc) as (info & He & Hm & _).
  exists info. split; [done|]. split; [|done]. rewrite He. unfold page_at.
  assert (reverse (take page_rows (reverse before)) = drop (length before - page_rows) before) as ->; [|done].
  by rewrite take_reverse, reverse_involutive.
Qed.
End pages.

(** ** The claims *)

(** C36: a cursor is the text of a position and of nothing else: written for a row, it is plain
    ASCII; read for the sort it was written for, it gives back the sort and the row's texts, every
    byte of them; read for any other sort it is refused as such. Where the columns and the values
    disagree in number it is not written. *)
Theorem cursor_round_trip {U : Unicode} {L : Libs} {CJ : CursorJson} {CL : CursorJsonLaws CJ}
    (sorts : list (string * SortDirection)) (values : list Value) (id : string) :
  (length sorts = length values →
   ∃ t, encode_cursor sorts values id = inr t ∧ str_forallb is_ascii t = true ∧
     ∀ sorts', decode_cursor t sorts' =
       if decide (sorts' = sorts) then
         inr (mkPayload CURSOR_VERSION (map fst sorts) (map (λ s, direction_code s.2) sorts)
                (map value_as_text values) id)
       else inl (SortMismatch (str_join ", " (map fst sorts')))) ∧
  (length sorts ≠ length values → ∃ why, encode_cursor sorts values id = inl (Inconsistent why)).
Proof. split; [apply encode_cursor_decodes|apply encode_cursor_inconsistent]. Qed.

(** the predicate a cursor becomes. Its text is that of a disjunction of conjunctions of
    comparisons, its parameters numbered on from those before it, and over any rows it is true of
    exactly those that come after the position column by column, each in its direction, the id
    deciding where all are equal; before it, walking backwards. A payload whose parts
    disagree in length is never read from a cursor, so the code never indexes out of range. *)
Theorem keyset_predicate_meaning (p : CursorPayload) (casts : list (option string)) (back : bool) (idx : nat) :
  length (cp_f p) = length (cp_d p) ∧ length (cp_f p) = length (cp_k p) →
  ∃ d : dnf, build_keyset_predicate p casts back idx =
      Some (dnf_sql d idx, dnf_params d, (idx + length (dnf_params d))%nat) ∧
    ∀ (Row Val : Type) (V : Values Row Val) (row : Row),
      eval_dnf row d = beyond
        (map (λ i, (negb (Bool.eqb (default 0 (cp_d p !! i) =? 0) back),
                    cell row (default "" (cp_f p !! i)),
                    read_as (default "" (cp_f p !! i)) (mjoin (casts !! i)) (default "" (cp_k p !! i))))
             (seq 0 (length (cp_f p))))
        (needs_tie p && eval_atom row (mkAtom "id" (if back then CLt else CGt) (Some "uuid") (cp_id p))).
Proof.
  intros Hlen. exists (keyset_dnf p casts back). split; [by apply build_keyset_predicate_spec|].
  intros Row Val V row. by apply eval_keyset_dnf.
Qed.


(** ** A list that is walked

    Four rows with ties, sorted by one column descending, on a database that answers each
    statement of the walk: the theorems of the list path at concrete inputs. *)
#[local] Existing Instance ascii_unicode.
#[local] Existing Instance Concrete.libs.
#[local] Existing Instance ConcreteJson.cursor_json.

(** A row: its id and its rank. *)
Definition ex_row : Type := N * Z.
Definition ex_rows : list ex_row := [(2%N, 5); (3%N, 5); (1%N, 4); (4%N, 1)].

#[export] Instance ex_values : Values ex_row Z := {|
  cell r col := if bool_decide (col = "id") then Some (Z.of_N r.1) else if bool_decide (col = "rank") then Some r.2 else None;
  val_cmp := Z.compare;
  read_as _ _ text := parse_i64 text;
|}.
#[export] Instance ex_values_laws : ValuesLaws ex_values.
Proof.
  split; simpl.
  - apply Z.compare_eq_iff.
  - intros x y. apply Z.compare_antisym.
  - intros x y z. rewrite !Z.compare_lt_iff. lia.
Qed.

Definition ex_filter : QueryFilter := add_sort filter_new (mkSort "rank" Desc).
Definition ex_page : PaginationParams := pagination_new 1 2.
Definition ex_casts : list (option string) := [Some "integer"; Some "uuid"].
Definition ex_text (r : ex_row) (f _ : string) : option (option string) :=
  if bool_decide (f = "id") then Some (Some (show_Z (Z.of_N r.1))) else Some (Some (show_Z r.2)).
Definition ex_position (r : ex_row) : CursorPayload :=
  mkPayload 1 ["rank"; "id"] [1; 0] [show_Z r.2; show_Z (Z.of_N r.1)] (show_Z (Z.of_N r.1)).

(** The statements of the walk and their answers. *)
Definition ex_where (d : dnf) : string := and_keyset_predicate "" (dnf_sql d 1).
Definition ex_answers : list (string * list string * list ex_row) :=
  ("SELECT * FROM task ORDER BY rank DESC, id ASC LIMIT 3 OFFSET 0", [], take 3 ex_rows) ::
  flat_map (λ r, map (λ back : bool,
    let d := keyset_dnf (ex_position r) ex_casts back in
    ("SELECT * FROM task" +:+ ex_where d +:+
       (if back then " ORDER BY rank ASC, id DESC" else " ORDER BY rank DESC, id ASC") +:+ " LIMIT 3", dnf_params d,
     take 3 (filter (λ r', eval_dnf r' d = true) (if back then reverse ex_rows else ex_rows)))) [false; true]) ex_rows.
#[export] Instance ex_db : ListDb ex_row N := {|
  db_columns _ _ f := Ok (if bool_decide (f = "id") then Some ("uuid", "", "") else Some ("integer", "", ""));
  db_catalog _ := Ok [];
  db_count _ _ := Ok 4;
  db_explain _ _ := Ok VNull;
  db_fetch sql params :=
    match List.find (λ a, bool_decide (a.1.1 = sql ∧ a.1.2 = params)) ex_answers with
    | Some a => Ok a.2 | None => Err (DbFailed "no such statement") end;
  row_id r := Some r.1;
  col_text := ex_text;
  from_row r := inr r.1;
|}.

Example ex_walk : walk "task" ex_filter ex_page 5 ex_filter = Ok [[2%N; 3%N]; [1%N; 4%N]].
Proof. vm_compute. reflexivity. Qed.

Lemma ex_position_ok r cs :
  r ∈ ex_rows → position ex_filter cs r = Some (ex_position r).
Proof.
  intros Hr. unfold ex_rows in Hr.
  repeat (apply elem_of_cons in Hr as [->|Hr]; [reflexivity|]). by apply not_elem_of_nil in Hr.
Qed.
Lemma ex_answers_ok : answers "task" ex_filter ex_page ex_casts ex_rows fst.
Proof.
  split; try done.
  - unfold ex_rows. repeat (constructor; [|repeat constructor; reflexivity]). constructor.
  - intros r Hr. exists r.1, (Z.of_N r.1). split; [done|]. split; [done|].
    unfold ex_rows in Hr. repeat (apply elem_of_cons in Hr as [->|Hr]; [reflexivity|]). by apply not_elem_of_nil in Hr.
  - intros r cs i f d Hr _ Hi. destruct i as [|[|i]]; simpl in Hi; simplify_eq.
    + exists r.2, (show_Z r.2). split; [done|]. split; [done|].
      unfold ex_rows in Hr. repeat (apply elem_of_cons in Hr as [->|Hr]; [reflexivity|]). by apply not_elem_of_nil in Hr.
    + exists (Z.of_N r.1), (show_Z (Z.of_N r.1)). split; [done|]. split; [done|].
      unfold ex_rows in Hr. repeat (apply elem_of_cons in Hr as [->|Hr]; [reflexivity|]). by apply not_elem_of_nil in Hr.
  - intros r cs p c back Hr _ Hp. rewrite ex_position_ok in Hp by done. injection Hp as <-.
    unfold ex_rows in Hr.
    repeat (apply elem_of_cons in Hr as [->|Hr]; [destruct back; vm_compute; reflexivity|]). by apply not_elem_of_nil in Hr.
Qed.


Lemma keyset_predicate_meaning_witness :
  ∃ d : dnf, build_keyset_predicate (ex_position (3%N, 5)) ex_casts false 1 =
      Some (dnf_sql d 1, dnf_params d, (1 + length (dnf_params d))%nat) ∧
    eval_dnf (Row:=ex_row) (1%N, 4) d = true ∧ eval_dnf (Row:=ex_row) (2%N, 5) d = false.
Proof.
  destruct (keyset_predicate_meaning (ex_position (3%N, 5)) ex_casts false 1 (conj eq_refl eq_refl)) as (d & H & He).
  exists d. split; [exact H|]. split; rewrite (He ex_row Z ex_values); reflexivity.
Defined.

Lemma cursor_round_trip_witness :
  ∃ t, encode_cursor [("rank", Desc)] [VString "5"] "7" = inr t ∧
    decode_cursor t [("rank", Desc)] = inr (mkPayload 1 ["rank"] [1] ["5"] "7") ∧
    decode_cursor t [("rank", Asc)] = inl (SortMismatch "rank").
Proof.
  destruct (proj1 (cursor_round_trip [("rank", Desc)] [VString "5"] "7") eq_refl) as (t & H & _ & Hd).
  exists t. split; [exact H|]. split; rewrite Hd; reflexivity.
Defined.

Definition ex_params : list (string * string) := [("name[contain]", "x) OR (1=1"); ("kind[or]", "y"); ("search", "z")].
Definition ex_parsed : QueryFilter :=
  match parse_filters ex_params ∅ None with inr q => q | inl _ => filter_new end.

Definition ex_hostile : list (string * string) :=
  [("__base_condition", "1=1"); ("secret", "x"); ("name[contain]", "' OR 1=1 --"); ("orderby", "-created_at,secret")].
Definition ex_allowed : option (gset string) := Some {["name"; "created_at"]}.
Definition ex_admitted : QueryFilter :=
  match parse_filters ex_hostile ∅ ex_allowed with inr q => q | inl _ => filter_new end.
Lemma parse_filters_safe_witness :
  map field (conditions ex_admitted) = ["name"] ∧
  map sort_field (sorts ex_admitted) = ["(metadata->>'created_at')::timestamptz"] ∧
  Forall (λ c, column_ok ex_allowed (field c)) (conditions ex_admitted) ∧ base_conditions ex_admitted = [].
Proof.
  destruct (parse_filters_safe (UL:=ascii_unicode_laws) ∅ ex_allowed ex_hostile) as [_ H].
  assert (parse_filters ex_hostile ∅ ex_allowed = inr ex_admitted) as E by (vm_compute; reflexivity).
  destruct (H _ E) as (Hc & _ & _ & Hb).
  split; [vm_compute; reflexivity|]. split; [vm_compute; reflexivity|]. split; [|exact Hb].
  eapply Forall_impl; [exact Hc|]. by intros c [? _].
Defined.
