(* ===== verification/RepositoryErrors.v ===== *)
(** * What a database refusal is answered with

    [backbone-core/src/persistence/traits.rs]: the conversion of a driver's error to
    [RepositoryError], of a broken constraint to a named [Violation], and the placing of an error
    on an item of a batch; [violation.rs]: [code_from_constraint]. The driver's error is data:
    what [sqlx] says of it. *)
From Stdlib Require Import ZArith Lia Ascii.
From stdpp Require Import gmap sorting.
From S2P Require Import Prelude RustStr RustChar Json WriteHooks FilterParser.

Local Open Scope Z_scope.

(** ** The driver's errors *)

(** [sqlx::error::ErrorKind] *)
Inductive ErrorKind := UniqueViolation | ForeignKeyViolation | NotNullViolation | CheckViolation | OtherKind.
#[export] Instance ErrorKind_eq_dec : EqDecision ErrorKind.
Proof. solve_decision. Defined.

(** What the code reads of a [DatabaseError]. *)
Record PgError := mkPgError {
  pe_kind : ErrorKind;
  pe_code : option string;
  pe_message : string;
  pe_constraint : option string;
  pe_detail : option string;
  pe_column : option string;
  pe_table : option string;
}.

Inductive SqlxError := RowNotFound | DatabaseRefused (e : PgError) | DriverFailed (display : string).

(** An [anyhow::Error], by what it downcasts to. *)
Inductive SourceError := SourceRefused (e : QueryParamError) | SourceSqlx (e : SqlxError) | SourceOther (display : string).

(** ** Codes and columns *)

Definition RULE_PREFIXES : list string := ["ck_"; "uq_"; "ex_"; "tg_"].
(** [Iterator::find_map] *)
Fixpoint find_map {A B} (f : A → option B) (l : list A) : option B :=
  match l with
  | [] => None
  | x :: l => match f x with Some b => Some b | None => find_map f l end
  end.

Definition code_from_constraint (constraint : string) : string :=
  default constraint
    (find_map (λ p, rest ← strip_prefix_str p constraint; '(_, code) ← split_once_str "__" rest;
                    if bool_decide (code = "") then None else Some code) RULE_PREFIXES).

Definition generated_code (constraint : string) : option string :=
  let code := code_from_constraint constraint in
  if bool_decide (code = constraint) then None else Some code.

Definition TENANT_KEYS : list string := ["company_id"; "tenant_id"; "org_unit_id"; "organization_id"].
Definition SCOPE_COLUMNS : list string :=
  ["company_id"; "tenant_id"; "org_unit_id"; "organization_id"; "deleted_at"].

Definition is_ident_char (c : ascii) : bool := is_ascii_alphanumeric c || Ascii.eqb c "_".
Definition ident (s : string) : option string :=
  if negb (bool_decide (s = "")) && str_forallb is_ident_char s then Some s else None.

Definition is_hex_digit (c : ascii) : bool :=
  is_ascii_digit c || ((97 <=? byte_of c) && (byte_of c <=? 102)).
Definition ends_in_digest (head : string) : bool :=
  let n := String.length head in
  (9 <? n)%nat &&
  match str_drop (n - 9) head with
  | String c digest => Ascii.eqb c "_" && str_forallb is_hex_digit digest
  | EmptyString => false
  end.

(** The next round of the loop over [TENANT_KEYS]. *)
Definition without_tenant_key (rest : string) : option string :=
  find_map (λ key, r ← strip_prefix_str key rest; r ← strip_prefix_str "_" r;
                   if bool_decide (r = "") then None else Some r) TENANT_KEYS.
(** Each round shortens the text, so its length is fuel enough. *)
Fixpoint strip_tenant_keys (fuel : nat) (rest : string) : string :=
  match fuel with
  | O => rest
  | S fuel => match without_tenant_key rest with Some next => strip_tenant_keys fuel next | None => rest end
  end.

Definition constraint_column (constraint table code : string) : option string :=
  match strip_prefix_str "fk_" constraint with
  | Some rest =>
      column ← strip_prefix_str table rest; column ← strip_prefix_str "_" column;
      ident (default column (strip_suffix_str "_fk" column))
  | None =>
      name ← find_map (λ p, strip_prefix_str p constraint) RULE_PREFIXES;
      '(head, _) ← split_once_str "__" name;
      if ends_in_digest head then None
      else
        rest ← strip_prefix_str table head; rest ← strip_prefix_str "_" rest;
        let rest :=
          if bool_decide (code = "") then rest
          else match strip_suffix_str code rest ≫= strip_suffix_str "_" with
               | Some f => if bool_decide (f = "") then rest else f
               | None => rest
               end in
        ident (strip_tenant_keys (String.length rest) rest)
  end.

(** One column of a key's detail: the first identifier inside an expression. *)
Definition key_part (part : string) : option string :=
  let inner := match rsplit_once "(" part with Some (_, r) => r | None => part end in
  let name := (str_span is_ident_char (trim_matches (ascii_of_N 34) (trim inner))).1 in
  if bool_decide (name = "") then None else Some name.
Definition key_column (detail : string) : option string :=
  rest ← strip_prefix_str "Key (" detail;
  '(cols, _) ← split_once_str ")=" rest;
  let names := omap key_part (str_split "," cols) in
  match List.find (λ n, negb (bool_decide (n ∈ SCOPE_COLUMNS))) (reverse names) with
  | Some n => Some n
  | None => match names with [n] => Some n | _ => None end
  end.

(** ** Sentences *)
Definition subject_of (path : string) : string := if bool_decide (path = "") then "A value" else path.
Definition PREDICATES : list (string * string) :=
  [("required", "is required"); ("max_length", "is too long"); ("min_length", "is too short");
   ("length", "does not have the required length"); ("max", "is too large"); ("min", "is too small");
   ("range", "is out of the allowed range"); ("positive", "must be positive");
   ("non_negative", "must not be negative"); ("pattern", "does not have the expected form");
   ("alpha_dash", "may hold only letters, digits, '_' and '-'");
   ("alpha_num", "may hold only letters and digits"); ("values", "is not one of the allowed values");
   ("email", "must be an email address"); ("url", "must be an absolute URL");
   ("state_transition_not_declared", "cannot move to that state from its current one")].
Definition check_sentence (path code : string) : string :=
  match assoc code PREDICATES with
  | Some predicate => subject_of path +:+ " " +:+ predicate
  | None =>
      if bool_decide (path = "") then "The record does not satisfy one of its rules"
      else subject_of path +:+ " does not satisfy one of its rules"
  end.

Section errors.
Context {L : Libs}.

Definition taken_violation (path code : string) : Violation :=
  violation_new path code
    (if bool_decide (path = "") then "This value is already taken by another record"
     else path +:+ " is already taken by another record").

Definition scope_refusal (sqlstate : option string) (message : string) : option Violation :=
  if bool_decide (sqlstate = Some "42501") && str_contains message "row-level security policy" then
    Some (violation_new "" "scope_refused" "The record is outside the company or unit this request may write to")
  else None.

Definition given (column : option string) : option string :=
  match column with Some c => if bool_decide (c = "") then None else Some c | None => None end.

(** The field a broken constraint concerns. *)
Definition unique_path (constraint : option string) (detail : string) (column table : option string)
    (code : string) : string :=
  default "" (given column ∪ key_column detail ∪ (c ← constraint; t ← table; constraint_column c t code)).

Definition constraint_violation (kind : ErrorKind) (sqlstate constraint : option string) (detail : string)
    (column table : option string) : option Violation :=
  if bool_decide (kind = NotNullViolation) || bool_decide (sqlstate = Some "23502") then
    column ← given column;
    Some (violation_new column "required" (column +:+ " is required"))
  else if bool_decide (kind = UniqueViolation) || bool_decide (sqlstate = Some "23505") then
    let generated := constraint ≫= generated_code in
    Some (taken_violation (unique_path constraint detail column table (default "" generated))
            (default "taken" generated))
  else
    constraint ← constraint;
    let code := code_from_constraint constraint in
    let path := unique_path (Some constraint) detail column table code in
    match kind with
    | ForeignKeyViolation =>
        if str_contains detail "still referenced" then
          Some (violation_new "" "still_referenced"
                  "This record is still referenced by another record, so it cannot be removed")
        else
          Some (violation_new path "reference_missing"
                  (if bool_decide (path = "") then "The record refers to a record that does not exist"
                   else path +:+ " refers to a record that does not exist"))
    | CheckViolation => Some (violation_new path code (check_sentence path code))
    | _ =>
        if bool_decide (sqlstate = Some "23P01") then
          Some (violation_new "" code "The record overlaps another one it may not overlap")
        else None
    end.

(** [impl From<sqlx::Error> for RepositoryError] *)
Definition of_sqlx (e : SqlxError) : RepositoryError :=
  match e with
  | RowNotFound => RNotFound
  | DatabaseRefused e =>
      match scope_refusal (pe_code e) (pe_message e) with
      | Some v => RViolations [v]
      | None =>
          match constraint_violation (pe_kind e) (pe_code e) (pe_constraint e) (default "" (pe_detail e))
                  (pe_column e) (pe_table e) with
          | Some v => RViolations [v]
          | None =>
              if str_contains (pe_message e) "duplicate key" || str_contains (pe_message e) "unique constraint"
              then RViolations [taken_violation "" "taken"]
              else RDatabaseError (pe_message e)
          end
      end
  | DriverFailed display => RDatabaseError display
  end.

Definition from_source (e : SourceError) : RepositoryError :=
  match e with
  | SourceRefused r => RViolations [invalid_query (parameter r) (reason_as_str (reason r)) (message r)]
  | SourceSqlx e => of_sqlx e
  | SourceOther display => RDatabaseError display
  end.

(** ** Errors of a batch *)
Definition at_index (index : nat) (v : Violation) : Violation :=
  mkViolation (batch_item_path index (v_path v)) (v_code v) (v_params v) (v_message v).
Definition item_text (index : nat) (m : string) : string :=
  "item " +:+ show_Z (Z.of_nat index) +:+ ": " +:+ m.
Definition repository_at_batch_index (e : RepositoryError) (index : nat) : RepositoryError :=
  match e with
  | RViolations vs => RViolations (map (at_index index) vs)
  | RNotFound => RValidationError (item_text index "the record no longer exists or was deleted")
  | RAlreadyExists m => RAlreadyExists (item_text index m)
  | RValidationError m => RValidationError (item_text index m)
  | RDatabaseError m => RDatabaseError (item_text index m)
  | RSerializationError m => RSerializationError (item_text index m)
  | RConflict m => RConflict (item_text index m)
  | RInternalError m => RInternalError (item_text index m)
  end.
(** A [BatchItemError] names the item. *)
Definition from_batch_source (e : SourceError) (item : option nat) : RepositoryError :=
  match item with Some index => repository_at_batch_index (from_source e) index | None => from_source e end.
End errors.

(** ** The parameter behind a refusal

    [backbone-orm/src/filter/error.rs]: a list request whose statement the database refuses is answered
    with the parameter that caused it. The parameters come in the order their hash map is walked in. *)

(** The name Postgres quotes in [column .. does not exist], without its table. *)
Definition double_quote : ascii := ascii_of_N 34.
Definition missing_column (message : string) : option string :=
  rest ← strip_prefix_str "column " message;
  let name := match split_once_str " does not exist" rest with Some (a, _) => a | None => rest end in
  let name := trim_matches double_quote (trim name) in
  let name := match rsplit_once "." name with Some (_, b) => b | None => name end in
  let name := trim_matches double_quote name in
  if bool_decide (name = "") then None else Some name.

(** The value Postgres quotes after a type error. *)
Definition quoted_literal (message : string) : option string :=
  match split_once_str (": " +:+ String double_quote "") message with
  | Some (_, rest) => '(literal, _) ← rsplit_once double_quote rest; Some literal
  | None => '(_, rest) ← split_once double_quote message; '(literal, _) ← split_once double_quote rest; Some literal
  end.

Definition first_piece (sep s : string) : string := match split_once_str sep s with Some (a, _) => a | None => s end.
Definition expected_of (message : string) : string :=
  let lower := to_ascii_lowercase message in
  if str_contains lower "for enum" then "one of the accepted values"
  else
    let ty := match split_once_str " for type " lower with
              | Some (_, t) => trim (first_piece ":" (first_piece " for type " t))
              | None => ""
              end in
    if bool_decide (ty ∈ ["integer"; "bigint"; "smallint"; "numeric"; "real"; "double precision"; "money"]) then "a number"
    else if bool_decide (ty = "uuid") then "a UUID"
    else if bool_decide (ty = "boolean") then "true or false"
    else if bool_decide (ty = "date") then "a date"
    else if starts_with ty "timestamp" || starts_with ty "time" then "a date and time"
    else if str_contains lower "date/time" then "a date and time"
    else "a value of the column's type".

Definition GRAMMAR_KEYS : list string :=
  ["orderby"; "sort"; "search"; "searchfields"; "limit"; "offset"; "page"; "pagesize"; "perpage"; "per_page";
   "after"; "before"; "estimate"; "estimate_total"; "fields"; "include"; "with"].
Definition is_grammar_key (base : string) : bool := bool_decide (to_ascii_lowercase base ∈ GRAMMAR_KEYS).
(** [a[b]] is [a] and [b]. *)
Definition split_key (key : string) : string * option string :=
  match find_char "[" key with
  | Some (base, rest) => match strip_last "]" key with Some _ => (base, Some (default "" (strip_last "]" rest))) | None => (key, None) end
  | None => (key, None)
  end.
(** [found.sort()] of the keys that are hit. *)
Definition sorted_keys (hit : string → string → bool) (filters : list (string * string)) : list string :=
  merge_sort str_le (map fst (List.filter (λ kv, negb (is_internal_key kv.1) && hit kv.1 kv.2) filters)).

Section attribution.
Context {U : Unicode}.
Implicit Types (filters : list (string * string)) (err : SourceError).

Definition sort_columns (v : string) : list string :=
  omap (λ part,
    let part := trim_start_char "-" (trim part) in
    let part := trim (first_piece ":" part) in
    if bool_decide (part = "") then None else Some (to_snake_case part)) (str_split "," v).
(** Does the parameter name the column. *)
Definition names_a_column (column key v : string) : bool :=
  let '(base, slot) := split_key key in
  let lower := to_ascii_lowercase base in
  if bool_decide (lower ∈ ["orderby"; "sort"]) then
    match slot with
    | Some col => bool_decide (to_snake_case col = column)
    | None => existsb (λ c, bool_decide (c = column)) (sort_columns v)
    end
  else if bool_decide (lower = "searchfields") then
    existsb (λ c, bool_decide (to_snake_case (trim c) = column)) (str_split "," v)
  else if is_grammar_key base then false
  else bool_decide (to_snake_case base = column).
Definition parameters_naming_column filters (column : string) : list string :=
  sorted_keys (names_a_column column) filters.
Definition carries_value (literal key v : string) : bool :=
  negb (is_grammar_key (split_key key).1) &&
  (bool_decide (trim v = literal) || existsb (λ w, bool_decide (trim w = literal)) (str_split "," v)).
Definition parameters_carrying_value filters (literal : string) : list string :=
  sorted_keys (carries_value literal) filters.

Definition PATTERN_OPERATORS : list string :=
  ["like"; "ilike"; "notlike"; "contain"; "notcontain"; "startwith"; "startswith"; "endwith"; "endswith"].
Definition could_raise (pattern : bool) (key _v : string) : bool :=
  let '(base, slot) := split_key key in
  match slot with
  | None => false
  | Some op =>
      negb (eq_ignore_ascii_case base "orderby" || eq_ignore_ascii_case base "sort") &&
      Bool.eqb (bool_decide (to_ascii_lowercase op ∈ PATTERN_OPERATORS)) pattern
  end.
Definition operator_candidates filters (pattern : bool) : list string := sorted_keys (could_raise pattern) filters.
Definition operator_refusal (param : string) : QueryParamError :=
  let op := default "" (split_key param).2 in
  mkParamError param UnsupportedOperator
    ("`" +:+ param +:+ "`: the `" +:+ op +:+ "` operator does not apply to this field's type").

(** [err.downcast_ref()] to a refusal of the database: its code and sentence. *)
Definition refused_by_database err : option (string * string) :=
  match err with SourceSqlx (DatabaseRefused e) => Some (default "" (pe_code e), pe_message e) | _ => None end.
Definition undefined_operator err : option bool :=
  match refused_by_database err with
  | Some (code, m) => if bool_decide (code = "42883") then Some (str_contains m "~~") else None
  | None => None
  end.
Definition TEXT_TYPES : list string := ["text"; "character varying"; "character"; "citext"].
(** Could the operator's column be of a type that lacks it. *)
Definition narrows (column_types : gmap string string) (pattern : bool) (key : string) : bool :=
  match column_types !! to_snake_case (split_key key).1 with
  | Some t => if pattern then negb (bool_decide (to_ascii_lowercase t ∈ TEXT_TYPES)) else true
  | None => true
  end.
Definition attribute_operator_error err filters (column_types : gmap string string) : SourceError :=
  match undefined_operator err with
  | None => err
  | Some pattern =>
      match List.filter (narrows column_types pattern) (operator_candidates filters pattern) with
      | [param] => SourceRefused (operator_refusal param)
      | _ => err
      end
  end.

Definition INVALID_VALUE_STATES : list string := ["22P02"; "22003"; "22007"; "22008"; "22018"; "22021"].
Definition invalid_value (param literal message : string) : QueryParamError :=
  mkParamError param InvalidValue
    ("`" +:+ param +:+ "`: `" +:+ clip literal +:+ "` is not a value `" +:+ (split_key param).1 +:+
     "` can take; expected " +:+ expected_of message).
Definition attribute_query_error err filters : SourceError :=
  match refused_by_database err with
  | None => err
  | Some (code, m) =>
      if bool_decide (code = "42703") then
        match missing_column m with
        | None => err
        | Some column =>
            match parameters_naming_column filters column with
            | param :: _ => SourceRefused (unknown_column param column)
            | [] => err
            end
        end
      else if bool_decide (code ∈ INVALID_VALUE_STATES) then
        match quoted_literal m with
        | None => err
        | Some literal =>
            match parameters_carrying_value filters literal with
            | param :: _ => SourceRefused (invalid_value param literal m)
            | [] => err
            end
        end
      else if bool_decide (code = "42883") then
        match operator_candidates filters (str_contains m "~~") with
        | [param] => SourceRefused (operator_refusal param)
        | _ => err
        end
      else err
  end.
End attribution.

Section examples.
Import Json.Concrete.
Definition answer (k : ErrorKind) (state constraint : string) (detail : string) (column table : option string) :=
  option_map (λ v, (v_path v, v_code v)) (constraint_violation k (Some state) (Some constraint) detail column table).
Example constraint_answers :
  answer ForeignKeyViolation "23503" "fk_subdistricts_district_id"
    "Key (district_id)=(1484f475) is not present in table districts." None None = Some ("district_id", "reference_missing") ∧
  answer CheckViolation "23514" "ck_countries_name_max_length__max_length" "" None (Some "countries") = Some ("name", "max_length") ∧
  answer UniqueViolation "23505" "uq_items__sku_taken" "Key (org_unit_id, lower(sku::text))=(a, b) already exists." None (Some "items")
    = Some ("sku", "sku_taken") ∧
  answer UniqueViolation "23505" "uq_items_company_id_org_unit_id_sku__unique" "" None (Some "items") = Some ("sku", "unique") ∧
  answer UniqueViolation "23505" "uq_members_org_unit_id__unique" "" None (Some "members") = Some ("org_unit_id", "unique") ∧
  answer UniqueViolation "23505" "uq_projects_company_id_some_long_fiel_0a1b2c3d__code_taken" "" None (Some "projects")
    = Some ("", "code_taken") ∧
  answer ForeignKeyViolation "23503" "fk_user_roles_role_id_fk" "" None (Some "user_roles") = Some ("role_id", "reference_missing") ∧
  answer OtherKind "23P01" "ex_tax_rates__overlapping_validity" "" None (Some "tax_rates") = Some ("", "overlapping_validity") ∧
  answer OtherKind "42P01" "x" "" None None = None.
Proof. vm_compute. repeat split; reflexivity. Qed.
End examples.

(** ** Facts *)

Lemma strip_prefix_str_app p s : strip_prefix_str p (p +:+ s) = Some s.
Proof. induction p as [|c p IH]; [by destruct s|]. simpl. by rewrite Ascii.eqb_refl. Qed.
Lemma strip_prefix_str_Some p s r : strip_prefix_str p s = Some r → s = p +:+ r.
Proof.
  revert s. induction p as [|c p IH]; intros [|d s] H; simplify_eq/=; [done|done|].
  destruct (Ascii.eqb_spec c d) as [->|]; [|done]. by rewrite (IH _ H).
Qed.

(** [head] and the ["_"] after it hold no ["__"], so the first one is the separator. *)
Definition one_underscore (head : string) : Prop := str_contains (head +:+ "_") "__" = false.
Lemma split_once_separator head code :
  one_underscore head → split_once_str "__" (head +:+ "__" +:+ code) = Some (head, code).
Proof.
  unfold one_underscore. induction head as [|c head IH]; intros H; [done|].
  rewrite !str_app_cons in *. cbn [str_contains] in H. apply orb_false_iff in H as [Hp H].
  specialize (IH H). cbn [split_once_str].
  destruct (strip_prefix_str "__" (String c (head +:+ "__" +:+ code))) as [r|] eqn:E.
  - exfalso. apply strip_prefix_str_Some in E.
    destruct head as [|d head]; cbn [String.append] in E, Hp; injection E; intros; subst;
      (destruct head || idtac); vm_compute in Hp; discriminate Hp.
  - change (String "_" (String "_" ("" +:+ code))) with ("__" +:+ code) in *. by rewrite E, IH.
Qed.

(** A name the schema generator gives a constraint of [column] of [table] for the rule [code]. *)
Definition constraint_name (prefix table column code : string) : string :=
  prefix +:+ (table +:+ "_" +:+ column) +:+ "__" +:+ code.
Definition names_column (table column code : string) : Prop :=
  one_underscore (table +:+ "_" +:+ column) ∧ ends_in_digest (table +:+ "_" +:+ column) = false ∧
  ident column = Some column ∧ code ≠ "" ∧
  without_tenant_key column = None ∧ strip_suffix_str code column ≫= strip_suffix_str "_" = None.

Lemma find_map_ext {A B} (f g : A → option B) l : (∀ x, f x = g x) → find_map f l = find_map g l.
Proof. intros H. induction l as [|x l IH]; [done|]. simpl. by rewrite H, IH. Qed.
Lemma find_prefix {B} (f : string → option B) p name :
  p ∈ ["ck_"; "uq_"] →
  find_map (λ q, rest ← strip_prefix_str q (p +:+ name); f rest) RULE_PREFIXES = f name.
Proof.
  assert (∀ q, q ≠ p → q ∈ RULE_PREFIXES → p ∈ ["ck_"; "uq_"] → strip_prefix_str q (p +:+ name) = None) as Hne.
  { intros q Hq Hin Hp.
    repeat (apply elem_of_cons in Hp as [->|Hp]); try by apply elem_of_nil in Hp.
    all: repeat (apply elem_of_cons in Hin as [->|Hin]); by (apply elem_of_nil in Hin || destruct name). }
  intros Hp. pose proof Hp as Hp'. unfold RULE_PREFIXES in *. cbn [find_map].
  repeat (apply elem_of_cons in Hp as [->|Hp]); [| |by apply elem_of_nil in Hp].
  all: rewrite !strip_prefix_str_app, ?Hne by (done || set_solver); simpl; by destruct (f name).
Qed.

Lemma code_of_name p table column code :
  p ∈ ["ck_"; "uq_"] → names_column table column code →
  code_from_constraint (constraint_name p table column code) = code.
Proof.
  intros Hp (H1 & _ & _ & Hc & _). unfold code_from_constraint, constraint_name.
  set (name := (table +:+ "_" +:+ column) +:+ "__" +:+ code).
  assert (split_once_str "__" name = Some (table +:+ "_" +:+ column, code)) as Hs by by apply split_once_separator.
  rewrite (find_prefix (λ rest, '(_, code) ← split_once_str "__" rest;
                                if bool_decide (code = "") then None else Some code)) by done.
  rewrite Hs. simpl. by rewrite bool_decide_eq_false_2.
Qed.

Lemma length_append a b : String.length (a +:+ b) = (String.length a + String.length b)%nat.
Proof. induction a as [|c a IH]; [done|]. simpl. by rewrite IH. Qed.

Lemma name_not_code p table column code :
  p ∈ ["ck_"; "uq_"] → code ≠ constraint_name p table column code.
Proof.
  intros _ H. apply (f_equal String.length) in H. unfold constraint_name in H.
  rewrite !length_append in H. simpl in H. lia.
Qed.

Lemma strip_tenant_keys_none n r : without_tenant_key r = None → strip_tenant_keys n r = r.
Proof. intros H. destruct n; simpl; [done|by rewrite H]. Qed.

Lemma column_of_name p table column code :
  p ∈ ["ck_"; "uq_"] → names_column table column code →
  constraint_column (constraint_name p table column code) table code = Some column.
Proof.
  intros Hp (H1 & H2 & H3 & Hc & H4 & H5). unfold constraint_column, constraint_name.
  set (name := (table +:+ "_" +:+ column) +:+ "__" +:+ code).
  assert (split_once_str "__" name = Some (table +:+ "_" +:+ column, code)) as Hs by by apply split_once_separator.
  assert (find_map (λ q, strip_prefix_str q (p +:+ name)) RULE_PREFIXES = Some name) as ->.
  { rewrite <- (find_prefix Some p name Hp). apply find_map_ext. intros q. by destruct (strip_prefix_str q _). }
  assert (strip_prefix_str "fk_" (p +:+ name) = None) as ->.
  { repeat (apply elem_of_cons in Hp as [->|Hp]); [done..|by apply elem_of_nil in Hp]. }
  cbn [mbind option_bind]. rewrite Hs. cbn [mbind option_bind]. rewrite H2, strip_prefix_str_app. cbn [mbind option_bind].
  rewrite strip_prefix_str_app. cbn [mbind option_bind].
  rewrite bool_decide_eq_false_2 by done. rewrite H5, strip_tenant_keys_none by done.
  by destruct column.
Qed.

Lemma fk_column_of_name table column :
  ident column = Some column → strip_suffix_str "_fk" column = None →
  constraint_column ("fk_" +:+ table +:+ "_" +:+ column) table ("fk_" +:+ table +:+ "_" +:+ column) = Some column.
Proof.
  intros Hi Hs. unfold constraint_column. rewrite !strip_prefix_str_app. cbn [mbind option_bind].
  rewrite strip_prefix_str_app. cbn [mbind option_bind].
  by rewrite Hs.
Qed.
Lemma fk_code table column :
  code_from_constraint ("fk_" +:+ table +:+ "_" +:+ column) = "fk_" +:+ table +:+ "_" +:+ column.
Proof. done. Qed.

(** Its length is fuel enough: more rounds of the loop strip nothing more. *)
Lemma without_tenant_key_shorter r r' : without_tenant_key r = Some r' → (String.length r' < String.length r)%nat.
Proof.
  unfold without_tenant_key. generalize TENANT_KEYS. intros keys. induction keys as [|k keys IH]; [done|]. cbn [find_map].
  destruct (strip_prefix_str k r) as [r1|] eqn:E1; [|exact IH]. cbn [mbind option_bind].
  destruct (strip_prefix_str "_" r1) as [r2|] eqn:E2; [|exact IH]. cbn [mbind option_bind].
  case_bool_decide; [exact IH|]. intros [= ->].
  apply strip_prefix_str_Some in E1 as ->. apply strip_prefix_str_Some in E2 as ->.
  rewrite !length_append. simpl. lia.
Qed.
Lemma strip_tenant_keys_done n r : (String.length r ≤ n)%nat → without_tenant_key (strip_tenant_keys n r) = None.
Proof.
  revert r. induction n as [|n IH]; intros r Hn; simpl.
  - destruct (without_tenant_key r) eqn:E; [|done]. apply without_tenant_key_shorter in E. lia.
  - destruct (without_tenant_key r) as [r'|] eqn:E; [|done]. apply IH.
    apply without_tenant_key_shorter in E. lia.
Qed.

Section answers.
Context {L : Libs}.

(** A driver's error that names a constraint of a table, and neither the column nor the key. *)
Definition bare_error (kind : ErrorKind) (code constraint table text : string) : SourceError :=
  SourceSqlx (DatabaseRefused
    (mkPgError kind (Some code) text (Some constraint) None None (Some table))).

Lemma bare_error_answer kind code c table text v :
  code ≠ "42501" → constraint_violation kind (Some code) (Some c) "" None (Some table) = Some v →
  from_source (bare_error kind code c table text) = RViolations [v].
Proof.
  intros Hc Hv. unfold from_source, bare_error, of_sqlx, scope_refusal. cbn [pe_code pe_kind pe_constraint pe_detail pe_column pe_table default].
  rewrite bool_decide_eq_false_2 by congruence. cbn [andb]. unfold default. by rewrite Hv.
Qed.
Lemma unique_path_bare c table code column :
  constraint_column c table code = Some column → unique_path (Some c) "" None (Some table) code = column.
Proof. intros H. unfold unique_path. cbn [given mbind option_bind]. by rewrite H. Qed.

(** What the three kinds of error answer. *)
Lemma check_answer c t :
  constraint_violation CheckViolation (Some "23514") (Some c) "" None (Some t) =
    let code := code_from_constraint c in let path := unique_path (Some c) "" None (Some t) code in
    Some (violation_new path code (check_sentence path code)).
Proof. reflexivity. Qed.
Lemma unique_answer c t :
  constraint_violation UniqueViolation (Some "23505") (Some c) "" None (Some t) =
    Some (taken_violation (unique_path (Some c) "" None (Some t) (default "" (generated_code c)))
            (default "taken" (generated_code c))).
Proof. reflexivity. Qed.
Lemma fk_answer c t :
  constraint_violation ForeignKeyViolation (Some "23503") (Some c) "" None (Some t) =
    let path := unique_path (Some c) "" None (Some t) (code_from_constraint c) in
    Some (violation_new path "reference_missing"
            (if bool_decide (path = "") then "The record refers to a record that does not exist"
             else path +:+ " refers to a record that does not exist")).
Proof. reflexivity. Qed.

(** a broken rule is answered on its field, under its code, in a sentence. When the database
    refuses a write by a generated check, unique index or foreign key and says no more than the
    constraint's name, the answer is one violation: its path is the column the name holds, its code
    the rule's, its sentence made of these alone, so neither the constraint nor the table nor the
    driver's text is told; placed on an item of a batch, only the path changes. *)
Theorem broken_rule_named (table column code text : string) (index : nat) :
  names_column table column code →
  from_source (bare_error CheckViolation "23514" (constraint_name "ck_" table column code) table text) =
    RViolations [violation_new column code (check_sentence column code)] ∧
  from_source (bare_error UniqueViolation "23505" (constraint_name "uq_" table column code) table text) =
    RViolations [violation_new column code (column +:+ " is already taken by another record")] ∧
  (strip_suffix_str "_fk" column = None →
   from_source (bare_error ForeignKeyViolation "23503" ("fk_" +:+ table +:+ "_" +:+ column) table text) =
     RViolations [violation_new column "reference_missing" (column +:+ " refers to a record that does not exist")]) ∧
  from_batch_source (bare_error CheckViolation "23514" (constraint_name "ck_" table column code) table text) (Some index) =
    RViolations [violation_new (show_Z (Z.of_nat index) +:+ "/" +:+ column) code (check_sentence column code)].
Proof.
  intros Hn. pose proof Hn as (_ & _ & Hi & Hc & _).
  assert (column ≠ "") as Hne by by intros ->.
  assert (from_source (bare_error CheckViolation "23514" (constraint_name "ck_" table column code) table text) =
    RViolations [violation_new column code (check_sentence column code)]) as Hck.
  { apply bare_error_answer; [done|]. rewrite check_answer. cbv zeta. rewrite (code_of_name "ck_") by (done || set_solver).
    by rewrite (unique_path_bare _ _ _ column) by (apply (column_of_name "ck_"); done || set_solver). }
  split; [done|]. split; [|split].
  - apply bare_error_answer; [done|]. rewrite unique_answer. unfold generated_code. cbv zeta.
    rewrite (code_of_name "uq_") by (done || set_solver).
    rewrite (bool_decide_eq_false_2 (code = _)) by (apply name_not_code; set_solver). unfold default.
    rewrite (unique_path_bare _ _ _ column) by (apply (column_of_name "uq_"); done || set_solver).
    unfold taken_violation. by rewrite bool_decide_eq_false_2.
  - intros Hs. apply bare_error_answer; [done|]. rewrite fk_answer, fk_code.
    rewrite (unique_path_bare _ _ _ column) by by apply fk_column_of_name.
    cbv zeta. by rewrite (bool_decide_eq_false_2 (column = "")) by done.
  - unfold from_batch_source. rewrite Hck. cbn -[show_Z]. unfold at_index, violation_new, batch_item_path. simpl.
    by rewrite bool_decide_eq_false_2.
Qed.
End answers.

Lemma broken_rule_named_witness :
  names_column "tickets" "title" "max_length" ∧
  from_source (L:=Json.Concrete.libs)
    (bare_error CheckViolation "23514" "ck_tickets_title__max_length" "tickets" "violates check constraint") =
    RViolations [violation_new "title" "max_length" "title is too long"].
Proof.
  assert (names_column "tickets" "title" "max_length") as H.
  { split; [reflexivity|]. split; [reflexivity|]. split; [reflexivity|]. split; [discriminate|]. by split. }
  split; [exact H|]. exact (proj1 (broken_rule_named "tickets" "title" "max_length" "violates check constraint" 0 H)).
Defined.

(** ** What a refusal is attributed to *)
Lemma sorted_keys_perm hit filters filters' :
  filters ≡ₚ filters' → sorted_keys hit filters = sorted_keys hit filters'.
Proof.
  intros Hp. unfold sorted_keys. apply (Sorted_unique str_le); [apply Sorted_merge_sort, _..|].
  rewrite !merge_sort_Permutation. apply (fmap_Permutation fst).
  induction Hp as [|kv l l' _ IH|kv kv' l|l l' l'' _ IH1 _ IH2]; simpl; [done| | |by rewrite IH1].
  - destruct (_ && _); [by constructor|done].
  - destruct (_ && _), (_ && _); try done. by constructor.
Qed.
Lemma sorted_keys_hit hit filters key :
  key ∈ sorted_keys hit filters → is_internal_key key = false ∧ ∃ v, (key, v) ∈ filters ∧ hit key v = true.
Proof.
  unfold sorted_keys. rewrite merge_sort_Permutation. intros ([k v] & -> & Hin)%list_elem_of_fmap.
  apply list_elem_of_In, filter_In in Hin as [Hin [Hi Hh]%andb_prop]. simpl in *.
  split; [by destruct (is_internal_key k)|]. exists v. by rewrite list_elem_of_In.
Qed.

Section attributed.
Context {U : Unicode}.

(** What a refusal may say of a parameter [key] holding [v]: no more than these hold. *)
Definition grounded (message : string) (key v : string) (r : QueryParamError) : Prop :=
  (∃ column, r = unknown_column key column ∧ names_a_column column key v = true) ∨
  (∃ literal, r = invalid_value key literal message ∧ carries_value literal key v = true) ∨
  (r = operator_refusal key ∧ ∃ pattern, could_raise pattern key v = true).
Definition attributed (err : SourceError) (filters : list (string * string)) (answer : SourceError) : Prop :=
  answer = err ∨
  ∃ code m r key v, refused_by_database err = Some (code, m) ∧ answer = SourceRefused r ∧ parameter r = key ∧
    (key, v) ∈ filters ∧ is_internal_key key = false ∧ grounded m key v r.

Lemma attribute_query_error_attributed err filters : attributed err filters (attribute_query_error err filters).
Proof.
  unfold attribute_query_error. destruct (refused_by_database err) as [[code m]|] eqn:Hr; [|by left].
  case_bool_decide.
  { destruct (missing_column m) as [column|]; [|by left].
    destruct (parameters_naming_column filters column) as [|key ?] eqn:Hk; [by left|]. right.
    destruct (sorted_keys_hit (names_a_column column) filters key) as (Hi & v & Hin & Hv);
      [unfold parameters_naming_column in Hk; rewrite Hk; left|].
    exists code, m, (unknown_column key column), key, v. repeat split; try done. left. eauto. }
  case_bool_decide.
  { destruct (quoted_literal m) as [literal|]; [|by left].
    destruct (parameters_carrying_value filters literal) as [|key ?] eqn:Hk; [by left|]. right.
    destruct (sorted_keys_hit (carries_value literal) filters key) as (Hi & v & Hin & Hv);
      [unfold parameters_carrying_value in Hk; rewrite Hk; left|].
    exists code, m, (invalid_value key literal m), key, v. repeat split; try done. right. left. eauto. }
  case_bool_decide; [|by left].
  destruct (operator_candidates filters _) as [|key [|]] eqn:Hk; [by left| |by left]. right.
  destruct (sorted_keys_hit (could_raise (str_contains m "~~")) filters key) as (Hi & v & Hin & Hv);
    [unfold operator_candidates in Hk; rewrite Hk; left|].
  exists code, m, (operator_refusal key), key, v. repeat split; try done. right. right. eauto.
Qed.

Lemma attribute_operator_error_attributed err filters types :
  attributed err filters (attribute_operator_error err filters types).
Proof.
  unfold attribute_operator_error, undefined_operator.
  destruct (refused_by_database err) as [[code m]|] eqn:Hr; [|by left]. case_bool_decide; [|by left].
  set (l := List.filter _ _). destruct l as [|key [|]] eqn:Hl; [by left| |by left]. right.
  assert (key ∈ operator_candidates filters (str_contains m "~~")) as Hk.
  { apply list_elem_of_In. apply (proj1 (filter_In (narrows types (str_contains m "~~")) key _)).
    fold l. rewrite Hl. by left. }
  destruct (sorted_keys_hit _ _ _ Hk) as (Hi & v & Hin & Hv).
  exists code, m, (operator_refusal key), key, v. repeat split; try done. right. right. eauto.
Qed.

Lemma attribute_query_error_perm err filters filters' :
  filters ≡ₚ filters' → attribute_query_error err filters = attribute_query_error err filters'.
Proof.
  intros Hp. unfold attribute_query_error, parameters_naming_column, parameters_carrying_value, operator_candidates.
  destruct (refused_by_database err) as [[code m]|]; [|done].
  repeat case_bool_decide; [destruct (missing_column m)|destruct (quoted_literal m)|..]; try done;
    by rewrite (sorted_keys_perm _ _ _ Hp).
Qed.
Lemma attribute_operator_error_perm err filters filters' types :
  filters ≡ₚ filters' → attribute_operator_error err filters types = attribute_operator_error err filters' types.
Proof.
  intros Hp. unfold attribute_operator_error, operator_candidates.
  destruct (undefined_operator err); [|done]. by rewrite (sorted_keys_perm _ _ _ Hp).
Qed.

(** a list request that the database refuses is answered with its own parameter. The answer does not depend on
    the order the request's hash map is walked in, and it is the failure as it came, or a refusal
    of a parameter the request has, never one of the internal keys, that says no more than what holds of that
    parameter: it names the column, carries the value, or asks for the operator. *)
Theorem refusals_name_parameters err (filters filters' : list (string * string)) types :
  filters ≡ₚ filters' →
  let answer f := attribute_operator_error (attribute_query_error err f) f types in
  answer filters = answer filters' ∧ attributed err filters (answer filters).
Proof.
  intros Hp answer. split.
  - unfold answer. rewrite (attribute_query_error_perm _ _ _ Hp). by apply attribute_operator_error_perm.
  - unfold answer. destruct (attribute_query_error_attributed err filters) as [->|Ha];
      [apply attribute_operator_error_attributed|].
    right. destruct Ha as (code & m & r & key & v & Hr & -> & H). exists code, m, r, key, v. auto.
Qed.

End attributed.

Section attribution_examples.
#[local] Existing Instance ascii_unicode.
Lemma refusals_name_parameters_witness :
  let err := SourceSqlx (DatabaseRefused (mkPgError OtherKind (Some "42703") "column t.full_name does not exist" None None None None)) in
  let filters := [("orderby", "age"); ("fullName[eq]", "x")] in
  filters ≡ₚ reverse filters ∧
  let answer f := attribute_operator_error (attribute_query_error err f) f ∅ in
  answer filters = answer (reverse filters) ∧ attributed err filters (answer filters).
Proof.
  split; [by rewrite reverse_Permutation|].
  apply (refusals_name_parameters _ [("orderby", "age"); ("fullName[eq]", "x")] _ ∅).
  by rewrite reverse_Permutation.
Defined.
Definition quoted (s : string) : string := String double_quote "" +:+ s +:+ String double_quote "".
Definition refused_as (code m : string) (filters : list (string * string)) : option (string * string) :=
  match attribute_query_error (SourceSqlx (DatabaseRefused (mkPgError OtherKind (Some code) m None None None None))) filters with
  | SourceRefused r => Some (parameter r, message r)
  | _ => None
  end.
Example attribution_answers :
  refused_as "42703" ("column " +:+ quoted "t" +:+ "." +:+ quoted "full_name" +:+ " does not exist")
    [("orderby", "-fullName,name:asc"); ("age[gte]", "3")] = Some ("orderby", "`orderby`: `full_name` is not a field of this resource") ∧
  refused_as "22P02" ("invalid input syntax for type uuid: " +:+ quoted "abc") [("ownerId", "abc"); ("limit", "abc")] =
    Some ("ownerId", "`ownerId`: `abc` is not a value `ownerId` can take; expected a UUID") ∧
  refused_as "42883" "operator does not exist: integer ~~* text" [("age[contain]", "3"); ("qty[contain]", "3")] = None ∧
  refused_as "42P01" "relation does not exist" [("a", "b")] = None ∧
  missing_column ("relation " +:+ quoted "x" +:+ " does not exist") = None.
Proof. vm_compute. repeat split; reflexivity. Qed.
(** Two candidates, of which one is a column of text. *)
Example operator_narrowed :
  attribute_operator_error (SourceSqlx (DatabaseRefused (mkPgError OtherKind (Some "42883") "operator does not exist: integer ~~* text" None None None None)))
    [("age[contain]", "3"); ("name[contain]", "3")] {[ "age" := "integer"; "name" := "text" ]}
  = SourceRefused (operator_refusal "age[contain]").
Proof. vm_compute. reflexivity. Qed.
End attribution_examples.
