(* ===== verification/CrudWrite.v ===== *)
(** * A write and what takes part in it

    [backbone-core/src/]: [persistence/traits.rs] (entities, the repository and its default
    methods), [write_guard.rs], [write_hooks.rs] (contexts, changes, nested triggers);
    [backbone-messaging/src/crud_event.rs]. An entity's own code, its JSON form, the guard, the
    hooks, the lifecycle and the publisher are classes: parameters of the service. *)
From Stdlib Require Import ZArith Lia Ascii.
From S2P Require Import Prelude RustStr Json WorkflowExpr Database WriteHooks RepositoryErrors.

Local Open Scope Z_scope.

(** ** Entities *)

Record Reference := mkReference { ref_field : string; ref_table : string; ref_column : string }.

(** A [serde_path_to_error::Error]: where, and what the reader said. *)
Inductive Segment := SegSeq (index : nat) | SegMap (key : string) | SegEnum (variant : string) | SegUnknown.
Record PathError := mkPathError { at_path : list Segment; inner_message : string }.

Class PersistentEntity (E : Type) {L : Libs} := {
  entity_id : E → string;
  set_entity_id : string → E → E;
  created_at : E → option instant;
  set_created_at : instant → E → E;
  updated_at : E → option instant;
  set_updated_at : instant → E → E;
  deleted_at : E → option instant;
  set_deleted_at : option instant → E → E;
  write_protected_fields : list string;
  state_fields : list string;
  references : list Reference;
  type_name : string;                                   (* [std::any::type_name] *)
  entity_value : E → string + Value;                    (* [serde_json::to_value] *)
  entity_of_value : Value → PathError + E;              (* [serde_path_to_error::deserialize] *)
}.
#[global] Arguments write_protected_fields E {_ _}.
#[global] Arguments state_fields E {_ _}.
#[global] Arguments references E {_ _}.
#[global] Arguments type_name E {_ _}.

(** ** What a write runs under *)

(** [RequestAuditContext], as far as writes read it. *)
Record RequestAudit := mkAudit { au_actor : string; au_correlation_id : string }.
(** The task-locals of a request. *)
Record Request := mkRequest {
  rq_task : Task;
  rq_audit : option RequestAudit;
  rq_transition : option string;
  rq_trigger_depth : Z;   (* u32 *)
}.
Definition with_task (rq : Request) (tk : Task) : Request :=
  mkRequest tk (rq_audit rq) (rq_transition rq) (rq_trigger_depth rq).
(** [as_transition] *)
Definition as_transition {X} (verb : string) (f : Request → X) (rq : Request) : X :=
  f (mkRequest (rq_task rq) (rq_audit rq) (Some verb) (rq_trigger_depth rq)).

Definition non_empty (s : string) : option string := if bool_decide (s = "") then None else Some s.
(** The audit attribution's actor. *)
Definition request_actor (rq : Request) : option string := a ← rq_audit rq; non_empty (au_actor a).

Inductive WriteKind := Create | Update | Delete | Restore | HardDelete.

Section write.
Context {L : Libs} {E : Type} {PE : PersistentEntity E} {T W : Type} {HW : World W}.
Implicit Types (rq : Request) (e before after : E).

(** [WriteCtx::current]: the correlation id is the task's, else the audit attribution's, else a
    fresh one. *)
Definition write_ctx_current {F} (outbox_schema : option string) rq : sm (St T W) F WriteCtx :=
  let bound := match task_correlation (rq_task rq) with
               | Some id => Some id
               | None => a ← rq_audit rq; non_empty (au_correlation_id a)
               end in
  correlation_id ← match bound with
                   | Some id => mret id
                   | None => u ← fresh_uuid; mret (uuid_to_string u)
                   end;
  mret (mkWriteCtx correlation_id None (request_actor rq) (task_company (rq_task rq)) outbox_schema).

(** ** The write guard *)

(** [write_guard::WriteCtx] *)
Record GuardCtx := mkGuardCtx {
  gc_kind : WriteKind;
  gc_before : option E;
  gc_after : option E;
  gc_actor : option string;
  gc_at : instant;
  gc_transition : option string;
}.
Definition guard_ctx {F} rq (kind : WriteKind) (before after : option E) : sm (St T W) F GuardCtx :=
  now ← utc_now;
  mret (mkGuardCtx kind before after (request_actor rq) now (rq_transition rq)).

Record GuardOutcome := mkOutcome { refuse : list Violation; shadow : list Violation }.
Definition allow : GuardOutcome := mkOutcome [] [].
Definition merge_outcomes (a b : GuardOutcome) : GuardOutcome :=
  mkOutcome (refuse a ++ refuse b) (shadow a ++ shadow b).

(** A guard has no way to fail but to panic. *)
Class WriteGuard := { guard_check : Request → GuardCtx → sm (St T W) Empty_set GuardOutcome }.
Definition AllowAll : WriteGuard := {| guard_check _ _ := mret allow |}.

(** ** Changes and hooks *)

Inductive Change :=
  | Created (after : E)
  | Updated (before after : E)
  | Transitioned (before after : E) (transition field : string) (from to : option string)
  | Deleted (before : E) (hard : bool)
  | Restored (entity : E).

Definition change_before (c : Change) : option E :=
  match c with
  | Updated b _ | Transitioned b _ _ _ _ _ | Deleted b _ => Some b
  | Created _ | Restored _ => None
  end.
Definition change_after (c : Change) : option E :=
  match c with
  | Created a | Updated _ a | Transitioned _ a _ _ _ _ => Some a
  | Restored e => Some e
  | Deleted _ _ => None
  end.
(** [subject]: the [expect] is never reached. *)
Definition change_subject (c : Change) : E :=
  match c with
  | Deleted b _ => b
  | Created a | Updated _ a | Transitioned _ a _ _ _ _ => a
  | Restored e => e
  end.

Definition value_ok (e : E) : option Value := match entity_value e with inr v => Some v | inl _ => None end.
(** The text of a state field. *)
Definition state_of (obj : option Value) (field : string) : option string :=
  o ← obj; v ← value_get field o; as_str v.
(** The state field a verb moved: the first whose value differs, else the entity's first. *)
Definition moved_field before after : option string :=
  match List.find (λ f, negb (bool_decide (state_of (value_ok before) f = state_of (value_ok after) f)))
          (state_fields E) with
  | Some f => Some f
  | None => head (state_fields E)
  end.
(** [Change::update] *)
Definition change_update rq before after : Change :=
  match rq_transition rq with
  | None => Updated before after
  | Some transition =>
      match moved_field before after with
      | Some field => Transitioned before after transition field
                        (state_of (value_ok before) field) (state_of (value_ok after) field)
      | None => Updated before after
      end
  end.

(** [field_changed] *)
Definition present (name : string) (v : Value) : option Value :=
  match value_get name v with Some w => if is_null w then None else Some w | None => None end.
Definition opt_value_eqb (a b : option Value) : bool :=
  match a, b with Some x, Some y => value_eqb x y | None, None => true | _, _ => false end.
Definition field_changed (c : Change) (name : string) : bool :=
  match change_after c ≫= value_ok with
  | Some (VObject m) =>
      let now := present name (VObject m) in
      match change_before c ≫= value_ok with
      | Some (VObject b) => negb (opt_value_eqb (present name (VObject b)) now)
      | _ => bool_decide (is_Some now)
      end
  | _ => false
  end.

(** [before] may fill fields of the row to be stored: it answers the row as it left it, where it
    touched it. *)
Class WriteHooks := {
  outbox_schema : option string;
  hooks_before : Request → WriteCtx → Change → sm (St T W) ServiceError (option E);
  hooks_after : Request → WriteCtx → Change → sm (St T W) ServiceError unit;
}.
Definition NoWriteHooks : WriteHooks :=
  {| outbox_schema := None; hooks_before _ _ _ := mret None; hooks_after _ _ _ := mret tt |}.

Definition TRIGGER_MAX_DEPTH : Z := 8.
Definition in_trigger {A} rq (f : Request → sm (St T W) ServiceError A) : sm (St T W) ServiceError A :=
  let depth := rq_trigger_depth rq in
  if TRIGGER_MAX_DEPTH <=? depth then
    sm_err (SViolations [with_param
      (violation_new "" "trigger_depth_exceeded"
        ("triggers are nested more than " +:+ show_Z TRIGGER_MAX_DEPTH +:+
         " deep: a trigger writes a row whose trigger writes a row, and so on"))
      "max" (value_of_i64 TRIGGER_MAX_DEPTH)])
  else f (mkRequest (rq_task rq) (rq_audit rq) (rq_transition rq) (depth + 1)).

(** [ServiceLifecycle] *)
Class ServiceLifecycle := {
  before_create : Request → E → sm (St T W) ServiceError E;
  after_create : Request → E → sm (St T W) ServiceError unit;
  before_update : Request → E → sm (St T W) ServiceError E;
  after_update : Request → E → sm (St T W) ServiceError unit;
  before_delete : Request → E → sm (St T W) ServiceError unit;
  after_delete : Request → string → sm (St T W) ServiceError unit;
  before_restore : Request → E → sm (St T W) ServiceError unit;
  before_hard_delete : Request → E → sm (St T W) ServiceError unit;
  before_restore_all : Request → sm (St T W) ServiceError unit;
  before_empty_trash : Request → sm (St T W) ServiceError unit;
}.
Definition NoOpLifecycle : ServiceLifecycle := {|
  before_create _ e := mret e; after_create _ _ := mret tt;
  before_update _ e := mret e; after_update _ _ := mret tt;
  before_delete _ _ := mret tt; after_delete _ _ := mret tt;
  before_restore _ _ := mret tt; before_hard_delete _ _ := mret tt;
  before_restore_all _ := mret tt; before_empty_trash _ := mret tt |}.

(** ** Events *)

Record EventMetadata := mkMetadata {
  em_event_id : string;
  em_timestamp : instant;
  em_correlation_id : option string;
  em_entity_type : string;
  em_aggregate_id : string;
}.
Definition metadata_new {F} (aggregate_id : string) : sm (St T W) F EventMetadata :=
  id ← fresh_uuid;
  now ← utc_now;
  mret (mkMetadata (uuid_to_string id) now None (type_name E) aggregate_id).

Inductive CrudEvent :=
  | EvCreated (entity : E) (metadata : EventMetadata)
  | EvUpdated (before after : E) (metadata : EventMetadata)
  | EvPatched (before after : E) (metadata : EventMetadata)
  | EvSoftDeleted (entity : E) (metadata : EventMetadata)
  | EvRestored (entity : E) (metadata : EventMetadata)
  | EvHardDeleted (id : string) (metadata : EventMetadata)
  | EvBulkCreated (entities : list E) (metadata : EventMetadata).
Definition event_metadata (ev : CrudEvent) : EventMetadata :=
  match ev with
  | EvCreated _ m | EvUpdated _ _ m | EvPatched _ _ m | EvSoftDeleted _ m | EvRestored _ m
  | EvHardDeleted _ m | EvBulkCreated _ m => m
  end.
Definition event_type (ev : CrudEvent) : string :=
  match ev with
  | EvCreated _ _ => "entity.created"
  | EvUpdated _ _ _ => "entity.updated"
  | EvPatched _ _ _ => "entity.patched"
  | EvSoftDeleted _ _ => "entity.soft_deleted"
  | EvRestored _ _ => "entity.restored"
  | EvHardDeleted _ _ => "entity.hard_deleted"
  | EvBulkCreated _ _ => "entity.bulk_created"
  end.

(** An [EventError], as its message. *)
Class CrudEventPublisher := { publish : Request → CrudEvent → sm (St T W) string unit }.
Definition NoOpCrudEventPublisher : CrudEventPublisher := {| publish _ _ := mret tt |}.
Definition publish_many {P : CrudEventPublisher} rq (events : list CrudEvent) : sm (St T W) string unit :=
  sm_iter (publish rq) events.

(** ** Repositories *)

Class CrudRepository := {
  repo_create : Request → E → sm (St T W) RepositoryError E;
  repo_find_by_id : Request → string → sm (St T W) RepositoryError (option E);
  repo_find_by_id_including_deleted : Request → string → sm (St T W) RepositoryError (option E);
  repo_update : Request → E → sm (St T W) RepositoryError E;
  repo_update_changed : Request → E → E → sm (St T W) RepositoryError (option E);
  repo_soft_delete : Request → string → sm (St T W) RepositoryError bool;
  repo_restore : Request → string → sm (St T W) RepositoryError (option E);
  repo_hard_delete : Request → string → sm (St T W) RepositoryError bool;
  repo_list_filtered : Request → Z → Z → list (string * string) → sm (St T W) RepositoryError (list E * Z);
  repo_list_deleted : Request → Z → Z → sm (St T W) RepositoryError (list E * Z);
  repo_list_deleted_filtered : Request → Z → Z → list (string * string) → sm (St T W) RepositoryError (list E * Z);
  repo_count : Request → sm (St T W) RepositoryError Z;
  repo_count_deleted : Request → sm (St T W) RepositoryError Z;
  repo_bulk_create : Request → list E → sm (St T W) RepositoryError (list E);
  repo_bulk_soft_delete : Request → list string → sm (St T W) RepositoryError Z;
  repo_bulk_restore : Request → list string → sm (St T W) RepositoryError (list E);
  repo_bulk_hard_delete : Request → list string → sm (St T W) RepositoryError Z;
  repo_bulk_update_changed : Request → list (E * E) → sm (St T W) RepositoryError (list E);
  repo_reference_visible : Request → string → string → Value → sm (St T W) RepositoryError (option bool);
  repo_write_pool : bool;   (* is there a pool to open a transaction on *)
}.

(** *** The default methods, over the ones they call *)
Definition default_update_changed (update : Request → E → sm (St T W) RepositoryError E) rq before after :
    sm (St T W) RepositoryError (option E) :=
  r ← attempt (update rq after);
  match r with
  | inr saved => mret (Some saved)
  | inl RNotFound => mret None
  | inl e => sm_err e
  end.
Definition default_bulk_delete (delete : Request → string → sm (St T W) RepositoryError bool) rq
    (ids : list string) : sm (St T W) RepositoryError Z :=
  let step (n : Z) (id : string) : sm (St T W) RepositoryError Z :=
    gone ← delete rq id; mret (n + Z.b2z gone) in
  sm_fold step 0 ids.
Definition default_bulk_restore (restore : Request → string → sm (St T W) RepositoryError (option E)) rq
    (ids : list string) : sm (St T W) RepositoryError (list E) :=
  let step (out : list E) (id : string) : sm (St T W) RepositoryError (list E) :=
    e ← restore rq id; mret (match e with Some e => out ++ [e] | None => out end) in
  sm_fold step [] ids.
Fixpoint bulk_update_from (update_changed : Request → E → E → sm (St T W) RepositoryError (option E)) rq
    (index : nat) (pairs : list (E * E)) : sm (St T W) RepositoryError (list E) :=
  match pairs with
  | [] => mret []
  | (before, after) :: pairs =>
      saved ← map_err (λ err, repository_at_batch_index err index) (update_changed rq before after);
      match saved with
      | None => sm_err (repository_at_batch_index RNotFound index)
      | Some saved => out ← bulk_update_from update_changed rq (S index) pairs; mret (saved :: out)
      end
  end.
Definition default_bulk_update_changed (update_changed : Request → E → E → sm (St T W) RepositoryError (option E))
    rq (pairs : list (E * E)) : sm (St T W) RepositoryError (list E) := bulk_update_from update_changed rq 0 pairs.
End write.

#[global] Arguments GuardCtx E : clear implicits.
#[global] Arguments WriteGuard {_} E T W.
#[global] Arguments Change E : clear implicits.
#[global] Arguments CrudEvent E : clear implicits.
#[global] Arguments WriteHooks {_} E T W.
#[global] Arguments ServiceLifecycle {_} E T W.
#[global] Arguments CrudEventPublisher E T W : clear implicits.
#[global] Arguments CrudRepository {_} E T W.
