(* ===== verification/CrudService.v ===== *)
(** * The generic CRUD service

    [backbone-core/src/service.rs]: [GenericCrudService] over any repository, guard, hooks,
    lifecycle and publisher. Every write runs in one transaction, in the order the service takes;
    its events are published after the commit. Logging is left out; aggregation passes through. *)
From Stdlib Require Import ZArith Lia Ascii.
From stdpp Require Import gmap sorting.
From S2P Require Import Prelude RustStr RustChar Json WorkflowExpr Database WriteHooks RepositoryErrors CrudWrite ListQuery.

Local Open Scope Z_scope.

Definition ALWAYS_WRITE_PROTECTED : list string := ["id"; "metadata"].
Definition MAX_BATCH_SIZE : Z := 1000.
Definition UPSERT_UNSUPPORTED : string :=
  "upsert is not available for this resource: a create body names no record to match. Create the record, or update it by id.".

(** [dedup_ids]: the first of each id, in order. *)
Fixpoint dedup_from (seen : gset string) (ids : list string) : list string :=
  match ids with
  | [] => []
  | id :: ids => if decide (id ∈ seen) then dedup_from seen ids else id :: dedup_from ({[id]} ∪ seen) ids
  end.
Definition dedup_ids (ids : list string) : list string := dedup_from ∅ ids.
Fixpoint first_duplicate_from (seen : gset string) (ids : list string) : option string :=
  match ids with
  | [] => None
  | id :: ids => if decide (id ∈ seen) then Some id else first_duplicate_from ({[id]} ∪ seen) ids
  end.
Definition first_duplicate_id (ids : list string) : option string := first_duplicate_from ∅ ids.

Section errors.
Context {L : Libs}.

Definition check_batch_size (count : nat) : res ServiceError unit :=
  if MAX_BATCH_SIZE <? Z.of_nat count then
    Err (SValidation ("Batch too large: " +:+ show_Z (Z.of_nat count) +:+ " items exceeds the maximum of " +:+
                      show_Z MAX_BATCH_SIZE +:+ "."))
  else Ok tt.

Definition at_batch_index (err : ServiceError) (index : nat) : ServiceError :=
  match err with
  | SViolations vs => SViolations (map (at_index index) vs)
  | SRepository e => SRepository (repository_at_batch_index e index)
  | SValidation m => SValidation (item_text index m)
  | SAlreadyExists m => SAlreadyExists (item_text index m)
  | SInternal m => SInternal (item_text index m)
  | SNotFound => SValidation (item_text index "not found")
  end.

Definition violations_of (err : ServiceError) : option (list Violation) :=
  match err with SViolations vs | SRepository (RViolations vs) => Some vs | _ => None end.
End errors.

(** A JSON object. *)
Abbreviation Obj := (list (string * Value)).

Section protection.
Context {L : Libs} {E : Type} {PE : PersistentEntity E}.

Definition as_object (e : E) : res ServiceError Obj :=
  match entity_value e with
  | inl m => Err (SInternal m)
  | inr (VObject o) => Ok o
  | inr _ => Err (SInternal "an entity must serialize to a JSON object")
  end.

Definition not_writable (key : string) : Violation :=
  violation_new key "field_not_writable"
    ("field_not_writable: `" +:+ key +:+
     "` cannot be changed by a generic write; it changes only through the operation that owns it").
(** The fields no write may change; a verb's own write may move the state fields. *)
Definition protected_fields (in_transition : bool) : list string :=
  filter (λ key, ¬ (in_transition = true ∧ key ∈ state_fields E))
    (ALWAYS_WRITE_PROTECTED ++ write_protected_fields E).
Definition refuse_protected_changes (in_transition : bool) (before after : Obj) : res ServiceError unit :=
  match filter (λ key, opt_value_eqb (map_get key before) (map_get key after) = false)
          (protected_fields in_transition) with
  | [] => Ok tt
  | refused => Err (SViolations (map not_writable refused))
  end.

(** [patch_type_refusal] *)
Definition segment_text (s : Segment) : option string :=
  match s with
  | SegSeq i => Some (show_Z (Z.of_nat i))
  | SegMap k => Some k
  | SegEnum v => Some v
  | SegUnknown => None
  end.
(** The message without the reader's position in its input. *)
Definition without_position (message : string) : string :=
  match split_once_str (str_rev " at line ") (str_rev message) with
  | Some (_, r) => str_rev r
  | None => message
  end.
Definition patch_type_refusal (e : PathError) : ServiceError :=
  let path := str_join "/" (omap segment_text (at_path e)) in
  let message := without_position (inner_message e) in
  let violation :=
    match strip_prefix_str "missing field `" message with
    | Some rest =>
        let f := default "" (head (str_split "`" rest)) in
        let field_path := if bool_decide (path = "") then f else path +:+ "/" +:+ f in
        violation_new field_path "required" (field_path +:+ " is required")
    | None =>
        if starts_with message "invalid type: null" then
          violation_new path "required" ((if bool_decide (path = "") then "A value" else path) +:+ " is required")
        else violation_new path "invalid_value" (if bool_decide (path = "") then message else path +:+ ": " +:+ message)
    end in
  SViolations [violation].

Definition unknown_field (k : string) : Violation :=
  violation_new k "unknown_field" ("unknown_field: `" +:+ k +:+ "` is not a field of this record").
(** [merge_patch]: the patch in whatever order its map is walked. *)
Definition merge_patch (in_transition : bool) (before : E) (fields : list (string * Value)) : res ServiceError E :=
  before_obj ← as_object before;
  let merged := foldl (λ m kv, map_insert kv.1 kv.2 m) before_obj fields in
  let supplied := map fst (filter (λ kv, is_null kv.2 = false) fields) in
  patched ← match entity_of_value (VObject merged) with
            | inr e => Ok e
            | inl e => Err (patch_type_refusal e)
            end;
  after_obj ← as_object patched;
  match filter (λ k, map_get k after_obj = None) supplied with
  | [] => _ ← refuse_protected_changes in_transition before_obj after_obj; mret patched
  | unknown => Err (SViolations (map unknown_field (merge_sort str_le unknown)))
  end.
End protection.

Section service.
Context {L : Libs} {E C U : Type} {PE : PersistentEntity E} {T W : Type} {HW : World W}.
Context {R : CrudRepository E T W} {WG : WriteGuard E T W} {WH : WriteHooks E T W}.
Context {LC : ServiceLifecycle E T W} {P : CrudEventPublisher E T W}.
(** [FromCreateDto], [ApplyUpdateDto]; the driver's error a transaction failed with. *)
Variable from_create_dto : C → sm (St T W) ServiceError E.
Variable apply_update : E → U → sm (St T W) ServiceError E.
Variable driver_error : DbError → SqlxError.
Implicit Types (rq : Request) (e before after : E) (id : string) (ids : list string).
#[local] Abbreviation Svc := (sm (St T W) ServiceError).

Definition of_repo {A} (m : sm (St T W) RepositoryError A) : Svc A := map_err SRepository m.
Definition in_transition rq : bool := bool_decide (is_Some (rq_transition rq)).
Definition write_ctx rq : Svc WriteCtx := write_ctx_current outbox_schema rq.

(** [atomically]: where the repository has a pool, one write transaction. *)
Definition atomically {A} rq (work : Request → Svc A) : Svc A :=
  if repo_write_pool then
    in_write_tx (λ err, SRepository (from_source (SourceSqlx (driver_error err)))) (rq_task rq)
      (λ tk, work (with_task rq tk))
  else work rq.

(** What an event's publication answers is ignored. *)
Definition publish_all rq (events : list (CrudEvent E)) : Svc unit :=
  sm_iter (λ ev, _ ← attempt (publish rq ev); mret tt) events.

(** ** What each write is asked *)

Definition consult_as rq (kind : WriteKind) (before after : option E) (log_shadow : bool) : Svc unit :=
  ctx ← guard_ctx rq kind before after;
  outcome ← map_err (λ err : Empty_set, match err with end) (guard_check rq ctx);
  match refuse outcome with
  | [] => mret tt
  | refused => sm_err (SViolations refused)
  end.
Definition consult rq kind (before after : option E) : Svc unit := consult_as rq kind before after true.
Definition consult_quietly rq kind (before after : option E) : Svc unit := consult_as rq kind before after false.

(** Is the reference set, and set anew. *)
Definition reference_given (before_obj : option Obj) (after_obj : Obj) (r : Reference) : option Value :=
  v ← map_get (ref_field r) after_obj;
  if is_null v then None
  else if opt_value_eqb (o ← before_obj; map_get (ref_field r) o) (Some v) then None
  else Some v.
Definition reference_missing (r : Reference) : Violation :=
  violation_new (ref_field r) "reference_missing" (ref_field r +:+ " refers to a record that does not exist").
Definition check_reference rq (before_obj : option Obj) (after_obj : Obj) (refused : list Violation)
    (r : Reference) : Svc (list Violation) :=
  match reference_given before_obj after_obj r with
  | None => mret refused
  | Some v =>
      visible ← of_repo (repo_reference_visible rq (ref_table r) (ref_column r) v);
      mret (if bool_decide (visible = Some false) then refused ++ [reference_missing r] else refused)
  end.
Definition check_references rq (before : option E) after : Svc unit :=
  match references E with
  | [] => mret tt
  | refs =>
      after_obj ← sm_lift (as_object after);
      before_obj ← match before with
                   | Some b => o ← sm_lift (as_object b); mret (Some o)
                   | None => mret None
                   end;
      refused ← sm_fold (check_reference rq before_obj after_obj) [] refs;
      match refused with
      | [] => mret tt
      | _ => sm_err (SViolations refused)
      end
  end.

(** The row as the hooks before a write leave it. *)
Definition hooked rq (ctx : WriteCtx) (change : E → Change E) e : Svc E :=
  left ← hooks_before rq ctx (change e);
  mret (default e left).

Definition prepare_create rq (ctx : WriteCtx) e : Svc E :=
  _ ← consult rq Create None (Some e);
  e ← before_create rq e;
  e ← hooked rq ctx Created e;
  _ ← check_references rq None e;
  mret e.
Definition finish_create rq (ctx : WriteCtx) saved : Svc (CrudEvent E) :=
  _ ← after_create rq saved;
  _ ← hooks_after rq ctx (Created saved);
  meta ← metadata_new (E:=E) (entity_id saved);
  mret (EvCreated saved meta).

(** [at_item] places a refused reference on its item of a batch. *)
Definition prepare_update rq (ctx : WriteCtx) (at_item : ServiceError → ServiceError) before updated : Svc E :=
  _ ← consult rq Update (Some before) (Some updated);
  updated ← before_update rq updated;
  updated ← hooked rq ctx (change_update rq before) updated;
  _ ← map_err at_item (check_references rq (Some before) updated);
  mret updated.
Definition finish_update rq (ctx : WriteCtx) before saved : Svc (CrudEvent E) :=
  _ ← after_update rq saved;
  _ ← hooks_after rq ctx (change_update rq before saved);
  meta ← metadata_new (E:=E) (entity_id saved);
  mret (EvUpdated before saved meta).

(** The row a PUT and a PATCH would store. *)
Definition put_row rq before (dto : U) : Svc E :=
  updated ← apply_update before dto;
  before_obj ← sm_lift (as_object before);
  after_obj ← sm_lift (as_object updated);
  _ ← sm_lift (refuse_protected_changes (E:=E) (in_transition rq) before_obj after_obj);
  mret updated.
Definition patch_row rq before (fields : list (string * Value)) : Svc E :=
  sm_lift (merge_patch (in_transition rq) before fields).

(** ** Reads *)
Definition list_rows rq (page limit : Z) (filters : list (string * string)) : Svc (list E * Z) :=
  of_repo (repo_list_filtered rq page limit filters).
Definition get_by_id rq id : Svc (option E) := of_repo (repo_find_by_id rq id).
Definition get_deleted_by_id rq id : Svc (option E) := of_repo (repo_find_by_id_including_deleted rq id).
Definition list_deleted rq (page limit : Z) : Svc (list E * Z) := of_repo (repo_list_deleted rq page limit).
Definition list_deleted_filtered rq (page limit : Z) (filters : list (string * string)) : Svc (list E * Z) :=
  of_repo (repo_list_deleted_filtered rq page limit filters).
Definition count rq : Svc Z := of_repo (repo_count rq).
Definition count_deleted rq : Svc Z := of_repo (repo_count_deleted rq).

(** ** Writes of one row *)

Definition create rq (dto : C) : Svc E :=
  '(saved, events) ← atomically rq (λ rq,
    ctx ← write_ctx rq;
    e ← from_create_dto dto;
    e ← prepare_create rq ctx e;
    saved ← of_repo (repo_create rq e);
    ev ← finish_create rq ctx saved;
    mret (saved, [ev]));
  _ ← publish_all rq events;
  mret saved.

(** [update] and [partial_update] differ in the row they would store. *)
Definition update_row rq id (row : Request → E → Svc E) : Svc (option E) :=
  written ← atomically rq (λ rq,
    ctx ← write_ctx rq;
    existing ← of_repo (repo_find_by_id rq id);
    match existing with
    | None => mret None
    | Some before =>
        updated ← row rq before;
        updated ← prepare_update rq ctx (λ err, err) before updated;
        saved ← of_repo (repo_update_changed rq before updated);
        match saved with
        | None => mret None
        | Some saved => ev ← finish_update rq ctx before saved; mret (Some (saved, [ev]))
        end
    end);
  match written with
  | None => mret None
  | Some (saved, events) => _ ← publish_all rq events; mret (Some saved)
  end.
Definition update rq id (dto : U) : Svc (option E) := update_row rq id (λ rq before, put_row rq before dto).
Definition partial_update rq id (fields : list (string * Value)) : Svc (option E) :=
  update_row rq id (λ rq before, patch_row rq before fields).

Definition soft_delete rq id : Svc bool :=
  '(deleted, events) ← atomically rq (λ rq,
    ctx ← write_ctx rq;
    existing ← of_repo (repo_find_by_id rq id);
    match existing with
    | None => mret (false, [])
    | Some entity =>
        _ ← consult rq Delete (Some entity) None;
        _ ← before_delete rq entity;
        _ ← hooks_before rq ctx (Deleted entity false);
        deleted ← of_repo (repo_soft_delete rq id);
        _ ← after_delete rq id;
        match deleted with
        | false => mret (false, [])
        | true =>
            _ ← hooks_after rq ctx (Deleted entity false);
            meta ← metadata_new (E:=E) id;
            mret (true, [EvSoftDeleted entity meta])
        end
    end);
  _ ← publish_all rq events;
  mret deleted.

(** The hooks after a restored row, and its event. *)
Definition restored_event rq (ctx : WriteCtx) e : Svc (CrudEvent E) :=
  _ ← hooks_after rq ctx (Restored e);
  meta ← metadata_new (E:=E) (entity_id e);
  mret (EvRestored e meta).
Definition restored_events rq (ctx : WriteCtx) (restored : list E) : Svc (list (CrudEvent E)) :=
  mapM (restored_event rq ctx) restored.
Definition ask_restore rq (ctx : WriteCtx) trashed : Svc unit :=
  _ ← consult rq Restore (Some trashed) None;
  _ ← before_restore rq trashed;
  _ ← hooks_before rq ctx (Restored trashed);
  mret tt.
Definition ask_hard_delete rq (ctx : WriteCtx) trashed : Svc unit :=
  _ ← consult rq HardDelete (Some trashed) None;
  _ ← before_hard_delete rq trashed;
  _ ← hooks_before rq ctx (Deleted trashed true);
  mret tt.

Definition restore rq id : Svc (option E) :=
  '(restored, events) ← atomically rq (λ rq,
    ctx ← write_ctx rq;
    trashed ← get_deleted_by_id rq id;
    match trashed with
    | None => mret (None, [])
    | Some trashed =>
        _ ← ask_restore rq ctx trashed;
        restored ← of_repo (repo_restore rq id);
        match restored with
        | None => mret (None, [])
        | Some e => ev ← restored_event rq ctx e; mret (Some e, [ev])
        end
    end);
  _ ← publish_all rq events;
  mret restored.

Definition hard_delete rq id : Svc bool :=
  '(deleted, events) ← atomically rq (λ rq,
    ctx ← write_ctx rq;
    found ← get_deleted_by_id rq id;
    match found with
    | None => mret (false, [])
    | Some entity =>
        _ ← ask_hard_delete rq ctx entity;
        deleted ← of_repo (repo_hard_delete rq id);
        match deleted with
        | false => mret (false, [])
        | true =>
            _ ← hooks_after rq ctx (Deleted entity true);
            meta ← metadata_new (E:=E) id;
            mret (true, [EvHardDeleted id meta])
        end
    end);
  _ ← publish_all rq events;
  mret deleted.

(** ** The whole trash *)

Definition too_many (verb : string) (total : Z) : ServiceError :=
  SValidation ("The trash holds " +:+ show_Z total +:+ " items, more than the " +:+ show_Z MAX_BATCH_SIZE +:+
               " that can be " +:+ verb +:+ " at once. Select the items to act on instead.").
(** The loop over the pages; [stuck] is what running out of [rounds] would answer. *)
Fixpoint trash_pages (stuck : Svc (list E)) (rounds : nat) rq (verb : string) (rows : list E) (page : Z) :
    Svc (list E) :=
  match rounds with
  | O => stuck
  | S rounds =>
      '(batch, total) ← list_deleted rq page MAX_PER_PAGE;
      if MAX_BATCH_SIZE <? total then sm_err (too_many verb total)
      else
        let fetched := Z.of_nat (length batch) in
        let rows := rows ++ batch in
        let held := Z.of_nat (length rows) in
        if MAX_BATCH_SIZE <? held then sm_err (too_many verb held)
        else if (fetched =? 0) || (total <=? held) || (fetched <? MAX_PER_PAGE) then mret rows
        else trash_pages stuck rounds rq verb rows (page + 1)
  end.
(** Every round but the last brings a full page, and the rows are at most a batch. *)
Definition TRASH_ROUNDS : nat := 11.
Definition whole_trash rq (verb : string) : Svc (list E) := trash_pages sm_panic TRASH_ROUNDS rq verb [] 1.

Definition hard_deleted_events ids : Svc (list (CrudEvent E)) :=
  mapM (λ id, meta ← metadata_new (E:=E) id; mret (EvHardDeleted id meta)) ids.

Definition empty_trash rq : Svc Z :=
  '(affected, events) ← atomically rq (λ rq,
    ctx ← write_ctx rq;
    _ ← before_empty_trash rq;
    trashed ← whole_trash rq "emptied";
    match trashed with
    | [] => mret (0, [])
    | _ =>
        _ ← sm_iter (ask_hard_delete rq ctx) trashed;
        let ids := map entity_id trashed in
        affected ← of_repo (repo_bulk_hard_delete rq ids);
        _ ← sm_iter (λ e, hooks_after rq ctx (Deleted e true)) trashed;
        events ← hard_deleted_events ids;
        mret (affected, events)
    end);
  _ ← publish_all rq events;
  mret affected.

Definition restore_all rq : Svc Z :=
  '(n, events) ← atomically rq (λ rq,
    ctx ← write_ctx rq;
    _ ← before_restore_all rq;
    trashed ← whole_trash rq "restored";
    match trashed with
    | [] => mret (0, [])
    | _ =>
        _ ← sm_iter (ask_restore rq ctx) trashed;
        restored ← of_repo (repo_bulk_restore rq (map entity_id trashed));
        events ← restored_events rq ctx restored;
        mret (Z.of_nat (length restored), events)
    end);
  _ ← publish_all rq events;
  mret n.

(** ** Batches *)

(** [for (index, x) in l.enumerate()], collecting. *)
Fixpoint each_indexed {A B} (f : nat → A → Svc B) (index : nat) (l : list A) : Svc (list B) :=
  match l with
  | [] => mret []
  | x :: l => y ← f index x; ys ← each_indexed f (S index) l; mret (y :: ys)
  end.

Definition bulk_create rq (dtos : list C) : Svc (list E) :=
  _ ← sm_lift (check_batch_size (length dtos));
  '(saved, events) ← atomically rq (λ rq,
    ctx ← write_ctx rq;
    prepared ← each_indexed (λ index dto, map_err (λ err, at_batch_index err index)
                               (e ← from_create_dto dto; prepare_create rq ctx e)) 0 dtos;
    saved ← of_repo (repo_bulk_create rq prepared);
    events ← mapM (finish_create rq ctx) saved;
    mret (saved, events));
  _ ← publish_all rq events;
  mret saved.

Definition not_found id : ServiceError := SValidation ("id '" +:+ id +:+ "' not found").
Definition load rq id : Svc E :=
  found ← of_repo (repo_find_by_id rq id);
  match found with Some e => mret e | None => sm_err (not_found id) end.

Definition bulk_soft_delete rq (given_ids : list string) : Svc Z :=
  _ ← sm_lift (check_batch_size (length given_ids));
  let ids := dedup_ids given_ids in
  '(affected, events) ← atomically rq (λ rq,
    ctx ← write_ctx rq;
    entities ← mapM (load rq) ids;
    _ ← sm_iter (λ entity,
          _ ← consult rq Delete (Some entity) None;
          _ ← before_delete rq entity;
          _ ← hooks_before rq ctx (Deleted entity false);
          mret tt) entities;
    affected ← of_repo (repo_bulk_soft_delete rq ids);
    events ← mapM (λ x : string * E,
               _ ← after_delete rq x.1;
               _ ← hooks_after rq ctx (Deleted x.2 false);
               meta ← metadata_new (E:=E) x.1;
               mret (EvSoftDeleted x.2 meta)) (zip ids entities);
    mret (affected, events));
  _ ← publish_all rq events;
  mret affected.

(** Ask about each row of a list of ids that can be seen; the rows seen. *)
Definition ask_visible rq (ask : E → Svc unit) ids : Svc (list E) :=
  sm_fold (λ seen id,
      found ← get_deleted_by_id rq id;
      match found with
      | Some trashed => _ ← ask trashed; mret (seen ++ [trashed])
      | None => mret seen
      end) [] ids.

Definition bulk_restore rq (given_ids : list string) : Svc (list E) :=
  _ ← sm_lift (check_batch_size (length given_ids));
  let ids := dedup_ids given_ids in
  '(restored, events) ← atomically rq (λ rq,
    ctx ← write_ctx rq;
    _ ← ask_visible rq (ask_restore rq ctx) ids;
    restored ← of_repo (repo_bulk_restore rq ids);
    events ← restored_events rq ctx restored;
    mret (restored, events));
  _ ← publish_all rq events;
  mret restored.

Definition bulk_permanent_delete rq (given_ids : list string) : Svc Z :=
  _ ← sm_lift (check_batch_size (length given_ids));
  let ids := dedup_ids given_ids in
  '(affected, events) ← atomically rq (λ rq,
    ctx ← write_ctx rq;
    seen ← ask_visible rq (ask_hard_delete rq ctx) ids;
    affected ← of_repo (repo_bulk_hard_delete rq ids);
    _ ← sm_iter (λ e, hooks_after rq ctx (Deleted e true)) seen;
    events ← hard_deleted_events ids;
    mret (affected, events));
  _ ← publish_all rq events;
  mret affected.

Definition refuse_duplicates (what : string) ids : res ServiceError unit :=
  match first_duplicate_id ids with
  | Some dup => Err (SValidation ("duplicate id '" +:+ dup +:+ "' in " +:+ what))
  | None => Ok tt
  end.

(** [bulk_update] and [bulk_partial_update] differ in the row each item would store. *)
Definition bulk_update_rows {A} rq (what : string) (items : list (string * A))
    (row : Request → E → A → Svc E) : Svc (list E) :=
  _ ← sm_lift (check_batch_size (length items));
  _ ← sm_lift (refuse_duplicates what (map fst items));
  '(saved, events) ← atomically rq (λ rq,
    ctx ← write_ctx rq;
    pairs ← each_indexed (λ index (item : string * A),
              before ← load rq item.1;
              updated ← row rq before item.2;
              updated ← prepare_update rq ctx (λ err, at_batch_index err index) before updated;
              mret (before, updated)) 0 items;
    saved ← of_repo (repo_bulk_update_changed rq pairs);
    events ← mapM (λ x : E * E, finish_update rq ctx x.1 x.2) (zip (map fst pairs) saved);
    mret (saved, events));
  _ ← publish_all rq events;
  mret saved.
Definition bulk_update rq (items : list (string * U)) : Svc (list E) :=
  bulk_update_rows rq "bulk update" items put_row.
Definition bulk_partial_update rq (items : list (string * list (string * Value))) : Svc (list E) :=
  bulk_update_rows rq "bulk partial update" items patch_row.

(** What a bulk patch would do, with nothing written. *)
Definition preview_one rq id (fields : list (string * Value)) : Svc (E * E) :=
  before ← load rq id;
  patched ← patch_row rq before fields;
  _ ← consult_quietly rq Update (Some before) (Some patched);
  patched ← before_update rq patched;
  _ ← check_references rq (Some before) patched;
  mret (before, patched).
Record BulkPreviewRow := mkPreview { pv_id : string; pv_outcome : ServiceError + (E * E) }.
Definition preview_bulk_partial_update rq (items : list (string * list (string * Value))) :
    Svc (list BulkPreviewRow) :=
  _ ← sm_lift (check_batch_size (length items));
  _ ← sm_lift (refuse_duplicates "bulk partial update" (map fst items));
  mapM (λ item : string * list (string * Value),
    outcome ← attempt (preview_one rq item.1 item.2);
    mret (mkPreview item.1 outcome)) items.

Definition upsert rq (dto : C) : Svc E := sm_err (SValidation UPSERT_UNSUPPORTED).
End service.
