(* ===== verification/MemoryRepository.v ===== *)
(** * The in-memory repository

    [backbone-core/src/persistence/memory.rs]: [InMemoryRepository], two maps behind locks, as the
    tables of a state; it has no pool, so a write over it is not a transaction. Whether arithmetic
    overflow panics or wraps is the build's, and a parameter; so is the order a hash map is walked
    in, where it shows. *)
From Stdlib Require Import ZArith Lia Ascii.
From stdpp Require Import gmap sorting.
From S2P Require Import Prelude RustStr RustChar Json WorkflowExpr Database WriteHooks RepositoryErrors CrudWrite CrudService ListQuery.

Local Open Scope Z_scope.

Record Mem (E : Type) := mkMem { store : gmap string E; trash : gmap string E }.
Arguments mkMem {_} _ _.
Arguments store {_} _.
Arguments trash {_} _.

Definition mem_new {E} : Mem E := mkMem ∅ ∅.

(** [ordered_by_id] *)
Definition key_le {E} (a b : string * E) : Prop := str_le a.1 b.1.
#[export] Instance key_le_dec {E} : RelDecision (@key_le E) := λ a b, decide (str_le a.1 b.1).
Definition ordered_by_id {E} (m : gmap string E) : list E := map snd (merge_sort key_le (map_to_list m)).

Definition u32_wrap (x : Z) : Z := x mod (u32_max + 1).

Section memory.
Context {U : Unicode} {L : Libs} {E : Type} {PE : PersistentEntity E} {W : Type} {HW : World W}.
Variable overflow_checks : bool.
Implicit Types (rq : Request) (e : E) (id : string).
#[local] Abbreviation Mo := (sm (St (Mem E) W) RepositoryError).

Definition with_data (entities : list E) : Mem E :=
  mkMem (foldl (λ m e, <[entity_id e := e]> m) ∅ entities) ∅.

Definition mem_read {A} (f : Mem E → A) : Mo A := λ s, (Ok (f (tables s)), s).
Definition mem_write (f : Mem E → Mem E) : Mo unit := λ s, (Ok tt, mkSt (f (tables s)) (world s)).

(** [mark_deleted], [restore] of an entity: the clock is read twice, once. *)
Definition mark_deleted e : Mo E :=
  t1 ← utc_now; t2 ← utc_now; mret (set_updated_at t2 (set_deleted_at (Some t1) e)).
Definition unmark_deleted e : Mo E :=
  t ← utc_now; mret (set_updated_at t (set_deleted_at None e)).

Definition mem_create rq e : Mo E :=
  e ← (if bool_decide (entity_id e = "") then u ← fresh_uuid; mret (set_entity_id (uuid_to_string u) e)
       else mret e);
  taken ← mem_read (λ m, store m !! entity_id e);
  match taken with
  | Some _ => sm_err (RAlreadyExists ("Entity with ID " +:+ entity_id e +:+ " already exists"))
  | None =>
      now ← utc_now;
      let e := if bool_decide (created_at e = None) then set_created_at now e else e in
      let e := set_updated_at now e in
      _ ← mem_write (λ m, mkMem (<[entity_id e := e]> (store m)) (trash m));
      mret e
  end.

Definition mem_find_by_id rq id : Mo (option E) := mem_read (λ m, store m !! id).
Definition mem_find_by_id_including_deleted rq id : Mo (option E) :=
  mem_read (λ m, match store m !! id with Some e => Some e | None => trash m !! id end).

Definition mem_update rq e : Mo E :=
  there ← mem_read (λ m, store m !! entity_id e);
  match there with
  | None => sm_err RNotFound
  | Some _ =>
      now ← utc_now;
      let e := set_updated_at now e in
      _ ← mem_write (λ m, mkMem (<[entity_id e := e]> (store m)) (trash m));
      mret e
  end.

Definition mem_soft_delete rq id : Mo bool :=
  there ← mem_read (λ m, store m !! id);
  match there with
  | None => mret false
  | Some e =>
      _ ← mem_write (λ m, mkMem (delete id (store m)) (trash m));
      e ← mark_deleted e;
      _ ← mem_write (λ m, mkMem (store m) (<[id := e]> (trash m)));
      mret true
  end.

Definition mem_restore rq id : Mo (option E) :=
  there ← mem_read (λ m, trash m !! id);
  match there with
  | None => mret None
  | Some e =>
      _ ← mem_write (λ m, mkMem (store m) (delete id (trash m)));
      e ← unmark_deleted e;
      _ ← mem_write (λ m, mkMem (<[id := e]> (store m)) (trash m));
      mret (Some e)
  end.

Definition mem_hard_delete rq id : Mo bool :=
  removed ← mem_read (λ m, bool_decide (is_Some (store m !! id)) || bool_decide (is_Some (trash m !! id)));
  _ ← mem_write (λ m, mkMem (delete id (store m)) (delete id (trash m)));
  mret removed.

(** [(page.saturating_sub(1)) * limit] *)
Definition page_offset (page limit : Z) : Mo Z :=
  let n := Z.max 0 (page - 1) * limit in
  if n <=? u32_max then mret n
  else if overflow_checks then sm_panic
  else mret (u32_wrap n).
Definition page_of (rows : list E) (page limit : Z) : Mo (list E * Z) :=
  offset ← page_offset page limit;
  mret (take (Z.to_nat limit) (drop (Z.to_nat offset) rows), Z.of_nat (length rows)).
Definition mem_list rq (page limit : Z) : Mo (list E * Z) :=
  rows ← mem_read (λ m, ordered_by_id (store m)); page_of rows page limit.
Definition mem_list_deleted rq (page limit : Z) : Mo (list E * Z) :=
  rows ← mem_read (λ m, ordered_by_id (trash m)); page_of rows page limit.

Definition mem_count rq : Mo Z := mem_read (λ m, Z.of_nat (size (store m))).
Definition mem_count_deleted rq : Mo Z := mem_read (λ m, Z.of_nat (size (trash m))).
(** Item by item: those before a refused one stay. *)
Definition mem_bulk_create rq (entities : list E) : Mo (list E) := mapM (mem_create rq) entities.
Definition mem_empty_trash rq : Mo Z :=
  n ← mem_count_deleted rq; _ ← mem_write (λ m, mkMem (store m) ∅); mret n.

(** [SearchableRepository] *)
Definition field_contains (json : Value) (kv : string * string) : bool :=
  match value_get kv.1 json with
  | Some (VString s) => str_contains (to_lowercase s) (to_lowercase kv.2)
  | Some (VNumber n) => bool_decide (number_to_string n = kv.2)
  | Some (VBool b) => bool_decide ((if b then "true" else "false") = kv.2)
  | _ => false
  end.
Definition mem_search rq (filters : list (string * string)) (page limit : Z) : Mo (list E * Z) :=
  rows ← mem_read (λ m, List.filter (λ e, match entity_value e with
                                          | inr json => forallb (field_contains json) filters
                                          | inl _ => false
                                          end) (ordered_by_id (store m)));
  page_of rows page limit.
Definition field_is (f v : string) e : bool :=
  match entity_value e with
  | inr json =>
      match value_get f json with
      | Some (VString s) => bool_decide (s = v)
      | Some (VNumber n) => bool_decide (number_to_string n = v)
      | Some (VBool b) => bool_decide ((if b then "true" else "false") = v)
      | _ => false
      end
  | inl _ => false
  end.
Definition mem_find_by_field (values : gmap string E → list E) rq (f v : string) : Mo (option E) :=
  mem_read (λ m, List.find (field_is f v) (values (store m))).
Definition mem_find_all_by_field rq (f v : string) (page limit : Z) : Mo (list E * Z) :=
  mem_search rq [(f, v)] page limit.

(** The required methods above, the trait's defaults for the rest. *)
#[export] Instance InMemoryRepository : CrudRepository E (Mem E) W := {|
  repo_create := mem_create;
  repo_find_by_id := mem_find_by_id;
  repo_find_by_id_including_deleted := mem_find_by_id_including_deleted;
  repo_update := mem_update;
  repo_update_changed := default_update_changed mem_update;
  repo_soft_delete := mem_soft_delete;
  repo_restore := mem_restore;
  repo_hard_delete := mem_hard_delete;
  repo_list_filtered rq page limit _ := mem_list rq page limit;
  repo_list_deleted := mem_list_deleted;
  repo_list_deleted_filtered rq page limit _ := mem_list_deleted rq page limit;
  repo_count := mem_count;
  repo_count_deleted := mem_count_deleted;
  repo_bulk_create := mem_bulk_create;
  repo_bulk_soft_delete := default_bulk_delete mem_soft_delete;
  repo_bulk_restore := default_bulk_restore mem_restore;
  repo_bulk_hard_delete := default_bulk_delete mem_hard_delete;
  repo_bulk_update_changed := default_bulk_update_changed (default_update_changed mem_update);
  repo_reference_visible _ _ _ _ := mret None;
  repo_write_pool := false;
|}.
End memory.
