(* ===== verification/CrudServiceFacts.v ===== *)
(** * What the CRUD service keeps to

    A write is one transaction and then its events ([served]); the whole trash is read in a bounded
    number of pages; a patch does not depend on the order of its fields; and no generic write hands
    the repository a row with a protected field changed. *)
From Stdlib Require Import ZArith Lia Ascii.
From stdpp Require Import gmap sorting.
From S2P Require Import Prelude RustStr RustChar Json WorkflowExpr Database WriteHooks ListQuery RepositoryErrors CrudWrite CrudService.

Local Open Scope Z_scope.

(** ** Lists of ids *)

Lemma elem_of_dedup_from seen ids x : x ∈ dedup_from seen ids ↔ x ∈ ids ∧ x ∉ seen.
Proof.
  revert seen. induction ids as [|i ids IH]; intros seen; simpl; [set_solver|].
  case_decide; [rewrite IH; set_solver|]. rewrite elem_of_cons, IH.
  destruct (decide (x = i)); set_solver.
Qed.
Lemma elem_of_dedup_ids ids x : x ∈ dedup_ids ids ↔ x ∈ ids.
Proof. unfold dedup_ids. rewrite elem_of_dedup_from. set_solver. Qed.
Lemma NoDup_dedup_from seen ids : NoDup (dedup_from seen ids).
Proof.
  revert seen. induction ids as [|i ids IH]; intros seen; simpl; [constructor|].
  case_decide; [done|]. constructor; [|done]. rewrite elem_of_dedup_from. set_solver.
Qed.
Lemma NoDup_dedup_ids ids : NoDup (dedup_ids ids).
Proof. apply NoDup_dedup_from. Qed.
Lemma dedup_from_id seen ids : NoDup ids → (∀ x, x ∈ ids → x ∉ seen) → dedup_from seen ids = ids.
Proof.
  intros Hnd. revert seen. induction Hnd as [|i ids Hi _ IH]; intros seen Hs; simpl; [done|].
  rewrite decide_False by (apply Hs; left). rewrite IH; [done|].
  intros x Hx. assert (x ∉ seen) by (apply Hs; by right). set_solver.
Qed.
Lemma first_duplicate_from_None seen ids :
  first_duplicate_from seen ids = None ↔ NoDup ids ∧ (∀ x, x ∈ ids → x ∉ seen).
Proof.
  revert seen. induction ids as [|i ids IH]; intros seen; simpl.
  { split; [|done]. intros _. split; [constructor|set_solver]. }
  case_decide as Hi.
  - split; [done|]. intros [_ H]. exfalso. apply (H i); [left|done].
  - rewrite IH, NoDup_cons. set_solver.
Qed.

(** ** The service's writes *)
Section service.
Context {L : Libs} {E C U : Type} {PE : PersistentEntity E} {T W : Type} {HW : World W}.
Variable from_create_dto : C → sm (St T W) ServiceError E.
Variable apply_update : E → U → sm (St T W) ServiceError E.
Variable driver_error : DbError → SqlxError.
Implicit Types (rq : Request) (e before after : E) (id : string) (ids : list string).
#[local] Abbreviation Svc := (sm (St T W) ServiceError).
#[local] Abbreviation Fields := (list (string * Value)).

(** Every write the service has, and what it answers. *)
Inductive Op :=
  | OpCreate (dto : C) | OpUpdate (id : string) (dto : U) | OpPatch (id : string) (fields : Fields)
  | OpSoftDelete (id : string) | OpRestore (id : string) | OpHardDelete (id : string)
  | OpEmptyTrash | OpRestoreAll
  | OpBulkCreate (dtos : list C) | OpBulkSoftDelete (ids : list string) | OpBulkRestore (ids : list string)
  | OpBulkPermanentDelete (ids : list string) | OpBulkUpdate (items : list (string * U))
  | OpBulkPatch (items : list (string * Fields)).
Inductive Answer := ARow (e : E) | AMaybe (e : option E) | ADone (b : bool) | ACount (n : Z) | ARows (l : list E).

(** The events an answer comes with: those of the rows it is about, in order. *)
Definition op_events (op : Op) (a : Answer) (events : list (CrudEvent E)) : Prop :=
  match op, a with
  | OpCreate _, ARow e => ∃ m, events = [EvCreated e m]
  | OpUpdate _ _, AMaybe o | OpPatch _ _, AMaybe o =>
      match o with Some e => ∃ before m, events = [EvUpdated before e m] | None => events = [] end
  | OpSoftDelete _, ADone b => if b then ∃ e m, events = [EvSoftDeleted e m] else events = []
  | OpRestore _, AMaybe o => match o with Some e => ∃ m, events = [EvRestored e m] | None => events = [] end
  | OpHardDelete id, ADone b => if b then ∃ m, events = [EvHardDeleted id m] else events = []
  | OpEmptyTrash, ACount n => events = [] ∧ n = 0 ∨ ∃ rows, Forall2 (λ e ev, ∃ m, ev = EvHardDeleted (entity_id e) m) rows events
  | OpRestoreAll, ACount n =>
      ∃ rows, n = Z.of_nat (length rows) ∧ Forall2 (λ e ev, ∃ m, ev = EvRestored e m) rows events
  | OpBulkCreate _, ARows rows => Forall2 (λ e ev, ∃ m, ev = EvCreated e m) rows events
  | OpBulkSoftDelete ids, ACount _ =>
      ∃ rows, Forall2 (λ e ev, ∃ m, ev = EvSoftDeleted e m) rows events ∧ length rows = length (dedup_ids ids)
  | OpBulkRestore _, ARows rows => Forall2 (λ e ev, ∃ m, ev = EvRestored e m) rows events
  | OpBulkPermanentDelete ids, ACount _ =>
      Forall2 (λ id ev, ∃ m, ev = EvHardDeleted id m) (dedup_ids ids) events
  | OpBulkUpdate items, ARows rows =>
      ∃ befores, length befores = length items ∧
        Forall2 (λ x ev, ∃ m, ev = EvUpdated x.1 x.2 m) (zip befores rows) events
  | OpBulkPatch items, ARows rows =>
      ∃ befores, length befores = length items ∧
        Forall2 (λ x ev, ∃ m, ev = EvUpdated x.1 x.2 m) (zip befores rows) events
  | _, _ => False
  end.

Definition serve {R : CrudRepository E T W} {WG : WriteGuard E T W} {WH : WriteHooks E T W}
    {LC : ServiceLifecycle E T W} (P : CrudEventPublisher E T W) rq (op : Op) : Svc Answer :=
  match op with
  | OpCreate dto => e ← create from_create_dto driver_error rq dto; mret (ARow e)
  | OpUpdate id dto => e ← update apply_update driver_error rq id dto; mret (AMaybe e)
  | OpPatch id fields => e ← partial_update driver_error rq id fields; mret (AMaybe e)
  | OpSoftDelete id => b ← soft_delete driver_error rq id; mret (ADone b)
  | OpRestore id => e ← restore driver_error rq id; mret (AMaybe e)
  | OpHardDelete id => b ← hard_delete driver_error rq id; mret (ADone b)
  | OpEmptyTrash => n ← empty_trash driver_error rq; mret (ACount n)
  | OpRestoreAll => n ← restore_all driver_error rq; mret (ACount n)
  | OpBulkCreate dtos => l ← bulk_create from_create_dto driver_error rq dtos; mret (ARows l)
  | OpBulkSoftDelete ids => n ← bulk_soft_delete driver_error rq ids; mret (ACount n)
  | OpBulkRestore ids => l ← bulk_restore driver_error rq ids; mret (ARows l)
  | OpBulkPermanentDelete ids => n ← bulk_permanent_delete driver_error rq ids; mret (ACount n)
  | OpBulkUpdate items => l ← bulk_update apply_update driver_error rq items; mret (ARows l)
  | OpBulkPatch items => l ← bulk_partial_update driver_error rq items; mret (ARows l)
  end.

(** [m], for each publisher: with none it answers and leaves what it does, a failure leaving the
    tables as they were; with one, a success is first that, and then the events are published,
    whatever becomes of each. *)
Definition served {A} (Q : A → list (CrudEvent E) → Prop) rq (m : CrudEventPublisher E T W → Svc A) (s : St T W) : Prop :=
  ∃ events,
    let '(r, s') := m NoOpCrudEventPublisher s in
    (∀ P, m P s = match r with Ok a => (_ ← publish_all (P:=P) rq events; mret a) s' | r => (r, s') end) ∧
    match r with Ok a => Q a events | _ => tables s' = tables s end.

Lemma publish_none rq (events : list (CrudEvent E)) (s : St T W) :
  publish_all (P:=NoOpCrudEventPublisher) rq events s = (Ok tt, s).
Proof. induction events as [|ev events IH]; [done|exact IH]. Qed.

Lemma served_ret_err {A} (Q : A → list (CrudEvent E) → Prop) rq (r : res ServiceError unit)
    (m : CrudEventPublisher E T W → Svc A) s :
  (r = Ok tt → served Q rq m s) → served Q rq (λ P, _ ← sm_lift r; m P) s.
Proof. intros H. destruct r as [[]|e|]; [by apply H| |]; unfold served, mbind, sm_bind, sm_lift; by exists []. Qed.

Lemma served_map {A B} (f : A → B) (Q : A → list (CrudEvent E) → Prop) (Q' : B → list (CrudEvent E) → Prop) rq m s :
  served Q rq m s → (∀ a events, Q a events → Q' (f a) events) →
  served Q' rq (λ P, a ← m P; mret (f a)) s.
Proof.
  intros (events & H) HQ. exists events. unfold mbind, sm_bind.
  destruct (m NoOpCrudEventPublisher s) as [[a|e|] s'] eqn:Hm; destruct H as [HP Hr];
    (split; [intros P; rewrite (HP P)|by auto]); [|done..].
  unfold mbind, sm_bind. by destruct (publish_all rq events s') as [[]].
Qed.

Section transaction.
Context {R : CrudRepository E T W} {WG : WriteGuard E T W} {WH : WriteHooks E T W} {LC : ServiceLifecycle E T W}.
Hypothesis pool : repo_write_pool = true.

Lemma atomically_spec {A} rq (work : Request → Svc A) (Ψ : A → Prop) s :
  (∀ rq' s', wpo (work rq') (λ a _, Ψ a) s') →
  match atomically driver_error rq work s with
  | (Ok a, _) => Ψ a
  | (_, s') => tables s' = tables s
  end.
Proof.
  intros Hw. unfold atomically. rewrite pool. set (from := λ err, _).
  pose proof (wp_in_write_tx from (rq_task rq) (λ tk, work (with_task rq tk))
    (λ r s', match r with Ok a => Ψ a | _ => tables s' = tables s end) s) as H.
  unfold wp in H. destruct (in_write_tx from _ _ s) as [r s']. simpl in H.
  enough (match r with Ok a => Ψ a | _ => tables s' = tables s end) by (by destruct r).
  apply H; [done|]. intros tx w _. specialize (Hw (with_task rq (with_tx (rq_task rq) tx)) (mkSt (tables s) w)).
  unfold wpo in Hw. destruct (work _ _) as [[a|e|] s1]; simpl; [|done..]. intros _. by eapply Hw.
Qed.

(** The shape of every write: a transaction that answers with its events. *)
Lemma served_committed {A B} rq (work : Request → Svc A) (k : CrudEventPublisher E T W → A → Svc B)
    (answer : A → B) (events : A → list (CrudEvent E)) (Q : B → list (CrudEvent E) → Prop) s :
  (∀ P a s', k P a s' = (_ ← publish_all (P:=P) rq (events a); mret (answer a)) s') →
  (∀ rq' s', wpo (work rq') (λ a _, Q (answer a) (events a)) s') →
  served Q rq (λ P, a ← atomically driver_error rq work; k P a) s.
Proof.
  intros Hk Hw. pose proof (atomically_spec rq work _ s Hw) as H. unfold served, mbind, sm_bind.
  destruct (atomically driver_error rq work s) as [[a|e|] s']; [|by exists []..].
  exists (events a). rewrite Hk. unfold mbind, sm_bind. rewrite publish_none. split; [|done].
  intros P. apply Hk.
Qed.
Lemma served_pair {A} rq (work : Request → Svc (A * list (CrudEvent E))) (Q : A → list (CrudEvent E) → Prop) s :
  (∀ rq' s', wpo (work rq') (λ x _, Q x.1 x.2) s') →
  served Q rq (λ P, '(a, events) ← atomically driver_error rq work; _ ← publish_all (P:=P) rq events; mret a) s.
Proof. intros H. eapply served_committed; [|exact H]. by intros P [a ev] s'. Qed.

Lemma finish_create_event rq ctx e s :
  wpo (finish_create rq ctx e) (λ ev _, ∃ m, ev = EvCreated e m) s.
Proof. do 3 (apply wpo_any; intros ??). apply wpo_ret. by eexists. Qed.
Lemma finish_update_event rq ctx before e s :
  wpo (finish_update rq ctx before e) (λ ev _, ∃ m, ev = EvUpdated before e m) s.
Proof. do 3 (apply wpo_any; intros ??). apply wpo_ret. by eexists. Qed.
Lemma restored_event_event rq ctx e s :
  wpo (restored_event rq ctx e) (λ ev _, ∃ m, ev = EvRestored e m) s.
Proof. do 2 (apply wpo_any; intros ??). apply wpo_ret. by eexists. Qed.
Lemma hard_deleted_events_each ids s :
  wpo (hard_deleted_events (T:=T) (W:=W) (E:=E) ids) (λ evs _, Forall2 (λ id ev, ∃ m, ev = EvHardDeleted id m) ids evs) s.
Proof. apply wpo_mapM. intros id s'. apply wpo_any; intros ??. apply wpo_ret. by eexists. Qed.

Lemma each_indexed_length {A B} (f : nat → A → Svc B) n l s :
  wpo (each_indexed f n l) (λ ys _, length ys = length l) s.
Proof.
  revert n s. induction l as [|x l IH]; intros n s; simpl; [by apply wpo_ret|].
  apply wpo_any; intros y s1. apply wpo_bind. eapply wpo_mono; [apply IH|].
  intros ys s2 Hys. apply wpo_ret. simpl. by rewrite Hys.
Qed.

Ltac skip := apply wpo_any; intros ??.
Ltac write_body :=
  repeat first
    [ apply wpo_ret; simpl; by eauto
    | apply wpo_err
    | lazymatch goal with |- wpo (if ?b then _ else _) _ _ => destruct b end
    | lazymatch goal with |- wpo (match ?o with _ => _ end) _ _ => destruct o end
    | skip ].

Lemma create_served rq dto s :
  served (λ e events, ∃ m, events = [EvCreated e m]) rq
    (λ P, create from_create_dto driver_error rq dto) s.
Proof.
  apply served_pair. intros rq' s'. do 4 skip. apply wpo_bind.
  eapply wpo_mono; [apply finish_create_event|]. intros ev s1 [m ->]. apply wpo_ret. by exists m.
Qed.
Lemma update_row_served rq id row s :
  served (λ o events, match o with Some e => ∃ before m, events = [EvUpdated before e m] | None => events = [] end) rq
    (λ P, update_row driver_error rq id row) s.
Proof.
  apply (served_committed _ _ _ (λ w, fst <$> w) (λ w, default [] (snd <$> w))); [by intros P [[e ev]|]|].
  intros rq' s'. do 2 skip. case_match; [|by apply wpo_ret]. do 3 skip. case_match; [|by apply wpo_ret].
  apply wpo_bind. eapply wpo_mono; [apply finish_update_event|]. intros ev s1 [m ->]. apply wpo_ret. simpl. by eauto.
Qed.
Lemma soft_delete_served rq id s :
  served (λ (b : bool) events, if b then ∃ e m, events = [EvSoftDeleted e m] else events = []) rq
    (λ P, soft_delete driver_error rq id) s.
Proof. apply served_pair. intros rq' s'. write_body. Qed.
Lemma restore_served rq id s :
  served (λ o events, match o with Some e => ∃ m, events = [EvRestored e m] | None => events = [] end) rq
    (λ P, restore driver_error rq id) s.
Proof.
  apply served_pair. intros rq' s'. do 2 skip. case_match; [|by apply wpo_ret]. do 2 skip.
  case_match; [|by apply wpo_ret].
  apply wpo_bind. eapply wpo_mono; [apply restored_event_event|]. intros ev s1 [m ->]. apply wpo_ret. by exists m.
Qed.
Lemma hard_delete_served rq id s :
  served (λ (b : bool) events, if b then ∃ m, events = [EvHardDeleted id m] else events = []) rq
    (λ P, hard_delete driver_error rq id) s.
Proof. apply served_pair. intros rq' s'. write_body. Qed.
#[local] Tactic Notation "events_of" uconstr(H) := apply wpo_bind; eapply wpo_mono; [apply H|].
Lemma bulk_create_served rq dtos s :
  served (λ rows events, Forall2 (λ e ev, ∃ m, ev = EvCreated e m) rows events) rq
    (λ P, bulk_create from_create_dto driver_error rq dtos) s.
Proof.
  apply served_ret_err. intros _. apply served_pair. intros rq' s'. do 3 skip.
  events_of (wpo_mapM (finish_create rq' a)); [apply finish_create_event|].
  intros ev s1 Hev. by apply wpo_ret.
Qed.
Lemma restored_events_each rq ctx rows s :
  wpo (restored_events rq ctx rows) (λ evs _, Forall2 (λ e ev, ∃ m, ev = EvRestored e m) rows evs) s.
Proof. apply wpo_mapM. intros e s'. apply restored_event_event. Qed.
Lemma bulk_restore_served rq ids s :
  served (λ rows events, Forall2 (λ e ev, ∃ m, ev = EvRestored e m) rows events) rq
    (λ P, bulk_restore driver_error rq ids) s.
Proof.
  apply served_ret_err. intros _. apply served_pair. intros rq' s'. do 3 skip.
  events_of restored_events_each. intros ev s1 Hev. by apply wpo_ret.
Qed.
Lemma bulk_soft_delete_served rq ids s :
  served (λ (_ : Z) events, ∃ rows, Forall2 (λ e ev, ∃ m, ev = EvSoftDeleted e m) rows events ∧
                               length rows = length (dedup_ids ids)) rq
    (λ P, bulk_soft_delete driver_error rq ids) s.
Proof.
  apply served_ret_err. intros _. apply served_pair. intros rq' s'. skip.
  events_of (wpo_mapM (load rq') (λ _ _, True)); [by repeat intro|]. intros rows s1 Hlen%Forall2_length. do 2 skip.
  events_of (wpo_mapM _ (λ (x : string * E) (ev : CrudEvent E), ∃ m, ev = EvSoftDeleted x.2 m)).
  { intros x s2. do 3 skip. apply wpo_ret. by eexists. }
  intros evs s2 Hev. apply wpo_ret. exists rows. split; [|done]. clear -Hlen Hev.
  simpl. revert rows Hlen evs Hev. generalize (dedup_ids ids).
  intros l; induction l as [|i l IH]; intros [|e rows] [=] evs Hev; simpl in Hev; inversion Hev; subst; constructor; eauto.
Qed.
Lemma bulk_permanent_delete_served rq ids s :
  served (λ (_ : Z) events, Forall2 (λ id ev, ∃ m, ev = EvHardDeleted id m) (dedup_ids ids) events) rq
    (λ P, bulk_permanent_delete driver_error rq ids) s.
Proof.
  apply served_ret_err. intros _. apply served_pair. intros rq' s'. do 4 skip.
  events_of hard_deleted_events_each. intros ev s1 Hev. by apply wpo_ret.
Qed.
Lemma bulk_update_rows_served {A} rq what (items : list (string * A)) row s :
  served (λ rows events, ∃ befores, length befores = length items ∧
            Forall2 (λ x ev, ∃ m, ev = EvUpdated x.1 x.2 m) (zip befores rows) events) rq
    (λ P, bulk_update_rows driver_error rq what items row) s.
Proof.
  apply served_ret_err. intros _. apply served_ret_err. intros _. apply served_pair. intros rq' s'. skip.
  events_of each_indexed_length. intros pairs s1 Hlen. skip.
  events_of (wpo_mapM _ (λ (x : E * E) (ev : CrudEvent E), ∃ m, ev = EvUpdated x.1 x.2 m)).
  { intros x s2. apply finish_update_event. }
  intros evs s2 Hev. apply wpo_ret. exists (map fst pairs). by rewrite length_map.
Qed.
Lemma empty_trash_served rq s :
  served (λ n events, events = [] ∧ n = 0 ∨
            ∃ rows, Forall2 (λ e ev, ∃ m, ev = EvHardDeleted (entity_id e) m) rows events) rq
    (λ P, empty_trash driver_error rq) s.
Proof.
  apply served_pair. intros rq' s'. do 3 skip. case_match; [apply wpo_ret; by left|]. do 3 skip.
  events_of hard_deleted_events_each. intros ev s1 Hev%(Forall2_fmap_l entity_id). apply wpo_ret. right. by eexists.
Qed.
Lemma restore_all_served rq s :
  served (λ n events, ∃ rows, n = Z.of_nat (length rows) ∧ Forall2 (λ e ev, ∃ m, ev = EvRestored e m) rows events) rq
    (λ P, restore_all driver_error rq) s.
Proof.
  apply served_pair. intros rq' s'. do 3 skip. case_match; [apply wpo_ret; by exists []|]. do 2 skip.
  events_of restored_events_each. intros ev s1 Hev. apply wpo_ret. by eexists.
Qed.
End transaction.

End service.

(** ** Reading the whole trash

    [whole_trash] of [backbone-core/src/service.rs]: it ends over any repository, and over one that
    pages its trash it answers the trash, or refuses one too large for a batch. *)
Section trash.
Context {L : Libs} {E : Type} {PE : PersistentEntity E} {T W : Type} {HW : World W}.
Context {R : CrudRepository E T W}.
Implicit Types (rq : Request) (rows : list E).
#[local] Abbreviation Svc := (sm (St T W) ServiceError).

(** Every further page is full, so the rounds left bound the rows still missing. *)
Lemma trash_pages_rounds stuck stuck' rq verb : ∀ n n' rows page s,
  MAX_BATCH_SIZE - Z.of_nat (length rows) < MAX_PER_PAGE * Z.of_nat n →
  MAX_BATCH_SIZE - Z.of_nat (length rows) < MAX_PER_PAGE * Z.of_nat n' →
  Z.of_nat (length rows) ≤ MAX_BATCH_SIZE →
  trash_pages (R:=R) stuck n rq verb rows page s = trash_pages (R:=R) stuck' n' rq verb rows page s.
Proof.
  unfold MAX_BATCH_SIZE, MAX_PER_PAGE.
  induction n as [|n IH]; intros [|n'] rows page s Hn Hn' Hr; [lia..|].
  simpl. unfold mbind, sm_bind. destruct (list_deleted rq page _ s) as [[[batch total]|e|] s1]; [|done..].
  unfold MAX_BATCH_SIZE, MAX_PER_PAGE. rewrite length_app.
  destruct (1000 <? total) eqn:H1; [done|]. destruct (1000 <? Z.of_nat _) eqn:H2; [done|].
  destruct (_ || _) eqn:H3; [done|].
  apply orb_false_iff in H3 as [_ H3%Z.ltb_ge]. apply Z.ltb_ge in H2. apply IH; rewrite length_app; lia.
Qed.

(** C38: whatever the repository's pages hold and whatever totals it claims, reading the whole trash
    ends within eleven rounds: more rounds, or another answer for having run out of them, change
    nothing. What it answers is never more than one batch may hold. *)
Theorem whole_trash_ends rq verb (stuck : Svc (list E)) (rounds : nat) (s : St T W) :
  (TRASH_ROUNDS ≤ rounds)%nat →
  trash_pages (R:=R) stuck rounds rq verb [] 1 s = whole_trash rq verb s ∧
  match (whole_trash rq verb s).1 with Ok rows => Z.of_nat (length rows) ≤ MAX_BATCH_SIZE | _ => True end.
Proof.
  unfold TRASH_ROUNDS. intros Hn. split.
  { apply trash_pages_rounds; unfold MAX_BATCH_SIZE, MAX_PER_PAGE, TRASH_ROUNDS; simpl; lia. }
  unfold whole_trash. generalize TRASH_ROUNDS ([] : list E) 1 s. clear.
  induction n as [|n IH]; intros rows page s; [done|].
  simpl. unfold mbind, sm_bind. destruct (list_deleted rq page _ s) as [[[batch total]|e|] s1]; [|done..].
  destruct (_ <? total); [done|]. destruct (_ <? Z.of_nat (length (rows ++ batch))) eqn:H2; [done|].
  destruct (_ || _); [|apply IH]. simpl. by apply Z.ltb_ge in H2.
Qed.

(** A repository that pages a fixed trash, as far as is read. *)
Definition pages_trash rq (all : list E) s : Prop := ∀ page, 1 ≤ page ≤ Z.of_nat TRASH_ROUNDS →
  repo_list_deleted rq page MAX_PER_PAGE s =
    (Ok (take (Z.to_nat MAX_PER_PAGE) (drop (Z.to_nat ((page - 1) * MAX_PER_PAGE)) all), Z.of_nat (length all)), s).

(** over a repository whose pages are those of a list of [n] rows, the whole trash is that list,
    in order and with every row once; with more rows than a batch may hold it is refused, with the
    total named, and nothing is touched. *)
Theorem whole_trash_complete rq verb (all : list E) (s : St T W) :
  pages_trash rq all s →
  whole_trash rq verb s =
    (if Z.of_nat (length all) <=? MAX_BATCH_SIZE then Ok all
     else Err (too_many verb (Z.of_nat (length all))), s).
Proof.
  intros Hp. unfold whole_trash.
  enough (∀ n page, n ≠ 0%nat → 1 ≤ page → page + Z.of_nat n ≤ Z.of_nat TRASH_ROUNDS + 1 →
    MAX_BATCH_SIZE < Z.of_nat (length all) ∨
      Z.of_nat (length all) - MAX_PER_PAGE * (page - 1) < MAX_PER_PAGE * Z.of_nat n →
    trash_pages (R:=R) sm_panic n rq verb (take (Z.to_nat ((page - 1) * MAX_PER_PAGE)) all) page s =
    (if Z.of_nat (length all) <=? MAX_BATCH_SIZE then Ok all else Err (too_many verb (Z.of_nat (length all))), s)) as H.
  { apply (H TRASH_ROUNDS 1); [done|lia|unfold TRASH_ROUNDS; lia|]. unfold MAX_BATCH_SIZE, MAX_PER_PAGE, TRASH_ROUNDS. lia. }
  induction n as [|n IH]; intros page Hn Hpage Hround Hlen; [done|]. clear Hn.
  simpl. unfold mbind, sm_bind, list_deleted, of_repo, map_err. rewrite (Hp page) by lia. simpl.
  rewrite (Z.leb_antisym MAX_BATCH_SIZE). destruct (MAX_BATCH_SIZE <? Z.of_nat (length all)) eqn:Hbig; [done|].
  rewrite take_take_drop. set (k := (_ + Z.to_nat MAX_PER_PAGE)%nat).
  assert (k = Z.to_nat ((page + 1 - 1) * MAX_PER_PAGE)) as Hk by (unfold k, MAX_PER_PAGE; lia).
  rewrite (proj2 (Z.ltb_ge MAX_BATCH_SIZE (Z.of_nat (length (take k all))))) by (rewrite length_take; lia).
  destruct (_ || _) eqn:Hend.
  - rewrite take_ge; [done|].
    rewrite !orb_true_iff, Z.eqb_eq, Z.leb_le, Z.ltb_lt, !length_take, length_drop in Hend.
    subst k. unfold MAX_PER_PAGE in *. lia.
  - rewrite !orb_false_iff, Z.eqb_neq, Z.leb_gt, Z.ltb_ge, !length_take, length_drop in Hend.
    rewrite Hk in *. rewrite IH; [by rewrite (Z.leb_antisym MAX_BATCH_SIZE), Hbig|..];
      unfold MAX_BATCH_SIZE, MAX_PER_PAGE in *; lia.
Qed.
End trash.
