(* ===== verification/CrudPatchFacts.v ===== *)
(** * A patch, and the fields no write may change

    [merge_patch] and [refuse_protected_changes] of [backbone-core/src/service.rs]: what a patch
    does on every branch, in whatever order its fields are walked; and that no update hands the
    repository a row with a protected field changed ([guarded]). *)
From Stdlib Require Import ZArith Lia Ascii.
From stdpp Require Import gmap sorting.
From S2P Require Import Prelude RustStr RustChar Json WorkflowExpr Database WriteHooks RepositoryErrors CrudWrite CrudService ListQuery CrudServiceFacts.

Local Open Scope Z_scope.

(** ** Maps *)
Section maps.
Context {SN : SerdeNumber}.
Implicit Types (m : list (string * Value)) (fields : list (string * Value)).

Lemma str_compare_gt (a b : string) : String.compare a b = Gt ↔ String.compare b a = Lt.
Proof. rewrite (String.compare_antisym a b). by destruct (String.compare b a). Qed.
Lemma map_insert_comm_lt k v k' v' m :
  String.compare k k' = Lt → map_insert k v (map_insert k' v' m) = map_insert k' v' (map_insert k v m).
Proof.
  intros Hlt. pose proof (proj2 (str_compare_gt k' k) Hlt) as Hgt.
  induction m as [|[j u] m IH]; simpl; [by rewrite Hlt, Hgt|].
  destruct (String.compare k' j) eqn:Hk'; simpl.
  - apply String.compare_eq_iff in Hk' as <-. rewrite Hlt. simpl. by rewrite Hgt, str_compare_eq.
  - rewrite Hlt, (str_compare_lt_trans _ _ _ Hlt Hk'). simpl. by rewrite Hgt, Hk'.
  - destruct (String.compare k j) eqn:Hk; simpl; rewrite ?Hgt, ?Hk', ?IH; done.
Qed.
Lemma map_insert_comm k v k' v' m :
  k ≠ k' → map_insert k v (map_insert k' v' m) = map_insert k' v' (map_insert k v m).
Proof.
  intros Hne. destruct (String.compare k k') eqn:Hc.
  - by apply String.compare_eq_iff in Hc.
  - by apply map_insert_comm_lt.
  - symmetry. by apply map_insert_comm_lt, str_compare_gt.
Qed.

Definition merged (before : list (string * Value)) fields : list (string * Value) :=
  foldl (λ m kv, map_insert kv.1 kv.2 m) before fields.
Lemma merged_perm before fields fields' :
  NoDup fields.*1 → fields ≡ₚ fields' → merged before fields = merged before fields'.
Proof.
  intros Hnd Hp. unfold merged. revert before. induction Hp as [|kv l l' Hp IH|[k v] [k' v'] l|l1 l2 l3 Hp1 IH1 Hp2 IH2];
    intros before; [done|..].
  - apply IH. by apply NoDup_cons in Hnd as [_ ?].
  - simpl. f_equal. apply map_insert_comm. intros ->. apply NoDup_cons in Hnd as [Hin _]. apply Hin. left.
  - rewrite IH1 by done. apply IH2. by rewrite <-Hp1.
Qed.
Lemma merged_get before fields k :
  NoDup fields.*1 →
  map_get k (merged before fields) = match assoc k fields with Some v => Some v | None => map_get k before end.
Proof.
  unfold merged. revert before. induction fields as [|[j u] fields IH]; intros before; [done|].
  intros [Hj Hnd]%NoDup_cons. simpl. rewrite IH by done. case_decide as Hkj; [subst j|].
  - assert (assoc k fields = None) as ->; [|apply map_get_insert].
    clear -Hj. induction fields as [|[i w] fields IH]; [done|]. simpl in *. rewrite decide_False; set_solver.
  - by rewrite map_get_insert_ne.
Qed.
End maps.

(** ** A patch *)
Section patch.
Context {L : Libs} {E : Type} {PE : PersistentEntity E}.
Implicit Types (e before after : E) (fields : list (string * Value)) (t : bool).

Definition same_field (b a : Obj) (k : string) : Prop := opt_value_eqb (map_get k b) (map_get k a) = true.

Lemma refuse_protected_spec t (b a : Obj) :
  match refuse_protected_changes (E:=E) t b a with
  | Ok _ => ∀ k, k ∈ protected_fields (E:=E) t → same_field b a k
  | Err e => ∃ ks, ks ≠ [] ∧ (∀ k, k ∈ ks ↔ k ∈ protected_fields (E:=E) t ∧ ¬ same_field b a k) ∧
                   e = SViolations (map not_writable ks)
  | Panic => False
  end.
Proof.
  unfold refuse_protected_changes, same_field.
  destruct (filter _ (protected_fields t)) as [|k0 ks] eqn:Hf.
  - intros k Hk. apply not_false_is_true. intros Hne. assert (k ∈ ([] : list string)) as Hin; [|by apply elem_of_nil in Hin].
    rewrite <-Hf. by apply list_elem_of_filter.
  - exists (k0 :: ks). split; [done|]. split; [|done]. intros k. rewrite <-Hf, list_elem_of_filter, not_true_iff_false. tauto.
Qed.

Definition unknown_keys (a : Obj) fields : list string :=
  filter (λ k, map_get k a = None) (map fst (filter (λ kv, is_null kv.2 = false) fields)).
Lemma elem_of_unknown_keys a fields k :
  NoDup fields.*1 →
  k ∈ unknown_keys a fields ↔ ∃ v, assoc k fields = Some v ∧ is_null v = false ∧ map_get k a = None.
Proof.
  intros Hnd. unfold unknown_keys. rewrite list_elem_of_filter.
  assert (k ∈ map fst (filter (λ kv : string * Value, is_null kv.2 = false) fields) ↔
          ∃ v, assoc k fields = Some v ∧ is_null v = false) as ->; [|naive_solver].
  induction fields as [|[j u] fields IH]; [simpl; split; [by intros ?%elem_of_nil|naive_solver]|].
  apply NoDup_cons in Hnd as [Hj Hnd]. specialize (IH Hnd). rewrite filter_cons. simpl assoc.
  assert (k ∈ map fst (filter (λ kv : string * Value, is_null kv.2 = false) fields) → k ∈ fields.*1) as Hsub.
  { intros (kv & -> & Hkv)%list_elem_of_fmap. apply list_elem_of_filter in Hkv as [_ Hkv]. by apply list_elem_of_fmap_2. }
  case_decide as Hu; case_decide as Hkj; simpl in Hu; cbn [map fst]; rewrite ?elem_of_cons, ?IH.
  - subst. naive_solver.
  - naive_solver.
  - subst. split; [|naive_solver]. intros Hv. exfalso. apply Hj, Hsub. by apply IH.
  - done.
Qed.
Lemma unknown_keys_perm a fields fields' :
  fields ≡ₚ fields' → merge_sort str_le (unknown_keys a fields) = merge_sort str_le (unknown_keys a fields').
Proof.
  intros Hp. apply (StronglySorted_unique str_le).
  - apply Sorted_StronglySorted; [apply _|]. apply (Sorted_merge_sort _).
  - apply Sorted_StronglySorted; [apply _|]. apply (Sorted_merge_sort _).
  - rewrite !merge_sort_Permutation. unfold unknown_keys. apply filter_Permutation, (fmap_Permutation fst).
    by apply filter_Permutation.
Qed.

(** [merge_patch], its parts named. *)
Lemma merge_patch_unfold t before fields :
  merge_patch t before fields =
  (b ← as_object before;
   patched ← match entity_of_value (VObject (merged b fields)) with inr e => Ok e | inl why => Err (patch_type_refusal why) end;
   a ← as_object patched;
   match unknown_keys a fields with
   | [] => _ ← refuse_protected_changes (E:=E) t b a; mret patched
   | _ => Err (SViolations (map unknown_field (merge_sort str_le (unknown_keys a fields))))
   end).
Proof.
  unfold merge_patch. destruct (as_object before) as [b|?|]; [|done..]. simpl. fold (merged b fields).
  destruct (entity_of_value _) as [?|patched]; [done|]. simpl. destruct (as_object patched) as [a|?|]; [|done..]. simpl.
  fold (unknown_keys a fields). by destruct (unknown_keys a fields).
Qed.

(** C37: a patch does the same in whatever order its fields are walked. It merges its fields over the
    record's JSON form: a type the record cannot hold is refused with the reader's reason; else, keys
    given a value that are no fields of the record are refused, each named, in order; else, protected
    fields it would change are refused, each named; else the record it answers reads back with every
    given field and no protected field changed. *)
Theorem merge_patch_spec t before fields fields' :
  NoDup fields.*1 → fields ≡ₚ fields' →
  merge_patch t before fields' = merge_patch t before fields ∧
  ∀ b, as_object before = Ok b →
  ∃ m, (∀ k, map_get k m = match assoc k fields with Some v => Some v | None => map_get k b end) ∧
  match entity_of_value (VObject m) with
  | inl why => merge_patch t before fields = Err (patch_type_refusal why)
  | inr patched =>
      match as_object patched with
      | Ok a =>
          (∃ ks, ks ≠ [] ∧ NoDup ks ∧ Sorted str_le ks ∧
             (∀ k, k ∈ ks ↔ ∃ v, assoc k fields = Some v ∧ is_null v = false ∧ map_get k a = None) ∧
             merge_patch t before fields = Err (SViolations (map unknown_field ks))) ∨
          (∀ k v, assoc k fields = Some v → is_null v = false → is_Some (map_get k a)) ∧
          ((∃ ks, ks ≠ [] ∧ (∀ k, k ∈ ks ↔ k ∈ protected_fields (E:=E) t ∧ ¬ same_field b a k) ∧
              merge_patch t before fields = Err (SViolations (map not_writable ks))) ∨
           (∀ k, k ∈ protected_fields (E:=E) t → same_field b a k) ∧ merge_patch t before fields = Ok patched)
      | Err e => merge_patch t before fields = Err e
      | Panic => False
      end
  end.
Proof.
  intros Hnd Hp. rewrite !merge_patch_unfold. split.
  { destruct (as_object before) as [b|?|]; [|done..]. simpl. rewrite (merged_perm b fields fields') by done.
    destruct (entity_of_value _) as [?|patched]; [done|]. simpl. destruct (as_object patched) as [a|?|]; [|done..]. simpl.
    rewrite (unknown_keys_perm a fields fields' Hp).
    assert (unknown_keys a fields ≡ₚ unknown_keys a fields') as Hu
      by (apply filter_Permutation, (fmap_Permutation fst), filter_Permutation, Hp).
    destruct (unknown_keys a fields) as [|k ks]; [apply Permutation_nil in Hu; by rewrite Hu|].
    destruct (unknown_keys a fields'); [by apply Permutation_nil_r in Hu|done]. }
  intros b Hb. exists (merged b fields). split; [intros k; by apply merged_get|].
  rewrite Hb. simpl. destruct (entity_of_value _) as [?|patched]; [done|]. simpl.
  destruct (as_object patched) as [a|?|] eqn:Ha; [|done|].
  2:{ unfold as_object in Ha. by repeat case_match. }
  simpl. pose proof (λ k, elem_of_unknown_keys a fields k Hnd) as Hel.
  assert (NoDup (unknown_keys a fields)) as Hun by (apply NoDup_filter, (sublist_NoDup _ fields.*1);
    [done|apply (fmap_sublist fst), sublist_filter]).
  destruct (unknown_keys a fields) as [|k0 ks] eqn:Hk.
  - right. split.
    { intros k v Hv Hnull. destruct (map_get k a) as [w|] eqn:Hw; [by eexists|].
      exfalso. apply (not_elem_of_nil k), Hel. by exists v. }
    pose proof (refuse_protected_spec t b a) as Hr.
    destruct (refuse_protected_changes t b a) as [[]|e|]; [by right| |done]. destruct Hr as (ks & H0 & Hks & ->).
    left. by exists ks.
  - left. exists (merge_sort str_le (k0 :: ks)). split; [|split; [|split; [|split; [|done]]]].
    + intros Hnil. pose proof (merge_sort_Permutation str_le (k0 :: ks)) as Hps. rewrite Hnil in Hps. by apply Permutation_nil_cons in Hps.
    + by rewrite merge_sort_Permutation.
    + apply (Sorted_merge_sort _).
    + intros k. by rewrite merge_sort_Permutation.
Qed.
End patch.

(** ** The repository never sees a protected field changed *)
Section protected.
Context {L : Libs} {E C U : Type} {PE : PersistentEntity E} {T W : Type} {HW : World W}.
Context {WG : WriteGuard E T W} {WH : WriteHooks E T W} {LC : ServiceLifecycle E T W}.
Variable from_create_dto : C → sm (St T W) ServiceError E.
Variable apply_update : E → U → sm (St T W) ServiceError E.
Variable driver_error : DbError → SqlxError.
Implicit Types (rq : Request) (e before after : E) (id : string).
#[local] Abbreviation Svc := (sm (St T W) ServiceError).

Definition keeps_protected (t : bool) before after : bool :=
  match as_object before, as_object after with
  | Ok b, Ok a => forallb (λ k, opt_value_eqb (map_get k b) (map_get k a)) (protected_fields (E:=E) t)
  | _, _ => false
  end.

(** A repository whose updates panic where a protected field would change, and whose whole-row
    update always panics. *)
Definition guarded (R : CrudRepository E T W) : CrudRepository E T W := {|
  repo_create := repo_create;
  repo_find_by_id := repo_find_by_id;
  repo_find_by_id_including_deleted := repo_find_by_id_including_deleted;
  repo_update _ _ := sm_panic;
  repo_update_changed rq before after :=
    if keeps_protected (in_transition rq) before after then repo_update_changed rq before after else sm_panic;
  repo_soft_delete := repo_soft_delete;
  repo_restore := repo_restore;
  repo_hard_delete := repo_hard_delete;
  repo_list_filtered := repo_list_filtered;
  repo_list_deleted := repo_list_deleted;
  repo_list_deleted_filtered := repo_list_deleted_filtered;
  repo_count := repo_count;
  repo_count_deleted := repo_count_deleted;
  repo_bulk_create := repo_bulk_create;
  repo_bulk_soft_delete := repo_bulk_soft_delete;
  repo_bulk_restore := repo_bulk_restore;
  repo_bulk_hard_delete := repo_bulk_hard_delete;
  repo_bulk_update_changed rq pairs :=
    if forallb (λ p, keeps_protected (in_transition rq) p.1 p.2) pairs then repo_bulk_update_changed rq pairs
    else sm_panic;
  repo_reference_visible := repo_reference_visible;
  repo_write_pool := repo_write_pool;
|}.

(** What runs between the check and the write leaves the protected fields alone. *)
Definition fills_keep_protected : Prop := ∀ rq before updated s,
  keeps_protected (in_transition rq) before updated = true →
  wpo (CrudWrite.before_update rq updated) (λ e _, keeps_protected (in_transition rq) before e = true) s ∧
  ∀ ctx, wpo (hooks_before rq ctx (change_update rq before updated))
           (λ left _, keeps_protected (in_transition rq) before (default updated left) = true) s.

Lemma keeps_protected_refuse t before after (b a : Obj) :
  as_object before = Ok b → as_object after = Ok a → refuse_protected_changes (E:=E) t b a = Ok tt →
  keeps_protected t before after = true.
Proof.
  intros Hb Ha Hr. unfold keeps_protected. rewrite Hb, Ha. apply List.forallb_forall.
  pose proof (refuse_protected_spec t b a) as H. rewrite Hr in H. intros k Hk%list_elem_of_In. by apply H.
Qed.
Lemma put_row_keeps rq before dto s :
  wpo (put_row apply_update rq before dto) (λ e _, keeps_protected (in_transition rq) before e = true) s.
Proof.
  unfold put_row. apply wpo_any; intros updated s1.
  apply wpo_bind; intros b s2 [= Hb <-]. apply wpo_bind; intros a s3 [= Ha <-].
  apply wpo_bind; intros [] s4 [= Hr <-]. apply wpo_ret. by eapply keeps_protected_refuse.
Qed.
Lemma patch_row_keeps rq before fields s :
  wpo (patch_row (T:=T) (W:=W) rq before fields) (λ e _, keeps_protected (in_transition rq) before e = true) s.
Proof.
  unfold patch_row, sm_lift, wpo. rewrite merge_patch_unfold. intros e s1 [= H _]. revert H.
  destruct (as_object before) as [b|?|] eqn:Hb; [|done..]. simpl.
  destruct (entity_of_value _) as [?|patched]; [done|]. simpl. destruct (as_object patched) as [a|?|] eqn:Ha; [|done..]. simpl.
  destruct (unknown_keys a fields); [|done].
  destruct (refuse_protected_changes (in_transition rq) b a) as [[]|?|] eqn:Hr; [|done..]. intros [= <-].
  by eapply keeps_protected_refuse.
Qed.

Section kept.
Context {R : CrudRepository E T W}.
Hypothesis fills_keep : fills_keep_protected.

Lemma prepare_update_keeps rq ctx at_item before updated s :
  keeps_protected (in_transition rq) before updated = true →
  wpo (prepare_update rq ctx at_item before updated) (λ e _, keeps_protected (in_transition rq) before e = true) s.
Proof.
  intros Hk. unfold prepare_update. apply wpo_any; intros _ s1.
  apply wpo_bind. eapply wpo_mono; [by apply fills_keep|]. intros e s2 He.
  unfold hooked. apply wpo_bind, wpo_bind. eapply wpo_mono; [by apply fills_keep|]. intros left s3 Hl.
  apply wpo_ret, wpo_any. intros _ s4. by apply wpo_ret.
Qed.

Lemma atomically_ext {A} rq (work work' : Request → Svc A) s :
  (∀ rq' s', in_transition rq' = in_transition rq → work rq' s' = work' rq' s') →
  atomically driver_error rq work s = atomically (R:=guarded R) driver_error rq work' s.
Proof.
  intros Hw. unfold atomically. cbn [repo_write_pool guarded]. destruct repo_write_pool; [|by apply Hw].
  apply in_write_tx_ext. intros tx s'. by apply Hw.
Qed.
Lemma committed_ext {A B} rq (work work' : Request → Svc A) (k : A → Svc B) s :
  (∀ rq' s', work rq' s' = work' rq' s') →
  (a ← atomically driver_error rq work; k a) s = (a ← atomically (R:=guarded R) driver_error rq work'; k a) s.
Proof. intros Hw. eapply sm_bind_ext; [by apply atomically_ext|apply wpo_true|done]. Qed.

Lemma update_row_guarded {P : CrudEventPublisher E T W} rq id row s :
  (∀ rq before s, wpo (row rq before) (λ e _, keeps_protected (in_transition rq) before e = true) s) →
  update_row driver_error rq id row s = update_row (R:=guarded R) driver_error rq id row s.
Proof.
  intros Hrow. apply committed_ext. intros rq' s'.
  eapply sm_bind_ext; [done|apply wpo_true|]. intros ctx s1 _.
  eapply sm_bind_ext; [done|apply wpo_true|]. intros [before|] s2 _; [|done].
  eapply sm_bind_ext; [done|apply Hrow|]. intros updated s3 Hk. cbn beta in Hk.
  eapply sm_bind_ext; [done|by apply prepare_update_keeps|]. intros e s4 He. cbn beta in He.
  cbn [repo_update_changed guarded]. by rewrite He.
Qed.
Lemma each_indexed_Forall {A B} (Q : B → Prop) (f : nat → A → Svc B) n l s :
  (∀ n x s, wpo (f n x) (λ y _, Q y) s) → wpo (each_indexed f n l) (λ ys _, Forall Q ys) s.
Proof.
  intros Hf. revert n s. induction l as [|x l IH]; intros n s; simpl; [by apply wpo_ret|].
  apply wpo_bind. eapply wpo_mono; [apply Hf|]. intros y s1 Hy.
  apply wpo_bind. eapply wpo_mono; [apply IH|]. intros ys s2 Hys. apply wpo_ret. by constructor.
Qed.
Lemma bulk_update_guarded {P : CrudEventPublisher E T W} {A} rq what (items : list (string * A)) row s :
  (∀ rq before x s, wpo (row rq before x) (λ e _, keeps_protected (in_transition rq) before e = true) s) →
  bulk_update_rows driver_error rq what items row s = bulk_update_rows (R:=guarded R) driver_error rq what items row s.
Proof.
  intros Hrow. unfold bulk_update_rows.
  eapply sm_bind_ext; [done|apply wpo_true|]. intros _ s1 _.
  eapply sm_bind_ext; [done|apply wpo_true|]. intros _ s2 _.
  apply committed_ext. intros rq' s'.
  eapply sm_bind_ext; [done|apply wpo_true|]. intros ctx s3 _.
  eapply sm_bind_ext; [done| |].
  - apply (each_indexed_Forall (λ p, keeps_protected (in_transition rq') p.1 p.2 = true)). intros n x s4.
    apply wpo_any; intros before s5. apply wpo_bind. eapply wpo_mono; [apply Hrow|]. intros updated s6 Hk.
    apply wpo_bind. eapply wpo_mono; [by apply prepare_update_keeps|]. intros e s7 He. by apply wpo_ret.
  - intros pairs s4 Hp. cbn beta in Hp. cbn [repo_bulk_update_changed guarded].
    rewrite (proj2 (List.forallb_forall _ pairs)); [done|]. intros p Hin%list_elem_of_In.
    by apply (proj1 (Forall_forall _ _) Hp).
Qed.
End kept.

(** C8: no write the service has ever asks its repository to change a protected field, or to write a
    whole row back. Over any repository, guard, hooks and lifecycle, so long as the lifecycle and the
    hooks themselves leave a protected field alone, the service does exactly what it does over the
    repository whose every such update panics; inside a verb's transition the state fields are not
    protected, and the rest still are. *)
Theorem protected_fields_kept {R : CrudRepository E T W} (P : CrudEventPublisher E T W) rq (op : Op) s :
  fills_keep_protected →
  serve from_create_dto apply_update driver_error P rq op s =
  serve (R:=guarded R) from_create_dto apply_update driver_error P rq op s.
Proof.
  intros Hfill. destruct op; (eapply sm_bind_ext; [|apply wpo_true|done]).
  - by apply committed_ext.
  - apply update_row_guarded; [done|]. intros. apply put_row_keeps.
  - apply update_row_guarded; [done|]. intros. apply patch_row_keeps.
  - by apply committed_ext.
  - by apply committed_ext.
  - by apply committed_ext.
  - by apply committed_ext.
  - by apply committed_ext.
  - eapply sm_bind_ext; [done|apply wpo_true|]. intros _ s1 _. by apply committed_ext.
  - eapply sm_bind_ext; [done|apply wpo_true|]. intros _ s1 _. by apply committed_ext.
  - eapply sm_bind_ext; [done|apply wpo_true|]. intros _ s1 _. by apply committed_ext.
  - eapply sm_bind_ext; [done|apply wpo_true|]. intros _ s1 _. by apply committed_ext.
  - apply bulk_update_guarded; [done|]. intros. apply put_row_keeps.
  - apply bulk_update_guarded; [done|]. intros. apply patch_row_keeps.
Qed.
End protected.
