(* ===== verification/MemoryRepositoryFacts.v ===== *)
(** * What the in-memory repository keeps to

    Its maps hold each row under its own id, its trash holds marked rows only ([mem_inv]); its pages
    cut the rows in id order; and the service over it, as [with_repository] builds it (no lifecycle, no hooks, a guard
    that allows, no publisher), moves rows between the two maps all or nothing although there is no transaction. *)
From Stdlib Require Import ZArith Lia Ascii.
From stdpp Require Import gmap sorting.
From S2P Require Import Prelude RustStr RustChar Json WorkflowExpr Database WriteHooks RepositoryErrors CrudWrite CrudService ListQuery MemoryRepository CrudServiceFacts.

Local Open Scope Z_scope.

(** The setters of an entity set what they name and leave its id and mark alone. *)
Class EntityLaws (E : Type) {L : Libs} {PE : PersistentEntity E} := {
  id_set_id i (e : E) : entity_id (set_entity_id i e) = i;
  id_set_created t (e : E) : entity_id (set_created_at t e) = entity_id e;
  id_set_updated t (e : E) : entity_id (set_updated_at t e) = entity_id e;
  id_set_deleted d (e : E) : entity_id (set_deleted_at d e) = entity_id e;
  deleted_set_updated t (e : E) : deleted_at (set_updated_at t e) = deleted_at e;
  deleted_set_deleted d (e : E) : deleted_at (set_deleted_at d e) = d;
}.

Section facts.
Context {L : Libs} {E : Type} {PE : PersistentEntity E} {EL : EntityLaws E} {W : Type} {HW : World W}.
Variable overflow_checks : bool.
Implicit Types (rq : Request) (e : E) (id : string) (m : Mem E) (s : St (Mem E) W).

(** ** The invariant *)

Definition mem_inv m : Prop :=
  map_Forall (λ id e, entity_id e = id) (store m) ∧
  map_Forall (λ id e, entity_id e = id ∧ is_Some (deleted_at e)) (trash m).
Definition inv_kept : relation (St (Mem E) W) := λ s s', mem_inv (tables s) → mem_inv (tables s').
#[local] Instance inv_kept_preorder : PreOrder inv_kept.
Proof. split; [intros s; by unfold inv_kept|intros s1 s2 s3; unfold inv_kept; auto]. Qed.

(** What a repository is called for. *)
Inductive MemCall :=
  | CallCreate (e : E) | CallUpdate (e : E) | CallUpdateChanged (before after : E)
  | CallSoftDelete (id : string) | CallRestore (id : string) | CallHardDelete (id : string)
  | CallBulkCreate (l : list E) | CallBulkSoftDelete (ids : list string) | CallBulkRestore (ids : list string)
  | CallBulkHardDelete (ids : list string) | CallBulkUpdate (pairs : list (E * E)) | CallEmptyTrash
  | CallFind (id : string) | CallFindAny (id : string) | CallList (page limit : Z) | CallListDeleted (page limit : Z).
Definition mem_call rq (c : MemCall) : sm (St (Mem E) W) RepositoryError unit :=
  let R := InMemoryRepository overflow_checks in
  match c with
  | CallCreate e => _ ← repo_create rq e; mret tt
  | CallUpdate e => _ ← repo_update rq e; mret tt
  | CallUpdateChanged b a => _ ← repo_update_changed rq b a; mret tt
  | CallSoftDelete id => _ ← repo_soft_delete rq id; mret tt
  | CallRestore id => _ ← repo_restore rq id; mret tt
  | CallHardDelete id => _ ← repo_hard_delete rq id; mret tt
  | CallBulkCreate l => _ ← repo_bulk_create rq l; mret tt
  | CallBulkSoftDelete ids => _ ← repo_bulk_soft_delete rq ids; mret tt
  | CallBulkRestore ids => _ ← repo_bulk_restore rq ids; mret tt
  | CallBulkHardDelete ids => _ ← repo_bulk_hard_delete rq ids; mret tt
  | CallBulkUpdate pairs => _ ← repo_bulk_update_changed rq pairs; mret tt
  | CallEmptyTrash => _ ← mem_empty_trash rq; mret tt
  | CallFind id => _ ← repo_find_by_id rq id; mret tt
  | CallFindAny id => _ ← repo_find_by_id_including_deleted rq id; mret tt
  | CallList page limit => _ ← repo_list_filtered rq page limit []; mret tt
  | CallListDeleted page limit => _ ← repo_list_deleted rq page limit; mret tt
  end.

(** *** What each call does, by its clock readings *)
Lemma utc_now_spec {F} s : ∃ t w, utc_now (E:=F) s = (Ok t, mkSt (tables s) w).
Proof. unfold utc_now. destruct (w_utc_now (world s)) as [t w]. by exists t, w. Qed.
Lemma fresh_uuid_spec {F} s : ∃ u w, fresh_uuid (E:=F) s = (Ok u, mkSt (tables s) w).
Proof. unfold fresh_uuid. simpl. destruct (w_uuid (world s)) as [u w]. by exists u, w. Qed.

Lemma mem_soft_delete_spec rq id s :
  match store (tables s) !! id with
  | None => mem_soft_delete rq id s = (Ok false, s)
  | Some e => ∃ t1 t2 w, mem_soft_delete rq id s =
      (Ok true, mkSt (mkMem (delete id (store (tables s)))
                            (<[id := set_updated_at t2 (set_deleted_at (Some t1) e)]> (trash (tables s)))) w)
  end.
Proof.
  unfold mem_soft_delete, mbind, sm_bind, mem_read. destruct (store (tables s) !! id) as [e|] eqn:He; [|done].
  unfold mem_write at 1. simpl. unfold mark_deleted, mbind, sm_bind.
  destruct (utc_now_spec (F:=RepositoryError) (mkSt (mkMem (delete id (store (tables s))) (trash (tables s))) (world s)))
    as (t1 & w1 & ->). simpl.
  destruct (utc_now_spec (F:=RepositoryError) (mkSt (mkMem (delete id (store (tables s))) (trash (tables s))) w1))
    as (t2 & w2 & ->). by exists t1, t2, w2.
Qed.
Lemma mem_restore_spec rq id s :
  match trash (tables s) !! id with
  | None => mem_restore rq id s = (Ok None, s)
  | Some e => ∃ t w, let e' := set_updated_at t (set_deleted_at None e) in
      mem_restore rq id s =
      (Ok (Some e'), mkSt (mkMem (<[id := e']> (store (tables s))) (delete id (trash (tables s)))) w)
  end.
Proof.
  unfold mem_restore, mbind, sm_bind, mem_read. destruct (trash (tables s) !! id) as [e|] eqn:He; [|done].
  unfold mem_write at 1. simpl. unfold unmark_deleted, mbind, sm_bind.
  destruct (utc_now_spec (F:=RepositoryError) (mkSt (mkMem (store (tables s)) (delete id (trash (tables s)))) (world s)))
    as (t & w & ->). by exists t, w.
Qed.
Lemma mem_update_spec rq e s :
  match store (tables s) !! entity_id e with
  | None => mem_update rq e s = (Err RNotFound, s)
  | Some _ => ∃ t w, mem_update rq e s =
      (Ok (set_updated_at t e), mkSt (mkMem (<[entity_id e := set_updated_at t e]> (store (tables s))) (trash (tables s))) w)
  end.
Proof.
  unfold mem_update, mbind, sm_bind, mem_read. destruct (store (tables s) !! entity_id e) as [e0|] eqn:He; [|done].
  destruct (utc_now_spec (F:=RepositoryError) s) as (t & w & ->). simpl. rewrite id_set_updated. by exists t, w.
Qed.
Lemma mem_create_spec rq e s :
  ∃ i, (entity_id e ≠ "" → i = entity_id e) ∧
  match store (tables s) !! i with
  | Some _ => ∃ w, mem_create rq e s =
      (Err (RAlreadyExists ("Entity with ID " +:+ i +:+ " already exists")), mkSt (tables s) w)
  | None => ∃ e' w, entity_id e' = i ∧
      mem_create rq e s = (Ok e', mkSt (mkMem (<[i := e']> (store (tables s))) (trash (tables s))) w)
  end.
Proof.
  unfold mem_create. set (named := (if bool_decide _ then _ else _)).
  assert (∃ e1 w, named s = (Ok e1, mkSt (tables s) w) ∧ (entity_id e ≠ "" → entity_id e1 = entity_id e)) as (e1 & w & Hn & Hid).
  { unfold named. case_bool_decide.
    - destruct (fresh_uuid_spec (F:=RepositoryError) s) as (u & w & Hu). unfold mbind, sm_bind. rewrite Hu. by eexists _, w.
    - exists e, (world s). by destruct s. }
  exists (entity_id e1). split; [done|]. unfold mbind, sm_bind. rewrite Hn. simpl.
  destruct (store (tables s) !! entity_id e1) as [?|] eqn:Ht; [by exists w|].
  destruct (utc_now_spec (F:=RepositoryError) (mkSt (tables s) w)) as (t & w' & ->). simpl.
  set (e2 := set_updated_at t _).
  assert (entity_id e2 = entity_id e1) as He2 by (unfold e2; rewrite id_set_updated; case_bool_decide; by rewrite ?id_set_created).
  exists e2, w'. by rewrite He2.
Qed.

(** *** Each keeps the invariant *)
Lemma inv_kept_read {A} (f : Mem E → A) : keeps inv_kept (mem_read (W:=W) f).
Proof. by intros s. Qed.
Lemma inv_kept_soft_delete rq id : keeps inv_kept (mem_soft_delete rq id).
Proof.
  intros s. pose proof (mem_soft_delete_spec rq id s) as H. case_match eqn:He; [|by rewrite H].
  destruct H as (t1 & t2 & w & ->). intros [Hs Ht]. split; simpl.
  - by apply map_Forall_delete.
  - apply map_Forall_insert_2; [|done]. rewrite id_set_updated, id_set_deleted, deleted_set_updated, deleted_set_deleted.
    split; [by apply Hs|by eexists].
Qed.
Lemma inv_kept_restore rq id : keeps inv_kept (mem_restore rq id).
Proof.
  intros s. pose proof (mem_restore_spec rq id s) as H. case_match eqn:He; [|by rewrite H].
  destruct H as (t & w & ->). intros [Hs Ht]. split; simpl; [|by apply map_Forall_delete].
  apply map_Forall_insert_2; [|done]. rewrite id_set_updated, id_set_deleted. by apply Ht.
Qed.
Lemma inv_kept_hard_delete rq id : keeps inv_kept (mem_hard_delete rq id).
Proof. intros s [Hs Ht]. split; simpl; by apply map_Forall_delete. Qed.
Lemma inv_kept_update rq e : keeps inv_kept (mem_update rq e).
Proof.
  intros s. pose proof (mem_update_spec rq e s) as H. case_match; [|by rewrite H].
  destruct H as (t & w & ->). intros [Hs Ht]. split; [|done].
  apply map_Forall_insert_2; [|done]. by rewrite id_set_updated.
Qed.
Lemma inv_kept_create rq e : keeps inv_kept (mem_create rq e).
Proof.
  intros s. destruct (mem_create_spec rq e s) as (i & _ & H). case_match; [destruct H as (w & ->); by unfold inv_kept|].
  destruct H as (e' & w & Hi & ->). intros [Hs Ht]. split; [|done]. by apply map_Forall_insert_2.
Qed.
Lemma inv_kept_page rows page limit : keeps inv_kept (page_of (E:=E) (W:=W) overflow_checks rows page limit).
Proof.
  intros s. unfold inv_kept, page_of, page_offset, mbind, sm_bind.
  destruct (_ <=? u32_max); [done|]. by destruct overflow_checks.
Qed.
Lemma inv_kept_update_changed rq before after :
  keeps inv_kept (default_update_changed mem_update rq before after).
Proof.
  unfold default_update_changed. apply keeps_bind; [apply _|apply keeps_attempt, inv_kept_update|].
  intros [[]|]; first [apply keeps_err|apply keeps_ret]; apply _.
Qed.

(** over any sequence of calls of the repository, from the empty one or one built from a list, a
    row is found only under its own id, in the live map and in the trash, and every row of the trash
    carries its deletion mark; a failed call keeps this too. *)
Theorem mem_repository_inv (entities : list E) rq (calls : list MemCall) (w : W) :
  let '(_, s) := sm_iter (λ c, _ ← attempt (F:=RepositoryError) (mem_call rq c); mret tt) calls
                   (mkSt (with_data entities) w) in
  mem_inv (tables s).
Proof.
  assert (keeps inv_kept (sm_iter (λ c, _ ← attempt (F:=RepositoryError) (mem_call rq c); mret tt) calls)) as H.
  { apply keeps_iter; [apply _|]. intros c. apply keeps_bind; [apply _| |intros; apply keeps_ret, _].
    apply keeps_attempt.
    destruct c; (apply keeps_bind; [apply _| |intros; apply keeps_ret, _]); simpl.
    - apply inv_kept_create.
    - apply inv_kept_update.
    - apply inv_kept_update_changed.
    - apply inv_kept_soft_delete.
    - apply inv_kept_restore.
    - apply inv_kept_hard_delete.
    - apply keeps_mapM; [apply _|]. apply Forall_true. intros. apply inv_kept_create.
    - apply keeps_fold; [apply _|]. intros. apply keeps_bind; [apply _|apply inv_kept_soft_delete|].
      intros; apply keeps_ret, _.
    - apply keeps_fold; [apply _|]. intros. apply keeps_bind; [apply _|apply inv_kept_restore|].
      intros; apply keeps_ret, _.
    - apply keeps_fold; [apply _|]. intros. apply keeps_bind; [apply _|apply inv_kept_hard_delete|].
      intros; apply keeps_ret, _.
    - unfold default_bulk_update_changed. generalize 0%nat.
      induction pairs as [|[b a] pairs IH]; intros n; simpl; [apply keeps_ret, _|].
      apply keeps_bind; [apply _|apply keeps_map_err, inv_kept_update_changed|].
      intros [e|]; [|apply keeps_err; apply _]. apply keeps_bind; [apply _|apply IH|]. intros; apply keeps_ret, _.
    - intros s [Hs _]. split; [done|]. apply map_Forall_empty.
    - apply inv_kept_read.
    - apply inv_kept_read.
    - apply keeps_bind; [apply _|apply inv_kept_read|]. intros; apply inv_kept_page.
    - apply keeps_bind; [apply _|apply inv_kept_read|]. intros; apply inv_kept_page. }
  specialize (H (mkSt (with_data entities) w)). destruct (sm_iter _ _ _) as [r s]. apply H. simpl. clear.
  split; [|apply map_Forall_empty]. unfold with_data. simpl.
  assert (∀ m : gmap string E, map_Forall (λ id e, entity_id e = id) m →
    map_Forall (λ id e, entity_id e = id) (foldl (λ (r : gmap string E) e, <[entity_id e := e]> r) m entities)) as Hf; [|apply Hf, map_Forall_empty].
  induction entities as [|e entities IH]; intros m Hm; [done|]. simpl. apply IH. by apply map_Forall_insert_2.
Qed.
End facts.

(** ** Pages *)

Lemma concat_chunks {A} (l : list A) (k n : nat) :
  concat (map (λ i, take k (drop (i * k) l)) (seq 0 n)) = take (n * k) l.
Proof.
  induction n as [|n IH]; [done|].
  rewrite seq_S, map_app, concat_app, IH. simpl. rewrite app_nil_r, take_take_drop. f_equal. lia.
Qed.

Section order.
Context {E : Type}.
#[local] Instance key_le_trans : Transitive (@key_le E).
Proof. intros a b c. unfold key_le. apply (transitivity (R:=str_le)). Qed.
#[local] Instance key_le_total : Total (@key_le E).
Proof. intros a b. apply (base.total str_le). Qed.

Lemma ordered_by_id_perm (m : gmap string E) : ordered_by_id m ≡ₚ (map_to_list m).*2.
Proof. apply (fmap_Permutation snd), merge_sort_Permutation. Qed.
Lemma length_ordered_by_id (m : gmap string E) : length (ordered_by_id m) = size m.
Proof. rewrite ordered_by_id_perm, length_fmap. apply length_map_to_list. Qed.
(** The ids, when each row is under its own, go up without repetition. *)
Lemma ordered_by_id_sorted (f : E → string) (m : gmap string E) :
  map_Forall (λ id e, f e = id) m →
  StronglySorted (strict str_le) (map f (ordered_by_id m)) ∧
  ∀ id e, m !! id = Some e ↔ e ∈ ordered_by_id m ∧ f e = id.
Proof.
  intros Hm. unfold ordered_by_id. set (l := merge_sort key_le (map_to_list m)).
  assert (l ≡ₚ map_to_list m) as Hp by apply merge_sort_Permutation.
  assert (Forall (λ kv, f kv.2 = kv.1) l) as Hf.
  { apply Forall_forall. intros [k e]. rewrite Hp, elem_of_map_to_list. apply Hm. }
  split.
  - assert (NoDup l.*1) as Hnd by (rewrite Hp; apply NoDup_fst_map_to_list).
    assert (StronglySorted key_le l) as Hs by (apply Sorted_StronglySorted; [apply _|apply Sorted_merge_sort; apply _]).
    clear Hp. clearbody l. induction Hs as [|[k e] l Hs IH Hall]; [constructor|].
    apply NoDup_cons in Hnd as [Hk Hnd]. apply Forall_cons in Hf as [Hke Hf]. simpl in *. constructor; [by apply IH|].
    rewrite List.map_map. apply Forall_fmap, Forall_forall. intros [k' e'] Hin. simpl.
    rewrite Forall_forall in Hall, Hf. specialize (Hall _ Hin). specialize (Hf _ Hin). simpl in Hf. rewrite Hke, Hf.
    split; [done|]. intros Hle. apply Hk, list_elem_of_fmap. exists (k', e'). split; [|done]. simpl.
    by apply (anti_symm str_le).
  - intros id e. split.
    + intros He. split; [|by apply Hm]. apply list_elem_of_fmap. exists (id, e). split; [done|].
      by rewrite Hp, elem_of_map_to_list.
    + intros [([k e'] & -> & Hin)%list_elem_of_fmap Hid]. rewrite Forall_forall in Hf. pose proof (Hf _ Hin) as Hk.
      rewrite Hp, elem_of_map_to_list in Hin. simpl in *. by subst.
Qed.
End order.

Section service.
Context {L : Libs} {E C U : Type} {PE : PersistentEntity E} {EL : EntityLaws E} {W : Type} {HW : World W}.
Variable overflow_checks : bool.
Variable driver_error : DbError → SqlxError.
Implicit Types (rq : Request) (e : E) (id : string) (ids : list string) (s : St (Mem E) W).
#[local] Instance repository : CrudRepository E (Mem E) W := InMemoryRepository overflow_checks.
#[local] Instance guard : WriteGuard E (Mem E) W := AllowAll.
#[local] Instance hooks : WriteHooks E (Mem E) W := NoWriteHooks.
#[local] Instance lifecycle : ServiceLifecycle E (Mem E) W := NoOpLifecycle.
#[local] Instance publisher : CrudEventPublisher E (Mem E) W := NoOpCrudEventPublisher.

Lemma page_of_spec (rows : list E) (page limit : Z) s :
  1 ≤ page → (page - 1) * limit ≤ u32_max → 0 ≤ limit →
  page_of overflow_checks rows page limit s =
    (Ok (take (Z.to_nat limit) (drop (Z.to_nat (page - 1) * Z.to_nat limit) rows), Z.of_nat (length rows)), s).
Proof.
  intros Hp Hu Hl. unfold page_of, page_offset, mbind, sm_bind. rewrite Z.max_r by lia.
  rewrite (proj2 (Z.leb_le _ _) Hu). cbn -[Z.to_nat Z.mul]. by rewrite Z2Nat.inj_mul by lia.
Qed.

Definition mem_page rq (limit : Z) (i : nat) : sm (St (Mem E) W) RepositoryError (list E) :=
  '(rows, _) ← repo_list_filtered rq (Z.of_nat i + 1) limit []; mret rows.

(** reading page after page, as many as the rows need, answers every live row exactly once, in
    the order of their ids, full pages but the last, and changes nothing; every page names the same
    total, the number of live rows. The offset of the last page must fit 32 bits. *)
Theorem mem_pages_partition rq (limit : Z) (pages : nat) s :
  mem_inv (tables s) → 0 < limit →
  Z.of_nat (size (store (tables s))) ≤ Z.of_nat pages * limit →
  Z.of_nat (pages - 1) * limit ≤ u32_max →
  ∃ parts,
    mapM (mem_page rq limit) (seq 0 pages) s = (Ok parts, s) ∧
    (∀ id e, store (tables s) !! id = Some e ↔ e ∈ concat parts ∧ entity_id e = id) ∧
    StronglySorted (strict str_le) (map entity_id (concat parts)) ∧
    (∀ i part, parts !! i = Some part →
       Z.of_nat (length part) = Z.min limit (Z.max 0 (Z.of_nat (size (store (tables s))) - Z.of_nat i * limit))) ∧
    ∀ i, (i < pages)%nat →
      (repo_list_filtered rq (Z.of_nat i + 1) limit [] s).1 =
        Ok (default [] (parts !! i), Z.of_nat (size (store (tables s)))).
Proof.
  intros [Hstore _] Hlim Hsize Hfit. set (rows := ordered_by_id (store (tables s))).
  set (part := λ i, take (Z.to_nat limit) (drop (i * Z.to_nat limit) rows)).
  assert (∀ i, (i < pages)%nat → repo_list_filtered rq (Z.of_nat i + 1) limit [] s =
            (Ok (part i, Z.of_nat (size (store (tables s)))), s)) as Hpage.
  { intros i Hi. cbn -[page_of]. unfold mem_list, mbind, sm_bind, mem_read. rewrite page_of_spec by nia.
    rewrite length_ordered_by_id. unfold part, rows. by replace (Z.to_nat (Z.of_nat i + 1 - 1)) with i by lia. }
  assert (length rows = size (store (tables s))) as Hlen by apply length_ordered_by_id.
  assert (concat (map part (seq 0 pages)) = rows) as Hall.
  { unfold part. rewrite concat_chunks. apply take_ge. rewrite Hlen. nia. }
  destruct (ordered_by_id_sorted entity_id (store (tables s)) Hstore) as [Hsorted Hin]. fold rows in Hsorted, Hin.
  exists (map part (seq 0 pages)). rewrite Hall. split; [|split; [done|split; [done|split]]].
  - assert (∀ j n, (j + n ≤ pages)%nat → mapM (mem_page rq limit) (seq j n) s = (Ok (map part (seq j n)), s)) as Hm;
      [|by apply Hm].
    intros j n. revert j. induction n as [|n IH]; intros j Hj; [done|]. cbn [seq mapM map].
    unfold mbind at 1, sm_bind at 1, mem_page at 1, mbind at 1, sm_bind at 1. rewrite Hpage by lia.
    unfold mbind, sm_bind. simpl. by rewrite IH by lia.
  - intros i p Hi. apply list_lookup_fmap_Some in Hi as (j & -> & Hj). apply lookup_seq in Hj as [-> _].
    unfold part. rewrite length_take, length_drop, Hlen. simpl. lia.
  - intros i Hi. rewrite Hpage by done. unfold part.
    change (map ?f ?l) with (f <$> l). by rewrite list_lookup_fmap, lookup_seq_lt.
Qed.

(** ** Moving rows between the maps *)

(** What only draws from the world: clock readings, ids. *)
Lemma wp_draw {F A B} (m : sm (St (Mem E) W) F A) (f : A → sm (St (Mem E) W) F B) Φ s :
  (∃ a w, m s = (Ok a, mkSt (tables s) w)) → (∀ a w, wp (f a) Φ (mkSt (tables s) w)) → wp (m ≫= f) Φ s.
Proof. intros (a & w & Hm) Hf. apply wp_bind. unfold wp at 1. rewrite Hm. apply Hf. Qed.
Lemma wp_call {F A B} (m : sm (St (Mem E) W) F A) (f : A → sm (St (Mem E) W) F B) Φ s a s1 :
  m s = (Ok a, s1) → wp (f a) Φ s1 → wp (m ≫= f) Φ s.
Proof. intros Hm Hf. apply wp_bind. unfold wp at 1. by rewrite Hm. Qed.
Lemma of_repo_ok {A} (m : sm (St (Mem E) W) RepositoryError A) s a s1 :
  m s = (Ok a, s1) → of_repo m s = (Ok a, s1).
Proof. intros Hm. unfold of_repo, map_err. by rewrite Hm. Qed.
Lemma write_ctx_draws rq s : ∃ ctx w, write_ctx rq s = (Ok ctx, mkSt (tables s) w).
Proof.
  unfold write_ctx, write_ctx_current. set (bound := match task_correlation _ with Some _ => _ | None => _ end).
  destruct bound.
  - destruct s. unfold mbind, sm_bind. by eexists _, _.
  - unfold mbind, sm_bind. destruct (fresh_uuid_spec (F:=ServiceError) s) as (u & w & ->). by eexists _, _.
Qed.
Lemma consult_draws rq kind before after s :
  ∃ u w, consult rq kind before after s = (Ok u, mkSt (tables s) w).
Proof.
  unfold consult, consult_as, guard_ctx, mbind, sm_bind.
  destruct (utc_now_spec (F:=ServiceError) s) as (t & w & ->). by eexists _, _.
Qed.
Lemma metadata_draws id s : ∃ u w, metadata_new (F:=ServiceError) (E:=E) id s = (Ok u, mkSt (tables s) w).
Proof.
  unfold metadata_new, mbind, sm_bind. destruct (fresh_uuid_spec (F:=ServiceError) s) as (u & w & ->).
  destruct (utc_now_spec (F:=ServiceError) (mkSt (tables s) w)) as (t & w' & ->). by eexists _, _.
Qed.

(** A row as the trash holds it, and as it comes back. *)
Definition trashed_as e e' : Prop := ∃ t1 t2, e' = set_updated_at t2 (set_deleted_at (Some t1) e).
Definition restored_as e e' : Prop := ∃ t, e' = set_updated_at t (set_deleted_at None e).

Lemma wp_soft_delete rq id s :
  wp (soft_delete driver_error rq id) (λ r s',
    match store (tables s) !! id with
    | Some e => r = Ok true ∧ ∃ e', trashed_as e e' ∧
        tables s' = mkMem (delete id (store (tables s))) (<[id := e']> (trash (tables s)))
    | None => r = Ok false ∧ tables s' = tables s
    end) s.
Proof.
  unfold soft_delete, atomically. cbn [repo_write_pool repository InMemoryRepository].
  apply wp_bind, wp_draw; [apply write_ctx_draws|]. intros ctx w. apply wp_bind.
  unfold wp at 1. cbn. destruct (store (tables s) !! id) as [e|] eqn:He; [|done].
  apply wp_draw; [apply consult_draws|]. intros [] w1. do 2 (apply wp_bind, wp_ret).
  pose proof (mem_soft_delete_spec rq id (mkSt (tables s) w1)) as Hd. simpl in Hd. rewrite He in Hd.
  destruct Hd as (t1 & t2 & w2 & Hd). eapply wp_call; [apply of_repo_ok, Hd|]. simpl.
  do 2 (apply wp_bind, wp_ret). apply wp_draw; [apply metadata_draws|]. intros meta w3. simpl. apply wp_ret.
  eapply wp_call; [apply publish_none|]. apply wp_ret. split; [done|].
  eexists. split; [by exists t1, t2|done].
Qed.

Lemma wp_restore rq id s :
  wp (restore driver_error rq id) (λ r s',
    match trash (tables s) !! id with
    | Some e => ∃ e', restored_as e e' ∧ r = Ok (Some e') ∧
        tables s' = mkMem (<[id := e']> (store (tables s))) (delete id (trash (tables s)))
    | None => r = Ok None ∧ tables s' = tables s
    end) s.
Proof.
  unfold restore, atomically. cbn [repo_write_pool repository InMemoryRepository].
  apply wp_bind, wp_draw; [apply write_ctx_draws|]. intros ctx w.
  eapply wp_call; [by apply of_repo_ok|]. cbn [tables].
  pose proof (λ w, mem_restore_spec rq id (mkSt (tables s) w)) as Hr. cbn [tables] in Hr.
  destruct (match store (tables s) !! id with Some e => Some e | None => trash (tables s) !! id end) as [trashed|] eqn:Hf.
  2:{ destruct (store (tables s) !! id); [done|]. rewrite Hf.
      apply wp_ret. eapply wp_call; [apply publish_none|]. by apply wp_ret. }
  apply wp_bind. apply wp_draw; [apply consult_draws|]. intros [] w1. do 2 (apply wp_bind, wp_ret). apply wp_ret.
  specialize (Hr w1). destruct (trash (tables s) !! id) as [e|].
  - destruct Hr as (t & w2 & Hr). eapply wp_call; [apply of_repo_ok, Hr|].
    apply wp_bind, wp_bind, wp_ret, wp_draw; [apply metadata_draws|]. intros meta w3. do 2 apply wp_ret.
    eapply wp_call; [apply publish_none|]. apply wp_ret. eexists. split; [by exists t|done].
  - eapply wp_call; [apply of_repo_ok, Hr|]. apply wp_ret. eapply wp_call; [apply publish_none|]. by apply wp_ret.
Qed.

(** a row put in the trash through the service is found no more, is the one row moved, and comes
    back by a restore as it was but for its stamps; a second deletion, and a restore of what is not in
    the trash, change nothing. *)
Theorem trash_round_trip rq id e s :
  store (tables s) !! id = Some e →
  ∃ e1 s1 s1' e2 s2,
    soft_delete driver_error rq id s = (Ok true, s1) ∧ trashed_as e e1 ∧
    tables s1 = mkMem (delete id (store (tables s))) (<[id := e1]> (trash (tables s))) ∧
    get_by_id rq id s1 = (Ok None, s1) ∧ get_deleted_by_id rq id s1 = (Ok (Some e1), s1) ∧
    soft_delete driver_error rq id s1 = (Ok false, s1') ∧ tables s1' = tables s1 ∧
    restore driver_error rq id s1' = (Ok (Some e2), s2) ∧ restored_as e1 e2 ∧
    tables s2 = mkMem (<[id := e2]> (store (tables s))) (delete id (trash (tables s))) ∧
    get_by_id rq id s2 = (Ok (Some e2), s2) ∧
    ∀ r s3, restore driver_error rq id s2 = (r, s3) → r = Ok None ∧ tables s3 = tables s2.
Proof.
  intros He. pose proof (wp_soft_delete rq id s) as H1. unfold wp in H1. rewrite He in H1.
  destruct (soft_delete driver_error rq id s) as [r1 s1]. simpl in H1. destruct H1 as (-> & e1 & He1 & Ht1). simpl in Ht1.
  assert (store (tables s1) !! id = None) as Hgone by (rewrite Ht1; apply lookup_delete_eq).
  pose proof (wp_soft_delete rq id s1) as H1'. unfold wp in H1'. rewrite Hgone in H1'.
  destruct (soft_delete driver_error rq id s1) as [r1' s1'] eqn:Hd. simpl in H1'. destruct H1' as [-> Ht1'].
  assert (trash (tables s1') !! id = Some e1) as Hin by (rewrite Ht1', Ht1; apply lookup_insert_eq).
  pose proof (wp_restore rq id s1') as H2. unfold wp in H2. rewrite Hin in H2.
  destruct (restore driver_error rq id s1') as [r2 s2] eqn:Hr. simpl in H2.
  destruct H2 as (e2 & He2 & -> & Ht2).
  assert (tables s2 = mkMem (<[id := e2]> (store (tables s))) (delete id (trash (tables s)))) as Ht2'.
  { rewrite Ht2, Ht1', Ht1. simpl. by rewrite insert_delete_eq, delete_insert_eq. }
  assert (trash (tables s2) !! id = None) as Hout by (rewrite Ht2'; apply lookup_delete_eq).
  exists e1, s1, s1', e2, s2. split_and!; try done.
  - unfold get_by_id, of_repo, map_err. cbn. by rewrite Hgone.
  - unfold get_deleted_by_id, of_repo, map_err. cbn. rewrite Hgone, Ht1. simpl. by rewrite lookup_insert_eq.
  - unfold get_by_id, of_repo, map_err. cbn. rewrite Ht2'. simpl. by rewrite lookup_insert_eq.
  - intros r s3 H3. pose proof (wp_restore rq id s2) as H. unfold wp in H. by rewrite Hout, H3 in H.
Qed.

(** ** Batches *)

Definition draws {F A} (m : sm (St (Mem E) W) F A) : Prop := ∀ s, ∃ a w, m s = (Ok a, mkSt (tables s) w).
Lemma draws_ret {F A} (a : A) : draws (F:=F) (mret a).
Proof. intros s. destruct s. by eexists _, _. Qed.
Lemma draws_bind {F A B} (m : sm (St (Mem E) W) F A) (f : A → sm (St (Mem E) W) F B) :
  draws m → (∀ a, draws (f a)) → draws (m ≫= f).
Proof.
  intros Hm Hf s. destruct (Hm s) as (a & w & Ha). destruct (Hf a (mkSt (tables s) w)) as (b & w' & Hb).
  unfold mbind, sm_bind. rewrite Ha. by eexists _, _.
Qed.
Lemma draws_mapM {F A B} (f : A → sm (St (Mem E) W) F B) l : (∀ x, draws (f x)) → draws (mapM f l).
Proof.
  intros Hf. induction l as [|x l IH]; [apply draws_ret|]. apply draws_bind; [done|]. intros y.
  apply draws_bind; [done|]. intros ys. apply draws_ret.
Qed.
Lemma draws_iter {F A} (f : A → sm (St (Mem E) W) F unit) l : (∀ x, draws (f x)) → draws (sm_iter f l).
Proof. intros Hf. induction l as [|x l IH]; [apply draws_ret|]. by apply draws_bind. Qed.

Lemma load_spec rq id s :
  load rq id s = (match store (tables s) !! id with Some e => Ok e | None => Err (not_found id) end, s).
Proof. unfold load, mbind, sm_bind, of_repo, map_err. cbn. by destruct (store (tables s) !! id). Qed.
Lemma load_all rq ids s :
  wp (mapM (load rq) ids) (λ r s', s' = s ∧
    match r with
    | Ok es => Forall2 (λ id e, store (tables s) !! id = Some e) ids es
    | Err err => ∃ id, id ∈ ids ∧ store (tables s) !! id = None ∧ err = not_found id
    | Panic => False
    end) s.
Proof.
  induction ids as [|id ids IH]; [apply wp_ret; by split|]. simpl. pose proof (load_spec rq id s) as Hl.
  destruct (store (tables s) !! id) as [e|] eqn:He.
  - eapply wp_call; [exact Hl|]. apply wp_bind. eapply wp_mono; [apply IH|].
    intros [es|err|] s' [-> H]; [by apply wp_ret; split; [|constructor]| |done].
    destruct H as (i & Hi & H). split; [done|]. exists i. split; [by right|done].
  - apply wp_bind. unfold wp at 1. rewrite Hl. split; [done|]. exists id. split; [left|done].
Qed.

(** The rows of these ids moved to the trash, and nothing else. *)
Definition moved ids (m m' : Mem E) : Prop := ∀ id,
  if decide (id ∈ ids) then
    store m' !! id = None ∧ ∃ e e', store m !! id = Some e ∧ trashed_as e e' ∧ trash m' !! id = Some e'
  else store m' !! id = store m !! id ∧ trash m' !! id = trash m !! id.
Lemma bulk_delete_moves rq ids s :
  NoDup ids → Forall (λ id, is_Some (store (tables s) !! id)) ids →
  wp (default_bulk_delete mem_soft_delete rq ids) (λ r s',
    r = Ok (Z.of_nat (length ids)) ∧ moved ids (tables s) (tables s')) s.
Proof.
  intros Hnd Hin. unfold default_bulk_delete. rewrite <-(Z.add_0_l (Z.of_nat (length ids))). generalize 0.
  revert s Hin. induction Hnd as [|id ids Hid Hnd IH]; intros s Hin n; simpl.
  { apply wp_ret. split; [by rewrite Z.add_0_r|]. intros i. by rewrite decide_False by apply not_elem_of_nil. }
  apply Forall_cons in Hin as [[e He] Hin]. pose proof (mem_soft_delete_spec rq id s) as Hd. rewrite He in Hd.
  destruct Hd as (t1 & t2 & w & Hd). set (e' := set_updated_at _ _) in Hd. apply wp_bind.
  eapply wp_call; [exact Hd|]. apply wp_ret. eapply wp_mono; [apply IH|].
  - rewrite Forall_forall in *. intros i Hi. simpl. rewrite lookup_delete_ne by (by intros <-). by apply Hin.
  - intros r s' [-> Hm]. split; [f_equal; simpl; lia|]. intros i. specialize (Hm i). simpl in Hm.
    destruct (decide (i = id)) as [->|Hne].
    + rewrite decide_True by left. rewrite decide_False in Hm by done. destruct Hm as [Hs Ht].
      rewrite lookup_delete_eq in Hs. rewrite lookup_insert_eq in Ht. split; [done|].
      exists e, e'. split_and!; [done|by exists t1, t2|done].
    + rewrite lookup_delete_ne, lookup_insert_ne in Hm by done.
      destruct (decide (i ∈ ids)) as [Hi|Hi]; [rewrite decide_True by by right|rewrite decide_False by by rewrite elem_of_cons; intros [?|?]]; done.
Qed.

(** a bulk deletion over the in-memory repository is all or nothing although no transaction holds
    it. A batch too large is refused, and a batch with an id that is not live is refused for such an
    id, nothing touched; any other moves the row of every id named to the trash, once however often
    it is named, leaves every other row alone and answers how many it moved. *)
Theorem memory_bulk_soft_delete rq ids s :
  wp (bulk_soft_delete driver_error rq ids) (λ r s',
    match r with
    | Ok n => Z.of_nat (length ids) ≤ MAX_BATCH_SIZE ∧ n = Z.of_nat (size (list_to_set ids : gset string)) ∧
        moved ids (tables s) (tables s')
    | Err err => tables s' = tables s ∧
        (MAX_BATCH_SIZE < Z.of_nat (length ids) ∨ ∃ id, id ∈ ids ∧ store (tables s) !! id = None ∧ err = not_found id)
    | Panic => False
    end) s.
Proof.
  unfold bulk_soft_delete, check_batch_size. destruct (Z.ltb_spec MAX_BATCH_SIZE (Z.of_nat (length ids))) as [Hbig|Hfits].
  { apply wp_bind, wp_lift. split; [done|by left]. }
  apply wp_bind, wp_lift. unfold atomically. cbn [repo_write_pool repository InMemoryRepository]. cbv zeta.
  apply wp_bind, wp_draw; [apply write_ctx_draws|]. intros ctx w. apply wp_bind.
  eapply wp_mono; [apply load_all|]. intros [es|err|] s' [-> Hl]; cbn [tables] in Hl; [| |done].
  2:{ destruct Hl as (id & Hid & Hl). split; [done|]. right. exists id. split; [by apply elem_of_dedup_ids|done]. }
  apply wp_draw; [apply draws_iter|].
  { intros e. apply draws_bind; [intros s1; apply consult_draws|]. intros _. do 2 (apply draws_bind; [apply draws_ret|intros _]).
    apply draws_ret. }
  intros _ w1. cbn [tables]. apply wp_bind. unfold of_repo. apply wp_map_err. cbn [repo_bulk_soft_delete].
  eapply wp_mono; [apply bulk_delete_moves; [apply NoDup_dedup_ids|]|].
  { apply (Forall2_Forall_l (λ id e, store (tables s) !! id = Some e) (λ id, is_Some (store (tables s) !! id)) _ _ Hl).
    apply Forall_true. intros e id Hid. by eexists. }
  intros r s1 [-> Hm]. cbn [res_map_err tables] in Hm |- *.
  apply wp_draw; [apply draws_mapM|].
  { intros x. do 2 (apply draws_bind; [apply draws_ret|intros _]). apply draws_bind; [intros s2; apply metadata_draws|].
    intros meta. apply draws_ret. }
  intros events w2. apply wp_ret. eapply wp_call; [apply publish_none|]. apply wp_ret. split; [done|]. split.
  - f_equal. rewrite <-(size_list_to_set (C:=gset string) (dedup_ids ids)) by apply NoDup_dedup_ids. f_equal.
    apply leibniz_equiv. intros x. by rewrite !elem_of_list_to_set, elem_of_dedup_ids.
  - intros id. specialize (Hm id). destruct (decide (id ∈ ids)) as [Hi|Hi].
    + by rewrite decide_True in Hm by by apply elem_of_dedup_ids.
    + by rewrite decide_False in Hm by by rewrite elem_of_dedup_ids.
Qed.
End service.
