(* ===== verification/CrudExample.v ===== *)
(** * A document store

    Documents with a title, an owner that only its operation may change and a state machine's status,
    kept in memory: the theorems of the CRUD service at concrete inputs. *)
From Stdlib Require Import ZArith Lia Ascii.
From stdpp Require Import gmap sorting pretty.
From S2P Require Import Prelude RustStr RustChar Json WorkflowExpr Database WriteHooks RepositoryErrors CrudWrite CrudService ListQuery MemoryRepository.
From S2P Require Import CrudServiceFacts CrudPatchFacts MemoryRepositoryFacts.

Local Open Scope Z_scope.
#[local] Existing Instance Concrete.libs.
#[local] Existing Instance ConcreteWorld.demo_world.

Record Doc := mkDoc {
  doc_id : string; doc_title : string; doc_owner : string; doc_status : string;
  doc_created : option Z; doc_updated : option Z; doc_deleted : option Z }.
Definition doc_value (d : Doc) : Value :=
  VObject [("id", VString (doc_id d)); ("owner", VString (doc_owner d)); ("status", VString (doc_status d));
           ("title", VString (doc_title d))].
Definition doc_of_value (v : Value) : PathError + Doc :=
  match v with
  | VObject m =>
      let field k := match map_get k m with
                     | Some (VString s) => inr s
                     | Some VNull => inl (mkPathError [SegMap k] "invalid type: null, expected a string")
                     | Some _ => inl (mkPathError [SegMap k] "invalid type: expected a string")
                     | None => inl (mkPathError [] ("missing field `" +:+ k +:+ "`"))
                     end in
      match field "id", field "owner", field "status", field "title" with
      | inr i, inr o, inr s, inr t => inr (mkDoc i t o s None None None)
      | inl e, _, _, _ | _, inl e, _, _ | _, _, inl e, _ | _, _, _, inl e => inl e
      end
  | _ => inl (mkPathError [] "expected a map")
  end.
#[local] Instance doc_entity : PersistentEntity Doc := {|
  entity_id := doc_id;
  set_entity_id i d := mkDoc i (doc_title d) (doc_owner d) (doc_status d) (doc_created d) (doc_updated d) (doc_deleted d);
  created_at := doc_created;
  set_created_at t d := mkDoc (doc_id d) (doc_title d) (doc_owner d) (doc_status d) (Some t) (doc_updated d) (doc_deleted d);
  updated_at := doc_updated;
  set_updated_at t d := mkDoc (doc_id d) (doc_title d) (doc_owner d) (doc_status d) (doc_created d) (Some t) (doc_deleted d);
  deleted_at := doc_deleted;
  set_deleted_at t d := mkDoc (doc_id d) (doc_title d) (doc_owner d) (doc_status d) (doc_created d) (doc_updated d) t;
  write_protected_fields := ["owner"; "status"];
  state_fields := ["status"];
  references := [];
  type_name := "docs::Doc";
  entity_value d := inr (doc_value d);
  entity_of_value := doc_of_value;
|}.
#[local] Instance doc_laws : EntityLaws Doc.
Proof. by split. Qed.

Definition ex_doc (i title : string) : Doc := mkDoc i title "ann" "draft" None None None.
Definition ex_docs : list Doc := [ex_doc "d2" "two"; ex_doc "d1" "one"; ex_doc "d3" "three"].
Definition ex_mem : Mem Doc := with_data ex_docs.
Definition ex_world (faults : list (option string)) : ConcreteWorld.DW := ConcreteWorld.mkDW faults 100 1%N.
Definition ex_state (faults : list (option string)) : St (Mem Doc) ConcreteWorld.DW := mkSt ex_mem (ex_world faults).
Definition ex_request : Request := mkRequest task0 None None 0.
Definition ex_driver (e : DbError) : SqlxError := DriverFailed e.
Definition ex_create (title : string) : sm (St (Mem Doc) ConcreteWorld.DW) ServiceError Doc := mret (ex_doc "" title).
Definition ex_update (d : Doc) (dto : string * string) : sm (St (Mem Doc) ConcreteWorld.DW) ServiceError Doc :=
  mret (mkDoc (doc_id d) dto.1 dto.2 (doc_status d) (doc_created d) (doc_updated d) (doc_deleted d)).

(** The repository in memory, and the same as if behind a pool. *)
#[local] Instance ex_memory : CrudRepository Doc (Mem Doc) ConcreteWorld.DW := InMemoryRepository true.
Definition pooled : CrudRepository Doc (Mem Doc) ConcreteWorld.DW := {|
  repo_create := repo_create; repo_find_by_id := repo_find_by_id;
  repo_find_by_id_including_deleted := repo_find_by_id_including_deleted;
  repo_update := repo_update; repo_update_changed := repo_update_changed;
  repo_soft_delete := repo_soft_delete; repo_restore := repo_restore; repo_hard_delete := repo_hard_delete;
  repo_list_filtered := repo_list_filtered; repo_list_deleted := repo_list_deleted;
  repo_list_deleted_filtered := repo_list_deleted_filtered; repo_count := repo_count;
  repo_count_deleted := repo_count_deleted; repo_bulk_create := repo_bulk_create;
  repo_bulk_soft_delete := repo_bulk_soft_delete; repo_bulk_restore := repo_bulk_restore;
  repo_bulk_hard_delete := repo_bulk_hard_delete; repo_bulk_update_changed := repo_bulk_update_changed;
  repo_reference_visible := repo_reference_visible; repo_write_pool := true |}.
#[local] Instance ex_guard : WriteGuard Doc (Mem Doc) ConcreteWorld.DW := AllowAll.
#[local] Instance ex_hooks : WriteHooks Doc (Mem Doc) ConcreteWorld.DW := NoWriteHooks.
#[local] Instance ex_lifecycle : ServiceLifecycle Doc (Mem Doc) ConcreteWorld.DW := NoOpLifecycle.
Definition ex_silent : CrudEventPublisher Doc (Mem Doc) ConcreteWorld.DW := NoOpCrudEventPublisher.
(** A publisher whose broker is down. *)
Definition ex_broken : CrudEventPublisher Doc (Mem Doc) ConcreteWorld.DW :=
  {| publish _ _ := sm_err "connection refused" |}.
Definition ex_serve (R : CrudRepository Doc (Mem Doc) ConcreteWorld.DW) P rq op :=
  serve ex_create ex_update ex_driver (R:=R) P rq op.

(** The titles of the live rows and of the trash. *)
Definition ex_titles (m : Mem Doc) : list string * list string :=
  (map doc_title (ordered_by_id (store m)), map doc_title (ordered_by_id (trash m))).

(** A deletion whose commit fails: everything is as it was. *)
Definition ex_late : list (option string) := [None; None; None; None; Some "commit failed"].
Example ex_atomic :
  (ex_serve pooled ex_silent ex_request (OpBulkSoftDelete ["d1"; "d2"]) (ex_state [])).1 = Ok (ACount 2) ∧
  ex_titles (tables (ex_serve pooled ex_silent ex_request (OpBulkSoftDelete ["d1"; "d2"]) (ex_state [])).2) =
    (["three"], ["one"; "two"]) ∧
  (ex_serve pooled ex_broken ex_request (OpBulkSoftDelete ["d1"; "d2"]) (ex_state ex_late)).1 =
    Err (SRepository (RDatabaseError "commit failed")) ∧
  ex_titles (tables (ex_serve pooled ex_broken ex_request (OpBulkSoftDelete ["d1"; "d2"]) (ex_state ex_late)).2) =
    (["one"; "two"; "three"], []).
Proof. split_and!; by_vm. Qed.


(** A trash of three rows, read whole. *)
Definition ex_trashed : St (Mem Doc) ConcreteWorld.DW :=
  (ex_serve ex_memory ex_silent ex_request (OpBulkSoftDelete ["d1"; "d2"; "d3"]) (ex_state [])).2.
Lemma whole_trash_ends_witness :
  (TRASH_ROUNDS ≤ 20)%nat ∧
  trash_pages (R:=ex_memory) (mret []) 20 ex_request "emptied" [] 1 ex_trashed =
  whole_trash (R:=ex_memory) ex_request "emptied" ex_trashed.
Proof.
  assert (TRASH_ROUNDS ≤ 20)%nat as H by (unfold TRASH_ROUNDS; lia). split; [exact H|].
  exact (proj1 (whole_trash_ends (R:=ex_memory) ex_request "emptied" (mret []) 20 ex_trashed H)).
Defined.

Lemma ex_pages_trash : pages_trash ex_request (ordered_by_id (trash (tables ex_trashed))) ex_trashed.
Proof.
  intros page Hp. unfold TRASH_ROUNDS in Hp. change (repo_list_deleted ex_request page MAX_PER_PAGE ex_trashed)
    with (page_of (E:=Doc) true (ordered_by_id (trash (tables ex_trashed))) page MAX_PER_PAGE ex_trashed).
  rewrite page_of_spec by (unfold MAX_PER_PAGE, u32_max; lia). by rewrite Z2Nat.inj_mul by (unfold MAX_PER_PAGE; lia).
Qed.
Lemma whole_trash_complete_witness :
  pages_trash ex_request (ordered_by_id (trash (tables ex_trashed))) ex_trashed ∧
  whole_trash (R:=ex_memory) ex_request "emptied" ex_trashed = (Ok (ordered_by_id (trash (tables ex_trashed))), ex_trashed) ∧
  map doc_title (ordered_by_id (trash (tables ex_trashed))) = ["one"; "two"; "three"].
Proof.
  split; [exact ex_pages_trash|]. split; [|by_vm].
  exact (whole_trash_complete (R:=ex_memory) ex_request "emptied" _ ex_trashed ex_pages_trash).
Defined.

(** A patch of a title; of an owner, and of what is no field. *)
Definition ex_patch : list (string * Value) := [("title", VString "uno"); ("status", VString "draft")].
Lemma merge_patch_spec_witness :
  NoDup ex_patch.*1 ∧ ex_patch ≡ₚ reverse ex_patch ∧
  merge_patch false (ex_doc "d1" "one") (reverse ex_patch) = merge_patch false (ex_doc "d1" "one") ex_patch ∧
  merge_patch false (ex_doc "d1" "one") ex_patch = Ok (mkDoc "d1" "uno" "ann" "draft" None None None) ∧
  merge_patch false (ex_doc "d1" "one") [("owner", VString "bob")] = Err (SViolations [not_writable "owner"]) ∧
  merge_patch false (ex_doc "d1" "one") [("zip", VBool true); ("age", VBool true)] =
    Err (SViolations [unknown_field "age"; unknown_field "zip"]).
Proof.
  assert (NoDup ex_patch.*1) as H1 by by_dec.
  assert (ex_patch ≡ₚ reverse ex_patch) as H2 by (symmetry; apply reverse_Permutation).
  split; [exact H1|]. split; [exact H2|].
  split; [exact (proj1 (merge_patch_spec false (ex_doc "d1" "one") ex_patch (reverse ex_patch) H1 H2))|].
  split; [by_vm|]. split; by_vm.
Defined.

Lemma ex_fills : fills_keep_protected (E:=Doc) (T:=Mem Doc) (W:=ConcreteWorld.DW).
Proof. intros rq b u s H. split; [by apply wpo_ret|]. intros ctx. by apply wpo_ret. Qed.
Lemma protected_fields_kept_witness :
  fills_keep_protected (E:=Doc) (T:=Mem Doc) (W:=ConcreteWorld.DW) ∧
  ex_serve ex_memory ex_silent ex_request (OpUpdate "d1" ("uno", "ann")) (ex_state []) =
  ex_serve (guarded ex_memory) ex_silent ex_request (OpUpdate "d1" ("uno", "ann")) (ex_state []) ∧
  (ex_serve ex_memory ex_silent ex_request (OpUpdate "d1" ("uno", "bob")) (ex_state [])).1 =
    Err (SViolations [not_writable "owner"]).
Proof.
  split; [exact ex_fills|]. split; [|by_vm].
  exact (protected_fields_kept ex_create ex_update ex_driver (R:=ex_memory) ex_silent ex_request
    (OpUpdate "d1" ("uno", "ann")) (ex_state []) ex_fills).
Defined.

Lemma mem_repository_inv_witness :
  mem_inv (tables (sm_iter (λ c, _ ← attempt (F:=RepositoryError) (mem_call true ex_request c); mret tt)
     [CallSoftDelete "d1"; CallCreate (ex_doc "d1" "one again"); CallRestore "d2"; CallSoftDelete "d1"]
     (ex_state [])).2).
Proof.
  pose proof (mem_repository_inv true ex_docs ex_request
    [CallSoftDelete "d1"; CallCreate (ex_doc "d1" "one again"); CallRestore "d2"; CallSoftDelete "d1"] (ex_world [])) as H.
  unfold ex_state, ex_mem. destruct (sm_iter _ _ _). exact H.
Defined.

Lemma ex_mem_inv : mem_inv ex_mem.
Proof. split; [|apply map_Forall_empty]. apply map_Forall_to_list. vm_compute. repeat constructor. Qed.
Lemma mem_pages_partition_witness :
  mem_inv ex_mem ∧
  ∃ parts, mapM (mem_page true ex_request 2) (seq 0 2) (ex_state []) = (Ok parts, ex_state []) ∧
    map (map doc_title) parts = [["one"; "two"]; ["three"]].
Proof.
  split; [exact ex_mem_inv|].
  destruct (mem_pages_partition true ex_request 2 2 (ex_state []) ex_mem_inv ltac:(lia) ltac:(by_dec) ltac:(by_dec))
    as (parts & Hp & _). exists parts. split; [exact Hp|].
  assert (parts = match (mapM (mem_page true ex_request 2) (seq 0 2) (ex_state [])).1 with Ok l => l | _ => [] end) as ->
    by (rewrite Hp; reflexivity).
  by_vm.
Defined.

Lemma trash_round_trip_witness :
  store (tables (ex_state [])) !! "d1" = Some (ex_doc "d1" "one") ∧
  ∃ s1 s1' s2 e2,
    soft_delete (R:=repository true) (WG:=guard) (WH:=hooks) (LC:=lifecycle) (P:=publisher) ex_driver ex_request "d1"
      (ex_state []) = (Ok true, s1) ∧
    tables s1' = tables s1 ∧
    restore (R:=repository true) (WG:=guard) (WH:=hooks) (LC:=lifecycle) (P:=publisher) ex_driver ex_request "d1" s1' =
      (Ok (Some e2), s2) ∧
    get_by_id (R:=repository true) ex_request "d1" s2 = (Ok (Some e2), s2).
Proof.
  assert (store (tables (ex_state [])) !! "d1" = Some (ex_doc "d1" "one")) as He by by_vm.
  destruct (trash_round_trip true ex_driver ex_request "d1" _ (ex_state []) He)
    as (e1 & s1 & s1' & e2 & s2 & Hd & _ & _ & _ & _ & _ & Ht' & Hr & _ & _ & Hg & _).
  split; [exact He|]. exists s1, s1', s2, e2. repeat split; assumption.
Defined.

Lemma memory_bulk_soft_delete_witness :
  ∃ s', bulk_soft_delete (R:=repository true) (WG:=guard) (WH:=hooks) (LC:=lifecycle) (P:=publisher)
          ex_driver ex_request ["d1"; "nope"] (ex_state []) = (Err (not_found "nope"), s') ∧ tables s' = ex_mem.
Proof.
  pose proof (memory_bulk_soft_delete true ex_driver ex_request ["d1"; "nope"] (ex_state [])) as H. unfold wp in H.
  assert ((bulk_soft_delete (R:=repository true) (WG:=guard) (WH:=hooks) (LC:=lifecycle) (P:=publisher)
    ex_driver ex_request ["d1"; "nope"] (ex_state [])).1 = Err (not_found "nope")) as Hr by by_vm.
  destruct (bulk_soft_delete ex_driver ex_request ["d1"; "nope"] (ex_state [])) as [r s']. simpl in Hr. subst r.
  exists s'. split; [reflexivity|]. exact (proj1 H).
Defined.

(** ** Where the in-memory repository and the service part from their comments *)

(** [hard_delete] removes a live row, which the service's comment says it leaves alone. *)
Example hard_delete_of_a_live_row :
  (ex_serve ex_memory ex_silent ex_request (OpHardDelete "d1") (ex_state [])).1 = Ok (ADone true) ∧
  ex_titles (tables (ex_serve ex_memory ex_silent ex_request (OpHardDelete "d1") (ex_state [])).2) =
    (["two"; "three"], []).
Proof. split; by_vm. Qed.
(** A row created again under the id of a trashed one is overwritten when that one is restored. *)
Example restore_overwrites_a_live_row :
  let s := ex_state [] in
  let s1 := (mem_soft_delete ex_request "d1" s).2 in
  let s2 := (mem_create ex_request (ex_doc "d1" "one again") s1).2 in
  let s3 := (ex_serve ex_memory ex_silent ex_request (OpRestore "d1") s2).2 in
  ex_titles (tables s2) = (["one again"; "two"; "three"], ["one"]) ∧
  ex_titles (tables s3) = (["one"; "two"; "three"], []).
Proof. split; by_vm. Qed.
(** A page far out panics, or without overflow checks answers the first page again. *)
Example far_page :
  (mem_list true ex_request 65537 65536 (ex_state [])).1 = Panic ∧
  (mem_list false ex_request 65537 65536 (ex_state [])).1 = (mem_list false ex_request 1 65536 (ex_state [])).1.
Proof. split; by_vm. Qed.
