(* ===== verification/RowRule.v ===== *)
(** * Row rules

    [backbone-core/src/row_rule.rs]: the values a compiled row rule computes with and its operators,
    over [f64] as the language has it. Decimals, dates, patterns and the case tables beyond ASCII are
    the libraries', and parameters; so are the roles source ([actor_roles.rs]) and the count of a
    delete guard. [to_text] is left out: it prints doubles. *)
From Stdlib Require Import ZArith Lia Ascii.
From S2P Require Import Prelude Float64 RustStr RustChar Json.

Local Open Scope Z_scope.

(** ** [f64] *)

(** [f64::floor] *)
Definition f64_floor (x : f64) : f64 := f64_neg (f64_ceil (f64_neg x)).
(** The double nearest to [±n * 10^e]. *)
Definition f64_of_decimal (s : bool) (n e : Z) : f64 :=
  match n with
  | Zpos m =>
      if 0 <=? e then f64_normalize (cond_Zopp s (n * 10 ^ e)) 0 s
      else f64_div (S754_finite s m 0) (S754_finite false (Z.to_pos (10 ^ (- e))) 0)
  | _ => S754_zero s
  end.
(** The exponent of a number's text: none, or [e] and a signed number. *)
Definition parse_exponent (s : string) : option Z :=
  match s with
  | EmptyString => Some 0
  | String c r =>
      if Ascii.eqb c "e" || Ascii.eqb c "E" then
        let '(neg, d) := match r with String "-" d => (true, d) | String "+" d => (false, d) | _ => (false, r) end in
        match d with
        | EmptyString => None
        | _ => if str_forallb is_ascii_digit d then Some (if neg then - digits_val 0 d else digits_val 0 d) else None
        end
      else None
  end.
(** [s.parse::<f64>()] *)
Definition parse_f64 (s : string) : option f64 :=
  let '(neg, r) := match s with String "-" r => (true, r) | String "+" r => (false, r) | _ => (false, s) end in
  let name := to_ascii_lowercase r in
  if bool_decide (name = "inf") || bool_decide (name = "infinity") then Some (S754_infinity neg)
  else if bool_decide (name = "nan") then Some S754_nan
  else
    let '(int, r) := str_span is_ascii_digit r in
    let '(frac, r) := match r with String "." f => str_span is_ascii_digit f | _ => ("", r) end in
    if bool_decide (int = "") && bool_decide (frac = "") then None
    else
      e ← parse_exponent r;
      Some (f64_of_decimal neg (digits_val 0 (int +:+ frac)) (e - str_len frac)).

(** Rounding a number gives a number. *)
Lemma shr_1_nonneg r : 0 ≤ shr_m r → 0 ≤ shr_m (shr_1 r).
Proof. destruct r as [[|[p|p|]|[p|p|]] [] []]; simpl; lia. Qed.
Lemma iter_shr_nonneg p r : 0 ≤ shr_m r → 0 ≤ shr_m (iter_pos shr_1 p r).
Proof. revert r. induction p as [p IH|p IH|]; intros r Hr; simpl; auto using shr_1_nonneg. Qed.
Lemma shr_fexp_nonneg m e l : 0 ≤ m → 0 ≤ shr_m (shr_fexp f64_prec f64_emax m e l).1.
Proof.
  intros Hm. unfold shr_fexp, shr. assert (0 ≤ shr_m (shr_record_of_loc m l)) as Hr by (by destruct l as [|[]]).
  destruct (_ - e); simpl; [done|by apply iter_shr_nonneg|done].
Qed.
Lemma round_nearest_even_nonneg m l : 0 ≤ m → 0 ≤ round_nearest_even m l.
Proof. intros Hm. unfold round_nearest_even. destruct l as [|[]]; repeat case_match; lia. Qed.
Lemma f64_normalize_number z e s : f64_normalize z e s ≠ S754_nan.
Proof.
  assert (∀ s m e, binary_round f64_prec f64_emax s m e ≠ S754_nan) as Hr.
  { intros s' m e'. unfold binary_round. destruct (shl_align _ _ _) as [mz ez]. unfold binary_round_aux.
    pose proof (shr_fexp_nonneg (Zpos mz) ez loc_Exact ltac:(lia)) as H1.
    destruct (shr_fexp _ _ (Zpos mz) ez _) as [r e1]. simpl in H1.
    pose proof (shr_fexp_nonneg (round_nearest_even (shr_m r) (loc_of_shr_record r)) e1 loc_Exact
      (round_nearest_even_nonneg _ _ H1)) as H2.
    destruct (shr_fexp _ _ (round_nearest_even _ _) e1 _) as [r2 e2]. simpl in H2.
    destruct (shr_m r2); [done| |lia]. by case_match. }
  unfold f64_normalize, binary_normalize. destruct z; [done|apply Hr..].
Qed.
Lemma f64_of_Z_number z : f64_of_Z z ≠ S754_nan.
Proof. apply (f64_normalize_number z 0 false). Qed.

Example parse_f64_ex :
  parse_f64 "12.50" = Some (f64_div (f64_of_Z 25) (f64_of_Z 2)) ∧ parse_f64 "-3e2" = Some (f64_of_Z (-300)) ∧
  parse_f64 "0.1" = Some (f64_div (f64_of_Z 1) (f64_of_Z 10)) ∧ parse_f64 "1." = Some (f64_of_Z 1) ∧
  parse_f64 "." = None ∧ parse_f64 "1e" = None ∧ parse_f64 "" = None ∧ parse_f64 "0x1" = None.
Proof. vm_compute. repeat split; reflexivity. Qed.
Example f64_round_ex :
  map f64_round [f64_div (f64_of_Z 5) (f64_of_Z 2); f64_div (f64_of_Z (-5)) (f64_of_Z 2); f64_div (f64_of_Z 1) (f64_of_Z 4)] =
    [f64_of_Z 3; f64_of_Z (-3); S754_zero false] ∧
  f64_floor (f64_div (f64_of_Z (-5)) (f64_of_Z 2)) = f64_of_Z (-3).
Proof. vm_compute. split; reflexivity. Qed.

(** ** Values *)

(** The libraries a rule uses. *)
Class RuleLibs := {
  Dec : Type;                                  (* [rust_decimal::Decimal] *)
  dec_parse : string → option Dec;
  dec_cmp : Dec → Dec → comparison;
  parse_ymd : string → option instant;         (* [NaiveDate::parse_from_str(s, "%Y-%m-%d")], at midnight *)
  to_rfc3339 : instant → string;               (* [DateTime::to_rfc3339] *)
  regex_is_match : string → string → option bool; (* pattern, text; [None] where it does not compile *)
  u_to_uppercase : string → string;            (* [str::to_uppercase] beyond ASCII *)
}.

Inductive Val :=
  | Null | Bool (b : bool) | Num (n : f64) | Text (s : string) | ListOf (l : list Val) | Time (t : instant).

Section rules.
Context {U : Unicode} {L : Libs} {RL : RuleLibs}.
Implicit Types (a b : Val).

Fixpoint val_from_json (v : Value) : Val :=
  match v with
  | VNull | VObject _ => Null
  | VBool b => Bool b
  | VNumber n => match as_f64 n with Some x => Num x | None => Null end
  | VString s => Text s
  | VArray items => ListOf (map val_from_json items)
  end.

Definition val_num a : option f64 :=
  match a with Num n => Some n | Text s => parse_f64 (trim s) | _ => None end.
Definition val_time a : option instant :=
  match a with
  | Time t => Some t
  | Text s => match parse_from_rfc3339 s with Some t => Some t | None => parse_ymd s end
  | _ => None
  end.
Definition val_text a : option string := match a with Text s => Some s | _ => None end.
Definition val_truth a : option bool := match a with Bool b => Some b | _ => None end.

Definition rule_field (row : Value) (name : string) : Val :=
  match value_get name row with Some v => val_from_json v | None => Null end.
Definition rule_actor (actor : option string) : Val := match actor with Some a => Text a | None => Null end.
Definition rule_at (t : instant) : Val := Time t.
Definition rule_changed (before : option Value) (after : Value) (fields : list string) : bool :=
  match before with
  | None => true
  | Some b =>
      existsb (λ f, negb match value_get f b, value_get f after with
                         | Some x, Some y => value_eqb x y
                         | None, None => true
                         | _, _ => false
                         end) fields
  end.
(** The roles source, where one is installed. *)
Definition has_role (roles : option (string → string → option bool)) (actor : option string) (role : string) : Val :=
  match actor, roles with
  | Some actor, Some holds => match holds actor role with Some b => Bool b | None => Null end
  | _, _ => Null
  end.
(** [count]: what counting on the request's connection answers. *)
Definition referencing (count : string → string → option Z) (sql : string) (id : Val) : Val :=
  match id with
  | Text id => match count sql id with Some n => Num (f64_of_Z n) | None => Null end
  | _ => Null
  end.

(** [n.fract() == 0.0 && n.abs() < 9.0e15] *)
Definition is_whole (n : f64) : bool :=
  f64_eqb (f64_fract n) f64_zero && f64_ltb (f64_abs n) (f64_of_Z 9000000000000000).
Fixpoint rule_to_json a : Value :=
  match a with
  | Null => VNull
  | Bool b => VBool b
  | Num n =>
      if is_whole n then value_of_i64 (f64_to_i64 n)
      else match from_f64 n with Some x => VNumber x | None => VNull end
  | Text s => VString s
  | ListOf items => VArray (map rule_to_json items)
  | Time t => VString (to_rfc3339 t)
  end.

Definition holds a : bool := match a with Bool false => false | _ => true end.

(** ** Nulls and logic *)
Definition val_is_null a : bool := match a with Null => true | _ => false end.
Definition rule_is_null a : Val := Bool (val_is_null a).
Definition rule_is_not_null a : Val := Bool (negb (val_is_null a)).
Definition rule_and a b : Val :=
  match val_truth a, val_truth b with
  | Some false, _ | _, Some false => Bool false
  | Some true, Some true => Bool true
  | _, _ => Null
  end.
Definition rule_or a b : Val :=
  match val_truth a, val_truth b with
  | Some true, _ | _, Some true => Bool true
  | Some false, Some false => Bool false
  | _, _ => Null
  end.
Definition rule_not a : Val := match val_truth a with Some b => Bool (negb b) | None => Null end.
Definition rule_cond c a b : Val := match val_truth c with Some true => a | _ => b end.

(** ** Comparison *)

(** Is the text written as a decimal serializes. *)
Definition is_decimal_text (s : string) : bool :=
  let digits := default s (strip_prefix_str "-" s) in
  let '(int, frac) := match split_once "." digits with Some (i, f) => (i, Some f) | None => (digits, None) end in
  negb (bool_decide (int = "")) && str_forallb is_ascii_digit int &&
  (bool_decide (int = "0") || negb (starts_with int "0")) &&
  match frac with Some f => negb (bool_decide (f = "")) && str_forallb is_ascii_digit f | None => true end.
Definition decimal (s : string) : option Dec := if is_decimal_text s then dec_parse s else None.

Definition bool_cmp (x y : bool) : comparison :=
  match x, y with false, true => Lt | true, false => Gt | _, _ => Eq end.
Definition order a b : option comparison :=
  match a, b with
  | Null, _ | _, Null => None
  | Text x, Text y =>
      match decimal x, decimal y with
      | Some x, Some y => Some (dec_cmp x y)
      | _, _ => Some (String.compare x y)
      end
  | Bool x, Bool y => Some (bool_cmp x y)
  | Time _, _ | _, Time _ => x ← val_time a; y ← val_time b; Some (x ?= y)
  | _, _ => x ← val_num a; y ← val_num b; f64_partial_cmp x y
  end.
Definition compare_with a b (test : comparison → bool) : Val :=
  match order a b with Some o => Bool (test o) | None => Null end.
Definition rule_eq a b : Val := compare_with a b (λ o, match o with Eq => true | _ => false end).
Definition rule_ne a b : Val := compare_with a b (λ o, match o with Eq => false | _ => true end).
Definition rule_lt a b : Val := compare_with a b (λ o, match o with Lt => true | _ => false end).
Definition rule_le a b : Val := compare_with a b (λ o, match o with Gt => false | _ => true end).
Definition rule_gt a b : Val := compare_with a b (λ o, match o with Gt => true | _ => false end).
Definition rule_ge a b : Val := compare_with a b (λ o, match o with Lt => false | _ => true end).

(** The loop over the items; [unknown]: was one's answer null. *)
Fixpoint in_items a (items : list Val) (unknown : bool) : Val :=
  match items with
  | [] => if unknown then Null else Bool false
  | item :: items =>
      match rule_eq a item with
      | Bool true => Bool true
      | Null => in_items a items true
      | _ => in_items a items unknown
      end
  end.
Definition in_list a (l : Val) : Val :=
  match l with
  | ListOf items => if val_is_null a then Null else in_items a items false
  | _ => Null
  end.
Definition not_in a (l : Val) : Val := rule_not (in_list a l).

Definition rule_matches a (pattern : string) : Val :=
  match val_text a with
  | Some s => match regex_is_match pattern s with Some b => Bool b | None => Null end
  | None => Null
  end.

(** ** Arithmetic *)
Definition arith a b (f : f64 → f64 → option f64) : Val :=
  match val_num a, val_num b with
  | Some x, Some y => match f x y with Some z => Num z | None => Null end
  | _, _ => Null
  end.
Definition unless_zero (f : f64 → f64 → f64) (x y : f64) : option f64 :=
  if f64_eqb y f64_zero then None else Some (f x y).
Definition rule_add a b : Val := arith a b (λ x y, Some (f64_add x y)).
Definition rule_sub a b : Val := arith a b (λ x y, Some (f64_sub x y)).
Definition rule_mul a b : Val := arith a b (λ x y, Some (f64_mul x y)).
Definition rule_div a b : Val := arith a b (unless_zero f64_div).
Definition rule_rem a b : Val := arith a b (unless_zero f64_rem).
Definition num_fn a (f : f64 → f64) : Val := match val_num a with Some n => Num (f n) | None => Null end.
Definition rule_neg a : Val := num_fn a f64_neg.
Definition rule_abs a : Val := num_fn a f64_abs.
Definition rule_ceil a : Val := num_fn a f64_ceil.
Definition rule_floor a : Val := num_fn a f64_floor.
Definition rule_round a : Val := num_fn a f64_round.

Definition coalesce (values : list Val) : Val := default Null (List.find (λ v, negb (val_is_null v)) values).

(** ** Texts and lists *)
Definition rule_length a : Val :=
  match a with
  | Text s => Num (f64_of_Z (chars_count s))
  | ListOf items => Num (f64_of_Z (Z.of_nat (length items)))
  | _ => Null
  end.
Definition rule_is_empty a : Val :=
  match rule_length a with Num n => Bool (f64_eqb n f64_zero) | _ => Null end.
Definition text_fn a (f : string → string) : Val := match val_text a with Some s => Text (f s) | None => Null end.
Definition ascii_upper (c : ascii) : ascii := if is_ascii_lowercase c then ascii_of_N (N_of_ascii c - 32) else c.
Definition to_uppercase (s : string) : string :=
  if str_forallb is_ascii s then str_map ascii_upper s else u_to_uppercase s.
Definition rule_trim a : Val := text_fn a trim.
Definition rule_lower a : Val := text_fn a to_lowercase.
Definition rule_upper a : Val := text_fn a to_uppercase.
Definition rule_contains a b : Val :=
  match a, b with
  | Text s, Text t => Bool (str_contains s t)
  | ListOf _, item => in_list item a
  | _, _ => Null
  end.
Definition rule_starts_with a b : Val :=
  match val_text a, val_text b with Some s, Some t => Bool (starts_with s t) | _, _ => Null end.
Definition rule_ends_with a b : Val :=
  match val_text a, val_text b with Some s, Some t => Bool (ends_with s t) | _, _ => Null end.
End rules.
