(* ===== verification/RowRuleFacts.v ===== *)
(** * What row rules decide

    SQL's three truth values as degrees ([degree]): the operators are their minimum, maximum and
    opposite. Rules as expressions ([Rule]): what they refuse with fields missing they refuse however
    the fields are filled, and a rule over present fields of their kinds decides. *)
From Stdlib Require Import ZArith Lia Ascii.
From S2P Require Import Prelude Float64 RustStr RustChar Json RowRule.

Local Open Scope Z_scope.

(** Comparing decimals the other way round. *)
Class RuleLaws {RL : RuleLibs} := { dec_cmp_swap : ∀ x y, dec_cmp y x = CompOpp (dec_cmp x y) }.

Section facts.
Context {U : Unicode} {L : Libs} {RL : RuleLibs} {LAWS : RuleLaws}.
Implicit Types (a b x : Val) (items : list Val).

Lemma order_swap a b : order b a = option_map CompOpp (order a b).
Proof.
  destruct a as [|x|x|x|x|x], b as [|y|y|y|y|y]; cbn -[val_num val_time f64_partial_cmp]; try done;
    try (destruct (val_num _), (val_num _); cbn; try done; apply SFcompare_antisym);
    try (destruct (val_time _), (val_time _); cbn; try done; by rewrite Z.compare_antisym).
  - by destruct x, y.
  - destruct (decimal x) as [dx|], (decimal y) as [dy|]; cbn; try (by rewrite String.compare_antisym).
    by rewrite dec_cmp_swap.
Qed.

(** ** Degrees of truth: false below null below true *)
Definition degree (v : Val) : Z := match v with Bool true => 1 | Bool false => -1 | _ => 0 end.

Lemma degree_compare a b test :
  degree (compare_with a b test) = match order a b with Some o => if test o then 1 else -1 | None => 0 end.
Proof. unfold compare_with. destruct (order a b) as [o|]; [|done]. simpl. by destruct (test o). Qed.
Lemma degree_range v : -1 ≤ degree v ≤ 1.
Proof. destruct v as [|[]| | | |]; simpl; lia. Qed.
Lemma degree_in_items a items unknown :
  degree (in_items a items unknown) =
  Z.max (if unknown then 0 else -1) (foldr (λ x d, Z.max (degree (rule_eq a x)) d) (-1) items).
Proof.
  revert unknown. induction items as [|x items IH]; intros unknown; cbn [in_items foldr]; [by destruct unknown|].
  assert (-1 ≤ foldr (λ x d, Z.max (degree (rule_eq a x)) d) (-1) items ≤ 1) as Hr.
  { clear. induction items as [|x items IH]; simpl; [lia|]. pose proof (degree_range (rule_eq a x)). lia. }
  unfold rule_eq at 1 2, compare_with. destruct (order a x) as [[]|]; cbn [degree]; rewrite ?IH; destruct unknown; lia.
Qed.


(** ** Rules as expressions *)
Inductive CmpOp := CEq | CNe | CLt | CLe | CGt | CGe.
Inductive ArithOp := OAdd | OSub | OMul | ODiv | ORem.
Inductive NumOp := ONeg | OAbs | OCeil | OFloor | ORound.
Inductive TextOp := OTrim | OLower | OUpper.
Inductive TestOp := OContains | OStarts | OEnds.
Inductive Rule :=
  | RLit (v : Val) | RField (name : string) | ROld (name : string) | RActor | RNow | RRole (role : string)
  | RIsNull (r : Rule) | RIsNotNull (r : Rule) | RNot (r : Rule) | RAnd (r1 r2 : Rule) | ROr (r1 r2 : Rule)
  | RCond (c r1 r2 : Rule) | RCmp (op : CmpOp) (r1 r2 : Rule) | RIn (r l : Rule) | RNotIn (r l : Rule)
  | RMatches (r : Rule) (pattern : string) | RArith (op : ArithOp) (r1 r2 : Rule) | RNum (op : NumOp) (r : Rule)
  | RCoalesce (r1 r2 : Rule) | RLength (r : Rule) | RIsEmpty (r : Rule) | RText (op : TextOp) (r : Rule)
  | RTest (op : TestOp) (r1 r2 : Rule).

(** What a rule runs on: the row, the row before, the writer, the time and the roles source. *)
Record Env := mkEnv {
  env_row : Value; env_old : Value; env_actor : option string; env_at : instant;
  env_roles : option (string → string → option bool) }.

Definition cmp_op (op : CmpOp) : Val → Val → Val :=
  match op with CEq => rule_eq | CNe => rule_ne | CLt => rule_lt | CLe => rule_le | CGt => rule_gt | CGe => rule_ge end.
Definition arith_op (op : ArithOp) : Val → Val → Val :=
  match op with OAdd => rule_add | OSub => rule_sub | OMul => rule_mul | ODiv => rule_div | ORem => rule_rem end.
Definition num_op (op : NumOp) : Val → Val :=
  match op with ONeg => rule_neg | OAbs => rule_abs | OCeil => rule_ceil | OFloor => rule_floor | ORound => rule_round end.
Definition text_op (op : TextOp) : Val → Val :=
  match op with OTrim => rule_trim | OLower => rule_lower | OUpper => rule_upper end.
Definition test_op (op : TestOp) : Val → Val → Val :=
  match op with OContains => rule_contains | OStarts => rule_starts_with | OEnds => rule_ends_with end.

Fixpoint eval_rule (env : Env) (r : Rule) : Val :=
  match r with
  | RLit v => v
  | RField name => rule_field (env_row env) name
  | ROld name => rule_field (env_old env) name
  | RActor => rule_actor (env_actor env)
  | RNow => rule_at (env_at env)
  | RRole role => has_role (env_roles env) (env_actor env) role
  | RIsNull r => rule_is_null (eval_rule env r)
  | RIsNotNull r => rule_is_not_null (eval_rule env r)
  | RNot r => rule_not (eval_rule env r)
  | RAnd r1 r2 => rule_and (eval_rule env r1) (eval_rule env r2)
  | ROr r1 r2 => rule_or (eval_rule env r1) (eval_rule env r2)
  | RCond c r1 r2 => rule_cond (eval_rule env c) (eval_rule env r1) (eval_rule env r2)
  | RCmp op r1 r2 => cmp_op op (eval_rule env r1) (eval_rule env r2)
  | RIn r l => in_list (eval_rule env r) (eval_rule env l)
  | RNotIn r l => not_in (eval_rule env r) (eval_rule env l)
  | RMatches r p => rule_matches (eval_rule env r) p
  | RArith op r1 r2 => arith_op op (eval_rule env r1) (eval_rule env r2)
  | RNum op r => num_op op (eval_rule env r)
  | RCoalesce r1 r2 => coalesce [eval_rule env r1; eval_rule env r2]
  | RLength r => rule_length (eval_rule env r)
  | RIsEmpty r => rule_is_empty (eval_rule env r)
  | RText op r => text_op op (eval_rule env r)
  | RTest op r1 r2 => test_op op (eval_rule env r1) (eval_rule env r2)
  end.

(** *** Filling nulls *)
Inductive fills : Val → Val → Prop :=
  | fills_null v : fills Null v
  | fills_same v : fills v v
  | fills_list l l' : Forall2 fills l l' → fills (ListOf l) (ListOf l').
#[local] Hint Constructors fills : core.

(** A function of a value that decides nothing of null, and the same of a list however it is filled. *)
Lemma fills_fun {A} (f : Val → option A) (g : A → Val) a a' :
  (∀ l, f (ListOf l) = None) → f Null = None → fills a a' →
  fills (match f a with Some y => g y | None => Null end) (match f a' with Some y => g y | None => Null end).
Proof. intros Hl Hn []; rewrite ?Hl, ?Hn; auto. Qed.
Lemma fills_opt {A} (f : Val → option A) a a' y :
  (∀ l, f (ListOf l) = None) → f Null = None → fills a a' → f a = Some y → f a' = Some y.
Proof. intros Hl Hn []; rewrite ?Hl, ?Hn; naive_solver. Qed.

Lemma order_list_l l b : order (ListOf l) b = None.
Proof. by destruct b. Qed.
Lemma order_list_r a l : order a (ListOf l) = None.
Proof. destruct a as [| | |s| |]; try done. cbn. by destruct (parse_f64 (trim s)). Qed.
Lemma order_null_r a : order a Null = None.
Proof. by destruct a. Qed.
Lemma fills_order a a' b b' o : fills a a' → fills b b' → order a b = Some o → order a' b' = Some o.
Proof.
  intros [v|v|l l' Hl]; [done| |by rewrite order_list_l].
  intros [w|w|l l' Hl]; [by rewrite order_null_r|done|by rewrite order_list_r].
Qed.
Lemma fills_compare a a' b b' test : fills a a' → fills b b' → fills (compare_with a b test) (compare_with a' b' test).
Proof.
  intros Ha Hb. unfold compare_with. destruct (order a b) as [o|] eqn:Ho; [|auto].
  by rewrite (fills_order a a' b b' o).
Qed.
Lemma fills_truth a a' t : fills a a' → val_truth a = Some t → val_truth a' = Some t.
Proof. by apply fills_opt. Qed.
Lemma fills_not a a' : fills a a' → fills (rule_not a) (rule_not a').
Proof. by apply (fills_fun val_truth (λ t, Bool (negb t))). Qed.
Lemma fills_and a a' b b' : fills a a' → fills b b' → fills (rule_and a b) (rule_and a' b').
Proof.
  intros Ha Hb. unfold rule_and. pose proof (λ t, fills_truth a a' t Ha) as HA. pose proof (λ t, fills_truth b b' t Hb) as HB.
  destruct (val_truth a) as [[]|], (val_truth b) as [[]|]; rewrite ?(HA _ eq_refl), ?(HB _ eq_refl);
    destruct (val_truth a') as [[]|]; auto.
Qed.
Lemma fills_or a a' b b' : fills a a' → fills b b' → fills (rule_or a b) (rule_or a' b').
Proof.
  intros Ha Hb. unfold rule_or. pose proof (λ t, fills_truth a a' t Ha) as HA. pose proof (λ t, fills_truth b b' t Hb) as HB.
  destruct (val_truth a) as [[]|], (val_truth b) as [[]|]; rewrite ?(HA _ eq_refl), ?(HB _ eq_refl);
    destruct (val_truth a') as [[]|]; auto.
Qed.

Lemma in_items_unknown a items : in_items a items true = Null ∨ in_items a items true = Bool true.
Proof.
  induction items as [|x items IH]; [by left|]. cbn [in_items]. destruct (rule_eq a x) as [|[]| | | |]; auto.
Qed.
Lemma in_items_kind a items u : in_items a items u = Null ∨ ∃ t, in_items a items u = Bool t.
Proof.
  revert u. induction items as [|x items IH]; intros u; [destruct u; eauto|]. cbn [in_items].
  destruct (rule_eq a x) as [|[]| | | |]; eauto.
Qed.
Lemma fills_in_items a a' items items' u u' :
  fills a a' → Forall2 fills items items' → (u' = true → u = true) →
  fills (in_items a items u) (in_items a' items' u').
Proof.
  intros Ha Hl. revert u u'. induction Hl as [|x x' items items' Hx Hl IH]; intros u u' Hu; cbn [in_items].
  { destruct u, u'; auto. by specialize (Hu eq_refl). }
  pose proof (fills_compare a a' x x' (λ o, match o with Eq => true | _ => false end) Ha Hx) as He.
  fold (rule_eq a x) in He. fold (rule_eq a' x') in He.
  assert (∀ y y', rule_eq y y' = Null ∨ ∃ t, rule_eq y y' = Bool t) as Hk.
  { intros y y'. unfold rule_eq, compare_with. destruct (order y y'); eauto. }
  destruct (Hk a x) as [H1|[[] H1]]; rewrite H1 in He |- *.
  - destruct (Hk a' x') as [H2|[[] H2]]; rewrite H2.
    + by apply IH.
    + destruct (in_items_unknown a items) as [->| ->]; auto.
    + by apply IH.
  - inversion He as [|w Hw Hw'|]. auto.
  - inversion He as [|w Hw Hw'|]. by apply IH.
Qed.
Lemma fills_in_list a a' b b' : fills a a' → fills b b' → fills (in_list a b) (in_list a' b').
Proof.
  intros Ha Hb.
  assert (∀ l l', Forall2 fills l l' → fills (in_list a (ListOf l)) (in_list a' (ListOf l'))) as Hlist.
  { intros l l' Hl. unfold in_list. destruct (val_is_null a) eqn:Hn; [auto|].
    assert (val_is_null a' = false) as -> by (destruct Ha; done). by apply fills_in_items. }
  destruct Hb as [v|v|l l' Hl]; [simpl; auto| |auto]. destruct v; simpl; auto. apply (Hlist l l).
  apply Forall2_same_length_lookup_2; [done|]. intros i y y' Hy Hy'. rewrite Hy in Hy'. injection Hy' as <-. auto.
Qed.
Lemma fills_num a a' n : fills a a' → val_num a = Some n → val_num a' = Some n.
Proof. by apply fills_opt. Qed.
Lemma fills_arith a a' b b' f : fills a a' → fills b b' → fills (arith a b f) (arith a' b' f).
Proof.
  intros Ha Hb. unfold arith. destruct (val_num a) as [n|] eqn:Hn; [|auto]. destruct (val_num b) as [k|] eqn:Hk; [|auto].
  by rewrite (fills_num a a' n), (fills_num b b' k).
Qed.
Lemma fills_length a a' : fills a a' → fills (rule_length a) (rule_length a').
Proof. intros [v|v|l l' Hl]; auto. simpl. rewrite (Forall2_length _ _ _ Hl). auto. Qed.
Lemma fills_text a a' b b' (f : string → string → Val) : fills a a' → fills b b' →
  fills (match val_text a, val_text b with Some x, Some y => f x y | _, _ => Null end)
        (match val_text a', val_text b' with Some x, Some y => f x y | _, _ => Null end).
Proof.
  intros Ha Hb. destruct (val_text a) as [x|] eqn:Hx; [|auto]. destruct (val_text b) as [y|] eqn:Hy; [|auto].
  assert (val_text a' = Some x) as -> by (by apply (fills_opt val_text a a' x)).
  assert (val_text b' = Some y) as -> by (by apply (fills_opt val_text b b' y)). auto.
Qed.
Lemma fills_test op a a' b b' : fills a a' → fills b b' → fills (test_op op a b) (test_op op a' b').
Proof.
  intros Ha Hb. destruct op; [|by apply (fills_text a a' b b' (λ s t : string, Bool _))..].
  simpl. destruct Ha as [v|v|l l' Hl]; [simpl; auto| |by apply fills_in_list; [|constructor]].
  destruct v as [| | |s|l|]; [simpl; auto..|destruct Hb; simpl; auto|by apply (fills_in_list b b' (ListOf l) (ListOf l)); auto|simpl; auto].
Qed.

(** Rules with nothing in them that asks whether a value is null. *)
Fixpoint asks_no_null (r : Rule) : bool :=
  match r with
  | RLit _ | RField _ | ROld _ | RActor | RNow | RRole _ => true
  | RIsNull _ | RIsNotNull _ | RCond _ _ _ | RCoalesce _ _ => false
  | RNot r | RMatches r _ | RNum _ r | RLength r | RIsEmpty r | RText _ r => asks_no_null r
  | RAnd r1 r2 | ROr r1 r2 | RCmp _ r1 r2 | RIn r1 r2 | RNotIn r1 r2 | RArith _ r1 r2 | RTest _ r1 r2 =>
      asks_no_null r1 && asks_no_null r2
  end.
(** The same row with some nulls filled, for the writer too, at the same time. *)
Definition env_fills (env env' : Env) : Prop :=
  (∀ name, fills (rule_field (env_row env) name) (rule_field (env_row env') name)) ∧
  (∀ name, fills (rule_field (env_old env) name) (rule_field (env_old env') name)) ∧
  (env_actor env = None ∨ env_actor env = env_actor env') ∧
  (env_roles env = None ∨ env_roles env = env_roles env') ∧ env_at env = env_at env'.

(** a rule that refuses a row with fields missing refuses it however they are filled. A rule that
    never asks whether a value is null decides the same once more of the row, of the writer or of the
    roles source is known: a definite answer, true or false, number or text, stays. *)
Theorem refusal_stays env env' (r : Rule) :
  asks_no_null r = true → env_fills env env' →
  fills (eval_rule env r) (eval_rule env' r) ∧
  (holds (eval_rule env r) = false → holds (eval_rule env' r) = false).
Proof.
  intros Hr (Hrow & Hold & Hactor & Hroles & Hat).
  assert (fills (eval_rule env r) (eval_rule env' r)) as Hf.
  { induction r; simpl in Hr |- *; rewrite ?andb_true_iff in Hr; try discriminate Hr; destruct_and?; auto.
    - destruct Hactor as [->| ->]; simpl; auto.
    - rewrite Hat. auto.
    - destruct Hactor as [->| ->], Hroles as [->| ->]; simpl; auto; destruct (env_actor env'); simpl; auto.
    - by apply fills_not; auto.
    - by apply fills_and; auto.
    - by apply fills_or; auto.
    - destruct op; by apply fills_compare; auto.
    - by apply fills_in_list; auto.
    - by apply fills_not, fills_in_list; auto.
    - apply (fills_fun val_text (λ s, match regex_is_match pattern s with Some t => Bool t | None => Null end)); auto.
    - destruct op; by apply fills_arith; auto.
    - destruct op; apply (fills_fun val_num (λ n, Num _)); auto.
    - apply fills_length; auto.
    - pose proof (fills_length _ _ (IHr Hr)) as Hl. unfold rule_is_empty. revert Hl.
      generalize (rule_length (eval_rule env r)) (rule_length (eval_rule env' r)). intros v v' [w|w|l l' _]; auto.
    - destruct op; apply (fills_fun val_text (λ s, Text _)); auto.
    - apply fills_test; auto. }
  split; [done|]. by destruct Hf.
Qed.

(** *** Rules that decide *)
Inductive Kind := KBool | KNum | KText | KTime | KList (k : Kind).
(** A value of a kind is there, and is a number where it says so. *)
Inductive has_kind : Val → Kind → Prop :=
  | kind_bool t : has_kind (Bool t) KBool
  | kind_num n : n ≠ S754_nan → has_kind (Num n) KNum
  | kind_text s : has_kind (Text s) KText
  | kind_time t : has_kind (Time t) KTime
  | kind_list l k : Forall (λ v, has_kind v k) l → has_kind (ListOf l) (KList k).
#[local] Hint Constructors has_kind : core.
Definition comparable (k : Kind) : bool := match k with KList _ => false | _ => true end.

(** What kind a rule answers, from the kinds of the row's fields now and before. *)
Inductive typed (now old : string → option Kind) : Rule → Kind → Prop :=
  | ty_lit v k : has_kind v k → typed now old (RLit v) k
  | ty_field name k : now name = Some k → typed now old (RField name) k
  | ty_old name k : old name = Some k → typed now old (ROld name) k
  | ty_now : typed now old RNow KTime
  | ty_is_null r k : typed now old r k → typed now old (RIsNull r) KBool
  | ty_is_not_null r k : typed now old r k → typed now old (RIsNotNull r) KBool
  | ty_not r : typed now old r KBool → typed now old (RNot r) KBool
  | ty_and r1 r2 : typed now old r1 KBool → typed now old r2 KBool → typed now old (RAnd r1 r2) KBool
  | ty_or r1 r2 : typed now old r1 KBool → typed now old r2 KBool → typed now old (ROr r1 r2) KBool
  | ty_cond c r1 r2 k : typed now old c KBool → typed now old r1 k → typed now old r2 k → typed now old (RCond c r1 r2) k
  | ty_cmp op r1 r2 k : comparable k = true → typed now old r1 k → typed now old r2 k → typed now old (RCmp op r1 r2) KBool
  | ty_in r l k : comparable k = true → typed now old r k → typed now old l (KList k) → typed now old (RIn r l) KBool
  | ty_not_in r l k : comparable k = true → typed now old r k → typed now old l (KList k) → typed now old (RNotIn r l) KBool
  | ty_num op r : typed now old r KNum → typed now old (RNum op r) KNum
  | ty_coalesce r1 r2 k : typed now old r1 k → typed now old r2 k → typed now old (RCoalesce r1 r2) k
  | ty_length_text r : typed now old r KText → typed now old (RLength r) KNum
  | ty_length_list r k : typed now old r (KList k) → typed now old (RLength r) KNum
  | ty_empty_text r : typed now old r KText → typed now old (RIsEmpty r) KBool
  | ty_empty_list r k : typed now old r (KList k) → typed now old (RIsEmpty r) KBool
  | ty_text op r : typed now old r KText → typed now old (RText op r) KText
  | ty_test op r1 r2 : typed now old r1 KText → typed now old r2 KText → typed now old (RTest op r1 r2) KBool
  | ty_contains r1 r2 k : comparable k = true → typed now old r1 (KList k) → typed now old r2 k →
      typed now old (RTest OContains r1 r2) KBool.

Lemma order_kind a b k : comparable k = true → has_kind a k → has_kind b k → is_Some (order a b).
Proof.
  intros Hk Ha Hb. destruct Ha as [t|n Hn|s|t|l k Hl]; inversion Hb; subst; simpl; try discriminate Hk; eauto.
  - destruct n, n0; try done; unfold f64_partial_cmp; simpl; repeat case_match; eauto.
  - destruct (decimal s), (decimal s0); eauto.
Qed.
Lemma compare_kind a b k test :
  comparable k = true → has_kind a k → has_kind b k → has_kind (compare_with a b test) KBool.
Proof. intros Hk Ha Hb. unfold compare_with. destruct (order_kind a b k Hk Ha Hb) as [o ->]. auto. Qed.
Lemma in_list_kind a l k : comparable k = true → has_kind a k → has_kind l (KList k) → has_kind (in_list a l) KBool.
Proof.
  intros Hk Ha Hl. inversion Hl as [| | | |l' k' Hf]; subst. simpl.
  assert (val_is_null a = false) as -> by by destruct Ha.
  induction Hf as [|x items Hx Hf IH]; simpl; [auto|].
  pose proof (compare_kind a x k (λ o, match o with Eq => true | _ => false end) Hk Ha Hx) as He.
  fold (rule_eq a x) in He. inversion He as [[]| | | |]; auto.
Qed.

Lemma num_op_number op n : n ≠ S754_nan → has_kind (num_op op (Num n)) KNum.
Proof.
  assert (∀ y : f64, y ≠ S754_nan → f64_ceil y ≠ S754_nan) as Hceil.
  { intros y Hy. destruct y; try done. simpl. case_match; [done|]. apply f64_normalize_number. }
  assert (∀ y : f64, y ≠ S754_nan → f64_neg y ≠ S754_nan) as Hneg by by intros [].
  intros Hn. destruct op; simpl; constructor; auto.
  - by destruct n.
  - unfold f64_floor. auto.
  - destruct n; try done. simpl. case_match; [done|]. apply f64_normalize_number.
Qed.

(** a rule over fields that are there and of their kinds decides. Whatever the nesting, a rule
    whose literals, fields and operators fit their kinds answers a value of the rule's own kind, never
    null: a condition is true or false, and a number is a number. *)
Theorem typed_rule_decides (now old : string → option Kind) (env : Env) (r : Rule) (k : Kind) :
  (∀ name k, now name = Some k → has_kind (rule_field (env_row env) name) k) →
  (∀ name k, old name = Some k → has_kind (rule_field (env_old env) name) k) →
  typed now old r k → has_kind (eval_rule env r) k.
Proof.
  intros Hnow Hold. induction 1; simpl; auto.
  - constructor.
  - constructor.
  - inversion IHtyped; subst. constructor.
  - inversion IHtyped1; inversion IHtyped2; subst. by destruct t, t0; constructor.
  - inversion IHtyped1; inversion IHtyped2; subst. by destruct t, t0; constructor.
  - inversion IHtyped1; subst. by destruct t.
  - destruct op; by eapply compare_kind.
  - by eapply in_list_kind.
  - pose proof (in_list_kind _ _ _ H IHtyped1 IHtyped2) as Hi. unfold not_in. inversion Hi. constructor.
  - inversion IHtyped; subst. by apply num_op_number.
  - destruct IHtyped1; unfold coalesce; simpl; auto.
  - inversion IHtyped; subst. constructor. apply f64_of_Z_number.
  - inversion IHtyped; subst. constructor. apply f64_of_Z_number.
  - inversion IHtyped; subst. constructor.
  - inversion IHtyped; subst. constructor.
  - inversion IHtyped; subst. destruct op; constructor.
  - inversion IHtyped1; inversion IHtyped2; subst. destruct op; constructor.
  - pose proof (in_list_kind _ _ _ H IHtyped2 IHtyped1) as Hi. inversion IHtyped1 as [| | | |l' k' Hf]; subst.
    rewrite <-H2 in Hi. exact Hi.
Qed.
End facts.

(** ** Rules that run *)
Module RuleExample.
#[local] Existing Instance Concrete.libs.
#[local] Existing Instance ascii_unicode.
(** Decimals as a number and the length of its fraction. *)
Definition dec_of_text (s : string) : option (Z * Z) :=
  let '(neg, d) := match s with String "-" d => (true, d) | _ => (false, s) end in
  let '(int, frac) := match split_once "." d with Some (i, f) => (i, f) | None => (d, "") end in
  let n := digits_val 0 (int +:+ frac) in
  Some (if neg then - n else n, str_len frac).
#[local] Instance rule_libs : RuleLibs := {|
  Dec := Z * Z;
  dec_parse := dec_of_text;
  dec_cmp x y := (x.1 * 10 ^ y.2 ?= y.1 * 10 ^ x.2);
  parse_ymd _ := None;
  to_rfc3339 := show_Z;
  regex_is_match p s := Some (str_contains s p);
  u_to_uppercase s := s;
|}.
#[local] Instance rule_laws : RuleLaws.
Proof. constructor. intros x y. apply Z.compare_antisym. Qed.

Definition ex_row : Value :=
  VObject [("amount", VString "50"); ("budget_cap", VString "100.0"); ("kind", VString "client");
           ("name", VNull); ("tags", VArray [VString "a"; VString "b"])].
Definition ex_env (actor : option string) : Env := mkEnv ex_row (VObject []) actor 100 None.
(** [amount <= budget_cap && kind in ['client', 'lead'] && tags.length < 3] *)
Definition ex_rule : Rule :=
  RAnd (RCmp CLe (RField "amount") (RField "budget_cap"))
    (RAnd (RIn (RField "kind") (RLit (ListOf [Text "client"; Text "lead"])))
       (RCmp CLt (RLength (RField "tags")) (RLit (Num (f64_of_Z 3))))).
Definition ex_kinds (name : string) : option Kind :=
  if bool_decide (name ∈ ["amount"; "budget_cap"; "kind"]) then Some KText
  else if bool_decide (name = "tags") then Some (KList KText) else None.


Lemma typed_rule_decides_witness :
  (∀ name k, ex_kinds name = Some k → has_kind (rule_field ex_row name) k) ∧
  has_kind (eval_rule (ex_env None) ex_rule) KBool ∧ eval_rule (ex_env None) ex_rule = Bool true.
Proof.
  assert (∀ name k, ex_kinds name = Some k → has_kind (rule_field ex_row name) k) as Hk.
  { intros name k. unfold ex_kinds. case_bool_decide as H.
    - intros [= <-]. repeat (apply elem_of_cons in H as [->|H]; [constructor|]). by apply elem_of_nil in H.
    - case_bool_decide as H'; [|discriminate]. intros [= <-]. subst name. repeat constructor. }
  split; [exact Hk|]. split; [|vm_compute; reflexivity].
  apply (typed_rule_decides ex_kinds (λ _, None) (ex_env None) ex_rule KBool Hk ltac:(discriminate)).
  apply ty_and; [|apply ty_and].
  - apply (ty_cmp _ _ CLe _ _ KText); [reflexivity|apply ty_field; reflexivity..].
  - apply (ty_in _ _ _ _ KText); [reflexivity|apply ty_field; reflexivity|]. apply ty_lit. repeat constructor.
  - apply (ty_cmp _ _ CLt _ _ KNum); [reflexivity| |apply ty_lit; constructor; apply f64_of_Z_number].
    apply (ty_length_list _ _ _ KText), ty_field. reflexivity.
Defined.

(** A rule of two fields, one missing: refused already, and so it stays. *)
Lemma refusal_stays_witness :
  let r := RAnd (RCmp CGt (RField "amount") (RField "budget_cap")) (RMatches (RField "name") "x") in
  let filled := mkEnv (VObject [("amount", VString "50"); ("budget_cap", VString "100.0"); ("kind", VString "client");
                                ("name", VString "x"); ("tags", VArray [VString "a"; VString "b"])]) (VObject []) None 100 None in
  asks_no_null r = true ∧ env_fills (ex_env None) filled ∧
  holds (eval_rule (ex_env None) r) = false ∧ holds (eval_rule filled r) = false.
Proof.
  intros r filled. assert (asks_no_null r = true) as Hr by reflexivity.
  assert (env_fills (ex_env None) filled) as He.
  { split; [|split; [intros; constructor|split; [by left|split; [by left|done]]]]. intros name.
    unfold rule_field, ex_env, filled, ex_row, value_get, map_get. cbn [env_row assoc].
    repeat (case_decide; [subst; constructor|]). constructor. }
  assert (holds (eval_rule (ex_env None) r) = false) as Hh by reflexivity.
  split; [exact Hr|]. split; [exact He|]. split; [exact Hh|].
  exact (proj2 (refusal_stays (ex_env None) filled r Hr He) Hh).
Defined.

(** Texts that look like decimals are compared as numbers and others as text: three texts each less
    than the next, round in a circle. *)
Example text_order_is_circular :
  rule_lt (Text "9") (Text "10") = Bool true ∧ rule_lt (Text "10") (Text "1a") = Bool true ∧
  rule_lt (Text "1a") (Text "9") = Bool true.
Proof. vm_compute. auto. Qed.
End RuleExample.
