(* ===== verification/JobTypes.v ===== *)
(** * Jobs: errors, statuses, attempts, retry policies

    [backbone-jobs/src/error.rs] and [types.rs]. [chrono]'s durations, [f64::powi] and the random source
    are libraries' and parameters; whether an overflow panics or wraps is the build's. *)
From Stdlib Require Import ZArith Lia Ascii.
From S2P Require Import Prelude Float64 RustStr RustChar Json.

Local Open Scope Z_scope.

(** ** [error.rs] *)
Inductive JobError :=
  | Database (e : string) | CronParsing (m : string) | Execution (m : string)
  | JobNotFound (job_id : string) | JobAlreadyExists (job_id : string)
  | InvalidConfiguration (m : string) | QueueService (m : string) | Serialization (e : string) | Uuid (e : string)
  | TimeZone (m : string) | SchedulerNotRunning | SchedulerAlreadyRunning | SchedulerShutdown (m : string)
  | JobTimeout (job_id : string) (timeout_seconds : Z) | RetryLimitExceeded (job_id : string) (attempts : Z)
  | InvalidStatusTransition (from to : string) | PgCron (m : string) | Configuration (m : string) | Io (e : string)
  | HttpClient (m : string) | Authentication (m : string) | PermissionDenied (m : string)
  | RateLimitExceeded (m : string) | Validation (m : string) | Internal (m : string).

Definition is_transient (e : JobError) : bool :=
  match e with
  | Database _ | QueueService _ | HttpClient _ | RateLimitExceeded _ | JobTimeout _ _ | SchedulerNotRunning => true
  | _ => false
  end.
Definition is_permanent (e : JobError) : bool := negb (is_transient e).
Definition error_category (e : JobError) : string :=
  match e with
  | Database _ => "database" | CronParsing _ => "cron" | Execution _ => "execution" | JobNotFound _ => "not_found"
  | JobAlreadyExists _ => "conflict" | InvalidConfiguration _ => "configuration" | QueueService _ => "queue"
  | Serialization _ => "serialization" | Uuid _ => "uuid" | TimeZone _ => "timezone"
  | SchedulerNotRunning | SchedulerAlreadyRunning | SchedulerShutdown _ => "scheduler"
  | JobTimeout _ _ => "timeout" | RetryLimitExceeded _ _ => "retry" | InvalidStatusTransition _ _ => "state"
  | PgCron _ => "pg_cron" | Configuration _ => "configuration" | Io _ => "io" | HttpClient _ => "http"
  | Authentication _ | PermissionDenied _ => "auth" | RateLimitExceeded _ => "rate_limit"
  | Validation _ => "validation" | Internal _ => "internal"
  end.

(** ** [types.rs]: statuses and priorities *)
Inductive JobStatus := Scheduled | Running | Completed | Failed | Cancelled | Paused.
#[export] Instance job_status_eq_dec : EqDecision JobStatus.
Proof. solve_decision. Defined.

Definition is_terminal (s : JobStatus) : bool := match s with Completed | Cancelled => true | _ => false end.
Definition is_executable (s : JobStatus) : bool := match s with Scheduled => true | _ => false end.
Definition is_active (s : JobStatus) : bool := match s with Scheduled | Running => true | _ => false end.
Definition valid_transitions (s : JobStatus) : list JobStatus :=
  match s with
  | Scheduled => [Running; Cancelled; Paused]
  | Running => [Completed; Failed; Cancelled]
  | Failed => [Scheduled; Cancelled]
  | Paused => [Scheduled; Cancelled]
  | Completed | Cancelled => []
  end.
Definition can_transition_to (s target : JobStatus) : bool := bool_decide (target ∈ valid_transitions s).
Definition status_text (s : JobStatus) : string :=
  match s with
  | Scheduled => "scheduled" | Running => "running" | Completed => "completed" | Failed => "failed"
  | Cancelled => "cancelled" | Paused => "paused"
  end.

Inductive JobPriority := Low | Normal | High | Critical.
Definition all_priorities : list JobPriority := [Low; Normal; High; Critical].
Definition priority_text (p : JobPriority) : string :=
  match p with Low => "low" | Normal => "normal" | High => "high" | Critical => "critical" end.
Definition parse_priority {U : Unicode} (s : string) : option JobPriority :=
  let t := to_lowercase s in
  if bool_decide (t = "low") then Some Low
  else if bool_decide (t = "normal") then Some Normal
  else if bool_decide (t = "high") then Some High
  else if bool_decide (t = "critical") then Some Critical
  else None.

(** ** Time *)

(** A length of time, in nanoseconds. *)
Abbreviation duration := Z (only parsing).
(** [chrono]'s durations; [None] where it panics. *)
Class Durations := {
  duration_seconds : Z → option duration;              (* [Duration::seconds] *)
  duration_days : Z → option duration;                 (* [Duration::days] *)
  add_duration : instant → duration → option instant;  (* [t + d] *)
  sub_duration : instant → duration → option instant;  (* [t - d] *)
}.
(** The documented behaviour: a second is a thousand million nanoseconds, and what is added is added. *)
Class DurationLaws {D : Durations} := {
  duration_seconds_ok s d : duration_seconds s = Some d → d = s * 1000000000;
  duration_days_ok n d : duration_days n = Some d → d = n * 86400 * 1000000000;
  add_duration_ok t d t' : add_duration t d = Some t' → t' = t + d;
  sub_duration_ok t d t' : sub_duration t d = Some t' → t' = t - d;
}.
(** [d.num_seconds()] *)
Definition num_seconds (d : duration) : Z := Z.quot d 1000000000.
Definition u64_as_i64 (x : Z) : Z := if x <=? i64_max then x else x - (u64_max + 1).

(** ** Attempts *)
Inductive JobExecutionResult := RSuccess | RFailure | RTimeout | RCancelled.
#[export] Instance job_execution_result_eq_dec : EqDecision JobExecutionResult.
Proof. solve_decision. Defined.
Definition is_success (r : JobExecutionResult) : bool := match r with RSuccess => true | _ => false end.
Definition is_failure (r : JobExecutionResult) : bool := match r with RFailure | RTimeout => true | _ => false end.
Definition result_text (r : JobExecutionResult) : string :=
  match r with RSuccess => "success" | RFailure => "failure" | RTimeout => "timeout" | RCancelled => "cancelled" end.

Record JobExecutionAttempt := mkAttempt {
  at_attempt : Z; at_started_at : instant; at_ended_at : instant; at_result : JobExecutionResult;
  at_error_message : option string; at_duration_seconds : Z }.

(** [success], [failure], [timeout]; [now] is the clock's answer. *)
Definition attempt_success (now : instant) (attempt : Z) (started_at : instant) : JobExecutionAttempt :=
  mkAttempt attempt started_at now RSuccess None (num_seconds (now - started_at)).
Definition attempt_failure (now : instant) (attempt : Z) (started_at : instant) (message : string) :
    JobExecutionAttempt :=
  mkAttempt attempt started_at now RFailure (Some message) (num_seconds (now - started_at)).
Definition attempt_timeout {D : Durations} (attempt : Z) (started_at : instant) (timeout_seconds : Z) :
    option JobExecutionAttempt :=
  d ← duration_seconds (u64_as_i64 timeout_seconds);
  ended_at ← add_duration started_at d;
  Some (mkAttempt attempt started_at ended_at RTimeout
    (Some ("Job timed out after " +:+ show_Z timeout_seconds +:+ " seconds")) (u64_as_i64 timeout_seconds)).

Record JobExecutionContext := mkContext {
  cx_job_id : string; cx_attempt : Z; cx_max_attempts : Z; cx_timeout : Z; cx_started_at : instant;
  cx_metadata : gmap string string; cx_previous_attempts : list JobExecutionAttempt }.
Definition context_new (now : instant) (job_id : string) (attempt max_attempts timeout : Z)
    (metadata : gmap string string) : JobExecutionContext :=
  mkContext job_id attempt max_attempts timeout now metadata [].
Definition add_previous_attempt (a : JobExecutionAttempt) (c : JobExecutionContext) : JobExecutionContext :=
  mkContext (cx_job_id c) (cx_attempt c) (cx_max_attempts c) (cx_timeout c) (cx_started_at c) (cx_metadata c)
    (cx_previous_attempts c ++ [a]).
Definition is_last_attempt (c : JobExecutionContext) : bool := cx_max_attempts c <=? cx_attempt c.
Definition is_timed_out {D : Durations} (now : instant) (c : JobExecutionContext) : option bool :=
  d ← duration_seconds (u64_as_i64 (cx_timeout c)); Some (d <? now - cx_started_at c).
(** The subtraction is of [i64]s. *)
Definition remaining_time (now : instant) (c : JobExecutionContext) : Z :=
  u64_as_i64 (cx_timeout c) - num_seconds (now - cx_started_at c).

(** ** Retry policies *)
Record RetryPolicy := mkPolicy {
  rp_max_attempts : Z; rp_initial_delay : Z; rp_backoff_multiplier : f64; rp_max_delay : Z; rp_jitter : bool }.
Definition policy_default : RetryPolicy := mkPolicy 5 60 (f64_of_Z 2) 3600 true.
Definition policy_new (max_attempts initial_delay : Z) : RetryPolicy :=
  mkPolicy max_attempts initial_delay (f64_of_Z 2) 3600 true.
Definition policy_exponential (max_attempts initial_delay : Z) : RetryPolicy :=
  mkPolicy max_attempts initial_delay (f64_of_Z 2) 3600 true.
Definition policy_fixed (max_attempts delay : Z) : RetryPolicy :=
  mkPolicy max_attempts delay (f64_of_Z 1) delay false.

Definition should_retry (p : RetryPolicy) (attempt : Z) : bool := attempt <? rp_max_attempts p.

Definition f64_quarter : f64 := f64_div (f64_of_Z 1) (f64_of_Z 4).
Definition f64_half : f64 := f64_div (f64_of_Z 1) (f64_of_Z 2).

Section delay.
Context {D : Durations}.
Variable overflow_checks : bool.
Variable powi : f64 → Z → f64.

(** [attempt as i32 - 1] *)
Definition exponent (attempt : Z) : option Z :=
  let n := as_i32 attempt - 1 in
  if i32_min <=? n then Some n else if overflow_checks then None else Some i32_max.

(** The wait in seconds: [random] is what the source answers if it is asked. *)
Definition delay_seconds (p : RetryPolicy) (attempt exp : Z) (random : f64) : f64 :=
  let base_delay := f64_mul (f64_of_Z (rp_initial_delay p)) (powi (rp_backoff_multiplier p) exp) in
  let delay := f64_min base_delay (f64_of_Z (rp_max_delay p)) in
  if rp_jitter p && (1 <? attempt) then
    let jitter_range := f64_mul delay f64_quarter in
    f64_add delay (f64_mul (f64_mul (f64_sub random f64_half) (f64_of_Z 2)) jitter_range)
  else delay.

Definition delay_for_attempt (p : RetryPolicy) (attempt : Z) (random : f64) : option duration :=
  if attempt =? 0 then duration_seconds 0
  else
    exp ← exponent attempt;
    duration_seconds (f64_to_i64 (f64_round (delay_seconds p attempt exp random))).
End delay.
