(* ===== verification/Cron.v ===== *)
(** * Cron expressions

    [backbone-jobs/src/cron.rs]: parsing, matching, the search for the next times, and the text of an
    expression. Time zones and the calendar are [chrono]'s and [chrono_tz]'s, and parameters;
    [describe_expression] is left out. A list of values is a hash set, hence a [gset]. *)
From Stdlib Require Import ZArith Lia Ascii.
From S2P Require Import Prelude RustStr RustChar Json JobTypes.

Local Open Scope Z_scope.

(** [s.split_whitespace()] *)
Definition is_whitespace (ch : string) : bool := bool_decide (ch ∈ whitespace).
Fixpoint words (cs : list string) (cur : string) : list string :=
  match cs with
  | [] => if bool_decide (cur = "") then [] else [cur]
  | c :: cs =>
      if is_whitespace c then (if bool_decide (cur = "") then words cs "" else cur :: words cs "")
      else words cs (cur +:+ c)
  end.
Definition split_whitespace (s : string) : list string := words (chars s) "".

(** A time on a wall: what a cron expression looks at. *)
Record LocalTime := mkLocal { lt_minute : Z; lt_hour : Z; lt_day : Z; lt_month : Z; lt_weekday : Z }.
(** [chrono_tz] *)
Class TimeZones := {
  Tz : Type;
  parse_tz : string → option Tz;              (* [str::parse::<Tz>()] *)
  with_timezone : Tz → instant → LocalTime;   (* [t.with_timezone(tz)]; Sunday is day 0 of the week *)
}.

Inductive CronField :=
  | All | Single (v : Z) | Range (start end_ : Z) | ListOf (values : gset Z) | Step (base : CronField) (step : Z).
Record CronExpression := mkCron {
  minute : CronField; hour : CronField; day_of_month : CronField; month : CronField; day_of_week : CronField }.

Definition cron_parsing {A} (m : string) : res JobError A := Err (CronParsing m).
Definition parse_or {A} (o : option A) (m : string) : res JobError A :=
  match o with Some a => Ok a | None => cron_parsing m end.

(** ** Parsing *)
Definition out_of_range (v min max : Z) : string :=
  "Value " +:+ show_Z v +:+ " out of range (expected " +:+ show_Z min +:+ "-" +:+ show_Z max +:+ ")".

Definition parse_range (start end_ : string) (min max : Z) : res JobError CronField :=
  start_val ← parse_or (parse_u32 start) ("Invalid range start: " +:+ start);
  end_val ← parse_or (parse_u32 end_) ("Invalid range end: " +:+ end_);
  if (start_val <? min) || (max <? end_val) || (end_val <? start_val) then
    cron_parsing ("Invalid range values: " +:+ show_Z start_val +:+ "-" +:+ show_Z end_val +:+ " (expected " +:+
      show_Z min +:+ "-" +:+ show_Z max +:+ ")")
  else Ok (Range start_val end_val).

(** [value.split(',').map(..).collect()]: the first that does not read is the error. *)
Fixpoint parse_values (parts : list string) : res JobError (list Z) :=
  match parts with
  | [] => Ok []
  | v :: parts =>
      x ← parse_or (parse_u32 v) ("Invalid list value: " +:+ v);
      xs ← parse_values parts;
      Ok (x :: xs)
  end.
(** [for &val in &values]: a hash set is walked in any order, [walk]. *)
Definition parse_list (walk : gset Z → list Z) (value : string) (min max : Z) : res JobError CronField :=
  xs ← parse_values (str_split "," value);
  let values := list_to_set xs in
  match List.find (λ v, (v <? min) || (max <? v)) (walk values) with
  | Some v => cron_parsing (out_of_range v min max)
  | None => Ok (ListOf values)
  end.
Definition parse_single (value : string) (min max : Z) : res JobError CronField :=
  v ← parse_or (parse_u32 value) ("Invalid value: " +:+ value);
  if (v <? min) || (max <? v) then cron_parsing (out_of_range v min max) else Ok (Single v).

(** What is parsed once [*] and a step are recognised. *)
Definition parse_plain_field (walk : gset Z → list Z) (value : string) (min max : Z) : res JobError CronField :=
  match split_once "-" value with
  | Some (start, end_) => parse_range start end_ min max
  | None =>
      if str_contains value "," then parse_list walk value min max else parse_single value min max
  end.

(** A step's base is parsed again; each call has one byte less at least. *)
Fixpoint parse_field_in (walk : gset Z → list Z) (fuel : nat) (value : string) (min max : Z) :
    res JobError CronField :=
  match fuel with
  | O => Panic
  | S fuel =>
      if bool_decide (value = "*") then Ok All
      else
        match split_once "/" value with
        | Some (base, step) =>
            step_val ← parse_or (parse_u32 step) ("Invalid step value: " +:+ step);
            if step_val =? 0 then cron_parsing "Step value cannot be zero"
            else base_field ← parse_field_in walk fuel base min max; Ok (Step base_field step_val)
        | None => parse_plain_field walk value min max
        end
  end.
Definition parse_field (walk : gset Z → list Z) (value : string) (min max : Z) : res JobError CronField :=
  parse_field_in walk (S (String.length value)) value min max.

Definition parse_cron (walk : gset Z → list Z) (expression : string) : res JobError CronExpression :=
  match split_whitespace expression with
  | [p0; p1; p2; p3; p4] =>
      minute ← parse_field walk p0 0 59;
      hour ← parse_field walk p1 0 23;
      day_of_month ← parse_field walk p2 1 31;
      month ← parse_field walk p3 1 12;
      day_of_week ← parse_field walk p4 0 6;
      Ok (mkCron minute hour day_of_month month day_of_week)
  | parts =>
      cron_parsing ("Cron expression must have 5 fields, got " +:+ show_Z (Z.of_nat (length parts)) +:+ ": '" +:+
        expression +:+ "'")
  end.

(** ** Matching *)

(** [value.is_multiple_of(step)]; the differences are of values the base matches, so not negative. *)
Definition is_multiple_of (value step : Z) : bool :=
  if step =? 0 then value =? 0 else value mod step =? 0.
Fixpoint field_matches (f : CronField) (value : Z) : bool :=
  match f with
  | All => true
  | Single v => v =? value
  | Range start end_ => (start <=? value) && (value <=? end_)
  | ListOf values => bool_decide (value ∈ values)
  | Step base step =>
      match base with
      | All => is_multiple_of value step
      | _ =>
          if field_matches base value then
            match base with
            | Single base_val => is_multiple_of (value - base_val) step
            | Range start _ => is_multiple_of (value - start) step
            | _ => false
            end
          else false
      end
  end.

Definition local_matches (e : CronExpression) (l : LocalTime) : bool :=
  field_matches (minute e) (lt_minute l) && field_matches (hour e) (lt_hour l) &&
  field_matches (day_of_month e) (lt_day l) && field_matches (month e) (lt_month l) &&
  field_matches (day_of_week e) (lt_weekday l).

(** ** Text *)
Fixpoint show_field (f : CronField) : string :=
  match f with
  | All => "*"
  | Single v => show_Z v
  | Range start end_ => show_Z start +:+ "-" +:+ show_Z end_
  | ListOf values => str_join "," (map show_Z (merge_sort Z.le (elements values)))
  | Step base step => show_field base +:+ "/" +:+ show_Z step
  end.
Definition show_cron (e : CronExpression) : string :=
  show_field (minute e) +:+ " " +:+ show_field (hour e) +:+ " " +:+ show_field (day_of_month e) +:+ " " +:+
  show_field (month e) +:+ " " +:+ show_field (day_of_week e).

(** ** The next times *)
Section next.
Context {TZ : TimeZones} {D : Durations}.
Implicit Types (e : CronExpression) (tz : Tz) (t after : instant).

Definition cron_matches e tz t : bool := local_matches e (with_timezone tz t).

(** [after.second()], [with_nanosecond(0)]: the epoch is a whole minute. *)
Definition second_of t : Z := (t / 1000000000) mod 60.
Definition whole_second t : instant := t / 1000000000 * 1000000000.
(** [t + Duration::seconds(s)] *)
Definition plus_seconds t (s : Z) : res JobError instant :=
  or_panic (d ← duration_seconds s; add_duration t d).

Definition MAX_ATTEMPTS : Z := 100000.
Definition not_found : JobError := CronParsing "Could not find next execution time within reasonable bounds".
Fixpoint search_next (attempts : nat) e tz (current : instant) : res JobError instant :=
  match attempts with
  | O => Err not_found
  | S attempts =>
      if cron_matches e tz current then Ok current
      else current ← plus_seconds current 60; search_next attempts e tz current
  end.
Definition next_after e after tz : res JobError instant :=
  current ← plus_seconds after (60 - second_of after);
  search_next (Z.to_nat MAX_ATTEMPTS) e tz (whole_second current).

Record CronScheduler := mkCronScheduler { cs_expression : CronExpression; cs_timezone : Tz }.
Definition cron_scheduler_new (walk : gset Z → list Z) (expression timezone : string) :
    res JobError CronScheduler :=
  cron_expr ← parse_cron walk expression;
  match parse_tz timezone with
  | Some tz => Ok (mkCronScheduler cron_expr tz)
  | None => Err (TimeZone ("Invalid timezone: " +:+ timezone))
  end.
Definition new_utc (walk : gset Z → list Z) (expression : string) : res JobError CronScheduler :=
  cron_scheduler_new walk expression "UTC".
Definition scheduler_next_after (c : CronScheduler) after : res JobError instant :=
  next_after (cs_expression c) after (cs_timezone c).
Fixpoint next_n_after (c : CronScheduler) (current : instant) (n : nat) : res JobError (list instant) :=
  match n with
  | O => Ok []
  | S n =>
      next ← scheduler_next_after c current;
      current ← plus_seconds next 1;
      times ← next_n_after c current n;
      Ok (next :: times)
  end.
Definition scheduler_matches (c : CronScheduler) t : bool := cron_matches (cs_expression c) (cs_timezone c) t.

(** [helpers] *)
Definition time_until_next (walk : gset Z → list Z) (expression timezone : string) (from : instant) :
    res JobError duration :=
  scheduler ← cron_scheduler_new walk expression timezone;
  next ← scheduler_next_after scheduler from;
  Ok (next - from).
Definition is_valid_expression (walk : gset Z → list Z) (expression : string) : bool :=
  match parse_cron walk expression with Ok _ => true | _ => false end.
End next.

(** ** [templates] *)
Definition EVERY_MINUTE := "* * * * *".
Definition HOURLY := "0 * * * *".
Definition DAILY_MIDNIGHT := "0 0 * * *".
Definition DAILY_NOON := "0 12 * * *".
Definition WEEKLY_MONDAY_9AM := "0 9 * * 1".
Definition WEEKLY_SUNDAY_2AM := "0 2 * * 0".
Definition MONTHLY_FIRST := "0 0 1 * *".
Definition MONTHLY_LAST := "0 0 L * *".
Definition EVERY_5_MINUTES := "*/5 * * * *".
Definition EVERY_15_MINUTES := "*/15 * * * *".
Definition EVERY_30_MINUTES := "*/30 * * * *".
Definition EVERY_2_HOURS := "0 */2 * * *".
Definition EVERY_6_HOURS := "0 */6 * * *".
Definition WEEKDAYS_9AM := "0 9 * * 1-5".
Definition WEEKENDS_10AM := "0 10 * * 6,0".
Definition BUSINESS_HOURS := "0 9-17 * * 1-5".
Definition templates : list string :=
  [EVERY_MINUTE; HOURLY; DAILY_MIDNIGHT; DAILY_NOON; WEEKLY_MONDAY_9AM; WEEKLY_SUNDAY_2AM; MONTHLY_FIRST;
   MONTHLY_LAST; EVERY_5_MINUTES; EVERY_15_MINUTES; EVERY_30_MINUTES; EVERY_2_HOURS; EVERY_6_HOURS; WEEKDAYS_9AM;
   WEEKENDS_10AM; BUSINESS_HOURS].
Example templates_parse :
  List.filter (λ t, negb (is_valid_expression elements t)) templates = [MONTHLY_LAST].
Proof. vm_compute. reflexivity. Qed.
