(* ===== verification/CronFacts.v ===== *)
(** * Cron expressions: facts

    What is parsed is in range and reads back from its text; the next time is the first minute that
    matches, as far as the search goes, and a list of next times leaves none out. *)
From Stdlib Require Import ZArith Lia Ascii.
From stdpp Require Import sorting.
From S2P Require Import Prelude RustStr RustChar Json JobTypes Cron.

Local Open Scope Z_scope.

(** ** Texts *)
Lemma digits_lack c s : is_ascii_digit c = false → str_forallb is_ascii_digit s = true → lacks c s = true.
Proof.
  intros Hc. apply str_forallb_impl. intros d Hd. apply negb_true_iff, Ascii.eqb_neq. by intros ->; rewrite Hc in Hd.
Qed.
Lemma split_once_lacks c s : lacks c s = true → split_once c s = None.
Proof.
  induction s as [|d s IH]; [done|]. unfold lacks. simpl. intros [Hd Hs]%andb_true_iff.
  apply negb_true_iff in Hd. by rewrite Hd, IH.
Qed.
Lemma split_once_spec c s a b : split_once c s = Some (a, b) → lacks c a = true ∧ s = a +:+ String c b.
Proof.
  revert a. induction s as [|d s IH]; intros a; simpl; [done|]. destruct (Ascii.eqb c d) eqn:Hd.
  - intros [= <- <-]. apply Ascii.eqb_eq in Hd as ->. done.
  - destruct (split_once c s) as [[a' b']|]; [|done]. simpl. intros [= <- <-].
    destruct (IH a' eq_refl) as [Ha ->]. split; [|done]. unfold lacks in *. simpl. by rewrite Hd, Ha.
Qed.
Lemma show_digits n : 0 ≤ n → str_forallb is_ascii_digit (show_Z n) = true.
Proof. apply show_Z_spec. Qed.
Lemma parse_u32_show n : 0 ≤ n ≤ u32_max → parse_u32 (show_Z n) = Some n.
Proof.
  intros Hn. destruct (show_Z_spec n ltac:(lia)) as (Hd & Hv & c & s & Hs). unfold parse_u32. rewrite Hs in *.
  assert (is_ascii_digit c = true) as Hc by by simpl in Hd; apply andb_true_iff in Hd as [].
  assert (match String c s with String "+" d => d | _ => String c s end = String c s) as ->.
  { destruct c as [[] [] [] [] [] [] [] []]; done. }
  rewrite Hd, Hv. by replace (n <=? u32_max) with true by lia.
Qed.
Lemma parse_u32_nonneg s v : parse_u32 s = Some v → 0 ≤ v ≤ u32_max.
Proof.
  unfold parse_u32. destruct (match s with String "+" d => d | _ => s end) as [|c d]; [done|].
  destruct (str_forallb is_ascii_digit (String c d)) eqn:Hd; [|done]. pose proof (digits_val_nonneg _ 0 ltac:(lia) Hd).
  destruct (_ <=? u32_max) eqn:Hm; [|done]. intros Hv. injection Hv as <-. simpl in H, Hm. lia.
Qed.

(** *** Words *)
Lemma words_graphic w r cur :
  str_forallb is_ascii_graphic w = true → str_forallb is_ascii r = true →
  words (chars (w +:+ r)) cur = words (chars r) (cur +:+ w).
Proof.
  intros Hw Hr. revert cur. induction w as [|c w IH]; intros cur; [by rewrite str_app_nil_r|].
  simpl in Hw. apply andb_true_iff in Hw as [Hc Hw]. rewrite str_app_cons, chars_ascii_cons.
  - simpl. assert (is_whitespace (String c "") = false) as ->.
    { destruct c as [[] [] [] [] [] [] [] []]; try discriminate Hc; reflexivity. }
    by rewrite IH, str_app_assoc.
  - rewrite str_forallb_app, Hr, andb_true_r. eapply str_forallb_impl; [|exact Hw].
    intros d. unfold is_ascii_graphic, is_ascii. lia.
Qed.
Lemma words_step w r :
  w ≠ "" → str_forallb is_ascii_graphic w = true → str_forallb is_ascii r = true →
  words (chars (w +:+ " " +:+ r)) "" = w :: words (chars r) "".
Proof.
  intros Hne Hw Hr. rewrite words_graphic by done. rewrite str_app_cons, chars_ascii_cons by done.
  cbn [words]. by rewrite bool_decide_eq_false_2.
Qed.
Lemma words_last w : w ≠ "" → str_forallb is_ascii_graphic w = true → words (chars w) "" = [w].
Proof.
  intros Hne Hw. rewrite <-(str_app_nil_r w) at 1. rewrite words_graphic by done. simpl.
  change ("" +:+ w) with w. by rewrite bool_decide_eq_false_2.
Qed.

(** ** What is parsed *)
Definition plain_ok (min max : Z) (f : CronField) : Prop :=
  match f with
  | All => True
  | Single v => min ≤ v ≤ max
  | Range start end_ => min ≤ start ≤ end_ ∧ end_ ≤ max
  | ListOf values => values ≠ ∅ ∧ ∀ v, v ∈ values → min ≤ v ≤ max
  | Step _ _ => False
  end.
Definition field_ok (min max : Z) (f : CronField) : Prop :=
  match f with Step base step => plain_ok min max base ∧ 0 < step ≤ u32_max | _ => plain_ok min max f end.
Definition cron_ok (e : CronExpression) : Prop :=
  field_ok 0 59 (minute e) ∧ field_ok 0 23 (hour e) ∧ field_ok 1 31 (day_of_month e) ∧ field_ok 1 12 (month e) ∧
  field_ok 0 6 (day_of_week e).

Section parse.
(** Some order in which a hash set is walked. *)
Variable walk : gset Z → list Z.
Hypothesis walk_perm : ∀ s, walk s ≡ₚ elements s.
Implicit Types (min max : Z) (f : CronField).

Lemma parse_field_eq v min max :
  parse_field walk v min max =
  if bool_decide (v = "*") then Ok All
  else match split_once "/" v with
       | Some (base, step) =>
           step_val ← parse_or (parse_u32 step) ("Invalid step value: " +:+ step);
           if step_val =? 0 then cron_parsing "Step value cannot be zero"
           else base_field ← parse_field walk base min max; Ok (Step base_field step_val)
       | None => parse_plain_field walk v min max
       end.
Proof.
  unfold parse_field. cbn [parse_field_in]. destruct (bool_decide (v = "*")); [done|].
  destruct (split_once "/" v) as [[base step]|] eqn:Hs; [|done]. apply split_once_spec in Hs as [Hb ->].
  assert (String.length (base +:+ String "/" step) = S (String.length base + String.length step)) as ->.
  { clear. induction base as [|c b IH]; [done|]. rewrite str_app_cons. simpl. by rewrite IH. }
  destruct (parse_or _ _) as [s|e|]; [|done..]. unfold mbind, res_bind. destruct (s =? 0); [done|].
  cbn [parse_field_in]. by rewrite (split_once_lacks _ _ Hb).
Qed.

Lemma parse_values_ok parts xs : parse_values parts = Ok xs → length xs = length parts.
Proof.
  revert xs. induction parts as [|p parts IH]; intros xs; simpl; [by intros [= <-]|].
  destruct (parse_or _ _); [|done..]. unfold mbind, res_bind at 1. destruct (parse_values parts) as [ys| |]; [|done..].
  simpl. intros [= <-]. simpl. by rewrite (IH ys).
Qed.
Lemma find_out_none (values : gset Z) min max :
  List.find (λ v, (v <? min) || (max <? v)) (walk values) = None ↔ ∀ v, v ∈ values → min ≤ v ≤ max.
Proof.
  split.
  - intros H v Hv. assert (List.In v (walk values)) as Hin.
    { apply list_elem_of_In. rewrite walk_perm. by apply elem_of_elements. }
    pose proof (find_none _ _ H v Hin). simpl in *. lia.
  - intros H. destruct (List.find _ _) as [v|] eqn:Hf; [|done]. apply find_some in Hf as [Hin Hv].
    apply list_elem_of_In in Hin. rewrite walk_perm, elem_of_elements in Hin. specialize (H v Hin). lia.
Qed.
Lemma parse_plain_ok v min max f : parse_plain_field walk v min max = Ok f → plain_ok min max f.
Proof.
  unfold parse_plain_field. destruct (split_once "-" v) as [[a b]|].
  - unfold parse_range. destruct (parse_u32 a) as [x|]; [|done]. destruct (parse_u32 b) as [y|]; [|done].
    simpl. destruct (_ || _) eqn:H; [done|]. intros [= <-]. simpl. lia.
  - destruct (str_contains v ","); unfold parse_list, parse_single.
    + destruct (parse_values _) as [xs| |] eqn:Hx; [|done..]. unfold mbind, res_bind.
      destruct (List.find _ _) eqn:Hf; [done|]. intros [= <-]. pose proof (proj1 (find_out_none _ _ _) Hf). split; [|done].
      apply parse_values_ok in Hx. destruct (str_split_cons "," v) as (p & ps & Hs). rewrite Hs in Hx.
      destruct xs as [|x xs]; [done|]. simpl. set_solver.
    + destruct (parse_u32 v) as [x|]; [|done]. simpl. destruct (_ || _) eqn:H; [done|]. intros [= <-]. simpl. lia.
Qed.
(** A parsed field is in range; it is never a step of a step. *)
Lemma parse_field_ok v min max f : parse_field walk v min max = Ok f → field_ok min max f.
Proof.
  rewrite parse_field_eq. destruct (bool_decide (v = "*")); [by intros [= <-]|].
  destruct (split_once "/" v) as [[base step]|] eqn:Hs.
  - destruct (parse_u32 step) as [s|] eqn:Hp; [|done]. apply parse_u32_nonneg in Hp. unfold mbind, res_bind at 1. simpl.
    destruct (s =? 0) eqn:H0; [done|]. apply split_once_spec in Hs as [Hb ->].
    rewrite parse_field_eq, (split_once_lacks _ _ Hb). destruct (bool_decide (base = "*")).
    + intros [= <-]. simpl. lia.
    + destruct (parse_plain_field walk base min max) as [b| |] eqn:Hpl; [|done..]. intros [= <-].
      apply parse_plain_ok in Hpl. simpl. split; [done|lia].
  - intros H%parse_plain_ok. destruct f; done.
Qed.
Lemma parse_cron_ok s e : parse_cron walk s = Ok e → cron_ok e.
Proof.
  unfold parse_cron. destruct (split_whitespace s) as [|p0 [|p1 [|p2 [|p3 [|p4 []]]]]]; try done.
  repeat match goal with
  | |- context [parse_field walk ?p ?a ?b] =>
      let H := fresh in destruct (parse_field walk p a b) eqn:H; [apply parse_field_ok in H|done..];
      unfold mbind, res_bind at 1
  end.
  intros [= <-]. by repeat split.
Qed.

(** Parsing answers, whatever the text. *)
Lemma parse_or_answers {A} (o : option A) m : parse_or o m ≠ Panic.
Proof. by destruct o. Qed.
Lemma parse_values_answers parts : parse_values parts ≠ Panic.
Proof.
  induction parts as [|p parts IH]; [done|]. simpl. destruct (parse_u32 p); [|done]. simpl.
  by destruct (parse_values parts).
Qed.
Lemma parse_plain_answers v min max : parse_plain_field walk v min max ≠ Panic.
Proof.
  unfold parse_plain_field, parse_range, parse_list, parse_single. destruct (split_once "-" v) as [[a b]|].
  - destruct (parse_u32 a); [|done]. destruct (parse_u32 b); [|done]. simpl. by destruct (_ || _).
  - destruct (str_contains v ",").
    + pose proof (parse_values_answers (str_split "," v)). destruct (parse_values _); [|done..]. simpl. by destruct (List.find _ _).
    + destruct (parse_u32 v); [|done]. simpl. by destruct (_ || _).
Qed.
Lemma parse_field_answers v min max : parse_field walk v min max ≠ Panic.
Proof.
  rewrite parse_field_eq. destruct (bool_decide (v = "*")); [done|].
  destruct (split_once "/" v) as [[base step]|] eqn:Hs; [|apply parse_plain_answers].
  destruct (parse_u32 step) as [n|]; [|done]. simpl. destruct (n =? 0); [done|].
  apply split_once_spec in Hs as [Hb _]. rewrite parse_field_eq, (split_once_lacks _ _ Hb).
  destruct (bool_decide _); [done|]. pose proof (parse_plain_answers base min max).
  by destruct (parse_plain_field walk base min max).
Qed.
Lemma parse_cron_answers s : parse_cron walk s ≠ Panic.
Proof.
  unfold parse_cron. destruct (split_whitespace s) as [|p0 [|p1 [|p2 [|p3 [|p4 []]]]]]; try done.
  repeat match goal with
  | |- context [parse_field walk ?p ?a ?b] =>
      let H := fresh in pose proof (parse_field_answers p a b) as H; destruct (parse_field walk p a b); [|done..];
      unfold mbind, res_bind at 1
  end. done.
Qed.

(** ** What is written *)

(** A list of one value is written as the value. *)
Definition unlist (f : CronField) : CronField :=
  match f with
  | ListOf values => match elements values with [v] => Single v | _ => f end
  | _ => f
  end.
Definition reread (f : CronField) : CronField :=
  match f with Step base step => Step (unlist base) step | _ => unlist f end.

Lemma str_join_cons sep x y l : str_join sep (x :: y :: l) = x +:+ sep +:+ str_join sep (y :: l).
Proof. done. Qed.
Lemma str_split_join c l :
  l ≠ [] → Forall (λ x, lacks c x = true) l → str_split c (str_join (String c "") l) = l.
Proof.
  intros Hne Hl. induction Hl as [|x l Hx Hl IH]; [done|]. destruct l as [|y l]; [by apply str_split_lacks|].
  rewrite str_join_cons. change (String c "" +:+ ?r) with (String c r). rewrite str_split_app by done. by rewrite IH.
Qed.
Lemma str_join_forallb p sep l :
  str_forallb p sep = true → Forall (λ x, str_forallb p x = true) l → str_forallb p (str_join sep l) = true.
Proof.
  intros Hs Hl. induction Hl as [|x l Hx Hl IH]; [done|]. destruct l as [|y l]; [done|].
  by rewrite str_join_cons, !str_forallb_app, Hx, Hs, IH.
Qed.
Lemma parse_values_show l : Forall (λ v, 0 ≤ v ≤ u32_max) l → parse_values (map show_Z l) = Ok l.
Proof. induction 1 as [|v l Hv Hl IH]; [done|]. simpl. by rewrite parse_u32_show, IH by done. Qed.

Definition sorted_values (values : gset Z) : list Z := merge_sort Z.le (elements values).
Lemma sorted_values_perm values : sorted_values values ≡ₚ elements values.
Proof. apply merge_sort_Permutation. Qed.
Lemma elem_of_sorted v values : v ∈ sorted_values values ↔ v ∈ values.
Proof. by rewrite sorted_values_perm, elem_of_elements. Qed.
Lemma show_values_forallb p values :
  p ","%char = true → (∀ c, is_ascii_digit c = true → p c = true) → (∀ v, v ∈ values → 0 ≤ v) →
  str_forallb p (show_field (ListOf values)) = true.
Proof.
  intros Hc Hd Hv. apply str_join_forallb; [simpl; by rewrite Hc|]. apply Forall_map, Forall_forall.
  intros v Hin%elem_of_sorted. eapply str_forallb_impl; [exact Hd|]. auto using show_digits.
Qed.
(** What a field's text is made of: digits and, by its kind, some marks. *)
Lemma show_plain_forallb p min max f :
  0 ≤ min → plain_ok min max f → (∀ c, is_ascii_digit c = true → p c = true) →
  p ","%char = true → p "-"%char = true → p "*"%char = true → str_forallb p (show_field f) = true.
Proof.
  intros Hmin Hf Hd Hc Hm Ha.
  assert (∀ n, 0 ≤ n → str_forallb p (show_Z n) = true) as Hs.
  { intros n Hn. eapply str_forallb_impl; [exact Hd|]. by apply show_digits. }
  destruct f as [|v|a b|vs|]; simpl in Hf; try done.
  - simpl. by rewrite Ha.
  - apply Hs. lia.
  - simpl. rewrite !str_forallb_app, !Hs by lia. simpl. by rewrite Hm.
  - apply show_values_forallb; auto. intros v Hv. destruct Hf as [_ Hf]. specialize (Hf v Hv). lia.
Qed.

Lemma parse_show_single min max v :
  0 ≤ min → max ≤ u32_max → min ≤ v ≤ max →
  split_once "-" (show_Z v) = None ∧ str_contains (show_Z v) "," = false ∧
  parse_single (show_Z v) min max = Ok (Single v).
Proof.
  intros Hmin Hmax Hv. assert (str_forallb is_ascii_digit (show_Z v) = true) as Hd by (apply show_digits; lia).
  rewrite split_once_lacks, str_contains_lacks by by apply digits_lack.
  rewrite digits_lack by done. split; [done|split; [done|]]. unfold parse_single.
  rewrite parse_u32_show by lia. unfold mbind, res_bind, parse_or. by replace (_ || _) with false by lia.
Qed.
(** Two values or more. *)
Lemma parse_show_values min max values x y l :
  0 ≤ min → max ≤ u32_max → (∀ v, v ∈ values → min ≤ v ≤ max) → sorted_values values = x :: y :: l →
  let text := str_join "," (map show_Z (x :: y :: l)) in
  str_contains text "," = true ∧ parse_list walk text min max = Ok (ListOf values).
Proof.
  intros Hmin Hmax Hf Hl. cbv zeta. split.
  - rewrite str_contains_lacks. cbn [map]. rewrite str_join_cons. change ("," +:+ ?r) with (String "," r).
    unfold lacks. rewrite str_forallb_app. simpl. by rewrite andb_false_r.
  - assert (Forall (λ v, 0 ≤ v ≤ u32_max) (x :: y :: l)) as Hr.
    { apply Forall_forall. intros v Hv. rewrite <-Hl, elem_of_sorted in Hv. specialize (Hf v Hv). lia. }
    unfold parse_list. rewrite str_split_join; [|done|].
    2: { apply Forall_map. eapply Forall_impl; [exact Hr|]. intros v Hv. cbn in Hv. apply digits_lack; [done|].
         apply show_digits. lia. }
    rewrite parse_values_show by done. unfold mbind, res_bind.
    assert ((list_to_set (x :: y :: l) : gset Z) = values) as ->.
    { apply set_eq. intros v. by rewrite elem_of_list_to_set, <-Hl, elem_of_sorted. }
    by rewrite (proj2 (find_out_none values min max) Hf).
Qed.
Lemma parse_show_plain min max f :
  0 ≤ min → max ≤ u32_max → plain_ok min max f → f ≠ All →
  parse_plain_field walk (show_field f) min max = Ok (unlist f).
Proof.
  intros Hmin Hmax Hf Hne. unfold parse_plain_field. destruct f as [|v|a b|vs|]; simpl in Hf; try done.
  - simpl show_field. by destruct (parse_show_single min max v Hmin Hmax Hf) as (-> & -> & ->).
  - cbn [show_field]. change ("-" +:+ ?r) with (String "-" r).
    rewrite split_once_app by (apply digits_lack, show_digits; [done|lia]). unfold parse_range.
    rewrite !parse_u32_show by lia. unfold mbind, res_bind, parse_or. by replace (_ || _) with false by lia.
  - destruct Hf as [Hvs Hf].
    assert (split_once "-" (show_field (ListOf vs)) = None) as Hdash.
    { apply split_once_lacks, show_values_forallb; [done| |intros v Hv; specialize (Hf v Hv); lia].
      intros c Hc. apply negb_true_iff, Ascii.eqb_neq. by intros <-. }
    rewrite Hdash. simpl show_field. fold (sorted_values vs). pose proof (sorted_values_perm vs) as Hp. unfold unlist.
    destruct (sorted_values vs) as [|x [|y l]] eqn:Hl.
    + symmetry in Hp. apply Permutation_nil_r, elements_empty_iff in Hp. set_solver.
    + symmetry in Hp. apply Permutation_singleton_r in Hp as ->. simpl.
      assert (x ∈ vs) as Hx by (rewrite <-elem_of_sorted, Hl; by left).
      by destruct (parse_show_single min max x Hmin Hmax (Hf x Hx)) as (_ & -> & ->).
    + apply Permutation_length in Hp. destruct (parse_show_values min max vs x y l Hmin Hmax Hf Hl) as [-> ->].
      by destruct (elements vs) as [|u [|u' us]].
Qed.

Lemma parse_show_field min max f :
  0 ≤ min → max ≤ u32_max → field_ok min max f → parse_field walk (show_field f) min max = Ok (reread f).
Proof.
  intros Hmin Hmax Hf.
  assert (∀ g, plain_ok min max g → lacks "/" (show_field g) = true) as Hlacks.
  { intros g Hg. apply (show_plain_forallb _ min max); try done. intros c Hc.
    apply negb_true_iff, Ascii.eqb_neq. by intros <-. }
  assert (∀ g, plain_ok min max g → parse_field walk (show_field g) min max = Ok (unlist g)) as Hplain.
  { intros g Hg. rewrite parse_field_eq, (split_once_lacks _ _ (Hlacks g Hg)).
    destruct (bool_decide _) eqn:Hstar; [|apply parse_show_plain; try done; by intros ->].
    apply bool_decide_eq_true in Hstar. destruct g; try done; exfalso.
    all: match type of Hg with plain_ok _ _ ?g =>
           pose proof (parse_show_plain min max g Hmin Hmax Hg ltac:(done)) as Hq end; by rewrite Hstar in Hq. }
  destruct f as [|v|a b|vs|base step]; try by apply Hplain. destruct Hf as [Hb Hs].
  cbn [show_field]. change ("/" +:+ ?r) with (String "/" r).
  rewrite parse_field_eq, split_once_app by auto. rewrite bool_decide_eq_false_2.
  2: { intros H. pose proof (split_once_app "/" (show_field base) (show_Z step) (Hlacks base Hb)) as Hq.
       rewrite H in Hq. done. }
  rewrite parse_u32_show by lia. unfold mbind, res_bind at 1. simpl. replace (step =? 0) with false by lia.
  by rewrite (Hplain base Hb).
Qed.

(** A step over a list, which never matches, is the one text that can read back as something else. *)
Definition no_step_of_list (f : CronField) : Prop :=
  match f with Step (ListOf _) _ => False | _ => True end.
Lemma unlist_matches f v : field_matches (unlist f) v = field_matches f v.
Proof.
  destruct f as [| | |vs|]; try done. simpl. destruct (elements vs) as [|x [|y l]] eqn:Hels; [done| |done].
  simpl. assert (v ∈ vs ↔ v = x) as Hv by by rewrite <-elem_of_elements, Hels, list_elem_of_singleton.
  destruct (x =? v) eqn:Hx; symmetry; [apply bool_decide_eq_true_2|apply bool_decide_eq_false_2]; rewrite Hv; lia.
Qed.
Lemma reread_matches f v : no_step_of_list f → field_matches (reread f) v = field_matches f v.
Proof. destruct f as [| | | |b step]; intros Hf; try apply unlist_matches. by destruct b. Qed.

Definition reread_cron (e : CronExpression) : CronExpression :=
  mkCron (reread (minute e)) (reread (hour e)) (reread (day_of_month e)) (reread (month e)) (reread (day_of_week e)).
Lemma show_field_words min max f :
  0 ≤ min → field_ok min max f → show_field f ≠ "" ∧ str_forallb is_ascii_graphic (show_field f) = true.
Proof.
  intros Hmin Hf.
  assert (∀ c, is_ascii_digit c = true → is_ascii_graphic c = true) as Hd.
  { intros c Hc. apply alnum_graphic. unfold is_ascii_alnum. by rewrite Hc. }
  assert (∀ g, plain_ok min max g → str_forallb is_ascii_graphic (show_field g) = true) as Hg.
  { intros g Hg. by apply (show_plain_forallb _ min max). }
  assert (∀ n r, 0 ≤ n → show_Z n +:+ r ≠ "") as Hne.
  { intros n r Hn. destruct (show_Z_spec n Hn) as (_ & _ & c & s & ->). done. }
  split.
  - destruct f as [|v|a b|vs|base step]; simpl in Hf; simpl; try done.
    + rewrite <-(str_app_nil_r (show_Z v)). apply Hne. lia.
    + apply Hne. lia.
    + destruct Hf as [Hvs Hf]. fold (sorted_values vs). destruct (sorted_values vs) as [|x l] eqn:Hl.
      * pose proof (sorted_values_perm vs) as Hp. rewrite Hl in Hp. symmetry in Hp.
        apply Permutation_nil_r, elements_empty_iff in Hp. set_solver.
      * assert (0 ≤ x) by (assert (x ∈ vs) as Hx by (rewrite <-elem_of_sorted, Hl; by left); specialize (Hf x Hx); lia).
        destruct l as [|y l]; simpl; [rewrite <-(str_app_nil_r (show_Z x))|]; by apply Hne.
    + by destruct (show_field base).
  - destruct f as [| | | |base step]; try by apply Hg. destruct Hf as [Hb Hs]. simpl.
    rewrite !str_forallb_app, Hg by done. simpl. eapply str_forallb_impl; [exact Hd|]. apply show_digits. lia.
Qed.

(** an expression reads back from its text. Whatever text an expression was parsed from, its fields
    are in range; printed and parsed again it is itself, but that a list of one value has become the
    value; and unless it steps over a list, which matches nothing, it matches the same local times. *)
Theorem cron_round_trip (s : string) (e : CronExpression) :
  parse_cron walk s = Ok e →
  cron_ok e ∧ parse_cron walk (show_cron e) = Ok (reread_cron e) ∧
  (Forall no_step_of_list [minute e; hour e; day_of_month e; month e; day_of_week e] →
   ∀ l, local_matches (reread_cron e) l = local_matches e l).
Proof.
  intros H%parse_cron_ok. split; [done|]. destruct H as (H0 & H1 & H2 & H3 & H4). split.
  - unfold parse_cron, split_whitespace, show_cron.
    destruct (show_field_words 0 59 _ ltac:(lia) H0) as [N0 G0], (show_field_words 0 23 _ ltac:(lia) H1) as [N1 G1],
      (show_field_words 1 31 _ ltac:(lia) H2) as [N2 G2], (show_field_words 1 12 _ ltac:(lia) H3) as [N3 G3],
      (show_field_words 0 6 _ ltac:(lia) H4) as [N4 G4].
    assert (∀ w, str_forallb is_ascii_graphic w = true → str_forallb is_ascii w = true) as Ha.
    { intros w. apply str_forallb_impl. intros c. unfold is_ascii_graphic, is_ascii. lia. }
    assert (∀ w r, str_forallb is_ascii_graphic w = true → str_forallb is_ascii r = true →
      str_forallb is_ascii (w +:+ " " +:+ r) = true) as Hsp.
    { intros w r Hw Hr. by rewrite !str_forallb_app, (Ha w Hw), Hr. }
    rewrite !words_step, words_last by auto.
    rewrite !parse_show_field by (done || (unfold u32_max; lia)). done.
  - intros Hs l. repeat (apply Forall_cons_1 in Hs as [? Hs]). unfold local_matches, reread_cron. simpl.
    by rewrite !reread_matches.
Qed.
End parse.

(** ** The next times *)
Definition MINUTE : Z := 60 * 1000000000.
(** The start of the minute after [t]. *)
Definition next_minute (t : instant) : instant := (t / MINUTE + 1) * MINUTE.

Lemma next_minute_bounds t : t < next_minute t ≤ t + MINUTE.
Proof. unfold next_minute, MINUTE. pose proof (Z.div_mod t (60 * 1000000000)). pose proof (Z.mod_pos_bound t (60 * 1000000000)). lia. Qed.
Lemma next_minute_whole k : next_minute (k * MINUTE) = k * MINUTE + MINUTE.
Proof. unfold next_minute. rewrite Z.div_mul by done. lia. Qed.

Section next.
Context {TZ : TimeZones} {D : Durations} {DL : DurationLaws}.
Implicit Types (e : CronExpression) (tz : Tz) (t after : instant).

(** The calendar goes on for a while: no addition up to there is refused. *)
Definition calendar_reaches after upto : Prop :=
  ∀ t s, after ≤ t ≤ upto → 0 ≤ s ≤ 60 → plus_seconds t s ≠ Panic.

Lemma plus_seconds_ok after upto t s :
  calendar_reaches after upto → after ≤ t ≤ upto → 0 ≤ s ≤ 60 → plus_seconds t s = Ok (t + s * 1000000000).
Proof.
  intros Hc Ht Hs. specialize (Hc t s Ht Hs). revert Hc. unfold plus_seconds.
  destruct (duration_seconds s) as [d|] eqn:Hd; [|done]. simpl. apply duration_seconds_ok in Hd as ->.
  destruct (add_duration t _) as [t'|] eqn:Ha; [|done]. by apply add_duration_ok in Ha as ->.
Qed.

Lemma first_minute after :
  whole_second (after + (60 - second_of after) * 1000000000) = next_minute after.
Proof.
  unfold whole_second, second_of, next_minute, MINUTE. rewrite Z.div_add by done.
  assert (after / (60 * 1000000000) = after / 1000000000 / 60) as -> by by rewrite Z.div_div.
  pose proof (Z.div_mod (after / 1000000000) 60 ltac:(done)). lia.
Qed.

(** The first of the minutes searched that matches, or none. *)
Lemma search_next_spec n e tz t :
  calendar_reaches t (t + Z.of_nat n * MINUTE) →
  (∃ k, 0 ≤ k < Z.of_nat n ∧ search_next n e tz t = Ok (t + k * MINUTE) ∧ cron_matches e tz (t + k * MINUTE) = true ∧
     ∀ j, 0 ≤ j < k → cron_matches e tz (t + j * MINUTE) = false) ∨
  (search_next n e tz t = Err not_found ∧ ∀ k, 0 ≤ k < Z.of_nat n → cron_matches e tz (t + k * MINUTE) = false).
Proof.
  revert t. induction n as [|n IH]; intros t Hc; [right; split; [done|lia]|]. cbn [search_next].
  destruct (cron_matches e tz t) eqn:Hm.
  - left. exists 0. rewrite Z.mul_0_l, Z.add_0_r. repeat split; try done; lia.
  - rewrite (plus_seconds_ok _ _ t 60 Hc) by (unfold MINUTE; lia).
    change (t + 60 * 1000000000) with (t + MINUTE). unfold mbind, res_bind.
    destruct (IH (t + MINUTE)) as [(k & Hk & -> & Hmk & Hj)|[-> Hk]].
    + intros t' s Ht' Hs. apply Hc; [unfold MINUTE in *; lia|done].
    + left. exists (k + 1). replace (t + (k + 1) * MINUTE) with (t + MINUTE + k * MINUTE) by lia.
      repeat split; try done; try lia. intros j Hj'. destruct (decide (j = 0)) as [->|].
      * by rewrite Z.mul_0_l, Z.add_0_r.
      * replace (t + j * MINUTE) with (t + MINUTE + (j - 1) * MINUTE) by lia. apply Hj. lia.
    + right. split; [done|]. intros k Hk'. destruct (decide (k = 0)) as [->|].
      * by rewrite Z.mul_0_l, Z.add_0_r.
      * replace (t + k * MINUTE) with (t + MINUTE + (k - 1) * MINUTE) by lia. apply Hk. lia.
Qed.

Definition HORIZON : Z := (MAX_ATTEMPTS + 1) * MINUTE.
Lemma next_after_cases e after tz :
  calendar_reaches after (after + HORIZON) →
  (∃ k, 0 ≤ k < MAX_ATTEMPTS ∧ next_after e after tz = Ok (next_minute after + k * MINUTE) ∧
     cron_matches e tz (next_minute after + k * MINUTE) = true ∧
     ∀ j, 0 ≤ j < k → cron_matches e tz (next_minute after + j * MINUTE) = false) ∨
  (next_after e after tz = Err not_found ∧
   ∀ k, 0 ≤ k < MAX_ATTEMPTS → cron_matches e tz (next_minute after + k * MINUTE) = false).
Proof.
  intros Hc. unfold next_after. pose proof (Z.mod_pos_bound (after / 1000000000) 60 ltac:(done)).
  rewrite (plus_seconds_ok _ _ after _ Hc) by (unfold HORIZON, MAX_ATTEMPTS, MINUTE, second_of; lia).
  unfold mbind, res_bind. rewrite first_minute. pose proof (next_minute_bounds after).
  destruct (search_next_spec (Z.to_nat MAX_ATTEMPTS) e tz (next_minute after)) as [Hs|Hs].
  - rewrite Z2Nat.id by done. intros t s Ht Hs. apply Hc; [unfold HORIZON in *; lia|done].
  - left. rewrite Z2Nat.id in Hs by done. exact Hs.
  - right. rewrite Z2Nat.id in Hs by done. exact Hs.
Qed.

Definition whole_minute t : Prop := ∃ i, t = i * MINUTE.
(** The whole minutes after [t] are those the search tries. *)
Lemma minutes_after t m : whole_minute m → t < m → ∃ j, 0 ≤ j ∧ m = next_minute t + j * MINUTE.
Proof.
  intros [i ->] Ht. exists (i - (t / MINUTE + 1)). unfold next_minute. split; [|lia].
  assert (t / MINUTE < i); [|lia]. apply Z.div_lt_upper_bound; unfold MINUTE in *; lia.
Qed.

(** The next time is the first minute after the given one that matches. The answer is a whole minute,
    strictly later, that matches, and no whole minute before it does; when none of the hundred thousand
    minutes that follow matches (sixty-nine days), and only then, it is the error. *)
Lemma next_after_spec e after tz :
  calendar_reaches after (after + HORIZON) →
  match next_after e after tz with
  | Ok t =>
      after < t ≤ next_minute after + (MAX_ATTEMPTS - 1) * MINUTE ∧ whole_minute t ∧ cron_matches e tz t = true ∧
      ∀ m, whole_minute m → after < m < t → cron_matches e tz m = false
  | Err err =>
      err = not_found ∧
      ∀ m, whole_minute m → after < m < next_minute after + MAX_ATTEMPTS * MINUTE → cron_matches e tz m = false
  | Panic => False
  end.
Proof.
  intros Hc. pose proof (next_minute_bounds after) as Hb.
  destruct (next_after_cases e after tz Hc) as [(k & Hk & -> & Hm & Hj)|[-> Hn]].
  - split; [unfold MINUTE in *; lia|]. split; [unfold next_minute; exists (after / MINUTE + 1 + k); lia|].
    split; [done|]. intros m Hw Hlt. destruct (minutes_after after m Hw) as (j & Hj0 & ->); [lia|].
    apply Hj. unfold MINUTE in *. lia.
  - split; [done|]. intros m Hw Hlt. destruct (minutes_after after m Hw) as (j & Hj0 & ->); [lia|].
    apply Hn. unfold MINUTE in *. lia.
Qed.

(** The times at which a scheduler matches after [t], without a gap. *)
Definition next_times (c : CronScheduler) t (times : list instant) : Prop :=
  StronglySorted Z.lt times ∧
  (∀ m, m ∈ times → t < m ∧ whole_minute m ∧ scheduler_matches c m = true) ∧
  (∀ m u, u ∈ times → t < m ≤ u → whole_minute m → scheduler_matches c m = true → m ∈ times).

Lemma next_times_cons c t k x times :
  0 ≤ k → x = next_minute t + k * MINUTE → scheduler_matches c x = true →
  (∀ j, 0 ≤ j < k → scheduler_matches c (next_minute t + j * MINUTE) = false) →
  next_times c (x + 1000000000) times → next_times c t (x :: times).
Proof.
  intros Hk Hx Hm Hj (Hs & Hin & Hall). pose proof (next_minute_bounds t) as Hb.
  assert (whole_minute x) as Hw by (rewrite Hx; unfold next_minute; exists (t / MINUTE + 1 + k); lia).
  assert (∀ m, m ∈ times → x < m) as Hlt by (intros m Hm'; destruct (Hin m Hm'); lia).
  split; [|split].
  - constructor; [done|]. by apply Forall_forall.
  - intros m [->|Hm']%elem_of_cons; [|destruct (Hin m Hm') as (? & ? & ?)]; repeat split; try done; unfold MINUTE in *; lia.
  - intros m u Hu Hmu Hwm Hmm. destruct (Z.lt_trichotomy m x) as [Hlx|[->|Hgx]]; [|by left|].
    + destruct (minutes_after t m Hwm) as (j & Hj0 & ->); [lia|].
      rewrite Hj in Hmm; [done|]. unfold MINUTE in *. lia.
    + right. apply elem_of_cons in Hu as [->|Hu]; [lia|]. apply (Hall m u); try done.
      destruct Hw as [i ->], Hwm as [i' ->]. unfold MINUTE in *. split; [|lia].
      assert (i < i') by lia. lia.
Qed.

(** a list of next times is complete. Asked for [n] times, a scheduler answers [n] of them, in order,
    each a whole minute that matches, and leaves out no matching minute before the last; or it is the
    search's error, and there is a gap of a hundred thousand minutes without a match. *)
Theorem next_n_after_spec (c : CronScheduler) (t : instant) (n : nat) :
  calendar_reaches t (t + Z.of_nat n * (HORIZON + MINUTE)) →
  match next_n_after c t n with
  | Ok times => length times = n ∧ next_times c t times
  | Err err =>
      err = not_found ∧ ∃ t', t ≤ t' ∧ ∀ m, whole_minute m → t' < m < t' + MAX_ATTEMPTS * MINUTE → scheduler_matches c m = false
  | Panic => False
  end.
Proof.
  revert t. induction n as [|n IH]; intros t Hc; cbn [next_n_after].
  { split; [done|]. split; [constructor|]. split; intros; set_solver. }
  assert (calendar_reaches t (t + HORIZON)) as Hc1.
  { intros t' s Ht' Hs. apply Hc; [unfold HORIZON, MAX_ATTEMPTS, MINUTE in *; lia|done]. }
  pose proof (next_minute_bounds t) as Hb. unfold scheduler_next_after.
  destruct (next_after_cases (cs_expression c) t (cs_timezone c) Hc1) as [(k & Hk & -> & Hm & Hj)|[-> Hn]].
  - set (x := next_minute t + k * MINUTE) in *. unfold mbind, res_bind.
    assert (t < x < t + HORIZON) as Hx by (unfold x, HORIZON, MAX_ATTEMPTS, MINUTE in *; lia).
    rewrite (plus_seconds_ok _ _ x 1 Hc1) by lia. change (1 * 1000000000) with 1000000000.
    specialize (IH (x + 1000000000)). destruct (next_n_after c (x + 1000000000) n) as [times|err|].
    + destruct IH as [Hlen Ht]; [intros t' s Ht' Hs; apply Hc; [unfold HORIZON, MAX_ATTEMPTS, MINUTE in *; lia|done]|].
      split; [simpl; by rewrite Hlen|]. apply (next_times_cons c t k x); try done; lia.
    + destruct IH as [-> (t' & Ht' & Hg)]; [intros t' s Ht' Hs; apply Hc; [unfold HORIZON, MAX_ATTEMPTS, MINUTE in *; lia|done]|].
      split; [done|]. exists t'. split; [lia|done].
    + apply IH. intros t' s Ht' Hs; apply Hc; [unfold HORIZON, MAX_ATTEMPTS, MINUTE in *; lia|done].
  - simpl. split; [done|]. exists t. split; [done|]. intros m Hw Hlt.
    destruct (minutes_after t m Hw) as (j & Hj0 & ->); [lia|]. apply Hn. unfold MINUTE, MAX_ATTEMPTS in *. lia.
Qed.
End next.

(** ** In UTC *)
Module CronExample.
(** The civil date of a day counted from the epoch. *)
Definition civil_of_day (z : Z) : Z * Z :=
  let z := z + 719468 in
  let doe := z mod 146097 in
  let yoe := (doe - doe / 1460 + doe / 36524 - doe / 146096) / 365 in
  let doy := doe - (365 * yoe + yoe / 4 - yoe / 100) in
  let mp := (5 * doy + 2) / 153 in
  (if mp <? 10 then mp + 3 else mp - 9, doy - (153 * mp + 2) / 5 + 1).
Definition utc_local (t : instant) : LocalTime :=
  let s := t / 1000000000 in
  let day := s / 86400 in
  let '(m, d) := civil_of_day day in
  mkLocal (s / 60 mod 60) (s / 3600 mod 24) d m ((day + 4) mod 7).
#[local] Instance utc_zones : TimeZones := {|
  Tz := unit;
  parse_tz name := if bool_decide (name = "UTC") then Some tt else None;
  with_timezone _ t := utc_local t;
|}.
Definition utc : Tz := tt.
#[export] Instance all_durations : Durations := {|
  duration_seconds s := Some (s * 1000000000); duration_days n := Some (n * 86400 * 1000000000);
  add_duration t d := Some (t + d); sub_duration t d := Some (t - d) |}.
#[export] Instance all_durations_laws : DurationLaws.
Proof. split; [intros s d|intros s d|intros t d t'|intros t d t']; by intros [= <-]. Qed.
Lemma calendar_endless after upto : calendar_reaches after upto.
Proof. by intros t s _ _. Qed.

(** 2024-01-01 10:15:20 UTC, a Monday. *)
Definition start : instant := 1704104120 * 1000000000.
Definition every_half_hour : CronExpression := mkCron (Step All 30) All All All All.
Definition new_year : CronExpression := mkCron (Single 0) (Single 0) (Single 1) (Single 1) All.

Example utc_ex : utc_local start = mkLocal 15 10 1 1 1.
Proof. reflexivity. Qed.
Example half_hours :
  next_n_after (mkCronScheduler every_half_hour utc) start 3 =
    Ok [(1704105000 * 1000000000); (1704106800 * 1000000000); (1704108600 * 1000000000)].
Proof. vm_compute. reflexivity. Qed.

Definition listed : CronExpression :=
  mkCron (ListOf {[0; 30]}) (Step (Range 9 17) 2) (ListOf {[5]}) All (Step All 7).
Lemma listed_text : parse_cron elements "0,30,0 9-17/2 5,5 * */7" = Ok listed ∧ show_cron listed = "0,30 9-17/2 5 * */7".
Proof. vm_compute. split; reflexivity. Qed.
Lemma cron_round_trip_witness : parse_cron elements "0,30 9-17/2 5 * */7" = Ok (reread_cron listed).
Proof.
  destruct (cron_round_trip elements ltac:(reflexivity) _ listed (proj1 listed_text)) as (_ & H & _).
  rewrite (proj2 listed_text) in H. exact H.
Defined.

(** A step over a list matches nothing, and its text may read as a step over a value. *)
Example step_of_list :
  parse_cron elements "5,5/2 * * * *" = Ok (mkCron (Step (ListOf {[5]}) 2) All All All All) ∧
  show_cron (mkCron (Step (ListOf {[5]}) 2) All All All All) = "5/2 * * * *" ∧
  field_matches (Step (ListOf {[5]}) 2) 5 = false ∧ field_matches (reread (Step (ListOf {[5]}) 2)) 5 = true.
Proof. vm_compute. repeat split; reflexivity. Qed.

Lemma next_after_spec_witness :
  next_after every_half_hour start utc = Ok (1704105000 * 1000000000) ∧
  ∀ m, whole_minute m → start < m < 1704105000 * 1000000000 → cron_matches every_half_hour utc m = false.
Proof.
  assert (next_after every_half_hour start utc = Ok (1704105000 * 1000000000)) as Hn by (vm_compute; reflexivity).
  split; [exact Hn|]. pose proof (next_after_spec every_half_hour start utc (calendar_endless _ _)) as H.
  rewrite Hn in H. apply H.
Defined.

(** What runs once a year is found in the sixty-nine days before it only: not on 1 February 2024. *)
Definition february : instant := 1706745600 * 1000000000.
Lemma february_to_april t :
  february < t < february + 70 * 1440 * MINUTE → lt_month (utc_local t) ≠ 1.
Proof.
  intros Ht. unfold utc_local. set (day := t / 1000000000 / 86400).
  assert (19754 ≤ day < 19754 + 70) as Hd.
  { unfold day. rewrite Z.div_div by done. unfold february, MINUTE in Ht.
    split; [apply Z.div_le_lower_bound; lia|apply Z.div_lt_upper_bound; lia]. }
  assert (forallb (λ d, negb ((civil_of_day d).1 =? 1)) (seqZ 19754 70) = true) as Hall by (vm_compute; reflexivity).
  rewrite forallb_forall in Hall. specialize (Hall day). rewrite <-list_elem_of_In, elem_of_seqZ in Hall.
  specialize (Hall Hd). destruct (civil_of_day day) as [m d]. simpl in *. lia.
Qed.
Example new_year_not_found : next_after new_year february utc = Err not_found.
Proof.
  pose proof (next_after_spec new_year february utc (calendar_endless _ _)) as H.
  destruct (next_after new_year february utc) as [t|err|]; [|by destruct H as [-> _]|done].
  destruct H as (Ht & _ & Hm & _). exfalso. apply (february_to_april t).
  - pose proof (next_minute_bounds february). unfold MAX_ATTEMPTS, MINUTE in *. lia.
  - unfold cron_matches, local_matches in Hm. rewrite !andb_true_iff in Hm. destruct Hm as [[_ Hm] _].
    symmetry. apply Z.eqb_eq, Hm.
Qed.

Lemma next_n_after_spec_witness :
  next_times (mkCronScheduler every_half_hour utc) start
    [(1704105000 * 1000000000); (1704106800 * 1000000000); (1704108600 * 1000000000)].
Proof.
  pose proof (next_n_after_spec (mkCronScheduler every_half_hour utc) start 3 (calendar_endless _ _)) as H.
  rewrite half_hours in H. apply H.
Defined.
End CronExample.
