(* ===== verification/Job.v ===== *)
(** * Jobs and their storage

    [backbone-jobs/src/job.rs]: a job, its builder and its changes of status; [job_storage/mod.rs], what
    a store of jobs does, as a class; [job_storage/in_memory.rs], the one in memory. The clock is the
    world's; an overflow of a [u32] panics or wraps as the build says. The other store, Postgres through
    sqlx, is left out. *)
From Stdlib Require Import ZArith Lia Ascii.
From S2P Require Import Prelude Float64 RustStr RustChar Json Database JobTypes Cron.

Local Open Scope Z_scope.

(** ** [job.rs] *)
Section job.
Context {U : Unicode} {L : Libs}.

Record Job := mkJob {
  j_id : string; j_name : string; j_description : option string; j_cron_expression : string; j_timezone : string;
  j_queue : string; j_payload : Value; j_status : JobStatus; j_priority : JobPriority; j_timeout : Z;
  j_max_attempts : Z; j_retry_policy : RetryPolicy; j_metadata : gmap string string; j_created_at : instant;
  j_updated_at : instant; j_last_run_time : option instant; j_next_run_time : option instant; j_run_count : Z;
  j_success_count : Z; j_failure_count : Z }.

(** A job with fields written. *)
Definition put_status (s : JobStatus) (now : instant) (j : Job) : Job :=
  mkJob (j_id j) (j_name j) (j_description j) (j_cron_expression j) (j_timezone j) (j_queue j) (j_payload j) s
    (j_priority j) (j_timeout j) (j_max_attempts j) (j_retry_policy j) (j_metadata j) (j_created_at j) now
    (j_last_run_time j) (j_next_run_time j) (j_run_count j) (j_success_count j) (j_failure_count j).
Definition put_ran (s : JobStatus) (ran now : instant) (runs successes failures : Z) (j : Job) : Job :=
  mkJob (j_id j) (j_name j) (j_description j) (j_cron_expression j) (j_timezone j) (j_queue j) (j_payload j) s
    (j_priority j) (j_timeout j) (j_max_attempts j) (j_retry_policy j) (j_metadata j) (j_created_at j) now (Some
    ran) (j_next_run_time j) runs successes failures.
Definition put_next_run (next : option instant) (j : Job) : Job :=
  mkJob (j_id j) (j_name j) (j_description j) (j_cron_expression j) (j_timezone j) (j_queue j) (j_payload j)
    (j_status j) (j_priority j) (j_timeout j) (j_max_attempts j) (j_retry_policy j) (j_metadata j) (j_created_at
    j) (j_updated_at j) (j_last_run_time j) next (j_run_count j) (j_success_count j) (j_failure_count j).
Definition put_updated_at (now : instant) (j : Job) : Job :=
  mkJob (j_id j) (j_name j) (j_description j) (j_cron_expression j) (j_timezone j) (j_queue j) (j_payload j)
    (j_status j) (j_priority j) (j_timeout j) (j_max_attempts j) (j_retry_policy j) (j_metadata j) (j_created_at
    j) now (j_last_run_time j) (j_next_run_time j) (j_run_count j) (j_success_count j) (j_failure_count j).
Definition put_metadata (m : gmap string string) (j : Job) : Job :=
  mkJob (j_id j) (j_name j) (j_description j) (j_cron_expression j) (j_timezone j) (j_queue j) (j_payload j)
    (j_status j) (j_priority j) (j_timeout j) (j_max_attempts j) (j_retry_policy j) m (j_created_at j)
    (j_updated_at j) (j_last_run_time j) (j_next_run_time j) (j_run_count j) (j_success_count j)
    (j_failure_count j).
Definition put_settings (description : option string) (timezone : string) (priority : JobPriority) (timeout max_attempts : Z)
    (retry_policy : RetryPolicy) (m : gmap string string) (j : Job) : Job :=
  mkJob (j_id j) (j_name j) description (j_cron_expression j) timezone (j_queue j) (j_payload j) (j_status j)
    priority timeout max_attempts retry_policy m (j_created_at j) (j_updated_at j) (j_last_run_time j)
    (j_next_run_time j) (j_run_count j) (j_success_count j) (j_failure_count j).

Definition job_new (now : instant) (id name cron_expression queue : string) (payload : Value) : Job :=
  mkJob id name None cron_expression "UTC" queue payload Scheduled Normal 300 5 policy_default ∅ now now None None
    0 0 0.

Definition is_scheduled (j : Job) : bool := bool_decide (j_status j = Scheduled).
Definition is_running (j : Job) : bool := bool_decide (j_status j = Running).
Definition is_ready_to_run (now : instant) (j : Job) : bool :=
  is_scheduled j && match j_next_run_time j with Some next_run => next_run <=? now | None => false end.
Definition can_retry (j : Job) : bool :=
  bool_decide (j_status j = Failed) && (j_failure_count j <? j_max_attempts j).
Definition success_rate (j : Job) : f64 :=
  if j_run_count j =? 0 then f64_zero
  else f64_mul (f64_div (f64_of_Z (j_success_count j)) (f64_of_Z (j_run_count j))) (f64_of_Z 100).

Definition validate (j : Job) : res JobError unit :=
  if bool_decide (j_cron_expression j = "") then Err (Validation "Cron expression cannot be empty")
  else if negb (Nat.eqb (length (split_whitespace (j_cron_expression j))) 5) then
    Err (Validation "Cron expression must have exactly 5 fields")
  else if bool_decide (j_queue j = "") then Err (Validation "Queue name cannot be empty")
  else if j_timeout j =? 0 then Err (Validation "Timeout must be greater than 0")
  else if j_max_attempts j =? 0 then Err (Validation "Max attempts must be greater than 0")
  else Ok tt.

Definition bad_transition {A} (j : Job) (target : string) : res JobError A :=
  Err (InvalidStatusTransition (status_text (j_status j)) target).

Section changes.
Context {T W : Type} {HW : World W}.
Variable overflow_checks : bool.
#[local] Abbreviation Mo := (sm (St T W) JobError).

(** [n += 1] of a [u32] *)
Definition u32_incr (n : Z) : Mo Z := sm_lift (or_panic (checked_incr overflow_checks u32_max n)).

Definition mark_as_running (j : Job) : Mo Job :=
  if bool_decide (j_status j ≠ Scheduled) then sm_lift (bad_transition j "running")
  else now ← utc_now; mret (put_status Running now j).
Definition mark_as_completed (j : Job) : Mo Job :=
  if bool_decide (j_status j ≠ Running) then sm_lift (bad_transition j "completed")
  else
    ran ← utc_now;
    now ← utc_now;
    runs ← u32_incr (j_run_count j);
    successes ← u32_incr (j_success_count j);
    mret (put_ran Completed ran now runs successes (j_failure_count j) j).
Definition mark_as_failed (j : Job) : Mo Job :=
  if bool_decide (j_status j ≠ Running) then sm_lift (bad_transition j "failed")
  else
    ran ← utc_now;
    now ← utc_now;
    runs ← u32_incr (j_run_count j);
    failures ← u32_incr (j_failure_count j);
    mret (put_ran Failed ran now runs (j_success_count j) failures j).
Definition reset_for_retry (j : Job) : Mo Job :=
  if bool_decide (j_status j ∈ [Failed; Completed]) then now ← utc_now; mret (put_status Scheduled now j)
  else sm_lift (bad_transition j "scheduled").
Definition job_cancel (j : Job) : Mo Job :=
  if bool_decide (j_status j ∈ [Completed; Cancelled]) then sm_lift (bad_transition j "cancelled")
  else now ← utc_now; mret (put_status Cancelled now j).
Definition job_pause (j : Job) : Mo Job :=
  if bool_decide (j_status j ∈ [Completed; Cancelled]) then sm_lift (bad_transition j "paused")
  else now ← utc_now; mret (put_status Paused now j).
Definition job_resume (j : Job) : Mo Job :=
  if bool_decide (j_status j ≠ Paused) then sm_lift (bad_transition j "scheduled")
  else now ← utc_now; mret (put_status Scheduled now j).
Definition set_next_run_time (next_run : instant) (j : Job) : Mo Job :=
  now ← utc_now; mret (put_updated_at now (put_next_run (Some next_run) j)).
Definition add_metadata (key value : string) (j : Job) : Mo Job :=
  now ← utc_now; mret (put_updated_at now (put_metadata (<[key:=value]> (j_metadata j)) j)).
End changes.
Definition get_metadata (key : string) (j : Job) : option string := j_metadata j !! key.

(** *** The builder; an id not given is a new uuid, [fresh]. *)
Record JobBuilder := mkBuilder {
  b_id : option string; b_name : string; b_description : option string; b_cron_expression : string;
  b_timezone : string; b_queue : string; b_payload : Value; b_priority : JobPriority; b_timeout : Z;
  b_max_attempts : Z; b_retry_policy : RetryPolicy; b_metadata : gmap string string }.
Definition builder_new : JobBuilder :=
  mkBuilder None "" None "" "UTC" "" VNull Normal 300 5 policy_default ∅.
Definition build (now : instant) (fresh : string) (b : JobBuilder) : res JobError Job :=
  let job := job_new now (default fresh (b_id b)) (b_name b) (b_cron_expression b) (b_queue b) (b_payload b) in
  let job := put_settings (b_description b) (b_timezone b) (b_priority b) (b_timeout b) (b_max_attempts b)
    (b_retry_policy b) (b_metadata b) job in
  _ ← validate job;
  Ok job.

(** ** [job_storage/mod.rs] *)
Record JobStatistics := mkStats {
  s_total_jobs : Z; s_jobs_by_status : gmap string Z; s_jobs_by_priority : gmap string Z;
  s_avg_execution_time : f64; s_success_rate : f64; s_jobs_last_24h : Z; s_failed_jobs_last_24h : Z;
  s_uptime_seconds : Z; s_active_workers : Z; s_queued_jobs : Z }.
Definition stats_default : JobStatistics := mkStats 0 ∅ ∅ f64_zero f64_zero 0 0 0 0 0.

(** Every method may fail as its author sees fit. *)
Class JobStorage (S W : Type) := {
  create_job : Job → sm (St S W) JobError unit;
  update_job : Job → sm (St S W) JobError unit;
  get_job : string → sm (St S W) JobError (option Job);
  delete_job : string → sm (St S W) JobError unit;
  list_jobs : sm (St S W) JobError (list Job);
  list_jobs_by_status : JobStatus → sm (St S W) JobError (list Job);
  get_pending_jobs : instant → sm (St S W) JobError (list Job);
  update_job_status : string → JobStatus → sm (St S W) JobError unit;
  update_next_run_time : string → instant → sm (St S W) JobError unit;
  record_execution_attempt : string → JobExecutionAttempt → sm (St S W) JobError unit;
  get_execution_history : string → option Z → sm (St S W) JobError (list JobExecutionAttempt);
  storage_statistics : sm (St S W) JobError JobStatistics;
  cleanup_attempts : instant → sm (St S W) JobError Z;
}.

(** ** [job_storage/in_memory.rs] *)
Record JobStore := mkStore { jobs : gmap string Job; execution_history : gmap string (list JobExecutionAttempt) }.
Definition store_new : JobStore := mkStore ∅ ∅.

Section in_memory.
Context {HI : HashIter} {W : Type} {HW : World W}.
#[local] Abbreviation Mo := (sm (St JobStore W) JobError).

Definition store_read {A} (f : JobStore → A) : Mo A := λ s, (Ok (f (tables s)), s).
Definition store_write (f : JobStore → JobStore) : Mo unit := λ s, (Ok tt, mkSt (f (tables s)) (world s)).
Definition put_job (id : string) (j : Job) (t : JobStore) : JobStore :=
  mkStore (<[id:=j]> (jobs t)) (execution_history t).
Definition job_values (t : JobStore) : list Job := (hash_iter (jobs t)).*2.

Definition mem_create_job (j : Job) : Mo unit :=
  found ← store_read (λ t, jobs t !! j_id j);
  match found with
  | Some _ => sm_err (JobAlreadyExists (j_id j))
  | None => store_write (put_job (j_id j) j)
  end.
Definition mem_update_job (j : Job) : Mo unit :=
  found ← store_read (λ t, jobs t !! j_id j);
  match found with
  | None => sm_err (JobNotFound (j_id j))
  | Some _ => store_write (put_job (j_id j) j)
  end.
Definition mem_get_job (id : string) : Mo (option Job) := store_read (λ t, jobs t !! id).
Definition mem_delete_job (id : string) : Mo unit :=
  found ← store_read (λ t, jobs t !! id);
  match found with
  | Some _ => store_write (λ t, mkStore (delete id (jobs t)) (delete id (execution_history t)))
  | None => sm_err (JobNotFound id)
  end.
Definition mem_list_jobs : Mo (list Job) := store_read job_values.
Definition mem_list_jobs_by_status (s : JobStatus) : Mo (list Job) :=
  store_read (λ t, List.filter (λ j, bool_decide (j_status j = s)) (job_values t)).
Definition is_pending (before : instant) (j : Job) : bool :=
  is_scheduled j && match j_next_run_time j with Some next => next <=? before | None => false end.
Definition mem_get_pending_jobs (before : instant) : Mo (list Job) :=
  store_read (λ t, List.filter (is_pending before) (job_values t)).
Definition mem_update_job_status (id : string) (s : JobStatus) : Mo unit :=
  found ← store_read (λ t, jobs t !! id);
  match found with
  | Some j => now ← utc_now; store_write (put_job id (put_status s now j))
  | None => sm_err (JobNotFound id)
  end.
Definition mem_update_next_run_time (id : string) (next_run : instant) : Mo unit :=
  found ← store_read (λ t, jobs t !! id);
  match found with
  | Some j => now ← utc_now; store_write (put_job id (put_updated_at now (put_next_run (Some next_run) j)))
  | None => sm_err (JobNotFound id)
  end.

Definition history_of (id : string) (t : JobStore) : list JobExecutionAttempt := default [] (execution_history t !! id).
Definition mem_record_execution_attempt (id : string) (a : JobExecutionAttempt) : Mo unit :=
  store_write (λ t, mkStore (jobs t) (<[id:=history_of id t ++ [a]]> (execution_history t))).
Definition mem_get_execution_history (id : string) (limit : option Z) : Mo (list JobExecutionAttempt) :=
  store_read (λ t,
    let newest_first := reverse (history_of id t) in
    match limit with Some n => take (Z.to_nat n) newest_first | None => newest_first end).

Definition count_key (k : string) (m : gmap string Z) : gmap string Z := <[k:=default 0 (m !! k) + 1]> m.
Definition count_where (p : Job → bool) (l : list Job) : Z := Z.of_nat (length (List.filter p l)).
Definition has_status (s : JobStatus) (j : Job) : bool := bool_decide (j_status j = s).
Definition store_stats (t : JobStore) : JobStatistics :=
  let l := job_values t in
  let total_successes := count_where (has_status Completed) l in
  let total_runs := count_where (λ j, has_status Completed j || has_status Failed j) l in
  let times := map (λ a, f64_of_Z (at_duration_seconds a))
    (List.filter (λ a, is_success (at_result a)) (concat (hash_iter (execution_history t)).*2)) in
  mkStats (Z.of_nat (size (jobs t)))
    (foldl (λ m j, count_key (status_text (j_status j)) m) ∅ l)
    (foldl (λ m j, count_key (priority_text (j_priority j)) m) ∅ l)
    (match times with
     | [] => f64_zero
     | _ => f64_div (foldl f64_add f64_zero times) (f64_of_Z (Z.of_nat (length times)))
     end)
    (if 0 <? total_runs then f64_mul (f64_div (f64_of_Z total_successes) (f64_of_Z total_runs)) (f64_of_Z 100) else f64_zero)
    0 0 0 0 0.
Definition mem_statistics : Mo JobStatistics := store_read store_stats.

(** [attempts.retain(..)], and what is added up over the values. *)
Definition recent (older_than : instant) (l : list JobExecutionAttempt) : list JobExecutionAttempt :=
  List.filter (λ a, older_than <=? at_started_at a) l.
Definition mem_cleanup_attempts (older_than : instant) : Mo Z :=
  _ ← store_write (λ t, mkStore (jobs t) (recent older_than <$> execution_history t));
  store_read (λ t, Z.of_nat (length (concat (hash_iter (execution_history t)).*2))).

#[export] Instance InMemoryJobStorage : JobStorage JobStore W := {|
  create_job := mem_create_job; update_job := mem_update_job; get_job := mem_get_job; delete_job := mem_delete_job;
  list_jobs := mem_list_jobs; list_jobs_by_status := mem_list_jobs_by_status; get_pending_jobs := mem_get_pending_jobs;
  update_job_status := mem_update_job_status; update_next_run_time := mem_update_next_run_time;
  record_execution_attempt := mem_record_execution_attempt; get_execution_history := mem_get_execution_history;
  storage_statistics := mem_statistics; cleanup_attempts := mem_cleanup_attempts |}.
End in_memory.
End job.
