(* ===== verification/QueueMessage.v ===== *)
(** * Queue messages

    [backbone-queue/src/types.rs] and the error, configuration and statistics of [lib.rs]: a message, its
    builder and its marks. Headers ([HashMap<String, Value>]) and attributes are finite maps; the size
    of a serialized message is left out. *)
From Stdlib Require Import ZArith Lia Ascii.
From S2P Require Import Prelude Float64 RustStr RustChar Json Database JobTypes.

Local Open Scope Z_scope.

(** ** [lib.rs] *)
Inductive QueueError :=
  | RedisConnection (m : string) | RedisOperation (m : string) | SqsError (m : string) | QSerialization (m : string)
  | Deserialization (m : string) | MessageTooLarge (size max : Z) | InvalidQueueName (m : string)
  | InvalidMessageId (m : string) | QueueNotFound (m : string) | NotFound (m : string) | ConfigError (m : string)
  | NetworkError (m : string) | ConnectionError (m : string) | PublishError (m : string) | ConsumerError (m : string)
  | Other (m : string).

Definition queue_error_text (e : QueueError) : string :=
  match e with
  | RedisConnection m => "Redis connection error: " +:+ m
  | RedisOperation m => "Redis operation error: " +:+ m
  | SqsError m => "AWS SQS error: " +:+ m
  | QSerialization m => "Message serialization error: " +:+ m
  | Deserialization m => "Message deserialization error: " +:+ m
  | MessageTooLarge size max => "Message too large: " +:+ show_Z size +:+ " bytes (max: " +:+ show_Z max +:+ " bytes)"
  | InvalidQueueName m => "Invalid queue name: " +:+ m
  | InvalidMessageId m => "Invalid message ID: " +:+ m
  | QueueNotFound m => "Queue not found: " +:+ m
  | NotFound m => "Resource not found: " +:+ m
  | ConfigError m => "Configuration error: " +:+ m
  | NetworkError m => "Network error: " +:+ m
  | ConnectionError m => "Connection error: " +:+ m
  | PublishError m => "Publish error: " +:+ m
  | ConsumerError m => "Consumer error: " +:+ m
  | Other m => "Queue error: " +:+ m
  end.

Definition DEFAULT_VISIBILITY_TIMEOUT : Z := 30.
Definition DEFAULT_MAX_RECEIVE_COUNT : Z := 5.

(** What of the statistics the services here touch. *)
Record QueueStats := mkQStats {
  qs_total_messages : Z; qs_visible_messages : Z; qs_invisible_messages : Z; qs_total_processed : Z; qs_total_failed : Z }.
Definition queue_success_rate (s : QueueStats) : f64 :=
  let total := qs_total_processed s + qs_total_failed s in
  if 0 <? total then f64_div (f64_of_Z (qs_total_processed s)) (f64_of_Z total) else f64_zero.
Definition queue_failure_rate (s : QueueStats) : f64 := f64_sub (f64_of_Z 1) (queue_success_rate s).

(** ** [types.rs] *)
Inductive QueuePriority := QLow | QNormal | QHigh | QCritical.
Definition priority_value (p : QueuePriority) : Z :=
  match p with QLow => 1 | QNormal => 5 | QHigh => 10 | QCritical => 20 end.
Definition priority_of_i32 (v : Z) : QueuePriority :=
  if v =? 1 then QLow else if v =? 5 then QNormal else if v =? 10 then QHigh else if v =? 20 then QCritical else QNormal.
Inductive MessageStatus := MPending | MProcessing | MAcknowledged | MFailed | MDeadLettered | MDeleted.
#[export] Instance message_status_eq_dec : EqDecision MessageStatus.
Proof. solve_decision. Defined.

Section message.
Context {L : Libs}.

Record QueueMessage := mkMessage {
  m_id : string; m_payload : Value; m_priority : QueuePriority; m_receive_count : Z; m_max_receive_count : Z;
  m_enqueued_at : instant; m_created_at : instant; m_visible_at : instant; m_expires_at : option instant;
  m_visibility_timeout : Z; m_status : MessageStatus; m_delay_seconds : option Z; m_attributes : gmap string string;
  m_headers : gmap string Value; m_message_group_id : option string; m_message_deduplication_id : option string;
  m_routing_key : option string; m_compressed : bool; m_original_size : option Z }.

(** A message with fields written. *)
Definition with_message_id (id : string) (m : QueueMessage) : QueueMessage :=
  mkMessage id (m_payload m) (m_priority m) (m_receive_count m) (m_max_receive_count m) (m_enqueued_at m)
    (m_created_at m) (m_visible_at m) (m_expires_at m) (m_visibility_timeout m) (m_status m) (m_delay_seconds m)
    (m_attributes m) (m_headers m) (m_message_group_id m) (m_message_deduplication_id m) (m_routing_key m)
    (m_compressed m) (m_original_size m).
Definition with_payload (p : Value) (m : QueueMessage) : QueueMessage :=
  mkMessage (m_id m) p (m_priority m) (m_receive_count m) (m_max_receive_count m) (m_enqueued_at m)
    (m_created_at m) (m_visible_at m) (m_expires_at m) (m_visibility_timeout m) (m_status m) (m_delay_seconds m)
    (m_attributes m) (m_headers m) (m_message_group_id m) (m_message_deduplication_id m) (m_routing_key m)
    (m_compressed m) (m_original_size m).
Definition with_priority (p : QueuePriority) (m : QueueMessage) : QueueMessage :=
  mkMessage (m_id m) (m_payload m) p (m_receive_count m) (m_max_receive_count m) (m_enqueued_at m) (m_created_at
    m) (m_visible_at m) (m_expires_at m) (m_visibility_timeout m) (m_status m) (m_delay_seconds m) (m_attributes
    m) (m_headers m) (m_message_group_id m) (m_message_deduplication_id m) (m_routing_key m) (m_compressed m)
    (m_original_size m).
Definition with_max_receive_count (n : Z) (m : QueueMessage) : QueueMessage :=
  mkMessage (m_id m) (m_payload m) (m_priority m) (m_receive_count m) n (m_enqueued_at m) (m_created_at m)
    (m_visible_at m) (m_expires_at m) (m_visibility_timeout m) (m_status m) (m_delay_seconds m) (m_attributes m)
    (m_headers m) (m_message_group_id m) (m_message_deduplication_id m) (m_routing_key m) (m_compressed m)
    (m_original_size m).
Definition with_visibility_timeout (t : Z) (m : QueueMessage) : QueueMessage :=
  mkMessage (m_id m) (m_payload m) (m_priority m) (m_receive_count m) (m_max_receive_count m) (m_enqueued_at m)
    (m_created_at m) (m_visible_at m) (m_expires_at m) t (m_status m) (m_delay_seconds m) (m_attributes m)
    (m_headers m) (m_message_group_id m) (m_message_deduplication_id m) (m_routing_key m) (m_compressed m)
    (m_original_size m).
Definition with_delay (d : Z) (at_ : instant) (m : QueueMessage) : QueueMessage :=
  mkMessage (m_id m) (m_payload m) (m_priority m) (m_receive_count m) (m_max_receive_count m) (m_enqueued_at m)
    (m_created_at m) at_ (m_expires_at m) (m_visibility_timeout m) (m_status m) (Some d) (m_attributes m)
    (m_headers m) (m_message_group_id m) (m_message_deduplication_id m) (m_routing_key m) (m_compressed m)
    (m_original_size m).
Definition with_expires_at (t : instant) (m : QueueMessage) : QueueMessage :=
  mkMessage (m_id m) (m_payload m) (m_priority m) (m_receive_count m) (m_max_receive_count m) (m_enqueued_at m)
    (m_created_at m) (m_visible_at m) (Some t) (m_visibility_timeout m) (m_status m) (m_delay_seconds m)
    (m_attributes m) (m_headers m) (m_message_group_id m) (m_message_deduplication_id m) (m_routing_key m)
    (m_compressed m) (m_original_size m).
Definition with_attributes (a : gmap string string) (m : QueueMessage) : QueueMessage :=
  mkMessage (m_id m) (m_payload m) (m_priority m) (m_receive_count m) (m_max_receive_count m) (m_enqueued_at m)
    (m_created_at m) (m_visible_at m) (m_expires_at m) (m_visibility_timeout m) (m_status m) (m_delay_seconds m)
    a (m_headers m) (m_message_group_id m) (m_message_deduplication_id m) (m_routing_key m) (m_compressed m)
    (m_original_size m).
Definition with_group (g : string) (m : QueueMessage) : QueueMessage :=
  mkMessage (m_id m) (m_payload m) (m_priority m) (m_receive_count m) (m_max_receive_count m) (m_enqueued_at m)
    (m_created_at m) (m_visible_at m) (m_expires_at m) (m_visibility_timeout m) (m_status m) (m_delay_seconds m)
    (m_attributes m) (m_headers m) (Some g) (m_message_deduplication_id m) (m_routing_key m) (m_compressed m)
    (m_original_size m).
Definition with_deduplication_id (d : string) (m : QueueMessage) : QueueMessage :=
  mkMessage (m_id m) (m_payload m) (m_priority m) (m_receive_count m) (m_max_receive_count m) (m_enqueued_at m)
    (m_created_at m) (m_visible_at m) (m_expires_at m) (m_visibility_timeout m) (m_status m) (m_delay_seconds m)
    (m_attributes m) (m_headers m) (m_message_group_id m) (Some d) (m_routing_key m) (m_compressed m)
    (m_original_size m).
Definition with_status (s : MessageStatus) (m : QueueMessage) : QueueMessage :=
  mkMessage (m_id m) (m_payload m) (m_priority m) (m_receive_count m) (m_max_receive_count m) (m_enqueued_at m)
    (m_created_at m) (m_visible_at m) (m_expires_at m) (m_visibility_timeout m) s (m_delay_seconds m)
    (m_attributes m) (m_headers m) (m_message_group_id m) (m_message_deduplication_id m) (m_routing_key m)
    (m_compressed m) (m_original_size m).
Definition with_visible (s : MessageStatus) (received : Z) (at_ : instant) (m : QueueMessage) : QueueMessage :=
  mkMessage (m_id m) (m_payload m) (m_priority m) received (m_max_receive_count m) (m_enqueued_at m)
    (m_created_at m) at_ (m_expires_at m) (m_visibility_timeout m) s (m_delay_seconds m) (m_attributes m)
    (m_headers m) (m_message_group_id m) (m_message_deduplication_id m) (m_routing_key m) (m_compressed m)
    (m_original_size m).

(** [QueueMessageBuilder::new]: the clock is read three times. *)
Definition message_new (id : string) (enqueued_at created_at visible_at : instant) : QueueMessage :=
  mkMessage id VNull QNormal 0 DEFAULT_MAX_RECEIVE_COUNT enqueued_at created_at visible_at None
    DEFAULT_VISIBILITY_TIMEOUT MPending None ∅ ∅ None None None false None.

Definition is_expired (now : instant) (m : QueueMessage) : bool :=
  match m_expires_at m with Some t => t <? now | None => false end.
Definition is_visible (now : instant) (m : QueueMessage) : bool := m_visible_at m <=? now.
Definition should_dead_letter (m : QueueMessage) : bool := m_max_receive_count m <=? m_receive_count m.
Definition age_seconds (now : instant) (m : QueueMessage) : Z := num_seconds (now - m_enqueued_at m).
Definition remaining_visibility (now : instant) (m : QueueMessage) : Z :=
  Z.max (num_seconds (m_visible_at m - now)) 0.
Definition mark_acknowledged (m : QueueMessage) : QueueMessage := with_status MAcknowledged m.
Definition mark_message_failed (m : QueueMessage) : QueueMessage := with_status MFailed m.
Definition mark_dead_lettered (m : QueueMessage) : QueueMessage := with_status MDeadLettered m.
Definition validate_message (m : QueueMessage) : string + unit :=
  if bool_decide (m_id m = "") then inl "Message ID cannot be empty"
  else if m_visibility_timeout m =? 0 then inl "Visibility timeout must be greater than 0"
  else if m_max_receive_count m =? 0 then inl "Max receive count must be greater than 0"
  else inr tt.

(** What moves the time of visibility; [None] where [chrono] panics. *)
Section marks.
Context {D : Durations}.
Variable overflow_checks : bool.
Definition after_seconds (now : instant) (secs : Z) : option instant :=
  d ← duration_seconds (u64_as_i64 secs); add_duration now d.
Definition mark_received (now : instant) (m : QueueMessage) : option QueueMessage :=
  n ← checked_incr overflow_checks u32_max (m_receive_count m);
  t ← after_seconds now (m_visibility_timeout m);
  Some (with_visible MProcessing n t m).
Definition reset_message_for_retry (now : instant) (delay_seconds : option Z) (m : QueueMessage) : option QueueMessage :=
  t ← after_seconds now (default 0 delay_seconds);
  Some (with_visible MPending (m_receive_count m) t m).
Definition delay_message (now : instant) (seconds : Z) (m : QueueMessage) : option QueueMessage :=
  t ← after_seconds now seconds; Some (with_delay seconds t m).
Definition expires_in (now : instant) (seconds : Z) (m : QueueMessage) : option QueueMessage :=
  t ← after_seconds now seconds; Some (with_expires_at t m).
End marks.

Inductive QueueHealth := QHealthy | QDegraded | QUnhealthy.
Definition health_from_metrics (avg_processing_time_ms : f64) (backlog_size : Z) (error_rate : f64) : QueueHealth :=
  let processing_ok := f64_ltb avg_processing_time_ms (f64_of_Z 5000) in
  let backlog_ok := backlog_size <? 1000 in
  let error_ok := f64_ltb error_rate (f64_div (f64_of_Z 5) (f64_of_Z 100)) in
  if processing_ok && backlog_ok && error_ok then QHealthy
  else if negb processing_ok || (5000 <? backlog_size) then QUnhealthy
  else QDegraded.
End message.
