(* ===== verification/Queue.v ===== *)
(** * Queue services

    [backbone-queue/src/traits.rs], what a queue does, as a class with the trait's default batches; and
    [MockQueueService] of [backbone-jobs/src/job_executor/mod.rs], the queue in memory that
    [JobSchedulerBuilder] gives a scheduler. Its statistics' rates and its health details are left out. *)
From Stdlib Require Import ZArith Lia Ascii.
From S2P Require Import Prelude Float64 RustStr RustChar Json Database JobTypes QueueMessage.

Local Open Scope Z_scope.

Section queue.
Context {L : Libs}.

(** ** [traits.rs] *)
Class QueueService (S W : Type) := {
  enqueue : QueueMessage → sm (St S W) QueueError string;
  dequeue : sm (St S W) QueueError (option QueueMessage);
  ack : string → sm (St S W) QueueError bool;
  nack : string → option Z → sm (St S W) QueueError bool;
  delete_message : string → sm (St S W) QueueError bool;
  get_message : string → sm (St S W) QueueError (option QueueMessage);
  get_queue_stats : sm (St S W) QueueError QueueStats;
  purge : sm (St S W) QueueError Z;
  queue_size : sm (St S W) QueueError Z;
}.

Section defaults.
Context {S W : Type} {Q : QueueService S W}.
Definition enqueue_batch (messages : list QueueMessage) : sm (St S W) QueueError (list string) :=
  mapM enqueue messages.
Definition delete_batch (messages : list QueueMessage) : sm (St S W) QueueError Z :=
  sm_fold (λ count m, deleted ← delete_message (m_id m); mret (if (deleted : bool) then count + 1 else count)) 0 messages.
End defaults.

(** ** [MockQueueService] *)
Record MockQueue := mkMock { mq_messages : list QueueMessage; mq_stats : QueueStats }.
Definition stats_zero : QueueStats := mkQStats 0 0 0 0 0.
Definition mock_new : MockQueue := mkMock [] stats_zero.

Section mock.
Context {D : Durations} {W : Type} {HW : World W}.
Variable overflow_checks : bool.
#[local] Abbreviation Mo := (sm (St MockQueue W) QueueError).

Definition mock_get : Mo MockQueue := λ s, (Ok (tables s), s).
Definition mock_put (q : MockQueue) : Mo unit := λ s, (Ok tt, mkSt q (world s)).
Definition u64_incr (n : Z) : Mo Z := sm_lift (or_panic (checked_incr overflow_checks u64_max n)).
Definition less_one (n : Z) : Z := Z.max 0 (n - 1).

Definition mock_enqueue (m : QueueMessage) : Mo string :=
  q ← mock_get;
  _ ← mock_put (mkMock (mq_messages q ++ [m]) (mq_stats q));
  total ← u64_incr (qs_total_messages (mq_stats q));
  visible ← u64_incr (qs_visible_messages (mq_stats q));
  _ ← mock_put (mkMock (mq_messages q ++ [m])
        (mkQStats total visible (qs_invisible_messages (mq_stats q)) (qs_total_processed (mq_stats q))
           (qs_total_failed (mq_stats q))));
  mret (m_id m).

(** [find(|m| m.is_visible() && !m.is_expired())]: the clock is read for each message tried. *)
Definition deliverable (m : QueueMessage) : Mo bool :=
  now ← utc_now;
  if is_visible now m then
    match m_expires_at m with None => mret true | Some _ => now ← utc_now; mret (negb (is_expired now m)) end
  else mret false.
Fixpoint find_deliverable (before after : list QueueMessage) :
    Mo (option (list QueueMessage * QueueMessage * list QueueMessage)) :=
  match after with
  | [] => mret None
  | m :: after =>
      ok ← deliverable m;
      if (ok : bool) then mret (Some (before, m, after)) else find_deliverable (before ++ [m]) after
  end.
Definition mock_dequeue : Mo (option QueueMessage) :=
  q ← mock_get;
  found ← find_deliverable [] (mq_messages q);
  match found with
  | None => mret None
  | Some (before, m, after) =>
      now ← utc_now;
      received ← sm_lift (or_panic (mark_received overflow_checks now m));
      _ ← mock_put (mkMock (before ++ received :: after) (mq_stats q));
      invisible ← u64_incr (qs_invisible_messages (mq_stats q));
      _ ← mock_put (mkMock (before ++ received :: after)
            (mkQStats (qs_total_messages (mq_stats q)) (less_one (qs_visible_messages (mq_stats q))) invisible
               (qs_total_processed (mq_stats q)) (qs_total_failed (mq_stats q))));
      mret (Some received)
  end.

(** [messages.iter_mut().find(|m| m.id == id)], and what is done to it. *)
Fixpoint split_at_id (id : string) (l : list QueueMessage) : option (list QueueMessage * QueueMessage * list QueueMessage) :=
  match l with
  | [] => None
  | m :: l =>
      if bool_decide (m_id m = id) then Some ([], m, l)
      else '(before, x, after) ← split_at_id id l; Some (m :: before, x, after)
  end.
Definition mock_ack (id : string) : Mo bool :=
  q ← mock_get;
  match split_at_id id (mq_messages q) with
  | None => mret false
  | Some (before, m, after) =>
      let messages := before ++ mark_acknowledged m :: after in
      _ ← mock_put (mkMock messages (mq_stats q));
      processed ← u64_incr (qs_total_processed (mq_stats q));
      _ ← mock_put (mkMock messages
            (mkQStats (qs_total_messages (mq_stats q)) (qs_visible_messages (mq_stats q))
               (less_one (qs_invisible_messages (mq_stats q))) processed (qs_total_failed (mq_stats q))));
      mret true
  end.
Definition mock_nack (id : string) (delay_seconds : option Z) : Mo bool :=
  q ← mock_get;
  match split_at_id id (mq_messages q) with
  | None => mret false
  | Some (before, m, after) =>
      now ← utc_now;
      reset ← sm_lift (or_panic (reset_message_for_retry now delay_seconds (mark_message_failed m)));
      let messages := before ++ reset :: after in
      _ ← mock_put (mkMock messages (mq_stats q));
      failed ← u64_incr (qs_total_failed (mq_stats q));
      _ ← mock_put (mkMock messages
            (mkQStats (qs_total_messages (mq_stats q)) (qs_visible_messages (mq_stats q))
               (less_one (qs_invisible_messages (mq_stats q))) (qs_total_processed (mq_stats q)) failed));
      mret true
  end.
Definition mock_delete (id : string) : Mo bool :=
  q ← mock_get;
  let kept := List.filter (λ m, negb (bool_decide (m_id m = id))) (mq_messages q) in
  let deleted := Nat.ltb (length kept) (length (mq_messages q)) in
  let s := mq_stats q in
  _ ← mock_put (mkMock kept
        (if deleted then mkQStats (less_one (qs_total_messages s)) (qs_visible_messages s) (qs_invisible_messages s)
           (qs_total_processed s) (qs_total_failed s) else s));
  mret deleted.
Definition mock_get_message (id : string) : Mo (option QueueMessage) :=
  q ← mock_get; mret (List.find (λ m, bool_decide (m_id m = id)) (mq_messages q)).
Definition mock_get_stats : Mo QueueStats := q ← mock_get; mret (mq_stats q).
Definition mock_purge : Mo Z :=
  q ← mock_get; _ ← mock_put (mkMock [] stats_zero); mret (Z.of_nat (length (mq_messages q))).
Definition mock_size : Mo Z := q ← mock_get; mret (Z.of_nat (length (mq_messages q))).

#[export] Instance MockQueueService : QueueService MockQueue W := {|
  enqueue := mock_enqueue; dequeue := mock_dequeue; ack := mock_ack; nack := mock_nack;
  delete_message := mock_delete; get_message := mock_get_message; get_queue_stats := mock_get_stats;
  purge := mock_purge; queue_size := mock_size |}.
End mock.
End queue.
