(* ===== verification/JobScheduler.v ===== *)
(** * The job scheduler

    [backbone-jobs/src/scheduler.rs] and the executors of [job_executor/mod.rs], over any store of jobs
    and any queue. A job's execution is three steps ([begin_job], [run_job], [finish_job]): between them
    the task awaits, and other calls run. The background task is its rounds; the wait in [stop] is its
    checks. The text of a job as JSON is serde's, random numbers and the walk over a hash set are
    parameters. *)
From Stdlib Require Import ZArith Lia Ascii.
From S2P Require Import Prelude Float64 RustStr RustChar Json Database JobTypes Cron Job QueueMessage Queue.

Local Open Scope Z_scope.

(** [rand::random::<f64>()] *)
Class Randomness (W : Type) := { draw_random : W → f64 * W }.

Record SchedulerConfig := mkConfig {
  poll_interval_ms : Z; max_concurrent_jobs : Z; default_timeout_secs : Z; auto_start : bool; default_timezone : string;
  cleanup_old_attempts_on : bool; cleanup_attempts_older_than_days : Z }.
Definition config_default : SchedulerConfig := mkConfig 60000 10 300 true "UTC" true 30.

Record SchedulerState := mkSched {
  sc_is_running : bool; sc_start_time : option instant; sc_last_cleanup_time : option instant;
  sc_jobs_processed : Z; sc_jobs_failed : Z; sc_active_jobs : gset string }.
Definition sched_new : SchedulerState := mkSched false None None 0 0 ∅.

(** The store, the queue and the scheduler's own state. *)
Record Sys (S Q : Type) := mkSys { sy_store : S; sy_queue : Q; sy_sched : SchedulerState }.
Arguments mkSys {_ _} _ _ _.
Arguments sy_store {_ _} _.
Arguments sy_queue {_ _} _.
Arguments sy_sched {_ _} _.

Section scheduler.
Context {U : Unicode} {L : Libs} {TZ : TimeZones} {D : Durations}.
Context {S Q W : Type} {HW : World W} {HR : Randomness W} {JS : JobStorage S W} {QS : QueueService Q W}.
Variable overflow_checks : bool.
Variable powi : f64 → Z → f64.
Variable walk : gset Z → list Z.
(** [serde_json::to_value(job)] *)
Variable job_to_value : Job → string + Value.
Variable config : SchedulerConfig.
(** Was a callback set ([with_callback]). *)
Variable has_callback : bool.
Implicit Types (j : Job) (id : string).
#[local] Abbreviation Mo := (sm (St (Sys S Q) W) JobError).

Definition in_store {A} (m : sm (St S W) JobError A) : Mo A :=
  sm_zoom (λ s, mkSt (sy_store (tables s)) (world s))
    (λ t s, mkSt (mkSys (tables t) (sy_queue (tables s)) (sy_sched (tables s))) (world t)) m.
Definition in_queue {E A} (m : sm (St Q W) E A) : sm (St (Sys S Q) W) E A :=
  sm_zoom (λ s, mkSt (sy_queue (tables s)) (world s))
    (λ t s, mkSt (mkSys (sy_store (tables s)) (tables t) (sy_sched (tables s))) (world t)) m.
Definition sched_read {A} (f : SchedulerState → A) : Mo A := λ s, (Ok (f (sy_sched (tables s))), s).
Definition sched_write (f : SchedulerState → SchedulerState) : Mo unit := λ s,
  (Ok tt, mkSt (mkSys (sy_store (tables s)) (sy_queue (tables s)) (f (sy_sched (tables s)))) (world s)).
Definition random : Mo f64 := λ s, let '(r, w) := draw_random (world s) in (Ok r, mkSt (tables s) w).

Definition set_running (b : bool) (t : option instant) (c : SchedulerState) : SchedulerState :=
  mkSched b t (sc_last_cleanup_time c) (sc_jobs_processed c) (sc_jobs_failed c) (sc_active_jobs c).
Definition set_last_cleanup (t : instant) (c : SchedulerState) : SchedulerState :=
  mkSched (sc_is_running c) (sc_start_time c) (Some t) (sc_jobs_processed c) (sc_jobs_failed c) (sc_active_jobs c).
Definition set_counts (processed failed : Z) (c : SchedulerState) : SchedulerState :=
  mkSched (sc_is_running c) (sc_start_time c) (sc_last_cleanup_time c) processed failed (sc_active_jobs c).
Definition set_active (a : gset string) (c : SchedulerState) : SchedulerState :=
  mkSched (sc_is_running c) (sc_start_time c) (sc_last_cleanup_time c) (sc_jobs_processed c) (sc_jobs_failed c) a.

(** ** Executors *)

Definition queue_priority (p : JobPriority) : QueuePriority :=
  match p with Low => QLow | Normal => QNormal | High => QHigh | Critical => QCritical end.
(** [JobExecutor::execute_job] *)
Definition execute_job j : Mo unit :=
  payload ← match job_to_value j with
            | inl e => sm_err (Execution ("Failed to serialize job: " +:+ e))
            | inr v => mret v
            end;
  enqueued_at ← utc_now;
  created_at ← utc_now;
  visible_at ← utc_now;
  let message :=
    with_visibility_timeout (default_timeout_secs config) (with_priority (queue_priority (j_priority j))
      (with_payload payload (message_new (j_id j) enqueued_at created_at visible_at))) in
  _ ← map_err (λ e, Execution ("Failed to enqueue job: " +:+ queue_error_text e)) (in_queue (enqueue message));
  mret tt.
(** [CallbackJobExecutor::execute_job_callback] with the default callback: it logs, sleeps and logs. *)
Definition execute_job_callback j : Mo unit := mret tt.

(** ** [scheduler.rs] *)
Definition scheduler_start : Mo unit :=
  running ← sched_read sc_is_running;
  if (running : bool) then sm_err (Execution "Scheduler is already running")
  else now ← utc_now; sched_write (set_running true (Some now)).
(** [stop] up to its wait, and one check of it: has it waited for long enough. *)
Definition stop_begin : Mo unit :=
  running ← sched_read sc_is_running;
  if (running : bool) then sched_write (λ c, set_running false (sc_start_time c) c)
  else sm_err (Execution "Scheduler is not running").
Definition stop_check (start_time : instant) : Mo bool :=
  active ← sched_read sc_active_jobs;
  if bool_decide (active = ∅) then mret true
  else now ← utc_now; mret (30 * 1000000000 <? now - start_time).

Definition calculate_next_run_time j : Mo instant :=
  cron_scheduler ← sm_lift (cron_scheduler_new walk (j_cron_expression j) (j_timezone j));
  now ← utc_now;
  sm_lift (scheduler_next_after cron_scheduler now).

Definition existing_job id : Mo Job :=
  found ← in_store (get_job id);
  match found with Some j => mret j | None => sm_err (JobNotFound id) end.

Definition schedule_job j : Mo unit :=
  _ ← sm_lift (validate j);
  existing ← in_store (get_job (j_id j));
  match existing with
  | Some e => sm_err (JobAlreadyExists (j_id e))
  | None =>
      next_run ← calculate_next_run_time j;
      in_store (create_job (put_next_run (Some next_run) j))
  end.
Definition unschedule_job id : Mo unit :=
  _ ← existing_job id;
  active ← sched_read sc_active_jobs;
  if bool_decide (id ∈ active) then sm_err (Execution "Cannot delete job that is currently running")
  else in_store (delete_job id).
Definition scheduler_update_job j : Mo unit :=
  _ ← sm_lift (validate j);
  existing ← existing_job (j_id j);
  active ← sched_read sc_active_jobs;
  if bool_decide (j_id j ∈ active) then sm_err (Execution "Cannot update job that is currently running")
  else
    next_run ← (if bool_decide (j_cron_expression j ≠ j_cron_expression existing)
                then t ← calculate_next_run_time j; mret (Some t)
                else mret (j_next_run_time j));
    in_store (update_job (put_next_run next_run j)).
Definition scheduler_get_job id : Mo (option Job) := in_store (get_job id).
Definition scheduler_list_jobs : Mo (list Job) := in_store list_jobs.
Definition pause_job id : Mo unit :=
  j ← existing_job id;
  paused ← job_pause j;
  in_store (update_job paused).
Definition resume_job id : Mo unit :=
  j ← existing_job id;
  resumed ← job_resume j;
  next_run ← calculate_next_run_time resumed;
  in_store (update_job (put_next_run (Some next_run) resumed)).
Definition cancel_job id : Mo unit :=
  j ← existing_job id;
  cancelled ← job_cancel j;
  in_store (update_job cancelled).

(** [execute_single_job] in three steps. *)
Definition begin_job j : Mo Job :=
  running ← mark_as_running j;
  _ ← in_store (update_job running);
  _ ← sched_write (λ c, set_active ({[j_id j]} ∪ sc_active_jobs c) c);
  mret running.
Definition run_job j : Mo (JobError + unit) :=
  attempt (if has_callback then execute_job_callback j else execute_job j).
Definition retry_job j : Mo unit :=
  r ← (if rp_jitter (j_retry_policy j) && (1 <? j_run_count j) then random else mret f64_zero);
  retry_delay ← sm_lift (or_panic (delay_for_attempt overflow_checks powi (j_retry_policy j) (j_run_count j) r));
  now ← utc_now;
  next_run ← sm_lift (or_panic (add_duration now retry_delay));
  j ← set_next_run_time next_run j;
  j ← reset_for_retry j;
  in_store (update_job j).
Definition count_job (processed : bool) : Mo unit :=
  c ← sched_read id;
  if processed then
    n ← sm_lift (or_panic (checked_incr overflow_checks u64_max (sc_jobs_processed c)));
    sched_write (λ c, set_counts n (sc_jobs_failed c) c)
  else
    n ← sm_lift (or_panic (checked_incr overflow_checks u64_max (sc_jobs_failed c)));
    sched_write (λ c, set_counts (sc_jobs_processed c) n c).
Definition finish_job j (result : JobError + unit) : Mo unit :=
  _ ← match result with
      | inr _ =>
          completed ← mark_as_completed overflow_checks j;
          _ ← in_store (update_job completed);
          next ← attempt (calculate_next_run_time completed);
          _ ← match next with
              | inr next_run => in_store (update_job (put_next_run (Some next_run) completed))
              | inl _ => mret tt
              end;
          count_job true
      | inl _ =>
          failed ← mark_as_failed overflow_checks j;
          _ ← in_store (update_job failed);
          _ ← (if can_retry failed then retry_job failed else mret tt);
          count_job false
      end;
  sched_write (λ c, set_active (sc_active_jobs c ∖ {[j_id j]}) c).
Definition execute_single_job j : Mo unit :=
  running ← begin_job j;
  result ← run_job running;
  finish_job running result.

Definition trigger_job id : Mo unit :=
  j ← existing_job id;
  if is_scheduled j then execute_single_job j
  else sm_err (Execution "Job is not in a schedulable state").

(** ** The background task *)
Definition run_logged j : Mo unit := _ ← attempt (F:=JobError) (execute_single_job j); mret tt.
Definition process_pending_jobs : Mo unit :=
  now ← utc_now;
  pending ← in_store (get_pending_jobs now);
  match pending with
  | [] => mret tt
  | _ =>
      active ← sched_read sc_active_jobs;
      let available_slots := Z.max 0 (max_concurrent_jobs config - Z.of_nat (size active)) in
      sm_iter run_logged (take (Z.to_nat available_slots) pending)
  end.
Definition DAY : Z := 24 * 3600 * 1000000000.
Definition scheduler_cleanup : Mo unit :=
  if negb (cleanup_old_attempts_on config) then mret tt
  else
    last ← sched_read sc_last_cleanup_time;
    should_cleanup ← match last with
                     | Some last => now ← utc_now; mret (DAY <? now - last)
                     | None => mret true
                     end;
    if negb should_cleanup then mret tt
    else
      now ← utc_now;
      cutoff_date ← sm_lift (or_panic
        (d ← duration_days (cleanup_attempts_older_than_days config); sub_duration now d));
      _ ← in_store (cleanup_attempts cutoff_date);
      now ← utc_now;
      sched_write (set_last_cleanup now).
(** One round of the loop: does it go on. *)
Definition background_round : Mo bool :=
  running ← sched_read sc_is_running;
  if negb running then mret false
  else
    _ ← attempt (F:=JobError) process_pending_jobs;
    _ ← attempt (F:=JobError) scheduler_cleanup;
    mret true.

Definition get_statistics : Mo JobStatistics :=
  stats ← in_store storage_statistics;
  c ← sched_read id;
  uptime ← match sc_start_time c with
           | Some start => now ← utc_now; mret (num_seconds (now - start) mod (u64_max + 1))
           | None => mret 0
           end;
  mret (mkStats (s_total_jobs stats) (s_jobs_by_status stats) (s_jobs_by_priority stats) (s_avg_execution_time stats)
          (s_success_rate stats) (s_jobs_last_24h stats) (s_failed_jobs_last_24h stats) uptime
          (Z.of_nat (size (sc_active_jobs c)) mod (u32_max + 1)) (s_queued_jobs stats)).
Definition get_job_history id (limit : option Z) : Mo (list JobExecutionAttempt) :=
  in_store (get_execution_history id limit).
End scheduler.
