(* ===== verification/JobSchedulerFacts.v ===== *)
(** * The job scheduler: facts

    What a store of jobs promises ([StoreLaws]), a scheduler over any such store, and the store in
    memory, which keeps the promise. A store may fail at any call; the database's own failures are the
    store's. *)
From Stdlib Require Import ZArith Lia Ascii.
From S2P Require Import Prelude Float64 RustStr RustChar Json Database ModuleRegistry JobTypes Cron CronFacts Job QueueMessage Queue JobScheduler.

Local Open Scope Z_scope.

Lemma wp_zoom {S T E A} (get : S → T) (set : T → S → S) (m : sm T E A) (Φ : res E A → S → Prop) s :
  wp m (λ r t, Φ r (set t s)) (get s) → wp (sm_zoom get set m) Φ s.
Proof. unfold wp, sm_zoom. by destruct (m (get s)). Qed.

(** ** What a store promises *)
Class StoreLaws {L : Libs} (S W : Type) {JS : JobStorage S W} := {
  view : S → gmap string Job;
  get_job_law id s :
    wp (get_job id) (λ r s', view (tables s') = view (tables s) ∧
      match r with Ok o => o = view (tables s) !! id | _ => True end) s;
  create_job_law j s :
    wp (create_job j) (λ r s',
      match r with
      | Ok _ => view (tables s) !! j_id j = None ∧ view (tables s') = <[j_id j:=j]> (view (tables s))
      | _ => view (tables s') = view (tables s)
      end) s;
  update_job_law j s :
    wp (update_job j) (λ r s',
      match r with
      | Ok _ => is_Some (view (tables s) !! j_id j) ∧ view (tables s') = <[j_id j:=j]> (view (tables s))
      | _ => view (tables s') = view (tables s)
      end) s;
  pending_law before s :
    wp (get_pending_jobs before) (λ r s', view (tables s') = view (tables s) ∧
      match r with
      | Ok l => l ≡ₚ List.filter (is_pending before) (map_to_list (view (tables s))).*2
      | _ => True
      end) s;
  cleanup_law older_than s : wp (cleanup_attempts older_than) (λ _ s', view (tables s') = view (tables s)) s;
}.

(** Each job is under its own id. *)
Definition store_ok {L : Libs} (m : gmap string Job) : Prop := ∀ id j, m !! id = Some j → j_id j = id.

(** ** A job's life

    [run_count] counts the runs that ended; a job that is scheduled or runs has never succeeded and has
    attempts left. *)
Definition job_inv {L : Libs} (j : Job) : Prop :=
  0 ≤ j_failure_count j ∧ j_run_count j = j_success_count j + j_failure_count j ∧ j_max_attempts j ≤ u32_max ∧
  match j_status j with
  | Scheduled | Running => j_success_count j = 0 ∧ j_failure_count j < j_max_attempts j
  | Completed => j_success_count j = 1 ∧ j_failure_count j < j_max_attempts j
  | Failed => j_success_count j = 0 ∧ j_failure_count j ≤ j_max_attempts j
  | Cancelled | Paused => 0 ≤ j_success_count j ∧ j_run_count j ≤ j_max_attempts j
  end.
Lemma job_inv_runs {L : Libs} (j : Job) : job_inv j → j_run_count j ≤ j_max_attempts j.
Proof. unfold job_inv. destruct (j_status j); lia. Qed.

(** What the background task may do to a job: nothing unless it is scheduled. *)
Definition job_life {L : Libs} (j j' : Job) : Prop :=
  j_id j' = j_id j ∧ j_cron_expression j' = j_cron_expression j ∧ j_max_attempts j' = j_max_attempts j ∧
  (j_status j ≠ Scheduled → j' = j) ∧ (job_inv j → job_inv j').
#[export] Instance job_life_preorder {L : Libs} : PreOrder job_life.
Proof.
  split; [by intros j|]. intros j j' j'' (I1 & C1 & M1 & N1 & V1) (I2 & C2 & M2 & N2 & V2).
  split_and!; try congruence; auto. intros Hs. pose proof (N1 Hs) as ->. by apply N2.
Qed.
Definition jobs_evolve {L : Libs} (m m' : gmap string Job) : Prop :=
  store_ok m → store_ok m' ∧ ∀ id, option_relation job_life (λ _, False) (λ _, False) (m !! id) (m' !! id).
#[export] Instance jobs_evolve_preorder {L : Libs} : PreOrder jobs_evolve.
Proof.
  split.
  - intros m Hm. split; [done|]. intros id. by destruct (m !! id); simpl.
  - intros m m' m'' H1 H2 Hm. destruct (H1 Hm) as [Hm' H1']. destruct (H2 Hm') as [Hm'' H2']. split; [done|].
    intros id. specialize (H1' id). specialize (H2' id).
    destruct (m !! id), (m' !! id), (m'' !! id); simpl in *; try done. by etrans.
Qed.

Section facts.
Context {U : Unicode} {L : Libs} {TZ : TimeZones} {D : Durations}.
Context {S Q W : Type} {HW : World W} {HR : Randomness W} {JS : JobStorage S W} {QS : QueueService Q W}.
Context {SL : StoreLaws S W}.
Variable overflow_checks : bool.
Variable powi : f64 → Z → f64.
Variable walk : gset Z → list Z.
Variable job_to_value : Job → string + Value.
Variable config : SchedulerConfig.
Variable has_callback : bool.
Implicit Types (j : Job) (id : string) (s : St (Sys S Q) W).
#[local] Abbreviation Mo := (sm (St (Sys S Q) W) JobError).

Definition jv s : gmap string Job := view (sy_store (tables s)).

(** ** Calls *)
Lemma wp_get_job id (Φ : res JobError (option Job) → St (Sys S Q) W → Prop) s :
  (∀ r s', jv s' = jv s → match r with Ok o => o = jv s !! id | _ => True end → Φ r s') →
  wp (in_store (get_job id)) Φ s.
Proof. intros H. apply wp_zoom. eapply wp_mono; [apply get_job_law|]. intros r t [Hv Hr]. by apply H. Qed.
Lemma wp_create_job j (Φ : res JobError unit → St (Sys S Q) W → Prop) s :
  (∀ r s', match r with
           | Ok _ => jv s !! j_id j = None ∧ jv s' = <[j_id j:=j]> (jv s)
           | _ => jv s' = jv s
           end → Φ r s') →
  wp (in_store (create_job j)) Φ s.
Proof. intros H. apply wp_zoom. eapply wp_mono; [apply create_job_law|]. intros r t Hr. by apply H. Qed.
Lemma wp_update_job j (Φ : res JobError unit → St (Sys S Q) W → Prop) s :
  (∀ r s', match r with
           | Ok _ => is_Some (jv s !! j_id j) ∧ jv s' = <[j_id j:=j]> (jv s)
           | _ => jv s' = jv s
           end → Φ r s') →
  wp (in_store (update_job j)) Φ s.
Proof. intros H. apply wp_zoom. eapply wp_mono; [apply update_job_law|]. intros r t Hr. by apply H. Qed.
Lemma wp_pending before (Φ : res JobError (list Job) → St (Sys S Q) W → Prop) s :
  (∀ r s', jv s' = jv s → match r with
           | Ok l => l ≡ₚ List.filter (is_pending before) (map_to_list (jv s)).*2
           | _ => True
           end → Φ r s') →
  wp (in_store (get_pending_jobs before)) Φ s.
Proof. intros H. apply wp_zoom. eapply wp_mono; [apply pending_law|]. intros r t [Hv Hr]. by apply H. Qed.

(** What leaves the store alone. *)
Definition same_store : relation (St (Sys S Q) W) := λ s s', jv s' = jv s.
#[local] Instance same_store_preorder : PreOrder same_store.
Proof. split; [done|]. intros s1 s2 s3. unfold same_store. congruence. Qed.

Lemma keeps_clock : keeps (E:=JobError) same_store utc_now.
Proof. intros s. unfold utc_now. by destruct (w_utc_now (world s)). Qed.
Lemma keeps_sched_read {A} (f : SchedulerState → A) : keeps same_store (sched_read (S:=S) (Q:=Q) (W:=W) f).
Proof. done. Qed.
Lemma keeps_sched_write f : keeps same_store (sched_write (S:=S) (Q:=Q) (W:=W) f).
Proof. done. Qed.
Lemma keeps_random : keeps same_store (random (S:=S) (Q:=Q)).
Proof. intros s. unfold random. by destruct (draw_random (world s)). Qed.
Lemma keeps_in_queue {E A} (m : sm (St Q W) E A) : keeps same_store (in_queue (S:=S) m).
Proof. apply keeps_zoom. done. Qed.
Lemma keeps_cleanup t : keeps same_store (in_store (Q:=Q) (cleanup_attempts t)).
Proof. intros s. apply (wp_zoom _ _ _ (λ _ s', same_store s s')). apply cleanup_law. Qed.
#[local] Hint Resolve keeps_clock keeps_sched_read keeps_sched_write keeps_random keeps_in_queue keeps_cleanup : keeps.
#[local] Hint Extern 1 (PreOrder same_store) => exact same_store_preorder : keeps.

Ltac keeps_body :=
  repeat first [progress intros | apply keeps_bind; [exact same_store_preorder|..] | case_match];
  eauto 4 with keeps.
Lemma keeps_execute_job j : keeps same_store (execute_job (S:=S) (HW:=HW) job_to_value config j).
Proof. unfold execute_job. keeps_body. Qed.
Lemma keeps_next_run j : keeps same_store (calculate_next_run_time (S:=S) (Q:=Q) (HW:=HW) walk j).
Proof. unfold calculate_next_run_time. keeps_body. Qed.
Lemma keeps_run_job j : keeps same_store (run_job (S:=S) (HW:=HW) job_to_value config has_callback j).
Proof.
  unfold run_job. apply keeps_attempt. destruct has_callback; [apply keeps_ret; exact same_store_preorder|].
  apply keeps_execute_job.
Qed.
Lemma keeps_count_job b : keeps same_store (count_job (S:=S) (Q:=Q) (W:=W) overflow_checks b).
Proof. unfold count_job. keeps_body. Qed.

(** A step that leaves the store alone, whatever it answers. *)
Lemma wp_skip {A} (m : Mo A) (Φ : res JobError A → St (Sys S Q) W → Prop) s :
  keeps same_store m → (∀ r s', jv s' = jv s → Φ r s') → wp m Φ s.
Proof. intros Hm HΦ. apply HΦ, Hm. Qed.

Lemma wp_clock {E} (Φ : res E instant → St (Sys S Q) W → Prop) s :
  (∀ now s', jv s' = jv s → Φ (Ok now) s') → wp utc_now Φ s.
Proof. intros H. unfold wp, utc_now. destruct (w_utc_now (world s)) as [now w]. by apply H. Qed.
Lemma wp_or_panic {A} (o : option A) (Φ : res JobError A → St (Sys S Q) W → Prop) s :
  (∀ a, o = Some a → Φ (Ok a) s) → (o = None → Φ Panic s) → wp (sm_lift (or_panic o)) Φ s.
Proof. intros H1 H2. apply wp_lift. destruct o; simpl; auto. Qed.

(** ** A job's own steps *)
Lemma wp_mark_as_running j (Φ : res JobError Job → St (Sys S Q) W → Prop) s :
  (∀ now s', j_status j = Scheduled → jv s' = jv s → Φ (Ok (put_status Running now j)) s') →
  (∀ e, j_status j ≠ Scheduled → Φ (Err e) s) → wp (mark_as_running j) Φ s.
Proof.
  intros H1 H2. unfold mark_as_running. case_bool_decide as Hs; [apply wp_lift; by apply H2|].
  apply wp_bind, wp_clock. intros now s' Hv. apply wp_ret. by apply H1.
Qed.
(** Both ends of a run count it. *)
Lemma wp_mark_as_completed j (Φ : res JobError Job → St (Sys S Q) W → Prop) s :
  j_status j = Running →
  (∀ ran now runs successes s',
     checked_incr overflow_checks u32_max (j_run_count j) = Some runs →
     checked_incr overflow_checks u32_max (j_success_count j) = Some successes → jv s' = jv s →
     Φ (Ok (put_ran Completed ran now runs successes (j_failure_count j) j)) s') →
  (∀ s', jv s' = jv s → Φ Panic s') → wp (mark_as_completed overflow_checks j) Φ s.
Proof.
  intros Hj H1 H2. unfold mark_as_completed, u32_incr. rewrite bool_decide_eq_false_2 by (intros []; done).
  apply wp_bind, wp_clock. intros ran s1 Hv1. apply wp_bind, wp_clock. intros now s2 Hv2.
  apply wp_bind, wp_or_panic; [|intros _; apply H2; congruence]. intros runs Hr.
  apply wp_bind, wp_or_panic; [|intros _; apply H2; congruence]. intros successes Hs.
  apply wp_ret, H1; congruence.
Qed.
Lemma wp_mark_as_failed j (Φ : res JobError Job → St (Sys S Q) W → Prop) s :
  j_status j = Running →
  (∀ ran now runs failures s',
     checked_incr overflow_checks u32_max (j_run_count j) = Some runs →
     checked_incr overflow_checks u32_max (j_failure_count j) = Some failures → jv s' = jv s →
     Φ (Ok (put_ran Failed ran now runs (j_success_count j) failures j)) s') →
  (∀ s', jv s' = jv s → Φ Panic s') → wp (mark_as_failed overflow_checks j) Φ s.
Proof.
  intros Hj H1 H2. unfold mark_as_failed, u32_incr. rewrite bool_decide_eq_false_2 by (intros []; done).
  apply wp_bind, wp_clock. intros ran s1 Hv1. apply wp_bind, wp_clock. intros now s2 Hv2.
  apply wp_bind, wp_or_panic; [|intros _; apply H2; congruence]. intros runs Hr.
  apply wp_bind, wp_or_panic; [|intros _; apply H2; congruence]. intros failures Hs.
  apply wp_ret, H1; congruence.
Qed.

(** ** One run *)

(** The store [m] with a job at a later point of its life. *)
Definition at_life (m : gmap string Job) j s : Prop := ∃ j', jv s = <[j_id j:=j']> m ∧ job_life j j'.

Lemma at_life_same m j s s' : jv s' = jv s → at_life m j s → at_life m j s'.
Proof. intros Hv (j' & H & Hl). exists j'. by rewrite Hv. Qed.
Lemma wp_store_life m j j1 (Φ : res JobError unit → St (Sys S Q) W → Prop) s :
  job_life j j1 → at_life m j s → (∀ r s', at_life m j s' → Φ r s') → wp (in_store (update_job j1)) Φ s.
Proof.
  intros Hl Hs HΦ. apply wp_update_job. intros r s' Hr. apply HΦ.
  destruct r as [[]|e|]; [|by eapply at_life_same..]. destruct Hr as [_ Hr], Hs as (j' & Hj' & _).
  exists j1. split; [|done]. rewrite Hr, Hj'. destruct Hl as (-> & _). apply insert_insert_eq.
Qed.

Lemma life_running now j : j_status j = Scheduled → job_life j (put_status Running now j).
Proof. intros Hs. split_and!; try done. unfold job_inv. simpl. rewrite Hs. lia. Qed.
Lemma life_completed ran now now' runs successes j :
  j_status j = Scheduled → checked_incr overflow_checks u32_max (j_run_count j) = Some runs →
  checked_incr overflow_checks u32_max (j_success_count j) = Some successes →
  job_life j (put_ran Completed ran now runs successes (j_failure_count j) (put_status Running now' j)).
Proof.
  intros Hs Hr Hss. split_and!; try done. revert Hr Hss. unfold job_inv, checked_incr. simpl. rewrite Hs.
  repeat case_match; intros; simplify_eq; lia.
Qed.
Lemma life_failed ran now now' runs failures j :
  j_status j = Scheduled → checked_incr overflow_checks u32_max (j_run_count j) = Some runs →
  checked_incr overflow_checks u32_max (j_failure_count j) = Some failures →
  job_life j (put_ran Failed ran now runs (j_success_count j) failures (put_status Running now' j)).
Proof.
  intros Hs Hr Hss. split_and!; try done. revert Hr Hss. unfold job_inv, checked_incr. simpl. rewrite Hs.
  repeat case_match; intros; simplify_eq; lia.
Qed.
Lemma life_next_run j j' next : job_life j j' → j_status j = Scheduled → job_life j (put_next_run next j').
Proof. intros (I & C & M & N & V) Hs. split_and!; try done. Qed.
Lemma life_retry j j' next t now :
  job_life j j' → j_status j = Scheduled → can_retry j' = true →
  job_life j (put_status Scheduled now (put_updated_at t (put_next_run next j'))).
Proof.
  intros (I & C & M & N & V) Hs [Hf Hc]%andb_true_iff. split_and!; try done. intros Hi. specialize (V Hi).
  apply bool_decide_eq_true in Hf. revert V. unfold job_inv. simpl. rewrite Hf. lia.
Qed.

(** A computation whose every result leaves the store at a point of the job's life. *)
Definition lives {A} (m : gmap string Job) j (c : Mo A) : Prop :=
  ∀ s, at_life m j s → wp c (λ _ s', at_life m j s') s.
Lemma lives_bind {A B} m j (c : Mo A) (f : A → Mo B) :
  lives m j c → (∀ a, lives m j (f a)) → lives m j (c ≫= f).
Proof.
  intros Hc Hf s Hs. apply wp_bind. eapply wp_mono; [by apply Hc|]. intros [a|e|] s' Hs'; [by apply Hf|done..].
Qed.
Lemma lives_skip {A} m j (c : Mo A) : keeps same_store c → lives m j c.
Proof. intros Hc s Hs. apply wp_skip; [done|]. intros r s' Hv. by eapply at_life_same. Qed.
Lemma lives_store m j j1 : job_life j j1 → lives m j (in_store (update_job j1)).
Proof. intros Hl s Hs. by eapply wp_store_life. Qed.

Lemma retry_lives m j j' :
  job_life j j' → j_status j = Scheduled → can_retry j' = true → lives m j (retry_job overflow_checks powi j').
Proof.
  intros Hl Hs Hc. unfold retry_job. apply lives_bind; [apply lives_skip; keeps_body|intros r].
  apply lives_bind; [apply lives_skip; keeps_body|intros delay]. apply lives_bind; [apply lives_skip; keeps_body|intros now].
  apply lives_bind; [apply lives_skip; keeps_body|intros next_run]. intros s Hm. unfold set_next_run_time.
  apply wp_bind, wp_bind, wp_clock. intros t s1 Hv1. apply wp_ret. apply wp_bind. unfold reset_for_retry.
  pose proof Hc as [Hf _]%andb_true_iff. apply bool_decide_eq_true in Hf. rewrite bool_decide_eq_true_2.
  2: { simpl. rewrite Hf. by left. }
  apply wp_bind, wp_clock. intros now' s2 Hv2. apply wp_ret. eapply wp_store_life; [by apply life_retry| |done].
  eapply at_life_same; [|exact Hm]. congruence.
Qed.

Lemma finish_lives m j now result :
  j_status j = Scheduled →
  lives m j (finish_job overflow_checks powi walk (put_status Running now j) result).
Proof.
  intros Hs s Hm. unfold finish_job. apply wp_bind.
  eapply wp_mono with (Φ := λ _ s', at_life m j s'); [|intros [a|e|] s' Hs'; [by eapply at_life_same|done..]].
  destruct result as [e|[]].
  - apply wp_bind, wp_mark_as_failed; [done| |intros s' Hv; by eapply at_life_same].
    intros ran now' runs failures s1 Hr Hf Hv. eapply at_life_same in Hm; [|exact Hv].
    pose proof (life_failed ran now' now runs failures j Hs Hr Hf) as Hl. revert s1 Hv Hm.
    set (failed := put_ran _ _ _ _ _ _ _) in *. intros s1 _. apply lives_bind; [by apply lives_store|intros _].
    apply lives_bind; [|intros _; apply lives_skip, keeps_count_job].
    destruct (can_retry failed) eqn:Hc; [by apply retry_lives|]. apply lives_skip. keeps_body.
  - apply wp_bind, wp_mark_as_completed; [done| |intros s' Hv; by eapply at_life_same].
    intros ran now' runs successes s1 Hr Hf Hv. eapply at_life_same in Hm; [|exact Hv].
    pose proof (life_completed ran now' now runs successes j Hs Hr Hf) as Hl. revert s1 Hv Hm.
    set (completed := put_ran _ _ _ _ _ _ _) in *. intros s1 _. apply lives_bind; [by apply lives_store|intros _].
    apply lives_bind; [apply lives_skip, keeps_attempt, keeps_next_run|intros next].
    apply lives_bind; [|intros _; apply lives_skip, keeps_count_job].
    destruct next; [apply lives_skip; keeps_body|]. by apply lives_store, life_next_run.
Qed.

Lemma execute_lives j s :
  jv s !! j_id j = Some j → j_status j = Scheduled →
  wp (execute_single_job overflow_checks powi walk job_to_value config has_callback j) (λ _ s', at_life (jv s) j s') s.
Proof.
  intros Hj Hs. assert (at_life (jv s) j s) as H0 by (exists j; by rewrite insert_id).
  unfold execute_single_job, begin_job. apply wp_bind, wp_bind, wp_mark_as_running; [|done].
  intros now s1 _ Hv1. eapply at_life_same in H0; [|exact Hv1]. revert H0. generalize (jv s). clear s Hj Hv1.
  intros m H0. apply wp_bind, (wp_store_life m j); [by apply life_running|done|]. intros [[]|e|] s2 H2; [|done..].
  apply wp_bind, wp_skip; [apply keeps_sched_write|]. intros [[]|e|] s3 Hv3; [|by eapply at_life_same..].
  apply wp_ret. eapply at_life_same in H2; [|exact Hv3]. revert s3 Hv3 H2. intros s3 _.
  apply lives_bind; [apply lives_skip, keeps_run_job|intros result; by apply finish_lives].
Qed.

(** ** Rounds of the background task *)
Lemma at_life_evolves m j s : m !! j_id j = Some j → at_life m j s → jobs_evolve m (jv s).
Proof.
  intros Hj (j' & -> & Hl) Hm. split.
  - intros id j0. rewrite lookup_insert_Some. intros [[<- <-]|[_ H]]; [apply Hl|by apply Hm].
  - intros id. destruct (decide (id = j_id j)) as [->|Hne]; [by rewrite lookup_insert_eq, Hj|].
    rewrite lookup_insert_ne by done. destruct (m !! id); simpl; done.
Qed.
Lemma runs_evolve l s :
  store_ok (jv s) → NoDup (map j_id l) → (∀ j, j ∈ l → jv s !! j_id j = Some j ∧ j_status j = Scheduled) →
  wp (sm_iter (run_logged overflow_checks powi walk job_to_value config has_callback) l)
    (λ _ s', jobs_evolve (jv s) (jv s')) s.
Proof.
  revert s. induction l as [|j l IH]; intros s Hok Hnd Hl; [by apply wp_ret|]. simpl.
  apply NoDup_cons in Hnd as [Hj Hnd]. destruct (Hl j) as [Hjs Hs]; [by left|].
  apply wp_bind. unfold run_logged at 1. apply wp_bind, wp_attempt.
  eapply wp_mono; [by apply execute_lives|].
  intros r s' H. pose proof (at_life_evolves _ _ _ Hjs H) as Hev.
  assert (wp (sm_iter (run_logged overflow_checks powi walk job_to_value config has_callback) l)
    (λ _ s'', jobs_evolve (jv s) (jv s'')) s') as Hrest.
  { eapply wp_mono; [apply IH; [by apply Hev|done|]|intros r0 s'' H'; by etrans].
    intros j0 Hj0. destruct H as (j' & -> & _). rewrite lookup_insert_ne; [apply Hl; by right|].
    intros Heq. apply Hj. rewrite Heq. by apply list_elem_of_fmap_2. }
  destruct r as [[]|e|]; [by apply wp_ret..|done].
Qed.

Lemma pending_elements before m l :
  store_ok m → l ≡ₚ List.filter (is_pending before) (map_to_list m).*2 →
  NoDup (map j_id l) ∧ ∀ j, j ∈ l → m !! j_id j = Some j ∧ is_pending before j = true.
Proof.
  intros Hm Hl.
  assert (∀ j, j ∈ l → m !! j_id j = Some j ∧ is_pending before j = true) as Hin.
  { intros j. rewrite Hl, list_elem_of_In, filter_In, <-list_elem_of_In, list_elem_of_fmap.
    intros [([id j'] & -> & H%elem_of_map_to_list) Hp]. simpl in *. by rewrite (Hm _ _ H). }
  split; [|done].
  assert (NoDup (map j_id (map_to_list m).*2)) as Hnd.
  { assert (map j_id (map_to_list m).*2 = (map_to_list m).*1) as ->; [|apply NoDup_fst_map_to_list].
    rewrite List.map_map. apply list_fmap_ext. intros i [id j] H. simpl. apply Hm, elem_of_map_to_list.
    by eapply list_elem_of_lookup_2. }
  rewrite (Permutation_map j_id Hl). clear -Hnd. induction (map_to_list m).*2 as [|j js IH]; simpl; [constructor|].
  simpl in Hnd. apply NoDup_cons in Hnd as [Hj Hnd]. destruct (is_pending before j); [|by apply IH].
  simpl. constructor; [|by apply IH]. intros (j' & Heq & Hin)%list_elem_of_fmap. apply Hj. rewrite Heq.
  apply list_elem_of_fmap_2. apply list_elem_of_In, filter_In in Hin as [Hin _]. by apply list_elem_of_In.
Qed.

Lemma process_evolves s :
  store_ok (jv s) →
  wp (process_pending_jobs overflow_checks powi walk job_to_value config has_callback)
    (λ _ s', jobs_evolve (jv s) (jv s')) s.
Proof.
  intros Hok. unfold process_pending_jobs. apply wp_bind, wp_clock. intros now s1 H1.
  apply wp_bind, wp_pending. intros r s2 H2 Hr. rewrite H1 in *. destruct r as [l|e|]; [|by rewrite H2, ?H1..].
  destruct (pending_elements now (jv s) l Hok Hr) as [Hnd Hl]. destruct l as [|j0 l0]; [apply wp_ret; by rewrite H2|].
  apply wp_bind, wp_skip; [apply keeps_sched_read|]. intros [active|e|] s3 H3; [|by rewrite H3, H2..].
  rewrite <-H2, <-H3 in *. apply runs_evolve; [done| |].
  - rewrite <-firstn_map. set (n := Z.to_nat _). rewrite <-(take_drop n) in Hnd. by apply NoDup_app in Hnd as [? _].
  - intros j Hj. apply elem_of_take in Hj as (i & Hj & _). destruct (Hl j) as [Hs Hp]; [by eapply list_elem_of_lookup_2|].
    split; [done|]. unfold is_pending, is_scheduled in Hp. apply andb_true_iff in Hp as [Hp _]. by apply bool_decide_eq_true in Hp.
Qed.

Definition background (n : nat) : Mo unit :=
  sm_iter (λ _, _ ← background_round overflow_checks powi walk job_to_value config has_callback; mret tt) (seq 0 n).
Lemma round_evolves s :
  store_ok (jv s) →
  wp (background_round overflow_checks powi walk job_to_value config has_callback) (λ _ s', jobs_evolve (jv s) (jv s')) s.
Proof.
  intros Hok. unfold background_round. apply wp_bind, wp_skip; [apply keeps_sched_read|].
  intros [b|e|] s1 H1; [|by rewrite H1..]. destruct b; [|apply wp_ret; by rewrite H1]. simpl.
  apply wp_bind, wp_attempt. rewrite <-H1 in *. eapply wp_mono; [by apply process_evolves|].
  assert (∀ s2, jobs_evolve (jv s1) (jv s2) →
    wp (_ ← attempt (F:=JobError) (scheduler_cleanup config); mret true) (λ _ s', jobs_evolve (jv s1) (jv s')) s2) as Hc.
  { intros s2 H2. apply wp_skip; [|intros r s3 ->; done]. unfold scheduler_cleanup. apply keeps_bind; [exact same_store_preorder| |].
    - apply keeps_attempt. keeps_body.
    - intros r. keeps_body. }
  intros [[]|e|] s2 H2; [by apply Hc..|done].
Qed.
Lemma rounds_evolve n s : store_ok (jv s) → wp (background n) (λ _ s', jobs_evolve (jv s) (jv s')) s.
Proof.
  unfold background. generalize (seq 0 n). intros l. revert s. induction l as [|i l IH]; intros s Hok; [by apply wp_ret|].
  simpl. apply wp_bind, wp_bind. eapply wp_mono; [by apply round_evolves|]. intros [b|e|] s1 H1; [|done..].
  apply wp_ret. eapply wp_mono; [apply IH, H1, Hok|]. intros r s2 H2. by etrans.
Qed.


(** ** Scheduling *)

(** scheduling a job. A job that is accepted was valid and new, and is stored with its next run: the
    first whole minute after the clock's time that its expression matches in its zone; nothing else of
    the store changes. Whatever the answer is otherwise, an error or a panic, the store is as it was, and
    an invalid job's answer is what is wrong with it. *)
Theorem schedule_job_spec {DL : DurationLaws} (j : Job) (s : St (Sys S Q) W) :
  (∀ now, calendar_reaches now (now + HORIZON)) →
  wp (schedule_job walk j) (λ r s',
    match r with
    | Ok _ =>
        validate j = Ok tt ∧ jv s !! j_id j = None ∧
        ∃ c now t, cron_scheduler_new walk (j_cron_expression j) (j_timezone j) = Ok c ∧
          jv s' = <[j_id j:=put_next_run (Some t) j]> (jv s) ∧
          now < t ∧ whole_minute t ∧ scheduler_matches c t = true ∧
          ∀ m, whole_minute m → now < m < t → scheduler_matches c m = false
    | Err e => jv s' = jv s ∧ ∀ e', validate j = Err e' → e = e'
    | Panic => jv s' = jv s
    end) s.
Proof.
  intros Hcal. unfold schedule_job. apply wp_bind, wp_lift. destruct (validate j) as [[]|e|] eqn:Hv; [|by split; [|intros e' [= <-]]|done].
  apply wp_bind, wp_get_job. intros [o|e|] s1 H1 Hr; [|done..]. rewrite Hr. destruct (jv s !! j_id j) as [j0|] eqn:Hj.
  { by apply wp_err. }
  apply wp_bind. unfold calculate_next_run_time. apply wp_bind, wp_lift.
  destruct (cron_scheduler_new walk (j_cron_expression j) (j_timezone j)) as [c|e|] eqn:Hc; [|done..].
  apply wp_bind, wp_clock. intros now s2 H2. apply wp_lift. unfold scheduler_next_after.
  pose proof (next_after_spec (cs_expression c) now (cs_timezone c) (Hcal now)) as Hn.
  destruct (next_after (cs_expression c) now (cs_timezone c)) as [t|e|]; [|split; [congruence|done]|done].
  destruct Hn as (Ht & Hw & Hm & Hfirst). apply wp_create_job. intros [[]|e|] s3 Hs3; [|split; [congruence|done]|congruence].
  destruct Hs3 as [_ Hs3]. split; [done|]. split; [done|]. exists c, now, t. split_and!; try done; [|lia].
  rewrite Hs3. simpl. f_equal. congruence.
Qed.

(** ** How a run ends *)

(** A store that does not fail to update what it holds. *)
Definition reliable : Prop := ∀ j (s : St S W), is_Some (view (tables s) !! j_id j) → ∃ s' : St S W, update_job j s = (Ok tt, s').

Lemma wp_update_reliable j (Φ : res JobError unit → St (Sys S Q) W → Prop) s :
  reliable → is_Some (jv s !! j_id j) →
  (∀ s', jv s' = <[j_id j:=j]> (jv s) → sy_sched (tables s') = sy_sched (tables s) → Φ (Ok tt) s') →
  wp (in_store (update_job j)) Φ s.
Proof.
  intros Hrel Hj H. apply wp_zoom. destruct (Hrel j (mkSt (sy_store (tables s)) (world s)) Hj) as [t Ht].
  pose proof (update_job_law j (mkSt (sy_store (tables s)) (world s))) as Hl. unfold wp in Hl |- *.
  rewrite Ht in Hl |- *. destruct Hl as [_ Hl]. by apply H.
Qed.

(** What leaves the scheduler's own state alone too. *)
Definition sv s : SchedulerState := sy_sched (tables s).
Definition same_both : relation (St (Sys S Q) W) := λ s s', jv s' = jv s ∧ sv s' = sv s.
#[local] Instance same_both_preorder : PreOrder same_both.
Proof. split; [by split|]. intros s1 s2 s3 [H1 H2] [H3 H4]. split; congruence. Qed.
Lemma wp_clock_both {E} (Φ : res E instant → St (Sys S Q) W → Prop) s :
  (∀ now s', jv s' = jv s → sv s' = sv s → Φ (Ok now) s') → wp utc_now Φ s.
Proof. intros H. unfold wp, utc_now. destruct (w_utc_now (world s)) as [now w]. by apply H. Qed.
Lemma wp_draw_random (b : bool) (Φ : res JobError f64 → St (Sys S Q) W → Prop) s :
  (∀ r s', jv s' = jv s → sv s' = sv s → Φ (Ok r) s') → wp (if b then random else mret f64_zero) Φ s.
Proof.
  intros H. destruct b; [|by apply wp_ret, H]. unfold wp, random. destruct (draw_random (world s)) as [r w]. by apply H.
Qed.
Lemma both_clock : keeps (E:=JobError) same_both utc_now.
Proof. intros s. unfold utc_now. by destruct (w_utc_now (world s)). Qed.
Lemma wp_both {A} (m : Mo A) (Φ : res JobError A → St (Sys S Q) W → Prop) s :
  keeps same_both m → (∀ r s', jv s' = jv s → sv s' = sv s → Φ r s') → wp m Φ s.
Proof. intros Hm HΦ. destruct (Hm s). by apply HΦ. Qed.
#[local] Hint Resolve both_clock : keeps.
#[local] Hint Extern 1 (PreOrder same_both) => exact same_both_preorder : keeps.
Lemma both_next_run j : keeps same_both (calculate_next_run_time (S:=S) (Q:=Q) (HW:=HW) walk j).
Proof.
  unfold calculate_next_run_time.
  repeat first [progress intros | apply keeps_bind; [exact same_both_preorder|..]]; eauto 4 with keeps.
Qed.

(** A run that ends, told from the job it ran and what came of it. *)
Definition ran_once j j' : Prop :=
  j_id j' = j_id j ∧ j_cron_expression j' = j_cron_expression j ∧ j_run_count j' = j_run_count j + 1.
Definition ended_well j j' : Prop :=
  j_status j' = Completed ∧ j_success_count j' = j_success_count j + 1 ∧ j_failure_count j' = j_failure_count j.
Definition ended_badly j j' : Prop :=
  j_success_count j' = j_success_count j ∧ j_failure_count j' = j_failure_count j + 1 ∧
  if j_failure_count j + 1 <? j_max_attempts j then
    j_status j' = Scheduled ∧ ∃ now delay random next_run,
      delay_for_attempt overflow_checks powi (j_retry_policy j) (j_run_count j + 1) random = Some delay ∧
      add_duration now delay = Some next_run ∧ j_next_run_time j' = Some next_run
  else j_status j' = Failed ∧ j_next_run_time j' = j_next_run_time j.
Definition counts_fit j : Prop :=
  j_run_count j < u32_max ∧ j_success_count j < u32_max ∧ j_failure_count j < u32_max.
Lemma incr_fits max n : n < max → checked_incr overflow_checks max n = Some (n + 1).
Proof. intros H. unfold checked_incr. by replace (n + 1 <=? max) with true by lia. Qed.

(** No arithmetic of the run's end overflows, [chrono]'s included. *)
Definition end_fits j s : Prop :=
  j_run_count j < u32_max ∧ j_success_count j < u32_max ∧ j_failure_count j < u32_max ∧
  sc_jobs_processed (sv s) < u64_max ∧ sc_jobs_failed (sv s) < u64_max ∧
  (∀ r, is_Some (delay_for_attempt overflow_checks powi (j_retry_policy j) (j_run_count j + 1) r)) ∧
  (∀ now d, is_Some (add_duration now d)) ∧ (∀ now, calendar_reaches now (now + HORIZON)).

Lemma wp_retry_ends m j failed s (Φ : res JobError unit → St (Sys S Q) W → Prop) :
  reliable → end_fits j s → jv s = <[j_id j:=failed]> m → ran_once j failed → j_status failed = Failed →
  j_retry_policy failed = j_retry_policy j → j_success_count failed = j_success_count j →
  j_failure_count failed = j_failure_count j + 1 → j_failure_count j + 1 < j_max_attempts j →
  (∀ j' s', jv s' = <[j_id j:=j']> m → sv s' = sv s → ran_once j j' → ended_badly j j' → Φ (Ok tt) s') →
  wp (retry_job overflow_checks powi failed) Φ s.
Proof.
  intros Hrel Hfit Hs (Hid & Hcron & Hrun) Hst Hpol Hsucc Hfail Hmax Hok. destruct Hfit as (_ & _ & _ & _ & _ & Hdelay & Hadd & _).
  unfold retry_job. apply wp_bind, wp_draw_random. intros r s1 H1 H1'. rewrite Hpol, Hrun.
  destruct (Hdelay r) as [delay Hd]. rewrite Hd. apply wp_bind, wp_lift. simpl.
  apply wp_bind, wp_clock_both. intros now s2 H2 H2'. destruct (Hadd now delay) as [next_run Hn]. rewrite Hn.
  apply wp_bind, wp_lift. simpl.
  unfold set_next_run_time. apply wp_bind, wp_bind, wp_clock_both. intros t s3 H3 H3'. apply wp_ret, wp_bind.
  unfold reset_for_retry. rewrite bool_decide_eq_true_2 by (simpl; rewrite Hst; by left).
  apply wp_bind, wp_clock_both. intros now' s4 H4 H4'. apply wp_ret.
  assert (jv s4 = <[j_id j:=failed]> m) as Hs4 by congruence.
  apply wp_update_reliable; [done|rewrite Hs4; simpl; rewrite Hid, lookup_insert_eq; by eexists|].
  intros s5 H5 H5'. eapply Hok.
  - rewrite H5, Hs4. simpl. rewrite Hid. apply insert_insert_eq.
  - unfold sv in *. congruence.
  - by split_and!.
  - split_and!; [done..|]. replace (_ <? _) with true by lia. split; [done|].
    exists now, delay, r, next_run. done.
Qed.

Lemma next_run_answers {DL : DurationLaws} j s :
  (∀ now, calendar_reaches now (now + HORIZON)) →
  wp (calculate_next_run_time walk j) (λ r s', r ≠ Panic ∧ jv s' = jv s ∧ sv s' = sv s) s.
Proof.
  intros Hcal. unfold calculate_next_run_time. apply wp_bind, wp_lift. unfold cron_scheduler_new.
  pose proof (parse_cron_answers walk (j_cron_expression j)) as Hp.
  destruct (parse_cron walk (j_cron_expression j)) as [e|e|]; [|done..]. unfold mbind, res_bind.
  destruct (parse_tz (j_timezone j)) as [tz|]; [|done]. apply wp_bind, wp_clock_both. intros now s1 H1 H1'.
  apply wp_lift. split; [|done]. unfold scheduler_next_after. pose proof (next_after_spec e now tz (Hcal now)) as Hn.
  intros Hpanic. simpl in Hpanic. by rewrite Hpanic in Hn.
Qed.

Definition end_of_run (result : JobError + unit) j (m : gmap string Job) (s' : St (Sys S Q) W) (processed failed : Z) :
    Prop :=
  ∃ j', jv s' = <[j_id j:=j']> m ∧ ran_once j j' ∧
    match result with
    | inr _ => ended_well j j' ∧ sc_jobs_processed (sv s') = processed + 1
    | inl _ => ended_badly j j' ∧ sc_jobs_failed (sv s') = failed + 1
    end.

Lemma wp_count_job (b : bool) (Φ : res JobError unit → St (Sys S Q) W → Prop) s :
  sc_jobs_processed (sv s) < u64_max → sc_jobs_failed (sv s) < u64_max →
  (∀ s', jv s' = jv s → sc_active_jobs (sv s') = sc_active_jobs (sv s) →
     sc_jobs_processed (sv s') = sc_jobs_processed (sv s) + (if b then 1 else 0) →
     sc_jobs_failed (sv s') = sc_jobs_failed (sv s) + (if b then 0 else 1) → Φ (Ok tt) s') →
  wp (count_job overflow_checks b) Φ s.
Proof.
  intros Hp Hf H. unfold count_job. apply wp_bind. unfold wp, sched_read. simpl. unfold sv in *.
  destruct b; rewrite incr_fits by done; apply H; simpl; unfold sv; simpl; try done; lia.
Qed.

Lemma wp_end_badly {DL : DurationLaws} j j0 e s (Φ : res JobError unit → St (Sys S Q) W → Prop) :
  reliable → jv s !! j_id j = Some j0 → j_status j = Running → end_fits j s →
  (∀ s', sc_active_jobs (sv s') = sc_active_jobs (sv s) →
     end_of_run (inl e) j (jv s) s' (sc_jobs_processed (sv s)) (sc_jobs_failed (sv s)) → Φ (Ok tt) s') →
  wp (failed ← mark_as_failed overflow_checks j;
      _ ← in_store (update_job failed);
      _ ← (if can_retry failed then retry_job overflow_checks powi failed else mret tt);
      count_job overflow_checks false) Φ s.
Proof.
  intros Hrel Hj Hrun Hfit HΦ. pose proof Hfit as (Hr & Hs & Hf & Hp & Hff & _).
  unfold mark_as_failed, u32_incr. rewrite bool_decide_eq_false_2 by (intros []; done). rewrite !incr_fits by done.
  apply wp_bind, wp_bind, wp_clock_both. intros ran s1 H1 H1'. apply wp_bind, wp_clock_both. intros now s2 H2 H2'.
  apply wp_bind, wp_lift, wp_bind, wp_lift, wp_ret. set (failed := put_ran _ _ _ _ _ _ _).
  assert (jv s2 = jv s ∧ sv s2 = sv s) as [Hv Hsv] by (split; congruence).
  apply wp_bind, wp_update_reliable; [done|rewrite Hv; simpl; rewrite Hj; by eexists|]. intros s3 H3 H3'.
  change (j_id failed) with (j_id j) in H3. rewrite Hv in H3. assert (sv s3 = sv s) as Hsv3 by (unfold sv in *; congruence).
  assert (ran_once j failed) as Hro by done. apply wp_bind.
  assert (∀ j' s', jv s' = <[j_id j:=j']> (jv s) → sv s' = sv s → ran_once j j' → ended_badly j j' →
    wp (count_job overflow_checks false) Φ s') as Hend.
  { intros j' s' Hj' Hs' Hro' Hend. apply wp_count_job; [by rewrite Hs'..|]. intros s4 H4 Ha Hp4 Hf4.
    apply HΦ; [by rewrite Ha, Hs'|]. exists j'. rewrite H4, Hf4, Hs'. done. }
  assert (can_retry failed = (j_failure_count j + 1 <? j_max_attempts j)) as Hc by done. rewrite Hc.
  destruct (j_failure_count j + 1 <? j_max_attempts j) eqn:Hm.
  - apply (wp_retry_ends (jv s) j); try done; [|lia|].
    + unfold end_fits. by rewrite Hsv3.
    + intros j' s' Hj' Hs'. apply Hend; [done|congruence].
  - apply wp_ret. apply (Hend failed); try done. split_and!; [done..|]. by rewrite Hm.
Qed.
Lemma wp_end_well {DL : DurationLaws} j j0 s (Φ : res JobError unit → St (Sys S Q) W → Prop) :
  reliable → jv s !! j_id j = Some j0 → j_status j = Running → end_fits j s →
  (∀ s', sc_active_jobs (sv s') = sc_active_jobs (sv s) →
     end_of_run (inr tt) j (jv s) s' (sc_jobs_processed (sv s)) (sc_jobs_failed (sv s)) → Φ (Ok tt) s') →
  wp (completed ← mark_as_completed overflow_checks j;
      _ ← in_store (update_job completed);
      next ← attempt (calculate_next_run_time walk completed);
      _ ← match next with
          | inr next_run => in_store (update_job (put_next_run (Some next_run) completed))
          | inl _ => mret tt
          end;
      count_job overflow_checks true) Φ s.
Proof.
  intros Hrel Hj Hrun Hfit HΦ. pose proof Hfit as (Hr & Hs & Hf & Hp & Hff & _ & _ & Hcal).
  unfold mark_as_completed, u32_incr. rewrite bool_decide_eq_false_2 by (intros []; done). rewrite !incr_fits by done.
  apply wp_bind, wp_bind, wp_clock_both. intros ran s1 H1 H1'. apply wp_bind, wp_clock_both. intros now s2 H2 H2'.
  apply wp_bind, wp_lift, wp_bind, wp_lift, wp_ret. set (completed := put_ran _ _ _ _ _ _ _).
  assert (jv s2 = jv s ∧ sv s2 = sv s) as [Hv Hsv] by (split; congruence).
  apply wp_bind, wp_update_reliable; [done|rewrite Hv; simpl; rewrite Hj; by eexists|]. intros s3 H3 H3'.
  change (j_id completed) with (j_id j) in H3. rewrite Hv in H3. assert (sv s3 = sv s) as Hsv3 by (unfold sv in *; congruence).
  assert (∀ j' s', jv s' = <[j_id j:=j']> (jv s) → sv s' = sv s → ran_once j j' → ended_well j j' →
    wp (count_job overflow_checks true) Φ s') as Hend.
  { intros j' s' Hj' Hs' Hro' Hend. apply wp_count_job; [by rewrite Hs'..|]. intros s4 H4 Ha Hp4 Hf4.
    apply HΦ; [by rewrite Ha, Hs'|]. exists j'. rewrite H4, Hp4, Hs'. done. }
  apply wp_bind, wp_attempt. eapply wp_mono; [by apply next_run_answers|]. intros r s4 (Hnp & H4 & H4').
  destruct r as [next_run|e|]; [| |done]; apply wp_bind.
  - apply wp_update_reliable; [done|rewrite H4, H3; simpl; rewrite lookup_insert_eq; by eexists|]. intros s5 H5 H5'.
    apply (Hend (put_next_run (Some next_run) completed)); [|unfold sv in *; congruence|done..].
    rewrite H5, H4, H3. apply insert_insert_eq.
  - apply wp_ret, (Hend completed); try done; congruence.
Qed.

(** how a run ends. However the stored job was changed while it ran, its end writes the copy taken when
    it began: completed, with a run and a success more; or, with a failure more, scheduled again after the
    policy's delay while attempts are left, and failed for good after. The scheduler counts the run and
    forgets the job among the running; nothing else of the store changes; over a store that does not fail
    there is no error, and no panic where no number overflows. *)
Theorem finish_job_spec {DL : DurationLaws} (j j0 : Job) (result : JobError + unit) (s : St (Sys S Q) W) :
  reliable → jv s !! j_id j = Some j0 → j_status j = Running → end_fits j s →
  wp (finish_job overflow_checks powi walk j result) (λ r s',
    r = Ok tt ∧ sc_active_jobs (sv s') = sc_active_jobs (sv s) ∖ {[j_id j]} ∧
    end_of_run result j (jv s) s' (sc_jobs_processed (sv s)) (sc_jobs_failed (sv s))) s.
Proof.
  intros Hrel Hj Hrun Hfit. unfold finish_job. apply wp_bind. destruct result as [e|[]].
  - apply (wp_end_badly j j0 e); [done..|]. intros s' Ha He. split; [done|]. split; [|exact He]. unfold sv in *. simpl. by rewrite Ha.
  - apply (wp_end_well j j0); [done..|]. intros s' Ha He. split; [done|]. split; [|exact He]. unfold sv in *. simpl. by rewrite Ha.
Qed.
End facts.

(** ** The store in memory *)
Section in_memory.
Context {U : Unicode} {L : Libs} {HI : HashIter} {W : Type} {HW : World W}.
#[local] Ltac store_step := unfold wp, mbind, sm_bind, store_read, store_write; simpl.

#[export] Program Instance in_memory_laws : StoreLaws JobStore W := { view := jobs }.
Next Obligation. intros id s. by store_step. Qed.
Next Obligation.
  intros j s. simpl. unfold mem_create_job. store_step. destruct (jobs (tables s) !! j_id j) eqn:Hj; simpl; [done|by split].
Qed.
Next Obligation.
  intros j s. simpl. unfold mem_update_job. store_step. destruct (jobs (tables s) !! j_id j) eqn:Hj; simpl; [|done]. by eexists.
Qed.
Next Obligation.
  intros before s. store_step. split; [done|]. unfold job_values.
  set (f := is_pending before). assert (∀ l l' : list Job, l ≡ₚ l' → List.filter f l ≡ₚ List.filter f l') as Hp.
  { induction 1; simpl; repeat case_match; try done; [by constructor|by constructor|by etrans]. }
  apply Hp, fmap_Permutation, hash_iter_perm.
Qed.
Next Obligation. intros t s. by store_step. Qed.

Lemma in_memory_reliable : reliable (S:=JobStore) (W:=W).
Proof.
  intros j s [j0 Hj]. unfold view in Hj. simpl in Hj. exists (mkSt (put_job (j_id j) j (tables s)) (world s)).
  simpl. unfold mem_update_job, mbind, sm_bind, store_read, store_write. simpl. by rewrite Hj.
Qed.
End in_memory.

(** ** Jobs that run

    A scheduler in UTC over the store and the queue in memory, from 2024-01-01 10:15:20: what the
    theorems of [JobSchedulerFacts] say of it, and what its jobs come to. *)
Module JobExample.
Import CronExample.
#[local] Existing Instance Concrete.libs.
#[local] Existing Instance ascii_unicode.
#[local] Existing Instance ConcreteWorld.demo_world.
#[local] Existing Instance CronExample.utc_zones.
#[local] Instance any_order : HashIter := { hash_iter V := map_to_list; hash_iter_perm V m := reflexivity _ }.
#[local] Instance half : Randomness ConcreteWorld.DW := {| draw_random w := (f64_half, w) |}.
#[local] Instance mock : QueueService MockQueue ConcreteWorld.DW := MockQueueService true.
Fixpoint f64_pow (x : f64) (n : nat) : f64 := match n with O => f64_of_Z 1 | S n => f64_mul x (f64_pow x n) end.
Definition powi (x : f64) (n : Z) : f64 := f64_pow x (Z.to_nat n).
Definition to_value (j : Job) : string + Value := inr (VString (j_id j)).
(** A queue that takes nothing. *)
Definition refusing : QueueService MockQueue ConcreteWorld.DW := {|
  enqueue _ := sm_err (ConnectionError "refused"); dequeue := mret None; ack _ := mret false; nack _ _ := mret false;
  delete_message _ := mret false; get_message _ := mret None; get_queue_stats := mret stats_zero; purge := mret 0;
  queue_size := mret 0 |}.

Definition state (l : list Job) (t : instant) : St (Sys JobStore MockQueue) ConcreteWorld.DW :=
  mkSt (mkSys (mkStore (list_to_map (map (λ j, (j_id j, j)) l)) ∅) mock_new (set_running true (Some t) sched_new))
    (ConcreteWorld.mkDW [] t 0%N).
Definition report : Job := job_new start "report" "Report" "0,30 * * * *" "reports" VNull.
Definition due : Job := put_next_run (Some (start - 1)) report.
Definition brief (j : Job) : JobStatus * Z * Z * option instant :=
  (j_status j, j_run_count j, j_failure_count j, j_next_run_time j).
Definition stored_job (s : St (Sys JobStore MockQueue) ConcreteWorld.DW) (id : string) : option (JobStatus * Z * Z * option instant) :=
  brief <$> jobs (sy_store (tables s)) !! id.
Definition later (t : instant) (s : St (Sys JobStore MockQueue) ConcreteWorld.DW) : St (Sys JobStore MockQueue) ConcreteWorld.DW :=
  mkSt (tables s) (ConcreteWorld.mkDW [] t 0%N).

Definition run_rounds (n : nat) (s : St (Sys JobStore MockQueue) ConcreteWorld.DW) :=
  (background (QS:=mock) true powi elements to_value config_default false n s).2.
Definition run_refused (n : nat) (s : St (Sys JobStore MockQueue) ConcreteWorld.DW) :=
  (background (QS:=refusing) true powi elements to_value config_default false n s).2.

(** A job of every half hour runs once: it is completed, has a next time, and is not run at it. *)
Example runs_once :
  let s := run_rounds 1 (state [due] start) in
  stored_job s "report" = Some (Completed, 1, 0, Some (1704105000 * 1000000000)) ∧
  stored_job (run_rounds 3 (later (1704105001 * 1000000000) s)) "report" = stored_job s "report".
Proof. vm_compute. split; reflexivity. Qed.
(** A job the queue refuses is tried again, later and later, and given up at its fifth failure. *)
Example given_up :
  let at_ s t := later (start + t * 1000000000) s in
  let s1 := run_refused 1 (state [due] start) in
  let s2 := run_refused 1 (at_ s1 61) in
  let s3 := run_refused 1 (at_ s2 182) in
  let s4 := run_refused 1 (at_ s3 423) in
  let s5 := run_refused 1 (at_ s4 904) in
  (λ b : JobStatus * Z * Z * option instant, (b.1.1.1, b.1.2)) <$> stored_job s1 "report" = Some (Scheduled, 1) ∧
  (λ b : JobStatus * Z * Z * option instant, (b.1.1.1, b.1.2)) <$> stored_job s4 "report" = Some (Scheduled, 4) ∧
  (λ b : JobStatus * Z * Z * option instant, (b.1.1.1, b.1.2)) <$> stored_job s5 "report" = Some (Failed, 5).
Proof. vm_compute. repeat split; reflexivity. Qed.

Lemma calendar now : calendar_reaches now (now + HORIZON).
Proof. by intros t s _ _. Qed.

(** A completed job beside one that is due: two rounds leave the first as it is. *)
Definition done_job : Job := put_status Completed start (put_ran Completed start start 1 1 0
  (put_next_run (Some (start - 1)) (job_new start "done" "Done" "* * * * *" "reports" VNull))).

Definition scheduled : res JobError unit * St (Sys JobStore MockQueue) ConcreteWorld.DW :=
  schedule_job elements report (state [] start).
Lemma schedule_job_spec_witness :
  scheduled.1 = Ok tt ∧
  ∃ c now t, cron_scheduler_new elements "0,30 * * * *" "UTC" = Ok c ∧
    jv scheduled.2 !! "report" = Some (put_next_run (Some t) report) ∧
    now < t ∧ ∀ m, whole_minute m → now < m < t → scheduler_matches c m = false.
Proof.
  assert (scheduled.1 = Ok tt) as Hok by by_vm. split; [exact Hok|].
  pose proof (schedule_job_spec elements report (state [] start) calendar) as H.
  unfold wp in H. fold scheduled in H. rewrite Hok in H.
  destruct H as (_ & _ & c & now & t & Hc & Hs & Hlt & _ & _ & Hm). exists c, now, t.
  split; [exact Hc|]. split; [rewrite Hs; by rewrite lookup_insert_eq|]. split; [exact Hlt|exact Hm].
Defined.

(** A job cancelled while it runs: the cancellation answers, and the run's end overwrites it. *)
Definition running : Job := put_status Running start due.
Definition cancelled_job : Job := put_status Cancelled start due.
Definition finished : res JobError unit * St (Sys JobStore MockQueue) ConcreteWorld.DW :=
  finish_job true powi elements running (inr tt) (state [cancelled_job] start).
Lemma finish_job_spec_witness :
  finished.1 = Ok tt ∧
  ∃ j', jv finished.2 !! "report" = Some j' ∧ j_status j' = Completed ∧ j_run_count j' = 1.
Proof.
  assert (end_fits true powi running (state [cancelled_job] start)) as Hfit.
  { unfold end_fits, running. simpl. split_and!; try (unfold u32_max, u64_max; lia).
    - intros r. vm_compute. by eexists.
    - intros now d. by eexists.
    - apply calendar. }
  pose proof (finish_job_spec true powi elements running cancelled_job (inr tt) (state [cancelled_job] start)
    in_memory_reliable ltac:(by_vm) eq_refl Hfit) as H.
  unfold wp in H. fold finished in H. destruct H as (Hok & _ & j' & Hj & (_ & _ & Hr) & (Hs & _) & _).
  split; [exact Hok|]. exists j'. rewrite Hj. split; [by rewrite lookup_insert_eq|]. split; [exact Hs|exact Hr].
Defined.
End JobExample.
