(* ===== verification/Fifo.v ===== *)
(** * FIFO queues

    [backbone-queue/src/fifo.rs]: a wrapper over any queue that refuses a message whose deduplication id
    it has seen, numbers and groups messages, and reads one group. [DefaultHasher], serde's text of a
    payload and the walk over a hash map are parameters; [Instant] is a reading of the clock. Three counters
    of the statistics that nothing writes are left out. *)
From Stdlib Require Import ZArith Lia Ascii.
From stdpp Require Import sorting.
From S2P Require Import Prelude Float64 RustStr RustChar Json Database JobTypes QueueMessage Queue.

Local Open Scope Z_scope.

Record FifoQueueConfig := mkFifoConfig {
  fc_enabled : bool; fc_deduplication_window_seconds : Z; fc_max_message_groups : Z;
  fc_enable_content_deduplication : bool; fc_content_deduplication_window_seconds : Z;
  fc_max_deduplicated_messages : Z }.
Definition fifo_config_default : FifoQueueConfig := mkFifoConfig true 300 10000 false 60 100000.

Record MessageGroupStats := mkGroupStats {
  gs_message_count : Z; gs_processed_count : Z; gs_failed_count : Z; gs_avg_processing_time_ms : f64;
  gs_last_message_at : option instant; gs_created_at : instant }.
(** [Default]: the epoch for a time. *)
Definition group_stats_default : MessageGroupStats := mkGroupStats 0 0 0 f64_zero None 0.
Definition group_stats_new (now : instant) : MessageGroupStats := mkGroupStats 0 0 0 f64_zero None now.
Definition group_success_rate (s : MessageGroupStats) : f64 :=
  let total := gs_processed_count s + gs_failed_count s in
  if 0 <? total then f64_mul (f64_div (f64_of_Z (gs_processed_count s)) (f64_of_Z total)) (f64_of_Z 100) else f64_zero.

Record FifoQueueStats := mkFifoStats {
  fs_total_groups : Z; fs_group_stats : gmap string MessageGroupStats;
  fs_deduplication_cache : gmap string instant; fs_content_deduplication_cache : gmap string instant;
  fs_last_updated : instant }.
Definition fifo_stats_new (now : instant) : FifoQueueStats := mkFifoStats 0 ∅ ∅ ∅ now.

(** The wrapper: the queue inside and the statistics behind their lock. *)
Record Fifo (Q : Type) := mkFifo { ff_inner : Q; ff_stats : FifoQueueStats }.
Arguments mkFifo {_} _ _.
Arguments ff_inner {_} _.
Arguments ff_stats {_} _.

Section fifo.
Context {L : Libs} {HI : HashIter}.
Context {Q W : Type} {HW : World W} {QS : QueueService Q W}.
Variable overflow_checks : bool.
(** [DefaultHasher] over a text, as a [u64], and its [{:x}]. *)
Variable hash_text : string → Z.
Variable show_hex : Z → string.
(** [serde_json::to_string(content).unwrap_or_default()] *)
Variable payload_text : Value → string.
Variable config : FifoQueueConfig.
#[local] Abbreviation Mo := (sm (St (Fifo Q) W) QueueError).

Definition in_inner {A} (m : sm (St Q W) QueueError A) : Mo A :=
  sm_zoom (λ s, mkSt (ff_inner (tables s)) (world s))
    (λ t s, mkSt (mkFifo (tables t) (ff_stats (tables s))) (world t)) m.
Definition fifo_read {A} (f : FifoQueueStats → A) : Mo A := λ s, (Ok (f (ff_stats (tables s))), s).
Definition fifo_write (f : FifoQueueStats → FifoQueueStats) : Mo unit := λ s,
  (Ok tt, mkSt (mkFifo (ff_inner (tables s)) (f (ff_stats (tables s)))) (world s)).
Definition counted (n : Z) : Mo Z := sm_lift (or_panic (checked_incr overflow_checks u64_max n)).

Definition set_caches (d c : gmap string instant) (s : FifoQueueStats) : FifoQueueStats :=
  mkFifoStats (fs_total_groups s) (fs_group_stats s) d c (fs_last_updated s).
Definition set_groups (g : gmap string MessageGroupStats) (s : FifoQueueStats) : FifoQueueStats :=
  mkFifoStats (fs_total_groups s) g (fs_deduplication_cache s) (fs_content_deduplication_cache s) (fs_last_updated s).
Definition set_total (n : Z) (s : FifoQueueStats) : FifoQueueStats :=
  mkFifoStats n (fs_group_stats s) (fs_deduplication_cache s) (fs_content_deduplication_cache s) (fs_last_updated s).
Definition set_updated (t : instant) (s : FifoQueueStats) : FifoQueueStats :=
  mkFifoStats (fs_total_groups s) (fs_group_stats s) (fs_deduplication_cache s) (fs_content_deduplication_cache s) t.

(** [update_group]: the average is taken over what has been counted. *)
Definition update_group (group_id : string) (processed : bool) (processing_time_ms : Z) : Mo unit :=
  groups ← fifo_read fs_group_stats;
  let stats := default group_stats_default (groups !! group_id) in
  n ← counted (gs_message_count stats);
  now ← utc_now;
  p ← (if processed then counted (gs_processed_count stats) else mret (gs_processed_count stats));
  f ← (if processed then mret (gs_failed_count stats) else counted (gs_failed_count stats));
  let total := p + f in
  let avg :=
    if 0 <? total then
      f64_div (f64_add (f64_mul (gs_avg_processing_time_ms stats) (f64_of_Z (total - 1))) (f64_of_Z processing_time_ms))
        (f64_of_Z total)
    else gs_avg_processing_time_ms stats in
  _ ← fifo_write (λ s, set_groups (<[group_id := mkGroupStats n p f avg (Some now) (gs_created_at stats)]> (fs_group_stats s)) s);
  now ← utc_now;
  fifo_write (set_updated now).

(** [retain(|_, t| now - t < window)] *)
Definition fresh_entries (now : instant) (window : Z) (m : gmap string instant) : gmap string instant :=
  filter (λ kv, num_seconds (now - kv.2) < u64_as_i64 window) m.
(** The first keys of a walk are removed until the map is small enough. *)
Definition shrink {V} (max : Z) (m : gmap string V) : gmap string V :=
  let over := Z.of_nat (size m) - max in
  foldl (λ m k, delete k m) m (take (Z.to_nat over) (hash_iter m).*1).
Definition cleanup_expired_entries : Mo unit :=
  now ← utc_now;
  fifo_write (λ s,
    let d := shrink (fc_max_deduplicated_messages config)
               (fresh_entries now (fc_deduplication_window_seconds config) (fs_deduplication_cache s)) in
    let c := shrink (fc_max_deduplicated_messages config)
               (fresh_entries now (fc_content_deduplication_window_seconds config) (fs_content_deduplication_cache s)) in
    set_groups (shrink (fc_max_message_groups config) (fs_group_stats s)) (set_caches d c s)).

Definition hash_hex (text : string) : string := show_hex (hash_text text).
Definition generate_content_hash (payload : Value) : string := hash_hex (payload_text payload).
Definition validate_fifo_message (m : QueueMessage) : res QueueError unit :=
  if negb (fc_enabled config) then Err (ConfigError "FIFO is disabled")
  else
    match m_message_group_id m with
    | None => Err (ConfigError "FIFO messages must have message_group_id")
    | Some _ =>
        match m_message_deduplication_id m with
        | None => Err (ConfigError "FIFO messages must have message_deduplication_id")
        | Some dedup_id =>
            if bool_decide (dedup_id = "") then Err (ConfigError "message_deduplication_id cannot be empty")
            else if 128 <? str_len dedup_id then
              Err (ConfigError "message_deduplication_id cannot exceed 128 characters")
            else Ok tt
        end
    end.
(** [Utc::now().timestamp_nanos_opt().unwrap_or(0) as u64], plus the group's hash, wrapping. *)
Definition timestamp_nanos (t : instant) : Z :=
  if (i64_min <=? t) && (t <=? i64_max) then t mod (u64_max + 1) else 0.
Definition generate_sequence_number (group_id : string) : Mo Z :=
  now ← utc_now; mret ((timestamp_nanos now + hash_text group_id) mod (u64_max + 1)).

Definition is_message_duplicated (deduplication_id : string) : Mo bool :=
  fifo_read (λ s, bool_decide (is_Some (fs_deduplication_cache s !! deduplication_id))).
Definition is_content_duplicated (content : string) : Mo bool :=
  fifo_read (λ s, bool_decide (is_Some (fs_content_deduplication_cache s !! hash_hex content))).

(** [Option::unwrap] *)
Definition unwrap {A} (o : option A) : Mo A := sm_lift (or_panic o).

Definition enqueue_fifo (m : QueueMessage) : Mo string :=
  _ ← sm_lift (validate_fifo_message m);
  _ ← match m_message_deduplication_id m with
      | Some dedup_id =>
          dup ← is_message_duplicated dedup_id;
          if (dup : bool) then sm_err (Other ("Message with deduplication ID " +:+ dedup_id +:+ " already exists"))
          else mret tt
      | None => mret tt
      end;
  m ← (if fc_enable_content_deduplication config then
         let content_hash := generate_content_hash (m_payload m) in
         dup ← is_content_duplicated content_hash;
         if (dup : bool) then sm_err (Other "Message with identical content already exists")
         else mret (with_attributes (<["content_hash" := content_hash]> (m_attributes m)) m)
       else mret m);
  group_id ← unwrap (m_message_group_id m);
  sequence_number ← generate_sequence_number group_id;
  dedup_id ← unwrap (m_message_deduplication_id m);
  let m := with_attributes
    (<["fifo_deduplication_id" := dedup_id]> (<["fifo_group" := group_id]>
      (<["fifo_sequence" := show_Z sequence_number]> (m_attributes m)))) m in
  message_id ← in_inner (enqueue m);
  n ← (total ← fifo_read fs_total_groups; counted total);
  _ ← fifo_write (set_total n);
  now ← utc_now;
  _ ← fifo_write (λ s, set_caches (<[dedup_id := now]> (fs_deduplication_cache s)) (fs_content_deduplication_cache s) s);
  _ ← update_group group_id true 0;
  mret message_id.

(** [sort_by] on the groups, which is stable. *)
Definition group_le (a b : QueueMessage) : Prop :=
  str_le (default "" (m_message_group_id a)) (default "" (m_message_group_id b)).
#[export] Instance group_le_dec : RelDecision group_le := λ a b, decide (str_le _ _).
Definition enqueue_fifo_batch (messages : list QueueMessage) : Mo (list string) :=
  _ ← sm_iter (λ m, sm_lift (validate_fifo_message m)) messages;
  mapM enqueue_fifo (stable_sort group_le messages).

(** The elapsed milliseconds are the clock's. *)
Fixpoint search_group_from (attempts : nat) (start_time : instant) (group_id : string) : Mo (option QueueMessage) :=
  match attempts with
  | O => mret None
  | S attempts =>
      found ← in_inner dequeue;
      match found with
      | None => mret None
      | Some m =>
          match m_attributes m !! "fifo_group" with
          | Some fifo_group =>
              if bool_decide (fifo_group = group_id) then
                now ← utc_now;
                _ ← update_group group_id true (Z.max 0 ((now - start_time) / 1000000));
                mret (Some m)
              else
                _ ← in_inner (enqueue m);
                search_group_from attempts start_time group_id
          | None => mret None
          end
      end
  end.
Definition dequeue_from_group (group_id : string) : Mo (option QueueMessage) :=
  start_time ← utc_now; search_group_from 50 start_time group_id.

Definition get_group_stats (group_id : string) : Mo (option MessageGroupStats) :=
  fifo_read (λ s, fs_group_stats s !! group_id).
Definition get_all_group_stats : Mo (gmap string MessageGroupStats) := fifo_read fs_group_stats.
Definition get_fifo_stats : Mo FifoQueueStats := _ ← cleanup_expired_entries; fifo_read id.
Definition caches_size (s : FifoQueueStats) : Z :=
  Z.of_nat (size (fs_deduplication_cache s)) + Z.of_nat (size (fs_content_deduplication_cache s)).
Definition cleanup_deduplication : Mo Z :=
  now ← utc_now;
  initial_count ← fifo_read caches_size;
  _ ← fifo_write (λ s,
        set_caches (fresh_entries now (fc_deduplication_window_seconds config) (fs_deduplication_cache s))
          (fresh_entries now (fc_content_deduplication_window_seconds config) (fs_content_deduplication_cache s)) s);
  final_count ← fifo_read caches_size;
  mret (initial_count - final_count).
End fifo.

(** ** [utils] *)
Definition validate_fifo_config (c : FifoQueueConfig) : list string :=
  (if fc_deduplication_window_seconds c =? 0 then ["Deduplication window must be greater than 0 seconds"] else []) ++
  (if 86400 * 7 <? fc_deduplication_window_seconds c then ["Deduplication window cannot exceed 7 days"] else []) ++
  (if fc_max_message_groups c =? 0 then ["Max message groups must be greater than 0"] else []) ++
  (if 100000 <? fc_max_message_groups c then ["Max message groups cannot exceed 100000"] else []) ++
  (if (fc_content_deduplication_window_seconds c =? 0) && fc_enable_content_deduplication c
   then ["Content deduplication window must be greater than 0 seconds when enabled"] else []) ++
  (if fc_max_deduplicated_messages c =? 0 then ["Max deduplicated messages must be greater than 0"] else []).
Inductive MessageVolume := VolumeLow | VolumeMedium | VolumeHigh.
Definition get_recommended_config (v : MessageVolume) : FifoQueueConfig :=
  match v with
  | VolumeLow => mkFifoConfig true 300 1000 false 60 10000
  | VolumeMedium => mkFifoConfig true 900 10000 true 300 50000
  | VolumeHigh => mkFifoConfig true 3600 50000 true 1800 100000
  end.
Lemma recommended_valid v : validate_fifo_config (get_recommended_config v) = [].
Proof. by destruct v. Qed.
