(* ===== verification/FifoFacts.v ===== *)
(** * What FIFO queues guarantee

    A deduplication id that was accepted is refused for the window's length, whatever else is asked of
    the queue; a batch enters the queue whole or not past its first refusal, and each group of it in the
    order it was given. Both are proved over what [QueueLaws] says of the queue inside, which the queue in
    memory satisfies. *)
From Stdlib Require Import ZArith Lia Ascii.
From stdpp Require Import sorting.
From S2P Require Import Prelude Float64 RustStr RustChar Json Database ModuleRegistry JobTypes Cron CronFacts QueueMessage Queue Fifo.

Local Open Scope Z_scope.

(** What a queue promises: an accepted message stands last, under its own id; time passes. *)
Class QueueLaws {L : Libs} (Q W : Type) {HW : World W} {QS : QueueService Q W} := {
  contents : Q → list QueueMessage;
  enqueue_law : ∀ m (s : St Q W), wp (enqueue m) (λ r s', clk s ≤ clk s' ∧
    match r with Ok i => i = m_id m ∧ contents (tables s') = contents (tables s) ++ [m] | _ => True end) s;
  dequeue_law : ∀ s : St Q W, wp dequeue (λ _ s', clk s ≤ clk s') s;
}.

(** ** What may be asked of the wrapper, and what it answers *)
Inductive FifoCall {L : Libs} :=
  | CEnqueue (m : QueueMessage) | CBatch (l : list QueueMessage) | CFromGroup (group_id : string)
  | CGroupStats (group_id : string) | CAllStats | CIsDuplicated (id : string) | CIsContent (text : string) | CCleanup.

Section facts.
Context {L : Libs} {HI : HashIter}.
Context {Q W : Type} {HW : World W} {QS : QueueService Q W} {CF : ClockForward W} {QL : QueueLaws Q W}.
Variable overflow_checks : bool.
Variable hash_text : string → Z.
Variable show_hex : Z → string.
Variable payload_text : Value → string.
Variable config : FifoQueueConfig.
#[local] Abbreviation Mo := (sm (St (Fifo Q) W) QueueError).
#[local] Abbreviation fenqueue := (enqueue_fifo overflow_checks hash_text show_hex payload_text config).
#[local] Abbreviation fbatch := (enqueue_fifo_batch overflow_checks hash_text show_hex payload_text config).
Implicit Types (s : St (Fifo Q) W) (m : QueueMessage) (id : string).

Definition serve_fifo (c : FifoCall) : Mo unit :=
  match c with
  | CEnqueue m => _ ← fenqueue m; mret tt
  | CBatch l => _ ← fbatch l; mret tt
  | CFromGroup g => _ ← dequeue_from_group overflow_checks g; mret tt
  | CGroupStats g => _ ← get_group_stats g; mret tt
  | CAllStats => _ ← get_all_group_stats; mret tt
  | CIsDuplicated d => _ ← is_message_duplicated d; mret tt
  | CIsContent t => _ ← is_content_duplicated hash_text show_hex t; mret tt
  | CCleanup => _ ← cleanup_deduplication config; mret tt
  end.
(** Does the call bring a message of this deduplication id? *)
Definition brings id (c : FifoCall) : Prop :=
  match c with
  | CEnqueue m => m_message_deduplication_id m = Some id
  | CBatch l => Exists (λ m, m_message_deduplication_id m = Some id) l
  | _ => False
  end.
Fixpoint serve_all (cs : list FifoCall) s : list (res QueueError unit) * St (Fifo Q) W :=
  match cs with
  | [] => ([], s)
  | c :: cs => let '(r, s1) := serve_fifo c s in let '(rs, s2) := serve_all cs s1 in (r :: rs, s2)
  end.

(** ** The deduplication cache *)
Definition dcache s : gmap string instant := fs_deduplication_cache (ff_stats (tables s)).
Definition window_open (now t : instant) : Prop :=
  num_seconds (now - t) < u64_as_i64 (fc_deduplication_window_seconds config).
Lemma window_open_before now now' t : now ≤ now' → window_open now' t → window_open now t.
Proof.
  unfold window_open, num_seconds. intros Hn Ho.
  assert (Z.quot (now - t) 1000000000 ≤ Z.quot (now' - t) 1000000000) by (apply Z.quot_le_mono; lia). lia.
Qed.

(** The messages in the queue inside. *)
Definition inside s : list QueueMessage := contents (ff_inner (tables s)).

(** Time passes, and nothing else. *)
Definition idle : relation (St (Fifo Q) W) := λ s s', clk s ≤ clk s' ∧ dcache s' = dcache s ∧ inside s' = inside s.
#[local] Instance idle_preorder : PreOrder idle.
Proof. split; [intros s; split_and!; [lia|done..]|]. intros s1 s2 s3 (?&?&?) (?&?&?). split_and!; [lia|congruence..]. Qed.
#[local] Hint Extern 1 (PreOrder idle) => exact idle_preorder : keeps.

Lemma idle_time : keeps (E:=QueueError) idle utc_now.
Proof.
  intros s. unfold idle, utc_now, clk. pose proof (clock_forward (world s)) as Hc.
  destruct (w_utc_now (world s)) as [now w]. done.
Qed.
Lemma idle_read {A} (f : FifoQueueStats → A) : keeps idle (fifo_read (Q:=Q) (W:=W) f).
Proof. intros s. split_and!; [simpl; lia|done..]. Qed.
Lemma idle_write f :
  (∀ x, fs_deduplication_cache (f x) = fs_deduplication_cache x) → keeps idle (fifo_write (Q:=Q) (W:=W) f).
Proof. intros Hf s. split_and!; [unfold clk; simpl; lia|apply Hf|done]. Qed.
Lemma idle_groups f : keeps idle (fifo_write (Q:=Q) (W:=W) (λ x, set_groups (f x) x)).
Proof. by apply idle_write. Qed.
Lemma idle_updated now : keeps idle (fifo_write (Q:=Q) (W:=W) (set_updated now)).
Proof. by apply idle_write. Qed.
Lemma idle_total n : keeps idle (fifo_write (Q:=Q) (W:=W) (set_total n)).
Proof. by apply idle_write. Qed.
Lemma idle_counted n : keeps idle (counted (Q:=Q) (W:=W) overflow_checks n).
Proof. unfold counted. apply keeps_lift, _. Qed.
#[local] Hint Resolve idle_time idle_read idle_groups idle_updated idle_total idle_counted : keeps.

Ltac idle_body :=
  repeat first [progress intros | apply keeps_bind; [exact idle_preorder|..] | case_match]; eauto 4 with keeps.
Lemma idle_update_group g b n : keeps idle (update_group (Q:=Q) (HW:=HW) overflow_checks g b n).
Proof. unfold update_group. idle_body. Qed.
Lemma idle_sequence g : keeps idle (generate_sequence_number (Q:=Q) (HW:=HW) hash_text g).
Proof. unfold generate_sequence_number. idle_body. Qed.
#[local] Hint Resolve idle_update_group idle_sequence : keeps.
Lemma wp_idle {A} (c : Mo A) (Φ : res QueueError A → St (Fifo Q) W → Prop) s :
  keeps idle c → (∀ r s', idle s s' → Φ r s') → wp c Φ s.
Proof. intros Hc HΦ. apply HΦ, Hc. Qed.
Lemma wp_inner {A} (c : sm (St Q W) QueueError A) (Φ : res QueueError A → St (Fifo Q) W → Prop) s :
  wp c (λ r x, Φ r (mkSt (mkFifo (tables x) (ff_stats (tables s))) (world x))) (mkSt (ff_inner (tables s)) (world s)) →
  wp (in_inner c) Φ s.
Proof. unfold wp, in_inner, sm_zoom. by destruct (c _) as [r x]. Qed.

Lemma wp_now (Φ : res QueueError instant → St (Fifo Q) W → Prop) s :
  (∀ s', idle s s' → Φ (Ok (clk s)) s') → wp utc_now Φ s.
Proof.
  intros H. specialize (H (utc_now (E:=QueueError) s).2 (idle_time s)). revert H.
  unfold wp, utc_now, clk. by destruct (w_utc_now (world s)).
Qed.

(** The id is new, and is remembered from now on. *)
Definition takes m s s' : Prop := ∃ d now,
  m_message_deduplication_id m = Some d ∧ dcache s !! d = None ∧ clk s ≤ now ≤ clk s' ∧ dcache s' = <[d:=now]> (dcache s).
(** A message enters last, under its id, when its deduplication id is new; a refusal changes no entry
    but its own. *)
Lemma wp_fenqueue m s :
  wp (fenqueue m) (λ r s', clk s ≤ clk s' ∧
    match r with
    | Ok i => i = m_id m ∧ takes m s s' ∧ ∃ a, inside s' = inside s ++ [with_attributes a m]
    | _ => dcache s' = dcache s ∨ takes m s s'
    end) s.
Proof.
  unfold enqueue_fifo. apply wp_bind, wp_lift. destruct (validate_fifo_message config m) as [[]|e|]; [|auto with lia..].
  apply wp_bind. apply (wp_mono _ (λ r s', s' = s ∧
    match r with Ok _ => ∀ d, m_message_deduplication_id m = Some d → dcache s !! d = None | _ => True end)).
  { unfold is_message_duplicated, fifo_read. destruct (m_message_deduplication_id m) as [d|]; [|by apply wp_ret].
    unfold wp, mbind, sm_bind. fold (dcache s). case_bool_decide as Hd; [done|]. split; [done|].
    intros d' [= ->]. by apply eq_None_not_Some. }
  intros [[]|e|] s1 [-> Hnew]; [|auto with lia..]. apply wp_bind.
  apply (wp_mono _ (λ r s', idle s s' ∧ match r with Ok m' => ∃ a, m' = with_attributes a m | _ => True end)).
  { assert (idle s s) by done. case_match; [|apply wp_ret; split; [done|]; exists (m_attributes m); by destruct m].
    unfold is_content_duplicated, fifo_read. unfold wp, mbind, sm_bind. case_bool_decide; split; try done. by eexists. }
  intros [m'|e|] s1 [H1 Hm']; [|destruct H1 as (?&?&?); auto with lia..]. destruct Hm' as [a ->].
  unfold unwrap. apply wp_bind, wp_lift. cbn [m_message_group_id with_attributes].
  destruct (m_message_group_id m) as [g|]; simpl; [|destruct H1 as (?&?&?); auto with lia].
  apply wp_bind, wp_idle; [apply idle_sequence|]. intros [n|e|] s2 H2;
    [|(assert (idle s s2) as (?&?&?) by (by trans s1)); auto with lia..].
  assert (idle s s2) as H3 by (by trans s1). clear dependent s1.
  apply wp_bind, wp_lift. cbn [m_message_deduplication_id with_attributes].
  destruct (m_message_deduplication_id m) as [d|] eqn:Hd; simpl; [|destruct H3 as (?&?&?); auto with lia].
  specialize (Hnew d eq_refl). apply wp_bind, wp_inner. eapply wp_mono; [apply enqueue_law|].
  intros [i|e|] x [Hx Hi]; [|destruct H3 as (?&Hc&?); split; [unfold clk in *; simpl in *; lia|left; exact Hc]..].
  destruct Hi as [-> Hi]. set (s3 := mkSt _ _). destruct H3 as (H3 & Hc3 & Hi3).
  assert (clk s ≤ clk s3 ∧ dcache s3 = dcache s ∧ ∃ a, inside s3 = inside s ++ [with_attributes a m]) as (Hs & Hc & Hin).
  { split; [unfold clk in *; simpl in *; lia|]. split; [exact Hc3|]. eexists. unfold inside in *. simpl in *.
    rewrite Hi. simpl. rewrite Hi3. done. }
  clearbody s3. clear dependent s2.
  apply wp_bind, wp_idle; [idle_body|]. intros [total|e|] s4 (H4 & Hc4 & Hi4); [|split; [lia|left; congruence]..].
  apply wp_bind, wp_idle; [apply idle_total|]. intros [[]|e|] s5 (H5 & Hc5 & Hi5); [|split; [lia|left; congruence]..].
  apply wp_bind, wp_now. intros s6 (H6 & Hc6 & Hi6).
  apply wp_bind. unfold wp at 1, fifo_write at 1. simpl. set (s7 := mkSt _ _).
  assert (clk s7 = clk s6 ∧ inside s7 = inside s6 ∧ dcache s7 = <[d:=clk s5]> (dcache s)) as (H7 & Hi7 & Hc7).
  { split_and!; [done..|]. unfold dcache at 1. simpl. f_equal. fold (dcache s6). congruence. }
  clearbody s7. apply wp_bind, wp_idle; [apply idle_update_group|]. intros r s8 (H8 & Hc8 & Hi8).
  assert (takes m s s8) as Ht.
  { exists d, (clk s5). split_and!; [done..|lia|lia|congruence]. }
  destruct r as [[]|e|]; [|split; [lia|by right]..]. apply wp_ret. split_and!; [lia|done..|].
  destruct Hin as [a' Hin]. exists a'. congruence.
Qed.

(** ** An entry stays *)
(** Time passes, and an entry stays while its window is open. *)
Definition remembers id (t : instant) : relation (St (Fifo Q) W) := λ s s',
  clk s ≤ clk s' ∧ (window_open (clk s') t → dcache s !! id = Some t → dcache s' !! id = Some t).
#[local] Instance remembers_preorder id t : PreOrder (remembers id t).
Proof.
  split; [intros s; split; [lia|done]|]. intros s1 s2 s3 [H1 K1] [H2 K2]. split; [lia|].
  intros Ho Hc. apply K2, K1, Hc; [done|]. by eapply window_open_before.
Qed.
#[local] Hint Extern 1 (PreOrder (remembers _ _)) => apply remembers_preorder : keeps.

Section entry.
Variables (id : string) (t : instant).

Lemma idle_remembers s s' : idle s s' → remembers id t s s'.
Proof. intros (H & Hc & _). split; [done|]. by rewrite Hc. Qed.
Lemma keeps_idle {A} (c : Mo A) : keeps idle c → keeps (remembers id t) c.
Proof. intros Hc s. apply idle_remembers, Hc. Qed.
Lemma takes_remembers m s s' : clk s ≤ clk s' → dcache s' = dcache s ∨ takes m s s' → remembers id t s s'.
Proof.
  intros H Hc. split; [done|]. intros _ Hid. destruct Hc as [->|(d & now & _ & Hd & _ & ->)]; [done|].
  rewrite lookup_insert_ne; [done|]. congruence.
Qed.
Lemma keeps_fenqueue m : keeps (remembers id t) (fenqueue m).
Proof.
  intros s. pose proof (wp_fenqueue m s) as H. unfold wp in H. destruct (fenqueue m s) as [[i|e|] s'];
    destruct H as [H Hc]; apply (takes_remembers m); try done. right. by destruct Hc as (_ & ? & _).
Qed.
Lemma keeps_fbatch l : keeps (remembers id t) (fbatch l).
Proof.
  unfold enqueue_fifo_batch. apply keeps_bind; [apply _|apply keeps_iter; [apply _|]|].
  - intros m. apply keeps_lift, _.
  - intros _. apply keeps_mapM; [apply _|]. apply Forall_true. apply keeps_fenqueue.
Qed.
Lemma keeps_inner {A} (c : sm (St Q W) QueueError A) :
  (∀ x, wp c (λ _ x', clk x ≤ clk x') x) → keeps (remembers id t) (in_inner c).
Proof. intros Hc s. apply (wp_inner c (λ _ s', remembers id t s s')). eapply wp_mono; [apply Hc|]. by intros r x H. Qed.
Lemma keeps_from_group g : keeps (remembers id t) (dequeue_from_group overflow_checks g).
Proof.
  assert (∀ m, keeps (remembers id t) (in_inner (enqueue m))) as Henq.
  { intros m. apply keeps_inner. intros x. eapply wp_mono; [apply enqueue_law|]. by intros r x' [? _]. }
  pose proof (keeps_inner _ dequeue_law) as Hdeq. pose proof (keeps_idle _ idle_time) as Htime.
  assert (∀ g b n, keeps (remembers id t) (update_group overflow_checks g b n)) as Hupd.
  { intros. apply keeps_idle, idle_update_group. }
  unfold dequeue_from_group. apply keeps_bind; [apply _|done|]. intros start.
  generalize 50%nat as n. induction n as [|n IH]; [apply keeps_ret, _|]. cbn [search_group_from].
  repeat first [apply Hupd | apply keeps_bind; [apply _|..] | progress intros | case_match];
    auto using keeps_ret, remembers_preorder.
Qed.
Lemma keeps_fifo_cleanup : keeps (remembers id t) (cleanup_deduplication config).
Proof.
  unfold cleanup_deduplication. intros s. unfold mbind, sm_bind, utc_now, remembers, clk.
  pose proof (clock_forward (world s)) as Hc. destruct (w_utc_now (world s)) as [now w] eqn:Hw. simpl in *.
  split; [done|]. intros Ho Hcache. unfold dcache. simpl.
  unfold fresh_entries. apply map_lookup_filter_Some. split; [done|]. simpl. by eapply window_open_before.
Qed.
Lemma keeps_serve c : keeps (remembers id t) (serve_fifo c).
Proof.
  destruct c; simpl; apply keeps_bind; try apply _; try (intros ?; apply keeps_ret, _);
    first [apply keeps_fenqueue | apply keeps_fbatch | apply keeps_from_group | apply keeps_fifo_cleanup
          | apply keeps_idle, idle_read].
Qed.
End entry.

(** A remembered id is refused, and the refusal changes nothing. *)
Lemma fenqueue_refused m id s :
  m_message_deduplication_id m = Some id → is_Some (dcache s !! id) → ∃ e, fenqueue m s = (Err e, s).
Proof.
  intros Hm Hid. unfold enqueue_fifo, is_message_duplicated, fifo_read, mbind, sm_bind, sm_lift. rewrite Hm.
  fold (dcache s). rewrite bool_decide_eq_true_2 by done.
  assert (validate_fifo_message config m ≠ Panic) as Hv by (unfold validate_fifo_message; by repeat case_match).
  destruct (validate_fifo_message config m) as [[]|e|]; [by eexists..|done].
Qed.

(** ** Batches *)
(** A message as it enters the queue: with attributes added. *)
Definition restamped m m' : Prop := ∃ a, m' = with_attributes a m.
Definition in_group (g : string) m : Prop := m_message_group_id m = Some g.
#[export] Instance in_group_dec g m : Decision (in_group g m) := decide (_ = _).
Lemma restamped_group g (l l' : list QueueMessage) :
  Forall2 restamped l l' → Forall2 restamped (filter (in_group g) l) (filter (in_group g) l').
Proof.
  induction 1 as [|m m' l l' [a ->] _ IH]; [constructor|]. destruct (decide (in_group g m)) as [Hm|Hm].
  - rewrite !filter_cons_True by done. constructor; [by exists a|done].
  - by rewrite !filter_cons_False by done.
Qed.
Lemma restamped_ids (l l' : list QueueMessage) : Forall2 restamped l l' → map m_id l' = map m_id l.
Proof. induction 1 as [|m m' l l' [a ->] _ IH]; [done|]. simpl. by rewrite IH. Qed.

(** The entries that were there stay, and those of [l] are new. *)
Definition takes_all (l : list QueueMessage) s s' : Prop :=
  (∀ k, is_Some (dcache s !! k) → dcache s' !! k = dcache s !! k) ∧
  ∃ keys, map m_message_deduplication_id l = map Some keys ∧ NoDup keys ∧
    ∀ k, k ∈ keys → dcache s !! k = None ∧ is_Some (dcache s' !! k).
Lemma takes_all_cons m l s s1 s' : takes m s s1 → takes_all l s1 s' → takes_all (m :: l) s s'.
Proof.
  intros (d & now & Hm & Hd & _ & Hc) (Hkeep & keys & Hl & Hnd & Hk). rewrite Hc in Hk, Hkeep.
  assert (dcache s' !! d = Some now) as Hd'.
  { rewrite Hkeep; by rewrite lookup_insert_eq. }
  split.
  - intros k Hs. assert (k ≠ d) as Hne by (intros ->; rewrite Hd in Hs; by destruct Hs).
    by rewrite Hkeep, lookup_insert_ne; [|done|rewrite lookup_insert_ne].
  - exists (d :: keys). simpl. rewrite Hm, Hl. split; [done|]. split.
    + constructor; [|done]. intros [Hdk _]%Hk. by rewrite lookup_insert_eq in Hdk.
    + intros k [->|Hin]%elem_of_cons; [by rewrite Hd'|]. destruct (Hk k Hin) as [Hn Hs]. split; [|done].
      by apply lookup_insert_None in Hn as [? _].
Qed.
Lemma wpo_fenqueue_all l s :
  wpo (mapM fenqueue l) (λ ids s', ids = map m_id l ∧ takes_all l s s' ∧
    ∃ new, inside s' = inside s ++ new ∧ Forall2 restamped l new) s.
Proof.
  revert s. induction l as [|m l IH]; intros s; simpl.
  { apply wpo_ret. split_and!; [done| |exists []; by rewrite app_nil_r]. split; [done|]. exists []. split_and!; [done|constructor|].
    intros k Hk. by apply elem_of_nil in Hk. }
  apply wpo_bind, wpo_of_wp. eapply wp_mono; [apply wp_fenqueue|]. intros [i|e|] s1 [_ H]; [|done..].
  destruct H as (-> & Ht & a & Hi). apply wpo_bind. eapply wpo_mono; [apply IH|].
  intros ids s2 (-> & Hts & new & Hn & Hst). apply wpo_ret. split_and!; [done|by eapply takes_all_cons|].
  exists (with_attributes a m :: new). split; [rewrite Hn, Hi, <- app_assoc; done|]. constructor; [by exists a|done].
Qed.

#[local] Instance group_le_trans : Transitive group_le.
Proof. intros a b c. unfold group_le. apply transitivity. Qed.
#[local] Instance group_le_total : Total group_le.
Proof. intros a b. unfold group_le. apply total, _. Qed.
Lemma wpo_fbatch l s :
  wpo (fbatch l) (λ ids s', ids = map m_id (stable_sort group_le l) ∧ takes_all (stable_sort group_le l) s s' ∧
    ∃ new, inside s' = inside s ++ new ∧ Forall2 restamped (stable_sort group_le l) new) s.
Proof.
  unfold enqueue_fifo_batch. apply wpo_bind, wpo_of_wp.
  eapply wp_mono; [apply (wp_iter_check _ _ (λ _, True) (λ _, True))|].
  - intros m _. apply wp_lift. split; [done|]. unfold validate_fifo_message. by repeat case_match.
  - intros [[]|e|] s1 [-> _]; [|done..]. apply wpo_fenqueue_all.
Qed.

(** A call that brings a remembered id is not accepted. *)
Lemma serve_refused c id s u s' : brings id c → is_Some (dcache s !! id) → serve_fifo c s ≠ (Ok u, s').
Proof.
  intros Hb Hid Hs. destruct c; try done; simpl in *.
  - destruct (fenqueue_refused m id s Hb Hid) as [e He]. unfold mbind, sm_bind in Hs. rewrite He in Hs. done.
  - unfold mbind, sm_bind in Hs. destruct (fbatch l s) as [[ids|e|] s1] eqn:He; [|done..].
    apply wpo_fbatch in He as (_ & (_ & keys & Hl & _ & Hk) & _).
    rewrite <- (stable_sort_Permutation group_le l) in Hb.
    apply Exists_exists in Hb as (m & Hm & Hmd).
    assert (Some id ∈ map Some keys) as Hin by (rewrite <- Hl, <- Hmd; by apply list_elem_of_fmap_2).
    apply list_elem_of_fmap in Hin as (k & [= <-] & Hin). destruct (Hk id Hin) as [Hn _]. rewrite Hn in Hid. by destruct Hid.
Qed.
Lemma serve_all_remembers cs id t s : remembers id t s (serve_all cs s).2.
Proof.
  revert s. induction cs as [|c cs IH]; intros s; simpl; [apply remembers_preorder|].
  pose proof (keeps_serve id t c s) as Hc. destruct (serve_fifo c s) as [r s1]. specialize (IH s1).
  destruct (serve_all cs s1) as [rs s2]. by trans s1.
Qed.
Lemma serve_all_refused cs id t s :
  dcache s !! id = Some t → window_open (clk (serve_all cs s).2) t →
  Forall2 (λ c r, brings id c → ∀ u, r ≠ Ok u) cs (serve_all cs s).1.
Proof.
  revert s. induction cs as [|c cs IH]; intros s Hid Ho; simpl in *; [constructor|].
  pose proof (keeps_serve id t c s) as [Hc Hk]. destruct (serve_fifo c s) as [r s1] eqn:Hr.
  specialize (IH s1). pose proof (serve_all_remembers cs id t s1) as [Ht _].
  destruct (serve_all cs s1) as [rs s2]. simpl in *. constructor.
  - intros Hb u ->. by eapply serve_refused in Hr.
  - apply IH; [|done]. apply Hk; [|done]. by eapply window_open_before.
Qed.


(** An accepted batch: its messages enter the queue behind what is there, none other and each of them
    once, with attributes added; those of each group in the order the batch gives them; the ids are
    answered in the queue's order; and their deduplication ids differ, were not remembered, and are now. *)
Theorem fifo_batch_order l s ids s' :
  fbatch l s = (Ok ids, s') →
  ∃ sent new, inside s' = inside s ++ new ∧ sent ≡ₚ l ∧ Forall2 restamped sent new ∧ ids = map m_id new ∧
    (∀ g, Forall2 restamped (filter (in_group g) l) (filter (in_group g) new)) ∧
    ∃ keys, map m_message_deduplication_id sent = map Some keys ∧ NoDup keys ∧
      ∀ k, k ∈ keys → dcache s !! k = None ∧ is_Some (dcache s' !! k).
Proof.
  intros H. apply wpo_fbatch in H as (-> & (_ & Hkeys) & new & Hnew & Hst).
  exists (stable_sort group_le l), new. split_and!; [done|apply stable_sort_Permutation|done| | |done].
  - symmetry. by apply restamped_ids.
  - intros g. rewrite <- (stable_sort_stable group_le (in_group g) l).
    + by apply restamped_group.
    + unfold in_group, group_le. intros x y -> ->. reflexivity.
Qed.
End facts.

(** ** A FIFO queue over the queue in memory

    [MockQueueService] keeps what [QueueLaws] asks; the theorems of [FifoFacts] at a concrete input; and
    what the wrapper does with a late duplicate, with equal contents and with other groups' messages. *)
(** ** The queue in memory *)
Section mock.
Context {L : Libs} {D : Durations} {W : Type} {HW : World W} {CF : ClockForward W}.
Variable overflow_checks : bool.

Lemma mock_enqueue_law m (s : St MockQueue W) :
  wp (mock_enqueue overflow_checks m) (λ r s', clk s ≤ clk s' ∧
    match r with Ok i => i = m_id m ∧ mq_messages (tables s') = mq_messages (tables s) ++ [m] | _ => True end) s.
Proof.
  unfold mock_enqueue, u64_incr, wp, mbind, sm_bind, mock_get, mock_put, sm_lift. simpl.
  destruct (checked_incr _ _ (qs_total_messages _)); simpl; [|split; [reflexivity|done]].
  destruct (checked_incr _ _ (qs_visible_messages _)); simpl; split; done || reflexivity.
Qed.
Definition later_clock : relation (St MockQueue W) := λ s s', clk s ≤ clk s'.
#[local] Instance later_preorder : PreOrder later_clock.
Proof. split; [intros s; unfold later_clock; lia|]. intros a b c. unfold later_clock. lia. Qed.
Lemma keeps_later_now : keeps (E:=QueueError) later_clock utc_now.
Proof.
  intros s. unfold later_clock, utc_now, clk. pose proof (clock_forward (world s)) as Hc.
  by destruct (w_utc_now (world s)) as [now w].
Qed.
Lemma keeps_get : keeps later_clock (mock_get (L:=L) (W:=W)).
Proof. intros s. unfold later_clock. simpl. lia. Qed.
Lemma keeps_put q : keeps later_clock (mock_put (L:=L) (W:=W) q).
Proof. intros s. unfold later_clock, clk. simpl. lia. Qed.
#[local] Hint Resolve keeps_later_now keeps_get keeps_put : keeps.
#[local] Hint Extern 1 (PreOrder later_clock) => exact later_preorder : keeps.
Lemma keeps_find before after : keeps later_clock (find_deliverable (L:=L) (HW:=HW) before after).
Proof.
  revert before. induction after as [|m after IH]; intros before; simpl; [apply keeps_ret, _|].
  apply keeps_bind; [apply _| |intros []; [apply keeps_ret, _|apply IH]]. unfold deliverable.
  repeat first [progress intros | apply keeps_bind; [exact later_preorder|..] | case_match]; eauto 4 with keeps.
Qed.
Lemma mock_dequeue_law (s : St MockQueue W) : wp (mock_dequeue overflow_checks) (λ _ s', clk s ≤ clk s') s.
Proof.
  enough (keeps later_clock (mock_dequeue (L:=L) (HW:=HW) overflow_checks)) as H by apply H.
  unfold mock_dequeue, u64_incr. pose proof keeps_find.
  repeat first [apply keeps_find | progress intros | apply keeps_bind; [exact later_preorder|..] | case_match];
    eauto 4 with keeps.
Qed.

#[export] Instance mock_queue_laws : QueueLaws (QS:=MockQueueService overflow_checks) MockQueue W.
Proof.
  refine (Build_QueueLaws _ _ _ _ _ mq_messages _ _);
    [apply mock_enqueue_law|apply mock_dequeue_law].
Defined.
End mock.

Module FifoExample.
#[local] Existing Instance Concrete.libs.
#[local] Existing Instance ConcreteWorld.demo_world.
#[local] Instance any_order : HashIter := { hash_iter V := map_to_list; hash_iter_perm V m := reflexivity _ }.
#[local] Instance ticking : ClockForward ConcreteWorld.DW.
Proof. intros w. simpl. lia. Defined.
#[local] Existing Instance CronExample.all_durations.
#[local] Instance mock : QueueService MockQueue ConcreteWorld.DW := MockQueueService true.
Abbreviation FState := (St (Fifo MockQueue) ConcreteWorld.DW).

Definition second : Z := 1000000000.
Definition start : instant := 1704104120 * second.
Definition at_time (t : instant) (s : FState) : FState := mkSt (tables s) (ConcreteWorld.mkDW [] t 0%N).
Definition empty_queue : FState := mkSt (mkFifo mock_new (fifo_stats_new start)) (ConcreteWorld.mkDW [] start 0%N).
Definition text_of (v : Value) : string := match v with VString s => s | _ => "" end.
Definition message (id group dedup : string) (content : string) : QueueMessage :=
  with_deduplication_id dedup (with_group group (with_payload (VString content) (message_new id start start start))).
Definition call (c : FifoCall) : sm FState QueueError unit := serve_fifo true str_len show_Z text_of fifo_config_default c.
Definition calls (cs : list FifoCall) (s : FState) := serve_all true str_len show_Z text_of fifo_config_default cs s.

Definition first : QueueMessage := message "m1" "orders" "d1" "paid".
Definition accepted : FState := (enqueue_fifo true str_len show_Z text_of fifo_config_default first empty_queue).2.
Definition further : list FifoCall :=
  [CEnqueue (message "m2" "orders" "d2" "paid"); CFromGroup "orders"; CCleanup; CEnqueue (message "m3" "orders" "d1" "other");
   CBatch [message "m4" "a" "d4" "x"; message "m5" "b" "d1" "y"]].


(** What the calls answer: the other messages are taken, the two that bring the id are not. *)
Example further_answers :
  map (λ r : res QueueError unit, match r with Ok _ => true | _ => false end) (calls further accepted).1 =
  [true; true; true; false; false].
Proof. vm_compute. reflexivity. Qed.

Definition three : list QueueMessage :=
  [message "b1" "b" "d1" "1"; message "a1" "a" "d2" "2"; message "b2" "b" "d3" "3"; message "a2" "a" "d4" "4"].
Definition batched := enqueue_fifo_batch true str_len show_Z text_of fifo_config_default three empty_queue.
Lemma fifo_batch_order_witness :
  batched.1 = Ok ["a1"; "a2"; "b1"; "b2"] ∧
  Forall2 restamped (filter (in_group "b") three) (filter (in_group "b") (inside batched.2)).
Proof.
  assert (batched.1 = Ok ["a1"; "a2"; "b1"; "b2"]) as Hok by by_vm. split; [exact Hok|].
  assert (batched = (Ok ["a1"; "a2"; "b1"; "b2"], batched.2)) as Hb by (rewrite <-Hok; apply surjective_pairing).
  destruct (fifo_batch_order true str_len show_Z text_of fifo_config_default three empty_queue
    ["a1"; "a2"; "b1"; "b2"] batched.2 Hb) as (sent & new & Hin & _ & _ & _ & Hg & _).
  assert (inside empty_queue = []) as Hempty by reflexivity.
  rewrite Hin, Hempty, app_nil_l. exact (Hg "b").
Defined.

(** After the window the id is still refused: only a clean-up forgets it. *)
Example refused_after_the_window :
  let late := at_time (start + 301 * second) accepted in
  let again := CEnqueue (message "m6" "orders" "d1" "late") in
  map (λ r : res QueueError unit, match r with Ok _ => true | _ => false end) (calls [again; CCleanup; again] late).1 =
  [false; true; true].
Proof. vm_compute. reflexivity. Qed.

(** With content deduplication, equal contents are both taken: nothing enters that cache. *)
Definition by_content : FifoQueueConfig := mkFifoConfig true 300 10000 true 60 100000.
Example equal_contents_taken :
  map (λ r : res QueueError unit, match r with Ok _ => true | _ => false end)
    (serve_all true str_len show_Z text_of by_content
       [CEnqueue (message "m1" "orders" "d1" "paid"); CEnqueue (message "m2" "orders" "d2" "paid")] empty_queue).1 = [true; true].
Proof. vm_compute. reflexivity. Qed.

Definition read_id (r : res QueueError (option QueueMessage)) : option string :=
  match r with Ok (Some m) => Some (m_id m) | _ => None end.
(** Reading group a puts b's first messages at the back: b's third is then read first, and what was put
    back stands in the queue twice. *)
Example other_groups_reordered :
  let s := (enqueue_fifo_batch true str_len show_Z text_of fifo_config_default
    [message "b1" "b" "d1" "1"; message "b2" "b" "d2" "2"] empty_queue).2 in
  let s := (enqueue_fifo_batch true str_len show_Z text_of fifo_config_default
    [message "a1" "a" "d3" "3"; message "b3" "b" "d4" "4"] s).2 in
  let '(from_a, s) := dequeue_from_group true "a" s in
  let '(from_b, s) := dequeue_from_group true "b" s in
  (read_id from_a, read_id from_b, map m_id (inside s)) = (Some "a1", Some "b3", ["b1"; "b2"; "a1"; "b3"; "b1"; "b2"]).
Proof. vm_compute. reflexivity. Qed.
End FifoExample.
