(* ===== verification/Deduplication.v ===== *)
(** * Deduplication and exactly-once processing

    [backbone-queue/src/deduplication.rs]: the cache of keys and the storage of processing records, as the
    interfaces the service is written against, with their implementations in memory, and
    [MessageDeduplicator]. The lock of its statistics is part of the state, since a task that asks for it
    twice never goes on. [DefaultHasher] and the walk over a hash map are parameters. *)
From Stdlib Require Import ZArith Lia Ascii.
From S2P Require Import Prelude Float64 RustStr RustChar Json WorkflowExpr Database JobTypes QueueMessage.

Local Open Scope Z_scope.

Inductive DeduplicationStrategy := DNone | DMessageId | DContent | DBoth.
Inductive DeduplicationCache := CacheMemory | CacheRedis | CacheCustom.
(** The configuration; whether a storage is configured is the type the service is used at. *)
Record DeduplicationConfig := mkDedupConfig {
  dc_strategy : DeduplicationStrategy; dc_deduplication_window_seconds : Z; dc_cache_backend : DeduplicationCache;
  dc_max_cache_entries : Z; dc_cleanup_interval_seconds : Z; dc_enable_exactly_once : bool;
  dc_exactly_once_window_seconds : Z; dc_enable_persistence : bool }.
Definition dedup_config_default : DeduplicationConfig := mkDedupConfig DMessageId 300 CacheMemory 100000 60 true 3600 false.

Inductive ProcessingStatus := PPending | PInProgress | PCompleted | PFailed | PExpired.
Record DeduplicationEntry := mkEntry {
  de_key : string; de_message_id : string; de_content_hash : option string; de_created_at : instant;
  de_expires_at : instant; de_status : ProcessingStatus; de_attempt_count : Z; de_last_attempted_at : option instant }.
Inductive ProcessingResult := RSucceeded | RFailed | RPermanentlyFailed | RInProgress.
#[export] Instance processing_result_eq_dec : EqDecision ProcessingResult.
Proof. solve_decision. Defined.
Record ExactlyOnceRecord := mkRecord {
  eo_processing_id : string; eo_message_id : string; eo_deduplication_key : string; eo_processor_id : string;
  eo_started_at : instant; eo_completed_at : option instant; eo_result : ProcessingResult; eo_retry_count : Z;
  eo_error_message : option string }.
Definition put_result (result : ProcessingResult) (now : instant) (r : ExactlyOnceRecord) : ExactlyOnceRecord :=
  mkRecord (eo_processing_id r) (eo_message_id r) (eo_deduplication_key r) (eo_processor_id r) (eo_started_at r)
    (Some now) result (eo_retry_count r) (eo_error_message r).
Definition put_error (e : option string) (r : ExactlyOnceRecord) : ExactlyOnceRecord :=
  mkRecord (eo_processing_id r) (eo_message_id r) (eo_deduplication_key r) (eo_processor_id r) (eo_started_at r)
    (eo_completed_at r) (eo_result r) (eo_retry_count r) e.

Record DeduplicationStats := mkDedupStats {
  ds_total_messages : Z; ds_duplicates_detected : Z; ds_violations_prevented : Z; ds_cache_hits : Z; ds_cache_misses : Z;
  ds_cache_size : Z; ds_active_records : Z; ds_completed_records : Z; ds_failed_records : Z;
  ds_last_cleanup_at : option instant; ds_last_updated : instant }.
Definition dedup_stats_default : DeduplicationStats := mkDedupStats 0 0 0 0 0 0 0 0 0 None 0.
Definition duplicate_rate (s : DeduplicationStats) : f64 :=
  if ds_total_messages s =? 0 then f64_zero
  else f64_div (f64_of_Z (ds_duplicates_detected s)) (f64_of_Z (ds_total_messages s)).
Definition cache_hit_rate (s : DeduplicationStats) : f64 :=
  let total_requests := ds_cache_hits s + ds_cache_misses s in
  if total_requests =? 0 then f64_zero else f64_div (f64_of_Z (ds_cache_hits s)) (f64_of_Z total_requests).

(** ** [DeduplicationCacheBackend], [ExactlyOnceStorage] *)
Class DedupCache (S W : Type) := {
  contains_key : string → sm (St S W) QueueError bool;
  get_entry : string → sm (St S W) QueueError (option DeduplicationEntry);
  store_entry : DeduplicationEntry → sm (St S W) QueueError unit;
  remove_entry : string → sm (St S W) QueueError unit;
  cleanup_expired_keys : sm (St S W) QueueError Z;
  cache_size : sm (St S W) QueueError Z;
  clear_cache : sm (St S W) QueueError unit;
}.
Class ExactlyOnceStorage (S W : Type) := {
  store_record : ExactlyOnceRecord → sm (St S W) QueueError unit;
  get_record : string → sm (St S W) QueueError (option ExactlyOnceRecord);
  update_record : ExactlyOnceRecord → sm (St S W) QueueError unit;
  is_processing : string → sm (St S W) QueueError bool;
  mark_record_completed : string → ProcessingResult → sm (St S W) QueueError unit;
  cleanup_old_records : instant → sm (St S W) QueueError Z;
  get_records_for_key : string → sm (St S W) QueueError (list ExactlyOnceRecord);
}.

Section memory.
Context {W : Type} {HW : World W} {HI : HashIter}.
Definition read_tables {T A} (f : T → A) : sm (St T W) QueueError A := λ s, (Ok (f (tables s)), s).
Definition write_tables {T} (f : T → T) : sm (St T W) QueueError unit := λ s, (Ok tt, mkSt (f (tables s)) (world s)).

(** ** [MemoryDeduplicationCache] *)
Abbreviation Entries := (gmap string DeduplicationEntry).
Definition live_entries (now : instant) (m : Entries) : Entries := filter (λ kv, now < de_expires_at kv.2) m.
Definition oldest (best : string * DeduplicationEntry) (l : list (string * DeduplicationEntry)) : string * DeduplicationEntry :=
  min_by (λ kv, de_created_at kv.2) best l.
Definition oldest_key (m : Entries) : option string :=
  match hash_iter m with [] => None | kv :: l => Some (oldest kv l).1 end.
Definition drop_oldest (m : Entries) : Entries :=
  match oldest_key m with Some k => delete k m | None => m end.
Definition memory_store_entry (max_entries : Z) (entry : DeduplicationEntry) : sm (St Entries W) QueueError unit :=
  n ← read_tables (λ m : Entries, Z.of_nat (size m));
  _ ← (if max_entries <=? n then now ← utc_now; write_tables (live_entries now) else mret tt);
  n ← read_tables (λ m : Entries, Z.of_nat (size m));
  _ ← (if max_entries <=? n then write_tables drop_oldest else mret tt);
  write_tables (<[de_key entry := entry]>).
Definition memory_cleanup_expired : sm (St Entries W) QueueError Z :=
  now ← utc_now;
  initial_count ← read_tables (λ m : Entries, Z.of_nat (size m));
  _ ← write_tables (live_entries now);
  n ← read_tables (λ m : Entries, Z.of_nat (size m));
  mret (initial_count - n).
Definition MemoryDeduplicationCache (max_entries : Z) : DedupCache Entries W := {|
  contains_key key := read_tables (λ m, bool_decide (is_Some (m !! key)));
  get_entry key := read_tables (λ m, m !! key);
  store_entry := memory_store_entry max_entries;
  remove_entry key := write_tables (delete key);
  cleanup_expired_keys := memory_cleanup_expired;
  cache_size := read_tables (λ m, Z.of_nat (size m));
  clear_cache := write_tables (λ _, ∅) |}.

(** ** [MemoryExactlyOnceStorage] *)
Record OnceStore := mkOnce { os_records : gmap string ExactlyOnceRecord; os_key_index : gmap string (list string) }.
Definition index_add (key id : string) (m : gmap string (list string)) : gmap string (list string) :=
  <[key := default [] (m !! key) ++ [id]]> m.
Definition once_store (r : ExactlyOnceRecord) (s : OnceStore) : OnceStore :=
  mkOnce (<[eo_processing_id r := r]> (os_records s))
    (index_add (eo_deduplication_key r) (eo_processing_id r) (os_key_index s)).
Definition once_update (r : ExactlyOnceRecord) (s : OnceStore) : OnceStore :=
  mkOnce (<[eo_processing_id r := r]> (os_records s)) (os_key_index s).
Definition records_for_key (key : string) (s : OnceStore) : list ExactlyOnceRecord :=
  omap (λ id, os_records s !! id) (default [] (os_key_index s !! key)).
Definition in_progress (r : ExactlyOnceRecord) : bool := bool_decide (eo_result r = RInProgress).
Definition once_is_processing (key : string) (s : OnceStore) : bool := existsb in_progress (records_for_key key s).
Definition once_mark (id : string) (result : ProcessingResult) (now : instant) (s : OnceStore) : OnceStore :=
  mkOnce (alter (put_result result now) id (os_records s)) (os_key_index s).
(** The index is rebuilt over the walk of what is left. *)
Definition once_cleanup (older_than : instant) (s : OnceStore) : OnceStore :=
  let records := filter (λ kv, older_than < eo_started_at kv.2) (os_records s) in
  mkOnce records (foldl (λ m kv, index_add (eo_deduplication_key kv.2) kv.1 m) ∅ (hash_iter records)).
Definition memory_mark_completed (id : string) (result : ProcessingResult) : sm (St OnceStore W) QueueError unit :=
  found ← read_tables (λ s, os_records s !! id);
  match found with
  | Some _ => now ← utc_now; write_tables (once_mark id result now)
  | None => mret tt
  end.
Definition memory_cleanup_old (older_than : instant) : sm (St OnceStore W) QueueError Z :=
  initial_count ← read_tables (λ s, Z.of_nat (size (os_records s)));
  _ ← write_tables (once_cleanup older_than);
  n ← read_tables (λ s, Z.of_nat (size (os_records s)));
  mret (initial_count - n).
Definition MemoryExactlyOnceStorage : ExactlyOnceStorage OnceStore W := {|
  store_record r := write_tables (once_store r);
  get_record id := read_tables (λ s, os_records s !! id);
  update_record r := write_tables (once_update r);
  is_processing key := read_tables (once_is_processing key);
  mark_record_completed := memory_mark_completed;
  cleanup_old_records := memory_cleanup_old;
  get_records_for_key key := read_tables (records_for_key key) |}.
Definition once_new : OnceStore := mkOnce ∅ ∅.
End memory.

(** ** [MessageDeduplicator] *)

(** The cache, the storage, and the statistics with whether their lock is taken. *)
Record Dedup (C E : Type) := mkDedup {
  dd_cache : C; dd_storage : E; dd_stats : DeduplicationStats; dd_stats_locked : bool }.
Arguments mkDedup {_ _} _ _ _ _.
Arguments dd_cache {_ _} _.
Arguments dd_storage {_ _} _.
Arguments dd_stats {_ _} _.
Arguments dd_stats_locked {_ _} _.
(** How a call ends without an answer of its own: it fails, or waits for ever for a lock it holds. *)
Inductive Ends := Fails (e : QueueError) | Waits.

Section deduplicator.
Context {L : Libs} {D : Durations}.
Context {C E W : Type} {HW : World W} {DC : DedupCache C W} {EO : ExactlyOnceStorage E W}.
Variable overflow_checks : bool.
(** [Value]'s [Hash] with [DefaultHasher], and [{:x}] *)
Variable hash_value : Value → Z.
Variable show_hex : Z → string.
Variable config : DeduplicationConfig.
#[local] Abbreviation Sy := (St (Dedup C E) W).
#[local] Abbreviation Mo := (sm Sy Ends).

Definition in_cache {A} (m : sm (St C W) QueueError A) : Mo A :=
  sm_zoom (λ s, mkSt (dd_cache (tables s)) (world s))
    (λ t s, mkSt (mkDedup (tables t) (dd_storage (tables s)) (dd_stats (tables s)) (dd_stats_locked (tables s))) (world t))
    (map_err Fails m).
Definition in_storage {A} (m : sm (St E W) QueueError A) : Mo A :=
  sm_zoom (λ s, mkSt (dd_storage (tables s)) (world s))
    (λ t s, mkSt (mkDedup (dd_cache (tables s)) (tables t) (dd_stats (tables s)) (dd_stats_locked (tables s))) (world t))
    (map_err Fails m).
Definition set_locked (b : bool) (s : Sy) : Sy :=
  mkSt (mkDedup (dd_cache (tables s)) (dd_storage (tables s)) (dd_stats (tables s)) b) (world s).
(** [let mut stats = self.stats.write().await; ..]: the guard is dropped where the scope ends, an error's
    early return included; a call that holds it and asks again waits. *)
Definition holding_stats {A} (m : Mo A) : Mo A := λ s,
  if dd_stats_locked (tables s) then (Err Waits, s)
  else
    let '(r, s') := m (set_locked true s) in
    match r with Err Waits => (Err Waits, s') | _ => (r, set_locked false s') end.
Definition stats_read {A} (f : DeduplicationStats → A) : Mo A := λ s, (Ok (f (dd_stats (tables s))), s).
Definition stats_write (f : DeduplicationStats → DeduplicationStats) : Mo unit := λ s,
  (Ok tt, mkSt (mkDedup (dd_cache (tables s)) (dd_storage (tables s)) (f (dd_stats (tables s))) (dd_stats_locked (tables s))) (world s)).
Definition dd_fail {A} (e : QueueError) : Mo A := sm_err (Fails e).
Definition dd_counted (n : Z) : Mo Z := sm_lift (or_panic (checked_incr overflow_checks u64_max n)).
Definition update_timestamp : Mo unit :=
  now ← utc_now;
  stats_write (λ s, mkDedupStats (ds_total_messages s) (ds_duplicates_detected s) (ds_violations_prevented s)
    (ds_cache_hits s) (ds_cache_misses s) (ds_cache_size s) (ds_active_records s) (ds_completed_records s)
    (ds_failed_records s) (ds_last_cleanup_at s) now).

(** [MessageDeduplicator::new]; the storage is one in memory where none is configured. *)
Definition dedup_new (cache : C) (storage : E) : QueueError + Dedup C E :=
  match dc_cache_backend config with
  | CacheRedis => inl (ConfigError "Redis deduplication cache not yet implemented")
  | CacheMemory | CacheCustom => inr (mkDedup cache storage dedup_stats_default false)
  end.

Definition content_hash_of (content : Value) : string := show_hex (hash_value content).

Definition is_key_duplicate (key : string) : Mo bool :=
  cache_exists ← in_cache (contains_key key);
  holding_stats (
    _ ← (if (cache_exists : bool) then
           h ← (n ← stats_read ds_cache_hits; dd_counted n);
           d ← (n ← stats_read ds_duplicates_detected; dd_counted n);
           stats_write (λ s, mkDedupStats (ds_total_messages s) d (ds_violations_prevented s) h (ds_cache_misses s)
             (ds_cache_size s) (ds_active_records s) (ds_completed_records s) (ds_failed_records s)
             (ds_last_cleanup_at s) (ds_last_updated s))
         else
           n ← (n ← stats_read ds_cache_misses; dd_counted n);
           stats_write (λ s, mkDedupStats (ds_total_messages s) (ds_duplicates_detected s) (ds_violations_prevented s)
             (ds_cache_hits s) n (ds_cache_size s) (ds_active_records s) (ds_completed_records s) (ds_failed_records s)
             (ds_last_cleanup_at s) (ds_last_updated s)));
    _ ← update_timestamp;
    mret cache_exists).
Definition is_duplicate (m : QueueMessage) : Mo bool :=
  holding_stats (
    n ← (n ← stats_read ds_total_messages; dd_counted n);
    _ ← stats_write (λ s, mkDedupStats n (ds_duplicates_detected s) (ds_violations_prevented s) (ds_cache_hits s)
          (ds_cache_misses s) (ds_cache_size s) (ds_active_records s) (ds_completed_records s) (ds_failed_records s)
          (ds_last_cleanup_at s) (ds_last_updated s));
    match dc_strategy config with
    | DNone => mret false
    | DMessageId =>
        match m_message_deduplication_id m with Some dedup_id => is_key_duplicate dedup_id | None => mret false end
    | DContent => is_key_duplicate (content_hash_of (m_payload m))
    | DBoth =>
        by_id ← match m_message_deduplication_id m with Some dedup_id => is_key_duplicate dedup_id | None => mret false end;
        by_content ← is_key_duplicate (content_hash_of (m_payload m));
        mret (by_id || by_content)
    end).

Definition get_deduplication_key (m : QueueMessage) : QueueError + string :=
  match dc_strategy config with
  | DMessageId | DBoth =>
      match m_message_deduplication_id m with
      | Some dedup_id => inr dedup_id
      | None => inl (ConfigError "Message deduplication ID required for this strategy")
      end
  | DContent => inr (content_hash_of (m_payload m))
  | DNone => inl (ConfigError "Cannot generate deduplication key for None strategy")
  end.
(** [?] on what may fail without touching the service *)
Definition dd_try {A} (r : QueueError + A) : Mo A := match r with inl e => dd_fail e | inr a => mret a end.

Definition record_message (m : QueueMessage) : Mo string :=
  key ← dd_try (get_deduplication_key m);
  let content_hash :=
    match dc_strategy config with DContent | DBoth => Some (content_hash_of (m_payload m)) | _ => None end in
  created_at ← utc_now;
  now ← utc_now;
  window ← sm_lift (or_panic (duration_seconds (u64_as_i64 (dc_deduplication_window_seconds config))));
  expires_at ← sm_lift (or_panic (add_duration now window));
  last ← utc_now;
  _ ← in_cache (store_entry (mkEntry key (m_id m) content_hash created_at expires_at PPending 1 (Some last)));
  mret key.

Definition start_processing (m : QueueMessage) (processor_id : string) : Mo string :=
  if negb (dc_enable_exactly_once config) then dd_fail (ConfigError "Exactly-once processing is not enabled")
  else
    key ← dd_try (get_deduplication_key m);
    u ← fresh_uuid;
    let processing_id := uuid_to_string u in
    busy ← in_storage (is_processing key);
    if (busy : bool) then
      _ ← holding_stats (
            n ← (n ← stats_read ds_violations_prevented; dd_counted n);
            _ ← stats_write (λ s, mkDedupStats (ds_total_messages s) (ds_duplicates_detected s) n (ds_cache_hits s)
                  (ds_cache_misses s) (ds_cache_size s) (ds_active_records s) (ds_completed_records s)
                  (ds_failed_records s) (ds_last_cleanup_at s) (ds_last_updated s));
            update_timestamp);
      dd_fail (Other "Message is already being processed")
    else
      now ← utc_now;
      _ ← in_storage (store_record (mkRecord processing_id (m_id m) key processor_id now None RInProgress 0 None));
      mret processing_id.

Definition count_result (result : ProcessingResult) : Mo unit :=
  match result with
  | RSucceeded =>
      n ← (n ← stats_read ds_completed_records; dd_counted n);
      stats_write (λ s, mkDedupStats (ds_total_messages s) (ds_duplicates_detected s) (ds_violations_prevented s)
        (ds_cache_hits s) (ds_cache_misses s) (ds_cache_size s) (ds_active_records s) n (ds_failed_records s)
        (ds_last_cleanup_at s) (ds_last_updated s))
  | RPermanentlyFailed | RFailed =>
      n ← (n ← stats_read ds_failed_records; dd_counted n);
      stats_write (λ s, mkDedupStats (ds_total_messages s) (ds_duplicates_detected s) (ds_violations_prevented s)
        (ds_cache_hits s) (ds_cache_misses s) (ds_cache_size s) (ds_active_records s) (ds_completed_records s) n
        (ds_last_cleanup_at s) (ds_last_updated s))
  | RInProgress =>
      n ← (n ← stats_read ds_active_records; dd_counted n);
      stats_write (λ s, mkDedupStats (ds_total_messages s) (ds_duplicates_detected s) (ds_violations_prevented s)
        (ds_cache_hits s) (ds_cache_misses s) (ds_cache_size s) n (ds_completed_records s) (ds_failed_records s)
        (ds_last_cleanup_at s) (ds_last_updated s))
  end.
Definition complete_processing (processing_id : string) (result : ProcessingResult) (error_message : option string) : Mo unit :=
  if negb (dc_enable_exactly_once config) then mret tt
  else
    found ← in_storage (get_record processing_id);
    _ ← match found with
        | Some record =>
            now ← utc_now;
            in_storage (update_record (put_error error_message (put_result result now record)))
        | None => mret tt
        end;
    _ ← in_storage (mark_record_completed processing_id result);
    holding_stats (_ ← count_result result; update_timestamp).

Definition get_dedup_stats : Mo DeduplicationStats :=
  holding_stats (
    size ← attempt (in_cache cache_size);
    _ ← match size with
        | inr n => stats_write (λ s, mkDedupStats (ds_total_messages s) (ds_duplicates_detected s) (ds_violations_prevented s)
            (ds_cache_hits s) (ds_cache_misses s) n (ds_active_records s) (ds_completed_records s)
            (ds_failed_records s) (ds_last_cleanup_at s) (ds_last_updated s))
        | inl _ => mret tt
        end;
    stats_read id).
(** [total_cleaned += n] *)
Definition u64_added (a b : Z) : Mo Z :=
  sm_lift (or_panic (if overflow_checks then u64_checked_add a b else Some ((a + b) mod (u64_max + 1)))).
Definition cleanup_expired_records : Mo Z :=
  cache_cleaned ← in_cache cleanup_expired_keys;
  total ← u64_added 0 cache_cleaned;
  total ← (if dc_enable_exactly_once config then
             now ← utc_now;
             window ← sm_lift (or_panic (duration_seconds (u64_as_i64 (dc_exactly_once_window_seconds config))));
             cutoff ← sm_lift (or_panic (sub_duration now window));
             storage_cleaned ← in_storage (cleanup_old_records cutoff);
             u64_added total storage_cleaned
           else mret total);
  _ ← holding_stats (
        now ← utc_now;
        _ ← stats_write (λ s, mkDedupStats (ds_total_messages s) (ds_duplicates_detected s) (ds_violations_prevented s)
              (ds_cache_hits s) (ds_cache_misses s) (ds_cache_size s) (ds_active_records s) (ds_completed_records s)
              (ds_failed_records s) (Some now) (ds_last_updated s));
        update_timestamp);
  mret total.
End deduplicator.
