(* ===== verification/DeduplicationFacts.v ===== *)
(** * What deduplication and exactly-once processing guarantee

    The cache in memory keeps to its bound and drops the least it can; a key is processed by one at a time,
    over what [OnceLaws] says of the storage, which the one in memory satisfies; and asking whether a message
    is a duplicate never ends where a key is looked up. *)
From Stdlib Require Import ZArith Lia Ascii.
From S2P Require Import Prelude Float64 RustStr RustChar Json WorkflowExpr Database ModuleRegistry JobTypes Cron CronFacts QueueMessage Deduplication.

Local Open Scope Z_scope.

(** ** The cache in memory *)
Section cache.
Context {W : Type} {HW : World W} {HI : HashIter}.
Implicit Types (m : gmap string DeduplicationEntry).

Definition no_older (e : DeduplicationEntry) m : Prop := ∀ k e', m !! k = Some e' → de_created_at e ≤ de_created_at e'.
Lemma drop_oldest_spec m :
  m ≠ ∅ → ∃ k e, m !! k = Some e ∧ no_older e m ∧ drop_oldest m = delete k m.
Proof.
  intros Hm. unfold drop_oldest, oldest_key. pose proof (hash_iter_perm m) as Hp.
  destruct (hash_iter m) as [|kv l].
  { apply Permutation_nil in Hp. by apply map_to_list_empty_iff in Hp. }
  destruct (min_by_spec (λ kv, de_created_at kv.2) kv l) as [Hin Hle]. fold (oldest kv l) in Hin, Hle.
  rewrite Hp in Hin. destruct (oldest kv l) as [k e]. simpl in *.
  apply elem_of_map_to_list in Hin. exists k, e. split_and!; [done| |done].
  intros k' e' Hk'. apply (Hle (k', e')). rewrite Hp. by apply elem_of_map_to_list.
Qed.
Lemma size_live now m : (size (live_entries now m) ≤ size m)%nat.
Proof. apply map_subseteq_size, map_filter_subseteq. Qed.

(** What storing an entry leaves: with room, everything; else, at a clock reading, what has not expired, and
    of that all but one of the oldest where it still fills the cache. *)
Definition cache_after (max_entries : Z) (entry : DeduplicationEntry) m m' : Prop :=
  (Z.of_nat (size m) < max_entries ∧ m' = <[de_key entry:=entry]> m) ∨
  (max_entries ≤ Z.of_nat (size m) ∧ ∃ now, let live := live_entries now m in
     ((Z.of_nat (size live) < max_entries ∨ live = ∅) ∧ m' = <[de_key entry:=entry]> live) ∨
     (max_entries ≤ Z.of_nat (size live) ∧ ∃ k e, live !! k = Some e ∧ no_older e live ∧
        m' = <[de_key entry:=entry]> (delete k live))).
Lemma wp_memory_store max_entries entry (s : St (gmap string DeduplicationEntry) W) :
  wp (memory_store_entry max_entries entry) (λ r s', r = Ok tt ∧ cache_after max_entries entry (tables s) (tables s')) s.
Proof.
  unfold memory_store_entry, read_tables, write_tables, cache_after, utc_now. unfold wp, mbind, sm_bind. simpl.
  destruct (Z.leb_spec max_entries (Z.of_nat (size (tables s)))) as [Hf|Hf].
  - destruct (w_utc_now (world s)) as [now w]. simpl.
    destruct (Z.leb_spec max_entries (Z.of_nat (size (live_entries now (tables s))))) as [Hl|Hl]; simpl.
    + split; [done|]. right. split; [done|]. exists now.
      destruct (decide (live_entries now (tables s) = ∅)) as [He|He].
      { left. split; [by right|]. unfold drop_oldest, oldest_key. by destruct (hash_iter _) as [|kv l] eqn:Hi;
          [|pose proof (hash_iter_perm (live_entries now (tables s))) as Hp; rewrite Hi, He, map_to_list_empty in Hp;
            symmetry in Hp; apply Permutation_nil_cons in Hp]. }
      right. split; [done|]. destruct (drop_oldest_spec _ He) as (k & e & Hk & Hn & ->). by exists k, e.
    + split; [done|]. right. split; [done|]. exists now. left. split; [by left|done].
  - simpl. destruct (Z.leb_spec max_entries (Z.of_nat (size (tables s)))) as [?|_]; [lia|]. split; [done|]. by left.
Qed.

(** Storing an entry in the cache in memory always succeeds, and the cache holds at most its bound
    (one entry where the bound is zero): the entry is there; the others are as they were where there was room; and
    otherwise only entries that have expired are dropped, and one of the oldest when that does not help. *)
Theorem memory_cache_bounded max_entries entry (s : St (gmap string DeduplicationEntry) W) :
  0 ≤ max_entries → Z.of_nat (size (tables s)) ≤ Z.max 1 max_entries →
  wp (memory_store_entry max_entries entry) (λ r s', r = Ok tt ∧ cache_after max_entries entry (tables s) (tables s') ∧
    Z.of_nat (size (tables s')) ≤ Z.max 1 max_entries ∧ tables s' !! de_key entry = Some entry) s.
Proof.
  intros Hmax Hs. eapply wp_mono; [apply wp_memory_store|]. intros r s' [-> Hst]. split; [done|]. split; [done|].
  destruct Hst as [[Hlt ->]|(Hge & now & [[Hl ->]|(Hl & k & e & Hk & _ & ->)])]; (split; [|by rewrite lookup_insert_eq]).
  - rewrite map_size_insert. case_match; simpl; lia.
  - rewrite map_size_insert. destruct Hl as [Hl| ->]; [case_match; simpl; lia|]. rewrite lookup_empty, map_size_empty. simpl. lia.
  - rewrite map_size_insert. pose proof (size_live now (tables s)).
    assert (S (size (delete k (live_entries now (tables s)))) = size (live_entries now (tables s))) as Hd.
    { rewrite map_size_delete, Hk. assert (size (live_entries now (tables s)) ≠ 0%nat) as Hz; [|lia].
      intros Hz%map_size_empty_inv. by rewrite Hz in Hk. }
    case_match; simpl; lia.
Qed.
End cache.

(** ** The storage of processing records *)
Abbreviation Records := (gmap string ExactlyOnceRecord).
Definition busy (key : string) (m : Records) : Prop :=
  ∃ i r, m !! i = Some r ∧ eo_deduplication_key r = key ∧ in_progress r = true.
(** Two records in progress are not of one key. *)
Definition one_at_a_time (m : Records) : Prop := ∀ i j a b,
  m !! i = Some a → m !! j = Some b → eo_deduplication_key a = eo_deduplication_key b →
  in_progress a = true → in_progress b = true → i = j.

Lemma one_insert m r :
  one_at_a_time m → ¬ busy (eo_deduplication_key r) m → one_at_a_time (<[eo_processing_id r:=r]> m).
Proof.
  intros H1 Hb i j a b Ha Hb' Hk Hpa Hpb. apply lookup_insert_Some in Ha, Hb'.
  destruct Ha as [[<- <-]|[Hi Ha]], Hb' as [[<- <-]|[Hj Hb']]; [done| | |by eapply H1].
  - destruct Hb. by exists j, b.
  - destruct Hb. by exists i, a.
Qed.
Lemma one_subseteq m m' :
  (∀ i r, m' !! i = Some r → in_progress r = true → m !! i = Some r) → one_at_a_time m → one_at_a_time m'.
Proof. intros Hs H1 i j a b Ha Hb Hk Hpa Hpb. eapply H1; eauto. Qed.

(** What a storage promises: its records, [rec_ok] of what it keeps beside them, each operation's change of
    the records, none where it fails, and that a key in progress is seen. *)
Class OnceLaws (E W : Type) {EO : ExactlyOnceStorage E W} := {
  recs : E → Records;
  rec_ok : E → Prop;
  store_law : ∀ r (s : St E W), rec_ok (tables s) → wp (store_record r) (λ res s', rec_ok (tables s') ∧
    match res with Ok _ => recs (tables s') = <[eo_processing_id r:=r]> (recs (tables s)) | _ => recs (tables s') = recs (tables s) end) s;
  get_law : ∀ i (s : St E W), rec_ok (tables s) → wp (get_record i) (λ res s', rec_ok (tables s') ∧ recs (tables s') = recs (tables s) ∧
    match res with
    | Ok o => o = recs (tables s) !! i ∧ ∀ r, o = Some r → eo_processing_id r = i
    | _ => True
    end) s;
  update_law : ∀ r r0 (s : St E W), rec_ok (tables s) →
    recs (tables s) !! eo_processing_id r = Some r0 → eo_deduplication_key r0 = eo_deduplication_key r →
    wp (update_record r) (λ res s', rec_ok (tables s') ∧
    match res with Ok _ => recs (tables s') = <[eo_processing_id r:=r]> (recs (tables s)) | _ => recs (tables s') = recs (tables s) end) s;
  processing_law : ∀ k (s : St E W), rec_ok (tables s) → wp (is_processing k) (λ res s', rec_ok (tables s') ∧
    recs (tables s') = recs (tables s) ∧ match res with Ok b => busy k (recs (tables s)) → b = true | _ => True end) s;
  mark_law : ∀ i result (s : St E W), rec_ok (tables s) → wp (mark_record_completed i result) (λ _ s', rec_ok (tables s') ∧
    (recs (tables s') = recs (tables s) ∨ ∃ now, recs (tables s') = alter (put_result result now) i (recs (tables s)))) s;
  cleanup_records_law : ∀ older (s : St E W), rec_ok (tables s) → wp (cleanup_old_records older) (λ _ s', rec_ok (tables s') ∧
    (recs (tables s') = recs (tables s) ∨
     recs (tables s') = filter (λ kv, older < eo_started_at kv.2) (recs (tables s)))) s;
}.

(** ** The storage in memory *)
(** Every record stands under its id, and its key's list names it. *)
Definition once_ok (s : OnceStore) : Prop := ∀ i r, os_records s !! i = Some r →
  eo_processing_id r = i ∧ i ∈ default [] (os_key_index s !! eo_deduplication_key r).

Lemma index_add_keeps k i k' j (m : gmap string (list string)) :
  j ∈ default [] (m !! k') → j ∈ default [] (index_add k i m !! k').
Proof.
  unfold index_add. intros Hj. destruct (decide (k = k')) as [<-|Hne].
  - rewrite lookup_insert_eq. simpl. apply elem_of_app. by left.
  - by rewrite lookup_insert_ne.
Qed.
Lemma index_add_new k i (m : gmap string (list string)) : i ∈ default [] (index_add k i m !! k).
Proof. unfold index_add. rewrite lookup_insert_eq. simpl. apply elem_of_app. right. by left. Qed.
Lemma index_of_walk (l : list (string * ExactlyOnceRecord)) m i k :
  (i ∈ default [] (m !! k) ∨ ∃ r, (i, r) ∈ l ∧ eo_deduplication_key r = k) →
  i ∈ default [] (foldl (λ m kv, index_add (eo_deduplication_key kv.2) kv.1 m) m l !! k).
Proof.
  revert m. induction l as [|[j r] l IH]; intros m H; simpl.
  - destruct H as [H|(r & H & _)]; [done|]. by apply elem_of_nil in H.
  - apply IH. destruct H as [H|(r' & [[= -> ->]|H]%elem_of_cons & <-)].
    + left. by apply index_add_keeps.
    + left. apply index_add_new.
    + right. by exists r'.
Qed.
Lemma once_ok_store r s : once_ok s → once_ok (once_store r s).
Proof.
  intros Hs i x. unfold once_store. simpl. rewrite lookup_insert_Some. intros [[<- <-]|[Hne Hx]].
  - split; [done|]. apply index_add_new.
  - destruct (Hs i x Hx) as [Hi Hk]. split; [done|]. by apply index_add_keeps.
Qed.
Lemma once_ok_update r r0 s :
  once_ok s → os_records s !! eo_processing_id r = Some r0 → eo_deduplication_key r0 = eo_deduplication_key r →
  once_ok (once_update r s).
Proof.
  intros Hs H0 Hk i x. unfold once_update. simpl. rewrite lookup_insert_Some. intros [[<- <-]|[Hne Hx]]; [|by apply Hs].
  split; [done|]. rewrite <- Hk. by destruct (Hs _ _ H0).
Qed.
Lemma once_ok_mark i result now s : once_ok s → once_ok (once_mark i result now s).
Proof.
  intros Hs j x. unfold once_mark. simpl. rewrite lookup_alter_Some. intros [(<- & r & Hr & ->)|[Hne Hx]]; [|by apply Hs].
  simpl. by apply Hs.
Qed.
Lemma once_ok_cleanup `{HashIter} older s : once_ok s → once_ok (once_cleanup older s).
Proof.
  intros Hs i x. unfold once_cleanup. simpl. intros Hx. pose proof Hx as [Hr _]%map_lookup_filter_Some.
  destruct (Hs i x Hr) as [Hi _]. split; [done|]. apply index_of_walk. right. exists x. split; [|done].
  rewrite hash_iter_perm. by apply elem_of_map_to_list.
Qed.
Lemma once_processing k s : once_ok s → busy k (os_records s) → once_is_processing k s = true.
Proof.
  intros Hs (i & r & Hr & <- & Hp). unfold once_is_processing, records_for_key. apply existsb_exists.
  exists r. split; [|done]. apply list_elem_of_In, list_elem_of_omap. exists i. split; [|done]. by destruct (Hs i r Hr).
Qed.

#[export] Instance memory_once_laws {W} {HW : World W} {HI : HashIter} :
  OnceLaws (EO:=MemoryExactlyOnceStorage) OnceStore W.
Proof.
  refine (Build_OnceLaws _ _ _ os_records once_ok _ _ _ _ _ _); intros; unfold wp; simpl.
  - split; [by apply once_ok_store|done].
  - split; [done|]. split; [done|]. split; [done|]. intros r Hr. by destruct (H i r Hr).
  - split; [by eapply once_ok_update|done].
  - split; [done|]. split; [done|]. by apply once_processing.
  - unfold memory_mark_completed, mbind, sm_bind, read_tables, write_tables, utc_now.
    destruct (os_records (tables s) !! i); [|split; [done|by left]].
    destruct (w_utc_now (world s)) as [now w]. simpl. split; [by apply once_ok_mark|]. right. by exists now.
  - split; [by apply once_ok_cleanup|by right].
Defined.

(** ** The deduplicator *)
Inductive DedupCall {L : Libs} :=
  | CIsDuplicate (m : QueueMessage) | CRecord (m : QueueMessage) | CStart (m : QueueMessage) (processor_id : string)
  | CComplete (processing_id : string) (result : ProcessingResult) (error_message : option string)
  | CGetStats | CCleanupExpired.
(** A completion that ends the processing. *)
Definition ends_it {L : Libs} (c : DedupCall) : Prop := match c with CComplete _ r _ => r ≠ RInProgress | _ => True end.

Section deduplicator_facts.
Context {L : Libs} {D : Durations}.
Context {C E W : Type} {HW : World W} {DC : DedupCache C W} {EO : ExactlyOnceStorage E W} {OL : OnceLaws E W}.
Variable overflow_checks : bool.
Variable hash_value : Value → Z.
Variable show_hex : Z → string.
Variable config : DeduplicationConfig.
#[local] Abbreviation Sy := (St (Dedup C E) W).
#[local] Abbreviation Mo := (sm Sy Ends).
#[local] Abbreviation key_of := (get_deduplication_key hash_value show_hex config).
#[local] Abbreviation start := (start_processing (C:=C) (E:=E) overflow_checks hash_value show_hex config).
#[local] Abbreviation duplicate := (is_duplicate (C:=C) (E:=E) overflow_checks hash_value show_hex config).
Implicit Types (s : Sy) (m : QueueMessage) (k : string).

Definition serve_dedup (c : DedupCall) : Mo unit :=
  match c with
  | CIsDuplicate m => _ ← duplicate m; mret tt
  | CRecord m => _ ← record_message (E:=E) hash_value show_hex config m; mret tt
  | CStart m p => _ ← start m p; mret tt
  | CComplete i r e => complete_processing overflow_checks config i r e
  | CGetStats => _ ← get_dedup_stats; mret tt
  | CCleanupExpired => _ ← cleanup_expired_records overflow_checks config; mret tt
  end.
Definition serve_calls (cs : list DedupCall) s : Sy := foldl (λ s c, (serve_dedup c s).2) s cs.

(** *** What leaves the records alone *)
Definition records s : Records := recs (dd_storage (tables s)).
Definition st_ok s : Prop := rec_ok (dd_storage (tables s)).
Definition same_storage : relation Sy := λ s s', dd_storage (tables s') = dd_storage (tables s).
#[local] Instance same_storage_preorder : PreOrder same_storage.
Proof. split; [done|]. intros a b c. unfold same_storage. congruence. Qed.
#[local] Hint Extern 1 (PreOrder same_storage) => exact same_storage_preorder : keeps.

Lemma keeps_dclock : keeps (E:=Ends) same_storage utc_now.
Proof. intros s. unfold utc_now. by destruct (w_utc_now (world s)). Qed.
Lemma keeps_duuid : keeps (E:=Ends) same_storage fresh_uuid.
Proof. intros s. unfold fresh_uuid. simpl. by destruct (w_uuid (world s)). Qed.
Lemma keeps_stats_read {A} (f : DeduplicationStats → A) : keeps same_storage (stats_read (C:=C) (E:=E) (W:=W) f).
Proof. done. Qed.
Lemma keeps_stats_write f : keeps same_storage (stats_write (C:=C) (E:=E) (W:=W) f).
Proof. done. Qed.
Lemma keeps_in_cache {A} (c : sm (St C W) QueueError A) : keeps same_storage (in_cache (E:=E) c).
Proof. apply keeps_zoom. done. Qed.
Lemma keeps_dcounted n : keeps same_storage (dd_counted (C:=C) (E:=E) (W:=W) overflow_checks n).
Proof. apply keeps_lift, _. Qed.
Lemma keeps_holding {A} (c : Mo A) : keeps same_storage c → keeps same_storage (holding_stats c).
Proof.
  intros Hc s. unfold holding_stats. destruct (dd_stats_locked (tables s)); [done|].
  specialize (Hc (set_locked true s)). destruct (c (set_locked true s)) as [[a|[e|]|] s']; done.
Qed.
Lemma keeps_try {A} (r : QueueError + A) : keeps same_storage (dd_try (C:=C) (E:=E) (W:=W) r).
Proof. by destruct r. Qed.
#[local] Hint Resolve keeps_dclock keeps_duuid keeps_stats_read keeps_stats_write keeps_in_cache keeps_dcounted
  keeps_try : keeps.
Ltac same_body :=
  repeat first [progress intros | apply keeps_holding | apply keeps_bind; [exact same_storage_preorder|..]
               | apply keeps_attempt | case_match]; eauto 4 with keeps.
Lemma keeps_timestamp : keeps same_storage (update_timestamp (C:=C) (E:=E) (HW:=HW)).
Proof. unfold update_timestamp. same_body. Qed.
#[local] Hint Resolve keeps_timestamp : keeps.
Lemma keeps_key_duplicate k : keeps same_storage (is_key_duplicate (E:=E) overflow_checks k).
Proof. unfold is_key_duplicate. same_body. Qed.
#[local] Hint Resolve keeps_key_duplicate : keeps.
Lemma keeps_duplicate m : keeps same_storage (duplicate m).
Proof. unfold is_duplicate. same_body. Qed.
Lemma keeps_record m : keeps same_storage (record_message (E:=E) hash_value show_hex config m).
Proof. unfold record_message. same_body. Qed.
Lemma keeps_get_stats : keeps same_storage (get_dedup_stats (C:=C) (E:=E) (W:=W)).
Proof. unfold get_dedup_stats. same_body. Qed.
Lemma keeps_count_result r : keeps same_storage (count_result (C:=C) (E:=E) (W:=W) overflow_checks r).
Proof. unfold count_result. same_body. Qed.
#[local] Hint Resolve keeps_count_result : keeps.
Lemma keeps_added a b : keeps same_storage (u64_added (C:=C) (E:=E) (W:=W) overflow_checks a b).
Proof. apply keeps_lift, _. Qed.

Lemma wp_same {A} (c : Mo A) (Φ : res Ends A → Sy → Prop) s :
  keeps same_storage c → (∀ r s', same_storage s s' → Φ r s') → wp c Φ s.
Proof. intros Hc HΦ. apply HΦ, Hc. Qed.
Lemma wp_in_storage {A} (c : sm (St E W) QueueError A) (Φ : res Ends A → Sy → Prop) s :
  wp c (λ r x, ∀ s', dd_storage (tables s') = tables x → Φ (res_map_err Fails r) s')
    (mkSt (dd_storage (tables s)) (world s)) →
  wp (in_storage c) Φ s.
Proof.
  unfold wp, in_storage, sm_zoom, map_err. destruct (c (mkSt (dd_storage (tables s)) (world s))) as [r x]. simpl. auto.
Qed.

(** *** One processing at a time *)
Definition exclusive s : Prop := st_ok s ∧ one_at_a_time (records s).
Lemma exclusive_same s s' : same_storage s s' → exclusive s → exclusive s'.
Proof. unfold exclusive, st_ok, records. by intros ->. Qed.

Lemma wp_start m p s :
  st_ok s →
  wp (start m p) (λ r s', st_ok s' ∧
    match r with
    | Ok i => ∃ k x, key_of m = inr k ∧ ¬ busy k (records s) ∧ eo_processing_id x = i ∧ eo_deduplication_key x = k ∧
        in_progress x = true ∧ records s' = <[i:=x]> (records s)
    | _ => records s' = records s
    end) s.
Proof.
  intros Hs. unfold start_processing. destruct (dc_enable_exactly_once config); [|by apply wp_err]. simpl.
  apply wp_bind. destruct (key_of m) as [e|k]; [by apply wp_err|]. apply wp_ret.
  apply wp_bind, wp_same; [apply keeps_duuid|]. intros r s1 H1. destruct r as [u|e|]; [|unfold st_ok, records; by rewrite H1..].
  assert (st_ok s1) as Hok1 by (unfold st_ok; by rewrite H1).
  apply wp_bind, wp_in_storage. eapply wp_mono; [by apply processing_law|]. intros r x (Hokx & Hx & Hb) s2 H2.
  assert (st_ok s2 ∧ records s2 = records s) as [Hok2 Hr2].
  { unfold st_ok, records. rewrite H2, Hx. split; [done|]. simpl. by rewrite H1. }
  destruct r as [[]|e|]; simpl; [| |done..].
  - apply wp_bind, wp_same; [same_body|]. intros r s3 H3.
    destruct r as [[]|e|]; [apply wp_err|..]; unfold st_ok, records; by rewrite H3.
  - apply wp_bind, wp_same; [apply keeps_dclock|]. intros r s3 H3. destruct r as [now|e|]; [|unfold st_ok, records; by rewrite H3..].
    assert (st_ok s3) as Hok3 by (unfold st_ok; by rewrite H3).
    apply wp_bind, wp_in_storage. eapply wp_mono; [by apply store_law|]. intros r y [Hoky Hy] s4 H4.
    unfold st_ok, records. rewrite H4. simpl in Hy. rewrite H3 in Hy. fold (records s2) in Hy. rewrite Hr2 in Hy.
    destruct r as [[]|e|]; simpl; [|done..]. apply wp_ret. rewrite H4. split; [done|].
    match type of Hy with _ = <[_:=?z]> _ => exists k, z end. split; [done|]. split; [|done].
    intros Hbusy. simpl in Hb. rewrite H1 in Hb. by specialize (Hb Hbusy).
Qed.
Lemma exclusive_start m p s : exclusive s → exclusive (start m p s).2.
Proof.
  intros [Hs H1]. pose proof (wp_start m p s Hs) as H. unfold wp in H. destruct H as [Hok H]. split; [done|].
  destruct (start m p s) as [[i|e|] s']; simpl in *; [|by rewrite H..].
  destruct H as (k & x & _ & Hb & <- & <- & _ & ->). by apply one_insert.
Qed.
Lemma exclusive_complete i r e s :
  r ≠ RInProgress → exclusive s → exclusive (complete_processing overflow_checks config i r e s).2.
Proof.
  intros Hr Hs. enough (wp (complete_processing overflow_checks config i r e) (λ _ s', exclusive s') s) as H by apply H.
  unfold complete_processing. destruct (dc_enable_exactly_once config); [|by apply wp_ret]. simpl.
  destruct Hs as [Hs H1]. apply wp_bind, wp_in_storage. eapply wp_mono; [by apply get_law|].
  intros o x (Hx & Hrx & Ho) s1 Hs1.
  assert (exclusive s1 ∧ records s1 = records s) as [Hex1 Hr1].
  { unfold exclusive, st_ok, records. rewrite Hs1, Hrx. done. }
  destruct o as [o|e'|]; simpl; [|done..]. destruct Ho as [Ho Hid]. simpl in Ho.
  assert (∀ s2, exclusive s2 → wp (in_storage (mark_record_completed i r)) (λ res s', exclusive s') s2) as Hmark.
  { intros s2 [Hok2 H2]. apply wp_in_storage. eapply wp_mono; [by apply mark_law|]. intros res y [Hy Hry] s3 Hs3.
    unfold exclusive, st_ok, records. rewrite Hs3. split; [done|]. simpl in Hry. destruct Hry as [->|[now ->]]; [done|].
    eapply one_subseteq; [|exact H2]. intros j z. rewrite lookup_alter_Some. intros [(_ & z' & _ & ->)|[_ Hz]] Hp; [|done].
    by apply bool_decide_eq_true in Hp. }
  apply wp_bind. apply (wp_mono _ (λ _ s2, exclusive s2)).
  - destruct o as [x0|]; [|by apply wp_ret]. specialize (Hid x0 eq_refl).
    apply wp_bind, wp_same; [apply keeps_dclock|]. intros r2 s2 H2.
    assert (exclusive s2) as Hex2 by (by eapply exclusive_same). destruct r2 as [now|e'|]; [|done..].
    destruct Hex2 as [Hok2 Ho2]. apply wp_in_storage. eapply wp_mono.
    { apply (update_law _ x0); [done| |done]. simpl. rewrite Hid, H2. fold (records s1). by rewrite Hr1. }
    intros r3 y [Hy Hry] s3 Hs3. unfold exclusive, st_ok, records. rewrite Hs3. split; [done|]. simpl in Hry.
    destruct r3; rewrite Hry; [|done..]. eapply one_subseteq; [|exact Ho2]. intros j z.
    rewrite lookup_insert_Some. intros [[_ <-]|[_ Hz]] Hp; [|done]. by apply bool_decide_eq_true in Hp.
  - intros [[]|e'|] s2 Hex2; [|done..]. apply wp_bind. eapply wp_mono; [by apply Hmark|]. intros [[]|e'|] s3 Hex3; [|done..].
    apply wp_same; [same_body|]. intros r4 s4 H4. by eapply exclusive_same.
Qed.
Lemma exclusive_cleanup s : exclusive s → exclusive (cleanup_expired_records overflow_checks config s).2.
Proof.
  intros Hs. enough (wp (cleanup_expired_records overflow_checks config) (λ _ s', exclusive s') s) as H by apply H.
  unfold cleanup_expired_records.
  apply wp_bind, wp_same; [apply keeps_in_cache|]. intros r1 s1 H1%exclusive_same; [|done]. destruct r1 as [n|e|]; [|done..].
  apply wp_bind, wp_same; [apply keeps_added|]. intros r2 s2 H2%exclusive_same; [|done]. destruct r2 as [t|e|]; [|done..].
  apply wp_bind. apply (wp_mono _ (λ _ s', exclusive s')).
  2:{ intros [t'|e|] s3 Hex3; [|done..]. apply wp_same; [same_body|]. intros r4 s4 H4. by eapply exclusive_same. }
  case_match; [|by apply wp_ret].
  apply wp_bind, wp_same; [apply keeps_dclock|]. intros r3 s3 H3%exclusive_same; [|done]. destruct r3 as [now|e|]; [|done..].
  apply wp_bind, wp_lift. destruct (or_panic _) as [w|e|]; [|done..].
  apply wp_bind, wp_lift. destruct (or_panic _) as [cut|e|]; [|done..].
  destruct H3 as [Hok3 Ho3]. apply wp_bind, wp_in_storage. eapply wp_mono; [by apply cleanup_records_law|].
  intros r x [Hx Hr] s4 Hs4. assert (exclusive s4) as Hex4.
  { unfold exclusive, st_ok, records. rewrite Hs4. split; [done|]. simpl in Hr. destruct Hr as [->| ->]; [done|].
    eapply one_subseteq; [|exact Ho3]. by intros j z [Hz _]%map_lookup_filter_Some. }
  destruct r as [c|e|]; simpl; [|done..]. apply wp_same; [apply keeps_added|]. intros r5 s5 H5. by eapply exclusive_same.
Qed.
Lemma exclusive_serve c s : ends_it c → exclusive s → exclusive (serve_dedup c s).2.
Proof.
  assert (∀ A (c : Mo A), keeps same_storage c → ∀ s, exclusive s → exclusive ((_ ← c; mret tt) s).2) as Hskip.
  { intros A c' Hc s' Hs'. eapply exclusive_same; [|exact Hs'].
    assert (keeps same_storage (_ ← c'; mret tt)) as Hk; [|apply Hk]. same_body. }
  intros Hc Hs. destruct c; simpl in *.
  - apply Hskip; [apply keeps_duplicate|done].
  - apply Hskip; [apply keeps_record|done].
  - pose proof (exclusive_start m processor_id s Hs) as H. unfold mbind, sm_bind.
    by destruct (start m processor_id s) as [[i|e|] s'].
  - by apply exclusive_complete.
  - apply Hskip; [apply keeps_get_stats|done].
  - pose proof (exclusive_cleanup s Hs) as H. unfold mbind, sm_bind.
    by destruct (cleanup_expired_records overflow_checks config s) as [[i|e|] s'].
Qed.


(** *** Asking whether a message is a duplicate *)
(** Does the strategy look a key of the message up? *)
Definition consults m : bool :=
  match dc_strategy config with
  | DNone => false
  | DMessageId => match m_message_deduplication_id m with Some _ => true | None => false end
  | DContent | DBoth => true
  end.
Definition cache_answers : Prop := ∀ k (x : St C W), ∃ b, (contains_key k x).1 = Ok b.
Lemma key_duplicate_waits k s :
  cache_answers → dd_stats_locked (tables s) = true →
  wp (is_key_duplicate (E:=E) overflow_checks k) (λ r s', r = Err Waits ∧ dd_stats_locked (tables s') = true) s.
Proof.
  intros Hc Hl. unfold is_key_duplicate. apply wp_bind. unfold wp at 1, in_cache, sm_zoom, map_err.
  destruct (Hc k (mkSt (dd_cache (tables s)) (world s))) as [b Hb]. rewrite Hb. simpl.
  unfold wp, holding_stats. simpl. by rewrite Hl.
Qed.

Lemma wp_holding {A} (c : Mo A) (Φ : res Ends A → Sy → Prop) s :
  dd_stats_locked (tables s) = false →
  wp c (λ r s', match r with Err Waits => Φ r s' | _ => Φ r (set_locked false s') end) (set_locked true s) →
  wp (holding_stats c) Φ s.
Proof.
  unfold wp, holding_stats. intros ->. destruct (c (set_locked true s)) as [[a|[e|]|] s']; done.
Qed.

(** Where the strategy looks a key up, asking whether a message is a duplicate never ends: the statistics'
    lock is taken, and taken again for the key, whatever the cache answers; and no call that takes it ends
    afterwards. Where no key is looked up, the answer is no. *)
Theorem duplicate_check_waits m s :
  cache_answers → dd_stats_locked (tables s) = false → ds_total_messages (dd_stats (tables s)) < u64_max →
  wp (duplicate m) (λ r s',
    if consults m then
      r = Err Waits ∧ dd_stats_locked (tables s') = true ∧
      (∀ m', (duplicate m' s').1 = Err Waits) ∧ (get_dedup_stats s').1 = Err Waits
    else r = Ok false ∧ dd_stats_locked (tables s') = false) s.
Proof.
  intros Hc Hl Ht.
  assert (∀ s', dd_stats_locked (tables s') = true →
    (∀ m', (duplicate m' s').1 = Err Waits) ∧ (get_dedup_stats s').1 = Err Waits) as Hafter.
  { intros s' Hl'. unfold is_duplicate, get_dedup_stats, holding_stats. by rewrite Hl'. }
  assert (∀ k s', dd_stats_locked (tables s') = true → ∀ (f : bool → Mo bool),
    wp (is_key_duplicate overflow_checks k ≫= f) (λ r s', r = Err Waits ∧ dd_stats_locked (tables s') = true) s') as Hkey.
  { intros k s' Hl' f. apply wp_bind. eapply wp_mono; [by apply key_duplicate_waits|]. by intros r s2 [-> ?]. }
  assert (∀ k s', dd_stats_locked (tables s') = true →
    wp (is_key_duplicate overflow_checks k) (λ r s', r = Err Waits ∧ dd_stats_locked (tables s') = true) s') as Hkey1.
  { intros k s' Hl'. by apply key_duplicate_waits. }
  assert (∃ n, checked_incr overflow_checks u64_max (ds_total_messages (dd_stats (tables s))) = Some n) as [n Hn].
  { unfold checked_incr. rewrite (proj2 (Z.leb_le _ _)) by lia. by eexists. }
  unfold is_duplicate at 1. apply wp_holding; [done|]. apply wp_bind.
  apply (wp_mono _ (λ r s1, r = Ok n ∧ dd_stats_locked (tables s1) = true)).
  { unfold wp, stats_read, dd_counted, sm_lift, mbind, sm_bind. simpl. by rewrite Hn. }
  intros r s1 [-> Hl1]. apply wp_bind. unfold wp at 1, stats_write at 1. simpl. set (s2 := mkSt _ _).
  assert (dd_stats_locked (tables s2) = true) as Hl2 by done. clearbody s2. clear dependent s1.
  unfold consults. destruct (dc_strategy config).
  - by apply wp_ret.
  - destruct (m_message_deduplication_id m) as [d|]; [|by apply wp_ret].
    eapply wp_mono; [by apply Hkey1|]. intros r s' [-> ?]. auto.
  - eapply wp_mono; [by apply Hkey1|]. intros r s' [-> ?]. auto.
  - destruct (m_message_deduplication_id m) as [d|].
    + eapply wp_mono; [by apply Hkey|]. intros r s' [-> ?]. auto.
    + apply wp_bind, wp_ret. eapply wp_mono; [by apply Hkey|]. intros r s' [-> ?]. auto.
Qed.
End deduplicator_facts.

(** ** A deduplicator in memory

    The theorems of [DeduplicationFacts] at concrete inputs, and what the service does with a message that was
    completed, with two starts that interleave, and with an entry that has expired. *)
Module DeduplicationExample.
#[local] Existing Instance Concrete.libs.
#[local] Existing Instance ConcreteWorld.demo_world.
#[local] Existing Instance CronExample.all_durations.
#[local] Instance any_order : HashIter := { hash_iter V := map_to_list; hash_iter_perm V m := reflexivity _ }.
#[local] Instance two_keys : DedupCache (gmap string DeduplicationEntry) ConcreteWorld.DW := MemoryDeduplicationCache 2.
#[local] Instance storage : ExactlyOnceStorage OnceStore ConcreteWorld.DW := MemoryExactlyOnceStorage.
#[local] Instance storage_laws : OnceLaws OnceStore ConcreteWorld.DW := memory_once_laws.
Abbreviation DState := (St (Dedup (gmap string DeduplicationEntry) OnceStore) ConcreteWorld.DW).

Definition second : Z := 1000000000.
Definition hash_text (v : Value) : Z := match v with VString s => str_len s | _ => 0 end.
Definition entry (key : string) (created_at expires_at : instant) : DeduplicationEntry :=
  mkEntry key key None created_at expires_at PPending 1 None.
Definition cached (l : list DeduplicationEntry) (now : instant) : St (gmap string DeduplicationEntry) ConcreteWorld.DW :=
  mkSt (list_to_map (map (λ e, (de_key e, e)) l)) (ConcreteWorld.mkDW [] now 0%N).
Definition full := cached [entry "a" 5 100; entry "b" 4 100] 10.
Definition store_c := memory_store_entry 2 (entry "c" 10 110) full.

(** A third entry in a cache of two drops the older one. *)
Lemma memory_cache_bounded_witness :
  store_c.1 = Ok tt ∧ Z.of_nat (size (tables store_c.2)) ≤ 2 ∧ tables store_c.2 !! "c" = Some (entry "c" 10 110) ∧
  tables store_c.2 !! "b" = None ∧ tables store_c.2 !! "a" = Some (entry "a" 5 100).
Proof.
  pose proof (memory_cache_bounded 2 (entry "c" 10 110) full ltac:(lia) ltac:(by_dec)) as H.
  unfold wp in H. fold store_c in H. destruct H as (Hok & _ & Hsize & Hin).
  split; [exact Hok|]. split; [exact Hsize|]. split; [exact Hin|]. split; by_vm.
Defined.

Definition fresh_system : DState :=
  mkSt (mkDedup ∅ once_new dedup_stats_default false) (ConcreteWorld.mkDW [] (1704104120 * second) 0%N).
Definition payment : QueueMessage := with_deduplication_id "pay-1" (message_new "m1" 0 0 0).
Definition serve := serve_dedup (C:=gmap string DeduplicationEntry) (E:=OnceStore) true hash_text show_Z dedup_config_default.
Definition before : list DedupCall := [CRecord payment; CStart payment "worker-1"; CStart payment "worker-2"].
Abbreviation served := (serve_calls (C:=gmap string DeduplicationEntry) (E:=OnceStore) true hash_text show_Z
  dedup_config_default before fresh_system).
Abbreviation start_again := (start_processing (C:=gmap string DeduplicationEntry) (E:=OnceStore) true hash_text show_Z
  dedup_config_default payment "worker-3" served).
Lemma empty_exclusive : exclusive fresh_system.
Proof. split; [intros i r H|intros i j a b H]; simpl in H; by rewrite lookup_empty in H. Qed.

Definition asked := is_duplicate (C:=gmap string DeduplicationEntry) (E:=OnceStore) true hash_text show_Z
  dedup_config_default payment fresh_system.
Lemma memory_answers : cache_answers (C:=gmap string DeduplicationEntry) (W:=ConcreteWorld.DW).
Proof. intros k x. by eexists. Qed.
Lemma duplicate_check_waits_witness :
  asked.1 = Err Waits ∧ (get_dedup_stats asked.2).1 = Err Waits.
Proof.
  pose proof (duplicate_check_waits (E:=OnceStore) true hash_text show_Z dedup_config_default payment fresh_system
    memory_answers eq_refl ltac:(unfold u64_max; simpl; lia)) as H.
  destruct H as (Hr & _ & _ & Hs). split; [exact Hr|exact Hs].
Defined.

(** A message that was completed is started again. *)
Example completed_starts_again :
  let s := (serve (CStart payment "worker-1") fresh_system).2 in
  let s := (serve (CComplete "0" RSucceeded None) s).2 in
  eo_result <$> (records s !! "0") = Some RSucceeded ∧
  (start_processing (C:=gmap string DeduplicationEntry) (E:=OnceStore) true hash_text show_Z dedup_config_default
     payment "worker-2" s).1 = Ok "1".
Proof. vm_compute. split; reflexivity. Qed.
(** Two starts whose checks both come before their records: both are in progress. *)
Example interleaved_starts :
  let started id := mkRecord id "m1" "pay-1" "worker" 0 None RInProgress 0 None in
  let free := once_is_processing "pay-1" once_new in
  (free, length (List.filter in_progress (records_for_key "pay-1" (once_store (started "1") (once_store (started "0") once_new))))) =
  (false, 2%nat).
Proof. vm_compute. reflexivity. Qed.
(** An entry that has expired is still found. *)
Example expired_still_found : (contains_key "a" (cached [entry "a" 5 100] 200)).1 = Ok true.
Proof. vm_compute. reflexivity. Qed.
End DeduplicationExample.
