(* ===== verification/Authorization.v ===== *)
(** * Roles and cached permissions

    [backbone-authorization/src/]: the permissions of types.rs, the cache in front of them (cache.rs, the
    interface and the cache in memory), the service (service.rs) and the layer that asks it about a request
    (middleware.rs). The request's headers, the handler below and chrono's durations are parameters. *)
From Stdlib Require Import ZArith Lia Ascii.
From S2P Require Import Prelude RustStr RustChar Json Database JobTypes.

Local Open Scope Z_scope.

(** ** [types.rs] *)
Inductive AuthorizationError :=
  | UserNotFound (m : string) | AuthPermissionDenied (m : string) | InvalidToken (m : string)
  | AuthConfiguration (m : string) | AuthDatabase (m : string).
Inductive AuthAction := ACreate | ARead | AUpdate | ADelete | AList | ARestore.
Inductive AuthResource := ResUser | ResRole | ResPermission | ResSettings.
Inductive UserAction := UCreate | URead | UUpdate | UDelete | UList | UResetPassword | UChangeRole.
Inductive RoleAction := RoCreate | RoRead | RoUpdate | RoDelete | RoList | RoAssignPermission | RoRevokePermission.
Inductive PermissionAction := PeCreate | PeRead | PeUpdate | PeDelete | PeList.
Inductive SettingsAction := SeCreate | SeRead | SeUpdate | SeDelete | SeList.
Inductive AuthPermission :=
  | PUser (a : UserAction) | PRole (a : RoleAction) | PPermission (a : PermissionAction) | PSettings (a : SettingsAction).
Definition user_actions : list UserAction := [UCreate; URead; UUpdate; UDelete; UList; UResetPassword; UChangeRole].
Definition role_actions : list RoleAction :=
  [RoCreate; RoRead; RoUpdate; RoDelete; RoList; RoAssignPermission; RoRevokePermission].
Definition permission_actions : list PermissionAction := [PeCreate; PeRead; PeUpdate; PeDelete; PeList].
Definition settings_actions : list SettingsAction := [SeCreate; SeRead; SeUpdate; SeDelete; SeList].
#[export] Instance user_action_eq_dec : EqDecision UserAction.
Proof. solve_decision. Defined.
#[export] Instance role_action_eq_dec : EqDecision RoleAction.
Proof. solve_decision. Defined.
#[export] Instance permission_action_eq_dec : EqDecision PermissionAction.
Proof. solve_decision. Defined.
#[export] Instance settings_action_eq_dec : EqDecision SettingsAction.
Proof. solve_decision. Defined.
#[export] Instance auth_permission_eq_dec : EqDecision AuthPermission.
Proof. solve_decision. Defined.

(** The derived [Debug]. *)
Definition debug_permission (p : AuthPermission) : string :=
  match p with
  | PUser a => "User(" +:+ match a with
      | UCreate => "Create" | URead => "Read" | UUpdate => "Update" | UDelete => "Delete" | UList => "List"
      | UResetPassword => "ResetPassword" | UChangeRole => "ChangeRole" end +:+ ")"
  | PRole a => "Role(" +:+ match a with
      | RoCreate => "Create" | RoRead => "Read" | RoUpdate => "Update" | RoDelete => "Delete" | RoList => "List"
      | RoAssignPermission => "AssignPermission" | RoRevokePermission => "RevokePermission" end +:+ ")"
  | PPermission a => "Permission(" +:+ match a with
      | PeCreate => "Create" | PeRead => "Read" | PeUpdate => "Update" | PeDelete => "Delete" | PeList => "List" end +:+ ")"
  | PSettings a => "Settings(" +:+ match a with
      | SeCreate => "Create" | SeRead => "Read" | SeUpdate => "Update" | SeDelete => "Delete" | SeList => "List" end +:+ ")"
  end.
Definition permission_list : list AuthPermission :=
  map PUser user_actions ++ map PRole role_actions ++ map PPermission permission_actions ++ map PSettings settings_actions.
#[export] Instance auth_permission_countable : Countable AuthPermission.
Proof.
  refine (inj_countable debug_permission (λ s, List.find (λ p, bool_decide (debug_permission p = s)) permission_list) _).
  by intros [[]|[]|[]|[]].
Defined.
Abbreviation Perms := (gset AuthPermission).
Definition all_permissions : Perms := list_to_set permission_list.

Definition from_action_resource (a : AuthAction) (r : AuthResource) : AuthPermission :=
  match r with
  | ResUser => PUser match a with
      | ACreate => UCreate | ARead => URead | AUpdate => UUpdate | ADelete => UDelete | AList => UList | ARestore => UDelete end
  | ResRole => PRole match a with
      | ACreate => RoCreate | ARead => RoRead | AUpdate => RoUpdate | ADelete => RoDelete | AList => RoList | ARestore => RoDelete end
  | ResPermission => PPermission match a with
      | ACreate => PeCreate | ARead => PeRead | AUpdate => PeUpdate | ADelete => PeDelete | AList => PeList | ARestore => PeDelete end
  | ResSettings => PSettings match a with
      | ACreate => SeCreate | ARead => SeRead | AUpdate => SeUpdate | ADelete => SeDelete | AList => SeList | ARestore => SeDelete end
  end.

Record PermissionCheck := mkPermCheck { pc_allowed : bool; pc_permission : AuthPermission; pc_reason : string }.
Record AuthorizationResponse := mkAuthResponse { ar_allowed : bool; ar_checks : list PermissionCheck }.
Record AuthorizationConfig := mkAuthConfig {
  ac_cache_ttl_seconds : Z; ac_default_role : string; ac_enable_permission_caching : bool }.
Definition auth_config_default : AuthorizationConfig := mkAuthConfig 300 "guest" true.

(** ** [cache.rs] *)
Inductive CacheError := OperationFailed (m : string) | SerializationError (m : string) | CacheConnectionError (m : string).
Class PermissionCacheBackend (S W : Type) := {
  perm_get : string → sm (St S W) CacheError (option Perms);
  perm_set : string → Perms → Z → sm (St S W) CacheError unit;
  perm_delete : string → sm (St S W) CacheError unit;
  perm_clear : sm (St S W) CacheError unit;
}.
Record CachedEntry := mkCached { ce_permissions : Perms; ce_expires_at : instant }.
Abbreviation PermMap := (gmap string CachedEntry).

Section memory_cache.
Context {D : Durations} {W : Type} {HW : World W}.
#[local] Abbreviation Mc := (sm (St PermMap W) CacheError).
Definition perm_read {A} (f : PermMap → A) : Mc A := λ s, (Ok (f (tables s)), s).
Definition perm_write (f : PermMap → PermMap) : Mc unit := λ s, (Ok tt, mkSt (f (tables s)) (world s)).
Definition mem_perm_get (user_id : string) : Mc (option Perms) :=
  found ← perm_read (λ m, m !! user_id);
  match found with
  | Some entry =>
      now ← utc_now;
      if now <? ce_expires_at entry then mret (Some (ce_permissions entry)) else mret None
  | None => mret None
  end.
Definition mem_perm_set (user_id : string) (permissions : Perms) (ttl_seconds : Z) : Mc unit :=
  now ← utc_now;
  ttl ← sm_lift (or_panic (duration_seconds (u64_as_i64 ttl_seconds)));
  expires_at ← sm_lift (or_panic (add_duration now ttl));
  perm_write (<[user_id := mkCached permissions expires_at]>).
#[export] Instance InMemoryPermissionCache : PermissionCacheBackend PermMap W := {|
  perm_get := mem_perm_get; perm_set := mem_perm_set;
  perm_delete user_id := perm_write (delete user_id); perm_clear := perm_write (λ _, ∅) |}.
End memory_cache.

(** ** [service.rs] *)
Record Authz (C : Type) := mkAuthz {
  az_role_permissions : gmap string Perms; az_user_roles : gmap string (gset string); az_cache : C }.
Arguments mkAuthz {_} _ _ _.
Arguments az_role_permissions {_} _.
Arguments az_user_roles {_} _.
Arguments az_cache {_} _.

(** The permissions of a user's roles, together; the guest's where that is nothing. *)
Definition role_permissions_of (role_perms : gmap string Perms) (roles : gset string) : Perms :=
  set_fold (λ role acc, acc ∪ default ∅ (role_perms !! role)) ∅ roles.
Definition user_permissions_of (role_perms : gmap string Perms) (user_roles : gmap string (gset string))
    (user_id : string) : Perms :=
  let permissions := role_permissions_of role_perms (default ∅ (user_roles !! user_id)) in
  if bool_decide (permissions = ∅) then default ∅ (role_perms !! "guest") else permissions.

Definition super_admin_perms : Perms := all_permissions.
Definition admin_perms : Perms :=
  list_to_set (List.filter (λ p, match p with PUser _ => false | _ => true end) permission_list).
Definition user_perms : Perms := {[ PUser URead; PSettings SeRead; PRole RoRead; PPermission PeRead ]}.
Definition guest_perms : Perms := {[ PUser URead; PSettings SeRead ]}.
Definition default_roles (m : gmap string Perms) : gmap string Perms :=
  <["guest" := guest_perms]> (<["user" := user_perms]> (<["admin" := admin_perms]> (<["super_admin" := super_admin_perms]> m))).

Section service.
Context {C W : Type} {HW : World W} {PC : PermissionCacheBackend C W}.
Variable config : AuthorizationConfig.
#[local] Abbreviation Mo := (sm (St (Authz C) W) AuthorizationError).

Definition authz_new (cache : C) : Authz C := mkAuthz ∅ ∅ cache.
Definition authz_read {A} (f : Authz C → A) : Mo A := λ s, (Ok (f (tables s)), s).
Definition write_roles (f : gmap string Perms → gmap string Perms) : Mo unit := λ s,
  (Ok tt, mkSt (mkAuthz (f (az_role_permissions (tables s))) (az_user_roles (tables s)) (az_cache (tables s))) (world s)).
Definition write_user_roles (f : gmap string (gset string) → gmap string (gset string)) : Mo unit := λ s,
  (Ok tt, mkSt (mkAuthz (az_role_permissions (tables s)) (f (az_user_roles (tables s))) (az_cache (tables s))) (world s)).
(** A call of the cache, whose error the service logs and leaves. *)
Definition in_perm_cache {A} (m : sm (St C W) CacheError A) : Mo (CacheError + A) :=
  sm_zoom (λ s, mkSt (az_cache (tables s)) (world s))
    (λ t s, mkSt (mkAuthz (az_role_permissions (tables s)) (az_user_roles (tables s)) (tables t)) (world t))
    (attempt m).

(** The task [with_config] spawns. *)
Definition initialize_default_roles : Mo unit := write_roles default_roles.
Definition fetch_user_permissions (user_id : string) : Mo Perms :=
  authz_read (λ a, user_permissions_of (az_role_permissions a) (az_user_roles a) user_id).
Definition get_cached_permissions (user_id : string) : Mo Perms :=
  cached ← (if ac_enable_permission_caching config then
              r ← in_perm_cache (perm_get user_id);
              mret match r with inr (Some permissions) => Some permissions | _ => None end
            else mret None);
  match cached with
  | Some permissions => mret permissions
  | None =>
      permissions ← fetch_user_permissions user_id;
      _ ← (if ac_enable_permission_caching config then
             _ ← in_perm_cache (perm_set user_id permissions (ac_cache_ttl_seconds config)); mret tt
           else mret tt);
      mret permissions
  end.
Definition clear_user_cache (user_id : string) : Mo unit := _ ← in_perm_cache (perm_delete user_id); mret tt.
Definition clear_all_cache : Mo unit := _ ← in_perm_cache perm_clear; mret tt.

Definition check_authorization (user_id : string) (a : AuthAction) (r : AuthResource) : Mo AuthorizationResponse :=
  permissions ← get_cached_permissions user_id;
  let required := from_action_resource a r in
  let has_permission := bool_decide (required ∈ permissions) in
  mret (mkAuthResponse has_permission
    [mkPermCheck has_permission required
       (if has_permission then "Permission granted" else "Missing permission: " +:+ debug_permission required)]).
Definition grant_permission_to_role (role : string) (p : AuthPermission) : Mo unit :=
  write_roles (λ m, <[role := default ∅ (m !! role) ∪ {[p]}]> m).
Definition revoke_permission_from_role (role : string) (p : AuthPermission) : Mo unit :=
  write_roles (alter (λ perms, perms ∖ {[p]}) role).
Definition assign_role_to_user (user_id role : string) : Mo unit :=
  _ ← write_user_roles (λ m, <[user_id := default ∅ (m !! user_id) ∪ {[role]}]> m);
  clear_user_cache user_id.
Definition remove_role_from_user (user_id role : string) : Mo unit :=
  _ ← write_user_roles (alter (λ roles, roles ∖ {[role]}) user_id);
  clear_user_cache user_id.
Definition get_user_permissions (user_id : string) : Mo (list AuthPermission) :=
  permissions ← get_cached_permissions user_id; mret (elements permissions).
Definition user_has_permission (user_id : string) (p : AuthPermission) : Mo bool :=
  permissions ← get_cached_permissions user_id; mret (bool_decide (p ∈ permissions)).

(** ** [middleware.rs] *)
(** What of a request the layer reads: its path, its method's name, its [authorization] header as text. *)
Record AuthRequest := mkAuthRequest { rq_path : string; rq_method : string; rq_authorization : option string }.
Definition to_action (method : string) : AuthAction :=
  if bool_decide (method = "GET") then ARead
  else if bool_decide (method = "POST") then ACreate
  else if bool_decide (method = "PUT") then AUpdate
  else if bool_decide (method = "DELETE") then ADelete
  else if bool_decide (method = "PATCH") then AUpdate
  else ARead.
Definition to_resource_type (path : string) : AuthResource :=
  let parts := str_split "/" (trim_end_char "/" path) in
  let resource := default "unknown" (parts !! 2%nat) in
  if bool_decide (resource = "users") then ResUser
  else if bool_decide (resource = "roles") then ResRole
  else if bool_decide (resource = "permissions") then ResPermission
  else if bool_decide (resource = "settings") then ResSettings
  else ResUser.
Definition public_paths : list string :=
  ["/health"; "/api/v1/auth/login"; "/api/v1/auth/register"; "/api/v1/auth/forgot-password"; "/docs"; "/"].
Definition is_public_endpoint (path : string) : bool :=
  existsb (λ p, if bool_decide (p = "/") then bool_decide (path = "/")
                else bool_decide (path = p) || starts_with path p) public_paths.
(** [h.starts_with("Bearer ")], and what follows. *)
Definition bearer (r : AuthRequest) : option string := h ← rq_authorization r; strip_prefix_str "Bearer " h.
Definition authorize {R} (unauthorized forbidden internal_error : R)
    (inner : AuthRequest → Mo R) (r : AuthRequest) : Mo R :=
  if is_public_endpoint (rq_path r) then inner r
  else
    match bearer r with
    | None => mret unauthorized
    | Some user_id =>
        answer ← attempt (check_authorization user_id (to_action (rq_method r)) (to_resource_type (rq_path r)));
        match answer with
        | inr response => if ar_allowed response then inner r else mret forbidden
        | inl _ => mret internal_error
        end
    end.
End service.
