(* ===== verification/AuthorizationFacts.v ===== *)
(** * What cached permissions still guarantee

    An answer of the service is right about the user's roles as they are, and about what these roles may do
    as it was at most the cache's time to live ago; over what [PermCacheLaws] says of a cache, which the one
    in memory satisfies. *)
From Stdlib Require Import ZArith Lia Ascii.
From S2P Require Import Prelude RustStr RustChar Json Database JobTypes Authorization.

Local Open Scope Z_scope.

(** ** What a user may do *)
(** One of the user's roles has the permission; or none has any, and the guest has it. *)
Definition may (role_perms : gmap string Perms) (user_roles : gmap string (gset string)) (user_id : string)
    (p : AuthPermission) : Prop :=
  let roles := default ∅ (user_roles !! user_id) in
  (∃ role, role ∈ roles ∧ p ∈ default ∅ (role_perms !! role)) ∨
  ((∀ role, role ∈ roles → default ∅ (role_perms !! role) = ∅) ∧ p ∈ default ∅ (role_perms !! "guest")).

Lemma role_permissions_spec (role_perms : gmap string Perms) (roles : gset string) (p : AuthPermission) :
  p ∈ role_permissions_of role_perms roles ↔ ∃ role, role ∈ roles ∧ p ∈ default ∅ (role_perms !! role).
Proof.
  unfold role_permissions_of.
  apply (set_fold_ind_L (λ acc X, p ∈ acc ↔ ∃ role, role ∈ X ∧ p ∈ default ∅ (role_perms !! role))).
  - split; [set_solver|]. intros (role & H & _). set_solver.
  - intros role X acc _ IH. rewrite elem_of_union, IH. set_solver.
Qed.
Lemma user_permissions_spec (role_perms : gmap string Perms) user_roles user_id p :
  p ∈ user_permissions_of role_perms user_roles user_id ↔ may role_perms user_roles user_id p.
Proof.
  unfold user_permissions_of, may. set (roles := default ∅ (user_roles !! user_id)).
  pose proof (role_permissions_spec role_perms roles) as Hs. case_bool_decide as He.
  - assert (∀ role, role ∈ roles → default ∅ (role_perms !! role) = ∅) as Hn.
    { intros role Hr. apply set_eq. intros q. split; [|set_solver]. intros Hq.
      rewrite <-He. apply Hs. by exists role. }
    split; [by right|]. intros [(role & Hr & Hp)|[_ Hp]]; [|done]. rewrite Hn in Hp by done. set_solver.
  - rewrite Hs. split; [by left|]. intros [H|[Hn _]]; [done|]. destruct He. apply set_eq. intros q.
    split; [|set_solver]. rewrite Hs. intros (role & Hr & Hq). by rewrite Hn in Hq.
Qed.

(** ** What a cache promises *)
(** It answers what it holds and has not expired; what is set expires after its time to live; deletions do not
    fail; and otherwise it may only forget. *)
Class PermCacheLaws (C W : Type) {HW : World W} {PC : PermissionCacheBackend C W} := {
  pview : C → gmap string CachedEntry;
  pget_law : ∀ u (s : St C W), wp (perm_get u) (λ r s', clk s ≤ clk s' ∧
    (∀ v x, pview (tables s') !! v = Some x → pview (tables s) !! v = Some x) ∧
    match r with
    | Ok (Some p) => ∃ x, pview (tables s) !! u = Some x ∧ ce_permissions x = p ∧ clk s < ce_expires_at x
    | _ => True
    end) s;
  pset_law : ∀ u p ttl (s : St C W), wp (perm_set u p ttl) (λ _ s', clk s ≤ clk s' ∧
    ∀ v x, pview (tables s') !! v = Some x → pview (tables s) !! v = Some x ∨
      (v = u ∧ ce_permissions x = p ∧ ce_expires_at x ≤ clk s' + u64_as_i64 ttl * 1000000000)) s;
  pdelete_law : ∀ u (s : St C W), wp (perm_delete u) (λ _ s', clk s ≤ clk s' ∧
    ∀ v x, pview (tables s') !! v = Some x → v ≠ u ∧ pview (tables s) !! v = Some x) s;
  pclear_law : ∀ s : St C W, wp perm_clear (λ _ s', clk s ≤ clk s' ∧
    ∀ v x, pview (tables s') !! v = Some x → pview (tables s) !! v = Some x) s;
}.

#[export] Instance memory_cache_laws {D : Durations} {DL : DurationLaws} {W} {HW : World W} {CF : ClockForward W} :
  PermCacheLaws PermMap W.
Proof.
  refine (Build_PermCacheLaws _ _ _ _ id _ _ _ _); simpl.
  - intros u s. unfold wp, mem_perm_get, perm_read, mbind, sm_bind, utc_now, clk. pose proof (clock_forward (world s)) as Hc.
    destruct (tables s !! u) as [x|] eqn:Hx; [|by split]. destruct (w_utc_now (world s)) as [now w] eqn:Hw. simpl in *.
    destruct (Z.ltb_spec now (ce_expires_at x)); simpl; (split; [done|]); split; try done. by exists x.
  - intros u p ttl s. unfold wp, mem_perm_set, mbind, sm_bind, utc_now, sm_lift, perm_write, clk.
    pose proof (clock_forward (world s)) as Hc. destruct (w_utc_now (world s)) as [now w] eqn:Hw. simpl in *.
    destruct (duration_seconds _) as [d|] eqn:Hd; simpl; [|split; [done|]; auto].
    destruct (add_duration now d) as [e|] eqn:He; simpl; (split; [done|]); [|auto].
    apply duration_seconds_ok in Hd. apply add_duration_ok in He. intros v x.
    rewrite lookup_insert_Some. intros [[<- <-]|[_ Hv]]; [|by left]. right. simpl. split_and!; [done..|lia].
  - intros u s. unfold wp, perm_write, clk. simpl. split; [lia|]. intros v x. rewrite lookup_delete_Some. naive_solver.
  - intros s. unfold wp, perm_write, clk. simpl. split; [lia|]. intros v x. by rewrite lookup_empty.
Defined.

(** ** Any sequence of calls *)
Inductive AuthCall :=
  | CCheck (user_id : string) (a : AuthAction) (r : AuthResource) | CGrant (role : string) (p : AuthPermission)
  | CRevoke (role : string) (p : AuthPermission) | CAssign (user_id role : string) | CRemove (user_id role : string)
  | CPermissions (user_id : string) | CHas (user_id : string) (p : AuthPermission)
  | CClearUser (user_id : string) | CClearAll | CInitialize.

Section facts.
Context {C W : Type} {HW : World W} {PC : PermissionCacheBackend C W} {PL : PermCacheLaws C W} {CF : ClockForward W}.
Variable config : AuthorizationConfig.
#[local] Abbreviation Sy := (St (Authz C) W).
#[local] Abbreviation Mo := (sm Sy AuthorizationError).
Implicit Types (s : Sy) (u : string).

Definition serve_auth (c : AuthCall) : Mo unit :=
  match c with
  | CCheck u a r => _ ← check_authorization config u a r; mret tt
  | CGrant role p => grant_permission_to_role role p
  | CRevoke role p => revoke_permission_from_role role p
  | CAssign u role => assign_role_to_user u role
  | CRemove u role => remove_role_from_user u role
  | CPermissions u => _ ← get_user_permissions config u; mret tt
  | CHas u p => _ ← user_has_permission config u p; mret tt
  | CClearUser u => clear_user_cache u
  | CClearAll => clear_all_cache
  | CInitialize => initialize_default_roles
  end.
Definition auth_after (cs : list AuthCall) s : Sy := foldl (λ s c, (serve_auth c s).2) s cs.

Definition cview s : gmap string CachedEntry := pview (az_cache (tables s)).
Definition role_perms s := az_role_permissions (tables s).
Definition roles_of s := az_user_roles (tables s).
Definition fetched s u : Perms := user_permissions_of (role_perms s) (roles_of s) u.
Definition ttl_nanos : Z := u64_as_i64 (ac_cache_ttl_seconds config) * 1000000000.

(** What a call does to the cache: an entry that is there was there, and its user's roles are as they were; or
    it is new, and right. *)
Definition auth_step s s' : Prop :=
  clk s ≤ clk s' ∧ ∀ u x, cview s' !! u = Some x →
    (cview s !! u = Some x ∧ roles_of s' !! u = roles_of s !! u) ∨
    (ce_permissions x = fetched s u ∧ roles_of s' = roles_of s ∧ ce_expires_at x ≤ clk s' + ttl_nanos).
Lemma auth_step_refl s s' : clk s' = clk s → cview s' = cview s → roles_of s' = roles_of s → auth_step s s'.
Proof. intros Hc Hv Hr. split; [lia|]. intros u x. rewrite Hv, Hr. by left. Qed.

Lemma wp_in_perm_cache {A} (c : sm (St C W) CacheError A) (Φ : res AuthorizationError (CacheError + A) → Sy → Prop) s :
  wp c (λ r x, ∀ s', cview s' = pview (tables x) → clk s' = clk x → role_perms s' = role_perms s → roles_of s' = roles_of s →
    Φ match r with Ok a => Ok (inr a) | Err e => Ok (inl e) | Panic => Panic end s')
    (mkSt (az_cache (tables s)) (world s)) →
  wp (in_perm_cache c) Φ s.
Proof.
  unfold wp, in_perm_cache, sm_zoom, attempt. destruct (c (mkSt (az_cache (tables s)) (world s))) as [[a|e|] x]; simpl; auto.
Qed.

(** What a read answers: what the roles give, or an entry that has not expired. *)
Lemma wp_cached u s :
  wp (get_cached_permissions config u) (λ r s', auth_step s s' ∧ role_perms s' = role_perms s ∧ roles_of s' = roles_of s ∧
    match r with
    | Ok p => p = fetched s u ∨ (ac_enable_permission_caching config = true ∧
        ∃ x, cview s !! u = Some x ∧ p = ce_permissions x ∧ clk s < ce_expires_at x)
    | Err _ => False
    | Panic => True
    end) s.
Proof.
  unfold get_cached_permissions. destruct (ac_enable_permission_caching config).
  2:{ unfold wp, mbind, sm_bind, fetch_user_permissions, authz_read. simpl.
      split; [by apply auth_step_refl|]. split_and!; [done..|]. by left. }
  apply wp_bind, wp_bind, wp_in_perm_cache. eapply wp_mono; [apply pget_law|].
  intros r x (Hc & Hv & Hr) s1 Hv1 Hc1 Hp1 Hu1.
  assert (clk s ≤ clk s1) as Ht1 by (unfold clk in *; simpl in *; lia).
  assert (∀ v y, cview s1 !! v = Some y → cview s !! v = Some y) as Hs1v by (intros v y Hy; apply Hv; by rewrite <-Hv1).
  assert (auth_step s s1) as Hs1.
  { split; [done|]. intros v y Hy. left. rewrite Hu1. auto. }
  assert (wp (permissions ← fetch_user_permissions (C:=C) u;
              _ ← (_ ← in_perm_cache (perm_set u permissions (ac_cache_ttl_seconds config)); mret tt); mret permissions)
    (λ r s', auth_step s s' ∧ role_perms s' = role_perms s ∧ roles_of s' = roles_of s ∧
      match r with Ok p => p = fetched s u | Err _ => False | Panic => True end) s1) as Hfetch.
  { apply wp_bind. unfold wp at 1, fetch_user_permissions, authz_read. simpl.
    fold (role_perms s1) (roles_of s1). rewrite Hp1, Hu1. fold (fetched s u).
    apply wp_bind, wp_bind, wp_in_perm_cache. eapply wp_mono; [apply pset_law|].
    intros r2 x2 (Hc2 & Hv2) s2 Hv2' Hc2' Hp2 Hu2.
    assert (auth_step s s2) as Hs2.
    { split; [unfold clk in *; simpl in *; lia|]. intros v y Hy. rewrite Hv2' in Hy.
      destruct (Hv2 v y Hy) as [Hold|(-> & Hper & Hexp)].
      - left. rewrite Hu2, Hu1. split; [|done]. apply Hs1v, Hold.
      - right. split; [done|]. split; [congruence|]. unfold ttl_nanos. lia. }
    destruct r2 as [[]|e|]; (try apply wp_ret); (try apply wp_ret); split_and!; try done; congruence. }
  assert (∀ (r' : res AuthorizationError Perms) s', (auth_step s s' ∧ role_perms s' = role_perms s ∧ roles_of s' = roles_of s ∧
      match r' with Ok p => p = fetched s u | Err _ => False | Panic => True end) →
    auth_step s s' ∧ role_perms s' = role_perms s ∧ roles_of s' = roles_of s ∧
      match r' with
      | Ok p => p = fetched s u ∨ (true = true ∧ ∃ x, cview s !! u = Some x ∧ p = ce_permissions x ∧ clk s < ce_expires_at x)
      | Err _ => False
      | Panic => True
      end) as Hweak by (intros [] s' (?&?&?&?); auto).
  destruct r as [[p|]|e|]; [|apply wp_ret; eapply wp_mono; [exact Hfetch|auto]..|done].
  apply wp_ret, wp_ret. split_and!; [done..|]. right. split; [done|]. destruct Hr as (y & Hy & <- & Hlt). by exists y.
Qed.

(** A step that leaves the cache and the roles alone, or only forgets. *)
Lemma wp_forget {A} (c : sm (St C W) CacheError A) s s0 :
  clk s0 = clk s → cview s0 = cview s → roles_of s0 = roles_of s →
  (∀ x, wp c (λ _ x', clk x ≤ clk x' ∧ ∀ v y, pview (tables x') !! v = Some y → pview (tables x) !! v = Some y) x) →
  wp (_ ← in_perm_cache c; mret tt) (λ _ s', auth_step s s') s0.
Proof.
  intros Hc0 Hv0 Hr0 Hc. apply wp_bind, wp_in_perm_cache. eapply wp_mono; [apply Hc|].
  intros r x (Ht & Hv) s1 Hv1 Hc1 _ Hu1.
  assert (auth_step s s1) as Hs.
  { split; [unfold clk in *; simpl in *; lia|]. intros v y Hy. left. rewrite Hu1, Hr0. split; [|done].
    rewrite <-Hv0. apply Hv. by rewrite <-Hv1. }
  destruct r; done.
Qed.
(** A change of one user's roles, whose entry is then forgotten. *)
Lemma wp_change_roles u f s :
  (∀ m v, v ≠ u → f m !! v = m !! v) →
  wp (_ ← write_user_roles f; clear_user_cache u) (λ _ s', auth_step s s') s.
Proof.
  intros Hf. apply wp_bind. unfold wp at 1, write_user_roles at 1. simpl. set (s0 := mkSt _ _).
  unfold clear_user_cache. apply wp_bind, wp_in_perm_cache. eapply wp_mono; [apply pdelete_law|].
  intros r x (Ht & Hv) s1 Hv1 Hc1 _ Hu1.
  assert (auth_step s s1) as Hs.
  { split; [unfold clk in *; simpl in *; lia|]. intros v y Hy. left. rewrite Hv1 in Hy. destruct (Hv v y Hy) as [Hne Hold].
    rewrite Hu1. split; [exact Hold|]. unfold roles_of, s0. simpl. by apply Hf. }
  destruct r; done.
Qed.
Lemma wp_cached_step {A} u (f : Perms → A) (g : A → unit) s :
  wp (a ← (p ← get_cached_permissions config u; mret (f p)); mret (g a)) (λ _ s', auth_step s s') s.
Proof.
  apply wp_bind, wp_bind. eapply wp_mono; [apply wp_cached|]. by intros [p|e|] s' (H & _).
Qed.
Lemma serve_auth_step c s : auth_step s (serve_auth c s).2.
Proof.
  enough (wp (serve_auth c) (λ _ s', auth_step s s') s) as H by apply H.
  destruct c; simpl; try apply wp_cached_step.
  - by apply auth_step_refl.
  - by apply auth_step_refl.
  - apply wp_change_roles. intros m v Hv. by rewrite lookup_insert_ne.
  - apply wp_change_roles. intros m v Hv. by rewrite lookup_alter_ne.
  - apply wp_forget; [done..|]. intros x. eapply wp_mono; [apply pdelete_law|]. naive_solver.
  - apply wp_forget; [done..|]. intros x. apply pclear_law.
  - by apply auth_step_refl.
Qed.

(** ** Over time *)
Lemma auth_after_snoc cs c s : auth_after (cs ++ [c]) s = (serve_auth c (auth_after cs s)).2.
Proof. unfold auth_after. by rewrite foldl_app. Qed.
(** An entry is what the user's roles, as they are, gave at some moment, and outlives the call that followed it
    by the time to live at most. *)
Lemma entries_recent cs s u x :
  cview s = ∅ → cview (auth_after cs s) !! u = Some x →
  ∃ k, (k < length cs)%nat ∧
    ce_permissions x = user_permissions_of (role_perms (auth_after (take k cs) s)) (roles_of (auth_after cs s)) u ∧
    ce_expires_at x ≤ clk (auth_after (take (S k) cs) s) + ttl_nanos.
Proof.
  intros Hempty. revert x. induction cs as [|c cs IH] using rev_ind; intros x Hx.
  { simpl in Hx. rewrite Hempty in Hx. by apply lookup_empty_Some in Hx. }
  rewrite auth_after_snoc in Hx |- *. destruct (serve_auth_step c (auth_after cs s)) as [Ht Hv].
  destruct (Hv u x Hx) as [[Hold Hr]|(Hp & Hr & He)]; rewrite length_app; simpl.
  - destruct (IH x Hold) as (k & Hk & Hp & He). exists k. split; [lia|].
    rewrite !take_app_le by lia. split; [|done]. rewrite Hp. unfold user_permissions_of. by rewrite Hr.
  - exists (length cs). split; [lia|]. rewrite take_app_length. rewrite take_ge by (rewrite length_app; simpl; lia).
    rewrite auth_after_snoc. split; [|done]. rewrite Hp. unfold fetched. by rewrite Hr.
Qed.

(** The moment after the first [k] of the calls is now, or was over less than the time to live ago. *)
Definition recently (cs : list AuthCall) s (k : nat) : Prop :=
  (k ≤ length cs)%nat ∧
  (k = length cs ∨
   ac_enable_permission_caching config = true ∧ clk (auth_after cs s) < clk (auth_after (take (S k) cs) s) + ttl_nanos).
(** What the user's roles, as they are after [cs], allowed after the first [k] of them. *)
Definition allowed_at cs s k u p : Prop :=
  may (role_perms (auth_after (take k cs) s)) (roles_of (auth_after cs s)) u p.
Lemma cached_recent cs s u perms :
  cview s = ∅ → (get_cached_permissions config u (auth_after cs s)).1 = Ok perms →
  ∃ k, recently cs s k ∧ ∀ p, p ∈ perms ↔ allowed_at cs s k u p.
Proof.
  intros Hempty Hr. pose proof (wp_cached u (auth_after cs s)) as H. unfold wp in H. rewrite Hr in H.
  destruct H as (_ & _ & _ & [-> |(Hcache & x & Hx & -> & Hlt)]).
  - exists (length cs). split; [by split; [|left]|]. intros p. unfold allowed_at. rewrite take_ge by done.
    apply user_permissions_spec.
  - destruct (entries_recent cs s u x Hempty Hx) as (k & Hk & Hp & He). exists k. split.
    + split; [lia|]. right. split; [done|lia].
    + intros p. rewrite Hp. apply user_permissions_spec.
Qed.


(** What a request ends with. *)
Inductive RequestEnd := Unauthorized | Forbidden | Failed | Handled.
(** A request to a protected path reaches the handler only with the permission: its bearer names a user whose
    roles, as they are now, allowed the request's action on its path's resource at a moment within the time to live.
    Without a bearer it is unauthorized; it is forbidden only if the roles did not allow it then. *)
Theorem protected_request cs s (req : AuthRequest) :
  cview s = ∅ → is_public_endpoint (rq_path req) = false →
  let needed := from_action_resource (to_action (rq_method req)) (to_resource_type (rq_path req)) in
  match (authorize config Unauthorized Forbidden Failed (λ _, mret Handled) req (auth_after cs s)).1 with
  | Ok Handled => ∃ u k, bearer req = Some u ∧ recently cs s k ∧ allowed_at cs s k u needed
  | Ok Forbidden => ∃ u k, bearer req = Some u ∧ recently cs s k ∧ ¬ allowed_at cs s k u needed
  | Ok Unauthorized => bearer req = None
  | Ok Failed | Err _ => False
  | Panic => ∃ u, bearer req = Some u
  end.
Proof.
  intros Hempty Hpublic needed. unfold authorize. rewrite Hpublic. destruct (bearer req) as [u|]; [|done].
  pose proof (cached_recent cs s u) as H. pose proof (wp_cached u (auth_after cs s)) as Hw. unfold wp in Hw.
  unfold check_authorization, attempt, mbind, sm_bind.
  destruct (get_cached_permissions config u (auth_after cs s)) as [[perms|e|] s1]; simpl in *.
  - destruct (H perms Hempty eq_refl) as (k & Hk & Hp). fold needed. case_bool_decide as Hn; exists u, k.
    + split; [done|]. split; [done|]. by apply Hp.
    + split; [done|]. split; [done|]. by rewrite <-Hp.
  - by destruct Hw as (_ & _ & _ & []).
  - by exists u.
Qed.
End facts.

(** ** A service over the cache in memory *)
Module AuthorizationExample.
#[local] Existing Instance ConcreteWorld.demo_world.
#[local] Instance ticking_clock : ClockForward ConcreteWorld.DW.
Proof. intros w. simpl. lia. Defined.
#[local] Instance nanoseconds : Durations := {|
  duration_seconds s := Some (s * 1000000000); duration_days n := Some (n * 86400 * 1000000000);
  add_duration t d := Some (t + d); sub_duration t d := Some (t - d) |}.
#[local] Instance nanoseconds_laws : DurationLaws.
Proof. split; [intros s d|intros s d|intros t d t'|intros t d t']; by intros [= <-]. Defined.

Definition begin_at (t : Z) : St (Authz PermMap) ConcreteWorld.DW := mkSt (authz_new ∅) (ConcreteWorld.mkDW [] t 0%N).
Definition setup : list AuthCall := [CInitialize; CAssign "ann" "user"; CCheck "ann" ARead ResRole].
Definition revoked : list AuthCall := setup ++ [CRevoke "user" (PRole RoRead)].
Definition read_roles (cs : list AuthCall) :=
  check_authorization auth_config_default "ann" ARead ResRole (auth_after auth_config_default cs (begin_at 0)).

Definition answer_of {S} (r : res AuthorizationError AuthorizationResponse * S) : option bool :=
  match r.1 with Ok resp => Some (ar_allowed resp) | _ => None end.
Lemma no_entries : cview (begin_at 0) = ∅.
Proof. reflexivity. Qed.


Definition get_roles : AuthRequest := mkAuthRequest "/api/v1/roles" "GET" (Some "Bearer ann").
Lemma protected_request_witness :
  to_resource_type (rq_path get_roles) = ResUser ∧
  ∃ u k, bearer get_roles = Some u ∧ recently auth_config_default setup (begin_at 0) k ∧
    allowed_at auth_config_default setup (begin_at 0) k u (PUser URead).
Proof.
  split; [reflexivity|].
  pose proof (protected_request auth_config_default setup (begin_at 0) get_roles no_entries eq_refl) as H.
  assert ((authorize auth_config_default Unauthorized Forbidden Failed (λ _, mret Handled) get_roles
    (auth_after auth_config_default setup (begin_at 0))).1 = Ok Handled) as Hok by by_vm.
  rewrite Hok in H. exact H.
Defined.

(** The resource is looked for in the path's third part, which is the version: every path of the API asks for
    the permission on users. *)
Example every_api_path_is_users :
  map to_resource_type ["/api/v1/users/7"; "/api/v1/roles"; "/api/v1/permissions"; "/api/v1/settings/"; "/v1/roles"] =
  [ResUser; ResUser; ResUser; ResUser; ResRole].
Proof. vm_compute. reflexivity. Qed.
(** A path that only begins like a public one needs no authorization. *)
Example public_by_prefix :
  map is_public_endpoint ["/healthy/secrets"; "/docs-internal"; "/api/v1/auth/login-attempts"; "/api/v1/users"] =
  [true; true; true; false].
Proof. vm_compute. reflexivity. Qed.
(** Default roles written late overwrite what was granted before. *)
Example late_defaults_overwrite :
  let s := auth_after auth_config_default [CGrant "guest" (PUser UList); CInitialize] (begin_at 0) in
  bool_decide (PUser UList ∈ default ∅ (role_perms s !! "guest")) = false.
Proof. vm_compute. reflexivity. Qed.
End AuthorizationExample.
