(* ===== verification/Tenant.v ===== *)
(** * Tenants

    [backbone-tenant/src/]: a request's host names its tenant (resolve.rs), the tenant's runtime is built once
    and kept in a bounded registry (lib.rs), the router hands it to what is inside (axum_router.rs), and
    a tenant's database has a name of its own (provision.rs). What a runtime is and how it is built, the
    custom domains of a control plane, and the layers inside are parameters; the statements that create and
    drop databases are not modelled. A [OnceCell] is a place in a store of cells, which entries and requests
    share. *)
From Stdlib Require Import ZArith Lia Ascii.
From S2P Require Import Prelude RustStr RustChar Json Database.

Local Open Scope Z_scope.

(** ** [resolve.rs] *)
Definition MAX_SLUG_LEN : Z := 48.
Inductive ResolveError :=
  | ApexHost (host : string) | UnknownHost (host : string) | BadSlug (slug reason : string) | OverrideDisabled.
Definition slug_char (c : ascii) : bool := is_ascii_lowercase c || is_ascii_digit c || Ascii.eqb c "-".
Definition first_byte (p : ascii → bool) (s : string) : bool := match s with String c _ => p c | EmptyString => false end.
Definition valid_slug (slug : string) : res ResolveError unit :=
  if bool_decide (slug = "") then Err (BadSlug slug "empty")
  else if negb (str_forallb slug_char slug) then
    Err (BadSlug slug "only lowercase letters, digits and '-' are allowed")
  else if negb (first_byte is_ascii_lowercase slug) then Err (BadSlug slug "must start with a lowercase letter")
  else if MAX_SLUG_LEN <? str_len slug then Err (BadSlug slug "too long")
  else Ok tt.
Definition normalize_host (host : string) : string :=
  let h := to_ascii_lowercase (trim host) in
  match rsplit_once ":" h with
  | Some (head, tail) => if negb (bool_decide (tail = "")) && str_forallb is_ascii_digit tail then head else h
  | None => h
  end.

(** [DomainMap]: [StaticDomainMap], or one that draws from the world. *)
Definition DomainMap (W : Type) : Type := string → W → option string * W.
Definition StaticDomainMap : Type := gmap string string.
Definition static_with (m : StaticDomainMap) (domain tenant : string) : StaticDomainMap :=
  <[to_ascii_lowercase domain := tenant]> m.
Definition static_tenant_for {W} (m : StaticDomainMap) : DomainMap W := λ host w, (m !! host, w).

Record HostResolver (W : Type) := mkResolver {
  hr_base_domain : string; hr_custom_domains : option (DomainMap W); hr_allow_header_override : bool }.
Arguments mkResolver {_} _ _ _.
Arguments hr_base_domain {_} _.
Arguments hr_custom_domains {_} _.
Arguments hr_allow_header_override {_} _.
Definition resolver_new {W} (base_domain : string) : HostResolver W := mkResolver (to_ascii_lowercase base_domain) None false.

Section resolve.
Context {T W : Type}.
Definition resolve (r : HostResolver W) (host_header : string) (override_header : option string) :
    sm (St T W) ResolveError string :=
  let host := normalize_host host_header in
  match override_header with
  | Some slug =>
      if hr_allow_header_override r then
        let slug := to_ascii_lowercase (trim slug) in
        _ ← sm_lift (valid_slug slug); mret slug
      else sm_err OverrideDisabled
  | None =>
      if bool_decide (host = hr_base_domain r) then sm_err (ApexHost host)
      else
        match strip_suffix_str ("." +:+ hr_base_domain r) host with
        | Some slug => _ ← sm_lift (valid_slug slug); mret slug
        | None =>
            match hr_custom_domains r with
            | None => sm_err (UnknownHost host)
            | Some tenant_for => λ s,
                match tenant_for host (world s) with
                | (Some tenant, w) => (Ok tenant, mkSt (tables s) w)
                | (None, w) => (Err (UnknownHost host), mkSt (tables s) w)
                end
            end
        end
  end.
End resolve.

(** ** [lib.rs]: the registry *)
Record Entry := mkTenantEntry { te_cell : nat; te_last : Z }.
(** The entries and the tick behind the lock, and every cell that was made: empty, or holding a runtime. *)
Record Registry (R : Type) := mkRegistry {
  rg_entries : gmap string Entry; rg_tick : Z; rg_cells : list (option R) }.
Arguments mkRegistry {_} _ _ _.
Arguments rg_entries {_} _.
Arguments rg_tick {_} _.
Arguments rg_cells {_} _.

Section registry.
Context {HI : HashIter} {R : Type}.
Variable overflow_checks : bool.
Variable max_tenants : Z.
Implicit Types (g : Registry R) (t : string).

Definition registry_new : option (Registry R) := if 0 <? max_tenants then Some (mkRegistry ∅ 0 []) else None.
Definition cell_built (cells : list (option R)) (c : nat) : bool := match cells !! c with Some (Some _) => true | _ => false end.
Definition initialized g (c : nat) : bool := cell_built (rg_cells g) c.
(** [get_or_build], first phase: the tenant's cell, or a new one. *)
Definition find_cell t g : nat * Registry R :=
  match rg_entries g !! t with
  | Some e => (te_cell e, g)
  | None =>
      let c := length (rg_cells g) in
      (c, mkRegistry (<[t := mkTenantEntry c (rg_tick g)]> (rg_entries g)) (rg_tick g) (rg_cells g ++ [None]))
  end.
(** The cell is given the runtime that was built. *)
Definition fill_cell (c : nat) (r : R) g : Registry R :=
  mkRegistry (rg_entries g) (rg_tick g) (<[c := Some r]> (rg_cells g)).
Definition forget_failed t (c : nat) g : Registry R :=
  match rg_entries g !! t with
  | Some e =>
      if bool_decide (te_cell e = c) && negb (initialized g c)
      then mkRegistry (delete t (rg_entries g)) (rg_tick g) (rg_cells g) else g
  | None => g
  end.
Definition built_entries (cells : list (option R)) (m : gmap string Entry) : gmap string Entry :=
  filter (λ kv, cell_built cells (te_cell kv.2) = true) m.
(** The built entry used longest ago, other than [t]'s. *)
Definition victim t (built : gmap string Entry) : option string :=
  match List.filter (λ kv, negb (bool_decide (kv.1 = t))) (hash_iter built) with
  | [] => None
  | kv :: l => Some (min_by (λ kv, te_last kv.2) kv l).1
  end.
(** Each round removes an entry, so their number is rounds enough. *)
Fixpoint evict_over t (cells : list (option R)) (fuel : nat) (m : gmap string Entry) : gmap string Entry :=
  match fuel with
  | O => m
  | S fuel =>
      let built := built_entries cells m in
      if Z.of_nat (size built) <=? max_tenants then m
      else
        match victim t built with
        | Some id => evict_over t cells fuel (delete id m)
        | None => m
        end
  end.
Definition touch_and_evict t (c : nat) g : option (Registry R) :=
  tick ← checked_incr overflow_checks u64_max (rg_tick g);
  let cell := match rg_entries g !! t with Some e => te_cell e | None => c end in
  let entries := <[t := mkTenantEntry cell tick]> (rg_entries g) in
  Some (mkRegistry (evict_over t (rg_cells g) (size entries) entries) tick (rg_cells g)).

Definition evict t g : bool * Registry R :=
  (bool_decide (is_Some (rg_entries g !! t)), mkRegistry (delete t (rg_entries g)) (rg_tick g) (rg_cells g)).
Definition evict_all g : Registry R := mkRegistry ∅ (rg_tick g) (rg_cells g).
Definition evict_idle (keep : Z) g : Z * Registry R :=
  let cutoff := u64_saturating_sub (rg_tick g) keep in
  let kept := filter (λ kv, cutoff ≤ te_last kv.2) (rg_entries g) in
  (Z.of_nat (size (rg_entries g)) - Z.of_nat (size kept), mkRegistry kept (rg_tick g) (rg_cells g)).
Definition registry_len g : Z := Z.of_nat (size (rg_entries g)).

(** One request's way through [get_or_build], alone. *)
Context {W E : Type}.
(** [TenantRuntimeFactory::build] *)
Variable build : string → W → (E + R) * W.
Inductive RegistryError := BuildError (tenant : string) (source : E).
#[local] Abbreviation Mo := (sm (St (Registry R) W) RegistryError).
Definition get_or_build t : Mo R := λ s,
  let '(c, g) := find_cell t (tables s) in
  let touched r g w := match touch_and_evict t c g with Some g => (Ok r, mkSt g w) | None => (Panic, mkSt g w) end in
  match rg_cells g !! c with
  | Some (Some r) => touched r g (world s)
  | _ =>
      match build t (world s) with
      | (inr r, w) => touched r (fill_cell c r g) w
      | (inl e, w) => (Err (BuildError t e), mkSt (forget_failed t c g) w)
      end
  end.

(** ** Many requests at once

    A request is at one of these points; between them others run. *)
Inductive Point := Waiting (c : nat) | Building (c : nat) | Built (c : nat) (r : R) | BuildFailed (c : nat) (e : E)
  | Answered (a : E + R).
#[local] Abbreviation Tasks := (gmap nat (string * Point)).
Definition building_cell (c : nat) (ts : Tasks) : Prop := ∃ i t, ts !! i = Some (t, Building c).
(** What a build may answer. *)
Variable builds : string → R → Prop.
Inductive registry_step : Registry R * Tasks → Registry R * Tasks → Prop :=
  | step_arrive g ts i t c g' :
      ts !! i = None → find_cell t g = (c, g') → registry_step (g, ts) (g', <[i := (t, Waiting c)]> ts)
  (** [get_or_try_init]: the runtime is there, or nobody builds it and this request does. *)
  | step_found g ts i t c r :
      ts !! i = Some (t, Waiting c) → rg_cells g !! c = Some (Some r) →
      registry_step (g, ts) (g, <[i := (t, Built c r)]> ts)
  | step_begin g ts i t c :
      ts !! i = Some (t, Waiting c) → rg_cells g !! c = Some None → ¬ building_cell c ts →
      registry_step (g, ts) (g, <[i := (t, Building c)]> ts)
  | step_built g ts i t c r :
      ts !! i = Some (t, Building c) → builds t r →
      registry_step (g, ts) (fill_cell c r g, <[i := (t, Built c r)]> ts)
  | step_failed g ts i t c e :
      ts !! i = Some (t, Building c) → registry_step (g, ts) (g, <[i := (t, BuildFailed c e)]> ts)
  | step_forget g ts i t c e :
      ts !! i = Some (t, BuildFailed c e) → registry_step (g, ts) (forget_failed t c g, <[i := (t, Answered (inl e))]> ts)
  | step_touch g ts i t c r g' :
      ts !! i = Some (t, Built c r) → touch_and_evict t c g = Some g' →
      registry_step (g, ts) (g', <[i := (t, Answered (inr r))]> ts)
  | step_cancel g ts i : registry_step (g, ts) (g, delete i ts)
  | step_evict g ts t : registry_step (g, ts) ((evict t g).2, ts)
  | step_evict_all g ts : registry_step (g, ts) (evict_all g, ts)
  | step_evict_idle g ts keep : registry_step (g, ts) ((evict_idle keep g).2, ts).
End registry.

(** ** [provision.rs]: names *)
Definition MAX_IDENT_LEN : Z := 63.
Definition ident_char (c : ascii) : bool := slug_char c || Ascii.eqb c "_".
Definition dash_to_underscore (c : ascii) : ascii := if Ascii.eqb c "-" then "_"%char else c.
Definition database_name (prefix id : string) : string + string :=
  if bool_decide (id = "") then inl "empty"
  else if negb (str_forallb ident_char id) then inl "only lowercase letters, digits, '-' and '_' are allowed"
  else if negb (first_byte (λ c, is_ascii_lowercase c || Ascii.eqb c "_") id) then
    inl "must start with a letter or underscore"
  else
    let name := prefix +:+ str_map dash_to_underscore id in
    if MAX_IDENT_LEN <? str_len name then inl "resulting database name exceeds 63 characters" else inr name.
