(* ===== verification/TenantFacts.v ===== *)
(** * What tenant routing guarantees

    A resolved tenant's name is safe and has a database of its own; and the registry, however requests,
    failures, cancellations and evictions interleave, answers a tenant only with a runtime built for it, builds
    one at a time, and comes back to its bound with every request it answers. *)
From Stdlib Require Import ZArith Lia Ascii.
From S2P Require Import Prelude RustStr RustChar Json Database Tenant.

Local Open Scope Z_scope.

(** ** Names *)
Lemma valid_slug_spec slug :
  valid_slug slug = Ok tt ↔
  slug ≠ "" ∧ str_forallb slug_char slug = true ∧ first_byte is_ascii_lowercase slug = true ∧ str_len slug ≤ MAX_SLUG_LEN.
Proof.
  unfold valid_slug. case_bool_decide as He; [naive_solver|].
  destruct (str_forallb slug_char slug); simpl; [|naive_solver].
  destruct (first_byte is_ascii_lowercase slug); simpl; [|naive_solver].
  destruct (Z.ltb_spec MAX_SLUG_LEN (str_len slug)).
  - split; [done|]. intros (_ & _ & _ & ?). lia.
  - split; [intros _; by split_and!|done].
Qed.
Lemma slug_ident slug : str_forallb slug_char slug = true → str_forallb ident_char slug = true.
Proof. apply str_forallb_impl. intros c H. unfold ident_char. by rewrite H. Qed.
Lemma str_map_len f s : str_len (str_map f s) = str_len s.
Proof. induction s as [|c s IH]; simpl; [done|]. by rewrite IH. Qed.
Lemma dash_inj c c' :
  slug_char c = true → slug_char c' = true → dash_to_underscore c = dash_to_underscore c' → c = c'.
Proof.
  unfold dash_to_underscore. destruct (Ascii.eqb_spec c "-"%char) as [->|Hc], (Ascii.eqb_spec c' "-"%char) as [->|Hc']; try done.
  - intros _ H <-. by vm_compute in H.
  - intros H _ ->. by vm_compute in H.
Qed.
Lemma replaced_inj a b :
  str_forallb slug_char a = true → str_forallb slug_char b = true →
  str_map dash_to_underscore a = str_map dash_to_underscore b → a = b.
Proof.
  revert b. induction a as [|c a IH]; intros [|c' b]; simpl; try done.
  intros [Hc Ha]%andb_true_iff [Hc' Hb]%andb_true_iff [= H1 H2]. f_equal; [by apply dash_inj|by apply IH].
Qed.
Lemma database_name_slug prefix slug :
  str_len prefix ≤ 15 → valid_slug slug = Ok tt →
  database_name prefix slug = inr (prefix +:+ str_map dash_to_underscore slug).
Proof.
  intros Hp (Hne & Hc & Hf & Hl)%valid_slug_spec. unfold database_name.
  rewrite bool_decide_eq_false_2 by done. rewrite slug_ident by done. simpl.
  assert (first_byte (λ c, is_ascii_lowercase c || Ascii.eqb c "_") slug = true) as ->
    by (destruct slug; [done|]; simpl in *; by rewrite Hf).
  simpl. rewrite (proj2 (Z.ltb_ge _ _)); [done|]. rewrite str_len_append, str_map_len.
  unfold MAX_SLUG_LEN, MAX_IDENT_LEN in *. lia.
Qed.

(** Tenants that hosts resolve to have databases of their own: a valid slug always has a database name (under
    the prefix the provisioner uses, and any of at most fifteen bytes), which fits an identifier and holds only
    letters, digits and underscores beside the prefix; and two slugs have the same name only when they are
    the same. *)
Theorem database_names_distinct prefix a b :
  str_len prefix ≤ 15 → valid_slug a = Ok tt → valid_slug b = Ok tt →
  ∃ name, database_name prefix a = inr (prefix +:+ name) ∧ str_len (prefix +:+ name) ≤ MAX_IDENT_LEN ∧
    str_forallb (λ c, is_ascii_lowercase c || is_ascii_digit c || Ascii.eqb c "_") name = true ∧
    (database_name prefix b = database_name prefix a → a = b).
Proof.
  intros Hp Ha Hb. exists (str_map dash_to_underscore a). split; [by apply database_name_slug|].
  pose proof Ha as (_ & Hca & _ & Hl)%valid_slug_spec. pose proof Hb as (_ & Hcb & _)%valid_slug_spec. split_and!.
  - rewrite str_len_append, str_map_len. unfold MAX_SLUG_LEN, MAX_IDENT_LEN in *. lia.
  - clear -Hca. induction a as [|c a IH]; simpl in *; [done|]. apply andb_true_iff in Hca as [Hc Ha].
    rewrite IH by done. rewrite andb_true_r. revert Hc. unfold slug_char, dash_to_underscore.
    destruct (Ascii.eqb c "-"); [done|]. rewrite orb_false_r. intros ->. done.
  - rewrite !database_name_slug by done. intros [= H]. apply str_app_inj in H. symmetry. by apply replaced_inj.
Qed.

(** ** Hosts *)
(** What a request's host, or its override on a development profile, names. *)
Definition names_tenant {W} (r : HostResolver W) (host : string) (override : option string) (t : string) : Prop :=
  match override with
  | Some slug => hr_allow_header_override r = true ∧ t = to_ascii_lowercase (trim slug) ∧ valid_slug t = Ok tt
  | None =>
      let h := normalize_host host in
      h ≠ hr_base_domain r ∧
      match strip_suffix_str ("." +:+ hr_base_domain r) h with
      | Some slug => t = slug ∧ valid_slug t = Ok tt
      | None => ∃ tenant_for w, hr_custom_domains r = Some tenant_for ∧ (tenant_for h w).1 = Some t
      end
  end.
Lemma wp_resolve {T W} (r : HostResolver W) host override (s : St T W) :
  wp (resolve r host override) (λ a s', tables s' = tables s ∧
    match a with Ok t => names_tenant r host override t | Err _ => True | Panic => False end) s.
Proof.
  unfold resolve, names_tenant. destruct override as [slug|].
  - destruct (hr_allow_header_override r); [|by apply wp_err]. apply wp_bind, wp_lift.
    destruct (valid_slug _) as [[]|e|] eqn:Hv; [by apply wp_ret|done|].
    unfold valid_slug in Hv. by repeat case_match.
  - case_bool_decide as Hb; [by apply wp_err|]. destruct (strip_suffix_str _ _) as [slug|].
    + apply wp_bind, wp_lift. destruct (valid_slug slug) as [[]|e|] eqn:Hv; [by apply wp_ret|done|].
      unfold valid_slug in Hv. by repeat case_match.
    + destruct (hr_custom_domains r) as [tenant_for|]; [|by apply wp_err]. unfold wp.
      destruct (tenant_for (normalize_host host) (world s)) as [[t|] w] eqn:Ht; simpl; [|done].
      split; [done|]. split; [done|]. exists tenant_for, (world s). by rewrite Ht.
Qed.

(** ** The registry's bound *)
Section bound.
Context {HI : HashIter} {R : Type}.
Variable max_tenants : Z.
Hypothesis max_pos : 0 < max_tenants.
Implicit Types (g : Registry R) (t u : string) (m : gmap string Entry) (cells : list (option R)).

Lemma built_entries_lookup cells m u e :
  built_entries cells m !! u = Some e ↔ m !! u = Some e ∧ cell_built cells (te_cell e) = true.
Proof. unfold built_entries. by rewrite map_lookup_filter_Some. Qed.
Lemma built_entries_delete cells m u : built_entries cells (delete u m) = delete u (built_entries cells m).
Proof. unfold built_entries. by rewrite map_filter_delete. Qed.
Lemma size_built_entries cells m : (size (built_entries cells m) ≤ size m)%nat.
Proof. apply map_subseteq_size, map_filter_subseteq. Qed.

(** Where more than one entry is built there is a victim: not [t]'s, and used no later than any other. *)
Lemma victim_spec t (built : gmap string Entry) :
  (1 < size built)%nat →
  ∃ id e, victim t built = Some id ∧ id ≠ t ∧ built !! id = Some e ∧
    ∀ u e', built !! u = Some e' → u ≠ t → te_last e ≤ te_last e'.
Proof.
  intros Hsize. unfold victim. set (l := List.filter _ _).
  assert (Hl : ∀ kv, kv ∈ l ↔ kv.1 ≠ t ∧ built !! kv.1 = Some kv.2).
  { intros [u e]. unfold l. rewrite list_elem_of_In, List.filter_In, <-list_elem_of_In, hash_iter_perm, elem_of_map_to_list.
    rewrite negb_true_iff, bool_decide_eq_false. tauto. }
  destruct l as [|kv l'] eqn:El.
  - exfalso. assert (Hsub : built ⊆ match built !! t with Some e => {[t := e]} | None => ∅ end).
    { apply map_subseteq_spec. intros u e Hu. destruct (decide (u = t)) as [->|Hne].
      - rewrite Hu. apply lookup_singleton_eq.
      - exfalso. by apply (elem_of_nil (u, e)), Hl. }
    apply map_subseteq_size in Hsub. destruct (built !! t); [rewrite map_size_singleton in Hsub|rewrite map_size_empty in Hsub]; lia.
  - destruct (min_by_spec (λ kv, te_last kv.2) kv l') as [Hin Hmin]. destruct (min_by _ kv l') as [id e].
    apply Hl in Hin as [Hne Hid]. exists id, e. split_and!; [done..|]. intros u e' Hu Hut.
    apply (Hmin (u, e')), Hl. done.
Qed.

(** What trimming leaves of the entries [m]: what was not built, [t]'s, and as many of the others as there is
    room for, of which none was used before one that is dropped. *)
Record trimmed t cells m m' : Prop := {
  tr_sub : m' ⊆ m;
  tr_size : Z.of_nat (size (built_entries cells m')) = Z.min max_tenants (Z.of_nat (size (built_entries cells m)));
  tr_keeps : ∀ u e, m !! u = Some e → u = t ∨ cell_built cells (te_cell e) = false → m' !! u = Some e;
  tr_oldest : ∀ u e v e', m !! u = Some e → m' !! u = None → m' !! v = Some e' → v ≠ t →
    cell_built cells (te_cell e') = true → te_last e ≤ te_last e';
}.
Lemma evict_over_spec t cells fuel m :
  (size (built_entries cells m) ≤ fuel)%nat → trimmed t cells m (evict_over max_tenants t cells fuel m).
Proof.
  revert m. induction fuel as [|fuel IH]; intros m Hfuel; simpl; [split; [done|lia|done|intros; simplify_eq/=]|].
  destruct (Z.leb_spec (Z.of_nat (size (built_entries cells m))) max_tenants) as [Hle|Hgt].
  { split; [done|lia|done|intros; simplify_eq/=]. }
  destruct (victim_spec t (built_entries cells m)) as (id & e & -> & Hne & Hid & Hmin); [lia|].
  assert (size (built_entries cells m) = S (size (built_entries cells (delete id m)))) as Hs.
  { rewrite built_entries_delete, map_size_delete, Hid. assert (size (built_entries cells m) ≠ 0%nat); [|lia]. lia. }
  apply built_entries_lookup in Hid as [Hid Hb].
  destruct (IH (delete id m)) as [Hsub Hsz Hkeep Hold]; [lia|]. split.
  - etrans; [done|apply delete_subseteq].
  - lia.
  - intros u e' Hu Hor. apply Hkeep; [|done]. rewrite lookup_delete_ne; [done|]. intros ->.
    destruct Hor as [->|Hf]; [done|]. simplify_eq. congruence.
  - intros u e1 v e2 Hu Hu' Hv Hvt Hvb. destruct (decide (u = id)) as [->|Hui].
    + simplify_eq. apply (Hmin v); [|done]. apply built_entries_lookup. split; [|done].
      eapply lookup_weaken; [done|]. etrans; [done|apply delete_subseteq].
    + eapply (Hold u e1 v e2); [|done..]. by rewrite lookup_delete_ne.
Qed.
End bound.

(** The bound on resident runtimes. Recording a successful resolve of a tenant gives its entry the newest
    tick (putting it back, with the cell that was built, where a failure or an eviction removed it), keeps
    every other tenant's build that is in flight, and trims what is built to the bound exactly: nothing
    goes where there is room, what goes was used no later than what stays, and the tenant itself stays. *)
Theorem registry_bound {HI : HashIter} {R} overflow_checks max_tenants t c (g : Registry R) g' :
  0 < max_tenants → touch_and_evict overflow_checks max_tenants t c g = Some g' →
  let entries := <[t := mkTenantEntry (from_option te_cell c (rg_entries g !! t)) (rg_tick g')]> (rg_entries g) in
  rg_cells g' = rg_cells g ∧ checked_incr overflow_checks u64_max (rg_tick g) = Some (rg_tick g') ∧
  rg_entries g' !! t = entries !! t ∧ trimmed max_tenants t (rg_cells g) entries (rg_entries g').
Proof.
  intros Hmax. unfold touch_and_evict. destruct (checked_incr _ _ _) as [tick|]; simpl; [|done]. intros [= <-]. simpl.
  set (m := <[t := _]> _). assert (trimmed max_tenants t (rg_cells g) m
    (evict_over max_tenants t (rg_cells g) (size m) m)) as Htr by (apply evict_over_spec; [done|apply size_built_entries]).
  split_and!; [done|done| |done]. rewrite (tr_keeps _ _ _ _ _ Htr t (mkTenantEntry
    (match rg_entries g !! t with Some e => te_cell e | None => c end) tick)).
  - unfold m. by rewrite !lookup_insert_eq.
  - unfold m. by rewrite lookup_insert_eq.
  - by left.
Qed.

(** ** Many requests at once *)
Section concurrent.
Context {HI : HashIter} {R E : Type}.
Variables (overflow_checks : bool) (max_tenants : Z) (builds : string → R → Prop).
#[local] Abbreviation Tasks := (gmap nat (string * Point (R:=R) (E:=E))).
#[local] Abbreviation Config := (Registry R * Tasks)%type.
#[local] Abbreviation step := (registry_step overflow_checks max_tenants builds (E:=E)).
Implicit Types (g : Registry R) (ts : Tasks) (t : string) (owner : nat → string).

(** What a request's point says, when each cell belongs to a tenant. *)
Definition point_ok owner (cells : list (option R)) t (p : Point (R:=R) (E:=E)) : Prop :=
  match p with
  | Waiting c => owner c = t ∧ (c < length cells)%nat
  | Building c => owner c = t ∧ cells !! c = Some None
  | Built c r => owner c = t ∧ cells !! c = Some (Some r)
  | Answered (inr r) => builds t r
  | BuildFailed _ _ | Answered (inl _) => True
  end.
Record config_ok owner (s : Config) : Prop := {
  co_entries : ∀ t e, rg_entries s.1 !! t = Some e → owner (te_cell e) = t ∧ (te_cell e < length (rg_cells s.1))%nat;
  co_cells : ∀ c r, rg_cells s.1 !! c = Some (Some r) → builds (owner c) r;
  co_tasks : ∀ i t p, s.2 !! i = Some (t, p) → point_ok owner (rg_cells s.1) t p;
  co_one : ∀ i j t u c, s.2 !! i = Some (t, Building c) → s.2 !! j = Some (u, Building c) → i = j;
}.

(** Entries that come from the old ones keep the invariant, over the same cells. *)
Lemma config_ok_entries owner g g' ts :
  config_ok owner (g, ts) → rg_cells g' = rg_cells g →
  (∀ t e, rg_entries g' !! t = Some e → owner (te_cell e) = t ∧ (te_cell e < length (rg_cells g))%nat) →
  config_ok owner (g', ts).
Proof. intros [He Hc Ht H1] Hcells Hsub. split; simpl in *; rewrite ?Hcells; [done|done| |done]. done. Qed.
Lemma config_ok_sub owner g g' ts :
  config_ok owner (g, ts) → rg_cells g' = rg_cells g → rg_entries g' ⊆ rg_entries g → config_ok owner (g', ts).
Proof.
  intros Hok Hcells Hsub. apply (config_ok_entries _ g); [done|done|]. intros t e Ht.
  apply (co_entries _ _ Hok). by eapply lookup_weaken.
Qed.
(** So does a request that moves to a point that is right, when it does not begin a build that is under way. *)
Lemma config_ok_task owner g ts i t p :
  config_ok owner (g, ts) → point_ok owner (rg_cells g) t p →
  (∀ c, p = Building c → ¬ building_cell c ts) → config_ok owner (g, <[i := (t, p)]> ts).
Proof.
  intros [He Hc Ht H1] Hp Hb. split; simpl in *; [done|done| |].
  - intros j u q [[<- [= <- <-]]|[? ?]]%lookup_insert_Some; [done|]. by eapply Ht.
  - intros j k u v c [[<- Hj]|[? Hj]]%lookup_insert_Some [[<- Hk]|[? Hk]]%lookup_insert_Some; [done| | |by eapply H1].
    + injection Hj as -> ->. destruct (Hb c eq_refl). by exists k, v.
    + injection Hk as -> ->. destruct (Hb c eq_refl). by exists j, u.
Qed.
Lemma find_cell_ok owner t g c g' ts :
  find_cell t g = (c, g') → config_ok owner (g, ts) →
  ∃ owner', config_ok owner' (g', ts) ∧ owner' c = t ∧ (c < length (rg_cells g'))%nat.
Proof.
  unfold find_cell. intros H Hok. destruct (rg_entries g !! t) as [e|] eqn:Ht; injection H as <- <-.
  { exists owner. split; [done|]. by apply (co_entries _ _ Hok). }
  set (n := length (rg_cells g)). exists (λ c, if decide (c = n) then t else owner c). simpl.
  rewrite decide_True by done. split; [|split; [done|rewrite length_app; simpl; unfold n; lia]]. destruct Hok as [He Hc Hp H1]. simpl in *.
  assert (Hlt : ∀ c o, rg_cells g !! c = Some o → c ≠ n ∧ (rg_cells g ++ [None]) !! c = Some o).
  { intros c o Hco. pose proof (lookup_lt_Some _ _ _ Hco). split; [unfold n; lia|by apply lookup_app_l_Some]. }
  split; simpl.
  - intros u e [[<- <-]|[Hne Hu]]%lookup_insert_Some; simpl.
    + rewrite decide_True by done. split; [done|]. rewrite length_app. simpl. lia.
    + apply He in Hu as [? ?]. rewrite decide_False by (unfold n; lia). rewrite length_app. split; [done|lia].
  - intros c r Hcr. apply lookup_app_Some in Hcr as [Hcr|[_ Hcr]].
    + destruct (Hlt _ _ Hcr). rewrite decide_False by done. by apply Hc.
    + apply list_lookup_singleton_Some in Hcr as [_ ?]. done.
  - intros i u p Hi. apply Hp in Hi. destruct p as [c|c|c r|c e|[e|r]]; simpl in *; try done.
    + destruct Hi as [<- ?]. rewrite decide_False by (unfold n; lia). rewrite length_app. split; [done|lia].
    + destruct Hi as [<- [? ?]%Hlt]. by rewrite decide_False.
    + destruct Hi as [<- [? ?]%Hlt]. by rewrite decide_False.
  - done.
Qed.

(** Filling the cell of the build that ends. *)
Lemma fill_cell_ok owner g ts i t c r :
  ts !! i = Some (t, Building c) → builds t r → config_ok owner (g, ts) →
  config_ok owner (fill_cell c r g, <[i := (t, Built c r)]> ts).
Proof.
  intros Hi Hr [He Hc Hp H1]. simpl in *. destruct (Hp _ _ _ Hi) as [Ho Hn].
  pose proof (lookup_lt_Some _ _ _ Hn) as Hlt. split; simpl; rewrite ?length_insert.
  - done.
  - intros c' r' [(-> & [= ->] & _)|[_ ?]]%list_lookup_insert_Some; [by subst|by apply Hc].
  - intros j u q [[<- [= <- <-]]|[Hne Hj]]%lookup_insert_Some; simpl.
    { split; [done|]. by apply list_lookup_insert_eq. }
    pose proof (Hp _ _ _ Hj) as Hq. destruct q as [c'|c'|c' r'|c' e|[e|r']]; simpl in *; try done.
    + rewrite length_insert. done.
    + rewrite list_lookup_insert_ne; [done|]. intros ->. destruct Hne. by eapply H1.
    + rewrite list_lookup_insert_ne; [done|]. intros ->. destruct Hq. congruence.
  - intros j k u v c' [[<- Hj]|[? Hj]]%lookup_insert_Some [[<- Hk]|[? Hk]]%lookup_insert_Some; try done.
    by eapply H1.
Qed.

Lemma touch_ok owner t c r g g' ts :
  config_ok owner (g, ts) → point_ok owner (rg_cells g) t (Built c r) →
  touch_and_evict overflow_checks max_tenants t c g = Some g' → config_ok owner (g', ts).
Proof.
  intros Hok [Ho Hc]. unfold touch_and_evict. destruct (checked_incr _ _ _) as [tick|]; simpl; [|done]. intros [= <-].
  apply (config_ok_entries _ g); [done|done|]. simpl. set (m := <[t := _]> _). intros u e Hu.
  assert (∀ fuel m, evict_over max_tenants t (rg_cells g) fuel m ⊆ m) as Hsub.
  { clear. induction fuel as [|fuel IH]; intros m; simpl; [done|]. repeat case_match; [done| |done].
    etrans; [apply IH|apply delete_subseteq]. }
  eapply lookup_weaken in Hu; [|apply Hsub]. unfold m in Hu.
  apply lookup_insert_Some in Hu as [[<- <-]|[_ Hu]]; [|by apply (co_entries _ _ Hok)]. simpl.
  destruct (rg_entries g !! t) as [e|] eqn:Ht; [by apply (co_entries _ _ Hok)|]. split; [done|].
  by eapply lookup_lt_Some.
Qed.
Lemma forget_failed_sub t c g : rg_cells (forget_failed t c g) = rg_cells g ∧ rg_entries (forget_failed t c g) ⊆ rg_entries g.
Proof. unfold forget_failed. repeat case_match; simpl; try done. split; [done|apply delete_subseteq]. Qed.

Lemma registry_step_ok owner s s' : config_ok owner s → step s s' → ∃ owner', config_ok owner' s'.
Proof.
  intros Hok Hs. destruct Hs as [g ts i t c g' Hi Hf|g ts i t c r Hi Hc|g ts i t c Hi Hc Hb|g ts i t c r Hi Hr|
    g ts i t c e Hi|g ts i t c e Hi|g ts i t c r g' Hi Ht|g ts i|g ts t|g ts|g ts keep].
  - destruct (find_cell_ok _ _ _ _ _ _ Hf Hok) as (owner' & Hok' & ? & ?). exists owner'. by apply config_ok_task.
  - exists owner. apply config_ok_task; [done| |done]. destruct (co_tasks _ _ Hok _ _ _ Hi). done.
  - exists owner. apply config_ok_task; [done| |by intros ? [= <-]]. destruct (co_tasks _ _ Hok _ _ _ Hi). done.
  - exists owner. by apply fill_cell_ok.
  - exists owner. by apply config_ok_task.
  - exists owner. apply config_ok_task; [|done..]. destruct (forget_failed_sub t c g). by apply (config_ok_sub _ g).
  - exists owner. pose proof (co_tasks _ _ Hok _ _ _ Hi) as Hp. apply config_ok_task; [by eapply touch_ok| |done].
    simpl. destruct Hp as [<- Hp]. by apply (co_cells _ _ Hok).
  - exists owner. destruct Hok as [He Hc Hp H1]. split; simpl in *; [done|done| |].
    + intros j u q [_ ?]%lookup_delete_Some. by eapply Hp.
    + intros j k u v c [_ ?]%lookup_delete_Some [_ ?]%lookup_delete_Some. by eapply H1.
  - exists owner. apply (config_ok_sub _ g); [done|done|]. apply delete_subseteq.
  - exists owner. apply (config_ok_sub _ g); [done|done|]. apply map_empty_subseteq.
  - exists owner. apply (config_ok_sub _ g); [done|done|]. apply map_filter_subseteq.
Qed.
Lemma step_keeps_built owner s s' c r :
  config_ok owner s → step s s' → rg_cells s.1 !! c = Some (Some r) → rg_cells s'.1 !! c = Some (Some r).
Proof.
  intros Hok Hs Hc. destruct Hs as [g ts i t c' g' Hi Hf| | |g ts i t c' r' Hi Hr| |g ts i t c' e Hi|g ts i t c' r' g' Hi Ht| | | |];
    simpl in *; try done.
  - unfold find_cell in Hf. destruct (rg_entries g !! t); injection Hf as <- <-; [done|]. simpl. by apply lookup_app_l_Some.
  - rewrite list_lookup_insert_ne; [done|]. intros ->. destruct (co_tasks _ _ Hok _ _ _ Hi) as [_ ?]. simpl in *. congruence.
  - destruct (forget_failed_sub t c' g) as [-> _]. done.
  - revert Ht. unfold touch_and_evict. destruct (checked_incr _ _ _); simpl; [|done]. by intros [= <-].
Qed.
Lemma config_reachable g0 s :
  registry_new max_tenants = Some g0 → rtc step (g0, ∅) s → ∃ owner, config_ok owner s.
Proof.
  intros H0 Hs. assert (∃ owner, config_ok owner (g0, ∅)) as Hok.
  { revert H0. unfold registry_new. destruct (0 <? max_tenants); [|done]. intros [= <-]. exists (λ _, ""). by split. }
  revert Hok. induction Hs as [|s1 s2 s3 Hs _ IH]; [done|]. intros [owner Hok]. apply IH. by eapply registry_step_ok.
Qed.
Lemma rtc_keeps_built owner s s' c r :
  config_ok owner s → rtc step s s' → rg_cells s.1 !! c = Some (Some r) → rg_cells s'.1 !! c = Some (Some r).
Proof.
  intros Hok Hs. revert owner Hok. induction Hs as [|s1 s2 s3 Hs _ IH]; intros owner Hok Hc; [done|].
  destruct (registry_step_ok _ _ _ Hok Hs) as [owner' ?]. eapply IH; [done|]. by apply (step_keeps_built owner s1).
Qed.
End concurrent.

(** C23: However requests, failures, cancellations and evictions interleave, a request is answered only with a
    runtime that a build for its own tenant made; no two requests build for one cell at the same time, so
    those that arrive while a tenant's entry stands wait for one build; and a runtime once in its cell stays
    there for whoever holds the cell, evicted or not. *)
Theorem registry_isolates {HI : HashIter} {R E} overflow_checks max_tenants (builds : string → R → Prop) g0 s :
  registry_new max_tenants = Some g0 →
  rtc (registry_step overflow_checks max_tenants builds (E:=E)) (g0, ∅) s →
  (∀ i t r, s.2 !! i = Some (t, Answered (inr r)) → builds t r) ∧
  (∀ i j t u c, s.2 !! i = Some (t, Building c) → s.2 !! j = Some (u, Building c) → i = j ∧ t = u) ∧
  (∀ t e r, rg_entries s.1 !! t = Some e → rg_cells s.1 !! te_cell e = Some (Some r) → builds t r) ∧
  (∀ s' c r, rtc (registry_step overflow_checks max_tenants builds (E:=E)) s s' →
     rg_cells s.1 !! c = Some (Some r) → rg_cells s'.1 !! c = Some (Some r)).
Proof.
  intros H0 Hs. destruct (config_reachable _ _ _ _ _ H0 Hs) as [owner Hok]. split_and!.
  - intros i t r Hi. exact (co_tasks _ _ _ Hok _ _ _ Hi).
  - intros i j t u c Hi Hj. assert (i = j) as <- by (by eapply (co_one _ _ _ Hok)). split; [done|]. congruence.
  - intros t e r He Hc. destruct (co_entries _ _ _ Hok _ _ He) as [<- _]. by apply (co_cells _ _ _ Hok).
  - intros s' c r Hs' Hc. by eapply rtc_keeps_built.
Qed.

(** ** One request *)
Section alone.
Context {HI : HashIter} {W R E : Type}.
Variables (overflow_checks : bool) (max_tenants : Z) (build : string → W → (E + R) * W).
Definition can_build (t : string) (r : R) : Prop := ∃ w w', build t w = (inr r, w').
(** The registry as requests leave it. *)
Definition registry_sound (g : Registry R) : Prop :=
  ∃ owner, config_ok (E:=E) can_build owner (g, ∅).
Lemma registry_sound_new g : registry_new max_tenants = Some g → registry_sound g.
Proof. intros H. eapply (config_reachable false); [done|apply rtc_refl]. Qed.
Lemma config_ok_sound owner g ts : config_ok (E:=E) can_build owner (g, ts) → registry_sound g.
Proof. intros [H1 H2 _ _]. exists owner. by split. Qed.
(** One that comes alone is answered with a runtime built for its tenant. *)
Lemma wp_get_or_build t (s : St (Registry R) W) :
  registry_sound (tables s) →
  wp (get_or_build overflow_checks max_tenants build t) (λ r s', registry_sound (tables s') ∧
    match r with Ok rt => can_build t rt | _ => True end) s.
Proof.
  intros [owner0 Hok0]. unfold get_or_build, wp. destruct (find_cell t (tables s)) as [c g] eqn:Hf.
  destruct (find_cell_ok _ _ _ _ _ _ _ Hf Hok0) as (owner & Hok & Ho & Hc).
  assert (Htouch : ∀ g r w ts, config_ok (E:=E) can_build owner (g, ts) → point_ok (E:=E) can_build owner (rg_cells g) t (Built c r) →
    let m : res (RegistryError (E:=E)) R * St (Registry R) W :=
      match touch_and_evict overflow_checks max_tenants t c g with Some g => (Ok r, mkSt g w) | None => (Panic, mkSt g w) end in
    registry_sound (tables m.2) ∧ match m.1 with Ok rt => can_build t rt | _ => True end).
  { intros g1 r w ts Hg Hp. assert (can_build t r) as Hb by (destruct Hp as [<- Hp]; by apply (co_cells _ _ _ Hg)).
    destruct (touch_and_evict overflow_checks max_tenants t c g1) as [g2|] eqn:Ht; simpl; (split; [|done]).
    - eapply config_ok_sound. by eapply touch_ok.
    - by eapply config_ok_sound. }
  destruct (rg_cells g !! c) as [[r|]|] eqn:Hcell; [by apply (Htouch g r _ ∅)| |by apply lookup_ge_None in Hcell; lia].
  destruct (build t (world s)) as [[e|r] w] eqn:Hb.
  - simpl. split; [|done]. destruct (forget_failed_sub t c g). eapply config_ok_sound. by apply (config_ok_sub _ _ g).
  - assert (config_ok (E:=E) can_build owner (g, {[0%nat := (t, Building c)]})) as Hbuilding.
    { apply config_ok_task; [done|done|]. intros c' _ (i & u & Hi). by rewrite lookup_empty in Hi. }
    assert (can_build t r) as Hcb by (by exists (world s), w).
    pose proof (fill_cell_ok _ _ _ _ _ _ _ _ (lookup_singleton_eq _ _) Hcb Hbuilding) as Hfill.
    apply (Htouch (fill_cell c r g) r w _ Hfill). exact (co_tasks _ _ _ Hfill _ _ _ (lookup_insert_eq _ _ _)).
Qed.
End alone.

(** ** Tenants that run

    One runtime at a time, named by the tenant it was built for. *)
Module TenantExample.
#[local] Instance any_order : HashIter := { hash_iter V := map_to_list; hash_iter_perm V m := reflexivity _ }.
Abbreviation Reg := (Registry string).
Definition builds (t r : string) : Prop := r = t.
Abbreviation rstep := (registry_step true 1 builds (E:=unit)).
Definition reg0 : Reg := mkRegistry ∅ 0 [].

Lemma database_names_distinct_witness :
  valid_slug "acme-corp" = Ok tt ∧ database_name "tenant_" "acme-corp" = inr "tenant_acme_corp" ∧
  (database_name "tenant_" "acme" = database_name "tenant_" "acme-corp" → "acme-corp" = "acme").
Proof.
  split; [by vm_compute|]. split; [by vm_compute|].
  destruct (database_names_distinct "tenant_" "acme-corp" "acme") as (name & _ & _ & _ & H);
    [by vm_compute|by vm_compute|by vm_compute|exact H].
Defined.

(** Two tenants are built and there is room for one: the resolve of the second drops the first. *)
Definition two : Reg := mkRegistry (<["a" := mkTenantEntry 0 1]> (<["b" := mkTenantEntry 1 1]> ∅)) 1 [Some "a"; Some "b"].
Lemma registry_bound_witness :
  ∃ g', touch_and_evict true 1 "b" 1 two = Some g' ∧ rg_entries g' !! "a" = None ∧
    size (built_entries (rg_cells g') (rg_entries g')) = 1%nat.
Proof.
  destruct (touch_and_evict true 1 "b" 1 two) as [g'|] eqn:Hg; [|by vm_compute in Hg]. exists g'. split; [done|].
  pose proof (registry_bound true 1 "b" 1%nat two g' ltac:(lia) Hg) as (Hc & _ & Hb & Htr).
  split; [vm_compute in Hg; by simplify_eq|]. rewrite Hc. pose proof (tr_size _ _ _ _ _ Htr) as Hs. vm_compute in Hs.
  apply Nat2Z.inj. etrans; [exact Hs|done].
Defined.

(** A request builds ["a"] and is answered. *)
Definition answered : Reg := mkRegistry (<["a" := mkTenantEntry 0 1]> ∅) 1 [Some "a"].
Lemma one_request : ∃ ts, rtc rstep (reg0, ∅) (answered, ts) ∧ ts !! 0%nat = Some ("a", Answered (inr "a")).
Proof.
  eexists. split.
  - eapply rtc_l; [by eapply (step_arrive _ _ _ _ _ 0%nat "a")|].
    eapply rtc_l; [by apply (step_begin _ _ _ _ _ 0%nat "a" 0%nat); [done..|intros (? & ? & [[_ ?]|[_ ?]]%lookup_insert_Some)]|].
    eapply rtc_l; [by eapply (step_built _ _ _ _ _ 0%nat "a" 0%nat "a"); [apply lookup_insert_eq|done]|].
    eapply rtc_l; [|apply rtc_refl]. eapply (step_touch _ _ _ _ _ 0%nat "a" 0%nat "a"); [apply lookup_insert_eq|by vm_compute].
  - apply lookup_insert_eq.
Qed.
Lemma registry_isolates_witness : registry_new (R:=string) 1 = Some reg0 ∧ builds "a" "a".
Proof.
  split; [done|]. destruct one_request as (ts & Hs & Ha).
  destruct (registry_isolates true 1 builds reg0 (answered, ts) eq_refl Hs) as (H & _). exact (H 0%nat "a" "a" Ha).
Defined.

(** An eviction between a request's build and its touch does not last: the request puts the runtime back. *)
Example evicted_comes_back :
  (touch_and_evict true 1 "a" 0 (evict "a" answered).2 ≫= λ g, te_cell <$> (rg_entries g !! "a")) = Some 0%nat.
Proof. by vm_compute. Qed.
(** A first build that is cancelled leaves its entry, and as many of these may stand as there are names. *)
Example cancelled_builds_stay :
  registry_len (find_cell "c" (find_cell "b" (find_cell "a" reg0).2).2).2 = 3.
Proof. by vm_compute. Qed.
(** Two ids of custom domains, one database. *)
Example dash_and_underscore_collide : database_name "tenant_" "acme-corp" = database_name "tenant_" "acme_corp".
Proof. by vm_compute. Qed.
End TenantExample.
