(* ===== verification/RequestScope.v ===== *)
(** * Request scopes

    [backbone-orm/src/org_scope.rs], [company_scope.rs], [audit_context.rs]: a request's company, units and
    attribution are session variables of a connection taken from a pool for it, which row policies and
    audit triggers read. Here every connection is a place with its variables, and a task's own values are
    a record handed down; a pool is a number (the identity of its options). A statement is a function of
    its database, of the variables it runs under, and of the data; the organization's own functions
    ([org_unit_subtree], [org_unit_root]) are parameters. A call that is cut short, by a panic or because its
    future is dropped, ends in [Panic]. A clone of a connection that outlives its scope is not modelled. *)
From Stdlib Require Import ZArith Lia.
From S2P Require Import Prelude Json Database.

Abbreviation Vars := (gmap string string).

(** ** [audit_context.rs]: what a request's writes are attributed to *)
Definition AUDIT_CONTEXT_VARS : list string :=
  ["app.actor"; "app.correlation_id"; "app.client_ip"; "app.user_agent"; "app.http_method"; "app.resource_path"].
Record RequestAuditContext := mkAuditContext {
  ac_actor : string; ac_correlation_id : string; ac_client_ip : string; ac_user_agent : string;
  ac_http_method : string; ac_resource_path : string }.
#[export] Instance audit_context_eq_dec : EqDecision RequestAuditContext.
Proof. solve_decision. Defined.
Definition audit_context_new (actor : string) : RequestAuditContext := mkAuditContext actor "" "" "" "" "".
Definition audit_pairs (a : RequestAuditContext) : list (string * string) :=
  [("app.actor", ac_actor a); ("app.correlation_id", ac_correlation_id a); ("app.client_ip", ac_client_ip a);
   ("app.user_agent", ac_user_agent a); ("app.http_method", ac_http_method a); ("app.resource_path", ac_resource_path a)].

(** ** [org_scope.rs]: a session's scope *)
Definition ORG_FENCE_VARS : list string := ["app.scope_unit_ids"; "app.company_id"; "app.acting_unit_id"].
Record OrgScope := mkOrgScope { scope_unit_ids : list uuid; acting_unit_id : uuid; legacy_company_id : option uuid }.
#[export] Instance org_scope_eq_dec : EqDecision OrgScope.
Proof. solve_decision. Defined.
Definition for_company_unit (unit : uuid) : OrgScope := mkOrgScope [unit] unit (Some unit).
Definition for_unit_of_company (unit company : uuid) : OrgScope := mkOrgScope [unit] unit (Some company).
Inductive OrgScopeError := UnknownActingUnit (id : uuid) | MissingSpineHelpers | ScopeDatabase (e : DbError).

(** A row of [organization.org_units], as the resolver reads it. *)
Record OrgUnit := mkOrgUnit { ou_id : uuid; ou_parent_id : option uuid; ou_kind : string }.
(** The organization's spine in the database of a pool. *)
Class OrgSpine (D : Type) := {
  org_units : nat → D → list OrgUnit;
  org_unit_subtree : nat → D → list uuid → list uuid;
  org_unit_root : nat → D → option uuid;
}.
Definition find_unit (units : list OrgUnit) (id : uuid) : option OrgUnit :=
  List.find (λ u, bool_decide (ou_id u = id)) units.
(** [NEAREST_COMPANY_SQL]: the first company on the way up. In a tree the way is no longer than the table. *)
Fixpoint company_up (fuel : nat) (units : list OrgUnit) (id : uuid) : option uuid :=
  match fuel with
  | O => None
  | S fuel =>
      match find_unit units id with
      | None => None
      | Some u => if bool_decide (ou_kind u = "company") then Some (ou_id u) else ou_parent_id u ≫= company_up fuel units
      end
  end.
Definition nearest_company (units : list OrgUnit) (id : uuid) : option uuid := company_up (S (length units)) units id.
(** [Vec::dedup] *)
Fixpoint dedup (l : list uuid) : list uuid :=
  match l with
  | [] => []
  | x :: l =>
      match l with
      | y :: _ => if bool_decide (x = y) then dedup l else x :: dedup l
      | [] => [x]
      end
  end.

(** ** Connections *)
Record Conn := mkConn { cn_pool : nat; cn_vars : Vars }.
(** Every connection that is open, those their pools hold, and the data of every database. *)
Record Pools (D : Type) := mkPools { pl_conns : gmap nat Conn; pl_idle : list nat; pl_next : nat; pl_data : D }.
Arguments mkPools {_} _ _ _ _.
Arguments pl_conns {_} _.
Arguments pl_idle {_} _.
Arguments pl_next {_} _.
Arguments pl_data {_} _.

(** The values of a task: [COMPANY], [REQUEST_CONN], [ORG_SCOPE_POOL], [ORG_SCOPE], [ORG_SCOPE_CONN],
    [REQUEST_AUDIT], and the connection of the write transaction with what is set on it for its time. *)
Record Locals := mkLocals {
  tl_company : option (option uuid); tl_conn : option nat;
  tl_org_pool : option nat; tl_org : option OrgScope; tl_org_conn : option nat;
  tl_audit : option RequestAuditContext; tl_tx : option (nat * Vars) }.
Definition no_locals : Locals := mkLocals None None None None None None None.
Definition current_company (lc : Locals) : option uuid := from_option id None (tl_company lc).
Definition current_org_scope (lc : Locals) : option OrgScope := tl_org lc.
Definition current_request_audit (lc : Locals) : option RequestAuditContext := tl_audit lc.
Definition request_conn (lc : Locals) : option (nat * Vars) :=
  match tl_tx lc with Some tx => Some tx | None => (λ c, (c, ∅)) <$> tl_conn lc end.
Definition in_company (company : option uuid) (lc : Locals) : Locals :=
  mkLocals (Some company) (tl_conn lc) (tl_org_pool lc) (tl_org lc) (tl_org_conn lc) (tl_audit lc) (tl_tx lc).
Definition in_request (company : uuid) (c : nat) (lc : Locals) : Locals :=
  mkLocals (Some (Some company)) (Some c) (tl_org_pool lc) (tl_org lc) (tl_org_conn lc) (tl_audit lc) (tl_tx lc).
Definition in_org (p c : nat) (scope : OrgScope) (audit : option RequestAuditContext) (lc : Locals) : Locals :=
  mkLocals (Some (legacy_company_id scope)) (Some c) (Some p) (Some scope) (Some c)
    (match audit with Some a => Some a | None => tl_audit lc end) (tl_tx lc).

Section scopes.
Context {UT : UuidText} {D W : Type} {HW : World W} {OS : OrgSpine D}.
#[local] Abbreviation Sy := (St (Pools D) W).
#[local] Abbreviation M := (sm Sy DbError).
Implicit Types (p c : nat) (lc : Locals) (scope : OrgScope) (audit : option RequestAuditContext).

(** [v], then [cleanup] however it ended. *)
Definition finally {E A} (v : sm Sy E A) (cleanup : sm Sy E unit) : sm Sy E A := λ s, let '(r, s') := v s in (r, (cleanup s').2).
Definition upd_pools {E} (f : Pools D → Pools D) : sm Sy E unit := λ s, (Ok tt, mkSt (f (tables s)) (world s)).
Definition of_pool p (t : Pools D) c : bool := bool_decide (cn_pool <$> (pl_conns t !! c) = Some p).
(** A connection the pool holds, or a new one. *)
Definition acquire p : M nat :=
  _ ← sqlx_point;
  sm_of (λ s, let t := tables s in
    match List.find (of_pool p t) (pl_idle t) with
    | Some c => (Ok c, mkSt (mkPools (pl_conns t) (List.remove Nat.eq_dec c (pl_idle t)) (pl_next t) (pl_data t)) (world s))
    | None => (Ok (pl_next t), mkSt (mkPools (<[pl_next t := mkConn p ∅]> (pl_conns t)) (pl_idle t) (S (pl_next t)) (pl_data t)) (world s))
    end).
(** The last handle of a connection is dropped: it goes back to its pool, where it is still open. *)
Definition drop_conn {E} c : sm Sy E unit :=
  upd_pools (λ t, if bool_decide (is_Some (pl_conns t !! c)) then mkPools (pl_conns t) (c :: pl_idle t) (pl_next t) (pl_data t) else t).
Definition detach {E} c : sm Sy E unit := upd_pools (λ t, mkPools (delete c (pl_conns t)) (pl_idle t) (pl_next t) (pl_data t)).
(** [SELECT set_config(var, v, false)] *)
Definition with_var (var v : string) (cn : Conn) : Conn := mkConn (cn_pool cn) (<[var := v]> (cn_vars cn)).
Definition set_config c (var v : string) : M unit :=
  _ ← sqlx_point;
  upd_pools (λ t, mkPools (alter (with_var var v) c (pl_conns t)) (pl_idle t) (pl_next t) (pl_data t)).
(** [SELECT set_config(var, v, true)], on the variables a transaction has set. *)
Definition set_local (tx : Vars) (var v : string) : M Vars := _ ← sqlx_point; mret (<[var := v]> tx).

(** A statement on a connection, with what its transaction has set. *)
Definition Stmt (A : Type) : Type := nat → Vars → D → option (A * D).
Definition run_on {A} (q : Stmt A) (on : nat * Vars) : M A :=
  _ ← sqlx_point;
  sm_of (λ s, let t := tables s in
    match pl_conns t !! on.1 with
    | None => (Err "closed", s)
    | Some cn =>
        match q (cn_pool cn) (on.2 ∪ cn_vars cn) (pl_data t) with
        | Some (a, d) => (Ok a, mkSt (mkPools (pl_conns t) (pl_idle t) (pl_next t) d) (world s))
        | None => (Err "constraint violation", s)
        end
    end).
Definition on_pool {A} p (body : nat * Vars → M A) : M A := c ← acquire p; finally (body (c, ∅)) (drop_conn c).
(** [pool.begin()], the body, [commit]; what was written is undone when it ends otherwise. *)
Definition committing {A} (body : M A) : M A := λ s,
  match (a ← body; _ ← sqlx_point; mret a) s with
  | (Ok a, s') => (Ok a, s')
  | (r, s') => let t := tables s' in (r, mkSt (mkPools (pl_conns t) (pl_idle t) (pl_next t) (pl_data (tables s))) (world s'))
  end.
Definition in_own_tx {A} p (body : nat → M A) : M A :=
  c ← acquire p; finally (_ ← sqlx_point; committing (body c)) (drop_conn c).

(** ** Attribution *)
Definition bind_on c (a : RequestAuditContext) : M unit := sm_iter (λ '(var, v), set_config c var v) (audit_pairs a).
Definition bind_local (tx : Vars) (a : RequestAuditContext) : M Vars := sm_fold (λ tx '(var, v), set_local tx var v) tx (audit_pairs a).
Definition relay_ambient_audit_on lc (tx : Vars) : M Vars :=
  match current_request_audit lc with Some a => bind_local tx a | None => mret tx end.

(** ** Scopes *)
Definition scope_unit_ids_csv scope : string := String.concat "," (uuid_to_string <$> scope_unit_ids scope).
Definition id_text (id : option uuid) : string := from_option uuid_to_string "" id.
(** [reset_or_detach]: the connection is closed where a variable could not be cleared. *)
Definition reset_or_detach {E} c (vars : list string) : sm Sy E unit :=
  failed ← sm_fold (λ failed var, r ← attempt (set_config c var ""); mret (match r with inl _ => true | inr _ => failed end)) false vars;
  if failed : bool then detach c else mret tt.
(** [f]'s own result is a value; only a panic passes through. *)
Definition running {R} (v : sm Sy Empty_set R) : M R := map_err (λ e : Empty_set, match e with end) v.

Definition with_request_scope {R} p (company : uuid) (f : Locals → sm Sy Empty_set R) lc : M R :=
  c ← acquire p;
  finally
    (_ ← set_config c "app.company_id" (uuid_to_string company); running (f (in_request company c lc)))
    (_ ← reset_or_detach c ["app.company_id"]; drop_conn c).
Definition bind_scope c scope audit : M unit :=
  _ ← set_config c "app.scope_unit_ids" (scope_unit_ids_csv scope);
  _ ← set_config c "app.company_id" (id_text (legacy_company_id scope));
  _ ← set_config c "app.acting_unit_id" (uuid_to_string (acting_unit_id scope));
  match audit with Some a => bind_on c a | None => mret tt end.
Definition open_org_request_scope {R} p scope audit (f : Locals → sm Sy Empty_set R) lc : M R :=
  c ← acquire p;
  finally
    (_ ← bind_scope c scope audit; running (f (in_org p c scope audit lc)))
    (_ ← reset_or_detach c (ORG_FENCE_VARS ++ AUDIT_CONTEXT_VARS); drop_conn c).
(** The ambient scope is used where it is the one asked for, of the same pool, on the connection statements
    run on, and no attribution comes with the call. *)
Definition reusable p scope audit lc : bool :=
  bool_decide (audit = None) &&
  match request_conn lc, tl_org_conn lc with Some (c, _), Some own => bool_decide (c = own) | _, _ => false end &&
  bool_decide (tl_org lc = Some scope) && bool_decide (tl_org_pool lc = Some p).
Definition with_org_request_scope_internal {R} p scope audit (f : Locals → sm Sy Empty_set R) lc : M R :=
  if reusable p scope audit lc then running (f lc) else open_org_request_scope p scope audit f lc.
Definition with_org_request_scope_and_audit {R} p scope (audit : RequestAuditContext) (f : Locals → sm Sy Empty_set R) lc : M R :=
  with_org_request_scope_internal p scope (Some audit) f lc.

(** [resolve_org_scope] on a connection. *)
Variable sqlstate : DbError → option string.
Definition scope_error (e : DbError) : OrgScopeError :=
  if bool_decide (sqlstate e = Some "42883" ∨ sqlstate e = Some "42P01") then MissingSpineHelpers else ScopeDatabase e.
(** [SELECT .. UNION ..]: each row once. *)
Definition union_rows (rows : list (option uuid)) : list (option uuid) := remove_dups rows.
Definition resolve_org_scope c (acting_unit : uuid) (additional_entitled : list uuid) : sm Sy OrgScopeError OrgScope :=
  let roots := acting_unit :: additional_entitled in
  rows ← map_err scope_error
    (run_on (λ p _ d, Some (union_rows ((Some <$> org_unit_subtree p d roots) ++ [org_unit_root p d]), d)) (c, ∅));
  match mapM id rows with
  | None => sm_err (ScopeDatabase "UnexpectedNull")
  | Some ids =>
      if bool_decide (ids = []) then sm_err MissingSpineHelpers
      else if negb (bool_decide (acting_unit ∈ ids)) then sm_err (UnknownActingUnit acting_unit)
      else
        legacy ← map_err ScopeDatabase (run_on (λ p _ d, Some (nearest_company (org_units p d) acting_unit, d)) (c, ∅));
        mret (mkOrgScope (dedup (merge_sort N.le ids)) acting_unit legacy)
  end.

(** ** Statements *)
Definition bind_company lc (company : uuid) (tx : Vars) : M Vars :=
  tx ← set_local tx "app.company_id" (uuid_to_string company); relay_ambient_audit_on lc tx.
Definition bind_current_company lc (tx : Vars) : M Vars :=
  match current_company lc with Some company => bind_company lc company tx | None => relay_ambient_audit_on lc tx end.
Definition bind_org_scope_on lc scope (tx : Vars) : M Vars :=
  tx ← set_local tx "app.scope_unit_ids" (scope_unit_ids_csv scope);
  tx ← set_local tx "app.company_id" (id_text (legacy_company_id scope));
  tx ← set_local tx "app.acting_unit_id" (uuid_to_string (acting_unit_id scope));
  relay_ambient_audit_on lc tx.
(** What every helper of [company_scope.rs] does around its statement. *)
Definition company_scoped {A} p lc (stmt : nat * Vars → M A) : M A :=
  match request_conn lc with
  | Some on => stmt on
  | None =>
      match current_company lc with
      | None => on_pool p stmt
      | Some company => in_own_tx p (λ c, tx ← bind_company lc company ∅; stmt (c, tx))
      end
  end.
(** [fetch_one] of the rows *)
Definition the_row {Row} (rows : list Row) : M Row := match rows with [] => sm_err "RowNotFound" | r :: _ => mret r end.
Definition fetch_all_scoped {Row} p lc (q : Stmt (list Row)) : M (list Row) := company_scoped p lc (run_on q).
Definition fetch_one_scoped {Row} p lc (q : Stmt (list Row)) : M Row :=
  company_scoped p lc (λ on, rows ← run_on q on; the_row rows).
Definition fetch_optional_scoped {Row} p lc (q : Stmt (list Row)) : M (option Row) :=
  company_scoped p lc (λ on, rows ← run_on q on; mret (head rows)).
Definition execute_scoped p lc (q : Stmt Z) : M Z := company_scoped p lc (run_on q).
(** Scalars and untyped rows are rows. *)
Definition fetch_one_scalar_scoped {A} p lc (q : Stmt (list A)) : M A := fetch_one_scoped p lc q.
Definition fetch_optional_scalar_scoped {A} p lc (q : Stmt (list A)) : M (option A) := fetch_optional_scoped p lc q.
Definition fetch_optional_row_scoped {PgRow} p lc (q : Stmt (list PgRow)) : M (option PgRow) := fetch_optional_scoped p lc q.
Definition fetch_one_row_scoped {PgRow} p lc (q : Stmt (list PgRow)) : M PgRow := fetch_one_scoped p lc q.
Definition fetch_all_rows_scoped {PgRow} p lc (q : Stmt (list PgRow)) : M (list PgRow) := fetch_all_scoped p lc q.
(** The helpers of [org_scope.rs]: the request's connection, or the pool as it is. *)
Definition request_scoped {A} p lc (stmt : nat * Vars → M A) : M A :=
  match request_conn lc with Some on => stmt on | None => on_pool p stmt end.
Definition org_execute_scoped p lc (q : Stmt Z) : M Z := request_scoped p lc (run_on q).
Definition org_fetch_all_rows_scoped {PgRow} p lc (q : Stmt (list PgRow)) : M (list PgRow) := request_scoped p lc (run_on q).
Definition org_fetch_one_row_scoped {PgRow} p lc (q : Stmt (list PgRow)) : M PgRow :=
  request_scoped p lc (λ on, rows ← run_on q on; the_row rows).
Definition org_fetch_optional_row_scoped {PgRow} p lc (q : Stmt (list PgRow)) : M (option PgRow) :=
  request_scoped p lc (λ on, rows ← run_on q on; mret (head rows)).
Definition execute_unit_scoped p lc (unit : uuid) (q : Stmt Z) : M Z :=
  match request_conn lc with
  | Some on => run_on q on
  | None => in_own_tx p (λ c,
      tx ← set_local ∅ "app.scope_unit_ids" (uuid_to_string unit); tx ← relay_ambient_audit_on lc tx; run_on q (c, tx))
  end.
End scopes.
