(* ===== verification/RequestScopeFacts.v ===== *)
(** * What request scopes guarantee

    However scopes nest and whatever fails, panics or is cut short in them, no connection goes back to its
    pool with a variable of a request; a statement in a scope runs under that scope's variables, on its
    pool; and a resolved scope is the tree's. *)
From Stdlib Require Import ZArith Lia.
From S2P Require Import Prelude Json Database RequestScope.

Section facts.
Context {UT : UuidText} {D W : Type} {HW : World W} {OS : OrgSpine D}.
#[local] Abbreviation Sy := (St (Pools D) W).
#[local] Abbreviation M := (sm Sy DbError).
Implicit Types (p c : nat) (lc : Locals) (scope : OrgScope) (audit : option RequestAuditContext) (v : Vars) (s : Sy).

(** ** Pools *)
Definition request_vars : list string := ORG_FENCE_VARS ++ AUDIT_CONTEXT_VARS.
(** No row policy and no audit trigger reads anything. *)
Definition clean v : Prop := ∀ x, x ∈ request_vars → v !! x = None ∨ v !! x = Some "".
Record pools_ok s : Prop := {
  po_clean : ∀ c, c ∈ pl_idle (tables s) → ∃ cn, pl_conns (tables s) !! c = Some cn ∧ clean (cn_vars cn);
  po_nodup : NoDup (pl_idle (tables s));
  po_next : ∀ c, is_Some (pl_conns (tables s) !! c) → (c < pl_next (tables s))%nat;
}.
Definition held s c (cn : Conn) : Prop := pl_conns (tables s) !! c = Some cn ∧ c ∉ pl_idle (tables s).
(** What a call that takes its own connections does to the others. *)
Definition kept : relation Sy := λ s s', pools_ok s → pools_ok s' ∧ ∀ c cn, held s c cn → held s' c cn.
#[export] Instance kept_preorder : PreOrder kept.
Proof.
  split; [intros s ?; by split|]. intros s1 s2 s3 H12 H23 H1. destruct (H12 H1) as [H2 Hh]. destruct (H23 H2) as [H3 Hh'].
  split; [done|]. eauto.
Qed.

Lemma keeps_kept_point : keeps kept sqlx_point.
Proof.
  intros s. assert (tables (sqlx_point s).2 = tables s) as E by (symmetry; apply keeps_point).
  intros [H1 H2 H3]. split; [split; by rewrite E|]. unfold held. by rewrite E.
Qed.

(** ** A connection of one's own *)
Definition clean_but (vars : list string) v : Prop := ∀ x, x ∈ request_vars → x ∉ vars → v !! x = None ∨ v !! x = Some "".
Lemma clean_but_nil v : clean_but [] v ↔ clean v.
Proof. unfold clean_but, clean. set_solver. Qed.
Definition own c (vars : list string) s : Prop := pools_ok s ∧ ∃ cn, held s c cn ∧ clean_but vars (cn_vars cn).
Definition others c s s' : Prop := ∀ c' cn, c' ≠ c → held s c' cn → held s' c' cn.
Definition kept_but c vars : relation Sy := λ s s', own c vars s → own c vars s' ∧ others c s s'.
#[export] Instance kept_but_preorder c vars : PreOrder (kept_but c vars).
Proof.
  split; [intros s ?; split; [done|by intros ?]|]. intros s1 s2 s3 H12 H23 H1. destruct (H12 H1) as [H2 Hh].
  destruct (H23 H2) as [H3 Hh']. split; [done|]. intros ????. by apply Hh', Hh.
Qed.
Lemma kept_kept_but c vars s s' : kept s s' → kept_but c vars s s'.
Proof.
  intros Hk [Hok (cn & Hcn & Hcl)]. destruct (Hk Hok) as [Hok' Hh]. split; [split; [done|]; eauto|]. intros c' cn' _. apply Hh.
Qed.
Lemma keeps_kept_but {E A} c vars (m : sm Sy E A) : keeps kept m → keeps (kept_but c vars) m.
Proof. intros H s. apply kept_kept_but, H. Qed.

(** A variable set on the connection. *)
Definition var_set c var x s s' : Prop :=
  tables s' = mkPools (alter (with_var var x) c (pl_conns (tables s))) (pl_idle (tables s)) (pl_next (tables s)) (pl_data (tables s)).
Lemma wp_set_config c var x (Φ : res DbError unit → Sy → Prop) s :
  (∀ e s', tables s' = tables s → Φ (Err e) s') → (∀ s', var_set c var x s s' → Φ (Ok tt) s') →
  wp (set_config c var x) Φ s.
Proof.
  intros He Ho. unfold set_config. apply wp_bind. unfold wp at 1, sqlx_point.
  destruct (w_fault (world s)) as [[e|] w]; simpl; [by apply He|by apply Ho].
Qed.
Lemma same_kept s s' : tables s' = tables s → kept s s'.
Proof. intros E [H1 H2 H3]. split; [split; by rewrite E|]. unfold held. by rewrite E. Qed.
Lemma var_set_own c vars var x s s' cn :
  own c vars s → held s c cn → var ∈ vars → var_set c var x s s' →
  own c vars s' ∧ others c s s' ∧ held s' c (with_var var x cn).
Proof.
  intros [[H1 H2 H3] (cn' & Hh & Hcl)] Hcn Hvar E. assert (cn' = cn) as -> by (destruct Hh, Hcn; congruence).
  assert (held s' c (with_var var x cn)) as Hh'.
  { destruct Hcn as [Hc Hi]. split; rewrite E; simpl; [|done]. by rewrite lookup_alter_eq, Hc. }
  split_and!; [|intros c' cn'' Hne [Hc Hi]; split; rewrite E; simpl; by rewrite ?lookup_alter_ne|done]. split.
  - split; rewrite E; simpl; [|done|].
    + intros c' Hc'. destruct Hh as [_ Hi]. destruct (decide (c' = c)) as [->|Hne]; [done|].
      rewrite lookup_alter_ne by done. by apply H1.
    + intros c' [cn' Hc']. destruct (decide (c' = c)) as [->|Hne].
      * apply H3. destruct Hcn as [-> _]. done.
      * rewrite lookup_alter_ne in Hc' by done. apply H3. by rewrite Hc'.
  - eexists. split; [done|]. simpl. intros y Hy Hnin. rewrite lookup_insert_ne; [by apply Hcl|]. intros ->. done.
Qed.
Lemma keeps_set_config c vars var x : var ∈ vars → keeps (kept_but c vars) (set_config c var x).
Proof.
  intros Hvar s. apply (wp_set_config c var x (λ _ s', kept_but c vars s s')).
  - intros _ s' E. by apply kept_kept_but, same_kept.
  - intros s' E Ho. destruct (Ho) as [_ (cn & Hcn & _)]. destruct (var_set_own _ _ _ _ _ _ _ Ho Hcn Hvar E) as (? & ? & _). done.
Qed.

(** The variables are cleared, or the connection is closed. *)
Definition cleared c (l : list string) cn cn' : Prop :=
  cn_pool cn' = cn_pool cn ∧ ∀ x, (x ∈ l → cn_vars cn' !! x = Some "") ∧ (x ∉ l → cn_vars cn' !! x = cn_vars cn !! x).
Definition resetting c (failed : bool) (var : string) : M bool :=
  r ← attempt (set_config c var ""); mret (match r with inl _ => true | inr _ => failed end).
Lemma wp_reset_fold c vars l (failed : bool) s cn :
  own c vars s → held s c cn → l ⊆ vars →
  wp (sm_fold (resetting c) failed l) (λ r s', own c vars s' ∧ others c s s' ∧
    ∃ b, r = Ok b ∧ (b = false → failed = false ∧ ∃ cn', held s' c cn' ∧ cleared c l cn cn')) s.
Proof.
  revert failed s cn. induction l as [|var l IH]; intros failed s cn Ho Hcn Hl; simpl.
  { apply wp_ret. split_and!; [done|by intros ?|]. exists failed. split; [done|]. intros ->. split; [done|]. exists cn. split; [done|].
    split; [done|]. intros x. set_solver. }
  apply wp_bind. unfold resetting at 1. apply wp_bind, wp_attempt. apply wp_set_config.
  - intros e s' E. apply wp_ret. pose proof (same_kept _ _ E) as Hk. pose proof (kept_kept_but c vars _ _ Hk Ho) as [Ho' Ho1].
    assert (held s' c cn) as Hcn' by (apply Hk; [apply Ho|done]).
    eapply wp_mono; [apply (IH true s' cn Ho' Hcn'); set_solver|]. intros r s2 (H2 & H3 & b & -> & Hb).
    split_and!; [done|intros c' cn' ??; by apply H3, Ho1|]. exists b. split; [done|]. intros ->. by destruct Hb.
  - intros s' E. apply wp_ret. assert (var ∈ vars) as Hvar by set_solver.
    destruct (var_set_own _ _ _ _ _ _ _ Ho Hcn Hvar E) as (Ho' & Ho1 & Hcn').
    eapply wp_mono; [apply (IH failed s' _ Ho' Hcn'); set_solver|]. intros r s2 (H2 & H3 & b & -> & Hb).
    split_and!; [done|intros c' cn' ??; by apply H3, Ho1|]. exists b. split; [done|]. intros ->.
    destruct Hb as [? (cn2 & Hcn2 & Hp & Hx)]; [done|]. split; [done|]. exists cn2. split; [done|]. split; [done|].
    intros x. destruct (Hx x) as [Hx1 Hx2]. simpl in Hx2. split.
    + intros [->|?]%elem_of_cons; [|by apply Hx1]. destruct (decide (var ∈ l)); [by apply Hx1|].
      rewrite Hx2 by done. apply lookup_insert_eq.
    + intros [? ?]%not_elem_of_cons. rewrite Hx2 by done. by apply lookup_insert_ne.
Qed.

(** ** Calls that take a connection *)
(** What gives the connection back gives it back clean. *)
Definition gives_back c vars (cleanup : sm Sy DbError unit) : Prop :=
  ∀ s, own c vars s → pools_ok (cleanup s).2 ∧ others c s (cleanup s).2.
Lemma drop_gives_back c : gives_back c [] (drop_conn c).
Proof.
  intros s [[H1 H2 H3] (cn & [Hc Hi] & Hcl)]. unfold drop_conn, upd_pools. simpl. rewrite bool_decide_eq_true_2 by done. split.
  - split; simpl.
    + intros c' [->|?]%elem_of_cons; [|by apply H1]. exists cn. split; [done|]. by apply clean_but_nil.
    + by constructor.
    + done.
  - intros c' cn' Hne [? ?]. split; simpl; [done|]. set_solver.
Qed.
Lemma reset_gives_back c vars : gives_back c vars (_ ← reset_or_detach c vars; drop_conn c).
Proof.
  intros s Ho. destruct (Ho) as [_ (cn & Hcn & Hcl)].
  apply (wp_bind (reset_or_detach c vars) (λ _, drop_conn c) (λ _ s', pools_ok s' ∧ others c s s')).
  unfold reset_or_detach. apply wp_bind. fold (resetting c).
  eapply wp_mono; [apply (wp_reset_fold c vars vars false s cn Ho Hcn); done|].
  intros r s' (Ho' & Hoth & b & -> & Hb). destruct b.
  - destruct Ho' as [[H1 H2 H3] (cn' & [Hc' Hi'] & _)]. unfold detach, drop_conn, upd_pools, wp. simpl.
    rewrite lookup_delete_eq, bool_decide_eq_false_2 by (by intros [? ?]). split; [split; simpl|].
    + intros c' Hc. destruct (decide (c' = c)) as [->|Hne]; [done|]. rewrite lookup_delete_ne by done. by apply H1.
    + done.
    + intros c' [? [_ Hl]%lookup_delete_Some]. by apply H3.
    + intros c' cn'' Hne Hh. apply Hoth in Hh as [? ?]; [|done]. split; simpl; [|done]. by rewrite lookup_delete_ne.
  - apply wp_ret. destruct Hb as [_ (cn' & Hcn' & _ & Hx)]; [done|].
    destruct (drop_gives_back c s') as [Hok Hoth'].
    + split; [apply Ho'|]. exists cn'. split; [done|]. apply clean_but_nil. intros x Hx'. destruct (Hx x) as [Hx1 Hx2].
      destruct (decide (x ∈ vars)); [right; by apply Hx1|]. rewrite Hx2 by done. by apply Hcl.
    + split; [done|]. intros c' cn'' ??. by apply Hoth', Hoth.
Qed.

(** A connection is taken: it is of the pool, clean, and nobody else's. *)
Record taken p s c s' : Prop := {
  tk_ok : pools_ok s';
  tk_held : ∃ v, held s' c (mkConn p v) ∧ clean v;
  tk_others : ∀ c' cn, held s c' cn → c' ≠ c ∧ held s' c' cn;
  tk_data : pl_data (tables s') = pl_data (tables s);
}.
Lemma remove_elem (c c' : nat) l : c' ∈ List.remove Nat.eq_dec c l ↔ c' ∈ l ∧ c' ≠ c.
Proof. rewrite !list_elem_of_In. split; [apply List.in_remove|]. intros [? ?]. by apply List.in_in_remove. Qed.
Lemma remove_NoDup (c : nat) l : NoDup l → NoDup (List.remove Nat.eq_dec c l).
Proof.
  induction 1 as [|x l Hx Hl IH]; simpl; [constructor|]. destruct (Nat.eq_dec c x); [done|]. constructor; [|done].
  by rewrite remove_elem; intros [? _].
Qed.
Lemma wp_acquire p (Φ : res DbError nat → Sy → Prop) s :
  pools_ok s → (∀ e s', tables s' = tables s → Φ (Err e) s') → (∀ c s', taken p s c s' → Φ (Ok c) s') → wp (acquire p) Φ s.
Proof.
  intros [H1 H2 H3] He Ho. unfold acquire. apply wp_bind. unfold wp at 1, sqlx_point.
  destruct (w_fault (world s)) as [[e|] w]; simpl; [by apply He|]. unfold sm_of, wp; simpl.
  destruct (List.find _ _) as [c|] eqn:Hf; simpl.
  - apply find_Some_elem in Hf as [Hin Hp]. unfold of_pool in Hp. apply bool_decide_eq_true in Hp.
    destruct (H1 c Hin) as (cn & Hc & Hcl). rewrite Hc in Hp. destruct cn as [p' v]. simpl in *. injection Hp as ->.
    apply Ho. split; simpl.
    + split; simpl; [|by apply remove_NoDup|done]. intros c' [? _]%remove_elem. by apply H1.
    + exists v. split; [|done]. split; simpl; [done|]. rewrite remove_elem. tauto.
    + intros c' cn [? Hni]. split; [congruence|]. split; simpl; [done|]. rewrite remove_elem. tauto.
    + done.
  - set (n := pl_next (tables s)) in *. assert (n ∉ pl_idle (tables s)) as Hn.
    { intros Hn. destruct (H1 n Hn) as (cn & Hc & _). assert (n < n)%nat; [|lia]. by apply H3. }
    apply Ho. split; simpl.
    + split; simpl; [|done|].
      * intros c' Hc'. rewrite lookup_insert_ne; [by apply H1|]. congruence.
      * intros c' [cn' [[<- _]|[_ Hc']]%lookup_insert_Some]; [lia|]. assert (c' < n)%nat; [|lia]. by apply H3.
    + exists ∅. split; [split; simpl; [apply lookup_insert_eq|done]|]. intros x _. left. apply lookup_empty.
    + intros c' cn [Hc Hi]. assert (c' < n)%nat by (by apply H3). split; [lia|]. split; simpl; [|done].
      rewrite lookup_insert_ne; [done|lia].
    + done.
Qed.

Lemma wp_owned {R} p vars (body : nat → M R) (cleanup : nat → M unit) (Ψ : res DbError R → Prop) s :
  pools_ok s → (∀ e, Ψ (Err e)) → (∀ c, gives_back c vars (cleanup c)) →
  (∀ c s', taken p s c s' → wp (body c) (λ r s'', kept_but c vars s' s'' ∧ Ψ r) s') →
  wp (c ← acquire p; finally (body c) (cleanup c)) (λ r s', kept s s' ∧ Ψ r) s.
Proof.
  intros Hok He Hc Hb. apply wp_bind, wp_acquire; [done| |].
  - intros e s' E. split; [by apply same_kept|done].
  - intros c s1 Ht. specialize (Hb c s1 Ht). destruct Ht as [Hok1 (v & Hv & Hcl) Hoth _]. unfold wp, finally in *.
    destruct (body c s1) as [r s2]. destruct Hb as [Hk Hr]. split; [|done]. intros _.
    destruct Hk as [Ho2 Hoth2]; [split; [done|]; eexists; split; [done|by intros x ? _; apply Hcl]|].
    destruct (Hc c s2 Ho2) as [Hok3 Hoth3]. split; [done|]. intros c' cn [? ?]%Hoth. by apply Hoth3, Hoth2.
Qed.
Lemma keeps_owned {R} p vars (body : nat → M R) (cleanup : nat → M unit) :
  (∀ c, keeps (kept_but c vars) (body c)) → (∀ c, gives_back c vars (cleanup c)) →
  keeps kept (c ← acquire p; finally (body c) (cleanup c)).
Proof.
  intros Hb Hc s Hok. destruct (wp_owned p vars body cleanup (λ _, True) s) as [Hk _]; [done..| |by apply Hk].
  intros c s' _. split; [apply Hb|done].
Qed.

(** ** Every helper keeps what is held, and the pools clean *)
Lemma same_pools s s' : pl_conns (tables s') = pl_conns (tables s) → pl_idle (tables s') = pl_idle (tables s) →
  pl_next (tables s') = pl_next (tables s) → kept s s'.
Proof. intros E1 E2 E3 [H1 H2 H3]. split; [split; by rewrite ?E1, ?E2, ?E3|]. unfold held. by rewrite E1, E2. Qed.
Lemma keeps_run_on {A} (q : Stmt A) on : keeps kept (run_on q on).
Proof.
  unfold run_on. apply keeps_bind; [apply _|apply keeps_kept_point|]. intros _ s. unfold sm_of.
  repeat case_match; simpl; by apply same_pools.
Qed.
Lemma keeps_set_local tx var x : keeps kept (set_local tx var x).
Proof. unfold set_local. apply keeps_bind; [apply _|apply keeps_kept_point|]. intros _. apply keeps_ret. apply _. Qed.
Lemma keeps_relay lc tx : keeps kept (relay_ambient_audit_on lc tx).
Proof.
  unfold relay_ambient_audit_on. destruct (current_request_audit lc); [|apply keeps_ret; apply _].
  apply keeps_fold; [apply _|]. intros tx' [var x]. apply keeps_set_local.
Qed.
Lemma keeps_bind_company lc company tx : keeps kept (bind_company lc company tx).
Proof. apply keeps_bind; [apply _|apply keeps_set_local|]. intros ?. apply keeps_relay. Qed.
Lemma keeps_on_pool {A} p (stmt : nat * Vars → M A) : (∀ on, keeps kept (stmt on)) → keeps kept (on_pool p stmt).
Proof.
  intros H. apply (keeps_owned p [] (λ c, stmt (c, ∅)) drop_conn); [|apply drop_gives_back]. intros c. apply keeps_kept_but, H.
Qed.
Lemma keeps_committing {A} (body : M A) : keeps kept body → keeps kept (committing body).
Proof.
  intros H s. assert (keeps kept (a ← body; _ ← sqlx_point; mret a)) as Hk.
  { apply keeps_bind; [apply _|apply H|]. intros a. apply keeps_bind; [apply _|apply keeps_kept_point|]. intros _. apply keeps_ret. apply _. }
  specialize (Hk s). unfold committing. destruct (mbind _ body s) as [[a|e|] s']; simpl in *; [done|..];
    (etrans; [exact Hk|by apply same_pools]).
Qed.
Lemma keeps_in_own_tx {A} p (body : nat → M A) : (∀ c, keeps kept (body c)) → keeps kept (in_own_tx p body).
Proof.
  intros H. apply (keeps_owned p [] (λ c, _ ← sqlx_point; committing (body c)) drop_conn); [|apply drop_gives_back].
  intros c. apply keeps_kept_but. apply keeps_bind; [apply _|apply keeps_kept_point|]. intros _. apply keeps_committing, H.
Qed.
Lemma keeps_company_scoped {A} p lc (stmt : nat * Vars → M A) : (∀ on, keeps kept (stmt on)) → keeps kept (company_scoped p lc stmt).
Proof.
  intros H. unfold company_scoped. destruct (request_conn lc); [apply H|]. destruct (current_company lc).
  - apply keeps_in_own_tx. intros c. apply keeps_bind; [apply _|apply keeps_bind_company|]. intros tx. apply H.
  - by apply keeps_on_pool.
Qed.
Lemma keeps_request_scoped {A} p lc (stmt : nat * Vars → M A) : (∀ on, keeps kept (stmt on)) → keeps kept (request_scoped p lc stmt).
Proof. intros H. unfold request_scoped. destruct (request_conn lc); [apply H|by apply keeps_on_pool]. Qed.
Lemma keeps_execute_unit_scoped p lc unit (q : Stmt Z) : keeps kept (execute_unit_scoped p lc unit q).
Proof.
  unfold execute_unit_scoped. destruct (request_conn lc); [apply keeps_run_on|]. apply keeps_in_own_tx. intros c.
  apply keeps_bind; [apply _|apply keeps_set_local|]. intros tx. apply keeps_bind; [apply _|apply keeps_relay|].
  intros ?. apply keeps_run_on.
Qed.
Lemma keeps_resolve sqlstate c acting entitled : keeps kept (resolve_org_scope sqlstate c acting entitled).
Proof.
  unfold resolve_org_scope. apply keeps_bind; [apply _|apply keeps_map_err, keeps_run_on|]. intros rows.
  repeat case_match; try (apply keeps_err; apply _). apply keeps_bind; [apply _|apply keeps_map_err, keeps_run_on|].
  intros ?. apply keeps_ret. apply _.
Qed.

(** ** Scopes *)
Lemma keeps_running {R} (v : sm Sy Empty_set R) : keeps kept v → keeps kept (running v).
Proof. apply keeps_map_err. Qed.
Lemma keeps_bind_scope c scope audit : keeps (kept_but c request_vars) (bind_scope c scope audit).
Proof.
  assert (∀ var x, var ∈ request_vars → keeps (kept_but c request_vars) (set_config c var x)) as Hset by (intros; by apply keeps_set_config).
  unfold bind_scope. do 3 (apply keeps_bind; [apply _|apply Hset; set_solver|]; intros _).
  destruct audit as [a|]; [|apply keeps_ret; apply _]. unfold bind_on. simpl.
  do 6 (apply keeps_bind; [apply _|apply Hset; set_solver|]; intros _). apply keeps_ret. apply _.
Qed.
Lemma keeps_with_request_scope {R} p company (f : Locals → sm Sy Empty_set R) lc :
  (∀ lc, keeps kept (f lc)) → keeps kept (with_request_scope p company f lc).
Proof.
  intros H. apply (keeps_owned p ["app.company_id"]); [|intros c; apply reset_gives_back]. intros c.
  apply keeps_bind; [apply _|apply keeps_set_config; set_solver|]. intros _. apply keeps_kept_but, keeps_running, H.
Qed.
Lemma keeps_with_org_scope {R} p scope audit (f : Locals → sm Sy Empty_set R) lc :
  (∀ lc, keeps kept (f lc)) → keeps kept (with_org_request_scope_internal p scope audit f lc).
Proof.
  intros H. unfold with_org_request_scope_internal. destruct (reusable _ _ _ _); [apply keeps_running, H|].
  apply (keeps_owned p request_vars); [|intros c; apply reset_gives_back]. intros c.
  apply keeps_bind; [apply _|apply keeps_bind_scope|]. intros _. apply keeps_kept_but, keeps_running, H.
Qed.

(** What a handler can do: the crate's scopes and statements, in any nesting and order. *)
Inductive scoped_work : ∀ {R}, (Locals → sm Sy Empty_set R) → Prop :=
  | w_ret {R} (r : R) : scoped_work (λ _, mret r)
  | w_panic {R} : scoped_work (R:=R) (λ _, sm_panic)
  | w_bind {R R'} f (g : R → Locals → sm Sy Empty_set R') :
      scoped_work f → (∀ a, scoped_work (g a)) → scoped_work (λ lc, a ← f lc; g a lc)
  | w_ask {R} (g : Locals → Locals → sm Sy Empty_set R) : (∀ lc, scoped_work (g lc)) → scoped_work (λ lc, g lc lc)
  | w_fetch_all {Row} p (q : Stmt (list Row)) : scoped_work (λ lc, attempt (fetch_all_scoped p lc q))
  | w_fetch_one {Row} p (q : Stmt (list Row)) : scoped_work (λ lc, attempt (fetch_one_scoped p lc q))
  | w_fetch_optional {Row} p (q : Stmt (list Row)) : scoped_work (λ lc, attempt (fetch_optional_scoped p lc q))
  | w_execute p (q : Stmt Z) : scoped_work (λ lc, attempt (execute_scoped p lc q))
  | w_plain {A} p (q : Stmt A) : scoped_work (λ lc, attempt (request_scoped p lc (run_on q)))
  | w_unit p unit (q : Stmt Z) : scoped_work (λ lc, attempt (execute_unit_scoped p lc unit q))
  | w_own_tx {A} p scope (q : Stmt A) :
      scoped_work (λ lc, attempt (in_own_tx p (λ c, tx ← bind_org_scope_on lc scope ∅; run_on q (c, tx))))
  | w_company {R} company (f : Locals → sm Sy Empty_set R) : scoped_work f → scoped_work (λ lc, f (in_company company lc))
  | w_request {R} p company (f : Locals → sm Sy Empty_set R) :
      scoped_work f → scoped_work (λ lc, attempt (with_request_scope p company f lc))
  | w_org {R} p scope audit (f : Locals → sm Sy Empty_set R) :
      scoped_work f → scoped_work (λ lc, attempt (with_org_request_scope_internal p scope audit f lc)).

Lemma keeps_bind_org_scope_on lc scope tx : keeps kept (bind_org_scope_on lc scope tx).
Proof. unfold bind_org_scope_on. do 3 (apply keeps_bind; [apply _|apply keeps_set_local|]; intros ?). apply keeps_relay. Qed.
Lemma keeps_the_row {Row} (rows : list Row) : keeps kept (the_row rows).
Proof. destruct rows; [apply keeps_err|apply keeps_ret]; apply _. Qed.
Lemma scoped_work_kept {R} (f : Locals → sm Sy Empty_set R) : scoped_work f → ∀ lc, keeps kept (f lc).
Proof.
  induction 1; intros lc; simpl.
  - apply keeps_ret, _.
  - intros s. reflexivity.
  - apply keeps_bind; [apply _|auto|]. intros a. auto.
  - auto.
  - apply keeps_attempt, keeps_company_scoped. intros on. apply keeps_run_on.
  - apply keeps_attempt, keeps_company_scoped. intros on. apply keeps_bind; [apply _|apply keeps_run_on|]. intros rows. apply keeps_the_row.
  - apply keeps_attempt, keeps_company_scoped. intros on. apply keeps_bind; [apply _|apply keeps_run_on|]. intros rows. apply keeps_ret, _.
  - apply keeps_attempt, keeps_company_scoped. intros on. apply keeps_run_on.
  - apply keeps_attempt, keeps_request_scoped. intros on. apply keeps_run_on.
  - apply keeps_attempt, keeps_execute_unit_scoped.
  - apply keeps_attempt, keeps_in_own_tx. intros c. apply keeps_bind; [apply _|apply keeps_bind_org_scope_on|]. intros tx. apply keeps_run_on.
  - auto.
  - by apply keeps_attempt, keeps_with_request_scope.
  - by apply keeps_attempt, keeps_with_org_scope.
Qed.


(** ** What a statement sees *)
Inductive enclosure := EOrg (p : nat) (scope : OrgScope) (audit : option RequestAuditContext)
  | ERequest (p : nat) (company : uuid) | ECompany (company : option uuid).
Definition joined {R} (v : M (DbError + R)) : sm Sy Empty_set (DbError + R) :=
  r ← attempt v; mret (match r with inl e => inl e | inr x => x end).
(** Work inside scopes, the outermost first. *)
Fixpoint enclosed {R} (l : list enclosure) (f : Locals → sm Sy Empty_set (DbError + R)) : Locals → sm Sy Empty_set (DbError + R) :=
  match l with
  | [] => f
  | EOrg p scope audit :: l => λ lc, joined (with_org_request_scope_internal p scope audit (enclosed l f) lc)
  | ERequest p company :: l => λ lc, joined (with_request_scope p company (enclosed l f) lc)
  | ECompany company :: l => λ lc, enclosed l f (in_company company lc)
  end.
(** [SELECT current_setting(..), ..] *)
Definition settings : Stmt (D:=D) (list (nat * Vars)) := λ p v d, Some ([(p, v)], d).
Definition unset v x : Prop := v !! x = None ∨ v !! x = Some "".
Definition carries scope v : Prop :=
  v !! "app.scope_unit_ids" = Some (scope_unit_ids_csv scope) ∧ v !! "app.company_id" = Some (id_text (legacy_company_id scope)) ∧
  v !! "app.acting_unit_id" = Some (uuid_to_string (acting_unit_id scope)).
Definition attributed audit v : Prop :=
  match audit with Some a => ∀ x y, (x, y) ∈ audit_pairs a → v !! x = Some y | None => True end.
Definition sees (e : enclosure) (row : nat * Vars) : Prop :=
  match e with
  | EOrg p scope audit => row.1 = p ∧ carries scope row.2 ∧ attributed audit row.2
  | ERequest p company => row.1 = p ∧ row.2 !! "app.company_id" = Some (uuid_to_string company) ∧
      unset row.2 "app.scope_unit_ids" ∧ unset row.2 "app.acting_unit_id"
  | ECompany _ => True
  end.

Record locals_ok lc s : Prop := {
  lo_tx : tl_tx lc = None;
  lo_org : ∀ c, tl_org_conn lc = Some c → ∃ p scope v,
    tl_org_pool lc = Some p ∧ tl_org lc = Some scope ∧ held s c (mkConn p v) ∧ carries scope v;
}.
Definition under (e : enclosure) lc s : Prop :=
  match e with
  | ECompany _ => True
  | _ => ∃ c p v, request_conn lc = Some (c, ∅) ∧ held s c (mkConn p v) ∧ sees e (p, v)
  end.
Lemma kept_locals lc s s' : pools_ok s → kept s s' → locals_ok lc s → locals_ok lc s'.
Proof.
  intros Hok Hk [H1 H2]. split; [done|]. intros c Hc. destruct (H2 c Hc) as (p & scope & v & ? & ? & ? & ?).
  exists p, scope, v. split_and!; [done..|by apply Hk|done].
Qed.
Lemma kept_under e lc s s' : pools_ok s → kept s s' → under e lc s → under e lc s'.
Proof.
  intros Hok Hk. destruct e; [| |done]; intros (c & p' & v & ? & ? & ?); exists c, p', v; (split_and!; [done|by apply Hk|done]).
Qed.

(** Variables set one after the other on a connection of one's own. *)
Definition set_vars (l : list (string * string)) v : Vars := foldl (λ v '(x, y), <[x := y]> v) v l.
Definition sets (m : M unit) c (l : list (string * string)) : Prop := ∀ s p v vars,
  own c vars s → held s c (mkConn p v) → l.*1 ⊆ vars →
  wp m (λ r s', kept_but c vars s s' ∧ pl_data (tables s') = pl_data (tables s) ∧
    match r with Ok _ => held s' c (mkConn p (set_vars l v)) | Err _ => True | Panic => False end) s.
Lemma sets_nil c : sets (mret tt) c [].
Proof. intros s p v vars Ho Hh _. apply wp_ret. split; [reflexivity|done]. Qed.
Lemma sets_cons c x y (m : M unit) l : sets m c l → sets (_ ← set_config c x y; m) c ((x, y) :: l).
Proof.
  intros Hm s p v vars Ho Hh Hl. simpl in Hl. assert (x ∈ vars) as Hx by set_solver. apply wp_bind, wp_set_config.
  - intros e s' E. split; [by apply kept_kept_but, same_kept|]. split; [by rewrite E|done].
  - intros s' E. destruct (var_set_own _ _ _ _ _ _ _ Ho Hh Hx E) as (Ho' & Hoth & Hh').
    eapply wp_mono; [apply (Hm s' p _ vars Ho' Hh'); set_solver|]. intros r s2 (Hk & Hd & Hr). split_and!; [|by rewrite Hd, E|done].
    intros _. destruct (Hk Ho') as [? Hoth']. split; [done|]. intros c' cn ??. by apply Hoth', Hoth.
Qed.
Definition scope_vars scope audit : list (string * string) :=
  [("app.scope_unit_ids", scope_unit_ids_csv scope); ("app.company_id", id_text (legacy_company_id scope));
   ("app.acting_unit_id", uuid_to_string (acting_unit_id scope))] ++ from_option audit_pairs [] audit.
Lemma sets_bind_scope c scope audit : sets (bind_scope c scope audit) c (scope_vars scope audit).
Proof.
  do 3 (apply sets_cons). destruct audit as [a|]; [|apply sets_nil]. unfold bind_on. simpl. do 6 (apply sets_cons). apply sets_nil.
Qed.
Lemma set_vars_scope scope audit v : carries scope (set_vars (scope_vars scope audit) v) ∧
  attributed audit (set_vars (scope_vars scope audit) v).
Proof.
  split.
  - destruct audit as [a|]; unfold carries; simpl; split_and!; rewrite ?lookup_insert_ne by done; apply lookup_insert_eq.
  - destruct audit as [a|]; [|done]. intros x y. unfold audit_pairs at 1. simpl. rewrite !elem_of_cons.
    intros [[= -> ->]|[[= -> ->]|[[= -> ->]|[[= -> ->]|[[= -> ->]|[[= -> ->]|[]%elem_of_nil]]]]]];
      rewrite ?lookup_insert_ne by done; apply lookup_insert_eq.
Qed.

(** A connection is taken and bound and [f] runs on it once, or the call fails without it. *)
Definition scope_call {R} p (bind cleanup : nat → M unit) (f : nat → sm Sy Empty_set R) : M R :=
  c ← acquire p; finally (_ ← bind c; running (f c)) (cleanup c).
Lemma scope_run p vars l (bind cleanup : nat → M unit) s :
  pools_ok s → (∀ c, sets (bind c) c l) → l.*1 ⊆ vars →
  (∃ e s2, ∀ R (f : nat → sm Sy Empty_set R), scope_call p bind cleanup f s = (Err e, s2)) ∨
  (∃ c s' v, pools_ok s' ∧ (∀ c' cn, held s c' cn → held s' c' cn) ∧ clean v ∧ held s' c (mkConn p (set_vars l v)) ∧
     pl_data (tables s') = pl_data (tables s) ∧
     ∀ R (f : nat → sm Sy Empty_set R), scope_call p bind cleanup f s =
       ((running (f c) s').1, (cleanup c (running (f c) s').2).2)).
Proof.
  intros Hok Hb Hl. pose proof (wp_acquire p (λ r s1, match r with Ok c => taken p s c s1 | Err _ => True | Panic => False end) s Hok) as Ha.
  unfold scope_call. unfold wp in Ha. unfold mbind at 1, sm_bind. unfold mbind at 2, sm_bind.
  destruct (acquire p s) as [[c|e|] s1]; simpl in Ha; [|left; by exists e, s1|exfalso; by apply Ha].
  destruct Ha as [Hok1 (v & Hh & Hcl) Hoth Hd]; [done|done|].
  assert (own c vars s1) as Ho by (split; [done|]; eexists; split; [done|by intros x ? _; apply Hcl]).
  pose proof (Hb c s1 p v vars Ho Hh Hl) as Hs. unfold wp in Hs. unfold finally, mbind, sm_bind.
  destruct (bind c s1) as [[[]|e|] s2]; simpl in Hs; destruct Hs as (Hk & Hd2 & Hr); [|left|done].
  - right. destruct (Hk Ho) as [[Hok2 _] Hoth2]. exists c, s2, v. split_and!; [done| |done|done|by rewrite Hd2|].
    + intros c' cn [? ?]%Hoth. by apply Hoth2.
    + intros R f. by destruct (running (f c) s2).
  - by eexists e, _.
Qed.
(** Where a call runs [f] once, inside the scope, it answers what [f] does. *)
Definition enters e lc s (call : ∀ R, (Locals → sm Sy Empty_set R) → M R) : Prop :=
  (∃ m s2, ∀ R f, call R f s = (Err m, s2)) ∨
  (∃ lc' s' (k : Sy → Sy), pools_ok s' ∧ locals_ok lc' s' ∧ under e lc' s' ∧ pl_data (tables s') = pl_data (tables s) ∧
     ∀ R f, call R f s = ((running (f lc') s').1, k (running (f lc') s').2)).
Lemma wp_enters {R} e lc s (call : ∀ R, (Locals → sm Sy Empty_set R) → M R) (f : Locals → sm Sy Empty_set R) (Ψ : R → Prop) :
  enters e lc s call →
  (∀ lc' s', pools_ok s' → locals_ok lc' s' → under e lc' s' → wp (f lc') (λ r _, ∀ a, r = Ok a → Ψ a) s') →
  wp (call R f) (λ r _, ∀ a, r = Ok a → Ψ a) s.
Proof.
  intros [(m & s2 & Hv)|(lc' & s' & k & Hok & Hlo & Hu & _ & Hv)] Hf; unfold wp; rewrite Hv; simpl; [done|].
  specialize (Hf lc' s' Hok Hlo Hu). unfold wp, running, map_err in *. simpl.
  destruct (f lc' s') as [[a|[]|] s2]; simpl in *; [|done]. intros a' [= <-]. by apply Hf.
Qed.
(** The call consults its body only inside the scope. *)
Lemma enters_ext {R} e lc s (call : ∀ R, (Locals → sm Sy Empty_set R) → M R) (f1 f2 : Locals → sm Sy Empty_set R) :
  enters e lc s call →
  (∀ lc' s', pools_ok s' → locals_ok lc' s' → under e lc' s' → pl_data (tables s') = pl_data (tables s) → f1 lc' s' = f2 lc' s') →
  call R f1 s = call R f2 s.
Proof.
  intros [(m & s2 & Hv)|(lc' & s' & k & Hok & Hlo & Hu & Hd & Hv)] Hf; rewrite !Hv; [done|].
  unfold running, map_err. by rewrite (Hf lc' s' Hok Hlo Hu Hd).
Qed.
Lemma org_scope_enters p scope audit lc s :
  pools_ok s → locals_ok lc s →
  enters (EOrg p scope audit) lc s (λ R f, with_org_request_scope_internal p scope audit f lc).
Proof.
  intros Hok Hlo. unfold with_org_request_scope_internal. destruct (reusable p scope audit lc) eqn:Hr.
  - right. exists lc, s, id. split_and!; [done..| |done|].
    + unfold reusable in Hr. apply andb_true_iff in Hr as [[[->%bool_decide_eq_true Hc]%andb_true_iff Hs%bool_decide_eq_true]%andb_true_iff
        Hp%bool_decide_eq_true]. destruct (tl_org_conn lc) as [own|] eqn:Hown; [|by destruct (request_conn lc) as [[]|]].
      destruct (lo_org _ _ Hlo own Hown) as (p' & scope' & v & Hp' & Hs' & Hh & Hc'). simplify_eq/=.
      unfold request_conn in Hc |- *. rewrite (lo_tx _ _ Hlo) in Hc |- *. destruct (tl_conn lc) as [c|]; simpl in *; [|done].
      apply bool_decide_eq_true in Hc as ->. exists own, p, v. done.
    + intros R f. cbn beta. by destruct (running (f lc) s).
  - destruct (scope_run p request_vars (scope_vars scope audit) (λ c, bind_scope c scope audit)
      (λ c, _ ← reset_or_detach c (ORG_FENCE_VARS ++ AUDIT_CONTEXT_VARS); drop_conn c) s Hok) as
      [(e & s2 & Hv)|(c & s' & v & Hok' & Hoth & Hcl & Hh & Hd & Hv)].
    + intros c. apply sets_bind_scope.
    + destruct audit; simpl; set_solver.
    + left. exists e, s2. intros R f. exact (Hv R (λ c, f (in_org p c scope audit lc))).
    + right. destruct (set_vars_scope scope audit v) as [Hca Hat]. exists (in_org p c scope audit lc), s',
        (λ s2, (((_ ← reset_or_detach c (ORG_FENCE_VARS ++ AUDIT_CONTEXT_VARS); drop_conn c) : M unit) s2).2).
      split_and!; [done| | |done|intros R f; exact (Hv R (λ c, f (in_org p c scope audit lc)))].
      * split; [apply (lo_tx _ _ Hlo)|]. intros c' [= <-]. simpl. eauto 7.
      * exists c, p, (set_vars (scope_vars scope audit) v). split_and!; [|done|by split].
        unfold request_conn. simpl. by rewrite (lo_tx _ _ Hlo).
Qed.
Lemma request_scope_enters p company lc s :
  pools_ok s → locals_ok lc s → enters (ERequest p company) lc s (λ R f, with_request_scope p company f lc).
Proof.
  intros Hok Hlo. destruct (scope_run p ["app.company_id"] [("app.company_id", uuid_to_string company)]
    (λ c, set_config c "app.company_id" (uuid_to_string company)) (λ c, _ ← reset_or_detach c ["app.company_id"]; drop_conn c) s Hok) as
    [(e & s2 & Hv)|(c & s' & v & Hok' & Hoth & Hcl & Hh & Hd & Hv)].
  - intros c s1 p' v vars Ho Hh Hl. assert ("app.company_id" ∈ vars) as Hx by (simpl in Hl; set_solver). apply wp_set_config.
    + intros e s2 E. split; [by apply kept_kept_but, same_kept|]. split; [by rewrite E|done].
    + intros s2 E. destruct (var_set_own _ _ _ _ _ _ _ Ho Hh Hx E) as (? & ? & ?). split; [by split|]. split; [by rewrite E|done].
  - simpl. set_solver.
  - left. exists e, s2. intros R f. exact (Hv R (λ c, f (in_request company c lc))).
  - right. exists (in_request company c lc), s',
      (λ s2, (((_ ← reset_or_detach c ["app.company_id"]; drop_conn c) : M unit) s2).2).
    split_and!; [done| | |done|intros R f; exact (Hv R (λ c, f (in_request company c lc)))].
    + split; [apply (lo_tx _ _ Hlo)|]. intros c' Hc'. destruct (lo_org _ _ Hlo c' Hc') as (p' & scope & v' & ? & ? & ? & ?).
      exists p', scope, v'. split_and!; [done..|by apply Hoth|done].
    + eexists c, p, _. split_and!; [|exact Hh|]; [unfold request_conn; simpl; by rewrite (lo_tx _ _ Hlo)|]. simpl. split; [done|].
      split; [apply lookup_insert_eq|]. unfold unset. rewrite !lookup_insert_ne by done.
      split; apply Hcl; unfold request_vars, ORG_FENCE_VARS; set_solver.
Qed.
Lemma wp_inr {E E' R} (m : sm Sy E (E' + R)) (Ψ : R → Prop) s :
  wp m (λ r _, ∀ x, r = Ok (inr x) → Ψ x) s → wp m (λ r _, ∀ a, r = Ok a → ∀ x, a = inr x → Ψ x) s.
Proof. intros H. eapply wp_mono; [exact H|]. intros r s' Hr a -> x ->. by apply Hr. Qed.
Lemma wp_joined {R} (m : M (DbError + R)) (Ψ : R → Prop) s :
  wp m (λ r _, ∀ a, r = Ok a → ∀ x, a = inr x → Ψ x) s → wp (joined m) (λ r _, ∀ x, r = Ok (inr x) → Ψ x) s.
Proof.
  intros H. unfold joined. apply wp_bind, wp_attempt. eapply wp_mono; [exact H|]. intros [a|e|] s' Hr; [| |done].
  - apply wp_ret. intros x Hx. apply (Hr a eq_refl). destruct a as [e|y]; [by simplify_eq|by injection Hx as ->].
  - by apply wp_ret.
Qed.
Lemma wp_enclosed {R} (l : list enclosure) (f : Locals → sm Sy Empty_set (DbError + R)) (Ψ : R → Prop) lc s :
  (∀ lc s, pools_ok s → locals_ok lc s → wp (f lc) (λ r _, ∀ x, r = Ok (inr x) → Ψ x) s) →
  pools_ok s → locals_ok lc s → wp (enclosed l f lc) (λ r _, ∀ x, r = Ok (inr x) → Ψ x) s.
Proof.
  intros Hf. revert lc s. induction l as [|[p scope audit|p company|company] l IH]; intros lc s Hok Hlo; simpl.
  - by apply Hf.
  - apply wp_joined, (wp_enters _ _ _ _ _ _ (org_scope_enters _ _ _ _ _ Hok Hlo)). intros lc' s' ? ? _. by apply wp_inr, IH.
  - apply wp_joined, (wp_enters _ _ _ _ _ _ (request_scope_enters _ _ _ _ Hok Hlo)). intros lc' s' ? ? _. by apply wp_inr, IH.
  - apply IH; [done|]. by destruct Hlo.
Qed.
(** A read of the settings by either kind of helper, after other work. *)
Definition read_settings {R} (pre : Locals → sm Sy Empty_set R) (company_helper : bool) p lc : sm Sy Empty_set (DbError + list (nat * Vars)) :=
  _ ← pre lc;
  attempt (if company_helper then fetch_all_scoped p lc settings else request_scoped p lc (run_on settings)).
Lemma wp_read_settings {R} e (pre : Locals → sm Sy Empty_set R) (company_helper : bool) p lc s :
  match e with ECompany _ => False | _ => True end → scoped_work pre → pools_ok s → under e lc s →
  wp (read_settings pre company_helper p lc) (λ r _, ∀ rows, r = Ok (inr rows) → ∃ row, rows = [row] ∧ sees e row) s.
Proof.
  intros He Hpre Hok Hu. unfold read_settings. apply wp_bind.
  eapply wp_keeps; [by apply (scoped_work_kept pre Hpre)|]. intros [x|e'|] s' Hk; [|done..].
  pose proof (kept_under _ _ _ _ Hok Hk Hu) as Hu'.
  assert (∃ c p' v, request_conn lc = Some (c, ∅) ∧ held s' c (mkConn p' v) ∧ sees e (p', v)) as (c & p' & v & Hc & [Hh _] & Hs)
    by (by destruct e).
  assert ((if company_helper then fetch_all_scoped p lc settings else request_scoped p lc (run_on settings)) = run_on settings (c, ∅)) as ->.
  { unfold fetch_all_scoped, company_scoped, request_scoped. rewrite Hc. by destruct company_helper. }
  apply wp_attempt. unfold run_on. apply wp_bind. unfold wp at 1, sqlx_point. destruct (w_fault (world s')) as [[m|] w]; simpl; [done|].
  unfold sm_of, wp. simpl. rewrite Hh. simpl. intros rows [= <-]. exists (p', v). rewrite (left_id_L ∅ (∪)). done.
Qed.

(** C5: Every statement runs under its scope. In scopes nested in any way, on any pools, what a statement of
    either kind of helper reads, after any other work of the request and whichever pool it names, are the
    settings of the innermost scope that has a connection, on that scope's pool: the unit ids, the company
    and the acting unit of an organization's scope (reused or opened) with the attribution it was opened
    with, or a company's alone. A company bound for the task inside it changes nothing. *)
Theorem statements_fenced {R} (outer : list enclosure) e (companies : list (option uuid))
    (pre : Locals → sm Sy Empty_set R) (company_helper : bool) p s :
  match e with ECompany _ => False | _ => True end → scoped_work pre → pools_ok s →
  wp (enclosed (outer ++ e :: (ECompany <$> companies)) (read_settings pre company_helper p) no_locals)
    (λ r _, ∀ rows, r = Ok (inr rows) → ∃ row, rows = [row] ∧ sees e row) s.
Proof.
  intros He Hpre Hok. set (read := read_settings pre company_helper p).
  assert (Hin : ∀ lc s, pools_ok s → under e lc s → wp (enclosed (ECompany <$> companies) read lc)
    (λ r _, ∀ rows, r = Ok (inr rows) → ∃ row, rows = [row] ∧ sees e row) s).
  { clear -He Hpre. induction companies as [|co l IH]; intros lc s Hok Hu; simpl; [by apply wp_read_settings|].
    apply IH; [done|]. by destruct e. }
  assert (enclosed (outer ++ e :: (ECompany <$> companies)) read = enclosed outer (enclosed (e :: (ECompany <$> companies)) read)) as ->.
  { clear. induction outer as [|[] l IH]; simpl; [done|by rewrite IH..]. }
  apply wp_enclosed; [|done|by split]. clear -He Hin. intros lc s Hok Hlo. destruct e as [p' scope audit|p' company|]; [| |done]; simpl.
  - apply wp_joined, (wp_enters _ _ _ _ _ _ (org_scope_enters _ _ _ _ _ Hok Hlo)). intros lc' s' ? ? ?. by apply wp_inr, Hin.
  - apply wp_joined, (wp_enters _ _ _ _ _ _ (request_scope_enters _ _ _ _ Hok Hlo)). intros lc' s' ? ? ?. by apply wp_inr, Hin.
Qed.
End facts.
