(* ===== verification/OrgScopeFacts.v ===== *)
(** * What a session's scope is

    [resolve_org_scope] answers the union of the entitled subtrees and the root, in order and once each, and the
    company that governs the acting unit; an acting unit that is not in the tree is refused. With a small
    organization on which scopes run. *)
From Stdlib Require Import ZArith Lia.
From S2P Require Import Prelude Json Database RequestScope RequestScopeFacts.

(** ** The governing company *)
(** The unit itself where it is a company, else the company that governs its parent. *)
Inductive governed_by (units : list OrgUnit) : uuid → uuid → Prop :=
  | gb_company id u : find_unit units id = Some u → ou_kind u = "company" → governed_by units id (ou_id u)
  | gb_parent id u parent c : find_unit units id = Some u → ou_kind u ≠ "company" → ou_parent_id u = Some parent →
      governed_by units parent c → governed_by units id c.
(** Parents lead towards a root: a depth decreases on the way up, and is less than the number of units. *)
Definition org_tree (units : list OrgUnit) : Prop := ∃ depth : uuid → nat,
  ∀ id u, find_unit units id = Some u →
    (depth id < S (length units))%nat ∧ ∀ parent, ou_parent_id u = Some parent → (depth parent < depth id)%nat.
Lemma company_up_governs fuel units id c : company_up fuel units id = Some c → governed_by units id c.
Proof.
  revert id. induction fuel as [|fuel IH]; intros id; simpl; [done|]. destruct (find_unit units id) as [u|] eqn:Hu; [|done].
  case_bool_decide as Hk; [intros [= <-]; by apply gb_company|]. destruct (ou_parent_id u) as [parent|] eqn:Hp; simpl; [|done].
  intros H. by eapply gb_parent; [..|apply IH].
Qed.
Lemma governs_company_up depth units id c fuel :
  (∀ id u, find_unit units id = Some u → ∀ parent, ou_parent_id u = Some parent → (depth parent < depth id)%nat) →
  governed_by units id c → (depth id < fuel)%nat → company_up fuel units id = Some c.
Proof.
  intros Hd Hg. revert fuel. induction Hg as [id u Hu Hk|id u parent c Hu Hk Hp _ IH]; intros fuel Hlt;
    (destruct fuel as [|fuel]; [lia|]); simpl; rewrite Hu.
  - by rewrite bool_decide_eq_true_2.
  - rewrite bool_decide_eq_false_2 by done. rewrite Hp. simpl. apply IH. specialize (Hd _ _ Hu _ Hp). lia.
Qed.
Lemma nearest_company_spec units id c : org_tree units → nearest_company units id = Some c ↔ governed_by units id c.
Proof.
  intros [depth Hd]. split; [apply company_up_governs|]. intros Hg. apply (governs_company_up depth); [intros; by eapply Hd|done|].
  destruct Hg as [id u Hu _|id u parent c Hu _ _ _]; by eapply Hd.
Qed.

(** ** The ids of a scope *)
Lemma dedup_elem x l : x ∈ dedup l ↔ x ∈ l.
Proof.
  induction l as [|a [|b l] IH]; simpl in *; [done..|]. case_bool_decide as E; [subst|]; rewrite !elem_of_cons in *; tauto.
Qed.
Lemma dedup_sorted l : StronglySorted N.le l → StronglySorted N.lt (dedup l).
Proof.
  induction l as [|a [|b l] IH]; intros Hs; [constructor|by repeat constructor|]. apply StronglySorted_inv in Hs as [Hs Ha].
  change (dedup (a :: b :: l)) with (if bool_decide (a = b) then dedup (b :: l) else a :: dedup (b :: l)).
  case_bool_decide as E; [by apply IH|]. constructor; [by apply IH|].
  apply Forall_forall. intros x [->|Hx]%dedup_elem%elem_of_cons; apply Forall_cons in Ha as [Hab _]; [lia|].
  apply StronglySorted_inv in Hs as [_ Hb]. rewrite Forall_forall in Hb. specialize (Hb x Hx). lia.
Qed.
#[local] Instance N_le_total : Total N.le.
Proof. intros x y. lia. Qed.
#[local] Instance N_le_trans : Transitive N.le.
Proof. intros x y z. lia. Qed.
Lemma mapM_some_elem {A} (rows : list (option A)) ids : mapM id rows = Some ids → ∀ x, Some x ∈ rows ↔ x ∈ ids.
Proof.
  intros H%mapM_Some x. rewrite !list_elem_of_lookup. split; intros [i Hi].
  - destruct (Forall2_lookup_l _ _ _ _ _ H Hi) as (y & Hy & Hid). simpl in Hid. simplify_eq. eauto.
  - destruct (Forall2_lookup_r _ _ _ _ _ H Hi) as (y & Hy & Hid). simpl in Hid. simplify_eq. eauto.
Qed.

Section resolve.
Context {UT : UuidText} {D W : Type} {HW : World W} {OS : OrgSpine D}.
Implicit Types (s : St (Pools D) W) (p c : nat).

(** What a statement that only reads answers on a connection that is open. *)
Lemma wp_read {A} (q : nat → Vars → D → A) c p v (Φ : res DbError A → St (Pools D) W → Prop) s :
  pl_conns (tables s) !! c = Some (mkConn p v) →
  (∀ e s', tables s' = tables s → Φ (Err e) s') →
  (∀ s', tables s' = tables s → Φ (Ok (q p (∅ ∪ v) (pl_data (tables s)))) s') →
  wp (run_on (λ p v d, Some (q p v d, d)) (c, ∅)) Φ s.
Proof.
  intros Hc He Ho. unfold run_on. apply wp_bind. unfold wp at 1, sqlx_point.
  destruct (w_fault (world s)) as [[e|] w]; simpl; [by apply He|]. unfold sm_of, wp. simpl. rewrite Hc. simpl. apply Ho.
  simpl. by destruct (tables s).
Qed.

(** A scope is what the tree of database [d] makes of an acting unit and the other entitled ones. *)
Definition seen_units p (d : D) (acting : uuid) (entitled : list uuid) (u : uuid) : Prop :=
  u ∈ org_unit_subtree p d (acting :: entitled) ∨ org_unit_root p d = Some u.
Record resolved p (d : D) (acting : uuid) (entitled : list uuid) (scope : OrgScope) : Prop := {
  rv_ids : ∀ u, u ∈ scope_unit_ids scope ↔ seen_units p d acting entitled u;
  rv_sorted : StronglySorted N.lt (scope_unit_ids scope);
  rv_acting : acting_unit_id scope = acting;
  rv_inside : seen_units p d acting entitled acting;
  rv_company : legacy_company_id scope = nearest_company (org_units p d) acting;
}.
Lemma wp_resolve_scope sqlstate c p v acting entitled s :
  pl_conns (tables s) !! c = Some (mkConn p v) →
  wp (resolve_org_scope sqlstate c acting entitled) (λ r s', tables s' = tables s ∧
    match r with
    | Ok scope => resolved p (pl_data (tables s)) acting entitled scope
    | Err (UnknownActingUnit u) => u = acting ∧ ¬ seen_units p (pl_data (tables s)) acting entitled acting
    | Err MissingSpineHelpers => ∃ e, sqlstate e = Some "42883" ∨ sqlstate e = Some "42P01"
    | Err (ScopeDatabase _) => True
    | Panic => False
    end) s.
Proof.
  intros Hc. set (d := pl_data (tables s)). unfold resolve_org_scope. apply wp_bind, wp_map_err.
  eapply (wp_read (λ p _ d, union_rows _)); [done| |].
  { intros e s' E. split; [done|]. unfold scope_error. case_bool_decide as Hs; [by exists e|done]. }
  intros s1 E1. simpl. fold d. set (rows := union_rows _).
  assert (Hrows : ∀ o, o ∈ rows ↔ (∃ u, o = Some u ∧ u ∈ org_unit_subtree p d (acting :: entitled)) ∨ o = org_unit_root p d).
  { intros o. unfold rows, union_rows. rewrite elem_of_remove_dups, elem_of_app, list_elem_of_fmap, list_elem_of_singleton. done. }
  destruct (mapM id rows) as [ids|] eqn:Hids; [|by apply wp_err].
  assert (Hin : ∀ u, u ∈ ids ↔ seen_units p d acting entitled u).
  { intros u. rewrite <-(mapM_some_elem _ _ Hids), Hrows. unfold seen_units. naive_solver. }
  case_bool_decide as Hnil.
  { exfalso. apply mapM_Some, Forall2_length in Hids. rewrite Hnil in Hids. simpl in Hids.
    destruct rows; [|done]. apply (not_elem_of_nil (org_unit_root p d)), Hrows. by right. }
  case_bool_decide as Hact; simpl; [|apply wp_err; split; [done|]; split; [done|by rewrite <-Hin]].
  apply wp_bind, wp_map_err. eapply (wp_read (λ p _ d, nearest_company _ _)); [by rewrite E1| |].
  { intros e s' E. by rewrite E. }
  intros s2 E2. apply wp_ret. split; [by rewrite E2|]. split; simpl.
  - intros u. rewrite dedup_elem, merge_sort_Permutation. apply Hin.
  - apply dedup_sorted. apply StronglySorted_merge_sort; apply _.
  - done.
  - by apply Hin.
  - by rewrite E1.
Qed.

(** A session's scope is the organization's: on success its ids are those of the entitled units' subtrees and
    of the root, each once and in order, the acting unit is the one asked for and among them, and the legacy
    company is the nearest company on the way up from it, where there is one. An acting unit is refused
    only when it is in none of the subtrees and not the root. Nothing is written. *)
Theorem resolve_org_scope_spec sqlstate c p v acting entitled s :
  pl_conns (tables s) !! c = Some (mkConn p v) → org_tree (org_units p (pl_data (tables s))) →
  let d := pl_data (tables s) in
  wp (resolve_org_scope sqlstate c acting entitled) (λ r s', tables s' = tables s ∧
    match r with
    | Ok scope => (∀ u, u ∈ scope_unit_ids scope ↔ seen_units p d acting entitled u) ∧ StronglySorted N.lt (scope_unit_ids scope) ∧
        acting_unit_id scope = acting ∧ seen_units p d acting entitled acting ∧
        (∀ co, legacy_company_id scope = Some co ↔ governed_by (org_units p d) acting co)
    | Err (UnknownActingUnit u) => u = acting ∧ ¬ seen_units p d acting entitled acting
    | Err MissingSpineHelpers => ∃ e, sqlstate e = Some "42883" ∨ sqlstate e = Some "42P01"
    | Err (ScopeDatabase _) => True
    | Panic => False
    end) s.
Proof.
  intros Hc Htree d. eapply wp_mono; [by eapply wp_resolve_scope|]. intros r s' [E Hr]. split; [done|].
  destruct r as [scope|e|]; [|done..]. destruct Hr as [H1 H2 H3 H4 H5]. split_and!; [done..|].
  intros co. rewrite H5. by apply nearest_company_spec.
Qed.
End resolve.

(** ** An organization that runs

    A root, a company with a branch, and another company, in the database of every pool; nothing fails. *)
Module OrgExample.
#[local] Existing Instance Concrete.uuid_text.
#[export] Instance calm : World unit := {|
  w_fault w := (None, w); w_pg_now w := (0%Z, w); w_utc_now w := (0%Z, w); w_uuid w := (1%N, w); w_locked w := (false, w) |}.
Definition root : uuid := 1%N.
Definition company : uuid := 2%N.
Definition branch : uuid := 3%N.
Definition other : uuid := 4%N.
Definition tree : list OrgUnit :=
  [mkOrgUnit root None "root"; mkOrgUnit company (Some root) "company"; mkOrgUnit branch (Some company) "branch";
   mkOrgUnit other (Some root) "company"].
Fixpoint below (fuel : nat) (units : list OrgUnit) (r u : uuid) : bool :=
  bool_decide (u = r) ||
  match fuel with
  | O => false
  | S fuel => match find_unit units u ≫= ou_parent_id with Some parent => below fuel units r parent | None => false end
  end.
#[export] Instance spine : OrgSpine (list OrgUnit) := {|
  org_units _ d := d;
  org_unit_subtree _ d roots := List.filter (λ u, existsb (λ r, below (length d) d r u) roots) (ou_id <$> d);
  org_unit_root _ d := ou_id <$> List.find (λ u, bool_decide (ou_kind u = "root")) d |}.
Definition pools0 : St (Pools (list OrgUnit)) unit := mkSt (mkPools ∅ [] 0 tree) tt.
Lemma pools0_ok : pools_ok pools0.
Proof. split; simpl; [by intros c ?%elem_of_nil|constructor|by intros c [? ?]]. Qed.
Definition states (e : DbError) : option string := None.

Definition branch_scope : OrgScope := mkOrgScope [root; branch; other] branch (Some company).
Definition one_conn : St (Pools (list OrgUnit)) unit := mkSt (mkPools {[0%nat := mkConn 7 ∅]} [] 1 tree) tt.
Lemma tree_ok : org_tree tree.
Proof.
  exists (λ u, if bool_decide (u = branch) then 2 else if bool_decide (u = root) then 0 else 1)%nat. intros id u Hu.
  apply find_Some_elem in Hu as [Hin Hid%bool_decide_eq_true]. subst id.
  split; [|intros parent Hp]; unfold tree in Hin; rewrite !elem_of_cons in Hin;
    destruct Hin as [->|[->|[->|[->|[]%elem_of_nil]]]]; simpl in *; simplify_eq; vm_compute; lia.
Qed.
Lemma resolve_org_scope_spec_witness :
  (resolve_org_scope states 0 branch [other] one_conn).1 = Ok branch_scope ∧
  governed_by tree branch company ∧ ∀ u, u ∈ scope_unit_ids branch_scope ↔
    u ∈ org_unit_subtree 7 tree [branch; other] ∨ org_unit_root 7 tree = Some u.
Proof.
  assert ((resolve_org_scope states 0 branch [other] one_conn).1 = Ok branch_scope) as E by by vm_compute.
  split; [exact E|]. pose proof (resolve_org_scope_spec states 0 7 ∅ branch [other] one_conn (lookup_singleton_eq _ _) tree_ok) as H.
  unfold wp in H. rewrite E in H. destruct H as (_ & H1 & _ & _ & _ & H2). split; [by apply H2|exact H1].
Defined.

(** A request of the branch that nests a request of another company, and goes on. *)
Abbreviation Work := (Locals → sm (St (Pools (list OrgUnit)) unit) Empty_set unit).
Definition look : Locals → sm (St (Pools (list OrgUnit)) unit) Empty_set (DbError + list (nat * Vars)) :=
  λ lc, attempt (fetch_all_scoped 7 lc settings).
Definition nested : Locals → sm (St (Pools (list OrgUnit)) unit) Empty_set (DbError + (DbError + list (nat * Vars))) :=
  λ lc, attempt (with_request_scope 7 other look lc).
Lemma nested_work : scoped_work nested.
Proof. apply w_request, w_fetch_all. Qed.
Abbreviation outer := (λ lc, attempt (F:=Empty_set) (with_org_request_scope_internal 7 branch_scope None nested lc)).
Abbreviation fenced_work := (enclosed ([ERequest 7 other] ++ EOrg 7 branch_scope None :: (ECompany <$> [Some other]))
  (read_settings nested true 9) no_locals).
Definition one_row (r : res Empty_set (DbError + list (nat * Vars))) : bool := match r with Ok (inr [_]) => true | _ => false end.
Lemma statements_fenced_witness :
  ∃ v, (fenced_work pools0).1 = Ok (inr [(7%nat, v)]) ∧ carries branch_scope v.
Proof.
  assert (one_row (fenced_work pools0).1 = true) as E by by_vm.
  pose proof (statements_fenced [ERequest 7 other] (EOrg 7 branch_scope None) [Some other] nested true 9 pools0 I nested_work pools0_ok) as H.
  unfold wp in H. destruct (fenced_work pools0).1 as [[e|rows]|e|]; [done| |done..].
  destruct (H rows eq_refl) as ([p v] & -> & Hp & Hc & _). simpl in Hp. subst p. by exists v.
Defined.

(** The company bound for the task inside a request scope is not the one statements are fenced to. *)
Example company_scope_does_not_fence :
  match (with_request_scope 7 company (λ lc, look (in_company (Some other) lc)) no_locals pools0).1 with
  | Ok (inr [(_, v)]) => v !! "app.company_id" = Some (uuid_to_string company)
  | _ => False
  end.
Proof. by vm_compute. Qed.
(** A row of an unknown unit is refused. *)
Example unknown_unit_refused : (resolve_org_scope states 0 9%N [] one_conn).1 = Err (UnknownActingUnit 9%N).
Proof. by vm_compute. Qed.
End OrgExample.
