(* ===== verification/Session.v ===== *)
(** * Sessions

    [backbone-auth/src/org.rs], [company.rs], [audience.rs] and [backbone-tenant/src/axum_router.rs]: tokens that
    name a user's unit or company and the tenants they were minted for, the guards that admit a request with
    one and run the rest of it in its scope, and the router in front of them, which gives the request its
    tenant and the tenant's database. The signature of a token (with its expiry) is a parameter that answers the
    claims it seals; so are the request's headers, as [HeaderMap::get] and [to_str] give them, and the text
    of an error's JSON. Tracing is left out. *)
From Stdlib Require Import ZArith Lia Ascii.
From S2P Require Import Prelude RustStr RustChar Json WorkflowExpr Grants Database RequestScope Tenant.

Local Open Scope Z_scope.

(** ** [audience.rs] *)
Definition admits (request_tenant : option string) (token_aud : list string) (accept_unbound : bool) : bool :=
  match request_tenant with
  | Some tenant => if bool_decide (token_aud = []) then accept_unbound else existsb (λ aud, bool_decide (aud = tenant)) token_aud
  | None => bool_decide (token_aud = [])
  end.

(** ** Claims, as [serde] reads them from a JSON object; [None] is an error *)
Section claims.
Context {SN : SerdeNumber} {UT : UuidText}.
Variable as_usize : Number → option Z.
Definition strings_of (l : list Value) : option (list string) := mapM as_str l.
(** [#[serde(default, deserialize_with)]]: a string or an array of strings *)
Definition deserialize_audience (v : option Value) : option (list string) :=
  match v with
  | None | Some VNull => Some []
  | Some (VString aud) => Some [aud]
  | Some (VArray auds) => strings_of auds
  | Some _ => None
  end.
Definition uuid_claim (v : option Value) : option (option uuid) :=
  match v with
  | None | Some VNull => Some None
  | Some (VString s) => Some <$> parse_uuid s
  | Some _ => None
  end.
Definition uuids_claim (v : option Value) : option (list uuid) :=
  match v with
  | None => Some []
  | Some (VArray l) => strings_of l ≫= mapM parse_uuid
  | Some _ => None
  end.
Definition string_claim (v : option Value) : option (option string) :=
  match v with
  | None | Some VNull => Some None
  | Some (VString s) => Some (Some s)
  | Some _ => None
  end.
Definition exp_claim (v : option Value) : option Z := match v with Some (VNumber n) => as_usize n | _ => None end.

Record OrgClaims := mkOrgClaims {
  oc_sub : string; oc_exp : Z; oc_org_unit_id : option uuid; oc_entitled_units : list uuid;
  oc_company_id : option uuid; oc_typ : option string; oc_aud : list string }.
Definition org_claims (claims : Value) : option OrgClaims :=
  let get k := value_get k claims in
  sub ← get "sub" ≫= as_str; exp ← exp_claim (get "exp"); unit ← uuid_claim (get "org_unit_id");
  entitled ← uuids_claim (get "entitled_units"); company ← uuid_claim (get "company_id");
  typ ← string_claim (get "typ"); aud ← deserialize_audience (get "aud");
  Some (mkOrgClaims sub exp unit entitled company typ aud).
Record CompanyClaims := mkCompanyClaims {
  cc_sub : string; cc_exp : Z; cc_company_id : option uuid; cc_branch_id : option uuid; cc_typ : option string; cc_aud : list string }.
Definition company_claims (claims : Value) : option CompanyClaims :=
  let get k := value_get k claims in
  sub ← get "sub" ≫= as_str; exp ← exp_claim (get "exp"); company ← uuid_claim (get "company_id");
  branch ← uuid_claim (get "branch_id"); typ ← string_claim (get "typ"); aud ← deserialize_audience (get "aud");
  Some (mkCompanyClaims sub exp company branch typ aud).
End claims.

(** ** Requests and responses *)
(** The extensions these layers put in and look for, beside those of the layers of [resolver.rs]. *)
Record RequestExtensions (R : Type) := mkExtensions {
  ext_tenant : option string; ext_runtime : option R; ext_pool : option nat; ext_session : Extensions }.
Arguments mkExtensions {_} _ _ _ _.
Arguments ext_tenant {_} _.
Arguments ext_runtime {_} _.
Arguments ext_pool {_} _.
Arguments ext_session {_} _.
Record HttpRequest (R : Type) := mkHttpRequest {
  hq_method : string; hq_path : string; hq_header : string → option string; hq_ext : RequestExtensions R }.
Arguments mkHttpRequest {_} _ _ _ _.
Arguments hq_method {_} _.
Arguments hq_path {_} _.
Arguments hq_header {_} _ _.
Arguments hq_ext {_} _.
Record HttpResponse := mkHttpResponse { hs_status : Z; hs_headers : gmap string string; hs_body : string }.
Definition with_ext {R} (rq : HttpRequest R) (e : RequestExtensions R) : HttpRequest R := mkHttpRequest (hq_method rq) (hq_path rq) (hq_header rq) e.
Definition put_session {R} (x : Extensions) (e : RequestExtensions R) : RequestExtensions R :=
  mkExtensions (ext_tenant e) (ext_runtime e) (ext_pool e) x.
Definition put_org {R} (ctx : OrgContext) (e : RequestExtensions R) : RequestExtensions R :=
  let x := ext_session e in put_session (mkExt (ex_waiver x) (ex_auth x) (ex_grants x) (Some ctx) (ex_company x)) e.
Definition put_company {R} (ctx : CompanyContext) (e : RequestExtensions R) : RequestExtensions R :=
  let x := ext_session e in put_session (mkExt (ex_waiver x) (ex_auth x) (ex_grants x) (ex_org x) (Some ctx)) e.
Definition tenant_audience {R} (e : RequestExtensions R) : option string := ext_tenant e.

Record AudienceBinding (R : Type) := mkBinding { bd_source : RequestExtensions R → option string; bd_accept_unbound : bool }.
Arguments mkBinding {_} _ _.
Arguments bd_source {_} _.
Arguments bd_accept_unbound {_} _.
Definition binding_new {R} (source : RequestExtensions R → option string) : AudienceBinding R := mkBinding source false.
Definition binding_admits {R} (b : AudienceBinding R) (e : RequestExtensions R) (aud : list string) : bool :=
  admits (bd_source b e) aud (bd_accept_unbound b).

Definition TOKEN_TYPE_ACCESS : string := "access".
Definition TOKEN_TYPE_REFRESH : string := "refresh".
(** A verifier: the key, as what it makes of a token at an instant, and its tenant binding. *)
Record Verifier {SN : SerdeNumber} (R : Type) := mkVerifier {
  vf_decode : instant → string → option Value; vf_audience : option (AudienceBinding R) }.
Arguments mkVerifier {_ _} _ _.
Arguments vf_decode {_ _} _ _ _.
Arguments vf_audience {_ _} _.

Section guards.
Context {SN : SerdeNumber} {UT : UuidText} {D W R : Type} {HW : World W} {OS : OrgSpine D}.
Variable as_usize : Number → option Z.
Variable sqlstate : DbError → option string.
(** [json!({ "error": error, "message": message })] *)
Variable error_json : string → string → string.
#[local] Abbreviation Sy := (St (Pools D) W).
#[local] Abbreviation M := (sm Sy Empty_set).
Definition Next : Type := HttpRequest R → Locals → M HttpResponse.
Implicit Types (vf : Verifier R) (rq : HttpRequest R) (lc : Locals) (next : Next).

Definition error_response (status : Z) (error message : string) : HttpResponse :=
  mkHttpResponse status {["content-type" := "application/json"]} (error_json error message).
Definition unauthorized (message : string) : HttpResponse := error_response 401 "unauthorized" message.
Definition forbidden (message : string) : HttpResponse := error_response 403 "forbidden" message.
Definition internal_error (message : string) : HttpResponse := error_response 500 "internal_error" message.

(** ** Verifying *)
Definition bind_audience vf (source : RequestExtensions R → option string) : Verifier R := mkVerifier (vf_decode vf) (Some (binding_new source)).
Definition accept_unbound_tokens vf (accept : bool) : Verifier R :=
  mkVerifier (vf_decode vf) ((λ b, mkBinding (bd_source b) accept) <$> vf_audience vf).
Definition is_access (typ : option string) : bool := match typ with Some t => bool_decide (t = TOKEN_TYPE_ACCESS) | None => true end.
Definition verify_claims vf (now : instant) (token : string) : option (OrgContext * list string) :=
  c ← vf_decode vf now token ≫= org_claims as_usize;
  if negb (is_access (oc_typ c)) then None
  else unit ← oc_org_unit_id c; Some (mkOrg unit (oc_entitled_units c) (oc_company_id c) (oc_sub c), oc_aud c).
Definition verify vf now token : option OrgContext := fst <$> verify_claims vf now token.
Definition verify_for_audience vf now token (tenant : option string) : option OrgContext :=
  '(ctx, aud) ← verify_claims vf now token; if admits tenant aud false then Some ctx else None.
Definition verify_company_claims vf (now : instant) (token : string) : option (CompanyContext * list string) :=
  c ← vf_decode vf now token ≫= company_claims as_usize;
  if negb (is_access (cc_typ c)) then None
  else company ← cc_company_id c; Some (mkCompany company (cc_branch_id c) (cc_sub c), cc_aud c).
Definition verify_company vf now token : option CompanyContext := fst <$> verify_company_claims vf now token.
Definition verify_company_for_audience vf now token (tenant : option string) : option CompanyContext :=
  '(ctx, aud) ← verify_company_claims vf now token; if admits tenant aud false then Some ctx else None.
Definition refused vf (e : RequestExtensions R) (aud : list string) : bool :=
  match vf_audience vf with Some b => negb (binding_admits b e aud) | None => false end.

(** ** The issuer *)
Record Issuer := mkIssuer { is_encode : Value → DbError + string; is_audience : option string }.
Definition for_audience (i : Issuer) (tenant : string) : Issuer := mkIssuer (is_encode i) (Some tenant).
Variable from_usize : Z → Number.
(** [IssuedSessionClaims], written by [serde]; times are in seconds. *)
Definition issued_claims (i : Issuer) (now : Z) (user_id : string) (acting_unit : uuid) (entitled_units : list uuid)
    (legacy_company : option uuid) (ttl : Z) (typ : string) : Value :=
  let uuid_value u := VString (uuid_to_string u) in
  let m := map_insert "entitled_units" (VArray (uuid_value <$> entitled_units)) (map_insert "org_unit_id" (uuid_value acting_unit)
    (map_insert "typ" (VString typ) (map_insert "iat" (VNumber (from_usize now))
      (map_insert "exp" (VNumber (from_usize (u64_saturating_add now ttl))) (map_insert "sub" (VString user_id) []))))) in
  let m := match legacy_company with Some c => map_insert "company_id" (uuid_value c) m | None => m end in
  VObject (match is_audience i with Some t => map_insert "aud" (VString t) m | None => m end).
Definition issue (i : Issuer) (now : Z) user_id acting_unit entitled_units legacy_company ttl typ : DbError + string :=
  is_encode i (issued_claims i now user_id acting_unit entitled_units legacy_company ttl typ).
Definition issue_access (i : Issuer) now user_id acting_unit entitled_units legacy_company ttl :=
  issue i now user_id acting_unit entitled_units legacy_company ttl TOKEN_TYPE_ACCESS.
Definition issue_refresh (i : Issuer) now user_id acting_unit entitled_units legacy_company ttl :=
  issue i now user_id acting_unit entitled_units legacy_company ttl TOKEN_TYPE_REFRESH.

(** ** What a request is attributed to *)
Fixpoint str_filter (p : ascii → bool) (s : string) : string :=
  match s with EmptyString => EmptyString | String c s => if p c then String c (str_filter p s) else str_filter p s end.
Definition normalize_fact (raw : string) (max : nat) : string := String.substring 0 max (str_filter is_ascii_graphic raw).
Definition MAX_CORRELATION_ID_LEN : nat := 128.
Definition MAX_CLIENT_IP_LEN : nat := 64.
Definition MAX_USER_AGENT_LEN : nat := 256.
Definition MAX_RESOURCE_PATH_LEN : nat := 256.
Definition CORRELATION_ID_HEADER : string := "x-correlation-id".
Definition correlation_id_of rq : M string :=
  match (λ raw, normalize_fact raw MAX_CORRELATION_ID_LEN) <$> hq_header rq CORRELATION_ID_HEADER with
  | Some id => if bool_decide (id = "") then u ← fresh_uuid; mret (uuid_to_string u) else mret id
  | None => u ← fresh_uuid; mret (uuid_to_string u)
  end.
(** The first entry of a list with commas. *)
Definition first_entry (s : string) : string := match split_once "," s with Some (a, _) => a | None => s end.
Definition client_ip_of rq : string :=
  match hq_header rq "x-forwarded-for" with
  | Some v => normalize_fact (trim (first_entry v)) MAX_CLIENT_IP_LEN
  | None => ""
  end.
Definition audit_context_of (ctx : OrgContext) rq : M RequestAuditContext :=
  id ← correlation_id_of rq;
  mret (mkAuditContext (org_user_id ctx) id (client_ip_of rq)
    (match hq_header rq "user-agent" with Some raw => normalize_fact raw MAX_USER_AGENT_LEN | None => "" end)
    (hq_method rq) (normalize_fact (hq_path rq) MAX_RESOURCE_PATH_LEN)).

(** ** The guards *)
Definition bearer_token rq : option string :=
  raw ← hq_header rq "authorization";
  match strip_prefix_str "Bearer " raw with Some t => Some t | None => strip_prefix_str "bearer " raw end.
(** The scope, on a connection of its own for the time it takes. *)
Definition resolve_on (pool : nat) (acting : uuid) (entitled : list uuid) : M (HttpResponse + OrgScope) :=
  conn ← attempt (acquire pool);
  match conn with
  | inl _ => mret (inl (internal_error "could not reach the tenant database"))
  | inr c =>
      r ← attempt (finally (resolve_org_scope sqlstate c acting entitled) (drop_conn c));
      mret match r with
           | inr scope => inr scope
           | inl (UnknownActingUnit u) =>
               inl (forbidden ("org unit " +:+ uuid_to_string u +:+ " is not in this tenant's organization"))
           | inl MissingSpineHelpers => inl (internal_error "the org spine is not migrated in this tenant's database")
           | inl (ScopeDatabase _) => inl (internal_error "could not resolve the org scope")
           end
  end.
Definition with_header (name value : string) (r : HttpResponse) : HttpResponse :=
  mkHttpResponse (hs_status r) (<[name := value]> (hs_headers r)) (hs_body r).
Definition org_auth vf rq next lc : M HttpResponse :=
  match bearer_token rq with
  | None => mret (unauthorized "missing bearer token")
  | Some token =>
      now ← utc_now;
      match verify_claims vf now token with
      | None => mret (unauthorized "invalid token or missing org_unit_id claim")
      | Some (ctx, aud) =>
          if refused vf (hq_ext rq) aud then mret (unauthorized "token was not issued for this tenant")
          else
            match ext_pool (hq_ext rq) with
            | None => mret (internal_error "no tenant database on the request — mount the tenant router outside org_auth")
            | Some pool =>
                scope ← resolve_on pool (Grants.acting_unit_id ctx) (entitled_units ctx);
                match scope with
                | inl resp => mret resp
                | inr scope =>
                    audit ← audit_context_of ctx rq;
                    r ← attempt (with_org_request_scope_and_audit pool scope audit
                          (next (with_ext rq (put_org ctx (hq_ext rq)))) lc);
                    mret match r with
                         | inr resp => with_header CORRELATION_ID_HEADER (ac_correlation_id audit) resp
                         | inl _ => internal_error "could not establish the request org scope"
                         end
                end
            end
      end
  end.
Definition company_auth vf rq next lc : M HttpResponse :=
  match bearer_token rq with
  | None => mret (unauthorized "missing bearer token")
  | Some token =>
      now ← utc_now;
      match verify_company_claims vf now token with
      | None => mret (unauthorized "invalid token or missing company_id claim")
      | Some (ctx, aud) =>
          if refused vf (hq_ext rq) aud then mret (unauthorized "token was not issued for this tenant")
          else
            let rq' := with_ext rq (put_company ctx (hq_ext rq)) in
            match ext_pool (hq_ext rq) with
            | Some pool =>
                r ← attempt (with_request_scope pool (Grants.company_id ctx) (next rq') lc);
                mret match r with inr resp => resp | inl _ => internal_error "could not establish the request database scope" end
            | None => next rq' (in_company (Some (Grants.company_id ctx)) lc)
            end
      end
  end.
(** [FromRequestParts]: what a guarded handler takes *)
Definition org_context_from (e : RequestExtensions R) : HttpResponse + OrgContext :=
  match ex_org (ext_session e) with Some ctx => inr ctx | None => inl (unauthorized "unauthenticated") end.
Definition company_context_from (e : RequestExtensions R) : HttpResponse + CompanyContext :=
  match ex_company (ext_session e) with Some ctx => inr ctx | None => inl (unauthorized "unauthenticated") end.
End guards.

(** ** The router in front *)
Section router.
Context {HI : HashIter} {D W R E : Type} {HW : World W}.
Variable overflow_checks : bool.
Variable max_tenants : Z.
Variable build : string → W → (E + R) * W.
(** [ProvidesDatabase] *)
Variable database : R → option nat.
Variable error_json : string → string → string.
Record Server := mkServer { sv_registry : Registry R; sv_pools : Pools D }.
#[local] Abbreviation Sy := (St Server W).
#[local] Abbreviation M := (sm Sy Empty_set).
Definition in_registry {A F} (v : sm (St (Registry R) W) F A) : sm Sy F A :=
  sm_zoom (λ s, mkSt (sv_registry (tables s)) (world s))
    (λ t s, mkSt (mkServer (tables t) (sv_pools (tables s))) (world t)) v.
Definition in_pools {A F} (v : sm (St (Pools D) W) F A) : sm Sy F A :=
  sm_zoom (λ s, mkSt (sv_pools (tables s)) (world s))
    (λ t s, mkSt (mkServer (sv_registry (tables s)) (tables t)) (world t)) v.

Definition TENANT_OVERRIDE_HEADER : string := "x-tenant-slug".
Definition resolve_error_text (e : ResolveError) : string :=
  match e with
  | ApexHost host => "host '" +:+ host +:+ "' is the product domain itself; no tenant subdomain present"
  | UnknownHost host => "host '" +:+ host +:+ "' matches no tenant: not a subdomain of the product domain and not in the custom-domain map"
  | BadSlug slug reason => "subdomain '" +:+ slug +:+ "' is not a valid tenant slug: " +:+ reason
  | OverrideDisabled => "a tenant header override was supplied but header overrides are disabled on this resolver"
  end.
(** The request as the inner layers see it: with the runtime, its pool, and the tenant. *)
Definition routed (rq : HttpRequest R) (tenant : string) (runtime : R) : HttpRequest R :=
  let e := hq_ext rq in
  with_ext rq (mkExtensions (Some tenant) (Some runtime)
    (match database runtime with Some pool => Some pool | None => ext_pool e end) (ext_session e)).
Definition tenant_route (resolver : HostResolver W) (rq : HttpRequest R) (next : Next) (lc : Locals) : M HttpResponse :=
  let host := default "" (hq_header rq "host") in
  let override_header := hq_header rq TENANT_OVERRIDE_HEADER in
  tenant ← attempt (in_registry (resolve resolver host override_header));
  match tenant with
  | inl OverrideDisabled => mret (error_response error_json 403 "tenant_not_routed" (resolve_error_text OverrideDisabled))
  | inl e => mret (error_response error_json 404 "unknown_tenant" (resolve_error_text e))
  | inr tenant =>
      runtime ← attempt (in_registry (get_or_build overflow_checks max_tenants build tenant));
      match runtime with
      | inl _ => mret (error_response error_json 503 "tenant_unavailable" "the tenant's database is unavailable or not yet provisioned")
      | inr runtime => in_pools (next (routed rq tenant runtime) lc)
      end
  end.
End router.
