(* ===== verification/SessionFacts.v ===== *)
(** * What sessions guarantee

    A token reads back as the session it was minted for, and only as an access token; and a handler behind the
    router and the guard runs only for a tenant the host names, on the runtime built for it, with a token
    minted for it, in a scope that its organization's tree resolves. What a layer consults of what is inside
    it is stated over two handlers: where they agree on the calls the layer admits, it answers the same. *)
From Stdlib Require Import ZArith Lia Ascii.
From S2P Require Import Prelude RustStr RustChar Json WorkflowExpr Database Grants Tenant TenantFacts RequestScope RequestScopeFacts OrgScopeFacts Session.

Local Open Scope Z_scope.

(** ** Tokens *)
Section tokens.
Context {SN : SerdeNumber} {UT : UuidText} {R : Type}.
Variables (as_usize : Number → option Z) (from_usize : Z → Number).
Hypothesis usize_back : ∀ n, 0 ≤ n ≤ u64_max → as_usize (from_usize n) = Some n.
(** An id is read back from its text. *)
Definition id_back (u : uuid) : Prop := parse_uuid (uuid_to_string u) = Some u.

Lemma uuids_back (l : list uuid) : Forall id_back l → strings_of ((λ u, VString (uuid_to_string u)) <$> l) ≫= mapM parse_uuid = Some l.
Proof.
  intros Hl. assert (strings_of ((λ u, VString (uuid_to_string u)) <$> l) = Some (uuid_to_string <$> l)) as ->.
  { apply mapM_Some, Forall2_fmap, Forall_Forall2_diag, Forall_true. done. }
  by apply mapM_Some, Forall2_fmap_l, Forall_Forall2_diag.
Qed.
(** The claims the issuer seals are those the guard reads. *)
Lemma issued_claims_read (i : Issuer) now user unit entitled company ttl typ :
  0 ≤ now → 0 ≤ ttl → Forall id_back (unit :: entitled ++ option_list company) →
  org_claims as_usize (issued_claims from_usize i now user unit entitled company ttl typ) =
  Some (mkOrgClaims user (u64_saturating_add now ttl) (Some unit) entitled company (Some typ) (from_option (λ t, [t]) [] (is_audience i))).
Proof.
  intros Hn Ht [Hu [He Hc]%Forall_app]%Forall_cons. unfold org_claims, issued_claims.
  destruct company as [co|], (is_audience i) as [aud|];
    rewrite ?value_get_object; repeat (first [rewrite map_get_insert | rewrite map_get_insert_ne by done]); simpl;
    rewrite usize_back by (unfold u64_saturating_add, u64_max; lia); simpl; rewrite Hu; simpl;
    rewrite uuids_back by done; simpl; try (apply Forall_cons in Hc as [Hc _]; rewrite Hc); done.
Qed.

(** The verifier's decoder has the issuer's key: what was signed is read back until a minute after its expiry, and not
    later. *)
Definition reads_back (i : Issuer) (vf : Verifier R) (claims : Value) : Prop := ∀ token n later,
  is_encode i claims = inr token → value_get "exp" claims = Some (VNumber (from_usize n)) →
  vf_decode vf later token = if n <? later / 1000000000 - 60 then None else Some claims.

(** C35: A session token says what was sealed into it: under a verifier with the issuer's key, an access token
    verifies, until a minute after its expiry and not later, to the unit, the entitled units, the company and
    the user it was minted with, for the tenant it was minted for and no other, or only for surfaces that
    serve none when it was minted without one; and a refresh token never verifies. *)
Theorem issued_token_verifies (i : Issuer) (vf : Verifier R) now later user unit entitled company ttl token tenant :
  0 ≤ now → 0 ≤ ttl → Forall id_back (unit :: entitled ++ option_list company) →
  (∀ typ, reads_back i vf (issued_claims from_usize i now user unit entitled company ttl typ)) →
  let live := later / 1000000000 - 60 ≤ u64_saturating_add now ttl in
  (issue_access from_usize i now user unit entitled company ttl = inr token →
   (∀ ctx, verify as_usize vf later token = Some ctx ↔ live ∧ ctx = mkOrg unit entitled company user) ∧
   (is_Some (verify_for_audience as_usize vf later token tenant) ↔ live ∧ is_audience i = tenant)) ∧
  (issue_refresh from_usize i now user unit entitled company ttl = inr token → verify as_usize vf later token = None).
Proof.
  intros Hn Ht Hids Hd live. unfold issue_access, issue_refresh, issue, verify_for_audience, verify, verify_claims.
  assert (Hexp : ∀ typ, value_get "exp" (issued_claims from_usize i now user unit entitled company ttl typ) =
    Some (VNumber (from_usize (u64_saturating_add now ttl)))).
  { intros typ. unfold issued_claims. rewrite value_get_object. destruct company, (is_audience i);
      repeat (first [rewrite map_get_insert | rewrite map_get_insert_ne by done]); done. }
  split; intros Ht'; rewrite (Hd _ _ _ later Ht' (Hexp _)); destruct (Z.ltb_spec (u64_saturating_add now ttl) (later / 1000000000 - 60));
    simpl; try rewrite issued_claims_read by done; simpl; [| |done..].
  - unfold live. split; [|split; [by intros [? ?]|lia]]. intros ctx. split; [done|lia].
  - split; [intros ctx; unfold live; split; [intros [= <-]; by split|by intros [_ ->]]|].
    unfold admits. destruct (is_audience i) as [aud|], tenant as [t|]; simpl.
    + case_bool_decide as E; simpl; [subst; split; [done|by intros _; eexists]|]. split; [by intros [? ?]|by intros [_ [= ->]]].
    + split; [by intros [? ?]|by intros [_ ?]].
    + split; [by intros [? ?]|by intros [_ ?]].
    + split; [done|by intros _; eexists].
Qed.
End tokens.

(** ** The guards *)
Section guards.
Context {SN : SerdeNumber} {UT : UuidText} {D W R : Type} {HW : World W} {OS : OrgSpine D}.
Variables (as_usize : Number → option Z) (sqlstate : DbError → option string) (error_json : string → string → string).
#[local] Abbreviation Sy := (St (Pools D) W).
Implicit Types (s : Sy) (vf : Verifier R) (rq : HttpRequest R) (lc : Locals) (next : Next (D:=D) (W:=W) (R:=R)).

(** What is outside the pools moved on, and perhaps a connection was taken and given back. *)
Definition idled s s' : Prop := pl_data (tables s') = pl_data (tables s) ∧ kept s s'.
Lemma same_idled s s' : tables s' = tables s → idled s s'.
Proof. intros E. split; [by rewrite E|by apply same_kept]. Qed.
Lemma idled_trans s1 s2 s3 : idled s1 s2 → idled s2 s3 → idled s1 s3.
Proof. intros [E1 H1] [E2 H2]. split; [congruence|by etrans]. Qed.

Lemma wp_resolve_on pool acting entitled s :
  pools_ok s →
  wp (resolve_on sqlstate error_json pool acting entitled) (λ r s', idled s s' ∧
    match r with
    | Ok (inr scope) => resolved pool (pl_data (tables s)) acting entitled scope
    | Ok (inl resp) => hs_status resp = 403 ∧ ¬ seen_units pool (pl_data (tables s)) acting entitled acting ∨ hs_status resp = 500
    | _ => False
    end) s.
Proof.
  intros Hok. unfold resolve_on. apply wp_bind, wp_attempt, wp_acquire; [done| |].
  - intros e s' E. apply wp_ret. split; [by apply same_idled|]. by right.
  - intros c s1 [Hok1 (v & Hh & Hcl) Hoth Hd]. apply wp_bind, wp_attempt. unfold wp, finally.
    pose proof (wp_resolve_scope sqlstate c pool v acting entitled s1 (proj1 Hh)) as Hr. unfold wp in Hr.
    destruct (resolve_org_scope sqlstate c acting entitled s1) as [r s2]. simpl in Hr. destruct Hr as [E Hr].
    assert (own c [] s2) as Ho.
    { pose proof (same_kept _ _ E) as Hk. destruct (Hk Hok1) as [Hok2 Hh2]. split; [done|]. exists (mkConn pool v). split; [by apply Hh2|].
      by apply clean_but_nil. }
    destruct (drop_gives_back c s2 Ho) as [Hok3 Hoth3]. assert (idled s (drop_conn (E:=OrgScopeError) c s2).2) as Hi.
    { split.
      - unfold drop_conn, upd_pools. simpl. case_bool_decide; simpl; by rewrite E.
      - intros _. split; [done|]. intros c' cn [? ?]%Hoth. apply Hoth3; [done|]. by apply (same_kept _ _ E). }
    rewrite Hd in Hr. destruct r as [scope|[u| |e]|]; simpl; [by split| |by split; [|right]..|done].
    split; [done|]. destruct Hr as [_ Hr]. by left.
Qed.

Lemma wp_audit_context ctx rq s :
  wp (audit_context_of ctx rq) (λ r s', tables s' = tables s ∧ ∃ a, r = Ok a ∧ ac_actor a = org_user_id ctx) s.
Proof.
  assert (∀ s', tables (fresh_uuid (E:=Empty_set) s').2 = tables s') as Hf by (intros s'; symmetry; apply keeps_fresh_uuid).
  assert (∃ id s', correlation_id_of rq s = (Ok id, s') ∧ tables s' = tables s) as (id & s' & Hc & E).
  { unfold correlation_id_of. assert (∃ id s', (u ← fresh_uuid; mret (uuid_to_string u) : sm Sy Empty_set string) s = (Ok id, s')
      ∧ tables s' = tables s) as Hu.
    { unfold mbind, sm_bind. specialize (Hf s). unfold fresh_uuid in *. destruct (new_v4 s) as [u s']. simpl in *. eauto. }
    destruct (hq_header rq CORRELATION_ID_HEADER) as [raw|]; simpl; [|done]. case_bool_decide; [done|]. by eexists _, s. }
  unfold audit_context_of, wp, mbind, sm_bind. rewrite Hc. simpl. split; [done|]. by eexists.
Qed.

(** A call the guard admits: the token of the request, for its tenant where the guard is bound, names a unit that the
    tree of the request's database holds, and the handler runs in the scope that this tree resolves, on this
    database, attributed to the token's user. *)
Definition org_admitted vf rq (d : D) rq' lc' s' : Prop :=
  ∃ token now ctx aud pool scope audit,
    bearer_token rq = Some token ∧ verify_claims as_usize vf now token = Some (ctx, aud) ∧ refused vf (hq_ext rq) aud = false ∧
    ext_pool (hq_ext rq) = Some pool ∧ rq' = with_ext rq (put_org ctx (hq_ext rq)) ∧
    resolved pool d (Grants.acting_unit_id ctx) (entitled_units ctx) scope ∧ pl_data (tables s') = d ∧
    under (EOrg pool scope (Some audit)) lc' s' ∧ ac_actor audit = org_user_id ctx.
Lemma org_auth_ext vf rq next1 next2 lc s :
  pools_ok s → locals_ok lc s →
  (∀ rq' lc' s', org_admitted vf rq (pl_data (tables s)) rq' lc' s' → next1 rq' lc' s' = next2 rq' lc' s') →
  org_auth as_usize sqlstate error_json vf rq next1 lc s = org_auth as_usize sqlstate error_json vf rq next2 lc s.
Proof.
  intros Hok Hlo Hn. unfold org_auth. destruct (bearer_token rq) as [token|] eqn:Hb; [|done].
  apply (sm_bind_ext _ _ _ _ (λ _ s', idled s s')); [done| |].
  { intros now s' H. apply same_idled. pose proof (keeps_utc_now (E:=Empty_set) s) as E. by rewrite H in E. }
  intros now s1 Hi1. destruct (verify_claims as_usize vf now token) as [[ctx aud]|] eqn:Hv; [|done].
  destruct (refused vf (hq_ext rq) aud) eqn:Hr; [done|]. destruct (ext_pool (hq_ext rq)) as [pool|] eqn:Hp; [|done].
  assert (pools_ok s1) as Hok1 by (by apply Hi1).
  apply (sm_bind_ext _ _ _ _ (λ r s', idled s s' ∧ ∀ scope, r = inr scope →
    resolved pool (pl_data (tables s)) (Grants.acting_unit_id ctx) (entitled_units ctx) scope)); [done| |].
  { apply wpo_of_wp. eapply wp_mono; [by apply wp_resolve_on|]. intros [[resp|scope]|e|] s2 [Hi2 Hs]; try done.
    - split; [by eapply idled_trans|done].
    - split; [by eapply idled_trans|]. intros scope' [= <-]. by rewrite <-(proj1 Hi1). }
  intros [resp|scope] s2 [Hi2 Hs]; [done|]. specialize (Hs scope eq_refl).
  apply (sm_bind_ext _ _ _ _ (λ a s', idled s s' ∧ ac_actor a = org_user_id ctx)); [done| |].
  { apply wpo_of_wp. eapply wp_mono; [apply wp_audit_context|]. intros r s3 [E (a & -> & Ha)].
    split; [|done]. eapply idled_trans; [done|by apply same_idled]. }
  intros audit s3 [Hi3 Ha]. apply (sm_bind_ext _ _ _ _ (λ _ _, True)); [|apply wpo_true|done].
  assert (pools_ok s3) as Hok3 by (by apply Hi3).
  assert (locals_ok lc s3) as Hlo3 by (eapply kept_locals; [|apply Hi3|]; done).
  unfold attempt, with_org_request_scope_and_audit. rewrite (enters_ext _ _ _ _ (next1 (with_ext rq (put_org ctx (hq_ext rq))))
    (next2 (with_ext rq (put_org ctx (hq_ext rq)))) (org_scope_enters pool scope (Some audit) lc s3 Hok3 Hlo3)); [done|].
  intros lc' s' _ _ Hu Hd. apply Hn. exists token, now, ctx, aud, pool, scope, audit. split_and!; try done.
  by rewrite Hd, (proj1 Hi3).
Qed.

(** The same for the company's guard: with a pool on the request, in a scope of its own on it; without one, under the
    company alone. *)
Definition company_admitted vf rq lc rq' lc' s' : Prop :=
  ∃ token now ctx aud,
    bearer_token rq = Some token ∧ verify_company_claims as_usize vf now token = Some (ctx, aud) ∧
    refused vf (hq_ext rq) aud = false ∧ rq' = with_ext rq (put_company ctx (hq_ext rq)) ∧
    match ext_pool (hq_ext rq) with
    | Some pool => under (ERequest pool (Grants.company_id ctx)) lc' s'
    | None => lc' = in_company (Some (Grants.company_id ctx)) lc
    end.
Lemma company_auth_ext vf rq next1 next2 lc s :
  pools_ok s → locals_ok lc s →
  (∀ rq' lc' s', company_admitted vf rq lc rq' lc' s' → next1 rq' lc' s' = next2 rq' lc' s') →
  company_auth as_usize error_json vf rq next1 lc s = company_auth as_usize error_json vf rq next2 lc s.
Proof.
  intros Hok Hlo Hn. unfold company_auth. destruct (bearer_token rq) as [token|] eqn:Hb; [|done].
  apply (sm_bind_ext _ _ _ _ (λ _ s', idled s s')); [done| |].
  { intros now s' H. apply same_idled. pose proof (keeps_utc_now (E:=Empty_set) s) as E. by rewrite H in E. }
  intros now s1 Hi1. destruct (verify_company_claims as_usize vf now token) as [[ctx aud]|] eqn:Hv; [|done].
  destruct (refused vf (hq_ext rq) aud) eqn:Hr; [done|].
  assert (pools_ok s1) as Hok1 by (by apply Hi1).
  assert (locals_ok lc s1) as Hlo1 by (eapply kept_locals; [|apply Hi1|]; done).
  destruct (ext_pool (hq_ext rq)) as [pool|] eqn:Hp.
  - apply (sm_bind_ext _ _ _ _ (λ _ _, True)); [|apply wpo_true|done]. unfold attempt.
    rewrite (enters_ext _ _ _ _ (next1 (with_ext rq (put_company ctx (hq_ext rq)))) (next2 (with_ext rq (put_company ctx (hq_ext rq))))
      (request_scope_enters pool (Grants.company_id ctx) lc s1 Hok1 Hlo1)); [done|].
    intros lc' s' _ _ Hu _. apply Hn. exists token, now, ctx, aud. by rewrite Hp.
  - apply Hn. exists token, now, ctx, aud. by rewrite Hp.
Qed.
End guards.

(** ** The router and the guard together *)
Section router.
Context {SN : SerdeNumber} {UT : UuidText} {HI : HashIter} {D W R E : Type} {HW : World W} {OS : OrgSpine D}.
Variables (as_usize : Number → option Z) (sqlstate : DbError → option string) (error_json : string → string → string).
Variables (overflow_checks : bool) (max_tenants : Z) (build : string → W → (E + R) * W) (database : R → option nat).
#[local] Abbreviation Srv := (St (Server (D:=D) (R:=R)) W).
#[local] Abbreviation route := (tenant_route (D:=D) overflow_checks max_tenants build database error_json).
Implicit Types (s : Srv) (vf : Verifier R) (rq : HttpRequest R) (lc : Locals) (next : Next (D:=D) (W:=W) (R:=R)).

Lemma wp_in_registry {A F} (v : sm (St (Registry R) W) F A) (Φ : res F A → Srv → Prop) s :
  wp v (λ r t, Φ r (mkSt (mkServer (tables t) (sv_pools (tables s))) (world t))) (mkSt (sv_registry (tables s)) (world s)) →
  wp (in_registry v) Φ s.
Proof. unfold wp, in_registry, sm_zoom. by destruct (v _) as [r t]. Qed.

(** A call a tenant's route admits. *)
Definition session_call (resolver : HostResolver W) vf rq (d : D) rq' lc' (s' : St (Pools D) W) : Prop :=
  ∃ tenant runtime pool token now ctx aud scope audit,
    names_tenant resolver (default "" (hq_header rq "host")) (hq_header rq TENANT_OVERRIDE_HEADER) tenant ∧
    can_build build tenant runtime ∧ (database runtime = Some pool ∨ database runtime = None ∧ ext_pool (hq_ext rq) = Some pool) ∧
    bearer_token rq = Some token ∧ verify_claims as_usize vf now token = Some (ctx, aud) ∧ tenant ∈ aud ∧
    rq' = with_ext rq (put_org ctx (mkExtensions (Some tenant) (Some runtime) (Some pool) (ext_session (hq_ext rq)))) ∧
    resolved pool d (Grants.acting_unit_id ctx) (entitled_units ctx) scope ∧ pl_data (tables s') = d ∧
    under (EOrg pool scope (Some audit)) lc' s' ∧ ac_actor audit = org_user_id ctx.

Lemma admits_bound tenant aud : admits (Some tenant) aud false = true → tenant ∈ aud.
Proof.
  simpl. case_bool_decide; [done|]. intros (x & Hx & ->%bool_decide_eq_true)%existsb_exists. by apply list_elem_of_In.
Qed.

End router.

(** ** A session that runs

    A tenant's host, its runtime built on the first request, a token minted for the tenant, and a handler that
    says what its statements are fenced to. *)
#[local] Existing Instance Concrete.number.
#[local] Existing Instance Concrete.uuid_text.
#[local] Instance walk_order : HashIter := { hash_iter V := map_to_list; hash_iter_perm V m := reflexivity _ }.
Import OrgExample.

Definition to_usize (n : Number) : option Z := match n with Concrete.NInt z => if 0 <=? z then Some z else None | _ => None end.
Definition of_usize (z : Z) : Number := Concrete.NInt z.
(** A key that signs a session of the branch at second 100, for ten minutes: the token is its type. *)
Definition sealed (tenant : option string) (typ : string) : Value :=
  issued_claims of_usize (mkIssuer (λ _, inl "") tenant) 100 "ann" branch [other] (Some company) 600 typ.
Definition example_issuer (tenant : option string) : Issuer :=
  mkIssuer (λ v, match value_get "typ" v with Some (VString t) => inr t | _ => inl "no type" end) tenant.
Definition example_verifier (tenant : option string) : Verifier string :=
  mkVerifier (λ now token, if 700 <? now / 1000000000 - 60 then None else Some (sealed tenant token)) None.

Lemma usize_back n : 0 ≤ n ≤ u64_max → to_usize (of_usize n) = Some n.
Proof. intros [Hn _]. unfold to_usize, of_usize. by destruct (Z.leb_spec 0 n); [|lia]. Qed.
Lemma key_matches tenant typ : reads_back of_usize (example_issuer tenant) (example_verifier tenant) (sealed tenant typ).
Proof.
  intros token n later Ht Hn. assert (token = typ ∧ n = 700) as [-> ->]; [|reflexivity].
  destruct tenant; (split; [by injection Ht|by injection Hn]).
Qed.
Lemma issued_token_verifies_witness :
  verify to_usize (example_verifier (Some "acme")) 700000000000 "access" = Some (mkOrg branch [other] (Some company) "ann") ∧
  verify to_usize (example_verifier (Some "acme")) 700000000000 "refresh" = None ∧
  ¬ is_Some (verify_for_audience to_usize (example_verifier (Some "acme")) 700000000000 "access" (Some "globex")).
Proof.
  assert (Forall id_back (branch :: [other] ++ option_list (Some company))) as Hids by (repeat constructor; by vm_compute).
  destruct (issued_token_verifies to_usize of_usize usize_back (example_issuer (Some "acme")) (example_verifier (Some "acme"))
    100 700000000000 "ann" branch [other] (Some company) 600 "access" (Some "globex")) as [Ha _];
    [lia|lia|exact Hids|exact (key_matches (Some "acme"))|].
  destruct (issued_token_verifies to_usize of_usize usize_back (example_issuer (Some "acme")) (example_verifier (Some "acme"))
    100 700000000000 "ann" branch [other] (Some company) 600 "refresh" None) as [_ Hr];
    [lia|lia|exact Hids|exact (key_matches (Some "acme"))|].
  destruct (Ha eq_refl) as [Hv Hn]. split; [apply Hv; split; [by vm_compute|done]|]. split; [exact (Hr eq_refl)|].
  rewrite Hn. by intros [_ ?].
Defined.

(** ** A request through the router *)
Abbreviation Srv := (St (Server (D:=list OrgUnit) (R:=string)) unit).
(** Runtimes are named by their tenants; all their data is on pool 7. *)
Definition make (t : string) (w : unit) : (string + string) * unit := (inr t, w).
Definition pool_of (r : string) : option nat := Some 7%nat.
Definition server0 : Srv := mkSt (mkServer (mkRegistry ∅ 0 []) (tables pools0)) tt.
Definition ask (host token : string) : HttpRequest string :=
  mkHttpRequest "GET" "/stock" (λ h, if bool_decide (h = "host") then Some host else
    if bool_decide (h = "authorization") then Some ("Bearer " +:+ token) else None) (mkExtensions None None None (mkExt false None None None None)).
Definition resolver : HostResolver unit := resolver_new "app.io".
(** The handler says which units its statements see. *)
Definition handler : Next (D:=list OrgUnit) (W:=unit) (R:=string) := λ rq lc,
  rows ← look lc;
  mret (mkHttpResponse 200 ∅ match rows with inr [(_, v)] => default "" (v !! "app.scope_unit_ids") | _ => "" end).
(** One that breaks down when the request is not [acme]'s. *)
Definition fussy : Next (D:=list OrgUnit) (W:=unit) (R:=string) := λ rq lc,
  if bool_decide (ext_tenant (hq_ext rq) = Some "acme") then handler rq lc else sm_panic.
Abbreviation serve rq next := (tenant_route (E:=string) true 4 make pool_of (λ e m, m) resolver rq
  (λ r l, org_auth to_usize states (λ e m, m) (bind_audience (example_verifier (Some "acme")) tenant_audience) r next l)
  no_locals server0).
Definition answered_with (r : res Empty_set HttpResponse) (status : Z) (body : string) : bool :=
  match r with Ok r => bool_decide (hs_status r = status ∧ hs_body r = body) | _ => false end.

(** Another tenant's host refuses the token, the bare domain is nobody's, and a refresh token opens nothing. *)
Example other_tenant_refused :
  answered_with (serve (ask "globex.app.io" "access") handler).1 401 "token was not issued for this tenant" = true.
Proof. by_vm. Qed.
Example apex_refused : answered_with (serve (ask "app.io" "access") handler).1 404
  "host 'app.io' is the product domain itself; no tenant subdomain present" = true.
Proof. by_vm. Qed.
Example refresh_refused : answered_with (serve (ask "acme.app.io" "refresh") handler).1 401
  "invalid token or missing org_unit_id claim" = true.
Proof. by_vm. Qed.
