(* ===== verification/Idempotency.v ===== *)
(** * Requests that are retried

    [backbone-auth/src/idempotency.rs]: a layer that keeps the answer of a mutating request under its company and the
    key its client sent, and gives it again to a request with the same. The table is a part of the data of the
    layer's pool; its DDL is left out. *)
From Stdlib Require Import ZArith Lia Ascii.
From S2P Require Import Prelude RustStr RustChar Json WorkflowExpr Grants Database RequestScope RequestScopeFacts OrgScopeFacts Tenant Session SessionFacts.

Local Open Scope Z_scope.

(** ** [str::from_utf8]: how many bytes of a character are still to come, and between what the next one is *)
Fixpoint utf8_from (need : nat) (lo hi : Z) (s : string) : bool :=
  match s with
  | EmptyString => bool_decide (need = 0%nat)
  | String c s =>
      let b := byte_of c in
      match need with
      | S need => (lo <=? b) && (b <=? hi) && utf8_from need 128 191 s
      | O =>
          if b <? 128 then utf8_from 0 128 191 s
          else if (194 <=? b) && (b <=? 223) then utf8_from 1 128 191 s
          else if b =? 224 then utf8_from 2 160 191 s
          else if b =? 237 then utf8_from 2 128 159 s
          else if (225 <=? b) && (b <=? 239) then utf8_from 2 128 191 s
          else if b =? 240 then utf8_from 3 144 191 s
          else if (241 <=? b) && (b <=? 243) then utf8_from 3 128 191 s
          else if b =? 244 then utf8_from 3 128 143 s
          else false
      end
  end.
Definition is_utf8 (s : string) : bool := utf8_from 0 128 191 s.

(** [public.idempotency_requests] in the database of a pool: a status and a body by company and key. *)
Class IdempotencyTable (D : Type) := {
  idem_rows : nat → D → gmap (uuid * string) (Z * string);
  idem_put : nat → gmap (uuid * string) (Z * string) → D → D;
  idem_rows_put p m d : idem_rows p (idem_put p m d) = m;
}.

Section idempotency.
Context {SN : SerdeNumber} {UT : UuidText} {D W R : Type} {HW : World W} {IT : IdempotencyTable D}.
Variable as_usize : Number → option Z.
#[local] Abbreviation Sy := (St (Pools D) W).
#[local] Abbreviation M := (sm Sy Empty_set).
Implicit Types (rq : HttpRequest R) (lc : Locals) (next : Next (D:=D) (W:=W) (R:=R)) (pool : nat) (company : uuid) (key : string).

Definition MAX_BODY : Z := 65536.
Record IdempotencyState := mkIdempotency { im_verifier : Verifier R; im_pool : nat }.
Definition is_mutating (method : string) : bool := bool_decide (method ∈ ["POST"; "PUT"; "PATCH"; "DELETE"]).
Definition company_from_request (vf : Verifier R) (now : instant) rq : option CompanyContext :=
  token ← bearer_token rq; verify_company as_usize vf now token.
(** [code as u16] *)
Definition as_u16 (code : Z) : Z := code mod 65536.
Definition lookup_answer pool company key : M (option (Z * string)) :=
  r ← attempt (on_pool pool (run_on (λ p _ d, Some (idem_rows p d !! (company, key), d))));
  mret match r with inr (Some (code, body)) => Some (as_u16 code, body) | _ => None end.
(** A text of Postgres holds no zero byte. *)
Definition is_text (s : string) : bool := str_forallb (λ c, negb (byte_of c =? 0)) s.
Definition body_text (body : string) : string := if is_utf8 body then body else "".
Definition store_answer pool company key (code : Z) (body : string) : M unit :=
  _ ← attempt (on_pool pool (run_on (λ p _ d,
    if is_text (body_text body) then
      Some (tt, match idem_rows p d !! (company, key) with
                | Some _ => d
                | None => idem_put p (<[(company, key) := (code, body_text body)]> (idem_rows p d)) d
                end)
    else None)));
  mret tt.
Definition status_of (code : Z) : Z := if (100 <=? code) && (code <=? 999) then code else 200.
Definition is_success_status (code : Z) : bool := (200 <=? code) && (code <=? 299).
Definition replay (code : Z) (body : string) : HttpResponse :=
  mkHttpResponse (status_of code) {["content-type" := "application/json"; "idempotent-replay" := "true"]} body.
(** [to_bytes(body, MAX_BODY).unwrap_or_default()] *)
Definition captured (body : string) : string := if str_len body <=? MAX_BODY then body else "".
Definition idempotency_middleware (st : IdempotencyState) rq next lc : M HttpResponse :=
  if negb (is_mutating (hq_method rq)) then next rq lc
  else
    match hq_header rq "idempotency-key" with
    | None => next rq lc
    | Some key =>
        now ← utc_now;
        match company_from_request (im_verifier st) now rq with
        | None => next rq lc
        | Some ctx =>
            hit ← lookup_answer (im_pool st) (Grants.company_id ctx) key;
            match hit with
            | Some (code, body) => mret (replay code body)
            | None =>
                resp ← next rq lc;
                if negb (is_success_status (hs_status resp)) then mret resp
                else
                  let bytes := captured (hs_body resp) in
                  _ ← (if str_len bytes <=? MAX_BODY
                       then store_answer (im_pool st) (Grants.company_id ctx) key (hs_status resp) bytes else mret tt);
                  mret (mkHttpResponse (hs_status resp) (hs_headers resp) bytes)
            end
        end
    end.
End idempotency.

(** ** What retried requests get

    A mutating request that succeeded is not run again: whatever comes with its company and its key is answered what it
    was answered, and changes nothing. With what the layer does beside that, on requests that run. *)

Section idempotency.
Context {SN : SerdeNumber} {UT : UuidText} {D W R : Type} {HW : World W} {OS : OrgSpine D} {IT : IdempotencyTable D}.
Variable as_usize : Number → option Z.
Hypothesis reliable : ∀ w, (w_fault w).1 = None.
#[local] Abbreviation Sy := (St (Pools D) W).
Implicit Types (s : Sy) (rq : HttpRequest R) (lc : Locals) (next : Next (D:=D) (W:=W) (R:=R)) (pool : nat) (company : uuid) (key : string).

Lemma point_reliable s : ∃ s', sqlx_point s = (Ok tt, s') ∧ tables s' = tables s.
Proof. unfold sqlx_point. pose proof (reliable (world s)) as H. destruct (w_fault (world s)) as [[e|] w]; [done|]. by eexists. Qed.
Lemma acquire_reliable pool s : pools_ok s → ∃ c s', acquire pool s = (Ok c, s') ∧ taken pool s c s'.
Proof.
  intros Hok. pose proof (wp_acquire pool (λ r s', match r with Ok c => taken pool s c s' | Err _ => True | Panic => False end) s Hok) as H.
  unfold wp in H. destruct (acquire pool s) as [r s'] eqn:E. simpl in H. destruct r as [c|e|]; [|exfalso|exfalso; by apply H].
  - exists c, s'. split; [done|]. by apply H.
  - unfold acquire, mbind, sm_bind in E. destruct (point_reliable s) as (s0 & Hp & _). rewrite Hp in E. unfold sm_of in E.
    by destruct (List.find _ _).
Qed.
(** A statement on a pool, where nothing fails. *)
Lemma on_pool_reliable {A} pool (q : Stmt (D:=D) A) a d s :
  pools_ok s → (∀ v, q pool v (pl_data (tables s)) = Some (a, d)) →
  ∃ s', on_pool pool (run_on q) s = (Ok a, s') ∧ pl_data (tables s') = d ∧ pools_ok s'.
Proof.
  intros Hok Hq. destruct (acquire_reliable pool s Hok) as (c & s1 & Ha & [Hok1 (v & [Hc Hi] & Hcl) Hoth Hd]).
  unfold on_pool, mbind, sm_bind. rewrite Ha. unfold finally, run_on, mbind, sm_bind.
  destruct (point_reliable s1) as (s2 & Hp & E). rewrite Hp. unfold sm_of. cbn [fst snd]. rewrite E, Hc. cbn [cn_pool cn_vars].
  rewrite Hd, Hq. eexists. split; [done|]. set (s3 := mkSt _ _).
  assert (own c [] s3) as Ho.
  { destruct Hok1 as [H1 H2 H3]. split; [by split|]. exists (mkConn pool v). split; [by split|]. by apply clean_but_nil. }
  destruct (drop_gives_back c s3 Ho) as [Hok3 _]. split; [|exact Hok3].
  unfold drop_conn, upd_pools. simpl. by case_bool_decide.
Qed.
Lemma utc_now_same s : ∃ now s', utc_now (E:=Empty_set) s = (Ok now, s') ∧ tables s' = tables s.
Proof. unfold utc_now. destruct (w_utc_now (world s)) as [t w]. by eexists _, _. Qed.
Lemma pools_ok_same s s' : tables s' = tables s → pools_ok s → pools_ok s'.
Proof. intros E [H1 H2 H3]. split; by rewrite E. Qed.

Lemma lookup_reliable pool company key s :
  pools_ok s → ∃ s', lookup_answer pool company key s =
    (Ok ((λ cb, (as_u16 cb.1, cb.2)) <$> idem_rows pool (pl_data (tables s)) !! (company, key)), s') ∧
    pl_data (tables s') = pl_data (tables s) ∧ pools_ok s'.
Proof.
  intros Hok. destruct (on_pool_reliable pool (λ p _ d, Some (idem_rows p d !! (company, key), d)) _ _ s Hok (λ _, eq_refl)) as (s' & H & Hd & Hok').
  exists s'. unfold lookup_answer, mbind, sm_bind, attempt. rewrite H. split; [|done]. by destruct (_ !! _) as [[code body]|].
Qed.

(** A request of the company with the key, when it arrives. *)
Definition keyed (st : IdempotencyState (R:=R)) rq key company s : Prop :=
  is_mutating (hq_method rq) = true ∧ hq_header rq "idempotency-key" = Some key ∧
  ∃ now s0 ctx, utc_now (E:=Empty_set) s = (Ok now, s0) ∧ company_from_request as_usize (im_verifier st) now rq = Some ctx ∧
    Grants.company_id ctx = company.
(** What the layer does with it: look the answer up, and run the request where there is none. *)
Lemma keyed_runs st rq key company next lc s :
  pools_ok s → keyed st rq key company s →
  ∃ s', pl_data (tables s') = pl_data (tables s) ∧ pools_ok s' ∧
    idempotency_middleware as_usize st rq next lc s =
    match idem_rows (im_pool st) (pl_data (tables s)) !! (company, key) with
    | Some (code, body) => (Ok (replay (as_u16 code) body), s')
    | None =>
        (resp ← next rq lc;
         if negb (is_success_status (hs_status resp)) then mret resp
         else
           let bytes := captured (hs_body resp) in
           _ ← (if str_len bytes <=? MAX_BODY then store_answer (im_pool st) company key (hs_status resp) bytes else mret tt);
           mret (mkHttpResponse (hs_status resp) (hs_headers resp) bytes)) s'
    end.
Proof.
  intros Hok (Hm & Hk & now & s0 & ctx & Hnow & Hc & <-). unfold idempotency_middleware. rewrite Hm, Hk. simpl.
  unfold mbind at 1, sm_bind. rewrite Hnow. cbn [fst snd]. rewrite Hc.
  assert (tables s0 = tables s) as E0 by (destruct (utc_now_same s) as (? & ? & Hn & ?); congruence).
  destruct (lookup_reliable (im_pool st) (Grants.company_id ctx) key s0) as (s' & Hl & Hd & Hok'); [by eapply pools_ok_same|].
  exists s'. rewrite E0 in *. split_and!; [done..|]. unfold mbind at 1, sm_bind. rewrite Hl. cbn [fst snd].
  by destruct (_ !! _) as [[code body]|].
Qed.
Lemma store_reliable pool company key code body s :
  pools_ok s → is_text (body_text body) = true → idem_rows pool (pl_data (tables s)) !! (company, key) = None →
  ∃ s', store_answer pool company key code body s = (Ok tt, s') ∧ pools_ok s' ∧
    idem_rows pool (pl_data (tables s')) !! (company, key) = Some (code, body_text body).
Proof.
  intros Hok Ht Hn. unfold store_answer. set (q := λ p (_ : Vars) d, if is_text _ then _ else _).
  destruct (on_pool_reliable pool q tt (idem_put pool (<[(company, key) := (code, body_text body)]> (idem_rows pool (pl_data (tables s))))
    (pl_data (tables s))) s Hok) as (s' & H & Hd & Hok').
  { intros v. unfold q. by rewrite Ht, Hn. }
  exists s'. unfold mbind, sm_bind, attempt. rewrite H. split_and!; [done..|]. rewrite Hd, idem_rows_put. apply lookup_insert_eq.
Qed.
Lemma captured_len body : (str_len (captured body) <=? MAX_BODY) = true.
Proof. unfold captured. destruct (Z.leb_spec (str_len body) MAX_BODY); [by apply Z.leb_le|done]. Qed.

End idempotency.

(** A success with a longer body loses it, on the first answer already. *)
Lemma long_body_lost body : MAX_BODY < str_len body → captured body = "".
Proof. intros H. unfold captured. by rewrite (proj2 (Z.leb_gt _ _)). Qed.

(** ** Requests that run *)
Module IdempotencyExample.
#[local] Existing Instance Concrete.number.
#[local] Existing Instance Concrete.uuid_text.
#[local] Existing Instance OrgExample.calm.
Abbreviation Rows := (gmap (uuid * string) (Z * string)).
#[export] Instance rows_of_pools : IdempotencyTable (gmap nat Rows).
Proof.
  refine {| idem_rows p d := default ∅ (d !! p); idem_put p m d := <[p := m]> d |}.
  intros p m d. by rewrite lookup_insert_eq.
Defined.
Definition usize (n : Number) : option Z := match n with Concrete.NInt z => Some z | _ => None end.
(** A token is the name of its tenant; every one is of company 2. *)
Definition tokens : Verifier unit := mkVerifier (λ _ token, Some (VObject
  [("aud", VString token); ("company_id", VString "2"); ("exp", VNumber (Concrete.NInt 700)); ("sub", VString "ann")])) None.
Definition layer : IdempotencyState (R:=unit) := mkIdempotency tokens 7.
Definition retry (method path tenant : string) : HttpRequest unit :=
  mkHttpRequest method path (λ h, if bool_decide (h = "idempotency-key") then Some "k1" else
    if bool_decide (h = "authorization") then Some ("Bearer " +:+ tenant) else None) (mkExtensions None None None (mkExt false None None None None)).
Definition empty : St (Pools (gmap nat Rows)) unit := mkSt (mkPools ∅ [] 0 ∅) tt.
(** Answers with the path it was asked for. *)
Definition echo : Next (D:=gmap nat Rows) (W:=unit) (R:=unit) := λ rq _, mret (mkHttpResponse 201 ∅ (hq_path rq)).
Definition broken : Next (D:=gmap nat Rows) (W:=unit) (R:=unit) := λ _ _, sm_panic.
Abbreviation first := (idempotency_middleware usize layer (retry "POST" "/sales" "acme") echo no_locals empty).
Lemma empty_ok : pools_ok empty.
Proof. split; simpl; [by intros c ?%elem_of_nil|constructor|by intros c [? ?]]. Qed.
Lemma all_keyed (method path tenant : string) (s : St (Pools (gmap nat Rows)) unit) :
  is_mutating method = true → keyed usize layer (retry method path tenant) "k1" 2%N s.
Proof.
  intros Hm. split_and!; [done|done|]. destruct s as [t []]. eexists 0, _, (mkCompany 2%N None "ann"). done.
Qed.
Lemma calm_reliable (w : unit) : (w_fault w).1 = None.
Proof. done. Qed.
(** A request without a key, and a read, go through. *)
Example reads_go_through :
  (idempotency_middleware usize layer (retry "GET" "/sales" "acme") echo no_locals empty).1 = Ok (mkHttpResponse 201 ∅ "/sales").
Proof. by vm_compute. Qed.
(** What is not UTF-8 comes back empty. *)
Example bytes_lost : body_text (String (ascii_of_nat 255) "") = "" ∧ body_text "caf" = "caf".
Proof. by split; vm_compute. Qed.
End IdempotencyExample.
