(* ===== verification/Maintenance.v ===== *)
(** * Maintenance mode

    [backbone-maintenance/src/lib.rs]: a gate that answers 503 to every request while it is on, but for paths that begin
    with an allowed one, with the routes that report and change it, composed as the crate's own example does. The
    application behind, the request's headers ([get] and [to_str]), the environment variable, chrono's text of a time and
    what axum answers of its own (a body that is no update, a method that a path has not) are parameters. Nothing
    panics while the details' lock is held, so it is never poisoned, and no other lock is taken under it. *)
From Stdlib Require Import ZArith Lia Ascii.
From S2P Require Import Prelude RustStr RustChar Json WorkflowExpr Database.

Local Open Scope Z_scope.

Definition X_SERVICE_STATUS_HEADER : string := "x-service-status".
Definition X_SERVICE_STATUS_MAINTENANCE : string := "maintenance".
Definition MAINTENANCE_ADMIN_TOKEN_ENV : string := "MAINTENANCE_ADMIN_TOKEN".

Record MaintenanceConfig := mkMaintConfig {
  mc_enabled : bool;
  mc_message : string;
  mc_retry_after_seconds : Z;
  mc_severity : string;
  mc_estimated_end_at : option string;
  mc_allow_paths : list string;
}.
Definition maintenance_config_default : MaintenanceConfig :=
  mkMaintConfig false "Service is undergoing scheduled maintenance. Please try again shortly." 300 "warning" None
    ["/health"; "/readyz"; "/livez"; "/metrics"; "/maintenance"].
Record MaintenanceDetails := mkDetails {
  md_message : string;
  md_retry_after_seconds : Z;
  md_severity : string;
  md_started_at : option instant;
  md_estimated_end_at : option instant;
}.
Record MaintenanceState := mkMaintenance { ms_enabled : bool; ms_details : MaintenanceDetails; ms_allow_paths : list string }.
Record MaintenanceSnapshot := mkSnapshot { sn_enabled : bool; sn_details : MaintenanceDetails }.
Record MaintenanceUpdate := mkUpdate {
  mu_enabled : option bool;
  mu_message : option string;
  mu_retry_after_seconds : option Z;
  mu_severity : option string;
  mu_estimated_end_at : option string;
}.

(** Requests: the body is read as an update where a route wants one. *)
Record MRequest := mkMRequest {
  mq_method : string; mq_path : string; mq_header : string → option string; mq_update : option MaintenanceUpdate }.

Section maintenance.
Context {L : Libs}.
Record MResponse := mkMResponse { mr_status : Z; mr_headers : gmap string string; mr_body : Value }.

Context {A W : Type} {HW : World W}.
Context (number_of : Z → Number) (show_time : instant → string) (admin_token : option string).
Context (bad_body method_not_allowed : MResponse).
#[local] Abbreviation Sy := (St (MaintenanceState * A) W).
#[local] Abbreviation Mm := (sm Sy Empty_set).

(** ** The state *)
Definition parse_end (text : string) : option instant := parse_from_rfc3339 text.
Definition from_config (cfg : MaintenanceConfig) : sm (St unit W) Empty_set MaintenanceState :=
  let estimated_end_at :=
    s ← mc_estimated_end_at cfg; if bool_decide (s = "") then None else parse_end s in
  started_at ← (if mc_enabled cfg then t ← utc_now; mret (Some t) else mret None);
  mret (mkMaintenance (mc_enabled cfg)
    (mkDetails (mc_message cfg) (mc_retry_after_seconds cfg) (mc_severity cfg) started_at estimated_end_at)
    (mc_allow_paths cfg)).
Definition is_enabled (m : MaintenanceState) : bool := ms_enabled m.
Definition snapshot (m : MaintenanceState) : MaintenanceSnapshot := mkSnapshot (is_enabled m) (ms_details m).
Definition with_gate (m : MaintenanceState) : Mm unit := λ s, (Ok tt, mkSt (m, (tables s).2) (world s)).
Definition with_started (d : MaintenanceDetails) (t : option instant) : MaintenanceDetails :=
  mkDetails (md_message d) (md_retry_after_seconds d) (md_severity d) t (md_estimated_end_at d).
(** The toggle and its stamp; then the fields that are given. *)
Definition apply_enabled (enabled : bool) (m : MaintenanceState) : Mm MaintenanceState :=
  let d := ms_details m in
  match enabled, ms_enabled m with
  | true, false => t ← utc_now; mret (mkMaintenance true (with_started d (Some t)) (ms_allow_paths m))
  | false, true => mret (mkMaintenance false (with_started d None) (ms_allow_paths m))
  | e, _ => mret (mkMaintenance e d (ms_allow_paths m))
  end.
Definition apply_fields (u : MaintenanceUpdate) (d : MaintenanceDetails) : MaintenanceDetails :=
  mkDetails (default (md_message d) (mu_message u)) (default (md_retry_after_seconds d) (mu_retry_after_seconds u))
    (default (md_severity d) (mu_severity u)) (md_started_at d)
    (match mu_estimated_end_at u with
     | None => md_estimated_end_at d
     | Some text => if bool_decide (text = "") then None else parse_end text
     end).
Definition apply_update (u : MaintenanceUpdate) : Mm MaintenanceSnapshot :=
  s ← sm_get;
  let m := (tables s).1 in
  m ← match mu_enabled u with Some enabled => apply_enabled enabled m | None => mret m end;
  let m := mkMaintenance (ms_enabled m) (apply_fields u (ms_details m)) (ms_allow_paths m) in
  with_gate m ;; mret (snapshot m).

(** ** Answers *)
Definition opt_time (t : option instant) : Value := match t with Some t => VString (show_time t) | None => VNull end.
Definition build_503 (snap : MaintenanceSnapshot) : MResponse :=
  let d := sn_details snap in
  mkMResponse 503
    (<[X_SERVICE_STATUS_HEADER := X_SERVICE_STATUS_MAINTENANCE]> {["retry-after" := show_Z (md_retry_after_seconds d)]})
    (VObject [("estimated_end_at", opt_time (md_estimated_end_at d)); ("message", VString (md_message d));
      ("retry_after", VNumber (number_of (md_retry_after_seconds d))); ("severity", VString (md_severity d));
      ("started_at", opt_time (md_started_at d)); ("status", VString "maintenance")]).
Definition snapshot_json (snap : MaintenanceSnapshot) : Value :=
  let d := sn_details snap in
  VObject [("enabled", VBool (sn_enabled snap)); ("estimated_end_at", opt_time (md_estimated_end_at d));
    ("message", VString (md_message d)); ("retry_after_seconds", VNumber (number_of (md_retry_after_seconds d)));
    ("severity", VString (md_severity d)); ("started_at", opt_time (md_started_at d))].
Definition json_answer (status : Z) (body : Value) : MResponse := mkMResponse status ∅ body.

(** ** The gate and the routes *)
Definition allowed (paths : list string) (path : string) : bool := existsb (λ p, starts_with path p) paths.
Definition maintenance_middleware (next : MRequest → Mm MResponse) (request : MRequest) : Mm MResponse :=
  s ← sm_get;
  let m := (tables s).1 in
  if negb (is_enabled m) then next request
  else if allowed (ms_allow_paths m) (mq_path request) then next request
  else mret (build_503 (snapshot m)).
Definition status_handler (request : MRequest) : Mm MResponse :=
  s ← sm_get; mret (json_answer 200 (snapshot_json (snapshot (tables s).1))).

(** [acc |= x ^ y] over two slices of one length. *)
Fixpoint xor_all (acc : Z) (a b : list Z) : Z :=
  match a, b with
  | x :: a, y :: b => xor_all (Z.lor acc (Z.lxor x y)) a b
  | _, _ => acc
  end.
Definition constant_time_eq (a b : list Z) : bool :=
  if negb (length a =? length b)%nat then false else xor_all 0 a b =? 0.
Fixpoint as_bytes (s : string) : list Z := match s with EmptyString => [] | String c s => byte_of c :: as_bytes s end.
Definition presented (request : MRequest) : option string :=
  match (v ← mq_header request "authorization"; strip_prefix_str "Bearer " v) with
  | Some t => Some t
  | None => mq_header request "x-maintenance-admin-token"
  end.
Definition admin_toggle_handler (request : MRequest) (update : MaintenanceUpdate) : Mm MResponse :=
  match (t ← admin_token; if bool_decide (t = "") then None else Some t) with
  | None => mret (json_answer 501 (VObject [("error", VString "maintenance_admin_disabled");
      ("message", VString (MAINTENANCE_ADMIN_TOKEN_ENV +:+ " env var is not configured"))]))
  | Some expected =>
      match presented request with
      | Some t =>
          if constant_time_eq (as_bytes t) (as_bytes expected) then
            snap ← apply_update update; mret (json_answer 200 (snapshot_json snap))
          else mret (json_answer 401 (VObject [("error", VString "unauthorized")]))
      | None => mret (json_answer 401 (VObject [("error", VString "unauthorized")]))
      end
  end.

(** The router of the example: the two routes beside the application's, under the gate. *)
Context (app : MRequest → Mm MResponse).
Definition routes (request : MRequest) : Mm MResponse :=
  if bool_decide (mq_path request = "/maintenance/status") then
    if bool_decide (mq_method request ∈ ["GET"; "HEAD"]) then status_handler request else mret method_not_allowed
  else if bool_decide (mq_path request = "/maintenance") then
    if bool_decide (mq_method request = "POST") then
      match mq_update request with Some u => admin_toggle_handler request u | None => mret bad_body end
    else mret method_not_allowed
  else app request.
Definition gate_served (request : MRequest) : Mm MResponse := maintenance_middleware routes request.
End maintenance.

(** ** Facts *)
Lemma xor_all_zero acc a b : length a = length b → xor_all acc a b = 0 ↔ acc = 0 ∧ a = b.
Proof.
  revert acc b. induction a as [|x a IH]; intros acc [|y b]; simpl; try done; [naive_solver|].
  intros Hlen. rewrite IH by lia. rewrite Z.lor_eq_0_iff, Z.lxor_eq_0_iff. naive_solver.
Qed.
Lemma as_bytes_inj a b : as_bytes a = as_bytes b → a = b.
Proof.
  revert b. induction a as [|c a IH]; intros [|d b]; simpl; try done. intros [= Hc Hab]. f_equal; [|by apply IH].
  unfold byte_of in Hc. apply N2Z.inj in Hc. rewrite <-(Ascii.ascii_N_embedding c), <-(Ascii.ascii_N_embedding d). by rewrite Hc.
Qed.
(** The comparison that takes one time is equality. *)
Lemma constant_time_eq_spec a b : constant_time_eq (as_bytes a) (as_bytes b) = true ↔ a = b.
Proof.
  unfold constant_time_eq. destruct (Nat.eqb_spec (length (as_bytes a)) (length (as_bytes b))) as [Hlen|Hlen]; simpl.
  - rewrite Z.eqb_eq, xor_all_zero by done. split; [intros [_ H]; by apply as_bytes_inj|by intros ->].
  - split; [done|by intros ->].
Qed.

(** While the gate is on, and only then, it says since when. *)
Definition gate_stamped (m : MaintenanceState) : Prop := is_Some (md_started_at (ms_details m)) ↔ ms_enabled m = true.

Section facts.
Context {L : Libs} {A W : Type} {HW : World W}.
Context (number_of : Z → Number) (show_time : instant → string) (admin_token : option string).
Context (bad_body method_not_allowed : MResponse).
#[local] Abbreviation Sy := (St (MaintenanceState * A) W).
Context (app : MRequest → sm Sy Empty_set MResponse).
(** The application is behind the gate and has no hand on it. *)
Context (app_behind : ∀ rq, keeps (λ s s' : Sy, (tables s').1 = (tables s).1) (app rq)).
#[local] Abbreviation serve_one := (gate_served number_of show_time admin_token bad_body method_not_allowed app).
#[local] Abbreviation inner := (routes number_of show_time admin_token bad_body method_not_allowed app).

Lemma from_config_stamped cfg s : wp (from_config cfg) (λ r _, ∃ m, r = Ok m ∧ gate_stamped m ∧ ms_enabled m = mc_enabled cfg ∧
  ms_allow_paths m = mc_allow_paths cfg) (s : St unit W).
Proof.
  unfold from_config, gate_stamped. destruct (mc_enabled cfg) eqn:He; unfold wp, mbind, sm_bind, utc_now; simpl.
  - destruct (w_utc_now (world s)) as [t w]. simpl. eexists. split; [done|]. simpl. split_and!; [|done..]. by split; [|eexists].
  - eexists. split; [done|]. simpl. split_and!; [|done..]. by split; [intros [? [=]]|].
Qed.

Lemma wp_apply_update u (s : Sy) : gate_stamped (tables s).1 → wp (apply_update u) (λ r s',
  let m := (tables s).1 in let m' := (tables s').1 in
  r = Ok (snapshot m') ∧ (tables s').2 = (tables s).2 ∧ gate_stamped m' ∧ ms_allow_paths m' = ms_allow_paths m ∧
  ms_enabled m' = default (ms_enabled m) (mu_enabled u)) s.
Proof.
  unfold apply_update, gate_stamped. intros Hs. wp_step. wp_step. destruct s as [[[en d ps] a] w]. simpl in *.
  destruct u as [[[]|] ms ra sv en']; destruct en; unfold wp, apply_enabled, mbind, sm_bind, utc_now, with_gate; simpl;
    try destruct (w_utc_now w) as [t w']; simpl; split_and!; try done; split; try done; try (intros _; by eexists); by intros [? [=]].
Qed.

(** The update that the admin's route would make of a request. *)
Definition accepted_update (rq : MRequest) : option MaintenanceUpdate :=
  if bool_decide (mq_path rq = "/maintenance" ∧ mq_method rq = "POST") then
    u ← mq_update rq; expected ← admin_token; t ← presented rq;
    if bool_decide (expected ≠ "" ∧ t = expected) then Some u else None
  else None.
Definition toggled (u : option MaintenanceUpdate) (enabled : bool) : bool := default enabled (u ≫= mu_enabled).

Lemma wp_routes rq (s : Sy) : gate_stamped (tables s).1 → wp (inner rq) (λ _ s', let m := (tables s).1 in let m' := (tables s').1 in
  gate_stamped m' ∧ ms_allow_paths m' = ms_allow_paths m ∧ ms_enabled m' = toggled (accepted_update rq) (ms_enabled m) ∧
  (accepted_update rq = None → m' = m)) s.
Proof.
  intros Hs. unfold routes, accepted_update. destruct (bool_decide_reflect (mq_path rq = "/maintenance" ∧ mq_method rq = "POST")) as [[Hp Hm]|Hno].
  2: { destruct (bool_decide_reflect (mq_path rq = "/maintenance/status")); [by destruct (bool_decide _)|].
       destruct (bool_decide_reflect (mq_path rq = "/maintenance")).
       - destruct (bool_decide_reflect (mq_method rq = "POST")); [naive_solver|done].
       - apply (wp_keeps _ _ _ _ (app_behind rq)). intros r s' Hsame. by rewrite Hsame. }
  rewrite Hp, Hm. rewrite (bool_decide_false ("/maintenance" = "/maintenance/status")), !bool_decide_true by done.
  destruct (mq_update rq) as [u|]; [|done]. simpl. unfold admin_toggle_handler.
  destruct admin_token as [expected|]; [|done]. simpl. destruct (bool_decide_reflect (expected = "")) as [He|He].
  { destruct (presented rq) as [t|]; [|done]. simpl. destruct (bool_decide_reflect (expected ≠ "" ∧ t = expected)); [naive_solver|done]. }
  destruct (presented rq) as [t|]; [|done]. simpl. pose proof (constant_time_eq_spec t expected) as Heq.
  destruct (bool_decide_reflect (expected ≠ "" ∧ t = expected)) as [[_ Ht]|Ht].
  - rewrite (proj2 Heq Ht). wp_step. eapply wp_mono; [by apply wp_apply_update|]. by intros r s' (-> & _ & Hst & Hps & Hen).
  - destruct (constant_time_eq _ _); [naive_solver|done].
Qed.

(** What passes the gate, and what a request does to it. *)
Definition passes (m : MaintenanceState) (rq : MRequest) : bool := negb (ms_enabled m) || allowed (ms_allow_paths m) (mq_path rq).
Lemma serve_one_spec rq (s : Sy) :
  serve_one rq s = if passes (tables s).1 rq then inner rq s
                   else (Ok (build_503 number_of show_time (snapshot (tables s).1)), s).
Proof.
  unfold gate_served, maintenance_middleware, passes, is_enabled, mbind, sm_bind, sm_get. destruct (ms_enabled (tables s).1); simpl; [|done].
  by destruct (allowed _ _).
Qed.
Definition gate_after (ps : list string) (enabled : bool) (rqs : list MRequest) : bool :=
  foldl (λ en rq, if negb en || allowed ps (mq_path rq) then toggled (accepted_update rq) en else en) enabled rqs.
Definition after_requests (rqs : list MRequest) (s : Sy) : Sy := foldl (λ s rq, (serve_one rq s).2) s rqs.

Lemma gate_history rqs (s : Sy) : gate_stamped (tables s).1 →
  let m := (tables s).1 in let m' := (tables (after_requests rqs s)).1 in
  gate_stamped m' ∧ ms_allow_paths m' = ms_allow_paths m ∧ ms_enabled m' = gate_after (ms_allow_paths m) (ms_enabled m) rqs.
Proof.
  revert s. induction rqs as [|rq rqs IH]; intros s Hs; simpl; [done|].
  assert (gate_stamped (tables (serve_one rq s).2).1 ∧ ms_allow_paths (tables (serve_one rq s).2).1 = ms_allow_paths (tables s).1 ∧
    ms_enabled (tables (serve_one rq s).2).1 = if negb (ms_enabled (tables s).1) || allowed (ms_allow_paths (tables s).1) (mq_path rq)
      then toggled (accepted_update rq) (ms_enabled (tables s).1) else ms_enabled (tables s).1) as (Hs' & Hps & Hen).
  { rewrite serve_one_spec. unfold passes. destruct (_ || _); [|done].
    pose proof (wp_routes rq s Hs) as (H1 & H2 & H3 & _). done. }
  destruct (IH _ Hs') as (H1 & H2 & H3). by rewrite H2, H3, Hps, Hen.
Qed.

(** Where the allowed paths leave out the admin's route, a gate that is on stays on. *)
Lemma locked_out rqs (s : Sy) : gate_stamped (tables s).1 → ms_enabled (tables s).1 = true →
  allowed (ms_allow_paths (tables s).1) "/maintenance" = false → ms_enabled (tables (after_requests rqs s)).1 = true.
Proof.
  intros Hs Hen Hp. destruct (gate_history rqs s Hs) as (_ & _ & ->). rewrite Hen. clear Hen Hs.
  induction rqs as [|rq rqs IH]; [done|]. simpl. destruct (allowed _ (mq_path rq)) eqn:Hrq; [|done]. unfold accepted_update.
  rewrite bool_decide_false; [done|]. intros [Hpath _]. congruence.
Qed.

(** C31: Whatever requests came before: the gate is as the last accepted toggle left it, it says since when exactly while it is
    on, its allowed paths are those it was built with, and the next request is answered 503 and reaches nothing where the gate is
    on and its path begins with none of them, and is answered by its route where not; no route but the admin's, with the
    token, changes the gate. *)
Theorem maintenance_gate (cfg : MaintenanceConfig) (m : MaintenanceState) (s0 s1 : St unit W) (a : A) (rqs : list MRequest) :
  from_config cfg s0 = (Ok m, s1) →
  let s := after_requests rqs (mkSt (m, a) (world s1)) in let g := (tables s).1 in
  gate_stamped g ∧ ms_enabled g = gate_after (mc_allow_paths cfg) (mc_enabled cfg) rqs ∧
  ∀ rq,
    (if ms_enabled g && negb (allowed (mc_allow_paths cfg) (mq_path rq)) then
       serve_one rq s = (Ok (build_503 number_of show_time (snapshot g)), s)
     else serve_one rq s = inner rq s) ∧
    (accepted_update rq = None → (tables (serve_one rq s).2).1 = g).
Proof.
  intros Hcfg. pose proof (from_config_stamped cfg s0) as H0. unfold wp in H0. rewrite Hcfg in H0.
  destruct H0 as (m' & [= <-] & Hst & Hen & Hps). intros s g.
  destruct (gate_history rqs (mkSt (m, a) (world s1)) Hst) as (H1 & H2 & H3). fold s in H1, H2, H3. fold g in H1, H2, H3.
  simpl in H2, H3. rewrite Hen, Hps in H3. rewrite Hps in H2. split; [done|]. split; [done|]. intros rq.
  rewrite serve_one_spec. unfold passes. fold g. rewrite H2. split.
  - destruct (ms_enabled g); simpl; [|done]. by destruct (allowed _ _).
  - intros Ha. destruct (_ || _); [|done]. pose proof (wp_routes rq s H1) as (_ & _ & _ & H). by apply H.
Qed.
End facts.

(** ** A gate that is turned *)
Module MaintenanceExample.
#[local] Existing Instance Concrete.libs.
#[local] Existing Instance ConcreteWorld.demo_world.
#[local] Abbreviation Sy := (St (MaintenanceState * nat) ConcreteWorld.DW).
(** An application that counts what reaches it. *)
Definition counting_app (rq : MRequest) : sm Sy Empty_set MResponse := λ s,
  (Ok (mkMResponse 200 ∅ VNull), mkSt ((tables s).1, S (tables s).2) (world s)).
Lemma app_behind rq : keeps (λ s s' : Sy, (tables s').1 = (tables s).1) (counting_app rq).
Proof. done. Qed.
Definition axum_refusal : MResponse := mkMResponse 422 ∅ VNull.
Definition gate_serve := gate_served Concrete.NInt show_Z (Some "secret") axum_refusal axum_refusal counting_app.
Definition no_header (h : string) : option string := None.
Definition page (path : string) : MRequest := mkMRequest "GET" path no_header None.
Definition turn (token : string) (on : bool) : MRequest :=
  mkMRequest "POST" "/maintenance" (λ h, if bool_decide (h = "authorization") then Some ("Bearer " +:+ token) else None)
    (Some (mkUpdate (Some on) None None None (Some "soon"))).
Definition boot : St unit ConcreteWorld.DW := mkSt () (ConcreteWorld.mkDW [] 100 1).
Definition day : list MRequest := [page "/orders"; turn "secret" true; turn "guess" false; page "/orders"; page "/healthz"].
Definition built : MaintenanceState :=
  mkMaintenance false (mkDetails (mc_message maintenance_config_default) 300 "warning" None None) (mc_allow_paths maintenance_config_default).

Lemma maintenance_gate_witness :
  let s := after_requests Concrete.NInt show_Z (Some "secret") axum_refusal axum_refusal counting_app day (mkSt (built, 0%nat) (world boot)) in
  gate_after (Some "secret") (mc_allow_paths maintenance_config_default) false day = true ∧
  gate_serve (page "/orders") s = (Ok (build_503 Concrete.NInt show_Z (snapshot (tables s).1)), s) ∧ (tables s).2 = 2%nat.
Proof.
  intros s.
  destruct (maintenance_gate (L:=Concrete.libs) Concrete.NInt show_Z (Some "secret") axum_refusal axum_refusal counting_app app_behind
    maintenance_config_default built boot boot 0%nat day eq_refl) as (_ & Hg & Hrq).
  split; [by_vm|]. split; [|by_vm]. destruct (Hrq (page "/orders")) as [H _]. fold s in H, Hg.
  assert (ms_enabled (tables s).1 = true) as Hon by (rewrite Hg; by_vm). rewrite Hon in H. exact H.
Defined.

(** The update's comment says that an empty text clears the expected end; so does a text that is no time. *)
Example unread_end_clears :
  md_estimated_end_at (apply_fields (mkUpdate None None None None (Some "soon")) (mkDetails "" 300 "warning" None (Some 5))) = None.
Proof. reflexivity. Qed.
End MaintenanceExample.
