(* ===== verification/Policy.v ===== *)
(** * Policies and specifications

    [backbone-core/src/policy.rs]: whether an entity's state allows an operation, and how policies combine;
    [backbone-auth/src/resource_policy.rs]: whether a caller may do something to an entity, and the guard that asks;
    [backbone-core/src/specification.rs]: rules about a candidate, and how they combine. A policy of an application is a
    computation: it may look things up, fail, or panic. The permission names that a resource declares for code
    generators are left out. *)
From Stdlib Require Import ZArith Lia Ascii.
From S2P Require Import Prelude RustStr Json WorkflowExpr Grants.

Local Open Scope Z_scope.
Set Warnings "-register-all".

(** ** [policy.rs]

    [Ok true] permits, [Ok false] denies, an error denies with a reason. *)
Abbreviation PolicyDecision S := (sm S string bool).
Record DomainPolicy (S E : Type) := mkPolicy {
  can_create : E → PolicyDecision S;
  can_update : E → E → PolicyDecision S;
  can_delete : E → PolicyDecision S;
  can_restore : E → PolicyDecision S;
}.
Arguments mkPolicy {_ _} _ _ _ _.
Arguments can_create {_ _} _ _.
Arguments can_update {_ _} _ _ _.
Arguments can_delete {_ _} _ _.
Arguments can_restore {_ _} _ _.

Inductive PolicyOutcome := Permit | Deny (reason : string).
Definition is_permit (o : PolicyOutcome) : bool := match o with Permit => true | Deny _ => false end.
Definition is_deny (o : PolicyOutcome) : bool := match o with Permit => false | Deny _ => true end.
Definition outcome_reason (o : PolicyOutcome) : option string := match o with Permit => None | Deny r => Some r end.
Definition into_decision {S} (o : PolicyOutcome) : PolicyDecision S := match o with Permit => mret true | Deny r => sm_err r end.

Section policies.
Context {S E : Type}.
Implicit Types (p : DomainPolicy S E) (ps : list (DomainPolicy S E)).

(** [self.can_create(entity).await?.then_some(()).ok_or_else(..)] *)
Definition enforce_create p (entity : E) : sm S string unit :=
  b ← can_create p entity; if (b : bool) then mret tt else sm_err "create denied".
Definition enforce_delete p (entity : E) : sm S string unit :=
  b ← can_delete p entity; if (b : bool) then mret tt else sm_err "delete denied".

(** The loops of the combinators, which the four methods repeat over the policies' answers. *)
Fixpoint every (l : list (PolicyDecision S)) : PolicyDecision S :=
  match l with
  | [] => mret true
  | d :: l => r ← attempt d;
      match r with inr true => every l | inr false => mret false | inl reason => sm_err reason end
  end.
Fixpoint some (deny_reason : string) (l : list (PolicyDecision S)) : PolicyDecision S :=
  match l with
  | [] => sm_err deny_reason
  | d :: l => r ← attempt d; match r with inr true => mret true | _ => some deny_reason l end
  end.
Definition inverse (deny_reason : string) (d : PolicyDecision S) : PolicyDecision S :=
  r ← attempt d; match r with inr true => sm_err deny_reason | _ => mret true end.

Definition PermitAllPolicy : DomainPolicy S E := mkPolicy (λ _, mret true) (λ _ _, mret true) (λ _, mret true) (λ _, mret true).
Definition DenyAllPolicy (reason : string) : DomainPolicy S E :=
  mkPolicy (λ _, sm_err reason) (λ _ _, sm_err reason) (λ _, sm_err reason) (λ _, sm_err reason).
Definition AllOfPolicy ps : DomainPolicy S E :=
  mkPolicy (λ e, every (map (λ p, can_create p e) ps)) (λ c u, every (map (λ p, can_update p c u) ps))
    (λ e, every (map (λ p, can_delete p e) ps)) (λ e, every (map (λ p, can_restore p e) ps)).
Definition AnyOfPolicy ps (deny_reason : string) : DomainPolicy S E :=
  mkPolicy (λ e, some deny_reason (map (λ p, can_create p e) ps)) (λ c u, some deny_reason (map (λ p, can_update p c u) ps))
    (λ e, some deny_reason (map (λ p, can_delete p e) ps)) (λ e, some deny_reason (map (λ p, can_restore p e) ps)).
Definition NotPolicy p (deny_reason : string) : DomainPolicy S E :=
  mkPolicy (λ e, inverse deny_reason (can_create p e)) (λ c u, inverse deny_reason (can_update p c u))
    (λ e, inverse deny_reason (can_delete p e)) (λ e, inverse deny_reason (can_restore p e)).
End policies.

(** ** [resource_policy.rs] *)
Inductive ResourceAction :=
  | RaRead | RaList | RaCreate | RaUpdate | RaPatch | RaDelete | RaRestore | RaHardDelete | RaCustom (name : string).
#[export] Instance resource_action_eq_dec : EqDecision ResourceAction.
Proof. solve_decision. Defined.
Definition action_name (a : ResourceAction) : string :=
  match a with
  | RaRead => "read" | RaList => "list" | RaCreate => "create" | RaUpdate => "update" | RaPatch => "patch"
  | RaDelete => "delete" | RaRestore => "restore" | RaHardDelete => "hard_delete" | RaCustom name => name
  end.
Record AccessDenied := mkDenied { ad_caller : string; ad_action : string }.
Definition access_denied_text (d : AccessDenied) : string :=
  "access denied: caller '" +:+ ad_caller d +:+ "' may not perform '" +:+ ad_action d +:+ "' on this resource".
Record ResourcePolicy (S E : Type) := mkResourcePolicy {
  rp_can : ResourceAction → E → AuthContext → sm S Empty_set bool;
  rp_disabled : list ResourceAction;
}.
Arguments mkResourcePolicy {_ _} _ _.
Arguments rp_can {_ _} _ _ _ _.
Arguments rp_disabled {_ _} _.
Section guard.
Context {S E : Type}.
(** [PermissionGuard::check], and [ServicePermissionGuard::check], which is the same. *)
Definition guard_check (policy : ResourcePolicy S E) (action : ResourceAction) (entity : E) (ctx : AuthContext) : sm S AccessDenied unit :=
  if bool_decide (action ∈ rp_disabled policy) then sm_err (mkDenied (user_id ctx) (action_name action))
  else b ← map_err (Empty_set_rect (λ _, AccessDenied)) (rp_can policy action entity ctx);
       if (b : bool) then mret tt else sm_err (mkDenied (user_id ctx) (action_name action)).
Definition PermitAllResourcePolicy : ResourcePolicy S E := mkResourcePolicy (λ _ _ _, mret true) [].
Definition DenyAllResourcePolicy : ResourcePolicy S E := mkResourcePolicy (λ _ _ _, mret false) [].
Definition RoleRequiredPolicy (required_roles : list string) : ResourcePolicy S E :=
  mkResourcePolicy (λ _ _ ctx, mret (existsb (λ role, bool_decide (role ∈ auth_roles ctx)) required_roles)) [].
End guard.

(** ** [specification.rs]

    Whether a candidate satisfies, or an error, whose [Debug] a composite puts in its own. *)
Definition Specification (X T : Type) : Type := T → res X bool.
Section specifications.
Context {T X Y : Type} (debug_left : X → string) (debug_right : Y → string).
Definition AndSpecification (left : Specification X T) (right : Specification Y T) : Specification string T := λ candidate,
  left_result ← res_map_err (λ e, "Left specification failed: " +:+ debug_left e) (left candidate);
  if negb left_result then Ok false
  else res_map_err (λ e, "Right specification failed: " +:+ debug_right e) (right candidate).
Definition OrSpecification (left : Specification X T) (right : Specification Y T) : Specification string T := λ candidate,
  left_result ← res_map_err (λ e, "Left specification failed: " +:+ debug_left e) (left candidate);
  if (left_result : bool) then Ok true
  else res_map_err (λ e, "Right specification failed: " +:+ debug_right e) (right candidate).
Definition NotSpecification (spec : Specification X T) : Specification string T := λ candidate,
  result ← res_map_err (λ e, "Inner specification failed: " +:+ debug_left e) (spec candidate);
  Ok (negb result).
Definition AlwaysTrue : Specification Empty_set T := λ _, Ok true.
Definition AlwaysFalse : Specification Empty_set T := λ _, Ok false.
Definition PredicateSpecification (predicate : T → bool) : Specification Empty_set T := λ candidate, Ok (predicate candidate).
End specifications.
Section evaluator.
Context {T : Type}.
Fixpoint evaluate_all (specifications : list (Specification string T)) (candidate : T) : res string (list (string + bool)) :=
  match specifications with
  | [] => Ok []
  | spec :: l =>
      match spec candidate with
      | Panic => Panic
      | Ok b => rest ← evaluate_all l candidate; Ok (inr b :: rest)
      | Err e => rest ← evaluate_all l candidate; Ok (inl e :: rest)
      end
  end.
Fixpoint all_satisfied (specifications : list (Specification string T)) (candidate : T) : res string bool :=
  match specifications with
  | [] => Ok true
  | spec :: l => b ← spec candidate; if negb b then Ok false else all_satisfied l candidate
  end.
Fixpoint any_satisfied (specifications : list (Specification string T)) (candidate : T) : res string bool :=
  match specifications with
  | [] => Ok false
  | spec :: l => b ← spec candidate; if (b : bool) then Ok true else any_satisfied l candidate
  end.
End evaluator.

(** ** Facts *)

(** Policies built from an application's own by the combinators. *)
Inductive PolicyRule (S E : Type) :=
  | RLeaf (p : DomainPolicy S E)
  | RAlways
  | RNever (reason : string)
  | RAll (l : list (PolicyRule S E))
  | RAny (l : list (PolicyRule S E)) (deny_reason : string)
  | RNot (t : PolicyRule S E) (deny_reason : string).
Arguments RLeaf {_ _} _.
Arguments RAlways {_ _}.
Arguments RNever {_ _} _.
Arguments RAll {_ _} _.
Arguments RAny {_ _} _ _.
Arguments RNot {_ _} _ _.

Section rule_induction.
Context {S E : Type} (P : PolicyRule S E → Prop).
Context (Hleaf : ∀ p, P (RLeaf p)) (Halways : P RAlways) (Hnever : ∀ r, P (RNever r)).
Context (Hall : ∀ l, Forall P l → P (RAll l)) (Hany : ∀ l r, Forall P l → P (RAny l r)) (Hnot : ∀ t r, P t → P (RNot t r)).
Fixpoint rule_nested_ind (t : PolicyRule S E) : P t :=
  let each := fix each (l : list (PolicyRule S E)) : Forall P l :=
    match l with [] => List.Forall_nil P | t :: l => @List.Forall_cons _ P t l (rule_nested_ind t) (each l) end in
  match t with
  | RLeaf p => Hleaf p
  | RAlways => Halways
  | RNever r => Hnever r
  | RAll l => Hall l (each l)
  | RAny l r => Hany l r (each l)
  | RNot t r => Hnot t r (rule_nested_ind t)
  end.
End rule_induction.

Section meaning.
Context {S E : Type}.
Fixpoint denote (t : PolicyRule S E) : DomainPolicy S E :=
  match t with
  | RLeaf p => p
  | RAlways => PermitAllPolicy
  | RNever r => DenyAllPolicy r
  | RAll l => AllOfPolicy (map denote l)
  | RAny l r => AnyOfPolicy (map denote l) r
  | RNot t r => NotPolicy (denote t) r
  end.
(** An operation, and asking a policy about it. *)
Inductive PolicyOp := OpCreate (e : E) | OpUpdate (current updated : E) | OpDelete (e : E) | OpRestore (e : E).
Definition ask_policy (p : DomainPolicy S E) (op : PolicyOp) : PolicyDecision S :=
  match op with
  | OpCreate e => can_create p e
  | OpUpdate c u => can_update p c u
  | OpDelete e => can_delete p e
  | OpRestore e => can_restore p e
  end.
Definition permits (p : DomainPolicy S E) (op : PolicyOp) (s : S) : bool := match (ask_policy p op s).1 with Ok true => true | _ => false end.
(** A policy that answers, and changes nothing. *)
Definition policy_answers (p : DomainPolicy S E) (op : PolicyOp) (s : S) : Prop := (ask_policy p op s).2 = s ∧ (ask_policy p op s).1 ≠ Panic.
Fixpoint leaves (t : PolicyRule S E) : list (DomainPolicy S E) :=
  match t with
  | RLeaf p => [p]
  | RAlways | RNever _ => []
  | RAll l | RAny l _ => concat (map leaves l)
  | RNot t _ => leaves t
  end.
(** What the combinators mean. *)
Fixpoint formula (op : PolicyOp) (s : S) (t : PolicyRule S E) : bool :=
  match t with
  | RLeaf p => permits p op s
  | RAlways => true
  | RNever _ => false
  | RAll l => forallb (formula op s) l
  | RAny l _ => existsb (formula op s) l
  | RNot t _ => negb (formula op s t)
  end.

Lemma ask_all l op : ask_policy (AllOfPolicy l) op = every (map (λ p, ask_policy p op) l).
Proof. by destruct op. Qed.
Lemma ask_any l r op : ask_policy (AnyOfPolicy l r) op = some r (map (λ p, ask_policy p op) l).
Proof. by destruct op. Qed.
Lemma ask_not p r op : ask_policy (NotPolicy p r) op = inverse r (ask_policy p op).
Proof. by destruct op. Qed.

(** All of them: the answer of the first that does not permit, or yes. *)
Lemma every_first l op s : Forall (λ p, policy_answers p op s) l →
  every (map (λ p, ask_policy p op) l) s =
    (match List.find (λ p, negb (permits p op s)) l with Some p => (ask_policy p op s).1 | None => Ok true end, s).
Proof.
  induction 1 as [|p l [Hs Hp] _ IH]; [done|]. unfold permits. simpl. unfold mbind, sm_bind, attempt.
  destruct (ask_policy p op s) as [[[]|e|] s'] eqn:Ha; simpl in *; subst; try done; rewrite ?Ha; done.
Qed.
Lemma some_first r l op s : Forall (λ p, policy_answers p op s) l →
  some r (map (λ p, ask_policy p op) l) s = (if existsb (λ p, permits p op s) l then Ok true else Err r, s).
Proof.
  induction 1 as [|p l [Hs Hp] _ IH]; [done|]. unfold permits. simpl. unfold mbind, sm_bind, attempt.
  destruct (ask_policy p op s) as [[[]|e|] s'] eqn:Ha; simpl in *; subst; done.
Qed.

Lemma find_none_forallb {B} (f : B → bool) l : List.find (λ x, negb (f x)) l = None ↔ forallb f l = true.
Proof. induction l as [|x l IH]; simpl; [done|]. destruct (f x); simpl; [exact IH|done]. Qed.
(** What holds of the parts of a rule, over its list. *)
Definition rule_ok (op : PolicyOp) (s : S) (t : PolicyRule S E) : Prop := policy_answers (denote t) op s ∧ permits (denote t) op s = formula op s t.
Lemma rules_ok op s l : Forall (rule_ok op s) l →
  Forall (λ p, policy_answers p op s) (map denote l) ∧
  forallb (λ p, permits p op s) (map denote l) = forallb (formula op s) l ∧
  existsb (λ p, permits p op s) (map denote l) = existsb (formula op s) l.
Proof.
  induction 1 as [|t l [Ha Hp] _ (IHa & IHp & IHe)]; simpl; [done|]. split; [by constructor|]. by rewrite Hp, IHp, IHe.
Qed.
Lemma leaves_forall (P : DomainPolicy S E → Prop) (Q : PolicyRule S E → Prop) l :
  Forall (λ t, Forall P (leaves t) → Q t) l → Forall P (concat (map leaves l)) → Forall Q l.
Proof. induction 1 as [|t l Ht _ IH]; simpl; [constructor|]. intros [? ?]%Forall_app. constructor; auto. Qed.

Lemma rule_spec t op s : Forall (λ p, policy_answers p op s) (leaves t) → rule_ok op s t.
Proof.
  unfold rule_ok. induction t as [p| |r|l IH|l r IH|t r IH] using rule_nested_ind; simpl.
  - by intros [Hp _]%Forall_cons.
  - intros _. unfold policy_answers, permits. by destruct op.
  - intros _. unfold policy_answers, permits. by destruct op.
  - intros Hl. destruct (rules_ok op s l (leaves_forall _ _ l IH Hl)) as (Ha & <- & _). unfold policy_answers, permits at 1.
    rewrite ask_all, (every_first _ _ _ Ha). simpl. destruct (List.find _ _) as [p|] eqn:Hf.
    + assert (forallb (λ p, permits p op s) (map denote l) = false) as ->.
      { apply not_true_iff_false. rewrite <-find_none_forallb. congruence. }
      apply List.find_some in Hf as [Hin%list_elem_of_In Hp%negb_true_iff]. rewrite Forall_forall in Ha. by destruct (Ha p Hin).
    + apply find_none_forallb in Hf. by rewrite Hf.
  - intros Hl. destruct (rules_ok op s l (leaves_forall _ _ l IH Hl)) as (Ha & _ & <-). unfold policy_answers, permits at 1.
    rewrite ask_any, (some_first _ _ _ _ Ha). simpl. by destruct (existsb _ _).
  - intros Hl. destruct (IH Hl) as [[Hs Hp] <-]. unfold policy_answers, permits. rewrite ask_not. unfold inverse, mbind, sm_bind, attempt.
    destruct (ask_policy (denote t) op s) as [[[]|e|] s'] eqn:Ha; simpl in *; by subst.
Qed.

(** Policies put together permit what the propositional formula over the application's own permits, for each of the
    four operations, and change nothing; what all must permit is refused as the first that does not permit refuses it. *)
Theorem policies_mean (t : PolicyRule S E) (op : PolicyOp) (s : S) : Forall (λ p, policy_answers p op s) (leaves t) →
  (ask_policy (denote t) op s).2 = s ∧ ((ask_policy (denote t) op s).1 = Ok true ↔ formula op s t = true) ∧
  ∀ l, t = RAll l → (ask_policy (denote t) op s).1 =
    match List.find (λ t, negb (formula op s t)) l with Some t => (ask_policy (denote t) op s).1 | None => Ok true end.
Proof.
  intros Hl. destruct (rule_spec t op s Hl) as [[Hs Hp] Hf]. split; [done|]. split.
  { rewrite <-Hf. unfold permits. by destruct (ask_policy (denote t) op s).1 as [[]|e|]. }
  intros l ->. simpl in Hl. assert (Forall (rule_ok op s) l) as Hok.
  { eapply leaves_forall; [|exact Hl]. apply Forall_forall. intros t _. apply rule_spec. }
  destruct (rules_ok op s l Hok) as (Ha & _). cbn [denote]. rewrite ask_all, (every_first _ _ _ Ha). cbn [fst].
  clear Ha Hl Hs Hp Hf. induction Hok as [|t l [_ Hp] _ IH]; [done|]. simpl. rewrite Hp. by destruct (formula op s t).
Qed.
End meaning.

(** The guard lets an action through where it is not disabled and the policy says yes; a disabled one is not even asked. *)
Lemma check_spec {S E} (policy : ResourcePolicy S E) action entity ctx (s : S) :
  let denied := mkDenied (user_id ctx) (action_name action) in
  guard_check policy action entity ctx s =
    if bool_decide (action ∈ rp_disabled policy) then (Err denied, s)
    else match rp_can policy action entity ctx s with
         | (Ok true, s') => (Ok tt, s')
         | (Ok false, s') => (Err denied, s')
         | (Err e, s') => match e with end
         | (Panic, s') => (Panic, s')
         end.
Proof.
  unfold guard_check. case_bool_decide; [done|]. unfold mbind, sm_bind, map_err. by destruct (rp_can _ _ _ _ _) as [[[]|[]|] s'].
Qed.
Lemma role_required_spec {S E} roles action (entity : E) ctx (s : S) :
  (guard_check (RoleRequiredPolicy roles) action entity ctx s).1 = Ok tt ↔ ∃ role, role ∈ roles ∧ role ∈ auth_roles ctx.
Proof.
  rewrite check_spec. simpl.
  destruct (existsb _ roles) eqn:He; simpl; split; try done.
  - intros _. apply existsb_exists in He as (role & Hr & Ha%bool_decide_eq_true). exists role. by rewrite list_elem_of_In.
  - intros (role & Hr & Ha). apply not_true_iff_false in He. destruct He. apply existsb_exists. exists role.
    split; [by apply list_elem_of_In|by apply bool_decide_eq_true].
Qed.

(** Over specifications that answer, the composites are the connectives, and the quantifiers over a list. *)
Lemma specifications_mean {T X} debug (l r : Specification X T) (ls : list (Specification string T)) (c : T) a b (bs : list bool) :
  l c = Ok a → r c = Ok b → Forall2 (λ (spec : Specification string T) x, spec c = Ok x) ls bs →
  AndSpecification debug debug l r c = Ok (a && b) ∧ OrSpecification debug debug l r c = Ok (a || b) ∧
  NotSpecification debug l c = Ok (negb a) ∧ evaluate_all ls c = Ok (map inr bs) ∧
  all_satisfied ls c = Ok (forallb id bs) ∧ any_satisfied ls c = Ok (existsb id bs).
Proof.
  intros Hl Hr Hls. unfold AndSpecification, OrSpecification, NotSpecification. rewrite Hl, Hr. simpl.
  split_and!; [by destruct a..|done| | |]; induction Hls as [|spec x ls bs Hx _ IH]; simpl; try done; rewrite Hx; simpl.
  - by rewrite IH.
  - destruct x; simpl; [exact IH|done].
  - destruct x; simpl; [done|exact IH].
Qed.

(** ** Policies over a document *)
Module PolicyExample.
Record Document := { locked : bool; archived : bool }.
Definition not_locked : DomainPolicy unit Document :=
  mkPolicy (λ _, mret true) (λ c _, if locked c then sm_err "entity is locked" else mret true)
    (λ d, if locked d then sm_err "entity is locked" else mret true) (λ _, mret true).
Definition not_archived : DomainPolicy unit Document :=
  mkPolicy (λ d, mret (negb (archived d))) (λ c _, mret (negb (archived c))) (λ _, mret true) (λ _, mret true).
Definition editable : PolicyRule unit Document := RAll [RLeaf not_archived; RAny [RLeaf not_locked; RNever "closed"] "nobody may"; RNot (RNever "") "never"].
Definition doc : Document := {| locked := true; archived := false |}.

Lemma policies_mean_witness :
  Forall (λ p, policy_answers p (OpDelete doc) tt) (leaves editable) ∧
  (ask_policy (denote editable) (OpDelete doc) tt).1 ≠ Ok true ∧ (ask_policy (denote editable) (OpDelete doc) tt).1 = Err "nobody may".
Proof.
  assert (Forall (λ p, policy_answers p (OpDelete doc) tt) (leaves editable)) as Hl by (by repeat constructor).
  destruct (policies_mean editable (OpDelete doc) tt Hl) as (_ & Hf & Hall). split; [done|]. split.
  - intros H%Hf. done.
  - by rewrite (Hall _ eq_refl).
Defined.
(** A policy that errs denies; its inverse permits. *)
Example inverse_of_error : (ask_policy (denote (RNot (RLeaf not_locked) "")) (OpDelete doc) tt).1 = Ok true.
Proof. reflexivity. Qed.
End PolicyExample.
