(* ===== verification/IntegrationBus.v ===== *)
(** * Integration events

    [backbone-messaging/src/integration.rs] and [integration_bus.rs]: events between modules, the envelopes they
    travel in, and the bus that hands each to the handlers whose patterns match. A handler is a name by which the
    bus knows it (the pointer of its [Arc]); what it does, which may be anything to the bus too, and what
    passes while the bus waits before another try, are parameters, as are serde's conversions. Each lock of the bus is
    held for one of its own steps and never while a handler runs. Tracing is left out. *)
From Stdlib Require Import ZArith Lia Ascii.
From S2P Require Import Prelude RustStr RustChar Json WorkflowExpr Database.

Local Open Scope Z_scope.

(** ** [error.rs] *)
Inductive EventError :=
  | PublishError (m : string)
  | HandlerError (handler message : string)
  | EventSerializationError (m : string)
  | EventNotFound (m : string)
  | BusClosed
  | ChannelError (m : string)
  | EventTimeout
  | InvalidEventType (m : string)
  | DuplicateHandler (m : string).
Definition event_error_text (e : EventError) : string :=
  match e with
  | PublishError m => "Failed to publish event: " +:+ m
  | HandlerError h m => "Handler '" +:+ h +:+ "' failed: " +:+ m
  | EventSerializationError m => "Serialization error: " +:+ m
  | EventNotFound m => "Event not found: " +:+ m
  | BusClosed => "Event bus is closed"
  | ChannelError m => "Channel send error: " +:+ m
  | EventTimeout => "Timeout waiting for event"
  | InvalidEventType m => "Invalid event type: " +:+ m
  | DuplicateHandler m => "Handler already registered: " +:+ m
  end.

Section envelope.
Context {L : Libs}.

(** ** [integration.rs]

    [serde_json::to_value] may refuse an event, and [from_value] a payload; an error is its message. *)
Class IntegrationEvent (E : Type) := {
  ie_event_type : E → string;
  ie_source_context : E → string;
  ie_aggregate_id : E → string;
  ie_occurred_at : E → instant;
  ie_version : E → Z;
  ie_correlation_id : E → option string;
  ie_to_value : E → string + Value;
  ie_from_value : Value → string + E;
}.

Record IntegrationEventEnvelope := mkEnvelope {
  en_id : string;
  en_event_type : string;
  en_source_context : string;
  en_aggregate_id : string;
  en_occurred_at : instant;
  en_published_at : instant;
  en_version : Z;
  en_correlation_id : option string;
  en_causation_id : option string;
  en_payload : Value;
}.

Definition from_event {T W E} {HW : World W} {IE : IntegrationEvent E} (event : E) : sm (St T W) string IntegrationEventEnvelope :=
  id ← fresh_uuid;
  published_at ← utc_now;
  payload ← sm_lift (res_of_sum (ie_to_value event));
  mret (mkEnvelope (uuid_to_string id) (ie_event_type event) (ie_source_context event) (ie_aggregate_id event)
    (ie_occurred_at event) published_at (ie_version event) (ie_correlation_id event) None payload).
Definition event_deserialize {E} {IE : IntegrationEvent E} (e : IntegrationEventEnvelope) : string + E :=
  ie_from_value (en_payload e).
Definition envelope_with_causation_id (e : IntegrationEventEnvelope) (c : string) : IntegrationEventEnvelope :=
  mkEnvelope (en_id e) (en_event_type e) (en_source_context e) (en_aggregate_id e) (en_occurred_at e) (en_published_at e)
    (en_version e) (en_correlation_id e) (Some c) (en_payload e).
Definition envelope_with_correlation_id (e : IntegrationEventEnvelope) (c : string) : IntegrationEventEnvelope :=
  mkEnvelope (en_id e) (en_event_type e) (en_source_context e) (en_aggregate_id e) (en_occurred_at e) (en_published_at e)
    (en_version e) (Some c) (en_causation_id e) (en_payload e).

Definition event_matches (pattern event_type : string) : bool :=
  if bool_decide (pattern = "*") then true
  else match strip_suffix_str ".*" pattern with
       | Some prefix => starts_with event_type prefix
       | None => bool_decide (pattern = event_type)
       end.
Definition matches_pattern (e : IntegrationEventEnvelope) (pattern : string) : bool := event_matches pattern (en_event_type e).

(** ** [integration_bus.rs] *)
Record IntegrationBusConfig := mkBusConfig {
  bc_buffer_size : Z;
  bc_persist_events : bool;
  bc_max_history_size : nat;
  bc_enable_dead_letter_queue : bool;
}.
Definition bus_config_default : IntegrationBusConfig := mkBusConfig 10000 true (Z.to_nat 100000) true.

Record DeadLetterEntry := mkDeadLetter {
  dl_envelope : IntegrationEventEnvelope;
  dl_handler_name : string;
  dl_error : string;
  dl_retry_count : Z;
  dl_failed_at : instant;
}.

(** What a handler says of itself. *)
Definition HandlerRef : Type := nat.
Record HandlerInfo := mkHandlerInfo {
  hi_patterns : list string;
  hi_name : string;
  hi_should_retry : bool;
  hi_max_retries : Z;
}.

(** The bus beside what the application keeps: [bus_sent] is what was given to the broadcast channel. *)
Record Bus (A : Type) := mkBus {
  bus_handlers : gmap string (list HandlerRef);
  bus_history : list IntegrationEventEnvelope;
  bus_dead : list DeadLetterEntry;
  bus_sent : list IntegrationEventEnvelope;
  bus_app : A;
}.
End envelope.
Arguments mkBus {_ _} _ _ _ _ _.
Arguments bus_handlers {_ _} _.
Arguments bus_history {_ _} _.
Arguments bus_dead {_ _} _.
Arguments bus_sent {_ _} _.
Arguments bus_app {_ _} _.

Section bus.
Context {L : Libs} {HI : HashIter} {A W : Type} {HW : World W}.
#[local] Abbreviation Sy := (St (Bus A) W).
#[local] Abbreviation Bm := (sm Sy EventError).
Implicit Types (b : Bus A).
Context (info : HandlerRef → HandlerInfo).
Context (handle : HandlerRef → IntegrationEventEnvelope → Bm unit) (pause : Z → Bm unit).

Definition on_bus (f : Bus A → Bus A) : Bm unit := λ s, (Ok tt, mkSt (f (tables s)) (world s)).
Definition set_handlers (h : gmap string (list HandlerRef)) b : Bus A := mkBus h (bus_history b) (bus_dead b) (bus_sent b) (bus_app b).
Definition set_history (h : list IntegrationEventEnvelope) b : Bus A := mkBus (bus_handlers b) h (bus_dead b) (bus_sent b) (bus_app b).
Definition set_dead (d : list DeadLetterEntry) b : Bus A := mkBus (bus_handlers b) (bus_history b) d (bus_sent b) (bus_app b).
Definition add_sent (e : IntegrationEventEnvelope) b : Bus A :=
  mkBus (bus_handlers b) (bus_history b) (bus_dead b) (bus_sent b ++ [e]) (bus_app b).

(** [broadcast::channel] panics on a capacity of 0 or past half of [usize]. *)
Definition bus_with_config (config : IntegrationBusConfig) (app : A) : option (Bus A) :=
  if (0 <? bc_buffer_size config) && (bc_buffer_size config <=? u64_max / 2) then Some (mkBus ∅ [] [] [] app) else None.

(** [while history.len() > max { history.remove(0) }] *)
Fixpoint trim_front {X} (max : nat) (l : list X) : list X :=
  match l with
  | [] => []
  | _ :: l' => if (max <? length l)%nat then trim_front max l' else l
  end.
Definition store_event (config : IntegrationBusConfig) (e : IntegrationEventEnvelope) : Bm unit :=
  on_bus (λ b, set_history (trim_front (bc_max_history_size config) (bus_history b ++ [e])) b).

(** A handler stands once under each of its patterns, as often as it names it. *)
Definition register_handler (h : HandlerRef) : Bm unit :=
  on_bus (λ b, set_handlers (foldl (λ m p, <[p := default [] (m !! p) ++ [h]]> m) (bus_handlers b) (hi_patterns (info h))) b).

(** [for attempt in 0..max_retries]: [n] rounds are left, the next is the [k]-th. *)
Fixpoint try_handler (n : nat) (max_retries k : Z) (h : HandlerRef) (e : IntegrationEventEnvelope)
    (last_error : option EventError) : Bm unit :=
  match n with
  | O => sm_err (default (HandlerError (hi_name (info h)) "Unknown error") last_error)
  | S n =>
      r ← attempt (handle h e);
      match r with
      | inr _ => mret tt
      | inl err =>
          (if k <? max_retries - 1 then pause (100 * (k + 1)) else mret tt) ;;
          try_handler n max_retries (k + 1) h e (Some err)
      end
  end.
Definition handler_tries (h : HandlerRef) : Z := if hi_should_retry (info h) then hi_max_retries (info h) else 1.
Definition call_handler_with_retry (h : HandlerRef) (e : IntegrationEventEnvelope) : Bm unit :=
  try_handler (Z.to_nat (handler_tries h)) (handler_tries h) 0 h e None.

Definition add_to_dead_letter (e : IntegrationEventEnvelope) (handler_name error : string) : Bm unit :=
  failed_at ← utc_now;
  on_bus (λ b, set_dead (bus_dead b ++ [mkDeadLetter e handler_name error 3 failed_at]) b).

(** The handlers under the patterns that match, in the order the patterns are walked; and
    [retain(|h| seen.insert(h.name()))]. *)
Definition matching (m : gmap string (list HandlerRef)) (event_type : string) : list HandlerRef :=
  concat (map snd (filter (λ ph, event_matches ph.1 event_type = true) (hash_iter m))).
Fixpoint first_of_name (seen : list string) (l : list HandlerRef) : list HandlerRef :=
  match l with
  | [] => []
  | h :: l => if decide (hi_name (info h) ∈ seen) then first_of_name seen l
              else h :: first_of_name (hi_name (info h) :: seen) l
  end.
Definition recipients (m : gmap string (list HandlerRef)) (event_type : string) : list HandlerRef :=
  first_of_name [] (matching m event_type).

Definition deliver_event (config : IntegrationBusConfig) (e : IntegrationEventEnvelope) (h : HandlerRef) : Bm unit :=
  r ← attempt (call_handler_with_retry h e);
  match r with
  | inr _ => mret tt
  | inl err =>
      if bc_enable_dead_letter_queue config then add_to_dead_letter e (hi_name (info h)) (event_error_text err) else mret tt
  end.
Definition dispatch (config : IntegrationBusConfig) (e : IntegrationEventEnvelope) : Bm unit :=
  s ← sm_get;
  sm_iter (deliver_event config e) (recipients (bus_handlers (tables s)) (en_event_type e)).
Definition publish_envelope (config : IntegrationBusConfig) (e : IntegrationEventEnvelope) : Bm unit :=
  (if bc_persist_events config then store_event config e else mret tt) ;;
  on_bus (add_sent e) ;;
  dispatch config e.
Definition publish_event {E} {IE : IntegrationEvent E} (config : IntegrationBusConfig) (event : E) : Bm unit :=
  e ← map_err EventSerializationError (from_event event);
  publish_envelope config e.

(** The readings of the bus. *)
Definition events_by_pattern (pattern : string) b : list IntegrationEventEnvelope :=
  filter (λ e, matches_pattern e pattern = true) (bus_history b).
Definition events_for_aggregate (aggregate_id : string) b : list IntegrationEventEnvelope :=
  filter (λ e, en_aggregate_id e = aggregate_id) (bus_history b).
Definition clear_dead_letters : Bm unit := on_bus (set_dead []).
Definition clear_history : Bm unit := on_bus (set_history []).
Definition handler_count b : nat := sum_list (map (λ ph, length ph.2) (hash_iter (bus_handlers b))).
Definition registered_patterns b : list string := map fst (hash_iter (bus_handlers b)).
End bus.

(** ** Facts *)
Lemma trim_front_spec {X} (max : nat) (l : list X) : trim_front max l = drop (length l - max) l.
Proof.
  induction l as [|x l IH]; [done|]. unfold trim_front; fold (trim_front (X:=X)). destruct (Nat.ltb_spec max (length (x :: l))) as [Hlt|Hge].
  - simpl in Hlt. replace (length (x :: l) - max)%nat with (S (length l - max)) by (simpl; lia). exact IH.
  - by replace (length (x :: l) - max)%nat with 0%nat by lia.
Qed.

(** What a pattern without a mark for the rest matches is itself. *)
Lemma event_matches_spec pattern ty :
  event_matches pattern ty = true ↔ pattern = "*" ∨ pattern ≠ "*" ∧
    match strip_suffix_str ".*" pattern with Some prefix => starts_with ty prefix = true | None => pattern = ty end.
Proof.
  unfold event_matches. case_bool_decide as Hs; [naive_solver|].
  destruct (strip_suffix_str ".*" pattern); [naive_solver|]. rewrite bool_decide_eq_true. naive_solver.
Qed.

(** The doc comments say that ["sapiens.user.*"] is for the events of [sapiens.user]; it takes its neighbours' too. *)
Example wildcard_takes_neighbours : event_matches "sapiens.user.*" "sapiens.username.changed" = true.
Proof. reflexivity. Qed.

Section recipients.
Context {L : Libs} {HI : HashIter}.
Context (info : HandlerRef → HandlerInfo).
Implicit Types (l : list HandlerRef).

Lemma first_of_name_elem seen l h : h ∈ first_of_name info seen l → h ∈ l ∧ hi_name (info h) ∉ seen.
Proof.
  revert seen. induction l as [|x l IH]; intros seen; simpl; [by intros ?%not_elem_of_nil|].
  case_decide as Hx.
  - intros Hh%IH. set_solver.
  - intros [->|Hh%IH]%elem_of_cons; set_solver.
Qed.
Lemma first_of_name_nodup seen l : NoDup (map (hi_name ∘ info) (first_of_name info seen l)).
Proof.
  revert seen. induction l as [|x l IH]; intros seen; simpl; [constructor|]. case_decide; [apply IH|].
  simpl. constructor; [|apply IH]. intros (h & Hn & Hh)%list_elem_of_fmap.
  apply first_of_name_elem in Hh as [_ Hh]. simpl in Hn. set_solver.
Qed.
Lemma first_of_name_names seen l n :
  n ∈ map (hi_name ∘ info) (first_of_name info seen l) ↔ n ∈ map (hi_name ∘ info) l ∧ n ∉ seen.
Proof.
  revert seen. induction l as [|x l IH]; intros seen; simpl; [set_solver|].
  case_decide as Hx; [specialize (IH seen)|specialize (IH (hi_name (info x) :: seen))];
    revert IH; cbn [map compose]; rewrite ?elem_of_cons; intros IH; destruct (decide (n = hi_name (info x))); naive_solver.
Qed.

(** A handler stands under a pattern that matches. *)
Definition wants (m : gmap string (list HandlerRef)) (ty : string) (h : HandlerRef) : Prop :=
  ∃ p hs, m !! p = Some hs ∧ h ∈ hs ∧ event_matches p ty = true.
Lemma matching_elem m ty h : h ∈ matching m ty ↔ wants m ty h.
Proof.
  unfold matching, wants. rewrite list_elem_of_In, in_concat. setoid_rewrite <-list_elem_of_In.
  split.
  - intros (hs & ([p hs'] & -> & [Hp Hin]%list_elem_of_filter)%list_elem_of_fmap & Hh). exists p, hs'.
    rewrite hash_iter_perm, elem_of_map_to_list in Hin. done.
  - intros (p & hs & Hm & Hh & Hp). exists hs. split; [|done]. apply list_elem_of_fmap. exists (p, hs). split; [done|].
    apply list_elem_of_filter. split; [done|]. by rewrite hash_iter_perm, elem_of_map_to_list.
Qed.
Lemma recipients_spec m ty :
  NoDup (map (hi_name ∘ info) (recipients info m ty)) ∧
  (∀ h, h ∈ recipients info m ty → wants m ty h) ∧
  (∀ h, wants m ty h → ∃ h', h' ∈ recipients info m ty ∧ hi_name (info h') = hi_name (info h)).
Proof.
  split; [apply first_of_name_nodup|]. split.
  - intros h [Hh _]%first_of_name_elem. by apply matching_elem.
  - intros h Hh%matching_elem. assert (hi_name (info h) ∈ map (hi_name ∘ info) (recipients info m ty)) as Hin.
    { apply first_of_name_names. split; [|by intros ?%not_elem_of_nil]. by apply (list_elem_of_fmap_2 (hi_name ∘ info)). }
    apply list_elem_of_fmap in Hin as (h' & Hn & Hh'). by exists h'.
Qed.
End recipients.

(** Whatever handlers do, the one who publishes an envelope is answered no error. *)
Lemma publish_never_refused {L : Libs} {HI : HashIter} {A W} {HW : World W} info
    (handle : HandlerRef → IntegrationEventEnvelope → sm (St (Bus A) W) EventError unit) pause config e s err :
  (publish_envelope info handle pause config e s).1 ≠ Err err.
Proof.
  assert (∀ hs s, (sm_iter (deliver_event info handle pause config e) hs s).1 ≠ Err err) as Hiter.
  { induction hs as [|h hs IH]; intros s'; simpl; [done|]. unfold mbind at 1, sm_bind at 1.
    destruct (deliver_event info handle pause config e h s') as [[[]|err'|] s1] eqn:Hd; [apply IH| |done]. exfalso.
    revert Hd. unfold deliver_event, attempt, mbind, sm_bind. destruct (call_handler_with_retry _ _ _ _ _ _) as [[]]; [done| |done].
    destruct (bc_enable_dead_letter_queue config); [|done]. unfold add_to_dead_letter, utc_now, mbind, sm_bind.
    by destruct (w_utc_now _). }
  unfold publish_envelope, dispatch, mbind, sm_bind. destruct (bc_persist_events config); apply Hiter.
Qed.

(** ** Delivery

    One envelope is followed. Handlers may do what they like, the bus included, and so may others while one
    runs or the bus pauses, so long as each call of a handler with the envelope is in the application's log, with how it
    ended, and nobody else delivers the envelope or touches its dead letters. *)
Section delivery.
Context {L : Libs} {HI : HashIter} {A W : Type} {HW : World W}.
#[local] Abbreviation Sy := (St (Bus A) W).
#[local] Abbreviation Bm := (sm Sy EventError).
Context (info : HandlerRef → HandlerInfo).
Context (handle : HandlerRef → IntegrationEventEnvelope → Bm unit) (pause : Z → Bm unit).
Context (config : IntegrationBusConfig) (e : IntegrationEventEnvelope).
Context (log : A → list (string * HandlerRef * bool)).

Definition is_ok {E B} (r : res E B) : bool := match r with Ok _ => true | _ => false end.
(** How the calls with the envelope ended, and the dead letters about it. *)
Definition calls_of (s : Sy) : list (HandlerRef * bool) :=
  map (λ c, (c.1.2, c.2)) (filter (λ c, c.1.1 = en_id e) (log (bus_app (tables s)))).
Definition letters (s : Sy) : list DeadLetterEntry := filter (λ d, en_id (dl_envelope d) = en_id e) (bus_dead (tables s)).

Definition handler_law : Prop := ∀ h s, wp (handle h e) (λ r s',
  r ≠ Panic ∧ calls_of s' = calls_of s ++ [(h, is_ok r)] ∧ letters s' = letters s) s.
Definition pause_law : Prop := ∀ d s, wp (pause d) (λ r s', r = Ok tt ∧ calls_of s' = calls_of s ∧ letters s' = letters s) s.
Context (handler_ok : handler_law) (pause_ok : pause_law).

(** A handler's calls: [f] failures, and a success or not. *)
Definition ran_calls (h : HandlerRef) (f : nat) (ok : bool) : list (HandlerRef * bool) :=
  replicate f (h, false) ++ if ok then [(h, true)] else [].
Definition within_tries (n f : nat) (ok : bool) : Prop := if ok then (f < n)%nat else f = n.

Lemma wp_try_handler n k m h last s : wp (try_handler info handle pause n m k h e last) (λ r s',
  r ≠ Panic ∧ letters s' = letters s ∧ ∃ f, within_tries n f (is_ok r) ∧ calls_of s' = calls_of s ++ ran_calls h f (is_ok r)) s.
Proof.
  revert k last s. induction n as [|n IH]; intros k last s; simpl.
  { apply wp_err. split_and!; [done|done|]. exists 0%nat. split; [done|]. by rewrite app_nil_r. }
  wp_step. wp_step. eapply wp_mono; [apply handler_ok|]. intros r s1 (Hr & Hc & Hl).
  destruct r as [[]|err|]; [| |done]; simpl in *.
  { apply wp_ret. split_and!; [done..|]. exists 0%nat. split; [simpl; lia|done]. }
  wp_step. assert (wp (if k <? m - 1 then pause (100 * (k + 1)) else mret tt)
    (λ r s', r = Ok tt ∧ calls_of s' = calls_of s1 ∧ letters s' = letters s1) s1) as Hp.
  { destruct (k <? m - 1); [apply pause_ok|by apply wp_ret]. }
  eapply wp_mono; [exact Hp|]. intros r s2 (-> & Hc2 & Hl2).
  eapply wp_mono; [apply IH|]. intros r s3 (Hr3 & Hl3 & f & Hf & Hc3).
  split; [done|]. split; [by rewrite Hl3, Hl2, Hl|]. exists (S f).
  split; [destruct (is_ok r); simpl in *; lia|]. rewrite Hc3, Hc2, Hc, <-(assoc_L (++)). done.
Qed.

(** What one handler comes to. *)
Record outcome := mkOutcome { oc_handler : HandlerRef; oc_failures : nat; oc_served : bool }.
Definition outcome_ok (o : outcome) : Prop :=
  within_tries (Z.to_nat (handler_tries info (oc_handler o))) (oc_failures o) (oc_served o).
Definition outcome_calls (o : outcome) : list (HandlerRef * bool) := ran_calls (oc_handler o) (oc_failures o) (oc_served o).
Definition letter_of (d : DeadLetterEntry) : IntegrationEventEnvelope * string := (dl_envelope d, dl_handler_name d).
Definition outcome_letters (o : outcome) : list (IntegrationEventEnvelope * string) :=
  if bc_enable_dead_letter_queue config && negb (oc_served o) then [(e, hi_name (info (oc_handler o)))] else [].

Lemma wp_deliver_event h s : wp (deliver_event info handle pause config e h) (λ r s', r = Ok tt ∧
  ∃ f ok, let o := mkOutcome h f ok in outcome_ok o ∧ calls_of s' = calls_of s ++ outcome_calls o ∧
    map letter_of (letters s') = map letter_of (letters s) ++ outcome_letters o) s.
Proof.
  unfold deliver_event, call_handler_with_retry. wp_step. wp_step. eapply wp_mono; [apply wp_try_handler|].
  intros r s1 (Hr & Hl & f & Hf & Hc). destruct r as [[]|err|]; [| |done]; simpl in Hf, Hc.
  - apply wp_ret. split; [done|]. exists f, true. split; [done|]. split; [done|]. rewrite Hl.
    unfold outcome_letters. simpl. by rewrite andb_false_r, app_nil_r.
  - unfold outcome_letters. simpl. destruct (bc_enable_dead_letter_queue config) eqn:Hd; simpl.
    + unfold add_to_dead_letter, utc_now, wp, mbind, sm_bind, on_bus. destruct (w_utc_now (world s1)) as [t w]. simpl.
      split; [done|]. exists f, false. split; [done|]. split; [done|]. unfold letters in *. simpl.
      rewrite filter_app, map_app, Hl, filter_cons_True by done. done.
    + apply wp_ret. split; [done|]. exists f, false. rewrite Hl, app_nil_r. done.
Qed.

Lemma wp_deliver_all hs s : wp (sm_iter (deliver_event info handle pause config e) hs) (λ r s', r = Ok tt ∧
  ∃ os, map oc_handler os = hs ∧ Forall outcome_ok os ∧ calls_of s' = calls_of s ++ concat (map outcome_calls os) ∧
    map letter_of (letters s') = map letter_of (letters s) ++ concat (map outcome_letters os)) s.
Proof.
  revert s. induction hs as [|h hs IH]; intros s; simpl.
  { apply wp_ret. split; [done|]. exists []. simpl. by rewrite !app_nil_r. }
  wp_step. eapply wp_mono; [apply wp_deliver_event|]. intros r s1 (-> & f & ok & Ho & Hc & Hl).
  eapply wp_mono; [apply IH|]. intros r s2 (-> & os & Hos & Hall & Hc2 & Hl2). split; [done|].
  exists (mkOutcome h f ok :: os). simpl. rewrite Hos, Hc2, Hc, Hl2, Hl, <-!(assoc_L (++)). split_and!; [done|by constructor|done|done].
Qed.

End delivery.

(** ** A bus that runs

    A mailer for the users' events, two audits of one name, and a billing that fails and may be tried twice. Each
    writes what it is given into the application's log; the mailer also clears the bus's history. *)
Module BusExample.
#[local] Existing Instance Concrete.libs.
#[local] Existing Instance ConcreteWorld.demo_world.
#[local] Instance any_order : HashIter := { hash_iter V := map_to_list; hash_iter_perm V m := reflexivity _ }.
Abbreviation BusApp := (list (string * HandlerRef * bool)).
#[local] Abbreviation Bm := (sm (St (Bus BusApp) ConcreteWorld.DW) EventError).

Definition info (h : HandlerRef) : HandlerInfo :=
  match h with
  | 0%nat => mkHandlerInfo ["user.*"] "mailer" true 3
  | 1%nat => mkHandlerInfo ["*"] "audit" true 2
  | 2%nat => mkHandlerInfo ["user.*"; "user.created"] "billing" true 2
  | _ => mkHandlerInfo ["user.created"] "audit" false 3
  end.
Definition logged (h : HandlerRef) (e : IntegrationEventEnvelope) (ok : bool) (b : Bus BusApp) : Bus BusApp :=
  mkBus (bus_handlers b) (bus_history b) (bus_dead b) (bus_sent b) (bus_app b ++ [(en_id e, h, ok)]).
Definition handle (h : HandlerRef) (e : IntegrationEventEnvelope) : Bm unit :=
  match h with
  | 0%nat => on_bus (logged h e true) ;; clear_history
  | 2%nat => on_bus (logged h e false) ;; sm_err (PublishError "down")
  | _ => on_bus (logged h e true)
  end.
Definition pause (d : Z) : Bm unit := mret tt.
Definition created : IntegrationEventEnvelope := mkEnvelope "7" "user.created" "users" "u1" 5 6 1 None None VNull.
Definition registered : St (Bus BusApp) ConcreteWorld.DW :=
  (sm_iter (register_handler info) [0%nat; 1%nat; 2%nat; 3%nat] (mkSt (mkBus ∅ [] [] [] []) (ConcreteWorld.mkDW [] 100 1))).2.
Definition published : St (Bus BusApp) ConcreteWorld.DW := (publish_envelope info handle pause bus_config_default created registered).2.

(** Of the two audits one is called: which, the walk over the patterns decides. What stands under two patterns is called
    as one; the dead letter counts three tries of its two. *)
Example handlers_of_one_name :
  bus_app (tables published) = [("7", 2%nat, false); ("7", 2%nat, false); ("7", 3%nat, true); ("7", 0%nat, true)] ∧
  map (λ d, (dl_handler_name d, dl_error d, dl_retry_count d)) (bus_dead (tables published)) =
    [("billing", "Failed to publish event: down", 3)].
Proof. vm_compute. split; reflexivity. Qed.

End BusExample.
