(* ===== verification/MemoryCache.v ===== *)
(** * The cache in memory

    [backbone-cache/src/memory.rs] and [traits.rs]: entries with a time to live under two locks, one for the entries and
    one for the statistics. An operation is a program of lock steps ([prog]): run alone it is a function of the
    state ([run_prog]), and run beside others it waits for their locks ([step_prog]). How a value becomes bytes and back,
    and chrono's durations, are parameters. A count of expired entries is [i32] in the code, which no map
    fills. *)
From Stdlib Require Import ZArith Lia Ascii.
From S2P Require Import Prelude Float64 RustStr RustChar Json Database JobTypes Cron CronFacts.

Local Open Scope Z_scope.

(** ** [lib.rs], [traits.rs] *)
Inductive StoreError := Serialization (m : string) | Deserialization (m : string).
Record CacheEntry := mkEntry {
  en_data : string;
  en_created_at : instant;
  en_expires_at : option instant;
  en_access_count : Z;
  en_last_accessed : option instant;
}.
Record CacheStats := mkStats {
  cs_total_entries : Z;
  cs_expired_entries : Z;
  cs_hit_rate : f64;
  cs_hits : Z;
  cs_misses : Z;
  cs_sets : Z;
  cs_deletes : Z;
}.
Definition cache_stats_default : CacheStats := mkStats 0 0 f64_zero 0 0 0 0.
(** What the two locks guard. *)
Record CacheData := mkData { cd_entries : gmap string CacheEntry; cd_stats : CacheStats }.
Definition cache_new : CacheData := mkData ∅ cache_stats_default.

(** ** Programs of lock steps *)
Inductive LockId := LEntries | LStats.
Inductive LockMode := LRead | LWrite.
#[export] Instance lock_id_eq_dec : EqDecision LockId.
Proof. solve_decision. Defined.
#[export] Instance lock_mode_eq_dec : EqDecision LockMode.
Proof. solve_decision. Defined.

Inductive prog (A : Type) : Type :=
  | PRet (a : A)
  | PFail (e : StoreError)
  | PCrash
  | PLock (l : LockId) (m : LockMode) (k : prog A)
  | PUnlock (l : LockId) (m : LockMode) (k : prog A)
  | PEntries (k : gmap string CacheEntry → prog A)
  | PPutEntries (m : gmap string CacheEntry) (k : prog A)
  | PStats (k : CacheStats → prog A)
  | PPutStats (t : CacheStats) (k : prog A)
  | PNow (k : instant → prog A).
Arguments PRet {_} _.
Arguments PFail {_} _.
Arguments PCrash {_}.
Arguments PLock {_} _ _ _.
Arguments PUnlock {_} _ _ _.
Arguments PEntries {_} _.
Arguments PPutEntries {_} _ _.
Arguments PStats {_} _.
Arguments PPutStats {_} _ _.
Arguments PNow {_} _.

Fixpoint prog_then {A B} (p : prog A) (f : A → prog B) : prog B :=
  match p with
  | PRet a => f a
  | PFail e => PFail e
  | PCrash => PCrash
  | PLock l m k => PLock l m (prog_then k f)
  | PUnlock l m k => PUnlock l m (prog_then k f)
  | PEntries k => PEntries (λ x, prog_then (k x) f)
  | PPutEntries m k => PPutEntries m (prog_then k f)
  | PStats k => PStats (λ x, prog_then (k x) f)
  | PPutStats t k => PPutStats t (prog_then k f)
  | PNow k => PNow (λ x, prog_then (k x) f)
  end.
#[export] Instance prog_ret : MRet prog := @PRet.
#[export] Instance prog_bind : MBind prog := λ A B f p, prog_then p f.
#[export] Instance prog_fmap : FMap prog := λ A B f p, prog_then p (λ a, PRet (f a)).
Definition take (l : LockId) (m : LockMode) : prog unit := PLock l m (PRet tt).
Definition give (l : LockId) (m : LockMode) : prog unit := PUnlock l m (PRet tt).
Definition entries : prog (gmap string CacheEntry) := PEntries PRet.
Definition put_entries (m : gmap string CacheEntry) : prog unit := PPutEntries m (PRet tt).
Definition stats : prog CacheStats := PStats PRet.
Definition put_stats (t : CacheStats) : prog unit := PPutStats t (PRet tt).
Definition now : prog instant := PNow PRet.
(** A value or a panic; the guards held are dropped as it unwinds. *)
Definition or_crash {A} (drop_guards : prog unit) (o : option A) : prog A :=
  match o with Some a => PRet a | None => drop_guards ≫= λ _, PCrash end.

(** ** [memory.rs] *)
Section cache.
Context {HI : HashIter} {DU : Durations} {T : Type}.
Context (overflow_checks : bool) (to_vec : T → string + string) (from_slice : string → string + T).
Context (max_entries : option nat).

Definition tick (drop_guards : prog unit) (n : Z) : prog Z := or_crash drop_guards (checked_incr overflow_checks u64_max n).
Definition u64_sum (drop_guards : prog unit) (a b : Z) : prog Z :=
  or_crash drop_guards (match u64_checked_add a b with
                        | Some r => Some r
                        | None => if overflow_checks then None else Some ((a + b) mod (u64_max + 1))
                        end).
(** [record_hit], [record_miss] and the rest, under the statistics' write lock. *)
Definition drop_stats : prog unit := give LStats LWrite.
Definition update_hit_rate (t : CacheStats) : prog CacheStats :=
  total ← u64_sum drop_stats (cs_hits t) (cs_misses t);
  mret (if total =? 0 then t
        else mkStats (cs_total_entries t) (cs_expired_entries t) (f64_div (f64_of_Z (cs_hits t)) (f64_of_Z total))
               (cs_hits t) (cs_misses t) (cs_sets t) (cs_deletes t)).
Definition record_hit (t : CacheStats) : prog CacheStats :=
  n ← tick drop_stats (cs_hits t);
  update_hit_rate (mkStats (cs_total_entries t) (cs_expired_entries t) (cs_hit_rate t) n (cs_misses t) (cs_sets t) (cs_deletes t)).
Definition record_miss (t : CacheStats) : prog CacheStats :=
  n ← tick drop_stats (cs_misses t);
  update_hit_rate (mkStats (cs_total_entries t) (cs_expired_entries t) (cs_hit_rate t) (cs_hits t) n (cs_sets t) (cs_deletes t)).
Definition record_set (t : CacheStats) : prog CacheStats :=
  n ← tick drop_stats (cs_sets t);
  mret (mkStats (cs_total_entries t) (cs_expired_entries t) (cs_hit_rate t) (cs_hits t) (cs_misses t) n (cs_deletes t)).
Definition record_delete (t : CacheStats) : prog CacheStats :=
  n ← tick drop_stats (cs_deletes t);
  mret (mkStats (cs_total_entries t) (cs_expired_entries t) (cs_hit_rate t) (cs_hits t) (cs_misses t) (cs_sets t) n).
Definition put_total (n : Z) (t : CacheStats) : CacheStats :=
  mkStats n (cs_expired_entries t) (cs_hit_rate t) (cs_hits t) (cs_misses t) (cs_sets t) (cs_deletes t).
Definition no_expired (t : CacheStats) : CacheStats :=
  mkStats (cs_total_entries t) 0 (cs_hit_rate t) (cs_hits t) (cs_misses t) (cs_sets t) (cs_deletes t).

(** [CacheEntry::new], [entry_expired] and [mark_accessed]. *)
Definition expiry (drop_guards : prog unit) (t : instant) (ttl_seconds : Z) : prog instant :=
  or_crash drop_guards (d ← duration_seconds (u64_as_i64 ttl_seconds); add_duration t d).
Definition entry_new (data : string) (ttl_seconds : option Z) : prog CacheEntry :=
  t ← now;
  expires_at ← match ttl_seconds with Some ttl => Some <$> expiry (mret tt) t ttl | None => mret None end;
  mret (mkEntry data t expires_at 0 None).
Definition entry_expired (e : CacheEntry) : prog bool :=
  match en_expires_at e with Some x => t ← now; mret (x <? t) | None => mret false end.
Definition mark_accessed (e : CacheEntry) : prog CacheEntry :=
  n ← tick (mret tt) (en_access_count e);
  t ← now;
  mret (mkEntry (en_data e) (en_created_at e) (en_expires_at e) n (Some t)).

Fixpoint retain_live (l : list (string * CacheEntry)) (m : gmap string CacheEntry) (expired_count : Z) :
    prog (gmap string CacheEntry * Z) :=
  match l with
  | [] => mret (m, expired_count)
  | (k, e) :: l =>
      x ← entry_expired e;
      if (x : bool) then retain_live l (delete k m) (expired_count + 1) else retain_live l m expired_count
  end.
Definition cleanup_expired : prog unit :=
  take LEntries LWrite ;;
  m ← entries;
  entry_kept ← retain_live (hash_iter m) m 0;
  put_entries entry_kept.1 ;;
  (if 0 <? entry_kept.2 then
     take LStats LWrite ;; t ← stats; put_stats (no_expired t) ;; give LStats LWrite
   else mret tt) ;;
  give LEntries LWrite.

Definition last_use (e : CacheEntry) : instant := default (en_created_at e) (en_last_accessed e).
Definition least_used (m : gmap string CacheEntry) : option string :=
  match hash_iter m with [] => None | x :: l => Some (min_by (λ ke, last_use ke.2) x l).1 end.
Definition evict_if_needed : prog unit :=
  match max_entries with
  | None => mret tt
  | Some max =>
      take LEntries LWrite ;;
      m ← entries;
      (if (size m <? max)%nat then mret tt
       else match least_used m with Some k => put_entries (delete k m) | None => mret tt end) ;;
      give LEntries LWrite
  end.

Definition cache_set (key : string) (value : T) (ttl_seconds : option Z) : prog unit :=
  cleanup_expired ;;
  evict_if_needed ;;
  data ← match to_vec value with inl e => PFail (Serialization e) | inr d => mret d end;
  entry ← entry_new data ttl_seconds;
  take LEntries LWrite ;; m ← entries; put_entries (<[key := entry]> m) ;; give LEntries LWrite ;;
  take LStats LWrite ;; t ← stats; t ← record_set t;
  take LEntries LRead ;; m ← entries; put_stats (put_total (Z.of_nat (size m)) t) ;; give LEntries LRead ;;
  give LStats LWrite.

Definition cache_get (key : string) : prog (option T) :=
  cleanup_expired ;;
  take LEntries LRead ;; m ← entries; give LEntries LRead ;;
  match m !! key with
  | None =>
      take LStats LWrite ;; t ← stats; t ← record_miss t; put_stats t ;; give LStats LWrite ;;
      mret None
  | Some entry =>
      x ← entry_expired entry;
      if (x : bool) then
        take LEntries LWrite ;; m ← entries; put_entries (delete key m) ;; give LEntries LWrite ;;
        take LStats LWrite ;; t ← stats; t ← record_miss t;
        take LEntries LRead ;; m ← entries; put_stats (put_total (Z.of_nat (size m)) t) ;; give LEntries LRead ;;
        give LStats LWrite ;;
        mret None
      else
        entry ← mark_accessed entry;
        value ← match from_slice (en_data entry) with inl e => PFail (Deserialization e) | inr v => mret v end;
        take LEntries LWrite ;; m ← entries; put_entries (<[key := entry]> m) ;; give LEntries LWrite ;;
        take LStats LWrite ;; t ← stats; t ← record_hit t; put_stats t ;; give LStats LWrite ;;
        mret (Some value)
  end.

(** [delete], which is a name of the maps'. *)
Definition delete_key (key : string) : prog bool :=
  take LEntries LWrite ;; m ← entries; put_entries (delete key m) ;; give LEntries LWrite ;;
  let removed := bool_decide (is_Some (m !! key)) in
  (if removed then
     take LStats LWrite ;; t ← stats; t ← record_delete t;
     take LEntries LRead ;; m ← entries; put_stats (put_total (Z.of_nat (size m)) t) ;; give LEntries LRead ;;
     give LStats LWrite
   else mret tt) ;;
  mret removed.

Definition exists_key (key : string) : prog bool :=
  cleanup_expired ;;
  take LEntries LRead ;; m ← entries;
  x ← match m !! key with Some e => negb <$> entry_expired e | None => mret false end;
  give LEntries LRead ;;
  mret (x : bool).

Definition expire (key : string) (ttl_seconds : Z) : prog bool :=
  take LEntries LWrite ;; m ← entries;
  r ← match m !! key with
      | None => mret false
      | Some e =>
          t ← now;
          x ← expiry (give LEntries LWrite) t ttl_seconds;
          put_entries (<[key := mkEntry (en_data e) (en_created_at e) (Some x) (en_access_count e) (en_last_accessed e)]> m) ;;
          mret true
      end;
  give LEntries LWrite ;;
  mret (r : bool).

Definition ttl (key : string) : prog (option Z) :=
  cleanup_expired ;;
  take LEntries LRead ;; m ← entries;
  r ← match m !! key with
      | None => mret None
      | Some e =>
          match en_expires_at e with
          | None => mret None
          | Some x => t ← now; let left := num_seconds (x - t) in mret (Some (if 0 <? left then left else 0))
          end
      end;
  give LEntries LRead ;;
  mret (r : option Z).

Definition clear : prog unit :=
  take LEntries LWrite ;; put_entries ∅ ;; give LEntries LWrite ;;
  take LStats LWrite ;; put_stats cache_stats_default ;; give LStats LWrite.

Definition stats_of : prog CacheStats :=
  cleanup_expired ;;
  take LStats LRead ;; t ← stats;
  take LEntries LRead ;; m ← entries; give LEntries LRead ;;
  give LStats LRead ;;
  mret (mkStats (Z.of_nat (size m)) 0 (cs_hit_rate t) (cs_hits t) (cs_misses t) (cs_sets t) (cs_deletes t)).

Fixpoint mget (keys : list string) : prog (list (string * option T)) :=
  match keys with
  | [] => mret []
  | key :: keys => value ← cache_get key; rest ← mget keys; mret ((key, value) :: rest)
  end.
Fixpoint mset (l : list (string * T * option Z)) : prog unit :=
  match l with
  | [] => mret tt
  | (key, value, ttl_seconds) :: l => cache_set key value ttl_seconds ;; mset l
  end.
Fixpoint mdelete (keys : list string) (deleted_count : Z) : prog Z :=
  match keys with
  | [] => mret deleted_count
  | key :: keys =>
      removed ← delete_key key;
      (* one for each key of a list, which no [u64] overflows *)
      mdelete keys (if (removed : bool) then deleted_count + 1 else deleted_count)
  end.
End cache.

(** ** Running alone *)
Section run_prog.
Context {W : Type} {HW : World W}.
#[local] Abbreviation Sy := (St CacheData W).

Definition with_entries (m : gmap string CacheEntry) (s : Sy) : Sy := mkSt (mkData m (cd_stats (tables s))) (world s).
Definition with_stats (t : CacheStats) (s : Sy) : Sy := mkSt (mkData (cd_entries (tables s)) t) (world s).
Definition tick_clock (s : Sy) : instant * Sy := let '(t, w) := w_utc_now (world s) in (t, mkSt (tables s) w).

Fixpoint run_prog {A} (p : prog A) : sm Sy StoreError A :=
  match p with
  | PRet a => mret a
  | PFail e => sm_err e
  | PCrash => sm_panic
  | PLock _ _ k | PUnlock _ _ k => run_prog k
  | PEntries k => λ s, run_prog (k (cd_entries (tables s))) s
  | PPutEntries m k => λ s, run_prog k (with_entries m s)
  | PStats k => λ s, run_prog (k (cd_stats (tables s))) s
  | PPutStats t k => λ s, run_prog k (with_stats t s)
  | PNow k => λ s, let '(t, s) := tick_clock s in run_prog (k t) s
  end.

(** ** Running beside others

    A lock is free, read by some, or written by one; a program that cannot take a lock waits. *)
Inductive LockState := Readers (n : nat) | Writer.
Record Locks := mkLocks { lk_entries : LockState; lk_stats : LockState }.
Definition free : Locks := mkLocks (Readers 0) (Readers 0).
Definition lock_state (l : LockId) (k : Locks) : LockState := match l with LEntries => lk_entries k | LStats => lk_stats k end.
Definition set_lock (l : LockId) (x : LockState) (k : Locks) : Locks :=
  match l with LEntries => mkLocks x (lk_stats k) | LStats => mkLocks (lk_entries k) x end.
Definition try_acquire (m : LockMode) (x : LockState) : option LockState :=
  match m, x with
  | LRead, Readers n => Some (Readers (S n))
  | LWrite, Readers 0 => Some Writer
  | _, _ => None
  end.
Definition release (m : LockMode) (x : LockState) : LockState :=
  match m, x with LRead, Readers n => Readers (pred n) | _, _ => Readers 0 end.

(** One step of a program; [None] where it is over or waits. *)
Definition step_prog {A} (p : prog A) (c : Locks * Sy) : option (prog A * (Locks * Sy)) :=
  let '(k, s) := c in
  match p with
  | PRet _ | PFail _ | PCrash => None
  | PLock l m p => x ← try_acquire m (lock_state l k); Some (p, (set_lock l x k, s))
  | PUnlock l m p => Some (p, (set_lock l (release m (lock_state l k)) k, s))
  | PEntries p => Some (p (cd_entries (tables s)), c)
  | PPutEntries m p => Some (p, (k, with_entries m s))
  | PStats p => Some (p (cd_stats (tables s)), c)
  | PPutStats t p => Some (p, (k, with_stats t s))
  | PNow p => let '(t, s) := tick_clock s in Some (p t, (k, s))
  end.
Definition over {A} (p : prog A) : bool := match p with PRet _ | PFail _ | PCrash => true | _ => false end.

(** Tasks that share the cache, and a schedule: which task takes the next step, where it can. *)
Definition step_task {A} (i : nat) (c : list (prog A) * (Locks * Sy)) : list (prog A) * (Locks * Sy) :=
  match c.1 !! i with
  | Some p => match step_prog p c.2 with Some (p', k) => (<[i := p']> c.1, k) | None => c end
  | None => c
  end.
Definition run_schedule {A} (l : list nat) (c : list (prog A) * (Locks * Sy)) : list (prog A) * (Locks * Sy) :=
  foldl (λ c i, step_task i c) c l.
(** Somebody is not done, and nobody can take a step. *)
Definition stuck {A} (c : list (prog A) * (Locks * Sy)) : Prop :=
  (∃ p, p ∈ c.1 ∧ over p = false) ∧ ∀ p, p ∈ c.1 → step_prog p c.2 = None.
End run_prog.

(** ** Locks are taken and given back in order

    What a task holds; a program keeps to the locks when it takes none that it holds, touches nothing without
    the lock for it, and ends with none. *)
Definition HeldLocks : Type := option LockMode * option LockMode.
Definition none_held : HeldLocks := (None, None).
Definition held_of (l : LockId) (h : HeldLocks) : option LockMode := match l with LEntries => h.1 | LStats => h.2 end.
Definition set_held (l : LockId) (m : option LockMode) (h : HeldLocks) : HeldLocks := match l with LEntries => (m, h.2) | LStats => (h.1, m) end.
Fixpoint orderly {A} (h : HeldLocks) (p : prog A) (Q : A → HeldLocks → Prop) : Prop :=
  match p with
  | PRet a => Q a h
  | PFail _ | PCrash => h = none_held
  | PLock l m p => held_of l h = None ∧ orderly (set_held l (Some m) h) p Q
  | PUnlock l m p => held_of l h = Some m ∧ orderly (set_held l None h) p Q
  | PEntries p => h.1 ≠ None ∧ ∀ x, orderly h (p x) Q
  | PPutEntries _ p => h.1 = Some LWrite ∧ orderly h p Q
  | PStats p => h.2 ≠ None ∧ ∀ x, orderly h (p x) Q
  | PPutStats _ p => h.2 = Some LWrite ∧ orderly h p Q
  | PNow p => ∀ x, orderly h (p x) Q
  end.
Definition well_locked {A} (p : prog A) : Prop := orderly none_held p (λ _ h, h = none_held).

Lemma orderly_mono {A} (p : prog A) (Q Q' : A → HeldLocks → Prop) h :
  orderly h p Q → (∀ a h, Q a h → Q' a h) → orderly h p Q'.
Proof. intros H HQ. revert h H. induction p; intros h; simpl; naive_solver. Qed.
Lemma orderly_bind {A B} (p : prog A) (f : A → prog B) Q h :
  orderly h p (λ a h, orderly h (f a) Q) → orderly h (p ≫= f) Q.
Proof. unfold mbind, prog_bind. revert h. induction p; intros h; simpl; naive_solver. Qed.
Lemma orderly_fmap {A B} (g : A → B) (p : prog A) Q h : orderly h p (λ a, Q (g a)) → orderly h (g <$> p) Q.
Proof. apply (orderly_bind p (λ a, PRet (g a))). Qed.
(** A program that touches nothing and takes nothing. *)
Definition still {A} (p : prog A) (h : HeldLocks) : Prop := orderly h p (λ _ h', h' = h).
Lemma orderly_still {A B} (p : prog A) (f : A → prog B) Q h :
  still p h → (∀ a, orderly h (f a) Q) → orderly h (p ≫= f) Q.
Proof. intros Hp Hf. apply orderly_bind. eapply orderly_mono; [exact Hp|]. by intros a h' ->. Qed.
Lemma still_or_crash {A} d (o : option A) h :
  (o = None → orderly h d (λ _ h', h' = none_held)) → still (or_crash d o) h.
Proof. intros Hd. destruct o; [done|]. apply orderly_bind. by apply Hd. Qed.

(** An orderly program run alone, from locks that are what it holds, is its function of the state, and leaves the locks
    free. *)
Definition lock_of (m : option LockMode) : LockState :=
  match m with None => Readers 0 | Some LRead => Readers 1 | Some LWrite => Writer end.
Definition locks_of (h : HeldLocks) : Locks := mkLocks (lock_of h.1) (lock_of h.2).
Definition prog_of {A} (r : res StoreError A) : prog A := match r with Ok a => PRet a | Err e => PFail e | Panic => PCrash end.
Section alone.
Context {W : Type} {HW : World W} {A : Type}.
Definition one_step (x y : prog A * (Locks * St CacheData W)) : Prop := step_prog x.1 x.2 = Some y.
Lemma alone_run_held (p : prog A) h s : orderly h p (λ _ h, h = none_held) →
  rtc one_step (p, (locks_of h, s)) (prog_of (run_prog p s).1, (free, (run_prog p s).2)).
Proof.
  revert h s. induction p as [a|e| |l m p IH|l m p IH|p IH|m p IH|p IH|m p IH|p IH]; intros h s; simpl.
  1-3: by intros ->.
  - intros [Hl Hp]. eapply rtc_l; [|by apply IH]. unfold one_step. destruct h as [he hs], l, m; simpl in *; by subst.
  - intros [Hl Hp]. eapply rtc_l; [|by apply IH]. unfold one_step. destruct h as [he hs], l, m; simpl in *; by subst.
  - intros [_ Hp]. eapply rtc_l; [|by apply IH]. done.
  - intros [_ Hp]. eapply rtc_l; [|by apply IH]. done.
  - intros [_ Hp]. eapply rtc_l; [|by apply IH]. done.
  - intros [_ Hp]. eapply rtc_l; [|by apply IH]. done.
  - intros Hp. destruct (tick_clock s) as [t s'] eqn:Hs. eapply rtc_l; [|by apply IH]. unfold one_step. simpl. by rewrite Hs.
Qed.
Lemma alone_run (p : prog A) s : well_locked p → rtc one_step (p, (free, s)) (prog_of (run_prog p s).1, (free, (run_prog p s).2)).
Proof. apply (alone_run_held p none_held). Qed.
End alone.

(** One lock step at a time. *)
Section lock_steps.
Context {A : Type} (h : HeldLocks) (Q : A → HeldLocks → Prop).
Lemma orderly_ret {B} (b : B) (f : B → prog A) : orderly h (f b) Q → orderly h (mret b ≫= f) Q.
Proof. done. Qed.
Lemma orderly_lock l m (f : unit → prog A) :
  held_of l h = None → orderly (set_held l (Some m) h) (f tt) Q → orderly h (take l m ≫= f) Q.
Proof. done. Qed.
Lemma orderly_unlock l m (f : unit → prog A) :
  held_of l h = Some m → orderly (set_held l None h) (f tt) Q → orderly h (give l m ≫= f) Q.
Proof. done. Qed.
Lemma orderly_entries f : h.1 ≠ None → (∀ x, orderly h (f x) Q) → orderly h (entries ≫= f) Q.
Proof. done. Qed.
Lemma orderly_put_entries m (f : unit → prog A) : h.1 = Some LWrite → orderly h (f tt) Q → orderly h (put_entries m ≫= f) Q.
Proof. done. Qed.
Lemma orderly_stats f : h.2 ≠ None → (∀ x, orderly h (f x) Q) → orderly h (stats ≫= f) Q.
Proof. done. Qed.
Lemma orderly_put_stats t (f : unit → prog A) : h.2 = Some LWrite → orderly h (f tt) Q → orderly h (put_stats t ≫= f) Q.
Proof. done. Qed.
Lemma orderly_now f : (∀ x, orderly h (f x) Q) → orderly h (now ≫= f) Q.
Proof. done. Qed.
Lemma orderly_fail {B} e (f : B → prog A) : h = none_held → orderly h (PFail e ≫= f) Q.
Proof. done. Qed.
End lock_steps.

Section orders.
Context {HI : HashIter} {DU : Durations} {T : Type}.
Context (overflow_checks : bool) (to_vec : T → string + string) (from_slice : string → string + T).
Context (max_entries : option nat).
#[local] Abbreviation upd t := (update_hit_rate overflow_checks t).
#[local] Abbreviation cset := (cache_set overflow_checks to_vec max_entries).
#[local] Abbreviation cget := (cache_get overflow_checks from_slice).

Lemma still_is_expired e h : still (entry_expired e) h.
Proof. unfold entry_expired. by destruct (en_expires_at e). Qed.
Lemma still_retain l m n h : still (retain_live l m n) h.
Proof.
  revert m n. induction l as [|[k e] l IH]; intros m n; [done|].
  apply orderly_still; [apply still_is_expired|]. intros []; apply IH.
Qed.
Lemma orderly_cleanup : orderly none_held cleanup_expired (λ _ h, h = none_held).
Proof.
  split; [done|]. split; [done|]. intros m. simpl. apply orderly_still; [apply still_retain|]. intros [m' n]. simpl.
  split; [done|]. destruct (0 <? n); simpl; naive_solver.
Qed.
Lemma orderly_evict : orderly none_held (evict_if_needed max_entries) (λ _ h, h = none_held).
Proof.
  unfold evict_if_needed. destruct max_entries as [max|]; [|done]. split; [done|]. split; [done|]. intros m. simpl.
  destruct (size m <? max)%nat; [done|]. by destruct (least_used m).
Qed.
(** The statistics are changed under their own lock. *)
#[local] Abbreviation in_stats := (None, Some LWrite).
Lemma still_record_miss t : still (record_miss overflow_checks t) in_stats.
Proof. unfold record_miss, update_hit_rate, tick, u64_sum. repeat (apply orderly_still; [by apply still_or_crash|intros ?]). done. Qed.
Lemma still_record_hit t : still (record_hit overflow_checks t) in_stats.
Proof. unfold record_hit, update_hit_rate, tick, u64_sum. repeat (apply orderly_still; [by apply still_or_crash|intros ?]). done. Qed.
Lemma still_record_set t : still (record_set overflow_checks t) in_stats.
Proof. apply orderly_still; [by apply still_or_crash|done]. Qed.
Lemma still_record_delete t : still (record_delete overflow_checks t) in_stats.
Proof. apply orderly_still; [by apply still_or_crash|done]. Qed.
Lemma still_expiry d t x h : orderly h d (λ _ h', h' = none_held) → still (expiry d t x) h.
Proof. intros Hd. by apply still_or_crash. Qed.
Lemma still_entry_new d x : still (entry_new d x) none_held.
Proof.
  intros t. simpl. apply orderly_still; [|done]. destruct x as [x|]; [|done]. apply orderly_fmap. by apply still_expiry.
Qed.
Lemma still_mark_accessed e : still (mark_accessed overflow_checks e) none_held.
Proof. apply orderly_still; [by apply still_or_crash|done]. Qed.

Ltac orders := repeat match goal with
  | |- orderly none_held (mbind _ cleanup_expired) _ => apply orderly_bind; eapply orderly_mono; [apply orderly_cleanup|intros ? ? ->]
  | |- orderly _ (mbind _ (mret _)) _ => apply orderly_ret
  | |- orderly _ (mbind _ (PFail _)) _ => by apply orderly_fail
  | |- orderly _ (mbind _ (take _ _)) _ => apply orderly_lock; [done|]
  | |- orderly _ (mbind _ (give _ _)) _ => apply orderly_unlock; [done|]
  | |- orderly _ (mbind _ entries) _ => apply orderly_entries; [done|intros ?]
  | |- orderly _ (mbind _ (put_entries _)) _ => apply orderly_put_entries; [done|]
  | |- orderly _ (mbind _ stats) _ => apply orderly_stats; [done|intros ?]
  | |- orderly _ (mbind _ (put_stats _)) _ => apply orderly_put_stats; [done|]
  | |- orderly _ (mbind _ now) _ => apply orderly_now; intros ?
  | |- orderly _ (mbind _ (mbind _ _)) _ => apply orderly_bind
  | |- orderly _ (mbind _ (fmap _ _)) _ => apply orderly_bind, orderly_fmap
  | |- orderly _ (mbind _ (match ?x with _ => _ end)) _ => destruct x
  | |- orderly _ (mbind _ _) _ => apply orderly_still; [first
      [ apply still_is_expired | apply still_record_miss | apply still_record_hit | apply still_record_set
      | apply still_record_delete | apply still_entry_new | apply still_mark_accessed | by apply still_expiry ]|intros ?]
  | |- orderly _ (match ?x with _ => _ end) _ => destruct x
  | |- orderly _ (entry_expired ?e) _ => eapply orderly_mono; [apply still_is_expired|intros ? ? ->]
  | |- orderly _ _ _ => done
  end.
Lemma set_well_locked key v x : well_locked (cset key v x).
Proof.
  unfold cache_set, well_locked. orders. apply orderly_bind. eapply orderly_mono; [apply orderly_evict|]. intros ? ? ->. orders.
Qed.
Lemma get_well_locked key : well_locked (cget key).
Proof. unfold cache_get, well_locked. orders. Qed.
Lemma delete_well_locked key : well_locked (delete_key overflow_checks key).
Proof. unfold delete_key, well_locked. orders. Qed.
Lemma exists_well_locked key : well_locked (exists_key key).
Proof. unfold exists_key, well_locked. orders. Qed.
Lemma expire_well_locked key x : well_locked (expire key x).
Proof. unfold expire, well_locked. orders. Qed.
Lemma ttl_well_locked key : well_locked (ttl key).
Proof. unfold ttl, well_locked. orders. Qed.
Lemma clear_well_locked : well_locked clear.
Proof. done. Qed.
Lemma stats_well_locked : well_locked stats_of.
Proof. unfold stats_of, well_locked. orders. Qed.
End orders.

(** ** What a cache answers, alone *)
Section answers.
Context {W : Type} {HW : World W} {CF : ClockForward W}.
#[local] Abbreviation Sy := (St CacheData W).
Definition held_entries (s : Sy) : gmap string CacheEntry := cd_entries (tables s).

Lemma wp_run_bind {A B} (p : prog A) (f : A → prog B) (Φ : res StoreError B → Sy → Prop) s :
  wp (run_prog p) (λ r s', match r with Ok a => wp (run_prog (f a)) Φ s' | Err e => Φ (Err e) s' | Panic => Φ Panic s' end) s →
  wp (run_prog (p ≫= f)) Φ s.
Proof.
  unfold wp, mbind, prog_bind. revert s. induction p as [| | |l m p IH|l m p IH|p IH|m p IH|p IH|m p IH|p IH]; intros s; simpl; try done.
  - apply IH.
  - apply IH.
  - apply IH.
  - apply IH.
  - apply IH.
  - apply IH.
  - destruct (tick_clock s) as [t s']. apply IH.
Qed.
Lemma wp_now_prog (Φ : res StoreError instant → Sy → Prop) s :
  (∀ s', held_entries s' = held_entries s → clk s ≤ clk s' → Φ (Ok (clk s)) s') → wp (run_prog now) Φ s.
Proof.
  intros H. unfold wp, now. simpl. unfold tick_clock. pose proof (clock_forward (world s)) as Hc.
  destruct (w_utc_now (world s)) as [t w] eqn:Hw. simpl in *. assert (clk s = t) as <- by (unfold clk; by rewrite Hw).
  apply H; [done|]. unfold clk at 2. simpl. unfold clk. rewrite Hw. exact Hc.
Qed.

(** What leaves the entries alone and does not fail, with an answer in [Q]; it may panic where a counter overflows. *)
Definition quietly {A} (panics : Prop) (Q : A → Prop) (p : prog A) : Prop := ∀ s, wp (run_prog p) (λ r s',
  held_entries s' = held_entries s ∧ clk s ≤ clk s' ∧ match r with Ok a => Q a | Err _ => False | Panic => panics end) s.
Definition quiet_prog {A} (panics : Prop) (p : prog A) : Prop := quietly panics (λ _, True) p.
Lemma quietly_bind {A B} P Q (p : prog A) (f : A → prog B) : quiet_prog P p → (∀ a, quietly P Q (f a)) → quietly P Q (p ≫= f).
Proof.
  intros Hp Hf s. apply wp_run_bind. eapply wp_mono; [apply Hp|]. intros [a|e|] s' (He & Hc & HP); [|naive_solver..].
  eapply wp_mono; [apply Hf|]. intros r s'' (He' & Hc' & Hr). rewrite He', He. split; [done|]. split; [lia|done].
Qed.
Lemma quietly_ret {A} P (Q : A → Prop) a : Q a → quietly P Q (mret a).
Proof. intros Ha s. unfold wp. simpl. split_and!; [done|lia|done]. Qed.
Lemma quiet_bind {A B} P (p : prog A) (f : A → prog B) : quiet_prog P p → (∀ a, quiet_prog P (f a)) → quiet_prog P (p ≫= f).
Proof. apply quietly_bind. Qed.
Lemma quiet_ret {A} P (a : A) : quiet_prog P (mret a).
Proof. by apply quietly_ret. Qed.
Lemma quiet_lock P l m : quiet_prog P (take l m).
Proof. intros s. unfold wp. simpl. split_and!; [done|lia|done]. Qed.
Lemma quiet_unlock P l m : quiet_prog P (give l m).
Proof. intros s. unfold wp. simpl. split_and!; [done|lia|done]. Qed.
Lemma quiet_entries P : quiet_prog P entries.
Proof. intros s. unfold wp. simpl. split_and!; [done|lia|done]. Qed.
Lemma quiet_stats P : quiet_prog P stats.
Proof. intros s. unfold wp. simpl. split_and!; [done|lia|done]. Qed.
Lemma quiet_put_stats P t : quiet_prog P (put_stats t).
Proof. intros s. unfold wp. simpl. split_and!; [done|unfold clk; simpl; lia|done]. Qed.
Lemma quiet_now P : quiet_prog P now.
Proof. intros s. apply wp_now_prog. intros s' He Hc. done. Qed.
Lemma quiet_or_crash {A} (P : Prop) d (o : option A) : quiet_prog P d → (o = None → P) → quiet_prog P (or_crash d o).
Proof.
  intros Hd Ho. destruct o as [a|]; [apply quiet_ret|]. apply quiet_bind; [done|].
  intros _ s. unfold wp. simpl. split_and!; [done|lia|auto].
Qed.
Lemma quiet_fmap {A B} P (g : A → B) (p : prog A) : quiet_prog P p → quiet_prog P (g <$> p).
Proof. intros Hp. apply (quiet_bind P p (λ a, PRet (g a))); [done|]. intros a. apply quiet_ret. Qed.
End answers.
Create HintDb quiet_prog.
#[export] Hint Resolve quietly_bind quietly_ret quiet_bind quiet_ret quiet_lock quiet_unlock quiet_entries quiet_stats quiet_put_stats quiet_now
  quiet_or_crash quiet_fmap : quiet_prog.

Section specs.
Context {HI : HashIter} {DU : Durations} {DL : DurationLaws} {W : Type} {HW : World W} {CF : ClockForward W} {T : Type}.
Context (overflow_checks : bool) (to_vec : T → string + string) (from_slice : string → string + T).
Context (max_entries : option nat).
#[local] Abbreviation Sy := (St CacheData W).
#[local] Abbreviation ev := held_entries.
#[local] Abbreviation panics := (overflow_checks = true).
#[local] Abbreviation cset := (cache_set overflow_checks to_vec max_entries).
#[local] Abbreviation cget := (cache_get overflow_checks from_slice).

Definition alive (t : instant) (e : CacheEntry) : Prop := ∀ x, en_expires_at e = Some x → t ≤ x.
Definition dead (t : instant) (e : CacheEntry) : Prop := ∃ x, en_expires_at e = Some x ∧ x < t.
Lemma alive_mono t t' e : t ≤ t' → alive t' e → alive t e.
Proof. intros Ht H x Hx. specialize (H x Hx). lia. Qed.
Lemma dead_mono t t' e : t ≤ t' → dead t e → dead t' e.
Proof. intros Ht (x & Hx & Hlt). exists x. split; [done|lia]. Qed.

Lemma wp_is_expired e (s : Sy) : wp (run_prog (entry_expired e)) (λ r s', ev s' = ev s ∧ clk s ≤ clk s' ∧
  ((r = Ok true ∧ dead (clk s') e) ∨ (r = Ok false ∧ alive (clk s) e))) s.
Proof.
  unfold entry_expired. destruct (en_expires_at e) as [x|] eqn:Hx.
  - apply wp_run_bind. apply wp_now_prog. intros s' He Hc. unfold wp. simpl. split; [done|]. split; [done|].
    destruct (Z.ltb_spec x (clk s)) as [Hlt|Hge].
    + left. split; [done|]. exists x. split; [done|lia].
    + right. split; [done|]. intros y Hy. rewrite Hx in Hy. by injection Hy as <-.
  - unfold wp. simpl. split; [done|]. split; [lia|]. right. split; [done|]. intros y Hy. by rewrite Hx in Hy.
Qed.
Lemma wp_retain l m n (s : Sy) : wp (run_prog (retain_live l m n)) (λ r s', ev s' = ev s ∧ clk s ≤ clk s' ∧
  ∃ m' n', r = Ok (m', n') ∧ ∀ k,
    (m' !! k = m !! k ∧ ∀ e, (k, e) ∈ l → alive (clk s) e) ∨ (m' !! k = None ∧ ∃ e, (k, e) ∈ l ∧ dead (clk s') e)) s.
Proof.
  revert m n s. induction l as [|[j e] l IH]; intros m n s.
  { unfold wp. simpl. split; [done|]. split; [lia|]. exists m, n. split; [done|]. intros k. left. split; [done|].
    by intros e ?%not_elem_of_nil. }
  apply wp_run_bind. eapply wp_mono; [apply wp_is_expired|]. intros r s1 (He1 & Hc1 & [[-> Hd]|[-> Ha]]).
  - eapply wp_mono; [apply IH|]. intros r s2 (He2 & Hc2 & m' & n' & -> & Hk). rewrite He2, He1. split; [done|].
    split; [lia|]. exists m', n'. split; [done|]. intros k. destruct (decide (k = j)) as [->|Hne].
    + right. split; [destruct (Hk j) as [[-> _]|[-> _]]; [by rewrite lookup_delete_eq|done]|].
      exists e. split; [by left|]. by apply (dead_mono (clk s1)).
    + destruct (Hk k) as [[-> Hal]|[-> (e' & Hin & Hd')]].
      * left. split; [by rewrite lookup_delete_ne|]. intros e' [[= -> ->]|Hin]%elem_of_cons; [done|].
        apply (alive_mono _ (clk s1)); [done|]. by apply Hal.
      * right. split; [done|]. exists e'. split; [by right|done].
  - eapply wp_mono; [apply IH|]. intros r s2 (He2 & Hc2 & m' & n' & -> & Hk). rewrite He2, He1. split; [done|].
    split; [lia|]. exists m', n'. split; [done|]. intros k. destruct (Hk k) as [[-> Hal]|[-> (e' & Hin & Hd')]].
    + left. split; [done|]. intros e' [[= -> ->]|Hin]%elem_of_cons; [done|]. apply (alive_mono _ (clk s1)); [done|]. by apply Hal.
    + right. split; [done|]. exists e'. split; [by right|done].
Qed.

(** A key after a sweep: as it was and not expired, or gone for it had. *)
Definition key_swept (s s' : Sy) (k : string) : Prop :=
  (ev s' !! k = ev s !! k ∧ ∀ e, ev s !! k = Some e → alive (clk s) e) ∨
  (ev s' !! k = None ∧ ∃ e, ev s !! k = Some e ∧ dead (clk s') e).
Lemma swept_subseteq s s' : (∀ k, key_swept s s' k) → ev s' ⊆ ev s.
Proof. intros H. apply map_subseteq_spec. intros k e He. destruct (H k) as [[<- _]|[Hn _]]; [done|]. by rewrite Hn in He. Qed.
Lemma wp_cleanup (s : Sy) : wp (run_prog cleanup_expired) (λ r s', r = Ok tt ∧ clk s ≤ clk s' ∧ ∀ k, key_swept s s' k) s.
Proof.
  unfold cleanup_expired. apply wp_run_bind. apply (wp_run_bind entries). unfold wp at 1. cbn [run_prog entries fst snd sm_ret mret].
  apply wp_run_bind. eapply wp_mono; [apply wp_retain|]. intros r s1 (He & Hc & m' & n' & -> & Hk).
  apply wp_run_bind. unfold wp at 1. cbn [run_prog put_entries fst snd sm_ret mret]. set (s2 := with_entries (m', n').1 s1).
  assert (quiet_prog (W:=W) False ((if 0 <? (m', n').2 then take LStats LWrite ;; t ← stats; put_stats (no_expired t) ;; give LStats LWrite
    else mret tt) ;; give LEntries LWrite)) as Hq by (destruct (0 <? (m', n').2); auto 10 with quiet_prog).
  eapply wp_mono; [apply Hq|]. intros [[]|e|] s3 (He3 & Hc3 & HP); [|done..].
  split; [done|]. change (clk s1 ≤ clk s3) in Hc3. change (clk s ≤ clk s1) in Hc. split; [lia|]. intros k. unfold key_swept. rewrite He3.
  assert (∀ e, (k, e) ∈ hash_iter (ev s) ↔ ev s !! k = Some e) as Hin.
  { intros e. by rewrite hash_iter_perm, elem_of_map_to_list. }
  destruct (Hk k) as [[Hm Hal]|[Hm (e & Hi & Hd)]].
  - left. split; [done|]. intros e Hke. by apply Hal, Hin.
  - right. split; [done|]. exists e. split; [by apply Hin|]. apply (dead_mono (clk s1)); [lia|done].
Qed.

Lemma least_used_spec m : match least_used m with
  | Some k => ∃ e, m !! k = Some e ∧ ∀ k' e', m !! k' = Some e' → last_use e ≤ last_use e'
  | None => m = ∅
  end.
Proof.
  unfold least_used. assert (∀ k e, (k, e) ∈ hash_iter m ↔ m !! k = Some e) as Hin.
  { intros k e. by rewrite hash_iter_perm, elem_of_map_to_list. }
  destruct (hash_iter m) as [|x l] eqn:Hl.
  - apply map_eq. intros k. rewrite lookup_empty. apply eq_None_not_Some. intros [e He%Hin]. by apply not_elem_of_nil in He.
  - destruct (min_by_spec (λ ke : string * CacheEntry, last_use ke.2) x l) as [Hm Hle].
    destruct (min_by _ x l) as [k e]. exists e. split; [by apply Hin|]. intros k' e' He'%Hin. exact (Hle _ He').
Qed.

Definition room (s : Sy) : Prop := match max_entries with None => True | Some n => (size (ev s) < n)%nat end.
(** The entry dropped for room: the cache was full, and no other was used less recently. *)
Definition victim_of (m : gmap string CacheEntry) (k : string) : Prop :=
  ∃ n e, max_entries = Some n ∧ (n ≤ size m)%nat ∧ m !! k = Some e ∧ ∀ k' e', m !! k' = Some e' → last_use e ≤ last_use e'.
Lemma wp_evict (s : Sy) : wp (run_prog (evict_if_needed max_entries)) (λ r s', r = Ok tt ∧ clk s' = clk s ∧
  ((ev s' = ev s ∧ (room s ∨ ev s = ∅)) ∨ ∃ k, victim_of (ev s) k ∧ ev s' = delete k (ev s))) s.
Proof.
  unfold evict_if_needed, room, victim_of. destruct max_entries as [n|].
  2: { unfold wp. simpl. split_and!; [done..|]. left. split; [done|by left]. }
  unfold wp, mbind, prog_bind. simpl. change (cd_entries (tables s)) with (ev s). destruct (Nat.ltb_spec (size (ev s)) n) as [Hlt|Hge]; simpl.
  { split_and!; [done..|]. left. split; [done|by left]. }
  pose proof (least_used_spec (ev s)) as Hlu. destruct (least_used (ev s)) as [k|]; simpl.
  - destruct Hlu as (e & He & Hle). split_and!; [done..|]. right. exists k. split; [|done]. by exists n, e.
  - split_and!; [done..|]. left. split; [done|by right].
Qed.

Definition ttl_end (t : instant) (ttl_seconds : option Z) : option instant :=
  option_map (λ n, t + u64_as_i64 n * 1000000000) ttl_seconds.
Lemma wp_entry_new d x (s : Sy) : wp (run_prog (entry_new d x)) (λ r s', ev s' = ev s ∧ clk s ≤ clk s' ∧
  match r with Ok e => e = mkEntry d (clk s) (ttl_end (clk s) x) 0 None | Err _ => False | Panic => is_Some x end) s.
Proof.
  apply wp_run_bind. apply wp_now_prog. intros s' He Hc. destruct x as [n|]; [|done]. simpl. unfold expiry.
  destruct (duration_seconds (u64_as_i64 n)) as [d'|] eqn:Hd; simpl; [|split_and!; [done..|by exists n]].
  destruct (add_duration (clk s) d') as [t|] eqn:Ht; simpl; [|split_and!; [done..|by exists n]].
  apply duration_seconds_ok in Hd. apply add_duration_ok in Ht. unfold wp. simpl. split_and!; [done..|]. by subst.
Qed.

Lemma quiet_tick d n : quiet_prog (W:=W) panics d → quiet_prog (W:=W) panics (tick overflow_checks d n).
Proof.
  intros Hd. apply quiet_or_crash; [done|]. unfold checked_incr. destruct (_ <=? _); [done|]. by destruct overflow_checks.
Qed.
Lemma quiet_sum d a b : quiet_prog (W:=W) panics d → quiet_prog (W:=W) panics (u64_sum overflow_checks d a b).
Proof. intros Hd. apply quiet_or_crash; [done|]. destruct (u64_checked_add a b); [done|]. by destruct overflow_checks. Qed.
Lemma quiet_update t : quiet_prog (W:=W) panics (update_hit_rate overflow_checks t).
Proof. apply quiet_bind; [apply quiet_sum|]; eauto with quiet_prog. Qed.
Lemma quiet_record_hit t : quiet_prog (W:=W) panics (record_hit overflow_checks t).
Proof. apply quiet_bind; [apply quiet_tick; eauto with quiet_prog|]. intros n. apply quiet_update. Qed.
Lemma quiet_record_miss t : quiet_prog (W:=W) panics (record_miss overflow_checks t).
Proof. apply quiet_bind; [apply quiet_tick; eauto with quiet_prog|]. intros n. apply quiet_update. Qed.
Lemma quiet_record_set t : quiet_prog (W:=W) panics (record_set overflow_checks t).
Proof. apply quiet_bind; [apply quiet_tick|]; eauto with quiet_prog. Qed.
Lemma quiet_record_delete t : quiet_prog (W:=W) panics (record_delete overflow_checks t).
Proof. apply quiet_bind; [apply quiet_tick|]; eauto with quiet_prog. Qed.
#[local] Hint Resolve quiet_record_hit quiet_record_miss quiet_record_set quiet_record_delete : quiet_prog.

Definition expired_by (s s' : Sy) (k : string) : Prop := ∃ e, ev s !! k = Some e ∧ dead (clk s') e.
(** An update of the entries, and a count after it. *)
Lemma wp_update {B} (f : gmap string CacheEntry → gmap string CacheEntry) (rest : gmap string CacheEntry → prog B)
    (Φ : res StoreError B → Sy → Prop) s :
  wp (run_prog (rest (ev s))) Φ (with_entries (f (ev s)) s) →
  wp (run_prog (take LEntries LWrite ;; m ← entries; put_entries (f m) ;; give LEntries LWrite ;; rest m)) Φ s.
Proof. done. Qed.
Lemma wp_look {B} (f : gmap string CacheEntry → prog B) (Φ : res StoreError B → Sy → Prop) s :
  wp (run_prog (f (ev s))) Φ s → wp (run_prog (take LEntries LRead ;; m ← entries; give LEntries LRead ;; f m)) Φ s.
Proof. done. Qed.
Lemma wp_locked {B} (f : gmap string CacheEntry → prog B) (Φ : res StoreError B → Sy → Prop) s :
  wp (run_prog (f (ev s))) Φ s → wp (run_prog (take LEntries LWrite ;; m ← entries; f m)) Φ s.
Proof. done. Qed.
Definition count_in (f : CacheStats → prog CacheStats) : prog unit :=
  take LStats LWrite ;; t ← stats; t ← f t;
  take LEntries LRead ;; m ← entries; put_stats (put_total (Z.of_nat (size m)) t) ;; give LEntries LRead ;;
  give LStats LWrite.
Lemma quiet_counted f : (∀ t, quiet_prog (W:=W) panics (f t)) → quiet_prog (W:=W) panics (count_in f).
Proof. intros Hf. unfold count_in. eauto 15 with quiet_prog. Qed.

(** What storing under [key] does to the other keys: they stay, but for the expired, which leave [m], and one of [m]
    where the cache was full. *)
Definition others_kept (key : string) (s s' : Sy) : Prop := ∃ (m : gmap string CacheEntry) (victim : option string),
  (∀ k, m !! k = ev s !! k ∨ m !! k = None ∧ expired_by s s' k) ∧
  (∀ k, k ≠ key → ev s' !! k = m !! k ∨ ev s' !! k = None ∧ victim = Some k) ∧
  ∀ k, victim = Some k → victim_of m k.
Definition within_bound (s : Sy) : Prop := ∀ n, max_entries = Some n → (size (ev s) ≤ Nat.max 1 n)%nat.

(** The bound after a sweep, an eviction and an insertion. *)
Lemma bound_after (s1 s2 : Sy) (m : gmap string CacheEntry) key e :
  within_bound s1 → m ⊆ ev s1 →
  (ev s2 = m ∧ (match max_entries with None => True | Some n => (size m < n)%nat end ∨ m = ∅)) ∨ (∃ k, victim_of m k ∧ ev s2 = delete k m) →
  ∀ n, max_entries = Some n → (size (<[key := e]> (ev s2)) ≤ Nat.max 1 n)%nat.
Proof.
  intros Hb Hsub Hev n Hn. specialize (Hb n Hn). apply map_subseteq_size in Hsub.
  assert (size (<[key := e]> (ev s2)) ≤ S (size (ev s2)))%nat as Hins.
  { destruct (ev s2 !! key) as [e'|] eqn:Hk; [rewrite map_size_insert_Some by (by eexists); lia|by rewrite map_size_insert_None]. }
  destruct Hev as [[Hs2 [Hroom|Hem]]|(k & (n' & x & Hn' & Hge & Hx & _) & Hs2)].
  - rewrite Hn in Hroom. rewrite Hs2 in *. lia.
  - rewrite Hs2, Hem, map_size_empty in Hins. rewrite Hs2, Hem. lia.
  - rewrite Hs2, map_size_delete_Some in Hins by (by exists x). rewrite Hs2. lia.
Qed.

Lemma wp_cache_set key v x (s : Sy) : wp (run_prog (cset key v x)) (λ r s', clk s ≤ clk s' ∧ others_kept key s s' ∧
  (within_bound s → within_bound s') ∧
  match r with
  | Ok _ => ∃ d t, to_vec v = inr d ∧ clk s ≤ t ≤ clk s' ∧ ev s' !! key = Some (mkEntry d t (ttl_end t x) 0 None)
  | Err e => ∃ m, to_vec v = inl m ∧ e = Serialization m
  | Panic => is_Some x ∨ panics
  end) s.
Proof.
  apply wp_run_bind. eapply wp_mono; [apply wp_cleanup|]. intros r s1 (-> & Hc1 & Hsw).
  apply wp_run_bind. eapply wp_mono; [apply wp_evict|]. intros r s2 (-> & Hc2 & Hev).
  assert (∀ s3, clk s2 ≤ clk s3 → ∀ k, ev s1 !! k = ev s !! k ∨ ev s1 !! k = None ∧ expired_by s s3 k) as Hm.
  { intros s3 Hc3 k. destruct (Hsw k) as [[Hk _]|[Hk (e & He & Hd)]]; [by left|]. right. split; [done|]. exists e.
    split; [done|]. apply (dead_mono (clk s1)); [lia|done]. }
  assert (∃ victim, (∀ k, ev s2 !! k = ev s1 !! k ∨ ev s2 !! k = None ∧ victim = Some k) ∧
    ∀ k, victim = Some k → victim_of (ev s1) k) as (victim & Hv & Hvic).
  { destruct Hev as [[-> _]|(k & Hk & ->)]; [by exists None; split; [left|]|]. exists (Some k). split; [|by intros ? [= <-]].
    intros j. destruct (decide (j = k)) as [->|Hne]; [right; by rewrite lookup_delete_eq|left; by rewrite lookup_delete_ne]. }
  assert (within_bound s → ∀ e n, max_entries = Some n → (size (<[key := e]> (ev s2)) ≤ Nat.max 1 n)%nat) as Hbound.
  { intros Hb e. apply (bound_after s s2 (ev s1)); [done|by apply swept_subseteq|done]. }
  assert (within_bound s → within_bound s2) as Hb2.
  { intros Hb n Hn. etrans; [|by apply (Hbound Hb (mkEntry "" 0 None 0 None) n Hn)].
    destruct (ev s2 !! key) as [e|] eqn:Hk; [by rewrite map_size_insert_Some by (by eexists)|rewrite map_size_insert_None by done; lia]. }
  assert (∀ s3, ev s3 = ev s2 → clk s2 ≤ clk s3 → clk s ≤ clk s3 ∧ others_kept key s s3 ∧ (within_bound s → within_bound s3)) as Hnot.
  { intros s3 He3 Hc3. split; [lia|]. split; [|by unfold within_bound in *; rewrite He3]. exists (ev s1), victim. rewrite He3.
    split; [by apply Hm|]. split; [|done]. intros k _. destruct (Hv k) as [?|?]; auto. }
  apply wp_run_bind. destruct (to_vec v) as [m|d] eqn:Hd.
  { unfold wp. simpl. destruct (Hnot s2 eq_refl (Z.le_refl _)) as (?&?&?). split_and!; [done..|]. by exists m. }
  unfold wp at 1. cbn [run_prog mret prog_ret sm_ret fst snd].
  apply wp_run_bind. eapply wp_mono; [apply wp_entry_new|]. intros r s3 (He3 & Hc3 & Hr).
  destruct r as [e|e|]; [|done|destruct (Hnot s3 He3 Hc3) as (?&?&?); split_and!; by auto].
  apply (wp_update (<[key := e]>)). eapply wp_mono; [apply (quiet_counted (record_set overflow_checks)); eauto with quiet_prog|].
  intros r s4 (He4 & Hc4 & HP). change (clk s3 ≤ clk s4) in Hc4. change (ev s4 = <[key := e]> (ev s3)) in He4. rewrite He3 in He4.
  split; [lia|]. split; [|split].
  - exists (ev s1), victim. split; [apply Hm; lia|]. split; [|done]. intros k Hne. rewrite He4, lookup_insert_ne by done.
    destruct (Hv k) as [?|?]; auto.
  - intros Hb n Hn'. rewrite He4. by apply Hbound.
  - destruct r as [[]|e'|]; [|done|by right]. exists d, (clk s2). split; [done|]. split; [lia|].
    by rewrite He4, lookup_insert_eq, Hr.
Qed.

(** A key keeps its value and its expiry, or has expired. *)
Definition entry_kept (s s' : Sy) (k : string) : Prop :=
  match ev s !! k with
  | Some e => (∃ e', ev s' !! k = Some e' ∧ en_data e' = en_data e ∧ en_expires_at e' = en_expires_at e) ∨
              ev s' !! k = None ∧ dead (clk s') e
  | None => ev s' !! k = None
  end.
Definition steady (s s' : Sy) : Prop := clk s ≤ clk s' ∧ ∀ k, entry_kept s s' k.
Lemma kept_same s s' k : ev s' !! k = ev s !! k → entry_kept s s' k.
Proof. unfold entry_kept. intros ->. destruct (ev s !! k) as [e|]; [left; by exists e|done]. Qed.
Lemma steady_quiet s s' : ev s' = ev s → clk s ≤ clk s' → steady s s'.
Proof. intros He Hc. split; [done|]. intros k. apply kept_same. by rewrite He. Qed.
Lemma kept_trans s s' s'' k : clk s' ≤ clk s'' → entry_kept s s' k → entry_kept s' s'' k → entry_kept s s'' k.
Proof.
  unfold entry_kept. intros Hc H1 H2. destruct (ev s !! k) as [e|]; [|by rewrite H1 in H2].
  destruct H1 as [(e' & He' & Hd & Hx)|[Hn Hd]].
  - rewrite He' in H2. destruct H2 as [(e'' & He'' & Hd' & Hx')|[Hn' (y & Hy & Hlt)]]; [left|right].
    + exists e''. split_and!; [done|congruence..].
    + split; [done|]. exists y. split; [congruence|done].
  - rewrite Hn in H2. right. split; [done|]. by apply (dead_mono (clk s')).
Qed.
Lemma steady_trans s s' s'' : steady s s' → steady s' s'' → steady s s''.
Proof. intros [Hc H] [Hc' H']. split; [lia|]. intros k. by apply (kept_trans _ s'). Qed.
Lemma steady_swept s s' : clk s ≤ clk s' → (∀ k, key_swept s s' k) → steady s s'.
Proof.
  intros Hc H. split; [done|]. intros k. destruct (H k) as [[Hk _]|[Hn (e & He & Hd)]]; [by apply kept_same|].
  unfold entry_kept. rewrite He. by right.
Qed.

Lemma wp_mark_accessed e (s : Sy) : wp (run_prog (mark_accessed overflow_checks e)) (λ r s', ev s' = ev s ∧ clk s ≤ clk s' ∧
  match r with Ok e' => en_data e' = en_data e ∧ en_expires_at e' = en_expires_at e | Err _ => False | Panic => panics end) s.
Proof.
  apply wp_run_bind. eapply wp_mono; [apply (quiet_tick (mret tt)); eauto with quiet_prog|]. intros [n|e'|] s1 (He & Hc & HP); [|done|done]. apply wp_run_bind. apply wp_now_prog. intros s2 He2 Hc2. unfold wp. simpl. rewrite He2, He.
  split; [done|]. split; [lia|done].
Qed.

Lemma swept_absent s s1 s2 k : (∀ k, key_swept s s1 k) → ev s1 !! k = None → clk s1 ≤ clk s2 → ev s !! k = None ∨ expired_by s s2 k.
Proof.
  intros Hsw Hn Hc. destruct (Hsw k) as [[Hsame _]|[_ (e & He & Hd)]]; [left; by rewrite <-Hsame|].
  right. exists e. split; [done|]. by apply (dead_mono (clk s1)).
Qed.
Lemma wp_cache_get key (s : Sy) : wp (run_prog (cget key)) (λ r s', steady s s' ∧
  match r with
  | Ok (Some v) => ∃ e, ev s !! key = Some e ∧ from_slice (en_data e) = inr v ∧ alive (clk s) e
  | Ok None => ev s !! key = None ∨ expired_by s s' key
  | Err x => ∃ e m, ev s !! key = Some e ∧ from_slice (en_data e) = inl m ∧ x = Deserialization m
  | Panic => panics
  end) s.
Proof.
  apply wp_run_bind. eapply wp_mono; [apply wp_cleanup|]. intros r s1 (-> & Hc1 & Hsw).
  pose proof (steady_swept s s1 Hc1 Hsw) as Hst1. apply wp_look. destruct (ev s1 !! key) as [e|] eqn:Hk.
  - apply wp_run_bind. eapply wp_mono; [apply wp_is_expired|]. intros r s2 (He2 & Hc2 & [[-> Hd]|[-> Hal]]); cbv iota.
    + apply (wp_update (delete key)). eapply wp_mono; [apply (quietly_bind panics (λ o, o = None)); eauto 20 with quiet_prog|].
      intros r s3 (He3 & Hc3 & Hr). change (clk s2 ≤ clk s3) in Hc3. change (ev s3 = delete key (ev s2)) in He3.
      assert (steady s1 s3) as Hst3.
      { split; [lia|]. intros k. destruct (decide (k = key)) as [->|Hne].
        - unfold entry_kept. rewrite He3, Hk. right. rewrite lookup_delete_eq. split; [done|]. by apply (dead_mono (clk s2)).
        - apply kept_same. by rewrite He3, He2, lookup_delete_ne. }
      split; [by eapply steady_trans|]. destruct r as [o|x|]; [|done|done]. subst o. right.
      destruct (Hsw key) as [[Hsame _]|[Hn _]]; [|by rewrite Hn in Hk]. exists e. split; [congruence|]. by apply (dead_mono (clk s2)).
    + apply wp_run_bind. eapply wp_mono; [apply wp_mark_accessed|]. intros [e'|x|] s3 (He3 & Hc3 & Hr); [|done|].
      2: { split; [|done]. eapply steady_trans; [done|]. apply steady_quiet; [by rewrite He3|lia]. }
      destruct Hr as [Hd Hx]. destruct (Hsw key) as [[Hsame Ha]|[Hn _]]; [|by rewrite Hn in Hk].
      assert (steady s s3) as Hst3 by (eapply steady_trans; [done|]; apply steady_quiet; [by rewrite He3|lia]).
      apply wp_run_bind. rewrite Hd. destruct (from_slice (en_data e)) as [m|v] eqn:Hv.
      { unfold wp. simpl. split; [done|]. exists e, m. split; [congruence|done]. }
      unfold wp at 1. cbn [run_prog mret prog_ret sm_ret fst snd].
      apply (wp_update (<[key := e']>)). eapply wp_mono; [apply (quietly_bind panics (λ o, o = Some v)); eauto 15 with quiet_prog|].
      intros r s4 (He4 & Hc4 & Hr). change (clk s3 ≤ clk s4) in Hc4. change (ev s4 = <[key := e']> (ev s3)) in He4.
      split.
      * eapply steady_trans; [exact Hst3|]. split; [done|]. intros k. destruct (decide (k = key)) as [->|Hne].
        -- unfold entry_kept. rewrite He4, He3, He2, Hk, lookup_insert_eq. left. by exists e'.
        -- apply kept_same. by rewrite He4, lookup_insert_ne.
      * destruct r as [o|x|]; [|done|done]. subst o. exists e. split; [congruence|]. split; [done|]. apply Ha. congruence.
  - eapply wp_mono; [apply (quietly_bind panics (λ o, o = None)); eauto 15 with quiet_prog|].
    intros r s2 (He2 & Hc2 & Hr). split; [eapply steady_trans; [done|by apply steady_quiet]|].
    destruct r as [o|x|]; [|done|done]. subst o. by apply (swept_absent s s1).
Qed.

(** ** Calls of a cache, one after another *)
Inductive CacheCall :=
  | CSet (key : string) (value : T) (ttl_seconds : option Z)
  | CGet (key : string)
  | CDelete (key : string)
  | CExists (key : string)
  | CExpire (key : string) (ttl_seconds : Z)
  | CTtl (key : string)
  | CClear
  | CStats.
Definition quiet_answer {A} (p : prog A) : prog unit := (λ _, tt) <$> p.
Definition call_prog (c : CacheCall) : prog unit :=
  match c with
  | CSet k v x => cset k v x
  | CGet k => quiet_answer (cget k)
  | CDelete k => quiet_answer (delete_key overflow_checks k)
  | CExists k => quiet_answer (exists_key k)
  | CExpire k x => quiet_answer (expire k x)
  | CTtl k => quiet_answer (ttl k)
  | CClear => clear
  | CStats => quiet_answer stats_of
  end.
Definition after_calls (cs : list CacheCall) (s : Sy) : Sy := foldl (λ s c, (run_prog (call_prog c) s).2) s cs.

(** A call that is not about a key: it names another, and what it stores finds room. *)
Definition spares (key : string) (s : Sy) (c : CacheCall) : Prop :=
  match c with
  | CSet k _ _ => k ≠ key ∧ room s
  | CDelete k | CExpire k _ => k ≠ key
  | CClear => False
  | CGet _ | CExists _ | CTtl _ | CStats => True
  end.
Fixpoint spared (key : string) (s : Sy) (cs : list CacheCall) : Prop :=
  match cs with
  | [] => True
  | c :: cs => spares key s c ∧ spared key (run_prog (call_prog c) s).2 cs
  end.

Lemma wp_answer {A} (p : prog A) (Φ : Sy → Prop) s :
  wp (run_prog p) (λ _ s', Φ s') s → wp (run_prog (quiet_answer p)) (λ _ s', Φ s') s.
Proof. intros Hp. apply wp_run_bind. eapply wp_mono; [exact Hp|]. by intros [a|e|] s'. Qed.
(** A sweep, and then reading. *)
Lemma steady_reading {A} (p : prog A) s : quiet_prog (W:=W) True p → wp (run_prog (cleanup_expired ;; p)) (λ _ s', steady s s') s.
Proof.
  intros Hp. apply wp_run_bind. eapply wp_mono; [apply wp_cleanup|]. intros r s1 (-> & Hc & Hsw).
  eapply wp_mono; [apply Hp|]. intros r s2 (He & Hc2 & _).
  eapply steady_trans; [by apply steady_swept|by apply steady_quiet].
Qed.
Lemma quiet_is_expired P e : quiet_prog (W:=W) P (entry_expired e).
Proof. unfold entry_expired. destruct (en_expires_at e); eauto with quiet_prog. Qed.
Lemma quiet_weaken {A} (P Q : Prop) (p : prog A) : (P → Q) → quiet_prog (W:=W) P p → quiet_prog Q p.
Proof. intros H Hp s. eapply wp_mono; [apply Hp|]. intros [a|e|] s' (?&?&?); auto. Qed.

Lemma wp_expire key k x s : k ≠ key → wp (run_prog (expire k x)) (λ _ s', clk s ≤ clk s' ∧ entry_kept s s' key) s.
Proof.
  intros Hne. unfold expire. apply wp_locked. apply wp_run_bind. assert (∀ s', ev s' !! key = ev s !! key → clk s ≤ clk s' → clk s ≤ clk s' ∧ entry_kept s s' key) as Hsame.
  { intros s' He Hc. split; [done|]. by apply kept_same. }
  destruct (ev s !! k) as [e|]; [|by apply Hsame].
  apply wp_run_bind. apply wp_now_prog. intros s1 He1 Hc1. apply wp_run_bind.
  unfold expiry. destruct (_ ≫= _) as [y|]; [|apply Hsame; [change (ev s1 !! key = ev s !! key); by rewrite He1|done]]. unfold wp. simpl.
  apply Hsame; [|done]. by apply lookup_insert_ne.
Qed.
(** What a call that spares a key leaves of it. *)
Lemma call_keeps key c s : spares key s c → clk s ≤ clk (run_prog (call_prog c) s).2 ∧ entry_kept s (run_prog (call_prog c) s).2 key.
Proof.
  intros Hc. change (wp (run_prog (call_prog c)) (λ _ s', clk s ≤ clk s' ∧ entry_kept s s' key) s). destruct c as [k v x|k|k|k|k x|k| |]; cbn [spares call_prog] in *.
  - destruct Hc as [Hne Hroom]. eapply wp_mono; [apply wp_cache_set|]. intros r s' (Hc & (m & victim & Hm & Ho & Hv) & _ & _). split; [done|].
    assert (victim = None) as ->.
    { destruct victim as [j|]; [|done]. exfalso. destruct (Hv j eq_refl) as (n & e & Hn & Hle & _). unfold room in Hroom. rewrite Hn in Hroom.
      assert (m ⊆ ev s) as Hsub%map_subseteq_size by (apply map_subseteq_spec; intros i y Hi; destruct (Hm i) as [<-|[Hnone _]]; congruence).
      lia. }
    destruct (Ho key) as [Hk|[_ [=]]]; [done|]. destruct (Hm key) as [Hk'|[Hk' (e & He & Hd)]]; [apply kept_same; congruence|].
    unfold entry_kept. rewrite He. right. split; [congruence|done].
  - apply wp_answer. eapply wp_mono; [apply wp_cache_get|]. intros r s' [[Hs Hk] _]. by split.
  - apply wp_answer. unfold delete_key. apply (wp_update (delete k)). eapply wp_mono; [apply (quiet_weaken panics True)|].
    { done. }
    { cbv zeta. apply quiet_bind; [|eauto with quiet_prog]. destruct (bool_decide _); [|eauto with quiet_prog].
      apply (quiet_counted (record_delete overflow_checks)). eauto with quiet_prog. }
    intros r s' (He & Hcl & _). split; [done|]. apply kept_same. rewrite He. by apply lookup_delete_ne.
  - apply wp_answer. eapply wp_mono; [apply steady_reading|intros r s' [Hs Hk]; by split].
    apply quiet_bind; [eauto with quiet_prog|]. intros _. apply quiet_bind; [eauto with quiet_prog|]. intros m.
    apply quiet_bind; [|eauto with quiet_prog]. destruct (m !! k); [apply quiet_fmap, quiet_is_expired|eauto with quiet_prog].
  - apply wp_answer. by apply wp_expire.
  - apply wp_answer. eapply wp_mono; [apply steady_reading|intros r s' [Hs Hk]; by split].
    apply quiet_bind; [eauto with quiet_prog|]. intros _. apply quiet_bind; [eauto with quiet_prog|]. intros m.
    apply quiet_bind; [|eauto with quiet_prog]. destruct (m !! k) as [e|]; [|eauto with quiet_prog]. destruct (en_expires_at e); eauto with quiet_prog.
  - done.
  - apply wp_answer. eapply wp_mono; [apply steady_reading; eauto 15 with quiet_prog|intros r s' [Hs Hk]; by split].
Qed.
Lemma calls_keep key cs s : spared key s cs → clk s ≤ clk (after_calls cs s) ∧ entry_kept s (after_calls cs s) key.
Proof.
  revert s. induction cs as [|c cs IH]; intros s; simpl; [split; [lia|by apply kept_same]|].
  intros [Hc Hcs]. destruct (call_keeps key c s Hc) as [Hc1 Hk1]. destruct (IH _ Hcs) as [Hc2 Hk2].
  split; [lia|]. by apply (kept_trans _ (run_prog (call_prog c) s).2).
Qed.

(** C30: What was stored under a key is what a later [get] answers, whatever was asked of the cache between that was not about
    the key and found room: [None] only once the value's time is over. *)
Theorem cache_answers_last_set (round_trip : ∀ v d, to_vec v = inr d → from_slice d = inr v) key v x cs (s s1 : Sy) :
  run_prog (cset key v x) s = (Ok tt, s1) → spared key s1 cs →
  let s2 := after_calls cs s1 in
  wp (run_prog (cget key)) (λ r s3, ∃ t, clk s ≤ t ≤ clk s1 ∧
    match r with
    | Ok (Some v') => v' = v ∧ ∀ y, ttl_end t x = Some y → clk s2 ≤ y
    | Ok None => ∃ y, ttl_end t x = Some y ∧ y < clk s3
    | Err _ => False
    | Panic => panics
    end) s2.
Proof.
  intros Hset Hcs s2. pose proof (wp_cache_set key v x s) as Hs. unfold wp in Hs. rewrite Hset in Hs. simpl in Hs.
  destruct Hs as (_ & _ & _ & d & t & Hd & Ht & Hk). destruct (calls_keep key cs s1 Hcs) as [Hc2 Hkept].
  fold s2 in Hc2, Hkept. unfold entry_kept in Hkept. rewrite Hk in Hkept. simpl in Hkept.
  eapply wp_mono; [apply wp_cache_get|]. intros r s3 [[Hc3 _] Hr]. exists t. split; [done|].
  destruct Hkept as [(e & He & Hed & Hex)|[Hn (y & Hy & Hlt)]].
  - destruct r as [[v'|]|err|].
    + destruct Hr as (e' & He' & Hv & Hal). rewrite He in He'. injection He' as <-. rewrite Hed, (round_trip _ _ Hd) in Hv.
      injection Hv as ->. split; [done|]. intros y Hy. apply Hal. by rewrite Hex.
    + destruct Hr as [Hr|(e' & He' & y & Hy & Hlt)]; [congruence|]. rewrite He in He'. injection He' as <-.
      exists y. split; [congruence|done].
    + destruct Hr as (e' & m & He' & Hm & _). rewrite He in He'. injection He' as <-. by rewrite Hed, (round_trip _ _ Hd) in Hm.
    + done.
  - destruct r as [[v'|]|err|]; [destruct Hr as (e' & He' & _); congruence| |destruct Hr as (e' & m & He' & _); congruence|done].
    exists y. split; [done|]. lia.
Qed.
End specs.

Lemma step_task_stuck {W A} {HW : World W} i (c : list (prog A) * (Locks * St CacheData W)) : stuck c → step_task i c = c.
Proof.
  intros [_ H]. unfold step_task. destruct (c.1 !! i) as [p|] eqn:Hp; [|done]. by rewrite (H p (list_elem_of_lookup_2 _ _ _ Hp)).
Qed.
Definition stuckb {W A} {HW : World W} (c : list (prog A) * (Locks * St CacheData W)) : bool :=
  existsb (λ p, negb (over p)) c.1 && forallb (λ p, match step_prog p c.2 with None => true | Some _ => false end) c.1.
Lemma stuckb_stuck {W A} {HW : World W} (c : list (prog A) * (Locks * St CacheData W)) : stuckb c = true → stuck c.
Proof.
  intros [(p & Hp & Ho)%existsb_exists Ha]%andb_true_iff. split.
  - exists p. split; [by apply list_elem_of_In|]. by apply negb_true_iff.
  - intros q Hq. rewrite forallb_forall in Ha. specialize (Ha q). rewrite <-list_elem_of_In in Ha. specialize (Ha Hq).
    by destruct (step_prog q c.2).
Qed.
(** Nothing the scheduler does frees a stuck cache. *)
Lemma stuck_stays {W A} {HW : World W} l (c : list (prog A) * (Locks * St CacheData W)) : stuck c → run_schedule l c = c.
Proof. intros Hc. induction l as [|i l IH]; [done|]. simpl. by rewrite step_task_stuck. Qed.

(** ** A cache that runs *)
Module CacheExample.
#[local] Existing Instance ConcreteWorld.demo_world.
#[local] Existing Instance CronExample.all_durations.
#[local] Existing Instance CronExample.all_durations_laws.
#[local] Instance any_order : HashIter := { hash_iter V := map_to_list; hash_iter_perm V m := reflexivity _ }.
#[local] Instance cache_ticking : ClockForward ConcreteWorld.DW.
Proof. intros [f c n]. simpl. lia. Qed.
#[local] Abbreviation Sy := (St CacheData ConcreteWorld.DW).
Definition store (key value : string) (x : option Z) : prog unit := cache_set true inr (Some 2%nat) key value x.
Definition fetch (key : string) : prog (option string) := cache_get true inr key.
Definition cache_at (t : Z) (d : CacheData) : Sy := mkSt d (ConcreteWorld.mkDW [] t 1).
Definition filled : Sy := (run_prog (store "b" "2" None) (run_prog (store "a" "1" (Some 10)) (cache_at 100 cache_new)).2).2.

(** A full cache drops the other key when one of its own is stored again; one that may hold none holds one. *)
Example overwrites_evict :
  held_entries (run_prog (store "b" "3" None) filled).2 !! "a" = None ∧
  size (held_entries (run_prog (cache_set true inr (Some 0%nat) "a" "1" None) (cache_at 100 cache_new)).2) = 1%nat.
Proof. vm_compute. split; reflexivity. Qed.

Lemma cache_answers_last_set_witness :
  let s1 := (run_prog (store "a" "1" (Some 10)) (cache_at 100 cache_new)).2 in
  let cs := [CSet "b" "2" None; CGet "a"; CExists "b"; CDelete "b"; CStats] in
  spared (T:=string) true inr inr (Some 2%nat) "a" s1 cs ∧
  wp (run_prog (fetch "a")) (λ r _, match r with Ok (Some v) => v = "1" | Ok None | Panic => True | Err _ => False end)
    (after_calls true inr inr (Some 2%nat) cs s1).
Proof.
  intros s1 cs. assert (spared (T:=string) true inr inr (Some 2%nat) "a" s1 cs) as Hcs.
  { cbn [spared spares cs]. split_and!; [done|apply Nat.ltb_lt; by_vm|done..]. }
  split; [exact Hcs|]. eapply wp_mono;
    [apply (cache_answers_last_set true inr inr (Some 2%nat) ltac:(by intros v d [= ->]) "a" "1" (Some 10) cs (cache_at 100 cache_new) s1)|].
  - by_vm.
  - exact Hcs.
  - intros [[v|]|e|] s (t & _ & H); [by destruct H|done..].
Defined.

(** ** Two tasks

    One stores a key while another only asks whether one exists. The first holds the statistics' lock and waits for the
    entries'; the second, that found an entry expired, holds the entries' and waits for the statistics'. *)
Definition aging : Sy := cache_at 100 (mkData {["old" := mkEntry "1" 0 (Some 101) 0 None]} cache_stats_default).
Definition crossing : list nat := replicate 15 0%nat ++ replicate 20 1%nat ++ [0%nat].
Definition crossed : list (prog unit) * (Locks * Sy) :=
  run_schedule crossing ([store "b" "2" None; quiet_answer (exists_key "old")], (free, aging)).
Lemma locks_cross (later : list nat) :
  stuck crossed ∧ run_schedule later crossed = crossed ∧ (lk_entries crossed.2.1, lk_stats crossed.2.1) = (Writer, Writer).
Proof.
  assert (stuck crossed) as Hs by (apply stuckb_stuck; by_vm). split; [done|]. split; [by apply stuck_stays|by_vm].
Qed.

(** A [get] reads an entry, a [set] replaces it and ends, and the [get] writes back what it read: the new value is lost. *)
Definition overtaken : list nat := replicate 7 0%nat ++ replicate 40 1%nat ++ replicate 40 0%nat.
Definition kept_old : Sy := cache_at 100 (mkData {["a" := mkEntry "1" 0 None 0 None]} cache_stats_default).
Definition overtook : list (prog unit) * (Locks * Sy) :=
  run_schedule overtaken ([quiet_answer (fetch "a"); store "a" "9" None], (free, kept_old)).
Example set_lost_to_get : (forallb over overtook.1, en_data <$> (held_entries overtook.2.2 !! "a")) = (true, Some "1").
Proof. by_vm. Qed.
End CacheExample.
