(* ===== verification/Http.v ===== *)
(** * HTTP: answers, list queries and the fields an answer carries

    [backbone-core/src/http.rs], the functions under the generic handlers: the answers and the
    statuses of errors, the reading and the refusing of list queries, and what an answered row is
    cut down to; [backbone-orm/src/secret_registry.rs], [field_permission_registry.rs]: what the
    process knows of the tables related rows come from. The handlers are in [HttpHandlers].

    A status is its number. What is only logged is left out. The decoders of a query string and of
    a body are libraries', and parameters. Whether a caller holds a permission is [has_permission]
    of [Grants]; the record of legacy spellings it adds to is not followed here, since the answer
    does not depend on it ([held_any_record]). *)
From Stdlib Require Import ZArith Lia Ascii.
From S2P Require Import Prelude Float64 RustStr RustChar Json WorkflowExpr WriteHooks Grants FilterParser ListQuery Database CrudWrite CrudService.

Local Open Scope Z_scope.
Set Warnings "-register-all".

(** ** Statuses *)
Definition OK_200 : Z := 200.
Definition CREATED : Z := 201.
Definition NO_CONTENT : Z := 204.
Definition BAD_REQUEST : Z := 400.
Definition NOT_FOUND : Z := 404.
Definition CONFLICT : Z := 409.
Definition UNPROCESSABLE_ENTITY : Z := 422.
Definition INTERNAL_SERVER_ERROR : Z := 500.
Definition NOT_IMPLEMENTED : Z := 501.
(** [StatusCode::is_server_error] *)
Definition is_server_error (status : Z) : bool := (500 <=? status) && (status <? 600).

(** ** Keys *)

(** [camel_to_snake_case]. The walk is over bytes: a byte of a character that is not ASCII is
    neither of the cases asked about, as the character is not. [prev] is the character before
    (NUL at the start), [last] the last one written. *)
Fixpoint snake_from (prev : ascii) (last : option ascii) (key : string) : string :=
  match key with
  | EmptyString => EmptyString
  | String c key' =>
      if is_ascii_uppercase c then
        let next := match key' with String d _ => d | EmptyString => zero end in
        let crosses_lower := is_ascii_lowercase prev || is_ascii_digit prev in
        let crosses_acronym := is_ascii_uppercase prev && is_ascii_lowercase next in
        let apart := (crosses_lower || crosses_acronym) &&
                     match last with Some l => negb (Ascii.eqb l "_") | None => false end in
        let rest := String (ascii_lower c) (snake_from c (Some (ascii_lower c)) key') in
        if apart then String "_" rest else rest
      else String c (snake_from c (Some c) key')
  end.
Definition camel_to_snake_case (key : string) : string := snake_from zero None key.

(** [c.to_uppercase()], of a character that is not ASCII a table's answer. *)
Class UnicodeUpper := { u_to_uppercase : string → string }.
Definition upper_ascii (c : ascii) : ascii :=
  if is_ascii_lowercase c then ascii_of_N (N_of_ascii c - 32) else c.
Definition char_upper {UU : UnicodeUpper} (ch : string) : string :=
  match ch with
  | String c "" => if is_ascii c then String (upper_ascii c) "" else u_to_uppercase ch
  | _ => u_to_uppercase ch
  end.
Fixpoint camel_from {UU : UnicodeUpper} (upper : bool) (cs : list string) : string :=
  match cs with
  | [] => ""
  | c :: cs =>
      if bool_decide (c = "_") then camel_from true cs
      else if upper then char_upper c +:+ camel_from false cs
      else c +:+ camel_from false cs
  end.
Definition snake_to_camel {UU : UnicodeUpper} (s : string) : string := camel_from false (chars s).

(** ** Objects *)
Section objects.
Context {SN : SerdeNumber}.

(** [Map::remove], [Map::retain] of the keys kept *)
Definition map_remove (k : string) (m : list (string * Value)) : list (string * Value) :=
  filter (λ kv, kv.1 ≠ k) m.
Definition on_object (f : list (string * Value) → list (string * Value)) (v : Value) : Value :=
  match v with VObject m => VObject (f m) | v => v end.
(** [pairs.collect::<Map>()]: the last entry of a key counts. *)
Definition map_collect (pairs : list (string * Value)) : list (string * Value) :=
  foldl (λ m kv, map_insert kv.1 kv.2 m) [] pairs.
End objects.

(** ** Answers *)
Section answers.
Context {L : Libs}.

Record ApiResponse (T : Type) := mkApi {
  api_success : bool;
  api_data : option T;
  api_message : option string;
  api_error : option string;
  api_violations : option (list Violation);
}.
#[global] Arguments mkApi {_} _ _ _ _ _.
#[global] Arguments api_success {_} _.
#[global] Arguments api_data {_} _.
#[global] Arguments api_message {_} _.
#[global] Arguments api_error {_} _.
#[global] Arguments api_violations {_} _.

(** [(!violations.is_empty()).then_some(violations)] *)
Definition some_violations (vs : list Violation) : option (list Violation) :=
  match vs with [] => None | _ => Some vs end.
Definition api_rejected {T} (error : string) (vs : list Violation) : ApiResponse T :=
  mkApi false None None (Some error) (some_violations vs).
Definition api_ok {T} (data : T) : ApiResponse T := mkApi true (Some data) None None None.
Definition success_with_message {T} (data : T) (message : string) : ApiResponse T :=
  mkApi true (Some data) (Some message) None None.
Definition api_failed {T} (error : string) : ApiResponse T := mkApi false None None (Some error) None.

Definition NOT_FOUND_MESSAGE : string := "Not found".
Definition not_found_violation : Violation := violation_new "" "not_found" NOT_FOUND_MESSAGE.
Definition api_not_found {T} : ApiResponse T := api_rejected NOT_FOUND_MESSAGE [not_found_violation].

Definition status_code_violation (status : Z) (message : string) : option Violation :=
  if status =? NOT_FOUND then Some not_found_violation
  else if status =? CONFLICT then Some (violation_new "" "conflict" message)
  else if status =? BAD_REQUEST then Some (violation_new "" "invalid_request" message)
  else if status =? UNPROCESSABLE_ENTITY then Some (violation_new "" "invalid_value" message)
  else None.

Definition INTERNAL_ERROR_MESSAGE : string := "An internal error occurred. It has been logged.".

(** An answer: its status and its body. *)
Definition Answered (T : Type) : Type := Z * ApiResponse T.

(** [err] is the error's [Display]. *)
Definition error_at {T} (status : Z) (vs : option (list Violation)) (err : string) : Answered T :=
  if is_server_error status then (status, api_failed INTERNAL_ERROR_MESSAGE)
  else match vs with
       | Some (v :: vs) => (status, api_rejected err (v :: vs))
       | _ =>
           if status =? NOT_FOUND then (status, api_rejected NOT_FOUND_MESSAGE [not_found_violation])
           else match status_code_violation status err with
                | Some v => (status, api_rejected err [v])
                | None => (status, api_failed err)
                end
       end.

Definition is_query_refusal (vs : list Violation) : bool :=
  match vs with [] => false | _ => forallb (λ v, bool_decide (v_code v = INVALID_QUERY)) vs end.

Definition service_error_status (err : ServiceError) : Z :=
  match err with
  | SViolations vs | SRepository (RViolations vs) =>
      if is_query_refusal vs then BAD_REQUEST else UNPROCESSABLE_ENTITY
  | SValidation _ | SRepository (RValidationError _) => BAD_REQUEST
  | SNotFound | SRepository RNotFound => NOT_FOUND
  | SAlreadyExists _ | SRepository (RAlreadyExists _) | SRepository (RConflict _) => CONFLICT
  | _ => INTERNAL_SERVER_ERROR
  end.

(** The rules an error names; [GenericCrudService]'s [violations_of] too. *)
Definition named_violations (err : ServiceError) : option (list Violation) :=
  match err with SViolations vs | SRepository (RViolations vs) => Some vs | _ => None end.
Definition service_error_response {T} (err : ServiceError) : Answered T :=
  error_at (service_error_status err) (named_violations err) (service_error_to_string err).

Definition not_an_id (id : string) : string := "`" +:+ id +:+ "` is not a valid record id".
Definition invalid_id {T} (id path : string) : option (Answered T) :=
  match parse_uuid id with
  | Some _ => None
  | None => Some (BAD_REQUEST,
      api_rejected ("invalid id: " +:+ not_an_id id) [violation_new path "invalid_id" (not_an_id id)])
  end.
Definition invalid_ids {T} (ids : list string) (path_of : nat → string) : option (Answered T) :=
  let vs := omap id (imap (λ i id, match parse_uuid id with
                                   | Some _ => None
                                   | None => Some (violation_new (path_of i) "invalid_id" (not_an_id id))
                                   end) ids) in
  match vs with
  | [] => None
  | _ => Some (BAD_REQUEST, api_rejected "invalid id in the batch" vs)
  end.

Definition query_violation (parameter : string) (reason : QueryParamReason) (message : string) : Violation :=
  invalid_query parameter (reason_as_str reason) message.
Definition refusal_sentence (vs : list Violation) : string := str_join "; " (map v_message vs).

(** ** The correlation id of a request *)
Definition usable_correlation_id (header : string) : option string :=
  let v := trim header in
  if negb (bool_decide (v = "")) && (str_len v <=? 128) && str_forallb is_ascii_graphic v
  then Some v else None.
(** [header]: the text of [x-correlation-id], where it reads as one. *)
Definition correlation_middleware {T W F A} {HW : World W} (rq : Request) (header : option string)
    (next : Request → sm (St T W) F A) : sm (St T W) F A :=
  match a ← rq_audit rq; non_empty (au_correlation_id a) with
  | Some _ => next rq
  | None =>
      id ← match header ≫= usable_correlation_id with
           | Some id => mret id
           | None => u ← fresh_uuid; mret (uuid_to_string u)
           end;
      next (with_task rq (with_correlation_id (rq_task rq) id))
  end.
End answers.
(** ** List queries *)

Record ListQueryParams := mkParams {
  lq_page : Z;    (* u32 *)
  lq_limit : Z;   (* u32 *)
  sort_by : option string;
  sort_order : option string;
  lq_search : option string;
  lq_status : option string;
  filters : gmap string string;
}.
Definition default_page : Z := 1.
Definition default_limit : Z := 20.
Definition normalized (p : ListQueryParams) : ListQueryParams :=
  let page := pagination_new (lq_page p) (lq_limit p) in
  mkParams (pg_page page) (pg_per_page page) (sort_by p) (sort_order p) (lq_search p) (lq_status p) (filters p).

(** [serde_urlencoded::from_str], of pairs and of the parameters. *)
Class Urlencoded := {
  read_pairs : string → option (list (string * string));
  read_params : string → string + ListQueryParams;
}.

Section queries.
Context {L : Libs}.

(** The first [page] or [limit] that is not a number; the first typed parameter sent twice. *)
Definition not_numbers (pairs : list (string * string)) : list Violation :=
  omap (λ kv : string * string,
      if bool_decide (is_Some (parse_u32 (trim kv.2))) then None
      else let e := not_a_number kv.1 kv.2 in
           Some (query_violation (parameter e) (reason e) (message e)))
    (filter (λ kv, kv.1 = "page") pairs ++ filter (λ kv, kv.1 = "limit") pairs).
Definition sent_twice (pairs : list (string * string)) : list Violation :=
  omap (λ key : string,
      if (1 <? length (filter (λ kv : string * string, kv.1 = key) pairs))%nat
      then Some (query_violation key InvalidValue ("`" +:+ key +:+ "` was sent more than once; send it once"))
      else None)
    ["page"; "limit"; "sort_by"; "sort_order"; "search"; "status"].
Definition list_query_violation {UE : Urlencoded} (raw : string) : Violation :=
  let pairs := default [] (read_pairs raw) in
  match not_numbers pairs ++ sent_twice pairs with
  | v :: _ => v
  | [] => violation_new "" "invalid_query" "The query string could not be read"
  end.

(** The first part of a key, before an operator. *)
Definition key_base (k : string) : string := hd k (str_split "[" k).
Definition sorts_by (k : string) : bool :=
  eq_ignore_ascii_case (key_base k) "orderby" || eq_ignore_ascii_case (key_base k) "sort".
Definition names_a_sort (m : gmap string string) : bool := existsb sorts_by (elements (dom m)).
(** [sort_by], where it names something. *)
Definition typed_sort (p : ListQueryParams) : option string :=
  f ← sort_by p; let f := trim f in if bool_decide (f = "") then None else Some f.
Definition typed_sort_applies (p : ListQueryParams) : bool :=
  negb (names_a_sort (filters p)) && bool_decide (is_Some (typed_sort p)).

(** [s.replace(from, to)], of a pattern that is not empty: each round leaves a shorter rest. *)
Fixpoint str_replace_from (fuel : nat) (from to s : string) : string :=
  match fuel with
  | O => s
  | S fuel => match split_once_str from s with
              | Some (a, b) => a +:+ to +:+ str_replace_from fuel from to b
              | None => s
              end
  end.
Definition str_replace (from to s : string) : string := str_replace_from (String.length s) from to s.
Definition said_for_sort_by (v : Violation) : Violation :=
  if bool_decide (v_path v = "orderby") then
    let v' := mkViolation "sort_by" (v_code v) (v_params v) (str_replace "`orderby`" "`sort_by`" (v_message v)) in
    match map_get "parameter" (v_params v) with
    | Some _ => with_param v' "parameter" (VString "sort_by")
    | None => v'
    end
  else v.
Definition rename_typed_sort (vs : list Violation) (p : ListQueryParams) : list Violation :=
  if typed_sort_applies p then map said_for_sort_by vs else vs.

Definition RESERVED_QUERY_KEYS : list string := ["fields"; "include"; "with"].
Definition AGGREGATE_QUERY_KEYS : list string :=
  ["group_by"; "sum"; "avg"; "min"; "max"; "group_limit"; "group_label"].
Definition COLUMN_LISTS : list string :=
  ["orderby"; "sort"; "searchfields"; "search_fields"; "group_by"; "sum"; "avg"; "min"; "max"; "group_label"].

(** What one parameter of the filter grammar names as columns. *)
Definition key_names (key : string) : list string :=
  match find_char "[" key with
  | Some (before, after) => [before; trim_end_char "]" after]
  | None => [key]
  end.
Definition listed_names (key value : string) : list string :=
  if bool_decide (to_ascii_lowercase key ∈ COLUMN_LISTS)
  then map (λ v, trim_start_char "-" (trim v)) (str_split "," value) else [].
Definition named_columns (p : ListQueryParams) : list (string * string) :=
  concat (map (λ key, map (pair key) (key_names key ++ listed_names key (default "" (filters p !! key))))
            (btree_iter (dom (filters p)))) ++
  from_option (λ n, [("sort_by", n)]) [] (sort_by p).

Definition column_of (name : string) : string := camel_to_snake_case (trim name).
Definition named_secret_at (p : ListQueryParams) (secret_fields : list string) : option (string * string) :=
  let secrets := map camel_to_snake_case secret_fields in
  List.find (λ pn, bool_decide (column_of pn.2 ∈ secrets)) (named_columns p).

(** Whether the caller of a request holds a permission; nobody holds nothing. *)
Definition caller_holds (caller : option AuthContext) (permission : string) : bool :=
  match caller with Some c => (has_permission c permission ∅).1 | None => false end.

Definition gate_of (gated : list (string * string)) (column : string) : option (string * string) :=
  List.find (λ fp, bool_decide (camel_to_snake_case fp.1 = column)) gated.
Definition named_gated_at (p : ListQueryParams) (gated : list (string * string)) (caller : option AuthContext) :
    option (string * string * string) :=
  hd_error (omap (λ pn : string * string,
    match gate_of gated (column_of pn.2) with
    | Some (field, permission) => if caller_holds caller permission then None else Some (pn.1, field, permission)
    | None => None
    end) (named_columns p)).

Definition secret_named_message (field : string) : string :=
  "'" +:+ field +:+ "' is a secret field: it cannot be filtered, sorted, searched or aggregated".
Definition secret_violation (parameter field : string) : Violation :=
  with_param (query_violation parameter InvalidValue ("`" +:+ parameter +:+ "`: " +:+ secret_named_message field))
    "field" (VString field).
Definition gated_violation (parameter field permission : string) : Violation :=
  with_param (with_param (query_violation parameter FieldPermission
      ("`" +:+ parameter +:+ "`: `" +:+ field +:+ "` needs the permission `" +:+ permission +:+
       "` to be filtered, sorted, searched or aggregated"))
    "field" (VString field)) "permission" (VString permission).

(** ** [EntityRepoMeta], as far as answers read it *)
Class EntityRepoMeta := {
  private_fields : list string;
  secret_fields : list string;
  relation_secret_fields : string → list string;
  field_permissions : list (string * string);
  owner_field : option string;
  relations : list (string * string * string);  (* name, table, the field of the foreign key *)
}.

Section entity.
Context {U : Unicode} {M : EntityRepoMeta}.

Definition gated_key_refusal (key field permission : string) : Violation :=
  with_param (violation_new key "field_permission_required"
      ("`" +:+ key +:+ "` needs the permission `" +:+ permission +:+ "` to be set"))
    "permission" (VString permission).
Definition gated_write_refusals (keys : list string) (caller : option AuthContext) : list Violation :=
  concat (map (λ key,
    omap (λ fp : string * string,
        if bool_decide (camel_to_snake_case fp.1 = column_of key) && negb (caller_holds caller fp.2)
        then Some (gated_key_refusal key fp.1 fp.2) else None)
      field_permissions) keys).

Definition clip_value (value : string) : string :=
  if chars_count value <=? 40 then value
  else str_concat (take 40 (chars value)) +:+ bytes_str [226; 128; 166].

(** A comma-separated list, its parts trimmed and the empty ones dropped. *)
Definition comma_list (s : string) : list string :=
  filter (λ f, f ≠ "") (map trim (str_split "," s)).
Definition sparse_fields (query : gmap string string) : list string :=
  from_option comma_list [] (query !! "fields").
Definition include_relations (query : gmap string string) : list string :=
  from_option comma_list [] (match query !! "include" with Some s => Some s | None => query !! "with" end).

Definition is_relation (name : string) : bool := existsb (λ r : string * string * string, bool_decide (r.1.1 = name)) relations.
Definition shaping_refusals (query : gmap string string) : list Violation :=
  let key := if bool_decide (is_Some (query !! "include")) then "include" else "with" in
  omap (λ name,
      if forallb (λ ch, char_is_alphanumeric ch || bool_decide (ch = "_")) (chars name) then None
      else Some (query_violation "fields" InvalidFieldName
                   ("`fields`: `" +:+ clip_value name +:+ "` is not a field name")))
    (sparse_fields query) ++
  omap (λ name,
      if is_relation name then None
      else Some (query_violation key UnknownRelation
                   ("`" +:+ key +:+ "`: `" +:+ clip_value name +:+ "` is not a relation of this resource")))
    (include_relations query).

Definition MAX_PER_PAGE : Z := 100.
Definition MAX_PAGINATION_OFFSET : Z := 10000.
Definition pagination_depth_error (page limit : Z) : option string :=
  let effective_limit := Z.min (Z.max limit 1) MAX_PER_PAGE in
  let offset := u32_saturating_mul (Z.max 0 (Z.max page 1 - 1)) effective_limit in
  if MAX_PAGINATION_OFFSET <? offset then
    Some ("Result set too deep: offset " +:+ show_Z offset +:+ " exceeds the maximum of " +:+
          show_Z MAX_PAGINATION_OFFSET +:+ ". Please add filters to narrow your search.")
  else None.

Definition given_order (p : ListQueryParams) : option string :=
  o ← sort_order p; let o := trim o in if bool_decide (o = "") then None else Some o.
Definition query_refusals (p : ListQueryParams) (paged : bool) (caller : option AuthContext) : list Violation :=
  (if paged then
     match pagination_depth_error (lq_page p) (lq_limit p) with
     | Some message => [query_violation "page" TooDeep ("`page`: " +:+ message)]
     | None => []
     end
   else []) ++
  match given_order p with
  | Some order =>
      if eq_ignore_ascii_case order "asc" || eq_ignore_ascii_case order "desc" then []
      else [query_violation "sort_order" InvalidValue
              ("`sort_order` must be `asc` or `desc`, not `" +:+ clip_value order +:+ "`")]
  | None => []
  end ++
  match named_secret_at p secret_fields with
  | Some (parameter, field) => [secret_violation parameter field]
  | None => []
  end ++
  match named_gated_at p field_permissions caller with
  | Some (parameter, field, permission) => [gated_violation parameter field permission]
  | None => []
  end ++
  shaping_refusals (filters p).
End entity.

(** ** What the repository is asked *)
Definition keep_keys (P : string → bool) (m : gmap string string) : gmap string string :=
  filter (λ kv, P kv.1 = true) m.
Definition with_typed (key : string) (v : option string) (m : gmap string string) : gmap string string :=
  match v with Some v => <[key := v]> m | None => m end.
Definition repository_filters (p : ListQueryParams) : gmap string string :=
  let m := keep_keys (λ k, negb (bool_decide (k ∈ RESERVED_QUERY_KEYS)) && negb (is_internal_key k)) (filters p) in
  let m := with_typed "status" (lq_status p) (with_typed "search" (lq_search p) m) in
  match typed_sort p with
  | Some field =>
      if names_a_sort m then m
      else
        let dir := match trim <$> sort_order p with
                   | Some d => if eq_ignore_ascii_case d "desc" then "desc" else "asc"
                   | None => "asc"
                   end in
        <["orderby" := field +:+ ":" +:+ dir]> m
  | None => m
  end.
Definition aggregate_filters (p : ListQueryParams) : gmap string string :=
  keep_keys (λ k, negb (bool_decide (k ∈ AGGREGATE_QUERY_KEYS))) (repository_filters p).
End queries.

Inductive AggregateFn := Sum | Avg | Min | Max.
Record AggregateSpec := mkSpec {
  group_by : option string;
  reductions : list (AggregateFn * string);
  group_limit : Z;   (* usize *)
  label_field : option string;
}.
(** [parse::<usize>()] *)
Definition parse_usize (s : string) : option Z :=
  let d := match s with String "+" d => d | _ => s end in
  match d with
  | EmptyString => None
  | _ => if str_forallb is_ascii_digit d
         then let v := digits_val 0 d in if v <=? u64_max then Some v else None else None
  end.
Definition named_once (m : gmap string string) (key : string) : option string :=
  v ← m !! key; let v := trim v in if bool_decide (v = "") then None else Some v.
Definition aggregate_spec (p : ListQueryParams) : AggregateSpec :=
  mkSpec (named_once (filters p) "group_by")
    (concat (map (λ kf : string * AggregateFn,
       map (pair kf.2) (from_option comma_list [] (filters p !! kf.1)))
       [("sum", Sum); ("avg", Avg); ("min", Min); ("max", Max)]))
    (default 0 (l ← filters p !! "group_limit"; parse_usize (trim l)))
    (named_once (filters p) "group_label").

(** ** The fields an answer carries *)

Inductive AccessScope := Platform | Company (id : uuid).
Definition scope_company (s : AccessScope) : option uuid := match s with Platform => None | Company id => Some id end.

(** [secret_registry.rs], [field_permission_registry.rs]: by bare table name. *)
Definition registry_key (table : string) : string :=
  to_ascii_lowercase (trim_matches (ascii_of_N 34) (default table (last (str_split "." table)))).
Record Registries := mkRegistries {
  secret_registry : gmap string (gset string);
  permission_registry : gmap string (list (string * string));
}.
Definition no_registries : Registries := mkRegistries ∅ ∅.
Definition register_secrets (table : string) (fields : list string) (r : Registries) : Registries :=
  match fields with
  | [] => r
  | _ =>
      let key := registry_key table in
      mkRegistries (<[key := default ∅ (secret_registry r !! key) ∪ list_to_set fields]> (secret_registry r))
        (permission_registry r)
  end.
Definition register_permissions (table : string) (fields : list (string * string)) (r : Registries) : Registries :=
  match fields with
  | [] => r
  | _ =>
      let key := registry_key table in
      let entry := foldl (λ entry fp, if existsb (λ x : string * string, bool_decide (x.1 = fp.1)) entry then entry else entry ++ [fp])
                     (default [] (permission_registry r !! key)) fields in
      mkRegistries (secret_registry r) (<[key := entry]> (permission_registry r))
  end.
Definition secret_fields_of (r : Registries) (table : string) : list string :=
  from_option elements [] (secret_registry r !! registry_key table).
Definition field_permissions_of (r : Registries) (table : string) : list (string * string) :=
  default [] (permission_registry r !! registry_key table).

Section fields.
Context {L : Libs} {UU : UnicodeUpper}.

Definition strip_secrets (value : Value) (fields : list string) : Value :=
  on_object (λ m, foldl (λ m f, map_remove f m) m fields) value.
Definition redact_gated (value : Value) (gated : list (string * string)) (caller : option AuthContext) : Value :=
  match gated with
  | [] => value
  | _ => on_object (λ m, foldl (λ m fp, if caller_holds caller fp.2 then m else map_insert fp.1 VNull m) m gated) value
  end.
Fixpoint redact_gated_deep (gated : list (string * string)) (caller : option AuthContext) (value : Value) : Value :=
  match value with
  | VObject m =>
      VObject ((fix entries (m : list (string * Value)) : list (string * Value) :=
        match m with
        | [] => []
        | (k, inner) :: m =>
            (k, match gate_of gated (camel_to_snake_case k) with
                | Some (_, permission) =>
                    if caller_holds caller permission then redact_gated_deep gated caller inner else VNull
                | None => redact_gated_deep gated caller inner
                end) :: entries m
        end) m)
  | VArray items => VArray (map (redact_gated_deep gated caller) items)
  | v => v
  end.

Definition may_see_private (scope : option AccessScope) (owner_field : option string) (value : Value) : bool :=
  match scope with
  | Some Platform => true
  | Some (Company id) =>
      bool_decide ((f ← owner_field; v ← value_get f value; s ← as_str v; parse_uuid s) = Some id)
  | None => false
  end.
Definition apply_field_security (value : Value) (scope : option AccessScope) (fields : list string)
    (owner_field : option string) : Value :=
  match fields with
  | [] => value
  | _ => if may_see_private scope owner_field value then value
         else on_object (λ m, foldl (λ m f, map_remove f m) m fields) value
  end.

Section of_entity.
Context {M : EntityRepoMeta}.
Definition secure (value : Value) (scope : option AccessScope) (caller : option AuthContext) : Value :=
  redact_gated
    (apply_field_security (strip_secrets value secret_fields) scope private_fields owner_field)
    field_permissions caller.
(** The answers of routes outside the generic handler. *)
Definition without_secrets (response : Value) : Value := secure response None None.
Definition without_secrets_for (caller : AuthContext) (response : Value) : Value := secure response None (Some caller).

Definition camelize_keys (v : Value) : Value :=
  on_object (λ m, map_collect (map (λ kv, (snake_to_camel kv.1, kv.2)) m)) v.
Definition related_row (r : Registries) (relation table : string) (obj : Value) (caller : option AuthContext) : Value :=
  let row := strip_secrets (camelize_keys obj) (relation_secret_fields relation) in
  let row := strip_secrets row (secret_fields_of r table) in
  redact_gated row (field_permissions_of r table) caller.
End of_entity.

Definition project_sparse (value : Value) (fields : list string) : Value :=
  match fields with
  | [] => value
  | _ => on_object (filter (λ kv : string * Value, kv.1 = "id" ∨ kv.1 ∈ fields)) value
  end.
End fields.

(** A patch: the values given, by key. *)
Abbreviation Patch := (gmap string Value).
(** The code and the sentence of a refusal, or the record before and after. *)
Abbreviation PreviewOutcome := (string * string + Value * Value)%type.

(** ** Pages of answers *)
Record PaginationResponse := mkPaging {
  pr_total : Z; pr_page : Z; pr_limit : Z; pr_total_pages : Z;
  pr_next_cursor : option string; pr_prev_cursor : option string; pr_has_more : option bool;
}.
Definition pagination_response_new (total page limit : Z) : PaginationResponse :=
  mkPaging total page limit
    (if limit =? 0 then 0 else f64_to_u32 (f64_ceil (f64_div (f64_of_Z total) (f64_of_Z limit)))) None None None.
Definition from_info (info : PaginationInfo) : PaginationResponse :=
  mkPaging (total info) (pi_page info) (pi_per_page info) (total_pages info) (next_cursor info) (prev_cursor info)
    (has_more info).

Section pages.
Context {L : Libs}.
(** [PaginatedApiResponse<serde_json::Value>] *)
Record PaginatedApiResponse := mkPaged {
  pa_success : bool;
  pa_data : list Value;
  pa_meta : PaginationResponse;
  pa_error : option string;
  pa_violations : option (list Violation);
}.
Definition ok_with_info (data : list Value) (info : PaginationInfo) : PaginatedApiResponse :=
  mkPaged true data (from_info info) None None.
Definition paged_ok (data : list Value) (total page limit : Z) : PaginatedApiResponse :=
  mkPaged true data (pagination_response_new total page limit) None None.
Definition paged_rejected (error : string) (vs : list Violation) : PaginatedApiResponse :=
  mkPaged false [] (pagination_response_new 0 0 0) (Some error) (some_violations vs).
Definition refused_list (vs : list Violation) : PaginatedApiResponse := paged_rejected (refusal_sentence vs) vs.

(** ** Batches *)
Definition batch_size_error (count : nat) : option string :=
  if MAX_BATCH_SIZE <? Z.of_nat count then
    Some ("Batch too large: " +:+ show_Z (Z.of_nat count) +:+ " items exceeds the maximum of " +:+
          show_Z MAX_BATCH_SIZE +:+ ".")
  else None.

(** [BulkResponse<serde_json::Value>], as its items: [total] is their number, nothing [failed]. *)
Record BulkResponse := mkBulk { br_items : list Value; br_total : nat; br_failed : nat; br_errors : list string }.
Definition bulk_of (items : list Value) : BulkResponse := mkBulk items (length items) 0 [].

Inductive BulkPatchRequest :=
  | Shared (ids : list string) (patch : Patch)
  | PerItem (items : list (string * Patch)).
Definition into_items (r : BulkPatchRequest) : list (string * Patch) :=
  match r with Shared ids patch => map (λ id, (id, patch)) ids | PerItem items => items end.
(** The keys as the fields are named: the last key walked that reads as a field counts. *)
Definition snake_keys {HI : HashIter} (patch : Patch) : Patch :=
  foldl (λ m kv, <[camel_to_snake_case kv.1 := kv.2]> m) ∅ (hash_iter patch).

Record FieldChange := mkFieldChange { fc_field : string; fc_from : Value; fc_to : Value }.
Record PreviewChange := mkPreviewChange { pc_id : string; pc_changes : list FieldChange }.
Record PreviewRefusal := mkPreviewRefusal { pf_id : string; pf_code : string; pf_message : string }.
Record BulkPreview := mkBulkPreview {
  will_change : list PreviewChange; unchanged : list string; refused : list PreviewRefusal; bp_total : nat;
}.

Section preview.
Context {UU : UnicodeUpper}.
Definition read_field (f : string) (v : Value) : Value :=
  match value_get (snake_to_camel f) v with
  | Some x => x
  | None => default VNull (value_get f v)
  end.
Definition sort_strings (l : list string) : list string := merge_sort (λ a b, Is_true (String.leb a b)) l.
Definition field_changes (keys : list string) (before after : Value) : list FieldChange :=
  omap (λ f, let from := read_field f before in let to := read_field f after in
             if value_eqb from to then None else Some (mkFieldChange f from to)) (sort_strings keys).
Definition preview_step (patched : gmap string (list string)) (out : BulkPreview) (row : string * PreviewOutcome) :
    BulkPreview :=
  let '(id, outcome) := row in
  match outcome with
  | inr (before, after) =>
      match field_changes (default [] (patched !! id)) before after with
      | [] => mkBulkPreview (will_change out) (unchanged out ++ [id]) (refused out) (bp_total out)
      | changes => mkBulkPreview (will_change out ++ [mkPreviewChange id changes]) (unchanged out) (refused out) (bp_total out)
      end
  | inl (code, message) =>
      mkBulkPreview (will_change out) (unchanged out) (refused out ++ [mkPreviewRefusal id code message]) (bp_total out)
  end.
Definition preview_answer (rows : list (string * PreviewOutcome)) (patched : gmap string (list string)) : BulkPreview :=
  let out := foldl (preview_step patched) (mkBulkPreview [] [] [] 0) rows in
  mkBulkPreview (will_change out) (unchanged out) (refused out)
    (length (will_change out) + length (unchanged out) + length (refused out)).
End preview.
End pages.

(** ** Aggregates *)
Record AggregateGroup := mkGroup {
  ag_key : option string; ag_label : option string; ag_count : Z; (* u64 *)
  ag_values : gmap string (option string);
}.
Record AggregateResult := mkAggregate { ar_groups : list AggregateGroup; ar_total : AggregateGroup; ar_truncated : bool }.
(** [Number::from(u64)] *)
Class SerdeCount {SN : SerdeNumber} := { from_u64 : Z → Number }.

Section aggregates.
Context {L : Libs} {SC : SerdeCount} {HI : HashIter}.
Definition or_null (o : option string) : Value := match o with Some s => VString s | None => VNull end.
Definition add_reduction (out : list (string * Value)) (cv : string * option string) : list (string * Value) :=
  match split_once ":" cv.1 with
  | None => out
  | Some (func, field) =>
      let out := map_or_insert func (VObject []) out in
      match map_get func out with
      | Some (VObject o) => map_insert func (VObject (map_insert field (or_null cv.2) o)) out
      | _ => out
      end
  end.
Definition render_group (g : AggregateGroup) : Value :=
  let out := map_insert "key" (or_null (ag_key g)) [] in
  let out := match ag_label g with Some l => map_insert "label" (VString l) out | None => out end in
  let out := map_insert "count" (VNumber (from_u64 (ag_count g))) out in
  VObject (foldl add_reduction out (hash_iter (ag_values g))).
Definition aggregate_body (r : AggregateResult) : Value :=
  VObject (map_collect [("groups", VArray (map render_group (ar_groups r)));
                        ("total", render_group (ar_total r)); ("truncated", VBool (ar_truncated r))]).
(** [json!({ key: count })] *)
Definition count_body (key : string) (n : Z) : Value := VObject [(key, VNumber (from_u64 n))].
End aggregates.

(** ** History *)
Section history.
Context {L : Libs}.
Record HistoryEntry := mkEntry {
  he_occurred_at : string; he_action : string; he_actor : string; he_changed : Value;
  he_reason : option string; he_correlation_id : option string;
}.
Definition entry_value (e : HistoryEntry) : Value :=
  VObject (map_collect [("occurred_at", VString (he_occurred_at e)); ("action", VString (he_action e));
    ("actor", VString (he_actor e)); ("changed", he_changed e); ("reason", or_null (he_reason e));
    ("correlation_id", or_null (he_correlation_id e))]).
End history.
