(* ===== verification/Extractors.v ===== *)
(** * Request bodies

    [backbone-core/src/extractors.rs]: what a body is read as, and what a body that cannot be read
    is refused with. The decoders ([serde_json], [serde_urlencoded], with [serde_path_to_error] and
    [serde_ignored] around them) are a library's, and parameters: what they say of a body is data. *)
From Stdlib Require Import ZArith Lia Ascii.
From S2P Require Import Prelude RustStr RustChar Json WorkflowExpr WriteHooks Grants RepositoryErrors CrudWrite CrudService Http.

Local Open Scope Z_scope.

(** [serde_json::error::Category] *)
Inductive Category := Syntax | Eof | Io | Data.
(** [serde_ignored::Path] *)
Inductive IgnoredPath :=
  | PRoot
  | PSeq (parent : IgnoredPath) (index : nat)
  | PMap (parent : IgnoredPath) (key : string)
  | PSome (parent : IgnoredPath)
  | PNewtypeStruct (parent : IgnoredPath)
  | PNewtypeVariant (parent : IgnoredPath).

(** One reading of a JSON body: what it decodes to, the keys the target ignored, and what stands
    after the value. *)
Record JsonRead (T : Type) := mkRead {
  jr_value : (PathError * Category) + T;
  jr_ignored : list IgnoredPath;
  jr_trailing : option (string * Category);
}.
Arguments mkRead {_} _ _ _.
Arguments jr_value {_} _.
Arguments jr_ignored {_} _.
Arguments jr_trailing {_} _.
Class Decode (T : Type) := {
  read_json : string → JsonRead T;
  read_form : string → string + T;
}.

Section extractors.
Context {L : Libs}.

Record Refusal := mkRefusal { ref_status : Z; ref_error : string; ref_violations : list Violation }.
Definition at_item (index : nat) (r : Refusal) : Refusal :=
  mkRefusal (ref_status r) ("item " +:+ show_Z (Z.of_nat index) +:+ ": " +:+ ref_error r)
    (map (λ v, mkViolation (batch_item_path index (v_path v)) (v_code v) (v_params v) (v_message v)) (ref_violations r)).
Definition refusal_response {T} (r : Refusal) : Answered T := (ref_status r, api_rejected (ref_error r) (ref_violations r)).

Definition ECHOED_KEYS : list string :=
  ["id"; "metadata"; "created_at"; "updated_at"; "deleted_at"; "createdAt"; "updatedAt"; "deletedAt"].

(** Each segment from the root down, and whether it is a key. *)
Fixpoint collect_segments (p : IgnoredPath) : list (string * bool) :=
  match p with
  | PRoot => []
  | PSeq parent index => collect_segments parent ++ [(show_Z (Z.of_nat index), false)]
  | PMap parent key => collect_segments parent ++ [(key, true)]
  | PSome parent | PNewtypeStruct parent | PNewtypeVariant parent => collect_segments parent
  end.
Definition ignored_key (p : IgnoredPath) : option string :=
  let segments := collect_segments p in
  let is_echoed_key := match last segments with
                       | Some (key, is_key) => is_key && bool_decide (key ∈ ECHOED_KEYS)
                       | None => false
                       end in
  let shallow := match segments with [_] => true | (_, is_key) :: _ => negb is_key | [] => false end in
  let echoed := (length segments <=? 2)%nat && is_echoed_key && shallow in
  if echoed || bool_decide (segments = []) then None else Some (str_join "/" (map fst segments)).

Definition missing_field (message : string) : option string :=
  rest ← strip_prefix_str "missing field `" message; head (str_split "`" rest).
Definition json_refusal (path : list string) (said : string) (category : Category) : Refusal :=
  let message := without_position said in
  match category with
  | Data =>
      let '(path, code, text) := match missing_field message with
                                 | Some f => (path ++ [f], "required", f +:+ " is required")
                                 | None => (path, "invalid_value", message)
                                 end in
      let path := str_join "/" path in
      let sentence := if bool_decide (path = "") then text else path +:+ ": " +:+ text in
      mkRefusal UNPROCESSABLE_ENTITY ("validation failed: " +:+ sentence) [violation_new path code text]
  | _ =>
      mkRefusal BAD_REQUEST ("malformed JSON body: " +:+ message)
        [violation_new "" "malformed_body" ("The request body is not valid JSON: " +:+ message)]
  end.

Definition unknown_key (path : string) : Violation :=
  violation_new path "unknown_field"
    ("unknown_field: `" +:+ default path (last (str_split "/" path)) +:+ "` is not a field this write accepts").
(** [sort], [dedup]: each path once, in the order of its bytes. *)
Definition decode_json_or_refusal {T} {D : Decode T} (bytes : string) (strict : bool) : Refusal + T :=
  let read := read_json bytes in
  match jr_value read with
  | inl (e, category) => inl (json_refusal (omap segment_text (at_path e)) (inner_message e) category)
  | inr value =>
      match jr_trailing read with
      | Some (said, category) => inl (json_refusal [] said category)
      | None =>
          let ignored := if strict then btree_iter (list_to_set (omap ignored_key (jr_ignored read))) else [] in
          match ignored with
          | [] => inr value
          | _ =>
              let vs := map unknown_key ignored in
              inl (mkRefusal UNPROCESSABLE_ENTITY ("validation failed: " +:+ str_join "; " (map v_message vs)) vs)
          end
      end
  end.

Definition is_form (content_type : option string) : bool :=
  match content_type with Some ct => starts_with ct "application/x-www-form-urlencoded" | None => false end.
Definition unreadable (status : Z) (text : string) : Refusal :=
  mkRefusal status text [violation_new "" "unreadable_body" "The request body could not be read"].
Definition form_refusal (message : string) : Refusal :=
  mkRefusal UNPROCESSABLE_ENTITY ("invalid form body: " +:+ message) [violation_new "" "invalid_value" message].

(** A body is its bytes, or the status and the text of what refused to give them. *)
Abbreviation Body := (Z * string + string)%type.
Definition decode_body {T} {D : Decode T} (content_type : option string) (body : Body) (strict : bool) : Refusal + T :=
  match body with
  | inl (status, text) => inl (unreadable status text)
  | inr bytes =>
      if is_form content_type then
        match read_form bytes with inl m => inl (form_refusal m) | inr v => inr v end
      else decode_json_or_refusal bytes strict
  end.
(** [JsonOrForm], [StrictJsonOrForm] *)
Definition json_or_form {T} {D : Decode T} (content_type : option string) (body : Body) : Refusal + T :=
  decode_body content_type body false.
Definition strict_json_or_form {T} {D : Decode T} (content_type : option string) (body : Body) : Refusal + T :=
  decode_body content_type body true.

(** The keys a JSON document names at its top, and those of the items of an array. *)
Definition object_keys (v : Value) : list string := match v with VObject m => map fst m | _ => [] end.
Definition document_keys (v : Value) : list string :=
  match v with
  | VObject m => map fst m
  | VArray items => concat (map object_keys items)
  | _ => []
  end.
(** [WriteBody]: the value, and the keys the body names. [DV] reads any JSON. *)
Definition write_body {T} {D : Decode T} {DV : Decode Value} {UE : Urlencoded} (content_type : option string)
    (body : Body) : Refusal + T * list string :=
  match body with
  | inl (status, text) => inl (unreadable status text)
  | inr bytes =>
      if is_form content_type then
        let keys := from_option (map fst) [] (read_pairs bytes) in
        match read_form bytes with inl m => inl (form_refusal m) | inr v => inr (v, keys) end
      else
        let document := read_json (T:=Value) bytes in
        let keys := match jr_value document, jr_trailing document with
                    | inr v, None => document_keys v
                    | _, _ => []
                    end in
        match decode_json_or_refusal bytes true with inl r => inl r | inr v => inr (v, keys) end
  end.
End extractors.
Arguments Refusal {_}.
