(* ===== verification/HttpHandlers.v ===== *)
(** * HTTP: the generic handlers

    [backbone-core/src/http.rs]: the [CrudService] interface with its default methods, and each
    handler of [BackboneCrudHandler]; [service.rs]: the instance [GenericCrudService] gives. A
    handler runs over any service; what it answers is a status and a body, and a service that
    panics takes the request with it. The routes' permission layer is [Permission], the reading
    of a body [Extractors]; the registries of related tables are what the request finds them to
    be. [entity_name] reaches the log alone and is left out. *)
From Stdlib Require Import ZArith Lia Ascii.
From S2P Require Import Prelude Float64 RustStr RustChar Json WorkflowExpr WriteHooks Grants FilterParser ListQuery Database RepositoryErrors CrudWrite CrudService Http Extractors.

Local Open Scope Z_scope.

(** ** [CrudService] *)

(** One row of a dry run. *)
Record PreviewRow (E Err : Type) := mkRow { row_id : string; row_outcome : Err + E * E }.
Arguments mkRow {_ _} _ _.
Arguments row_id {_ _} _.
Arguments row_outcome {_ _} _.

Class CrudServiceApi {L : Libs} (X E C U : Type) := {
  svc_error : Type;
  svc_violations_of : svc_error → option (list Violation);
  svc_status_of : svc_error → option Z;
  svc_error_to_string : svc_error → string;
  svc_supports_upsert : bool;
  svc_table_name : option string;
  svc_fetch_related_json : string → list string → sm X Empty_set (list Value);
  svc_list_with_info : Z → Z → gmap string string → sm X svc_error (list E * PaginationInfo);
  svc_aggregate : AggregateSpec → gmap string string → sm X svc_error AggregateResult;
  svc_count_active_filtered : gmap string string → sm X svc_error Z;
  svc_create : C → sm X svc_error E;
  svc_get_by_id : string → sm X svc_error (option E);
  svc_update : string → U → sm X svc_error (option E);
  svc_partial_update : string → Patch → sm X svc_error (option E);
  svc_soft_delete : string → sm X svc_error bool;
  svc_bulk_create : list C → sm X svc_error (list E);
  svc_upsert : C → sm X svc_error E;
  svc_restore : string → sm X svc_error (option E);
  svc_empty_trash : sm X svc_error Z;
  svc_get_deleted_by_id : string → sm X svc_error (option E);
  svc_permanent_delete : string → sm X svc_error bool;
  svc_list_deleted_filtered : Z → Z → gmap string string → sm X svc_error (list E * Z);
  svc_count_deleted : sm X svc_error Z;
  svc_bulk_soft_delete : list string → sm X svc_error Z;
  svc_bulk_restore : list string → sm X svc_error (list E);
  svc_bulk_permanent_delete : list string → sm X svc_error Z;
  svc_restore_all : sm X svc_error Z;
  svc_bulk_update : list (string * U) → sm X svc_error (list E);
  svc_bulk_partial_update : list (string * Patch) → sm X svc_error (list E);
  svc_preview_bulk_partial_update : list (string * Patch) → sm X svc_error (option (list (PreviewRow E svc_error)));
}.

(** *** The default methods, over the ones they call *)
Section defaults.
Context {X Err E U : Type}.
Definition default_list_with_info (list_rows : Z → Z → gmap string string → sm X Err (list E * Z))
    (page limit : Z) (m : gmap string string) : sm X Err (list E * PaginationInfo) :=
  '(rows, total) ← list_rows page limit m; mret (rows, pagination_info_new page limit total).
Definition default_count_active_filtered (list_rows : Z → Z → gmap string string → sm X Err (list E * Z))
    (m : gmap string string) : sm X Err Z :=
  '(_, total) ← list_rows 1 1 m; mret total.
(** [bulk_soft_delete] and [bulk_permanent_delete]; [bulk_restore], [bulk_update] and
    [bulk_partial_update]: a loop over the method of one row. *)
Definition default_bulk_count {A} (one : A → sm X Err bool) (items : list A) : sm X Err Z :=
  let step (n : Z) (item : A) : sm X Err Z := done ← one item; mret (n + Z.b2z done) in
  sm_fold step 0 items.
Definition default_bulk_rows {A} (one : A → sm X Err (option E)) (items : list A) : sm X Err (list E) :=
  let step (out : list E) (item : A) : sm X Err (list E) :=
    e ← one item; mret (match e with Some e => out ++ [e] | None => out end) in
  sm_fold step [] items.
Definition default_restore_all : sm X Err Z := mret 0.
Definition default_preview {P} : sm X Err (option (list P)) := mret None.
End defaults.

(** ** The handlers *)
Section handlers.
Context {L : Libs} {U0 : Unicode} {UU : UnicodeUpper} {SC : SerdeCount} {HI : HashIter} {M : EntityRepoMeta}.
Context {X E C U : Type} {SV : CrudServiceApi X E C U}.
(** [serde_json::to_value(R::from(e))], null where that fails *)
Context (to_response : E → Value).
(** The registries as the request finds them. *)
Context (regs : Registries).

Abbreviation Handler T := (sm X Empty_set T).

(** [read_routes], [write_routes]: building them registers the entity. *)
Definition register_entity (r : Registries) : Registries :=
  match svc_table_name with
  | Some table => register_permissions table field_permissions (register_secrets table secret_fields r)
  | None => r
  end.

Definition failure {T} (err : svc_error) (fallback : Z) : Answered T :=
  let vs := svc_violations_of err in
  let status := match svc_status_of err with
                | Some status => status
                | None => match vs with
                          | Some v => if is_query_refusal v then BAD_REQUEST else UNPROCESSABLE_ENTITY
                          | None => fallback
                          end
                end in
  error_at status vs (svc_error_to_string err).

Definition is_bad_query_error (msg : string) : bool :=
  let m := to_lowercase msg in
  existsb (str_contains m)
    ["does not exist"; "invalid input syntax"; "42703"; "not a column of this entity"; "needs a numeric column"].
Definition BAD_QUERY_MESSAGE : string := "Invalid query parameter or filter".
Definition query_failure_parts (err : svc_error) (p : ListQueryParams) (fallback : Z) :
    Z * string * list Violation :=
  let vs := svc_violations_of err in
  let refusal := match vs with Some v => if is_query_refusal v then Some v else None | None => None end in
  match refusal with
  | Some v => let v := rename_typed_sort v p in (BAD_REQUEST, refusal_sentence v, v)
  | None =>
      if bool_decide (vs = None) && is_bad_query_error (svc_error_to_string err) then
        (BAD_REQUEST, BAD_QUERY_MESSAGE, [violation_new "" INVALID_QUERY BAD_QUERY_MESSAGE])
      else
        let '(status, body) := failure (T:=unit) err fallback in
        (status, default "" (api_error body), default [] (api_violations body))
  end.
Definition list_failure (err : svc_error) (p : ListQueryParams) : Z * PaginatedApiResponse :=
  let '(status, error, vs) := query_failure_parts err p INTERNAL_SERVER_ERROR in (status, paged_rejected error vs).
Definition query_failure {T} (err : svc_error) (p : ListQueryParams) : Answered T :=
  let '(status, error, vs) := query_failure_parts err p INTERNAL_SERVER_ERROR in
  (status, match vs with [] => api_failed error | _ => api_rejected error vs end).

(** [svc.method(..).await], its error kept as a value *)
Definition svc_call {A} (m : sm X svc_error A) : Handler (svc_error + A) := attempt m.
Definition refused_with {T} (status : Z) (vs : list Violation) : Answered T :=
  (status, api_rejected (refusal_sentence vs) vs).

(** *** Related rows *)
Definition fk_of (fk_field : string) (row : Value) : option string := v ← value_get fk_field row; as_str v.
Definition expand_row (name fk_field : string) (by_id : gmap string Value) (row : Value) : Value :=
  let related := match fk_of fk_field row ≫= λ id, by_id !! id with Some v => v | None => VNull end in
  on_object (map_insert name related) row.
Definition index_related (name table : string) (caller : option AuthContext) (related : list Value) : gmap string Value :=
  foldl (λ m obj, match value_get "id" obj ≫= as_str with
                  | Some id => <[id := related_row regs name table obj caller]> m
                  | None => m
                  end) ∅ related.
Fixpoint expand_each (rels : list (string * string * string)) (includes : list string) (caller : option AuthContext)
    (rows : list Value) : Handler (list Value) :=
  match rels with
  | [] => mret rows
  | (name, table, fk_field) :: rels =>
      if bool_decide (name ∉ includes) then expand_each rels includes caller rows
      else
        (* [sort], [dedup] *)
        let ids := btree_iter (list_to_set (omap (fk_of fk_field) rows)) in
        match ids with
        | [] => expand_each rels includes caller rows
        | _ =>
            related ← svc_fetch_related_json (E:=E) (C:=C) (U:=U) table ids;
            expand_each rels includes caller (map (expand_row name fk_field (index_related name table caller related)) rows)
        end
  end.
Definition expand_includes (rows : list Value) (includes : list string) (caller : option AuthContext) :
    Handler (list Value) :=
  match includes, rows with
  | [], _ | _, [] => mret rows
  | _, _ => expand_each relations includes caller rows
  end.

Definition secured (scope : option AccessScope) (caller : option AuthContext) (e : E) : Value :=
  secure (to_response e) scope caller.
(** The rows of a list: the security ceiling, then the relations, then the sparse fields. *)
Definition shaped (p : ListQueryParams) (scope : option AccessScope) (caller : option AuthContext) (es : list E) :
    Handler (list Value) :=
  rows ← expand_includes (map (secured scope caller) es) (include_relations (filters p)) caller;
  mret (map (λ r, project_sparse r (sparse_fields (filters p))) rows).

(** *** Reads *)
Definition list_handler (params : ListQueryParams) (scope : option AccessScope) (caller : option AuthContext) :
    Handler (Z * PaginatedApiResponse) :=
  let params := normalized params in
  match query_refusals params true caller with
  | (_ :: _) as refused => mret (BAD_REQUEST, refused_list refused)
  | [] =>
      r ← svc_call (svc_list_with_info (lq_page params) (lq_limit params) (repository_filters params));
      match r with
      | inr (entities, info) =>
          items ← shaped params scope caller entities;
          mret (OK_200, ok_with_info items info)
      | inl e => mret (list_failure e params)
      end
  end.
Definition list_deleted_handler (params : ListQueryParams) (scope : option AccessScope) (caller : option AuthContext) :
    Handler (Z * PaginatedApiResponse) :=
  let params := normalized params in
  match query_refusals params true caller with
  | (_ :: _) as refused => mret (BAD_REQUEST, refused_list refused)
  | [] =>
      r ← svc_call (svc_list_deleted_filtered (lq_page params) (lq_limit params) (repository_filters params));
      match r with
      | inr (entities, total) =>
          items ← shaped params scope caller entities;
          mret (OK_200, paged_ok items total (lq_page params) (lq_limit params))
      | inl e => mret (list_failure e params)
      end
  end.
Definition get_handler (id : string) (params : ListQueryParams) (scope : option AccessScope)
    (caller : option AuthContext) : Handler (Answered Value) :=
  match invalid_id id "id" with
  | Some refused => mret refused
  | None =>
      match shaping_refusals (filters params) with
      | (_ :: _) as refused => mret (refused_with BAD_REQUEST refused)
      | [] =>
          r ← svc_call (svc_get_by_id id);
          match r with
          | inr (Some entity) =>
              rows ← shaped params scope caller [entity];
              mret (OK_200, api_ok (default VNull (head rows)))
          | inr None => mret (NOT_FOUND, api_not_found)
          | inl e => mret (failure e INTERNAL_SERVER_ERROR)
          end
      end
  end.
Definition get_deleted_handler (id : string) (params : ListQueryParams) (scope : option AccessScope)
    (caller : option AuthContext) : Handler (Answered Value) :=
  match invalid_id id "id" with
  | Some refused => mret refused
  | None =>
      r ← svc_call (svc_get_deleted_by_id id);
      match r with
      | inr (Some entity) =>
          mret (OK_200, api_ok (project_sparse (secured scope caller entity) (sparse_fields (filters params))))
      | inr None => mret (NOT_FOUND, api_not_found)
      | inl e => mret (failure e INTERNAL_SERVER_ERROR)
      end
  end.
Definition count_active_handler (params : ListQueryParams) (caller : option AuthContext) : Handler (Answered Value) :=
  match query_refusals params false caller with
  | (_ :: _) as refused => mret (refused_with BAD_REQUEST refused)
  | [] =>
      r ← svc_call (svc_count_active_filtered (repository_filters params));
      match r with
      | inr count => mret (OK_200, api_ok (count_body "count" count))
      | inl e => mret (query_failure e params)
      end
  end.
Definition count_deleted_handler : Handler (Answered Value) :=
  r ← svc_call svc_count_deleted;
  match r with
  | inr count => mret (OK_200, api_ok (count_body "count" count))
  | inl e => mret (failure e INTERNAL_SERVER_ERROR)
  end.
Definition aggregate_handler (params : ListQueryParams) (caller : option AuthContext) : Handler (Answered Value) :=
  match query_refusals params false caller with
  | (_ :: _) as refused => mret (refused_with BAD_REQUEST refused)
  | [] =>
      r ← svc_call (svc_aggregate (aggregate_spec params) (aggregate_filters params));
      match r with
      | inr result => mret (OK_200, api_ok (aggregate_body result))
      | inl e => mret (query_failure e params)
      end
  end.

(** [HistoryProvider::history]: [None] where the table is not audited. The offset is a [u32]
    product: it wraps, or panics in a build that checks. *)
Definition HistoryProvider : Type := string → string → Z → Z → sm X string (option (list HistoryEntry)).
Definition history_offset (overflow_checks : bool) (page limit : Z) : option Z :=
  let offset := Z.max 0 (page - 1) * limit in
  if offset <=? u32_max then Some offset else if overflow_checks then None else Some (offset mod (u32_max + 1)).
Definition history_handler (overflow_checks : bool) (id : string) (params : ListQueryParams)
    (provider : option HistoryProvider) (caller : option AuthContext) : Handler (Answered Value) :=
  match invalid_id id "id" with
  | Some refused => mret refused
  | None =>
      match provider, svc_table_name with
      | None, _ => mret (NOT_IMPLEMENTED, api_failed "history is not configured for this service")
      | Some _, None =>
          mret (NOT_IMPLEMENTED, api_failed "this entity cannot name its table, so its history cannot be keyed")
      | Some history, Some table =>
          let limit := Z.min (Z.max (lq_limit params) 1) 200 in
          offset ← sm_lift (or_panic (history_offset overflow_checks (lq_page params) limit));
          r ← attempt (history table id limit offset);
          match r with
          | inr (Some entries) =>
              let body := VObject [("audited", VBool true); ("entries", VArray (map entry_value entries))] in
              mret (OK_200, api_ok (match field_permissions with
                                    | [] => body
                                    | gated => redact_gated_deep gated caller body
                                    end))
          | inr None => mret (OK_200, api_ok (VObject [("audited", VBool false); ("entries", VNull)]))
          | inl e => mret (error_at INTERNAL_SERVER_ERROR None e)
          end
      end
  end.

(** *** Writes of one row *)
(** The answer of a write: the row as no scope sees it, and with the caller's permissions. *)
Definition written (caller : option AuthContext) (e : E) : Value := secured None caller e.
(** A body that names a field its caller may not set goes no further. *)
Definition unless_gated {T} (keys : list string) (caller : option AuthContext) (go : Handler (Answered T)) :
    Handler (Answered T) :=
  match gated_write_refusals keys caller with
  | (_ :: _) as refused => mret (refused_with UNPROCESSABLE_ENTITY refused)
  | [] => go
  end.
Definition unless_invalid {T} (refused : option (Answered T)) (go : Handler (Answered T)) : Handler (Answered T) :=
  match refused with Some r => mret r | None => go end.

Definition create_handler (dto : C) (keys : list string) (caller : option AuthContext) : Handler (Answered Value) :=
  unless_gated keys caller (
    r ← svc_call (svc_create dto);
    match r with
    | inr entity => mret (CREATED, api_ok (written caller entity))
    | inl e => mret (failure e BAD_REQUEST)
    end).
Definition update_handler (id : string) (dto : U) (keys : list string) (caller : option AuthContext) :
    Handler (Answered Value) :=
  unless_invalid (invalid_id id "id") (
  unless_gated keys caller (
    r ← svc_call (svc_update id dto);
    match r with
    | inr (Some entity) => mret (OK_200, api_ok (written caller entity))
    | inr None => mret (NOT_FOUND, api_not_found)
    | inl e => mret (failure e BAD_REQUEST)
    end)).
Definition patch_keys (patch : Patch) : list string := map fst (hash_iter patch).
Definition partial_update_handler (id : string) (fields : Patch) (caller : option AuthContext) :
    Handler (Answered Value) :=
  unless_invalid (invalid_id id "id") (
  unless_gated (patch_keys fields) caller (
    r ← svc_call (svc_partial_update id (snake_keys fields));
    match r with
    | inr (Some entity) => mret (OK_200, api_ok (written caller entity))
    | inr None => mret (NOT_FOUND, api_not_found)
    | inl e => mret (failure e BAD_REQUEST)
    end)).
Definition delete_handler (id : string) : Handler (Answered unit) :=
  unless_invalid (invalid_id id "id") (
    r ← svc_call (svc_soft_delete id);
    match r with
    | inr true => mret (OK_200, success_with_message tt "Entity deleted successfully")
    | inr false => mret (NOT_FOUND, api_not_found)
    | inl e => mret (failure e INTERNAL_SERVER_ERROR)
    end).
Definition upsert_handler (dto : C) (keys : list string) (caller : option AuthContext) : Handler (Answered Value) :=
  unless_gated keys caller (
    if negb svc_supports_upsert then mret (NOT_IMPLEMENTED, api_failed UPSERT_UNSUPPORTED)
    else
      r ← svc_call (svc_upsert dto);
      match r with
      | inr entity => mret (OK_200, api_ok (written caller entity))
      | inl e => mret (failure e BAD_REQUEST)
      end).
Definition restore_handler (id : string) (caller : option AuthContext) : Handler (Answered Value) :=
  unless_invalid (invalid_id id "id") (
    r ← svc_call (svc_restore id);
    match r with
    | inr (Some entity) =>
        mret (OK_200, success_with_message (written caller entity) "Entity restored successfully")
    | inr None => mret (NOT_FOUND, api_not_found)
    | inl e => mret (failure e BAD_REQUEST)
    end).
(** 204 carries no body. *)
Definition permanent_delete_handler (id : string) : Handler (Answered Value + Z) :=
  match invalid_id id "id" with
  | Some refused => mret (inl refused)
  | None =>
      found ← svc_call (svc_get_deleted_by_id id);
      match found with
      | inr (Some _) =>
          r ← svc_call (svc_permanent_delete id);
          match r with
          | inr true => mret (inr NO_CONTENT)
          | inr false => mret (inl (NOT_FOUND, api_not_found))
          | inl e => mret (inl (failure e INTERNAL_SERVER_ERROR))
          end
      | inr None => mret (inl (NOT_FOUND, api_not_found))
      | inl e => mret (inl (failure e INTERNAL_SERVER_ERROR))
      end
  end.

(** *** Batches *)
Definition unless_large {T} (count : nat) (go : Handler (Answered T)) : Handler (Answered T) :=
  match batch_size_error count with Some err => mret (BAD_REQUEST, api_failed err) | None => go end.
(** The answer of a write of many rows: their number, or the rows. *)
Definition answer_count (key : string) (did : Z → string) (m : sm X svc_error Z) (fallback : Z) : Handler (Answered Value) :=
  r ← svc_call m;
  match r with
  | inr n => mret (OK_200, success_with_message (count_body key n) (did n))
  | inl e => mret (failure e fallback)
  end.
Definition bulk_rows (caller : option AuthContext) (status : Z) (m : sm X svc_error (list E)) :
    Handler (Answered BulkResponse) :=
  r ← svc_call m;
  match r with
  | inr entities => mret (status, api_ok (bulk_of (map (written caller) entities)))
  | inl e => mret (failure e BAD_REQUEST)
  end.
Definition ids_path (i : nat) : string := "ids/" +:+ show_Z (Z.of_nat i).
Definition item_path (i : nat) : string := show_Z (Z.of_nat i) +:+ "/id".
Definition items_done (did : string) (count : Z) : string := did +:+ " " +:+ show_Z count +:+ " item(s)".

Definition bulk_create_handler (items : list C) (keys : list string) (caller : option AuthContext) :
    Handler (Answered BulkResponse) :=
  unless_gated keys caller (unless_large (length items) (bulk_rows caller CREATED (svc_bulk_create items))).
Definition bulk_delete_handler (ids : list string) : Handler (Answered Value) :=
  unless_large (length ids) (unless_invalid (invalid_ids ids ids_path) (
    answer_count "soft_deleted" (items_done "Soft-deleted") (svc_bulk_soft_delete ids) BAD_REQUEST)).
Definition bulk_restore_handler (ids : list string) (caller : option AuthContext) : Handler (Answered BulkResponse) :=
  unless_large (length ids) (unless_invalid (invalid_ids ids ids_path) (
    bulk_rows caller OK_200 (svc_bulk_restore ids))).
Definition bulk_permanent_delete_handler (ids : list string) : Handler (Answered Value) :=
  unless_large (length ids) (unless_invalid (invalid_ids ids ids_path) (
    answer_count "permanently_deleted" (items_done "Permanently deleted") (svc_bulk_permanent_delete ids) BAD_REQUEST)).
Definition restore_all_handler : Handler (Answered Value) :=
  answer_count "restored" (λ n, items_done "Restored" n +:+ " from trash") svc_restore_all INTERNAL_SERVER_ERROR.
Definition empty_trash_handler : Handler (Answered Value) :=
  answer_count "deleted_count" (λ n, "Successfully deleted " +:+ show_Z n +:+ " items from trash") svc_empty_trash
    INTERNAL_SERVER_ERROR.

Definition bulk_patch_handler (req : BulkPatchRequest) (caller : option AuthContext) : Handler (Answered BulkResponse) :=
  let items := into_items req in
  unless_large (length items) (unless_invalid (invalid_ids (map fst items) item_path) (
    unless_gated (concat (map (λ item, patch_keys item.2) items)) caller (
      bulk_rows caller OK_200 (svc_bulk_partial_update (map (λ item, (item.1, snake_keys item.2)) items))))).

Definition preview_outcome (caller : option AuthContext) (row : PreviewRow E svc_error) : string * PreviewOutcome :=
  (row_id row,
   match row_outcome row with
   | inr (before, after) => inr (written caller before, written caller after)
   | inl e => inl (from_option v_code "refused" (svc_violations_of e ≫= head), svc_error_to_string e)
   end).
(** The fields of each id; of an id named twice, those of its last item. *)
Definition patched_fields (items : list (string * Patch)) : gmap string (list string) :=
  foldl (λ m item, <[item.1 := map fst (hash_iter item.2)]> m) ∅ items.
Definition bulk_patch_preview_handler (req : BulkPatchRequest) (caller : option AuthContext) :
    Handler (Answered BulkPreview) :=
  let items := into_items req in
  unless_large (length items) (unless_invalid (invalid_ids (map fst items) item_path) (
    unless_gated (concat (map (λ item, patch_keys item.2) items)) caller (
      let items := map (λ item, (item.1, snake_keys item.2)) items in
      r ← svc_call (svc_preview_bulk_partial_update items);
      match r with
      | inr (Some rows) =>
          mret (OK_200, api_ok (preview_answer (map (preview_outcome caller) rows) (patched_fields items)))
      | inr None => mret (NOT_IMPLEMENTED, api_failed "this resource has no preview of a bulk change")
      | inl e => mret (failure e BAD_REQUEST)
      end))).

(** [PUT {resource}/bulk]: each item's id taken out, the rest read as the update. [to_vec] is
    [serde_json::to_vec]. *)
Section bulk_update.
Context {DU : Decode U} (to_vec : list (string * Value) → string + string).
Definition id_required (index : nat) : Answered Value :=
  (UNPROCESSABLE_ENTITY, api_rejected ("item " +:+ show_Z (Z.of_nat index) +:+ ": id is required")
     [violation_new (batch_item_path index "id") "required" "id is required"]).
Definition read_item (index : nat) (fields : list (string * Value)) : Answered Value + string * U :=
  match map_get "id" fields with
  | Some (VString id) =>
      match invalid_id id (batch_item_path index "id") with
      | Some refused => inl refused
      | None =>
          match to_vec (map_remove "id" fields) with
          | inl e => inl (error_at INTERNAL_SERVER_ERROR None e)
          | inr bytes =>
              match decode_json_or_refusal bytes true with
              | inr data => inr (id, data)
              | inl refusal => inl (refusal_response (at_item index refusal))
              end
          end
      end
  | _ => inl (id_required index)
  end.
Fixpoint read_items (index : nat) (raw : list (list (string * Value))) : Answered Value + list (string * U) :=
  match raw with
  | [] => inr []
  | fields :: raw =>
      match read_item index fields with
      | inl refused => inl refused
      | inr item => match read_items (S index) raw with inl refused => inl refused | inr items => inr (item :: items) end
      end
  end.
(** Its refusals carry no data, its answers the rows. *)
Definition bulk_update_handler (raw : list (list (string * Value))) (caller : option AuthContext) :
    Handler (Answered Value + Answered BulkResponse) :=
  match batch_size_error (length raw) with
  | Some err => mret (inl (BAD_REQUEST, api_failed err))
  | None =>
      match gated_write_refusals (concat (map (map fst) raw)) caller with
      | (_ :: _) as refused => mret (inl (refused_with UNPROCESSABLE_ENTITY refused))
      | [] =>
          match read_items 0 raw with
          | inl refused => mret (inl refused)
          | inr items => answer ← bulk_rows caller OK_200 (svc_bulk_update items); mret (inr answer)
          end
      end
  end.
End bulk_update.
End handlers.

(** ** [GenericCrudService] as a [CrudService]

    What its repository answers beyond [CrudRepository]; a service method is a call of the
    request [rq]. A [HashMap] is passed on as it is walked. *)
Class ListRepository {L : Libs} (E T W : Type) := {
  repo_table_name : option string;
  repo_list_filtered_with_info :
    Request → Z → Z → list (string * string) → sm (St T W) RepositoryError (list E * PaginationInfo);
  repo_aggregate_filtered :
    Request → AggregateSpec → list (string * string) → sm (St T W) RepositoryError AggregateResult;
  repo_fetch_related_json : Request → string → list string → sm (St T W) Empty_set (list Value);
}.

Section generic.
Context {L : Libs} {HI : HashIter} {E C U : Type} {PE : PersistentEntity E} {T W : Type} {HW : World W}.
Context {R : CrudRepository E T W} {LR : ListRepository E T W} {WG : WriteGuard E T W} {WH : WriteHooks E T W}.
Context {LC : ServiceLifecycle E T W} {P : CrudEventPublisher E T W}.
Context (from_create_dto : C → sm (St T W) ServiceError E) (apply_update : E → U → sm (St T W) ServiceError E).
Context (driver_error : DbError → SqlxError).

Definition as_walked (items : list (string * Patch)) : list (string * list (string * Value)) :=
  map (λ item, (item.1, hash_iter item.2)) items.
Definition preview_rows (rows : list (BulkPreviewRow (E:=E))) : list (PreviewRow E ServiceError) :=
  map (λ r, mkRow (pv_id r) (pv_outcome r)) rows.

Definition GenericCrudService (rq : Request) : CrudServiceApi (St T W) E C U := {|
  svc_error := ServiceError;
  svc_violations_of := violations_of;
  svc_status_of err := Some (service_error_status err);
  svc_error_to_string := service_error_to_string;
  svc_supports_upsert := false;
  svc_table_name := repo_table_name;
  svc_fetch_related_json table ids := repo_fetch_related_json rq table ids;
  svc_list_with_info page limit m := of_repo (repo_list_filtered_with_info rq page limit (hash_iter m));
  svc_aggregate spec m := of_repo (repo_aggregate_filtered rq spec (hash_iter m));
  svc_count_active_filtered := default_count_active_filtered (λ page limit m, list_rows rq page limit (hash_iter m));
  svc_create dto := create from_create_dto driver_error rq dto;
  svc_get_by_id id := get_by_id rq id;
  svc_update id dto := update apply_update driver_error rq id dto;
  svc_partial_update id fields := partial_update driver_error rq id (hash_iter fields);
  svc_soft_delete id := soft_delete driver_error rq id;
  svc_bulk_create items := bulk_create from_create_dto driver_error rq items;
  svc_upsert dto := upsert rq dto;
  svc_restore id := restore driver_error rq id;
  svc_empty_trash := empty_trash driver_error rq;
  svc_get_deleted_by_id id := get_deleted_by_id rq id;
  svc_permanent_delete id := hard_delete driver_error rq id;
  svc_list_deleted_filtered page limit m := list_deleted_filtered rq page limit (hash_iter m);
  svc_count_deleted := count_deleted rq;
  svc_bulk_soft_delete ids := bulk_soft_delete driver_error rq ids;
  svc_bulk_restore ids := bulk_restore driver_error rq ids;
  svc_bulk_permanent_delete ids := bulk_permanent_delete driver_error rq ids;
  svc_restore_all := restore_all driver_error rq;
  svc_bulk_update items := bulk_update apply_update driver_error rq items;
  svc_bulk_partial_update items := bulk_partial_update driver_error rq (as_walked items);
  svc_preview_bulk_partial_update items :=
    rows ← preview_bulk_partial_update rq (as_walked items); mret (Some (preview_rows rows));
|}.
End generic.
