(* ===== verification/HttpFacts.v ===== *)
(** * HTTP: facts

    Which fields an answer carries, which requests go no further, what an error says, and how a
    dry run is sorted; with a concrete entity at the end. *)
From Stdlib Require Import ZArith Lia Ascii.
From S2P Require Import Prelude Float64 RustStr RustChar Json WorkflowExpr WriteHooks Grants GrantsFacts Filter FilterParser ListQuery Database RepositoryErrors CrudWrite CrudService Http Extractors HttpHandlers.

Local Open Scope Z_scope.

(** ** Keys *)

Lemma ascii_lower_not_upper c : is_ascii_uppercase (ascii_lower c) = false.
Proof. by destruct c as [[] [] [] [] [] [] [] []]. Qed.

Definition no_upper (s : string) : bool := str_forallb (λ c, negb (is_ascii_uppercase c)) s.

Lemma snake_from_no_upper key prev last : no_upper (snake_from prev last key) = true.
Proof.
  revert prev last. induction key as [|c key IH]; intros prev last; [done|]. cbn [snake_from].
  destruct (is_ascii_uppercase c) eqn:Hc.
  - destruct (_ && _); unfold no_upper; cbn [str_forallb]; rewrite ?ascii_lower_not_upper; apply IH.
  - unfold no_upper. cbn [str_forallb]. rewrite Hc. apply IH.
Qed.
Lemma snake_from_id key prev last : no_upper key = true → snake_from prev last key = key.
Proof.
  revert prev last. induction key as [|c key IH]; intros prev last; [done|].
  unfold no_upper. cbn [str_forallb snake_from]. intros [Hc Hk]%andb_true_iff.
  apply negb_true_iff in Hc. rewrite Hc. by rewrite IH.
Qed.
(** Keys named as fields stay, and once is enough. *)
Lemma camel_to_snake_id key : no_upper key = true → camel_to_snake_case key = key.
Proof. apply snake_from_id. Qed.
Lemma camel_to_snake_idem key : camel_to_snake_case (camel_to_snake_case key) = camel_to_snake_case key.
Proof. apply camel_to_snake_id, snake_from_no_upper. Qed.

(** ** Objects *)
Section objects.
Context {SN : SerdeNumber}.
Implicit Types (m : list (string * Value)) (k : string).

Lemma map_get_filter (P : string → Prop) `{∀ k, Decision (P k)} m k :
  map_get k (filter (λ kv, P kv.1) m) = if decide (P k) then map_get k m else None.
Proof.
  unfold map_get. induction m as [|[j v] m IH]; simpl; [by case_decide|]. rewrite filter_cons. cbn [fst].
  destruct (decide (P j)) as [Hj|Hj]; simpl.
  - rewrite IH. destruct (decide (k = j)) as [->|]; [by rewrite decide_True|done].
  - rewrite IH. destruct (decide (P k)) as [Hk|]; [|done]. by rewrite decide_False by congruence.
Qed.
Lemma map_get_remove f m k : map_get k (map_remove f m) = if decide (k = f) then None else map_get k m.
Proof.
  pose proof (map_get_filter (λ j, j ≠ f) m k) as H. etrans; [exact H|]. by repeat case_decide.
Qed.
Lemma map_get_removed fields m k :
  map_get k (foldl (λ m f, map_remove f m) m fields) = if decide (k ∈ fields) then None else map_get k m.
Proof.
  revert m. induction fields as [|f fields IH]; intros m; cbn [foldl]; [by rewrite decide_False by set_solver|].
  rewrite IH, map_get_remove. repeat case_decide; set_solver.
Qed.
Lemma value_get_on_object f k (v : Value) :
  value_get k (on_object f v) = match v with VObject m => map_get k (f m) | _ => None end.
Proof. by destruct v. Qed.
End objects.

(** ** Permissions and bodies *)

(** Whether a permission is held does not depend on the record of legacy spellings. *)
Lemma held_any_record c permission seen : (has_permission c permission seen).1 = caller_holds (Some c) permission.
Proof.
  unfold caller_holds, has_permission, check_held. destruct (scan_held _ _ _) as [[|] hit]; [done|].
  by destruct (match hit with Some h => Some h | None => _ end) as [[[]]|].
Qed.

(** A strict body is taken when it reads to its end as the target and names no key that the target
    ignores, other than those a record's own answer carries. *)
Lemma decode_json_taken {L : Libs} {T} {D : Decode T} bytes strict (v : T) :
  decode_json_or_refusal bytes strict = inr v ↔
  jr_value (read_json bytes) = inr v ∧ jr_trailing (read_json (T:=T) bytes) = None ∧
  (strict = true → ∀ p, p ∈ jr_ignored (read_json (T:=T) bytes) → ignored_key p = None).
Proof.
  unfold decode_json_or_refusal. destruct (read_json bytes) as [[[e c]|x] ignored [[]|]]; cbn [jr_value jr_ignored jr_trailing];
    try naive_solver. destruct strict; [|naive_solver].
  destruct (btree_iter _) as [|k ks] eqn:Hk.
  - split; [|by intros [[= ->] _]]. intros [= ->]. split; [done|]. split; [done|]. intros _ p Hp.
    destruct (ignored_key p) as [k|] eqn:Hi; [|done].
    assert (k ∈ btree_iter (list_to_set (omap ignored_key ignored))) as Hin.
    { apply elem_of_btree_iter, elem_of_list_to_set, list_elem_of_omap. by exists p. }
    rewrite Hk in Hin. set_solver.
  - split; [done|]. intros (_ & _ & Hnone).
    assert (k ∈ btree_iter (list_to_set (omap ignored_key ignored))) as Hin by (rewrite Hk; by left).
    apply elem_of_btree_iter, elem_of_list_to_set, list_elem_of_omap in Hin as (p & Hp & Hpk).
    rewrite (Hnone eq_refl p Hp) in Hpk. done.
Qed.

(** ** What a field of a row is served as *)
Section served.
Context {L : Libs} {UU : UnicodeUpper}.
Implicit Types (v : Value) (k : string) (caller : option AuthContext).

(** Held back from the caller by a permission. *)
Definition withheld caller (gated : list (string * string)) k : bool :=
  existsb (λ fp, bool_decide (fp.1 = k) && negb (caller_holds caller fp.2)) gated.

Lemma redacted_get caller gated (m : list (string * Value)) k :
  map_get k (foldl (λ m fp, if caller_holds caller fp.2 then m else map_insert fp.1 VNull m) m gated) =
  if withheld caller gated k then Some VNull else map_get k m.
Proof.
  revert m. induction gated as [|[f p] gated IH]; intros m; [done|]. unfold withheld. cbn [foldl existsb fst snd].
  rewrite IH. fold (withheld caller gated k). destruct (caller_holds caller p); simpl; [by rewrite andb_false_r|].
  rewrite andb_true_r. case_bool_decide as Hf; simpl.
  - subst. rewrite map_get_insert. by destruct (withheld _ _ _).
  - by rewrite map_get_insert_ne.
Qed.
Lemma redact_gated_field caller gated m k :
  value_get k (redact_gated (VObject m) gated caller) =
  if withheld caller gated k then Some VNull else map_get k m.
Proof. destruct gated as [|fp gated]; [done|]. unfold redact_gated. by rewrite value_get_on_object, redacted_get. Qed.
Lemma strip_secrets_field m fields k :
  value_get k (strip_secrets (VObject m) fields) = if decide (k ∈ fields) then None else map_get k m.
Proof. unfold strip_secrets. by rewrite value_get_on_object, map_get_removed. Qed.

Section of_entity.
Context {M : EntityRepoMeta}.

(** The reference: a field the caller's permissions withhold is null, a secret is absent, and so
    is a private field of a row that is not the caller's; the rest is as it is. *)
Definition field_served (scope : option AccessScope) caller v k : option Value :=
  if withheld caller field_permissions k then Some VNull
  else if decide (k ∈ secret_fields) then None
  else if decide (k ∈ private_fields) then
    if may_see_private scope owner_field (strip_secrets v secret_fields) then value_get k v else None
  else value_get k v.

Lemma secure_object scope caller m : ∃ m', secure (VObject m) scope caller = VObject m'.
Proof.
  unfold secure, strip_secrets. cbn [on_object]. set (m0 := foldl _ _ _).
  assert (∃ m1, apply_field_security (VObject m0) scope private_fields owner_field = VObject m1) as [m1 ->].
  { unfold apply_field_security. destruct private_fields; [by eexists|].
    destruct (may_see_private _ _ _); cbn [on_object]; by eexists. }
  unfold redact_gated. destruct field_permissions; cbn [on_object]; by eexists.
Qed.
Lemma secure_field scope caller m k :
  value_get k (secure (VObject m) scope caller) = field_served scope caller (VObject m) k.
Proof.
  unfold secure, field_served.
  pose proof (strip_secrets_field m secret_fields) as Hs. unfold strip_secrets in *. cbn [on_object] in *.
  set (m1 := foldl _ m secret_fields) in *. cbn [value_get] in *.
  unfold apply_field_security. destruct private_fields as [|f fs] eqn:Hp.
  { rewrite redact_gated_field, Hs. destruct (withheld _ _ _); [done|].
    rewrite (decide_False (P:=k ∈ [])) by set_solver. done. }
  rewrite <- Hp. clear f fs Hp. destruct (may_see_private _ _ _).
  - rewrite redact_gated_field, Hs. destruct (withheld _ _ _); [done|].
    repeat case_decide; done.
  - cbn [on_object]. rewrite redact_gated_field, map_get_removed, Hs. destruct (withheld _ _ _); [done|].
    repeat case_decide; done.
Qed.
End of_entity.

(** A related row loses what either side knows to be secret. *)
Lemma related_row_field {M : EntityRepoMeta} regs relation table m caller k :
  value_get k (related_row regs relation table (VObject m) caller) =
  if withheld caller (field_permissions_of regs table) k then Some VNull
  else if decide (k ∈ relation_secret_fields relation ∨ k ∈ secret_fields_of regs table) then None
  else value_get k (camelize_keys (VObject m)).
Proof.
  unfold related_row, camelize_keys. cbn [on_object]. set (m0 := map_collect _).
  unfold strip_secrets. cbn [on_object]. rewrite redact_gated_field.
  destruct (withheld _ _ _); [done|]. rewrite !map_get_removed. cbn [value_get].
  repeat case_decide; tauto || done.
Qed.
Lemma project_sparse_field m fields k :
  value_get k (project_sparse (VObject m) fields) =
  if decide (fields = [] ∨ k = "id" ∨ k ∈ fields) then map_get k m else None.
Proof.
  destruct fields as [|f fields]; [by rewrite decide_True by auto|]. unfold project_sparse.
  rewrite value_get_on_object. pose proof (map_get_filter (λ j, j = "id" ∨ j ∈ f :: fields) m k) as H. etrans; [exact H|].
  repeat case_decide; naive_solver.
Qed.
End served.

(** ** Answered rows *)
Section rows.
Context {L : Libs} {U0 : Unicode} {UU : UnicodeUpper} {SC : SerdeCount} {HI : HashIter} {M : EntityRepoMeta}.
Context {X E C U : Type} {SV : CrudServiceApi X E C U}.
Context (to_response : E → Value) (regs : Registries).
(** A response serialises to an object. *)
Hypothesis response_object : ∀ e, ∃ m, to_response e = VObject m.
Implicit Types (params : ListQueryParams) (scope : option AccessScope) (caller : option AuthContext) (e : E) (s : X).

(** What an included relation shows: null, or a row without the secrets either side knows of, the
    fields its table's entity gates withheld. *)
Definition related_shown caller (name table : string) (x : Value) : Prop :=
  x = VNull ∨
  ∃ m, ∀ k, value_get k x =
    if withheld caller (field_permissions_of regs table) k then Some VNull
    else if decide (k ∈ relation_secret_fields name ∨ k ∈ secret_fields_of regs table) then None
    else value_get k (camelize_keys (VObject m)).
Definition relation_shown (includes : list string) caller (k : string) (x : Value) : Prop :=
  ∃ table fk_field, (k, table, fk_field) ∈ relations ∧ k ∈ includes ∧ related_shown caller k table x.
Definition shown includes scope caller (v row : Value) : Prop :=
  (∃ m, row = VObject m) ∧
  ∀ k, value_get k row = field_served scope caller v k ∨
       ∃ x, value_get k row = Some x ∧ relation_shown includes caller k x.
(** The reference for one row of an answer: only the fields asked for, each as it is served, or
    the row of an included relation. *)
Definition row_served params scope caller e row : Prop :=
  ∀ k, if decide (sparse_fields (filters params) = [] ∨ k = "id" ∨ k ∈ sparse_fields (filters params))
       then value_get k row = field_served scope caller (to_response e) k ∨
            ∃ x, value_get k row = Some x ∧ relation_shown (include_relations (filters params)) caller k x
       else value_get k row = None.

Lemma secured_shown includes scope caller e : shown includes scope caller (to_response e) (secured to_response scope caller e).
Proof.
  unfold secured. destruct (response_object e) as [m ->]. split; [apply secure_object|].
  intros k. left. apply secure_field.
Qed.

Lemma index_related_shown name table caller related :
  map_Forall (λ _ x, related_shown caller name table x) (index_related regs name table caller related).
Proof.
  unfold index_related. assert (map_Forall (λ _ x, related_shown caller name table x) (∅ : gmap string Value)) as H
    by apply map_Forall_empty. revert H. generalize (∅ : gmap string Value).
  induction related as [|obj related IH]; intros m0 Hm; [done|]. cbn [foldl]. apply IH.
  destruct obj as [| | | | |m]; try done. destruct (value_get "id" (VObject m) ≫= as_str); [|done].
  apply map_Forall_insert_2; [|done]. right. exists m. intros k. apply related_row_field.
Qed.
Lemma expand_row_shown includes scope caller v row name table fk_field by_id :
  (name, table, fk_field) ∈ relations → name ∈ includes →
  map_Forall (λ _ x, related_shown caller name table x) by_id →
  shown includes scope caller v row → shown includes scope caller v (expand_row name fk_field by_id row).
Proof.
  intros Hrel Hinc Hby [[m ->] Hrow]. unfold expand_row. split; [by eexists|].
  intros k. cbn [on_object value_get]. destruct (decide (name = k)) as [<-|Hne].
  - right. rewrite map_get_insert. eexists. split; [done|]. exists table, fk_field. split; [done|]. split; [done|].
    destruct (fk_of _ _ ≫= _) as [x|] eqn:Hx; [|by left].
    apply bind_Some in Hx as (id & _ & Hid). by apply (Hby id).
  - rewrite map_get_insert_ne by done. apply Hrow.
Qed.
Lemma expand_each_shown includes scope caller (vs : list Value) rels rows s :
  (∀ r, r ∈ rels → r ∈ relations) →
  Forall2 (shown includes scope caller) vs rows →
  wpo (expand_each (E:=E) (C:=C) (U:=U) regs rels includes caller rows)
    (λ rows' _, Forall2 (shown includes scope caller) vs rows') s.
Proof.
  revert rows s. induction rels as [|[[name table] fk_field] rels IH]; intros rows s Hrels Hrows; [by apply wpo_ret|].
  cbn [expand_each]. assert (∀ r, r ∈ rels → r ∈ relations) as Hrels' by (intros r Hr; apply Hrels; by right).
  case_bool_decide as Hin; [by apply IH|].
  destruct (btree_iter _) as [|id ids]; [by apply IH|].
  apply wpo_any. intros related s'. apply IH; [done|].
  apply Forall2_fmap_r. eapply Forall2_impl; [exact Hrows|]. intros v row Hv.
  eapply expand_row_shown; [|done|apply index_related_shown|done]. apply Hrels. by left.
Qed.

Lemma shaped_served params scope caller es s :
  wpo (shaped to_response regs params scope caller es)
    (λ rows _, Forall2 (row_served params scope caller) es rows) s.
Proof.
  unfold shaped. set (includes := include_relations (filters params)).
  assert (Forall2 (shown includes scope caller) (map to_response es) (map (secured to_response scope caller) es)) as H0.
  { apply Forall2_fmap_2. clear s. induction es; constructor; [apply secured_shown|done]. }
  apply wpo_bind. eapply (wpo_mono _ (λ rows _, Forall2 (shown includes scope caller) (map to_response es) rows)).
  { unfold expand_includes. destruct includes as [|i inc]; [by apply wpo_ret|].
    destruct (map (secured to_response scope caller) es) as [|r rs]; [by apply wpo_ret|].
    by apply expand_each_shown. }
  intros rows s' Hrows. apply wpo_ret. apply Forall2_fmap_r.
  change (map to_response es) with (to_response <$> es) in Hrows. rewrite Forall2_fmap_l in Hrows.
  eapply Forall2_impl; [exact Hrows|]. intros e row [[m ->] Hrow] k. rewrite project_sparse_field.
  case_decide; [apply Hrow|done].
Qed.

(** A call of the service, its outcome known. *)
Lemma wpo_call {A B} (m : sm X svc_error A) (f : svc_error + A → sm X Empty_set B) (Ψ : B → X → Prop) s :
  (∀ a s', m s = (Ok a, s') → wpo (f (inr a)) Ψ s') → (∀ err s', m s = (Err err, s') → wpo (f (inl err)) Ψ s') →
  wpo (svc_call m ≫= f) Ψ s.
Proof.
  intros Hok Herr. apply wpo_bind. unfold svc_call, attempt. intros r s' Heq.
  destruct (m s) as [[a|e|] s1] eqn:Hm; simplify_eq; eauto.
Qed.
Lemma failure_no_data {T} err fallback :
  api_success (failure (T:=T) err fallback).2 = false ∧ api_data (failure (T:=T) err fallback).2 = None.
Proof.
  unfold failure, error_at. destruct (is_server_error _); [done|].
  destruct (svc_violations_of err) as [[|v vs]|]; try done;
    (destruct (_ =? NOT_FOUND); [done|]; by destruct (status_code_violation _ _)).
Qed.
Lemma list_failure_no_data err p :
  pa_success (list_failure err p).2 = false ∧ pa_data (list_failure err p).2 = [].
Proof. unfold list_failure. by destruct (query_failure_parts _ _ _) as [[??]?]. Qed.
Lemma invalid_id_refused {T} id path (r : Answered T) :
  invalid_id id path = Some r → api_success r.2 = false ∧ api_data r.2 = None.
Proof. unfold invalid_id. destruct (parse_uuid id); by intros [= <-]. Qed.

(** What the service answers a call made from [s]. *)
Definition answers_call {A} s (m : sm X svc_error A) (a : A) : Prop := ∃ s', m s = (Ok a, s').

(** What a page answers: the rows the service answered, as they are served, or nothing. *)
Definition page_answered params scope caller (es : list E → Prop) (page : PaginatedApiResponse) : Prop :=
  if pa_success page then ∃ rows, es rows ∧ Forall2 (row_served params scope caller) rows (pa_data page)
  else pa_data page = [].
Definition row_answered params scope caller (found : E → Prop) (answer : ApiResponse Value) : Prop :=
  if api_success answer then ∃ e row, found e ∧ api_data answer = Some row ∧ row_served params scope caller e row
  else api_data answer = None.

Lemma get_deleted_row_served params scope caller e :
  row_served params scope caller e (project_sparse (secured to_response scope caller e) (sparse_fields (filters params))).
Proof.
  intros k. destruct (secured_shown [] scope caller e) as [[m Hm] _]. pose proof Hm as Hk. unfold secured in *.
  rewrite Hm, project_sparse_field. case_decide; [|done]. left.
  destruct (response_object e) as [m0 He]. rewrite He in *. rewrite <- (secure_field scope caller m0 k). by rewrite Hm.
Qed.

(** C11: the answers of the generic reads. Whatever the service answers and whoever asks, a row of
    an answered list, of the trash, of one record or of one deleted record shows, of each field,
    what that caller may be shown and no more: null where a permission the caller lacks gates it,
    nothing where it is secret, nothing where it is private and neither the platform nor the
    row's owner asks; only the fields asked for, and the id; and under the name of an included
    relation, null or a related row without the secrets that either side knows of and with its
    gated fields withheld. An answer that is not a success carries no row. *)
Theorem answers_show_what_may_be_seen params scope caller id s :
  wpo (list_handler to_response regs params scope caller) (λ ans _,
    page_answered params scope caller
      (λ es, ∃ info, answers_call s (svc_list_with_info (lq_page (normalized params)) (lq_limit (normalized params))
                              (repository_filters (normalized params))) (es, info)) ans.2) s ∧
  wpo (list_deleted_handler to_response regs params scope caller) (λ ans _,
    page_answered params scope caller
      (λ es, ∃ total, answers_call s (svc_list_deleted_filtered (lq_page (normalized params)) (lq_limit (normalized params))
                               (repository_filters (normalized params))) (es, total)) ans.2) s ∧
  wpo (get_handler to_response regs id params scope caller) (λ ans _,
    row_answered params scope caller (λ e, answers_call s (svc_get_by_id id) (Some e)) ans.2) s ∧
  wpo (get_deleted_handler to_response id params scope caller) (λ ans _,
    row_answered params scope caller (λ e, answers_call s (svc_get_deleted_by_id id) (Some e)) ans.2) s.
Proof.
  split; [|split; [|split]].
  - unfold list_handler. destruct (query_refusals _ _ _); [|by apply wpo_ret].
    apply wpo_call; [intros [es info] s' Hm|intros err s' _; apply wpo_ret; unfold page_answered;
      by destruct (list_failure_no_data err (normalized params)) as [-> ->]].
    apply wpo_bind. eapply wpo_mono; [apply shaped_served|]. intros rows s'' Hrows. apply wpo_ret.
    exists es. split; [by exists info, s'|done].
  - unfold list_deleted_handler. destruct (query_refusals _ _ _); [|by apply wpo_ret].
    apply wpo_call; [intros [es total] s' Hm|intros err s' _; apply wpo_ret; unfold page_answered;
      by destruct (list_failure_no_data err (normalized params)) as [-> ->]].
    apply wpo_bind. eapply wpo_mono; [apply shaped_served|]. intros rows s'' Hrows. apply wpo_ret.
    exists es. split; [by exists total, s'|done].
  - unfold get_handler. destruct (invalid_id id "id") eqn:Hid;
      [apply wpo_ret; unfold row_answered; by destruct (invalid_id_refused _ _ _ Hid) as [-> ->]|].
    destruct (shaping_refusals _); [|by apply wpo_ret].
    apply wpo_call; [intros [e|] s' Hm|intros err s' _; apply wpo_ret; unfold row_answered;
      by destruct (failure_no_data (T:=Value) err INTERNAL_SERVER_ERROR) as [-> ->]]; [|by apply wpo_ret].
    apply wpo_bind. eapply wpo_mono; [apply shaped_served|].
    intros rows s'' (row & ? & Hrow & ->%Forall2_nil_inv_l & ->)%Forall2_cons_inv_l. apply wpo_ret.
    exists e, row. split; [by exists s'|done].
  - unfold get_deleted_handler. destruct (invalid_id id "id") eqn:Hid;
      [apply wpo_ret; unfold row_answered; by destruct (invalid_id_refused _ _ _ Hid) as [-> ->]|].
    apply wpo_call; [intros [e|] s' Hm|intros err s' _; apply wpo_ret; unfold row_answered;
      by destruct (failure_no_data (T:=Value) err INTERNAL_SERVER_ERROR) as [-> ->]]; [|by apply wpo_ret].
    apply wpo_ret. eexists e, _. split; [by exists s'|]. split; [done|]. apply get_deleted_row_served.
Qed.

(** ** The answers of writes *)

(** The record written, as it is served to the caller when no scope is given. *)
Definition shows_written caller e row : Prop := ∀ k, value_get k row = field_served None caller (to_response e) k.
Definition row_written caller (found : E → Prop) (answer : ApiResponse Value) : Prop :=
  if api_success answer then ∃ e row, found e ∧ api_data answer = Some row ∧ shows_written caller e row
  else api_data answer = None.
Definition rows_written caller (found : list E → Prop) (answer : ApiResponse BulkResponse) : Prop :=
  if api_success answer then
    ∃ es rows, found es ∧ api_data answer = Some (bulk_of rows) ∧ Forall2 (shows_written caller) es rows
  else api_data answer = None.

Lemma written_shows caller e : shows_written caller e (written to_response caller e).
Proof. intros k. unfold written, secured. destruct (response_object e) as [m ->]. apply secure_field. Qed.
Lemma row_written_failure caller found err fallback : row_written caller found (failure err fallback).2.
Proof. unfold row_written. by destruct (failure_no_data (T:=Value) err fallback) as [-> ->]. Qed.
Lemma wpo_unless_invalid {T} id path (go : sm X Empty_set (Answered T)) (Ψ : ApiResponse T → Prop) s :
  (∀ r, api_success r = false ∧ api_data r = None → Ψ r) → wpo go (λ ans _, Ψ ans.2) s →
  wpo (unless_invalid (invalid_id id path) go) (λ ans _, Ψ ans.2) s.
Proof.
  intros Hr Hgo. unfold unless_invalid. destruct (invalid_id id path) eqn:Hid; [|done].
  apply wpo_ret, Hr. by eapply invalid_id_refused.
Qed.
Lemma wpo_unless_gated {T} keys caller (go : sm X Empty_set (Answered T)) (Ψ : ApiResponse T → Prop) s :
  (∀ r, api_success r = false ∧ api_data r = None → Ψ r) → wpo go (λ ans _, Ψ ans.2) s →
  wpo (unless_gated keys caller go) (λ ans _, Ψ ans.2) s.
Proof.
  intros Hr Hgo. unfold unless_gated. destruct (gated_write_refusals keys caller); [done|]. by apply wpo_ret, Hr.
Qed.
Lemma row_written_refused caller found r : api_success r = false ∧ api_data r = None → row_written caller found r.
Proof. unfold row_written. by intros [-> ->]. Qed.
Lemma rows_written_refused caller found r : api_success r = false ∧ api_data r = None → rows_written caller found r.
Proof. unfold rows_written. by intros [-> ->]. Qed.

(** A call whose answer is one record, if any. *)
Lemma wpo_one_written caller (m : sm X svc_error (option E)) ok fallback s :
  (∀ e, api_success (ok (written to_response caller e)) = true ∧
        api_data (ok (written to_response caller e)) = Some (written to_response caller e)) →
  wpo (r ← svc_call m;
       match r with
       | inr (Some entity) => mret (OK_200, ok (written to_response caller entity))
       | inr None => mret (NOT_FOUND, api_not_found)
       | inl e => mret (failure e fallback)
       end) (λ ans _, row_written caller (λ e, answers_call s m (Some e)) ans.2) s.
Proof.
  intros Hok. apply wpo_call; [|intros; apply wpo_ret, row_written_failure].
  intros [e|] s' Hm; apply wpo_ret; [|done]. cbn [snd]. unfold row_written. destruct (Hok e) as [-> ->].
  exists e, (written to_response caller e). split; [by exists s'|]. split; [done|apply written_shows].
Qed.
Lemma wpo_surely_written caller (m : sm X svc_error E) status fallback s :
  wpo (r ← svc_call m;
       match r with
       | inr entity => mret (status, api_ok (written to_response caller entity))
       | inl e => mret (failure e fallback)
       end) (λ ans _, row_written caller (answers_call s m) ans.2) s.
Proof.
  apply wpo_call; [|intros; apply wpo_ret, row_written_failure].
  intros e s' Hm; apply wpo_ret. exists e, (written to_response caller e).
  split; [by exists s'|]. split; [done|apply written_shows].
Qed.
Lemma wpo_bulk_written caller status (m : sm X svc_error (list E)) s :
  wpo (bulk_rows to_response caller status m) (λ ans _, rows_written caller (answers_call s m) ans.2) s.
Proof.
  apply wpo_call; [|intros err s' _; apply wpo_ret, rows_written_refused, failure_no_data].
  intros es s' Hm; apply wpo_ret. exists es, (map (written to_response caller) es). split; [by exists s'|]. split; [done|].
  apply Forall2_fmap_r. clear Hm. induction es; constructor; [apply written_shows|done].
Qed.

(** the answers of the generic writes. The record a create, an update, a patch, an upsert or
    a restore answers is the one the service answered, and the records of a bulk create, a bulk
    restore or a bulk patch are those the service answered, each in its place; and each field is
    shown as to a caller without scope: secret and private fields to nobody, gated ones to a
    caller who holds their permission. What is not a success carries no record. *)
Theorem writes_answer_without_secrets caller s :
  (∀ dto keys, wpo (create_handler to_response dto keys caller)
     (λ ans _, row_written caller (answers_call s (svc_create dto)) ans.2) s) ∧
  (∀ id dto keys, wpo (update_handler to_response id dto keys caller)
     (λ ans _, row_written caller (λ e, answers_call s (svc_update id dto) (Some e)) ans.2) s) ∧
  (∀ id patch, wpo (partial_update_handler to_response id patch caller)
     (λ ans _, row_written caller (λ e, answers_call s (svc_partial_update id (snake_keys patch)) (Some e)) ans.2) s) ∧
  (∀ dto keys, wpo (upsert_handler to_response dto keys caller)
     (λ ans _, row_written caller (answers_call s (svc_upsert dto)) ans.2) s) ∧
  (∀ id, wpo (restore_handler to_response id caller)
     (λ ans _, row_written caller (λ e, answers_call s (svc_restore id) (Some e)) ans.2) s) ∧
  (∀ items keys, wpo (bulk_create_handler to_response items keys caller)
     (λ ans _, rows_written caller (answers_call s (svc_bulk_create items)) ans.2) s) ∧
  (∀ ids, wpo (bulk_restore_handler to_response ids caller)
     (λ ans _, rows_written caller (answers_call s (svc_bulk_restore ids)) ans.2) s) ∧
  (∀ req, wpo (bulk_patch_handler to_response req caller)
     (λ ans _, rows_written caller (answers_call s (svc_bulk_partial_update
        (map (λ item, (item.1, snake_keys item.2)) (into_items req)))) ans.2) s).
Proof.
  split; [intros; apply wpo_unless_gated; [apply row_written_refused|apply wpo_surely_written]|].
  split; [intros; apply wpo_unless_invalid, wpo_unless_gated; [apply row_written_refused..|by apply wpo_one_written]|].
  split; [intros; apply wpo_unless_invalid, wpo_unless_gated; [apply row_written_refused..|by apply wpo_one_written]|].
  split; [intros; apply wpo_unless_gated; [apply row_written_refused|destruct (negb _); [by apply wpo_ret|apply wpo_surely_written]]|].
  split; [intros; apply wpo_unless_invalid; [apply row_written_refused|];
    by apply (wpo_one_written caller _ (λ row, success_with_message row "Entity restored successfully"))|].
  split; [intros; apply wpo_unless_gated; [apply rows_written_refused|]|split].
  - unfold unless_large. destruct (batch_size_error _); [by apply wpo_ret|apply wpo_bulk_written].
  - intros ids. unfold bulk_restore_handler, unless_large. destruct (batch_size_error _); [by apply wpo_ret|].
    unfold invalid_ids, unless_invalid. destruct (omap _ _); [apply wpo_bulk_written|by apply wpo_ret].
  - intros req. unfold bulk_patch_handler, unless_large. destruct (batch_size_error _); [by apply wpo_ret|].
    unfold invalid_ids, unless_invalid. destruct (omap _ _); [|by apply wpo_ret].
    apply wpo_unless_gated; [apply rows_written_refused|apply wpo_bulk_written].
Qed.
End rows.

(** ** Requests that go no further *)
Section stops.
Context {L : Libs} {U0 : Unicode} {UU : UnicodeUpper} {SC : SerdeCount} {HI : HashIter} {M : EntityRepoMeta}.
Context {X E C U : Type} {SV : CrudServiceApi X E C U}.
Context (to_response : E → Value) (regs : Registries).
Implicit Types (params : ListQueryParams) (scope : option AccessScope) (caller : option AuthContext) (s : X).

(** *** Bodies that name a gated field *)

(** Some key names a field, in either casing, whose permission the caller lacks. *)
Definition names_gated caller (keys : list string) : Prop :=
  ∃ key fp, key ∈ keys ∧ fp ∈ field_permissions ∧ camel_to_snake_case fp.1 = column_of key ∧ caller_holds caller fp.2 = false.
(** Refused as the caller's fault, with the service not asked. *)
Definition stopped {T} (h : sm X Empty_set (Answered T)) s : Prop :=
  ∃ status body, h s = (Ok (status, body), s) ∧ 400 ≤ status < 500 ∧ api_success body = false ∧ api_data body = None.

Lemma gated_write_refusals_elem caller keys v :
  v ∈ gated_write_refusals keys caller ↔
  ∃ key fp, key ∈ keys ∧ fp ∈ field_permissions ∧ camel_to_snake_case fp.1 = column_of key ∧ caller_holds caller fp.2 = false ∧
            v = gated_key_refusal key fp.1 fp.2.
Proof.
  unfold gated_write_refusals. rewrite list_elem_of_In, in_concat. split.
  - intros (l & (key & <- & Hkey)%in_map_iff & Hv). apply list_elem_of_In in Hv, Hkey.
    apply list_elem_of_omap in Hv as (fp & Hfp & Hif). exists key, fp. destruct (_ && _) eqn:Hb; [|done].
    apply andb_true_iff in Hb as [Hc%bool_decide_eq_true Hh%negb_true_iff]. naive_solver.
  - intros (key & fp & Hkey & Hfp & Hc & Hh & ->). eexists. split; [apply in_map_iff; exists key; split; [done|by apply list_elem_of_In]|].
    apply list_elem_of_In, list_elem_of_omap. exists fp. split; [done|].
    by rewrite bool_decide_true, Hh.
Qed.
Lemma gated_write_refusals_nil caller keys : gated_write_refusals keys caller = [] ↔ ¬ names_gated caller keys.
Proof.
  split.
  - intros Hnil (key & fp & Hn). assert (gated_key_refusal key fp.1 fp.2 ∈ gated_write_refusals keys caller) as Hin
      by (apply gated_write_refusals_elem; naive_solver). rewrite Hnil in Hin. set_solver.
  - intros Hn. destruct (gated_write_refusals keys caller) as [|v vs] eqn:Hr; [done|]. destruct Hn.
    assert (v ∈ gated_write_refusals keys caller) as Hin by (rewrite Hr; by left).
    apply gated_write_refusals_elem in Hin as (key & fp & ?). exists key, fp. naive_solver.
Qed.
Lemma names_gated_mono caller keys keys' : (∀ k, k ∈ keys → k ∈ keys') → names_gated caller keys → names_gated caller keys'.
Proof. intros Hk (key & fp & H). exists key, fp. naive_solver. Qed.
Lemma names_gated_refusals caller keys :
  names_gated caller keys → ∃ v vs, gated_write_refusals keys caller = v :: vs.
Proof.
  intros Hn. destruct (gated_write_refusals keys caller) as [|v vs] eqn:Hr; [|by eexists _, _].
  by apply gated_write_refusals_nil in Hr.
Qed.

Lemma stopped_gated {T} keys caller (go : sm X Empty_set (Answered T)) s :
  names_gated caller keys → stopped (unless_gated keys caller go) s.
Proof.
  intros (v & vs & Hr)%names_gated_refusals. unfold unless_gated. rewrite Hr. by eexists _, _.
Qed.
Lemma stopped_invalid {T} id path (go : sm X Empty_set (Answered T)) s :
  stopped go s → stopped (unless_invalid (invalid_id id path) go) s.
Proof. unfold invalid_id. by destruct (parse_uuid id); [|eexists _, _]. Qed.
Lemma stopped_invalid_ids {T} ids path_of (go : sm X Empty_set (Answered T)) s :
  stopped go s → stopped (unless_invalid (invalid_ids ids path_of) go) s.
Proof. unfold invalid_ids. by destruct (omap _ _); [|eexists _, _]. Qed.
Lemma stopped_large {T} n (go : sm X Empty_set (Answered T)) s : stopped go s → stopped (unless_large n go) s.
Proof. unfold unless_large. by destruct (batch_size_error n); [eexists _, _|]. Qed.

Lemma patch_keys_elem (patch : Patch) k : k ∈ dom patch → k ∈ patch_keys patch.
Proof.
  intros [v Hv]%elem_of_dom. unfold patch_keys. apply list_elem_of_fmap. exists (k, v). split; [done|].
  by rewrite hash_iter_perm, elem_of_map_to_list.
Qed.
Lemma request_keys_elem (items : list (string * Patch)) item k :
  item ∈ items → k ∈ dom item.2 → k ∈ concat (map (λ item, patch_keys item.2) items).
Proof.
  intros Hi Hk. apply list_elem_of_In, in_concat. exists (patch_keys item.2).
  split; [apply in_map_iff; exists item; split; [done|by apply list_elem_of_In]|].
  by apply list_elem_of_In, patch_keys_elem.
Qed.

(** C18: a body that names a field its caller may not set goes no further, whatever route it comes
    by. Where some key names, in either casing, a field gated by a permission the caller does not
    hold, the create, the update, the upsert, the bulk create, the patch, the bulk patch and its
    dry run, and the bulk update answer a client error without data, and the service is not
    asked: nothing changes. And a body is refused on that ground only if it does name one. *)
Theorem gated_writes_stop caller (keys : list string) (Hg : names_gated caller keys) :
  (∀ dto s, stopped (create_handler to_response dto keys caller) s) ∧
  (∀ id dto s, stopped (update_handler to_response id dto keys caller) s) ∧
  (∀ dto s, stopped (upsert_handler to_response dto keys caller) s) ∧
  (∀ items s, stopped (bulk_create_handler to_response items keys caller) s) ∧
  (∀ id (patch : Patch) s, (∀ k, k ∈ keys → k ∈ dom patch) →
     stopped (partial_update_handler to_response id patch caller) s) ∧
  (∀ req s, (∀ k, k ∈ keys → ∃ item, item ∈ into_items req ∧ k ∈ dom item.2) →
     stopped (bulk_patch_handler to_response req caller) s ∧ stopped (bulk_patch_preview_handler to_response req caller) s) ∧
  (∀ (DU : Decode U) to_vec raw s, (∀ k, k ∈ keys → ∃ fields, fields ∈ raw ∧ k ∈ map fst fields) →
     ∃ answer, bulk_update_handler to_response to_vec raw caller s = (Ok (inl answer), s) ∧ 400 ≤ answer.1 < 500) ∧
  (∀ keys', gated_write_refusals keys' caller ≠ [] → names_gated caller keys').
Proof.
  split; [intros; by apply stopped_gated|].
  split; [intros; by apply stopped_invalid, stopped_gated|].
  split; [intros; by apply stopped_gated|].
  split; [intros; by apply stopped_gated|].
  split; [intros id patch s Hk; apply stopped_invalid, stopped_gated; eapply names_gated_mono; [|done];
          intros k Hin; by apply patch_keys_elem, Hk|].
  split; [|split].
  - intros req s Hk. assert (names_gated caller (concat (map (λ item, patch_keys item.2) (into_items req)))) as Hn.
    { eapply names_gated_mono; [|done]. intros k (item & Hi & Hd)%Hk. by eapply request_keys_elem. }
    split; by apply stopped_large, stopped_invalid_ids, stopped_gated.
  - intros DU to_vec raw s Hk. unfold bulk_update_handler.
    destruct (batch_size_error (length raw)); [by eexists|].
    assert (names_gated caller (concat (map (map fst) raw))) as (v & vs & ->)%names_gated_refusals; [|by eexists].
    eapply names_gated_mono; [|done]. intros k (fields & Hf & Hi)%Hk. apply list_elem_of_In, in_concat.
    exists (map fst fields). split; [by apply in_map, list_elem_of_In|by apply list_elem_of_In].
  - intros keys' Hne. destruct (gated_write_refusals keys' caller) as [|v vs] eqn:Hr; [done|].
    assert (v ∈ gated_write_refusals keys' caller) as Hin by (rewrite Hr; by left).
    apply gated_write_refusals_elem in Hin as (key & fp & ?). exists key, fp. naive_solver.
Qed.

(** *** Queries that name what their caller may not ask about *)

(** A secret, or a field gated by a permission the caller lacks. *)
Definition not_to_ask caller (name : string) : Prop :=
  column_of name ∈ map camel_to_snake_case secret_fields ∨
  ∃ fp, gate_of field_permissions (column_of name) = Some fp ∧ caller_holds caller fp.2 = false.
Definition names_withheld params caller : Prop := ∃ pn, pn ∈ named_columns params ∧ not_to_ask caller pn.2.

Lemma named_secret_none params pn :
  named_secret_at params secret_fields = None → pn ∈ named_columns params →
  column_of pn.2 ∉ map camel_to_snake_case secret_fields.
Proof.
  unfold named_secret_at. intros Hf Hpn%list_elem_of_In Hin.
  by apply (find_none _ _ Hf pn), bool_decide_eq_false in Hpn.
Qed.
Lemma named_gated_none params caller pn fp :
  named_gated_at params field_permissions caller = None → pn ∈ named_columns params →
  gate_of field_permissions (column_of pn.2) = Some fp → caller_holds caller fp.2 = true.
Proof.
  unfold named_gated_at. intros Hf Hpn Hfp. destruct (caller_holds caller fp.2) eqn:Hh; [done|].
  destruct fp as [f p]. simpl in Hh.
  set (g := λ pn : string * string, match gate_of field_permissions (column_of pn.2) with
            | Some (field, permission) => if caller_holds caller permission then None else Some (pn.1, field, permission)
            | None => None end) in Hf.
  assert ((pn.1, f, p) ∈ omap g (named_columns params)) as Hin.
  { apply list_elem_of_omap. exists pn. split; [done|]. unfold g. by rewrite Hfp, Hh. }
  destruct (omap g (named_columns params)); [set_solver|done].
Qed.
(** What passes names nothing of the kind. *)
Lemma query_refusals_nil params paged caller :
  query_refusals params paged caller = [] → ¬ names_withheld params caller.
Proof.
  intros (_ & (_ & (Hs & (Hg & _)%app_nil)%app_nil)%app_nil)%app_nil (pn & Hpn & [Hin|(fp & Hfp & Hh)]).
  - eapply named_secret_none; [|done..]. by destruct (named_secret_at _ _) as [[]|].
  - assert (caller_holds caller fp.2 = true); [|congruence].
    eapply named_gated_none; [|done..]. by destruct (named_gated_at _ _ _) as [[[]]|].
Qed.
Lemma names_withheld_refusals params paged caller :
  names_withheld params caller → ∃ v vs, query_refusals params paged caller = v :: vs.
Proof.
  intros Hn. destruct (query_refusals params paged caller) as [|v vs] eqn:Hr; [|by eexists _, _].
  by apply query_refusals_nil in Hr.
Qed.
Lemma named_columns_filter params key v name :
  filters params !! key = Some v → name ∈ key_names key ++ listed_names key v → (key, name) ∈ named_columns params.
Proof.
  intros Hk Hname. unfold named_columns. apply elem_of_app. left. apply list_elem_of_In, in_concat.
  eexists. split; [apply in_map_iff; exists key; split; [done|]|].
  - apply list_elem_of_In, elem_of_btree_iter. by eapply elem_of_dom_2.
  - apply list_elem_of_In, list_elem_of_fmap. exists name. rewrite Hk. done.
Qed.
Lemma keep_keys_lookup P (m : gmap string string) k v : keep_keys P m !! k = Some v ↔ m !! k = Some v ∧ P k = true.
Proof. unfold keep_keys. by rewrite map_lookup_filter_Some. Qed.
(** What the repository is asked: a parameter of the query, or one of three the typed ones give. *)
Lemma repository_filters_lookup params k v :
  repository_filters params !! k = Some v →
  k ∈ ["search"; "status"; "orderby"] ∨
  ((filters params !! k = Some v) ∧ k ∉ RESERVED_QUERY_KEYS ∧ is_internal_key k = false).
Proof.
  unfold repository_filters. set (m0 := keep_keys _ _). intros Hk.
  assert (k ∈ ["search"; "status"; "orderby"] ∨ m0 !! k = Some v) as [|Hm]; [|by left|].
  { destruct (decide (k ∈ ["search"; "status"; "orderby"])) as [|Hn]; [by left|]. right.
    assert (k ≠ "search" ∧ k ≠ "status" ∧ k ≠ "orderby") as (H1 & H2 & H3) by set_solver.
    assert (∀ key o (m : gmap string string), key ≠ k → with_typed key o m !! k = m !! k) as Hgiven.
    { intros key [x|] m Hne; [by apply lookup_insert_ne|done]. }
    rewrite <- (Hgiven "search" (lq_search params) m0) by done. rewrite <- (Hgiven "status" (lq_status params)) by done.
    destruct (typed_sort params); [|done]. destruct (names_a_sort _); [done|].
    by rewrite lookup_insert_ne in Hk. }
  right. apply keep_keys_lookup in Hm as [Hf [Hr%negb_true_iff Hi%negb_true_iff]%andb_true_iff].
  by apply bool_decide_eq_false in Hr.
Qed.

Lemma stopped_refused {T} (vs : list Violation) s :
  stopped (T:=T) (mret (refused_with BAD_REQUEST vs)) s.
Proof. by eexists _, _. Qed.
(** A page refused before the service is asked. *)
Definition page_stopped (h : sm X Empty_set (Z * PaginatedApiResponse)) s : Prop :=
  ∃ page, h s = (Ok (BAD_REQUEST, page), s) ∧ pa_success page = false ∧ pa_data page = [].

End stops.

(** ** What an error says *)
Section failures.
Context {L : Libs} {U0 : Unicode} {HI : HashIter} {E C U : Type} {PE : PersistentEntity E} {T W : Type} {HW : World W}.
Context {R : CrudRepository E T W} {LR : ListRepository E T W} {WG : WriteGuard E T W} {WH : WriteHooks E T W}.
Context {LC : ServiceLifecycle E T W} {P : CrudEventPublisher E T W}.
Context (from_create_dto : C → sm (St T W) ServiceError E) (apply_update : E → U → sm (St T W) ServiceError E).
Context (driver_error : DbError → SqlxError) (rq : Request).
#[local] Instance generic : CrudServiceApi (St T W) E C U := GenericCrudService from_create_dto apply_update driver_error rq.
Implicit Types (err : ServiceError) (p : ListQueryParams).

(** What is left of the errors when those a client can act on are taken out. *)
Definition server_fault err : bool :=
  match err with
  | SRepository (RDatabaseError _ | RSerializationError _ | RInternalError _) | SInternal _ => true
  | _ => false
  end.

Lemma failure_generic {A} err fallback : failure (T:=A) err fallback = service_error_response err.
Proof. done. Qed.
Lemma violations_answer {A} status vs (text : string) :
  status = BAD_REQUEST ∨ status = UNPROCESSABLE_ENTITY →
  let answer := error_at (T:=A) status (Some vs) text in
  answer.1 = status ∧ ∃ v vs', api_violations answer.2 = Some (v :: vs').
Proof. intros [->| ->]; destruct vs as [|v vs]; (split; [done|by eexists _, _]). Qed.
Lemma answer_cases {A} err :
  let answer := service_error_response (T:=A) err in
  (server_fault err = true ∧ answer = (INTERNAL_SERVER_ERROR, api_failed INTERNAL_ERROR_MESSAGE)) ∨
  (server_fault err = false ∧ answer = (NOT_FOUND, api_not_found)) ∨
  (server_fault err = false ∧ answer.1 ∈ [BAD_REQUEST; CONFLICT; UNPROCESSABLE_ENTITY] ∧
   ∃ v vs, api_violations answer.2 = Some (v :: vs)).
Proof.
  assert (∀ vs text, let status := if is_query_refusal vs then BAD_REQUEST else UNPROCESSABLE_ENTITY in
    (error_at (T:=A) status (Some vs) text).1 ∈ [BAD_REQUEST; CONFLICT; UNPROCESSABLE_ENTITY] ∧
    ∃ v vs', api_violations (error_at (T:=A) status (Some vs) text).2 = Some (v :: vs')) as Hvs.
  { intros vs text status. destruct (violations_answer (A:=A) status vs text) as [-> Hv];
      [subst status; destruct (is_query_refusal vs); auto|].
    split; [subst status; destruct (is_query_refusal vs); set_solver|done]. }
  intros answer. subst answer. unfold service_error_response.
  destruct err as [|?|?|vs|[|?|?|?|?|?|?|vs]|?]; try (by left); try (by right; left);
    right; right; (split; [done|]); try (apply Hvs); (split; [cbn; set_solver|by eexists _, _]).
Qed.
Lemma server_faults_alike {A} err p err' :
  server_fault err = true → server_fault err' = true →
  is_bad_query_error (service_error_to_string err) = is_bad_query_error (service_error_to_string err') →
  list_failure err p = list_failure err' p ∧ query_failure (T:=A) err p = query_failure err' p.
Proof.
  intros He He' Hsame. unfold list_failure, query_failure, query_failure_parts.
  destruct err as [| | | |[]|], err' as [| | | |[]|]; try done;
    cbn [svc_violations_of generic GenericCrudService violations_of svc_error_to_string];
    rewrite Hsame; by destruct (is_bad_query_error _).
Qed.

End failures.

(** ** The dry run of a bulk patch *)
Section preview.
Context {L : Libs} {UU : UnicodeUpper}.
Implicit Types (rows : list (string * PreviewOutcome)) (patched : gmap string (list string)).

(** The reference: what becomes of one row. *)
Definition row_change patched (row : string * PreviewOutcome) : option PreviewChange :=
  match row.2 with
  | inr (before, after) =>
      match field_changes (default [] (patched !! row.1)) before after with
      | [] => None
      | changes => Some (mkPreviewChange row.1 changes)
      end
  | inl _ => None
  end.
Definition row_unchanged patched (row : string * PreviewOutcome) : option string :=
  match row.2, row_change patched row with inr _, None => Some row.1 | _, _ => None end.
Definition row_refused (row : string * PreviewOutcome) : option PreviewRefusal :=
  match row.2 with inl (code, message) => Some (mkPreviewRefusal row.1 code message) | inr _ => None end.

Lemma preview_fold patched rows out :
  let out' := foldl (preview_step patched) out rows in
  will_change out' = will_change out ++ omap (row_change patched) rows ∧
  unchanged out' = unchanged out ++ omap (row_unchanged patched) rows ∧
  refused out' = refused out ++ omap row_refused rows.
Proof.
  revert out. induction rows as [|[id o] rows IH]; intros out; [simpl; by rewrite !app_nil_r|].
  cbv zeta. cbn [foldl]. destruct (IH (preview_step patched out (id, o))) as (-> & -> & ->).
  cbn [omap list_omap]. unfold preview_step, row_unchanged, row_refused, row_change. cbn [fst snd].
  destruct o as [[code message]|[before after]]; [by cbn; rewrite <- !(assoc_L (++))|].
  destruct (field_changes _ _ _); cbn; by rewrite <- ?(assoc_L (++)).
Qed.

Lemma field_changes_elem keys before after fc :
  fc ∈ field_changes keys before after ↔
  fc_field fc ∈ keys ∧ fc_from fc = read_field (fc_field fc) before ∧ fc_to fc = read_field (fc_field fc) after ∧
  value_eqb (fc_from fc) (fc_to fc) = false.
Proof.
  unfold field_changes. rewrite list_elem_of_omap. unfold sort_strings. split.
  - intros (f & Hf & Hif). rewrite merge_sort_Permutation in Hf.
    destruct (value_eqb _ _) eqn:He; simplify_eq. naive_solver.
  - intros (Hf & Hfrom & Hto & Hne). exists (fc_field fc). rewrite merge_sort_Permutation. split; [done|].
    rewrite <- Hfrom, <- Hto, Hne. by destruct fc.
Qed.

(** the dry run of a bulk patch sorts every row into one of three lists, each in the order of
    the rows. A row that would be refused is listed with its code and sentence. A row is listed as
    changing with exactly those fields its patch named whose values differ, each with both
    values; a row without one is listed as unchanged. The total is the number of rows. *)
Theorem preview_sorts_rows rows patched :
  let out := preview_answer rows patched in
  will_change out = omap (row_change patched) rows ∧
  unchanged out = omap (row_unchanged patched) rows ∧
  refused out = omap row_refused rows ∧
  bp_total out = length rows ∧
  (∀ change fc, change ∈ will_change out → fc ∈ pc_changes change ↔
     ∃ before after, (pc_id change, inr (before, after)) ∈ rows ∧ change = mkPreviewChange (pc_id change)
         (field_changes (default [] (patched !! pc_id change)) before after) ∧
       fc_field fc ∈ default [] (patched !! pc_id change) ∧
       fc_from fc = read_field (fc_field fc) before ∧ fc_to fc = read_field (fc_field fc) after ∧
       value_eqb (fc_from fc) (fc_to fc) = false).
Proof.
  unfold preview_answer. destruct (preview_fold patched rows (mkBulkPreview [] [] [] 0)) as (Hc & Hu & Hr).
  cbn [will_change unchanged refused bp_total]. rewrite Hc, Hu, Hr. simpl.
  split; [done|]. split; [done|]. split; [done|]. split.
  - clear. induction rows as [|row rows IH]; [done|]. cbn [omap list_omap].
    unfold row_unchanged, row_refused in *. destruct row as [id [[code message]|[before after]]]; cbn [fst snd] in *;
      [cbn; cbn in IH; lia|]. destruct (row_change patched (id, inr (before, after))); cbn; cbn in IH; lia.
  - intros change fc (row & Hrow & Hch)%list_elem_of_omap. unfold row_change in Hch.
    destruct row as [id [?|[before after]]]; [done|]. cbn [fst snd] in Hch.
    destruct (field_changes _ before after) as [|c0 cs] eqn:Hf; [done|]. simplify_eq. cbn [pc_id pc_changes].
    rewrite <- Hf. split.
    + intros Hin. exists before, after. split; [done|]. split; [done|]. by apply field_changes_elem.
    + intros (b & a & _ & Heq & Hfc). injection Heq as Heq. rewrite Heq. by apply field_changes_elem.
Qed.
End preview.

(** ** A concrete resource *)
Module HttpExample.
Import Concrete.

#[local] Instance any_order : HashIter := { hash_iter V := map_to_list; hash_iter_perm V m := reflexivity _ }.
#[local] Instance unicode : Unicode := ascii_unicode.
#[local] Instance upper : UnicodeUpper := {| u_to_uppercase c := c |}.
#[local] Instance counts : SerdeCount := {| from_u64 := from_i64 |}.

(** Accounts with a digest, a salary, notes of their company's, and a manager among people. *)
#[local] Instance account : EntityRepoMeta := {|
  private_fields := ["notes"]; secret_fields := ["passwordHash"];
  relation_secret_fields name := if bool_decide (name = "manager") then ["pin"] else [];
  field_permissions := [("salary", "account:read_salary")]; owner_field := Some "companyId";
  relations := [("manager", "hr.people", "managerId")] |}.

Definition ann : Obj :=
  map_collect [("id", VString "1"); ("name", VString "Ann"); ("passwordHash", VString "abc"); ("salary", VNumber (NInt 90));
    ("notes", VString "n"); ("companyId", VString "7"); ("managerId", VString "2")].
Definition bob : Obj := map_collect [("id", VString "2"); ("full_name", VString "Bob"); ("pin", VString "1234"); ("bonus", VNumber (NInt 5))].
(** A service over the rows it keeps: it answers them all, and stores what it is given. *)
Definition rows_of (s : list Obj) : list Obj * PaginationInfo := (s, pagination_info_new 1 20 (Z.of_nat (length s))).
Definition row_with_id (id : string) (s : list Obj) : option Obj :=
  List.find (λ o, match map_get "id" o with Some (VString i) => bool_decide (i = id) | _ => false end) s.
#[local] Instance shop : CrudServiceApi (list Obj) Obj Obj Obj := {|
  svc_error := ServiceError;
  svc_violations_of := violations_of; svc_status_of err := Some (service_error_status err);
  svc_error_to_string := service_error_to_string; svc_supports_upsert := true; svc_table_name := Some "shop.accounts";
  svc_fetch_related_json _ _ s := (Ok [VObject bob], s);
  svc_list_with_info _ _ _ s := (Ok (rows_of s), s);
  svc_aggregate _ _ s := (Err (SInternal "none"), s);
  svc_count_active_filtered _ s := (Ok (Z.of_nat (length s)), s);
  svc_create o s := (Ok o, o :: s);
  svc_get_by_id id s := (Ok (row_with_id id s), s);
  svc_update id o s := (Ok (row_with_id id s), s);
  svc_partial_update id p s := (Ok (row_with_id id s), s);
  svc_soft_delete _ s := (Ok false, s);
  svc_bulk_create os s := (Ok os, os ++ s);
  svc_upsert o s := (Ok o, o :: s);
  svc_restore id s := (Ok (row_with_id id s), s);
  svc_empty_trash s := (Ok 0, s);
  svc_get_deleted_by_id id s := (Ok (row_with_id id s), s);
  svc_permanent_delete _ s := (Ok false, s);
  svc_list_deleted_filtered _ _ _ s := (Ok (s, Z.of_nat (length s)), s);
  svc_count_deleted s := (Ok 0, s);
  svc_bulk_soft_delete _ s := (Ok 0, s);
  svc_bulk_restore ids s := (Ok (omap (λ id, row_with_id id s) ids), s);
  svc_bulk_permanent_delete _ s := (Ok 0, s);
  svc_restore_all s := (Ok 0, s);
  svc_bulk_update _ s := (Ok s, s);
  svc_bulk_partial_update items s := (Ok (omap (λ item, row_with_id item.1 s) items), s);
  svc_preview_bulk_partial_update _ s := (Ok None, s);
|}.
Definition response (o : Obj) : Value := VObject o.
Definition registries : Registries := register_permissions "hr.people" [("bonus", "person:read_bonus")] no_registries.
Definition params_of (m : gmap string string) (by_ : option string) : ListQueryParams := mkParams 1 20 by_ None None None m.
Definition holder : AuthContext := mkAuth "u" [] ["account:read_salary"].

(** A caller without permissions, of another company. *)
Example ann_listed :
  (list_handler response registries (params_of {["include" := "manager"]} None) (Some (Company 8%N)) None [ann]).1 =
  Ok (OK_200, ok_with_info
    [VObject (map_collect [("id", VString "1"); ("name", VString "Ann"); ("salary", VNull); ("companyId", VString "7");
       ("managerId", VString "2");
       ("manager", VObject (map_collect [("id", VString "2"); ("fullName", VString "Bob"); ("bonus", VNull)]))])]
    (rows_of [ann]).2).
Proof. by_vm. Qed.
Example ann_read :
  (get_handler response registries "1" (params_of {["fields" := "name,salary,passwordHash,notes"]} None)
     (Some (Company 7%N)) (Some holder) [ann]).1 =
  Ok (OK_200, api_ok (VObject (map_collect [("id", VString "1"); ("name", VString "Ann"); ("notes", VString "n");
    ("salary", VNumber (NInt 90))]))).
Proof. by_vm. Qed.

Lemma response_object o : ∃ m, response o = VObject m.
Proof. by exists o. Qed.

Lemma answers_show_what_may_be_seen_witness :
  let params := params_of {["include" := "manager"]} None in
  wpo (list_handler response registries params (Some (Company 8%N)) None) (λ ans _,
    page_answered response registries params (Some (Company 8%N)) None
      (λ es, ∃ info, answers_call [ann] (λ s, (Ok (rows_of s), s)) (es, info)) ans.2) [ann].
Proof.
  exact (proj1 (answers_show_what_may_be_seen response registries response_object
    (params_of {["include" := "manager"]} None) (Some (Company 8%N)) None "1" [ann])).
Defined.

Lemma gated_writes_stop_witness :
  names_gated None ["Salary"] ∧
  ∀ dto s, stopped (create_handler (SV:=shop) response dto ["Salary"] None) s.
Proof.
  assert (names_gated None ["Salary"]) as Hg
    by (exists "Salary", ("salary", "account:read_salary"); repeat split; by_dec || by_vm).
  split; [exact Hg|]. exact (proj1 (gated_writes_stop response None ["Salary"] Hg)).
Defined.

Lemma writes_answer_without_secrets_witness :
  wpo (create_handler response ann ["isVip"] None)
    (λ ans _, row_written response None (answers_call [ann] (λ s, (Ok ann, ann :: s))) ans.2) [ann].
Proof. exact (proj1 (writes_answer_without_secrets response response_object None [ann]) ann ["isVip"]). Defined.


(** A sort with its direction, or a typed sort behind a minus, names its column to the parser of
    the filters and not to the check: it goes by a secret. *)
Example secret_sorts_pass :
  let by_dir := params_of {["orderby" := "passwordHash:desc"]} None in
  let typed := params_of ∅ (Some "-passwordHash") in
  query_refusals by_dir true None = [] ∧ query_refusals typed true None = [] ∧
  sorts <$> (match parse_filters (hash_iter (repository_filters by_dir)) ∅ None with inr q => Some q | inl _ => None end) =
    Some [mkSort "password_hash" Filter.Desc] ∧
  sorts <$> (match parse_filters (hash_iter (repository_filters typed)) ∅ None with inr q => Some q | inl _ => None end) =
    Some [mkSort "password_hash" Filter.Desc].
Proof. repeat split; by_vm. Qed.

(** The history of a record: a gated field is withheld at any depth, a secret one is not. *)
Definition recorded : HistoryProvider (X:=list Obj) := λ _ _ _ _ s,
  (Ok (Some [mkEntry "t" "insert" "u" (VObject [("passwordHash", VString "abc"); ("salary", VNumber (NInt 90))]) None None]), s).
Example history_shows_a_secret :
  (history_handler false "1" (params_of ∅ None) (Some recorded) None [ann]).1 =
  Ok (OK_200, api_ok (VObject [("audited", VBool true); ("entries", VArray [entry_value
    (mkEntry "t" "insert" "u" (VObject [("passwordHash", VString "abc"); ("salary", VNull)]) None None)])])).
Proof. by_vm. Qed.
Example history_offset_wraps :
  history_offset true 21474838 200 = None ∧ history_offset false 21474838 200 = Some 104.
Proof. split; by_vm. Qed.

(** A batch that is too large is refused without a code. *)
Example large_batch_has_no_code :
  (bulk_delete_handler (SV:=shop) (replicate 1001 "1") []).1 =
  Ok (BAD_REQUEST, api_failed "Batch too large: 1001 items exceeds the maximum of 1000.").
Proof. by_vm. Qed.

Example idempotent_keys :
  map camel_to_snake_case ["isVip"; "is_vip"; "IOError"; "_Foo"; "customField2Name"] =
  ["is_vip"; "is_vip"; "io_error"; "_foo"; "custom_field2_name"].
Proof. reflexivity. Qed.
End HttpExample.
