(* ===== verification/PgRepository.v ===== *)
(** * The generic repository over Postgres

    [backbone-orm/src/generic_repository.rs], the writes and aggregates of [repository.rs], and the
    repository that [impl_crud_repository] makes of them ([backbone-core/src/macros.rs]). A database is
    its tables, a table its rows, a row the JSON form of its columns; each statement is the function that its
    text means, under the fence of the session that runs it. What the database itself decides stays a
    parameter ([Postgres]): the columns of a table, the reading of JSON as a column's value, defaults, constraints and
    triggers, and the row-level policies. *)
From Stdlib Require Import ZArith Lia Ascii.
From stdpp Require Import gmap sorting pretty.
From S2P Require Import Prelude Float64 RustStr RustChar Json WorkflowExpr Database WriteHooks Filter FilterParser RepositoryErrors Cursor ListQuery CrudWrite CrudService Http HttpHandlers.

Local Open Scope Z_scope.

(** ** Names and conditions *)

(** [quote_ident]: an embedded quote is doubled. *)
Fixpoint double_quotes (s : string) : string :=
  match s with
  | EmptyString => EmptyString
  | String c s => if Ascii.eqb c double_quote then String c (String c (double_quotes s)) else String c (double_quotes s)
  end.
Definition in_quotes (s : string) : string := String double_quote (s +:+ String double_quote "").
Definition quote_ident (name : string) : string := in_quotes (double_quotes name).
Definition column_list (columns : list string) : string := str_join ", " (map quote_ident columns).
(** [build_update_parts] quotes a name as it is. *)
Definition plain_column_list (columns : list string) : string := str_join ", " (map in_quotes columns).

(** How Postgres reads a list of quoted names: a doubled quote stands for one, and a name is not empty. *)
Fixpoint read_ident (s : string) : option (string * string) :=
  match s with
  | EmptyString => None
  | String c s =>
      if Ascii.eqb c double_quote then
        match s with
        | String d s' =>
            if Ascii.eqb d double_quote then '(name, rest) ← read_ident s'; Some (String c name, rest)
            else Some ("", s)
        | EmptyString => Some ("", "")
        end
      else '(name, rest) ← read_ident s; Some (String c name, rest)
  end.
Fixpoint read_column_list (fuel : nat) (s : string) : option (list string) :=
  match fuel with
  | O => None
  | S fuel =>
      '(name, rest) ← (body ← strip_first double_quote s; read_ident body);
      if bool_decide (name = "") then None
      else match rest with
           | EmptyString => Some [name]
           | _ => next ← strip_prefix_str ", " rest; names ← read_column_list fuel next; Some (name :: names)
           end
  end.
(** Each name takes some of the text, so its length is fuel enough. *)
Definition read_columns (s : string) : option (list string) := read_column_list (String.length s) s.

(** [snake_to_camel] and [camel_to_snake] of this file. *)
Fixpoint column_camel_from (upper : bool) (s : string) : string :=
  match s with
  | EmptyString => EmptyString
  | String c s =>
      if Ascii.eqb c "_" then column_camel_from true s
      else String (if upper then upper_ascii c else c) (column_camel_from false s)
  end.
Definition column_camel (s : string) : string := column_camel_from false s.
Definition column_snake {U : Unicode} (s : string) : string :=
  str_concat (map (λ ch, if char_is_uppercase ch then "_" +:+ char_lower ch else ch) (chars s)).

Definition qualify_relation_table (caller_table target_table : string) : string :=
  if str_contains target_table "." || negb (str_contains caller_table ".") then target_table
  else first_piece "." caller_table +:+ "." +:+ target_table.

(** What an entity says of its table. *)
Record EntityRepoMeta := mkMeta {
  column_types : gmap string string;
  search_columns_of : list string;                 (* [search_fields()] *)
  company_field : option string;
  relations : list (string * string * string);      (* relation, table, local field *)
}.

(** The company fence as text, or the refusal to run without one. *)
Definition missing_company_scope (column : string) : SourceError :=
  SourceOther ("entity is company-scoped (" +:+ column +:+ ") but the request carries no company scope").
Definition company_fence {UT : UuidText} (meta : EntityRepoMeta) (company : option uuid) : res SourceError (option string) :=
  match company_field meta, company with
  | None, _ => Ok None
  | Some column, None => Err (missing_company_scope column)
  | Some column, Some id => Ok (Some (column +:+ " = '" +:+ uuid_to_string id +:+ "'"))
  end.
(** Does the key name the company column. *)
Definition names_company (column key : string) : bool :=
  let base := match find_char "[" key with Some (base, _) => base | None => key end in
  eq_ignore_ascii_case base column || eq_ignore_ascii_case base (column_camel column).
Definition strip_client_company_filters (meta : EntityRepoMeta) (filters : list (string * string)) : list (string * string) :=
  match company_field meta with
  | None => filters
  | Some column => List.filter (λ kv, negb (names_company column kv.1)) filters
  end.
Definition and_conditions (a b : option string) : option string :=
  match a, b with
  | None, None => None
  | Some a, None => Some a
  | None, Some b => Some b
  | Some a, Some b => Some (a +:+ " AND " +:+ b)
  end.
Definition ACTIVE_ROWS : string := "metadata->>'deleted_at' IS NULL".
Definition DELETED_ROWS : string := "metadata->>'deleted_at' IS NOT NULL".

(** ** Rows and tables *)

(** A row, by its columns. *)
Abbreviation Row := (gmap string Value).
(** The tables, by the names that reach them. *)
Abbreviation Db := (gmap string (list Row)).
(** A statement: what it answers and the tables after it, or why it is refused. *)
Definition Stmt {L : Libs} (A : Type) : Type := Fence → instant → Db → res DbError (A * Db).

Class Postgres {L : Libs} := {
  pg_uuid : string → option uuid;                             (* [$1::uuid] *)
  pg_columns : Db → string → list string;                     (* a table's columns *)
  pg_information_schema : Db → string → string → list (string * string);   (* schema, table: columns with their [data_type] *)
  pg_cell : string → string → Value → res DbError Value;      (* JSON as the value of a table's column *)
  pg_default : Fence → instant → Db → string → string → res DbError Value;   (* what a column left out holds *)
  pg_refuses : Fence → Db → string → Row → option DbError;    (* constraints, triggers, [WITH CHECK] on a row written *)
  pg_keeps : Fence → Db → string → Row → option DbError;      (* what stands against a row's removal *)
  pg_visible : Fence → string → Row → bool;                   (* the policies' [USING] *)
  pg_now_text : instant → string;                             (* [to_jsonb(NOW())] *)
  pg_text_le : string → string → bool;                        (* the database's collation *)
  pg_same_value : string → string → Value → Value → bool;     (* [=] of two values of a table's column *)
}.

Section rows.
Context {L : Libs} {PG : Postgres}.
Implicit Types (r : Row) (rows : list Row) (table id : string) (f : Fence) (now : instant) (db : Db).

(** *** The values of a row *)
Definition has_id (u : uuid) r : bool :=
  match r !! "id" with Some (VString s) => bool_decide (s = uuid_to_string u) | _ => false end.
Definition row_uuid r : N := match r !! "id" with Some (VString s) => default 0%N (pg_uuid s) | _ => 0%N end.
(** [metadata->>'deleted_at'] *)
Definition deleted_text r : option string :=
  v ← r !! "metadata" ≫= value_get "deleted_at";
  match v with VNull => None | VString s => Some s | v => Some (value_to_string v) end.
Definition is_active r : bool := bool_decide (deleted_text r = None).
Definition is_trashed r : bool := negb (is_active r).
(** [jsonb_set(COALESCE(metadata, '{}'), '{deleted_at}', to_jsonb(NOW()))] *)
Definition stamp_deleted now r : res DbError Row :=
  let stamped m := Ok (<["metadata" := VObject (map_insert "deleted_at" (VString (pg_now_text now)) m)]> r) in
  match r !! "metadata" with
  | None | Some VNull => stamped []
  | Some (VObject m) => stamped m
  | Some (VArray _) => Err "path element at position 1 is not an integer"
  | Some _ => Err "cannot set path in scalar"
  end.
(** [metadata - 'deleted_at'] *)
Definition clear_deleted now r : res DbError Row :=
  match r !! "metadata" with
  | Some (VObject m) => Ok (<["metadata" := VObject (List.filter (λ kv, negb (bool_decide (kv.1 = "deleted_at"))) m)]> r)
  | _ => Ok r
  end.
Definition by_id id : res DbError (Row → bool) :=
  match pg_uuid id with
  | Some u => Ok (has_id u)
  | None => Err ("invalid input syntax for type uuid: " +:+ in_quotes id)
  end.
(** [id IN ($1::uuid, ..)] *)
Definition by_ids (ids : list string) : res DbError (Row → bool) :=
  conds ← mapM by_id ids; Ok (λ r, existsb (λ cond, cond r) conds).

(** *** Statements *)
Definition undefined_table table : DbError := "relation " +:+ in_quotes table +:+ " does not exist".
Definition undefined_column table (column : string) : DbError :=
  "column " +:+ in_quotes column +:+ " of relation " +:+ in_quotes table +:+ " does not exist".
Definition on_table {A} db table (k : list Row → res DbError A) : res DbError A :=
  match db !! table with Some rows => k rows | None => Err (undefined_table table) end.
Definition accepted (refusal : option DbError) : res DbError unit := match refusal with Some e => Err e | None => Ok tt end.
Definition chosen f table (p : Row → bool) r : bool := pg_visible f table r && p r.

(** [SELECT * FROM table WHERE p] *)
Definition select table (p : Row → bool) : Stmt (list Row) := λ f _ db,
  on_table db table (λ rows, Ok (List.filter (chosen f table p) rows, db)).
(** [UPDATE table SET .. WHERE p RETURNING *] *)
Definition updated_row f db table (p : Row → bool) (upd : Row → res DbError Row) r : res DbError (bool * Row) :=
  if chosen f table p r then
    r' ← upd r; _ ← accepted (pg_refuses f db table r'); Ok (true, r')
  else Ok (false, r).
Definition update_rows table (p : Row → bool) (upd : instant → Row → res DbError Row) : Stmt (list Row) := λ f now db,
  on_table db table (λ rows,
    marked ← mapM (updated_row f db table p (upd now)) rows;
    Ok (map snd (List.filter fst marked), <[table := map snd marked]> db)).
(** [DELETE FROM table WHERE p], and how many rows went. *)
Definition delete_rows table (p : Row → bool) : Stmt Z := λ f _ db,
  on_table db table (λ rows,
    let gone := List.filter (chosen f table p) rows in
    _ ← mapM (λ r, accepted (pg_keeps f db table r)) gone;
    Ok (Z.of_nat (length gone), <[table := List.filter (λ r, negb (chosen f table p r)) rows]> db)).

(** [jsonb_populate_record(NULL::table, json)]: every column, from its key or NULL. *)
Definition populate db table (json : list (string * Value)) : res DbError Row :=
  cells ← mapM (λ col,
      v ← match map_get col json with Some v => pg_cell table col v | None => Ok VNull end; Ok (col, v))
    (pg_columns db table);
  Ok (list_to_map cells).
Definition named_columns db table (columns : list string) : res DbError unit :=
  match List.find (λ c, negb (bool_decide (c ∈ pg_columns db table))) columns with
  | Some c => Err (undefined_column table c)
  | None => Ok tt
  end.
(** The columns named, as the record has them. *)
Definition only_columns (columns : list string) (new : Row) : Row := filter (λ cv, cv.1 ∈ columns) new.
(** [INSERT INTO table (columns) SELECT columns FROM jsonb_populate_record(..) RETURNING *] *)
Definition insert_row table (columns : list string) (json : list (string * Value)) : Stmt (list Row) := λ f now db,
  on_table db table (λ rows,
    _ ← named_columns db table columns;
    new ← populate db table json;
    let given := only_columns columns new in
    cells ← mapM (λ col,
        v ← match given !! col with Some v => Ok v | None => pg_default f now db table col end; Ok (col, v))
      (pg_columns db table);
    let r : Row := list_to_map cells in
    _ ← accepted (pg_refuses f db table r);
    Ok ([r], <[table := rows ++ [r]]> db)).
(** [UPDATE table SET (columns) = (SELECT columns FROM new_row) WHERE p RETURNING *] *)
Definition set_columns table (columns : list string) (json : list (string * Value)) (p : Row → bool) : Stmt (list Row) :=
  λ f now db,
    _ ← on_table db table (λ _, named_columns db table columns);
    update_rows table p (λ _ r, new ← populate db table json; Ok (only_columns columns new ∪ r)) f now db.
(** A statement whose text lists columns. *)
Definition with_columns {A} (text : string) (k : list string → Stmt A) : Stmt A := λ f now db,
  match read_columns text with Some columns => k columns f now db | None => Err "syntax error" end.
End rows.

(** ** Sessions *)
Section sessions.
Context {L : Libs} {W : Type} {HW : World W} {E A : Type}.
Variable from : DbError → E.
Implicit Types (tk : Task).

(** What every helper of [company_scope.rs] does around its statement: the write transaction's connection, the
    request's, a transaction of its own for the company, else the pool as it is. *)
Definition scoped tk (body : Fence → instant → sm (St Db W) E A) : sm (St Db W) E A :=
  match task_tx tk with
  | Some tx => body (tx_company tx, tx_unit tx) (tx_now tx)
  | None =>
      match task_conn tk, task_company tk with
      | Some fence, _ => now ← pg_now; body fence now
      | None, None => now ← pg_now; body (None, None) now
      | None, Some company =>
          run_unit from false (now ← pg_now; _ ← map_err from sqlx_point; body (Some company, None) now)
      end
  end.
(** [begin_unit], the batch, [TxUnit::finish]. *)
Definition in_unit tk (body : Fence → instant → sm (St Db W) E A) : sm (St Db W) E A :=
  match task_tx tk with
  | Some tx => run_unit from false (body (tx_company tx, tx_unit tx) (tx_now tx))
  | None =>
      match task_conn tk with
      | Some fence => run_unit from true (now ← pg_now; body fence now)
      | None =>
          _ ← map_err from sqlx_point;
          run_unit from true (now ← pg_now; _ ← map_err from sqlx_point; body (task_company tk, None) now)
      end
  end.
End sessions.

(** ** The repository *)
Inductive DeleteMode := SoftDelete | HardDelete.

(** [UpdateStatement]: the columns as the text lists them, and the record bound. *)
Inductive UpdateStatement {SN : SerdeNumber} := Unchanged | UpdateColumns (columns : string) (json : list (string * Value)).

Section repository.
Context {L : Libs} {PG : Postgres} {W : Type} {HW : World W} {E : Type} {PE : PersistentEntity E}.
Variables (driver_error : DbError → SqlxError) (from_row : Row → string + E) (table_name : string) (mode : DeleteMode).
Implicit Types (tk : Task) (e before after : E) (id : string) (ids : list string) (r : Row) (f : Fence) (now : instant).
#[local] Abbreviation Sq := (sm (St Db W) SourceError).
(** The error of a batch, and the item it names ([BatchItemError]). *)
#[local] Abbreviation Bq := (sm (St Db W) (SourceError * option nat)).

Definition source (e : DbError) : SourceError := SourceSqlx (driver_error e).
Definition batch_source (e : DbError) : SourceError * option nat := (source e, None).
Definition at_item (index : nat) (e : SourceError) : SourceError * option nat := (e, Some index).

Definition run_stmt {A} (q : Stmt A) f now : Sq A :=
  map_err source (_ ← sqlx_point;
    sm_of (λ s, match q f now (tables s) with
                | Ok (a, db) => (Ok a, mkSt db (world s))
                | Err e => (Err e, s)
                | Panic => (Panic, s)
                end)).
(** A row that does not read as the entity fails after its statement has run. *)
Definition decode r : Sq E := match from_row r with inr e => mret e | inl m => sm_err (source m) end.
Definition decode_all (rows : list Row) : Sq (list E) := mapM decode rows.
Definition decode_first (rows : list Row) : Sq (option E) :=
  match rows with [] => mret None | r :: _ => e ← decode r; mret (Some e) end.
Definition fetch_all tk (q : Stmt (list Row)) : Sq (list E) :=
  scoped source tk (λ f now, rows ← run_stmt q f now; decode_all rows).
Definition fetch_optional tk (q : Stmt (list Row)) : Sq (option E) :=
  scoped source tk (λ f now, rows ← run_stmt q f now; decode_first rows).
Definition fetch_one_row (rows : list Row) : Sq E :=
  match rows with [] => sm_err (SourceSqlx RowNotFound) | r :: _ => decode r end.
Definition fetch_scalar {A} tk (q : Stmt A) : Sq A := scoped source tk (run_stmt q).

(** *** Statements of an entity *)
Definition serialized_or (not_object : string) e : res SourceError (list (string * Value)) :=
  match entity_value e with
  | inl m => Err (SourceOther m)
  | inr (VObject m) => Ok m
  | inr _ => Err (SourceOther not_object)
  end.
Definition serialized e : res SourceError (list (string * Value)) := serialized_or "Entity must serialize to a JSON object" e.
(** The batches say it in lower case. *)
Definition serialized_item e : res SourceError (list (string * Value)) := serialized_or "entity must serialize to a JSON object" e.
(** [None] is [DEFAULT VALUES]. *)
Definition insert_statement e : res SourceError (option (string * list (string * Value))) :=
  m ← serialized e;
  Ok (match m with [] => None | _ => Some (column_list (map fst m), m) end).
Definition insert_meaning (st : option (string * list (string * Value))) : Stmt (list Row) :=
  match st with
  | None => insert_row table_name [] []
  | Some (columns, json) => with_columns columns (λ columns, insert_row table_name columns json)
  end.
Definition update_statement e (only : option (list string)) : res SourceError UpdateStatement :=
  m ← serialized e;
  let columns := List.filter (λ k, negb (bool_decide (k = "id")) &&
                                   match only with Some cols => existsb (λ c, bool_decide (c = k)) cols | None => true end)
                   (map fst m) in
  Ok (match columns with [] => Unchanged | _ => UpdateColumns (column_list columns) m end).
(** The row of that id, while the guard of the mode holds. *)
Definition live r : bool := match mode with SoftDelete => is_active r | HardDelete => true end.
Definition on_id {A} id (k : (Row → bool) → Stmt A) : Stmt A := λ f now db,
  p ← on_table db table_name (λ _, by_id id); k p f now db.
Definition on_ids {A} ids (k : (Row → bool) → Stmt A) : Stmt A := λ f now db,
  p ← on_table db table_name (λ _, by_ids ids); k p f now db.
Definition update_meaning (st : UpdateStatement) id : Stmt (list Row) := on_id id (λ p,
  match st with
  | Unchanged => select table_name (λ r, p r && live r)
  | UpdateColumns columns json => with_columns columns (λ columns, set_columns table_name columns json (λ r, p r && live r))
  end).
Definition changed_columns before after : res SourceError (list string) :=
  b ← serialized before;
  a ← serialized after;
  Ok (map fst (List.filter (λ kv, negb (bool_decide (kv.1 = "id")) && negb (opt_value_eqb (map_get kv.1 b) (Some kv.2))) a)).

(** *** One row *)
(** What [explain_unknown_column] says around the database's refusal is dropped again by [from_source], which reads the
    [sqlx::Error] inside. *)
Definition pg_create tk e : Sq E :=
  st ← sm_lift (insert_statement e);
  scoped source tk (λ f now, rows ← run_stmt (insert_meaning st) f now; fetch_one_row rows).
Definition update_guarded tk id e (only : option (list string)) : Sq (option E) :=
  st ← sm_lift (update_statement e only);
  fetch_optional tk (update_meaning st id).
Definition pg_update tk id e : Sq (option E) := update_guarded tk id e None.
Definition pg_update_changed tk id before after : Sq (option E) :=
  changed ← sm_lift (changed_columns before after);
  update_guarded tk id after (Some changed).
Definition pg_find_by_id tk id : Sq (option E) :=
  fetch_optional tk (on_id id (λ p, select table_name (λ r, p r && live r))).
Definition find_all tk : Sq (list E) := fetch_all tk (select table_name live).
Definition exists_row tk id : Sq bool :=
  rows ← fetch_scalar tk (on_id id (λ p, select table_name (λ r, p r && live r)));
  mret (negb (bool_decide (rows = []))).
(** [SELECT COUNT( * )], as [u64] *)
Definition count_where tk (p : Row → bool) : Sq Z :=
  rows ← fetch_scalar tk (select table_name p); mret (Z.of_nat (length rows)).
Definition pg_count tk : Sq Z := count_where tk live.
(** [UPDATE] and [DELETE], by how many rows they changed. *)
Definition hard_delete_row tk id (p : Row → bool) : Sq bool :=
  n ← fetch_scalar tk (on_id id (λ q, delete_rows table_name (λ r, q r && p r))); mret (0 <? n).
Definition delete_by_id tk id : Sq bool := hard_delete_row tk id (λ _, true).

(** Lookups by a column that is unique, its name the generated code's. *)
Definition with_column {A} (column : string) (q : Stmt A) : Stmt A := λ f now db,
  _ ← on_table db table_name (λ _, named_columns db table_name [column]); q f now db.
Definition find_by_field_with_cond tk (field : string) (v : Value) : Sq (option E) :=
  fetch_optional tk (with_column field (select table_name
    (λ r, from_option (pg_same_value table_name field v) false (r !! field) && live r))).
Definition exists_by_field_with_cond tk (field : string) (v : Value) : Sq bool :=
  rows ← fetch_scalar tk (with_column field (select table_name
    (λ r, from_option (pg_same_value table_name field v) false (r !! field) && live r)));
  mret (negb (bool_decide (rows = []))).

(** *** Pages *)
Definition by_key (a b : Row) : Prop := (row_uuid a ≤ row_uuid b)%N.
#[local] Instance by_key_dec : RelDecision by_key := λ a b, decide (row_uuid a ≤ row_uuid b)%N.
(** Most recently deleted first, by the text of the mark. *)
Definition trash_order (a b : Row) : Prop :=
  let ta := default "" (deleted_text a) in let tb := default "" (deleted_text b) in
  if bool_decide (ta = tb) then by_key a b else pg_text_le tb ta = true.
#[local] Instance trash_order_dec : RelDecision trash_order.
Proof. intros a b. unfold trash_order. destruct (bool_decide _); apply _. Defined.
Definition page_stmt (order : relation Row) `{!RelDecision order} (p : Row → bool) (pg : PaginationParams) : Stmt (list Row) :=
  λ f now db,
    '(rows, db) ← select table_name p f now db;
    Ok (take (Z.to_nat (pagination_limit pg)) (drop (Z.to_nat (pagination_offset pg)) (merge_sort order rows)), db).
Definition paged tk (order : relation Row) `{!RelDecision order} (p : Row → bool) (pg : PaginationParams) :
    Sq (PaginatedResult E) :=
  rows ← fetch_all tk (page_stmt order p pg);
  total ← count_where tk p;
  mret (mkResult rows (pagination_info_new (pg_page pg) (pg_per_page pg) total)).
Definition list_paginated tk (pg : PaginationParams) : Sq (PaginatedResult E) := paged tk by_key live pg.
Definition pg_list_deleted tk (pg : PaginationParams) : Sq (PaginatedResult E) := paged tk trash_order is_trashed pg.

(** *** The trash *)
Definition pg_soft_delete tk id : Sq bool :=
  rows ← fetch_scalar tk (on_id id (λ p, update_rows table_name (λ r, p r && is_active r) stamp_deleted));
  mret (negb (bool_decide (rows = []))).
Definition pg_restore tk id : Sq (option E) :=
  fetch_optional tk (on_id id (λ p, update_rows table_name (λ r, p r && is_trashed r) clear_deleted)).
Definition pg_empty_trash tk : Sq Z := fetch_scalar tk (delete_rows table_name is_trashed).
Definition find_deleted_by_id tk id : Sq (option E) :=
  fetch_optional tk (on_id id (λ p, select table_name (λ r, p r && is_trashed r))).
Definition pg_permanent_delete tk id : Sq bool := hard_delete_row tk id is_trashed.
Definition pg_count_deleted tk : Sq Z := count_where tk is_trashed.
Definition pg_restore_all tk : Sq (list E) := fetch_all tk (update_rows table_name is_trashed clear_deleted).

(** *** Batches *)
Definition batch_short (name why : string) (n m : nat) : SourceError :=
  SourceOther (name +:+ ": " +:+ pretty (n - m)%nat +:+ " of " +:+ pretty n +:+ " ids " +:+ why +:+ "; rolled back").
Definition counted_batch tk ids (name why : string) (q : (Row → bool) → Stmt Z) : Sq Z :=
  match ids with
  | [] => mret 0
  | _ =>
      in_unit source tk (λ f now,
        affected ← run_stmt (on_ids ids q) f now;
        if negb (affected =? Z.of_nat (length ids)) then sm_err (batch_short name why (length ids) (Z.to_nat affected))
        else mret affected)
  end.
Definition pg_bulk_soft_delete tk ids : Sq Z :=
  counted_batch tk ids "bulk_soft_delete" "were not active/deletable" (λ p f now db,
    '(rows, db) ← update_rows table_name (λ r, p r && is_active r) stamp_deleted f now db;
    Ok (Z.of_nat (length rows), db)).
Definition bulk_permanent_delete tk ids : Sq Z :=
  counted_batch tk ids "bulk_permanent_delete" "were not in trash" (λ p, delete_rows table_name (λ r, p r && is_trashed r)).
Definition bulk_delete tk ids : Sq Z :=
  counted_batch tk ids "bulk_delete" "not found" (λ p, delete_rows table_name p).
Definition pg_bulk_restore tk ids : Sq (list E) :=
  match ids with
  | [] => mret []
  | _ =>
      in_unit source tk (λ f now,
        rows ← run_stmt (on_ids ids (λ p, update_rows table_name (λ r, p r && is_trashed r) clear_deleted)) f now;
        entities ← decode_all rows;
        if negb (bool_decide (length entities = length ids)) then
          sm_err (batch_short "bulk_restore" "were not in trash" (length ids) (length entities))
        else mret entities)
  end.

Fixpoint insert_each f now (index : nat) (entities : list E) : Bq (list E) :=
  match entities with
  | [] => mret []
  | e :: entities =>
      st ← sm_lift (res_map_err (at_item index) (insert_statement e));
      saved ← map_err (at_item index) (rows ← run_stmt (insert_meaning st) f now; fetch_one_row rows);
      rest ← insert_each f now (S index) entities;
      mret (saved :: rest)
  end.
Definition pg_bulk_create tk (entities : list E) : Bq (list E) :=
  match entities with
  | [] => mret []
  | _ => in_unit batch_source tk (λ f now, insert_each f now 0 entities)
  end.

Definition entity_text_id (m : list (string * Value)) : res SourceError string :=
  match map_get "id" m with Some (VString id) => Ok id | _ => Err (SourceOther "entity missing string 'id' field") end.
(** One pair of a batch: a changed-columns update under the guard. *)
Definition update_pair f now before after : Sq E :=
  m ← sm_lift (serialized_item after);
  id ← sm_lift (entity_text_id m);
  changed ← sm_lift (changed_columns before after);
  st ← sm_lift (update_statement after (Some changed));
  rows ← run_stmt (update_meaning st id) f now;
  saved ← decode_first rows;
  match saved with
  | Some e => mret e
  | None => sm_err (SourceOther ("id '" +:+ id +:+ "' not found or already deleted"))
  end.
Fixpoint update_each_changed f now (index : nat) (pairs : list (E * E)) : Bq (list E) :=
  match pairs with
  | [] => mret []
  | (before, after) :: pairs =>
      saved ← map_err (at_item index) (update_pair f now before after);
      rest ← update_each_changed f now (S index) pairs;
      mret (saved :: rest)
  end.
Definition pg_bulk_update_changed tk (pairs : list (E * E)) : Bq (list E) :=
  match pairs with
  | [] => mret []
  | _ => in_unit batch_source tk (λ f now, update_each_changed f now 0 pairs)
  end.

(** [build_update_parts]: the id, the record, and every other column, its name not escaped. *)
Definition build_update_parts e : res SourceError (string * list (string * Value) * string) :=
  m ← serialized_item e;
  id ← entity_text_id m;
  Ok (id, m, plain_column_list (List.filter (λ k, negb (bool_decide (k = "id"))) (map fst m))).
Definition update_whole f now e : Sq E :=
  '(id, json, columns) ← sm_lift (build_update_parts e);
  rows ← run_stmt (on_id id (λ p,
    with_columns columns (λ columns, set_columns table_name columns json (λ r, p r && live r)))) f now;
  saved ← decode_first rows;
  match saved with
  | Some e => mret e
  | None => sm_err (SourceOther ("bulk_update: id '" +:+ id +:+ "' not found or already deleted; rolled back"))
  end.
Definition bulk_update_rows tk (entities : list E) : Sq (list E) :=
  match entities with
  | [] => mret []
  | _ => in_unit source tk (λ f now, mapM (update_whole f now) entities)
  end.
End repository.

(** ** Lists and aggregates *)

(** What a row of a grouped query holds: a column as text, as an integer; [None] where it cannot be read. *)
Class GroupedRow (G : Type) := { g_text : G → string → option (option string); g_int : G → string → option Z }.

Section aggregates.
Implicit Types (name : string) (columns : gmap string string).
Definition fn_sql (func : AggregateFn) : string := match func with Sum => "SUM" | Avg => "AVG" | Min => "MIN" | Max => "MAX" end.
Definition fn_label (func : AggregateFn) : string := match func with Sum => "sum" | Avg => "avg" | Min => "min" | Max => "max" end.
Definition requires_numeric (func : AggregateFn) : bool := match func with Sum | Avg => true | Min | Max => false end.
Definition DEFAULT_GROUP_LIMIT : Z := 200.
Definition NUMERIC_PG_TYPES : list string :=
  ["numeric"; "decimal"; "money"; "smallint"; "int2"; "integer"; "int"; "int4"; "bigint"; "int8"; "real"; "float4";
   "double precision"; "float8"; "smallserial"; "serial"; "bigserial"].
Definition is_numeric_pg_type (pg_type : string) : bool :=
  bool_decide (trim (first_piece "(" (to_ascii_lowercase (trim pg_type))) ∈ NUMERIC_PG_TYPES).
(** The map's own key, and its type. *)
Definition resolve_column columns name : option (string * string) := t ← columns !! name; Some (name, t).
Definition not_numeric (func : AggregateFn) (field : string) : QueryParamError :=
  mkParamError (fn_label func) NotNumeric
    ("`" +:+ fn_label func +:+ "`: `" +:+ field +:+ "` is not a numeric field, and " +:+ fn_label func +:+ " needs one").
(** One reduction: its SELECT item and the key of its values. *)
Definition reduction columns (fc : AggregateFn * string) : res SourceError (string * string) :=
  match resolve_column columns fc.2 with
  | None => Err (SourceRefused (unknown_column (fn_label fc.1) fc.2))
  | Some (column, pg_type) =>
      if requires_numeric fc.1 && negb (is_numeric_pg_type pg_type) then Err (SourceRefused (not_numeric fc.1 fc.2))
      else
        let key := fn_label fc.1 +:+ ":" +:+ column in
        Ok (fn_sql fc.1 +:+ "(" +:+ column +:+ ")::text AS " +:+ in_quotes key, key)
  end.
Definition group_label_refusal (field : string) : QueryParamError :=
  mkParamError "group_label" UnknownColumn
    ("`group_label`: `" +:+ field +:+ "` is not a field of the records the groups point at").
(** [catalog_columns], which splits the table's name at its first dot. *)
Definition schema_of_table (qualified : string) : string * string :=
  match split_once "." qualified with Some st => st | None => ("public", qualified) end.
(** The label's item and its join. *)
Definition label_parts (rel_columns : gmap string string) (label_field qualified base_fk : string) : res SourceError (string * string) :=
  match resolve_column rel_columns label_field with
  | None => Err (SourceRefused (group_label_refusal label_field))
  | Some (label_col, _) =>
      Ok (", (label_rel." +:+ label_col +:+ ")::text AS __group_label",
          " LEFT JOIN " +:+ qualified +:+ " AS label_rel ON label_rel.id IS NOT DISTINCT FROM " +:+ base_fk)
  end.
Definition grouped_sql (table column label_select label_join reductions where_clause : string) (limit : Z) : string :=
  "SELECT GROUPING(" +:+ column +:+ ") AS __is_total, (" +:+ column +:+ ")::text AS __group_key" +:+ label_select +:+
  ", COUNT(*) AS __count" +:+ reductions +:+ " FROM " +:+ table +:+ label_join +:+ where_clause +:+
  " GROUP BY GROUPING SETS ((" +:+ column +:+ "), ()) ORDER BY __is_total DESC, __count DESC, __group_key LIMIT " +:+
  pretty limit.
Definition total_sql (table reductions where_clause : string) : string :=
  "SELECT 1 AS __is_total, NULL::text AS __group_key, COUNT(*) AS __count" +:+ reductions +:+ " FROM " +:+ table +:+ where_clause.

Context {G : Type} {GR : GroupedRow G}.
Definition read_group (value_keys : list string) (row : G) : AggregateGroup :=
  mkGroup (mjoin (g_text row "__group_key")) (mjoin (g_text row "__group_label")) (Z.max (default 0 (g_int row "__count")) 0)
    (foldl (λ m key, <[key := mjoin (g_text row key)]> m) ∅ value_keys).
Definition is_total_row (row : G) : bool := default 0 (g_int row "__is_total") =? 1.
Definition empty_total (value_keys : list string) : AggregateGroup :=
  mkGroup None None 0 (foldl (λ m key, <[key := None]> m) ∅ value_keys).
(** The rows, read: the last total row, and the groups up to the limit. *)
Definition aggregate_of_rows (value_keys : list string) (group_limit : Z) (rows : list G) : AggregateResult :=
  let groups := map (read_group value_keys) (List.filter (λ row, negb (is_total_row row)) rows) in
  mkAggregate (take (Z.to_nat group_limit) groups)
    (default (empty_total value_keys) (read_group value_keys <$> last (List.filter is_total_row rows)))
    (group_limit <? Z.of_nat (length groups)).
End aggregates.

Section lists.
Context {U : Unicode} {L : Libs} {CJ : CursorJson} {PG : Postgres} {W : Type} {HW : World W} {E : Type} {PE : PersistentEntity E}.
Context {G : Type} {GR : GroupedRow G}.
Variables (driver_error : DbError → SqlxError) (from_row : Row → string + E) (table_name : string) (mode : DeleteMode).
Variables (meta : EntityRepoMeta) (overflow_checks : bool).
(** What the session of a fence answers the statements of a list and of an aggregate. *)
Variable pg_list : Fence → instant → Db → ListDb Row E.
Variable pg_grouped : Fence → instant → Db → string → list string → res DbError (list G).
Implicit Types (tk : Task) (pg : PaginationParams) (base : option string) (filters : list (string * string)) (company : option uuid).
#[local] Abbreviation Sq := (sm (St Db W) SourceError).
#[local] Abbreviation source := (source driver_error).

Definition list_source (e : ListError) : SourceError :=
  match e with Refused r => SourceRefused r | DbFailed m => source m | DecodeFailed m => SourceOther m end.
(** [name_refused_parameter]: the catalog is read, off the request's connection, for an operator alone. *)
Definition name_refused_parameter (err : SourceError) filters : Sq SourceError :=
  let err := attribute_query_error err filters in
  match undefined_operator err with
  | None => mret err
  | Some _ =>
      let '(schema, table) := schema_of_table table_name in
      types ← attempt (query (λ db, pg_information_schema db schema table));
      mret (attribute_operator_error err filters
              (list_to_map (reverse (match types with inr types => types | inl _ => [] end))))
  end.
Definition named_refusal {A} filters (v : Sq A) : Sq A :=
  r ← attempt v;
  match r with
  | inr a => mret a
  | inl e => e ← name_refused_parameter e filters; sm_err e
  end.

Definition run_filtered_query tk pg base filters : Sq (PaginatedResult E) :=
  named_refusal filters (scoped source tk (λ f now,
    _ ← map_err source sqlx_point;
    sm_of (λ s, (res_map_err list_source
      (list_with_filters_and_base (DB:=pg_list f now (tables s)) table_name pg base filters (column_types meta) (search_columns_of meta)), s)))).

Definition mode_base : option string := match mode with SoftDelete => Some ACTIVE_ROWS | HardDelete => None end.
Definition list_paginated_filtered tk pg filters : Sq (PaginatedResult E) := run_filtered_query tk pg mode_base filters.
Definition pg_list_deleted_filtered tk pg filters : Sq (PaginatedResult E) := run_filtered_query tk pg (Some DELETED_ROWS) filters.
(** The lists fenced by the company. *)
Definition fenced_list (rows : string) tk pg filters company : Sq (PaginatedResult E) :=
  fence ← sm_lift (company_fence meta company);
  run_filtered_query tk pg (and_conditions (Some rows) fence) (strip_client_company_filters meta filters).
Definition list_paginated_filtered_scoped tk pg filters company := fenced_list ACTIVE_ROWS tk pg filters company.
Definition list_deleted_filtered_scoped tk pg filters company := fenced_list DELETED_ROWS tk pg filters company.

(** The relation behind a group's column: its table, and the column on this side. *)
Definition label_relation (spec : AggregateSpec) : option (string * string) :=
  match Http.group_by spec, Http.label_field spec with
  | Some group, Some _ =>
      let camel := column_camel group in
      '(_, table, _) ← List.find (λ rel : string * string * string, bool_decide (rel.2 = camel)) (relations meta);
      Some (table, column_snake camel)
  | _, _ => None
  end.
Definition group_limit_of (spec : AggregateSpec) : Z :=
  if Http.group_limit spec =? 0 then DEFAULT_GROUP_LIMIT else Http.group_limit spec.
(** [group_limit + 2], a [usize] *)
Definition fetch_limit (group_limit : Z) : res SourceError Z :=
  if group_limit + 2 <=? u64_max then Ok (group_limit + 2)
  else if overflow_checks then Panic else Ok ((group_limit + 2) mod (u64_max + 1)).
Definition catalog (db : Db) (table : string) : gmap string string :=
  let '(schema, table) := schema_of_table table in list_to_map (reverse (pg_information_schema db schema table)).

(** The statement of an aggregate, its parameters, and the keys of its values. *)
Definition aggregate_statement (db : Db) (spec : AggregateSpec) (q : QueryFilter) : res SourceError (string * list string * list string) :=
  let '(where_clause, params) := build_where_clause q in
  let columns := catalog db table_name in
  items ← mapM (reduction columns) (Http.reductions spec);
  let reductions := match items with [] => "" | _ => ", " +:+ str_join ", " (map fst items) end in
  '(label_select, label_join) ←
    match Http.group_by spec, Http.label_field spec, label_relation spec with
    | Some _, Some label_field, Some (rel_table, base_fk) =>
        let qualified := qualify_relation_table table_name rel_table in
        label_parts (catalog db qualified) label_field qualified base_fk
    | _, _, _ => Ok ("", "")
    end;
  sql ← match Http.group_by spec with
        | Some field =>
            match resolve_column columns field with
            | None => Err (SourceRefused (unknown_column "group_by" field))
            | Some (column, _) =>
                limit ← fetch_limit (group_limit_of spec);
                Ok (grouped_sql table_name column label_select label_join reductions where_clause limit)
            end
        | None => Ok (total_sql table_name reductions where_clause)
        end;
  Ok (sql, params, map snd items).
Definition aggregate_unattributed tk (spec : AggregateSpec) base filters : Sq AggregateResult :=
  scoped source tk (λ f now,
    _ ← map_err source sqlx_point;
    sm_of (λ s,
      (q ← res_map_err list_source (parse_typed_filters (DB:=pg_list f now (tables s)) table_name filters (column_types meta) None);
       '(sql, params, keys) ← aggregate_statement (tables s) spec (set_paging (list_filter base (search_columns_of meta) q) None None (page q));
       rows ← res_map_err source (pg_grouped f now (tables s) sql params);
       Ok (aggregate_of_rows keys (group_limit_of spec) rows), s))).
Definition aggregate_filtered tk (spec : AggregateSpec) filters : Sq AggregateResult :=
  named_refusal filters (aggregate_unattributed tk spec mode_base filters).

(** ** Rows of other tables *)
Definition is_undefined_table (err : SourceError) : bool :=
  match refused_by_database err with Some (code, _) => bool_decide (code = "42P01") | None => false end.
(** [WHERE t.id = ANY($1::uuid[])], each row as JSON. *)
Definition fetch_rows_as_json tk (table : string) (ids : list string) : Sq (list Value) :=
  scoped source tk (run_stmt driver_error (λ f now db,
    p ← on_table db table (λ _, by_ids ids);
    '(rows, db) ← select table p f now db;
    Ok (map (λ r, VObject (map_collect (map_to_list r))) rows, db))).
Definition fetch_by_ids_as_json tk (caller_table table : string) (ids : list string) : Sq (list Value) :=
  match ids with
  | [] => mret []
  | _ =>
      let qualified := qualify_relation_table caller_table table in
      r ← attempt (fetch_rows_as_json tk qualified ids);
      match r with
      | inr rows => mret rows
      | inl err =>
          if negb (bool_decide (qualified = table)) && is_undefined_table err then fetch_rows_as_json tk table ids
          else sm_err err
      end
  end.
(** [within_savepoint] *)
Definition within_savepoint {A} tk (v : Sq A) : Sq A :=
  match task_tx tk with Some _ => run_unit source false v | None => v end.
(** [SELECT EXISTS (.. WHERE t.column = (jsonb_populate_record(..)).column)] *)
Definition row_visible tk (table column : string) (v : Value) : Sq bool :=
  within_savepoint tk (scoped source tk (run_stmt driver_error (λ f now db,
    _ ← on_table db table (λ _, named_columns db table [column]);
    probe ← populate db table [(column, v)];
    '(rows, db) ← select table (λ r, match r !! column, probe !! column with
                                     | Some a, Some b => pg_same_value table column a b
                                     | _, _ => false
                                     end) f now db;
    Ok (negb (bool_decide (length rows = 0%nat)), db)))).
Definition plain_name (dot : bool) (s : string) : bool :=
  negb (bool_decide (s = "")) && str_forallb (λ c, is_ident_char c || (dot && Ascii.eqb c ".")) s.
Definition not_plain (table column : string) : SourceError :=
  SourceOther ("reference target `" +:+ table +:+ "`.`" +:+ column +:+ "` is not a plain identifier").
Definition pg_reference_visible tk (caller_table table column : string) (v : Value) : Sq (option bool) :=
  if negb (plain_name true table) || negb (plain_name false column) then sm_err (not_plain table column)
  else
    let qualified := qualify_relation_table caller_table table in
    r ← attempt (row_visible tk qualified column v);
    match r with
    | inr seen => mret (Some seen)
    | inl err =>
        if negb (is_undefined_table err) then sm_err err
        else if bool_decide (qualified = table) then mret None
        else
          r ← attempt (row_visible tk table column v);
          match r with
          | inr seen => mret (Some seen)
          | inl err => if is_undefined_table err then mret None else sm_err err
          end
    end.
End lists.

(** ** The repository of [impl_crud_repository] *)
Section instance.
Context {U : Unicode} {L : Libs} {CJ : CursorJson} {PG : Postgres} {W : Type} {HW : World W} {E : Type} {PE : PersistentEntity E}.
Context {G : Type} {GR : GroupedRow G}.
Variables (driver_error : DbError → SqlxError) (from_row : Row → string + E) (table_name : string) (mode : DeleteMode).
Variables (meta : EntityRepoMeta) (overflow_checks : bool).
Variable pg_list : Fence → instant → Db → ListDb Row E.
Variable pg_grouped : Fence → instant → Db → string → list string → res DbError (list G).
Implicit Types (rq : Request) (e before after : E) (id : string).
#[local] Abbreviation Sq := (sm (St Db W) SourceError).
#[local] Abbreviation Mq := (sm (St Db W) RepositoryError).

Definition of_source {A} (v : Sq A) : Mq A := map_err from_source v.
Definition of_batch {A} (v : sm (St Db W) (SourceError * option nat) A) : Mq A := map_err (λ err : SourceError * option nat, from_batch_source err.1 err.2) v.
Definition rows_and_total (r : PaginatedResult E) : list E * Z := (data r, total (pagination r)).
Definition or_not_found (found : option E) : Mq E := match found with Some e => mret e | None => sm_err RNotFound end.

#[export] Instance GenericCrudRepository : CrudRepository E Db W := {|
  repo_create rq e := of_source (pg_create driver_error from_row table_name (rq_task rq) e);
  repo_find_by_id rq id := of_source (pg_find_by_id driver_error from_row table_name mode (rq_task rq) id);
  repo_find_by_id_including_deleted rq id :=
    of_source (match mode with
               | SoftDelete => find_deleted_by_id driver_error from_row table_name (rq_task rq) id
               | HardDelete => pg_find_by_id driver_error from_row table_name mode (rq_task rq) id
               end);
  repo_update rq e :=
    saved ← of_source (pg_update driver_error from_row table_name mode (rq_task rq) (entity_id e) e); or_not_found saved;
  repo_update_changed rq before after :=
    of_source (pg_update_changed driver_error from_row table_name mode (rq_task rq) (entity_id after) before after);
  repo_soft_delete rq id :=
    of_source (match mode with
               | SoftDelete => pg_soft_delete driver_error table_name (rq_task rq) id
               | HardDelete => delete_by_id driver_error table_name (rq_task rq) id
               end);
  repo_restore rq id :=
    of_source (match mode with
               | SoftDelete => pg_restore driver_error from_row table_name (rq_task rq) id
               | HardDelete => pg_find_by_id driver_error from_row table_name mode (rq_task rq) id
               end);
  repo_hard_delete rq id :=
    of_source (match mode with
               | SoftDelete => pg_permanent_delete driver_error table_name (rq_task rq) id
               | HardDelete => delete_by_id driver_error table_name (rq_task rq) id
               end);
  repo_list_filtered rq page limit filters :=
    r ← of_source (list_paginated_filtered driver_error table_name mode meta pg_list (rq_task rq) (pagination_new page limit) filters);
    mret (rows_and_total r);
  repo_list_deleted rq page limit :=
    match mode with
    | SoftDelete =>
        r ← of_source (pg_list_deleted driver_error from_row table_name (rq_task rq) (pagination_new page limit));
        mret (rows_and_total r)
    | HardDelete => mret ([], 0)
    end;
  repo_list_deleted_filtered rq page limit filters :=
    match mode with
    | SoftDelete =>
        r ← of_source (pg_list_deleted_filtered driver_error table_name meta pg_list (rq_task rq) (pagination_new page limit) filters);
        mret (rows_and_total r)
    | HardDelete => mret ([], 0)
    end;
  repo_count rq := of_source (pg_count driver_error table_name mode (rq_task rq));
  repo_count_deleted rq :=
    match mode with SoftDelete => of_source (pg_count_deleted driver_error table_name (rq_task rq)) | HardDelete => mret 0 end;
  repo_bulk_create rq entities := of_batch (pg_bulk_create driver_error from_row table_name (rq_task rq) entities);
  repo_bulk_soft_delete rq ids :=
    of_source (match mode with
               | SoftDelete => pg_bulk_soft_delete driver_error table_name (rq_task rq) ids
               | HardDelete => bulk_delete driver_error table_name (rq_task rq) ids
               end);
  repo_bulk_restore rq ids :=
    match mode with
    | SoftDelete => of_source (pg_bulk_restore driver_error from_row table_name (rq_task rq) ids)
    | HardDelete => mret []
    end;
  repo_bulk_hard_delete rq ids :=
    of_source (match mode with
               | SoftDelete => bulk_permanent_delete driver_error table_name (rq_task rq) ids
               | HardDelete => bulk_delete driver_error table_name (rq_task rq) ids
               end);
  repo_bulk_update_changed rq pairs := of_batch (pg_bulk_update_changed driver_error from_row table_name mode (rq_task rq) pairs);
  repo_reference_visible rq table column v :=
    of_source (pg_reference_visible driver_error (rq_task rq) table_name table column v);
  repo_write_pool := true;
|}.
#[export] Instance GenericListRepository : ListRepository E Db W := {|
  repo_table_name := Some table_name;
  repo_list_filtered_with_info rq page limit filters :=
    r ← of_source (list_paginated_filtered driver_error table_name mode meta pg_list (rq_task rq) (pagination_new page limit) filters);
    mret (data r, pagination r);
  repo_aggregate_filtered rq spec filters :=
    of_source (aggregate_filtered driver_error table_name mode meta overflow_checks pg_list pg_grouped (rq_task rq) spec filters);
  repo_fetch_related_json rq table ids :=
    r ← attempt (fetch_by_ids_as_json driver_error (rq_task rq) table_name table ids);
    mret (match r with inr rows => rows | inl _ => [] end);
|}.
End instance.
