(* ===== verification/PgRepositoryFacts.v ===== *)
(** * What the generic repository over Postgres does

    Quoted names read back; every operation stays behind the fence of its session; a batch is done whole or not
    at all; an update writes the changed columns of one row; what an aggregate answers. Last, a service over
    the repository that runs. *)
From Stdlib Require Import ZArith Lia Ascii.
From stdpp Require Import gmap sorting pretty.
From S2P Require Import Prelude Float64 RustStr RustChar Json WorkflowExpr Database WriteHooks Filter FilterParser RepositoryErrors Cursor ListQuery CrudWrite CrudService Http HttpHandlers PgRepository.

Local Open Scope Z_scope.

(** What it takes for a chain of results to be [Ok]. *)
Ltac ok_inv H :=
  repeat (unfold mbind, res_bind in H; cbv beta in H;
    match type of H with
    | match ?x with Ok _ => _ | Err _ => _ | Panic => _ end = _ => let E := fresh "E" in destruct x eqn:E; [|discriminate H..]
    end).

(** ** Names *)

Definition no_quote_first (s : string) : Prop := match s with String c _ => c ≠ double_quote | EmptyString => True end.
Lemma read_ident_quoted name rest :
  no_quote_first rest → read_ident (double_quotes name +:+ String double_quote rest) = Some (name, rest).
Proof.
  intros Hr. induction name as [|c name IH].
  - change (read_ident (String double_quote rest) = Some ("", rest)). cbn [read_ident]. rewrite Ascii.eqb_refl. destruct rest as [|d rest]; [done|].
    cbn [no_quote_first] in Hr. by apply Ascii.eqb_neq in Hr as ->.
  - cbn [double_quotes]. destruct (Ascii.eqb_spec c double_quote) as [->|Hc].
    + rewrite !str_app_cons. cbn [read_ident]. rewrite !Ascii.eqb_refl. by rewrite IH.
    + rewrite str_app_cons. cbn [read_ident]. apply Ascii.eqb_neq in Hc as ->. by rewrite IH.
Qed.

Lemma read_quoted name rest :
  no_quote_first rest →
  (body ← strip_first double_quote (quote_ident name +:+ rest); read_ident body) = Some (name, rest).
Proof.
  intros Hr. unfold quote_ident, in_quotes. rewrite str_app_cons. cbn [strip_first]. rewrite Ascii.eqb_refl.
  cbn [mbind option_bind]. rewrite str_app_assoc. by apply read_ident_quoted.
Qed.

Lemma read_column_list_quoted names fuel :
  names ≠ [] → Forall (λ n, n ≠ "") names → (length names ≤ fuel)%nat →
  read_column_list fuel (column_list names) = Some names.
Proof.
  intros Hne Hn. revert fuel. unfold column_list. induction names as [|n names IH]; [done|]. intros [|fuel] Hf; [simpl in Hf; lia|].
  apply Forall_cons in Hn as [Hn Hns]. cbn [map]. destruct names as [|m names].
  - cbn [str_join map read_column_list]. rewrite <- (str_app_nil_r (quote_ident n)), read_quoted by done.
    cbn [mbind option_bind]. by rewrite bool_decide_eq_false_2.
  - set (l := m :: names) in *. assert (str_join ", " (quote_ident n :: map quote_ident l) =
      quote_ident n +:+ ", " +:+ str_join ", " (map quote_ident l)) as -> by done.
    cbn [read_column_list]. rewrite read_quoted by done. cbn [mbind option_bind].
    rewrite bool_decide_eq_false_2 by done. set (t := str_join _ _) in *.
    change (", " +:+ t) with (String "," (String " " t)). cbn -[read_column_list].
    rewrite IH; [done|done|done|]. unfold l in *. simpl in *. lia.
Qed.

Lemma column_list_length names : names ≠ [] → (length names ≤ String.length (column_list names))%nat.
Proof.
  unfold column_list. induction names as [|n names IH]; [done|]. intros _. destruct names as [|m names].
  - simpl. lia.
  - set (l := m :: names) in *. assert (str_join ", " (map quote_ident (n :: l)) =
      quote_ident n +:+ ", " +:+ str_join ", " (map quote_ident l)) as -> by done.
    assert (∀ a b, String.length (a +:+ b) = (String.length a + String.length b)%nat) as Happ.
    { intros a b. induction a as [|c a IHa]; [done|]. rewrite str_app_cons. simpl. by rewrite IHa. }
    rewrite !Happ. specialize (IH ltac:(done)). change (String.length ", ") with 2%nat. change (length (n :: l)) with (S (length l)). clearbody l. lia.
Qed.

(** A list of quoted names reads back as the names, whatever characters they hold. *)
Lemma column_list_reads names :
  names ≠ [] → Forall (λ n, n ≠ "") names → read_columns (column_list names) = Some names.
Proof. intros Hne Hn. apply read_column_list_quoted; [done..|]. by apply column_list_length. Qed.

(** The names that are not escaped read back where none holds a quote. *)
Lemma plain_column_list_eq names : Forall (λ n, lacks double_quote n = true) names → plain_column_list names = column_list names.
Proof.
  intros Hn. unfold plain_column_list, column_list. f_equal. apply map_ext_in. intros n Hin%list_elem_of_In.
  rewrite Forall_forall in Hn. specialize (Hn _ Hin). unfold quote_ident. f_equal. clear Hin.
  induction n as [|c n IH]; [done|]. cbn [lacks str_forallb double_quotes] in *. apply andb_prop in Hn as [Hc Hn].
  rewrite <- IH by exact Hn. rewrite Ascii.eqb_sym in Hc. by destruct (Ascii.eqb c double_quote).
Qed.

(** ** Statements *)

Section statements.
Context {L : Libs} {PG : Postgres}.
Implicit Types (r : Row) (rows : list Row) (table id : string) (f : Fence) (now : instant) (db : Db).

Lemma mapM_Ok {Er A B} (g : A → res Er B) (l : list A) k : mapM g l = Ok k → Forall2 (λ x y, g x = Ok y) l k.
Proof.
  revert k. induction l as [|x l IH]; intros k H; [by injection H as <-|]. cbn [mapM mbind res_bind] in H.
  destruct (g x) as [y| |] eqn:Hx; try done. destruct (mapM g l) as [k'| |]; try done. injection H as <-.
  constructor; [done|by apply IH].
Qed.

(** What an [UPDATE] leaves of a table's rows. *)
Definition rewritten f db table (p : Row → bool) (upd : Row → res DbError Row) : list Row → list Row → Prop :=
  Forall2 (λ r r', if chosen f table p r then upd r = Ok r' ∧ pg_refuses f db table r' = None else r' = r).
(** What it returns. *)
Definition returned f table (p : Row → bool) (upd : Row → res DbError Row) : list Row → list Row → Prop :=
  λ rows out, Forall2 (λ r r', upd r = Ok r') (List.filter (chosen f table p) rows) out.

Lemma updated_row_Ok f db table p upd r m :
  updated_row f db table p upd r = Ok m →
  if chosen f table p r then m.1 = true ∧ upd r = Ok m.2 ∧ pg_refuses f db table m.2 = None else m = (false, r).
Proof.
  unfold updated_row, accepted. destruct (chosen f table p r); [|by intros [= <-]]. cbn [mbind res_bind].
  destruct (upd r) as [r'| |]; try done. cbn [mbind res_bind]. case_match eqn:Hacc; [done|]. by intros [= <-].
Qed.
Lemma update_rows_spec table p upd f now db out db' :
  update_rows table p upd f now db = Ok (out, db') →
  ∃ rows rows', db !! table = Some rows ∧ db' = <[table := rows']> db ∧
    rewritten f db table p (upd now) rows rows' ∧ returned f table p (upd now) rows out ∧
    ∀ r', r' ∈ out → r' ∈ rows' ∧ pg_refuses f db table r' = None.
Proof.
  unfold update_rows, on_table. intros H. destruct (db !! table) as [rows|]; [|done].
  cbn [mbind res_bind] in H. destruct (mapM _ rows) as [marked| |] eqn:Hm; try done. injection H as <- <-.
  apply mapM_Ok in Hm. exists rows, (map snd marked). split_and!; [done..| | |].
  - unfold rewritten. clear -Hm. induction Hm as [|r m rows marked Hr%updated_row_Ok Hm IH]; simpl; constructor; [|done].
    destruct (chosen f table p r); [by destruct Hr as (_ & ? & ?)|by rewrite Hr].
  - unfold returned. clear -Hm. induction Hm as [|r m rows marked Hr%updated_row_Ok Hm IH]; simpl; [constructor|].
    destruct (chosen f table p r).
    + destruct Hr as (-> & Hr & _). simpl. by constructor.
    + by rewrite Hr.
  - intros r' (m & -> & Hin)%list_elem_of_fmap. apply list_elem_of_In, filter_In in Hin as [Hin Hc].
    apply list_elem_of_In in Hin. split; [by apply list_elem_of_fmap; exists m|].
    apply list_elem_of_lookup in Hin as [i Hi]. destruct (Forall2_lookup_r _ _ _ _ _ Hm Hi) as (r & _ & Hr%updated_row_Ok).
    destruct (chosen f table p r); [by destruct Hr as (_ & _ & ?)|by subst].
Qed.

Lemma select_spec table p f now db out db' :
  select table p f now db = Ok (out, db') →
  ∃ rows, db !! table = Some rows ∧ db' = db ∧ out = List.filter (chosen f table p) rows.
Proof.
  unfold select, on_table. destruct (db !! table) as [rows|]; [|done]. intros [= <- <-]. eauto.
Qed.

Lemma delete_rows_spec table p f now db n db' :
  delete_rows table p f now db = Ok (n, db') →
  ∃ rows, db !! table = Some rows ∧ n = Z.of_nat (length (List.filter (chosen f table p) rows)) ∧
    db' = <[table := List.filter (λ r, negb (chosen f table p r)) rows]> db.
Proof.
  unfold delete_rows, on_table. intros H. destruct (db !! table) as [rows|]; [|done].
  cbn [mbind res_bind] in H. destruct (mapM _ _); try done. injection H as <- <-. eauto.
Qed.

Lemma insert_row_spec table columns json f now db out db' :
  insert_row table columns json f now db = Ok (out, db') →
  ∃ rows r, db !! table = Some rows ∧ db' = <[table := rows ++ [r]]> db ∧ out = [r] ∧ pg_refuses f db table r = None.
Proof.
  unfold insert_row, on_table. intros H. destruct (db !! table) as [rows|]; [|done]. ok_inv H.
  injection H as <- <-. exists rows. eexists. split_and!; [done..|]. unfold accepted in *. by case_match.
Qed.

Lemma set_columns_spec table columns json p f now db out db' :
  set_columns table columns json p f now db = Ok (out, db') →
  update_rows table p (λ _ r, new ← populate db table json; Ok (only_columns columns new ∪ r)) f now db = Ok (out, db').
Proof.
  unfold set_columns. cbn [mbind res_bind]. by destruct (on_table _ _ _).
Qed.

(** ** The fence *)

(** The rows the policies hide from a session. *)
Definition hidden f table rows : list Row := List.filter (λ r, negb (pg_visible f table r)) rows.
(** Nothing else than rows of the table that the fence shows has changed. *)
Definition fenced_in f table : relation Db := λ db db',
  (∀ t, t ≠ table → db' !! t = db !! t) ∧ hidden f table <$> db' !! table = hidden f table <$> db !! table.
#[export] Instance fenced_in_preorder f table : PreOrder (fenced_in f table).
Proof.
  split; [done|]. intros a b c [H1 H2] [H3 H4]. split; [|congruence]. intros t Ht. by rewrite H3, H1.
Qed.
Lemma fenced_in_insert f table db rows rows' :
  db !! table = Some rows → hidden f table rows' = hidden f table rows → fenced_in f table db (<[table := rows']> db).
Proof.
  intros Hr Hh. split; [intros t Ht; by rewrite lookup_insert_ne|]. rewrite lookup_insert_eq, Hr. simpl. by rewrite Hh.
Qed.

(** Row security: a row written under a policy is one it shows to whoever wrote it. *)
Class PostgresLaws : Prop := {
  written_visible f db table r : pg_refuses f db table r = None → pg_visible f table r = true;
}.
Context {PL : PostgresLaws}.

Lemma hidden_rewritten f db table p upd rows rows' :
  rewritten f db table p upd rows rows' → hidden f table rows' = hidden f table rows.
Proof.
  unfold rewritten, hidden. induction 1 as [|r r' rows rows' Hr _ IH]; [done|]. simpl. rewrite IH.
  unfold chosen in Hr. destruct (pg_visible f table r) eqn:Hv; simpl in Hr; [|subst; by rewrite Hv].
  destruct (p r); [|subst; by rewrite Hv]. destruct Hr as [_ ->%written_visible]. done.
Qed.
Lemma hidden_filter f table p rows :
  hidden f table (List.filter (λ r, negb (chosen f table p r)) rows) = hidden f table rows.
Proof.
  unfold hidden. induction rows as [|r rows IH]; [done|]. simpl. unfold chosen at 1.
  destruct (pg_visible f table r) eqn:Hv; simpl; [|by rewrite Hv, IH]. destruct (p r); simpl; [done|]. by rewrite Hv, IH.
Qed.
Lemma hidden_app f table rows r : pg_visible f table r = true → hidden f table (rows ++ [r]) = hidden f table rows.
Proof. intros Hv. unfold hidden. rewrite List.filter_app. simpl. by rewrite Hv, app_nil_r. Qed.

(** A statement behind the fence, whose answer is [Q]. *)
Definition stmt_fenced {A} f table (Q : A → Prop) (q : Stmt A) : Prop :=
  ∀ now db a db', q f now db = Ok (a, db') → fenced_in f table db db' ∧ Q a.
Definition all_visible f table rows : Prop := Forall (λ r, pg_visible f table r = true) rows.

Lemma select_fenced f table p : stmt_fenced f table (all_visible f table) (select table p).
Proof.
  intros now db out db' (rows & Hr & -> & ->)%select_spec. split; [done|]. apply Forall_forall.
  intros r [_ [Hv _]%andb_prop]%list_elem_of_In%filter_In. done.
Qed.
Lemma update_fenced f table p upd : stmt_fenced f table (all_visible f table) (update_rows table p upd).
Proof.
  intros now db out db' (rows & rows' & Hr & -> & Hw & _ & Hout)%update_rows_spec. split.
  - eapply fenced_in_insert; [done|by eapply hidden_rewritten].
  - apply Forall_forall. intros r [_ Hv%written_visible]%Hout. done.
Qed.
Lemma set_columns_fenced f table columns json p : stmt_fenced f table (all_visible f table) (set_columns table columns json p).
Proof. intros now db out db' H%set_columns_spec. by apply update_fenced in H. Qed.
Lemma delete_fenced f table p : stmt_fenced f table (λ _, True) (delete_rows table p).
Proof.
  intros now db n db' (rows & Hr & _ & ->)%delete_rows_spec. split; [|done].
  eapply fenced_in_insert; [done|apply hidden_filter].
Qed.
Lemma insert_fenced f table columns json : stmt_fenced f table (all_visible f table) (insert_row table columns json).
Proof.
  intros now db out db' (rows & r & Hr & -> & -> & Hv%written_visible)%insert_row_spec. split; [|by repeat constructor].
  eapply fenced_in_insert; [done|by apply hidden_app].
Qed.
Lemma with_columns_fenced {A} f table (Q : A → Prop) text k :
  (∀ columns, stmt_fenced f table Q (k columns)) → stmt_fenced f table Q (with_columns text k).
Proof. intros Hk now db a db'. unfold with_columns. destruct (read_columns text); [apply Hk|done]. Qed.
Lemma on_id_fenced {A} f table (Q : A → Prop) id k :
  (∀ p, stmt_fenced f table Q (k p)) → stmt_fenced f table Q (on_id table id k).
Proof. intros Hk now db a db'. unfold on_id. cbn [mbind res_bind]. destruct (on_table _ _ _); try done. apply Hk. Qed.
Lemma on_ids_fenced {A} f table (Q : A → Prop) ids k :
  (∀ p, stmt_fenced f table Q (k p)) → stmt_fenced f table Q (on_ids table ids k).
Proof. intros Hk now db a db'. unfold on_ids. cbn [mbind res_bind]. destruct (on_table _ _ _); try done. apply Hk. Qed.
Lemma page_fenced f table order `{!RelDecision order} p pg : stmt_fenced f table (all_visible f table) (page_stmt table order p pg).
Proof.
  intros now db out db' H. unfold page_stmt in H. cbn [mbind res_bind] in H.
  destruct (select table p f now db) as [[rows db1]| |] eqn:Hs; try done. injection H as <- <-.
  apply select_fenced in Hs as [? Hv]. split; [done|]. apply Forall_take, Forall_drop. unfold all_visible.
  by rewrite merge_sort_Permutation.
Qed.
Lemma stmt_fenced_mono {A} f table (Q Q' : A → Prop) (q : Stmt A) :
  (∀ a, Q a → Q' a) → stmt_fenced f table Q q → stmt_fenced f table Q' q.
Proof. intros HQ Hq now db a db' H. destruct (Hq _ _ _ _ H). auto. Qed.
End statements.
Arguments PostgresLaws {_} _.

(** ** Operations behind the fence *)

(** The fence of the session that a task's statements run in. *)
Definition session_fence (tk : Task) : Fence :=
  match task_tx tk with Some tx => (tx_company tx, tx_unit tx) | None => task_fence tk end.

Section fenced.
Context {L : Libs} {PG : Postgres} {PL : PostgresLaws PG} {W : Type} {HW : World W}.
Variables (f : Fence) (table : string).

(** The operation changes nothing the fence hides, and what it answers is [Q]. *)
Definition fenced {Er A} (Q : A → Prop) (v : sm (St Db W) Er A) : Prop :=
  ∀ s, fenced_in f table (tables s) (tables (v s).2) ∧ match (v s).1 with Ok a => Q a | _ => True end.

Lemma fenced_mono {Er A} (Q Q' : A → Prop) (v : sm (St Db W) Er A) : (∀ a, Q a → Q' a) → fenced Q v → fenced Q' v.
Proof. intros HQ Hv s. destruct (Hv s) as [H1 H2]. split; [done|]. destruct (v s).1; auto. Qed.
Lemma fenced_ret {Er A} (Q : A → Prop) (a : A) : Q a → fenced (Er:=Er) Q (mret a).
Proof. by split. Qed.
Lemma fenced_err {Er A} (Q : A → Prop) (e : Er) : fenced Q (sm_err (A:=A) e).
Proof. by split. Qed.
Lemma fenced_lift {Er A} (r : res Er A) : fenced (λ a, r = Ok a) (sm_lift r).
Proof. split; [done|]. by destruct r. Qed.
Lemma fenced_bind {Er A B} (Q : A → Prop) (Q' : B → Prop) (v : sm (St Db W) Er A) (k : A → sm (St Db W) Er B) :
  fenced Q v → (∀ a, Q a → fenced Q' (k a)) → fenced Q' (v ≫= k).
Proof.
  intros Hv Hk s. destruct (Hv s) as [H1 H2]. unfold mbind, sm_bind. destruct (v s) as [[a|e|] s1]; simpl in *; [|done..].
  destruct (Hk a H2 s1) as [H3 H4]. split; [|done]. by etrans.
Qed.
Lemma fenced_map_err {Er Er' A} (Q : A → Prop) (g : Er → Er') (v : sm (St Db W) Er A) : fenced Q v → fenced Q (map_err g v).
Proof. intros Hv s. destruct (Hv s) as [H1 H2]. split; [done|]. unfold map_err. by destruct (v s) as [[]]. Qed.
Lemma fenced_attempt {Er Er' A} (Q : A → Prop) (v : sm (St Db W) Er A) :
  fenced Q v → fenced (Er:=Er') (λ r, match r with inr a => Q a | inl _ => True end) (attempt v).
Proof. intros Hv s. destruct (Hv s) as [H1 H2]. unfold attempt. by destruct (v s) as [[]]. Qed.
Lemma fenced_keeps {Er A} (v : sm (St Db W) Er A) : keeps same_tables v → fenced (λ _, True) v.
Proof.
  intros Hv s. pose proof (Hv s) as H. unfold same_tables in H. rewrite H. split; [done|]. by destruct (v s).1.
Qed.
Lemma fenced_run_unit {Er A} (from : DbError → Er) o (Q : A → Prop) (v : sm (St Db W) Er A) : fenced Q v → fenced Q (run_unit from o v).
Proof.
  intros Hv s. enough (wp (run_unit from o v) (λ r s', fenced_in f table (tables s) (tables s') ∧
    match r with Ok a => Q a | _ => True end) s) as H by exact H.
  apply wp_run_unit; [done|]. intros w. destruct (Hv (mkSt (tables s) w)) as [H1 H2]. unfold wp.
  by destruct (v _) as [[a|e|] s1]; simpl in *.
Qed.

Lemma fenced_scoped {Er A} (from : DbError → Er) tk (Q : A → Prop) body :
  session_fence tk = f → (∀ now, fenced Q (body f now)) → fenced Q (scoped from tk body).
Proof.
  unfold session_fence, task_fence, scoped. intros <- Hb. destruct (task_tx tk); [apply Hb|].
  destruct (task_conn tk) as [fence|]; [|destruct (task_company tk) as [company|]].
  - eapply fenced_bind; [apply fenced_keeps, keeps_pg_now|]. intros now _. apply Hb.
  - apply fenced_run_unit. eapply fenced_bind; [apply fenced_keeps, keeps_pg_now|]. intros now _.
    eapply fenced_bind; [apply fenced_map_err, fenced_keeps, keeps_point|]. intros _ _. apply Hb.
  - eapply fenced_bind; [apply fenced_keeps, keeps_pg_now|]. intros now _. apply Hb.
Qed.
Lemma fenced_in_unit {Er A} (from : DbError → Er) tk (Q : A → Prop) body :
  session_fence tk = f → (∀ now, fenced Q (body f now)) → fenced Q (in_unit from tk body).
Proof.
  unfold session_fence, task_fence, in_unit. intros <- Hb. destruct (task_tx tk); [by apply fenced_run_unit|].
  destruct (task_conn tk) as [fence|].
  - apply fenced_run_unit. eapply fenced_bind; [apply fenced_keeps, keeps_pg_now|]. intros now _. apply Hb.
  - eapply fenced_bind; [apply fenced_map_err, fenced_keeps, keeps_point|]. intros _ _. apply fenced_run_unit.
    eapply fenced_bind; [apply fenced_keeps, keeps_pg_now|]. intros now _.
    eapply fenced_bind; [apply fenced_map_err, fenced_keeps, keeps_point|]. intros _ _. apply Hb.
Qed.

Section entity.
Context {E : Type} {PE : PersistentEntity E}.
Variables (driver_error : DbError → SqlxError) (from_row : Row → string + E) (mode : DeleteMode).
Variable tk : Task.
Hypothesis session : session_fence tk = f.

Lemma fenced_run_stmt {A} (Q : A → Prop) (q : Stmt A) now : stmt_fenced f table Q q → fenced Q (run_stmt driver_error q f now).
Proof.
  intros Hq. apply fenced_map_err. eapply fenced_bind; [apply fenced_keeps, keeps_point|]. intros _ _ s. unfold sm_of.
  destruct (q f now (tables s)) as [[a db]| |] eqn:Hr; simpl; [|done..]. by apply Hq in Hr.
Qed.

(** An entity the fence shows: what one of its rows reads as. *)
Definition shown (e : E) : Prop := ∃ r, from_row r = inr e ∧ pg_visible f table r = true.
Lemma fenced_decode r : pg_visible f table r = true → fenced shown (decode (W:=W) driver_error from_row r).
Proof. intros Hv. unfold decode. destruct (from_row r) eqn:Hr; [apply fenced_err|]. apply fenced_ret. by exists r. Qed.
Lemma fenced_mapM {Er A B} (P : A → Prop) (Q : B → Prop) (k : A → sm (St Db W) Er B) (l : list A) :
  (∀ x, P x → fenced Q (k x)) → Forall P l → fenced (Forall Q) (mapM k l).
Proof.
  intros Hk. induction 1 as [|x l Hx _ IH]; [by apply fenced_ret; constructor|].
  simpl. eapply fenced_bind; [by apply Hk|]. intros y Hy. eapply fenced_bind; [apply IH|]. intros ys Hys.
  apply fenced_ret. by constructor.
Qed.
Lemma fenced_decode_all rows : all_visible f table rows → fenced (Forall shown) (decode_all (W:=W) driver_error from_row rows).
Proof. intros Hv. eapply fenced_mapM; [|exact Hv]. intros r. apply fenced_decode. Qed.
Definition shown_if (found : option E) : Prop := from_option shown True found.
Lemma fenced_decode_first rows : all_visible f table rows → fenced shown_if (decode_first (W:=W) driver_error from_row rows).
Proof.
  intros Hv. destruct Hv as [|r rows Hr _]; [by apply fenced_ret|]. simpl.
  eapply fenced_bind; [by apply fenced_decode|]. intros e He. by apply fenced_ret.
Qed.

Lemma fenced_fetch_all q : stmt_fenced f table (all_visible f table) q → fenced (Forall shown) (fetch_all driver_error from_row tk q).
Proof.
  intros Hq. apply fenced_scoped; [done|]. intros now. eapply fenced_bind; [by apply fenced_run_stmt|].
  apply fenced_decode_all.
Qed.
Lemma fenced_fetch_optional q : stmt_fenced f table (all_visible f table) q → fenced shown_if (fetch_optional driver_error from_row tk q).
Proof.
  intros Hq. apply fenced_scoped; [done|]. intros now. eapply fenced_bind; [by apply fenced_run_stmt|].
  apply fenced_decode_first.
Qed.
Lemma fenced_fetch_scalar {A} (Q : A → Prop) q : stmt_fenced f table Q q → fenced Q (fetch_scalar driver_error tk q).
Proof. intros Hq. apply fenced_scoped; [done|]. intros now. by apply fenced_run_stmt. Qed.

Lemma insert_meaning_fenced st : stmt_fenced f table (all_visible f table) (insert_meaning table st).
Proof. destruct st as [[columns json]|]; [apply with_columns_fenced; intros|]; apply insert_fenced. Qed.
Lemma update_meaning_fenced st id : stmt_fenced f table (all_visible f table) (update_meaning table mode st id).
Proof.
  apply on_id_fenced. intros p. destruct st; [apply select_fenced|]. apply with_columns_fenced. intros. apply set_columns_fenced.
Qed.

(** What runs on a unit's own connection. *)
Lemma fenced_insert_each now index entities : fenced (Forall shown) (insert_each (W:=W) driver_error from_row table f now index entities).
Proof.
  revert index. induction entities as [|e entities IH]; intros index; [by apply fenced_ret|]. simpl.
  eapply fenced_bind; [apply fenced_lift|]. intros st _. eapply fenced_bind.
  - apply fenced_map_err. eapply fenced_bind; [apply fenced_run_stmt, insert_meaning_fenced|]. intros rows Hv.
    destruct Hv as [|r rows Hr _]; [apply fenced_err|by apply fenced_decode].
  - intros saved Hs. eapply fenced_bind; [apply IH|]. intros rest Hrest. apply fenced_ret. by constructor.
Qed.
Lemma fenced_update_pair now before after : fenced shown (update_pair (W:=W) driver_error from_row table mode f now before after).
Proof.
  unfold update_pair. do 4 (eapply fenced_bind; [apply fenced_lift|]; intros ? _).
  eapply fenced_bind; [apply fenced_run_stmt, update_meaning_fenced|]. intros rows Hv.
  eapply fenced_bind; [by apply fenced_decode_first|]. intros [e|] He; [by apply fenced_ret|apply fenced_err].
Qed.
Lemma fenced_update_each now index pairs :
  fenced (Forall shown) (update_each_changed (W:=W) driver_error from_row table mode f now index pairs).
Proof.
  revert index. induction pairs as [|[before after] pairs IH]; intros index; [by apply fenced_ret|]. simpl.
  eapply fenced_bind; [apply fenced_map_err, fenced_update_pair|]. intros saved Hs.
  eapply fenced_bind; [apply IH|]. intros rest Hrest. apply fenced_ret. by constructor.
Qed.
Lemma fenced_counted_batch ids name why q :
  (∀ p, stmt_fenced f table (λ _, True) (q p)) → fenced (λ _, True) (counted_batch driver_error table tk ids name why q).
Proof.
  intros Hq. unfold counted_batch. destruct ids as [|id ids]; [by apply fenced_ret|]. apply fenced_in_unit; [done|].
  intros now. eapply fenced_bind; [by apply fenced_run_stmt, on_ids_fenced|]. intros n _.
  destruct (negb _); [apply fenced_err|by apply fenced_ret].
Qed.
Lemma update_count_fenced p upd : stmt_fenced f table (λ _, True)
  (λ f now db, '(rows, db) ← update_rows table p upd f now db; Ok (Z.of_nat (length rows), db)).
Proof.
  intros now db n db' H. unfold mbind, res_bind in H. destruct (update_rows table p upd f now db) as [[rows db1]| |] eqn:Hu; try done.
  injection H as <- <-. by apply update_fenced in Hu as [? _].
Qed.
Lemma fenced_bulk_restore ids : fenced (Forall shown) (pg_bulk_restore driver_error from_row table tk ids).
Proof.
  unfold pg_bulk_restore. destruct ids as [|id ids]; [by apply fenced_ret|]. apply fenced_in_unit; [done|]. intros now.
  eapply fenced_bind; [apply fenced_run_stmt, on_ids_fenced; intros; apply update_fenced|]. intros rows Hv.
  eapply fenced_bind; [by apply fenced_decode_all|]. intros es Hes.
  destruct (negb _); [apply fenced_err|by apply fenced_ret].
Qed.
Lemma fenced_count p : fenced (λ _, True) (count_where driver_error table tk p).
Proof.
  unfold count_where. eapply fenced_bind; [apply fenced_fetch_scalar, select_fenced|]. intros rows _. by apply fenced_ret.
Qed.
Lemma fenced_paged order `{!RelDecision order} p pg : fenced (λ r, Forall shown (data r)) (paged driver_error from_row table tk order p pg).
Proof.
  unfold paged. eapply fenced_bind; [apply fenced_fetch_all, page_fenced|]. intros rows Hv.
  eapply fenced_bind; [apply fenced_count|]. intros n _. by apply fenced_ret.
Qed.
End entity.
End fenced.

(** ** Units and batches *)
Section units.
Context {L : Libs} {PG : Postgres} {W : Type} {HW : World W}.

Lemma bind_Ok {S Er A B} (v : sm S Er A) (k : A → sm S Er B) s b s' :
  (v ≫= k) s = (Ok b, s') → ∃ a s1, v s = (Ok a, s1) ∧ k a s1 = (Ok b, s').
Proof. unfold mbind, sm_bind. destruct (v s) as [[a|e|] s1]; [eauto|done..]. Qed.

Lemma in_unit_write_tx {Er A} (from : DbError → Er) tk (body : Fence → instant → sm (St Db W) Er A) :
  in_unit from tk body =
  in_write_tx from tk (λ tk', match task_tx tk' with
                              | Some tx => body (tx_company tx, tx_unit tx) (tx_now tx)
                              | None => sm_panic
                              end).
Proof.
  unfold in_unit, in_write_tx. destruct (task_tx tk) as [tx|] eqn:Htx; [done|].
  by destruct (task_conn tk) as [[]|].
Qed.

(** A unit that answers leaves what its body left; one that fails, at any point, leaves the tables as they were. *)
Lemma in_unit_atomic {Er A} (from : DbError → Er) tk (body : Fence → instant → sm (St Db W) Er A) s :
  match in_unit from tk body s with
  | (Ok a, s') => ∃ now s0 s1, tables s0 = tables s ∧ body (session_fence tk) now s0 = (Ok a, s1) ∧ tables s' = tables s1
  | (_, s') => tables s' = tables s
  end.
Proof.
  enough (wp (in_unit from tk body) (λ r s', match r with
    | Ok a => ∃ now s0 s1, tables s0 = tables s ∧ body (session_fence tk) now s0 = (Ok a, s1) ∧ tables s' = tables s1
    | _ => tables s' = tables s end) s) as H.
  { unfold wp in H. by destruct (in_unit from tk body s) as [[]]. }
  rewrite in_unit_write_tx. apply wp_in_write_tx; [done|]. intros tx w Htx. simpl.
  assert ((tx_company tx, tx_unit tx) = session_fence tk) as Hf.
  { unfold session_fence. destruct Htx as [->|[-> (now & ->)]]; [done|]. by destruct (task_fence tk). }
  rewrite Hf. unfold wp. destruct (body _ _ _) as [[a|e|] s1] eqn:Hb; simpl; [|done..].
  intros w'. by exists (tx_now tx), (mkSt (tables s) w), s1.
Qed.

Context {E : Type} {PE : PersistentEntity E}.
Variables (driver_error : DbError → SqlxError) (from_row : Row → string + E) (table : string) (mode : DeleteMode).
Implicit Types (rows : list Row) (r : Row) (ids : list string) (s : St Db W) (tk : Task) (f : Fence) (now : instant).

Lemma run_stmt_Ok {A} (q : Stmt A) f now s a s' :
  run_stmt driver_error q f now s = (Ok a, s') → q f now (tables s) = Ok (a, tables s').
Proof.
  unfold run_stmt, map_err, mbind, sm_bind, sqlx_point, sm_of. destruct (w_fault (world s)) as [[e|] w]; [done|]. simpl.
  destruct (q f now (tables s)) as [[a' db]| |]; simpl; [|done..]. by intros [= <- <-].
Qed.
Lemma decode_all_Ok rows s es s' :
  decode_all (W:=W) driver_error from_row rows s = (Ok es, s') → s' = s ∧ Forall2 (λ r e, from_row r = inr e) rows es.
Proof.
  revert es s'. unfold decode_all. induction rows as [|r rows IH]; intros es s' H; [by injection H as <- <-|].
  simpl in H. apply bind_Ok in H as (e & s1 & He & H). apply bind_Ok in H as (es' & s2 & Hes & H). injection H as <- <-.
  unfold decode in He. destruct (from_row r) eqn:Hr; [done|]. injection He as <- <-.
  apply IH in Hes as [-> Hes]. auto.
Qed.
Lemma decode_first_Ok rows s found s' :
  decode_first (W:=W) driver_error from_row rows s = (Ok found, s') →
  s' = s ∧ match found with None => rows = [] | Some e => ∃ r rest, rows = r :: rest ∧ from_row r = inr e end.
Proof.
  destruct rows as [|r rows]; [by intros [= <- <-]|]. intros H. apply bind_Ok in H as (e & s1 & He & [= <- <-]).
  unfold decode in He. destruct (from_row r) eqn:Hr; [done|]. injection He as <- <-. eauto 6.
Qed.

(** The row of one of the ids. *)
Definition named ids r : bool :=
  match mapM pg_uuid ids with Some us => existsb (λ u, has_id u r) us | None => false end.
(** The ids are those of as many rows, each shown by the fence and of the kind [p]. *)
Definition names_rows f ids (p : Row → bool) rows : Prop :=
  ∃ us, mapM pg_uuid ids = Some us ∧ NoDup us ∧
    Forall (λ u, ∃ r, r ∈ rows ∧ has_id u r = true ∧ pg_visible f table r = true ∧ p r = true) us.
(** The primary key. *)
Definition row_id_text r : option string := match r !! "id" with Some (VString s) => Some s | _ => None end.
Definition keyed rows : Prop := NoDup (map row_id_text rows).

Lemma by_ids_named ids cond : by_ids ids = Ok cond → is_Some (mapM pg_uuid ids) ∧ ∀ r, cond r = named ids r.
Proof.
  unfold by_ids, named. intros H. ok_inv H. injection H as <-. apply mapM_Ok in E0.
  assert (∃ us, mapM pg_uuid ids = Some us ∧ ∀ r, existsb (λ c : Row → bool, c r) a = existsb (λ u, has_id u r) us)
    as (us & -> & Hus); [|by split].
  induction E0 as [|id c ids a Hc _ (us & IH & Hus)]; [by exists []|]. simpl. unfold by_id in Hc.
  destruct (pg_uuid id) as [u|]; [|done]. injection Hc as <-. rewrite IH. exists (u :: us). simpl. split; [done|].
  intros r. by rewrite Hus.
Qed.

Lemma filter_map_sublist {A B} (g : A → B) (p : A → bool) l : sublist (map g (List.filter p l)) (map g l).
Proof. induction l as [|x l IH]; simpl; [constructor|]. destruct (p x); by constructor. Qed.
Lemma keyed_filter p rows : keyed rows → keyed (List.filter p rows).
Proof. intros Hk. eapply sublist_NoDup; [exact Hk|apply filter_map_sublist]. Qed.

(** As many rows as ids: then the ids are distinct and none is missing. *)
Lemma all_named f ids p rows :
  keyed rows → is_Some (mapM pg_uuid ids) →
  length (List.filter (chosen f table (λ r, named ids r && p r)) rows) = length ids →
  names_rows f ids p rows.
Proof.
  intros Hk [us Hus] Hlen. unfold names_rows. rewrite Hus. exists us. split; [done|].
  set (out := List.filter _ rows) in *. assert (keyed out) as Ho by by apply keyed_filter.
  assert (length us = length ids) as Hl by (symmetry; by eapply Forall2_length, mapM_Some).
  assert (∀ r, r ∈ out → r ∈ rows ∧ pg_visible f table r = true ∧ p r = true ∧ ∃ u, u ∈ us ∧ has_id u r = true) as Hout.
  { intros r [Hr [Hv [Hn Hp]%andb_prop]%andb_prop]%list_elem_of_In%filter_In. rewrite <- list_elem_of_In in Hr.
    split_and!; [done..|]. unfold named in Hn. rewrite Hus in Hn. apply existsb_exists in Hn as (u & Hu & Hid).
    exists u. by rewrite list_elem_of_In. }
  assert (∀ u r, has_id u r = true → row_id_text r = Some (uuid_to_string u)) as Hid.
  { intros u r. unfold has_id, row_id_text. destruct (r !! "id") as [[]|]; try done. by intros ->%bool_decide_eq_true. }
  assert (map row_id_text out ≡ₚ map (Some ∘ uuid_to_string) us) as Hp.
  { apply submseteq_length_Permutation; [|rewrite !length_map; lia]. apply NoDup_submseteq; [done|].
    intros t (r & -> & Hr)%list_elem_of_fmap. destruct (Hout r Hr) as (_ & _ & _ & u & Hu & Hi).
    apply list_elem_of_fmap. exists u. split; [by apply Hid|done]. }
  split.
  - apply (NoDup_fmap_1 (Some ∘ uuid_to_string)). change (NoDup (map (Some ∘ uuid_to_string) us)). by rewrite <- Hp.
  - apply Forall_forall. intros u Hu.
    assert (Some (uuid_to_string u) ∈ map row_id_text out) as (r & Hr & Hin)%list_elem_of_fmap.
    { rewrite Hp. apply list_elem_of_fmap. by exists u. }
    destruct (Hout r Hin) as (Hrow & Hv & Hpr & _). exists r. split_and!; [done| |done..].
    unfold row_id_text in Hr. unfold has_id. destruct (r !! "id") as [[]|]; try done. injection Hr as ->. by apply bool_decide_eq_true.
Qed.

Lemma chosen_ext f (p p' : Row → bool) r : (∀ r, p r = p' r) → chosen f table p r = chosen f table p' r.
Proof. intros H. unfold chosen. by rewrite H. Qed.
Lemma nothing_named f p r : chosen f table (λ r, named [] r && p r) r = false.
Proof. unfold chosen, named. simpl. by rewrite andb_false_r. Qed.

(** *** Batches of ids *)
Definition deleted_rows f ids (p : Row → bool) rows : list Row :=
  List.filter (λ r, negb (chosen f table (λ r, named ids r && p r) r)) rows.

Lemma on_ids_Ok {A} ids (q : (Row → bool) → Stmt A) f now db a db' :
  on_ids table ids q f now db = Ok (a, db') →
  ∃ cond, is_Some (mapM pg_uuid ids) ∧ (∀ r, cond r = named ids r) ∧ q cond f now db = Ok (a, db').
Proof.
  unfold on_ids, on_table. destruct (db !! table); [|done]. intros H. ok_inv H. apply by_ids_named in E0 as [Hs Hc]. eauto.
Qed.

Lemma counted_batch_Ok tk ids name why q s n s' :
  counted_batch driver_error table tk ids name why q s = (Ok n, s') → ids ≠ [] →
  n = Z.of_nat (length ids) ∧ ∃ now cond, is_Some (mapM pg_uuid ids) ∧ (∀ r, cond r = named ids r) ∧
    q cond (session_fence tk) now (tables s) = Ok (n, tables s').
Proof.
  intros H Hids. unfold counted_batch in H. destruct ids as [|id ids]; [done|]. set (l := id :: ids) in *.
  set (body := λ (f : Fence) (now : instant), _ ≫= _) in H.
  pose proof (in_unit_atomic (source driver_error) tk body s) as Hu. rewrite H in Hu.
  destruct Hu as (now & s0 & s1 & H0 & Hb & H1). apply bind_Ok in Hb as (n' & s2 & Hq & Hb).
  apply run_stmt_Ok in Hq. destruct (negb (n' =? Z.of_nat (length l))) eqn:Hn; [done|]. injection Hb as -> ->.
  apply negb_false_iff, Z.eqb_eq in Hn. split; [done|]. rewrite H0 in Hq. apply on_ids_Ok in Hq as (cond & Hs & Hc & Hq).
  exists now, cond. by rewrite H1.
Qed.
Lemma counted_batch_failed tk ids name why q s s' ans :
  counted_batch driver_error table tk ids name why q s = (ans, s') → (∀ n, ans ≠ Ok n) → tables s' = tables s.
Proof.
  intros H Hr. unfold counted_batch in H. destruct ids as [|id ids]; [injection H as <- <-; by destruct (Hr 0)|].
  set (body := λ (f : Fence) (now : instant), _ ≫= _) in H.
  pose proof (in_unit_atomic (source driver_error) tk body s) as Hu. rewrite H in Hu. by destruct ans as [n| |]; [destruct (Hr n)|..].
Qed.

Lemma rewritten_ext f db p p' upd rows rows' :
  (∀ r, p r = p' r) → rewritten f db table p upd rows rows' → rewritten f db table p' upd rows rows'.
Proof. intros Hp H. eapply Forall2_impl; [exact H|]. intros r r' Hr. cbv beta in *. by rewrite <- (chosen_ext f p p' r Hp). Qed.
Lemma filter_chosen_ext f p p' rows :
  (∀ r, p r = p' r) → List.filter (chosen f table p) rows = List.filter (chosen f table p') rows.
Proof. intros Hp. apply filter_ext. intros r. by apply chosen_ext. Qed.
Lemma rewritten_nothing f db p upd rows : rewritten f db table (λ r, named [] r && p r) upd rows rows.
Proof. apply Forall_Forall2_diag, Forall_forall. intros r _. by rewrite nothing_named. Qed.
Lemma deleted_nothing f p rows : deleted_rows f [] p rows = rows.
Proof.
  unfold deleted_rows. induction rows as [|r rows IH]; [done|]. cbn [List.filter]. rewrite nothing_named. cbn [negb]. by rewrite IH.
Qed.
Lemma names_nothing f p rows : names_rows f [] p rows.
Proof. exists []. by repeat constructor. Qed.

(** What a batch of ids that answers has done. *)
Definition batch_done f ids p rows (effect : list Row → Prop) (n : nat) (db db' : Db) : Prop :=
  n = length ids ∧ names_rows f ids p rows ∧ ∃ rows', db' = <[table := rows']> db ∧ effect rows'.
Definition all_or_nothing {Er A} (answered : A → Db → Prop) s (ans : res Er A * St Db W) : Prop :=
  match ans with (Ok a, s') => answered a (tables s') | (_, s') => tables s' = tables s end.

Section batch.
Variables (tk : Task) (s : St Db W) (rows : list Row).
Hypotheses (there : tables s !! table = Some rows) (key : keyed rows).
#[local] Abbreviation f := (session_fence tk).

Lemma unchanged_rows : tables s = <[table := rows]> (tables s).
Proof. by rewrite insert_id. Qed.

Lemma soft_delete_batch ids :
  all_or_nothing (λ n db', batch_done f ids is_active rows (λ rows', ∃ now,
      rewritten f (tables s) table (λ r, named ids r && is_active r) (stamp_deleted now) rows rows')
    (Z.to_nat n) (tables s) db') s (pg_bulk_soft_delete driver_error table tk ids s).
Proof.
  unfold all_or_nothing. destruct (pg_bulk_soft_delete _ _ _ _ _) as [ans s'] eqn:H.
  destruct ans as [n| |]; [|by eapply counted_batch_failed..].
  destruct ids as [|id ids']; [|set (ids := id :: ids') in *].
  { injection H as <- <-. split; [done|]. split; [apply names_nothing|]. exists rows.
    split; [apply unchanged_rows|]. exists 0. apply rewritten_nothing. }
  apply counted_batch_Ok in H as (-> & now & cond & Hs & Hc & Hq); [|done]. unfold mbind, res_bind in Hq.
  destruct (update_rows _ _ _ _ _ _) as [[out db1]| |] eqn:Hu; try done. injection Hq as Hn <-.
  apply update_rows_spec in Hu as (rows0 & rows' & Hr & Hdb & Hw & Hout & _). assert (rows0 = rows) as -> by congruence.
  assert (∀ r, cond r && is_active r = named ids r && is_active r) as Hext by (intros r; by rewrite Hc).
  apply Forall2_length in Hout. rewrite (filter_chosen_ext _ _ _ _ Hext) in Hout.
  split; [by rewrite Nat2Z.id|]. split; [apply all_named; [done..|rewrite Hout; by apply Nat2Z.inj]|]. exists rows'. split; [done|]. exists now.
  exact (rewritten_ext _ _ _ _ _ _ _ Hext Hw).
Qed.

Lemma delete_batch ids p (sel : (Row → bool) → Row → bool) name why :
  (∀ q r, sel q r = q r && p r) →
  all_or_nothing (λ n db', batch_done f ids p rows (λ rows', rows' = deleted_rows f ids p rows)
    (Z.to_nat n) (tables s) db') s
    (counted_batch driver_error table tk ids name why (λ q, delete_rows table (sel q)) s).
Proof.
  intros Hsel. unfold all_or_nothing. destruct (counted_batch _ _ _ _ _ _ _) as [ans s'] eqn:H.
  destruct ans as [n| |]; [|by eapply counted_batch_failed..].
  destruct ids as [|id ids']; [|set (ids := id :: ids') in *].
  { injection H as <- <-. split; [done|]. split; [apply names_nothing|]. exists rows.
    split; [apply unchanged_rows|]. by rewrite deleted_nothing. }
  apply counted_batch_Ok in H as (-> & now & cond & Hs & Hc & Hq); [|done].
  apply delete_rows_spec in Hq as (rows0 & Hr & Hn & Hdb). assert (rows0 = rows) as -> by congruence.
  assert (∀ r, sel cond r = named ids r && p r) as Hext by (intros r; by rewrite Hsel, Hc).
  rewrite (filter_chosen_ext _ _ _ _ Hext) in Hn. split; [by rewrite Nat2Z.id|]. split; [apply all_named; [done..|by apply Nat2Z.inj]|].
  exists (deleted_rows f ids p rows). split; [|done]. rewrite Hdb. f_equal. apply filter_ext. intros r.
  by rewrite (chosen_ext f _ _ r Hext).
Qed.

Lemma restore_batch ids :
  all_or_nothing (λ es db', batch_done f ids is_trashed rows (λ rows', ∃ now out,
      rewritten f (tables s) table (λ r, named ids r && is_trashed r) (clear_deleted now) rows rows' ∧
      (∀ r, r ∈ out → r ∈ rows') ∧ Forall2 (λ r e, from_row r = inr e) out es)
    (length es) (tables s) db') s (pg_bulk_restore driver_error from_row table tk ids s).
Proof.
  unfold all_or_nothing, pg_bulk_restore. destruct ids as [|id ids']; [|set (ids := id :: ids') in *].
  { simpl. split; [done|]. split; [apply names_nothing|]. exists rows. split; [apply unchanged_rows|].
    exists 0, []. split; [apply (rewritten_nothing _ _ is_trashed)|]. split; [by intros r ?%elem_of_nil|constructor]. }
  set (body := λ (f : Fence) (now : instant), _ ≫= _).
  pose proof (in_unit_atomic (source driver_error) tk body s) as Hu.
  destruct (in_unit _ _ _ _) as [[es| |] s']; [|done..]. destruct Hu as (now & s0 & s1 & H0 & Hb & H1).
  apply bind_Ok in Hb as (rs & s2 & Hq & Hb). apply bind_Ok in Hb as (es' & s3 & Hd & Hb).
  destruct (negb _) eqn:Hn; [done|]. injection Hb as -> ->. apply negb_false_iff, bool_decide_eq_true in Hn.
  apply decode_all_Ok in Hd as [-> Hes]. apply run_stmt_Ok in Hq. rewrite H0 in Hq.
  apply on_ids_Ok in Hq as (cond & Hs & Hc & Hq).
  apply update_rows_spec in Hq as (rows0 & rows' & Hr & Hdb & Hw & Hout & Hin). assert (rows0 = rows) as -> by congruence.
  assert (∀ r, cond r && is_trashed r = named ids r && is_trashed r) as Hext by (intros r; by rewrite Hc).
  apply Forall2_length in Hout. rewrite (filter_chosen_ext _ _ _ _ Hext) in Hout.
  pose proof (Forall2_length _ _ _ Hes) as Hl. split; [done|]. split; [apply all_named; [done..|lia]|].
  exists rows'. split; [by rewrite H1|]. exists now, rs. split; [exact (rewritten_ext _ _ _ _ _ _ _ Hext Hw)|]. split; [|done].
  intros r Hr'. by apply Hin.
Qed.
End batch.

(** *** Batches of rows *)
Lemma unit_batch {Er A B} (from : DbError → Er) tk (body : Fence → instant → sm (St Db W) Er (list B)) (l : list A) s :
  (∀ now s0 out s1, body (session_fence tk) now s0 = (Ok out, s1) → length out = length l) →
  all_or_nothing (λ out _, length out = length l) s (in_unit from tk body s).
Proof.
  intros Hb. pose proof (in_unit_atomic from tk body s) as Hu. unfold all_or_nothing.
  destruct (in_unit _ _ _ _) as [[out| |] s']; [|done..]. destruct Hu as (now & s0 & s1 & _ & H & _). by eapply Hb.
Qed.
Lemma create_batch tk entities s :
  all_or_nothing (λ out _, length out = length entities) s (pg_bulk_create driver_error from_row table tk entities s).
Proof.
  destruct entities as [|e entities]; [done|]. apply unit_batch. generalize 0%nat as i. generalize (e :: entities) as l.
  induction l as [|x l IH]; intros i now s0 out s1 H; [by injection H as <- <-|].
  apply bind_Ok in H as (st & s2 & _ & H). apply bind_Ok in H as (saved & s3 & _ & H).
  apply bind_Ok in H as (rest & s4 & Hr & H). injection H as <- <-. simpl. by rewrite (IH _ _ _ _ _ Hr).
Qed.
Lemma changed_batch tk pairs s :
  all_or_nothing (λ out _, length out = length pairs) s (pg_bulk_update_changed driver_error from_row table mode tk pairs s).
Proof.
  destruct pairs as [|e pairs]; [done|]. apply unit_batch. generalize 0%nat as i. generalize (e :: pairs) as l.
  induction l as [|[b a] l IH]; intros i now s0 out s1 H; [by injection H as <- <-|].
  apply bind_Ok in H as (saved & s3 & _ & H). apply bind_Ok in H as (rest & s4 & Hr & H). injection H as <- <-.
  simpl. by rewrite (IH _ _ _ _ _ Hr).
Qed.
Lemma whole_batch tk entities s :
  all_or_nothing (λ out _, length out = length entities) s (bulk_update_rows driver_error from_row table mode tk entities s).
Proof.
  destruct entities as [|e entities]; [done|]. apply unit_batch. generalize (e :: entities) as l.
  induction l as [|x l IH]; intros now s0 out s1 H; [by injection H as <- <-|].
  apply bind_Ok in H as (saved & s3 & _ & H). apply bind_Ok in H as (rest & s4 & Hr & H). injection H as <- <-.
  simpl. by rewrite (IH _ _ _ _ Hr).
Qed.
End units.

(** ** One row, and the columns an update changed *)
Section one_row.
Context {L : Libs} {PG : Postgres} {W : Type} {HW : World W}.

(** A scoped operation that answers has run its body in the session's fence; one that fails left the tables as they
    were, or as a body that fails does. *)
Lemma scoped_outcome {Er A} (from : DbError → Er) tk (body : Fence → instant → sm (St Db W) Er A) s :
  match scoped from tk body s with
  | (Ok a, s') => ∃ now s0 s1, tables s0 = tables s ∧ body (session_fence tk) now s0 = (Ok a, s1) ∧ tables s' = tables s1
  | (ans, s') => tables s' = tables s ∨
      ∃ now s0 s1, tables s0 = tables s ∧ body (session_fence tk) now s0 = (ans, s1) ∧ tables s' = tables s1
  end.
Proof.
  assert (∀ f s', f = session_fence tk → tables s' = tables s →
    match (now ← pg_now; body f now) s' with
    | (Ok a, s') => ∃ now s0 s1, tables s0 = tables s ∧ body (session_fence tk) now s0 = (Ok a, s1) ∧ tables s' = tables s1
    | (ans, s') => tables s' = tables s ∨
        ∃ now s0 s1, tables s0 = tables s ∧ body (session_fence tk) now s0 = (ans, s1) ∧ tables s' = tables s1
    end) as Hrun.
  { intros f s' -> Hs'. unfold mbind, sm_bind, pg_now. destruct (w_pg_now (world s')) as [now w].
    destruct (body _ now _) as [[a|e|] s1] eqn:Hb; [|right|right]; by exists now, (mkSt (tables s') w), s1. }
  unfold scoped, session_fence, task_fence in *. destruct (task_tx tk) as [tx|].
  { destruct (body _ _ s) as [[a|e|] s1] eqn:Hb; [|right|right]; by exists (tx_now tx), s, s1. }
  destruct (task_conn tk) as [fence|]; [by apply Hrun|]. destruct (task_company tk) as [company|]; [|by apply Hrun].
  enough (wp (run_unit from false (now ← pg_now; _ ← map_err from sqlx_point; body (Some company, None) now)) (λ r s', match r with
    | Ok a => ∃ now s0 s1, tables s0 = tables s ∧ body (Some company, None) now s0 = (Ok a, s1) ∧ tables s' = tables s1
    | _ => tables s' = tables s end) s) as H.
  { unfold wp in H. destruct (run_unit _ _ _ _) as [[]]; simpl in H; [done|by left..]. }
  apply wp_run_unit; [done|]. intros w. unfold wp, mbind, sm_bind, pg_now, map_err, sqlx_point. simpl.
  destruct (w_pg_now w) as [now w1]. simpl. destruct (w_fault w1) as [[e|] w2]; simpl; [done|].
  destruct (body _ now _) as [[a|e|] s1] eqn:Hb; simpl; [|done..]. intros _. by exists now, (mkSt (tables s) w2), s1.
Qed.

Context {E : Type} {PE : PersistentEntity E}.
Variables (driver_error : DbError → SqlxError) (from_row : Row → string + E) (table : string) (mode : DeleteMode).
Implicit Types (rows : list Row) (r : Row) (s : St Db W) (tk : Task) (f : Fence) (now : instant) (e before after : E).

Lemma run_stmt_failed {A} (q : Stmt A) f now s ans s' :
  run_stmt driver_error q f now s = (ans, s') → (∀ a, ans ≠ Ok a) → tables s' = tables s.
Proof.
  unfold run_stmt, map_err, mbind, sm_bind, sqlx_point, sm_of. destruct (w_fault (world s)) as [[e|] w]; [by intros [= <- <-]|]. simpl.
  destruct (q f now (tables s)) as [[a' db]| |]; simpl; intros [= <- <-]; [|done..]. intros Hn. by destruct (Hn a').
Qed.

(** A row that cannot be read back. *)
Definition undecodable : Prop := ∃ r m, from_row r = inl m.
Lemma fetch_optional_outcome tk (q : Stmt (list Row)) s :
  match fetch_optional driver_error from_row tk q s with
  | (Ok found, s') => ∃ now out, q (session_fence tk) now (tables s) = Ok (out, tables s') ∧
      match found with None => out = [] | Some e => ∃ r rest, out = r :: rest ∧ from_row r = inr e end
  | (_, s') => tables s' = tables s ∨ undecodable
  end.
Proof.
  unfold fetch_optional. set (body := λ (f : Fence) (now : instant), _ ≫= _).
  pose proof (scoped_outcome (source driver_error) tk body s) as H.
  assert (∀ now s0 ans s1, body (session_fence tk) now s0 = (ans, s1) → (∀ a, ans ≠ Ok a) → tables s1 = tables s0 ∨ undecodable) as Hbad.
  { intros now s0 ans s1. unfold body, mbind, sm_bind.
    destruct (run_stmt driver_error q _ now s0) as [[rows|e|] s2] eqn:Hq.
    2-3: intros [= <- <-] _; left; by eapply run_stmt_failed.
    unfold decode_first. destruct rows as [|r rows]; [intros [= <- <-] Hn; by destruct (Hn None)|].
    unfold mbind, sm_bind, decode. destruct (from_row r) as [m|e] eqn:Hr; intros [= <- <-] Hn; [right; by exists r, m|].
    by destruct (Hn (Some e)). }
  destruct (scoped _ _ _ _) as [[found|e|] s'].
  - destruct H as (now & s0 & s1 & H0 & Hb & H1). unfold body in Hb. apply bind_Ok in Hb as (out & s2 & Hq & Hd).
    apply run_stmt_Ok in Hq. apply decode_first_Ok in Hd as [-> Hd]. exists now, out. by rewrite <- H0, H1.
  - destruct H as [H|(now & s0 & s1 & H0 & Hb & H1)]; [by left|]. rewrite H1, <- H0. by eapply Hbad.
  - destruct H as [H|(now & s0 & s1 & H0 & Hb & H1)]; [by left|]. rewrite H1, <- H0. by eapply Hbad.
Qed.

(** *** The columns *)
Lemma populate_lookup db json new c :
  populate db table json = Ok new → c ∈ pg_columns db table →
  ∃ w, new !! c = Some w ∧
    match map_get c json with Some v => pg_cell table c v = Ok w | None => w = VNull end.
Proof.
  unfold populate. intros H Hc. ok_inv H. injection H as <-. apply mapM_Ok in E0. rename a into cells.
  set (cell := λ col, match map_get col json with Some v => pg_cell table col v | None => Ok VNull end) in *.
  assert (Forall (λ cw : string * Value, cell cw.1 = Ok cw.2) cells ∧ map fst cells = pg_columns db table) as [Hall Hk].
  { clear Hc. induction E0 as [|col cw cols cells Hcw _ [IH1 IH2]]; [done|]. unfold mbind, res_bind in Hcw.
    assert (cell cw.1 = Ok cw.2 ∧ cw.1 = col) as [Hcell Hcol].
    { unfold cell. destruct (map_get col json) as [v|] eqn:Hv; [destruct (pg_cell table col v) eqn:Hp; try done|];
        injection Hcw as <-; simpl; by rewrite Hv. }
    simpl. split; [by constructor|by rewrite Hcol, IH2]. }
  rewrite <- Hk in Hc. destruct (list_to_map cells !! c) as [w|] eqn:Hw.
  2: { apply not_elem_of_list_to_map in Hw. by destruct Hw. }
  exists w. split; [done|]. apply elem_of_list_to_map_2 in Hw. rewrite Forall_forall in Hall. specialize (Hall _ Hw).
  unfold cell in Hall. simpl in Hall. destruct (map_get c json); [done|]. by injection Hall as <-.
Qed.
Lemma named_columns_known db columns : named_columns db table columns = Ok tt → Forall (λ c, c ∈ pg_columns db table) columns.
Proof.
  unfold named_columns. destruct (List.find _ columns) eqn:Hf; [done|]. intros _. apply Forall_forall. intros c Hc%list_elem_of_In.
  pose proof (find_none _ _ Hf c Hc) as H. apply negb_false_iff, bool_decide_eq_true in H. done.
Qed.

(** The keys of [after] that an update of [changed] sets are those. *)
Lemma update_statement_changed before after changed st :
  changed_columns before after = Ok changed → update_statement after (Some changed) = Ok st →
  ∃ m columns, serialized after = Ok m ∧ (∀ c, c ∈ columns ↔ c ∈ changed) ∧ "id" ∉ changed ∧
    (∀ c, c ∈ changed → is_Some (map_get c m)) ∧ Forall (λ c, c ∈ map fst m) columns ∧
    st = match columns with [] => Unchanged | _ => UpdateColumns (column_list columns) m end.
Proof.
  unfold changed_columns, update_statement. intros Hc Hs. ok_inv Hc. injection Hc as <-.
  ok_inv Hs. injection Hs as <-. rename a into b0, a0 into m. simplify_eq.
  set (changed := map fst _). set (columns := List.filter _ (map fst m)).
  assert (∀ c, c ∈ changed → c ∈ map fst m ∧ c ≠ "id") as Hch.
  { intros c ([k v] & -> & Hin)%list_elem_of_fmap. apply list_elem_of_In, filter_In in Hin as [Hin [Hid _]%andb_prop].
    apply list_elem_of_In in Hin. split; [by apply list_elem_of_fmap; exists (k, v)|].
    simpl in *. apply negb_true_iff, bool_decide_eq_false in Hid. done. }
  exists m, columns. split_and!; [done| |by intros [_ []]%Hch| | |done].
  - intros c. unfold columns. rewrite list_elem_of_In, filter_In, <- list_elem_of_In. split.
    + intros [_ [_ (c' & Hc' & ->%bool_decide_eq_true)%existsb_exists]%andb_prop]. by rewrite list_elem_of_In.
    + intros Hin. destruct (Hch c Hin) as [Hm Hid]. split; [done|]. rewrite bool_decide_eq_false_2 by done. simpl.
      apply existsb_exists. exists c. rewrite <- list_elem_of_In, bool_decide_eq_true. done.
  - intros c [Hm _]%Hch. unfold map_get. clear -Hm. induction m as [|[k v] m IH]; [by apply elem_of_nil in Hm|].
    simpl in *. apply elem_of_cons in Hm as [->|Hm]; [rewrite decide_True by done; eauto|]. case_decide; [eauto|by apply IH].
  - apply Forall_forall. intros c [Hin _]%list_elem_of_In%filter_In. by rewrite list_elem_of_In.
Qed.

(** The record's names are names: none is empty. *)
Definition names_ok e : Prop := ∀ m, serialized e = Ok m → Forall (λ kv : string * Value, kv.1 ≠ "") m.
(** [r'] is [r] with the changed columns as [after] has them. *)
Definition writes after (changed : list string) r r' : Prop :=
  (∀ c, c ∉ changed → r' !! c = r !! c) ∧
  (∀ c, c ∈ changed → ∃ m v w, serialized after = Ok m ∧ map_get c m = Some v ∧ pg_cell table c v = Ok w ∧ r' !! c = Some w).

Lemma only_columns_lookup columns (new r : Row) c :
  (only_columns columns new ∪ r) !! c = if bool_decide (c ∈ columns) then match new !! c with Some v => Some v | None => r !! c end else r !! c.
Proof.
  unfold only_columns. rewrite lookup_union. case_bool_decide as Hc.
  - destruct (new !! c) as [v|] eqn:Hn.
    + assert (filter (λ cv : string * Value, cv.1 ∈ columns) new !! c = Some v) as -> by by apply map_lookup_filter_Some.
      by destruct (r !! c).
    + assert (filter (λ cv : string * Value, cv.1 ∈ columns) new !! c = None) as -> by (apply map_lookup_filter_None; by left).
      by destruct (r !! c).
  - assert (filter (λ cv : string * Value, cv.1 ∈ columns) new !! c = None) as ->.
    { apply map_lookup_filter_None. right. intros v _. done. }
    by destruct (r !! c).
Qed.

Lemma update_meaning_changed before after changed st u f now db out db' :
  names_ok after → changed_columns before after = Ok changed → update_statement after (Some changed) = Ok st →
  (match st with
   | Unchanged => select table (λ r, has_id u r && live mode r)
   | UpdateColumns columns json => with_columns columns (λ columns, set_columns table columns json (λ r, has_id u r && live mode r))
   end) f now db = Ok (out, db') →
  ∃ rows rows', db !! table = Some rows ∧ db' = <[table := rows']> db ∧
    Forall2 (λ r r', if chosen f table (λ r, has_id u r && live mode r) r then writes after changed r r' else r' = r) rows rows' ∧
    length out = length (List.filter (chosen f table (λ r, has_id u r && live mode r)) rows) ∧
    (∀ r', r' ∈ out → r' ∈ rows' ∧ has_id u r' = true).
Proof.
  intros Hn Hc Hs H. destruct (update_statement_changed _ _ _ _ Hc Hs) as (m & columns & Hm & Hiff & Hid & Hgot & Hin & ->).
  destruct columns as [|c0 cols]; [|set (columns := c0 :: cols) in *].
  - apply select_spec in H as (rows & Hr & -> & ->). exists rows, rows. split_and!; [done|by rewrite insert_id| |done|].
    + apply Forall_Forall2_diag, Forall_forall. intros r _. case_match; [|done]. split; [done|].
      intros c Hc'. apply Hiff, elem_of_nil in Hc' as [].
    + intros r' [Hr' [_ [Hi _]%andb_prop]%andb_prop]%list_elem_of_In%filter_In. by rewrite list_elem_of_In.
  - unfold with_columns in H. rewrite column_list_reads in H; [|done|].
    2: { apply Forall_forall. intros c Hc'. rewrite Forall_forall in Hin. specialize (Hin _ Hc').
         apply list_elem_of_fmap in Hin as (kv & -> & Hkv). specialize (Hn _ Hm). rewrite Forall_forall in Hn. by apply Hn. }
    assert (named_columns db table columns = Ok tt) as Hknown%named_columns_known.
    { revert H. unfold set_columns, mbind, res_bind, on_table. destruct (db !! table); [|done]. by destruct (named_columns _ _ _) as [[]| |]. }
    apply set_columns_spec, update_rows_spec in H as (rows & rows' & Hr & -> & Hw & Hout & Hin').
    exists rows, rows'. split_and!; [done..| | |].
    + eapply Forall2_impl; [exact Hw|]. intros r r' Hrr. cbv beta in Hrr. case_match; [|done]. destruct Hrr as [Hrr _].
      unfold mbind, res_bind in Hrr. destruct (populate db table m) as [new| |] eqn:Hp; try done. injection Hrr as <-.
      split; intros c Hc'; rewrite only_columns_lookup.
      * rewrite bool_decide_eq_false_2; [done|]. by rewrite Hiff.
      * rewrite Forall_forall in Hknown. pose proof (proj2 (Hiff c) Hc') as Hcol.
        destruct (populate_lookup _ _ _ _ Hp (Hknown _ Hcol)) as (w & Hw' & Hcell).
        rewrite bool_decide_eq_true_2, Hw' by done. destruct (Hgot c Hc') as [v Hv]. rewrite Hv in Hcell. eauto 10.
    + symmetry. by eapply Forall2_length.
    + intros r' Hr'. split; [by apply Hin'|]. apply list_elem_of_lookup in Hr' as [i Hi].
      destruct (Forall2_lookup_r _ _ _ _ _ Hout Hi) as (r & Hri & Hrr). apply list_elem_of_lookup_2 in Hri.
      apply list_elem_of_In, filter_In in Hri as [_ [_ [Hu _]%andb_prop]%andb_prop].
      unfold mbind, res_bind in Hrr. destruct (populate db table m) as [new| |] eqn:Hp; try done. injection Hrr as <-.
      unfold has_id in *. rewrite only_columns_lookup, bool_decide_eq_false_2; [done|]. by rewrite Hiff.
Qed.
End one_row.

(** ** The repository *)
Section repository.
Context {U : Unicode} {L : Libs} {CJ : CursorJson} {PG : Postgres} {PL : PostgresLaws PG} {W : Type} {HW : World W}.
Context {E : Type} {PE : PersistentEntity E} {G : Type} {GR : GroupedRow G}.
Variables (driver_error : DbError → SqlxError) (from_row : Row → string + E) (table : string) (mode : DeleteMode).
Variables (meta : EntityRepoMeta) (pg_list : Fence → instant → Db → ListDb Row E).
Implicit Types (rows : list Row) (r : Row) (s : St Db W) (tk : Task) (rq : Request) (e before after : E).
#[local] Instance pg_repository : CrudRepository E Db W :=
  GenericCrudRepository driver_error from_row table mode meta pg_list.

Lemma fenced_delete f tk id p : session_fence tk = f → fenced f table (λ _, True) (hard_delete_row (W:=W) driver_error table tk id p).
Proof.
  intros Hs. unfold hard_delete_row. eapply fenced_bind; [eapply fenced_fetch_scalar; [done|]|].
  { apply on_id_fenced. intros. apply delete_fenced. }
  intros n _. by apply fenced_ret.
Qed.
Lemma fenced_read {Er A} f (v : sm (St Db W) Er A) : (∀ s, tables (v s).2 = tables s) → fenced f table (λ _, True) v.
Proof. intros Hv s. rewrite Hv. split; [done|]. by destruct (v s).1. Qed.
Lemma fenced_named_refusal {A} f filters (v : sm (St Db W) SourceError A) :
  fenced f table (λ _, True) v → fenced f table (λ _, True) (named_refusal table filters v).
Proof.
  intros Hv. unfold named_refusal. eapply fenced_bind; [by apply fenced_attempt|]. intros [err|a] _; [|by apply fenced_ret].
  eapply (fenced_bind _ _ (λ _, True)); [|intros err' _; apply fenced_err]. unfold name_refused_parameter.
  destruct (undefined_operator _); [|by apply fenced_ret]. destruct (schema_of_table table).
  eapply fenced_bind; [apply fenced_attempt, fenced_keeps, keeps_query|]. intros types _. by apply fenced_ret.
Qed.
Lemma fenced_filtered f tk pg base filters :
  session_fence tk = f → fenced f table (λ _, True) (run_filtered_query (W:=W) driver_error table meta pg_list tk pg base filters).
Proof.
  intros Hs. apply fenced_named_refusal, fenced_scoped; [done|]. intros now.
  eapply fenced_bind; [apply fenced_map_err, fenced_keeps, keeps_point|]. intros _ _. by apply fenced_read.
Qed.

(** C7: the repository stays behind its session's fence. Whatever is asked of it, in either delete mode and
    however it ends, rows of other tables and rows the policies hide from the session are exactly as they were, and
    each entity it answers from its own statements is read from a row the fence shows: of the write transaction
    where one is open, else of the request's connection, else of the task's company. *)
Theorem repository_fenced rq :
  let f := session_fence (rq_task rq) in
  let row := fenced (W:=W) (Er:=RepositoryError) f table (shown f table from_row) in
  let found := fenced (W:=W) (Er:=RepositoryError) f table (shown_if f table from_row) in
  let many := fenced (W:=W) (Er:=RepositoryError) f table (Forall (shown f table from_row)) in
  let blind A := fenced (W:=W) (Er:=RepositoryError) (A:=A) f table (λ _, True) in
  (∀ e, row (repo_create rq e)) ∧ (∀ id, found (repo_find_by_id rq id)) ∧
  (∀ id, found (repo_find_by_id_including_deleted rq id)) ∧
  (∀ e, row (repo_update rq e)) ∧ (∀ before after, found (repo_update_changed rq before after)) ∧
  (∀ id, blind _ (repo_soft_delete rq id)) ∧ (∀ id, found (repo_restore rq id)) ∧ (∀ id, blind _ (repo_hard_delete rq id)) ∧
  (∀ page limit filters, blind _ (repo_list_filtered rq page limit filters)) ∧
  (∀ page limit, fenced f table (λ rt, Forall (shown f table from_row) rt.1) (repo_list_deleted rq page limit)) ∧
  (∀ page limit filters, blind _ (repo_list_deleted_filtered rq page limit filters)) ∧
  blind _ (repo_count rq) ∧ blind _ (repo_count_deleted rq) ∧
  (∀ es, many (repo_bulk_create rq es)) ∧ (∀ ids, blind _ (repo_bulk_soft_delete rq ids)) ∧
  (∀ ids, many (repo_bulk_restore rq ids)) ∧ (∀ ids, blind _ (repo_bulk_hard_delete rq ids)) ∧
  (∀ pairs, many (repo_bulk_update_changed rq pairs)).
Proof.
  set (tk := rq_task rq). intros f row found many blind.
  set (opt := fenced (W:=W) (Er:=SourceError) f table (shown_if f table from_row)). set (any A := fenced (W:=W) (Er:=SourceError) (A:=A) f table (λ _, True)).
  assert (∀ q, stmt_fenced f table (all_visible f table) q → opt (fetch_optional driver_error from_row tk q)) as Hopt
    by (intros q Hq; by apply fenced_fetch_optional).
  assert (∀ id, opt (pg_find_by_id driver_error from_row table mode tk id)) as Hfind.
  { intros id. apply Hopt, on_id_fenced. intros. apply select_fenced. }
  assert (∀ id e only, opt (update_guarded driver_error from_row table mode tk id e only)) as Hup.
  { intros id e only. eapply fenced_bind; [apply fenced_lift|]. intros st _. apply Hopt, update_meaning_fenced. }
  assert (∀ p id, any _ (hard_delete_row driver_error table tk id p)) as Hdel by (intros; by apply fenced_delete).
  assert (∀ p, any _ (count_where driver_error table tk p)) as Hcount by (intros; by apply fenced_count).
  assert (∀ ids name why q, (∀ p, stmt_fenced f table (λ _, True) (q p)) → any _ (counted_batch driver_error table tk ids name why q))
    as Hbatch by (intros; by apply fenced_counted_batch).
  assert (∀ ids, any _ (bulk_delete driver_error table tk ids)) as Hbulk by (intros; apply Hbatch; intros; apply delete_fenced).
  split_and!.
  - intros e. apply fenced_map_err. eapply fenced_bind; [apply fenced_lift|]. intros st _. apply fenced_scoped; [done|].
    intros now. eapply fenced_bind; [apply fenced_run_stmt, insert_meaning_fenced|]. intros rows Hv.
    destruct Hv as [|r rows Hr _]; [apply fenced_err|by apply fenced_decode].
  - intros id. apply fenced_map_err, Hfind.
  - intros id. apply fenced_map_err. destruct mode; [|apply Hfind]. apply Hopt, on_id_fenced. intros. apply select_fenced.
  - intros e. eapply fenced_bind; [apply fenced_map_err, Hup|]. intros [saved|] Hs; [by apply fenced_ret|apply fenced_err].
  - intros before after. apply fenced_map_err. eapply fenced_bind; [apply fenced_lift|]. intros changed _. apply Hup.
  - intros id. apply fenced_map_err. destruct mode; [|apply Hdel].
    eapply fenced_bind; [eapply fenced_fetch_scalar; [done|apply on_id_fenced; intros; apply update_fenced]|]. intros rows _. by apply fenced_ret.
  - intros id. apply fenced_map_err. destruct mode; [|apply Hfind]. apply Hopt, on_id_fenced. intros. apply update_fenced.
  - intros id. apply fenced_map_err. destruct mode; apply Hdel.
  - intros page limit filters. eapply fenced_bind; [by apply fenced_map_err, fenced_filtered|]. intros rt _. by apply fenced_ret.
  - intros page limit. cbn [repo_list_deleted pg_repository GenericCrudRepository]. destruct mode; [|apply fenced_ret; constructor].
    eapply fenced_bind; [apply fenced_map_err, fenced_paged; done|]. intros rt Hv. by apply fenced_ret.
  - intros page limit filters. cbn [repo_list_deleted_filtered pg_repository GenericCrudRepository].
    destruct mode; [|by apply fenced_ret]. eapply fenced_bind; [by apply fenced_map_err, fenced_filtered|]. intros rt _. by apply fenced_ret.
  - apply fenced_map_err, Hcount.
  - cbn [repo_count_deleted pg_repository GenericCrudRepository]. destruct mode; [apply fenced_map_err, Hcount|by apply fenced_ret].
  - intros es. apply fenced_map_err. unfold pg_bulk_create. destruct es; [by apply fenced_ret|]. apply fenced_in_unit; [done|].
    intros now. apply fenced_insert_each.
  - intros ids. apply fenced_map_err. destruct mode; [|apply Hbulk]. apply Hbatch. intros. apply update_count_fenced.
  - intros ids. cbn [repo_bulk_restore pg_repository GenericCrudRepository]. destruct mode; [|by apply fenced_ret].
    by apply fenced_map_err, fenced_bulk_restore.
  - intros ids. apply fenced_map_err. destruct mode; [|apply Hbulk]. apply Hbatch. intros. apply delete_fenced.
  - intros pairs. apply fenced_map_err. unfold pg_bulk_update_changed. destruct pairs; [by apply fenced_ret|].
    apply fenced_in_unit; [done|]. intros now. apply fenced_update_each.
Qed.

(** C12: a batch is done whole or not at all. A batch of ids that answers has found as many distinct rows as there are ids,
    each shown by the fence and of the right kind, and has changed these and nothing else: marked, purged, deleted or
    restored. A batch of rows that answers has one row for each. When any of them fails, at its start, at an item, at the count
    of its rows, at the commit, or by a panic, the tables are what they were. The table has its primary key. *)
Theorem batches_all_or_nothing tk ids s rows :
  tables s !! table = Some rows → keyed rows →
  let f := session_fence tk in
  let named_and p := λ r, named ids r && p r in
  all_or_nothing (λ n db', batch_done table f ids is_active rows (λ rows', ∃ now,
      rewritten f (tables s) table (named_and is_active) (stamp_deleted now) rows rows') (Z.to_nat n) (tables s) db')
    s (pg_bulk_soft_delete driver_error table tk ids s) ∧
  all_or_nothing (λ n db', batch_done table f ids is_trashed rows (λ rows', rows' = deleted_rows table f ids is_trashed rows)
      (Z.to_nat n) (tables s) db')
    s (bulk_permanent_delete driver_error table tk ids s) ∧
  all_or_nothing (λ n db', batch_done table f ids (λ _, true) rows (λ rows', rows' = deleted_rows table f ids (λ _, true) rows)
      (Z.to_nat n) (tables s) db')
    s (bulk_delete driver_error table tk ids s) ∧
  all_or_nothing (λ es db', batch_done table f ids is_trashed rows (λ rows', ∃ now out,
      rewritten f (tables s) table (named_and is_trashed) (clear_deleted now) rows rows' ∧
      (∀ r, r ∈ out → r ∈ rows') ∧ Forall2 (λ r e, from_row r = inr e) out es) (length es) (tables s) db')
    s (pg_bulk_restore driver_error from_row table tk ids s) ∧
  (∀ entities, all_or_nothing (λ out _, length out = length entities) s (pg_bulk_create driver_error from_row table tk entities s)) ∧
  (∀ pairs, all_or_nothing (λ out _, length out = length pairs) s (pg_bulk_update_changed driver_error from_row table mode tk pairs s)) ∧
  (∀ entities, all_or_nothing (λ out _, length out = length entities) s (bulk_update_rows driver_error from_row table mode tk entities s)).
Proof.
  intros Hr Hk f named_and. split_and!.
  - by apply soft_delete_batch.
  - by apply (delete_batch driver_error table tk s rows Hr Hk ids is_trashed (λ q r, q r && is_trashed r)).
  - apply (delete_batch driver_error table tk s rows Hr Hk ids (λ _, true) (λ q, q)). intros. by rewrite andb_true_r.
  - by apply restore_batch.
  - intros. apply create_batch.
  - intros. apply changed_batch.
  - intros. apply whole_batch.
Qed.
End repository.

(** ** Updates *)
Section updates.
Context {L : Libs} {PG : Postgres} {W : Type} {HW : World W} {E : Type} {PE : PersistentEntity E}.
Variables (driver_error : DbError → SqlxError) (from_row : Row → string + E) (table : string) (mode : DeleteMode).
Implicit Types (rows : list Row) (r : Row) (s : St Db W) (tk : Task) (id : string) (before after : E).

(** C13: an update from a row as it was read to a row as it should be writes the columns that differ between
    the two, and only these, in the one row of that id that the fence shows and that is not deleted: every other
    column keeps what the table holds by then, whoever wrote it since, and never the value read before; the id is
    kept, and so is every other row. It answers nothing exactly where there is no such row. When it fails, the tables are as
    they were, but for a row that does not read back as the entity. *)
Theorem changed_columns_alone tk id before after s :
  names_ok after →
  match pg_update_changed driver_error from_row table mode tk id before after s with
  | (Ok found, s') => ∃ changed u rows rows',
      changed_columns before after = Ok changed ∧ "id" ∉ changed ∧ pg_uuid id = Some u ∧
      tables s !! table = Some rows ∧ tables s' = <[table := rows']> (tables s) ∧
      let here := chosen (session_fence tk) table (λ r, has_id u r && live mode r) in
      Forall2 (λ r r', if here r then writes table after changed r r' else r' = r) rows rows' ∧
      match found with
      | None => List.filter here rows = []
      | Some e => List.filter here rows ≠ [] ∧ ∃ r', r' ∈ rows' ∧ has_id u r' = true ∧ from_row r' = inr e
      end
  | (_, s') => tables s' = tables s ∨ undecodable (E:=E) from_row
  end.
Proof.
  intros Hn. unfold pg_update_changed, update_guarded, sm_lift, mbind, sm_bind.
  destruct (changed_columns before after) as [changed| |] eqn:Hc; [|by left..].
  destruct (update_statement after (Some changed)) as [st| |] eqn:Hs; [|by left..].
  pose proof (fetch_optional_outcome driver_error from_row tk (update_meaning table mode st id) s) as H.
  destruct (fetch_optional _ _ _ _ _) as [[found|e|] s']; [|done..]. destruct H as (now & out & Hq & Hf).
  unfold update_meaning, on_id, on_table, mbind, res_bind, by_id in Hq. destruct (tables s !! table) eqn:Ht in Hq; [|done]. destruct (pg_uuid id) as [u|]; [|done].
  pose proof (update_meaning_changed table mode before after changed st u _ now (tables s) out _ Hn Hc Hs Hq)
    as (rows & rows' & Hr & Hdb & Hw & Hlen & Hout).
  destruct (update_statement_changed _ _ _ _ Hc Hs) as (_ & _ & _ & _ & Hid & _).
  exists changed, u, rows, rows'. split_and!; [done..|]. destruct found as [e|].
  - destruct Hf as (r' & rest & -> & Hr'). split; [by intros Hnil; rewrite Hnil in Hlen|]. exists r'. destruct (Hout r') as [? ?]; [left|done].
  - subst out. apply nil_length_inv. by rewrite <- Hlen.
Qed.

(** Soft deletion and restoration undo each other. *)
Definition never_deleted r : Prop := ∃ m, r !! "metadata" = Some (VObject m) ∧ map_get "deleted_at" m = None.
Lemma filter_insert_other k v (m : list (string * Value)) :
  map_get k m = None → List.filter (λ kv, negb (bool_decide (kv.1 = k))) (map_insert k v m) = m.
Proof.
  assert (∀ m, map_get k m = None → List.filter (λ kv : string * Value, negb (bool_decide (kv.1 = k))) m = m) as Hid.
  { clear m. unfold map_get. induction m as [|[j w] m IH]; [done|]. simpl. case_decide; [done|]. intros Hg.
    rewrite bool_decide_eq_false_2 by done. simpl. by rewrite IH. }
  induction m as [|[j w] m IH]; intros H; simpl.
  - by rewrite bool_decide_eq_true_2.
  - pose proof H as H'. unfold map_get in H. simpl in H. case_decide as Hj; [done|].
    destruct (String.compare k j) eqn:Hkj.
    + by apply String.compare_eq_iff in Hkj.
    + cbn [List.filter fst]. rewrite bool_decide_eq_true_2 by done. exact (Hid ((j, w) :: m) H').
    + simpl. rewrite bool_decide_eq_false_2 by done. simpl. f_equal. by apply IH.
Qed.
Lemma restore_of_deleted now now' r r' :
  never_deleted r → stamp_deleted now r = Ok r' → is_active r = true ∧ is_trashed r' = true ∧ clear_deleted now' r' = Ok r.
Proof.
  intros (m & Hm & Hd). unfold stamp_deleted. rewrite Hm. intros [= <-]. split_and!.
  - unfold is_active, deleted_text. rewrite Hm. simpl. by rewrite Hd.
  - unfold is_trashed, is_active, deleted_text. rewrite lookup_insert_eq. simpl. by rewrite map_get_insert.
  - unfold clear_deleted. rewrite lookup_insert_eq, filter_insert_other by done. f_equal. rewrite insert_insert_eq. by apply insert_id.
Qed.
End updates.

(** ** Aggregates *)
Section aggregate.
Context {U : Unicode} {L : Libs} {PG : Postgres} {G : Type} {GR : GroupedRow G}.
Variables (table : string) (meta : EntityRepoMeta) (overflow_checks : bool).
Implicit Types (db : Db) (spec : AggregateSpec) (q : QueryFilter).

(** The key of a reduction's values, and its item. *)
Definition reduction_key (fc : AggregateFn * string) : string := fn_label fc.1 +:+ ":" +:+ fc.2.
Definition reduction_item (fc : AggregateFn * string) : string :=
  fn_sql fc.1 +:+ "(" +:+ fc.2 +:+ ")::text AS " +:+ in_quotes (reduction_key fc).
Definition reducible (columns : gmap string string) (fc : AggregateFn * string) : Prop :=
  ∃ t, columns !! fc.2 = Some t ∧ (requires_numeric fc.1 = true → is_numeric_pg_type t = true).
Lemma reduction_Ok columns fc item :
  reduction columns fc = Ok item → reducible columns fc ∧ item = (reduction_item fc, reduction_key fc).
Proof.
  unfold reduction, resolve_column, reducible. destruct (columns !! fc.2) as [t|]; [|done]. cbn [mbind option_bind].
  destruct (requires_numeric fc.1 && negb (is_numeric_pg_type t)) eqn:Hnum; [done|]. intros [= <-]. split; [|done]. exists t. split; [done|].
  intros Hr. rewrite Hr in Hnum. by apply negb_false_iff in Hnum.
Qed.
Lemma reduction_refused columns fc err :
  reduction columns fc = Err err →
  ∃ r, err = SourceRefused r ∧ parameter r = fn_label fc.1 ∧
    (reason r = UnknownColumn ∧ columns !! fc.2 = None ∨ reason r = NotNumeric ∧ requires_numeric fc.1 = true).
Proof.
  unfold reduction, resolve_column. destruct (columns !! fc.2) as [t|]; cbn [mbind option_bind]; [|intros [= <-]; eauto 8].
  destruct (requires_numeric fc.1 && negb (is_numeric_pg_type t)) eqn:Hnum; [|done]. intros [= <-].
  apply andb_prop in Hnum as [Hnum _]. eauto 8.
Qed.

(** The keys of a walk in which a total comes first. *)
Lemma aggregate_of_total_first keys (limit : Z) (total_row : G) (groups : list G) :
  0 ≤ limit → is_total_row total_row = true → Forall (λ g, is_total_row g = false) groups →
  aggregate_of_rows keys limit (take (Z.to_nat (limit + 2)) (total_row :: groups)) =
  mkAggregate (map (read_group keys) (take (Z.to_nat limit) groups)) (read_group keys total_row)
    (bool_decide (limit < Z.of_nat (length groups))).
Proof.
  intros Hl Ht Hg. assert (Z.to_nat (limit + 2) = S (S (Z.to_nat limit))) as -> by lia. simpl.
  set (seen := take (S (Z.to_nat limit)) groups). assert (Forall (λ g, is_total_row g = false) seen) as Hs by by apply Forall_take.
  assert (List.filter (λ row, negb (is_total_row row)) seen = seen ∧ List.filter is_total_row seen = []) as [H1 H2].
  { clear -Hs. induction Hs as [|g l Hg _ [IH1 IH2]]; [done|]. simpl. rewrite Hg. simpl. by rewrite IH1. }
  unfold aggregate_of_rows. simpl. rewrite Ht. simpl. rewrite H1, H2. simpl. rewrite length_map.
  unfold seen. f_equal.
  - change (map ?g ?l) with (g <$> l). rewrite <- fmap_take, take_take. do 2 f_equal. lia.
  - rewrite length_take. case_bool_decide; [apply Z.ltb_lt|apply Z.ltb_ge]; lia.
Qed.

(** What an aggregate's statement may name, and where it says it. *)
Definition label_target spec : option (string * string) :=
  '(rel_table, _) ← label_relation meta spec; field ← Http.label_field spec; Some (qualify_relation_table table rel_table, field).
Definition column_known db spec : Prop :=
  Forall (reducible (catalog db table)) (Http.reductions spec) ∧
  (∀ field, Http.group_by spec = Some field → is_Some (catalog db table !! field)) ∧
  (∀ relation field, label_target spec = Some (relation, field) → is_Some (catalog db relation !! field)).
Definition says_what_it_names spec q (sql : string) : Prop :=
  let items := match Http.reductions spec with [] => "" | fcs => ", " +:+ str_join ", " (map reduction_item fcs) end in
  let where_clause := (build_where_clause q).1 in
  match Http.group_by spec with
  | None => sql = total_sql table items where_clause
  | Some column => ∃ label_select label_join limit, sql = grouped_sql table column label_select label_join items where_clause limit ∧
      (group_limit_of spec + 2 ≤ u64_max → limit = group_limit_of spec + 2)
  end.
(** What is read off the rows that the limit fetches, a total before the groups. *)
Definition reads_as_fetched spec (keys : list string) : Prop := ∀ (total_row : G) groups,
  is_total_row total_row = true → Forall (λ g, is_total_row g = false) groups →
  let limit := group_limit_of spec in 0 ≤ limit → limit + 2 ≤ u64_max →
  aggregate_of_rows keys limit (take (Z.to_nat (limit + 2)) (total_row :: groups)) =
  mkAggregate (map (read_group keys) (take (Z.to_nat limit) groups)) (read_group keys total_row)
    (bool_decide (limit < Z.of_nat (length groups))).

Lemma reductions_Ok columns fcs items :
  mapM (reduction columns) fcs = Ok items →
  Forall (reducible columns) fcs ∧ map fst items = map reduction_item fcs ∧ map snd items = map reduction_key fcs.
Proof.
  intros Hitems%mapM_Ok. induction Hitems as [|fc item fcs items (Hk & ->)%reduction_Ok _ (IH1 & IH2 & IH3)]; [done|].
  split; [by constructor|]. simpl. by rewrite IH2, IH3.
Qed.
Lemma label_answers db spec :
  match
    match Http.group_by spec, Http.label_field spec, label_relation meta spec with
    | Some _, Some label_field, Some (rel_table, base_fk) =>
        let qualified := qualify_relation_table table rel_table in
        label_parts (catalog db qualified) label_field qualified base_fk
    | _, _, _ => Ok ("", "")
    end
  with
  | Ok _ => ∀ relation field, label_target spec = Some (relation, field) → is_Some (catalog db relation !! field)
  | Err err => ∃ field, err = SourceRefused (group_label_refusal field)
  | Panic => False
  end.
Proof.
  unfold label_target. destruct (Http.group_by spec) as [g|] eqn:Hg.
  2: { intros relation field H. unfold label_relation in H. by rewrite Hg in H. }
  destruct (Http.label_field spec) as [lf|] eqn:Hl; destruct (label_relation meta spec) as [[rel fk]|]; try done.
  unfold label_parts, resolve_column. destruct (catalog db _ !! lf) eqn:Hc; cbn [mbind option_bind]; [|eauto].
  intros relation field [= <- <-]. by rewrite Hc.
Qed.

End aggregate.

(** ** A repository of notes *)
Module PgExample.
#[local] Existing Instance Concrete.libs.
#[local] Existing Instance ConcreteWorld.demo_world.
#[local] Existing Instance ConcreteJson.cursor_json.
#[local] Instance unicode : Unicode := ascii_unicode.

Record Note := mkNote { n_id : string; n_title : string; n_body : string }.
Definition note_value (n : Note) : Value :=
  VObject [("body", VString (n_body n)); ("id", VString (n_id n)); ("title", VString (n_title n))].
#[local] Instance note_entity : PersistentEntity Note := {|
  entity_id := n_id; set_entity_id i n := mkNote i (n_title n) (n_body n);
  created_at _ := None; set_created_at _ n := n; updated_at _ := None; set_updated_at _ n := n;
  deleted_at _ := None; set_deleted_at _ n := n;
  write_protected_fields := []; state_fields := []; references := []; type_name := "notes::Note";
  entity_value n := inr (note_value n);
  entity_of_value _ := inl (mkPathError [] "unread") |}.
Definition text_at (r : Row) (c : string) : option string := match r !! c with Some (VString s) => Some s | _ => None end.
Definition note_row (r : Row) : string + Note :=
  match text_at r "id", text_at r "title", text_at r "body" with
  | Some i, Some t, Some b => inr (mkNote i t b)
  | _, _, _ => inl "unexpected null"
  end.

(** A database of tables with one set of columns, each fenced by its company. *)
Definition ex_visible (f : Fence) (r : Row) : bool :=
  match f.1 with Some company => bool_decide (text_at r "company_id" = Some (uuid_to_string company)) | None => true end.
#[local] Instance ex_pg : Postgres := {|
  pg_uuid := parse_uuid;
  pg_columns _ _ := ["id"; "title"; "body"; "company_id"; "metadata"];
  pg_information_schema _ _ _ := [("id", "uuid"); ("title", "text"); ("body", "text"); ("stars", "integer")];
  pg_cell _ _ v := Ok v;
  pg_default f _ _ _ col := Ok (if bool_decide (col = "company_id") then from_option (VString ∘ uuid_to_string) VNull f.1 else VNull);
  pg_refuses f _ _ r := if ex_visible f r then None else Some "new row violates row-level security policy";
  pg_keeps _ _ _ _ := None;
  pg_visible f _ r := ex_visible f r;
  pg_now_text now := show_Z now;
  pg_text_le a b := match String.compare a b with Gt => false | _ => true end;
  pg_same_value _ _ := value_eqb |}.
#[local] Instance ex_pg_laws : PostgresLaws ex_pg.
Proof. split. intros f db table r. simpl. by destruct (ex_visible f r). Qed.

Definition ex_row (i title company : string) (metadata : list (string * Value)) : Row :=
  list_to_map [("id", VString i); ("title", VString title); ("body", VString "text"); ("company_id", VString company);
               ("metadata", VObject metadata)].
Definition ex_rows : list Row :=
  [ex_row "1" "one" "7" []; ex_row "2" "two" "7" []; ex_row "3" "three" "7" [("deleted_at", VString "9")]; ex_row "4" "four" "8" []].
Definition ex_state (faults : list (option string)) : St Db ConcreteWorld.DW :=
  mkSt {["notes" := ex_rows]} (ConcreteWorld.mkDW faults 100 1%N).
Definition ex_task : Task := {| task_company := Some 7%N; task_conn := None; task_correlation := None; task_tx := None |}.
Definition ex_request : Request := mkRequest ex_task None None 0.
Definition ex_driver (e : DbError) : SqlxError := DriverFailed e.
Definition ex_meta : EntityRepoMeta := mkMeta ∅ ["title"] (Some "org_unit_id") [("author", "people", "authorId")].
(** The ids of the rows with a mark, and of those without. *)
Definition ex_ids (s : St Db ConcreteWorld.DW) : list (option string) * list (option string) :=
  let rows := default [] (tables s !! "notes") in
  (map row_id_text (List.filter is_trashed rows), map row_id_text (List.filter is_active rows)).
Definition no_list (_ : Fence) (_ : instant) (_ : Db) : ListDb Row Note := {|
  db_columns _ _ _ := Ok None; db_catalog _ := Ok []; db_count _ _ := Ok 0; db_explain _ _ := Ok VNull; db_fetch _ _ := Ok [];
  ListQuery.row_id _ := None; col_text _ _ _ := None; ListQuery.from_row := note_row |}.
#[local] Instance notes : CrudRepository Note Db ConcreteWorld.DW :=
  GenericCrudRepository ex_driver note_row "notes" SoftDelete ex_meta no_list.

(** A row of another company is neither read nor touched. *)
Lemma repository_fenced_witness :
  PostgresLaws ex_pg ∧
  fenced (Er:=RepositoryError) (Some 7%N, None) "notes" (λ _, True) (repo_soft_delete ex_request "4") ∧
  (repo_soft_delete ex_request "4" (ex_state [])).1 = Ok false ∧
  (repo_find_by_id ex_request "4" (ex_state [])).1 = Ok None ∧
  (repo_find_by_id ex_request "1" (ex_state [])).1 = Ok (Some (mkNote "1" "one" "text")) ∧
  ex_ids (repo_soft_delete ex_request "1" (ex_state [])).2 = ([Some "1"; Some "3"], [Some "2"; Some "4"]).
Proof.
  split; [exact ex_pg_laws|]. split; [|split_and!; by_vm].
  destruct (repository_fenced (PL:=ex_pg_laws) (HW:=ConcreteWorld.demo_world) ex_driver note_row "notes" SoftDelete ex_meta no_list
    ex_request) as (_ & _ & _ & _ & _ & H & _).
  exact (H "4").
Defined.

(** Two rows are deleted, or, with one among the ids that is another's, none. *)
Lemma batches_all_or_nothing_witness :
  tables (ex_state []) !! "notes" = Some ex_rows ∧ keyed ex_rows ∧
  (pg_bulk_soft_delete ex_driver "notes" ex_task ["1"; "2"] (ex_state [])).1 = Ok 2 ∧
  ex_ids (pg_bulk_soft_delete ex_driver "notes" ex_task ["1"; "2"] (ex_state [])).2 = ([Some "1"; Some "2"; Some "3"], [Some "4"]) ∧
  (pg_bulk_soft_delete ex_driver "notes" ex_task ["1"; "4"] (ex_state [])).1 =
    Err (SourceOther "bulk_soft_delete: 1 of 2 ids were not active/deletable; rolled back") ∧
  tables (pg_bulk_soft_delete ex_driver "notes" ex_task ["1"; "4"] (ex_state [])).2 = tables (ex_state []).
Proof.
  assert (tables (ex_state []) !! "notes" = Some ex_rows) as Hr by reflexivity.
  assert (keyed ex_rows) as Hk by by_dec.
  split; [exact Hr|]. split; [exact Hk|]. split; [by_vm|]. split; [by_vm|].
  assert ((pg_bulk_soft_delete ex_driver "notes" ex_task ["1"; "4"] (ex_state [])).1 =
    Err (SourceOther "bulk_soft_delete: 1 of 2 ids were not active/deletable; rolled back")) as He by by_vm.
  split; [exact He|].
  destruct (batches_all_or_nothing ex_driver note_row "notes" SoftDelete ex_task ["1"; "4"] (ex_state []) ex_rows Hr Hk) as [H _].
  unfold all_or_nothing in H. destruct (pg_bulk_soft_delete _ _ _ _ _) as [ans s']. simpl in He. subst ans. exact H.
Defined.

(** The title as it was changed, the body as another request left it meanwhile. *)
Lemma changed_columns_alone_witness :
  names_ok (mkNote "1" "uno" "read before") ∧
  ∃ changed rows' r',
    changed_columns (mkNote "1" "one" "read before") (mkNote "1" "uno" "read before") = Ok changed ∧ changed = ["title"] ∧
    tables (pg_update_changed ex_driver note_row "notes" SoftDelete ex_task "1" (mkNote "1" "one" "read before")
      (mkNote "1" "uno" "read before") (ex_state [])).2 = <["notes" := rows']> (tables (ex_state [])) ∧
    r' ∈ rows' ∧ note_row r' = inr (mkNote "1" "uno" "text").
Proof.
  assert (names_ok (mkNote "1" "uno" "read before")) as Hn by (intros m [= <-]; by_dec).
  split; [exact Hn|].
  pose proof (changed_columns_alone ex_driver note_row "notes" SoftDelete ex_task "1" (mkNote "1" "one" "read before")
    (mkNote "1" "uno" "read before") (ex_state []) Hn) as H.
  assert ((pg_update_changed ex_driver note_row "notes" SoftDelete ex_task "1" (mkNote "1" "one" "read before")
    (mkNote "1" "uno" "read before") (ex_state [])).1 = Ok (Some (mkNote "1" "uno" "text"))) as Ha by by_vm.
  destruct (pg_update_changed _ _ _ _ _ _ _ _ _) as [ans s']. simpl in Ha. subst ans.
  destruct H as (changed & u & rows & rows' & Hc & _ & _ & Hrows & Hs & _ & _ & r' & Hr' & _ & Hread).
  exists changed, rows', r'. assert (changed = ["title"]) as -> by (apply (f_equal (λ r, match r with Ok l => l | _ => [] end)) in Hc; rewrite <- Hc; by_vm).
  auto 10.
Defined.

(** The statement of a sum by body. *)
#[local] Instance no_groups : GroupedRow unit := {| g_text _ _ := None; g_int _ _ := None |}.
Definition ex_spec (func : AggregateFn) (column : string) : AggregateSpec :=
  Http.mkSpec (Some "body") [(func, column)] 2 None.
Definition ex_sum : string := str_concat (map (λ part, match part with Some s => s | None => String double_quote "" end)
  [Some "SELECT GROUPING(body) AS __is_total, (body)::text AS __group_key, COUNT(*) AS __count, SUM(stars)::text AS ";
   None; Some "sum:stars"; None;
   Some " FROM notes GROUP BY GROUPING SETS ((body), ()) ORDER BY __is_total DESC, __count DESC, __group_key LIMIT 4"]).
Example aggregate_said :
  let answer spec := res_map_err (λ err, match err with SourceRefused r => (parameter r, reason r) | _ => (EmptyString, InvalidValue) end)
    (aggregate_statement "notes" ex_meta true (tables (ex_state [])) spec filter_new) in
  answer (ex_spec Sum "stars") = Ok (ex_sum, [], ["sum:stars"]) ∧
  answer (ex_spec Sum "title") = Err ("sum", NotNumeric) ∧
  answer (ex_spec Max "stars) FROM users --") = Err ("max", UnknownColumn).
Proof. split_and!; by_vm. Qed.

(** ** Where the repository parts from its comments *)

(** The generated lookup that includes the deleted finds these alone. *)
Example including_deleted_excludes_the_live :
  (repo_find_by_id_including_deleted ex_request "1" (ex_state [])).1 = Ok None ∧
  (repo_find_by_id_including_deleted ex_request "3" (ex_state [])).1 = Ok (Some (mkNote "3" "three" "text")).
Proof. split; by_vm. Qed.
(** A client's filter on the company column is dropped in two spellings, and kept in others that name it. *)
Example company_filter_kept :
  strip_client_company_filters ex_meta [("org_unit_id", "8"); ("orgUnitId[eq]", "8"); ("orgUnit_id", "8")] = [("orgUnit_id", "8")] ∧
  sanitize_field_name "orgUnit_id" = Some "org_unit_id".
Proof. split; by_vm. Qed.
(** A whole update of a record that is only its id is no statement, nor is one of a name with a quote. *)
Example whole_update_unread :
  read_columns (plain_column_list []) = None ∧
  let name := String "a" (String double_quote "b") in
  read_columns (plain_column_list [name]) = None ∧ read_columns (column_list [name]) = Some [name].
Proof. cbv zeta. split_and!; by_vm. Qed.
(** A limit past the machine's integers. *)
Example group_limit_overflows :
  fetch_limit true u64_max = Panic ∧ fetch_limit false u64_max = Ok 1.
Proof. split; by_vm. Qed.
End PgExample.
